(* ===== verification/_CoqProject ===== *)
-Q . S2P
Prelude.v
Types.v
Crc.v
SequenceTracker.v
Recovery.v
Merger.v
Pipeline.v
InOrder.v
AbArbiter.v
OrderTable.v
Levels.v
OrderBook.v
BookTotals.v
Wire.v
Itch.v
Deep.v
Pitch.v
Mdp3.v
Nbbo.v
EventBytes.v
Journal.v
EventStore.v
NbboJournal.v
Framing.v
FeedSession.v
VenueFeeds.v
AfxdpReceiver.v
AfxdpCustody.v
Spsc.v
Spmc.v
Floats.v
Rounding.v
Histogram.v
Matching.v
Features.v
Strategy.v
Pnl.v
Backtest.v
JitBridge.v
Bitfinex.v
WireParse.v
DecimalText.v
Sidecar.v
AbEvidence.v
WireReplay.v
FeedSender.v
CaptureFiles.v
MergeModes.v
JournalTools.v
Loopback.v
ReplayService.v
AlphaLab.v
PurgedCv.v
Signals.v
Evaluator.v
Capacity.v
Bootstrap.v
ResearchStrategies.v
Experiment.v
OfiBacktest.v
Sharded.v
ShardedRun.v
Intrusive.v
IntrusiveQueues.v
BookEngines.v
BookBench.v
HotPath.v
