(* ===== verification/Prelude.v ===== *)
(** * MultiFeed: a verification library of the market-data pipeline

    ** The program

    MultiFeed turns recorded and live market-data bytes into one canonical
    stream of [BookEvent]s and works on that stream:

<<
  datagrams, capture files
     |  wire/framing.cpp, feed_session.cpp, event_loop.cpp, transport/afxdp
     |      Framing FeedSession VenueFeeds AfxdpReceiver AfxdpCustody
     |      WireReplay FeedSender Loopback
     |  apps/phase1_parser_validate, phase2_ab_evidence         CaptureFiles
     v
  venue messages
     |  proto/nasdaq, proto/iex, proto/cboe, parsers/mdp3,
     |  live/bitfinex              Wire Itch Deep Pitch Mdp3 Bitfinex WireParse
     |                                                     DecimalText Sidecar
     v
  BookEvent (core/types.hpp)                                    Types EventBytes
     |  phase2: sequence tracking, gap recovery, A/B arbitration, merge
     |     SequenceTracker Recovery Merger Pipeline InOrder AbArbiter AbEvidence
     |  phase2/jit_bridge.cpp, core/spsc_ring.hpp, core/spmc_seqlock_ring.hpp,
     |  runtime/sharded_pipeline.hpp    JitBridge Spsc Spmc Sharded ShardedRun
     v
  merged stream                                              Crc MergeModes
     |  phase3: order books, consolidated quotes, features
     |            OrderTable Levels OrderBook BookTotals Intrusive
     |            IntrusiveQueues BookEngines Nbbo Floats Rounding Features
     |  journal, research/event_store.cpp, service, tools
     |               Journal EventStore NbboJournal ReplayService JournalTools
     v
  phase4: strategy, simulated matching, profit and loss, backtest
                                        Matching Strategy Pnl Backtest
  research: strategies, experiments, features and labels, cross-validation
                       ResearchStrategies Experiment AlphaLab PurgedCv
            Signals Evaluator Capacity Bootstrap OfiBacktest Histogram
  benchmarks                                                BookBench HotPath
>>

    Components call each other downwards; the only upward calls are callbacks
    (sinks, publishers, the fill callback), modelled as type classes
    ([MergedEventSink], [IRecoveryHandler], [IFeaturePublisher],
    [IOrderRouter]) whose instances are the components that implement them, so
    that a component's theorems hold for every implementation of what it calls.

    ** Conventions

    A [w]-bit unsigned integer is a [Z]; wherever the source may wrap the
    reduction is written out ([u32], [u64], [+64], [-64]). Signed 64-bit
    arithmetic is on [Z]: the program never comes near its overflow, which C++
    leaves undefined. Bytes are [Z]s below 256, a file is the list of its
    bytes. A C++ object with methods is a record and functions that return the
    new record; out parameters are results; [bool] returns and optional
    results stay what they are. Loops that are not structural run on fuel, and
    the theorems show that the fuel suffices: the number of queued events
    ([merger_drain]), the bytes left (parsers, framers, journal readers), the
    published count ([read_loop]), a bound on the buckets one trade can close
    ([vpin_fuel]). Tables and rings have a capacity as a parameter (any power
    of two where the source demands one).

    What the C++ standard leaves open is an interface: the order in which an
    [unordered_map] is walked ([UnorderedMap]) and which sorted permutation
    [std::sort] produces ([StdSort]). A pointer into an [unordered_map] is the
    key of its node, since the map never moves nodes.

    [double] is binary64 with the rounding of every operation
    ([SpecFloat], without contraction); conversions out of range give 0.

    ** Files

    - [Prelude]: machine words, lists, [std::lower_bound], bytes, [std::sort].
    - [Types], [EventBytes], [Crc]: include/mf/core/types.hpp and the checksum
      of core/crc32.cpp and core/book_event_crc.hpp. One price or quantity
      altered in a stream changes its checksum.
    - [SequenceTracker], [Recovery], [Merger], [Pipeline]: src/phase2. The ring
      of tags refines a set of buffered numbers; what the pipeline publishes is
      per venue strictly increasing; without an oversized gap, the merged
      stream does not depend on the order of arrival, and a complete venue
      stream comes out complete whatever its order and duplicates.
    - [InOrder]: a stream without gaps through the pipeline, with drains on the
      way; shared by the shards, the merge program and the replay tool.
    - [AbArbiter], [AbEvidence]: src/phase2/ab_arbiter.cpp, and the runs of
      phase2_ab_evidence and ab_failover_validation. Events dropped on one feed
      only are not lost, and the raced run ends as the baseline does; an event
      buffered ahead of a gap is lost.
    - [OrderTable], [Levels], [OrderBook], [BookTotals]:
      src/phase3/order_book_engine.cpp and book_snapshot.cpp. The hash table is
      a finite map, the books stay sorted, and on a protocol-following feed whose
      orders the table can hold a level is the sum of its live orders.
    - [Intrusive], [IntrusiveQueues], [BookEngines]:
      src/phase3/intrusive_order_book.cpp. The slab with its linked queues
      refines the list of orders in order of arrival; the two engines show the
      same books.
    - [BookBench], [HotPath]: tools/book_engine_bench.cpp, feed_hot_path_bench,
      bench_sweep, latency_stage_bench, decoder_simd_bench. What the benchmarks
      time: the plain book shows what the engines show, the hot loops publish
      every event (one workload only the first), the decoders read the same.
    - [Wire], [Itch], [Deep], [Pitch], [Mdp3]: the parsers of src/proto and
      src/parsers. Round trips against encoders, totality, field bounds, and
      the equivalence of the ITCH hot path with the generic one.
    - [Bitfinex], [WireParse]: src/live/bitfinex. Rendered frames are scanned
      back, what is accepted is within range; the tracker and the book
      downstream follow the exchange's book through gaps, until the next
      snapshot.
    - [Rounding], [DecimalText], [Sidecar]:
      src/live/bitfinex/snapshot_sidecar.cpp. Division of integers as doubles
      rounds to the nearest; 17 significant digits give a double back; the
      sidecar file of a snapshot is read back with its symbol and rows, unless
      a number needs an exponent.
    - [JitBridge]: src/phase2/jit_bridge.cpp. Finalizing into an empty ring
      leaves there the first events of the merged stream, the rest counted.
    - [Nbbo], [NbboJournal]: the consolidator and its journal pipeline. After
      every event the quote is the best of the current books.
    - [Journal], [EventStore]: src/journal, src/research/event_store.cpp. What
      was appended is read back; torn and damaged records are contained.
    - [JournalTools]: tools/journal_diff, nbbo_journal_diff, itch_to_journal,
      journal_replay, book_reconcile, make_research_journal. A converted file
      is read back, a replay reports the checksum of what it merged, journals
      are identical when their whole records are.
    - [ReplayService]: src/service. Recorded quotes and ticks are served back;
      the gRPC writer is a parameter.
    - [Framing], [FeedSession], [VenueFeeds]: src/wire, src/transport/afxdp. A
      feed of well-formed ITCH, DEEP+ or PITCH messages reaches the sink as its
      events; the UDP and the AF_XDP session deliver the same.
    - [WireReplay], [FeedSender]: tools/wire_replay_to_pipeline.cpp,
      src/wire/event_loop.cpp and tools/synthetic_mcast_sender.cpp. Two lossy
      copies of a feed that together miss nothing come out of sessions, arbiter
      and pipeline as the feed; so does what the sender sends.
    - [Loopback]: tools/afxdp_loopback_bench.cpp, afxdp_itch_producer.cpp and
      afxdp_itch_consumer.cpp. A file sent as datagrams that all arrive in order
      is journaled as if converted directly.
    - [AfxdpReceiver], [AfxdpCustody]: src/transport/afxdp/receiver.cpp. Opening
      holds everything or nothing when it returns; with the default
      configuration it leaves the mapping of its rings. The receiver and the
      kernel, interleaved over rings of an entry per frame, keep every frame in
      one place, and packets are received whole and in order.
    - [CaptureFiles], [MergeModes]: src/apps/phase1_parser_validate_main.cpp and
      the loaders of phase2_ab_evidence_main.cpp. From well-formed files every
      message reaches the merge; the merge modes agree on every input.
    - [Spsc], [Spmc]: the lock-free rings, as sequential functions and as step
      relations over interleaved threads: no lost, duplicated or torn item, no
      two accesses to one slot at once.
    - [Sharded], [ShardedRun]: include/mf/runtime. The checksum kept on the side
      is that of the merged stream; shards see gap-free numbers, and each worker
      what the merge of the whole stream holds of its symbols.
    - [Floats], [Features]: src/phase3/feature_*.cpp.
    - [Matching], [Strategy], [Pnl], [Backtest]: src/phase4. Tape prints fill in
      price-time priority; strategy and accountant agree on every position.
    - [ResearchStrategies], [Experiment]: src/research. Late events change
      nothing but counts; the order-flow position stays within its bounds.
    - [AlphaLab], [PurgedCv]: src/research/alpha_lab. Labels are the first
      returns at or after the horizon; the times of training rows stay clear of
      the purge and the embargo around their test fold, while their labels may
      still be computed from it.
    - [Signals], [Evaluator], [Capacity]: src/research/alpha_lab. The signals
      and their evaluation, costs, capacity sweep and ablation; the folds score
      every row once, and aggregation loses no fold.
    - [Bootstrap], [OfiBacktest]: src/research/metrics/bootstrap.cpp and
      tools/ofi_backtest.cpp. Every resample draws whole blocks of the series;
      the backtest of any recorded events returns, and two journals of the same
      events give the same result when the comparison leaves no ties.
    - [Histogram]: src/bench/histogram.cpp. A percentile is the order statistic
      of the recorded values' buckets; merging is recording both.

    ** Assumptions

    Memory: [Spsc] keeps, per index, its modification order and lets an acquire
    load see any entry not older than the one last seen; slots are plain
    memory whose exclusive use is proved. [Spmc] takes the writer's stores in
    program order, as x86 does. Statistics counters that count events are not
    reduced modulo 2^64. [write(2)] is a parameter (how many bytes each call
    accepts); [fsync] does not change contents. Ring sequence numbers stay
    below 2^63. The order book theorems bound the table by 2^31 slots and the
    slab by 2^32 nodes. The kernel of [AfxdpCustody] does what the AF_XDP
    documentation lets it do, with rings of an entry per frame, which the code
    takes for granted and never sets up; that the entries lie in the pages
    mapped is a hypothesis where it is needed ([env_fits]), since the code maps
    the rings only up to their entries; the theorems reach up to the wrap of the
    32-bit receive counter, where the code fails.

    Clocks, random draws and the bytes of padding are parameters. NaNs carry no
    payload: where a double is hashed its bytes are those of the quiet NaN.

    ** Not modelled

    The socket calls of the UDP receiver, the Bitfinex web socket and gRPC;
    clocks and wall-time latencies; CPU pinning, huge pages and NUMA; the
    timing in benchmark harnesses and the remaining command-line drivers, which
    run modelled components; tools/feed_simulator.cpp, whose headers are not in
    the repository; argument parsing and the rendering of reports (JSON, CSV,
    tear sheets, trial registry). Random generators, the order of hash maps and
    the mathematical library (logarithm, power, exponential) are parameters. *)

From stdpp Require Export prelude gmap fin_maps sorting.
From Stdlib Require Export ZArith Lia.
#[global] Open Scope Z_scope.

(** ** Machine words

    A [w]-bit unsigned integer of the source is a [Z]; every place where the
    source may wrap writes the reduction out with [wrap]. *)

Declare Scope mf_scope.
Delimit Scope mf_scope with mf.
#[global] Open Scope mf_scope.

Definition wrap (w x : Z) : Z := x mod 2 ^ w.
Definition u8 (x : Z) : Z := wrap 8 x.
Definition u16 (x : Z) : Z := wrap 16 x.
Definition u32 (x : Z) : Z := wrap 32 x.
Definition u64 (x : Z) : Z := wrap 64 x.

(** [is_u w x]: [x] is a value a [w]-bit unsigned variable can hold. *)
Definition is_u (w x : Z) : Prop := 0 <= x < 2 ^ w.
#[export] Instance is_u_dec w x : Decision (is_u w x).
Proof. unfold is_u. apply _. Defined.

Notation "x +64 y" := (u64 (x + y)) (at level 50, left associativity) : mf_scope.
Notation "x -64 y" := (u64 (x - y)) (at level 50, left associativity) : mf_scope.
Notation "x +32 y" := (u32 (x + y)) (at level 50, left associativity) : mf_scope.
Notation "x -32 y" := (u32 (x - y)) (at level 50, left associativity) : mf_scope.

Create HintDb mf.

Lemma wrap_range w x : 0 <= w -> 0 <= wrap w x < 2 ^ w.
Proof. intros Hw. apply Z.mod_pos_bound. by apply Z.pow_pos_nonneg. Qed.

Lemma wrap_small w x : is_u w x -> wrap w x = x.
Proof. intros Hx. by apply Z.mod_small. Qed.

Lemma u64_small x : 0 <= x < 2 ^ 64 -> u64 x = x.
Proof. apply wrap_small. Qed.
Lemma u32_small x : 0 <= x < 2 ^ 32 -> u32 x = x.
Proof. apply wrap_small. Qed.
Lemma u64_range x : 0 <= u64 x < 2 ^ 64.
Proof. by apply wrap_range. Qed.
Lemma u32_range x : 0 <= u32 x < 2 ^ 32.
Proof. by apply wrap_range. Qed.
Lemma u8_range x : 0 <= u8 x < 256.
Proof. by apply (wrap_range 8). Qed.
(** Reductions inside a sum are absorbed by the one outside. *)
Lemma wrap_wrap w x : wrap w (wrap w x) = wrap w x.
Proof. apply Zmod_mod. Qed.
Lemma wrap_add_l w x y : wrap w (wrap w x + y) = wrap w (x + y).
Proof. apply Zplus_mod_idemp_l. Qed.
Lemma u64_add_l x y : u64 (u64 x + y) = u64 (x + y).
Proof. apply wrap_add_l. Qed.
Lemma u32_add_l x y : u32 (u32 x + y) = u32 (x + y).
Proof. apply wrap_add_l. Qed.
Lemma u32_u64 x : u32 (u64 x) = u32 x.
Proof.
  unfold u32, u64, wrap. replace (2 ^ 64) with (2 ^ 32 * 2 ^ 32) by done.
  rewrite Z.rem_mul_r by lia. by rewrite Z.mul_comm, Z_mod_plus_full, Zmod_mod.
Qed.
Create Rewrite HintDb mf_rw.
#[export] Hint Rewrite u64_small u32_small using lia : mf_rw.
#[export] Hint Resolve u64_range u32_range u8_range : mf.

(** ** Proof automation *)

(** Case analysis on the scrutinee of a match or the guard of an [if]. *)
Ltac split_match :=
  match goal with
  | |- context [match ?x with _ => _ end] => let E := fresh "E" in destruct x eqn:E
  | |- context [if ?x then _ else _] => let E := fresh "E" in destruct x eqn:E
  end.

(** Turns the Boolean comparisons of the source into their propositions. *)
Ltac zbool :=
  repeat match goal with
  | H : (_ && _)%bool = true |- _ => apply andb_true_iff in H as [??]
  | H : (_ && _)%bool = false |- _ => apply andb_false_iff in H
  | H : (_ || _)%bool = false |- _ => apply orb_false_iff in H as [??]
  | H : (_ || _)%bool = true |- _ => apply orb_true_iff in H
  | H : negb _ = true |- _ => apply negb_true_iff in H
  | H : negb _ = false |- _ => apply negb_false_iff in H
  | H : (_ =? _) = true |- _ => apply Z.eqb_eq in H
  | H : (_ =? _) = false |- _ => apply Z.eqb_neq in H
  | H : (_ <? _) = true |- _ => apply Z.ltb_lt in H
  | H : (_ <? _) = false |- _ => apply Z.ltb_ge in H
  | H : (_ <=? _) = true |- _ => apply Z.leb_le in H
  | H : (_ <=? _) = false |- _ => apply Z.leb_gt in H
  | H : bool_decide _ = true |- _ => apply bool_decide_eq_true in H
  | H : bool_decide _ = false |- _ => apply bool_decide_eq_false in H
  end.

(** ** Lists *)

Section lists.
Context {A : Type}.
Implicit Types (l k : list A) (P : A -> bool).

Lemma fold_left_cons {B} (f : B -> A -> B) x l b :
  fold_left f (x :: l) b = fold_left f l (f b x).
Proof. done. Qed.

Lemma Forall_snoc (Q : A -> Prop) l x : Forall Q (l ++ [x]) <-> Forall Q l /\ Q x.
Proof. rewrite Forall_app, Forall_singleton. done. Qed.

Lemma StronglySorted_snoc (R : A -> A -> Prop) l x :
  StronglySorted R l -> Forall (fun y => R y x) l -> StronglySorted R (l ++ [x]).
Proof.
  induction l as [|y l IH]; simpl; intros Hs Hf.
  - repeat constructor.
  - inversion_clear Hs. inversion_clear Hf. constructor; [auto|].
    apply Forall_snoc. auto.
Qed.

Lemma StronglySorted_app_iff (R : A -> A -> Prop) l k :
  StronglySorted R (l ++ k) <->
  StronglySorted R l /\ StronglySorted R k /\ Forall (fun x => Forall (R x) k) l.
Proof.
  induction l as [|x l IH]; simpl.
  - split; [intros H; repeat split; [constructor|done|constructor] | by intros (_&?&_)].
  - split.
    + intros H. inversion_clear H as [|? ? Hs Hf].
      apply IH in Hs as (?&?&?). apply Forall_app in Hf as [??].
      repeat split; [by constructor|done|by constructor].
    + intros (H1&H2&H3). inversion_clear H1. inversion_clear H3.
      constructor; [apply IH; auto|apply Forall_app; auto].
Qed.

Lemma StronglySorted_lookup_lt (R : A -> A -> Prop) l i j x y : StronglySorted R l ->
  l !! i = Some x -> l !! j = Some y -> (i < j)%nat -> R x y.
Proof.
  intros Hs. revert i j. induction Hs as [|z l Hs IH Hf]; intros [|i] [|j] Hi Hj Hij; try done; try lia.
  - cbn in Hi, Hj. injection Hi as ->. by eapply (proj1 (Forall_lookup _ _)) in Hf.
  - apply (IH i j Hi Hj). lia.
Qed.
End lists.

Lemma length_filter_map {A B} (f : A -> B) (P : B -> Prop) `{forall x, Decision (P x)} l :
  length (filter P (map f l)) = length (filter (fun x => P (f x)) l).
Proof. induction l as [|a l IH]; [done|]. cbn [map]. rewrite !filter_cons. case_decide; cbn [length]; by rewrite IH. Qed.

(** ** Sorted lists *)

Lemma sorted_weaken {A} (R R' : A -> A -> Prop) l : (forall x y, R x y -> R' x y) -> StronglySorted R l -> StronglySorted R' l.
Proof. intros HR. induction 1 as [|a l Hl IH Ha]; constructor; [done|]. eapply Forall_impl; [exact Ha|auto]. Qed.

Lemma sorted_filter {A} (R : A -> A -> Prop) (P : A -> Prop) `{forall x, Decision (P x)} l :
  StronglySorted R l -> StronglySorted R (filter P l).
Proof.
  induction 1 as [|a l Hl IH Ha]; [constructor|]. rewrite filter_cons. case_decide; [|done].
  constructor; [done|]. apply Forall_forall. intros x [_ Hx]%list_elem_of_filter. eapply Forall_forall in Ha; eauto.
Qed.

Lemma sorted_and {A} (R S : A -> A -> Prop) l : StronglySorted R l -> StronglySorted S l ->
  StronglySorted (fun a b => R a b /\ S a b) l.
Proof.
  induction 1 as [|a l Hl IH Ha]; intros Hs; [constructor|]. apply StronglySorted_inv in Hs as [Hs Hb].
  constructor; [by apply IH|]. by apply Forall_and.
Qed.

Lemma sorted_impl {A} (P : A -> Prop) (R S : A -> A -> Prop) l :
  (forall a b, P a -> P b -> R a b -> S a b) -> Forall P l -> StronglySorted R l -> StronglySorted S l.
Proof.
  intros H HP. induction 1 as [|a l Hl IH Ha]; [constructor|]. apply Forall_cons in HP as [Hp HP].
  constructor; [by apply IH|]. rewrite Forall_forall in HP, Ha |- *. eauto.
Qed.

Lemma sorted_unmap {A B} (R : B -> B -> Prop) (f : A -> B) l :
  StronglySorted R (f <$> l) -> StronglySorted (fun a b => R (f a) (f b)) l.
Proof.
  induction l as [|a l IH]; intros Hs; [constructor|]. rewrite fmap_cons in Hs.
  apply StronglySorted_inv in Hs as [Hs Ha]. constructor; [by apply IH|]. exact (proj1 (Forall_fmap _ _ _) Ha).
Qed.

Lemma sorted_seqZ n : forall m, StronglySorted Z.lt (seqZ m (Z.of_nat n)).
Proof.
  induction n as [|n IH]; intros m; [constructor|]. rewrite seqZ_cons by lia.
  replace (Z.pred (Z.of_nat (S n))) with (Z.of_nat n) by lia. constructor; [apply IH|].
  apply Forall_forall. intros x Hx%elem_of_seqZ. lia.
Qed.

(** A fold that collects. *)
Lemma fold_left_snoc {A} (l k : list A) : fold_left (fun l x => l ++ [x]) k l = l ++ k.
Proof. revert l. induction k as [|x k IH]; intros l; [by rewrite app_nil_r|]. cbn [fold_left]. by rewrite IH, <-app_assoc. Qed.

(** ** [std::lower_bound]

    The binary search of the C++ standard library over a random-access
    sequence: [before x] is the comparison [comp(x, value)]. The loop keeps
    the half-open range [first, first + len). *)

Fixpoint lower_bound_go {A} (before : A -> bool) (l : list A) (fuel first len : nat) : nat :=
  match fuel with
  | O => first
  | S fuel =>
      if (len =? 0)%nat then first else
      let half := (len / 2)%nat in
      match l !! (first + half)%nat with
      | Some x =>
          if before x
          then lower_bound_go before l fuel (first + half + 1)%nat (len - half - 1)%nat
          else lower_bound_go before l fuel first half
      | None => first
      end
  end.

Definition lower_bound {A} (before : A -> bool) (l : list A) : nat :=
  lower_bound_go before l (length l) 0 (length l).

(** [partitioned before l]: the precondition of [std::lower_bound]. *)
Definition partitioned {A} (before : A -> bool) (l : list A) : Prop :=
  forall i j x y, l !! i = Some x -> l !! j = Some y -> (i <= j)%nat ->
    before y = true -> before x = true.

Section lower_bound.
Context {A : Type} (before : A -> bool) (l : list A).
Hypothesis Hpart : partitioned before l.

#[local] Arguments Nat.div : simpl never.

Lemma lower_bound_go_spec fuel first len :
  (len <= fuel)%nat -> (first + len <= length l)%nat ->
  (forall i x, l !! i = Some x -> (i < first)%nat -> before x = true) ->
  (forall i x, l !! i = Some x -> (first + len <= i)%nat -> before x = false) ->
  let r := lower_bound_go before l fuel first len in
  (r <= length l)%nat /\
  (forall i x, l !! i = Some x -> (i < r)%nat -> before x = true) /\
  (forall i x, l !! i = Some x -> (r <= i)%nat -> before x = false).
Proof.
  revert first len. induction fuel as [|fuel IH]; intros first len Hf Hb Hl Hr; simpl.
  - split; [lia|]. split; [done|]. intros i x Hi Hle. apply (Hr i x Hi). lia.
  - destruct (len =? 0)%nat eqn:E.
    { apply Nat.eqb_eq in E as ->. split; [lia|]. split; [done|].
      intros i x Hi Hle. apply (Hr i x Hi). lia. }
    apply Nat.eqb_neq in E.
    assert ((len / 2)%nat < len)%nat as Hd by (apply Nat.div_lt; lia).
    destruct (lookup_lt_is_Some_2 l (first + len / 2)%nat) as [m Hm]; [lia|].
    rewrite Hm. destruct (before m) eqn:Em.
    + apply IH; [lia|lia| |].
      * intros i x Hi Hlt. destruct (decide (i < first)%nat) as [?|?]; [eauto|].
        apply (Hpart i (first + len / 2)%nat x m); auto; lia.
      * intros i x Hi Hle. apply (Hr i x Hi). lia.
    + apply IH; [lia|lia|done|].
      intros i x Hi Hle.
      destruct (before x) eqn:Ex; [|done].
      rewrite <- Em. symmetry.
      apply (Hpart (first + len / 2)%nat i m x); auto; lia.
Qed.

Lemma lower_bound_spec :
  (lower_bound before l <= length l)%nat /\
  (forall i x, l !! i = Some x -> (i < lower_bound before l)%nat -> before x = true) /\
  (forall i x, l !! i = Some x -> (lower_bound before l <= i)%nat -> before x = false).
Proof.
  apply lower_bound_go_spec; [lia|lia|intros; lia|].
  intros i x Hi Hle. apply lookup_lt_Some in Hi. lia.
Qed.
End lower_bound.

#[local] Arguments Nat.div : simpl never.

(** Whatever the order of the sequence, the result is a valid iterator. *)
Lemma lower_bound_go_le {A} (before : A -> bool) l fuel first len :
  (first + len <= length l)%nat -> (lower_bound_go before l fuel first len <= length l)%nat.
Proof.
  revert first len. induction fuel as [|fuel IH]; intros first len H; simpl; [lia|].
  destruct (len =? 0)%nat eqn:E; [lia|]. apply Nat.eqb_neq in E.
  assert ((len / 2)%nat < len)%nat by (apply Nat.div_lt; lia).
  destruct (l !! _); [|lia]. destruct (before a); apply IH; lia.
Qed.

Lemma lower_bound_le {A} (before : A -> bool) (l : list A) :
  (lower_bound before l <= length l)%nat.
Proof. apply lower_bound_go_le. lia. Qed.

(** ** Bytes in memory

    A byte is a [Z] in [0, 256). A little-endian host holds the [n]-byte
    object of value [z] as [le_bytes n z], and [memcpy] of those bytes into an
    integer reads [le_val]. *)

Definition byte_ok (b : Z) : Prop := is_u 8 b.
Abbreviation bytes_ok := (Forall byte_ok).

Fixpoint le_val (l : list Z) : Z :=
  match l with
  | [] => 0
  | b :: l => b + 256 * le_val l
  end.

Fixpoint le_bytes (n : nat) (z : Z) : list Z :=
  match n with
  | O => []
  | S n => z mod 256 :: le_bytes n (z / 256)
  end.

(** [be_val]: the loop [v = (v << 8) | p[i]] over a 64-bit accumulator. *)
Definition be_val (l : list Z) : Z :=
  fold_left (fun v b => Z.lor (u64 (Z.shiftl v 8)) b) l 0.

(** [slice l off n]: the bytes at [l[off .. off + n)]. *)
Definition slice {A} (l : list A) (off n : nat) : list A := take n (drop off l).

Section bytes.
Implicit Types l : list Z.

Lemma le_val_nil : le_val [] = 0.
Proof. done. Qed.
Lemma le_val_cons b l : le_val (b :: l) = b + 256 * le_val l.
Proof. done. Qed.
Lemma le_val_single b : le_val [b] = b.
Proof. rewrite le_val_cons, le_val_nil. lia. Qed.

Lemma length_le_bytes n z : length (le_bytes n z) = n.
Proof. revert z; induction n; intros z; simpl; auto. Qed.

Lemma le_bytes_ok n z : bytes_ok (le_bytes n z).
Proof.
  revert z; induction n; intros z; simpl; constructor; auto.
  apply (Z.mod_pos_bound z 256). lia.
Qed.

Lemma le_val_le_bytes n z : le_val (le_bytes n z) = z mod 256 ^ Z.of_nat n.
Proof.
  revert z; induction n as [|n IH]; intros z.
  - simpl. by rewrite Z.mod_1_r.
  - rewrite Nat2Z.inj_succ, Z.pow_succ_r by lia. simpl.
    rewrite IH. rewrite Z.rem_mul_r; [lia|lia|]. apply Z.pow_pos_nonneg; lia.
Qed.

Lemma le_val_range l : bytes_ok l -> 0 <= le_val l < 256 ^ Z.of_nat (length l).
Proof.
  induction 1 as [|b l Hb _ IH]; [simpl; lia|].
  cbn [length]. rewrite Nat2Z.inj_succ, Z.pow_succ_r by lia. simpl.
  unfold byte_ok, is_u in Hb. lia.
Qed.

Lemma le_bytes_le_val l : bytes_ok l -> le_bytes (length l) (le_val l) = l.
Proof.
  induction 1 as [|b l Hb _ IH]; [done|]. simpl. unfold byte_ok, is_u in Hb.
  assert (b + 256 * le_val l = le_val l * 256 + b) as -> by lia.
  rewrite Z.div_add_l, Z.div_small, Z.add_0_r by lia.
  rewrite Z.add_comm, Z.mod_add, Z.mod_small by lia. by rewrite IH.
Qed.

Lemma le_val_app l k :
  le_val (l ++ k) = le_val l + 256 ^ Z.of_nat (length l) * le_val k.
Proof.
  induction l as [|b l IH]; [simpl; lia|].
  cbn [length app le_val]. rewrite IH, Nat2Z.inj_succ, Z.pow_succ_r by lia. lia.
Qed.

Lemma bytes_ok_slice l off n : bytes_ok l -> bytes_ok (slice l off n).
Proof. intros H. unfold slice. by apply Forall_take, Forall_drop. Qed.

Lemma length_slice {A} (l : list A) off n :
  (off + n <= length l)%nat -> length (slice l off n) = n.
Proof. intros H. unfold slice. rewrite length_take, length_drop. lia. Qed.

(** The shift-and-or step of [be_val] is a base-256 digit append. *)
Lemma lor_shift8 v b : 0 <= v -> byte_ok b -> Z.lor (Z.shiftl v 8) b = v * 256 + b.
Proof.
  intros Hv Hb. unfold byte_ok, is_u in Hb.
  pose proof (Z.add_lor_land b (Z.shiftl v 8)) as Hadd.
  assert (Z.land b (Z.shiftl v 8) = 0) as Hz.
  { apply Z.bits_inj'. intros i Hi. rewrite Z.land_spec, Z.bits_0.
    destruct (decide (i < 8)).
    - by rewrite (Z.shiftl_spec_low v 8 i), andb_false_r by lia.
    - rewrite <-(Z.mod_small b (2 ^ 8)) by lia.
      by rewrite Z.mod_pow2_bits_high by lia. }
  rewrite Z.lor_comm. rewrite Z.shiftl_mul_pow2 in * by lia.
  change (2 ^ 8) with 256 in *. lia.
Qed.

Lemma be_val_acc l : forall v, bytes_ok l -> 0 <= v ->
  (v + 1) * 256 ^ Z.of_nat (length l) <= 2 ^ 64 ->
  fold_left (fun v b => Z.lor (u64 (Z.shiftl v 8)) b) l v
  = v * 256 ^ Z.of_nat (length l) + le_val (rev l).
Proof.
  induction l as [|b l IH]; intros v Hok Hv Hlt; [simpl; lia|].
  cbn [length] in *. rewrite Nat2Z.inj_succ, Z.pow_succ_r in * by lia.
  inversion_clear Hok as [|? ? Hb Hok']. cbn [fold_left].
  assert (1 <= 256 ^ Z.of_nat (length l)) by (apply Z.pow_le_mono_r with (b := 0); lia).
  assert (u64 (Z.shiftl v 8) = Z.shiftl v 8) as ->.
  { apply u64_small. rewrite Z.shiftl_mul_pow2 by lia. change (2 ^ 8) with 256. nia. }
  rewrite lor_shift8 by done. unfold byte_ok, is_u in Hb.
  rewrite IH by (auto; nia). simpl. rewrite le_val_app. simpl.
  rewrite length_rev. lia.
Qed.

Lemma be_val_rev l :
  bytes_ok l -> (length l <= 8)%nat -> be_val l = le_val (rev l).
Proof.
  intros Hok Hl. unfold be_val. rewrite be_val_acc; auto; try lia.
  rewrite Z.mul_1_l. change (2 ^ 64) with (256 ^ 8). apply Z.pow_le_mono_r; lia.
Qed.

Lemma be_val_be_bytes n z : (n <= 8)%nat ->
  be_val (rev (le_bytes n z)) = z mod 256 ^ Z.of_nat n.
Proof.
  intros Hn. rewrite be_val_rev, rev_involutive, le_val_le_bytes; [done| |].
  - apply Forall_rev, le_bytes_ok.
  - by rewrite length_rev, length_le_bytes.
Qed.
End bytes.

#[global] Arguments le_bytes : simpl never.
#[global] Arguments le_val : simpl never.
#[export] Hint Resolve le_bytes_ok bytes_ok_slice : mf.

(** ** [std::sort]

    What the C++ standard promises of [std::sort(first, last, lt)] for a
    strict weak ordering [lt]: a permutation in which no element is followed
    by a smaller one. The order of equivalent elements is unspecified, so the
    components that sort are written against this interface. *)

Record strict_weak {A} (lt : A -> A -> bool) : Prop := {
  sw_irrefl x : lt x x = false;
  sw_asym x y : lt x y = true -> lt y x = false;
  sw_negtrans x y z : lt y x = false -> lt z y = false -> lt z x = false;
}.

Definition not_after {A} (lt : A -> A -> bool) (x y : A) : Prop := lt y x = false.

(** The order need only be one on the elements of the range. *)
Record strict_weak_on {A} (P : A -> Prop) (lt : A -> A -> bool) : Prop := {
  so_asym x y : P x -> P y -> lt x y = true -> lt y x = false;
  so_negtrans x y z : P x -> P y -> P z -> lt y x = false -> lt z y = false -> lt z x = false;
}.

Lemma strict_weak_everywhere {A} (lt : A -> A -> bool) : strict_weak lt -> strict_weak_on (fun _ => True) lt.
Proof. intros Hsw. split; [intros x y _ _; by apply (sw_asym lt)|intros x y z _ _ _; by apply (sw_negtrans lt)]. Qed.

Class StdSort := {
  std_sort : forall {A}, (A -> A -> bool) -> list A -> list A;
  std_sort_perm : forall A lt (l : list A), Permutation (std_sort lt l) l;
  std_sort_sorted_on : forall A (P : A -> Prop) lt (l : list A),
    strict_weak_on P lt -> Forall P l -> StronglySorted (not_after lt) (std_sort lt l);
}.

Lemma std_sort_sorted `{StdSort} A lt (l : list A) : strict_weak lt -> StronglySorted (not_after lt) (std_sort lt l).
Proof. intros Hsw. apply (std_sort_sorted_on A (fun _ => True)); [by apply strict_weak_everywhere|]. by apply Forall_true. Qed.

(** Where no two elements are equivalent the result is determined, whatever the
    implementation and the order of the range. *)
Lemma std_sort_unique (S1 S2 : StdSort) A (P : A -> Prop) lt (l l' : list A) : strict_weak_on P lt -> Forall P l ->
  (forall a b, a ∈ l -> b ∈ l -> lt a b = false -> lt b a = false -> a = b) -> Permutation l l' ->
  @std_sort S1 A lt l = @std_sort S2 A lt l'.
Proof.
  intros Hlt HP Hne Hl. apply (StronglySorted_unique_strong (not_after lt)).
  - intros a b Ha Hb Hab Hba. rewrite (@std_sort_perm S1) in Ha. rewrite (@std_sort_perm S2), <-Hl in Hb. by apply Hne.
  - by apply (std_sort_sorted_on A P).
  - apply (std_sort_sorted_on A P); [done|]. by rewrite <-Hl.
  - by rewrite (@std_sort_perm S1), (@std_sort_perm S2).
Qed.

Fixpoint insert_by {A} (lt : A -> A -> bool) (x : A) (l : list A) : list A :=
  match l with
  | [] => [x]
  | y :: l => if lt x y then x :: y :: l else y :: insert_by lt x l
  end.

Definition insertion_sort {A} (lt : A -> A -> bool) (l : list A) : list A :=
  foldr (insert_by lt) [] l.

Lemma insert_by_perm {A} lt (x : A) l : Permutation (insert_by lt x l) (x :: l).
Proof.
  induction l as [|y l IH]; simpl; [done|]. destruct (lt x y); [done|].
  rewrite IH. constructor.
Qed.

Lemma insert_by_sorted {A} (P : A -> Prop) lt (x : A) l : strict_weak_on P lt -> P x -> Forall P l ->
  StronglySorted (not_after lt) l -> StronglySorted (not_after lt) (insert_by lt x l).
Proof.
  intros Hsw Hx Hl. induction 1 as [|y l Hs IH Hf]; simpl; [repeat constructor|]. apply Forall_cons in Hl as [Hy Hl].
  destruct (lt x y) eqn:E.
  - constructor; [by constructor|]. constructor; [by apply (so_asym P lt)|].
    apply Forall_forall. intros z Hz. rewrite Forall_forall in Hf, Hl. unfold not_after in *.
    apply (so_negtrans P lt Hsw _ y); auto. by apply (so_asym P lt).
  - constructor; [by apply IH|]. rewrite insert_by_perm. constructor; [done|done].
Qed.

(** The standard leaves the choice open; insertion sort is one admissible
    implementation, and the one the witnesses evaluate. *)
#[export] Program Instance insertion_std_sort : StdSort := {
  std_sort := @insertion_sort;
}.
Next Obligation.
  intros A lt l. induction l as [|x l IH]; simpl; [done|].
  by rewrite insert_by_perm, IH.
Qed.
Next Obligation.
  intros A P lt l Hsw Hl. induction Hl as [|x l Hx Hl IH]; simpl; [constructor|].
  apply (insert_by_sorted P); try done. apply Forall_forall. intros y Hy. rewrite Forall_forall in Hl. apply Hl.
  clear -Hy. induction l as [|z l IH]; [done|]. cbn in Hy. rewrite insert_by_perm in Hy. set_solver.
Qed.

(** [std::stable_sort] leaves no choice: equivalent elements keep their order. *)
Fixpoint stable_insert {A} (lt : A -> A -> bool) (x : A) (l : list A) : list A :=
  match l with
  | [] => [x]
  | y :: l' => if lt y x then y :: stable_insert lt x l' else x :: l
  end.

Definition stable_sort {A} (lt : A -> A -> bool) (l : list A) : list A := foldr (stable_insert lt) [] l.

Section stable_sort.
Context {A : Type} (lt : A -> A -> bool).

Lemma stable_insert_perm x l : Permutation (stable_insert lt x l) (x :: l).
Proof.
  induction l as [|y l IH]; simpl; [done|]. destruct (lt y x); [|done]. rewrite IH. constructor.
Qed.

Lemma stable_sort_perm l : Permutation (stable_sort lt l) l.
Proof. induction l as [|x l IH]; simpl; [done|]. by rewrite stable_insert_perm, IH. Qed.

Lemma stable_insert_sorted x l : strict_weak lt ->
  StronglySorted (not_after lt) l -> StronglySorted (not_after lt) (stable_insert lt x l).
Proof.
  intros Hsw. induction 1 as [|y l Hs IH Hf]; simpl; [repeat constructor|].
  destruct (lt y x) eqn:E.
  - constructor; [done|]. rewrite stable_insert_perm. constructor; [by apply (sw_asym lt)|done].
  - constructor; [by constructor|]. constructor; [done|].
    eapply Forall_impl; [exact Hf|]. intros z Hz. unfold not_after in *. by eapply (sw_negtrans lt Hsw _ y).
Qed.

Lemma stable_sort_sorted l : strict_weak lt -> StronglySorted (not_after lt) (stable_sort lt l).
Proof. intros Hsw. induction l as [|x l IH]; simpl; [constructor|]. by apply stable_insert_sorted. Qed.

Lemma stable_sort_filter (p : A -> bool) l : (forall x y, p x = true -> p y = true -> lt x y = false) ->
  List.filter p (stable_sort lt l) = List.filter p l.
Proof.
  intros Hp. assert (forall x l, List.filter p (stable_insert lt x l) = List.filter p (x :: l)) as Hi.
  { clear l. intros x l. induction l as [|y l IH]; [done|]. cbn [stable_insert]. destruct (lt y x) eqn:E; [|done].
    cbn [List.filter] in *. rewrite IH. destruct (p x) eqn:Ex, (p y) eqn:Ey; try done. by rewrite Hp in E. }
  induction l as [|x l IH]; [done|]. cbn [stable_sort foldr]. rewrite Hi. cbn [List.filter]. unfold stable_sort in IH. by rewrite IH.
Qed.
End stable_sort.

(** ** [std::unordered_map]

    A map visited in an order of the library's choice: the components that walk
    one are written against this interface. *)

Class UnorderedMap := {
  map_iter : forall {A}, gmap Z A -> list (Z * A);
  map_iter_perm : forall A (m : gmap Z A), Permutation (map_iter m) (map_to_list m);
}.

#[export] Program Instance to_list_unordered_map : UnorderedMap := { map_iter := fun A m => map_to_list m }.
Next Obligation. done. Qed.

Lemma map_iter_In `{UnorderedMap} {A} (m : gmap Z A) k x : In (k, x) (map_iter m) <-> m !! k = Some x.
Proof. by rewrite <-list_elem_of_In, map_iter_perm, elem_of_map_to_list. Qed.

(** A signed 64-bit conversion of an unsigned value. *)
Definition to_i64 (x : Z) : Z := if x <? 2 ^ 63 then x else x - 2 ^ 64.
