(* ===== verification/Types.v ===== *)
(** * Canonical event model (include/mf/core/types.hpp)

    [Venue], [Side], [EventType], [SymbolKey] and [BookEvent], and the
    fixed-size per-venue arrays [std::array<T, kVenueSlotCount>] every stage
    of the pipeline indexes by [static_cast<std::uint8_t>(venue)]. *)

From S2P Require Import Prelude.

(** ** Enumerations *)

Inductive Venue := Nasdaq | Iex | Cboe | Cme | Bitfinex.
Definition venue_u8 (v : Venue) : Z :=
  match v with Nasdaq => 0 | Iex => 1 | Cboe => 2 | Cme => 3 | Bitfinex => 4 end.
Definition kVenueSlotCount : nat := 5.

Inductive Side := Buy | Sell | SideUnknown.
Definition side_u8 (s : Side) : Z :=
  match s with Buy => 0 | Sell => 1 | SideUnknown => 2 end.

Inductive EventType :=
  | Add | AddMpid | Execute | ExecutePrice | Cancel | Delete | Replace | Trade
  | CrossTrade | Imbalance | System | StockDirectory | TypeUnknown.
Definition type_u8 (t : EventType) : Z :=
  match t with
  | Add => 0 | AddMpid => 1 | Execute => 2 | ExecutePrice => 3 | Cancel => 4
  | Delete => 5 | Replace => 6 | Trade => 7 | CrossTrade => 8 | Imbalance => 9
  | System => 10 | StockDirectory => 11 | TypeUnknown => 255
  end.

#[export] Instance Venue_eq_dec : EqDecision Venue.
Proof. solve_decision. Defined.
#[export] Instance Side_eq_dec : EqDecision Side.
Proof. solve_decision. Defined.
#[export] Instance EventType_eq_dec : EqDecision EventType.
Proof. solve_decision. Defined.

(** The decoders used when an enumerator is read back from its byte. *)
Definition venue_of_u8 (x : Z) : option Venue :=
  if x =? 0 then Some Nasdaq else if x =? 1 then Some Iex else
  if x =? 2 then Some Cboe else if x =? 3 then Some Cme else
  if x =? 4 then Some Bitfinex else None.

Lemma venue_of_u8_u8 v : venue_of_u8 (venue_u8 v) = Some v.
Proof. by destruct v. Qed.

Lemma venue_u8_inj v w : venue_u8 v = venue_u8 w -> v = w.
Proof. by destruct v, w. Qed.

Lemma venue_u8_range v : 0 <= venue_u8 v < 5.
Proof. destruct v; simpl; lia. Qed.

#[export] Instance Venue_countable : Countable Venue.
Proof.
  refine (inj_countable venue_u8 venue_of_u8 _). intros v. apply venue_of_u8_u8.
Defined.

(** ** [std::array<A, kVenueSlotCount>] *)

Record PerVenue (A : Type) := mkPerVenue {
  at_nasdaq : A; at_iex : A; at_cboe : A; at_cme : A; at_bitfinex : A;
}.
Arguments mkPerVenue {A} _ _ _ _ _.
Arguments at_nasdaq {A} _. Arguments at_iex {A} _. Arguments at_cboe {A} _.
Arguments at_cme {A} _. Arguments at_bitfinex {A} _.

Definition pv_const {A} (x : A) : PerVenue A := mkPerVenue x x x x x.

Definition pv_get {A} (p : PerVenue A) (v : Venue) : A :=
  match v with
  | Nasdaq => at_nasdaq p | Iex => at_iex p | Cboe => at_cboe p
  | Cme => at_cme p | Bitfinex => at_bitfinex p
  end.

Definition pv_set {A} (p : PerVenue A) (v : Venue) (x : A) : PerVenue A :=
  let '(mkPerVenue a b c d e) := p in
  match v with
  | Nasdaq => mkPerVenue x b c d e | Iex => mkPerVenue a x c d e
  | Cboe => mkPerVenue a b x d e | Cme => mkPerVenue a b c x e
  | Bitfinex => mkPerVenue a b c d x
  end.

(** The slots in index order, as a range-for over the array visits them. *)
Definition pv_list {A} (p : PerVenue A) : list A :=
  [at_nasdaq p; at_iex p; at_cboe p; at_cme p; at_bitfinex p].
Definition all_venues : list Venue := [Nasdaq; Iex; Cboe; Cme; Bitfinex].

Notation "p .[ v ]" := (pv_get p v) (at level 1, left associativity, format "p .[ v ]") : mf_scope.
Notation "p .[ v := x ]" := (pv_set p v x)
  (at level 1, left associativity, format "p .[ v := x ]") : mf_scope.

Section PerVenue.
Context {A : Type}.
Implicit Types p : PerVenue A.

Lemma pv_get_set p v x : (p.[v := x]).[v] = x.
Proof. by destruct p, v. Qed.
Lemma pv_get_set_ne p v w x : v <> w -> (p.[v := x]).[w] = p.[w].
Proof. by destruct p, v, w. Qed.
Lemma pv_get_const (x : A) v : (pv_const x).[v] = x.
Proof. by destruct v. Qed.
Lemma pv_set_set p v x y : p.[v := x].[v := y] = p.[v := y].
Proof. by destruct p, v. Qed.
Lemma pv_set_get p v : p.[v := p.[v]] = p.
Proof. by destruct p, v. Qed.
Lemma pv_ext p q : (forall v, p.[v] = q.[v]) -> p = q.
Proof.
  destruct p, q. intros H. f_equal;
    [apply (H Nasdaq)|apply (H Iex)|apply (H Cboe)|apply (H Cme)|apply (H Bitfinex)].
Qed.
Lemma pv_get_set_dec p v w x : (p.[v := x]).[w] = if decide (v = w) then x else p.[w].
Proof. case_decide; subst; [apply pv_get_set|by apply pv_get_set_ne]. Qed.
End PerVenue.

#[export] Hint Rewrite @pv_get_set @pv_get_const : mf_rw.

(** ** [SymbolKey] *)

(** The eight [char]s of a symbol, as bytes. *)
Abbreviation SymbolKey := (list Z).

Definition symbol_zero : SymbolKey := repeat 0 8.

(** [SymbolKey::as_u64]: [value = (value << 8) | byte] over the eight bytes. *)
Definition as_u64 (s : SymbolKey) : Z := be_val s.

Definition symbol_ok (s : SymbolKey) : Prop := length s = 8%nat /\ bytes_ok s.

Lemma as_u64_range s : symbol_ok s -> 0 <= as_u64 s < 2 ^ 64.
Proof.
  intros [Hl Hok]. unfold as_u64. rewrite be_val_rev by (auto; lia).
  pose proof (le_val_range (rev s) (Forall_rev Hok)) as H.
  rewrite length_rev, Hl in H. done.
Qed.

Lemma as_u64_inj s t : symbol_ok s -> symbol_ok t -> as_u64 s = as_u64 t -> s = t.
Proof.
  intros [Hl Hok] [Hl' Hok'] H. unfold as_u64 in H.
  rewrite !be_val_rev in H by (auto; lia).
  rewrite <-(rev_involutive s), <-(rev_involutive t). f_equal.
  rewrite <-(le_bytes_le_val (rev s)), <-(le_bytes_le_val (rev t)) by by apply Forall_rev.
  by rewrite !length_rev, Hl, Hl', H.
Qed.

(** ** [BookEvent] *)

Record BookEvent := mkEvent {
  venue : Venue;
  type : EventType;
  sequence : Z;
  exchange_ts_ns : Z;
  ingest_ts_ns : Z;
  symbol : SymbolKey;
  order_id : Z;
  match_id : Z;
  reference_order_id : Z;
  qty : Z;
  price : Z;
  prev_qty : Z;
  prev_price : Z;
  side : Side;
  mpid : option (list Z);
  raw_type : Z;
}.

#[export] Instance BookEvent_eq_dec : EqDecision BookEvent.
Proof. solve_decision. Defined.

(** [BookEvent{}]: every member at its default initializer. *)
Definition event_default : BookEvent :=
  mkEvent Nasdaq TypeUnknown 0 0 0 symbol_zero 0 0 0 0 0 0 0 SideUnknown None 0.

(** A value every member of which fits its C++ type. *)
Record event_ok (e : BookEvent) : Prop := {
  eo_seq : is_u 64 (sequence e);
  eo_ts : is_u 64 (exchange_ts_ns e);
  eo_ingest : is_u 64 (ingest_ts_ns e);
  eo_symbol : symbol_ok (symbol e);
  eo_order : is_u 64 (order_id e);
  eo_match : is_u 64 (match_id e);
  eo_ref : is_u 64 (reference_order_id e);
  eo_qty : is_u 32 (qty e);
  eo_price : is_u 32 (price e);
  eo_pqty : is_u 32 (prev_qty e);
  eo_pprice : is_u 32 (prev_price e);
  eo_mpid : match mpid e with Some m => length m = 4%nat /\ bytes_ok m | None => True end;
  eo_raw : is_u 8 (raw_type e);
}.

(** Assignments to the members of an event, in the order the fields appear. *)
Section setters.
Implicit Types e : BookEvent.
Definition set_venue x e := mkEvent x (type e) (sequence e) (exchange_ts_ns e) (ingest_ts_ns e) (symbol e) (order_id e) (match_id e) (reference_order_id e) (qty e) (price e) (prev_qty e) (prev_price e) (side e) (mpid e) (raw_type e).
Definition set_type x e := mkEvent (venue e) x (sequence e) (exchange_ts_ns e) (ingest_ts_ns e) (symbol e) (order_id e) (match_id e) (reference_order_id e) (qty e) (price e) (prev_qty e) (prev_price e) (side e) (mpid e) (raw_type e).
Definition set_sequence x e := mkEvent (venue e) (type e) x (exchange_ts_ns e) (ingest_ts_ns e) (symbol e) (order_id e) (match_id e) (reference_order_id e) (qty e) (price e) (prev_qty e) (prev_price e) (side e) (mpid e) (raw_type e).
Definition set_exchange_ts x e := mkEvent (venue e) (type e) (sequence e) x (ingest_ts_ns e) (symbol e) (order_id e) (match_id e) (reference_order_id e) (qty e) (price e) (prev_qty e) (prev_price e) (side e) (mpid e) (raw_type e).
Definition set_ingest_ts x e := mkEvent (venue e) (type e) (sequence e) (exchange_ts_ns e) x (symbol e) (order_id e) (match_id e) (reference_order_id e) (qty e) (price e) (prev_qty e) (prev_price e) (side e) (mpid e) (raw_type e).
Definition set_symbol x e := mkEvent (venue e) (type e) (sequence e) (exchange_ts_ns e) (ingest_ts_ns e) x (order_id e) (match_id e) (reference_order_id e) (qty e) (price e) (prev_qty e) (prev_price e) (side e) (mpid e) (raw_type e).
Definition set_order_id x e := mkEvent (venue e) (type e) (sequence e) (exchange_ts_ns e) (ingest_ts_ns e) (symbol e) x (match_id e) (reference_order_id e) (qty e) (price e) (prev_qty e) (prev_price e) (side e) (mpid e) (raw_type e).
Definition set_match_id x e := mkEvent (venue e) (type e) (sequence e) (exchange_ts_ns e) (ingest_ts_ns e) (symbol e) (order_id e) x (reference_order_id e) (qty e) (price e) (prev_qty e) (prev_price e) (side e) (mpid e) (raw_type e).
Definition set_reference_order_id x e := mkEvent (venue e) (type e) (sequence e) (exchange_ts_ns e) (ingest_ts_ns e) (symbol e) (order_id e) (match_id e) x (qty e) (price e) (prev_qty e) (prev_price e) (side e) (mpid e) (raw_type e).
Definition set_qty x e := mkEvent (venue e) (type e) (sequence e) (exchange_ts_ns e) (ingest_ts_ns e) (symbol e) (order_id e) (match_id e) (reference_order_id e) x (price e) (prev_qty e) (prev_price e) (side e) (mpid e) (raw_type e).
Definition set_price x e := mkEvent (venue e) (type e) (sequence e) (exchange_ts_ns e) (ingest_ts_ns e) (symbol e) (order_id e) (match_id e) (reference_order_id e) (qty e) x (prev_qty e) (prev_price e) (side e) (mpid e) (raw_type e).
Definition set_prev_qty x e := mkEvent (venue e) (type e) (sequence e) (exchange_ts_ns e) (ingest_ts_ns e) (symbol e) (order_id e) (match_id e) (reference_order_id e) (qty e) (price e) x (prev_price e) (side e) (mpid e) (raw_type e).
Definition set_prev_price x e := mkEvent (venue e) (type e) (sequence e) (exchange_ts_ns e) (ingest_ts_ns e) (symbol e) (order_id e) (match_id e) (reference_order_id e) (qty e) (price e) (prev_qty e) x (side e) (mpid e) (raw_type e).
Definition set_side x e := mkEvent (venue e) (type e) (sequence e) (exchange_ts_ns e) (ingest_ts_ns e) (symbol e) (order_id e) (match_id e) (reference_order_id e) (qty e) (price e) (prev_qty e) (prev_price e) x (mpid e) (raw_type e).
Definition set_mpid x e := mkEvent (venue e) (type e) (sequence e) (exchange_ts_ns e) (ingest_ts_ns e) (symbol e) (order_id e) (match_id e) (reference_order_id e) (qty e) (price e) (prev_qty e) (prev_price e) (side e) x (raw_type e).
Definition set_raw_type x e := mkEvent (venue e) (type e) (sequence e) (exchange_ts_ns e) (ingest_ts_ns e) (symbol e) (order_id e) (match_id e) (reference_order_id e) (qty e) (price e) (prev_qty e) (prev_price e) (side e) (mpid e) x.
End setters.

(** [e |> set_qty q |> ...] reads as the sequence of member assignments. *)
Notation "e |> f" := (f e) (at level 50, left associativity, only parsing) : mf_scope.

(** ** Sinks *)

(** [IMergedEventSink]: what a stage downstream of the merger offers. *)
Class MergedEventSink (S : Type) := on_merged_event : BookEvent -> S -> S.
