(* ===== verification/Crc.v ===== *)
(** * CRC-32 witness (src/core/crc32.cpp, include/mf/core/book_event_crc.hpp)

    The bitwise reflected CRC-32 of [crc32_update], the field order of
    [update_crc_from_book_event], and what the checksum detects: it composes
    over concatenation, and any change confined to four consecutive bytes,
    in particular of one 32-bit field of one event of a stream, changes it. *)

From S2P Require Import Prelude Types.

(** ** The code *)

Definition kPoly : Z := 0xEDB88320.

(** [~x] on a [std::uint32_t]. *)
Definition not32 (x : Z) : Z := Z.lxor x (2 ^ 32 - 1).

(** One iteration of the inner loop: the mask is all ones when the low bit is
    set, and zero otherwise. *)
Definition crc_bit (crc : Z) : Z :=
  let mask := u32 (- (Z.land crc 1)) in
  Z.lxor (Z.shiftr crc 1) (Z.land kPoly mask).

Definition crc_bits (n : nat) (crc : Z) : Z := Nat.iter n crc_bit crc.

Definition crc_byte (crc b : Z) : Z := crc_bits 8 (Z.lxor crc b).

Definition crc32_update (seed : Z) (data : list Z) : Z :=
  not32 (fold_left crc_byte data (not32 seed)).

Definition update_crc_from_book_event (crc : Z) (ev : BookEvent) : Z :=
  let crc := crc32_update crc (le_bytes 1 (venue_u8 (venue ev))) in
  let crc := crc32_update crc (le_bytes 1 (type_u8 (type ev))) in
  let crc := crc32_update crc (le_bytes 8 (sequence ev)) in
  let crc := crc32_update crc (le_bytes 8 (exchange_ts_ns ev)) in
  let crc := crc32_update crc (symbol ev) in
  let crc := crc32_update crc (le_bytes 8 (order_id ev)) in
  let crc := crc32_update crc (le_bytes 4 (qty ev)) in
  crc32_update crc (le_bytes 4 (price ev)).

(** The running checksum of a stream of events. *)
Definition crc_of_events (crc : Z) (evs : list BookEvent) : Z :=
  fold_left update_crc_from_book_event evs crc.

Lemma crc_of_events_cons crc ev evs : crc_of_events crc (ev :: evs) = crc_of_events (update_crc_from_book_event crc ev) evs.
Proof. done. Qed.

Lemma crc_of_events_app crc a b : crc_of_events crc (a ++ b) = crc_of_events (crc_of_events crc a) b.
Proof. apply fold_left_app. Qed.

(** The published check value of CRC-32 for the bytes of ["123456789"]. *)
Example crc32_check_value :
  crc32_update 0 [49;50;51;52;53;54;55;56;57] = 0xCBF43926.
Proof. vm_compute. reflexivity. Qed.

#[global] Arguments crc_bits : simpl never.
#[global] Arguments crc_byte : simpl never.

(** Keeps conversion from evaluating symbolic checksums. *)
Strategy 200 [crc_bit].
Strategy 100 [crc_bits].

(** ** One bit *)

Lemma crc_bit_odd c :
  crc_bit c = Z.lxor (Z.shiftr c 1) (if Z.odd c then kPoly else 0).
Proof.
  unfold crc_bit. f_equal. change 1 with (Z.ones 1) at 1.
  rewrite Z.land_ones by lia. change (2 ^ 1) with 2.
  rewrite Zmod_odd. by destruct (Z.odd c).
Qed.

Lemma crc_bit_lxor x y : crc_bit (Z.lxor x y) = Z.lxor (crc_bit x) (crc_bit y).
Proof.
  rewrite !crc_bit_odd, Z.shiftr_lxor.
  rewrite <-!Z.bit0_odd, Z.lxor_spec.
  destruct (Z.testbit x 0), (Z.testbit y 0); cbn [xorb];
    apply Z.bits_inj'; intros i Hi; rewrite !Z.lxor_spec, ?Z.bits_0;
    repeat match goal with |- context [Z.testbit ?a i] => destruct (Z.testbit a i) end;
    reflexivity.
Qed.

Lemma is_u32_bits c : 0 <= c -> (forall i, 32 <= i -> Z.testbit c i = false) -> is_u 32 c.
Proof.
  intros Hc H. assert (c = c mod 2 ^ 32) as ->; [|apply Z.mod_pos_bound; lia].
  apply Z.bits_inj'. intros i Hi. destruct (decide (i < 32)).
  - by rewrite Z.mod_pow2_bits_low by lia.
  - rewrite Z.mod_pow2_bits_high by lia. apply H. lia.
Qed.

Lemma is_u_bits w c i : is_u w c -> 0 <= w <= i -> Z.testbit c i = false.
Proof.
  intros Hc Hi. rewrite <-(Z.mod_small c (2 ^ w)) by exact Hc.
  apply Z.mod_pow2_bits_high. lia.
Qed.

Lemma is_u_lxor w x y : 0 <= w -> is_u w x -> is_u w y -> is_u w (Z.lxor x y).
Proof.
  intros Hw Hx Hy.
  assert (Z.lxor x y = Z.lxor x y mod 2 ^ w) as ->; [|by apply Z.mod_pos_bound, Z.pow_pos_nonneg].
  apply Z.bits_inj'. intros i Hi. destruct (decide (i < w)).
  - by rewrite Z.mod_pow2_bits_low by lia.
  - rewrite Z.mod_pow2_bits_high by lia. rewrite Z.lxor_spec.
    by rewrite !(is_u_bits w) by (done || lia).
Qed.

Lemma crc_bit_u32 c : is_u 32 c -> is_u 32 (crc_bit c).
Proof.
  intros Hc. rewrite crc_bit_odd. apply is_u_lxor; [lia| |].
  - unfold is_u in *. rewrite Z.shiftr_div_pow2 by lia. change (2 ^ 1) with 2.
    split; [apply Z.div_pos; lia|]. apply Z.div_lt_upper_bound; lia.
  - destruct (Z.odd c); unfold is_u, kPoly; lia.
Qed.

(** The feedback polynomial has its top bit set, so a step loses nothing. *)
Lemma crc_bit_inj c c' : is_u 32 c -> is_u 32 c' -> crc_bit c = crc_bit c' -> c = c'.
Proof.
  intros Hc Hc'. rewrite !crc_bit_odd. intros H.
  assert (Z.odd c = Z.odd c') as Ho.
  { apply (f_equal (fun x => Z.testbit x 31)) in H. rewrite !Z.lxor_spec in H.
    rewrite !Z.shiftr_spec in H by lia.
    rewrite (is_u_bits 32 c), (is_u_bits 32 c') in H by (done || lia).
    destruct (Z.odd c), (Z.odd c'); (reflexivity || (vm_compute in H; discriminate H)). }
  rewrite Ho in H.
  apply (f_equal (fun x => Z.lxor x (if Z.odd c' then kPoly else 0))) in H.
  rewrite !Z.lxor_assoc, !Z.lxor_nilpotent, !Z.lxor_0_r in H.
  rewrite (Z.div2_odd c), (Z.div2_odd c'), !Z.div2_spec, H, Ho. done.
Qed.

(** ** Many bits *)

Lemma crc_bits_S n c : crc_bits (S n) c = crc_bit (crc_bits n c).
Proof. done. Qed.

Lemma crc_bits_add m n c : crc_bits (m + n) c = crc_bits m (crc_bits n c).
Proof. apply Nat.iter_add. Qed.

Lemma crc_bits_lxor n x y :
  crc_bits n (Z.lxor x y) = Z.lxor (crc_bits n x) (crc_bits n y).
Proof. induction n as [|n IH]; [done|]. rewrite !crc_bits_S, IH. apply crc_bit_lxor. Qed.

Lemma crc_bits_u32 n c : is_u 32 c -> is_u 32 (crc_bits n c).
Proof. intros Hc. induction n as [|n IH]; [done|]. rewrite crc_bits_S. by apply crc_bit_u32. Qed.

Lemma crc_bits_inj n c c' :
  is_u 32 c -> is_u 32 c' -> crc_bits n c = crc_bits n c' -> c = c'.
Proof.
  intros Hc Hc'. induction n as [|n IH]; [done|]. rewrite !crc_bits_S. intros H.
  apply IH, crc_bit_inj; auto using crc_bits_u32.
Qed.

(** Shifted-in zero bits are shifted out unchanged. *)
Lemma crc_bits_shift n b : crc_bits n (Z.shiftl b (Z.of_nat n)) = b.
Proof.
  revert b. induction n as [|n IH]; intros b; [apply Z.shiftl_0_r|].
  replace (S n) with (n + 1)%nat at 1 by lia. rewrite crc_bits_add.
  assert (crc_bits 1 (Z.shiftl b (Z.of_nat (S n))) = Z.shiftl b (Z.of_nat n)) as ->; [|done].
  rewrite crc_bits_S. change (crc_bits 0 ?x) with x. rewrite crc_bit_odd.
  assert (Z.odd (Z.shiftl b (Z.of_nat (S n))) = false) as ->.
  { rewrite <-Z.bit0_odd. apply Z.shiftl_spec_low. lia. }
  rewrite Z.lxor_0_r, Z.shiftr_shiftl_l by lia. f_equal. lia.
Qed.

Lemma pow256 (n : nat) : 256 ^ Z.of_nat n = 2 ^ (8 * Z.of_nat n).
Proof. rewrite Z.pow_mul_r by lia. change (2 ^ 8) with 256. reflexivity. Qed.

(** A byte string is fed in as one little-endian word followed by its bits. *)
Lemma fold_crc_byte l : forall s, bytes_ok l ->
  fold_left crc_byte l s = crc_bits (8 * length l) (Z.lxor s (le_val l)).
Proof.
  induction l as [|b l IH] using rev_ind; intros s Hok.
  { cbn. by rewrite le_val_nil, Z.lxor_0_r. }
  apply Forall_app in Hok as [Hok Hb]. apply Forall_singleton in Hb.
  rewrite fold_left_app. cbn [fold_left]. rewrite IH by done.
  unfold crc_byte.
  rewrite length_app. cbn [length]. replace (8 * (length l + 1))%nat with (8 + 8 * length l)%nat by lia.
  rewrite crc_bits_add. f_equal.
  rewrite <-(crc_bits_shift (8 * length l) b) at 1. rewrite <-crc_bits_lxor.
  f_equal. rewrite Z.lxor_assoc. f_equal. rewrite le_val_app. rewrite le_val_single.
  rewrite Z.shiftl_mul_pow2 by lia.
  rewrite Nat2Z.inj_mul. change (Z.of_nat 8) with 8. rewrite <-pow256.
  pose proof (le_val_range l Hok) as Hr.
  rewrite <-Z.add_nocarry_lxor; [lia|].
  pose proof (pow256 (length l)) as Hp.
  apply Z.bits_inj'. intros i Hi. rewrite Z.land_spec, Z.bits_0.
  destruct (decide (i < 8 * Z.of_nat (length l))).
  - rewrite Hp, <-Z.shiftl_mul_pow2, Z.shiftl_spec_low, andb_false_r by lia. done.
  - rewrite (is_u_bits (8 * Z.of_nat (length l))); [done| |lia].
    unfold is_u. by rewrite <-Hp.
Qed.

(** ** The checksum of a byte string *)

Lemma not32_involutive x : not32 (not32 x) = x.
Proof. unfold not32. by rewrite Z.lxor_assoc, Z.lxor_nilpotent, Z.lxor_0_r. Qed.

Lemma not32_inj x y : not32 x = not32 y -> x = y.
Proof. intros H. by rewrite <-(not32_involutive x), H, not32_involutive. Qed.

Lemma not32_u32 x : is_u 32 x -> is_u 32 (not32 x).
Proof. intros H. apply is_u_lxor; [lia|done|unfold is_u; lia]. Qed.

Lemma le_val_u32 l : bytes_ok l -> (length l <= 4)%nat -> is_u 32 (le_val l).
Proof.
  intros Hok Hl. pose proof (le_val_range l Hok) as Hr. unfold is_u.
  assert (256 ^ Z.of_nat (length l) <= 256 ^ 4) by (apply Z.pow_le_mono_r; lia).
  change (256 ^ 4) with (2 ^ 32) in *. lia.
Qed.

Lemma byte_u32 b : byte_ok b -> is_u 32 b.
Proof. unfold byte_ok, is_u. lia. Qed.

Lemma crc_byte_u32 s b : is_u 32 s -> byte_ok b -> is_u 32 (crc_byte s b).
Proof.
  intros Hs Hb. unfold crc_byte. apply crc_bits_u32, is_u_lxor; [lia|done|].
  by apply byte_u32.
Qed.

Lemma fold_crc_u32 l s : is_u 32 s -> bytes_ok l -> is_u 32 (fold_left crc_byte l s).
Proof.
  intros Hs Hok. revert s Hs. induction Hok as [|b l Hb _ IH]; intros s Hs; [exact Hs|].
  rewrite fold_left_cons. by apply IH, crc_byte_u32.
Qed.

Lemma crc_byte_inj s s' b : is_u 32 s -> is_u 32 s' -> byte_ok b ->
  crc_byte s b = crc_byte s' b -> s = s'.
Proof.
  intros Hs Hs' Hb%byte_u32 H. apply crc_bits_inj in H; [|by apply is_u_lxor..].
  apply (f_equal (fun x => Z.lxor x b)) in H.
  by rewrite !Z.lxor_assoc, !Z.lxor_nilpotent, !Z.lxor_0_r in H.
Qed.

Lemma fold_crc_inj l : forall s s', is_u 32 s -> is_u 32 s' -> bytes_ok l ->
  fold_left crc_byte l s = fold_left crc_byte l s' -> s = s'.
Proof.
  induction l as [|b l IH]; intros s s' Hs Hs' Hok; [tauto|].
  inversion_clear Hok as [|? ? Hb Hok']. rewrite !fold_left_cons. intros H.
  apply IH in H; [|by apply crc_byte_u32..|done]. by apply crc_byte_inj in H.
Qed.

Lemma crc32_update_u32 seed l : is_u 32 seed -> bytes_ok l -> is_u 32 (crc32_update seed l).
Proof. intros Hs Hok. by apply not32_u32, fold_crc_u32, Hok; apply not32_u32. Qed.

Lemma crc32_update_app seed a b :
  crc32_update (crc32_update seed a) b = crc32_update seed (a ++ b).
Proof. unfold crc32_update. by rewrite not32_involutive, fold_left_app. Qed.

Lemma crc32_update_nil seed : crc32_update seed [] = seed.
Proof. apply not32_involutive. Qed.

Lemma crc32_update_inj l s s' : is_u 32 s -> is_u 32 s' -> bytes_ok l ->
  crc32_update s l = crc32_update s' l -> s = s'.
Proof.
  intros Hs Hs' Hok H. apply not32_inj, fold_crc_inj, not32_inj in H; auto using not32_u32.
Qed.

Lemma le_val_inj l k : length l = length k -> bytes_ok l -> bytes_ok k ->
  le_val l = le_val k -> l = k.
Proof.
  intros Hlen Hl Hk H. rewrite <-(le_bytes_le_val l), <-(le_bytes_le_val k) by done.
  by rewrite Hlen, H.
Qed.

(** Two four-byte windows fed from the same state give the same state only
    when they are equal. *)
Lemma crc32_window_inj seed w w' : is_u 32 seed -> bytes_ok w -> bytes_ok w' ->
  length w = length w' -> (length w <= 4)%nat ->
  crc32_update seed w = crc32_update seed w' -> w = w'.
Proof.
  intros Hs Hw Hw' Hlen Hl H. apply not32_inj in H.
  rewrite !fold_crc_byte, Hlen in H by done.
  assert (is_u 32 (not32 seed)) by by apply not32_u32.
  apply crc_bits_inj in H.
  - apply (f_equal (fun x => Z.lxor (not32 seed) x)) in H.
    rewrite <-!Z.lxor_assoc, !Z.lxor_nilpotent, !Z.lxor_0_l in H.
    by apply le_val_inj.
  - apply is_u_lxor; [lia|done|]. apply le_val_u32; [done|lia].
  - apply is_u_lxor; [lia|done|]. apply le_val_u32; [done|lia].
Qed.

(** Burst detection: replacing up to four consecutive bytes anywhere in a
    message by different ones always changes the CRC. *)
Lemma crc32_burst seed a w w' b : is_u 32 seed ->
  bytes_ok a -> bytes_ok w -> bytes_ok w' -> bytes_ok b ->
  length w = length w' -> (length w <= 4)%nat -> w <> w' ->
  crc32_update seed (a ++ w ++ b) <> crc32_update seed (a ++ w' ++ b).
Proof.
  intros Hs Ha Hw Hw' Hb Hlen Hl Hne H. rewrite <-!crc32_update_app in H.
  apply crc32_update_inj in H; auto using crc32_update_u32.
  apply crc32_window_inj in H; auto using crc32_update_u32.
Qed.

(** ** The checksum of a stream of events *)

(** The bytes of an event the checksum covers, in order. *)
Definition event_crc_bytes (ev : BookEvent) : list Z :=
  le_bytes 1 (venue_u8 (venue ev)) ++ le_bytes 1 (type_u8 (type ev)) ++
  le_bytes 8 (sequence ev) ++ le_bytes 8 (exchange_ts_ns ev) ++ symbol ev ++
  le_bytes 8 (order_id ev) ++ le_bytes 4 (qty ev) ++ le_bytes 4 (price ev).

#[global] Arguments event_crc_bytes : simpl never.
#[global] Arguments update_crc_from_book_event : simpl never.

Lemma update_crc_bytes crc ev :
  update_crc_from_book_event crc ev = crc32_update crc (event_crc_bytes ev).
Proof.
  unfold update_crc_from_book_event, event_crc_bytes. by rewrite <-!crc32_update_app.
Qed.

Lemma crc_of_events_bytes evs crc :
  crc_of_events crc evs = crc32_update crc (concat (map event_crc_bytes evs)).
Proof.
  revert crc. induction evs as [|ev evs IH]; intros crc; cbn [map concat].
  - by rewrite crc32_update_nil.
  - rewrite <-crc32_update_app, <-update_crc_bytes. apply IH.
Qed.

Lemma event_crc_bytes_ok ev : symbol_ok (symbol ev) -> bytes_ok (event_crc_bytes ev).
Proof.
  intros [_ Hs]. unfold event_crc_bytes. rewrite !Forall_app. auto 20 using le_bytes_ok.
Qed.

Lemma events_crc_bytes_ok evs :
  Forall (fun e => symbol_ok (symbol e)) evs -> bytes_ok (concat (map event_crc_bytes evs)).
Proof.
  induction 1; cbn [map concat]; [constructor|]. rewrite Forall_app. auto using event_crc_bytes_ok.
Qed.

(** A change of one event of a stream that leaves the covered bytes before
    and after a four-byte field alone changes the checksum of the stream. *)
Lemma crc_of_events_field crc pre ev ev' post x w w' y : is_u 32 crc ->
  Forall (fun e => symbol_ok (symbol e)) (pre ++ ev :: ev' :: post) ->
  event_crc_bytes ev = x ++ w ++ y -> event_crc_bytes ev' = x ++ w' ++ y ->
  length w = length w' -> (length w <= 4)%nat -> w <> w' ->
  crc_of_events crc (pre ++ ev :: post) <> crc_of_events crc (pre ++ ev' :: post).
Proof.
  intros Hc Hsym Hev Hev' Hlen Hl Hne.
  apply Forall_app in Hsym as [Hpre Hrest].
  inversion_clear Hrest as [|? ? He Hrest'].
  inversion_clear Hrest' as [|? ? He' Hpost].
  apply event_crc_bytes_ok in He, He'. rewrite Hev in He. rewrite Hev' in He'.
  apply Forall_app in He as [Hx [Hw Hy]%Forall_app].
  apply Forall_app in He' as [_ [Hw' _]%Forall_app].
  rewrite !crc_of_events_bytes, !map_app, !concat_app. cbn [map concat].
  rewrite Hev, Hev', <-!(app_assoc x), <-!(app_assoc w), <-!(app_assoc w'), !(app_assoc _ x).
  apply crc32_burst; auto; [|apply Forall_app; split; auto using events_crc_bytes_ok].
  apply Forall_app; split; auto using events_crc_bytes_ok.
Qed.

Lemma le_bytes_inj n z z' :
  0 <= z < 256 ^ Z.of_nat n -> 0 <= z' < 256 ^ Z.of_nat n -> le_bytes n z = le_bytes n z' -> z = z'.
Proof.
  intros Hz Hz' H. apply (f_equal le_val) in H.
  by rewrite !le_val_le_bytes, !Z.mod_small in H.
Qed.

(** The stream checksum is a witness for every price and every quantity: if
    one event of a recorded stream has its price or its quantity altered, the
    checksum reported for the stream is different. *)
Theorem crc_detects_price_or_qty_change crc pre ev post p q :
  is_u 32 crc -> Forall event_ok (pre ++ ev :: post) ->
  is_u 32 p -> is_u 32 q ->
  (p <> price ev -> crc_of_events crc (pre ++ set_price p ev :: post)
                    <> crc_of_events crc (pre ++ ev :: post)) /\
  (q <> qty ev -> crc_of_events crc (pre ++ set_qty q ev :: post)
                  <> crc_of_events crc (pre ++ ev :: post)).
Proof.
  intros Hc Hok Hp Hq.
  apply Forall_app in Hok as [Hpre Hrest]. inversion_clear Hrest as [|? ? He Hpost].
  assert (forall e', symbol e' = symbol ev ->
    Forall (fun e => symbol_ok (symbol e)) (pre ++ e' :: ev :: post)) as Hsym.
  { intros e' Heq. apply Forall_app. split; [|constructor; [rewrite Heq; apply He|constructor; [apply He|]]].
    all: eapply Forall_impl; eauto; intros ? []; done. }
  pose proof (eo_qty ev He) as Hqe. pose proof (eo_price ev He) as Hpe.
  unfold is_u in Hp, Hq, Hqe, Hpe. split; intros Hne.
  - eapply (crc_of_events_field _ _ _ _ _
      (le_bytes 1 (venue_u8 (venue ev)) ++ le_bytes 1 (type_u8 (type ev)) ++
       le_bytes 8 (sequence ev) ++ le_bytes 8 (exchange_ts_ns ev) ++ symbol ev ++
       le_bytes 8 (order_id ev) ++ le_bytes 4 (qty ev))
      (le_bytes 4 p) (le_bytes 4 (price ev)) []); auto;
      try (rewrite !app_nil_r, <-!app_assoc; reflexivity).
    intros H%le_bytes_inj; auto.
  - eapply (crc_of_events_field _ _ _ _ _
      (le_bytes 1 (venue_u8 (venue ev)) ++ le_bytes 1 (type_u8 (type ev)) ++
       le_bytes 8 (sequence ev) ++ le_bytes 8 (exchange_ts_ns ev) ++ symbol ev ++
       le_bytes 8 (order_id ev))
      (le_bytes 4 q) (le_bytes 4 (qty ev)) (le_bytes 4 (price ev))); auto;
      try (rewrite <-!app_assoc; reflexivity).
    intros H%le_bytes_inj; auto.
Qed.

Lemma event_default_ok : event_ok event_default.
Proof.
  split; simpl; try (unfold is_u; lia); try done.
  split; [done|]. repeat constructor; unfold byte_ok, is_u; lia.
Qed.

Lemma crc_detects_price_or_qty_change_witness :
  crc_of_events 0 ([event_default] ++ set_price 101 event_default :: [event_default])
  <> crc_of_events 0 ([event_default] ++ event_default :: [event_default]).
Proof.
  apply (crc_detects_price_or_qty_change 0 [event_default] event_default [event_default] 101 5);
    [unfold is_u; lia|repeat constructor; apply event_default_ok|unfold is_u; lia|unfold is_u; lia|done].
Defined.
