(* ===== verification/SequenceTracker.v ===== *)
(** * Per-venue sequence discipline (src/phase2/sequence_tracker.cpp, src/phase2/recovery.cpp)

    [SequenceTracker]: the next expected sequence number and a ring of tags,
    slot [seq % size] holding the buffered out-of-order sequence numbers.
    [MultiVenueSequenceTracker]: one tracker per venue.
    [GapAwareSequencer]: turns a detected gap into a [RecoveryRequest] and
    passes it to the recovery handler.

    The ring implements a set: [tracker_refines_spec] relates
    [tracker_on_sequence] to [spec_step], a transition relation over a
    sequence number and a finite set of buffered numbers. *)

From S2P Require Import Prelude Types.

(** ** Data *)

Inductive SequenceStatus := InOrder | DuplicateOrOld | GapBuffered | GapTooLarge.
#[export] Instance SequenceStatus_eq_dec : EqDecision SequenceStatus.
Proof. solve_decision. Defined.

Record GapRange := mkGap { gap_begin : Z; gap_end : Z }.

Record SequenceUpdate := mkUpdate {
  upd_status : SequenceStatus;
  input_sequence : Z;
  expected_before : Z;
  expected_after : Z;
  released_count : Z;
  missing_range : option GapRange;
}.

Record SequenceTracker := mkTracker {
  next_expected : Z;
  gap_window : Z;
  buffered_tags : list Z;
}.

(** ** Operations *)

Definition kMinRingSlots : Z := 2.

Definition tracker_init (gap : Z) : SequenceTracker :=
  mkTracker 1 gap (replicate (Z.to_nat (Z.max kMinRingSlots (gap +64 1))) 0).

(** [seq % buffered_tags_.size()]. *)
Definition ring_slot (tags : list Z) (seq : Z) : nat :=
  Z.to_nat (seq mod Z.of_nat (length tags)).

Definition mark_buffered (tags : list Z) (seq : Z) : list Z :=
  <[ring_slot tags seq := seq]> tags.

Definition pop_buffered (tags : list Z) (seq : Z) : bool * list Z :=
  if decide (tags !! ring_slot tags seq = Some seq)
  then (true, <[ring_slot tags seq := 0]> tags)
  else (false, tags).

(** [while (pop_buffered(next_expected_)) { ++next_expected_; ++released; }]. *)
Fixpoint pop_loop (fuel : nat) (next released : Z) (tags : list Z) : Z * Z * list Z :=
  match fuel with
  | O => (next, released, tags)
  | S fuel =>
      match pop_buffered tags next with
      | (true, tags) => pop_loop fuel (next +64 1) (released +64 1) tags
      | (false, tags) => (next, released, tags)
      end
  end.

Definition tracker_on_sequence (t : SequenceTracker) (seq : Z) : SequenceTracker * SequenceUpdate :=
  let next := next_expected t in
  let upd st after released missing := mkUpdate st seq next after released missing in
  if seq =? 0 then (t, upd DuplicateOrOld next 0 None) else
  if seq <? next then (t, upd DuplicateOrOld next 0 None) else
  if seq =? next then
    let '(next', released, tags) :=
      pop_loop (S (length (buffered_tags t))) (next +64 1) 1 (buffered_tags t) in
    (mkTracker next' (gap_window t) tags, upd InOrder next' released None)
  else
    let ahead := seq -64 next in
    if gap_window t <? ahead then
      (t, upd GapTooLarge next 0 (Some (mkGap next (seq -64 1))))
    else
      (mkTracker next (gap_window t) (mark_buffered (buffered_tags t) seq),
       upd GapBuffered next 0 (Some (mkGap next (seq -64 1)))).

(** The clearing loop of [force_advance]: [n] iterations starting at [s]. *)
Fixpoint clear_range (n : nat) (s : Z) (tags : list Z) : list Z :=
  match n with
  | O => tags
  | S n => clear_range n (s +64 1) (pop_buffered tags s).2
  end.

Definition tracker_force_advance (t : SequenceTracker) (new_next : Z) : SequenceTracker :=
  if new_next <=? next_expected t then t else
  let span := new_next -64 next_expected t in
  let tags :=
    if Z.of_nat (length (buffered_tags t)) <=? span
    then replicate (length (buffered_tags t)) 0
    else clear_range (Z.to_nat span) (next_expected t) (buffered_tags t) in
  mkTracker new_next (gap_window t) tags.

(** [MultiVenueSequenceTracker]: the vector of [kVenueSlotCount] trackers. *)
Abbreviation MultiVenueSequenceTracker := (PerVenue SequenceTracker).

Definition multi_init (gap : Z) : MultiVenueSequenceTracker := pv_const (tracker_init gap).

Definition multi_on_sequence (m : MultiVenueSequenceTracker) (v : Venue) (seq : Z)
    : MultiVenueSequenceTracker * SequenceUpdate :=
  let '(t, u) := tracker_on_sequence (m.[v]) seq in (m.[v := t], u).

Definition multi_force_advance (m : MultiVenueSequenceTracker) (v : Venue) (new_next : Z)
    : MultiVenueSequenceTracker :=
  m.[v := tracker_force_advance (m.[v]) new_next].

(** ** Gap-aware sequencer *)

Inductive RecoveryReason := GapDetectedReason | GapTooLargeReason.

Record RecoveryRequest := mkRequest {
  req_venue : Venue;
  req_missing : GapRange;
  req_reason : RecoveryReason;
}.

(** [IRecoveryHandler]: the object a sequencer reports gaps to. *)
Class IRecoveryHandler (H : Type) := request_recovery : RecoveryRequest -> H -> H.

Record SequencerResult := mkSeqResult {
  sr_update : SequenceUpdate;
  sr_recovery : option RecoveryRequest;
}.

(** The handler pointer may be null: [None]. *)
Definition sequencer_on_sequence `{IRecoveryHandler H} (m : MultiVenueSequenceTracker)
    (handler : option H) (v : Venue) (seq : Z)
    : MultiVenueSequenceTracker * option H * SequencerResult :=
  let '(m, u) := multi_on_sequence m v seq in
  match missing_range u with
  | None => (m, handler, mkSeqResult u None)
  | Some range =>
      let req := mkRequest v range
        (if decide (upd_status u = GapTooLarge) then GapTooLargeReason else GapDetectedReason) in
      (m, request_recovery req <$> handler, mkSeqResult u (Some req))
  end.

Definition sequencer_next_expected (m : MultiVenueSequenceTracker) (v : Venue) : Z :=
  next_expected (m.[v]).

(** ** The ring as a set *)

(** The sequence numbers the ring holds. *)
Definition buffered (t : SequenceTracker) : gset Z :=
  list_to_set (filter (fun x => x <> 0) (buffered_tags t)).

(** Every non-empty slot holds a number of the window ahead of the next
    expected one, at the slot that number hashes to. *)
Record tracker_ok (t : SequenceTracker) : Prop := {
  ok_next : 1 <= next_expected t;
  ok_gap : 0 <= gap_window t;
  ok_size : Z.of_nat (length (buffered_tags t)) = Z.max 2 (gap_window t + 1);
  ok_tags i x : buffered_tags t !! i = Some x -> x <> 0 ->
    i = ring_slot (buffered_tags t) x /\
    next_expected t < x <= next_expected t + gap_window t;
}.

(** No wrap-around within the reach of the window. *)
Definition tracker_room (t : SequenceTracker) : Prop :=
  next_expected t + gap_window t + 2 <= 2 ^ 64.

Lemma ring_slot_lt tags seq : (0 < length tags)%nat -> (ring_slot tags seq < length tags)%nat.
Proof.
  intros Hl. unfold ring_slot. pose proof (Z.mod_pos_bound seq (Z.of_nat (length tags))). lia.
Qed.

Lemma ring_slot_eq tags tags' seq :
  length tags = length tags' -> ring_slot tags seq = ring_slot tags' seq.
Proof. unfold ring_slot. by intros ->. Qed.

(** Distinct numbers within one window never share a slot. *)
Lemma ring_slot_inj tags x y : Z.abs (x - y) < Z.of_nat (length tags) ->
  ring_slot tags x = ring_slot tags y -> x = y.
Proof.
  unfold ring_slot. intros Hd H. set (n := Z.of_nat (length tags)) in *.
  assert (0 < n) by lia.
  apply Z2Nat.inj in H; [|apply Z.mod_pos_bound; lia..].
  pose proof (Z.div_mod x n ltac:(lia)). pose proof (Z.div_mod y n ltac:(lia)).
  assert (x - y = n * (x / n - y / n)) by lia.
  assert (x / n = y / n) by nia. nia.
Qed.

Lemma ok_length t : tracker_ok t -> (2 <= length (buffered_tags t))%nat.
Proof. intros Hok. pose proof (ok_size t Hok). pose proof (ok_gap t Hok). lia. Qed.

Lemma elem_of_buffered t q : tracker_ok t -> 0 < q ->
  q ∈ buffered t <-> buffered_tags t !! ring_slot (buffered_tags t) q = Some q.
Proof.
  intros Hok Hq. unfold buffered. rewrite elem_of_list_to_set, list_elem_of_filter.
  split.
  - intros [Hne [i Hi]%list_elem_of_lookup_1]. by destruct (ok_tags t Hok i q Hi Hne) as [<- _].
  - intros H. split; [lia|]. by eapply list_elem_of_lookup_2.
Qed.

Lemma buffered_window t q : tracker_ok t -> q ∈ buffered t ->
  next_expected t < q <= next_expected t + gap_window t.
Proof.
  intros Hok. unfold buffered. rewrite elem_of_list_to_set, list_elem_of_filter.
  intros [Hne [i Hi]%list_elem_of_lookup_1]. apply (ok_tags t Hok i q Hi Hne).
Qed.

Lemma tracker_init_ok gap : 0 <= gap < 2 ^ 64 - 1 -> tracker_ok (tracker_init gap).
Proof.
  intros Hg. assert (gap +64 1 = gap + 1) as E by (apply u64_small; lia).
  split; simpl; [lia|lia| |].
  - rewrite length_replicate, E. unfold kMinRingSlots. lia.
  - intros i x [-> _]%lookup_replicate_1. done.
Qed.

Lemma tracker_init_buffered gap : buffered (tracker_init gap) = ∅.
Proof.
  unfold buffered, tracker_init. cbn [buffered_tags].
  generalize (Z.to_nat (Z.max kMinRingSlots (gap +64 1))). intros n.
  induction n as [|n IH]; simpl; [done|]. rewrite filter_cons_False by lia. exact IH.
Qed.

(** *** The release loop *)

(** Ring contents between [lo] and [hi], each number at its own slot. *)
Definition tags_in (tags : list Z) (lo hi : Z) : Prop :=
  forall i x, tags !! i = Some x -> x <> 0 -> i = ring_slot tags x /\ lo <= x <= hi.

Definition tag_set (tags : list Z) : gset Z := list_to_set (filter (fun x => x <> 0) tags).

Definition occupied (tags : list Z) : nat := length (filter (fun x => x <> 0) tags).

Lemma elem_of_tag_set tags lo hi q : tags_in tags lo hi -> 0 < q ->
  q ∈ tag_set tags <-> tags !! ring_slot tags q = Some q.
Proof.
  intros Hin Hq. unfold tag_set. rewrite elem_of_list_to_set, list_elem_of_filter.
  split.
  - intros [Hne [i Hi]%list_elem_of_lookup_1]. by destruct (Hin i q Hi Hne) as [<- _].
  - intros H. split; [lia|]. by eapply list_elem_of_lookup_2.
Qed.

Lemma tag_set_range tags lo hi q : tags_in tags lo hi -> q ∈ tag_set tags -> lo <= q <= hi.
Proof.
  intros Hin. unfold tag_set. rewrite elem_of_list_to_set, list_elem_of_filter.
  intros [Hne [i Hi]%list_elem_of_lookup_1]. apply (Hin i q Hi Hne).
Qed.

Lemma occupied_clear tags i x : tags !! i = Some x -> x <> 0 ->
  S (occupied (<[i := 0]> tags)) = occupied tags.
Proof.
  unfold occupied. revert i. induction tags as [|y tags IH]; intros i Hi Hx; [done|].
  destruct i as [|i]; simpl in *.
  - injection Hi as ->. rewrite filter_cons_False by lia. by rewrite filter_cons_True by done.
  - specialize (IH i Hi Hx). destruct (decide (y = 0)) as [->|Hy].
    + by rewrite !filter_cons_False by lia.
    + rewrite !filter_cons_True by done. simpl. lia.
Qed.

Lemma occupied_le tags : (occupied tags <= length tags)%nat.
Proof. apply length_filter. Qed.

(** Clearing the slot of [x] removes exactly [x]. *)
Lemma tags_in_clear tags lo hi x : tags_in tags lo hi ->
  tags !! ring_slot tags x = Some x -> 0 < x ->
  tags_in (<[ring_slot tags x := 0]> tags) lo hi /\
  (forall q, 0 < q -> q ∈ tag_set (<[ring_slot tags x := 0]> tags) <-> q ∈ tag_set tags /\ q <> x).
Proof.
  intros Hin Hx Hpos.
  assert (tags_in (<[ring_slot tags x := 0]> tags) lo hi) as Hin'.
  { intros i y Hi Hy. rewrite (ring_slot_eq _ tags) by apply length_insert.
    apply list_lookup_insert_Some in Hi as [(_&<-&_)|[Hne Hi]]; [done|]. by apply Hin. }
  split; [done|]. intros q Hq.
  rewrite (elem_of_tag_set _ _ _ _ Hin' Hq), (elem_of_tag_set _ _ _ _ Hin Hq).
  rewrite (ring_slot_eq _ tags) by apply length_insert.
  rewrite list_lookup_insert_Some. split.
  - intros [(_&H&_)|[Hne H]]; [lia|]. split; [done|]. by intros ->.
  - intros [H Hne]. right. split; [|done]. intros Heq. rewrite <-Heq, Hx in H. congruence.
Qed.

(** Without wrap-around the loop stops at the first number that is not
    buffered, having removed everything before it. *)
Record released (tags : list Z) (next rel hi : Z) (r : Z * Z * list Z) : Prop := {
  rel_next : next <= r.1.1 <= hi + 1;
  rel_count : r.1.2 = rel + (r.1.1 - next);
  rel_length : length r.2 = length tags;
  rel_run q : next <= q < r.1.1 -> q ∈ tag_set tags;
  rel_stop : r.1.1 ∉ tag_set tags;
  rel_tags : tags_in r.2 (r.1.1 + 1) hi;
  rel_set q : 0 < q -> q ∈ tag_set r.2 <-> q ∈ tag_set tags /\ r.1.1 < q;
}.

Lemma pop_loop_released fuel : forall next rel tags hi,
  tags_in tags next hi -> 1 <= next <= hi + 1 -> hi + 2 <= 2 ^ 64 ->
  (0 < length tags)%nat -> (occupied tags < fuel)%nat ->
  0 <= rel -> rel + (hi + 1 - next) < 2 ^ 64 ->
  released tags next rel hi (pop_loop fuel next rel tags).
Proof.
  induction fuel as [|fuel IH]; intros next rel tags hi Hin Hn Hhi Hlen Hf Hr Hr'; [lia|].
  cbn [pop_loop]. unfold pop_buffered. case_decide as Hpop.
  - destruct (tags_in_clear _ _ _ _ Hin Hpop ltac:(lia)) as [Hin' Hset].
    destruct (Hin _ _ Hpop ltac:(lia)) as [_ Hle].
    pose proof (occupied_clear _ _ _ Hpop ltac:(lia)).
    rewrite !u64_small by lia.
    assert (tags_in (<[ring_slot tags next:=0]> tags) (next + 1) hi) as Hin''.
    { intros i y Hi Hy. destruct (Hin' i y Hi Hy) as [Hs Hb]. split; [done|].
      assert (y <> next); [|lia]. intros ->.
      apply (Hset next ltac:(lia)); [|done].
      apply (elem_of_tag_set _ next hi); [done|lia|]. by rewrite <-Hs. }
    destruct (IH (next + 1) (rel + 1) (<[ring_slot tags next:=0]> tags) hi)
      as [H1 H2 H3 H4 H5 H6 H7]; try rewrite length_insert; try lia; [done|].
    destruct (pop_loop _ _ _ _) as [[n' r'] tags']; simpl in *.
    split; simpl; [lia|lia|by rewrite H3, length_insert| | |done|].
    + intros q Hq. destruct (decide (q = next)) as [->|].
      * apply (elem_of_tag_set _ _ _ _ Hin); [lia|done].
      * apply (Hset q ltac:(lia)), H4. lia.
    + intros Hc. apply H5. apply (Hset n' ltac:(lia)). split; [done|lia].
    + intros q Hq. rewrite H7, Hset by done. split; [tauto|]. intros [??]; split; [split|]; auto. lia.
  - split; simpl; [lia|lia|done|lia| | |].
    + by rewrite (elem_of_tag_set _ _ _ _ Hin) by lia.
    + intros i y Hi Hy. destruct (Hin i y Hi Hy) as [-> Hb]. split; [done|].
      assert (y <> next); [congruence|lia].
    + intros q Hq. split; [|tauto]. intros Hq'. split; [done|].
      pose proof (tag_set_range _ _ _ _ Hin Hq').
      assert (q <> next); [|lia]. intros ->. apply Hpop.
      by apply (elem_of_tag_set _ _ _ _ Hin).
Qed.

(** ** Abstract specification *)

(** What a tracker promises, over the next expected number [n] and the set
    [B] of numbers received ahead of it: an old number changes nothing, the
    expected number releases the whole contiguous run that starts with it, a
    number at most [gap] ahead is remembered, one further ahead is refused. *)
Inductive spec_step (gap n : Z) (B : gset Z) (seq : Z)
    : Z -> gset Z -> SequenceUpdate -> Prop :=
  | spec_old : seq < n ->
      spec_step gap n B seq n B (mkUpdate DuplicateOrOld seq n n 0 None)
  | spec_in_order n' B' : seq = n -> n < n' ->
      (forall q, n < q < n' -> q ∈ B) -> n' ∉ B ->
      (forall q, q ∈ B' <-> q ∈ B /\ n' < q) ->
      spec_step gap n B seq n' B' (mkUpdate InOrder seq n n' (n' - n) None)
  | spec_buffer : n < seq <= n + gap ->
      spec_step gap n B seq n (B ∪ {[seq]})
        (mkUpdate GapBuffered seq n n 0 (Some (mkGap n (seq - 1))))
  | spec_too_large : n + gap < seq ->
      spec_step gap n B seq n B
        (mkUpdate GapTooLarge seq n n 0 (Some (mkGap n (seq - 1)))).

Lemma tracker_tags_in t : tracker_ok t ->
  tags_in (buffered_tags t) (next_expected t + 1) (next_expected t + gap_window t).
Proof. intros Hok i x Hi Hx. destruct (ok_tags t Hok i x Hi Hx). split; [done|lia]. Qed.

Lemma mark_buffered_tags_in tags lo hi seq : tags_in tags lo hi -> lo <= seq <= hi ->
  hi - lo < Z.of_nat (length tags) -> 0 < lo -> (0 < length tags)%nat ->
  tags_in (mark_buffered tags seq) lo hi /\
  (forall q, 0 < q -> q ∈ tag_set (mark_buffered tags seq) <-> q ∈ tag_set tags \/ q = seq).
Proof.
  intros Hin Hseq Hw Hlo Hl.
  pose proof (ring_slot_lt tags seq Hl) as Hslot.
  assert (tags_in (mark_buffered tags seq) lo hi) as Hin'.
  { intros i x Hi Hx. unfold mark_buffered in *.
    rewrite (ring_slot_eq _ tags) by apply length_insert.
    apply list_lookup_insert_Some in Hi as [(<-&<-&_)|[Hne Hi]]; [done|by apply Hin]. }
  split; [done|]. intros q Hq.
  rewrite (elem_of_tag_set _ _ _ _ Hin' Hq), (elem_of_tag_set _ _ _ _ Hin Hq).
  unfold mark_buffered. rewrite (ring_slot_eq _ tags) by apply length_insert.
  rewrite list_lookup_insert_Some. split.
  - intros [(_&->&_)|[_ H]]; [by right|by left].
  - intros [H| ->]; [|by left]. destruct (decide (q = seq)) as [->|Hne]; [by left|].
    right. split; [|done]. intros Heq. apply Hne.
    destruct (Hin _ _ H ltac:(lia)) as [_ Hb].
    symmetry. apply (ring_slot_inj tags); [lia|done].
Qed.

(** The ring-buffer tracker implements the abstract specification: on every
    branch the update it returns and the state it leaves are those of
    [spec_step], the ring read as the set of its non-zero tags. *)
Lemma tracker_refines_spec t seq : tracker_ok t -> tracker_room t -> is_u 64 seq ->
  let '(t', u) := tracker_on_sequence t seq in
  tracker_ok t' /\ gap_window t' = gap_window t /\
  spec_step (gap_window t) (next_expected t) (buffered t) seq
            (next_expected t') (buffered t') u.
Proof.
  intros Hok Hroom Hseq. unfold tracker_room in Hroom. unfold is_u in Hseq.
  pose proof (ok_next t Hok). pose proof (ok_gap t Hok). pose proof (ok_length t Hok).
  pose proof (tracker_tags_in t Hok) as Hin. pose proof (ok_size t Hok) as Hsz.
  unfold tracker_on_sequence.
  destruct (seq =? 0) eqn:E0; zbool.
  { split; [done|]. split; [done|]. constructor. lia. }
  destruct (seq <? next_expected t) eqn:E1; zbool.
  { split; [done|]. split; [done|]. constructor. lia. }
  destruct (seq =? next_expected t) eqn:E2; zbool.
  - pose proof (occupied_le (buffered_tags t)).
    rewrite (u64_small (next_expected t + 1)) by lia.
    pose proof (pop_loop_released (S (length (buffered_tags t))) (next_expected t + 1) 1
      (buffered_tags t) _ Hin) as Hrel.
    destruct (pop_loop _ _ _ _) as [[n' r'] tags'].
    destruct Hrel as [R1 R2 R3 R4 R5 R6 R7]; try lia. simpl in *.
    assert (tracker_ok (mkTracker n' (gap_window t) tags')) as Hok'.
    { split; simpl; [lia|lia|lia|]. intros i x Hi Hx. destruct (R6 i x Hi Hx). split; [done|lia]. }
    split; [done|]. split; [done|]. subst r'.
    replace (1 + (n' - (next_expected t + 1))) with (n' - next_expected t) by lia.
    apply spec_in_order; [done|lia| |exact R5|].
    + intros q Hq. apply R4. lia.
    + intros q. destruct (decide (0 < q)); [by apply R7|].
      split; [|intros [Hb _]].
      * intros Hb. apply (buffered_window _ _ Hok') in Hb. simpl in Hb. lia.
      * apply (buffered_window _ _ Hok) in Hb. lia.
  - rewrite !u64_small by lia.
    destruct (gap_window t <? seq - next_expected t) eqn:E3; zbool.
    { split; [done|]. split; [done|]. apply spec_too_large. lia. }
    destruct (mark_buffered_tags_in _ _ _ seq Hin) as [Hin' Hset]; try lia.
    assert (tracker_ok (mkTracker (next_expected t) (gap_window t)
      (mark_buffered (buffered_tags t) seq))) as Hok'.
    { split; simpl; [lia|lia| |].
      - unfold mark_buffered. by rewrite length_insert.
      - intros i x Hi Hx. destruct (Hin' i x Hi Hx). split; [done|lia]. }
    split; [done|]. split; [done|]. simpl.
    assert (buffered (mkTracker (next_expected t) (gap_window t)
      (mark_buffered (buffered_tags t) seq)) = buffered t ∪ {[seq]}) as ->.
    { apply set_eq. intros q. rewrite elem_of_union, elem_of_singleton.
      destruct (decide (0 < q)); [by apply Hset|].
      split; [|intros [Hb| ->]; [|lia]].
      - intros Hb%(buffered_window _ _ Hok'). simpl in Hb. lia.
      - apply (buffered_window _ _ Hok) in Hb. lia. }
    apply spec_buffer. lia.
Qed.

(** ** Forced advancement *)

Lemma clear_range_zero n : forall s tags,
  (forall i x, tags !! i = Some x -> x = 0) ->
  forall i x, clear_range n s tags !! i = Some x -> x = 0.
Proof.
  induction n as [|n IH]; intros s tags Hz; [done|]. cbn [clear_range]. apply IH.
  unfold pop_buffered. case_decide; [|done]. simpl. intros i x.
  rewrite list_lookup_insert_Some. intros [(_&<-&_)|[_ Hi]]; [done|by apply Hz in Hi].
Qed.

Lemma length_clear_range n : forall s tags, length (clear_range n s tags) = length tags.
Proof.
  induction n as [|n IH]; intros s tags; [done|]. cbn [clear_range]. rewrite IH.
  unfold pop_buffered. case_decide; [|done]. apply length_insert.
Qed.

(** Advancing past the window, as every caller does after [GapTooLarge],
    leaves an empty ring. *)
Lemma force_advance_beyond t n : tracker_ok t ->
  next_expected t + gap_window t < n < 2 ^ 64 ->
  tracker_ok (tracker_force_advance t n) /\ buffered (tracker_force_advance t n) = ∅ /\
  next_expected (tracker_force_advance t n) = n /\
  gap_window (tracker_force_advance t n) = gap_window t.
Proof.
  intros Hok Hn. pose proof (ok_next t Hok). pose proof (ok_gap t Hok).
  pose proof (ok_size t Hok) as Hsz.
  assert (forall tags, length tags = length (buffered_tags t) ->
    (forall i x, tags !! i = Some x -> x = 0) ->
    tracker_ok (mkTracker n (gap_window t) tags) /\
    buffered (mkTracker n (gap_window t) tags) = ∅) as Hzero.
  { intros tags Hl Hz. split.
    - split; simpl; [lia|lia|lia|]. intros i x Hi Hx. by destruct (Hx (Hz i x Hi)).
    - apply set_eq. intros q. unfold buffered. rewrite elem_of_list_to_set, list_elem_of_filter.
      split; [|set_solver]. intros [Hne [i Hi]%list_elem_of_lookup_1]. by destruct (Hne (Hz i q Hi)). }
  unfold tracker_force_advance. destruct (n <=? next_expected t) eqn:E; zbool; [lia|].
  rewrite u64_small by lia.
  destruct (Z.of_nat (length (buffered_tags t)) <=? n - next_expected t) eqn:E2; zbool.
  - destruct (Hzero (replicate (length (buffered_tags t)) 0)) as [??];
      [apply length_replicate|by intros i x [-> _]%lookup_replicate_1|done].
  - destruct (Hzero (clear_range (Z.to_nat (n - next_expected t)) (next_expected t)
      (buffered_tags t))) as [??]; [apply length_clear_range| |done].
    apply clear_range_zero. intros i x Hi. destruct (decide (x = 0)) as [|Hx]; [done|].
    destruct (ok_tags t Hok i x Hi Hx). lia.
Qed.

(** ** Runs *)

Fixpoint tracker_run (t : SequenceTracker) (seqs : list Z) : SequenceTracker * list SequenceUpdate :=
  match seqs with
  | [] => (t, [])
  | seq :: seqs =>
      let '(t, u) := tracker_on_sequence t seq in
      let '(t, us) := tracker_run t seqs in (t, u :: us)
  end.

Inductive spec_run (gap : Z) : Z -> gset Z -> list Z -> Z -> gset Z -> list SequenceUpdate -> Prop :=
  | spec_run_nil n B : spec_run gap n B [] n B []
  | spec_run_cons n B n1 B1 n2 B2 seq seqs u us :
      spec_step gap n B seq n1 B1 u -> spec_run gap n1 B1 seqs n2 B2 us ->
      spec_run gap n B (seq :: seqs) n2 B2 (u :: us).

(** The next expected number never passes the largest number seen. *)
Lemma spec_step_bounded gap n B seq n' B' u M : spec_step gap n B seq n' B' u ->
  n <= M + 1 -> (forall q, q ∈ B -> q <= M) -> seq <= M ->
  n' <= M + 1 /\ (forall q, q ∈ B' -> q <= M).
Proof.
  intros Hs Hn HB Hseq. destruct Hs as [|n' B' -> Hlt Hrun Hstop HB'| |].
  - done.
  - split; [|intros q Hq%HB'; apply HB, Hq].
    destruct (decide (n' = n + 1)); [lia|].
    assert (n' - 1 ∈ B) as Hin by (apply Hrun; lia). apply HB in Hin. lia.
  - split; [done|]. intros q. rewrite elem_of_union, elem_of_singleton. intros [Hq| ->]; auto.
  - done.
Qed.

Lemma tracker_run_refines_from t seqs M : tracker_ok t ->
  next_expected t <= M + 1 -> (forall q, q ∈ buffered t -> q <= M) ->
  M + gap_window t + 3 <= 2 ^ 64 -> Forall (fun s => 0 <= s <= M) seqs ->
  let '(t', us) := tracker_run t seqs in
  tracker_ok t' /\
  spec_run (gap_window t) (next_expected t) (buffered t) seqs (next_expected t') (buffered t') us.
Proof.
  intros Hok Hn HB HM Hs. revert t Hok Hn HB HM.
  induction Hs as [|seq seqs Hseq Hs IH]; intros t Hok Hn HB HM; simpl.
  { split; [done|constructor]. }
  pose proof (ok_gap t Hok).
  pose proof (tracker_refines_spec t seq Hok) as Hstep.
  destruct (tracker_on_sequence t seq) as [t1 u].
  destruct Hstep as (Hok1 & Hg & Hstep); [unfold tracker_room; lia|unfold is_u; lia|].
  destruct (spec_step_bounded _ _ _ _ _ _ _ M Hstep) as [Hn1 HB1]; [done|done|lia|].
  specialize (IH t1 Hok1 Hn1 HB1 ltac:(lia)).
  destruct (tracker_run t1 seqs) as [t2 us]. destruct IH as [Hok2 Hrun].
  split; [done|]. econstructor; [done|]. by rewrite <-Hg.
Qed.

(** C4. A fresh tracker fed any list of sequence numbers returns the updates of,
    and ends in, a run of the abstract specification started at 1 with no
    buffered number. *)
Theorem tracker_run_refines gap seqs M : 0 <= gap ->
  M + gap + 3 <= 2 ^ 64 -> Forall (fun s => 0 <= s <= M) seqs -> 0 <= M ->
  let '(t, us) := tracker_run (tracker_init gap) seqs in
  spec_run gap 1 ∅ seqs (next_expected t) (buffered t) us.
Proof.
  intros Hg HM Hs HM0.
  pose proof (tracker_run_refines_from (tracker_init gap) seqs M) as H.
  rewrite tracker_init_buffered in H.
  destruct (tracker_run _ _) as [t us]. apply H; simpl; try lia; [|set_solver|done].
  apply tracker_init_ok. lia.
Qed.

Lemma tracker_run_refines_witness :
  let '(t, us) := tracker_run (tracker_init 4) [1; 3; 2; 9; 2; 5] in
  spec_run 4 1 ∅ [1; 3; 2; 9; 2; 5] (next_expected t) (buffered t) us.
Proof. apply (tracker_run_refines 4 _ 9); [lia|lia|repeat constructor; lia|lia]. Defined.
