(* ===== verification/Recovery.v ===== *)
(** * Replay recovery (src/phase2/recovery_simulator.cpp)

    [ReplayRecoveryStore] keeps the last events of each venue in arrival
    order; [ReplayRecoverySimulator] answers a recovery request by looking the
    missing numbers up in that store. The lookup is the binary search of
    [std::lower_bound]: it is complete when the store is sorted, and sound
    (never a wrong event) whatever its order. *)

From S2P Require Import Prelude Types SequenceTracker.

(** ** Store *)

Record ReplayRecoveryStore := mkStore {
  max_events_per_venue : Z;
  by_venue : PerVenue (list BookEvent);
}.

Definition store_init (max : Z) : ReplayRecoveryStore := mkStore max (pv_const []).

(** [while (q.size() > max_events_per_venue_) q.pop_front();] *)
Fixpoint trim_front (max : Z) (q : list BookEvent) : list BookEvent :=
  match q with
  | [] => []
  | e :: q' => if max <? Z.of_nat (length q) then trim_front max q' else q
  end.

Definition record_event (s : ReplayRecoveryStore) (ev : BookEvent) : ReplayRecoveryStore :=
  let q := (by_venue s).[venue ev] ++ [ev] in
  mkStore (max_events_per_venue s)
          ((by_venue s).[venue ev := trim_front (max_events_per_venue s) q]).

(** [while (!q.empty() && q.front().sequence < min) q.pop_front();] *)
Fixpoint pop_before (min : Z) (q : list BookEvent) : list BookEvent :=
  match q with
  | [] => []
  | e :: q' => if sequence e <? min then pop_before min q' else q
  end.

Definition evict_before (s : ReplayRecoveryStore) (v : Venue) (min : Z) : ReplayRecoveryStore :=
  mkStore (max_events_per_venue s) ((by_venue s).[v := pop_before min ((by_venue s).[v])]).

Definition store_lookup (s : ReplayRecoveryStore) (v : Venue) (seq : Z) : option BookEvent :=
  let q := (by_venue s).[v] in
  match q !! lower_bound (fun ev => sequence ev <? seq) q with
  | Some ev => if sequence ev =? seq then Some ev else None
  | None => None
  end.

(** ** Simulator *)

Record ReplayRecoverySimulator := mkSim {
  pending_recovered : list BookEvent;
  requests_total : Z;
  recovered_events_total : Z;
}.

Definition sim_init : ReplayRecoverySimulator := mkSim [] 0 0.

(** [n] iterations of the lookup loop, from [seq] upwards. *)
Fixpoint recover_range (store : ReplayRecoveryStore) (v : Venue) (n : nat) (seq : Z)
    (sim : ReplayRecoverySimulator) : ReplayRecoverySimulator :=
  match n with
  | O => sim
  | S n =>
      let sim' :=
        match store_lookup store v seq with
        | None => sim
        | Some ev => mkSim (pending_recovered sim ++ [ev]) (requests_total sim)
                           (recovered_events_total sim + 1)
        end in
      recover_range store v n (seq +64 1) sim'
  end.

(** The simulator holds a pointer to the store, possibly null. *)
#[export] Instance simulator_handler
    : IRecoveryHandler (option ReplayRecoveryStore * ReplayRecoverySimulator) :=
  fun req '(store, sim) =>
    let sim := mkSim (pending_recovered sim) (requests_total sim + 1)
                     (recovered_events_total sim) in
    match store with
    | None => (store, sim)
    | Some st =>
        match req_reason req with
        | GapTooLargeReason => (store, sim)
        | GapDetectedReason =>
            let '(mkGap b e) := req_missing req in
            (store, recover_range st (req_venue req) (Z.to_nat (e - b + 1)) b sim)
        end
    end.

(** [drain_recovered]: swaps the pending vector out. *)
Definition drain_recovered (sim : ReplayRecoverySimulator)
    : list BookEvent * ReplayRecoverySimulator :=
  (pending_recovered sim, mkSim [] (requests_total sim) (recovered_events_total sim)).

(** ** Properties *)

Lemma elem_of_trim_front max q e : e ∈ trim_front max q -> e ∈ q.
Proof.
  induction q as [|x q IH]; [done|]. cbn [trim_front]. destruct (_ <? _); [|done].
  intros H. right. auto.
Qed.

Lemma trim_front_suffix max q : exists k, q = k ++ trim_front max q.
Proof.
  induction q as [|x q [k IH]]; [by exists []|]. cbn [trim_front]. destruct (_ <? _).
  - exists (x :: k). simpl. by rewrite <-IH.
  - by exists [].
Qed.

Lemma length_trim_front max q : 0 <= max -> Z.of_nat (length (trim_front max q)) <= max.
Proof.
  intros Hm. induction q as [|x q IH]; [done|]. cbn [trim_front].
  destruct (max <? _) eqn:E; zbool; [done|lia].
Qed.

Lemma elem_of_pop_before min q e : e ∈ pop_before min q -> e ∈ q.
Proof.
  induction q as [|x q IH]; [done|]. cbn [pop_before]. destruct (_ <? _); [|done].
  intros H. right. auto.
Qed.

(** A successful lookup is a stored event of that number, however the
    store is ordered. *)
Lemma store_lookup_sound s v seq ev :
  store_lookup s v seq = Some ev -> ev ∈ (by_venue s).[v] /\ sequence ev = seq.
Proof.
  unfold store_lookup. destruct (_ !! _) as [e|] eqn:E; [|done].
  destruct (sequence e =? seq) eqn:Es; [|done]. intros [= <-]. zbool.
  split; [|done]. by eapply list_elem_of_lookup_2.
Qed.

Definition seq_sorted (q : list BookEvent) : Prop :=
  StronglySorted (fun a b => sequence a <= sequence b) q.

Lemma seq_sorted_lookup q i j a b : seq_sorted q ->
  q !! i = Some a -> q !! j = Some b -> (i <= j)%nat -> sequence a <= sequence b.
Proof.
  intros Hs. revert i j. induction Hs as [|x q Hs IH Hf]; intros i j Hi Hj Hij; [done|].
  destruct i as [|i], j as [|j]; simpl in *; try lia; simplify_eq; [lia| |].
  - rewrite Forall_lookup in Hf. by apply (Hf j).
  - apply (IH i j); auto. lia.
Qed.

(** On a store kept in sequence order a lookup finds every stored number. *)
Lemma store_lookup_complete s v ev : seq_sorted ((by_venue s).[v]) ->
  ev ∈ (by_venue s).[v] -> is_Some (store_lookup s v (sequence ev)).
Proof.
  intros Hs [i Hi]%list_elem_of_lookup_1. unfold store_lookup.
  set (q := (by_venue s).[v]) in *. set (before := fun e => sequence e <? sequence ev).
  assert (partitioned before q) as Hp.
  { intros a b x y Ha Hb Hab Hy. unfold before in *. zbool.
    pose proof (seq_sorted_lookup q a b x y Hs Ha Hb Hab). apply Z.ltb_lt. lia. }
  destruct (lower_bound_spec before q Hp) as (Hle & Hlt & Hge).
  destruct (decide (i < lower_bound before q)%nat) as [Hil|Hil].
  { specialize (Hlt i ev Hi Hil). unfold before in Hlt. zbool. lia. }
  destruct (lookup_lt_is_Some_2 q (lower_bound before q)) as [e He].
  { apply lookup_lt_Some in Hi. lia. }
  rewrite He. pose proof (Hge _ _ He ltac:(lia)) as Hb. unfold before in Hb. zbool.
  pose proof (seq_sorted_lookup q _ _ e ev Hs He Hi ltac:(lia)).
  replace (sequence e =? sequence ev) with true by (symmetry; apply Z.eqb_eq; lia). by eexists.
Qed.

(** Everything a recovery appends was in the store, under the requested
    venue and within the requested range. *)
Lemma recover_range_sound store v n : forall seq sim ev,
  0 <= seq -> seq + Z.of_nat n < 2 ^ 64 ->
  ev ∈ pending_recovered (recover_range store v n seq sim) ->
  ev ∈ pending_recovered sim \/
  (ev ∈ (by_venue store).[v] /\ seq <= sequence ev < seq + Z.of_nat n).
Proof.
  induction n as [|n IH]; intros seq sim ev Hs Hn Hev; [by left|].
  cbn [recover_range] in Hev. rewrite u64_small in Hev by lia.
  apply IH in Hev as [Hev|[Hev Hb]]; [|right; split; [done|lia]|lia|lia].
  destruct (store_lookup store v seq) as [e|] eqn:E; [|by left].
  simpl in Hev. apply elem_of_app in Hev as [Hev|Hev]; [by left|].
  apply list_elem_of_singleton in Hev as ->. apply store_lookup_sound in E as [??].
  right. split; [done|lia].
Qed.

Lemma recover_range_requests store v n : forall seq sim,
  requests_total (recover_range store v n seq sim) = requests_total sim.
Proof.
  induction n as [|n IH]; intros seq sim; [done|]. cbn [recover_range]. rewrite IH.
  by destruct (store_lookup _ _ _).
Qed.
