(* ===== verification/Merger.v ===== *)
(** * Deterministic cross-venue merge (src/phase2/deterministic_merger.cpp)

    One FIFO queue per venue; [pop_next] takes the smallest head by exchange
    timestamp, venue, sequence and raw type. Draining is a k-way merge: its
    result depends only on the per-venue subsequences, it keeps each of them
    in order, and it is sorted whenever each of them is. *)

From S2P Require Import Prelude Types.

(** ** The code *)

Definition less_event (a b : BookEvent) : bool :=
  if negb (exchange_ts_ns a =? exchange_ts_ns b) then exchange_ts_ns a <? exchange_ts_ns b else
  if negb (bool_decide (venue a = venue b)) then venue_u8 (venue a) <? venue_u8 (venue b) else
  if negb (sequence a =? sequence b) then sequence a <? sequence b else
  raw_type a <? raw_type b.

Record DeterministicMerger := mkMerger {
  per_venue_capacity : Z;
  queues : PerVenue (list BookEvent);
}.

Definition merger_init (capacity : Z) : DeterministicMerger := mkMerger capacity (pv_const []).

(** [push] never rejects: the capacity is only a hint. *)
Definition merger_push (m : DeterministicMerger) (ev : BookEvent) : bool * DeterministicMerger :=
  (true, mkMerger (per_venue_capacity m)
           ((queues m).[venue ev := (queues m).[venue ev] ++ [ev]])).

(** One iteration of the selection loop of [pop_next]; [None] is the sentinel
    [best_index == queues_.size()]. *)
Definition better_index (q : PerVenue (list BookEvent)) (best : option Venue) (i : Venue)
    : option Venue :=
  match q.[i] with
  | [] => best
  | e :: _ =>
      match best with
      | None => Some i
      | Some b => match q.[b] with
                  | f :: _ => if less_event e f then Some i else best
                  | [] => best
                  end
      end
  end.

Definition best_index (q : PerVenue (list BookEvent)) : option Venue :=
  fold_left (better_index q) all_venues None.

Definition merger_pop_next (m : DeterministicMerger) : option (BookEvent * DeterministicMerger) :=
  match best_index (queues m) with
  | None => None
  | Some b =>
      match (queues m).[b] with
      | [] => None
      | e :: rest => Some (e, mkMerger (per_venue_capacity m) ((queues m).[b := rest]))
      end
  end.

Definition queued_count (m : DeterministicMerger) : nat :=
  fold_left (fun n q => (n + length q)%nat) (pv_list (queues m)) O.

(** [while (merger.pop_next(ev)) ...]: at most [fuel] pops. *)
Fixpoint merger_drain_fuel (fuel : nat) (m : DeterministicMerger) : list BookEvent :=
  match fuel with
  | O => []
  | S fuel =>
      match merger_pop_next m with
      | None => []
      | Some (e, m) => e :: merger_drain_fuel fuel m
      end
  end.

Definition merger_drain (m : DeterministicMerger) : list BookEvent :=
  merger_drain_fuel (queued_count m) m.

Definition merger_push_all (m : DeterministicMerger) (evs : list BookEvent) : DeterministicMerger :=
  fold_left (fun m ev => (merger_push m ev).2) evs m.

(** ** The order *)

Lemma less_event_spec a b : less_event a b = true <->
  exchange_ts_ns a < exchange_ts_ns b \/
  exchange_ts_ns a = exchange_ts_ns b /\
  (venue_u8 (venue a) < venue_u8 (venue b) \/
   venue_u8 (venue a) = venue_u8 (venue b) /\
   (sequence a < sequence b \/ sequence a = sequence b /\ raw_type a < raw_type b)).
Proof.
  unfold less_event.
  destruct (Z.eqb_spec (exchange_ts_ns a) (exchange_ts_ns b)); simpl; [|rewrite Z.ltb_lt; lia].
  case_bool_decide as Hv; simpl.
  - destruct (Z.eqb_spec (sequence a) (sequence b)); simpl; rewrite Z.ltb_lt, Hv; lia.
  - rewrite Z.ltb_lt. pose proof (venue_u8_inj (venue a) (venue b)). intuition lia.
Qed.

Lemma less_event_false a b : less_event a b = false <-> ~ (less_event a b = true).
Proof. destruct (less_event a b); split; congruence. Qed.

Lemma less_event_strict_weak : strict_weak less_event.
Proof.
  split; intros *; rewrite ?less_event_false, ?less_event_spec; lia.
Qed.

(** ** Selection *)

Definition head_of (q : PerVenue (list BookEvent)) (v : Venue) : option BookEvent := head (q.[v]).

Definition least_head (q : PerVenue (list BookEvent)) (vs : list Venue) (e : BookEvent) : Prop :=
  forall v f, v ∈ vs -> head_of q v = Some f -> less_event f e = false.

Lemma fold_better_index q vs : forall best,
  match best with None => True | Some b => q.[b] <> [] end ->
  match fold_left (better_index q) vs best with
  | None => best = None /\ (forall v, v ∈ vs -> q.[v] = [])
  | Some b => exists e, head_of q b = Some e /\ least_head q vs e /\
      (forall a f, best = Some a -> head_of q a = Some f -> less_event f e = false)
  end.
Proof.
  pose proof (sw_asym _ less_event_strict_weak) as Hasym.
  pose proof (sw_irrefl _ less_event_strict_weak) as Hirr.
  pose proof (sw_negtrans _ less_event_strict_weak) as Htr.
  induction vs as [|v vs IH]; intros best Hbest; cbn [fold_left].
  { destruct best as [b|]; [|by split; [|set_solver]].
    unfold head_of. destruct (q.[b]) as [|e rest] eqn:Eb; [done|]. exists e.
    split; [done|]. split; [intros ? ? []%not_elem_of_nil|].
    intros a f [= <-]. rewrite Eb. intros [= <-]. apply Hirr. }
  assert (match better_index q best v with None => True | Some b => q.[b] <> [] end) as Hb'.
  { unfold better_index. destruct (q.[v]) as [|x r] eqn:Ev; [done|].
    destruct best as [a|]; [|congruence]. destruct (q.[a]) eqn:?; [done|]. destruct (less_event _ _); congruence. }
  specialize (IH _ Hb'). destruct (fold_left _ _ _) as [b|] eqn:Ef.
  - destruct IH as (e & He & Hleast & Hacc). exists e. split; [done|].
    unfold better_index, head_of in *. destruct (q.[v]) as [|x rest] eqn:Ev.
    + split; [|done]. intros w f [->|Hw]%elem_of_cons Hf; [unfold head_of in Hf; by rewrite Ev in Hf|by eapply Hleast].
    + assert (less_event x e = false /\
        (forall a f, best = Some a -> head (q.[a]) = Some f -> less_event f e = false)) as [Hx Ha].
      { destruct best as [a|]; [|by split; [apply (Hacc v); rewrite ?Ev|]].
        destruct (q.[a]) as [|y rest'] eqn:Ea; [done|].
        destruct (less_event x y) eqn:Exy.
        - assert (less_event x e = false) by (apply (Hacc v); rewrite ?Ev; done).
          split; [done|]. intros ? ? [= <-]. rewrite Ea. intros [= <-].
          apply (Htr e x y); [done|]. by apply Hasym.
        - assert (less_event y e = false) by (apply (Hacc a); rewrite ?Ea; done).
          split; [by apply (Htr e y x)|]. intros ? ? [= <-]. rewrite Ea. by intros [= <-]. }
      split; [|done]. intros w f [->|Hw]%elem_of_cons Hf; [|by eapply Hleast].
      unfold head_of in Hf. rewrite Ev in Hf. by injection Hf as <-.
  - destruct IH as [Hn Hall]. unfold better_index in Hn. destruct (q.[v]) as [|x r] eqn:Ev.
    + split; [done|]. intros w [->|Hw]%elem_of_cons; auto.
    + destruct best as [a|]; [|done]. destruct (q.[a]); [done|]. by destruct (less_event _ _).
Qed.

Lemma elem_of_all_venues v : v ∈ all_venues.
Proof. destruct v; set_solver. Qed.

(** The pop takes a least head; it fails only when every queue is empty. *)
Lemma merger_pop_next_spec m :
  match merger_pop_next m with
  | None => forall v, (queues m).[v] = []
  | Some (e, m') => exists b rest, (queues m).[b] = e :: rest /\
      queues m' = (queues m).[b := rest] /\ least_head (queues m) all_venues e
  end.
Proof.
  unfold merger_pop_next, best_index.
  pose proof (fold_better_index (queues m) all_venues None I) as H.
  destruct (fold_left _ _ _) as [b|].
  - destruct H as (e & He & Hleast & _). unfold head_of in He.
    destruct ((queues m).[b]) as [|x rest] eqn:Eb; [done|]. injection He as ->.
    by exists b, rest.
  - destruct H as [_ H]. intros v. apply H, elem_of_all_venues.
Qed.

Lemma queued_count_sum m : queued_count m =
  (length ((queues m).[Nasdaq]) + length ((queues m).[Iex]) + length ((queues m).[Cboe]) +
   length ((queues m).[Cme]) + length ((queues m).[Bitfinex]))%nat.
Proof. destruct m as [c [a b d e f]]. unfold queued_count. simpl. lia. Qed.

Lemma queued_count_pop m e m' : merger_pop_next m = Some (e, m') ->
  queued_count m = S (queued_count m').
Proof.
  intros H. pose proof (merger_pop_next_spec m) as Hs. rewrite H in Hs.
  destruct Hs as (b & rest & Hb & Hq & _). rewrite !queued_count_sum, Hq.
  destruct b; rewrite ?pv_get_set, ?(pv_get_set_ne _ Nasdaq), ?(pv_get_set_ne _ Iex),
    ?(pv_get_set_ne _ Cboe), ?(pv_get_set_ne _ Cme), ?(pv_get_set_ne _ Bitfinex), Hb by done;
    simpl; lia.
Qed.

(** ** Draining *)

(** Every queue holds events of its own venue. *)
Definition queues_wf (q : PerVenue (list BookEvent)) : Prop :=
  forall v, Forall (fun e => venue e = v) (q.[v]).

Definition of_venue (v : Venue) (evs : list BookEvent) : list BookEvent :=
  filter (fun e => venue e = v) evs.

Lemma of_venue_all v q : Forall (fun e => venue e = v) q -> of_venue v q = q.
Proof. induction 1; unfold of_venue in *; [done|]. rewrite filter_cons_True by done. by f_equal. Qed.

Lemma queues_wf_pop q b e rest : queues_wf q -> q.[b] = e :: rest ->
  queues_wf (q.[b := rest]) /\ venue e = b.
Proof.
  intros Hwf Hb. pose proof (Hwf b) as H. rewrite Hb in H. inversion_clear H.
  split; [|done]. intros v. rewrite pv_get_set_dec. by case_decide; subst.
Qed.

(** Draining keeps every venue's queue whole and in order. *)
Lemma of_venue_drain fuel : forall m v, queues_wf (queues m) -> (queued_count m <= fuel)%nat ->
  of_venue v (merger_drain_fuel fuel m) = (queues m).[v].
Proof.
  induction fuel as [|fuel IH]; intros m v Hwf Hf; cbn [merger_drain_fuel].
  - rewrite queued_count_sum in Hf. destruct v;
      (match goal with |- _ = ?l => assert (length l = 0%nat) as Hl%nil_length_inv by lia end; by rewrite Hl).
  - pose proof (merger_pop_next_spec m) as Hs. destruct (merger_pop_next m) as [[e m']|] eqn:E.
    + destruct Hs as (b & rest & Hb & Hq & _).
      destruct (queues_wf_pop _ _ _ _ Hwf Hb) as [Hwf' Hv].
      pose proof (queued_count_pop _ _ _ E).
      unfold of_venue. rewrite filter_cons. fold (of_venue v (merger_drain_fuel fuel m')).
      rewrite IH; [|by rewrite Hq|lia]. rewrite Hq, pv_get_set_dec, Hv.
      repeat case_decide; subst; done.
    + by rewrite Hs.
Qed.

Lemma drain_sorted fuel : forall m,
  (forall v, StronglySorted (not_after less_event) ((queues m).[v])) ->
  StronglySorted (not_after less_event) (merger_drain_fuel fuel m) /\
  (forall x, x ∈ merger_drain_fuel fuel m -> exists v, x ∈ (queues m).[v]).
Proof.
  pose proof (sw_negtrans _ less_event_strict_weak) as Htr.
  induction fuel as [|fuel IH]; intros m Hs; cbn [merger_drain_fuel].
  { split; [constructor|intros x []%not_elem_of_nil]. }
  pose proof (merger_pop_next_spec m) as Hp. destruct (merger_pop_next m) as [[e m']|].
  2:{ split; [constructor|intros x []%not_elem_of_nil]. }
  destruct Hp as (b & rest & Hb & Hq & Hleast).
  assert (forall v, StronglySorted (not_after less_event) ((queues m').[v])) as Hs'.
  { intros v. rewrite Hq, pv_get_set_dec. case_decide; [|done]. subst v.
    specialize (Hs b). rewrite Hb in Hs. by inversion_clear Hs. }
  destruct (IH m' Hs') as [Hsort Hin].
  assert (forall x, x ∈ merger_drain_fuel fuel m' -> exists v, x ∈ (queues m).[v]) as Hin'.
  { intros x [v Hv]%Hin. rewrite Hq, pv_get_set_dec in Hv. case_decide; [|by exists v].
    exists b. rewrite Hb. by right. }
  split; [|intros x [->|Hx]%elem_of_cons; [exists b; rewrite Hb; by left|auto]].
  constructor; [done|]. apply Forall_forall. intros x Hx. apply Hin' in Hx as [v Hv].
  unfold not_after. specialize (Hs v). destruct ((queues m).[v]) as [|y l] eqn:Ev; [by apply not_elem_of_nil in Hv|].
  assert (less_event y e = false) as Hy.
  { apply (Hleast v); [apply elem_of_all_venues|]. unfold head_of. by rewrite Ev. }
  inversion_clear Hs as [|? ? _ Hf]. apply elem_of_cons in Hv as [->|Hv]; [done|].
  rewrite Forall_forall in Hf. specialize (Hf x Hv).
  by apply (Htr e y x).
Qed.

Lemma push_all_queues evs : forall m v,
  (queues (merger_push_all m evs)).[v] = (queues m).[v] ++ of_venue v evs.
Proof.
  induction evs as [|e evs IH]; intros m v; simpl; [by rewrite app_nil_r|].
  unfold merger_push_all in *. cbn [fold_left]. rewrite IH. simpl. rewrite pv_get_set_dec.
  unfold of_venue. rewrite filter_cons. repeat case_decide; subst; try done.
  by rewrite <-app_assoc.
Qed.

Lemma push_all_wf c evs : queues_wf (queues (merger_push_all (merger_init c) evs)).
Proof.
  intros v. rewrite push_all_queues. simpl. rewrite pv_get_const. simpl.
  apply Forall_forall. intros x Hx.
  unfold of_venue in Hx. by apply list_elem_of_filter in Hx as [? _].
Qed.

Lemma push_all_capacity evs : forall m,
  per_venue_capacity (merger_push_all m evs) = per_venue_capacity m.
Proof. induction evs as [|e evs IH]; intros m; [done|]. unfold merger_push_all in *. cbn [fold_left]. by rewrite IH. Qed.

(** Draining the merger is a merge: restricted to any venue, the output is
    exactly what that venue pushed, in the order it was pushed; nothing is
    lost, duplicated or reordered within a venue. *)
Theorem merge_keeps_venue_order c evs v :
  of_venue v (merger_drain (merger_push_all (merger_init c) evs)) = of_venue v evs.
Proof.
  unfold merger_drain. rewrite of_venue_drain; [|apply push_all_wf|lia].
  rewrite push_all_queues. simpl. by rewrite pv_get_const.
Qed.

(** The merged stream is independent of the interleaving of the venues: two
    arrival orders with the same per-venue subsequences drain to the same
    sequence of events. *)
Theorem merge_interleaving_independent c evs1 evs2 :
  (forall v, of_venue v evs1 = of_venue v evs2) ->
  merger_drain (merger_push_all (merger_init c) evs1) =
  merger_drain (merger_push_all (merger_init c) evs2).
Proof.
  intros H. f_equal.
  pose proof (push_all_queues evs1 (merger_init c)) as H1.
  pose proof (push_all_queues evs2 (merger_init c)) as H2.
  pose proof (push_all_capacity evs1 (merger_init c)) as C1.
  pose proof (push_all_capacity evs2 (merger_init c)) as C2.
  destruct (merger_push_all _ evs1) as [c1 q1], (merger_push_all _ evs2) as [c2 q2].
  simpl in *. subst. f_equal. apply pv_ext. intros v. by rewrite H1, H2, H.
Qed.

(** Fed per-venue streams that are each in merge order, the merged stream is
    globally in merge order (timestamp, then venue, sequence, raw type). *)
Theorem merge_output_sorted c evs :
  (forall v, StronglySorted (not_after less_event) (of_venue v evs)) ->
  StronglySorted (not_after less_event) (merger_drain (merger_push_all (merger_init c) evs)).
Proof.
  intros H. apply drain_sorted. intros v. rewrite push_all_queues. simpl.
  rewrite pv_get_const. apply H.
Qed.

(** Two venues, three events, pushed in two different interleavings. *)
Definition sample_event (v : Venue) (ts seq : Z) : BookEvent :=
  event_default |> set_venue v |> set_exchange_ts ts |> set_sequence seq.

Lemma merge_interleaving_independent_witness :
  let a := sample_event Nasdaq 10 1 in let b := sample_event Iex 5 1 in
  let c := sample_event Iex 20 2 in
  merger_drain (merger_push_all (merger_init 0) [a; b; c]) =
  merger_drain (merger_push_all (merger_init 0) [b; c; a]).
Proof. apply merge_interleaving_independent. intros []; reflexivity. Defined.

Lemma merge_output_sorted_witness :
  let a := sample_event Nasdaq 10 1 in let b := sample_event Iex 5 1 in
  let c := sample_event Iex 20 2 in
  StronglySorted (not_after less_event) (merger_drain (merger_push_all (merger_init 0) [a; b; c])).
Proof. apply merge_output_sorted. intros []; repeat constructor. Defined.
