(* ===== verification/Pipeline.v ===== *)
(** * Phase 2 pipeline (src/phase2/pipeline.cpp)

    Sequencing, gap buffering, replay recovery and merging put together.
    [pipe_ok] is the invariant that ties the components: the pending maps
    hold exactly the numbers the trackers have buffered, and what has been
    published to the merger is strictly increasing per venue. The statistics
    counters are counted without wrap-around: 2^64 increments are out of
    reach. *)

From S2P Require Import Prelude Types Crc SequenceTracker Recovery Merger.

(** ** State *)

Record PipelineStats := mkPStats {
  accepted : Z;
  dropped_publish_overflow : Z;
  dropped_duplicate_or_old : Z;
  buffered_out_of_order : Z;
  dropped_gap_too_large : Z;
  dropped_gap_too_large_pending_evicted : Z;
  pending_inconsistency : Z;
  recovery_requests : Z;
  recovery_reinjected : Z;
  merged_crc : Z;
}.

Definition pstats_init : PipelineStats := mkPStats 0 0 0 0 0 0 0 0 0 0.

(** The increments and assignments the pipeline applies to its counters. *)
Section stats.
Implicit Types s : PipelineStats.
Definition inc_accepted s := mkPStats (accepted s + 1) (dropped_publish_overflow s) (dropped_duplicate_or_old s) (buffered_out_of_order s) (dropped_gap_too_large s) (dropped_gap_too_large_pending_evicted s) (pending_inconsistency s) (recovery_requests s) (recovery_reinjected s) (merged_crc s).
Definition inc_overflow s := mkPStats (accepted s) (dropped_publish_overflow s + 1) (dropped_duplicate_or_old s) (buffered_out_of_order s) (dropped_gap_too_large s) (dropped_gap_too_large_pending_evicted s) (pending_inconsistency s) (recovery_requests s) (recovery_reinjected s) (merged_crc s).
Definition inc_duplicate s := mkPStats (accepted s) (dropped_publish_overflow s) (dropped_duplicate_or_old s + 1) (buffered_out_of_order s) (dropped_gap_too_large s) (dropped_gap_too_large_pending_evicted s) (pending_inconsistency s) (recovery_requests s) (recovery_reinjected s) (merged_crc s).
Definition inc_buffered s := mkPStats (accepted s) (dropped_publish_overflow s) (dropped_duplicate_or_old s) (buffered_out_of_order s + 1) (dropped_gap_too_large s) (dropped_gap_too_large_pending_evicted s) (pending_inconsistency s) (recovery_requests s) (recovery_reinjected s) (merged_crc s).
Definition inc_too_large s := mkPStats (accepted s) (dropped_publish_overflow s) (dropped_duplicate_or_old s) (buffered_out_of_order s) (dropped_gap_too_large s + 1) (dropped_gap_too_large_pending_evicted s) (pending_inconsistency s) (recovery_requests s) (recovery_reinjected s) (merged_crc s).
Definition add_evicted n s := mkPStats (accepted s) (dropped_publish_overflow s) (dropped_duplicate_or_old s) (buffered_out_of_order s) (dropped_gap_too_large s) (dropped_gap_too_large_pending_evicted s + n) (pending_inconsistency s) (recovery_requests s) (recovery_reinjected s) (merged_crc s).
Definition inc_inconsistency s := mkPStats (accepted s) (dropped_publish_overflow s) (dropped_duplicate_or_old s) (buffered_out_of_order s) (dropped_gap_too_large s) (dropped_gap_too_large_pending_evicted s) (pending_inconsistency s + 1) (recovery_requests s) (recovery_reinjected s) (merged_crc s).
Definition inc_reinjected s := mkPStats (accepted s) (dropped_publish_overflow s) (dropped_duplicate_or_old s) (buffered_out_of_order s) (dropped_gap_too_large s) (dropped_gap_too_large_pending_evicted s) (pending_inconsistency s) (recovery_requests s) (recovery_reinjected s + 1) (merged_crc s).
Definition set_final crc reqs s := mkPStats (accepted s) (dropped_publish_overflow s) (dropped_duplicate_or_old s) (buffered_out_of_order s) (dropped_gap_too_large s) (dropped_gap_too_large_pending_evicted s) (pending_inconsistency s) reqs (recovery_reinjected s) crc.
End stats.

Record Pipeline := mkPipeline {
  recovery_store : ReplayRecoveryStore;
  recovery_sim : ReplayRecoverySimulator;
  sequencer : MultiVenueSequenceTracker;
  merger : DeterministicMerger;
  pending_by_venue : PerVenue (gmap Z BookEvent);
  pstats : PipelineStats;
}.

Definition kRecoveryLookbackSlack : Z := 64.

Definition pipeline_init (gap capacity : Z) : Pipeline :=
  mkPipeline (store_init (gap +64 kRecoveryLookbackSlack)) sim_init (multi_init gap)
             (merger_init capacity) (pv_const ∅) pstats_init.

(** ** Operations *)

Section fields.
Implicit Types p : Pipeline.
Definition with_store x p := mkPipeline x (recovery_sim p) (sequencer p) (merger p) (pending_by_venue p) (pstats p).
Definition with_sim x p := mkPipeline (recovery_store p) x (sequencer p) (merger p) (pending_by_venue p) (pstats p).
Definition with_sequencer x p := mkPipeline (recovery_store p) (recovery_sim p) x (merger p) (pending_by_venue p) (pstats p).
Definition with_merger x p := mkPipeline (recovery_store p) (recovery_sim p) (sequencer p) x (pending_by_venue p) (pstats p).
Definition with_pending x p := mkPipeline (recovery_store p) (recovery_sim p) (sequencer p) (merger p) x (pstats p).
Definition with_stats f p := mkPipeline (recovery_store p) (recovery_sim p) (sequencer p) (merger p) (pending_by_venue p) (f (pstats p)).
End fields.

Definition publish (p : Pipeline) (ev : BookEvent) : Pipeline :=
  let '(ok, m) := merger_push (merger p) ev in
  if ok then p |> with_merger m |> with_stats inc_accepted
  else p |> with_merger m |> with_stats inc_overflow.

(** [pending.erase(pending.begin(), pending.lower_bound(seq))] on the map
    ordered by sequence number. *)
Definition evict_pending_before (pending : gmap Z BookEvent) (seq : Z) : gmap Z BookEvent :=
  filter (fun kv => seq <= kv.1) pending.

(** [if (next > slack) recovery_store_.evict_before(venue, next - slack);] *)
Definition evict_store (p : Pipeline) (v : Venue) : Pipeline :=
  let next := sequencer_next_expected (sequencer p) v in
  if kRecoveryLookbackSlack <? next
  then with_store (evict_before (recovery_store p) v (next - kRecoveryLookbackSlack)) p
  else p.

(** The release loop of the in-order branch: [n] more numbers from [seq]. *)
Fixpoint release_pending (n : nat) (v : Venue) (seq : Z) (p : Pipeline) : Pipeline :=
  match n with
  | O => p
  | S n =>
      match (pending_by_venue p).[v] !! seq with
      | None => release_pending n v (seq +64 1) (with_stats inc_inconsistency p)
      | Some ev =>
          let p := publish p ev in
          let p := with_pending ((pending_by_venue p).[v := delete seq (pending_by_venue p).[v]]) p in
          release_pending n v (seq +64 1) p
      end
  end.

Definition process_event (p : Pipeline) (ev : BookEvent) : Pipeline :=
  let v := venue ev in
  let '(seqr, handler, result) :=
    sequencer_on_sequence (sequencer p) (Some (Some (recovery_store p), recovery_sim p)) v (sequence ev) in
  let p := p |> with_sequencer seqr
             |> with_sim (match handler with Some (_, sim) => sim | None => recovery_sim p end) in
  let upd := sr_update result in
  match upd_status upd with
  | DuplicateOrOld => with_stats inc_duplicate p
  | GapTooLarge =>
      let p := with_stats inc_too_large p in
      let p := with_sequencer (multi_force_advance (sequencer p) v (sequence ev)) p in
      let pending := (pending_by_venue p).[v] in
      let kept := evict_pending_before pending (sequence ev) in
      let p := with_pending ((pending_by_venue p).[v := kept]) p in
      let p := with_stats (add_evicted (Z.of_nat (size pending) - Z.of_nat (size kept))) p in
      evict_store p v
  | GapBuffered =>
      let p := with_pending ((pending_by_venue p).[v := <[sequence ev := ev]> (pending_by_venue p).[v]]) p in
      with_stats inc_buffered p
  | InOrder =>
      let p := publish p ev in
      let to_release := if 0 <? released_count upd then released_count upd - 1 else 0 in
      let p := release_pending (Z.to_nat to_release) v (sequence ev +64 1) p in
      evict_store p v
  end.

(** One recovered event: skipped when it is already pending. *)
Definition reinject (p : Pipeline) (r : BookEvent) : Pipeline :=
  match (pending_by_venue p).[venue r] !! sequence r with
  | Some _ => p
  | None => with_stats inc_reinjected (process_event p r)
  end.

Definition pipeline_on_event (p : Pipeline) (ev : BookEvent) : Pipeline :=
  let p := with_store (record_event (recovery_store p) ev) p in
  let p := process_event p ev in
  let '(recovered, sim) := drain_recovered (recovery_sim p) in
  fold_left reinject recovered (with_sim sim p).

Definition pipeline_run (p : Pipeline) (evs : list BookEvent) : Pipeline :=
  fold_left pipeline_on_event evs p.

(** The drain loop of [finalize], against any sink. *)
Fixpoint finalize_loop `{MergedEventSink T} (fuel : nat) (m : DeterministicMerger)
    (sink : option T) (crc : Z) : DeterministicMerger * option T * Z :=
  match fuel with
  | O => (m, sink, crc)
  | S fuel =>
      match merger_pop_next m with
      | None => (m, sink, crc)
      | Some (ev, m) =>
          finalize_loop fuel m (on_merged_event ev <$> sink) (update_crc_from_book_event crc ev)
      end
  end.

Definition pipeline_finalize `{MergedEventSink T} (p : Pipeline) (sink : option T)
    : Pipeline * option T :=
  let '(m, sink, crc) :=
    finalize_loop (queued_count (merger p)) (merger p) sink (merged_crc (pstats p)) in
  (p |> with_merger m |> with_stats (set_final crc (requests_total (recovery_sim p))), sink).

(** ** Draining *)

Lemma finalize_loop_drain `{MergedEventSink T} fuel : forall m (sink : option T) crc,
  let r := finalize_loop fuel m sink crc in
  r.1.2 = (fun s => fold_left (fun s e => on_merged_event e s) (merger_drain_fuel fuel m) s) <$> sink /\
  r.2 = crc_of_events crc (merger_drain_fuel fuel m).
Proof.
  induction fuel as [|fuel IH]; intros m sink crc; cbn [finalize_loop merger_drain_fuel].
  { split; [by destruct sink|done]. }
  destruct (merger_pop_next m) as [[ev m']|]; [|split; [by destruct sink|done]].
  destruct (IH m' (on_merged_event ev <$> sink) (update_crc_from_book_event crc ev)) as [H1 H2].
  split; [rewrite H1; by destruct sink|exact H2].
Qed.

(** What a sink attached to [finalize] sees, and the checksum reported, are
    those of the merged stream. *)
Lemma pipeline_finalize_drain `{MergedEventSink T} p (sink : option T) :
  let r := pipeline_finalize p sink in
  r.2 = (fun s => fold_left (fun s e => on_merged_event e s) (merger_drain (merger p)) s) <$> sink /\
  merged_crc (pstats r.1) = crc_of_events (merged_crc (pstats p)) (merger_drain (merger p)).
Proof.
  unfold pipeline_finalize.
  pose proof (finalize_loop_drain (queued_count (merger p)) (merger p) sink (merged_crc (pstats p))) as H1.
  destruct (finalize_loop _ _ _ _) as [[m s] crc]. exact H1.
Qed.

(** ** The invariant *)

Definition by_seq (a b : BookEvent) : Prop := sequence a < sequence b.

(** [H]: the events received so far; [D]: those processed; [G]: the gap
    window; [M]: a bound on the sequence numbers. *)
Record pipe_ok (G M : Z) (H D : list BookEvent) (p : Pipeline) : Prop := {
  po_tracker v : tracker_ok ((sequencer p).[v]);
  po_gap v : gap_window ((sequencer p).[v]) = G;
  po_next v : next_expected ((sequencer p).[v]) <= M + 1;
  po_pending v k : is_Some ((pending_by_venue p).[v] !! k) <-> k ∈ buffered ((sequencer p).[v]);
  po_pending_ev v k e : (pending_by_venue p).[v] !! k = Some e ->
    sequence e = k /\ venue e = v /\ e ∈ H;
  po_sorted v : StronglySorted by_seq ((queues (merger p)).[v]);
  po_queue v e : e ∈ (queues (merger p)).[v] ->
    0 < sequence e < next_expected ((sequencer p).[v]) /\ venue e = v /\ e ∈ H;
  po_store v e : e ∈ (by_venue (recovery_store p)).[v] -> venue e = v /\ e ∈ H;
  po_sim e : e ∈ pending_recovered (recovery_sim p) -> e ∈ H;
  po_consistent : pending_inconsistency (pstats p) = 0;
  po_crc : merged_crc (pstats p) = 0;
  po_too_large : 0 <= dropped_gap_too_large (pstats p);
  po_complete v : dropped_gap_too_large (pstats p) = 0 ->
    map sequence ((queues (merger p)).[v]) = seqZ 1 (next_expected ((sequencer p).[v]) - 1);
  po_seen e : dropped_gap_too_large (pstats p) = 0 -> e ∈ D ->
    sequence e < next_expected ((sequencer p).[venue e]) \/
    sequence e ∈ buffered ((sequencer p).[venue e]);
}.

Section invariant.
Context (G M : Z) (HM : M + G + 3 <= 2 ^ 64) (HM0 : 0 <= M) (HG : 0 <= G).

Definition seq_bounded (e : BookEvent) : Prop := 0 <= sequence e <= M.

Lemma pipe_ok_init cap : pipe_ok G M [] [] (pipeline_init G cap).
Proof using HG HM HM0.
  assert (tracker_ok (tracker_init G)) by (apply tracker_init_ok; lia).
  unfold pipeline_init, multi_init, merger_init, store_init.
  split; simpl; try done; try (intros v; rewrite !pv_get_const; simpl);
    try (intros; by match goal with H : _ ∈ [] |- _ => apply not_elem_of_nil in H end);
    try done; try lia.
  - intros k. rewrite tracker_init_buffered, lookup_empty. split; [by intros []|set_solver].
  - constructor.
Qed.

(** A larger history keeps the invariant. *)
Lemma pipe_ok_more H D e p : pipe_ok G M H D p -> pipe_ok G M (H ++ [e]) D p.
Proof.
  intros Hok. assert (forall f, f ∈ H -> f ∈ H ++ [e]) as Hin by (intros; apply elem_of_app; auto).
  destruct Hok. split; auto.
  - intros v k f Hf. destruct (po_pending_ev0 v k f Hf) as (?&?&?). auto.
  - intros v f Hf. destruct (po_queue0 v f Hf) as (?&?&?). auto.
  - intros v f Hf. destruct (po_store0 v f Hf) as (?&?). auto.
Qed.

Lemma pipe_ok_record H D e p : pipe_ok G M H D p -> e ∈ H ->
  pipe_ok G M H D (with_store (record_event (recovery_store p) e) p).
Proof.
  intros Hok He. destruct Hok. split; auto.
  intros v f. simpl. rewrite pv_get_set_dec. case_decide; subst; [|apply po_store0].
  intros Hf%elem_of_trim_front%elem_of_app. destruct Hf as [Hf| ->%list_elem_of_singleton]; auto.
Qed.

Lemma pipe_ok_evict H D v p : pipe_ok G M H D p -> pipe_ok G M H D (evict_store p v).
Proof.
  intros Hok. unfold evict_store. destruct (_ <? _); [|done]. destruct Hok. split; auto.
  intros w f. simpl. rewrite pv_get_set_dec. case_decide; subst; [|apply po_store0].
  intros Hf%elem_of_pop_before. auto.
Qed.

(** The recovery request of the sequencer only queues stored events. *)
Lemma pipe_ok_request H D req p : pipe_ok G M H D p ->
  0 <= gap_begin (req_missing req) -> gap_end (req_missing req) + 1 < 2 ^ 64 ->
  gap_begin (req_missing req) <= gap_end (req_missing req) + 1 ->
  forall e, e ∈ pending_recovered
    (request_recovery req (Some (recovery_store p), recovery_sim p)).2 -> e ∈ H.
Proof.
  intros Hok Hb He Hbe e. unfold request_recovery, simulator_handler.
  destruct (req_reason req); [|by apply (po_sim _ _ _ _ _ Hok)].
  destruct (req_missing req) as [b en]. simpl in *. intros Hin.
  apply recover_range_sound in Hin as [Hin|[Hin _]]; [|by eapply (po_store _ _ _ _ _ Hok)|lia|lia].
  by apply (po_sim _ _ _ _ _ Hok).
Qed.

(** *** The release loop *)

Definition same_pending (v : Venue) (m m' : PerVenue (gmap Z BookEvent)) (lo hi : Z) : Prop :=
  (forall k, m'.[v] !! k = if decide (lo <= k < hi) then None else m.[v] !! k) /\
  (forall w, w <> v -> m'.[w] = m.[w]).

Lemma seqZ_sorted n : forall m, StronglySorted Z.lt (seqZ m (Z.of_nat n)).
Proof.
  induction n as [|n IH]; intros m; [rewrite seqZ_nil by lia; constructor|].
  rewrite seqZ_cons by lia. replace (Z.pred (Z.of_nat (S n))) with (Z.of_nat n) by lia.
  apply SSorted_cons; [apply IH|]. apply Forall_seqZ. lia.
Qed.

Lemma by_seq_map l : StronglySorted Z.lt (map sequence l) -> StronglySorted by_seq l.
Proof.
  induction l as [|e l IH]; intros Hs; simpl in *; [constructor|].
  apply StronglySorted_inv in Hs as [Hs Hf]. constructor; [by apply IH|].
  by rewrite List.Forall_map in Hf.
Qed.

Lemma release_pending_spec n v : forall seq p,
  0 <= seq -> seq + Z.of_nat n < 2 ^ 64 ->
  (forall k, seq <= k < seq + Z.of_nat n -> is_Some ((pending_by_venue p).[v] !! k)) ->
  (forall k e, (pending_by_venue p).[v] !! k = Some e -> sequence e = k /\ venue e = v) ->
  exists evs q pend st,
    release_pending n v seq p =
      mkPipeline (recovery_store p) (recovery_sim p) (sequencer p)
        (mkMerger (per_venue_capacity (merger p)) q) pend st /\
    map sequence evs = seqZ seq (Z.of_nat n) /\
    (forall e, e ∈ evs -> (pending_by_venue p).[v] !! sequence e = Some e) /\
    q = (queues (merger p)).[v := (queues (merger p)).[v] ++ evs] /\
    same_pending v (pending_by_venue p) pend seq (seq + Z.of_nat n) /\
    pending_inconsistency st = pending_inconsistency (pstats p) /\
    dropped_gap_too_large st = dropped_gap_too_large (pstats p) /\
    merged_crc st = merged_crc (pstats p).
Proof.
  induction n as [|n IH]; intros seq p Hs Hn Hin Hev; cbn [release_pending].
  - exists [], (queues (merger p)), (pending_by_venue p), (pstats p).
    destruct p as [? ? ? [? ?] ? ?]. simpl. rewrite app_nil_r, pv_set_get.
    repeat split; auto; [by intros ? ?%not_elem_of_nil|]. intros k. case_decide; [lia|done].
  - destruct (Hin seq ltac:(lia)) as [e He]. rewrite He.
    destruct (Hev _ _ He) as [Hse Hve]. rewrite u64_small by lia.
    unfold publish, merger_push. simpl.
    set (p1 := with_pending _ _).
    destruct (IH (seq + 1) p1) as (evs & q & pend & st & E & Hm & He' & Hq & Hp & Hi & Hd & Hc); try lia.
    { intros k Hk. subst p1. simpl. rewrite pv_get_set, lookup_delete_ne by lia. apply Hin. lia. }
    { intros k f. subst p1. simpl. rewrite pv_get_set, lookup_delete_Some. intros [_ Hf]. by apply Hev. }
    subst p1. simpl in *. rewrite Hve, pv_get_set, pv_set_set, <-app_assoc in Hq.
    exists (e :: evs), q, pend, st. split; [exact E|]. split.
    { simpl. rewrite Hm, Hse. rewrite (seqZ_cons seq) by lia.
      f_equal. f_equal; lia. }
    split.
    { intros f [->|Hf]%elem_of_cons; [by rewrite Hse|]. apply He' in Hf.
      rewrite pv_get_set, lookup_delete_Some in Hf. apply Hf. }
    split; [done|]. split; [|done]. destruct Hp as [Hp1 Hp2]. split.
    + intros k. rewrite Hp1, pv_get_set.
      destruct (decide (k = seq)) as [->|Hk].
      * rewrite lookup_delete_eq. repeat case_decide; try done; lia.
      * rewrite lookup_delete_ne by done. repeat case_decide; try done; lia.
    + intros w Hw. by rewrite Hp2, pv_get_set_ne by done.
Qed.

(** *** The sequencer's share of [process_event] *)

Lemma sequencer_step H D p e : pipe_ok G M H D p -> seq_bounded e ->
  let '(t, u) := tracker_on_sequence ((sequencer p).[venue e]) (sequence e) in
  let '(seqr, handler, result) :=
    sequencer_on_sequence (sequencer p) (Some (Some (recovery_store p), recovery_sim p))
      (venue e) (sequence e) in
  seqr = (sequencer p).[venue e := t] /\ sr_update result = u /\
  (exists sim, handler = Some (Some (recovery_store p), sim) /\
    forall f, f ∈ pending_recovered sim -> f ∈ H) /\
  tracker_ok t /\ gap_window t = G /\
  spec_step G (next_expected ((sequencer p).[venue e])) (buffered ((sequencer p).[venue e]))
    (sequence e) (next_expected t) (buffered t) u.
Proof using HG HM.
  intros Hok He. unfold seq_bounded in He.
  pose proof (po_tracker _ _ _ _ _ Hok (venue e)) as Ht.
  pose proof (po_gap _ _ _ _ _ Hok (venue e)) as Hg.
  pose proof (po_next _ _ _ _ _ Hok (venue e)) as Hn.
  pose proof (ok_next _ Ht).
  pose proof (tracker_refines_spec _ (sequence e) Ht) as Hs.
  unfold sequencer_on_sequence, multi_on_sequence.
  destruct (tracker_on_sequence _ _) as [t u].
  destruct Hs as (Hok' & Hg' & Hs); [unfold tracker_room; lia|unfold is_u; lia|].
  rewrite Hg in Hs, Hg'.
  destruct (missing_range u) as [range|] eqn:Er.
  - simpl. set (req := mkRequest _ _ _).
    destruct (request_recovery req _) as [st sim] eqn:Eq.
    assert (st = Some (recovery_store p)) as ->.
    { unfold request_recovery, simulator_handler in Eq. destruct (req_reason req);
        [destruct (req_missing req)|]; by injection Eq as <- <-. }
    split_and!; auto. exists sim. split; [done|].
    intros f Hf. apply (pipe_ok_request H D req p Hok).
    + inversion Hs; subst u; simplify_eq/=; lia.
    + inversion Hs; subst u; simplify_eq/=; lia.
    + inversion Hs; subst u; simplify_eq/=; lia.
    + by rewrite Eq.
  - simpl. split_and!; auto. eexists. split; [done|]. apply (po_sim _ _ _ _ _ Hok).
Qed.

(** *** [process_event] preserves the invariant *)

(** The sequencer state [t] of venue [v] and the handler's [sim] in place. *)
Definition sequenced (p : Pipeline) (v : Venue) (t : SequenceTracker)
    (sim : ReplayRecoverySimulator) : Pipeline :=
  p |> with_sequencer ((sequencer p).[v := t]) |> with_sim sim.

Ltac per_venue v w :=
  rewrite ?pv_get_set_dec; destruct (decide (v = w)) as [<-|]; [|try by eauto].

Lemma ok_old H D p e t sim : pipe_ok G M H D p -> e ∈ H ->
  tracker_ok t -> gap_window t = G ->
  next_expected t = next_expected ((sequencer p).[venue e]) ->
  buffered t = buffered ((sequencer p).[venue e]) ->
  sequence e < next_expected ((sequencer p).[venue e]) ->
  (forall f, f ∈ pending_recovered sim -> f ∈ H) ->
  pipe_ok G M H (D ++ [e]) (with_stats inc_duplicate (sequenced p (venue e) t sim)).
Proof.
  intros Hok He Ht Hg Hn HB Hlt Hsim. destruct Hok.
  split; simpl; auto; try (intros w; per_venue (venue e) w); try congruence.
  - rewrite HB. apply po_pending0.
  - rewrite Hn. apply po_queue0.
  - rewrite Hn. apply po_complete0.
  - intros f Hd Hf. rewrite pv_get_set_dec. case_decide as Hv.
    + rewrite Hn, HB, Hv.
      apply elem_of_app in Hf as [Hf| ->%list_elem_of_singleton]; [auto|by left].
    + apply elem_of_app in Hf as [Hf| ->%list_elem_of_singleton]; [auto|done].
Qed.

Lemma ok_buffer H D p e t sim : pipe_ok G M H D p -> e ∈ H -> seq_bounded e ->
  tracker_ok t -> gap_window t = G ->
  next_expected t = next_expected ((sequencer p).[venue e]) ->
  buffered t = buffered ((sequencer p).[venue e]) ∪ {[sequence e]} ->
  (forall f, f ∈ pending_recovered sim -> f ∈ H) ->
  let p1 := sequenced p (venue e) t sim in
  pipe_ok G M H (D ++ [e]) (with_stats inc_buffered
    (with_pending ((pending_by_venue p1).[venue e :=
       <[sequence e := e]> (pending_by_venue p1).[venue e]]) p1)).
Proof.
  intros Hok He Hb Ht Hg Hn HB Hsim. simpl. destruct Hok.
  split; simpl; auto; try (intros w; per_venue (venue e) w).
  - done.
  - done.
  - rewrite Hn. apply po_next0.
  - intros k. rewrite HB, elem_of_union, elem_of_singleton, <-po_pending0.
    destruct (decide (k = sequence e)) as [->|]; [rewrite lookup_insert_eq; split; [tauto|by eexists]|].
    rewrite lookup_insert_ne by done. tauto.
  - intros k f [[<- <-]|[? Hf]]%lookup_insert_Some; [done|]. by apply po_pending_ev0.
  - intros f Hf. rewrite Hn. by apply po_queue0.
  - rewrite Hn. apply po_complete0.
  - intros f Hd Hf. rewrite pv_get_set_dec. case_decide as Hv.
    + rewrite Hn, HB, elem_of_union, elem_of_singleton.
      apply elem_of_app in Hf as [Hf| ->%list_elem_of_singleton]; [|tauto].
      rewrite Hv. pose proof (po_seen0 f Hd Hf). tauto.
    + apply elem_of_app in Hf as [Hf| ->%list_elem_of_singleton]; [|done]. auto.
Qed.

Lemma ok_too_large H D p e t sim n :
  pipe_ok G M H D p -> e ∈ H -> seq_bounded e ->
  tracker_ok t -> gap_window t = G ->
  next_expected t = next_expected ((sequencer p).[venue e]) ->
  next_expected t + G < sequence e ->
  (forall f, f ∈ pending_recovered sim -> f ∈ H) ->
  let p1 := with_stats inc_too_large (sequenced p (venue e) t sim) in
  let p2 := with_sequencer (multi_force_advance (sequencer p1) (venue e) (sequence e)) p1 in
  pipe_ok G M H (D ++ [e]) (with_stats (add_evicted n)
    (with_pending ((pending_by_venue p2).[venue e :=
       evict_pending_before ((pending_by_venue p2).[venue e]) (sequence e)]) p2)).
Proof using HG HM.
  intros Hok He Hb Ht Hg Hn Hbig Hsim. simpl. unfold seq_bounded in Hb.
  pose proof Hok as Hok'. destruct Hok. unfold multi_force_advance. rewrite pv_get_set, pv_set_set.
  destruct (force_advance_beyond t (sequence e) Ht) as (Ht' & HB' & Hn' & Hg'); [lia|].
  split; simpl; auto; try lia; try (intros w; per_venue (venue e) w).
  - done.
  - congruence.
  - lia.
  - intros k. rewrite HB'. split; [|by intros ?%not_elem_of_empty].
    intros [f [Hf Hk]%map_lookup_filter_Some]. simpl in Hk.
    assert (k ∈ buffered ((sequencer p).[venue e])) as Hkb by (apply po_pending0; by eexists).
    apply buffered_window in Hkb; [|done]. rewrite po_gap0 in Hkb. lia.
  - intros k f [Hf _]%map_lookup_filter_Some. by apply po_pending_ev0.
  - intros f Hf. destruct (po_queue0 (venue e) f Hf). rewrite Hn'. split; [lia|done].
Qed.

Lemma ok_in_order H D p e t sim evs pend st :
  pipe_ok G M H D p -> e ∈ H -> seq_bounded e ->
  let n := next_expected ((sequencer p).[venue e]) in
  let B := buffered ((sequencer p).[venue e]) in
  tracker_ok t -> gap_window t = G -> sequence e = n ->
  n < next_expected t <= M + 1 -> next_expected t ∉ B ->
  (forall q, q ∈ buffered t <-> q ∈ B /\ next_expected t < q) ->
  (forall f, f ∈ pending_recovered sim -> f ∈ H) ->
  map sequence evs = seqZ (n + 1) (next_expected t - (n + 1)) ->
  (forall f, f ∈ evs -> (pending_by_venue p).[venue e] !! sequence f = Some f) ->
  same_pending (venue e) (pending_by_venue p) pend (n + 1) (next_expected t) ->
  pending_inconsistency st = pending_inconsistency (pstats p) ->
  dropped_gap_too_large st = dropped_gap_too_large (pstats p) ->
  merged_crc st = merged_crc (pstats p) ->
  pipe_ok G M H (D ++ [e]) (mkPipeline (recovery_store p) sim ((sequencer p).[venue e := t])
    (mkMerger (per_venue_capacity (merger p))
       ((queues (merger p)).[venue e := (queues (merger p)).[venue e] ++ e :: evs])) pend st).
Proof using HG.
  intros Hok He Hb n B Ht Hg Hseq Hn HnB HB Hsim Hevs Hpend [Hp1 Hp2] Hi Hd Hc.
  destruct Hok. pose proof (ok_next _ (po_tracker0 (venue e))) as Hn1. fold n in Hn1.
  assert (forall f, f ∈ evs -> n + 1 <= sequence f < next_expected t) as Hrange.
  { intros f Hf. assert (sequence f ∈ map sequence evs) as Hin by by apply list_elem_of_fmap_2.
    rewrite Hevs in Hin. apply elem_of_seqZ in Hin. lia. }
  assert (forall f, f ∈ e :: evs -> n <= sequence f < next_expected t /\ venue f = venue e /\ f ∈ H)
    as Hnew.
  { intros f [->|Hf]%elem_of_cons; [split; [lia|done]|].
    pose proof (Hrange f Hf). split; [lia|].
    apply Hpend in Hf. apply (po_pending_ev0 _ _ _ Hf). }
  assert (map sequence (e :: evs) = seqZ n (next_expected t - n)) as Hrun.
  { simpl. rewrite Hevs, Hseq, (seqZ_cons n) by lia. f_equal. f_equal; lia. }
  split; simpl; auto; try congruence; try (intros w; per_venue (venue e) w).
  - done.
  - done.
  - lia.
  - intros k. rewrite HB, Hp1.
    pose proof (po_pending0 (venue e) k) as Hk. fold B in Hk.
    case_decide; [split; [by intros []|lia]|]. rewrite Hk.
    split; [|tauto]. intros HkB. split; [done|].
    pose proof (buffered_window _ _ (po_tracker0 (venue e)) HkB) as Hw. fold n in Hw.
    assert (k <> next_expected t) by (by intros ->). lia.
  - intros k. rewrite Hp2 by done. apply po_pending0.
  - intros k f. rewrite Hp1. case_decide; [done|]. apply po_pending_ev0.
  - intros k f. rewrite Hp2 by done. apply po_pending_ev0.
  - apply StronglySorted_app_iff. split; [done|]. split.
    + apply by_seq_map. rewrite Hrun. rewrite <-(Z2Nat.id (next_expected t - n)) by lia.
      apply seqZ_sorted.
    + apply Forall_forall. intros f Hf%po_queue0. apply Forall_forall. intros g Hg'%Hnew.
      fold n in Hf. unfold by_seq. lia.
  - intros f [Hf|Hf]%elem_of_app.
    + apply po_queue0 in Hf as (? & ? & ?). fold n in H0. split; [lia|done].
    + apply Hnew in Hf as (? & ? & ?). split; [lia|done].
  - intros Hz. rewrite map_app, po_complete0, Hrun by congruence. fold n.
    replace (next_expected t - 1) with ((n - 1) + (next_expected t - n)) by lia.
    rewrite seqZ_app by lia. f_equal. f_equal. lia.
  - intros Hz. apply po_complete0. congruence.
  - intros f Hz Hf. rewrite pv_get_set_dec. case_decide as Hv.
    + rewrite HB. fold B. apply elem_of_app in Hf as [Hf| ->%list_elem_of_singleton]; [|lia].
      destruct (po_seen0 f ltac:(congruence) Hf) as [Hs|Hs]; rewrite <-Hv in Hs.
      * fold n in Hs. lia.
      * fold B in Hs. destruct (decide (sequence f < next_expected t)); [by left|right].
        split; [done|]. assert (sequence f <> next_expected t) by congruence. lia.
    + apply elem_of_app in Hf as [Hf| ->%list_elem_of_singleton]; [|done].
      apply po_seen0; [congruence|done].
Qed.

Lemma process_event_ok H D p e : pipe_ok G M H D p -> e ∈ H -> Forall seq_bounded H ->
  pipe_ok G M H (D ++ [e]) (process_event p e).
Proof using HG HM.
  intros Hok He HH. assert (seq_bounded e) as Hb by (rewrite Forall_forall in HH; auto).
  pose proof (sequencer_step H D p e Hok Hb) as Hs. unfold process_event.
  destruct (tracker_on_sequence _ _) as [t u] eqn:Et.
  destruct (sequencer_on_sequence _ _ _ _) as [[seqr handler] result].
  destruct Hs as (-> & -> & (sim & -> & Hsim) & Ht & Hg & Hs). fold (sequenced p (venue e) t sim).
  inversion Hs as [Hlt Hn HB Hu|n' B' Hseq Hlt Hrun Hstop HB' Hn HB Hu|Hw Hn HB Hu|Hw Hn HB Hu];
    subst u; cbn [upd_status released_count].
  - apply ok_old; auto.
  - destruct (spec_step_bounded _ _ _ _ _ _ _ M Hs) as [HM' _];
      [apply (po_next _ _ _ _ _ Hok)| |unfold seq_bounded in Hb; lia|].
    { intros q Hq%(po_pending _ _ _ _ _ Hok). destruct Hq as [f Hf].
      destruct (po_pending_ev _ _ _ _ _ Hok _ _ _ Hf) as (<- & _ & Hin).
      rewrite Forall_forall in HH. apply (HH f Hin). }
    apply pipe_ok_evict. unfold publish, merger_push. simpl.
    destruct (0 <? _) eqn:E0; zbool; [|lia].
    match goal with |- context [release_pending ?n ?v ?s ?q] => set (p1 := q); set (k := n) end.
    assert (Z.of_nat k = next_expected t - (sequence e + 1)) as Hk by (subst k; lia).
    rewrite u64_small by (unfold seq_bounded in Hb; lia).
    destruct (release_pending_spec k (venue e) (sequence e + 1) p1)
      as (evs & q & pend & st & -> & Hevs & Hpend & -> & Hsame & Hi & Hd & Hc).
    + unfold seq_bounded in Hb; lia.
    + lia.
    + intros j Hj. apply (po_pending _ _ _ _ _ Hok), Hrun. lia.
    + intros j f Hf. destruct (po_pending_ev _ _ _ _ _ Hok _ _ _ Hf) as (? & ? & _). done.
    + subst p1. simpl in *. rewrite pv_get_set, pv_set_set, <-app_assoc.
      rewrite Hk in Hevs, Hsame. rewrite Hseq in Hevs, Hsame.
      rewrite Zplus_minus in Hsame. apply ok_in_order; auto; lia.
  - apply ok_buffer; auto.
  - apply pipe_ok_evict, ok_too_large; auto. lia.
Qed.

(** *** Runs *)

Lemma pipe_ok_processed H D D' p : pipe_ok G M H D' p -> D ⊆ D' -> pipe_ok G M H D p.
Proof. intros Hok Hsub. destruct Hok. split; auto. Qed.

Lemma reinject_ok H D p r : pipe_ok G M H D p -> r ∈ H -> Forall seq_bounded H ->
  pipe_ok G M H D (reinject p r).
Proof using HG HM.
  intros Hok Hr HH. unfold reinject. destruct (_ !! _); [done|].
  apply (pipe_ok_processed H D (D ++ [r])); [|by intros x Hx; apply elem_of_app; left].
  destruct (process_event_ok H D p r Hok Hr HH). split; auto.
Qed.

Lemma pipeline_on_event_ok H p e : pipe_ok G M H H p -> Forall seq_bounded (H ++ [e]) ->
  pipe_ok G M (H ++ [e]) (H ++ [e]) (pipeline_on_event p e).
Proof using HG HM.
  intros Hok HH. unfold pipeline_on_event.
  assert (e ∈ H ++ [e]) as He by (apply elem_of_app; right; by apply list_elem_of_singleton).
  pose proof (process_event_ok _ _ _ e
    (pipe_ok_record _ _ e _ (pipe_ok_more H H e p Hok) He) He HH) as Hok1.
  set (p1 := process_event _ e) in *. unfold drain_recovered.
  assert (pipe_ok G M (H ++ [e]) (H ++ [e])
    (with_sim (mkSim [] (requests_total (recovery_sim p1)) (recovered_events_total (recovery_sim p1))) p1)) as Hok2.
  { destruct Hok1. split; auto. by intros f Hf%not_elem_of_nil. }
  assert (forall r, r ∈ pending_recovered (recovery_sim p1) -> r ∈ H ++ [e]) as Hrec
    by (intros r; apply (po_sim _ _ _ _ _ Hok1)).
  revert Hok2. generalize (with_sim (mkSim [] (requests_total (recovery_sim p1))
    (recovered_events_total (recovery_sim p1))) p1).
  induction (pending_recovered (recovery_sim p1)) as [|r rs IH]; intros q Hq; [done|].
  cbn [fold_left]. apply IH; [intros r' Hr'; apply Hrec; by right|].
  apply reinject_ok; [done|apply Hrec; by left|done].
Qed.

Lemma pipeline_run_ok cap evs : Forall seq_bounded evs ->
  pipe_ok G M evs evs (pipeline_run (pipeline_init G cap) evs).
Proof using HG HM HM0.
  intros HH. pose proof (pipe_ok_init cap) as Hok.
  assert (forall H p, pipe_ok G M H H p -> Forall seq_bounded (H ++ evs) ->
    pipe_ok G M (H ++ evs) (H ++ evs) (pipeline_run p evs)) as Hgen; [|by apply (Hgen [])].
  clear HH Hok. induction evs as [|e evs IH]; intros H p Hok HH; [by rewrite app_nil_r|].
  cbn [pipeline_run fold_left].
  replace (H ++ e :: evs) with ((H ++ [e]) ++ evs) in * by by rewrite <-app_assoc.
  apply IH; [|done]. apply pipeline_on_event_ok; [done|].
  by apply Forall_app in HH as [? _].
Qed.
End invariant.

(** What has been published for venue [v]. *)
Definition published (p : Pipeline) (v : Venue) : list BookEvent := (queues (merger p)).[v].

(** ** Correctness of the pipeline *)

(** [M] bounds the sequence numbers of the input; with the gap window it
    stays clear of the 64-bit wrap-around. *)
Definition input_ok (G M : Z) (evs : list BookEvent) : Prop :=
  0 <= G /\ 0 <= M /\ M + G + 3 <= 2 ^ 64 /\ Forall (seq_bounded M) evs.

Lemma run_ok G M cap evs : input_ok G M evs ->
  pipe_ok G M evs evs (pipeline_run (pipeline_init G cap) evs).
Proof. intros (? & ? & ? & ?). by apply pipeline_run_ok. Qed.

(** The sequencer and the pending maps never disagree: whatever the input,
    the release loop finds every event it expects. *)
Theorem pipeline_never_inconsistent G M cap evs : input_ok G M evs ->
  pending_inconsistency (pstats (pipeline_run (pipeline_init G cap) evs)) = 0.
Proof. intros H. apply (po_consistent _ _ _ _ _ (run_ok G M cap evs H)). Qed.

(** C3. Exactly-once, in-order delivery: per venue the published events carry
    strictly increasing sequence numbers (so no duplicate ever gets through),
    and each is one of the events received, on that venue. *)
Theorem pipeline_publishes_in_order G M cap evs v : input_ok G M evs ->
  let p := pipeline_run (pipeline_init G cap) evs in
  StronglySorted by_seq (published p v) /\
  Forall (fun e => e ∈ evs /\ venue e = v /\ 0 < sequence e) (published p v).
Proof.
  intros H. pose proof (run_ok G M cap evs H) as Hok. split.
  - apply (po_sorted _ _ _ _ _ Hok).
  - apply Forall_forall. intros e He.
    destruct (po_queue _ _ _ _ _ Hok _ _ He) as ([? _] & ? & ?). done.
Qed.

(** Without a gap beyond the window, the next expected number of a venue is
    the first positive number the venue never sent. *)
Lemma next_expected_missing G M evs p v e : pipe_ok G M evs evs p ->
  dropped_gap_too_large (pstats p) = 0 -> e ∈ evs -> venue e = v ->
  sequence e <> next_expected ((sequencer p).[v]).
Proof.
  intros Hok Hd He <- Heq. destruct (po_seen _ _ _ _ _ Hok e Hd He) as [H|H]; [lia|].
  apply buffered_window in H; [|apply (po_tracker _ _ _ _ _ Hok)]. lia.
Qed.

(** C2. Reordering inside the gap window loses nothing: if no event was refused
    as too far ahead and venue [v] sent every number from 1 to [n], in
    whatever order and with whatever duplicates, then 1..n is published,
    in order and without a hole. *)
Theorem pipeline_gap_free G M cap evs v n : input_ok G M evs ->
  let p := pipeline_run (pipeline_init G cap) evs in
  dropped_gap_too_large (pstats p) = 0 ->
  (forall k, 1 <= k <= n -> exists e, e ∈ evs /\ venue e = v /\ sequence e = k) ->
  exists rest, map sequence (published p v) = seqZ 1 n ++ rest.
Proof.
  intros H p Hd Hall. pose proof (run_ok G M cap evs H) as Hok. fold p in Hok.
  set (next := next_expected ((sequencer p).[v])).
  assert (1 <= next) by apply (ok_next _ (po_tracker _ _ _ _ _ Hok v)).
  destruct (decide (n < 0)); [exists (map sequence (published p v)); by rewrite seqZ_nil by lia|].
  assert (n < next) as Hn.
  { destruct (decide (n < next)) as [|Hge]; [done|].
    destruct (Hall next ltac:(lia)) as (e & He & Hv & Hs).
    by destruct (next_expected_missing G M evs p v e Hok Hd He Hv). }
  exists (seqZ (1 + n) (next - 1 - n)).
  rewrite <-seqZ_app by lia. unfold published. rewrite (po_complete _ _ _ _ _ Hok v Hd).
  f_equal. lia.
Qed.

(** *** Independence of the arrival order *)

(** Each sequence number of a venue stands for one event. *)
Definition seq_functional (evs : list BookEvent) : Prop :=
  forall e f, e ∈ evs -> f ∈ evs -> venue e = venue f -> sequence e = sequence f -> e = f.

Lemma map_sequence_inj (l k : list BookEvent) : map sequence l = map sequence k ->
  (forall e f, e ∈ l -> f ∈ k -> sequence e = sequence f -> e = f) -> l = k.
Proof.
  revert k. induction l as [|e l IH]; intros [|f k] Hm Hinj; simpl in *; try done.
  injection Hm as Hs Hm. f_equal; [apply Hinj; [left|left|]; done|].
  apply IH; [done|]. intros x y Hx Hy. by apply Hinj; right.
Qed.

Lemma next_expected_le G M evs evs' p p' v :
  pipe_ok G M evs evs p -> pipe_ok G M evs' evs' p' -> (forall e, e ∈ evs <-> e ∈ evs') ->
  dropped_gap_too_large (pstats p) = 0 -> dropped_gap_too_large (pstats p') = 0 ->
  next_expected ((sequencer p).[v]) <= next_expected ((sequencer p').[v]).
Proof.
  intros Hok Hok' Hsame Hd Hd'.
  set (n := next_expected _). set (n' := next_expected _).
  destruct (decide (n <= n')) as [|Hgt]; [done|].
  assert (1 <= n') by apply (ok_next _ (po_tracker _ _ _ _ _ Hok' v)).
  assert (n' ∈ map sequence ((queues (merger p)).[v])) as Hin.
  { rewrite (po_complete _ _ _ _ _ Hok v Hd). apply elem_of_seqZ. fold n. lia. }
  apply list_elem_of_fmap in Hin as (e & Hs & He).
  destruct (po_queue _ _ _ _ _ Hok _ _ He) as (_ & Hv & Hevs%Hsame).
  by destruct (next_expected_missing G M evs' p' v e Hok' Hd' Hevs Hv).
Qed.

Lemma published_same G M evs evs' p p' v :
  pipe_ok G M evs evs p -> pipe_ok G M evs' evs' p' ->
  seq_functional evs -> (forall e, e ∈ evs <-> e ∈ evs') ->
  dropped_gap_too_large (pstats p) = 0 -> dropped_gap_too_large (pstats p') = 0 ->
  published p v = published p' v.
Proof.
  intros Hok Hok' Hfun Hsame Hd Hd'. unfold published. apply map_sequence_inj.
  - rewrite (po_complete _ _ _ _ _ Hok v Hd), (po_complete _ _ _ _ _ Hok' v Hd').
    do 2 f_equal. apply Z.le_antisymm; eapply next_expected_le; eauto.
    intros e. by rewrite Hsame.
  - intros e f He Hf Hs.
    destruct (po_queue _ _ _ _ _ Hok _ _ He) as (_ & Hv & Hin).
    destruct (po_queue _ _ _ _ _ Hok' _ _ Hf) as (_ & Hv' & Hin'%Hsame).
    apply Hfun; congruence.
Qed.

Lemma merger_drain_queues m m' : queues m = queues m' -> merger_drain m = merger_drain m'.
Proof.
  intros Hq. unfold merger_drain. assert (queued_count m = queued_count m') as ->
    by (unfold queued_count; by rewrite Hq).
  generalize (queued_count m'). intros n. revert m m' Hq.
  induction n as [|n IH]; intros m m' Hq; [done|]. cbn [merger_drain_fuel].
  unfold merger_pop_next. rewrite Hq. destruct (best_index _) as [b|]; [|done].
  destruct ((queues m').[b]); [done|]. f_equal. by apply IH.
Qed.

(** C1. The merged stream handed downstream and its checksum depend on which
    events were received, not on the order the network delivered them in nor
    on how often each was repeated, as long as no gap exceeded the window. *)
Theorem pipeline_arrival_order_irrelevant `{MergedEventSink T} G M cap evs evs' (sink : option T) :
  input_ok G M evs -> input_ok G M evs' -> seq_functional evs ->
  (forall e, e ∈ evs <-> e ∈ evs') ->
  let p := pipeline_run (pipeline_init G cap) evs in
  let p' := pipeline_run (pipeline_init G cap) evs' in
  dropped_gap_too_large (pstats p) = 0 -> dropped_gap_too_large (pstats p') = 0 ->
  (pipeline_finalize p sink).2 = (pipeline_finalize p' sink).2 /\
  merged_crc (pstats (pipeline_finalize p sink).1) = merged_crc (pstats (pipeline_finalize p' sink).1).
Proof.
  intros Hin Hin' Hfun Hsame p p' Hd Hd'.
  pose proof (run_ok G M cap evs Hin) as Hok. pose proof (run_ok G M cap evs' Hin') as Hok'.
  fold p in Hok. fold p' in Hok'.
  assert (merger_drain (merger p) = merger_drain (merger p')) as E.
  { apply merger_drain_queues, pv_ext. intros v. by apply (published_same G M evs evs'). }
  destruct (pipeline_finalize_drain p sink) as [-> ->].
  destruct (pipeline_finalize_drain p' sink) as [-> ->].
  by rewrite E, (po_crc _ _ _ _ _ Hok), (po_crc _ _ _ _ _ Hok').
Qed.

(** *** Witnesses *)

(** A stream with a duplicate and a reordering, and the same in order. *)
Definition sample_stream : list BookEvent :=
  [sample_event Nasdaq 10 1; sample_event Nasdaq 30 3; sample_event Iex 5 1;
   sample_event Nasdaq 20 2; sample_event Nasdaq 30 3].
Definition sample_stream_sorted : list BookEvent :=
  [sample_event Iex 5 1; sample_event Nasdaq 10 1; sample_event Nasdaq 20 2;
   sample_event Nasdaq 30 3].

#[export] Instance collecting_sink : MergedEventSink (list BookEvent) := fun e l => l ++ [e].

Lemma pipeline_never_inconsistent_witness :
  pending_inconsistency (pstats (pipeline_run (pipeline_init 4 16) sample_stream)) = 0.
Proof.
  apply (pipeline_never_inconsistent 4 10). repeat split; try lia.
  repeat constructor; simpl; lia.
Defined.

Lemma pipeline_publishes_in_order_witness :
  let p := pipeline_run (pipeline_init 4 16) sample_stream in
  StronglySorted by_seq (published p Nasdaq) /\
  Forall (fun e => e ∈ sample_stream /\ venue e = Nasdaq /\ 0 < sequence e) (published p Nasdaq).
Proof.
  apply (pipeline_publishes_in_order 4 10). repeat split; try lia.
  repeat constructor; simpl; lia.
Defined.

Lemma pipeline_gap_free_witness :
  exists rest, map sequence (published (pipeline_run (pipeline_init 4 16) sample_stream) Nasdaq)
    = seqZ 1 3 ++ rest.
Proof.
  apply (pipeline_gap_free 4 10 16 sample_stream Nasdaq 3).
  - repeat split; try lia. repeat constructor; simpl; lia.
  - vm_compute. reflexivity.
  - intros k Hk. assert (k = 1 \/ k = 2 \/ k = 3) as [->|[->| ->]] by lia.
    + exists (sample_event Nasdaq 10 1). split; [|done]. left.
    + exists (sample_event Nasdaq 20 2). split; [|done]. do 3 right. left.
    + exists (sample_event Nasdaq 30 3). split; [|done]. right. left.
Defined.

Lemma pipeline_arrival_order_irrelevant_witness :
  (pipeline_finalize (pipeline_run (pipeline_init 4 16) sample_stream) (Some [])).2 =
  (pipeline_finalize (pipeline_run (pipeline_init 4 16) sample_stream_sorted) (Some [])).2.
Proof.
  apply (pipeline_arrival_order_irrelevant 4 10 16 sample_stream sample_stream_sorted (Some [])).
  - repeat split; try lia. repeat constructor; simpl; lia.
  - repeat split; try lia. repeat constructor; simpl; lia.
  - assert (Forall (fun e => Forall (fun f => venue e = venue f -> sequence e = sequence f -> e = f)
      sample_stream) sample_stream) as HF by (repeat constructor; simpl; congruence).
    intros e f He Hf. rewrite Forall_forall in HF. pose proof (HF e He) as HF'.
    rewrite Forall_forall in HF'. by apply HF'.
  - intros e. unfold sample_stream, sample_stream_sorted. rewrite !elem_of_cons. tauto.
  - vm_compute. reflexivity.
  - vm_compute. reflexivity.
Defined.
