(* ===== verification/InOrder.v ===== *)
(** * A stream without gaps through the pipeline

    What the tools and the shards share: when every venue's events carry the
    numbers 1, 2, 3, ... in order, a pipeline accepts each of them at once and
    what it merges is what a merger makes of the stream itself. *)

From S2P Require Import Prelude Types Crc SequenceTracker Recovery Merger Pipeline.

#[local] Open Scope list_scope.
#[local] Open Scope Z_scope.

Definition numbered (evs : list BookEvent) : Prop :=
  forall v, sequence <$> of_venue v evs = seqZ 1 (Z.of_nat (length (of_venue v evs))).

Lemma of_venue_snoc v l e : of_venue v (l ++ [e]) = of_venue v l ++ (if decide (venue e = v) then [e] else []).
Proof. unfold of_venue. rewrite filter_app, filter_cons, filter_nil. by case_decide. Qed.

Lemma numbered_snoc l e : numbered (l ++ [e]) ->
  numbered l /\ sequence e = 1 + Z.of_nat (length (of_venue (venue e) l)).
Proof.
  intros H. assert (forall v, sequence <$> of_venue v l = seqZ 1 (Z.of_nat (length (of_venue v l))) /\
    (venue e = v -> sequence e = 1 + Z.of_nat (length (of_venue v l)))) as Hall; [|split; [intros v; apply Hall|by apply Hall]].
  intros v. specialize (H v). rewrite of_venue_snoc in H. case_decide as E; [|by rewrite app_nil_r in H].
  rewrite fmap_app, length_app in H. cbn [length fmap list_fmap] in H. rewrite Nat2Z.inj_add, seqZ_app in H by lia.
  apply app_inj_2 in H as [H1 H2]; [|done]. split; [done|]. intros _. change (Z.of_nat 1) with 1 in H2.
  rewrite seqZ_cons, seqZ_nil in H2 by lia. by injection H2.
Qed.

(** Where a pipeline stands after a stream [H] without gaps, of which it has
    merged the events [D]. *)
Record in_order_ok (G : Z) (D H : list BookEvent) (p : Pipeline) : Prop := {
  io_tracker v : tracker_ok ((sequencer p).[v]);
  io_gap v : gap_window ((sequencer p).[v]) = G;
  io_next v : next_expected ((sequencer p).[v]) = 1 + Z.of_nat (length (of_venue v H));
  io_empty v : buffered ((sequencer p).[v]) = ∅;
  io_queue v : of_venue v D ++ (queues (merger p)).[v] = of_venue v H;
  io_recovered : pending_recovered (recovery_sim p) = [];
  io_crc : merged_crc (pstats p) = crc_of_events 0 D;
}.

Lemma evict_store_eq p v : exists st, evict_store p v = with_store st p.
Proof. unfold evict_store. destruct (_ <? _); eexists; [done|]. instantiate (1 := recovery_store p). by destruct p. Qed.

Lemma in_order_step G D H p e : in_order_ok G D H p -> 0 <= G -> Z.of_nat (length H) + G + 4 <= 2 ^ 64 ->
  sequence e = 1 + Z.of_nat (length (of_venue (venue e) H)) -> in_order_ok G D (H ++ [e]) (pipeline_on_event p e).
Proof.
  intros Hok HG Hlen Hseq. destruct Hok as [Ht Hg Hn Hb Hq Hr Hc].
  assert (length (of_venue (venue e) H) <= length H)%nat as Hl by apply length_filter.
  unfold pipeline_on_event, process_event, sequencer_on_sequence, multi_on_sequence. cbn [sequencer with_store].
  pose proof (tracker_refines_spec ((sequencer p).[venue e]) (sequence e) (Ht _)) as Hs.
  destruct (tracker_on_sequence _ _) as [t u].
  destruct Hs as (Htok & Htg & Hstep); [unfold tracker_room; rewrite Hn, Hg; lia|unfold is_u; lia|].
  rewrite Hn, Hb, <-Hseq in Hstep.
  inversion Hstep as [Hlt|n' B' _ Hlt Hrun Hstop HB' En EB Eu|Hw|Hw]; try (rewrite ?Hg in *; lia). subst u.
  assert (next_expected t = sequence e + 1) as En'.
  { destruct (decide (next_expected t = sequence e + 1)) as [|Hne]; [done|].
    specialize (Hrun (sequence e + 1) ltac:(lia)). by apply not_elem_of_empty in Hrun. }
  assert (buffered t = ∅) as EB' by (apply set_eq; intros q; rewrite HB'; set_solver).
  cbn [missing_range upd_status sr_update released_count]. rewrite En'.
  replace (sequence e + 1 - sequence e) with 1 by lia. change (0 <? 1) with true. cbn iota.
  change (Z.to_nat (1 - 1)) with 0%nat. cbn [release_pending]. match goal with |- context [evict_store ?q ?v] => destruct (evict_store_eq q v) as [st ->] end.
  unfold publish, merger_push, drain_recovered. cbn. rewrite Hr. cbn [fold_left]. split; cbn; try done.
  all: intros w; rewrite ?pv_get_set_dec, ?of_venue_snoc; destruct (decide (venue e = w)) as [<-|Hne]; rewrite ?app_nil_r; auto.
  all: try congruence.
  all: rewrite ?length_app; cbn [length]; try lia; rewrite ?app_assoc, ?Hq; done.
Qed.

Lemma in_order_init G cap : 0 <= G -> G + 3 < 2 ^ 64 -> in_order_ok G [] [] (pipeline_init G cap).
Proof.
  intros HG Hmax. assert (tracker_ok (tracker_init G)) by (apply tracker_init_ok; lia).
  unfold pipeline_init, multi_init, merger_init. split; simpl; try done; intros v; rewrite !pv_get_const; simpl; try done.
  apply tracker_init_buffered.
Qed.

Lemma in_order_run G cap evs : 0 <= G -> Z.of_nat (length evs) + G + 4 <= 2 ^ 64 -> numbered evs ->
  in_order_ok G [] evs (pipeline_run (pipeline_init G cap) evs).
Proof.
  intros HG. induction evs as [|e evs IH] using rev_ind; intros Hlen Hnum; [apply in_order_init; lia|].
  rewrite length_app in Hlen. cbn [length] in Hlen. apply numbered_snoc in Hnum as [Hnum Hseq].
  unfold pipeline_run in *. rewrite fold_left_app. apply in_order_step; [apply IH; [lia|done]|done|lia|done].
Qed.

(** What such a pipeline merges is what a merger makes of the stream. *)
Lemma in_order_drain G cap evs : 0 <= G -> Z.of_nat (length evs) + G + 4 <= 2 ^ 64 -> numbered evs ->
  merger_drain (merger (pipeline_run (pipeline_init G cap) evs)) = merger_drain (merger_push_all (merger_init 0) evs).
Proof.
  intros HG Hlen Hnum. apply merger_drain_queues, pv_ext. intros v.
  rewrite push_all_queues. cbn. rewrite pv_get_const. apply (io_queue _ _ _ _ (in_order_run G cap evs HG Hlen Hnum)).
Qed.

Lemma filtered_wf (q : PerVenue (list BookEvent)) H D : (forall v, of_venue v D ++ q.[v] = of_venue v H) -> queues_wf q.
Proof.
  intros Hq v. apply Forall_forall. intros x Hx. assert (x ∈ of_venue v H) as Hin by (rewrite <-Hq; set_solver).
  unfold of_venue in Hin. by apply list_elem_of_filter in Hin as [? _].
Qed.

Lemma finalize_loop_empty `{MergedEventSink T} fuel : forall m (sink : option T) crc, (queued_count m <= fuel)%nat ->
  forall v, (queues (finalize_loop fuel m sink crc).1.1).[v] = [].
Proof.
  induction fuel as [|fuel IH]; intros m sink crc Hf v; cbn [finalize_loop].
  - rewrite queued_count_sum in Hf. cbn [fst]. destruct v; apply nil_length_inv; lia.
  - pose proof (merger_pop_next_spec m) as Hs. destruct (merger_pop_next m) as [[e m']|] eqn:E; [|apply Hs].
    apply IH. apply queued_count_pop in E. lia.
Qed.

Lemma in_order_collected G D L p v : in_order_ok G D L p -> of_venue v (D ++ merger_drain (merger p)) = of_venue v L.
Proof.
  intros Hok. pose proof (io_queue _ _ _ _ Hok) as Hq. unfold of_venue at 1. rewrite filter_app.
  fold (of_venue v D) (of_venue v (merger_drain (merger p))). unfold merger_drain.
  rewrite of_venue_drain; [apply Hq|exact (filtered_wf _ _ _ Hq)|lia].
Qed.

(** Draining such a pipeline on the way. *)
Lemma in_order_finalize `{MergedEventSink T} G D L p (sink : option T) : in_order_ok G D L p ->
  in_order_ok G (D ++ merger_drain (merger p)) L (pipeline_finalize p sink).1.
Proof.
  intros Hok. pose proof (fun v => in_order_collected G D L p v Hok) as Hcol. destruct Hok as [Ht Hg Hn Hb Hq Hr Hc].
  pose proof (pipeline_finalize_drain p sink) as [_ Hcrc].
  pose proof (finalize_loop_empty (queued_count (merger p)) (merger p) sink (merged_crc (pstats p)) (Nat.le_refl _)) as He.
  unfold pipeline_finalize in *. destruct (finalize_loop _ _ _ _) as [[m s] crc]. cbn [fst] in *.
  split; try done.
  - intros v. cbn [merger with_merger with_stats]. by rewrite He, app_nil_r.
  - rewrite Hcrc, Hc. unfold crc_of_events. by rewrite fold_left_app.
Qed.
