(* ===== verification/AbArbiter.v ===== *)
(** * A/B feed arbitration (src/phase2/ab_arbiter.cpp)

    Two redundant feeds carry the same stream; the first copy of each number
    wins. [arbiter_on_event] calls itself on buffered events whose turn has
    come; [replay_dead] shows that this branch is never taken, because the
    sequencer has already moved past every buffered number it can release.
    The consequences are proved on both sides: the output is in order and
    free of duplicates, nothing is lost while every event survives on one
    feed, and an event that had to be buffered is never delivered. *)

From S2P Require Import Prelude Types SequenceTracker Recovery.

(** ** State *)

Inductive FeedSide := SideA | SideB.
#[export] Instance FeedSide_eq_dec : EqDecision FeedSide.
Proof. solve_decision. Defined.

Record AbArbiterStats := mkArbStats {
  arb_accepted : Z;
  accepted_a : Z;
  accepted_b : Z;
  duplicate_or_old : Z;
  gap_buffered : Z;
  gap_too_large : Z;
  forced_advances : Z;
}.

Record AbArbiterResult := mkArbResult {
  res_accepted : bool;
  res_status : SequenceStatus;
  res_recovery : option RecoveryRequest;
}.

Record AbArbiter := mkArbiter {
  arb_sequencer : MultiVenueSequenceTracker;
  arb_pending : PerVenue (list BookEvent);
  ready : list BookEvent;
  arb_stats : AbArbiterStats;
}.

Definition arbiter_init (gap : Z) : AbArbiter :=
  mkArbiter (multi_init gap) (pv_const []) [] (mkArbStats 0 0 0 0 0 0 0).

(** The counters each branch increments. *)
Section stats.
Implicit Types s : AbArbiterStats.
Definition count_old s := mkArbStats (arb_accepted s) (accepted_a s) (accepted_b s) (duplicate_or_old s + 1) (gap_buffered s) (gap_too_large s) (forced_advances s).
Definition count_buffered s := mkArbStats (arb_accepted s) (accepted_a s) (accepted_b s) (duplicate_or_old s) (gap_buffered s + 1) (gap_too_large s) (forced_advances s).
Definition count_too_large s := mkArbStats (arb_accepted s) (accepted_a s) (accepted_b s) (duplicate_or_old s) (gap_buffered s) (gap_too_large s + 1) (forced_advances s + 1).
Definition count_accepted (side : FeedSide) s :=
  match side with
  | SideA => mkArbStats (arb_accepted s + 1) (accepted_a s + 1) (accepted_b s) (duplicate_or_old s) (gap_buffered s) (gap_too_large s) (forced_advances s)
  | SideB => mkArbStats (arb_accepted s + 1) (accepted_a s) (accepted_b s + 1) (duplicate_or_old s) (gap_buffered s) (gap_too_large s) (forced_advances s)
  end.
End stats.

(** ** Operations *)

Definition seq_less (a b : BookEvent) : bool := sequence a <? sequence b.

Section arbiter.
Context `{StdSort}.

(** The loop over [pend], an index standing for the iterator. [rec] is the
    recursive call of [on_event]; it may change the vector the loop walks. *)
Fixpoint replay_loop (rec : AbArbiter -> BookEvent -> AbArbiter) (n : nat) (v : Venue)
    (next : Z) (it : nat) (s : AbArbiter) : AbArbiter :=
  match n with
  | O => s
  | S n =>
      let pend := (arb_pending s).[v] in
      let erased := mkArbiter (arb_sequencer s) ((arb_pending s).[v := delete it pend])
                              (ready s) (arb_stats s) in
      match pend !! it with
      | None => s
      | Some e =>
          if sequence e <? next then replay_loop rec n v next it erased
          else if sequence e =? next then replay_loop rec n v next it (rec erased e)
          else replay_loop rec n v next (S it) s
      end
  end.

Fixpoint arbiter_on_event (fuel : nat) (s : AbArbiter) (side : FeedSide) (ev : BookEvent)
    : AbArbiter * AbArbiterResult :=
  let '(seqr, _, r) :=
    sequencer_on_sequence (arb_sequencer s)
      (None : option (option ReplayRecoveryStore * ReplayRecoverySimulator))
      (venue ev) (sequence ev) in
  let status := upd_status (sr_update r) in
  let out accepted := mkArbResult accepted status (sr_recovery r) in
  match status with
  | DuplicateOrOld =>
      (mkArbiter seqr (arb_pending s) (ready s) (count_old (arb_stats s)), out false)
  | GapBuffered =>
      (mkArbiter seqr ((arb_pending s).[venue ev := (arb_pending s).[venue ev] ++ [ev]])
                 (ready s) (count_buffered (arb_stats s)), out false)
  | GapTooLarge =>
      (mkArbiter (multi_force_advance seqr (venue ev) (sequence ev)) (arb_pending s)
                 (ready s) (count_too_large (arb_stats s)), out false)
  | InOrder =>
      let s := mkArbiter seqr (arb_pending s) (ready s ++ [ev])
                         (count_accepted side (arb_stats s)) in
      match (arb_pending s).[venue ev], fuel with
      | [], _ | _, O => (s, out true)
      | pend, S fuel =>
          let sorted := std_sort seq_less pend in
          let s := mkArbiter (arb_sequencer s) ((arb_pending s).[venue ev := sorted])
                             (ready s) (arb_stats s) in
          let next := sequencer_next_expected (arb_sequencer s) (venue ev) in
          (replay_loop (fun s e => (arbiter_on_event fuel s side e).1)
             (length sorted) (venue ev) next O s, out true)
      end
  end.

Definition drain_ready (s : AbArbiter) : list BookEvent * AbArbiter :=
  (ready s, mkArbiter (arb_sequencer s) (arb_pending s) [] (arb_stats s)).

Fixpoint arbiter_run (fuel : nat) (s : AbArbiter) (evs : list (FeedSide * BookEvent))
    : AbArbiter * list AbArbiterResult :=
  match evs with
  | [] => (s, [])
  | (side, ev) :: evs =>
      let '(s, r) := arbiter_on_event fuel s side ev in
      let '(s, rs) := arbiter_run fuel s evs in (s, r :: rs)
  end.
End arbiter.

(** [make_dual_feed_race_stream]: [keep] lists the outcomes of the two random
    draws [dist(rng) >= drop_rate] made for each event of [source]. *)
Record DroppedFeedCounts := mkDropped { dropped_a : Z; dropped_b : Z }.

Definition race_pair (keep_a keep_b : bool) (ev : BookEvent) : list (FeedSide * BookEvent) :=
  let a_first := Z.land (sequence ev) 1 =? 0 in
  match keep_a, keep_b with
  | false, false => []
  | true, true => if a_first then [(SideA, ev); (SideB, ev)] else [(SideB, ev); (SideA, ev)]
  | true, false => [(SideA, ev)]
  | false, true => [(SideB, ev)]
  end.

Fixpoint make_dual_feed_race_stream (keep : list (bool * bool)) (source : list BookEvent)
    : list (FeedSide * BookEvent) * DroppedFeedCounts :=
  match source, keep with
  | ev :: source, (keep_a, keep_b) :: keep =>
      let '(out, local) := make_dual_feed_race_stream keep source in
      (race_pair keep_a keep_b ev ++ out,
       mkDropped ((if keep_a then 0 else 1) + dropped_a local)
                 ((if keep_b then 0 else 1) + dropped_b local))
  | _, _ => ([], mkDropped 0 0)
  end.

(** ** Invariant *)

(** Everything still pending was either passed over or is held by the
    sequencer's ring, in particular nothing pending is the next number. *)
Record arb_ok (G M : Z) (s : AbArbiter) : Prop := {
  ao_tracker v : tracker_ok ((arb_sequencer s).[v]);
  ao_gap v : gap_window ((arb_sequencer s).[v]) = G;
  ao_next v : next_expected ((arb_sequencer s).[v]) <= M + 1;
  ao_buffered v q : q ∈ buffered ((arb_sequencer s).[v]) -> q <= M;
  ao_pending v e : e ∈ (arb_pending s).[v] ->
    sequence e < next_expected ((arb_sequencer s).[v]) \/
    sequence e ∈ buffered ((arb_sequencer s).[v]);
  ao_ready v : StronglySorted (fun a b => sequence a < sequence b)
    (filter (fun e => venue e = v) (ready s));
  ao_ready_lt e : e ∈ ready s -> sequence e < next_expected ((arb_sequencer s).[venue e]);
}.

Section arbiter_proofs.
Context `{StdSort} (G M : Z) (HM : M + G + 3 <= 2 ^ 64) (HM0 : 0 <= M) (HG : 0 <= G).

(** Where no pending number equals [next] the loop only erases the older
    ones; the recursive call is never made. *)
Lemma replay_loop_erases rec v next : forall n post pre s,
  (arb_pending s).[v] = pre ++ post -> (length post <= n)%nat ->
  Forall (fun e => sequence e <> next) post ->
  replay_loop rec n v next (length pre) s =
    mkArbiter (arb_sequencer s)
      ((arb_pending s).[v := pre ++ filter (fun e => next <= sequence e) post])
      (ready s) (arb_stats s).
Proof using.
  induction n as [|n IH]; intros post pre s Hp Hn Hf; cbn [replay_loop].
  { destruct post; [|simpl in Hn; lia]. rewrite filter_nil, <-Hp, pv_set_get. by destruct s. }
  rewrite Hp. destruct post as [|e post].
  { rewrite app_nil_r, lookup_ge_None_2 by done. rewrite filter_nil.
    rewrite <-Hp, pv_set_get. by destruct s. }
  rewrite list_lookup_middle by done. inversion_clear Hf as [|? ? Hne Hf'].
  destruct (Z.ltb_spec (sequence e) next).
  - rewrite (IH post); simpl; [|by rewrite pv_get_set, delete_middle|simpl in Hn; lia|done].
    by rewrite pv_set_set, filter_cons_False by lia.
  - destruct (Z.eqb_spec (sequence e) next); [done|].
    replace (S (length pre)) with (length (pre ++ [e])) by (rewrite length_app; simpl; lia).
    rewrite (IH post); [|by rewrite Hp, <-app_assoc|simpl in Hn; lia|done].
    by rewrite <-app_assoc, filter_cons_True by lia.
Qed.

Lemma arb_sequencer_step s e : arb_ok G M s -> 0 <= sequence e <= M ->
  let '(t, u) := tracker_on_sequence ((arb_sequencer s).[venue e]) (sequence e) in
  let '(seqr, _, r) := sequencer_on_sequence (arb_sequencer s)
    (None : option (option ReplayRecoveryStore * ReplayRecoverySimulator)) (venue e) (sequence e) in
  seqr = (arb_sequencer s).[venue e := t] /\ sr_update r = u /\
  tracker_ok t /\ gap_window t = G /\
  next_expected t <= M + 1 /\ (forall q, q ∈ buffered t -> q <= M) /\
  spec_step G (next_expected ((arb_sequencer s).[venue e])) (buffered ((arb_sequencer s).[venue e]))
    (sequence e) (next_expected t) (buffered t) u.
Proof using HG HM.
  intros Hok He.
  pose proof (ao_tracker _ _ _ Hok (venue e)) as Ht. pose proof (ok_next _ Ht).
  pose proof (ao_gap _ _ _ Hok (venue e)) as Hg. pose proof (ao_next _ _ _ Hok (venue e)) as Hn.
  pose proof (tracker_refines_spec _ (sequence e) Ht) as Hs.
  unfold sequencer_on_sequence, multi_on_sequence.
  destruct (tracker_on_sequence _ _) as [t u].
  destruct Hs as (Hok' & Hg' & Hs); [unfold tracker_room; lia|unfold is_u; lia|].
  rewrite Hg in Hs, Hg'.
  destruct (spec_step_bounded _ _ _ _ _ _ _ M Hs) as [??];
    [done|apply (ao_buffered _ _ _ Hok)|lia|].
  destruct (missing_range u); simpl; split_and!; auto.
Qed.

(** The state an accepted event leads to, with the recursion resolved. *)
Definition accepted_state (s : AbArbiter) (side : FeedSide) (e : BookEvent)
    (t : SequenceTracker) : AbArbiter :=
  mkArbiter ((arb_sequencer s).[venue e := t])
    ((arb_pending s).[venue e :=
       filter (fun f => next_expected t <= sequence f)
         (match (arb_pending s).[venue e] with [] => [] | p => std_sort seq_less p end)])
    (ready s ++ [e]) (count_accepted side (arb_stats s)).

Lemma arbiter_in_order fuel s side e : arb_ok G M s -> 0 <= sequence e <= M ->
  let '(t, u) := tracker_on_sequence ((arb_sequencer s).[venue e]) (sequence e) in
  upd_status u = InOrder ->
  (arbiter_on_event (S fuel) s side e).1 = accepted_state s side e t.
Proof using HG HM.
  intros Hok He. pose proof (arb_sequencer_step s e Hok He) as Hs.
  cbn [arbiter_on_event]. destruct (tracker_on_sequence _ _) as [t u].
  destruct (sequencer_on_sequence _ _ _ _) as [[seqr h] r].
  destruct Hs as (-> & -> & Ht & Hg & Hn & HB & Hs). intros Hu. rewrite Hu.
  inversion Hs as [|n' B' Hseq Hlt Hrun Hstop HB'| |]; subst u; try done.
  unfold accepted_state. cbn [arb_pending].
  pose proof (ao_pending _ _ _ Hok (venue e)) as Hpend.
  destruct ((arb_pending s).[venue e]) as [|x pend] eqn:Ep; cbn zeta iota.
  { simpl. rewrite filter_nil.
    assert ((arb_pending s).[venue e := []] = arb_pending s) as -> by (rewrite <-Ep; apply pv_set_get).
    done. }
  simpl fst. cbn [arb_sequencer arb_pending]. unfold sequencer_next_expected. rewrite pv_get_set.
  set (sorted := std_sort seq_less (x :: pend)).
  rewrite (replay_loop_erases _ _ _ (length sorted) sorted []); cbn [arb_pending arb_sequencer ready arb_stats app].
  - by rewrite pv_set_set.
  - apply pv_get_set.
  - done.
  - apply Forall_forall. intros f Hf Heq. subst sorted. rewrite std_sort_perm in Hf.
    destruct (Hpend f Hf) as [Hl|Hl]; [lia|]. congruence.
Qed.

Lemma arbiter_result fuel s side e :
  let '(_, _, r) := sequencer_on_sequence (arb_sequencer s)
    (None : option (option ReplayRecoveryStore * ReplayRecoverySimulator)) (venue e) (sequence e) in
  (arbiter_on_event fuel s side e).2 =
    mkArbResult (bool_decide (upd_status (sr_update r) = InOrder)) (upd_status (sr_update r))
                (sr_recovery r).
Proof using.
  destruct fuel as [|fuel]; cbn [arbiter_on_event];
    destruct (sequencer_on_sequence _ _ _ _) as [[seqr h] r];
    destruct (upd_status (sr_update r)); try done; cbn [arb_pending];
    by destruct ((arb_pending s).[venue e]).
Qed.

(** The state each status leads to. *)
Definition settled (s : AbArbiter) (side : FeedSide) (e : BookEvent) (t : SequenceTracker)
    (status : SequenceStatus) : AbArbiter :=
  let seqr := (arb_sequencer s).[venue e := t] in
  match status with
  | InOrder => accepted_state s side e t
  | DuplicateOrOld => mkArbiter seqr (arb_pending s) (ready s) (count_old (arb_stats s))
  | GapBuffered =>
      mkArbiter seqr ((arb_pending s).[venue e := (arb_pending s).[venue e] ++ [e]])
                (ready s) (count_buffered (arb_stats s))
  | GapTooLarge =>
      mkArbiter (multi_force_advance seqr (venue e) (sequence e)) (arb_pending s)
                (ready s) (count_too_large (arb_stats s))
  end.

(** The recursion of [on_event] never does anything: any positive fuel
    gives the same state. *)
Lemma arbiter_settled fuel s side e : arb_ok G M s -> 0 <= sequence e <= M ->
  let '(t, u) := tracker_on_sequence ((arb_sequencer s).[venue e]) (sequence e) in
  (arbiter_on_event (S fuel) s side e).1 = settled s side e t (upd_status u) /\
  res_status (arbiter_on_event (S fuel) s side e).2 = upd_status u /\
  res_accepted (arbiter_on_event (S fuel) s side e).2 = bool_decide (upd_status u = InOrder).
Proof using HG HM.
  intros Hok He. pose proof (arbiter_in_order fuel s side e Hok He) as H1.
  pose proof (arbiter_result (S fuel) s side e) as H2.
  pose proof (arb_sequencer_step s e Hok He) as Hs.
  destruct (tracker_on_sequence _ _) as [t u].
  assert ((arbiter_on_event (S fuel) s side e).1 = settled s side e t (upd_status u)) as Hst.
  { destruct (upd_status u) eqn:Eu; [by apply H1|..]; cbn [arbiter_on_event];
      destruct (sequencer_on_sequence _ _ _ _) as [[seqr h] r];
      destruct Hs as (-> & Hu & _); by rewrite Hu, Eu. }
  split; [done|].
  destruct (sequencer_on_sequence _ _ _ _) as [[seqr h] r].
  destruct Hs as (_ & Hu & _). rewrite H2. simpl. by rewrite Hu.
Qed.

Lemma arb_ok_more s t v : arb_ok G M s -> tracker_ok t -> gap_window t = G ->
  next_expected ((arb_sequencer s).[v]) <= next_expected t <= M + 1 ->
  (forall q, q ∈ buffered t -> q <= M) ->
  forall pend st rd,
  (forall w e, e ∈ pend.[w] ->
    sequence e < next_expected ((arb_sequencer s).[v := t].[w]) \/
    sequence e ∈ buffered ((arb_sequencer s).[v := t].[w])) ->
  (forall w, StronglySorted (fun a b => sequence a < sequence b)
    (filter (fun e => venue e = w) rd)) ->
  (forall e, e ∈ rd -> e ∈ ready s \/ venue e = v /\ sequence e < next_expected t) ->
  arb_ok G M (mkArbiter ((arb_sequencer s).[v := t]) pend rd st).
Proof.
  intros Hok Ht Hg Hn HB pend st rd Hp Hr Hrl. destruct Hok.
  split; simpl; auto; try (intros w; rewrite pv_get_set_dec; by case_decide).
  - intros w. rewrite pv_get_set_dec. case_decide; subst; [lia|done].
  - intros w q. rewrite pv_get_set_dec. case_decide; subst; [apply HB|apply ao_buffered0].
  - intros e [He|[<- He]]%Hrl; [|by rewrite pv_get_set].
    specialize (ao_ready_lt0 e He). rewrite pv_get_set_dec. case_decide; subst; lia.
Qed.

Lemma settled_ok s side e : arb_ok G M s -> 0 <= sequence e <= M ->
  let '(t, u) := tracker_on_sequence ((arb_sequencer s).[venue e]) (sequence e) in
  arb_ok G M (settled s side e t (upd_status u)) /\
  ready (settled s side e t (upd_status u)) =
    ready s ++ (if bool_decide (upd_status u = InOrder) then [e] else []).
Proof using HG HM.
  intros Hok He. pose proof (arb_sequencer_step s e Hok He) as Hs.
  destruct (tracker_on_sequence _ _) as [t u].
  destruct (sequencer_on_sequence _ _ _ _) as [[seqr h] r].
  destruct Hs as (_ & _ & Ht & Hg & Hn & HB & Hs).
  pose proof (ao_pending _ _ _ Hok) as Hpend. pose proof (ao_ready _ _ _ Hok) as Hready.
  inversion Hs as [Hlt Hn' HB' Hu|n' B' Hseq Hlt Hrun Hstop HB' Hn' HBe Hu
                  |Hw Hn' HB' Hu|Hw Hn' HB' Hu]; subst u; cbn [upd_status settled].
  - split; [|by rewrite app_nil_r]. apply arb_ok_more; auto; [lia|].
    intros w f Hf%Hpend. rewrite pv_get_set_dec. case_decide; subst; [|done]. by rewrite <-Hn', <-HB'.
  - split; [|done]. apply arb_ok_more; auto; [lia| | |].
    + intros w f. rewrite !pv_get_set_dec. case_decide; subst; [|apply Hpend].
      rewrite list_elem_of_filter. intros [Hge Hf].
      assert (f ∈ (arb_pending s).[venue e]) as Hf'.
      { destruct ((arb_pending s).[venue e]); [done|]. by rewrite std_sort_perm in Hf. }
      right. apply HB'. destruct (Hpend _ _ Hf') as [Hl|Hl]; [lia|]. split; [done|].
      assert (sequence f <> next_expected t) by congruence. lia.
    + intros w. rewrite filter_app. apply StronglySorted_app_iff. split; [apply Hready|].
      rewrite filter_cons, filter_nil. case_decide as Hv; [|by split; [constructor|apply Forall_forall; constructor]].
      split; [repeat constructor|]. apply Forall_forall.
      intros f [Hfv Hf]%list_elem_of_filter. repeat constructor.
      pose proof (ao_ready_lt _ _ _ Hok f Hf) as Hl. rewrite Hfv, <-Hv in Hl. lia.
    + intros f [Hf| ->%list_elem_of_singleton]%elem_of_app; [by left|right]. split; [done|lia].
  - split; [|by rewrite app_nil_r]. apply arb_ok_more; auto; [lia|].
    intros w f. rewrite !pv_get_set_dec. case_decide; subst; [|apply Hpend].
    rewrite <-HB', elem_of_union, elem_of_singleton, <-Hn'.
    intros [Hf%Hpend| ->%list_elem_of_singleton]%elem_of_app; tauto.
  - split; [|by rewrite app_nil_r]. unfold multi_force_advance. rewrite pv_get_set, pv_set_set.
    destruct (force_advance_beyond t (sequence e) Ht) as (Hok' & HB2 & Hn2 & Hg2); [lia|].
    apply arb_ok_more; auto; [lia|lia| |].
    + intros q. rewrite HB2. by intros ?%not_elem_of_empty.
    + intros w f Hf%Hpend. rewrite !pv_get_set_dec. case_decide; subst; [|done].
      left. destruct Hf as [Hf|Hf%buffered_window]; [lia| |apply (ao_tracker _ _ _ Hok)].
      pose proof (ao_gap _ _ _ Hok (venue e)). lia.
Qed.

(** *** Lock-step delivery *)

(** Nothing buffered, and the next number of every venue is [next]. *)
Record fresh (next : PerVenue Z) (s : AbArbiter) : Prop := {
  fr_ok : arb_ok G M s;
  fr_next v : next_expected ((arb_sequencer s).[v]) = next.[v];
  fr_buffered v : buffered ((arb_sequencer s).[v]) = ∅;
}.

Lemma fresh_in_order fuel next s side e : fresh next s ->
  sequence e = next.[venue e] -> sequence e <= M ->
  let s' := (arbiter_on_event (S fuel) s side e).1 in
  fresh (next.[venue e := sequence e + 1]) s' /\ ready s' = ready s ++ [e].
Proof using HG HM.
  intros [Hok Hn HB] Hseq HeM. pose proof (ok_next _ (ao_tracker _ _ _ Hok (venue e))).
  assert (0 <= sequence e <= M) as He by (split; [rewrite Hseq, <-Hn; lia|done]).
  pose proof (arb_sequencer_step s e Hok He) as Hs.
  pose proof (arbiter_settled fuel s side e Hok He) as Hst.
  pose proof (settled_ok s side e Hok He) as Hok'.
  destruct (tracker_on_sequence _ _) as [t u]. destruct Hst as (Hs1 & _ & _). rewrite Hs1.
  destruct (sequencer_on_sequence _ _ _ _) as [[seqr h] r].
  destruct Hs as (_ & _ & Ht & Hg & Hnt & _ & Hs). rewrite HB, Hn in Hs.
  inversion Hs as [|n' B' _ Hlt Hrun Hstop HB'| |]; subst u; try lia. destruct Hok' as [Hok' Hr].
  assert (next_expected t = sequence e + 1) as Hnext.
  { destruct (decide (next_expected t = sequence e + 1)) as [|Hne]; [done|].
    destruct (not_elem_of_empty (C := gset Z) (sequence e + 1)). apply Hrun. lia. }
  split; [|done]. split; [done| |]; intros v; simpl; rewrite !pv_get_set_dec; destruct (decide (venue e = v)); auto.
  apply set_eq. intros q. rewrite HB'. split; [by intros [?%not_elem_of_empty _]|by intros ?%not_elem_of_empty].
Qed.

Lemma fresh_old fuel next s side e : fresh next s ->
  0 <= sequence e < next.[venue e] -> sequence e <= M ->
  let s' := (arbiter_on_event (S fuel) s side e).1 in
  fresh next s' /\ ready s' = ready s.
Proof using HG HM.
  intros [Hok Hn HB] Hlt HeM. assert (0 <= sequence e <= M) as He by lia.
  pose proof (arb_sequencer_step s e Hok He) as Hs.
  pose proof (arbiter_settled fuel s side e Hok He) as Hst.
  pose proof (settled_ok s side e Hok He) as Hok'.
  destruct (tracker_on_sequence _ _) as [t u]. destruct Hst as (Hs1 & _ & _). rewrite Hs1.
  destruct (sequencer_on_sequence _ _ _ _) as [[seqr h] r].
  destruct Hs as (_ & _ & Ht & Hg & Hnt & _ & Hs). rewrite HB, Hn in Hs.
  inversion Hs as [Hl Hnt' HBt| | |]; subst u; try lia. destruct Hok' as [Hok' _].
  split; [|done]. split; [done| |]; intros v; simpl; rewrite !pv_get_set_dec; destruct (decide (venue e = v)); subst; auto.
Qed.

(** Per venue the numbers of [source] are consecutive from [next] on. *)
Fixpoint consecutive (next : PerVenue Z) (source : list BookEvent) : Prop :=
  match source with
  | [] => True
  | e :: source => sequence e = next.[venue e] /\ sequence e <= M /\
                   consecutive (next.[venue e := sequence e + 1]) source
  end.

Lemma arbiter_run_app fuel evs evs' : forall s,
  (arbiter_run fuel s (evs ++ evs')).1 = (arbiter_run fuel (arbiter_run fuel s evs).1 evs').1.
Proof.
  induction evs as [|[side e] evs IH]; intros s; [done|]. cbn [arbiter_run app].
  destruct (arbiter_on_event fuel s side e) as [s1 r].
  specialize (IH s1). destruct (arbiter_run fuel s1 (evs ++ evs')), (arbiter_run fuel s1 evs) as [s2 rs].
  cbn [fst] in *. rewrite IH. by destruct (arbiter_run fuel s2 evs').
Qed.

Lemma arbiter_run_1 fuel s side e :
  (arbiter_run fuel s [(side, e)]).1 = (arbiter_on_event fuel s side e).1.
Proof. cbn [arbiter_run]. by destruct (arbiter_on_event fuel s side e). Qed.

Lemma race_pair_delivers fuel next s e ka kb : fresh next s ->
  sequence e = next.[venue e] -> sequence e <= M -> ka || kb = true ->
  let s' := (arbiter_run (S fuel) s (race_pair ka kb e)).1 in
  fresh (next.[venue e := sequence e + 1]) s' /\ ready s' = ready s ++ [e].
Proof using HG HM.
  intros Hf Hs HeM Hk.
  assert (0 <= sequence e) as H0.
  { pose proof (ok_next _ (ao_tracker _ _ _ (fr_ok _ _ Hf) (venue e))).
    rewrite Hs, <-(fr_next _ _ Hf). lia. }
  assert (forall a b, let s' := (arbiter_run (S fuel) s [(a, e); (b, e)]).1 in
    fresh (next.[venue e := sequence e + 1]) s' /\ ready s' = ready s ++ [e]) as H2.
  { intros a b. change [(a, e); (b, e)] with ([(a, e)] ++ [(b, e)]).
    rewrite arbiter_run_app, !arbiter_run_1. cbv zeta.
    destruct (fresh_in_order fuel next s a e Hf Hs HeM) as [Hf1 Hr1].
    destruct (fresh_old fuel _ _ b e Hf1) as [Hf2 Hr2]; [rewrite pv_get_set; lia|done|].
    split; [done|]. by rewrite Hr2. }
  unfold race_pair. destruct ka, kb; simpl in Hk; try done.
  - by destruct (_ =? _).
  - rewrite arbiter_run_1. by apply fresh_in_order.
  - rewrite arbiter_run_1. by apply fresh_in_order.
Qed.

Lemma race_stream_delivers fuel source : forall keep next s, fresh next s ->
  consecutive next source -> length keep = length source ->
  Forall (fun k => k.1 || k.2 = true) keep ->
  ready (arbiter_run (S fuel) s (make_dual_feed_race_stream keep source).1).1 = ready s ++ source.
Proof using HG HM.
  induction source as [|e source IH]; intros [|[ka kb] keep] next s Hf Hc Hl Hk; try done.
  { by rewrite app_nil_r. }
  destruct Hc as (Hs & HeM & Hc). inversion_clear Hk as [|? ? Hk1 Hk2]. injection Hl as Hl.
  cbn [make_dual_feed_race_stream].
  specialize (fun n s Hf Hc => IH keep n s Hf Hc Hl Hk2).
  destruct (make_dual_feed_race_stream keep source) as [out local]. cbn [fst] in *.
  rewrite arbiter_run_app.
  destruct (race_pair_delivers fuel next s e ka kb Hf Hs HeM Hk1) as [Hf' Hr].
  rewrite (IH _ _ Hf' Hc), Hr. by rewrite <-app_assoc.
Qed.
End arbiter_proofs.

(** ** Correctness of the arbiter *)

(** The inputs whose result says they were accepted. *)
Definition delivered (evs : list (FeedSide * BookEvent)) (rs : list AbArbiterResult)
    : list BookEvent :=
  map (fun p => p.1.2) (filter (fun p => res_accepted p.2 = true) (zip evs rs)).

Lemma arbiter_init_ok G M : 0 <= G -> 0 <= M -> M + G + 3 <= 2 ^ 64 ->
  fresh G M (pv_const 1) (arbiter_init G).
Proof.
  intros HG HM HGM. assert (tracker_ok (tracker_init G)) by (apply tracker_init_ok; lia).
  assert (forall v, (multi_init G).[v] = tracker_init G) as Hi by (intros; apply pv_get_const).
  split; [split|..]; simpl; intros *; rewrite ?Hi, ?pv_get_const, ?tracker_init_buffered;
    try done; simpl; try lia; intros;
    try (by match goal with Hin : _ ∈ [] |- _ => apply not_elem_of_nil in Hin end).
  - rewrite filter_nil. constructor.
Qed.

Lemma arbiter_run_ok `{StdSort} G M fuel evs : 0 <= G -> M + G + 3 <= 2 ^ 64 ->
  forall s, arb_ok G M s -> Forall (fun p => 0 <= sequence p.2 <= M) evs ->
  let '(s', rs) := arbiter_run (S fuel) s evs in
  arb_ok G M s' /\ ready s' = ready s ++ delivered evs rs /\ length rs = length evs.
Proof.
  intros HG HGM. induction evs as [|[side e] evs IH]; intros s Hok Hf.
  { simpl. unfold delivered. simpl. by rewrite app_nil_r. }
  inversion_clear Hf as [|? ? He Hf']. cbn [arbiter_run].
  pose proof (arbiter_settled G M HGM HG fuel s side e Hok He) as Hs.
  pose proof (settled_ok G M HGM HG s side e Hok He) as Ht.
  destruct (arbiter_on_event (S fuel) s side e) as [s1 r].
  destruct (tracker_on_sequence _ _) as [t u]. cbn [fst snd] in *.
  destruct Hs as (-> & _ & Ha), Ht as [Hok1 Hr1].
  specialize (IH _ Hok1 Hf'). destruct (arbiter_run _ _ evs) as [s2 rs].
  destruct IH as (Hok2 & Hr2 & Hl). split; [done|]. split; [|simpl; lia].
  rewrite Hr2, Hr1, <-app_assoc. f_equal. unfold delivered. cbn [zip zip_with].
  rewrite filter_cons. cbn [snd]. rewrite Ha.
  destruct (bool_decide _); [|done]. by rewrite decide_True by done.
Qed.

(** What the arbiter delivers is exactly the inputs it accepted on arrival,
    in arrival order, and per venue their numbers strictly increase: the
    second copy of an event never gets through, and an event that arrived
    ahead of a gap (status [GapBuffered]) is never delivered later. *)
Theorem arbiter_delivers_accepted `{StdSort} G M fuel evs : 0 <= G -> 0 <= M ->
  M + G + 3 <= 2 ^ 64 -> Forall (fun p => 0 <= sequence p.2 <= M) evs ->
  let '(s, rs) := arbiter_run (S fuel) (arbiter_init G) evs in
  ready s = delivered evs rs /\ length rs = length evs /\
  forall v, StronglySorted (fun a b => sequence a < sequence b)
    (filter (fun e => venue e = v) (ready s)).
Proof.
  intros HG HM HGM Hf.
  pose proof (arbiter_run_ok G M fuel evs HG HGM _ (fr_ok _ _ _ _ (arbiter_init_ok G M HG HM HGM)) Hf) as Hr.
  destruct (arbiter_run _ _ _) as [s rs]. destruct Hr as (Hok & Hr & Hl).
  split; [exact Hr|]. split; [done|]. apply (ao_ready _ _ _ Hok).
Qed.

(** The recursion in [on_event] is dead code: running with more levels of it
    never changes anything. *)
Theorem arbiter_replay_dead `{StdSort} G M fuel s side e : 0 <= G -> M + G + 3 <= 2 ^ 64 ->
  arb_ok G M s -> 0 <= sequence e <= M ->
  (arbiter_on_event (S fuel) s side e).1 = (arbiter_on_event 1 s side e).1.
Proof.
  intros HG HGM Hok He. pose proof (arbiter_settled G M HGM HG fuel s side e Hok He) as H1.
  pose proof (arbiter_settled G M HGM HG 0 s side e Hok He) as H2.
  destruct (tracker_on_sequence _ _) as [t u]. destruct H1 as [-> _], H2 as [-> _]. done.
Qed.

(** Failover is lossless: when no event is dropped on both feeds, the arbiter
    fed with the race of the two feeds delivers exactly the source stream,
    whatever was dropped on either feed. *)
Theorem dual_feed_lossless `{StdSort} G M fuel keep source : 0 <= G -> 0 <= M ->
  M + G + 3 <= 2 ^ 64 -> consecutive M (pv_const 1) source -> length keep = length source ->
  Forall (fun k => k.1 || k.2 = true) keep ->
  ready (arbiter_run (S fuel) (arbiter_init G) (make_dual_feed_race_stream keep source).1).1 = source.
Proof.
  intros HG HM HGM Hc Hl Hk.
  by rewrite (race_stream_delivers G M HGM HG fuel source keep _ _ (arbiter_init_ok G M HG HM HGM) Hc Hl Hk).
Qed.

(** ** Witnesses *)

Definition ab_event (seq : Z) : BookEvent := event_default |> set_venue Iex |> set_sequence seq.

Lemma arbiter_delivers_accepted_witness :
  let '(s, rs) := arbiter_run 1 (arbiter_init 4) [(SideA, ab_event 1); (SideB, ab_event 1); (SideA, ab_event 3)] in
  ready s = [ab_event 1].
Proof.
  pose proof (arbiter_delivers_accepted 4 10 0
    [(SideA, ab_event 1); (SideB, ab_event 1); (SideA, ab_event 3)]) as H1.
  destruct H1 as (H1 & _); [lia|lia|lia|repeat constructor; simpl; lia|]. exact H1.
Defined.

Lemma arbiter_replay_dead_witness :
  (arbiter_on_event 5 (arbiter_init 4) SideA (ab_event 1)).1 =
  (arbiter_on_event 1 (arbiter_init 4) SideA (ab_event 1)).1.
Proof.
  apply (arbiter_replay_dead 4 10); [lia|lia| |simpl; lia].
  apply (fr_ok _ _ (pv_const 1)), arbiter_init_ok; lia.
Defined.

Lemma dual_feed_lossless_witness :
  ready (arbiter_run 1 (arbiter_init 4)
    (make_dual_feed_race_stream [(true, false); (false, true); (true, true)]
       [ab_event 1; ab_event 2; ab_event 3]).1).1 = [ab_event 1; ab_event 2; ab_event 3].
Proof.
  apply (dual_feed_lossless 4 10); [lia|lia|lia| |done|repeat constructor].
  repeat split; simpl; lia.
Defined.

(** Both feeds deliver number 2 before number 1: both copies of it are
    buffered, and it is erased undelivered when 1 arrives. *)
Example buffered_event_lost :
  ready (arbiter_run 3 (arbiter_init 4)
    [(SideA, ab_event 2); (SideB, ab_event 2); (SideA, ab_event 1); (SideB, ab_event 3)]).1
  = [ab_event 1; ab_event 3].
Proof. reflexivity. Qed.
