(* ===== verification/OrderTable.v ===== *)
(** * The order table (src/phase3/order_book_engine.cpp)

    The open-addressing hash table [orders_] of the order book engine, with
    linear probing, tombstones and a 50% load limit. [table_view] is the
    finite map it stands for; [find_order], [put_order] and [erase_order] are
    lookup, insert and delete of that map. The definitions take the number of
    slots from the state: the code has 2^21, the examples a few. *)

From S2P Require Import Prelude Types.

(** ** Data *)

(** [queue_ahead] is a double that always holds a converted quantity; it is
    represented by the integer it denotes. *)
Record OrderRef := mkOrder {
  o_venue : Venue;
  o_symbol : Z;
  o_side : Side;
  o_price : Z;
  o_qty : Z;
  o_queue_ahead : Z;
}.

Record OrderSlot := mkSlot { slot_key : Z; slot_value : OrderRef; slot_state : Z }.

Record OrderTable := mkTable {
  orders : list OrderSlot;
  order_count : Z;
  dropped_order_inserts : Z;
}.

Definition order_default : OrderRef := mkOrder Nasdaq 0 SideUnknown 0 0 0.

Definition table_init (slots : nat) : OrderTable :=
  mkTable (replicate slots (mkSlot 0 order_default 0)) 0 0.

Definition kOrderSlots : nat := Z.to_nat (2 ^ 21).

(** ** Hashing *)

Definition order_key (v : Venue) (order_id : Z) : Z :=
  Z.lxor (u64 (Z.shiftl (venue_u8 v) 56)) order_id.

Definition mul64 (x y : Z) : Z := u64 (x * y).

Definition mix_key (key : Z) : Z :=
  let key := Z.lxor key (Z.shiftr key 33) in
  let key := mul64 key 0xff51afd7ed558ccd in
  let key := Z.lxor key (Z.shiftr key 33) in
  let key := mul64 key 0xc4ceb9fe1a85ec53 in
  Z.lxor key (Z.shiftr key 33).

Definition order_mask (slots : list OrderSlot) : Z := Z.of_nat (length slots) - 1.

Definition home (slots : list OrderSlot) (key : Z) : nat :=
  Z.to_nat (Z.land (mix_key key) (order_mask slots)).

Definition next_idx (slots : list OrderSlot) (idx : nat) : nat :=
  Z.to_nat (Z.land (Z.of_nat idx + 1) (order_mask slots)).

(** ** Probing *)

(** The probe loops; the pointer [find_order] returns is the slot's index. *)
Fixpoint find_loop (probes idx : nat) (slots : list OrderSlot) (key : Z) : option nat :=
  match probes with
  | O => None
  | S probes =>
      match slots !! idx with
      | None => None
      | Some slot =>
          if slot_state slot =? 0 then None
          else if (slot_state slot =? 1) && (slot_key slot =? key) then Some idx
          else find_loop probes (next_idx slots idx) slots key
      end
  end.

Definition find_order (t : OrderTable) (key : Z) : option nat :=
  find_loop (length (orders t)) (home (orders t) key) (orders t) key.

(** [first_tombstone == orders_.size()] is [None]. *)
Fixpoint put_loop (probes idx : nat) (tomb : option nat) (slots : list OrderSlot)
    (key : Z) (value : OrderRef) : option (list OrderSlot * Z) :=
  match probes with
  | O => None
  | S probes =>
      match slots !! idx with
      | None => None
      | Some slot =>
          if (slot_state slot =? 1) && (slot_key slot =? key)
          then Some (<[idx := mkSlot (slot_key slot) value (slot_state slot)]> slots, 0)
          else
            let tomb := if (slot_state slot =? 2) && bool_decide (tomb = None) then Some idx else tomb in
            if slot_state slot =? 0
            then Some (<[default idx tomb := mkSlot key value 1]> slots, 1)
            else put_loop probes (next_idx slots idx) tomb slots key value
      end
  end.

Definition put_order (t : OrderTable) (key : Z) (value : OrderRef) : bool * OrderTable :=
  if Z.of_nat (length (orders t)) / 2 <? order_count t
  then (false, mkTable (orders t) (order_count t) (dropped_order_inserts t + 1))
  else match put_loop (length (orders t)) (home (orders t) key) None (orders t) key value with
       | Some (slots, added) => (true, mkTable slots (order_count t + added) (dropped_order_inserts t))
       | None => (false, mkTable (orders t) (order_count t) (dropped_order_inserts t + 1))
       end.

Fixpoint erase_loop (probes idx : nat) (slots : list OrderSlot) (key : Z)
    : list OrderSlot * bool :=
  match probes with
  | O => (slots, false)
  | S probes =>
      match slots !! idx with
      | None => (slots, false)
      | Some slot =>
          if slot_state slot =? 0 then (slots, false)
          else if (slot_state slot =? 1) && (slot_key slot =? key)
          then (<[idx := mkSlot (slot_key slot) (slot_value slot) 2]> slots, true)
          else erase_loop probes (next_idx slots idx) slots key
      end
  end.

Definition erase_order (t : OrderTable) (key : Z) : OrderTable :=
  let '(slots, erased) := erase_loop (length (orders t)) (home (orders t) key) (orders t) key in
  mkTable slots (if erased && (0 <? order_count t) then order_count t - 1 else order_count t)
          (dropped_order_inserts t).

(** Reading and writing through the pointer [find_order] returned. *)
Definition order_at (t : OrderTable) (i : nat) : OrderRef :=
  match orders t !! i with Some slot => slot_value slot | None => order_default end.

Definition set_order_at (t : OrderTable) (i : nat) (o : OrderRef) : OrderTable :=
  match orders t !! i with
  | Some slot => mkTable (<[i := mkSlot (slot_key slot) o (slot_state slot)]> (orders t))
                         (order_count t) (dropped_order_inserts t)
  | None => t
  end.

(** ** The map a table stands for *)

Definition live (slots : list OrderSlot) (i : nat) (key : Z) (o : OrderRef) : Prop :=
  slots !! i = Some (mkSlot key o 1).

Definition state_at (slots : list OrderSlot) (i : nat) : Z :=
  match slots !! i with Some s => slot_state s | None => 0 end.

(** The [j]-th slot a probe for [key] visits. *)
Definition pos (slots : list OrderSlot) (key : Z) (j : nat) : nat :=
  ((home slots key + j) mod length slots)%nat.

(** A probe passes over this slot: occupied or deleted, and not [key]'s. *)
Definition passes (slots : list OrderSlot) (key : Z) (i : nat) : Prop :=
  state_at slots i <> 0 /\ forall o, ~ live slots i key o.

Record table_rep (t : OrderTable) (m : gmap Z OrderRef) : Prop := {
  tr_size : exists k, 0 <= k /\ Z.of_nat (length (orders t)) = 2 ^ k;
  tr_view key o : m !! key = Some o <-> exists i, live (orders t) i key o;
  tr_uniq key o o' i i' : live (orders t) i key o -> live (orders t) i' key o' -> i = i';
  tr_path key o i : live (orders t) i key o ->
    exists j, (j < length (orders t))%nat /\ pos (orders t) key j = i /\
      forall j', (j' < j)%nat -> state_at (orders t) (pos (orders t) key j') <> 0;
  tr_count : order_count t = Z.of_nat (size m);
}.

Section probing.
Context (slots : list OrderSlot) (key : Z).
Context (Hsize : exists k, 0 <= k /\ Z.of_nat (length slots) = 2 ^ k).

Lemma slots_pos : (0 < length slots)%nat.
Proof using Hsize. destruct Hsize as (k & Hk & H). pose proof (Z.pow_pos_nonneg 2 k). lia. Qed.

Lemma land_mask x : Z.land x (order_mask slots) = x mod Z.of_nat (length slots).
Proof using Hsize.
  destruct Hsize as (k & Hk & H). unfold order_mask. rewrite H.
  rewrite <-Z.land_ones by done. by rewrite Z.ones_equiv, Z.sub_1_r.
Qed.

Lemma next_idx_mod i : next_idx slots i = (S i mod length slots)%nat.
Proof using Hsize.
  pose proof slots_pos. unfold next_idx. rewrite land_mask.
  replace (Z.of_nat i + 1) with (Z.of_nat (S i)) by lia.
  rewrite <-Nat2Z.inj_mod. apply Nat2Z.id.
Qed.

Lemma next_pos j : next_idx slots (pos slots key j) = pos slots key (S j).
Proof using Hsize.
  pose proof slots_pos. rewrite next_idx_mod. unfold pos.
  rewrite <-Nat.add_1_r, Nat.Div0.add_mod_idemp_l. f_equal. lia.
Qed.

Lemma pos_lt j : (pos slots key j < length slots)%nat.
Proof using Hsize. pose proof slots_pos. apply Nat.mod_upper_bound. lia. Qed.

Lemma pos_lookup j : is_Some (slots !! pos slots key j).
Proof using Hsize. apply lookup_lt_is_Some, pos_lt. Qed.

Lemma pos_inj j j' : (j < length slots)%nat -> (j' < length slots)%nat ->
  pos slots key j = pos slots key j' -> j = j'.
Proof using Hsize.
  unfold pos. intros Hj Hj' H. set (n := length slots) in *. set (h := home slots key) in *.
  pose proof (Nat.div_mod (h + j) n ltac:(lia)). pose proof (Nat.div_mod (h + j') n ltac:(lia)).
  assert ((h + j) / n = (h + j') / n)%nat; nia.
Qed.

Lemma home_pos : home slots key = pos slots key 0.
Proof using Hsize.
  unfold pos. rewrite Nat.add_0_r, Nat.mod_small; [done|].
  pose proof slots_pos. unfold home. rewrite land_mask.
  pose proof (Z.mod_pos_bound (mix_key key) (Z.of_nat (length slots))). lia.
Qed.

Lemma not_passes i slot : slots !! i = Some slot -> passes slots key i <->
  slot_state slot <> 0 /\ ~ (slot_state slot = 1 /\ slot_key slot = key).
Proof using.
  intros Hi. unfold passes, live, state_at. rewrite Hi. destruct slot as [k o st]; simpl. split.
  - intros [H1 H2]. split; [done|]. intros [-> ->]. by destruct (H2 o).
  - intros [H1 H2]. split; [done|]. intros o' [= -> _ ->]. by destruct H2.
Qed.

(** Where a probe stops: the first slot it does not pass over, if any. *)
Lemma probe_stops : exists j, (j <= length slots)%nat /\
  (forall j', (j' < j)%nat -> passes slots key (pos slots key j')) /\
  ((j < length slots)%nat -> ~ passes slots key (pos slots key j)).
Proof using Hsize.
  assert (forall i, Decision (passes slots key (pos slots key i))) as Hdec.
  { intros i. destruct (slots !! pos slots key i) as [slot|] eqn:E;
      [|right; destruct (pos_lookup i); congruence].
    destruct (decide (slot_state slot <> 0 /\ ~ (slot_state slot = 1 /\ slot_key slot = key)));
      [left|right]; by rewrite (not_passes _ _ E). }
  assert (forall n, exists j, (j <= n)%nat /\
    (forall j', (j' < j)%nat -> passes slots key (pos slots key j')) /\
    ((j < n)%nat -> ~ passes slots key (pos slots key j))) as Hn; [|apply Hn].
  induction n as [|n (j & Hj & Hall & Hstop)]; [exists 0%nat; split_and!; lia|].
  destruct (decide (j < n)%nat) as [Hlt|]; [exists j; split_and!; auto; lia|].
  assert (j = n) as -> by lia. destruct (Hdec n); [exists (S n)|exists n]; split_and!; auto; try lia.
  intros j' Hj'. destruct (decide (j' = n)) as [->|]; [done|]. apply Hall. lia.
Qed.

Lemma find_skip d : forall n j,
  (forall j', (j <= j' < j + d)%nat -> passes slots key (pos slots key j')) ->
  find_loop (d + n) (pos slots key j) slots key = find_loop n (pos slots key (j + d)) slots key.
Proof using Hsize.
  induction d as [|d IH]; intros n j Hp; [by rewrite Nat.add_0_r|].
  cbn [find_loop Nat.add]. destruct (pos_lookup j) as [slot E]. rewrite E.
  destruct (proj1 (not_passes _ _ E) (Hp j ltac:(lia))) as [H0 H1].
  replace (slot_state slot =? 0) with false by lia.
  replace ((slot_state slot =? 1) && (slot_key slot =? key)) with false by lia.
  rewrite next_pos, IH by (intros; apply Hp; lia). do 2 f_equal. lia.
Qed.

Lemma erase_skip d : forall n j,
  (forall j', (j <= j' < j + d)%nat -> passes slots key (pos slots key j')) ->
  erase_loop (d + n) (pos slots key j) slots key = erase_loop n (pos slots key (j + d)) slots key.
Proof using Hsize.
  induction d as [|d IH]; intros n j Hp; [by rewrite Nat.add_0_r|].
  cbn [erase_loop Nat.add]. destruct (pos_lookup j) as [slot E]. rewrite E.
  destruct (proj1 (not_passes _ _ E) (Hp j ltac:(lia))) as [H0 H1].
  replace (slot_state slot =? 0) with false by lia.
  replace ((slot_state slot =? 1) && (slot_key slot =? key)) with false by lia.
  rewrite next_pos, IH by (intros; apply Hp; lia). do 2 f_equal. lia.
Qed.

(** A remembered tombstone is a deleted slot the probe has visited. *)
Definition tomb_ok (tomb : option nat) (j : nat) : Prop :=
  match tomb with
  | None => True
  | Some i => state_at slots i = 2 /\ exists jt, (jt < j)%nat /\ i = pos slots key jt
  end.

Lemma put_skip value d : forall n j tomb, tomb_ok tomb j ->
  (forall j', (j <= j' < j + d)%nat -> passes slots key (pos slots key j')) ->
  exists tomb', tomb_ok tomb' (j + d) /\
    put_loop (d + n) (pos slots key j) tomb slots key value =
    put_loop n (pos slots key (j + d)) tomb' slots key value.
Proof using Hsize.
  induction d as [|d IH]; intros n j tomb Ht Hp; [rewrite Nat.add_0_r; by exists tomb|].
  cbn [put_loop Nat.add]. destruct (pos_lookup j) as [slot E]. rewrite E.
  destruct (proj1 (not_passes _ _ E) (Hp j ltac:(lia))) as [H0 H1].
  replace ((slot_state slot =? 1) && (slot_key slot =? key)) with false by lia.
  replace (slot_state slot =? 0) with false by lia.
  rewrite next_pos. replace (j + S d)%nat with (S j + d)%nat by lia.
  apply IH; [|intros; apply Hp; lia].
  destruct (slot_state slot =? 2) eqn:E2; simpl.
  - case_bool_decide as Hb; [|destruct tomb as [i|]; [|done]].
    + simpl. unfold state_at. rewrite E. zbool. split; [done|]. exists j. split; [lia|done].
    + destruct Ht as (? & jt & ? & ?). split; [done|]. exists jt. split; [lia|done].
  - destruct tomb as [i|]; [|done].
    destruct Ht as (? & jt & ? & ?). split; [done|]. exists jt. split; [lia|done].
Qed.
End probing.

(** ** The operations implement the map *)

Lemma pos_insert slots i s key j : pos (<[i := s]> slots) key j = pos slots key j.
Proof. unfold pos, home, order_mask. by rewrite length_insert. Qed.

Lemma live_insert slots i s i' key o : (i < length slots)%nat ->
  live (<[i := s]> slots) i' key o <->
  (i' = i /\ s = mkSlot key o 1) \/ (i' <> i /\ live slots i' key o).
Proof.
  intros Hi. unfold live. rewrite list_lookup_insert_Some.
  split; [intros [(->&->&_)|[? H]]; [by left|right; by split]|].
  intros [[-> ->]|[Hne Hl]]; [by left|right; auto].
Qed.

Lemma state_insert slots i s i' : slot_state s <> 0 -> state_at slots i' <> 0 ->
  state_at (<[i := s]> slots) i' <> 0.
Proof.
  intros Hs Hi. unfold state_at in *. destruct (decide (i = i')) as [<-|Hne].
  - destruct (decide (i < length slots)%nat).
    + by rewrite list_lookup_insert_eq.
    + by rewrite list_insert_ge by lia.
  - by rewrite list_lookup_insert_ne.
Qed.

Lemma live_lt slots i key o : live slots i key o -> (i < length slots)%nat.
Proof. apply lookup_lt_Some. Qed.

Lemma live_state slots i key o : live slots i key o -> state_at slots i = 1.
Proof. unfold live, state_at. by intros ->. Qed.

Section operations.
Context (t : OrderTable) (m : gmap Z OrderRef) (key : Z) (Hrep : table_rep t m).
#[local] Abbreviation slots := (orders t).

Lemma rep_replace i o value d : live slots i key o ->
  table_rep (mkTable (<[i := mkSlot key value 1]> slots) (order_count t) d) (<[key := value]> m).
Proof using Hrep.
  intros Hl. pose proof (live_lt _ _ _ _ Hl) as Hlt. destruct Hrep as [Hs Hv Hu Hp Hc].
  assert (forall i' k o', live (<[i := mkSlot key value 1]> slots) i' k o' ->
    exists o'', live slots i' k o'') as Hback.
  { intros i' k o'. rewrite live_insert by done. intros [[-> [= <- <-]]|[_ H]]; eauto. }
  split; cbn [orders order_count]; rewrite ?length_insert; auto.
  - intros k o'. rewrite lookup_insert_Some. setoid_rewrite live_insert; [|done]. split.
    + intros [[<- <-]|[Hne H]]; [exists i; by left|]. apply Hv in H as [i' H].
      exists i'. right. split; [|done]. intros ->. unfold live in *. congruence.
    + intros (i' & [[-> [= <- <-]]|[Hne H]]); [by left|right]. split; [|apply Hv; eauto].
      intros <-. apply Hne. by eapply Hu.
  - intros k o1 o2 i1 i2 H1%Hback H2%Hback. destruct H1, H2. by eapply Hu.
  - intros k o' i' H%Hback. destruct H as [o'' H]. destruct (Hp _ _ _ H) as (j & Hj & Hi & Hst).
    exists j. rewrite pos_insert. split_and!; auto. intros j' Hj'. rewrite pos_insert.
    apply state_insert; [done|auto].
  - rewrite map_size_insert_Some; [done|]. exists o. apply Hv. eauto.
Qed.

Lemma rep_add i j value d : m !! key = None -> (j < length slots)%nat -> i = pos slots key j ->
  (forall j', (j' < j)%nat -> state_at slots (pos slots key j') <> 0) -> state_at slots i <> 1 ->
  table_rep (mkTable (<[i := mkSlot key value 1]> slots) (order_count t + 1) d) (<[key := value]> m).
Proof using Hrep.
  intros Hm Hj Hi Hprev Hst. destruct Hrep as [Hs Hv Hu Hp Hc].
  assert (i < length slots)%nat as Hlt by (subst i; by apply pos_lt).
  assert (forall i' k o, live slots i' k o -> i' <> i) as Hold.
  { intros i' k o H ->. by apply live_state in H. }
  assert (forall i' o, ~ live slots i' key o) as Hnew.
  { intros i' o H. assert (m !! key = Some o) by (apply Hv; eauto). congruence. }
  split; cbn [orders order_count]; rewrite ?length_insert; auto.
  - intros k o. rewrite lookup_insert_Some. setoid_rewrite live_insert; [|done]. split.
    + intros [[<- <-]|[Hne H]]; [exists i; by left|]. apply Hv in H as [i' H]. eauto.
    + intros (i' & [[-> [= <- <-]]|[Hne H]]); [by left|right]. split; [|apply Hv; eauto].
      intros <-. by apply (Hnew i' o).
  - intros k o1 o2 i1 i2. rewrite !live_insert by done.
    intros [[-> E1]|[? H1]] [[-> E2]|[? H2]]; [done| | |by eapply Hu].
    + injection E1 as <- _. by destruct (Hnew _ _ H2).
    + injection E2 as <- _. by destruct (Hnew _ _ H1).
  - intros k o i'. rewrite live_insert by done. setoid_rewrite pos_insert.
    intros [[-> [= <- <-]]|[Hne H]].
    + exists j. split_and!; auto. intros j' Hj'. apply state_insert; [done|auto].
    + destruct (Hp _ _ _ H) as (j0 & Hj0 & Hi0 & Hst0). exists j0. split_and!; auto.
      intros j' Hj'. apply state_insert; [done|auto].
  - rewrite map_size_insert_None by done. lia.
Qed.

Lemma rep_erase i o d : live slots i key o ->
  table_rep (mkTable (<[i := mkSlot key o 2]> slots) (order_count t - 1) d) (delete key m).
Proof using Hrep.
  intros Hl. pose proof (live_lt _ _ _ _ Hl) as Hlt. destruct Hrep as [Hs Hv Hu Hp Hc].
  assert (forall i' k o', live (<[i := mkSlot key o 2]> slots) i' k o' <-> i' <> i /\ live slots i' k o') as Hback.
  { intros i' k o'. rewrite live_insert by done. split; [intros [[_ ?]|?]; [done|done]|by right]. }
  split; cbn [orders order_count]; rewrite ?length_insert; auto.
  - intros k o'. rewrite lookup_delete_Some, Hv. setoid_rewrite Hback. split.
    + intros [Hne [i' H]]. exists i'. split; [|done]. intros ->. unfold live in *. congruence.
    + intros (i' & Hne & H). split; [|eauto]. intros <-. apply Hne. by eapply Hu.
  - intros k o1 o2 i1 i2 [_ H1]%Hback [_ H2]%Hback. by eapply Hu.
  - intros k o' i' [_ H]%Hback. destruct (Hp _ _ _ H) as (j & Hj & Hi & Hst).
    exists j. rewrite pos_insert. split_and!; auto. intros j' Hj'. rewrite pos_insert.
    apply state_insert; [done|auto].
  - assert (is_Some (m !! key)) as Hk by (exists o; apply Hv; eauto).
    rewrite map_size_delete_Some by done.
    assert (size m <> 0%nat); [|lia]. intros H%map_size_empty_inv. subst.
    rewrite lookup_empty in Hk. by destruct Hk.
Qed.

(** A probe that reaches an empty slot, or the end, proves absence. *)
Lemma rep_absent j : (j <= length slots)%nat ->
  (forall j', (j' < j)%nat -> passes slots key (pos slots key j')) ->
  ((j < length slots)%nat -> state_at slots (pos slots key j) = 0) -> m !! key = None.
Proof using Hrep.
  intros Hj Hpass Hend. destruct Hrep as [Hs Hv Hu Hp Hc].
  destruct (m !! key) as [o|] eqn:E; [|done]. apply Hv in E as [i Hl].
  destruct (Hp _ _ _ Hl) as (j0 & Hj0 & Hi & Hst).
  destruct (Nat.lt_trichotomy j0 j) as [Hlt|[->|Hgt]].
  - destruct (Hpass j0 Hlt) as [_ H]. rewrite Hi in H. by destruct (H o).
  - rewrite Hi in Hend. apply live_state in Hl. rewrite Hl in Hend. by specialize (Hend Hj0).
  - destruct (Hst j Hgt). apply Hend. lia.
Qed.

(** The ways a probe for [key] can end. *)
Inductive probe_end (j : nat) : Prop :=
  | end_match o : (j < length slots)%nat -> live slots (pos slots key j) key o -> probe_end j
  | end_empty : (j < length slots)%nat -> state_at slots (pos slots key j) = 0 -> m !! key = None -> probe_end j
  | end_full : j = length slots -> m !! key = None -> probe_end j.

Lemma probe_ends : exists j, (j <= length slots)%nat /\ probe_end j /\
  (forall j', (j' < j)%nat -> passes slots key (pos slots key j')).
Proof using Hrep.
  destruct (probe_stops slots key (tr_size _ _ Hrep)) as (j & Hj & Hpass & Hstop).
  exists j. split_and!; auto. destruct (decide (j < length slots)%nat) as [Hlt|].
  - specialize (Hstop Hlt). destruct (pos_lookup slots key (tr_size _ _ Hrep) j) as [[k o st] E].
    rewrite (not_passes _ _ _ _ E) in Hstop. simpl in Hstop.
    destruct (decide (st = 0)) as [->|].
    + apply end_empty; [done|unfold state_at; by rewrite E|].
      apply (rep_absent j); auto. intros _. unfold state_at. by rewrite E.
    + assert (st = 1 /\ k = key) as [-> ->] by (destruct (decide (st = 1 /\ k = key)); tauto).
      by apply (end_match _ o).
  - apply end_full; [lia|]. apply (rep_absent j); auto. lia.
Qed.
End operations.

Lemma table_init_rep k : 0 <= k -> table_rep (table_init (Z.to_nat (2 ^ k))) ∅.
Proof.
  intros Hk. pose proof (Z.pow_pos_nonneg 2 k).
  assert (forall i key o, ~ live (replicate (Z.to_nat (2 ^ k)) (mkSlot 0 order_default 0)) i key o) as Hn.
  { intros i key o [Hl _]%lookup_replicate_1. done. }
  split; cbn [orders order_count table_init]; rewrite ?length_replicate.
  - exists k. split; [done|]. lia.
  - intros key o. rewrite lookup_empty. split; [done|]. intros [i Hl]. by destruct (Hn _ _ _ Hl).
  - intros ? ? ? ? ? Hl. by destruct (Hn _ _ _ Hl).
  - intros ? ? ? Hl. by destruct (Hn _ _ _ Hl).
  - done.
Qed.

Section results.
Context (t : OrderTable) (m : gmap Z OrderRef) (key : Z) (Hrep : table_rep t m).
#[local] Abbreviation slots := (orders t).

Lemma loop_split j : (j <= length slots)%nat -> length slots = (j + (length slots - j))%nat.
Proof using. lia. Qed.

Lemma find_order_rep :
  match find_order t key with
  | Some i => exists o, live slots i key o /\ m !! key = Some o
  | None => m !! key = None
  end.
Proof using Hrep.
  destruct (probe_ends t m key Hrep) as (j & Hj & Hend & Hpass).
  pose proof (tr_size _ _ Hrep) as Hsize. unfold find_order.
  rewrite (loop_split j Hj), (home_pos _ _ Hsize), find_skip by (auto; intros; apply Hpass; lia).
  simpl Nat.add. destruct Hend as [o Hlt Hl|Hlt Hst Hm|Hfull Hm].
  - replace (length slots - j)%nat with (S (length slots - j - 1)) by lia. cbn [find_loop].
    unfold live in Hl. rewrite Hl. simpl. rewrite Z.eqb_refl.
    exists o. split; [done|]. apply (tr_view _ _ Hrep). by eexists.
  - replace (length slots - j)%nat with (S (length slots - j - 1)) by lia. cbn [find_loop].
    unfold state_at in Hst. destruct (slots !! pos slots key j); [|done]. by rewrite Hst.
  - by rewrite Hfull, Nat.sub_diag.
Qed.

(** [put_order] either makes the binding, or, on a table over its load
    limit or without an empty slot left, counts a drop and changes nothing. *)
Lemma put_order_rep value :
  let '(ok, t') := put_order t key value in
  if ok then table_rep t' (<[key := value]> m) /\ dropped_order_inserts t' = dropped_order_inserts t /\
             length (orders t') = length slots
  else orders t' = slots /\ order_count t' = order_count t /\
       dropped_order_inserts t' = dropped_order_inserts t + 1 /\
       (Z.of_nat (length slots) / 2 < order_count t \/ m !! key = None).
Proof using Hrep.
  unfold put_order. destruct (_ <? order_count t) eqn:El; zbool; [split_and!; auto|].
  destruct (probe_ends t m key Hrep) as (j & Hj & Hend & Hpass).
  pose proof (tr_size _ _ Hrep) as Hsize.
  destruct (put_skip slots key Hsize value j (length slots - j) 0 None I) as (tomb & Ht & E);
    [intros; apply Hpass; lia|]. simpl Nat.add in *.
  rewrite <-(loop_split j Hj), <-(home_pos _ _ Hsize) in E. rewrite E.
  destruct Hend as [o Hlt Hl|Hlt Hst Hm|Hfull Hm].
  - replace (length slots - j)%nat with (S (length slots - j - 1)) by lia. cbn [put_loop].
    unfold live in Hl. rewrite Hl. simpl. rewrite Z.eqb_refl. simpl. rewrite Z.add_0_r, length_insert.
    split; [|done]. by eapply rep_replace.
  - replace (length slots - j)%nat with (S (length slots - j - 1)) by lia. cbn [put_loop].
    unfold state_at in Hst. destruct (slots !! pos slots key j) as [slot|] eqn:Ej;
      [|by destruct (pos_lookup slots key Hsize j); congruence].
    rewrite Hst. simpl. rewrite length_insert. split; [|done].
    destruct tomb as [i|]; simpl.
    + destruct Ht as (Hsi & jt & Hjt & Hi).
      eapply (rep_add t m key Hrep i jt); auto; [lia| |lia].
      intros j' Hj'. apply Hpass. lia.
    + eapply (rep_add t m key Hrep _ j); auto; [intros j' Hj'; by apply Hpass|].
      unfold state_at. rewrite Ej, Hst. done.
  - rewrite Hfull, Nat.sub_diag. cbn [put_loop]. split_and!; auto.
Qed.

Lemma erase_order_rep : table_rep (erase_order t key) (delete key m) /\
  length (orders (erase_order t key)) = length slots /\
  dropped_order_inserts (erase_order t key) = dropped_order_inserts t.
Proof using Hrep.
  destruct (probe_ends t m key Hrep) as (j & Hj & Hend & Hpass).
  pose proof (tr_size _ _ Hrep) as Hsize. unfold erase_order.
  pose proof (erase_skip slots key Hsize j (length slots - j) 0) as E.
  rewrite <-(loop_split j Hj), <-(home_pos _ _ Hsize) in E. rewrite E by (intros; apply Hpass; lia).
  simpl Nat.add. assert (forall slots', slots' = slots -> m !! key = None ->
    table_rep (mkTable slots' (order_count t) (dropped_order_inserts t)) (delete key m)) as Hsame.
  { intros ? -> Hm. rewrite delete_id by done. by destruct t. }
  destruct Hend as [o Hlt Hl|Hlt Hst Hm|Hfull Hm].
  - replace (length slots - j)%nat with (S (length slots - j - 1)) by lia. cbn [erase_loop].
    pose proof Hl as Hl'. unfold live in Hl'. rewrite Hl'. simpl. rewrite Z.eqb_refl. simpl.
    rewrite length_insert. split; [|done].
    assert ((0 <? order_count t) = true) as ->.
    { apply Z.ltb_lt. rewrite (tr_count _ _ Hrep).
      assert (size m <> 0%nat); [|lia]. intros Hz%map_size_empty_inv.
      assert (m !! key = Some o) as Hk by (apply (tr_view _ _ Hrep); eauto).
      by rewrite Hz, lookup_empty in Hk. }
    by apply rep_erase.
  - replace (length slots - j)%nat with (S (length slots - j - 1)) by lia. cbn [erase_loop].
    unfold state_at in Hst. destruct (slots !! pos slots key j); [rewrite Hst|]; simpl; auto.
  - rewrite Hfull, Nat.sub_diag. simpl. auto.
Qed.

Lemma order_at_rep i o : live slots i key o -> order_at t i = o.
Proof using. unfold live, order_at. by intros ->. Qed.

Lemma set_order_at_rep i o o' : live slots i key o ->
  table_rep (set_order_at t i o') (<[key := o']> m) /\
  length (orders (set_order_at t i o')) = length slots /\
  dropped_order_inserts (set_order_at t i o') = dropped_order_inserts t.
Proof using Hrep.
  intros Hl. pose proof Hl as Hl'. unfold live in Hl'. unfold set_order_at. rewrite Hl'. simpl.
  rewrite length_insert. split; [|done]. by eapply rep_replace.
Qed.
End results.

(** ** Correctness *)

(** C6. The hash table implements a finite map: lookups find exactly the bound
    keys, an insertion that reports success makes exactly that binding, an
    insertion that reports failure leaves the table alone, and an erasure
    removes exactly the key, whatever the probe sequences, collisions and
    tombstones. *)
Theorem order_table_implements_map t m key value : table_rep t m ->
  (match find_order t key with
   | Some i => m !! key = Some (order_at t i)
   | None => m !! key = None
   end) /\
  (let '(ok, t') := put_order t key value in
   if ok then table_rep t' (<[key := value]> m) else orders t' = orders t) /\
  table_rep (erase_order t key) (delete key m).
Proof.
  intros Hrep. split_and!.
  - pose proof (find_order_rep t m key Hrep) as H. destruct (find_order t key) as [i|]; [|done].
    destruct H as (o & Hl & Hm). by rewrite (order_at_rep t key i o Hl).
  - pose proof (put_order_rep t m key Hrep value) as H. destruct (put_order t key value) as [[] t'];
      [apply H|by destruct H].
  - apply (erase_order_rep t m key Hrep).
Qed.

Lemma order_table_implements_map_witness :
  let t := (put_order (table_init 4) 7 order_default).2 in
  table_rep (erase_order t 7) (delete 7 (<[7 := order_default]> ∅)).
Proof.
  cbn zeta. pose proof (order_table_implements_map (table_init 4) ∅ 7 order_default (table_init_rep 2 ltac:(lia))) as (_ & Hput & _).
  apply (order_table_implements_map _ _ 7 order_default). exact Hput.
Defined.

(** Tombstones are only reused by a probe that also meets an empty slot: once
    every slot has been used, an insertion fails although no order is live. *)
Example exhausted_table_drops :
  let use t k := erase_order (put_order t k order_default).2 k in
  let t := fold_left use [1; 2; 3; 4; 5; 6; 7; 8; 9; 10; 11; 12; 13; 14; 15; 16] (table_init 4) in
  order_count t = 0 /\ (put_order t 99 order_default).1 = false.
Proof. by vm_compute. Qed.
