(* ===== verification/Levels.v ===== *)
(** * Price levels (src/phase3/order_book_engine.cpp, [qty_at], [add_qty], [reduce_qty])

    A side of a book is a vector of (price, quantity) pairs, bids in
    descending and asks in ascending price order, searched by
    [std::lower_bound]. [level_qty] is the finite map it stands for. *)

From S2P Require Import Prelude.

(** ** The code *)

Abbreviation Level := (Z * Z)%type.

Definition level_before (descending : bool) (price : Z) (level : Level) : bool :=
  if descending then price <? level.1 else level.1 <? price.

Definition qty_at (levels : list Level) (price : Z) (descending : bool) : Z :=
  match levels !! lower_bound (level_before descending price) levels with
  | Some (p, q) => if p =? price then q else 0
  | None => 0
  end.

Definition add_qty (levels : list Level) (price qty : Z) (descending : bool) : list Level :=
  let it := lower_bound (level_before descending price) levels in
  match levels !! it with
  | Some (p, q) =>
      if p =? price then <[it := (p, q +64 qty)]> levels
      else take it levels ++ (price, qty) :: drop it levels
  | None => take it levels ++ (price, qty) :: drop it levels
  end.

Definition reduce_qty (levels : list Level) (price qty : Z) (descending : bool) : list Level :=
  let it := lower_bound (level_before descending price) levels in
  match levels !! it with
  | Some (p, q) =>
      if p =? price
      then if qty <? q then <[it := (p, q -64 qty)]> levels else delete it levels
      else levels
  | None => levels
  end.

(** ** Order and contents *)

(** [ahead desc p p']: price [p] comes before price [p'] on that side. *)
Definition ahead (descending : bool) (p p' : Z) : Prop :=
  if descending then p' < p else p < p'.

Definition levels_sorted (descending : bool) (levels : list Level) : Prop :=
  StronglySorted (fun a b : Level => ahead descending a.1 b.1) levels.

Definition level_qty (levels : list Level) : gmap Z Z := list_to_map levels.

Section levels.
Context (desc : bool).
Implicit Types (levels l k : list Level) (price : Z).

Lemma ahead_irrefl p : ~ ahead desc p p.
Proof. unfold ahead. destruct desc; lia. Qed.

Lemma ahead_trans p q r : ahead desc p q -> ahead desc q r -> ahead desc p r.
Proof. unfold ahead. destruct desc; lia. Qed.

Lemma ahead_total p q : p <> q -> ahead desc p q \/ ahead desc q p.
Proof. unfold ahead. destruct desc; lia. Qed.

Lemma level_before_ahead price x : level_before desc price x = true <-> ahead desc x.1 price.
Proof. unfold level_before, ahead. destruct desc; rewrite Z.ltb_lt; lia. Qed.

Lemma sorted_lookup levels i j x y : levels_sorted desc levels ->
  levels !! i = Some x -> levels !! j = Some y -> (i < j)%nat -> ahead desc x.1 y.1.
Proof.
  intros Hs. revert i j. induction Hs as [|z l Hs IH Hf]; intros i j Hi Hj Hlt; [done|].
  destruct j as [|j]; [lia|]. destruct i as [|i]; simpl in *.
  - injection Hi as ->. rewrite Forall_lookup in Hf. by eapply Hf.
  - apply (IH i j); [done|done|lia].
Qed.

Lemma sorted_nodup levels : levels_sorted desc levels -> NoDup (levels.*1).
Proof.
  induction 1 as [|[p q] l Hs IH Hf]; [constructor|]. rewrite fmap_cons. constructor; [|done].
  intros [[p' q'] [Hp Hin]]%list_elem_of_fmap. simpl in Hp. subst.
  rewrite Forall_forall in Hf. by destruct (ahead_irrefl p' (Hf _ Hin)).
Qed.

Lemma sorted_partitioned levels price : levels_sorted desc levels ->
  partitioned (level_before desc price) levels.
Proof.
  intros Hs i j x y Hi Hj Hij. rewrite !level_before_ahead. intros Hy.
  destruct (decide (i = j)) as [->|Hne]; [congruence|].
  apply (ahead_trans _ y.1); [|done]. apply (sorted_lookup levels i j x y Hs Hi Hj). lia.
Qed.

(** Where [lower_bound] points in a sorted side. *)
Lemma levels_split levels price : levels_sorted desc levels ->
  let it := lower_bound (level_before desc price) levels in
  exists l k, levels = l ++ k /\ length l = it /\
    Forall (fun x => ahead desc x.1 price) l /\
    Forall (fun x => x.1 = price \/ ahead desc price x.1) k.
Proof.
  intros Hs it. destruct (lower_bound_spec _ _ (sorted_partitioned levels price Hs)) as (Hle & Hlt & Hge).
  fold it in Hle, Hlt, Hge. exists (take it levels), (drop it levels).
  rewrite take_drop, length_take. split_and!; [done|lia| |].
  - apply Forall_lookup. intros i x [Hi Hl]%lookup_take_Some.
    apply level_before_ahead. by eapply Hlt.
  - apply Forall_lookup. intros i x Hi. rewrite lookup_drop in Hi.
    pose proof (Hge _ _ Hi ltac:(lia)) as Hb. destruct (decide (x.1 = price)); [by left|right].
    destruct (ahead_total x.1 price) as [H|H]; [done| |done].
    apply level_before_ahead in H. congruence.
Qed.

Lemma sorted_app l k : levels_sorted desc (l ++ k) <->
  levels_sorted desc l /\ levels_sorted desc k /\
  Forall (fun x => Forall (fun y => ahead desc x.1 y.1) k) l.
Proof. apply StronglySorted_app_iff. Qed.

Lemma not_in_ahead l price : Forall (fun x : Level => ahead desc x.1 price) l ->
  (list_to_map l : gmap Z Z) !! price = None.
Proof.
  intros Hf. apply not_elem_of_list_to_map. intros [x [-> Hx]]%list_elem_of_fmap.
  rewrite Forall_forall in Hf. by destruct (ahead_irrefl _ (Hf x Hx)).
Qed.

Lemma not_in_behind l price : Forall (fun x : Level => ahead desc price x.1) l ->
  (list_to_map l : gmap Z Z) !! price = None.
Proof.
  intros Hf. apply not_elem_of_list_to_map. intros [x [-> Hx]]%list_elem_of_fmap.
  rewrite Forall_forall in Hf. by destruct (ahead_irrefl _ (Hf x Hx)).
Qed.

(** The two ways a search for [price] can end. *)
Inductive found_at levels price : Prop :=
  | found_here l k q : levels = l ++ (price, q) :: k ->
      lower_bound (level_before desc price) levels = length l ->
      Forall (fun x => ahead desc x.1 price) l -> Forall (fun x => ahead desc price x.1) k ->
      level_qty levels !! price = Some q -> found_at levels price
  | found_gap l k : levels = l ++ k ->
      lower_bound (level_before desc price) levels = length l ->
      Forall (fun x => ahead desc x.1 price) l -> Forall (fun x => ahead desc price x.1) k ->
      level_qty levels !! price = None -> found_at levels price.

Lemma levels_find levels price : levels_sorted desc levels -> found_at levels price.
Proof.
  intros Hs. destruct (levels_split levels price Hs) as (l & k & E & Hl & Hf & Hk).
  pose proof Hs as Hs'. rewrite E in Hs'. apply sorted_app in Hs' as (_ & Hsk & _).
  destruct k as [|[p q] k].
  - eapply (found_gap _ _ l []); eauto. rewrite E, app_nil_r. by apply not_in_ahead.
  - apply Forall_cons in Hk as [Hp Hk]. simpl in Hp.
    apply StronglySorted_inv in Hsk as [Hsk Hpk]. simpl in Hpk.
    destruct Hp as [->|Hp].
    + eapply (found_here _ _ l k q); eauto. rewrite E. unfold level_qty.
      rewrite list_to_map_app, lookup_union_r by by apply not_in_ahead. simpl. apply lookup_insert_eq.
    + assert (Forall (fun x => ahead desc price x.1) ((p, q) :: k)) as Hb.
      { constructor; [done|]. eapply Forall_impl; [exact Hpk|]. intros x. by apply ahead_trans. }
      eapply (found_gap _ _ l ((p, q) :: k)); eauto. rewrite E. unfold level_qty.
      rewrite list_to_map_app, lookup_union_r by by apply not_in_ahead. by apply not_in_behind.
Qed.

(** A level between its neighbours. *)
Lemma middle_sorted l k price q : levels_sorted desc (l ++ k) ->
  Forall (fun x => ahead desc x.1 price) l -> Forall (fun x => ahead desc price x.1) k ->
  levels_sorted desc (l ++ (price, q) :: k).
Proof.
  rewrite !sorted_app. intros (Hl & Hk & Hlk) Hfl Hfk. split_and!; [done|by constructor|].
  rewrite Forall_forall in Hlk, Hfl. apply Forall_forall. intros x Hx. constructor; [by apply Hfl|].
  by apply Hlk.
Qed.

Lemma middle_map l k price q : Forall (fun x => ahead desc x.1 price) l ->
  level_qty (l ++ (price, q) :: k) = <[price := q]> (level_qty (l ++ k)).
Proof.
  intros Hf. unfold level_qty. rewrite !list_to_map_app. simpl.
  by rewrite insert_union_r by by apply not_in_ahead.
Qed.

Lemma gap_map l k price : Forall (fun x => ahead desc x.1 price) l ->
  Forall (fun x => ahead desc price x.1) k -> level_qty (l ++ k) !! price = None.
Proof.
  intros Hl Hk. unfold level_qty. rewrite list_to_map_app.
  apply lookup_union_None. split; [by apply not_in_ahead|by apply not_in_behind].
Qed.

Lemma drop_middle_sorted l k x : levels_sorted desc (l ++ x :: k) -> levels_sorted desc (l ++ k).
Proof.
  rewrite !sorted_app. intros (Hl & Hk & Hlk). apply StronglySorted_inv in Hk as [Hk _].
  split_and!; auto. eapply Forall_impl; [exact Hlk|]. intros y Hy. by inversion_clear Hy.
Qed.

Lemma gap_lookup l k price p q : Forall (fun x => ahead desc price x.1) k ->
  (l ++ k) !! length l = Some (p, q) -> p <> price.
Proof.
  rewrite lookup_app_r, Nat.sub_diag by lia. destruct k as [|y k]; [done|].
  intros [Hp _]%Forall_cons [= ->] ->. by destruct (ahead_irrefl price).
Qed.

Lemma qty_at_spec levels price : levels_sorted desc levels ->
  qty_at levels price desc = default 0 (level_qty levels !! price).
Proof.
  intros Hs. unfold qty_at. destruct (levels_find levels price Hs) as [l k q E Hi Hl Hk ->|l k E Hi Hl Hk ->];
    rewrite Hi, E; simpl.
  - rewrite list_lookup_middle by done. by rewrite Z.eqb_refl.
  - destruct ((l ++ k) !! length l) as [[p q]|] eqn:Ek; [|done].
    destruct (Z.eqb_spec p price); [|done]. by destruct (gap_lookup l k price p q Hk Ek).
Qed.

Lemma add_qty_spec levels price qty : levels_sorted desc levels ->
  levels_sorted desc (add_qty levels price qty desc) /\
  level_qty (add_qty levels price qty desc) =
    <[price := match level_qty levels !! price with Some q => q +64 qty | None => qty end]> (level_qty levels).
Proof.
  intros Hs. unfold add_qty. destruct (levels_find levels price Hs) as [l k q E Hi Hl Hk ->|l k E Hi Hl Hk ->].
  - rewrite Hi, E. rewrite list_lookup_middle by done. rewrite Z.eqb_refl.
    rewrite insert_app_r_alt, Nat.sub_diag by lia. simpl. rewrite !middle_map by done.
    split; [|by rewrite insert_insert_eq].
    apply middle_sorted; auto. apply (drop_middle_sorted l k (price, q)). by rewrite <-E.
  - rewrite Hi, E, take_app_length, drop_app_length.
    pose proof (gap_lookup l k price) as Hgap.
    assert (levels_sorted desc (l ++ (price, qty) :: k) /\
      level_qty (l ++ (price, qty) :: k) = <[price := qty]> (level_qty (l ++ k))) as Hins.
    { rewrite middle_map by done. split; [|done]. apply middle_sorted; auto. by rewrite <-E. }
    destruct ((l ++ k) !! length l) as [[p q]|]; [|done].
    destruct (Z.eqb_spec p price); [|done]. by destruct (Hgap p q Hk).
Qed.

Lemma reduce_qty_spec levels price qty : levels_sorted desc levels ->
  levels_sorted desc (reduce_qty levels price qty desc) /\
  level_qty (reduce_qty levels price qty desc) =
    match level_qty levels !! price with
    | None => level_qty levels
    | Some q => if qty <? q then <[price := q -64 qty]> (level_qty levels)
                else delete price (level_qty levels)
    end.
Proof.
  intros Hs. unfold reduce_qty. destruct (levels_find levels price Hs) as [l k q E Hi Hl Hk ->|l k E Hi Hl Hk ->].
  - rewrite Hi, E. rewrite list_lookup_middle by done. rewrite Z.eqb_refl.
    assert (levels_sorted desc (l ++ k)) as Hs' by (apply (drop_middle_sorted l k (price, q)); by rewrite <-E).
    destruct (qty <? q).
    + rewrite insert_app_r_alt, Nat.sub_diag by lia. simpl. rewrite !middle_map by done.
      split; [by apply middle_sorted|by rewrite insert_insert_eq].
    + rewrite delete_middle. split; [done|]. rewrite middle_map by done.
      by rewrite delete_insert_id by by apply gap_map.
  - rewrite Hi, E. rewrite lookup_app_r, Nat.sub_diag by lia.
    destruct k as [|[p q] k]; simpl; [by rewrite <-E|].
    apply Forall_cons in Hk as [Hp _]. simpl in Hp. destruct (Z.eqb_spec p price) as [->|]; [|by rewrite <-E].
    by destruct (ahead_irrefl price).
Qed.

(** The front of a side is its best price. *)
Lemma front_best p q levels p' : levels_sorted desc ((p, q) :: levels) ->
  is_Some (level_qty ((p, q) :: levels) !! p') -> p' = p \/ ahead desc p p'.
Proof.
  intros Hs [q' Hq]. apply elem_of_list_to_map_2 in Hq as [[= -> ->]|Hin]%elem_of_cons; [by left|].
  right. apply StronglySorted_inv in Hs as [_ Hf]. rewrite Forall_forall in Hf. apply (Hf _ Hin).
Qed.
End levels.
