(* ===== verification/OrderBook.v ===== *)
(** * Order book engine (src/phase3/order_book_engine.cpp, src/phase3/book_snapshot.cpp)

    One book of price levels per venue and symbol, a table of live orders, and
    a one-entry cache per venue of the book last used. [on_event] applies a
    [BookEvent]; [BookReconciler] replays the events consumed into a second
    engine and compares snapshots.

    The books are kept sorted whatever the input, so the top of book is the
    best price. For a well-behaved feed every level holds exactly the sum of
    the live orders resting at that price. *)

From S2P Require Import Prelude Types OrderTable Levels.

(** ** Data *)

Record VenueBook := mkBook { bids : list Level; asks : list Level }.
Definition book_empty : VenueBook := mkBook [] [].

Record TopOfBook := mkTop {
  has_bid : bool; has_ask : bool;
  bid_price : Z; bid_qty : Z; ask_price : Z; ask_qty : Z;
}.
Definition top_default : TopOfBook := mkTop false false 0 0 0 0.

Record ApplyResult := mkApply {
  changed_top : bool;
  order_table_saturated : bool;
  queue_ahead_before_add : Z;
  top_after : TopOfBook;
}.

(** [cached_books] holds pointers into [books]; an [unordered_map] never moves
    its nodes, so a pointer is the key of the node. *)
Record OrderBookEngine := mkEngine {
  books : PerVenue (gmap Z VenueBook);
  table : OrderTable;
  cached_symbols : PerVenue Z;
  cached_books : PerVenue (option Z);
  cached_valid : PerVenue bool;
}.

Definition engine_init (slots : nat) : OrderBookEngine :=
  mkEngine (pv_const ∅) (table_init slots) (pv_const 0) (pv_const None) (pv_const false).

(** ** Reading a book *)

(** [static_cast<double>] of a 64-bit quantity: exact below 2^53, above it
    rounded to 53 significant bits, ties to even. *)
Definition double_of_u64 (x : Z) : Z :=
  let e := Z.log2 x - 52 in
  if e <=? 0 then x else
  let q := Z.shiftr x e in
  let r := x - Z.shiftl q e in
  let half := Z.shiftl 1 (e - 1) in
  let q := if (half <? r) || ((r =? half) && Z.odd q) then q + 1 else q in
  Z.shiftl q e.

Definition top_of (book : VenueBook) : TopOfBook :=
  let '(hb, bp, bq) := match bids book with (p, q) :: _ => (true, p, u32 q) | [] => (false, 0, 0) end in
  let '(ha, ap, aq) := match asks book with (p, q) :: _ => (true, p, u32 q) | [] => (false, 0, 0) end in
  mkTop hb ha bp bq ap aq.

Definition find_book (e : OrderBookEngine) (v : Venue) (sym : Z) : option VenueBook :=
  (books e).[v] !! sym.

Definition top_of_book (e : OrderBookEngine) (v : Venue) (sym : Z) : TopOfBook :=
  match find_book e v sym with None => top_default | Some b => top_of b end.

Record BookSnapshot := mkSnapshot { snap_bids : list Level; snap_asks : list Level }.

Definition engine_snapshot (e : OrderBookEngine) (v : Venue) (sym : Z) : BookSnapshot :=
  match find_book e v sym with
  | None => mkSnapshot [] []
  | Some b => mkSnapshot (bids b) (asks b)
  end.

(** ** Writing a book *)

(** The pointer to the book of a symbol, created when missing. *)
Definition book_for (e : OrderBookEngine) (v : Venue) (sym : Z) : Z * OrderBookEngine :=
  match (cached_valid e).[v] && ((cached_symbols e).[v] =? sym), (cached_books e).[v] with
  | true, Some ptr => (ptr, e)
  | _, _ =>
      let by_symbol := (books e).[v] in
      let by_symbol := match by_symbol !! sym with
                       | Some _ => by_symbol
                       | None => <[sym := book_empty]> by_symbol
                       end in
      (sym, mkEngine ((books e).[v := by_symbol]) (table e)
                     ((cached_symbols e).[v := sym]) ((cached_books e).[v := Some sym])
                     ((cached_valid e).[v := true]))
  end.

Definition book_at (e : OrderBookEngine) (v : Venue) (ptr : Z) : VenueBook :=
  default book_empty ((books e).[v] !! ptr).

Definition store_book (e : OrderBookEngine) (v : Venue) (ptr : Z) (b : VenueBook)
    (t : OrderTable) : OrderBookEngine :=
  mkEngine ((books e).[v := <[ptr := b]> (books e).[v]]) t
           (cached_symbols e) (cached_books e) (cached_valid e).

Definition add_side (b : VenueBook) (s : Side) (price qty : Z) : VenueBook :=
  match s with
  | Buy => mkBook (add_qty (bids b) price qty true) (asks b)
  | Sell => mkBook (bids b) (add_qty (asks b) price qty false)
  | SideUnknown => b
  end.

Definition reduce_side (b : VenueBook) (s : Side) (price qty : Z) : VenueBook :=
  match s with
  | Buy => mkBook (reduce_qty (bids b) price qty true) (asks b)
  | Sell => mkBook (bids b) (reduce_qty (asks b) price qty false)
  | SideUnknown => b
  end.

Definition reduce_by (ev : BookEvent) (o : OrderRef) : Z :=
  if (qty ev =? 0) || (o_qty o <? qty ev) then o_qty o else qty ev.

(** The three branches of [on_event], over the book and the order table; the
    last two components are [order_table_saturated] and
    [queue_ahead_before_add]. *)
Definition on_add (b : VenueBook) (t : OrderTable) (ev : BookEvent)
    : VenueBook * OrderTable * bool * Z :=
  let q := if decide (side ev = Buy) then qty_at (bids b) (price ev) true
           else qty_at (asks b) (price ev) false in
  let ahead := double_of_u64 q in
  let b := add_side b (side ev) (price ev) (qty ev) in
  if order_id ev =? 0 then (b, t, false, ahead) else
  let '(ok, t) := put_order t (order_key (venue ev) (order_id ev))
    (mkOrder (venue ev) (as_u64 (symbol ev)) (side ev) (price ev) (qty ev) ahead) in
  (b, t, negb ok, ahead).

Definition on_reduce (b : VenueBook) (t : OrderTable) (ev : BookEvent)
    : VenueBook * OrderTable * bool * Z :=
  let key := order_key (venue ev) (order_id ev) in
  match find_order t key with
  | None => (b, t, false, 0)
  | Some i =>
      let o := order_at t i in
      let dec := reduce_by ev o in
      let b := reduce_side b (o_side o) (o_price o) dec in
      let t := if (o_qty o <=? dec) || bool_decide (type ev = Delete)
               then erase_order t key
               else set_order_at t i (mkOrder (o_venue o) (o_symbol o) (o_side o) (o_price o)
                                              (o_qty o -32 dec) (o_queue_ahead o)) in
      (b, t, false, 0)
  end.

Definition on_replace (b : VenueBook) (t : OrderTable) (ev : BookEvent)
    : VenueBook * OrderTable * bool * Z :=
  let old_key := order_key (venue ev) (reference_order_id ev) in
  let '(b, t) :=
    match find_order t old_key with
    | None => (b, t)
    | Some i => let o := order_at t i in
                (reduce_side b (o_side o) (o_price o) (o_qty o), erase_order t old_key)
    end in
  let b := add_side b (side ev) (price ev) (qty ev) in
  if order_id ev =? 0 then (b, t, false, 0) else
  let '(ok, t) := put_order t (order_key (venue ev) (order_id ev))
    (mkOrder (venue ev) (as_u64 (symbol ev)) (side ev) (price ev) (qty ev) 0) in
  (b, t, negb ok, 0).

Definition on_type (b : VenueBook) (t : OrderTable) (ev : BookEvent)
    : VenueBook * OrderTable * bool * Z :=
  match type ev with
  | Add | AddMpid => on_add b t ev
  | Execute | ExecutePrice | Cancel | Delete => on_reduce b t ev
  | Replace => on_replace b t ev
  | _ => (b, t, false, 0)
  end.

Definition top_changed (before after : TopOfBook) : bool :=
  negb (eqb (has_bid before) (has_bid after)) || negb (eqb (has_ask before) (has_ask after)) ||
  negb (bid_price before =? bid_price after) || negb (bid_qty before =? bid_qty after) ||
  negb (ask_price before =? ask_price after) || negb (ask_qty before =? ask_qty after).

Definition book_on_event (e : OrderBookEngine) (ev : BookEvent) : OrderBookEngine * ApplyResult :=
  let '(ptr, e) := book_for e (venue ev) (as_u64 (symbol ev)) in
  let book := book_at e (venue ev) ptr in
  let before := top_of book in
  let '(book, t, saturated, ahead) := on_type book (table e) ev in
  let e := store_book e (venue ev) ptr book t in
  let after := top_of book in
  (e, mkApply (top_changed before after) saturated ahead after).

Definition book_run (e : OrderBookEngine) (evs : list BookEvent) : OrderBookEngine :=
  fold_left (fun e ev => (book_on_event e ev).1) evs e.

(** ** Reconciliation *)

Record BookReconcileStats := mkReconcile {
  events_processed : Z;
  snapshots_checked : Z;
  divergences : Z;
}.

(** The touched books are an unordered set; its elements are visited in the
    order [elements] lists them. *)
Record BookReconciler := mkReconciler {
  snapshot_interval : Z;
  live_engine : OrderBookEngine;
  consumed : list BookEvent;
  touched : gset (Venue * Z);
  rec_stats : BookReconcileStats;
}.

Definition reconciler_init (slots : nat) (interval : Z) : BookReconciler :=
  mkReconciler (if interval =? 0 then 1 else interval) (engine_init slots) [] ∅ (mkReconcile 0 0 0).

Fixpoint byte_equal_levels (a b : list Level) : bool :=
  match a, b with
  | [], [] => true
  | (p, q) :: a, (p', q') :: b => (p =? p') && (q =? q') && byte_equal_levels a b
  | _, _ => false
  end.

Definition byte_equal (a b : BookSnapshot) : bool :=
  byte_equal_levels (snap_bids a) (snap_bids b) && byte_equal_levels (snap_asks a) (snap_asks b).

Definition check_key (live rebuilt : OrderBookEngine) (s : BookReconcileStats) (key : Venue * Z)
    : BookReconcileStats :=
  let same := byte_equal (engine_snapshot live key.1 key.2) (engine_snapshot rebuilt key.1 key.2) in
  mkReconcile (events_processed s) (snapshots_checked s + 1)
              (if same then divergences s else divergences s + 1).

Definition check_snapshot (slots : nat) (r : BookReconciler) : BookReconciler :=
  let rebuilt := book_run (engine_init slots) (consumed r) in
  mkReconciler (snapshot_interval r) (live_engine r) (consumed r) (touched r)
    (fold_left (check_key (live_engine r) rebuilt) (elements (touched r)) (rec_stats r)).

Definition reconciler_on_event (slots : nat) (r : BookReconciler) (ev : BookEvent)
    : BookReconciler :=
  let s := rec_stats r in
  let r := mkReconciler (snapshot_interval r) (book_on_event (live_engine r) ev).1
             (consumed r ++ [ev]) ({[(venue ev, as_u64 (symbol ev))]} ∪ touched r)
             (mkReconcile (events_processed s + 1) (snapshots_checked s) (divergences s)) in
  if events_processed (rec_stats r) mod snapshot_interval r =? 0 then check_snapshot slots r else r.

Definition reconciler_run (slots : nat) (r : BookReconciler) (evs : list BookEvent) : BookReconciler :=
  fold_left (reconciler_on_event slots) evs r.

Lemma byte_equal_levels_refl l : byte_equal_levels l l = true.
Proof. induction l as [|[p q] l IH]; simpl; [done|]. by rewrite !Z.eqb_refl. Qed.


(** Live and rebuilt engine never disagree. *)
Lemma fold_check_key e keys : forall s,
  divergences (fold_left (check_key e e) keys s) = divergences s.
Proof.
  induction keys as [|k keys IH]; intros s; [done|]. cbn [fold_left]. rewrite IH.
  unfold check_key, byte_equal. by rewrite !byte_equal_levels_refl.
Qed.

Record reconciler_ok (slots : nat) (r : BookReconciler) : Prop := {
  ro_live : live_engine r = book_run (engine_init slots) (consumed r);
  ro_div : divergences (rec_stats r) = 0;
}.

Lemma reconciler_step_ok slots r ev : reconciler_ok slots r ->
  reconciler_ok slots (reconciler_on_event slots r ev).
Proof.
  intros [Hl Hd]. unfold reconciler_on_event, check_snapshot.
  assert ((book_on_event (live_engine r) ev).1 = book_run (engine_init slots) (consumed r ++ [ev])) as E.
  { unfold book_run. rewrite fold_left_app. simpl. by rewrite Hl. }
  destruct (_ =? 0); split; cbn [live_engine consumed rec_stats snapshot_interval touched]; auto.
  rewrite <-E, fold_check_key. done.
Qed.

(** Reconciliation never reports a divergence: rebuilding a book from the
    consumed events gives the live book, byte for byte, at every snapshot. *)
Theorem reconciler_never_diverges slots interval evs :
  divergences (rec_stats (reconciler_run slots (reconciler_init slots interval) evs)) = 0.
Proof.
  assert (forall r, reconciler_ok slots r -> reconciler_ok slots (reconciler_run slots r evs)) as H.
  { unfold reconciler_run. induction evs as [|ev evs IH]; intros r Hr; [done|]. cbn [fold_left].
    apply IH, reconciler_step_ok, Hr. }
  apply (ro_div slots). apply H. by split.
Qed.

(** ** Sorted books *)

Record book_sorted (b : VenueBook) : Prop := {
  bs_bids : levels_sorted true (bids b);
  bs_asks : levels_sorted false (asks b);
}.

Lemma add_side_sorted b s p q : book_sorted b -> book_sorted (add_side b s p q).
Proof. intros [Hb Ha]. destruct s; [split; [by apply add_qty_spec|done]|split; [done|by apply add_qty_spec]|done]. Qed.

Lemma reduce_side_sorted b s p q : book_sorted b -> book_sorted (reduce_side b s p q).
Proof. intros [Hb Ha]. destruct s; [split; [by apply reduce_qty_spec|done]|split; [done|by apply reduce_qty_spec]|done]. Qed.

Lemma on_type_sorted b t ev : book_sorted b ->
  let '(b', _, _, _) := on_type b t ev in book_sorted b'.
Proof.
  intros Hb. unfold on_type, on_add, on_reduce, on_replace.
  destruct (type ev); try done; repeat case_match; simplify_eq;
    auto using add_side_sorted, reduce_side_sorted.
Qed.

(** Books are sorted; a valid cache entry points at the book of its symbol. *)
Record engine_ok (e : OrderBookEngine) : Prop := {
  en_sorted v sym b : (books e).[v] !! sym = Some b -> book_sorted b;
  en_cache v ptr : (cached_valid e).[v] = true -> (cached_books e).[v] = Some ptr ->
    ptr = (cached_symbols e).[v] /\ is_Some ((books e).[v] !! ptr);
}.

Lemma engine_init_ok slots : engine_ok (engine_init slots).
Proof.
  split; simpl; intros v; rewrite ?pv_get_const; [|done].
  intros sym b. by rewrite lookup_empty.
Qed.

(** With a sound cache, [book_for] returns the book of the symbol asked for,
    and changes no book's contents. *)
Lemma book_for_spec e v sym : engine_ok e ->
  let '(ptr, e') := book_for e v sym in
  ptr = sym /\ engine_ok e' /\ table e' = table e /\ is_Some ((books e').[v] !! sym) /\
  forall w s, book_at e' w s = book_at e w s.
Proof.
  intros Hok. pose proof Hok as [Hs Hc]. unfold book_for.
  assert (let e' := mkEngine ((books e).[v := match (books e).[v] !! sym with
      | Some _ => (books e).[v] | None => <[sym := book_empty]> (books e).[v] end]) (table e)
      ((cached_symbols e).[v := sym]) ((cached_books e).[v := Some sym]) ((cached_valid e).[v := true]) in
    sym = sym /\ engine_ok e' /\ table e' = table e /\ is_Some ((books e').[v] !! sym) /\
    forall w s, book_at e' w s = book_at e w s) as Hmiss.
  { cbn zeta. split; [done|].
    assert (forall w s, (books e).[v := match (books e).[v] !! sym with
      | Some _ => (books e).[v] | None => <[sym := book_empty]> (books e).[v] end].[w] !! s =
      if decide (w = v /\ s = sym /\ (books e).[v] !! sym = None) then Some book_empty
      else (books e).[w] !! s) as Hl.
    { intros w s. rewrite pv_get_set_dec. destruct (decide (v = w)) as [<-|Hne].
      - destruct ((books e).[v] !! sym) as [b|] eqn:E; [rewrite decide_False by (intros (? & ? & ?); congruence); done|].
        destruct (decide (s = sym)) as [->|].
        + by rewrite lookup_insert_eq, decide_True.
        + rewrite lookup_insert_ne by done. by rewrite decide_False by (intros (? & ? & ?); congruence).
      - by rewrite decide_False by (intros (? & ? & ?); congruence). }
    split_and!; [|done| |].
    - split; cbn [books cached_valid cached_books cached_symbols].
      + intros w s b. rewrite Hl. case_decide; [intros [= <-]; split; constructor|apply Hs].
      + intros w ptr. rewrite !pv_get_set_dec. case_decide as Hw.
        * intros _ [= <-]. subst w. split; [done|].
          destruct ((books e).[v] !! sym) as [b|] eqn:E; rewrite ?E, ?lookup_insert_eq; by eexists.
        * apply Hc.
    - cbn [books]. rewrite Hl. case_decide as Hd; [by eexists|].
      destruct ((books e).[v] !! sym) eqn:E; [by eexists|]. destruct Hd. done.
    - intros w s. unfold book_at. cbn [books]. rewrite Hl. case_decide as Hd; [|done].
      destruct Hd as (-> & -> & ->). done. }
  destruct ((cached_valid e).[v] && _) eqn:Ev; [|exact Hmiss].
  destruct ((cached_books e).[v]) as [ptr|] eqn:Ep; [|exact Hmiss].
  apply andb_true_iff in Ev as [Ev Es]. destruct (Hc v ptr Ev Ep) as [-> Hptr]. zbool. subst. split_and!; auto.
Qed.

Lemma book_at_store e v ptr b t w s :
  book_at (store_book e v ptr b t) w s = if decide (w = v /\ s = ptr) then b else book_at e w s.
Proof.
  unfold book_at, store_book. cbn [books]. rewrite pv_get_set_dec.
  destruct (decide (v = w)) as [<-|Hne]; [|by rewrite decide_False by (intros [? ?]; congruence)].
  destruct (decide (s = ptr)) as [->|Hs].
  - by rewrite lookup_insert_eq, decide_True.
  - by rewrite lookup_insert_ne, decide_False by (done || (intros [? ?]; congruence)).
Qed.

(** One event, seen from the books: only the book of the event's venue and
    symbol changes, by [on_type]. *)
Lemma book_on_event_spec e ev : engine_ok e ->
  let sym := as_u64 (symbol ev) in
  let '(b', t', saturated, ahead) := on_type (book_at e (venue ev) sym) (table e) ev in
  let '(e', r) := book_on_event e ev in
  engine_ok e' /\ table e' = t' /\ order_table_saturated r = saturated /\
  queue_ahead_before_add r = ahead /\ top_after r = top_of b' /\
  (forall w s, book_at e' w s = if decide (w = venue ev /\ s = sym) then b' else book_at e w s).
Proof.
  intros Hok. cbn zeta. pose proof (book_for_spec e (venue ev) (as_u64 (symbol ev)) Hok) as Hb.
  unfold book_on_event. destruct (book_for e _ _) as [ptr e1].
  destruct Hb as (-> & Hok1 & Ht & Hsome & Hat). rewrite Hat, Ht.
  assert (book_sorted (book_at e (venue ev) (as_u64 (symbol ev)))) as Hs.
  { unfold book_at. destruct ((books e).[_] !! _) as [b|] eqn:E; [exact (en_sorted e Hok _ _ _ E)|split; constructor]. }
  pose proof (on_type_sorted _ (table e) ev Hs) as Hs'.
  destruct (on_type _ _ _) as [[[b' t'] sat] ahead]. split_and!; auto.
  - destruct Hok1 as [Hso Hca]. split; cbn [books cached_valid cached_books cached_symbols store_book].
    + intros w s b. rewrite pv_get_set_dec. case_decide; subst; [|apply Hso].
      rewrite lookup_insert_Some. intros [[_ <-]|[_ H]]; [done|by eapply Hso].
    + intros w ptr Hv Hp. destruct (Hca w ptr Hv Hp) as [-> Hptr]. split; [done|].
      rewrite pv_get_set_dec. case_decide; subst; [|done]. rewrite lookup_insert_is_Some.
      destruct (decide (as_u64 (symbol ev) = (cached_symbols e1).[venue ev])); tauto.
  - intros w s. by rewrite book_at_store, Hat.
Qed.

Lemma book_on_event_ok e ev : engine_ok e -> engine_ok (book_on_event e ev).1.
Proof.
  intros Hok. pose proof (book_on_event_spec e ev Hok) as H. cbn zeta in H.
  destruct (on_type _ _ _) as [[[b' t'] sat] ahead], (book_on_event e ev). apply H.
Qed.

Lemma book_run_ok e evs : engine_ok e -> engine_ok (book_run e evs).
Proof.
  revert e. induction evs as [|ev evs IH]; intros e Hok; [done|]. cbn [book_run fold_left].
  apply IH, book_on_event_ok, Hok.
Qed.

(** After any event sequence whatever, the reported top of book is the best
    price: no level of the snapshot bids more or asks less, and a side is
    reported empty exactly when it has no level. *)
Theorem top_of_book_is_best slots evs v sym :
  let e := book_run (engine_init slots) evs in
  let top := top_of_book e v sym in
  let snap := engine_snapshot e v sym in
  Forall (fun l => l.1 <= bid_price top) (snap_bids snap) /\
  Forall (fun l => ask_price top <= l.1) (snap_asks snap) /\
  (has_bid top = false <-> snap_bids snap = []) /\ (has_ask top = false <-> snap_asks snap = []) /\
  NoDup (snap_bids snap).*1 /\ NoDup (snap_asks snap).*1.
Proof.
  intros e. pose proof (en_sorted _ (book_run_ok _ evs (engine_init_ok slots)) v sym) as Hs. fold e in Hs.
  unfold top_of_book, engine_snapshot, find_book. cbn zeta.
  destruct ((books e).[v] !! sym) as [[bs asks]|]; [|simpl; split_and!; constructor; done || constructor].
  destruct (Hs _ eq_refl) as [Hb Ha]. simpl in Hb, Ha.
  pose proof (sorted_nodup _ _ Hb). pose proof (sorted_nodup _ _ Ha).
  unfold top_of. cbn [bids snap_bids snap_asks OrderBook.asks].
  destruct bs as [|[p q] bs], asks as [|[p' q'] asks]; simpl; split_and!; auto; try done;
    try (apply StronglySorted_inv in Hb as [_ Hb]; constructor; [simpl; lia|];
         eapply Forall_impl; [exact Hb|]; simpl; unfold ahead; lia);
    try (apply StronglySorted_inv in Ha as [_ Ha]; constructor; [simpl; lia|];
         eapply Forall_impl; [exact Ha|]; simpl; unfold ahead; lia).
Qed.
