(* ===== verification/BookTotals.v ===== *)
(** * Levels are sums of live orders

    The specification of the order book engine as a market feed uses it: the
    live orders form a finite map, and the quantity shown at a price is the
    sum of the live orders resting there. [book_levels_are_totals] proves that
    [book_on_event] implements it for every feed that follows the protocol
    ([disciplined]); [foreign_symbol_leaks] shows what happens on one that
    sends reductions without the order's symbol. *)

From S2P Require Import Prelude Types OrderTable Levels OrderBook.

(** ** Specification *)

(** Where an order rests. *)
Record Place := mkPlace { pl_venue : Venue; pl_symbol : Z; pl_side : Side; pl_price : Z }.
#[export] Instance Place_eq_dec : EqDecision Place.
Proof. solve_decision. Defined.

Definition order_place (o : OrderRef) : Place :=
  mkPlace (o_venue o) (o_symbol o) (o_side o) (o_price o).

Definition contrib (o : OrderRef) (pl : Place) : Z :=
  if decide (order_place o = pl) then o_qty o else 0.

(** The quantity resting at a place. *)
Definition total (m : gmap Z OrderRef) (pl : Place) : Z :=
  map_fold (fun _ o acc => contrib o pl + acc) 0 m.

(** A level with nothing resting is absent. *)
Definition level_of (t : Z) : option Z := if decide (t = 0) then None else Some t.

Definition order_of (ev : BookEvent) (ahead : Z) : OrderRef :=
  mkOrder (venue ev) (as_u64 (symbol ev)) (side ev) (price ev) (qty ev) ahead.

Definition event_key (ev : BookEvent) : Z := order_key (venue ev) (order_id ev).
Definition event_old_key (ev : BookEvent) : Z := order_key (venue ev) (reference_order_id ev).

(** What an event does to the live orders; [ahead] is the recorded queue
    position of a new order. *)
Definition spec_orders (m : gmap Z OrderRef) (ev : BookEvent) (ahead : Z) : gmap Z OrderRef :=
  match type ev with
  | Add | AddMpid => <[event_key ev := order_of ev ahead]> m
  | Execute | ExecutePrice | Cancel | Delete =>
      match m !! event_key ev with
      | None => m
      | Some o =>
          let dec := reduce_by ev o in
          if (o_qty o <=? dec) || bool_decide (type ev = Delete) then delete (event_key ev) m
          else <[event_key ev := mkOrder (o_venue o) (o_symbol o) (o_side o) (o_price o)
                                   (o_qty o - dec) (o_queue_ahead o)]> m
      end
  | Replace => <[event_key ev := order_of ev 0]> (delete (event_old_key ev) m)
  | _ => m
  end.

(** The event names the book its order rests in. *)
Definition same_book (o : OrderRef) (ev : BookEvent) : Prop :=
  o_venue o = venue ev /\ o_symbol o = as_u64 (symbol ev).

Definition new_order_ok (m : gmap Z OrderRef) (ev : BookEvent) : Prop :=
  order_id ev <> 0 /\ m !! event_key ev = None /\ 0 < qty ev < 2 ^ 32 /\ side ev <> SideUnknown.

Definition if_live (m : gmap Z OrderRef) (key : Z) (P : OrderRef -> Prop) : Prop :=
  match m !! key with Some o => P o | None => True end.

(** A feed that follows the protocol, given the orders live before the event. *)
Definition disciplined (m : gmap Z OrderRef) (ev : BookEvent) : Prop :=
  match type ev with
  | Add | AddMpid => new_order_ok m ev
  | Execute | ExecutePrice | Cancel | Delete =>
      0 <= qty ev /\ if_live m (event_key ev) (fun o => same_book o ev /\
        (type ev = Delete -> qty ev = 0 \/ o_qty o <= qty ev))
  | Replace =>
      new_order_ok (delete (event_old_key ev) m) ev /\
      if_live m (event_old_key ev) (fun o => same_book o ev)
  | _ => True
  end.

#[export] Instance new_order_ok_dec m ev : Decision (new_order_ok m ev).
Proof. unfold new_order_ok. apply _. Defined.
#[export] Instance if_live_dec m key P `{forall o, Decision (P o)} : Decision (if_live m key P).
Proof. unfold if_live. destruct (m !! key); apply _. Defined.
#[export] Instance disciplined_dec m ev : Decision (disciplined m ev).
Proof. unfold disciplined, same_book. destruct (type ev); apply _. Defined.

(** ** Totals *)

Definition order_valid (o : OrderRef) : Prop := 0 < o_qty o < 2 ^ 32 /\ o_side o <> SideUnknown.

Lemma contrib_range o pl : order_valid o -> 0 <= contrib o pl <= o_qty o.
Proof. intros [? _]. unfold contrib. case_decide; lia. Qed.

Section totals.
Implicit Types (m : gmap Z OrderRef) (pl : Place).

Lemma total_empty pl : total ∅ pl = 0.
Proof. apply map_fold_empty. Qed.

Lemma total_insert m k o pl : m !! k = None ->
  total (<[k := o]> m) pl = contrib o pl + total m pl.
Proof. intros Hk. unfold total. rewrite map_fold_insert_L; [done|intros; lia|done]. Qed.

Lemma total_delete m k o pl : m !! k = Some o ->
  total (delete k m) pl = total m pl - contrib o pl.
Proof.
  intros Hk. assert (total (<[k := o]> (delete k m)) pl = contrib o pl + total (delete k m) pl) as H
    by (apply total_insert, lookup_delete_eq).
  rewrite insert_delete_id in H by done. lia.
Qed.

Lemma total_replace m k o o' pl : m !! k = Some o ->
  total (<[k := o']> m) pl = total m pl - contrib o pl + contrib o' pl.
Proof.
  intros Hk. rewrite <-insert_delete_eq, total_insert, (total_delete m k o) by (done || apply lookup_delete_eq).
  lia.
Qed.

Lemma total_bound m pl : map_Forall (fun _ o => order_valid o) m ->
  0 <= total m pl <= Z.of_nat (size m) * 2 ^ 32.
Proof.
  induction m as [|k o m Hk IH] using map_ind; intros Hv.
  - rewrite total_empty, map_size_empty. lia.
  - apply map_Forall_insert in Hv as [Ho Hv]; [|done]. specialize (IH Hv).
    rewrite total_insert, map_size_insert_None by done. pose proof (contrib_range o pl Ho).
    destruct Ho. lia.
Qed.

Lemma contrib_le_total m k o pl : map_Forall (fun _ o => order_valid o) m -> m !! k = Some o ->
  contrib o pl <= total m pl.
Proof.
  intros Hv Hk. pose proof (total_delete m k o pl Hk).
  pose proof (total_bound (delete k m) pl (map_Forall_delete _ _ _ Hv)). lia.
Qed.
End totals.

(** ** Levels against totals *)

Definition book_qty (b : VenueBook) (s : Side) (p : Z) : option Z :=
  match s with
  | Buy => level_qty (bids b) !! p
  | Sell => level_qty (asks b) !! p
  | SideUnknown => None
  end.

Ltac side_case :=
  first [done|rewrite decide_True by (split; congruence)
        |rewrite decide_False by (intros [? ?]; congruence)]; simplify_eq.

Lemma add_side_qty b s p q s' p' : book_sorted b -> s <> SideUnknown ->
  book_qty (add_side b s p q) s' p' =
    if decide (s' = s /\ p' = p)
    then Some (match book_qty b s p with Some x => x +64 q | None => q end)
    else book_qty b s' p'.
Proof.
  intros [Hb Ha] Hs. destruct s; [| |done].
  - destruct (add_qty_spec true (bids b) p q Hb) as [_ E]. destruct s'; simpl;
      [rewrite E, lookup_insert; destruct (decide (p = p'))|..]; by side_case.
  - destruct (add_qty_spec false (asks b) p q Ha) as [_ E]. destruct s'; simpl;
      [|rewrite E, lookup_insert; destruct (decide (p = p'))|]; by side_case.
Qed.

Lemma reduce_side_qty b s p q s' p' : book_sorted b -> s <> SideUnknown ->
  book_qty (reduce_side b s p q) s' p' =
    if decide (s' = s /\ p' = p)
    then match book_qty b s p with
         | Some x => if q <? x then Some (x -64 q) else None
         | None => None
         end
    else book_qty b s' p'.
Proof.
  intros [Hb Ha] Hs.
  assert (forall l l' : gmap Z Z, l' = match l !! p with
    | None => l | Some x => if q <? x then <[p := x -64 q]> l else delete p l end ->
    l' !! p' = if decide (p' = p) then match l !! p with
      | Some x => if q <? x then Some (x -64 q) else None | None => None end else l !! p') as Hmap.
  { intros l l' ->. destruct (decide (p' = p)) as [->|Hne].
    - destruct (l !! p) eqn:E; [|done]. destruct (q <? z); [apply lookup_insert_eq|apply lookup_delete_eq].
    - destruct (l !! p); [|done]. destruct (q <? z); [by rewrite lookup_insert_ne|by rewrite lookup_delete_ne]. }
  destruct s; [| |done].
  - destruct (reduce_qty_spec true (bids b) p q Hb) as [_ E]. apply Hmap in E.
    destruct s'; simpl; [rewrite E; destruct (decide (p' = p))|..]; by side_case.
  - destruct (reduce_qty_spec false (asks b) p q Ha) as [_ E]. apply Hmap in E.
    destruct s'; simpl; [|rewrite E; destruct (decide (p' = p))|]; by side_case.
Qed.

(** The levels of book [(v, sym)] show the totals of [m]. *)
Definition book_shows (b : VenueBook) (m : gmap Z OrderRef) (v : Venue) (sym : Z) : Prop :=
  forall s p, s <> SideUnknown -> book_qty b s p = level_of (total m (mkPlace v sym s p)).

(** [m'] differs from [m] by [d] at one place. *)
Definition shifted (m m' : gmap Z OrderRef) (pl : Place) (d : Z) : Prop :=
  forall pl', total m' pl' = total m pl' + (if decide (pl' = pl) then d else 0).

Lemma add_shows b m m' v sym s p q : book_sorted b -> s <> SideUnknown ->
  book_shows b m v sym -> shifted m m' (mkPlace v sym s p) q ->
  0 < q -> 0 <= total m (mkPlace v sym s p) -> total m (mkPlace v sym s p) + q < 2 ^ 64 ->
  book_shows (add_side b s p q) m' v sym.
Proof.
  intros Hb Hs Hsh Hm Hq H0 Hmax s' p' Hs'. rewrite add_side_qty, (Hm (mkPlace v sym s' p')) by done.
  destruct (decide (s' = s /\ p' = p)) as [[-> ->]|Hne].
  - rewrite decide_True by done. rewrite Hsh by done. unfold level_of.
    rewrite (decide_False (P := _ + q = 0)) by lia. case_decide as Ht; [rewrite Ht; done|].
    by rewrite u64_small by lia.
  - rewrite decide_False by (intros [= -> ->]; tauto). rewrite Z.add_0_r. by apply Hsh.
Qed.

Lemma reduce_shows b m m' v sym s p d : book_sorted b -> s <> SideUnknown ->
  book_shows b m v sym -> shifted m m' (mkPlace v sym s p) (- d) ->
  0 < d <= total m (mkPlace v sym s p) -> total m (mkPlace v sym s p) < 2 ^ 64 ->
  book_shows (reduce_side b s p d) m' v sym.
Proof.
  intros Hb Hs Hsh Hm Hd Hmax s' p' Hs'. rewrite reduce_side_qty, (Hm (mkPlace v sym s' p')) by done.
  destruct (decide (s' = s /\ p' = p)) as [[-> ->]|Hne].
  - rewrite decide_True by done. rewrite Hsh by done. unfold level_of.
    rewrite (decide_False (P := total _ _ = 0)) by lia.
    destruct (d <? _) eqn:E; zbool.
    + rewrite decide_False by lia. by rewrite u64_small by lia.
    + rewrite decide_True by lia. done.
  - rewrite decide_False by (intros [= -> ->]; tauto). rewrite Z.add_0_r. by apply Hsh.
Qed.

(** Away from the place, the totals of a book do not move. *)
Lemma other_shows b m m' pl d v sym : book_shows b m v sym -> shifted m m' pl d ->
  (pl_venue pl, pl_symbol pl) <> (v, sym) -> book_shows b m' v sym.
Proof.
  intros Hsh Hm Hne s p Hs. rewrite (Hm (mkPlace v sym s p)), decide_False, Z.add_0_r; [by apply Hsh|].
  intros <-. done.
Qed.

(** ** The handlers against the specification *)

(** An order table of at most 2^31 slots whose live orders are those of [m]. *)
Record table_good (t : OrderTable) (m : gmap Z OrderRef) : Prop := {
  tg_rep : table_rep t m;
  tg_cap : Z.of_nat (length (orders t)) <= 2 ^ 31;
  tg_load : Z.of_nat (size m) <= Z.of_nat (length (orders t)) / 2 + 1;
  tg_valid : map_Forall (fun _ o => order_valid o) m;
}.

Lemma total_small t m pl : table_good t m -> 0 <= total m pl < 2 ^ 63.
Proof.
  intros [_ Hc Hl Hv]. pose proof (total_bound m pl Hv).
  assert (Z.of_nat (length (orders t)) / 2 <= 2 ^ 30) by (apply Z.div_le_upper_bound; lia). lia.
Qed.

(** Book [b] of [(v, sym)] after a handler turned [m] into [m']; the other
    books keep showing their totals. *)
Record handled (b' : VenueBook) (t' : OrderTable) (m m' : gmap Z OrderRef) (v : Venue) (sym : Z)
    : Prop := {
  ha_good : table_good t' m';
  ha_shows : book_shows b' m' v sym;
  ha_others w s b : (w, s) <> (v, sym) -> book_shows b m w s -> book_shows b m' w s;
}.

Lemma handled_trans b1 t1 b2 t2 m0 m1 m2 v sym :
  handled b1 t1 m0 m1 v sym -> handled b2 t2 m1 m2 v sym -> handled b2 t2 m0 m2 v sym.
Proof. intros [_ _ H1] [Hg Hs H2]. split; auto. Qed.

Lemma put_order_load t key value : (put_order t key value).1 = true ->
  order_count t <= Z.of_nat (length (orders t)) / 2.
Proof. unfold put_order. destruct (_ <? order_count t) eqn:E; [done|]. by zbool. Qed.

Lemma insert_handled b t m ev ahead : table_good t m -> book_sorted b -> new_order_ok m ev ->
  let v := venue ev in let sym := as_u64 (symbol ev) in
  book_shows b m v sym ->
  let '(ok, t') := put_order t (event_key ev) (order_of ev ahead) in
  ok = true ->
  handled (add_side b (side ev) (price ev) (qty ev)) t' m
    (<[event_key ev := order_of ev ahead]> m) v sym.
Proof.
  intros Hg Hb (Hid & Hnew & Hq & Hside) v sym Hsh.
  pose proof (put_order_rep t m (event_key ev) (tg_rep _ _ Hg) (order_of ev ahead)) as Hput.
  pose proof (put_order_load t (event_key ev) (order_of ev ahead)) as Hload.
  destruct (put_order _ _ _) as [ok t']. intros ->. destruct Hput as (Hrep & _ & Hlen).
  specialize (Hload eq_refl). rewrite (tr_count _ _ (tg_rep _ _ Hg)) in Hload.
  assert (shifted m (<[event_key ev := order_of ev ahead]> m) (mkPlace v sym (side ev) (price ev)) (qty ev)) as Hsf.
  { intros pl. rewrite total_insert by done. unfold contrib. unfold order_place, order_of. simpl.
    fold v sym. rewrite Z.add_comm. f_equal. repeat case_decide; congruence || done. }
  split.
  - split; [done|rewrite Hlen; apply (tg_cap _ _ Hg)| |].
    + rewrite Hlen, map_size_insert_None by done. lia.
    + apply map_Forall_insert_2; [|apply (tg_valid _ _ Hg)]. split; [simpl; lia|done].
  - pose proof (total_small t m (mkPlace v sym (side ev) (price ev)) Hg).
    apply (add_shows b m); auto; lia.
  - intros w s b' Hne Hw. eapply other_shows; [exact Hw|exact Hsf|]. simpl. congruence.
Qed.

(** Reducing a live order by [dec], down to nothing or not. *)
Lemma reduce_handled b t m t' m' key o dec v sym : table_good t m -> book_sorted b ->
  m !! key = Some o -> o_venue o = v -> o_symbol o = sym -> 0 < dec <= o_qty o ->
  book_shows b m v sym ->
  table_rep t' m' -> length (orders t') = length (orders t) -> (size m' <= size m)%nat ->
  map_Forall (fun _ o => order_valid o) m' ->
  (forall pl, total m' pl = total m pl + (if decide (pl = order_place o) then - dec else 0)) ->
  handled (reduce_side b (o_side o) (o_price o) dec) t' m m' v sym.
Proof.
  intros Hg Hb Hm Hv Hs Hdec Hsh Hrep Hlen Hsize Hval Htot.
  assert (shifted m m' (mkPlace v sym (o_side o) (o_price o)) (- dec)) as Hsf.
  { intros pl. rewrite Htot. unfold order_place. by rewrite Hv, Hs. }
  split.
  - split; [done|rewrite Hlen; apply (tg_cap _ _ Hg)|rewrite Hlen; pose proof (tg_load _ _ Hg); lia|done].
  - pose proof (total_small t m (mkPlace v sym (o_side o) (o_price o)) Hg).
    pose proof (contrib_le_total m key o (mkPlace v sym (o_side o) (o_price o)) (tg_valid _ _ Hg) Hm) as Hc.
    unfold contrib in Hc. rewrite decide_True in Hc by (unfold order_place; by rewrite Hv, Hs).
    apply (reduce_shows b m); auto; [|lia|lia].
    destruct (tg_valid _ _ Hg _ _ Hm). done.
  - intros w s b' Hne Hw. eapply other_shows; [exact Hw|exact Hsf|]. simpl. congruence.
Qed.

Lemma on_add_handled b t m ev : table_good t m -> book_sorted b -> new_order_ok m ev ->
  book_shows b m (venue ev) (as_u64 (symbol ev)) ->
  let '(b', t', sat, ahead) := on_add b t ev in sat = false ->
  handled b' t' m (<[event_key ev := order_of ev ahead]> m) (venue ev) (as_u64 (symbol ev)).
Proof.
  intros Hg Hb Hnew Hsh. unfold on_add. pose proof (proj1 Hnew) as Hid.
  destruct (Z.eqb_spec (order_id ev) 0) as [|_]; [done|].
  pose proof (fun ahead => insert_handled b t m ev ahead Hg Hb Hnew Hsh) as H.
  set (ahead := double_of_u64 _). specialize (H ahead). unfold event_key, order_of in H.
  destruct (put_order _ _ _) as [[] t']; [intros _; by apply H|done].
Qed.

Lemma delete_handled b t m key o v sym : table_good t m -> book_sorted b ->
  m !! key = Some o -> o_venue o = v -> o_symbol o = sym -> book_shows b m v sym ->
  handled (reduce_side b (o_side o) (o_price o) (o_qty o)) (erase_order t key) m (delete key m) v sym.
Proof.
  intros Hg Hb Hm Hv Hs Hsh. destruct (erase_order_rep t m key (tg_rep _ _ Hg)) as (Hrep & Hlen & _).
  destruct (tg_valid _ _ Hg _ _ Hm) as [Hq _].
  eapply (reduce_handled b t m _ _ key o); eauto; [lia| | |].
  - rewrite map_size_delete_Some by eauto. lia.
  - apply map_Forall_delete, (tg_valid _ _ Hg).
  - intros pl. rewrite (total_delete m key o) by done. unfold contrib. repeat case_decide; congruence || lia.
Qed.

Lemma on_reduce_handled b t m ev : table_good t m -> book_sorted b ->
  0 <= qty ev -> (forall o, m !! event_key ev = Some o -> same_book o ev /\
    (type ev = Delete -> qty ev = 0 \/ o_qty o <= qty ev)) ->
  book_shows b m (venue ev) (as_u64 (symbol ev)) ->
  let '(b', t', _, _) := on_reduce b t ev in
  handled b' t' m
    (match m !! event_key ev with
     | None => m
     | Some o =>
         let dec := reduce_by ev o in
         if (o_qty o <=? dec) || bool_decide (type ev = Delete) then delete (event_key ev) m
         else <[event_key ev := mkOrder (o_venue o) (o_symbol o) (o_side o) (o_price o)
                                  (o_qty o - dec) (o_queue_ahead o)]> m
     end) (venue ev) (as_u64 (symbol ev)).
Proof.
  intros Hg Hb Hq0 Hd Hsh. unfold on_reduce. fold (event_key ev).
  pose proof (find_order_rep t m (event_key ev) (tg_rep _ _ Hg)) as Hf.
  destruct (find_order t (event_key ev)) as [i|]; [|by rewrite Hf].
  destruct Hf as (o & Hl & Hm). rewrite (order_at_rep t _ i o Hl), Hm. cbn zeta.
  destruct (Hd o Hm) as [[Hv Hs] Hdel]. destruct (tg_valid _ _ Hg _ _ Hm) as [Hq Hside].
  assert (0 < reduce_by ev o <= o_qty o /\ (type ev = Delete -> reduce_by ev o = o_qty o)) as [Hdec Hdel'].
  { unfold reduce_by. destruct (Z.eqb_spec (qty ev) 0); simpl; [lia|].
    destruct (Z.ltb_spec (o_qty o) (qty ev)); [lia|]. split; [lia|]. intros Ht%Hdel. lia. }
  destruct ((o_qty o <=? reduce_by ev o) || bool_decide (type ev = Delete)) eqn:Efull.
  - assert (reduce_by ev o = o_qty o) as ->.
    { zbool. destruct Efull as [H|H%bool_decide_eq_true]; [zbool; lia|auto]. }
    by apply delete_handled.
  - apply orb_false_iff in Efull as [Hlt _]. zbool. rewrite u32_small by lia.
    set (o' := mkOrder _ _ _ _ _ _).
    destruct (set_order_at_rep t m (event_key ev) (tg_rep _ _ Hg) i o o' Hl) as (Hrep & Hlen & _).
    eapply (reduce_handled b t m _ _ (event_key ev) o); eauto.
    + rewrite map_size_insert_Some by eauto. lia.
    + apply map_Forall_insert_2; [split; [simpl; lia|done]|apply (tg_valid _ _ Hg)].
    + intros pl. rewrite (total_replace m _ o) by done. unfold contrib.
      assert (order_place o' = order_place o) as -> by done. simpl. repeat case_decide; congruence || lia.
Qed.

Lemma on_replace_handled b t m ev : table_good t m -> book_sorted b ->
  new_order_ok (delete (event_old_key ev) m) ev ->
  (forall o, m !! event_old_key ev = Some o -> same_book o ev) ->
  book_shows b m (venue ev) (as_u64 (symbol ev)) ->
  let '(b', t', sat, _) := on_replace b t ev in sat = false ->
  handled b' t' m (<[event_key ev := order_of ev 0]> (delete (event_old_key ev) m))
    (venue ev) (as_u64 (symbol ev)).
Proof.
  intros Hg Hb Hnew Hold Hsh. unfold on_replace. fold (event_old_key ev).
  pose proof (proj1 Hnew) as Hid. destruct (Z.eqb_spec (order_id ev) 0) as [|_]; [done|].
  assert (let '(b1, t1) := match find_order t (event_old_key ev) with
      | Some i => let o := order_at t i in
          (reduce_side b (o_side o) (o_price o) (o_qty o), erase_order t (event_old_key ev))
      | None => (b, t) end in
    book_sorted b1 /\ handled b1 t1 m (delete (event_old_key ev) m) (venue ev) (as_u64 (symbol ev))) as H1.
  { pose proof (find_order_rep t m (event_old_key ev) (tg_rep _ _ Hg)) as Hf.
    destruct (find_order t (event_old_key ev)) as [i|].
    - destruct Hf as (o & Hl & Hm). rewrite (order_at_rep t _ i o Hl). cbn zeta.
      destruct (Hold o Hm) as [Hv Hs]. split; [by apply reduce_side_sorted|]. by apply delete_handled.
    - rewrite delete_id by done. by split. }
  destruct (match find_order _ _ with Some _ => _ | None => _ end) as [b1 t1]. destruct H1 as [Hb1 H1].
  pose proof (insert_handled b1 t1 _ ev 0 (ha_good _ _ _ _ _ _ H1) Hb1 Hnew (ha_shows _ _ _ _ _ _ H1)) as H2.
  unfold event_key, order_of in H2. destruct (put_order _ _ _) as [[] t2]; [|done].
  intros _. eapply handled_trans; [exact H1|by apply H2].
Qed.

Lemma on_type_handled b t m ev : table_good t m -> book_sorted b -> disciplined m ev ->
  book_shows b m (venue ev) (as_u64 (symbol ev)) ->
  let '(b', t', sat, ahead) := on_type b t ev in sat = false ->
  handled b' t' m (spec_orders m ev ahead) (venue ev) (as_u64 (symbol ev)).
Proof.
  intros Hg Hb Hd Hsh. unfold on_type, spec_orders. unfold disciplined in Hd.
  assert (handled b t m m (venue ev) (as_u64 (symbol ev))) as Hid by by split.
  pose proof (on_reduce_handled b t m ev Hg Hb) as Hred.
  pose proof (on_replace_handled b t m ev Hg Hb) as Hrep.
  pose proof (on_add_handled b t m ev Hg Hb) as Hadd.
  assert (forall key (P : OrderRef -> Prop), if_live m key P -> forall o, m !! key = Some o -> P o) as Hlive.
  { unfold if_live. intros key P HP o Ho. by rewrite Ho in HP. }
  destruct (type ev) eqn:Ety; try done;
    try (destruct (on_add b t ev) as [[[? ?] ?] ?]; by apply Hadd);
    try (destruct (on_replace b t ev) as [[[? ?] ?] ?], Hd as [Hn Hd];
         by apply Hrep; [done|exact (Hlive _ _ Hd)|]);
    destruct (on_reduce b t ev) as [[[? ?] ?] ?], Hd as [Hq Hd]; intros _;
    by apply Hred; [done|exact (Hlive _ _ Hd)|].
Qed.

(** *** Engine and specification *)

Record consistent (e : OrderBookEngine) (m : gmap Z OrderRef) : Prop := {
  co_engine : engine_ok e;
  co_good : table_good (table e) m;
  co_shows v sym : book_shows (book_at e v sym) m v sym;
}.

Lemma book_at_sorted e v sym : engine_ok e -> book_sorted (book_at e v sym).
Proof.
  intros Hok. unfold book_at. destruct ((books e).[v] !! sym) as [b|] eqn:E;
    [exact (en_sorted e Hok _ _ _ E)|split; constructor].
Qed.

Lemma book_on_event_consistent e m ev : consistent e m -> disciplined m ev ->
  let '(e', r) := book_on_event e ev in
  order_table_saturated r = false ->
  consistent e' (spec_orders m ev (queue_ahead_before_add r)).
Proof.
  intros [Hok Hg Hsh] Hd. pose proof (book_on_event_spec e ev Hok) as H. cbn zeta in H.
  pose proof (on_type_handled _ _ m ev Hg (book_at_sorted e (venue ev) (as_u64 (symbol ev)) Hok) Hd
    (Hsh _ _)) as Hh.
  destruct (on_type _ _ _) as [[[b' t'] sat] ahead], (book_on_event e ev) as [e' r].
  destruct H as (Hok' & <- & -> & -> & _ & Hat). intros Hsat. specialize (Hh Hsat).
  split; [done|apply (ha_good _ _ _ _ _ _ Hh)|]. intros v sym. rewrite Hat. case_decide as Hv.
  - destruct Hv as [-> ->]. apply (ha_shows _ _ _ _ _ _ Hh).
  - apply (ha_others _ _ _ _ _ _ Hh); [intros [= -> ->]; tauto|apply Hsh].
Qed.

Lemma engine_init_consistent k : 0 <= k <= 31 ->
  consistent (engine_init (Z.to_nat (2 ^ k))) ∅.
Proof.
  intros Hk. split; [apply engine_init_ok| |].
  - split; [apply table_init_rep; lia| | |].
    + cbn [table engine_init orders table_init]. rewrite length_replicate, Z2Nat.id by lia.
      apply Z.pow_le_mono_r; lia.
    + rewrite map_size_empty. cbn [table engine_init orders table_init].
      pose proof (Z.div_pos (Z.of_nat (length (replicate (Z.to_nat (2 ^ k)) (mkSlot 0 order_default 0)))) 2).
      lia.
    + apply map_Forall_empty.
  - intros v sym s p Hs. unfold book_at. simpl. rewrite pv_get_const, lookup_empty. rewrite total_empty.
    by destruct s.
Qed.

(** Live orders after a run, and whether the feed was disciplined and the
    table never saturated along it. *)
Fixpoint spec_book_run (e : OrderBookEngine) (m : gmap Z OrderRef) (evs : list BookEvent)
    : gmap Z OrderRef * bool :=
  match evs with
  | [] => (m, true)
  | ev :: evs =>
      let '(e', r) := book_on_event e ev in
      let '(m', ok) := spec_book_run e' (spec_orders m ev (queue_ahead_before_add r)) evs in
      (m', bool_decide (disciplined m ev) && negb (order_table_saturated r) && ok)
  end.

Lemma book_run_consistent evs : forall e m, consistent e m ->
  let '(m', ok) := spec_book_run e m evs in ok = true -> consistent (book_run e evs) m'.
Proof.
  induction evs as [|ev evs IH]; intros e m Hc; [by intros _|]. cbn [spec_book_run book_run fold_left].
  pose proof (book_on_event_consistent e m ev Hc) as Hs.
  destruct (book_on_event e ev) as [e' r].
  specialize (IH e' (spec_orders m ev (queue_ahead_before_add r))).
  destruct (spec_book_run _ _ evs) as [m' ok]. intros [[Hd Hsat]%andb_prop Hok]%andb_prop.
  apply bool_decide_eq_true in Hd. apply negb_true_iff in Hsat. apply IH; [by apply Hs|done].
Qed.

(** C5. Full correctness of the engine on a feed that follows its protocol, as
    long as the table drops no order: new orders have an id not in use, a side
    and a positive quantity, reductions and replaces name the book of the order
    they change (those of ITCH name none), a delete takes all or says nothing
    of the quantity, and no insert finds the table too full. After any
    such run the order table holds exactly the live orders, and in every book
    the level at a price is the sum of the live orders resting there, absent
    when there is none. The code's table has 2^21 slots; the statement covers
    any power of two up to 2^31. *)
Theorem book_levels_are_totals k evs : 0 <= k <= 31 ->
  let e0 := engine_init (Z.to_nat (2 ^ k)) in
  let e := book_run e0 evs in
  (spec_book_run e0 ∅ evs).2 = true ->
  let m := (spec_book_run e0 ∅ evs).1 in
  table_rep (table e) m /\
  forall v sym s p, s <> SideUnknown ->
    book_qty (book_at e v sym) s p = level_of (total m (mkPlace v sym s p)).
Proof.
  intros Hk e0 e. pose proof (book_run_consistent evs e0 ∅ (engine_init_consistent k Hk)) as H.
  destruct (spec_book_run e0 ∅ evs) as [m ok]. simpl. intros Hok. specialize (H Hok).
  split; [apply (tg_rep _ _ (co_good _ _ H))|]. intros v sym s p Hs. by apply (co_shows _ _ H).
Qed.

(** ** Witness and a feed outside the protocol *)

Definition book_event (ty : EventType) (sym : SymbolKey) (id : Z) (s : Side) (q p : Z) : BookEvent :=
  event_default |> set_type ty |> set_symbol sym |> set_order_id id |> set_side s
                |> set_qty q |> set_price p.

Definition aapl : SymbolKey := [65; 65; 80; 76; 32; 32; 32; 32].

Definition sample_orders : list BookEvent :=
  [book_event Add aapl 1 Buy 100 50; book_event Add aapl 2 Buy 30 50;
   book_event Execute aapl 1 SideUnknown 40 0; book_event Delete aapl 2 SideUnknown 0 0].

Lemma book_levels_are_totals_witness :
  let e := book_run (engine_init (Z.to_nat (2 ^ 3))) sample_orders in
  book_qty (book_at e Nasdaq (as_u64 aapl)) Buy 50 = Some 60.
Proof.
  destruct (book_levels_are_totals 3 sample_orders) as [_ H]; [lia| |].
  - vm_compute. reflexivity.
  - etransitivity; [exact (H Nasdaq (as_u64 aapl) Buy 50 ltac:(done))|]. vm_compute. reflexivity.
Defined.

(** ITCH executions, cancels, deletes and replaces carry no symbol. Applied
    as they are lowered, they are looked up in the book of the zero symbol:
    the order leaves the table but its quantity stays in the level. *)
Example foreign_symbol_leaks :
  let e := book_run (engine_init 8)
    [book_event Add aapl 1 Buy 100 50; book_event Delete symbol_zero 1 SideUnknown 0 0] in
  order_count (table e) = 0 /\ book_qty (book_at e Nasdaq (as_u64 aapl)) Buy 50 = Some 100.
Proof. by vm_compute. Qed.
