(* ===== verification/Wire.v ===== *)
(** * Wire formats

    What the binary parsers share: packed message structs as layouts of named
    members (a [#pragma pack(1)] struct filled by [memcpy]), the byte-swapping
    reads of include/mf/proto/read_be.hpp, and the parser statistics. *)

From Stdlib Require Export Ascii.
From stdpp Require Export strings.
From S2P Require Import Prelude Types.

(** ** Characters *)

(** A character literal of the source, as the byte it is compared with. *)
Definition ch (c : ascii) : Z := Z.of_nat (nat_of_ascii c).

(** The characters of a literal. *)
Fixpoint chars (s : string) : list Z :=
  match s with EmptyString => [] | String c s => ch c :: chars s end.

(** The decimal digits of a number, most significant first, in [fuel] steps. *)
Fixpoint decimal_digits (fuel : nat) (n : Z) : list Z :=
  match fuel with
  | O => []
  | S fuel => (if n <? 10 then [] else decimal_digits fuel (n / 10)) ++ [ch "0" + n mod 10]
  end.

Lemma decimal_digits_ok fuel : forall n, bytes_ok (decimal_digits fuel n).
Proof.
  induction fuel as [|fuel IH]; intros n; [constructor|]. cbn [decimal_digits]. apply Forall_app. split.
  - case_match; [constructor|apply IH].
  - constructor; [|done]. unfold byte_ok, is_u. pose proof (Z.mod_pos_bound n 10).
    change (ch "0") with 48. lia.
Qed.

(** ** Packed structs *)

(** A packed struct: its members in order, each with its size in bytes. *)
Definition Layout : Type := list (string * nat).

Definition sizeof (l : Layout) : nat := foldr (fun m n => (m.2 + n)%nat) 0%nat l.

(** The bytes of one member of the struct stored at [p]. *)
Fixpoint field (l : Layout) (name : string) (p : list Z) : list Z :=
  match l with
  | [] => []
  | (n, w) :: l => if String.eqb n name then take w p else field l name (drop w p)
  end.

(** The offset and size of a member ([offsetof]). *)
Fixpoint field_at (l : Layout) (name : string) (off : nat) : option (nat * nat) :=
  match l with
  | [] => None
  | (n, w) :: l => if String.eqb n name then Some (off, w) else field_at l name (off + w)
  end.

Lemma take_slice {A} (l : list A) n : take n l = slice l 0 n.
Proof. done. Qed.

Lemma drop_slice {A} (l : list A) off n w : drop w (slice l off (w + n)) = slice l (off + w) n.
Proof.
  unfold slice. rewrite skipn_firstn_comm, drop_drop. by replace (w + n - w)%nat with n by lia.
Qed.

Lemma take_slice_le {A} (l : list A) off n w : (w <= n)%nat -> take w (slice l off n) = slice l off w.
Proof. intros H. unfold slice. rewrite take_take. by rewrite Nat.min_l. Qed.

(** A member of a struct loaded from offset [off] of a buffer is a slice of
    the buffer. *)
Lemma field_slice l name p : forall o b w, field_at l name o = Some (b, w) ->
  field l name (slice p o (sizeof l)) = slice p b w.
Proof.
  induction l as [|[n k] l IH]; intros o b w H; [done|]. cbn [field field_at sizeof foldr] in *.
  destruct (String.eqb n name).
  - injection H as <- <-. rewrite take_slice_le by (simpl; lia). done.
  - fold (sizeof l). simpl. rewrite drop_slice. by apply IH.
Qed.

(** Members laid out one after the other, as an encoder writes them. *)
Lemma field_head name w (l : Layout) a rest : length a = w ->
  field ((name, w) :: l) name (a ++ rest) = a.
Proof. intros <-. simpl. by rewrite String.eqb_refl, take_app_length. Qed.

Lemma field_tail n name w (l : Layout) a rest : String.eqb n name = false -> length a = w ->
  field ((n, w) :: l) name (a ++ rest) = field l name rest.
Proof. intros Hn <-. simpl. by rewrite Hn, drop_app_length. Qed.

(** ** Byte order *)

(** [__builtin_bswap<8n>]: the bytes of an integer in reverse. *)
Definition bswap (n : nat) (x : Z) : Z := le_val (rev (le_bytes n x)).

(** [read_be<T>], [sizeof(T) = n]: memcpy into a little-endian integer, then
    swap. *)
Definition read_be (n : nat) (p : list Z) : Z := bswap n (le_val (take n p)).

(** [read_le] on a little-endian host: the integer [memcpy] leaves. *)
Definition read_le (n : nat) (p : list Z) : Z := le_val (take n p).

(** The big-endian encoding of [v] in [n] bytes. *)
Definition be (n : nat) (v : Z) : list Z := rev (le_bytes n v).

Lemma length_be n v : length (be n v) = n.
Proof. unfold be. by rewrite length_rev, length_le_bytes. Qed.

Lemma be_ok n v : bytes_ok (be n v).
Proof. apply Forall_rev, le_bytes_ok. Qed.

Lemma read_be_rev n p : bytes_ok p -> length p = n -> read_be n p = le_val (rev p).
Proof.
  intros Hok <-. unfold read_be, bswap. rewrite firstn_all. by rewrite le_bytes_le_val.
Qed.

Lemma read_be_be n v : 0 <= v < 256 ^ Z.of_nat n -> read_be n (be n v) = v.
Proof.
  intros Hv. rewrite read_be_rev by (apply be_ok || apply length_be).
  unfold be. rewrite rev_involutive, le_val_le_bytes. by apply Z.mod_small.
Qed.

Lemma read_le_le n v : 0 <= v < 256 ^ Z.of_nat n -> read_le n (le_bytes n v) = v.
Proof.
  intros Hv. unfold read_le. rewrite firstn_all2 by (rewrite length_le_bytes; lia).
  rewrite le_val_le_bytes. by apply Z.mod_small.
Qed.

Lemma read_be_range n p : 0 <= read_be n p < 256 ^ Z.of_nat n.
Proof.
  unfold read_be, bswap. pose proof (le_val_range (rev (le_bytes n (le_val (take n p))))) as H.
  rewrite length_rev, length_le_bytes in H. apply H, Forall_rev, le_bytes_ok.
Qed.

Lemma read_le_range n p : bytes_ok p -> 0 <= read_le n p < 256 ^ Z.of_nat n.
Proof.
  intros Hok. unfold read_le. pose proof (le_val_range (take n p) (Forall_take _ _ _ Hok)) as H.
  rewrite length_take in H. split; [lia|]. eapply Z.lt_le_trans; [apply H|].
  apply Z.pow_le_mono_r; lia.
Qed.

(** ** Two-byte lengths read by index *)

(** [(p[0] << 8) | p[1]] at an offset, narrowed to 16 bits. *)
Definition be16_at (p : list Z) (off : nat) : Z :=
  Z.lor (u16 (Z.shiftl (nth off p 0) 8)) (nth (off + 1) p 0).

Lemma be2_bytes n : 0 <= n < 2 ^ 16 -> exists h l, be 2 n = [h; l] /\ Z.lor (u16 (Z.shiftl h 8)) l = n.
Proof.
  intros Hn. exists (n / 256 mod 256), (n mod 256). split; [done|].
  assert (0 <= n / 256 < 256) by (split; [apply Z.div_pos; lia|apply Z.div_lt_upper_bound; lia]).
  rewrite (Z.mod_small (n / 256)) by lia. unfold u16. rewrite wrap_small.
  - rewrite lor_shift8; [|lia|apply (Z.mod_pos_bound n 256); lia]. pose proof (Z.div_mod n 256). lia.
  - rewrite Z.shiftl_mul_pow2 by lia. unfold is_u. change (2 ^ 8) with 256. lia.
Qed.

Lemma nth_tail w a rest k : length a = w -> (w <= k)%nat -> nth k (a ++ rest) 0 = nth (k - w) rest 0.
Proof. intros <- Hk. by rewrite app_nth2 by lia. Qed.

Lemma nth_skip pre p k : nth (length pre + k) (pre ++ p) 0 = nth k p 0.
Proof. rewrite (nth_tail (length pre)) by (done || lia). f_equal. lia. Qed.

Lemma be16_pair h l : byte_ok h -> byte_ok l ->
  Z.lor (u16 (Z.shiftl h 8)) l = 256 * h + l /\ be 2 (256 * h + l) = [h; l].
Proof.
  unfold byte_ok, is_u. change (2 ^ 8) with 256. intros Hh Hl. split.
  - unfold u16. rewrite wrap_small.
    + rewrite lor_shift8 by (unfold byte_ok, is_u; lia). lia.
    + rewrite Z.shiftl_mul_pow2 by lia. unfold is_u. change (2 ^ 8) with 256. lia.
  - unfold be, le_bytes. cbn [rev app]. rewrite (Z.mul_comm 256), Z.div_add_l, (Z.div_small l) by lia.
    rewrite Z.add_0_r, Z.mod_small by lia. f_equal. f_equal.
    by rewrite Z.add_comm, Z.mod_add, Z.mod_small by lia.
Qed.

Lemma be16_at_be pre n rest : 0 <= n < 2 ^ 16 -> be16_at (pre ++ be 2 n ++ rest) (length pre) = n.
Proof.
  intros Hn. destruct (be2_bytes n Hn) as (h & l & Hbe & Hval). unfold be16_at. rewrite Hbe.
  rewrite <-(Nat.add_0_r (length pre)) at 1. rewrite !nth_skip. exact Hval.
Qed.

(** ** Parser statistics *)

Record ParseStats := mkParseStats {
  type_counts : list Z;
  parsed_messages : Z;
  malformed_messages : Z;
}.

Definition parse_stats_init : ParseStats := mkParseStats (replicate 256 0) 0 0.

Definition inc_malformed (s : ParseStats) : ParseStats :=
  mkParseStats (type_counts s) (parsed_messages s) (malformed_messages s +64 1).

(** [++stats.type_counts[type]; ++stats.parsed_messages;] *)
Definition count_type (t : Z) (s : ParseStats) : ParseStats :=
  mkParseStats (alter (fun n => n +64 1) (Z.to_nat t) (type_counts s))
               (parsed_messages s +64 1) (malformed_messages s).

(** ** Shared field decoders *)

(** [decode_side] of the Nasdaq and Cboe parsers. *)
Definition decode_side (c : Z) : Side :=
  if c =? ch "B" then Buy else if c =? ch "S" then Sell else SideUnknown.

Definition first_byte (p : list Z) : Z := hd 0 p.

(** An event with the members every parser sets first. *)
Definition parsed_event (v : Venue) (seq ingest raw : Z) : BookEvent :=
  event_default |> set_venue v |> set_sequence seq |> set_ingest_ts ingest |> set_raw_type raw.

(** ** Events built by member assignments *)

(** A member of a struct loaded from a long enough buffer of bytes. *)
Lemma field_ok l name payload off b w : bytes_ok payload -> field_at l name off = Some (b, w) ->
  (b + w <= off + sizeof l)%nat -> (off + sizeof l <= length payload)%nat ->
  bytes_ok (field l name (slice payload off (sizeof l))) /\
  length (field l name (slice payload off (sizeof l))) = w.
Proof.
  intros Hok Hat Hb Hl. rewrite (field_slice _ _ _ _ _ _ Hat). split; [by apply bytes_ok_slice|].
  apply length_slice. lia.
Qed.

Lemma parsed_event_ok v seq ingest raw : is_u 64 seq -> is_u 64 ingest -> is_u 8 raw ->
  event_ok (parsed_event v seq ingest raw).
Proof.
  intros Hs Hi Hr. split; simpl; try done; try (unfold is_u; lia).
  split; [done|]. repeat constructor; unfold byte_ok, is_u; lia.
Qed.

Lemma event_ok_set_type x e : event_ok e -> event_ok (set_type x e).
Proof. intros []. by split. Qed.
Lemma event_ok_set_side x e : event_ok e -> event_ok (set_side x e).
Proof. intros []. by split. Qed.
Lemma event_ok_set_exchange_ts x e : is_u 64 x -> event_ok e -> event_ok (set_exchange_ts x e).
Proof. intros ? []. by split. Qed.
Lemma event_ok_set_order_id x e : is_u 64 x -> event_ok e -> event_ok (set_order_id x e).
Proof. intros ? []. by split. Qed.
Lemma event_ok_set_match_id x e : is_u 64 x -> event_ok e -> event_ok (set_match_id x e).
Proof. intros ? []. by split. Qed.
Lemma event_ok_set_reference x e : is_u 64 x -> event_ok e -> event_ok (set_reference_order_id x e).
Proof. intros ? []. by split. Qed.
Lemma event_ok_set_qty x e : is_u 32 x -> event_ok e -> event_ok (set_qty x e).
Proof. intros ? []. by split. Qed.
Lemma event_ok_set_price x e : is_u 32 x -> event_ok e -> event_ok (set_price x e).
Proof. intros ? []. by split. Qed.
Lemma event_ok_set_symbol x e : symbol_ok x -> event_ok e -> event_ok (set_symbol x e).
Proof. intros ? []. by split. Qed.
Lemma event_ok_set_mpid x e : length x = 4%nat /\ bytes_ok x -> event_ok e -> event_ok (set_mpid (Some x) e).
Proof. intros ? []. by split. Qed.

#[export] Hint Resolve event_ok_set_type event_ok_set_side event_ok_set_exchange_ts event_ok_set_order_id
  event_ok_set_match_id event_ok_set_reference event_ok_set_qty event_ok_set_price event_ok_set_symbol
  event_ok_set_mpid parsed_event_ok : mf.

Lemma read_be_u32 p : is_u 32 (read_be 4 p).
Proof. apply read_be_range. Qed.
Lemma read_be_u64 p : is_u 64 (read_be 8 p).
Proof. apply read_be_range. Qed.
Lemma u32_is_u x : is_u 32 (u32 x).
Proof. apply u32_range. Qed.
#[export] Hint Resolve read_be_u32 read_be_u64 u32_is_u : mf.


(** Reduces [event_ok] of a chain of assignments to the members' ranges. *)
Ltac build_event_ok :=
  repeat first
    [ simple apply parsed_event_ok; [assumption|assumption|assumption]
    | simple apply event_ok_set_type | simple apply event_ok_set_side
    | simple apply event_ok_set_order_id; [solve [auto with mf]|]
    | simple apply event_ok_set_match_id; [solve [auto with mf]|]
    | simple apply event_ok_set_reference; [solve [auto with mf]|]
    | simple apply event_ok_set_qty; [solve [auto with mf]|]
    | simple apply event_ok_set_price; [solve [auto with mf]|]
    | simple apply event_ok_set_exchange_ts; [try solve [auto with mf]|]
    | simple apply event_ok_set_symbol; [try solve [auto with mf]|]
    | simple apply event_ok_set_mpid; [try solve [auto with mf]|] ].

(** A struct's members do not see past its end. *)
Lemma field_take l name : forall p, field l name (take (sizeof l) p) = field l name p.
Proof.
  induction l as [|[n w] l IH]; intros p; [done|]. cbn [field sizeof foldr]. fold (sizeof l). simpl.
  destruct (String.eqb n name).
  - rewrite take_take. f_equal. lia.
  - rewrite <-(IH (drop w p)), skipn_firstn_comm. do 2 f_equal. lia.
Qed.

(** Reads members back out of their concatenation. *)
Ltac read_fields :=
  repeat first
    [ rewrite field_head by first [apply length_be|apply length_le_bytes|reflexivity|assumption]
    | rewrite field_tail by first [reflexivity|apply length_be|apply length_le_bytes|assumption] ].

Lemma read_be_u32_be v : is_u 32 v -> read_be 4 (be 4 v) = v.
Proof. apply (read_be_be 4). Qed.
Lemma read_be_u64_be v : is_u 64 v -> read_be 8 (be 8 v) = v.
Proof. apply (read_be_be 8). Qed.
Lemma read_le_u32_le v : is_u 32 v -> read_le 4 (le_bytes 4 v) = v.
Proof. apply (read_le_le 4). Qed.
Lemma read_le_u64_le v : is_u 64 v -> read_le 8 (le_bytes 8 v) = v.
Proof. apply (read_le_le 8). Qed.

(** Single bytes as one-element members. *)
Ltac fold_bytes :=
  repeat match goal with
  | |- context [@cons Z ?x (@app Z ?a ?b)] =>
      lazymatch type of x with Z => change (x :: (a ++ b)) with ([x] ++ (a ++ b)) end
  | |- context [@cons Z ?x ?t] => is_var t; change (x :: t) with ([x] ++ t)
  end.
