(* ===== verification/Itch.v ===== *)
(** * Nasdaq TotalView-ITCH 5.0 parser (src/proto/nasdaq/itch50_parser.cpp)

    The packed message structs of itch50_messages.hpp, [parse_message], and
    [parse_hot_message_simd], the hand-optimised path that reads the four most
    frequent messages straight from the payload. The two agree on every
    payload; parsing inverts the protocol's encoding; results always fit the
    members they are stored in. *)

From S2P Require Import Prelude Wire Types.

#[local] Open Scope string_scope.
#[local] Open Scope list_scope.
#[local] Open Scope Z_scope.

(** ** Message structs (include/mf/proto/nasdaq/itch50_messages.hpp) *)

Definition itch_prefix : Layout :=
  [("stock_locate_be", 2); ("tracking_number_be", 2); ("timestamp", 6)]%nat.

Definition SystemEventMessage : Layout := itch_prefix ++ [("event_code", 1%nat)].

Definition StockDirectoryMessage : Layout := itch_prefix ++
  [("stock", 8); ("market_category", 1); ("financial_status", 1); ("round_lot_size_be", 4);
   ("round_lots_only", 1); ("issue_classification", 1); ("issue_sub_type", 2); ("authenticity", 1);
   ("short_sale_threshold_indicator", 1); ("ipo_flag", 1); ("luld_reference_price_tier", 1);
   ("etp_flag", 1); ("etp_leverage_factor_be", 4); ("inverse_indicator", 1)]%nat.

Definition AddOrderMessage : Layout := itch_prefix ++
  [("order_ref_be", 8); ("buy_sell", 1); ("shares_be", 4); ("stock", 8); ("price_be", 4)]%nat.

Definition AddOrderMpidMessage : Layout := AddOrderMessage ++ [("attribution", 4%nat)].

Definition OrderExecutedMessage : Layout := itch_prefix ++
  [("order_ref_be", 8); ("executed_shares_be", 4); ("match_number_be", 8)]%nat.

Definition OrderExecutedPriceMessage : Layout := itch_prefix ++
  [("order_ref_be", 8); ("executed_shares_be", 4); ("match_number_be", 8); ("printable", 1);
   ("execution_price_be", 4)]%nat.

Definition OrderCancelMessage : Layout := itch_prefix ++
  [("order_ref_be", 8); ("canceled_shares_be", 4)]%nat.

Definition OrderDeleteMessage : Layout := itch_prefix ++ [("order_ref_be", 8%nat)].

Definition OrderReplaceMessage : Layout := itch_prefix ++
  [("original_order_ref_be", 8); ("new_order_ref_be", 8); ("shares_be", 4); ("price_be", 4)]%nat.

Definition TradeMessage : Layout := itch_prefix ++
  [("order_ref_be", 8); ("buy_sell", 1); ("shares_be", 4); ("stock", 8); ("price_be", 4);
   ("match_number_be", 8)]%nat.

Definition CrossTradeMessage : Layout := itch_prefix ++
  [("shares_be", 8); ("stock", 8); ("cross_price_be", 4); ("match_number_be", 8); ("cross_type", 1)]%nat.

Definition NoiiMessage : Layout := itch_prefix ++
  [("paired_shares_be", 8); ("imbalance_shares_be", 8); ("imbalance_direction", 1); ("stock", 8);
   ("far_price_be", 4); ("near_price_be", 4); ("current_ref_price_be", 4); ("cross_type", 1);
   ("price_variation_indicator", 1)]%nat.

(** The [static_assert]s of the header. *)
Lemma itch_sizes : map sizeof
    [SystemEventMessage; StockDirectoryMessage; AddOrderMessage; AddOrderMpidMessage;
     OrderExecutedMessage; OrderExecutedPriceMessage; OrderCancelMessage; OrderDeleteMessage;
     OrderReplaceMessage; TradeMessage; CrossTradeMessage; NoiiMessage]
  = [11; 38; 35; 39; 30; 35; 22; 18; 34; 43; 39; 49]%nat.
Proof. reflexivity. Qed.

(** ** Field decoders *)

(** [decode_ts6] and [read_ts6_fast] over the six bytes at [p]. *)
Definition decode_ts6 (p : list Z) : Z :=
  let b i := nth i p 0 in
  Z.lor (Z.lor (Z.lor (Z.lor (Z.lor
    (Z.shiftl (b 0%nat) 40) (Z.shiftl (b 1%nat) 32)) (Z.shiftl (b 2%nat) 24))
    (Z.shiftl (b 3%nat) 16)) (Z.shiftl (b 4%nat) 8)) (b 5%nat).

(** ** [parse_message] *)

Definition itch_parse_message (payload : list Z) (seq ingest : Z) (stats : ParseStats)
    : option BookEvent * ParseStats :=
  match payload with
  | [] => (None, inc_malformed stats)
  | t :: _ =>
      let stats := count_type t stats in
      let ev := parsed_event Nasdaq seq ingest t in
      let case (l : Layout) (k : list Z -> BookEvent) :=
        if (length payload <? sizeof l + 1)%nat then (None, inc_malformed stats)
        else (Some (k (slice payload 1 (sizeof l))), stats) in
      let u32_of l n m := read_be 4 (field l n m) in
      let u64_of l n m := read_be 8 (field l n m) in
      let byte_of l n m := first_byte (field l n m) in
      if t =? ch "A" then
        let l := AddOrderMessage in case l (fun m =>
          ev |> set_type Add |> set_exchange_ts (decode_ts6 (field l "timestamp" m))
             |> set_order_id (u64_of l "order_ref_be" m) |> set_qty (u32_of l "shares_be" m)
             |> set_price (u32_of l "price_be" m) |> set_side (decode_side (byte_of l "buy_sell" m))
             |> set_symbol (field l "stock" m))
      else if t =? ch "F" then
        let l := AddOrderMpidMessage in case l (fun m =>
          ev |> set_type AddMpid |> set_exchange_ts (decode_ts6 (field l "timestamp" m))
             |> set_order_id (u64_of l "order_ref_be" m) |> set_qty (u32_of l "shares_be" m)
             |> set_price (u32_of l "price_be" m) |> set_side (decode_side (byte_of l "buy_sell" m))
             |> set_symbol (field l "stock" m) |> set_mpid (Some (field l "attribution" m)))
      else if t =? ch "E" then
        let l := OrderExecutedMessage in case l (fun m =>
          ev |> set_type Execute |> set_exchange_ts (decode_ts6 (field l "timestamp" m))
             |> set_order_id (u64_of l "order_ref_be" m)
             |> set_qty (u32_of l "executed_shares_be" m)
             |> set_match_id (u64_of l "match_number_be" m))
      else if t =? ch "C" then
        let l := OrderExecutedPriceMessage in case l (fun m =>
          ev |> set_type ExecutePrice |> set_exchange_ts (decode_ts6 (field l "timestamp" m))
             |> set_order_id (u64_of l "order_ref_be" m)
             |> set_qty (u32_of l "executed_shares_be" m)
             |> set_match_id (u64_of l "match_number_be" m)
             |> set_price (u32_of l "execution_price_be" m))
      else if t =? ch "X" then
        let l := OrderCancelMessage in case l (fun m =>
          ev |> set_type Cancel |> set_exchange_ts (decode_ts6 (field l "timestamp" m))
             |> set_order_id (u64_of l "order_ref_be" m)
             |> set_qty (u32_of l "canceled_shares_be" m))
      else if t =? ch "D" then
        let l := OrderDeleteMessage in case l (fun m =>
          ev |> set_type Delete |> set_exchange_ts (decode_ts6 (field l "timestamp" m))
             |> set_order_id (u64_of l "order_ref_be" m))
      else if t =? ch "U" then
        let l := OrderReplaceMessage in case l (fun m =>
          ev |> set_type Replace |> set_exchange_ts (decode_ts6 (field l "timestamp" m))
             |> set_reference_order_id (u64_of l "original_order_ref_be" m)
             |> set_order_id (u64_of l "new_order_ref_be" m)
             |> set_qty (u32_of l "shares_be" m) |> set_price (u32_of l "price_be" m))
      else if t =? ch "P" then
        let l := TradeMessage in case l (fun m =>
          ev |> set_type Trade |> set_exchange_ts (decode_ts6 (field l "timestamp" m))
             |> set_order_id (u64_of l "order_ref_be" m)
             |> set_side (decode_side (byte_of l "buy_sell" m)) |> set_qty (u32_of l "shares_be" m)
             |> set_symbol (field l "stock" m) |> set_price (u32_of l "price_be" m)
             |> set_match_id (u64_of l "match_number_be" m))
      else if t =? ch "Q" then
        let l := CrossTradeMessage in case l (fun m =>
          ev |> set_type CrossTrade |> set_exchange_ts (decode_ts6 (field l "timestamp" m))
             |> set_qty (u32 (u64_of l "shares_be" m)) |> set_symbol (field l "stock" m)
             |> set_price (u32_of l "cross_price_be" m)
             |> set_match_id (u64_of l "match_number_be" m))
      else if t =? ch "I" then
        let l := NoiiMessage in case l (fun m =>
          ev |> set_type Imbalance |> set_exchange_ts (decode_ts6 (field l "timestamp" m))
             |> set_qty (u32 (u64_of l "imbalance_shares_be" m)) |> set_symbol (field l "stock" m))
      else if t =? ch "S" then
        let l := SystemEventMessage in case l (fun m =>
          ev |> set_type System |> set_exchange_ts (decode_ts6 (field l "timestamp" m)))
      else if t =? ch "R" then
        let l := StockDirectoryMessage in case l (fun m =>
          ev |> set_type StockDirectory |> set_exchange_ts (decode_ts6 (field l "timestamp" m))
             |> set_symbol (field l "stock" m))
      else (Some (ev |> set_type TypeUnknown), stats)
  end.

(** ** [parse_hot_message_simd] *)

(** [read_u64_fast(p + off)] and the other reads at fixed offsets, [p] being
    the payload after its type byte. The vector load of the add message reads
    a local copy and has no effect. *)
Definition parse_hot_message_simd (payload : list Z) (seq ingest : Z) (stats : ParseStats)
    : option BookEvent * ParseStats :=
  match payload with
  | [] => (None, inc_malformed stats)
  | t :: p =>
      if negb (t =? ch "A") && negb (t =? ch "E") && negb (t =? ch "X") && negb (t =? ch "D")
      then itch_parse_message payload seq ingest stats else
      let stats := count_type t stats in
      let ev := parsed_event Nasdaq seq ingest t in
      let require_size (l : Layout) (ev : BookEvent) :=
        if (length payload <? sizeof l + 1)%nat then (None, inc_malformed stats) else (Some ev, stats) in
      let u32_at off := read_be 4 (slice p off 4) in
      let u64_at off := read_be 8 (slice p off 8) in
      if t =? ch "A" then require_size AddOrderMessage
        (ev |> set_type Add |> set_exchange_ts (decode_ts6 (slice p 4 6)) |> set_order_id (u64_at 10%nat)
            |> set_side (decode_side (first_byte (slice p 18 1))) |> set_qty (u32_at 19%nat)
            |> set_symbol (slice p 23 8) |> set_price (u32_at 31%nat))
      else if t =? ch "E" then require_size OrderExecutedMessage
        (ev |> set_type Execute |> set_exchange_ts (decode_ts6 (slice p 4 6)) |> set_order_id (u64_at 10%nat)
            |> set_qty (u32_at 18%nat) |> set_match_id (u64_at 22%nat))
      else if t =? ch "X" then require_size OrderCancelMessage
        (ev |> set_type Cancel |> set_exchange_ts (decode_ts6 (slice p 4 6)) |> set_order_id (u64_at 10%nat)
            |> set_qty (u32_at 18%nat))
      else if t =? ch "D" then require_size OrderDeleteMessage
        (ev |> set_type Delete |> set_exchange_ts (decode_ts6 (slice p 4 6)) |> set_order_id (u64_at 10%nat))
      else itch_parse_message payload seq ingest stats
  end.

(** ** The two parsers agree *)

(** The hand-optimised hot path and the reference parser are the same
    function: same event, same statistics, on every payload, well-formed or
    not. *)
Theorem hot_path_equivalent payload seq ingest stats :
  parse_hot_message_simd payload seq ingest stats = itch_parse_message payload seq ingest stats.
Proof.
  destruct payload as [|t p]; [done|]. cbn [parse_hot_message_simd].
  destruct (t =? ch "A") eqn:EA; simpl negb; cbn [andb];
    [|destruct (t =? ch "E") eqn:EE; simpl negb; cbn [andb];
      [|destruct (t =? ch "X") eqn:EX; simpl negb; cbn [andb];
        [|destruct (t =? ch "D") eqn:ED; simpl negb; cbn [andb]; [|done]]]];
    zbool; subst t; cbn [itch_parse_message]; cbv zeta;
    repeat match goal with |- context [ch ?a =? ch ?b] =>
      let r := eval vm_compute in (ch a =? ch b) in change (ch a =? ch b) with r end; cbn match;
    destruct (_ <? _)%nat; try done; do 2 f_equal;
    do 20 (try (erewrite field_slice by reflexivity)); reflexivity.
Qed.

(** ** Results fit their members *)

Lemma lor_step a b k : 0 <= a -> byte_ok b -> 0 <= k ->
  Z.lor (Z.shiftl a (k + 8)) (Z.shiftl b k) = Z.shiftl (a * 256 + b) k.
Proof.
  intros Ha Hb Hk. replace (k + 8) with (8 + k) by lia.
  rewrite <-Z.shiftl_shiftl, <-Z.shiftl_lor by lia. f_equal. rewrite lor_shift8 by done.
  lia.
Qed.

Lemma decode_ts6_spec p : bytes_ok p -> length p = 6%nat -> decode_ts6 p = le_val (rev p).
Proof.
  intros Hok Hl. destruct p as [|b0 [|b1 [|b2 [|b3 [|b4 [|b5 [|]]]]]]]; try done.
  repeat match goal with H : bytes_ok (_ :: _) |- _ => apply Forall_cons in H as [? H] end.
  unfold decode_ts6. cbn [nth].
  change 40 with (32 + 8). rewrite lor_step by (unfold byte_ok, is_u in *; lia).
  change 32 with (24 + 8). rewrite lor_step by (unfold byte_ok, is_u in *; lia).
  change 24 with (16 + 8). rewrite lor_step by (unfold byte_ok, is_u in *; lia).
  change 16 with (8 + 8). rewrite lor_step by (unfold byte_ok, is_u in *; lia).
  rewrite lor_shift8 by (unfold byte_ok, is_u in *; lia).
  cbn [rev app]. rewrite !le_val_cons, le_val_nil. lia.
Qed.

Lemma decode_ts6_range p : bytes_ok p -> length p = 6%nat -> 0 <= decode_ts6 p < 2 ^ 48.
Proof.
  intros Hok Hl. rewrite decode_ts6_spec by done. pose proof (le_val_range (rev p) (Forall_rev Hok)) as H.
  by rewrite length_rev, Hl in H.
Qed.

Lemma itch_parse_fits payload seq ingest stats :
  bytes_ok payload -> is_u 64 seq -> is_u 64 ingest ->
  let '(r, stats') := itch_parse_message payload seq ingest stats in
  match r with
  | Some ev => event_ok ev /\ sequence ev = seq /\ venue ev = Nasdaq /\
               malformed_messages stats' = malformed_messages stats
  | None => malformed_messages stats' = malformed_messages stats +64 1
  end.
Proof.
  intros Hok Hs Hi. destruct payload as [|t p]; [done|].
  assert (is_u 8 t) as Ht by (by apply Forall_cons in Hok as [? _]).
  assert (forall l b w name, field_at l name 1 = Some (b, w) -> (b + w <= 1 + sizeof l)%nat ->
    (length (t :: p) <? sizeof l + 1)%nat = false ->
    bytes_ok (field l name (slice (t :: p) 1 (sizeof l))) /\
    length (field l name (slice (t :: p) 1 (sizeof l))) = w) as Hfield.
  { intros l b w name Hat Hb Hlen. apply Nat.ltb_ge in Hlen. eapply field_ok; eauto. lia. }
  assert (forall l, field_at l "timestamp" 1 = Some (5, 6)%nat -> (11 <= 1 + sizeof l)%nat ->
    (length (t :: p) <? sizeof l + 1)%nat = false ->
    is_u 64 (decode_ts6 (field l "timestamp" (slice (t :: p) 1 (sizeof l))))) as Hts.
  { intros l Hat Hb Hlen. destruct (Hfield l _ _ _ Hat Hb Hlen) as [Hb' Hl'].
    pose proof (decode_ts6_range _ Hb' Hl'). unfold is_u. lia. }
  unfold itch_parse_message. cbv zeta.
  repeat match goal with
  | |- context [if t =? ?c then _ else _] => destruct (t =? c)
  end; try (destruct (length (t :: p) <? _)%nat eqn:Hlen; [done|]);
    (split; [|done]); build_event_ok;
    first [ apply Hts; [reflexivity|simpl; lia|done]
          | split; eapply Hfield; [reflexivity|simpl; lia|done|reflexivity|simpl; lia|done] ].
Qed.

(** A payload byte-for-byte within range gives an event every member of which
    is within the range of its C++ type, and the statistics say whether it
    was accepted. *)
Theorem itch_parse_sound payload seq ingest stats :
  bytes_ok payload -> is_u 64 seq -> is_u 64 ingest ->
  let '(r, stats') := itch_parse_message payload seq ingest stats in
  match r with
  | Some ev => event_ok ev /\ sequence ev = seq /\ venue ev = Nasdaq /\
               malformed_messages stats' = malformed_messages stats
  | None => malformed_messages stats' = malformed_messages stats +64 1
  end.
Proof. apply itch_parse_fits. Qed.

(** ** Round trip with the protocol's encoding *)

(** The messages the parser tells apart, and their encoding as the specification
    lays it out: numbers big-endian, six-byte timestamps. *)
Inductive ItchMessage :=
  | ItchAdd (ref : Z) (s : Side) (shares : Z) (stock : SymbolKey) (price : Z)
  | ItchAddMpid (ref : Z) (s : Side) (shares : Z) (stock : SymbolKey) (price : Z) (attribution : list Z)
  | ItchExecute (ref shares match_number : Z)
  | ItchExecutePrice (ref shares match_number printable price : Z)
  | ItchCancel (ref shares : Z)
  | ItchDelete (ref : Z)
  | ItchReplace (old_ref new_ref shares price : Z)
  | ItchTrade (ref : Z) (s : Side) (shares : Z) (stock : SymbolKey) (price match_number : Z)
  | ItchCross (shares : Z) (stock : SymbolKey) (price match_number cross_type : Z)
  | ItchSystem (event_code : Z)
  | ItchImbalance (paired imbalance direction : Z) (stock : SymbolKey) (far near reference cross_type variation : Z)
  | ItchDirectory (stock : SymbolKey) (attributes : list Z).

Record ItchHeader := mkItchHeader { h_locate : Z; h_tracking : Z; h_timestamp : Z }.

Definition encode_side (s : Side) : Z :=
  match s with Buy => ch "B" | Sell => ch "S" | SideUnknown => ch " " end.

Definition itch_type (m : ItchMessage) : Z :=
  match m with
  | ItchAdd _ _ _ _ _ => ch "A" | ItchAddMpid _ _ _ _ _ _ => ch "F" | ItchExecute _ _ _ => ch "E"
  | ItchExecutePrice _ _ _ _ _ => ch "C" | ItchCancel _ _ => ch "X" | ItchDelete _ => ch "D"
  | ItchReplace _ _ _ _ => ch "U" | ItchTrade _ _ _ _ _ _ => ch "P" | ItchCross _ _ _ _ _ => ch "Q"
  | ItchSystem _ => ch "S" | ItchImbalance _ _ _ _ _ _ _ _ _ => ch "I" | ItchDirectory _ _ => ch "R"
  end.

Definition itch_body (m : ItchMessage) : list Z :=
  match m with
  | ItchAdd ref s shares stock price =>
      be 8 ref ++ [encode_side s] ++ be 4 shares ++ stock ++ be 4 price
  | ItchAddMpid ref s shares stock price attribution =>
      be 8 ref ++ [encode_side s] ++ be 4 shares ++ stock ++ be 4 price ++ attribution
  | ItchExecute ref shares mn => be 8 ref ++ be 4 shares ++ be 8 mn
  | ItchExecutePrice ref shares mn printable price =>
      be 8 ref ++ be 4 shares ++ be 8 mn ++ [printable] ++ be 4 price
  | ItchCancel ref shares => be 8 ref ++ be 4 shares
  | ItchDelete ref => be 8 ref
  | ItchReplace old_ref new_ref shares price => be 8 old_ref ++ be 8 new_ref ++ be 4 shares ++ be 4 price
  | ItchTrade ref s shares stock price mn =>
      be 8 ref ++ [encode_side s] ++ be 4 shares ++ stock ++ be 4 price ++ be 8 mn
  | ItchCross shares stock price mn ct => be 8 shares ++ stock ++ be 4 price ++ be 8 mn ++ [ct]
  | ItchSystem code => [code]
  | ItchImbalance paired imbalance direction stock far near reference ct variation =>
      be 8 paired ++ be 8 imbalance ++ [direction] ++ stock ++ be 4 far ++ be 4 near ++ be 4 reference ++ [ct] ++ [variation]
  | ItchDirectory stock attributes => stock ++ attributes
  end.

Definition encode_itch (h : ItchHeader) (m : ItchMessage) : list Z :=
  itch_type m :: be 2 (h_locate h) ++ be 2 (h_tracking h) ++ be 6 (h_timestamp h) ++ itch_body m.

(** Every number fits its field. *)
Definition itch_message_ok (m : ItchMessage) : Prop :=
  match m with
  | ItchAdd ref _ shares stock price =>
      is_u 64 ref /\ is_u 32 shares /\ length stock = 8%nat /\ is_u 32 price
  | ItchAddMpid ref _ shares stock price attribution =>
      is_u 64 ref /\ is_u 32 shares /\ length stock = 8%nat /\ is_u 32 price /\ length attribution = 4%nat
  | ItchExecute ref shares mn => is_u 64 ref /\ is_u 32 shares /\ is_u 64 mn
  | ItchExecutePrice ref shares mn _ price => is_u 64 ref /\ is_u 32 shares /\ is_u 64 mn /\ is_u 32 price
  | ItchCancel ref shares => is_u 64 ref /\ is_u 32 shares
  | ItchDelete ref => is_u 64 ref
  | ItchReplace old_ref new_ref shares price =>
      is_u 64 old_ref /\ is_u 64 new_ref /\ is_u 32 shares /\ is_u 32 price
  | ItchTrade ref _ shares stock price mn =>
      is_u 64 ref /\ is_u 32 shares /\ length stock = 8%nat /\ is_u 32 price /\ is_u 64 mn
  | ItchCross shares stock price mn _ =>
      is_u 64 shares /\ length stock = 8%nat /\ is_u 32 price /\ is_u 64 mn
  | ItchSystem _ => True
  | ItchImbalance paired imbalance _ stock far near reference _ _ =>
      is_u 64 paired /\ is_u 64 imbalance /\ length stock = 8%nat /\ is_u 32 far /\ is_u 32 near /\ is_u 32 reference
  | ItchDirectory stock attributes => length stock = 8%nat /\ length attributes = 20%nat
  end.

(** The event a message stands for. *)
Definition itch_event (h : ItchHeader) (m : ItchMessage) (seq ingest : Z) : BookEvent :=
  let ev := parsed_event Nasdaq seq ingest (itch_type m) |> set_exchange_ts (h_timestamp h) in
  match m with
  | ItchAdd ref s shares stock price =>
      ev |> set_type Add |> set_order_id ref |> set_side s |> set_qty shares |> set_symbol stock |> set_price price
  | ItchAddMpid ref s shares stock price attribution =>
      ev |> set_type AddMpid |> set_order_id ref |> set_side s |> set_qty shares |> set_symbol stock
         |> set_price price |> set_mpid (Some attribution)
  | ItchExecute ref shares mn => ev |> set_type Execute |> set_order_id ref |> set_qty shares |> set_match_id mn
  | ItchExecutePrice ref shares mn _ price =>
      ev |> set_type ExecutePrice |> set_order_id ref |> set_qty shares |> set_match_id mn |> set_price price
  | ItchCancel ref shares => ev |> set_type Cancel |> set_order_id ref |> set_qty shares
  | ItchDelete ref => ev |> set_type Delete |> set_order_id ref
  | ItchReplace old_ref new_ref shares price =>
      ev |> set_type Replace |> set_reference_order_id old_ref |> set_order_id new_ref |> set_qty shares
         |> set_price price
  | ItchTrade ref s shares stock price mn =>
      ev |> set_type Trade |> set_order_id ref |> set_side s |> set_qty shares |> set_symbol stock
         |> set_price price |> set_match_id mn
  | ItchCross shares stock price mn _ =>
      ev |> set_type CrossTrade |> set_qty (u32 shares) |> set_symbol stock |> set_price price |> set_match_id mn
  | ItchSystem _ => ev |> set_type System
  | ItchImbalance _ imbalance _ stock _ _ _ _ _ => ev |> set_type Imbalance |> set_qty (u32 imbalance) |> set_symbol stock
  | ItchDirectory stock _ => ev |> set_type StockDirectory |> set_symbol stock
  end.

Lemma decode_encode_side s : decode_side (encode_side s) = s.
Proof. by destruct s. Qed.

Lemma decode_ts6_be ts : is_u 48 ts -> decode_ts6 (be 6 ts) = ts.
Proof.
  intros Hts. rewrite decode_ts6_spec by (apply be_ok || apply length_be).
  unfold be. rewrite rev_involutive, le_val_le_bytes. by apply Z.mod_small.
Qed.

Lemma itch_parse_encode h m trailing seq ingest stats :
  is_u 48 (h_timestamp h) -> itch_message_ok m ->
  itch_parse_message (encode_itch h m ++ trailing) seq ingest stats
  = (Some (itch_event h m seq ingest), count_type (itch_type m) stats).
Proof.
  intros Hts Hm. unfold encode_itch. cbn [app itch_parse_message]. rewrite <-!app_assoc. cbv zeta.
  destruct m; cbn [itch_type itch_body itch_message_ok itch_event] in *;
    repeat match goal with |- context [ch ?a =? ch ?b] =>
      let r := eval vm_compute in (ch a =? ch b) in change (ch a =? ch b) with r end; cbn match;
    (rewrite (proj2 (Nat.ltb_ge _ _)) by
      (cbn [length]; rewrite !length_app, !length_be; destruct_and?; simpl; lia));
    destruct_and?; do 2 f_equal; unfold slice; cbn [drop]; rewrite !field_take, ?drop_0, <-?app_assoc;
    unfold AddOrderMpidMessage, AddOrderMessage, OrderExecutedMessage, OrderExecutedPriceMessage,
      OrderCancelMessage, OrderDeleteMessage, OrderReplaceMessage, TradeMessage, CrossTradeMessage,
      SystemEventMessage, NoiiMessage, StockDirectoryMessage, itch_prefix; cbn [app]; fold_bytes; read_fields;
    rewrite ?read_be_u32_be, ?read_be_u64_be, ?decode_ts6_be by done; cbn [first_byte hd];
    by rewrite ?decode_encode_side.
Qed.

(** Parsing inverts encoding: a well-formed message, whatever bytes follow
    it, is parsed to exactly the event it stands for and counted under its
    type. *)
Theorem itch_round_trip h m trailing seq ingest stats :
  is_u 48 (h_timestamp h) -> itch_message_ok m ->
  itch_parse_message (encode_itch h m ++ trailing) seq ingest stats
  = (Some (itch_event h m seq ingest), count_type (itch_type m) stats).
Proof. apply itch_parse_encode. Qed.

Lemma itch_round_trip_witness :
  itch_parse_message (encode_itch (mkItchHeader 1 2 34200000000000)
    (ItchAdd 77 Buy 100 [65; 65; 80; 76; 32; 32; 32; 32] 1500000) ++ []) 5 9 parse_stats_init
  = (Some (itch_event (mkItchHeader 1 2 34200000000000)
      (ItchAdd 77 Buy 100 [65; 65; 80; 76; 32; 32; 32; 32] 1500000) 5 9), count_type 65 parse_stats_init).
Proof. apply itch_round_trip; [unfold is_u; simpl; lia|repeat split; unfold is_u; lia]. Defined.

Lemma itch_parse_sound_witness :
  let '(r, stats') := itch_parse_message [88; 0; 1] 5 9 parse_stats_init in
  match r with
  | Some ev => event_ok ev /\ sequence ev = 5 /\ venue ev = Nasdaq /\
               malformed_messages stats' = malformed_messages parse_stats_init
  | None => malformed_messages stats' = malformed_messages parse_stats_init +64 1
  end.
Proof.
  apply (itch_parse_sound [88; 0; 1] 5 9 parse_stats_init);
    [repeat constructor; unfold byte_ok, is_u; lia|unfold is_u; lia|unfold is_u; lia].
Defined.
