(* ===== verification/Deep.v ===== *)
(** * IEX DEEP+ parser (src/proto/iex/deep_parser.cpp)

    Fixed-size little-endian messages, each accepted only at its exact size;
    64-bit prices are clamped to 32 bits. Parsing inverts the encoding, up to
    that clamp, and every result fits its members. *)

From S2P Require Import Prelude Wire Types.

#[local] Open Scope string_scope.
#[local] Open Scope list_scope.
#[local] Open Scope Z_scope.

(** ** Message structs (include/mf/proto/iex/deep_messages.hpp) *)

Definition SystemEventMessage : Layout :=
  [("msg_type", 1); ("system_event", 1); ("timestamp_le", 8)]%nat.

Definition SecurityEventMessage : Layout :=
  [("msg_type", 1); ("security_event", 1); ("timestamp_le", 8); ("symbol", 8)]%nat.

Definition AddOrderMessage : Layout :=
  [("msg_type", 1); ("side", 1); ("timestamp_le", 8); ("symbol", 8); ("order_id_le", 8);
   ("size_le", 4); ("price_le", 8)]%nat.

Definition ModifyOrderMessage : Layout :=
  [("msg_type", 1); ("modify_flags", 1); ("timestamp_le", 8); ("symbol", 8);
   ("order_id_ref_le", 8); ("size_le", 4); ("price_le", 8)]%nat.

Definition DeleteOrderMessage : Layout :=
  [("msg_type", 1); ("reserved", 1); ("timestamp_le", 8); ("symbol", 8); ("order_id_ref_le", 8)]%nat.

Definition OrderExecutedMessage : Layout :=
  [("msg_type", 1); ("sale_condition_flags", 1); ("timestamp_le", 8); ("symbol", 8);
   ("order_id_ref_le", 8); ("size_le", 4); ("price_le", 8); ("trade_id_le", 8)]%nat.

Definition TradeMessage : Layout :=
  [("msg_type", 1); ("sale_condition_flags", 1); ("timestamp_le", 8); ("symbol", 8);
   ("size_le", 4); ("price_le", 8); ("trade_id_le", 8)]%nat.

Lemma deep_sizes : map sizeof
    [SystemEventMessage; SecurityEventMessage; AddOrderMessage; ModifyOrderMessage;
     DeleteOrderMessage; OrderExecutedMessage; TradeMessage]
  = [10; 18; 38; 38; 26; 46; 38]%nat.
Proof. reflexivity. Qed.

(** ** Statistics and field decoders *)

Record DeepStats := mkDeepStats { deep_base : ParseStats; unimplemented_messages : Z }.

Definition deep_side (c : Z) : Side :=
  if c =? ch "8" then Buy else if c =? ch "5" then Sell else SideUnknown.

(** [std::min<uint64_t>(v, UINT32_MAX)]. *)
Definition narrow_u64_to_u32 (v : Z) : Z := Z.min v (2 ^ 32 - 1).

(** ** [parse_message] *)

Definition deep_parse_message (payload : list Z) (seq ingest : Z) (stats : DeepStats)
    : option BookEvent * DeepStats :=
  let malformed s := (None, mkDeepStats (inc_malformed (deep_base s)) (unimplemented_messages s)) in
  match payload with
  | [] => malformed stats
  | t :: _ =>
      let stats := mkDeepStats (count_type t (deep_base stats)) (unimplemented_messages stats) in
      let ev := parsed_event Iex seq ingest t in
      let case (l : Layout) (k : list Z -> BookEvent) :=
        if negb (length payload =? sizeof l)%nat then malformed stats
        else (Some (k (slice payload 0 (sizeof l))), stats) in
      let u32_of l n m := read_le 4 (field l n m) in
      let u64_of l n m := read_le 8 (field l n m) in
      if t =? ch "S" then
        let l := SystemEventMessage in case l (fun m =>
          ev |> set_type System |> set_exchange_ts (u64_of l "timestamp_le" m))
      else if t =? ch "E" then
        let l := SecurityEventMessage in case l (fun m =>
          ev |> set_type System |> set_exchange_ts (u64_of l "timestamp_le" m)
             |> set_symbol (field l "symbol" m))
      else if t =? ch "a" then
        let l := AddOrderMessage in case l (fun m =>
          ev |> set_type Add |> set_exchange_ts (u64_of l "timestamp_le" m)
             |> set_symbol (field l "symbol" m) |> set_order_id (u64_of l "order_id_le" m)
             |> set_qty (u32_of l "size_le" m) |> set_price (narrow_u64_to_u32 (u64_of l "price_le" m))
             |> set_side (deep_side (first_byte (field l "side" m))))
      else if t =? ch "M" then
        let l := ModifyOrderMessage in case l (fun m =>
          ev |> set_type Replace |> set_exchange_ts (u64_of l "timestamp_le" m)
             |> set_symbol (field l "symbol" m) |> set_order_id (u64_of l "order_id_ref_le" m)
             |> set_qty (u32_of l "size_le" m) |> set_price (narrow_u64_to_u32 (u64_of l "price_le" m)))
      else if t =? ch "R" then
        let l := DeleteOrderMessage in case l (fun m =>
          ev |> set_type Delete |> set_exchange_ts (u64_of l "timestamp_le" m)
             |> set_symbol (field l "symbol" m) |> set_order_id (u64_of l "order_id_ref_le" m))
      else if t =? ch "L" then
        let l := OrderExecutedMessage in case l (fun m =>
          ev |> set_type ExecutePrice |> set_exchange_ts (u64_of l "timestamp_le" m)
             |> set_symbol (field l "symbol" m) |> set_order_id (u64_of l "order_id_ref_le" m)
             |> set_qty (u32_of l "size_le" m) |> set_price (narrow_u64_to_u32 (u64_of l "price_le" m))
             |> set_match_id (u64_of l "trade_id_le" m))
      else if t =? ch "T" then
        let l := TradeMessage in case l (fun m =>
          ev |> set_type Trade |> set_exchange_ts (u64_of l "timestamp_le" m)
             |> set_symbol (field l "symbol" m) |> set_qty (u32_of l "size_le" m)
             |> set_price (narrow_u64_to_u32 (u64_of l "price_le" m))
             |> set_match_id (u64_of l "trade_id_le" m))
      else (Some (ev |> set_type TypeUnknown),
            mkDeepStats (deep_base stats) (unimplemented_messages stats +64 1))
  end.

(** ** Results fit their members *)

Lemma read_le_u32 p : bytes_ok p -> is_u 32 (read_le 4 p).
Proof. apply (read_le_range 4). Qed.
Lemma read_le_u64 p : bytes_ok p -> is_u 64 (read_le 8 p).
Proof. apply (read_le_range 8). Qed.
Lemma narrow_u32 v : 0 <= v -> is_u 32 (narrow_u64_to_u32 v).
Proof. unfold narrow_u64_to_u32, is_u. lia. Qed.
Lemma narrow_read p : bytes_ok p -> is_u 32 (narrow_u64_to_u32 (read_le 8 p)).
Proof. intros H. apply narrow_u32, (read_le_range 8 p H). Qed.
Lemma field_bytes_ok l name : forall p, bytes_ok p -> bytes_ok (field l name p).
Proof.
  induction l as [|[n w] l IH]; intros p Hp; [constructor|]. cbn [field].
  destruct (String.eqb n name); [by apply Forall_take|by apply IH, Forall_drop].
Qed.
#[export] Hint Resolve read_le_u32 read_le_u64 narrow_read field_bytes_ok bytes_ok_slice : mf.

(** Every event produced fits the members it is stored in; a message that is
    refused is counted as malformed and no other message is. *)
Theorem deep_parse_sound payload seq ingest stats :
  bytes_ok payload -> is_u 64 seq -> is_u 64 ingest ->
  let '(r, stats') := deep_parse_message payload seq ingest stats in
  match r with
  | Some ev => event_ok ev /\ sequence ev = seq /\ venue ev = Iex /\
               malformed_messages (deep_base stats') = malformed_messages (deep_base stats)
  | None => malformed_messages (deep_base stats') = malformed_messages (deep_base stats) +64 1
  end.
Proof.
  intros Hok Hs Hi. destruct payload as [|t p]; [done|].
  assert (is_u 8 t) as Ht by (by apply Forall_cons in Hok as [? _]).
  unfold deep_parse_message. cbv zeta.
  repeat match goal with
  | |- context [if t =? ?c then _ else _] => destruct (t =? c)
  end; try (destruct (length (t :: p) =? _)%nat eqn:Hlen; cbn [negb]; [apply Nat.eqb_eq in Hlen|done]);
    (split; [|done]); build_event_ok; auto with mf;
    (split; [|by auto with mf]; erewrite field_slice by reflexivity; apply length_slice; simpl in *; lia).
Qed.

(** ** Round trip with the protocol's encoding *)

(** The messages the parser tells apart; the administrative ones become events
    of unknown type, counted as unimplemented. *)
Inductive DeepMessage :=
  | DeepSystem (system_event ts : Z)
  | DeepSecurity (security_event ts : Z) (sym : SymbolKey)
  | DeepAdd (s : Side) (ts : Z) (sym : SymbolKey) (id size price : Z)
  | DeepModify (flags ts : Z) (sym : SymbolKey) (id size price : Z)
  | DeepDelete (ts : Z) (sym : SymbolKey) (id : Z)
  | DeepExecuted (flags ts : Z) (sym : SymbolKey) (id size price trade : Z)
  | DeepTrade (flags ts : Z) (sym : SymbolKey) (size price trade : Z).

Definition encode_deep_side (s : Side) : Z :=
  match s with Buy => ch "8" | Sell => ch "5" | SideUnknown => ch " " end.

Definition encode_deep (m : DeepMessage) : list Z :=
  let le := le_bytes in
  match m with
  | DeepSystem e ts => [ch "S"] ++ [e] ++ le 8%nat ts
  | DeepSecurity e ts sym => [ch "E"] ++ [e] ++ le 8%nat ts ++ sym
  | DeepAdd s ts sym id size price =>
      [ch "a"] ++ [encode_deep_side s] ++ le 8%nat ts ++ sym ++ le 8%nat id ++ le 4%nat size ++ le 8%nat price
  | DeepModify f ts sym id size price =>
      [ch "M"] ++ [f] ++ le 8%nat ts ++ sym ++ le 8%nat id ++ le 4%nat size ++ le 8%nat price
  | DeepDelete ts sym id => [ch "R"] ++ [0] ++ le 8%nat ts ++ sym ++ le 8%nat id
  | DeepExecuted f ts sym id size price trade =>
      [ch "L"] ++ [f] ++ le 8%nat ts ++ sym ++ le 8%nat id ++ le 4%nat size ++ le 8%nat price ++ le 8%nat trade
  | DeepTrade f ts sym size price trade =>
      [ch "T"] ++ [f] ++ le 8%nat ts ++ sym ++ le 4%nat size ++ le 8%nat price ++ le 8%nat trade
  end.

Definition deep_message_ok (m : DeepMessage) : Prop :=
  match m with
  | DeepSystem _ ts => is_u 64 ts
  | DeepSecurity _ ts sym => is_u 64 ts /\ length sym = 8%nat
  | DeepAdd _ ts sym id size price | DeepModify _ ts sym id size price =>
      is_u 64 ts /\ length sym = 8%nat /\ is_u 64 id /\ is_u 32 size /\ is_u 64 price
  | DeepDelete ts sym id => is_u 64 ts /\ length sym = 8%nat /\ is_u 64 id
  | DeepExecuted _ ts sym id size price trade =>
      is_u 64 ts /\ length sym = 8%nat /\ is_u 64 id /\ is_u 32 size /\ is_u 64 price /\ is_u 64 trade
  | DeepTrade _ ts sym size price trade =>
      is_u 64 ts /\ length sym = 8%nat /\ is_u 32 size /\ is_u 64 price /\ is_u 64 trade
  end.

(** The event a message stands for; prices above 2^32 - 1 saturate. *)
Definition deep_event (m : DeepMessage) (seq ingest : Z) : BookEvent :=
  let ev t ts := parsed_event Iex seq ingest t |> set_exchange_ts ts in
  match m with
  | DeepSystem _ ts => ev (ch "S") ts |> set_type System
  | DeepSecurity _ ts sym => ev (ch "E") ts |> set_type System |> set_symbol sym
  | DeepAdd s ts sym id size price =>
      ev (ch "a") ts |> set_type Add |> set_symbol sym |> set_order_id id |> set_qty size
        |> set_price (narrow_u64_to_u32 price) |> set_side s
  | DeepModify _ ts sym id size price =>
      ev (ch "M") ts |> set_type Replace |> set_symbol sym |> set_order_id id |> set_qty size
        |> set_price (narrow_u64_to_u32 price)
  | DeepDelete ts sym id => ev (ch "R") ts |> set_type Delete |> set_symbol sym |> set_order_id id
  | DeepExecuted _ ts sym id size price trade =>
      ev (ch "L") ts |> set_type ExecutePrice |> set_symbol sym |> set_order_id id |> set_qty size
        |> set_price (narrow_u64_to_u32 price) |> set_match_id trade
  | DeepTrade _ ts sym size price trade =>
      ev (ch "T") ts |> set_type Trade |> set_symbol sym |> set_qty size
        |> set_price (narrow_u64_to_u32 price) |> set_match_id trade
  end.

Lemma deep_side_encode s : deep_side (encode_deep_side s) = s.
Proof. by destruct s. Qed.

Definition deep_type (m : DeepMessage) : Z := hd 0 (encode_deep m).

Lemma deep_parse_encode m seq ingest stats : deep_message_ok m ->
  deep_parse_message (encode_deep m) seq ingest stats =
  (Some (deep_event m seq ingest), mkDeepStats (count_type (deep_type m) (deep_base stats)) (unimplemented_messages stats)).
Proof.
  intros Hm. rewrite <-(app_nil_r (encode_deep m)).
  destruct m; cbn [encode_deep deep_message_ok deep_event app deep_parse_message] in *; cbv zeta;
    rewrite <-?app_assoc; destruct_and?;
    repeat match goal with |- context [ch ?a =? ch ?b] =>
      let r := eval vm_compute in (ch a =? ch b) in change (ch a =? ch b) with r end; cbn match;
    (rewrite (proj2 (Nat.eqb_eq _ _)) by
      (cbn [length]; rewrite ?length_app, ?length_le_bytes; simpl; lia));
    cbn [negb]; do 2 f_equal;
    unfold slice; rewrite drop_0, !field_take;
    unfold SystemEventMessage, SecurityEventMessage, AddOrderMessage, ModifyOrderMessage,
      DeleteOrderMessage, OrderExecutedMessage, TradeMessage; fold_bytes; fold_bytes; read_fields;
    rewrite ?read_le_u32_le, ?read_le_u64_le by done; cbn [first_byte hd];
    by rewrite ?deep_side_encode.
Qed.

(** Parsing inverts encoding, prices clamped to 32 bits. *)
Theorem deep_round_trip m seq ingest stats : deep_message_ok m ->
  let '(r, stats') := deep_parse_message (encode_deep m) seq ingest stats in
  r = Some (deep_event m seq ingest) /\ unimplemented_messages stats' = unimplemented_messages stats.
Proof. intros Hm. by rewrite deep_parse_encode. Qed.

Lemma deep_round_trip_witness :
  let m := DeepAdd Sell 5 [65; 65; 80; 76; 32; 32; 32; 32] 7 100 5000000000 in
  let '(r, _) := deep_parse_message (encode_deep m) 1 2 (mkDeepStats parse_stats_init 0) in
  r = Some (deep_event m 1 2).
Proof.
  cbn zeta.
  pose proof (deep_round_trip (DeepAdd Sell 5 [65; 65; 80; 76; 32; 32; 32; 32] 7 100 5000000000) 1 2
    (mkDeepStats parse_stats_init 0)) as H.
  destruct (deep_parse_message _ _ _ _) as [r s]. apply H. repeat split; unfold is_u; lia.
Defined.

Lemma deep_parse_sound_witness :
  let '(r, stats') := deep_parse_message [82; 0; 1] 5 9 (mkDeepStats parse_stats_init 0) in
  match r with
  | Some ev => event_ok ev /\ sequence ev = 5 /\ venue ev = Iex /\
               malformed_messages (deep_base stats') = 0
  | None => malformed_messages (deep_base stats') = 0 +64 1
  end.
Proof.
  apply (deep_parse_sound [82; 0; 1] 5 9 (mkDeepStats parse_stats_init 0));
    [repeat constructor; unfold byte_ok, is_u; lia|unfold is_u; lia|unfold is_u; lia].
Defined.

(** A modification names the order it changes in [order_id] only: the engine
    looks a replaced order up by [reference_order_id], which stays 0, and the
    new side is unknown, so a modified order keeps its old level. *)
Example modify_has_no_reference :
  forall flags ts sym id size price seq ingest,
  let ev := deep_event (DeepModify flags ts sym id size price) seq ingest in
  type ev = Replace /\ reference_order_id ev = 0 /\ side ev = SideUnknown.
Proof. done. Qed.
