(* ===== verification/Pitch.v ===== *)
(** * Cboe PITCH parser (src/proto/cboe/pitch_parser.cpp)

    Fixed-length ASCII messages: decimal and base-36 numbers, space-padded
    symbols, prices with implied decimals. The digit loops never wrap at the
    widths the messages use; parsing inverts the encoding; every result fits
    its members. *)

From S2P Require Import Prelude Wire Types.

#[local] Open Scope string_scope.
#[local] Open Scope list_scope.
#[local] Open Scope Z_scope.

(** ** Message structs (include/mf/proto/cboe/pitch_messages.hpp) *)

Definition AddOrderShortMessage : Layout :=
  [("timestamp_ms", 8); ("msg_type", 1); ("order_id", 12); ("side", 1); ("shares", 6);
   ("symbol", 6); ("price", 10); ("reserved", 1)]%nat.

Definition AddOrderLongMessage : Layout :=
  [("timestamp_ms", 8); ("msg_type", 1); ("order_id", 12); ("side", 1); ("shares", 6);
   ("symbol", 8); ("price", 10); ("reserved", 1); ("participant_id", 4); ("customer_indicator", 1)]%nat.

Definition AddOrderExtendedMessage : Layout :=
  [("timestamp_ms", 8); ("msg_type", 1); ("order_id", 12); ("side", 1); ("shares", 6);
   ("symbol", 8); ("price_long", 14); ("display", 1); ("participant_id", 4); ("customer_indicator", 1)]%nat.

Definition OrderExecutedMessage : Layout :=
  [("timestamp_ms", 8); ("msg_type", 1); ("order_id", 12); ("executed_shares", 6); ("execution_id", 12)]%nat.

Definition OrderCancelMessage : Layout :=
  [("timestamp_ms", 8); ("msg_type", 1); ("order_id", 12); ("canceled_shares", 6)]%nat.

Definition TradeShortMessage : Layout :=
  [("timestamp_ms", 8); ("msg_type", 1); ("order_id", 12); ("side", 1); ("shares", 6);
   ("symbol", 6); ("price", 10); ("execution_id", 12)]%nat.

Definition TradeLongMessage : Layout :=
  [("timestamp_ms", 8); ("msg_type", 1); ("order_id", 12); ("side", 1); ("shares", 6);
   ("symbol", 8); ("price", 10); ("execution_id", 12)]%nat.

Definition TradeExtendedMessage : Layout :=
  [("timestamp_ms", 8); ("msg_type", 1); ("order_id", 12); ("side", 1); ("shares", 6);
   ("symbol", 8); ("price_long", 14); ("execution_id", 12)]%nat.

Lemma pitch_sizes : map sizeof
    [AddOrderShortMessage; AddOrderLongMessage; AddOrderExtendedMessage; OrderExecutedMessage;
     OrderCancelMessage; TradeShortMessage; TradeLongMessage; TradeExtendedMessage]
  = [45; 52; 56; 39; 27; 56; 58; 62]%nat.
Proof. reflexivity. Qed.

(** ** Field decoders *)

(** The digit loop both number parsers run: a character that is not a digit
    makes the whole number 0. *)
Fixpoint radix_loop (radix : Z) (digit : Z -> option Z) (value : Z) (p : list Z) : Z :=
  match p with
  | [] => value
  | c :: p =>
      match digit c with
      | None => 0
      | Some d => radix_loop radix digit (u64 (value * radix) +64 d) p
      end
  end.

Definition ascii_digit (c : Z) : option Z :=
  if (c <? ch "0") || (ch "9" <? c) then None else Some (c - ch "0").

Definition base36_digit (c : Z) : option Z :=
  if (ch "0" <=? c) && (c <=? ch "9") then Some (c - ch "0")
  else if (ch "A" <=? c) && (c <=? ch "Z") then Some (10 + (c - ch "A"))
  else None.

Definition parse_ascii_u64 (p : list Z) : Z := radix_loop 10 ascii_digit 0 p.
Definition parse_base36_u64 (p : list Z) : Z := radix_loop 36 base36_digit 0 p.

Definition parse_price_4dp (p : list Z) : Z := u32 (Z.min (parse_ascii_u64 (take 10 p)) (2 ^ 32 - 1)).

Definition parse_long_price_6dp_to_4dp (p : list Z) : Z :=
  u32 (Z.min (parse_ascii_u64 (take 14 p) / 100) (2 ^ 32 - 1)).

(** Pads with spaces up to eight characters, truncates beyond. *)
Definition copy_symbol (src : list Z) : SymbolKey :=
  take 8 src ++ replicate (8 - length src) (ch " ").

Definition ts_ms_to_ns (p : list Z) : Z := u64 (parse_ascii_u64 (take 8 p) * 1000000).

(** ** [parse_message] *)

Definition pitch_parse_message (payload : list Z) (seq ingest : Z) (stats : ParseStats)
    : option BookEvent * ParseStats :=
  match payload !! 8%nat with
  | None => (None, inc_malformed stats)
  | Some t =>
      let stats := count_type t stats in
      let ev := parsed_event Cboe seq ingest t in
      let case (l : Layout) (k : list Z -> BookEvent) :=
        if negb (length payload =? sizeof l)%nat then (None, inc_malformed stats)
        else (Some (k (slice payload 0 (sizeof l))), stats) in
      let ts_of l m := ts_ms_to_ns (field l "timestamp_ms" m) in
      let id_of l n m := parse_base36_u64 (field l n m) in
      let shares_of l n m := u32 (parse_ascii_u64 (field l n m)) in
      let side_of l m := decode_side (first_byte (field l "side" m)) in
      if t =? ch "A" then
        let l := AddOrderShortMessage in case l (fun m =>
          ev |> set_type Add |> set_exchange_ts (ts_of l m) |> set_order_id (id_of l "order_id" m)
             |> set_side (side_of l m) |> set_qty (shares_of l "shares" m)
             |> set_symbol (copy_symbol (field l "symbol" m)) |> set_price (parse_price_4dp (field l "price" m)))
      else if t =? ch "d" then
        let l := AddOrderLongMessage in case l (fun m =>
          ev |> set_type AddMpid |> set_exchange_ts (ts_of l m) |> set_order_id (id_of l "order_id" m)
             |> set_side (side_of l m) |> set_qty (shares_of l "shares" m)
             |> set_symbol (copy_symbol (field l "symbol" m)) |> set_price (parse_price_4dp (field l "price" m))
             |> set_mpid (Some (field l "participant_id" m)))
      else if t =? ch "1" then
        let l := AddOrderExtendedMessage in case l (fun m =>
          ev |> set_type AddMpid |> set_exchange_ts (ts_of l m) |> set_order_id (id_of l "order_id" m)
             |> set_side (side_of l m) |> set_qty (shares_of l "shares" m)
             |> set_symbol (copy_symbol (field l "symbol" m))
             |> set_price (parse_long_price_6dp_to_4dp (field l "price_long" m))
             |> set_mpid (Some (field l "participant_id" m)))
      else if t =? ch "E" then
        let l := OrderExecutedMessage in case l (fun m =>
          ev |> set_type Execute |> set_exchange_ts (ts_of l m) |> set_order_id (id_of l "order_id" m)
             |> set_qty (shares_of l "executed_shares" m) |> set_match_id (id_of l "execution_id" m))
      else if t =? ch "X" then
        let l := OrderCancelMessage in case l (fun m =>
          ev |> set_type Cancel |> set_exchange_ts (ts_of l m) |> set_order_id (id_of l "order_id" m)
             |> set_qty (shares_of l "canceled_shares" m))
      else if t =? ch "P" then
        let l := TradeShortMessage in case l (fun m =>
          ev |> set_type Trade |> set_exchange_ts (ts_of l m) |> set_order_id (id_of l "order_id" m)
             |> set_side (side_of l m) |> set_qty (shares_of l "shares" m)
             |> set_symbol (copy_symbol (field l "symbol" m)) |> set_price (parse_price_4dp (field l "price" m))
             |> set_match_id (id_of l "execution_id" m))
      else if t =? ch "r" then
        let l := TradeLongMessage in case l (fun m =>
          ev |> set_type Trade |> set_exchange_ts (ts_of l m) |> set_order_id (id_of l "order_id" m)
             |> set_side (side_of l m) |> set_qty (shares_of l "shares" m)
             |> set_symbol (copy_symbol (field l "symbol" m)) |> set_price (parse_price_4dp (field l "price" m))
             |> set_match_id (id_of l "execution_id" m))
      else if t =? ch "2" then
        let l := TradeExtendedMessage in case l (fun m =>
          ev |> set_type Trade |> set_exchange_ts (ts_of l m) |> set_order_id (id_of l "order_id" m)
             |> set_side (side_of l m) |> set_qty (shares_of l "shares" m)
             |> set_symbol (copy_symbol (field l "symbol" m))
             |> set_price (parse_long_price_6dp_to_4dp (field l "price_long" m))
             |> set_match_id (id_of l "execution_id" m))
      else (Some (ev |> set_type TypeUnknown), stats)
  end.

(** ** Digits *)

Fixpoint digits (radix : Z) (n : nat) (v : Z) : list Z :=
  match n with
  | O => []
  | S n => (v / radix ^ Z.of_nat n) mod radix :: digits radix n v
  end.

Definition digit_char (d : Z) : Z := if d <? 10 then ch "0" + d else ch "A" + (d - 10).

(** A number as [n] zero-padded digits. *)
Definition encode_digits (radix : Z) (n : nat) (v : Z) : list Z := map digit_char (digits radix n v).

Lemma length_encode_digits radix n v : length (encode_digits radix n v) = n.
Proof. unfold encode_digits. rewrite length_map. induction n; simpl; auto. Qed.

Lemma digits_range radix n v d : 0 < radix -> d ∈ digits radix n v -> 0 <= d < radix.
Proof.
  intros Hr. induction n as [|n IH]; simpl; [by intros ?%not_elem_of_nil|].
  intros [->|Hd]%elem_of_cons; [by apply Z.mod_pos_bound|auto].
Qed.

Lemma mod_pow_S radix n v : 0 < radix ->
  v mod radix ^ Z.of_nat (S n) = (v / radix ^ Z.of_nat n) mod radix * radix ^ Z.of_nat n + v mod radix ^ Z.of_nat n.
Proof.
  intros Hr. rewrite Nat2Z.inj_succ, Z.pow_succ_r by lia. rewrite Z.mul_comm.
  rewrite Z.rem_mul_r by (try apply Z.pow_nonzero; lia). lia.
Qed.

(** As long as the number fits 64 bits, the loop computes it without
    wrapping. *)
Lemma radix_loop_digits radix digit n v : forall a, 1 < radix ->
  (forall d, 0 <= d < radix -> digit (digit_char d) = Some d) ->
  0 <= a -> (a + 1) * radix ^ Z.of_nat n <= 2 ^ 64 ->
  radix_loop radix digit a (encode_digits radix n v) = a * radix ^ Z.of_nat n + v mod radix ^ Z.of_nat n.
Proof.
  unfold encode_digits. induction n as [|n IH]; intros a Hr Hd Ha Hmax.
  - simpl. rewrite Z.mod_1_r. lia.
  - cbn [digits map radix_loop]. set (d := (v / _) mod radix).
    assert (0 <= d < radix) by (apply Z.mod_pos_bound; lia).
    rewrite Hd by done. rewrite mod_pow_S by lia. fold d.
    rewrite Nat2Z.inj_succ, Z.pow_succ_r in * by lia.
    pose proof (Z.pow_pos_nonneg radix (Z.of_nat n) ltac:(lia) ltac:(lia)).
    assert ((a + 1) * radix <= 2 ^ 64) by nia.
    rewrite (u64_small (a * radix)) by nia. rewrite u64_small by nia.
    rewrite IH by (auto; nia). lia.
Qed.

Lemma ascii_digit_char d : 0 <= d < 10 -> ascii_digit (digit_char d) = Some d.
Proof.
  intros Hd. unfold ascii_digit, digit_char. change (ch "0") with 48. change (ch "9") with 57.
  destruct (d <? 10) eqn:E; zbool; [|lia].
  destruct (_ || _) eqn:E2; [zbool; destruct E2; zbool; lia|]. f_equal. lia.
Qed.

Lemma base36_digit_char d : 0 <= d < 36 -> base36_digit (digit_char d) = Some d.
Proof.
  intros Hd. unfold base36_digit, digit_char. change (ch "0") with 48. change (ch "9") with 57.
  change (ch "A") with 65. change (ch "Z") with 90.
  destruct (d <? 10) eqn:E; zbool; repeat match goal with
    |- context [(?a <=? ?b)] => destruct (Z.leb_spec a b); try lia end; simpl; f_equal; lia.
Qed.

Lemma parse_ascii_digits n v : (n <= 19)%nat -> 0 <= v < 10 ^ Z.of_nat n ->
  parse_ascii_u64 (encode_digits 10 n v) = v.
Proof.
  intros Hn Hv. unfold parse_ascii_u64.
  rewrite (radix_loop_digits 10 _ n v 0) by
    (try apply ascii_digit_char; try lia;
     pose proof (Z.pow_le_mono_r 10 (Z.of_nat n) 19); lia).
  rewrite Z.mod_small by lia. lia.
Qed.

Lemma parse_base36_digits n v : (n <= 12)%nat -> 0 <= v < 36 ^ Z.of_nat n ->
  parse_base36_u64 (encode_digits 36 n v) = v.
Proof.
  intros Hn Hv. unfold parse_base36_u64.
  rewrite (radix_loop_digits 36 _ n v 0) by
    (try apply base36_digit_char; try lia;
     pose proof (Z.pow_le_mono_r 36 (Z.of_nat n) 12); lia).
  rewrite Z.mod_small by lia. lia.
Qed.

(** ** Results fit their members *)

Lemma radix_loop_range radix digit p : forall a, is_u 64 a -> is_u 64 (radix_loop radix digit a p).
Proof.
  induction p as [|c p IH]; intros a Ha; [done|]. cbn [radix_loop].
  destruct (digit c); [apply IH, u64_range|unfold is_u; lia].
Qed.

Lemma parse_ascii_range p : is_u 64 (parse_ascii_u64 p).
Proof. apply radix_loop_range. unfold is_u. lia. Qed.
Lemma parse_base36_range p : is_u 64 (parse_base36_u64 p).
Proof. apply radix_loop_range. unfold is_u. lia. Qed.
Lemma price_4dp_range p : is_u 32 (parse_price_4dp p).
Proof. apply u32_range. Qed.
Lemma price_6dp_range p : is_u 32 (parse_long_price_6dp_to_4dp p).
Proof. apply u32_range. Qed.
Lemma ts_ms_range p : is_u 64 (ts_ms_to_ns p).
Proof. apply u64_range. Qed.
Lemma copy_symbol_ok p : bytes_ok p -> symbol_ok (copy_symbol p).
Proof.
  intros Hp. unfold copy_symbol. split.
  - rewrite length_app, length_take, length_replicate. lia.
  - apply Forall_app. split; [by apply Forall_take|]. apply Forall_replicate.
    unfold byte_ok, is_u. change (ch " ") with 32. lia.
Qed.
#[export] Hint Resolve parse_ascii_range parse_base36_range price_4dp_range price_6dp_range
  ts_ms_range copy_symbol_ok : mf.

(** Every event produced fits the members it is stored in; exactly the
    refused messages are counted as malformed. *)
Theorem pitch_parse_sound payload seq ingest stats :
  bytes_ok payload -> is_u 64 seq -> is_u 64 ingest ->
  let '(r, stats') := pitch_parse_message payload seq ingest stats in
  match r with
  | Some ev => event_ok ev /\ sequence ev = seq /\ venue ev = Cboe /\
               malformed_messages stats' = malformed_messages stats
  | None => malformed_messages stats' = malformed_messages stats +64 1
  end.
Proof.
  intros Hok Hs Hi. unfold pitch_parse_message. destruct (payload !! 8%nat) as [t|] eqn:Et; [|done].
  assert (is_u 8 t) as Ht by (rewrite Forall_forall in Hok; by eapply Hok, list_elem_of_lookup_2).
  assert (forall l name, bytes_ok (field l name (slice payload 0 (sizeof l)))) as Hfield.
  { intros l name. clear -Hok. assert (bytes_ok (slice payload 0 (sizeof l))) as H by auto with mf.
    revert H. generalize (slice payload 0 (sizeof l)). induction l as [|[n w] l IH]; intros p Hp; [constructor|].
    cbn [field]. destruct (String.eqb n name); [by apply Forall_take|by apply IH, Forall_drop]. }
  cbv zeta.
  repeat match goal with
  | |- context [if t =? ?c then _ else _] => destruct (t =? c)
  end; try (destruct (length payload =? _)%nat eqn:Hlen; cbn [negb]; [apply Nat.eqb_eq in Hlen|done]);
    (split; [|done]); build_event_ok; auto with mf;
    try (apply copy_symbol_ok, Hfield);
    (split; [erewrite field_slice by reflexivity; apply length_slice; simpl in *; lia|apply Hfield]).
Qed.

(** ** Round trip with the protocol's encoding *)

Inductive PitchMessage :=
  | PitchAddShort (s : Side) (shares : Z) (sym : list Z) (price : Z)
  | PitchAddLong (s : Side) (shares : Z) (sym : list Z) (price : Z) (participant : list Z)
  | PitchAddExtended (s : Side) (shares : Z) (sym : list Z) (price : Z) (participant : list Z)
  | PitchExecuted (shares execution : Z)
  | PitchCancel (shares : Z)
  | PitchTradeShort (s : Side) (shares : Z) (sym : list Z) (price execution : Z)
  | PitchTradeLong (s : Side) (shares : Z) (sym : list Z) (price execution : Z)
  | PitchTradeExtended (s : Side) (shares : Z) (sym : list Z) (price execution : Z).

Definition pitch_type (m : PitchMessage) : Z :=
  match m with
  | PitchAddShort _ _ _ _ => ch "A" | PitchAddLong _ _ _ _ _ => ch "d"
  | PitchAddExtended _ _ _ _ _ => ch "1" | PitchExecuted _ _ => ch "E" | PitchCancel _ => ch "X"
  | PitchTradeShort _ _ _ _ _ => ch "P" | PitchTradeLong _ _ _ _ _ => ch "r"
  | PitchTradeExtended _ _ _ _ _ => ch "2"
  end.

Definition pitch_side (s : Side) : Z :=
  match s with Buy => ch "B" | Sell => ch "S" | SideUnknown => ch " " end.

(** The fields after the order id. *)
Definition pitch_body (m : PitchMessage) : list Z :=
  let dec := encode_digits 10 in let b36 := encode_digits 36 12 in
  match m with
  | PitchAddShort s shares sym price =>
      [pitch_side s] ++ dec 6%nat shares ++ sym ++ dec 10%nat price ++ [ch " "]
  | PitchAddLong s shares sym price participant =>
      [pitch_side s] ++ dec 6%nat shares ++ sym ++ dec 10%nat price ++ [ch " "] ++ participant ++ [ch " "]
  | PitchAddExtended s shares sym price participant =>
      [pitch_side s] ++ dec 6%nat shares ++ sym ++ dec 14%nat price ++ [ch "Y"] ++ participant ++ [ch " "]
  | PitchExecuted shares execution => dec 6%nat shares ++ b36 execution
  | PitchCancel shares => dec 6%nat shares
  | PitchTradeShort s shares sym price execution | PitchTradeLong s shares sym price execution =>
      [pitch_side s] ++ dec 6%nat shares ++ sym ++ dec 10%nat price ++ b36 execution
  | PitchTradeExtended s shares sym price execution =>
      [pitch_side s] ++ dec 6%nat shares ++ sym ++ dec 14%nat price ++ b36 execution
  end.

Definition encode_pitch (ts id : Z) (m : PitchMessage) : list Z :=
  encode_digits 10 8 ts ++ [pitch_type m] ++ encode_digits 36 12 id ++ pitch_body m.

Definition pitch_message_ok (m : PitchMessage) : Prop :=
  match m with
  | PitchAddShort _ shares sym price =>
      0 <= shares < 10 ^ 6 /\ length sym = 6%nat /\ 0 <= price < 10 ^ 10
  | PitchAddLong _ shares sym price participant =>
      0 <= shares < 10 ^ 6 /\ length sym = 8%nat /\ 0 <= price < 10 ^ 10 /\ length participant = 4%nat
  | PitchAddExtended _ shares sym price participant =>
      0 <= shares < 10 ^ 6 /\ length sym = 8%nat /\ 0 <= price < 10 ^ 14 /\ length participant = 4%nat
  | PitchExecuted shares execution => 0 <= shares < 10 ^ 6 /\ 0 <= execution < 36 ^ 12
  | PitchCancel shares => 0 <= shares < 10 ^ 6
  | PitchTradeShort _ shares sym price execution =>
      0 <= shares < 10 ^ 6 /\ length sym = 6%nat /\ 0 <= price < 10 ^ 10 /\ 0 <= execution < 36 ^ 12
  | PitchTradeLong _ shares sym price execution =>
      0 <= shares < 10 ^ 6 /\ length sym = 8%nat /\ 0 <= price < 10 ^ 10 /\ 0 <= execution < 36 ^ 12
  | PitchTradeExtended _ shares sym price execution =>
      0 <= shares < 10 ^ 6 /\ length sym = 8%nat /\ 0 <= price < 10 ^ 14 /\ 0 <= execution < 36 ^ 12
  end.

(** The event a message stands for. Prices carry four decimals; six-decimal
    prices lose the last two, and both saturate at 2^32 - 1. *)
Definition pitch_event (ts id : Z) (m : PitchMessage) (seq ingest : Z) : BookEvent :=
  let ev := parsed_event Cboe seq ingest (pitch_type m) |> set_exchange_ts (ts * 1000000) |> set_order_id id in
  let price4 p := Z.min p (2 ^ 32 - 1) in let price6 p := Z.min (p / 100) (2 ^ 32 - 1) in
  let order ty s shares sym price := ev |> set_type ty |> set_side s |> set_qty shares
    |> set_symbol sym |> set_price price in
  match m with
  | PitchAddShort s shares sym price => order Add s shares (sym ++ [ch " "; ch " "]) (price4 price)
  | PitchAddLong s shares sym price participant =>
      order AddMpid s shares sym (price4 price) |> set_mpid (Some participant)
  | PitchAddExtended s shares sym price participant =>
      order AddMpid s shares sym (price6 price) |> set_mpid (Some participant)
  | PitchExecuted shares execution => ev |> set_type Execute |> set_qty shares |> set_match_id execution
  | PitchCancel shares => ev |> set_type Cancel |> set_qty shares
  | PitchTradeShort s shares sym price execution =>
      order Trade s shares (sym ++ [ch " "; ch " "]) (price4 price) |> set_match_id execution
  | PitchTradeLong s shares sym price execution =>
      order Trade s shares sym (price4 price) |> set_match_id execution
  | PitchTradeExtended s shares sym price execution =>
      order Trade s shares sym (price6 price) |> set_match_id execution
  end.

Lemma take_encode radix n v : take n (encode_digits radix n v) = encode_digits radix n v.
Proof. apply firstn_all2. by rewrite length_encode_digits. Qed.

Lemma price_4dp_encode p : 0 <= p < 10 ^ 10 ->
  parse_price_4dp (encode_digits 10 10 p) = Z.min p (2 ^ 32 - 1).
Proof.
  intros Hp. unfold parse_price_4dp. rewrite take_encode, parse_ascii_digits by (simpl; lia).
  apply u32_small. lia.
Qed.

Lemma price_6dp_encode p : 0 <= p < 10 ^ 14 ->
  parse_long_price_6dp_to_4dp (encode_digits 10 14 p) = Z.min (p / 100) (2 ^ 32 - 1).
Proof.
  intros Hp. unfold parse_long_price_6dp_to_4dp. rewrite take_encode, parse_ascii_digits by (simpl; lia).
  apply u32_small. pose proof (Z.div_pos p 100). lia.
Qed.

Lemma ts_encode ts : 0 <= ts < 10 ^ 8 -> ts_ms_to_ns (encode_digits 10 8 ts) = ts * 1000000.
Proof.
  intros Hts. unfold ts_ms_to_ns. rewrite take_encode, parse_ascii_digits by (simpl; lia).
  apply u64_small. lia.
Qed.

Lemma shares_encode q : 0 <= q < 10 ^ 6 -> u32 (parse_ascii_u64 (encode_digits 10 6 q)) = q.
Proof. intros Hq. rewrite parse_ascii_digits by (simpl; lia). apply u32_small. lia. Qed.

Lemma id_encode v : 0 <= v < 36 ^ 12 -> parse_base36_u64 (encode_digits 36 12 v) = v.
Proof. intros Hv. apply parse_base36_digits; [lia|done]. Qed.

Lemma copy_symbol_6 sym : length sym = 6%nat -> copy_symbol sym = sym ++ [ch " "; ch " "].
Proof. intros H. unfold copy_symbol. rewrite firstn_all2 by lia. by rewrite H. Qed.

Lemma copy_symbol_8 sym : length sym = 8%nat -> copy_symbol sym = sym.
Proof. intros H. unfold copy_symbol. rewrite firstn_all2, H by lia. apply app_nil_r. Qed.

Lemma decode_pitch_side s : decode_side (pitch_side s) = s.
Proof. by destruct s. Qed.

Ltac read_pitch_fields :=
  repeat first
    [ rewrite field_head by first [apply length_encode_digits|reflexivity|assumption]
    | rewrite field_tail by first [reflexivity|apply length_encode_digits|assumption] ].

Lemma pitch_parse_encode ts id m seq ingest stats :
  0 <= ts < 10 ^ 8 -> 0 <= id < 36 ^ 12 -> pitch_message_ok m ->
  pitch_parse_message (encode_pitch ts id m) seq ingest stats
  = (Some (pitch_event ts id m seq ingest), count_type (pitch_type m) stats).
Proof.
  intros Hts Hid Hm. unfold pitch_parse_message.
  assert (encode_pitch ts id m !! 8%nat = Some (pitch_type m)) as ->.
  { unfold encode_pitch. apply list_lookup_middle. by rewrite length_encode_digits. }
  rewrite <-(app_nil_r (encode_pitch ts id m)). unfold encode_pitch. cbv zeta.
  destruct m; cbn [pitch_type pitch_body pitch_message_ok pitch_event] in *; cbv zeta;
    rewrite <-?app_assoc; destruct_and?;
    repeat match goal with |- context [ch ?a =? ch ?b] =>
      let r := eval vm_compute in (ch a =? ch b) in change (ch a =? ch b) with r end; cbn match;
    (rewrite (proj2 (Nat.eqb_eq _ _)) by
      (rewrite ?length_app, ?length_encode_digits; simpl; lia));
    cbn [negb]; do 2 f_equal; unfold slice; rewrite drop_0, !field_take;
    unfold AddOrderShortMessage, AddOrderLongMessage, AddOrderExtendedMessage, OrderExecutedMessage,
      OrderCancelMessage, TradeShortMessage, TradeLongMessage, TradeExtendedMessage;
    read_pitch_fields;
    rewrite ?ts_encode, ?id_encode, ?shares_encode, ?price_4dp_encode, ?price_6dp_encode,
      ?copy_symbol_6, ?copy_symbol_8 by done; cbn [first_byte hd];
    by rewrite ?decode_pitch_side.
Qed.

(** Parsing inverts encoding for every message type, up to the documented
    saturation and truncation of prices. *)
Theorem pitch_round_trip ts id m seq ingest stats :
  0 <= ts < 10 ^ 8 -> 0 <= id < 36 ^ 12 -> pitch_message_ok m ->
  pitch_parse_message (encode_pitch ts id m) seq ingest stats
  = (Some (pitch_event ts id m seq ingest), count_type (pitch_type m) stats).
Proof. apply pitch_parse_encode. Qed.

Lemma pitch_round_trip_witness :
  let m := PitchAddShort Buy 100 [90; 86; 90; 90; 84; 32] 1234500 in
  pitch_parse_message (encode_pitch 28800012 123456789 m) 1 2 parse_stats_init
  = (Some (pitch_event 28800012 123456789 m 1 2), count_type (ch "A") parse_stats_init).
Proof. apply pitch_round_trip; [lia|lia|repeat split; lia]. Defined.

Lemma pitch_parse_sound_witness :
  let '(r, stats') := pitch_parse_message [82; 0; 1] 5 9 parse_stats_init in
  match r with
  | Some ev => event_ok ev /\ sequence ev = 5 /\ venue ev = Cboe /\
               malformed_messages stats' = malformed_messages parse_stats_init
  | None => malformed_messages stats' = malformed_messages parse_stats_init +64 1
  end.
Proof.
  apply (pitch_parse_sound [82; 0; 1] 5 9 parse_stats_init);
    [repeat constructor; unfold byte_ok, is_u; lia|unfold is_u; lia|unfold is_u; lia].
Defined.
