(* ===== verification/Mdp3.v ===== *)
(** * CME MDP 3.0 parser (src/parsers/mdp3)

    The certification-dump reader, the SBE and packet headers, and the
    incremental-refresh decoder. Both loops advance by amounts read from the
    wire; they are run with the buffer's length as fuel and shown to finish
    with it. Reading back an encoded dump, or an encoded packet, gives what was
    encoded. *)

From S2P Require Import Prelude Wire Types.

#[local] Open Scope string_scope.
#[local] Open Scope list_scope.
#[local] Open Scope Z_scope.

(** ** Reads with a bounds check *)

(** [read_le<T>(data, off)]: 0 when the value would pass the end. *)
Definition read_le_at (n : nat) (data : list Z) (off : nat) : Z :=
  if (off + n <=? length data)%nat then read_le n (drop off data) else 0.

(** The value of a [w]-bit pattern read into a signed variable. *)
Definition to_signed (w x : Z) : Z := if x <? 2 ^ (w - 1) then x else x - 2 ^ w.

(** ** Headers (sbe_header.cpp) *)

Record SbeMessageHeader := mkSbeHeader {
  msg_size : Z; block_length : Z; template_id : Z; schema_id : Z; version : Z;
}.

Record MdpPacketHeader := mkMdpHeader { msg_seq_num : Z; sending_time : Z }.

Definition decode_sbe_header (msg : list Z) : option SbeMessageHeader :=
  if (length msg <? 10)%nat then None else
  let out := mkSbeHeader (read_le_at 2 msg 0) (read_le_at 2 msg 2) (read_le_at 2 msg 4)
                         (read_le_at 2 msg 6) (read_le_at 2 msg 8) in
  if (msg_size out <? 10) || (msg_size out >? Z.of_nat (length msg)) then None
  else Some out.

Definition decode_mdp_packet_header (packet : list Z) : option MdpPacketHeader :=
  if (length packet <? 12)%nat then None
  else Some (mkMdpHeader (read_le_at 4 packet 0) (read_le_at 8 packet 4)).

(** ** Certification dumps (cert_bin_reader.cpp) *)

Definition kInitOffset : nat := 10.

(** [CertBinReader]: the dump and the read position. *)
Record CertBinReader := mkReader { data_ : list Z; offset_ : nat }.

Definition reader_init (data : list Z) : CertBinReader := mkReader data kInitOffset.

(** The [for (;;)] of [next]: the payload returned, or [None] for [false]; the
    outer option is the fuel. *)
Fixpoint cert_next_loop (fuel : nat) (data : list Z) (offset : nat) : option (option (list Z) * nat) :=
  match fuel with
  | O => None
  | S fuel =>
      if (length data <? offset + 10)%nat then Some (None, offset) else
      let offset := (offset + 8)%nat in
      if (length data <? offset + 2)%nat then Some (None, offset) else
      let p i := nth (offset + i) data 0 in
      let block_size := Z.lor (u16 (Z.shiftl (p 0%nat) 8)) (p 1%nat) in
      let offset := (offset + 2)%nat in
      if block_size =? 0 then cert_next_loop fuel data offset else
      if (length data <? offset + Z.to_nat block_size)%nat then Some (None, offset) else
      Some (Some (slice data offset (Z.to_nat block_size)), (offset + Z.to_nat block_size)%nat)
  end.

Definition cert_next (r : CertBinReader) : option (option (list Z) * CertBinReader) :=
  match cert_next_loop (S (length (data_ r))) (data_ r) (offset_ r) with
  | Some (res, off) => Some (res, mkReader (data_ r) off)
  | None => None
  end.

(** ** Incremental refresh (mdp3_parser.cpp) *)

Record Mdp3Stats := mkMdp3Stats {
  template_counts : list Z;
  mdp_parsed_messages : Z;
  mdp_malformed_messages : Z;
  book_events_emitted : Z;
}.

Definition mdp3_stats_init : Mdp3Stats := mkMdp3Stats (replicate 256 0) 0 0 0.

Definition mdp_malformed (s : Mdp3Stats) : Mdp3Stats :=
  mkMdp3Stats (template_counts s) (mdp_parsed_messages s) (mdp_malformed_messages s +64 1)
              (book_events_emitted s).

Definition mdp_emitted (s : Mdp3Stats) : Mdp3Stats :=
  mkMdp3Stats (template_counts s) (mdp_parsed_messages s) (mdp_malformed_messages s)
              (book_events_emitted s +64 1).

Definition mdp_count_template (t : Z) (s : Mdp3Stats) : Mdp3Stats :=
  mkMdp3Stats (alter (fun n => n +64 1) (Z.to_nat (t mod 256)) (template_counts s))
              (mdp_parsed_messages s +64 1) (mdp_malformed_messages s) (book_events_emitted s).

Definition kTemplateMdIncrementalRefreshBook32 : Z := 32.
Definition kPrice9NullMantissa : Z := - 2 ^ 63.
Definition kInt32Null : Z := - 2 ^ 31.

(** [snprintf("%d", n)] of an [int]: at most ten digits and a sign. *)
Definition format_d (n : Z) : list Z :=
  if n <? 0 then ch "-" :: decimal_digits 10 (- n) else decimal_digits 10 n.

Definition security_id_to_symbol (security_id : Z) : SymbolKey :=
  if security_id =? kInt32Null then repeat (ch " ") 8 else
  let tmp := format_d security_id in
  let m := Nat.min (length tmp) 8 in
  take m tmp ++ repeat (ch " ") (8 - m).

(** C++ [/] truncates. *)
Definition price9_mantissa_to_tick (mantissa : Z) : Z :=
  if mantissa =? kPrice9NullMantissa then 0 else
  let ticks := Z.quot mantissa 100000 in
  if ticks <=? 0 then 0 else u32 (Z.min ticks (2 ^ 32 - 1)).

Definition entry_type_to_side (c : Z) : Side :=
  if c =? ch "0" then Buy else if c =? ch "1" then Sell else SideUnknown.

Definition update_action_to_event_type (action : Z) : EventType :=
  if action =? 0 then Add else if action =? 1 then Replace
  else if (action =? 2) || (action =? 3) || (action =? 4) then Delete else TypeUnknown.

(** The body of the entry loop for entry [i] at [eoff], past its bounds check:
    [None] for the [continue] of the entries of type 'J'. *)
Definition parse_entry (body : list Z) (eoff : nat) (i : nat)
    (packet_seq exchange_ts ingest : Z) : option BookEvent :=
  let px_mantissa := to_signed 64 (read_le_at 8 body eoff) in
  let entry_size := to_signed 32 (read_le_at 4 body (eoff + 8)) in
  let security_id := to_signed 32 (read_le_at 4 body (eoff + 12)) in
  let rpt_seq := read_le_at 4 body (eoff + 16) in
  let update_action := nth (eoff + 25) body 0 in
  let entry_type := nth (eoff + 26) body 0 in
  if entry_type =? ch "J" then None else
  let seq := if negb (rpt_seq =? 0) then rpt_seq
             else Z.lor (u64 (Z.shiftl packet_seq 32)) (Z.of_nat i) in
  Some (event_default |> set_venue Cme |> set_type (update_action_to_event_type update_action)
    |> set_sequence seq |> set_exchange_ts exchange_ts |> set_ingest_ts ingest
    |> set_symbol (security_id_to_symbol security_id) |> set_order_id seq
    |> set_qty (if entry_size >? 0 then u32 (Z.min entry_size (2 ^ 31 - 1)) else 0)
    |> set_price (price9_mantissa_to_tick px_mantissa)
    |> set_side (entry_type_to_side entry_type)
    |> set_raw_type (u8 kTemplateMdIncrementalRefreshBook32)).

(** The entry loop, [remaining] entries from entry [i] on. *)
Fixpoint entry_loop (body : list Z) (pos entry_block_len : nat) (packet_seq exchange_ts ingest : Z)
    (remaining i : nat) (out : list BookEvent) (stats : Mdp3Stats) : list BookEvent * Mdp3Stats :=
  match remaining with
  | O => (out, stats)
  | S remaining =>
      let eoff := (pos + i * entry_block_len)%nat in
      if (length body <? eoff + 32)%nat then (out, mdp_malformed stats) else
      let next := entry_loop body pos entry_block_len packet_seq exchange_ts ingest remaining (S i) in
      match parse_entry body eoff i packet_seq exchange_ts ingest with
      | None => next out stats
      | Some ev => next (out ++ [ev]) (mdp_emitted stats)
      end
  end.

Definition parse_incremental_refresh_book32 (body : list Z) (packet_seq transact_time_ns ingest : Z)
    (stats : Mdp3Stats) : list BookEvent * Mdp3Stats :=
  if (length body <? 11)%nat then ([], mdp_malformed stats) else
  let transact_time := read_le_at 8 body 0 in
  let exchange_ts := if negb (transact_time =? 0) then transact_time else transact_time_ns in
  let pos := 11%nat in
  if (length body <? pos + 3)%nat then ([], mdp_malformed stats) else
  let entry_block_len := Z.to_nat (read_le_at 2 body pos) in
  let entry_count := Z.to_nat (nth (pos + 2) body 0) in
  let pos := (pos + 3)%nat in
  if (entry_block_len <? 32)%nat || (length body <? pos + entry_count * entry_block_len)%nat
  then ([], mdp_malformed stats)
  else entry_loop body pos entry_block_len packet_seq exchange_ts ingest entry_count 0 [] stats.

(** The message loop of [parse_packet]. *)
Fixpoint packet_loop (fuel : nat) (udp_payload : list Z) (pkt : MdpPacketHeader) (ingest : Z)
    (pos : nat) (out : list BookEvent) (stats : Mdp3Stats) : option (list BookEvent * Mdp3Stats) :=
  match fuel with
  | O => None
  | S fuel =>
      if (length udp_payload <? pos + 10)%nat then Some (out, stats) else
      let msg := drop pos udp_payload in
      match decode_sbe_header msg with
      | None => Some (out, mdp_malformed stats)
      | Some hdr =>
          let stats := mdp_count_template (template_id hdr) stats in
          let size := Z.to_nat (msg_size hdr) in
          let body := slice msg 10 (size - 10) in
          let '(out, stats) :=
            if template_id hdr =? kTemplateMdIncrementalRefreshBook32 then
              let '(events, stats) := parse_incremental_refresh_book32 body (msg_seq_num pkt)
                                        (sending_time pkt) ingest stats in
              (out ++ events, stats)
            else (out, stats) in
          packet_loop fuel udp_payload pkt ingest (pos + size)%nat out stats
      end
  end.

Definition parse_packet (udp_payload : list Z) (ingest : Z) (stats : Mdp3Stats)
    : option (list BookEvent * Mdp3Stats) :=
  match decode_mdp_packet_header udp_payload with
  | None => Some ([], mdp_malformed stats)
  | Some pkt => packet_loop (S (length udp_payload)) udp_payload pkt ingest 12 [] stats
  end.

(** ** Results fit their members *)

Lemma read_le_at_range n data off : bytes_ok data ->
  0 <= read_le_at n data off < 256 ^ Z.of_nat n.
Proof.
  intros H. unfold read_le_at. case_match; [by apply read_le_range, Forall_drop|].
  split; [lia|]. apply Z.pow_pos_nonneg; lia.
Qed.

Lemma nth_byte_ok data i : bytes_ok data -> byte_ok (nth i data 0).
Proof.
  intros H. destruct (nth_in_or_default i data 0) as [Hin | ->].
  - rewrite <-list_elem_of_In in Hin. by eapply Forall_forall in Hin.
  - unfold byte_ok, is_u. lia.
Qed.

Lemma format_d_ok n : bytes_ok (format_d n).
Proof.
  unfold format_d. case_match; [constructor; [|apply decimal_digits_ok]|apply decimal_digits_ok].
  unfold byte_ok, is_u. change (ch "-") with 45. lia.
Qed.

Lemma security_id_symbol_ok n : symbol_ok (security_id_to_symbol n).
Proof.
  assert (byte_ok (ch " ")) as Hsp by (unfold byte_ok, is_u; change (ch " ") with 32; lia).
  assert (forall k, bytes_ok (repeat (ch " ") k)) as Hr by (intros k; induction k; constructor; auto).
  unfold security_id_to_symbol. case_match; [split; [done|apply (Hr 8%nat)]|]. cbv zeta. split.
  - rewrite length_app, length_take, repeat_length. lia.
  - apply Forall_app. split; [by apply Forall_take, format_d_ok|apply Hr].
Qed.

Lemma price9_range m : is_u 32 (price9_mantissa_to_tick m).
Proof.
  unfold price9_mantissa_to_tick. case_match; [done|]. cbv zeta. case_match; [done|apply u32_range].
Qed.

Lemma parse_entry_ok body eoff i seq ts ingest ev :
  bytes_ok body -> is_u 32 seq -> is_u 64 ts -> is_u 64 ingest -> (i < 256)%nat ->
  parse_entry body eoff i seq ts ingest = Some ev -> event_ok ev /\ venue ev = Cme.
Proof.
  intros Hok Hseq Hts Hi Hn H. unfold parse_entry in H. cbv zeta in H.
  case_match; [done|]. injection H as <-. split; [|done].
  pose proof (read_le_at_range 4 body (eoff + 16) Hok) as Hr.
  assert (is_u 64 (if negb (read_le_at 4 body (eoff + 16) =? 0) then read_le_at 4 body (eoff + 16)
                   else Z.lor (u64 (Z.shiftl seq 32)) (Z.of_nat i))) as Hs.
  { case_match; [unfold is_u in *; simpl in *; lia|].
    assert (0 <= Z.shiftl seq 32) by (apply Z.shiftl_nonneg; unfold is_u in *; lia).
    pose proof (u64_range (Z.shiftl seq 32)) as Hu. split; [apply Z.lor_nonneg; lia|].
    destruct (decide (Z.lor (u64 (Z.shiftl seq 32)) (Z.of_nat i) = 0)) as [->|Hne]; [lia|].
    apply Z.log2_lt_pow2; [assert (0 <= Z.lor (u64 (Z.shiftl seq 32)) (Z.of_nat i)) by
      (apply Z.lor_nonneg; lia); lia|].
    rewrite Z.log2_lor by lia. apply Z.max_lub_lt.
    - destruct (decide (u64 (Z.shiftl seq 32) = 0)) as [->| ]; [done|]. apply Z.log2_lt_pow2; lia.
    - destruct (decide (Z.of_nat i = 0)) as [->| ]; [done|]. apply Z.log2_lt_pow2; lia. }
  split; simpl; try done; [apply security_id_symbol_ok| |apply price9_range].
  destruct (_ >? _); [apply u32_range|done].
Qed.

(** The statistics of a decoding that found nothing malformed and emitted [n]
    events. *)
Definition emitted_n (n : nat) (s : Mdp3Stats) : Mdp3Stats := Nat.iter n mdp_emitted s.

Lemma entry_loop_sound body pos len seq ts ingest :
  bytes_ok body -> is_u 32 seq -> is_u 64 ts -> is_u 64 ingest ->
  forall remaining i out stats, (i + remaining <= 256)%nat ->
  (pos + (i + remaining) * len <= length body)%nat -> (32 <= len)%nat ->
  exists evs, entry_loop body pos len seq ts ingest remaining i out stats
    = (out ++ evs, emitted_n (length evs) stats) /\ Forall (fun e => event_ok e /\ venue e = Cme) evs.
Proof.
  intros Hok Hseq Hts Hi. induction remaining as [|k IH]; intros i out stats Hn Hb Hl.
  - exists []. by rewrite app_nil_r.
  - cbn [entry_loop]. cbv zeta.
    replace (length body <? pos + i * len + 32)%nat with false by (symmetry; apply Nat.ltb_ge; nia).
    destruct (parse_entry _ _ _ _ _ _) as [ev|] eqn:E.
    + destruct (IH (S i) (out ++ [ev]) (mdp_emitted stats)) as (evs & -> & Hf); [lia|lia|lia|].
      exists (ev :: evs). split.
      * rewrite <-app_assoc. cbn [app length]. unfold emitted_n. by rewrite Nat.iter_succ_r.
      * constructor; [|done]. eapply parse_entry_ok; [..|exact E]; auto; lia.
    + apply (IH (S i) out stats); lia.
Qed.

Lemma book32_sound body seq ts ingest stats :
  bytes_ok body -> is_u 32 seq -> is_u 64 ts -> is_u 64 ingest ->
  let '(evs, stats') := parse_incremental_refresh_book32 body seq ts ingest stats in
  Forall (fun e => event_ok e /\ venue e = Cme) evs /\
  (stats' = mdp_malformed stats /\ evs = [] \/ stats' = emitted_n (length evs) stats).
Proof.
  intros Hok Hseq Hts Hi. unfold parse_incremental_refresh_book32.
  destruct (_ <? 11)%nat eqn:H1; [by auto|]. cbv zeta.
  destruct (_ <? 11 + 3)%nat eqn:H2; [by auto|].
  set (len := Z.to_nat _). set (n := Z.to_nat (nth _ _ _)). destruct (_ || _)%bool eqn:H3; [by auto|].
  apply orb_false_iff in H3 as [H3 H4]. apply Nat.ltb_ge in H3, H4.
  assert (n < 256)%nat.
  { subst n. pose proof (nth_byte_ok body (11 + 2) Hok) as Hb. unfold byte_ok, is_u in Hb. lia. }
  assert (is_u 64 (if negb (read_le_at 8 body 0 =? 0) then read_le_at 8 body 0 else ts)) as Ht.
  { case_match; [|done]. apply (read_le_at_range 8 body 0 Hok). }
  destruct (entry_loop_sound body (11 + 3) len seq _ ingest Hok Hseq Ht Hi n 0 [] stats)
    as (evs & -> & Hf); [lia|simpl; lia|lia|]. auto.
Qed.

Lemma decode_sbe_header_spec msg hdr : decode_sbe_header msg = Some hdr ->
  (10 <= Z.to_nat (msg_size hdr) <= length msg)%nat.
Proof.
  unfold decode_sbe_header. case_match; [done|]. cbv zeta. destruct (_ || _) eqn:E; [done|].
  intros [= <-]. apply orb_false_iff in E as [H1 H2]. lia.
Qed.

Lemma emitted_n_S n s : emitted_n (S n) s = mdp_emitted (emitted_n n s).
Proof. done. Qed.

Lemma emitted_n_add n m s : emitted_n n (emitted_n m s) = emitted_n (n + m) s.
Proof. unfold emitted_n. by rewrite Nat.iter_add. Qed.

Lemma emitted_n_count n s :
  u64 (book_events_emitted (emitted_n n s)) = u64 (book_events_emitted s + Z.of_nat n).
Proof.
  induction n as [|n IH]; [unfold emitted_n; simpl; f_equal; lia|].
  rewrite emitted_n_S. cbn [mdp_emitted book_events_emitted].
  unfold u64 at 1. rewrite wrap_wrap. fold (u64 (book_events_emitted (emitted_n n s) + 1)).
  rewrite <-u64_add_l, IH, u64_add_l. f_equal. lia.
Qed.

(** Every event of a packet fits its members, and is a CME event. *)
Abbreviation cme_events := (Forall (fun e => event_ok e /\ venue e = Cme)).

Lemma packet_loop_sound payload pkt ingest : bytes_ok payload ->
  is_u 32 (msg_seq_num pkt) -> is_u 64 (sending_time pkt) -> is_u 64 ingest ->
  forall fuel pos out stats, (length payload < pos + fuel)%nat -> (pos <= length payload)%nat ->
  exists evs stats', packet_loop fuel payload pkt ingest pos out stats = Some (out ++ evs, stats') /\
    cme_events evs /\
    u64 (book_events_emitted stats') = u64 (book_events_emitted stats + Z.of_nat (length evs)).
Proof.
  intros Hok Hseq Hts Hi. induction fuel as [|fuel IH]; intros pos out stats Hf Hp; [lia|].
  assert (forall st, u64 (book_events_emitted st) = u64 (book_events_emitted st + Z.of_nat (length (@nil BookEvent))))
    as H0 by (intros st; simpl; f_equal; lia).
  cbn [packet_loop]. destruct (_ <? _)%nat eqn:Hlt.
  { exists [], stats. rewrite app_nil_r. split_and!; [done|constructor|apply H0]. }
  apply Nat.ltb_ge in Hlt. cbv zeta. destruct (decode_sbe_header _) as [hdr|] eqn:Eh.
  2: { exists [], (mdp_malformed stats). rewrite app_nil_r. split_and!; [done|constructor|].
    apply (H0 (mdp_malformed stats)). }
  apply decode_sbe_header_spec in Eh. rewrite length_drop in Eh.
  destruct (_ =? kTemplateMdIncrementalRefreshBook32) eqn:Et.
  - assert (bytes_ok (slice (drop pos payload) 10 (Z.to_nat (msg_size hdr) - 10))) as Hb
      by (by apply bytes_ok_slice, Forall_drop).
    pose proof (book32_sound _ (msg_seq_num pkt) (sending_time pkt) ingest
      (mdp_count_template (template_id hdr) stats) Hb Hseq Hts Hi) as Hs.
    destruct (parse_incremental_refresh_book32 _ _ _ _ _) as [evs st].
    destruct Hs as [Hfa Hst].
    destruct (IH (pos + Z.to_nat (msg_size hdr))%nat (out ++ evs) st) as (evs' & st' & -> & Hfa' & Hc); [lia|lia|].
    exists (evs ++ evs'), st'. rewrite app_assoc. split; [done|]. split; [by apply Forall_app|].
    rewrite Hc, length_app, Nat2Z.inj_add, <-u64_add_l, Z.add_assoc, <-(u64_add_l (_ + _)). do 2 f_equal.
    destruct Hst as [[-> ->] | ->]; [simpl; f_equal; lia|].
    apply (emitted_n_count (length evs) (mdp_count_template (template_id hdr) stats)).
  - destruct (IH (pos + Z.to_nat (msg_size hdr))%nat out (mdp_count_template (template_id hdr) stats))
      as (evs' & st' & -> & Hfa' & Hc); [lia|lia|]. by exists evs', st'.
Qed.

(** C35. Whatever the bytes of a packet, parsing it ends within its length, every
    event it yields fits its members and belongs to CME, and the emitted count
    grows by exactly the number of events returned. *)
Theorem mdp3_parse_sound payload ingest stats : bytes_ok payload -> is_u 64 ingest ->
  exists evs stats', parse_packet payload ingest stats = Some (evs, stats') /\
    Forall (fun e => event_ok e /\ venue e = Cme) evs /\
    u64 (book_events_emitted stats') = u64 (book_events_emitted stats + Z.of_nat (length evs)).
Proof.
  intros Hok Hi. unfold parse_packet, decode_mdp_packet_header. destruct (_ <? 12)%nat eqn:Hl.
  { exists [], (mdp_malformed stats). split; [done|]. split; [done|]. simpl. f_equal. lia. }
  apply Nat.ltb_ge in Hl.
  destruct (packet_loop_sound payload (mkMdpHeader (read_le_at 4 payload 0) (read_le_at 8 payload 4))
    ingest Hok (read_le_at_range 4 payload 0 Hok) (read_le_at_range 8 payload 4 Hok) Hi
    (S (length payload)) 12 [] stats) as (evs & st & -> & H); [lia|lia|]. eauto.
Qed.

(** ** Round trip with the protocol's encoding *)

Lemma read_le_at_head n a rest : length a = n -> read_le_at n (a ++ rest) 0 = le_val a.
Proof.
  intros <-. unfold read_le_at. rewrite length_app.
  replace (0 + length a <=? length a + length rest)%nat with true by (symmetry; apply Nat.leb_le; lia).
  unfold read_le. by rewrite drop_0, take_app_length.
Qed.

Lemma read_le_at_tail n w a rest k : length a = w -> (w <= k)%nat ->
  read_le_at n (a ++ rest) k = read_le_at n rest (k - w).
Proof.
  intros <- Hk. unfold read_le_at. rewrite length_app, drop_app_ge by lia.
  destruct (_ <=? _)%nat eqn:E1, (k - length a + n <=? _)%nat eqn:E2; try done;
    rewrite ?Nat.leb_le, ?Nat.leb_gt in *; lia.
Qed.

(** An entry of the repeating group; [me_tail] pads it to the block length. *)
Record MdpEntry := mkEntry {
  me_price : Z; me_size : Z; me_security : Z; me_rpt_seq : Z; me_level : list Z;
  me_action : Z; me_type : Z; me_tail : list Z;
}.

Definition is_s (w x : Z) : Prop := - 2 ^ (w - 1) <= x < 2 ^ (w - 1).

Record mdp_entry_ok (len : nat) (e : MdpEntry) : Prop := {
  meo_price : is_s 64 (me_price e);
  meo_size : is_s 32 (me_size e);
  meo_security : is_s 32 (me_security e);
  meo_rpt : is_u 32 (me_rpt_seq e);
  meo_level : length (me_level e) = 5%nat;
  meo_len : (27 + length (me_tail e) = len)%nat;
}.

Definition encode_entry (e : MdpEntry) : list Z :=
  le_bytes 8 (me_price e) ++ le_bytes 4 (me_size e) ++ le_bytes 4 (me_security e) ++
  le_bytes 4 (me_rpt_seq e) ++ me_level e ++ [me_action e] ++ [me_type e] ++ me_tail e.

(** The event of entry [i]; those of type 'J' have none. *)
Definition entry_event (seq ts ingest : Z) (i : nat) (e : MdpEntry) : option BookEvent :=
  if me_type e =? ch "J" then None else
  let s := if me_rpt_seq e =? 0 then Z.lor (u64 (Z.shiftl seq 32)) (Z.of_nat i) else me_rpt_seq e in
  Some (event_default |> set_venue Cme |> set_type (update_action_to_event_type (me_action e))
    |> set_sequence s |> set_exchange_ts ts |> set_ingest_ts ingest
    |> set_symbol (security_id_to_symbol (me_security e)) |> set_order_id s
    |> set_qty (Z.max 0 (me_size e)) |> set_price (price9_mantissa_to_tick (me_price e))
    |> set_side (entry_type_to_side (me_type e)) |> set_raw_type 32).

Fixpoint entry_events (seq ts ingest : Z) (i : nat) (es : list MdpEntry) : list BookEvent :=
  match es with
  | [] => []
  | e :: es => option_list (entry_event seq ts ingest i e) ++ entry_events seq ts ingest (S i) es
  end.

Lemma to_signed_le_bytes w n x : (0 < n)%nat -> w = 8 * Z.of_nat n -> is_s w x ->
  to_signed w (le_val (le_bytes n x)) = x.
Proof.
  intros Hn -> [Hl Hu]. rewrite le_val_le_bytes. unfold to_signed.
  assert (256 ^ Z.of_nat n = 2 ^ (8 * Z.of_nat n)) as -> by (rewrite Z.pow_mul_r by lia; done).
  assert (2 ^ (8 * Z.of_nat n) = 2 * 2 ^ (8 * Z.of_nat n - 1)) as Hp.
  { rewrite <-Z.pow_succ_r by lia. f_equal. lia. }
  set (h := 2 ^ (8 * Z.of_nat n - 1)) in *. rewrite Hp.
  destruct (decide (0 <= x)) as [Hx|Hx].
  - rewrite Z.mod_small by lia. destruct (x <? h) eqn:E; zbool; lia.
  - assert (x mod (2 * h) = x + 2 * h) as ->
      by (rewrite <-(Z.mod_add x 1 (2 * h)), Z.mod_small by lia; lia).
    destruct (_ <? h) eqn:E; zbool; lia.
Qed.

(** Reads one member of a concatenation. *)
Ltac read_member :=
  repeat first
    [ erewrite read_le_at_tail by first [eassumption|apply length_le_bytes|reflexivity|lia]; cbn [Nat.sub]
    | erewrite nth_tail by first [eassumption|apply length_le_bytes|reflexivity|lia]; cbn [Nat.sub] ];
  try (rewrite read_le_at_head by (apply length_le_bytes)); try reflexivity.

Lemma read_le_at_skip n pre p k : read_le_at n (pre ++ p) (length pre + k) = read_le_at n p k.
Proof. rewrite (read_le_at_tail n (length pre)) by (done || lia). f_equal. lia. Qed.

Lemma read_le_at_start n pre p : read_le_at n (pre ++ p) (length pre) = read_le_at n p 0.
Proof. rewrite (read_le_at_tail n (length pre)) by (done || lia). f_equal. lia. Qed.

Lemma entry_members e post len : mdp_entry_ok len e ->
  let p := encode_entry e ++ post in
  read_le_at 8 p 0 = le_val (le_bytes 8 (me_price e)) /\
  read_le_at 4 p 8 = le_val (le_bytes 4 (me_size e)) /\
  read_le_at 4 p 12 = le_val (le_bytes 4 (me_security e)) /\
  read_le_at 4 p 16 = me_rpt_seq e /\
  nth 25 p 0 = me_action e /\ nth 26 p 0 = me_type e.
Proof.
  intros [Hp Hs Hsec Hr Hlv Hlen]. cbv zeta. unfold encode_entry. rewrite <-!app_assoc.
  split_and!; read_member. by apply (read_le_le 4).
Qed.

Lemma parse_entry_encode pre e post i seq ts ingest len : mdp_entry_ok len e ->
  parse_entry (pre ++ encode_entry e ++ post) (length pre) i seq ts ingest = entry_event seq ts ingest i e.
Proof.
  intros He. destruct (entry_members e post len He) as (H1 & H2 & H3 & H4 & H5 & H6). destruct He.
  unfold parse_entry, entry_event.
  rewrite !read_le_at_skip, !read_le_at_start, !nth_skip, H1, H2, H3, H4, H5, H6.
  rewrite !to_signed_le_bytes by (done || lia). case_match; [done|]. cbv zeta. f_equal.
  rewrite negb_if. repeat f_equal. unfold is_s in *. change (2 ^ (32 - 1)) with 2147483648 in *.
  destruct (_ >? 0) eqn:E; [rewrite u32_small by lia; lia|lia].
Qed.

Definition encode_entries (es : list MdpEntry) : list Z := concat (map encode_entry es).

Lemma length_encode_entry len e : mdp_entry_ok len e -> length (encode_entry e) = len.
Proof.
  intros []. unfold encode_entry. rewrite !length_app, !length_le_bytes. simpl. lia.
Qed.

Lemma entry_loop_encode pos len seq ts ingest post es : Forall (mdp_entry_ok len) es ->
  (32 <= len)%nat -> forall pre i out stats, length pre = (pos + i * len)%nat ->
  entry_loop (pre ++ encode_entries es ++ post) pos len seq ts ingest (length es) i out stats
  = (out ++ entry_events seq ts ingest i es, emitted_n (length (entry_events seq ts ingest i es)) stats).
Proof.
  intros Hes Hlen. induction Hes as [|e es He _ IH]; intros pre i out stats Hpre.
  { simpl. by rewrite app_nil_r. }
  pose proof (length_encode_entry len e He) as Hel.
  unfold encode_entries. cbn [length entry_loop map concat entry_events]. fold (encode_entries es).
  rewrite <-Hpre, <-app_assoc, (parse_entry_encode _ _ _ _ _ _ _ len He), !length_app, Hel.
  replace (_ <? _)%nat with false by (symmetry; apply Nat.ltb_ge; lia).
  rewrite (app_assoc pre). destruct (entry_event _ _ _ _ _) as [ev|]; cbv zeta;
    rewrite IH by (rewrite length_app, Hel, Hpre; lia); cbn [option_list app length]; [|done].
  rewrite <-app_assoc. f_equal. unfold emitted_n. by rewrite Nat.iter_succ_r.
Qed.

(** A message: an incremental refresh with its repeating group (and whatever
    other groups follow it), or any other template. *)
Inductive MdpMessage :=
  | Book32 (transact : Z) (indicator : list Z) (len : nat) (entries : list MdpEntry) (rest : list Z)
  | OtherTemplate (template : Z) (body : list Z).

Definition message_template (m : MdpMessage) : Z :=
  match m with Book32 _ _ _ _ _ => 32 | OtherTemplate t _ => t end.

Definition message_body (m : MdpMessage) : list Z :=
  match m with
  | Book32 ts ind len es rest =>
      le_bytes 8 ts ++ ind ++ le_bytes 2 (Z.of_nat len) ++ [Z.of_nat (length es)] ++
      encode_entries es ++ rest
  | OtherTemplate _ body => body
  end.

(** [block], [schema] and [version]: header members the parser ignores. *)
Definition encode_message (block schema ver : Z) (m : MdpMessage) : list Z :=
  le_bytes 2 (10 + Z.of_nat (length (message_body m))) ++ le_bytes 2 block ++
  le_bytes 2 (message_template m) ++ le_bytes 2 schema ++ le_bytes 2 ver ++ message_body m.

Definition message_ok (m : MdpMessage) : Prop :=
  10 + Z.of_nat (length (message_body m)) < 2 ^ 16 /\
  match m with
  | Book32 ts ind len es rest =>
      is_u 64 ts /\ length ind = 3%nat /\ (32 <= len)%nat /\ Z.of_nat len < 2 ^ 16 /\
      (length es < 256)%nat /\ Forall (mdp_entry_ok len) es
  | OtherTemplate t _ => is_u 16 t /\ t <> 32
  end.

Definition message_events (pkt_seq pkt_time ingest : Z) (m : MdpMessage) : list BookEvent :=
  match m with
  | Book32 ts _ _ es _ => entry_events pkt_seq (if ts =? 0 then pkt_time else ts) ingest 0 es
  | OtherTemplate _ _ => []
  end.

(** The statistics after a well-formed message. *)
Definition message_stats (pkt_seq pkt_time ingest : Z) (s : Mdp3Stats) (m : MdpMessage) : Mdp3Stats :=
  emitted_n (length (message_events pkt_seq pkt_time ingest m)) (mdp_count_template (message_template m) s).

Lemma le2_val x : 0 <= x < 2 ^ 16 -> le_val (le_bytes 2 x) = x.
Proof. intros H. rewrite le_val_le_bytes. by apply Z.mod_small. Qed.

Lemma book32_encode ts ind len es rest seq time ingest stats :
  message_ok (Book32 ts ind len es rest) ->
  parse_incremental_refresh_book32 (message_body (Book32 ts ind len es rest)) seq time ingest stats
  = (message_events seq time ingest (Book32 ts ind len es rest),
     emitted_n (length (message_events seq time ingest (Book32 ts ind len es rest))) stats).
Proof.
  intros [_ (Hts & Hind & Hlen & Hl & Hn & Hes)]. cbn [message_body message_events].
  assert (length (encode_entries es) = (length es * len)%nat) as Hel.
  { clear - Hes. induction Hes as [|e es He _ IH]; [done|]. unfold encode_entries. cbn [map concat].
    rewrite length_app, (length_encode_entry len e He). fold (encode_entries es). rewrite IH. done. }
  set (body := le_bytes 8 ts ++ ind ++ le_bytes 2 (Z.of_nat len) ++ [Z.of_nat (length es)] ++
               encode_entries es ++ rest).
  assert (length body = 14 + length es * len + length rest)%nat as Hb.
  { subst body. rewrite !length_app, !length_le_bytes, Hind, Hel. simpl. lia. }
  assert (read_le_at 8 body 0 = ts) as H0.
  { subst body. read_member. rewrite le_val_le_bytes. by apply Z.mod_small. }
  assert (read_le_at 2 body 11 = Z.of_nat len) as H11 by (subst body; read_member; apply le2_val; lia).
  assert (nth 13 body 0 = Z.of_nat (length es)) as H13 by (subst body; read_member).
  unfold parse_incremental_refresh_book32. cbn [Nat.add]. rewrite H0, H11, H13, Hb, !Nat2Z.id. cbv zeta.
  replace (_ <? 11)%nat with false by (symmetry; apply Nat.ltb_ge; lia).
  replace (_ <? 14)%nat with false by (symmetry; apply Nat.ltb_ge; lia).
  replace (len <? 32)%nat with false by (symmetry; apply Nat.ltb_ge; lia).
  replace (_ <? 14 + length es * len)%nat with false by (symmetry; apply Nat.ltb_ge; lia).
  cbn [orb]. rewrite negb_if. subst body. rewrite 3!app_assoc.
  apply (entry_loop_encode 14 len); [done|done|].
  rewrite !length_app, !length_le_bytes, Hind. simpl. lia.
Qed.

Lemma decode_sbe_encode block schema ver m post : message_ok m ->
  exists hdr, decode_sbe_header (encode_message block schema ver m ++ post) = Some hdr /\
    template_id hdr = message_template m /\ Z.to_nat (msg_size hdr) = length (encode_message block schema ver m).
Proof.
  intros Hm. assert (0 <= message_template m < 2 ^ 16) as Ht.
  { destruct m as [|t b]; [simpl; lia|]. by destruct Hm as [_ [? _]]. }
  destruct Hm as [Hsz _]. set (n := length (message_body m)) in *.
  assert (length (encode_message block schema ver m) = 10 + n)%nat as Hl.
  { unfold encode_message. rewrite !length_app, !length_le_bytes. subst n. lia. }
  assert (read_le_at 2 (encode_message block schema ver m ++ post) 0 = 10 + Z.of_nat n) as H0.
  { unfold encode_message. rewrite <-!app_assoc. read_member. apply le2_val. lia. }
  assert (read_le_at 2 (encode_message block schema ver m ++ post) 4 = message_template m) as H4.
  { unfold encode_message. rewrite <-!app_assoc. read_member. by apply le2_val. }
  unfold decode_sbe_header. rewrite length_app, Hl, H0, H4.
  replace (_ <? 10)%nat with false by (symmetry; apply Nat.ltb_ge; lia). cbn [msg_size].
  replace (10 + Z.of_nat n <? 10) with false by (symmetry; apply Z.ltb_ge; lia).
  replace (10 + Z.of_nat n >? _) with false by (symmetry; rewrite Z.gtb_ltb; apply Z.ltb_ge; lia).
  eexists. split; [done|]. split; [done|]. cbn [msg_size]. lia.
Qed.

Lemma encode_message_body block schema ver m post :
  slice (encode_message block schema ver m ++ post) 10 (length (encode_message block schema ver m) - 10)
  = message_body m.
Proof.
  unfold slice, encode_message. rewrite <-!app_assoc, !length_app, !length_le_bytes.
  replace (_ - 10)%nat with (length (message_body m)) by lia.
  do 5 (rewrite drop_app_ge by (rewrite length_le_bytes; lia); rewrite length_le_bytes; cbn [Nat.sub]).
  by rewrite drop_0, take_app_length.
Qed.

Definition encode_messages (block schema ver : Z) (ms : list MdpMessage) : list Z :=
  concat (map (encode_message block schema ver) ms).

Lemma packet_loop_encode block schema ver pkt ingest trailing ms : Forall message_ok ms ->
  (length trailing < 10)%nat ->
  forall fuel pre out stats, (length ms < fuel)%nat ->
  packet_loop fuel (pre ++ encode_messages block schema ver ms ++ trailing) pkt ingest (length pre) out stats
  = Some (out ++ concat (map (message_events (msg_seq_num pkt) (sending_time pkt) ingest) ms),
          fold_left (message_stats (msg_seq_num pkt) (sending_time pkt) ingest) ms stats).
Proof.
  intros Hms Htr. induction Hms as [|m ms Hm _ IH]; intros [|fuel] pre out stats Hf; try (simpl in Hf; lia).
  - cbn [packet_loop encode_messages map concat fold_left app]. rewrite app_nil_r, length_app.
    replace (_ <? _)%nat with true by (symmetry; apply Nat.ltb_lt; lia). done.
  - unfold encode_messages. cbn [packet_loop map concat fold_left]. fold (encode_messages block schema ver ms).
    rewrite <-app_assoc, drop_app_length.
    destruct (decode_sbe_encode block schema ver m (encode_messages block schema ver ms ++ trailing) Hm)
      as (hdr & -> & -> & ->).
    rewrite encode_message_body, !length_app.
    replace (_ <? _)%nat with false
      by (symmetry; apply Nat.ltb_ge; unfold encode_message; rewrite !length_app, !length_le_bytes; lia).
    cbv zeta. rewrite (app_assoc pre), <-length_app. cbn [length] in Hf.
    unfold message_stats at 2. destruct m as [ts ind len es rest|t body].
    + cbn [message_template]. rewrite book32_encode by done.
      change (32 =? kTemplateMdIncrementalRefreshBook32) with true. cbn match.
      rewrite IH by lia. by rewrite <-app_assoc.
    + destruct Hm as [_ [_ Ht]]. cbn [message_template].
      replace (t =? _) with false by (symmetry; by apply Z.eqb_neq). rewrite IH by lia. done.
Qed.

Definition encode_packet (seq time block schema ver : Z) (ms : list MdpMessage) (trailing : list Z) : list Z :=
  le_bytes 4 seq ++ le_bytes 8 time ++ encode_messages block schema ver ms ++ trailing.

(** C34. A packet of well-formed messages yields, in order, the event of every
    entry of its incremental refreshes that is not of type 'J', whatever other
    templates lie between them, and nothing is counted malformed. *)
Theorem mdp3_round_trip seq time block schema ver ms trailing ingest stats :
  is_u 32 seq -> is_u 64 time -> Forall message_ok ms -> (length trailing < 10)%nat ->
  parse_packet (encode_packet seq time block schema ver ms trailing) ingest stats
  = Some (concat (map (message_events seq time ingest) ms),
          fold_left (message_stats seq time ingest) ms stats).
Proof.
  intros Hs Ht Hms Htr. unfold parse_packet, decode_mdp_packet_header.
  assert (read_le_at 4 (encode_packet seq time block schema ver ms trailing) 0 = seq) as H0
    by (unfold encode_packet; read_member; by apply (read_le_le 4)).
  assert (read_le_at 8 (encode_packet seq time block schema ver ms trailing) 4 = time) as H4
    by (unfold encode_packet; read_member; by apply (read_le_le 8)).
  rewrite H0, H4.
  replace (_ <? 12)%nat with false
    by (symmetry; apply Nat.ltb_ge; unfold encode_packet; rewrite !length_app, !length_le_bytes; lia).
  unfold encode_packet at 2. rewrite app_assoc.
  apply (packet_loop_encode block schema ver (mkMdpHeader seq time) ingest trailing ms Hms Htr
    _ (le_bytes 4 seq ++ le_bytes 8 time)).
  unfold encode_packet. rewrite !length_app, !length_le_bytes.
  assert (length ms <= length (encode_messages block schema ver ms))%nat; [|lia].
  clear. induction ms as [|m ms IH]; [done|]. unfold encode_messages. cbn [map concat length].
  rewrite length_app. unfold encode_message at 1. rewrite length_app, length_le_bytes.
  fold (encode_messages block schema ver ms). lia.
Qed.

(** ** Reading a certification dump back *)

Lemma cert_next_loop_mono data fuel : forall fuel' off r, (fuel <= fuel')%nat ->
  cert_next_loop fuel data off = Some r -> cert_next_loop fuel' data off = Some r.
Proof.
  induction fuel as [|fuel IH]; intros [|fuel'] off r Hf H; try done; [lia|].
  cbn [cert_next_loop] in *. cbv zeta in *. repeat case_match; try done. apply IH; [lia|done].
Qed.

(** The loop ends: every turn moves the offset by ten bytes at least. *)
Lemma cert_next_loop_total data fuel : forall off, (0 < fuel)%nat -> (length data < off + fuel)%nat ->
  is_Some (cert_next_loop fuel data off).
Proof.
  induction fuel as [|fuel IH]; intros off H0 Hf; [lia|]. cbn [cert_next_loop]. cbv zeta.
  destruct (length data <? off + 10)%nat eqn:E; [eauto|]. apply Nat.ltb_ge in E.
  repeat case_match; eauto. apply IH; lia.
Qed.

Lemma cert_next_unique data off fuel r : cert_next_loop fuel data off = Some r ->
  cert_next_loop (S (length data)) data off = Some r.
Proof.
  intros H. destruct (cert_next_loop_total data (S (length data)) off) as [r' Hr']; [lia|lia|].
  rewrite Hr'. apply (cert_next_loop_mono _ _ (fuel + S (length data)) off) in H; [|lia].
  apply (cert_next_loop_mono _ _ (fuel + S (length data)) off) in Hr'; [|lia]. congruence.
Qed.

(** A block: an eight-byte timestamp, a big-endian length, the payload. *)
Definition encode_block (b : list Z * list Z) : list Z :=
  b.1 ++ be 2 (Z.of_nat (length b.2)) ++ b.2.

Definition block_ok (b : list Z * list Z) : Prop :=
  length b.1 = 8%nat /\ Z.of_nat (length b.2) < 2 ^ 16.

(** What may follow the last whole block: less than a header, or a block cut
    short. *)
Definition truncated (tr : list Z) : Prop :=
  (length tr < 10)%nat \/
  exists ts n part, tr = ts ++ be 2 n ++ part /\ length ts = 8%nat /\
    0 < n < 2 ^ 16 /\ Z.of_nat (length part) < n.

(** The callers' loop [while (reader.next(payload))]. *)
Fixpoint cert_read_all (fuel : nat) (r : CertBinReader) : option (list (list Z)) :=
  match fuel with
  | O => None
  | S fuel =>
      match cert_next r with
      | Some (Some p, r) => cons p <$> cert_read_all fuel r
      | Some (None, _) => Some []
      | None => None
      end
  end.

(** One turn of the loop at a header for [n] bytes. *)
Lemma cert_next_header fuel pre ts n rest : length ts = 8%nat -> 0 <= n < 2 ^ 16 ->
  let data := pre ++ ts ++ be 2 n ++ rest in
  let off := (length pre + 10)%nat in
  cert_next_loop (S fuel) data (length pre) =
    if n =? 0 then cert_next_loop fuel data off
    else if (length rest <? Z.to_nat n)%nat then Some (None, off)
    else Some (Some (take (Z.to_nat n) rest), (off + Z.to_nat n)%nat).
Proof.
  intros Hts Hn. cbv zeta. destruct (be2_bytes n Hn) as (h & l & Hbe & Hval). rewrite Hbe.
  set (data := pre ++ ts ++ [h; l] ++ rest).
  assert (length data = length pre + 10 + length rest)%nat as Hl.
  { subst data. rewrite !length_app, Hts. simpl. lia. }
  assert (nth (length pre + 8 + 0) data 0 = h) as Hh.
  { subst data. rewrite Nat.add_0_r, nth_skip. by rewrite (nth_tail 8) by (done || lia). }
  assert (nth (length pre + 8 + 1) data 0 = l) as Hll.
  { subst data. rewrite <-Nat.add_assoc, nth_skip. by rewrite (nth_tail 8) by (done || lia). }
  cbn [cert_next_loop]. cbv zeta. rewrite Hh, Hll, Hval, Hl.
  replace (_ <? length pre + 10)%nat with false by (symmetry; apply Nat.ltb_ge; lia).
  replace (_ <? length pre + 8 + 2)%nat with false by (symmetry; apply Nat.ltb_ge; lia).
  replace (length pre + 8 + 2)%nat with (length pre + 10)%nat by lia.
  replace (length pre + 10 + length rest <? length pre + 10 + Z.to_nat n)%nat with (length rest <? Z.to_nat n)%nat
    by (destruct (Nat.ltb_spec (length rest) (Z.to_nat n)); symmetry; [apply Nat.ltb_lt|apply Nat.ltb_ge]; lia).
  case_match; [done|]. case_match; [done|]. do 3 f_equal. unfold slice. f_equal.
  subst data. rewrite drop_app_ge, drop_app_ge by lia. rewrite Hts.
  by replace (length pre + 10 - length pre - 8)%nat with 2%nat by lia.
Qed.

Lemma cert_next_truncated fuel pre tr : truncated tr ->
  exists off, cert_next_loop (S fuel) (pre ++ tr) (length pre) = Some (None, off).
Proof.
  intros [H | (ts & n & part & -> & Hts & Hn & Hp)].
  - exists (length pre). cbn [cert_next_loop]. rewrite length_app.
    by replace (_ <? _)%nat with true by (symmetry; apply Nat.ltb_lt; lia).
  - exists (length pre + 10)%nat. rewrite cert_next_header by (done || lia).
    replace (n =? 0) with false by (symmetry; apply Z.eqb_neq; lia).
    by replace (_ <? _)%nat with true by (symmetry; apply Nat.ltb_lt; lia).
Qed.

Definition nonempty (p : list Z) : bool := match p with [] => false | _ => true end.

Lemma cert_read_all_encode tr blocks : Forall block_ok blocks -> truncated tr ->
  forall fuel pre, (length blocks < fuel)%nat ->
  cert_read_all fuel (mkReader (pre ++ concat (map encode_block blocks) ++ tr) (length pre))
  = Some (List.filter nonempty (map snd blocks)).
Proof.
  intros Hb Htr. induction Hb as [|[ts p] blocks [Hts Hp] _ IH]; intros [|fuel] pre Hf; try (simpl in Hf; lia).
  - cbn [map concat app]. destruct (cert_next_truncated (length (pre ++ tr)) pre tr Htr) as [off H].
    cbn [cert_read_all]. unfold cert_next. cbn [data_ offset_]. by rewrite H.
  - cbn [length map concat List.filter] in *. unfold encode_block at 1. cbn [fst snd] in *.
    rewrite <-!app_assoc. set (rest := concat (map encode_block blocks) ++ tr).
    pose proof (cert_next_header (length (pre ++ ts ++ be 2 (Z.of_nat (length p)) ++ p ++ rest)) pre ts
      (Z.of_nat (length p)) (p ++ rest) Hts ltac:(lia)) as Hstep. cbv zeta in Hstep.
    assert (pre ++ ts ++ be 2 (Z.of_nat (length p)) ++ p ++ rest
            = (pre ++ ts ++ be 2 (Z.of_nat (length p)) ++ p) ++ rest) as Hd by (by rewrite <-!app_assoc).
    assert (length (pre ++ ts ++ be 2 (Z.of_nat (length p)) ++ p) = length pre + 10 + length p)%nat as Hl.
    { rewrite !length_app, length_be, Hts. lia. }
    destruct p as [|b p'].
    + cbn [nonempty]. change (Z.of_nat (length (@nil Z))) with 0 in *. change (0 =? 0) with true in Hstep. cbn match in Hstep.
      specialize (IH (S fuel) (pre ++ ts ++ be 2 0 ++ []) ltac:(lia)). fold rest in IH.
      rewrite Hl, Nat.add_0_r, <-Hd in IH. rewrite <-IH. cbn [cert_read_all]. unfold cert_next.
      cbn [data_ offset_]. destruct (cert_next_loop_total (pre ++ ts ++ be 2 0 ++ [] ++ rest)
        (length (pre ++ ts ++ be 2 0 ++ [] ++ rest)) (length pre + 10)%nat) as [r Hr].
      * rewrite !length_app, length_be, Hts. lia.
      * lia.
      * rewrite Hr in Hstep. by rewrite Hstep, (cert_next_unique _ _ _ _ Hr).
    + cbn [nonempty]. set (q := b :: p') in *. cbn [cert_read_all]. unfold cert_next. cbn [data_ offset_].
      rewrite Hstep. replace (_ =? 0) with false by (symmetry; apply Z.eqb_neq; subst q; simpl; lia).
      rewrite Nat2Z.id, length_app.
      replace (_ <? _)%nat with false by (symmetry; apply Nat.ltb_ge; lia).
      rewrite take_app_length, Hd, <-Hl. unfold rest. rewrite IH by lia. done.
Qed.

(** Reading a dump returns the payload of every block, in order, keep-alive
    blocks of length zero skipped and a block cut short at the end dropped. *)
Theorem cert_reader_round_trip preamble blocks tr :
  length preamble = kInitOffset -> Forall block_ok blocks -> truncated tr ->
  cert_read_all (S (length blocks)) (reader_init (preamble ++ concat (map encode_block blocks) ++ tr))
  = Some (List.filter nonempty (map snd blocks)).
Proof.
  intros Hp Hb Ht. unfold reader_init. rewrite <-Hp. apply cert_read_all_encode; [done|done|lia].
Qed.

(** ** Concrete runs *)

Definition sample_entry : MdpEntry :=
  mkEntry 4512250000000 7 123456 0 [0; 0; 0; 0; 1] 1 (ch "1") [0; 0; 0; 0; 0].

Definition sample_book : MdpMessage := Book32 0 [0; 0; 0] 32 [sample_entry] [].

Lemma mdp3_round_trip_witness :
  parse_packet (encode_packet 9 1000 11 1 13 [OtherTemplate 4 [1; 2]; sample_book] [0]) 5 mdp3_stats_init
  = Some (concat (map (message_events 9 1000 5) [OtherTemplate 4 [1; 2]; sample_book]),
          fold_left (message_stats 9 1000 5) [OtherTemplate 4 [1; 2]; sample_book] mdp3_stats_init)
  /\ map price (message_events 9 1000 5 sample_book) = [45122500].
Proof.
  split; [apply (mdp3_round_trip 9 1000 11 1 13 [OtherTemplate 4 [1; 2]; sample_book] [0] 5 mdp3_stats_init)|];
    [unfold is_u; lia|unfold is_u; lia| |simpl; lia|vm_compute; reflexivity].
  repeat constructor; try (unfold is_u, is_s; simpl; lia); vm_compute; reflexivity.
Defined.

Lemma mdp3_parse_sound_witness :
  exists evs stats', parse_packet (repeat 12 40) 5 mdp3_stats_init = Some (evs, stats') /\
    Forall (fun e => event_ok e /\ venue e = Cme) evs /\
    u64 (book_events_emitted stats') = u64 (0 + Z.of_nat (length evs)).
Proof.
  apply (mdp3_parse_sound (repeat 12 40) 5 mdp3_stats_init); [|unfold is_u; lia].
  cbn [repeat]. repeat constructor; unfold byte_ok, is_u; lia.
Defined.

Lemma cert_reader_round_trip_witness :
  cert_read_all 4 (reader_init (repeat 0 10 ++ concat (map encode_block
    [(repeat 1 8, [5; 6]); (repeat 2 8, []); (repeat 3 8, [7])]) ++ [1; 2; 3])) = Some [[5; 6]; [7]].
Proof.
  apply (cert_reader_round_trip (repeat 0 10) [(repeat 1 8, [5; 6]); (repeat 2 8, []); (repeat 3 8, [7])]
    [1; 2; 3]); [done| |left; simpl; lia].
  repeat constructor; simpl; lia.
Defined.

(** A security id of nine digits or more keeps its first eight only, so two
    instruments may share a symbol key. *)
Example security_ids_collide : security_id_to_symbol 123456780 = security_id_to_symbol 123456789.
Proof. vm_compute. reflexivity. Qed.
