(* ===== verification/Nbbo.v ===== *)
(** * NBBO consolidation (src/phase3/nbbo_consolidator.cpp)

    The best bid and offer of a symbol across the venues. The consolidator
    keeps the last top of book of each venue, recomputes the best on every
    update, and caches a pointer to the symbol last touched. After any updates
    the quote it reports is the best of the venues' latest tops, ties going to
    the lowest venue index, and [update] reports a change exactly when it
    differs from the quote before. *)

From S2P Require Import Prelude Types OrderBook.

(** ** Data *)

Record VenueTop := mkVenueTop {
  vt_has_bid : bool; vt_has_ask : bool;
  vt_bid_price : Z; vt_bid_qty : Z; vt_ask_price : Z; vt_ask_qty : Z;
  vt_bid_sequence : Z; vt_ask_sequence : Z;
}.
Definition venue_top_default : VenueTop := mkVenueTop false false 0 0 0 0 0 0.

Record Nbbo := mkNbbo {
  n_has_bid : bool; n_has_ask : bool;
  n_bid_price : Z; n_bid_qty : Z; n_ask_price : Z; n_ask_qty : Z;
  n_bid_venue : Z; n_ask_venue : Z;
  n_bid_venue_sequence : Z; n_ask_venue_sequence : Z;
}.
#[export] Instance Nbbo_eq_dec : EqDecision Nbbo.
Proof. solve_decision. Defined.
Definition nbbo_default : Nbbo := mkNbbo false false 0 0 0 0 0 0 0 0.

Record SymbolState := mkSymbolState { venues : PerVenue VenueTop; nbbo : Nbbo }.
Definition symbol_state_default : SymbolState := mkSymbolState (pv_const venue_top_default) nbbo_default.

(** [cached_state_] points into [by_symbol_], whose nodes never move: the
    pointer is the key of the node. *)
Record NbboConsolidator := mkConsolidator {
  by_symbol : gmap Z SymbolState;
  cached_symbol : Z;
  cached_state : option Z;
  cached_valid : bool;
}.
Definition consolidator_init : NbboConsolidator := mkConsolidator ∅ 0 None false.

(** ** [compute] *)

(** The body of the loop, for the top [v] of venue [i]. *)
Definition compute_step (i : Z) (v : VenueTop) (out : Nbbo) : Nbbo :=
  let out :=
    if vt_has_bid v && (negb (n_has_bid out) || (vt_bid_price v >? n_bid_price out)) then
      mkNbbo true (n_has_ask out) (vt_bid_price v) (vt_bid_qty v) (n_ask_price out) (n_ask_qty out)
             (u8 i) (n_ask_venue out) (vt_bid_sequence v) (n_ask_venue_sequence out)
    else out in
  if vt_has_ask v && (negb (n_has_ask out) || (vt_ask_price v <? n_ask_price out)) then
    mkNbbo (n_has_bid out) true (n_bid_price out) (n_bid_qty out) (vt_ask_price v) (vt_ask_qty v)
           (n_bid_venue out) (u8 i) (n_bid_venue_sequence out) (vt_ask_sequence v)
  else out.

Fixpoint compute_loop (i : Z) (vs : list VenueTop) (out : Nbbo) : Nbbo :=
  match vs with
  | [] => out
  | v :: vs => compute_loop (i + 1) vs (compute_step i v out)
  end.

Definition compute (state : SymbolState) : Nbbo := compute_loop 0 (pv_list (venues state)) nbbo_default.

Definition nbbo_changed (before after : Nbbo) : bool :=
  negb (eqb (n_has_bid before) (n_has_bid after)) || negb (eqb (n_has_ask before) (n_has_ask after)) ||
  negb (n_bid_price before =? n_bid_price after) || negb (n_ask_price before =? n_ask_price after) ||
  negb (n_bid_qty before =? n_bid_qty after) || negb (n_ask_qty before =? n_ask_qty after) ||
  negb (n_bid_venue before =? n_bid_venue after) || negb (n_ask_venue before =? n_ask_venue after) ||
  negb (n_bid_venue_sequence before =? n_bid_venue_sequence after) ||
  negb (n_ask_venue_sequence before =? n_ask_venue_sequence after).

(** ** [update] *)

(** The assignments to the venue's slot. *)
Definition set_venue_top (v : VenueTop) (top : TopOfBook) (venue_sequence : Z) : VenueTop :=
  mkVenueTop (has_bid top) (has_ask top) (bid_price top) (bid_qty top) (ask_price top) (ask_qty top)
    (if has_bid top then venue_sequence else vt_bid_sequence v)
    (if has_ask top then venue_sequence else vt_ask_sequence v).

(** The pointer to the state of the symbol, created when missing. *)
Definition state_for (c : NbboConsolidator) (symbol_u64 : Z) : Z * NbboConsolidator :=
  match cached_valid c && (cached_symbol c =? symbol_u64), cached_state c with
  | true, Some ptr => (ptr, c)
  | _, _ =>
      let m := match by_symbol c !! symbol_u64 with
               | Some _ => by_symbol c
               | None => <[symbol_u64 := symbol_state_default]> (by_symbol c)
               end in
      (symbol_u64, mkConsolidator m symbol_u64 (Some symbol_u64) true)
  end.

Definition state_at (c : NbboConsolidator) (ptr : Z) : SymbolState :=
  default symbol_state_default (by_symbol c !! ptr).

Definition update_and_current (c : NbboConsolidator) (symbol_u64 : Z) (venue : Venue) (top : TopOfBook)
    (venue_sequence : Z) : Nbbo * NbboConsolidator :=
  let '(ptr, c) := state_for c symbol_u64 in
  let s := state_at c ptr in
  let vs := (venues s).[venue := set_venue_top ((venues s).[venue]) top venue_sequence] in
  let n := compute (mkSymbolState vs (nbbo s)) in
  (n, mkConsolidator (<[ptr := mkSymbolState vs n]> (by_symbol c)) (cached_symbol c) (cached_state c)
                     (cached_valid c)).

Definition current (c : NbboConsolidator) (symbol_u64 : Z) : Nbbo :=
  match by_symbol c !! symbol_u64 with
  | None => nbbo_default
  | Some s => nbbo s
  end.

Definition nbbo_update (c : NbboConsolidator) (symbol_u64 : Z) (venue : Venue) (top : TopOfBook)
    (venue_sequence : Z) : bool * NbboConsolidator :=
  let before := current c symbol_u64 in
  let '(after, c) := update_and_current c symbol_u64 venue top venue_sequence in
  (nbbo_changed before after, c).

(** ** The cache is transparent *)

(** A valid cache entry points at the state of its symbol, and the quote kept
    with a symbol is the one its venue tops give. *)
Record consolidator_ok (c : NbboConsolidator) : Prop := {
  co_cache ptr : cached_valid c = true -> cached_state c = Some ptr ->
    ptr = cached_symbol c /\ is_Some (by_symbol c !! ptr);
  co_nbbo sym s : by_symbol c !! sym = Some s -> nbbo s = compute s;
}.

Lemma consolidator_init_ok : consolidator_ok consolidator_init.
Proof. by split. Qed.

Lemma state_for_spec c sym : consolidator_ok c ->
  let '(ptr, c') := state_for c sym in
  ptr = sym /\ consolidator_ok c' /\ is_Some (by_symbol c' !! sym) /\ forall k, state_at c' k = state_at c k.
Proof.
  intros Hok. pose proof Hok as [Hc Hn]. unfold state_for.
  assert (let c' := mkConsolidator (match by_symbol c !! sym with Some _ => by_symbol c
      | None => <[sym := symbol_state_default]> (by_symbol c) end) sym (Some sym) true in
    sym = sym /\ consolidator_ok c' /\ is_Some (by_symbol c' !! sym) /\
    forall k, state_at c' k = state_at c k) as Hmiss.
  { cbv zeta. destruct (by_symbol c !! sym) as [s|] eqn:E; split_and!; try done.
    - split; cbn [by_symbol cached_symbol cached_state cached_valid]; [|done]. intros ptr _ [= <-]. eauto.
    - split; cbn [by_symbol cached_symbol cached_state cached_valid].
      + intros ptr _ [= <-]. rewrite lookup_insert_eq. eauto.
      + intros k s. rewrite lookup_insert_Some. intros [[_ <-]|[_ H]]; [done|eauto].
    - cbn [by_symbol]. rewrite lookup_insert_eq. eauto.
    - intros k. unfold state_at. cbn [by_symbol]. destruct (decide (k = sym)) as [->|].
      + by rewrite lookup_insert_eq, E.
      + by rewrite lookup_insert_ne. }
  destruct (cached_valid c && _) eqn:Ev; [|exact Hmiss].
  destruct (cached_state c) as [ptr|] eqn:Ep; [|exact Hmiss].
  zbool. subst. destruct (Hc ptr) as [-> Hs]; [done..|]. auto.
Qed.

(** One update, seen from the states: only the symbol's state changes. *)
Lemma update_and_current_spec c sym v top seq : consolidator_ok c ->
  let vs := venues (state_at c sym) in
  let '(n, c') := update_and_current c sym v top seq in
  consolidator_ok c' /\
  state_at c' sym = mkSymbolState (vs.[v := set_venue_top (vs.[v]) top seq]) n /\
  (forall k, k <> sym -> state_at c' k = state_at c k) /\
  n = compute (state_at c' sym).
Proof.
  intros Hok. cbv zeta. unfold update_and_current. pose proof (state_for_spec c sym Hok) as H.
  destruct (state_for c sym) as [ptr c1]. destruct H as (-> & [Hca Hn] & Hs & Hat).
  cbv zeta. rewrite Hat. set (vs := (venues (state_at c sym)).[v := _]). split_and!.
  - split; cbn [by_symbol cached_symbol cached_state cached_valid].
    + intros ptr Hv Hp. destruct (Hca ptr Hv Hp) as [-> Hk]. split; [done|].
      rewrite lookup_insert_is_Some. destruct (decide (sym = cached_symbol c1)); tauto.
    + intros k s. rewrite lookup_insert_Some. intros [[_ <-]|[_ Hl]]; [done|eauto].
  - unfold state_at at 1. cbn [by_symbol]. by rewrite lookup_insert_eq.
  - intros k Hk. rewrite <-(Hat k). unfold state_at. cbn [by_symbol]. by rewrite lookup_insert_ne by congruence.
  - unfold state_at at 2. cbn [by_symbol]. by rewrite lookup_insert_eq.
Qed.

(** ** [compute] finds the best *)

(** [bid_best k vs n]: the bid of [n] is the best of the tops of the venues
    below index [k], the first of those at the best price. *)
Definition bid_best (k : Z) (vs : PerVenue VenueTop) (n : Nbbo) : Prop :=
  if n_has_bid n then
    exists v, venue_u8 v < k /\ vt_has_bid (vs.[v]) = true /\
      n_bid_venue n = venue_u8 v /\ n_bid_price n = vt_bid_price (vs.[v]) /\
      n_bid_qty n = vt_bid_qty (vs.[v]) /\ n_bid_venue_sequence n = vt_bid_sequence (vs.[v]) /\
      forall w, venue_u8 w < k -> vt_has_bid (vs.[w]) = true ->
        vt_bid_price (vs.[w]) < n_bid_price n \/
        vt_bid_price (vs.[w]) = n_bid_price n /\ venue_u8 v <= venue_u8 w
  else (forall w, venue_u8 w < k -> vt_has_bid (vs.[w]) = false) /\
       n_bid_price n = 0 /\ n_bid_qty n = 0 /\ n_bid_venue n = 0 /\ n_bid_venue_sequence n = 0.

Definition ask_best (k : Z) (vs : PerVenue VenueTop) (n : Nbbo) : Prop :=
  if n_has_ask n then
    exists v, venue_u8 v < k /\ vt_has_ask (vs.[v]) = true /\
      n_ask_venue n = venue_u8 v /\ n_ask_price n = vt_ask_price (vs.[v]) /\
      n_ask_qty n = vt_ask_qty (vs.[v]) /\ n_ask_venue_sequence n = vt_ask_sequence (vs.[v]) /\
      forall w, venue_u8 w < k -> vt_has_ask (vs.[w]) = true ->
        n_ask_price n < vt_ask_price (vs.[w]) \/
        vt_ask_price (vs.[w]) = n_ask_price n /\ venue_u8 v <= venue_u8 w
  else (forall w, venue_u8 w < k -> vt_has_ask (vs.[w]) = false) /\
       n_ask_price n = 0 /\ n_ask_qty n = 0 /\ n_ask_venue n = 0 /\ n_ask_venue_sequence n = 0.

Lemma u8_venue v : u8 (venue_u8 v) = venue_u8 v.
Proof. by destruct v. Qed.

(** Venues below [venue_u8 v + 1] are those below [v], and [v]. *)
Lemma venue_lt_succ w v : venue_u8 w < venue_u8 v + 1 -> w = v \/ venue_u8 w < venue_u8 v.
Proof.
  intros H. destruct (decide (venue_u8 w = venue_u8 v)) as [E|E]; [left; by apply venue_u8_inj|right; lia].
Qed.

Lemma bid_step v vs n : bid_best (venue_u8 v) vs n ->
  bid_best (venue_u8 v + 1) vs (compute_step (venue_u8 v) (vs.[v]) n).
Proof.
  intros H. assert (bid_best (venue_u8 v + 1) vs
    (if vt_has_bid (vs.[v]) && (negb (n_has_bid n) || (vt_bid_price (vs.[v]) >? n_bid_price n)) then
      mkNbbo true (n_has_ask n) (vt_bid_price (vs.[v])) (vt_bid_qty (vs.[v])) (n_ask_price n) (n_ask_qty n)
             (u8 (venue_u8 v)) (n_ask_venue n) (vt_bid_sequence (vs.[v])) (n_ask_venue_sequence n)
     else n)) as G.
  2: { unfold compute_step. cbv zeta. destruct (vt_has_ask _ && _); exact G. }
  unfold bid_best in *. destruct (_ && _) eqn:E; cbn [n_has_bid n_bid_venue n_bid_price n_bid_qty n_bid_venue_sequence].
  - apply andb_true_iff in E as [Hb Hc]. exists v. rewrite u8_venue. split_and!; try done; [lia|].
    intros w [-> | Hw]%venue_lt_succ Hwb; [right; lia|]. left. destruct (n_has_bid n).
    + destruct H as (u & _ & _ & _ & _ & _ & _ & Hbest). simpl in Hc. specialize (Hbest w Hw Hwb). lia.
    + destruct H as [Hno _]. rewrite Hno in Hwb by done. done.
  - destruct (n_has_bid n); simpl in E.
    + destruct H as (u & Hu & Hub & ? & ? & ? & ? & Hbest). exists u. split_and!; try done; [lia|].
      intros w [-> | Hw]%venue_lt_succ Hwb; [|auto]. rewrite Hwb in E. simpl in E. lia.
    + destruct H as [Hno H]. split; [|done]. intros w [-> | Hw]%venue_lt_succ; [|auto].
      by rewrite andb_true_r in E.
Qed.

Lemma ask_step v vs n : ask_best (venue_u8 v) vs n ->
  ask_best (venue_u8 v + 1) vs (compute_step (venue_u8 v) (vs.[v]) n).
Proof.
  unfold compute_step. cbv zeta.
  set (m := if vt_has_bid (vs.[v]) && _ then _ else n). intros H.
  assert (ask_best (venue_u8 v) vs m) as Hm by (subst m; destruct (vt_has_bid _ && _); exact H).
  clearbody m. clear H n. unfold ask_best in *.
  destruct (_ && _) eqn:E; cbn [n_has_ask n_ask_venue n_ask_price n_ask_qty n_ask_venue_sequence].
  - apply andb_true_iff in E as [Hb Hc]. exists v. rewrite u8_venue. split_and!; try done; [lia|].
    intros w [-> | Hw]%venue_lt_succ Hwb; [right; lia|]. left. destruct (n_has_ask m).
    + destruct Hm as (u & _ & _ & _ & _ & _ & _ & Hbest). simpl in Hc. specialize (Hbest w Hw Hwb). lia.
    + destruct Hm as [Hno _]. rewrite Hno in Hwb by done. done.
  - destruct (n_has_ask m); simpl in E.
    + destruct Hm as (u & Hu & Hub & ? & ? & ? & ? & Hbest). exists u. split_and!; try done; [lia|].
      intros w [-> | Hw]%venue_lt_succ Hwb; [|auto]. rewrite Hwb in E. simpl in E. lia.
    + destruct Hm as [Hno Hm]. split; [|done]. intros w [-> | Hw]%venue_lt_succ; [|auto].
      by rewrite andb_true_r in E.
Qed.

Lemma compute_best s : bid_best 5 (venues s) (compute s) /\ ask_best 5 (venues s) (compute s).
Proof.
  assert (forall w, ~ venue_u8 w < 0) as H0 by (intros []; simpl; lia).
  split.
  - apply (bid_step Bitfinex), (bid_step Cme), (bid_step Cboe), (bid_step Iex), (bid_step Nasdaq).
    split; [intros w Hw; by destruct (H0 w)|done].
  - apply (ask_step Bitfinex), (ask_step Cme), (ask_step Cboe), (ask_step Iex), (ask_step Nasdaq).
    split; [intros w Hw; by destruct (H0 w)|done].
Qed.

(** ** Runs *)

Record TopUpdate := mkTopUpdate { tu_symbol : Z; tu_venue : Venue; tu_top : TopOfBook; tu_sequence : Z }.

Definition consolidator_step (c : NbboConsolidator) (u : TopUpdate) : NbboConsolidator :=
  (nbbo_update c (tu_symbol u) (tu_venue u) (tu_top u) (tu_sequence u)).2.

Definition consolidator_run (c : NbboConsolidator) (us : list TopUpdate) : NbboConsolidator :=
  fold_left consolidator_step us c.

(** The specification: the latest update of a venue for a symbol. *)
Definition latest (us : list TopUpdate) (sym : Z) (v : Venue) : option TopUpdate :=
  last (List.filter (fun u => (tu_symbol u =? sym) && bool_decide (tu_venue u = v)) us).

Definition matches_top (u : option TopUpdate) (t : VenueTop) : Prop :=
  match u with
  | None => t = venue_top_default
  | Some u =>
      vt_has_bid t = has_bid (tu_top u) /\ vt_has_ask t = has_ask (tu_top u) /\
      vt_bid_price t = bid_price (tu_top u) /\ vt_bid_qty t = bid_qty (tu_top u) /\
      vt_ask_price t = ask_price (tu_top u) /\ vt_ask_qty t = ask_qty (tu_top u) /\
      (has_bid (tu_top u) = true -> vt_bid_sequence t = tu_sequence u) /\
      (has_ask (tu_top u) = true -> vt_ask_sequence t = tu_sequence u)
  end.

Lemma set_venue_top_matches u t : matches_top (Some u) (set_venue_top t (tu_top u) (tu_sequence u)).
Proof. simpl. split_and!; try done; by intros ->. Qed.

Lemma latest_snoc us u sym v : latest (us ++ [u]) sym v =
  if decide (tu_symbol u = sym /\ tu_venue u = v) then Some u else latest us sym v.
Proof.
  unfold latest. rewrite List.filter_app. cbn [List.filter]. destruct (decide _) as [[<- <-]|Hne].
  - rewrite Z.eqb_refl, bool_decide_eq_true_2 by done. cbn [andb]. by rewrite last_snoc.
  - destruct (_ && _) eqn:E; [|by rewrite app_nil_r]. zbool. by destruct Hne.
Qed.

Lemma nbbo_update_spec c u : consolidator_ok c ->
  let c' := consolidator_step c u in
  let vs := venues (state_at c (tu_symbol u)) in
  consolidator_ok c' /\
  venues (state_at c' (tu_symbol u))
    = vs.[tu_venue u := set_venue_top (vs.[tu_venue u]) (tu_top u) (tu_sequence u)] /\
  (forall k, k <> tu_symbol u -> state_at c' k = state_at c k).
Proof.
  intros Hok. pose proof (update_and_current_spec c (tu_symbol u) (tu_venue u) (tu_top u) (tu_sequence u) Hok) as H.
  cbv zeta in *. unfold consolidator_step, nbbo_update. destruct (update_and_current _ _ _ _ _) as [n c'].
  destruct H as (H1 & H2 & H3 & _). cbn [snd]. split_and!; [exact H1|by rewrite H2|exact H3].
Qed.

Lemma consolidator_run_spec us : consolidator_ok (consolidator_run consolidator_init us) /\
  forall sym v, matches_top (latest us sym v) ((venues (state_at (consolidator_run consolidator_init us) sym)).[v]).
Proof.
  unfold consolidator_run. induction us as [|u us [Hok IH]] using rev_ind.
  { split; [apply consolidator_init_ok|]. intros sym v. by destruct v. }
  rewrite fold_left_app. cbn [fold_left]. set (c := fold_left _ us _) in *.
  pose proof (nbbo_update_spec c u Hok) as H. cbv zeta in H. destruct H as (Hok' & Hs & Hne). split; [done|].
  intros sym v. rewrite latest_snoc. destruct (decide (tu_symbol u = sym)) as [<-|Hd].
  - rewrite Hs, pv_get_set_dec. destruct (decide (tu_venue u = v)) as [<-|Hv].
    + rewrite decide_True by done. apply set_venue_top_matches.
    + rewrite decide_False by tauto. apply IH.
  - rewrite decide_False, Hne by (tauto || congruence). apply IH.
Qed.

Lemma current_compute c sym : consolidator_ok c -> current c sym = compute (state_at c sym).
Proof.
  intros [_ Hn]. unfold current, state_at. destruct (_ !! sym) as [s|] eqn:E; [by apply (Hn sym)|done].
Qed.

(** After any updates the quote reported for a symbol is the best of the
    venues' latest tops: the bid is quoted by some venue, with that venue's
    size and sequence number, no venue bids more, and of the venues bidding as
    much it is the first; likewise for the ask; and a side is reported absent
    exactly when no venue quotes it. *)
Theorem nbbo_is_best us sym :
  let n := current (consolidator_run consolidator_init us) sym in
  let bids v := match latest us sym v with Some u => has_bid (tu_top u) | None => false end in
  let asks v := match latest us sym v with Some u => has_ask (tu_top u) | None => false end in
  (if n_has_bid n then exists v u, latest us sym v = Some u /\ has_bid (tu_top u) = true /\
      n_bid_venue n = venue_u8 v /\ n_bid_price n = bid_price (tu_top u) /\
      n_bid_qty n = bid_qty (tu_top u) /\ n_bid_venue_sequence n = tu_sequence u /\
      forall w u', latest us sym w = Some u' -> has_bid (tu_top u') = true ->
        bid_price (tu_top u') < n_bid_price n \/
        bid_price (tu_top u') = n_bid_price n /\ venue_u8 v <= venue_u8 w
   else forall v, bids v = false) /\
  (if n_has_ask n then exists v u, latest us sym v = Some u /\ has_ask (tu_top u) = true /\
      n_ask_venue n = venue_u8 v /\ n_ask_price n = ask_price (tu_top u) /\
      n_ask_qty n = ask_qty (tu_top u) /\ n_ask_venue_sequence n = tu_sequence u /\
      forall w u', latest us sym w = Some u' -> has_ask (tu_top u') = true ->
        n_ask_price n < ask_price (tu_top u') \/
        ask_price (tu_top u') = n_ask_price n /\ venue_u8 v <= venue_u8 w
   else forall v, asks v = false).
Proof.
  cbv zeta. destruct (consolidator_run_spec us) as [Hok Hm]. specialize (Hm sym).
  rewrite current_compute by done. set (s := state_at _ sym) in *.
  destruct (compute_best s) as [Hb Ha]. set (n := compute s) in *. clearbody n. unfold bid_best, ask_best in *.
  assert (forall v, venue_u8 v < 5) as H5 by (intros v; pose proof (venue_u8_range v); lia).
  split.
  - destruct (n_has_bid n).
    + destruct Hb as (v & _ & Hv & -> & Hp & Hq & Hs & Hbest). pose proof (Hm v) as Hmv.
      destruct (latest us sym v) as [u|] eqn:El; [|by rewrite Hmv in Hv].
      destruct Hmv as (E1 & _ & E2 & E3 & _ & _ & E4 & _). exists v, u. split_and!; try congruence.
      { rewrite Hs. apply E4. congruence. }
      intros w u' Hw Hwb. pose proof (Hm w) as Hmw. rewrite Hw in Hmw.
      destruct Hmw as (F1 & _ & F2 & _). rewrite <-F2. apply Hbest; [done|congruence].
    + destruct Hb as [Hno _]. intros v. pose proof (Hm v) as Hmv.
      destruct (latest us sym v) as [u|]; [|done]. destruct Hmv as (<- & _). by apply Hno.
  - destruct (n_has_ask n).
    + destruct Ha as (v & _ & Hv & -> & Hp & Hq & Hs & Hbest). pose proof (Hm v) as Hmv.
      destruct (latest us sym v) as [u|] eqn:El; [|by rewrite Hmv in Hv].
      destruct Hmv as (_ & E1 & _ & _ & E2 & E3 & _ & E4). exists v, u. split_and!; try congruence.
      { rewrite Hs. apply E4. congruence. }
      intros w u' Hw Hwb. pose proof (Hm w) as Hmw. rewrite Hw in Hmw.
      destruct Hmw as (_ & F1 & _ & _ & F2 & _). rewrite <-F2. apply Hbest; [done|congruence].
    + destruct Ha as [Hno _]. intros v. pose proof (Hm v) as Hmv.
      destruct (latest us sym v) as [u|]; [|done]. destruct Hmv as (_ & <- & _). by apply Hno.
Qed.

(** ** Change reports *)

Lemma nbbo_changed_iff a b : nbbo_changed a b = true <-> a <> b.
Proof.
  split.
  - intros H <-. unfold nbbo_changed in H. rewrite !eqb_reflx, !Z.eqb_refl in H. done.
  - intros Hne. destruct (nbbo_changed a b) eqn:E; [done|]. destruct Hne.
    unfold nbbo_changed in E. rewrite !orb_false_iff, !negb_false_iff, !Z.eqb_eq, !eqb_true_iff in E.
    destruct a, b. simpl in E. destruct_and?. by subst.
Qed.

(** [update] reports a change exactly when the quote of the symbol is not the
    one before; the quotes of the other symbols do not move. *)
Theorem nbbo_update_reports_change us u :
  let c := consolidator_run consolidator_init us in
  let '(changed, c') := nbbo_update c (tu_symbol u) (tu_venue u) (tu_top u) (tu_sequence u) in
  (changed = true <-> current c' (tu_symbol u) <> current c (tu_symbol u)) /\
  forall sym, sym <> tu_symbol u -> current c' sym = current c sym.
Proof.
  cbv zeta. destruct (consolidator_run_spec us) as [Hok _]. set (c := consolidator_run _ _) in *. clearbody c.
  unfold nbbo_update.
  pose proof (update_and_current_spec c (tu_symbol u) (tu_venue u) (tu_top u) (tu_sequence u) Hok) as H.
  cbv zeta in H. destruct (update_and_current _ _ _ _ _) as [n c']. destruct H as (Hok' & _ & Hne & ->).
  split.
  - rewrite nbbo_changed_iff, <-current_compute by done. split; congruence.
  - intros sym Hs. by rewrite !current_compute, Hne by done.
Qed.

Example nbbo_tie_goes_to_first_venue :
  let t p := mkTop true false p 10 0 0 in
  let c := consolidator_run consolidator_init
    [mkTopUpdate 1 Cboe (t 50) 7; mkTopUpdate 1 Iex (t 50) 8; mkTopUpdate 1 Nasdaq (t 49) 9] in
  n_bid_venue (current c 1) = 1 /\ n_bid_venue_sequence (current c 1) = 8.
Proof. vm_compute. done. Qed.
