(* ===== verification/EventBytes.v ===== *)
(** * The object representation of a book event

    The journal and the tick store copy [BookEvent] objects with [memcpy]. On
    the little-endian host the format asserts (include/mf/journal/journal_format.hpp)
    the object is 88 bytes: its members at their natural alignment, and padding
    whose contents the language leaves open. *)

From S2P Require Import Prelude Wire Types.

#[local] Open Scope string_scope.
#[local] Open Scope list_scope.
#[local] Open Scope Z_scope.

(** ** Enumerators from their bytes *)

Definition side_of_u8 (x : Z) : option Side :=
  if x =? 0 then Some Buy else if x =? 1 then Some Sell else if x =? 2 then Some SideUnknown else None.

Definition type_of_u8 (x : Z) : option EventType :=
  if x =? 0 then Some Add else if x =? 1 then Some AddMpid else if x =? 2 then Some Execute else
  if x =? 3 then Some ExecutePrice else if x =? 4 then Some Cancel else if x =? 5 then Some Delete else
  if x =? 6 then Some Replace else if x =? 7 then Some Trade else if x =? 8 then Some CrossTrade else
  if x =? 9 then Some Imbalance else if x =? 10 then Some System else
  if x =? 11 then Some StockDirectory else if x =? 255 then Some TypeUnknown else None.

Lemma side_of_u8_u8 s : side_of_u8 (side_u8 s) = Some s.
Proof. by destruct s. Qed.
Lemma type_of_u8_u8 t : type_of_u8 (type_u8 t) = Some t.
Proof. by destruct t. Qed.

(** ** Layout *)

(** The bytes between and after the members, and those of an empty [mpid]. *)
Record Padding := mkPadding { pad_head : list Z; pad_mpid : list Z; pad_tail : list Z }.

Definition padding_ok (p : Padding) : Prop :=
  length (pad_head p) = 6%nat /\ length (pad_mpid p) = 4%nat /\ length (pad_tail p) = 1%nat /\
  bytes_ok (pad_head p) /\ bytes_ok (pad_mpid p) /\ bytes_ok (pad_tail p).

Definition pad_zero : Padding := mkPadding (repeat 0 6) (repeat 0 4) [0].

Lemma pad_zero_ok : padding_ok pad_zero.
Proof. repeat split; repeat constructor; unfold byte_ok, is_u; lia. Qed.

Definition BookEventLayout : Layout :=
  [("venue", 1); ("type", 1); ("pad_head", 6); ("sequence", 8); ("exchange_ts_ns", 8);
   ("ingest_ts_ns", 8); ("symbol", 8); ("order_id", 8); ("match_id", 8);
   ("reference_order_id", 8); ("qty", 4); ("price", 4); ("prev_qty", 4); ("prev_price", 4);
   ("side", 1); ("mpid", 4); ("has_mpid", 1); ("raw_type", 1); ("pad_tail", 1)]%nat.

Definition kEventBytes : nat := 88.

Lemma event_layout_size : sizeof BookEventLayout = kEventBytes.
Proof. reflexivity. Qed.

Definition event_bytes (p : Padding) (e : BookEvent) : list Z :=
  [venue_u8 (venue e)] ++ [type_u8 (type e)] ++ pad_head p ++ le_bytes 8 (sequence e) ++
  le_bytes 8 (exchange_ts_ns e) ++ le_bytes 8 (ingest_ts_ns e) ++ symbol e ++
  le_bytes 8 (order_id e) ++ le_bytes 8 (match_id e) ++ le_bytes 8 (reference_order_id e) ++
  le_bytes 4 (qty e) ++ le_bytes 4 (price e) ++ le_bytes 4 (prev_qty e) ++ le_bytes 4 (prev_price e) ++
  [side_u8 (side e)] ++ default (pad_mpid p) (mpid e) ++
  [match mpid e with Some _ => 1 | None => 0 end] ++ [raw_type e] ++ pad_tail p.

(** The event at an address: [None] when an enumeration holds none of its
    enumerators or the [mpid] flag is neither 0 nor 1. *)
Definition event_of_bytes (b : list Z) : option BookEvent :=
  let member n := field BookEventLayout n b in
  let num w n := read_le w (member n) in
  let byte n := first_byte (member n) in
  match venue_of_u8 (byte "venue"), type_of_u8 (byte "type"), side_of_u8 (byte "side") with
  | Some v, Some t, Some s =>
      let ev m := mkEvent v t (num 8%nat "sequence") (num 8%nat "exchange_ts_ns") (num 8%nat "ingest_ts_ns")
        (member "symbol") (num 8%nat "order_id") (num 8%nat "match_id") (num 8%nat "reference_order_id")
        (num 4%nat "qty") (num 4%nat "price") (num 4%nat "prev_qty") (num 4%nat "prev_price") s m
        (byte "raw_type") in
      if byte "has_mpid" =? 0 then Some (ev None)
      else if byte "has_mpid" =? 1 then Some (ev (Some (member "mpid")))
      else None
  | _, _, _ => None
  end.

Section event_bytes.
Context (p : Padding) (e : BookEvent).
Hypothesis (Hp : padding_ok p) (He : event_ok e).

Lemma mpid_length : length (default (pad_mpid p) (mpid e)) = 4%nat.
Proof. destruct Hp as (_ & H & _), He. by destruct (mpid e) as [m|]; [destruct eo_mpid|]. Qed.

Lemma length_event_bytes : length (event_bytes p e) = kEventBytes.
Proof.
  destruct Hp as (H1 & _ & H3 & _). destruct (eo_symbol e He) as [Hs _]. unfold event_bytes.
  rewrite !length_app, !length_le_bytes, H1, H3, Hs, mpid_length. done.
Qed.

Lemma event_bytes_ok : bytes_ok (event_bytes p e).
Proof.
  destruct Hp as (_ & _ & _ & H4 & H5 & H6), He. unfold event_bytes.
  assert (byte_ok (venue_u8 (venue e))) by (destruct (venue e); unfold byte_ok, is_u; simpl; lia).
  assert (byte_ok (type_u8 (type e))) by (destruct (type e); unfold byte_ok, is_u; simpl; lia).
  assert (byte_ok (side_u8 (side e))) by (destruct (side e); unfold byte_ok, is_u; simpl; lia).
  assert (byte_ok (match mpid e with Some _ => 1 | None => 0 end)) by (destruct (mpid e); unfold byte_ok, is_u; lia).
  assert (bytes_ok (default (pad_mpid p) (mpid e))) by (destruct (mpid e); [apply eo_mpid|done]).
  destruct eo_symbol. rewrite !Forall_app, !Forall_singleton. auto 30 using le_bytes_ok.
Qed.

(** Copying an event to memory and back gives the event. *)
Lemma event_of_event_bytes : event_of_bytes (event_bytes p e) = Some e.
Proof.
  pose proof mpid_length as Hm. destruct Hp as (H1 & _ & H3 & _). destruct (eo_symbol e He) as [Hs _].
  unfold event_of_bytes, event_bytes. cbv zeta. unfold BookEventLayout. read_fields.
  cbn [first_byte hd]. rewrite venue_of_u8_u8, type_of_u8_u8, side_of_u8_u8.
  destruct He. rewrite !read_le_u64_le, !read_le_u32_le by done.
  by destruct e as [? ? ? ? ? ? ? ? ? ? ? ? ? ? [m|] ?].
Qed.
End event_bytes.
