(* ===== verification/Journal.v ===== *)
(** * The journal files (src/journal)

    Both journals share one format: an eight-byte header, then records of a
    24-byte header (sequence number, timestamp, payload length, CRC-32) and a
    fixed-size payload. The writer double-buffers and hands the kernel whole
    buffers; the reader maps the file, skips records whose checksum fails and
    stops at a torn end. What is read back is exactly what was appended, in
    order, whatever records in between are damaged. *)

From S2P Require Import Prelude Crc Wire.

#[local] Open Scope list_scope.
#[local] Open Scope Z_scope.

(** ** Format *)

(** The constants that tell the two journals apart: magic, version, payload
    size. *)
Record Format := mkFormat { f_magic : list Z; f_version : Z; f_payload : nat }.

Definition header_bytes (F : Format) : list Z := f_magic F ++ le_bytes 4 (f_version F).

Definition kHeaderSize : nat := 8.
Definition kRecordHeader : nat := 24.

Definition rec_bytes (F : Format) : nat := (kRecordHeader + f_payload F)%nat.

(** One record, with the checksum of its payload. *)
Definition record_bytes (F : Format) (seq ts crc : Z) (payload : list Z) : list Z :=
  le_bytes 8 seq ++ le_bytes 8 ts ++ le_bytes 4 (Z.of_nat (f_payload F)) ++ le_bytes 4 crc ++ payload.

(** ** Writer *)

(** [buf] is the used part of the active buffer (the first of the two when
    [on_a]), [file] the contents of the file [fd_] refers to, [fd] whether a
    file is open. *)
Record JournalWriter := mkWriter {
  fd : bool; file : list Z; buf : list Z; on_a : bool; buffer_bytes : Z; next_seq : Z;
}.

Definition writer_init (buffer_bytes : Z) : JournalWriter := mkWriter false [] [] true buffer_bytes 1.

Section writer.
(** [write(2)]: given the file's contents and the bytes offered, how many it
    takes, or a negative number on error. The file is open with [O_APPEND]. *)
Context (os_write : list Z -> list Z -> Z).
Context (F : Format).

(** The loop over [writev]; [fuel] bounds its turns. *)
Fixpoint write_loop (fuel : nat) (file data : list Z) : list Z :=
  match fuel, data with
  | S fuel, _ :: _ =>
      let n := os_write file data in
      if n <=? 0 then file
      else write_loop fuel (file ++ take (Z.to_nat n) data) (drop (Z.to_nat n) data)
  | _, _ => file
  end.

(** Whatever the loop wrote, the buffers are swapped and the new one empty. *)
Definition flush_active_buffer (w : JournalWriter) : JournalWriter :=
  if negb (fd w) || (length (buf w) =? 0)%nat then w
  else mkWriter (fd w) (write_loop (length (buf w)) (file w) (buf w)) [] (negb (on_a w))
                (buffer_bytes w) (next_seq w).

Definition writer_close (w : JournalWriter) : JournalWriter :=
  let w := flush_active_buffer w in
  mkWriter false (file w) [] true (buffer_bytes w) (next_seq w).

Definition write_header (w : JournalWriter) : bool * JournalWriter :=
  let n := os_write (file w) (header_bytes F) in
  (n =? Z.of_nat kHeaderSize,
   mkWriter (fd w) (file w ++ take (Z.to_nat n) (header_bytes F)) (buf w) (on_a w) (buffer_bytes w) (next_seq w)).

Definition validate_existing_header (w : JournalWriter) : bool * JournalWriter :=
  if (length (file w) <? kHeaderSize)%nat then (false, w) else
  if negb (bool_decide (slice (file w) 0 4 = f_magic F)) then (false, w) else
  if negb (read_le 4 (drop 4 (file w)) =? f_version F) then (false, w) else
  let data_bytes := (length (file w) - kHeaderSize)%nat in
  (true, mkWriter (fd w) (file w) (buf w) (on_a w) (buffer_bytes w)
                  (Z.of_nat (data_bytes / rec_bytes F) +64 1)).

Definition write_header_if_needed (w : JournalWriter) : bool * JournalWriter :=
  if (length (file w) =? 0)%nat then write_header w else validate_existing_header w.

(** [open] of a path whose contents are [contents] (none if it was missing);
    [can_open] is the outcome of [open(2)]. *)
Definition writer_open (can_open : bool) (contents : list Z) (w : JournalWriter) : bool * JournalWriter :=
  let w := writer_close w in
  if negb can_open then (false, w) else
  let w := mkWriter true contents (buf w) (on_a w) (buffer_bytes w) (next_seq w) in
  let '(ok, w) := write_header_if_needed w in
  if ok then (true, w) else (false, writer_close w).

(** [append] of the object [payload]. [None]: the record does not fit the
    buffer even when that is empty, and the copy would run past its end. *)
Definition writer_append (w : JournalWriter) (payload : list Z) (ts : Z) : option JournalWriter :=
  if negb (fd w) then Some w else
  let crc := crc32_update 0 payload in
  let w := if Z.of_nat (length (buf w) + rec_bytes F) >? buffer_bytes w then flush_active_buffer w else w in
  if Z.of_nat (length (buf w) + rec_bytes F) >? buffer_bytes w then None else
  Some (mkWriter (fd w) (file w) (buf w ++ record_bytes F (next_seq w) ts crc payload) (on_a w)
                 (buffer_bytes w) (next_seq w +64 1)).

Fixpoint writer_append_all (w : JournalWriter) (recs : list (list Z * Z)) : option JournalWriter :=
  match recs with
  | [] => Some w
  | (payload, ts) :: recs =>
      match writer_append w payload ts with
      | Some w => writer_append_all w recs
      | None => None
      end
  end.
End writer.

(** ** Reader *)

Inductive ErrorReason :=
  | record_decode | unexpected_eof | header_magic | header_version | record_size | record_crc.

Record JournalReaderStats := mkReaderStats { records_read : Z; crc_failures : Z; bytes_read : Z }.

(** [base] is the mapping of the file, or none; [error] the reason and offset
    of the last error. *)
Record JournalReader := mkReader {
  base : option (list Z); off : nat; rstats : JournalReaderStats; error : option (ErrorReason * nat);
}.

Definition reader_stats_init : JournalReaderStats := mkReaderStats 0 0 0.
Definition reader_init : JournalReader := mkReader None 0 reader_stats_init None.

Definition reader_close (r : JournalReader) : JournalReader := mkReader None 0 (rstats r) (error r).

(** [open]: [contents] is what the path holds, [None] when [open(2)] fails;
    [can_map] is the outcome of [mmap]. *)
Definition reader_open (F : Format) (contents : option (list Z)) (can_map : bool) (r : JournalReader)
    : bool * JournalReader :=
  let fail e := (false, mkReader None 0 (rstats r) (Some (e, 0%nat))) in
  match contents with
  | None => fail record_decode
  | Some f =>
      if (length f <? kHeaderSize)%nat then fail unexpected_eof else
      if negb can_map then fail record_decode else
      if negb (bool_decide (slice f 0 4 = f_magic F)) then fail header_magic else
      if negb (read_le 4 (drop 4 f) =? f_version F) then fail header_version else
      (true, mkReader (Some f) kHeaderSize reader_stats_init None)
  end.

(** What the head of [next]'s loop finds at an offset. *)
Inductive Scan :=
  | ScanEnd
  | ScanStop (e : ErrorReason)
  | ScanSkip
  | ScanRecord (seq ts : Z) (payload : list Z).

Definition scan (F : Format) (f : list Z) (off : nat) : Scan :=
  if (length f <? off + kRecordHeader)%nat then ScanEnd else
  let rec := drop off f in
  let seq := read_le 8 rec in
  let ts := read_le 8 (drop 8 rec) in
  let len := read_le 4 (drop 16 rec) in
  let crc := read_le 4 (drop 20 rec) in
  if negb (len =? Z.of_nat (f_payload F)) then ScanStop record_size else
  if (length f <? off + rec_bytes F)%nat then ScanStop unexpected_eof else
  let payload := slice rec kRecordHeader (f_payload F) in
  if negb (crc32_update 0 payload =? crc) then ScanSkip else ScanRecord seq ts payload.

Definition count_record (F : Format) (ok : bool) (s : JournalReaderStats) : JournalReaderStats :=
  mkReaderStats (if ok then records_read s +64 1 else records_read s)
                (if ok then crc_failures s else crc_failures s +64 1)
                (bytes_read s +64 Z.of_nat (rec_bytes F)).

Definition count_stop (s : JournalReaderStats) : JournalReaderStats :=
  mkReaderStats (records_read s) (crc_failures s +64 1) (bytes_read s).

(** The [while] of [next]: the payload, timestamp and sequence number of the
    record returned, [None] for [false]; the outer option is the fuel. *)
Fixpoint next_loop (F : Format) (fuel : nat) (f : list Z) (r : JournalReader)
    : option (option (list Z * Z * Z) * JournalReader) :=
  match fuel with
  | O => None
  | S fuel =>
      match scan F f (off r) with
      | ScanEnd =>
          Some (None, if (off r =? length f)%nat then r
                      else mkReader (base r) (off r) (rstats r) (Some (unexpected_eof, off r)))
      | ScanStop e =>
          Some (None, mkReader (base r) (length f) (count_stop (rstats r)) (Some (e, off r)))
      | ScanSkip =>
          next_loop F fuel f (mkReader (base r) (off r + rec_bytes F) (count_record F false (rstats r))
                                       (Some (record_crc, off r)))
      | ScanRecord seq ts payload =>
          Some (Some (payload, ts, seq),
                mkReader (base r) (off r + rec_bytes F) (count_record F true (rstats r)) (error r))
      end
  end.

Definition reader_next (F : Format) (r : JournalReader) : option (option (list Z * Z * Z) * JournalReader) :=
  match base r with
  | None => Some (None, r)
  | Some f => next_loop F (S (length f)) f r
  end.

(** [while (reader.next(...))] collecting what it returns. *)
Fixpoint read_all (F : Format) (fuel : nat) (r : JournalReader)
    : option (list (list Z * Z * Z) * JournalReader) :=
  match fuel with
  | O => None
  | S fuel =>
      match reader_next F r with
      | Some (Some x, r) =>
          match read_all F fuel r with
          | Some (l, r) => Some (x :: l, r)
          | None => None
          end
      | Some (None, r) => Some ([], r)
      | None => None
      end
  end.

(** ** What is written *)

Record format_ok (F : Format) : Prop := {
  fo_magic : length (f_magic F) = 4%nat;
  fo_version : is_u 32 (f_version F);
  fo_payload : Z.of_nat (f_payload F) < 2 ^ 32;
}.

(** A record on disk; [r_crc] is the checksum stored with it, right or not. *)
Record RawRecord := mkRaw { r_seq : Z; r_ts : Z; r_crc : Z; r_payload : list Z }.

Definition raw_bytes (F : Format) (r : RawRecord) : list Z :=
  record_bytes F (r_seq r) (r_ts r) (r_crc r) (r_payload r).

Record raw_ok (F : Format) (r : RawRecord) : Prop := {
  ra_seq : is_u 64 (r_seq r);
  ra_ts : is_u 64 (r_ts r);
  ra_crc : is_u 32 (r_crc r);
  ra_len : length (r_payload r) = f_payload F;
}.

Definition intact (r : RawRecord) : bool := crc32_update 0 (r_payload r) =? r_crc r.

Definition log_bytes (F : Format) (rs : list RawRecord) : list Z := concat (map (raw_bytes F) rs).

(** The records [append] writes for payloads and timestamps, numbered from
    [seq]. *)
Fixpoint number (seq : Z) (recs : list (list Z * Z)) : list RawRecord :=
  match recs with
  | [] => []
  | (payload, ts) :: recs => mkRaw seq ts (crc32_update 0 payload) payload :: number (seq +64 1) recs
  end.

Lemma length_raw_bytes F r : raw_ok F r -> length (raw_bytes F r) = rec_bytes F.
Proof.
  intros []. unfold raw_bytes, record_bytes. rewrite !length_app, !length_le_bytes, ra_len0. done.
Qed.

Lemma log_bytes_app F a b : log_bytes F (a ++ b) = log_bytes F a ++ log_bytes F b.
Proof. unfold log_bytes. by rewrite map_app, concat_app. Qed.

Lemma length_log_bytes F rs : Forall (raw_ok F) rs -> length (log_bytes F rs) = (length rs * rec_bytes F)%nat.
Proof.
  induction 1 as [|r rs Hr _ IH]; [done|]. unfold log_bytes. cbn [map concat].
  rewrite length_app, length_raw_bytes by done. fold (log_bytes F rs). rewrite IH. done.
Qed.

Section written.
Context (os_write : list Z -> list Z -> Z).
(** [write(2)] on a disk that is not full: it takes some of what it is
    offered. *)
Hypothesis os_write_progress : forall f d, d <> [] -> 0 < os_write f d <= Z.of_nat (length d).

Lemma write_loop_all fuel : forall file data, (length data <= fuel)%nat ->
  write_loop os_write fuel file data = file ++ data.
Proof.
  induction fuel as [|fuel IH]; intros file data Hf.
  - destruct data; [by rewrite app_nil_r|simpl in Hf; lia].
  - destruct data as [|b data]; cbn [write_loop]; [by rewrite app_nil_r|]. cbv zeta.
    pose proof (os_write_progress file (b :: data) ltac:(done)) as Hn. set (n := os_write _ _) in *.
    replace (n <=? 0) with false by (symmetry; apply Z.leb_gt; lia).
    rewrite IH by (rewrite length_drop; simpl in *; lia). by rewrite <-app_assoc, take_drop.
Qed.

(** All a writer has been given, on disk or not. *)
Definition all_given (w : JournalWriter) : list Z := file w ++ buf w.

Lemma flush_all_given w : fd w = true ->
  let w' := flush_active_buffer os_write w in
  all_given w' = all_given w /\ file w' = all_given w /\ buf w' = [] /\ fd w' = true /\
  buffer_bytes w' = buffer_bytes w /\ next_seq w' = next_seq w.
Proof.
  intros Hfd. unfold flush_active_buffer, all_given. rewrite Hfd. cbn [negb orb].
  destruct (length (buf w) =? 0)%nat eqn:E.
  - apply Nat.eqb_eq, nil_length_inv in E. rewrite E, app_nil_r. by split_and!.
  - cbn [file buf fd buffer_bytes next_seq]. rewrite write_loop_all by lia. by rewrite app_nil_r.
Qed.

Lemma append_all_given F recs : forall w, fd w = true -> Z.of_nat (rec_bytes F) <= buffer_bytes w ->
  exists w', writer_append_all os_write F w recs = Some w' /\ fd w' = true /\
    all_given w' = all_given w ++ log_bytes F (number (next_seq w) recs).
Proof.
  induction recs as [|[payload ts] recs IH]; intros w Hfd Hb.
  { exists w. split_and!; [done|done|]. unfold log_bytes. simpl. by rewrite app_nil_r. }
  cbn [writer_append_all number]. unfold writer_append at 1. rewrite Hfd. cbn [negb]. cbv zeta.
  set (w1 := if _ >? buffer_bytes w then _ else _).
  assert (all_given w1 = all_given w /\ fd w1 = true /\ buffer_bytes w1 = buffer_bytes w /\
    next_seq w1 = next_seq w /\ Z.of_nat (length (buf w1) + rec_bytes F) <= buffer_bytes w1)
    as (H1 & H2 & H3 & H4 & H5).
  { subst w1. destruct (_ >? _) eqn:E; [|rewrite Z.gtb_ltb in E; apply Z.ltb_ge in E; by split_and!].
    pose proof (flush_all_given w Hfd) as H. cbv zeta in H. destruct H as (Hc & _ & Hbuf & Hf & Hbb & Hn).
    rewrite Hbuf, Hbb. split_and!; auto. }
  replace (_ >? _) with false by (symmetry; rewrite Z.gtb_ltb; by apply Z.ltb_ge).
  edestruct IH as (w' & -> & Hfd' & Hc); cycle 2.
  { exists w'. split; [done|]. split; [done|]. rewrite Hc, <-H1, <-H4. unfold all_given at 1 2, log_bytes.
    cbn [file buf next_seq map concat]. unfold raw_bytes at 2. cbn [r_seq r_ts r_crc r_payload].
    by rewrite <-!app_assoc. }
  - by cbn [fd].
  - cbn [buffer_bytes]. lia.
Qed.

Lemma close_file w : fd w = true -> file (writer_close os_write w) = all_given w.
Proof.
  intros Hfd. pose proof (flush_all_given w Hfd) as H. cbv zeta in H. destruct H as (_ & H & _). exact H.
Qed.
End written.

(** ** What is read *)

Section read.
Context (F : Format).
Hypothesis HF : format_ok F.

Lemma scan_raw pre r post : raw_ok F r ->
  scan F (pre ++ raw_bytes F r ++ post) (length pre) =
    if intact r then ScanRecord (r_seq r) (r_ts r) (r_payload r) else ScanSkip.
Proof.
  intros Hr. pose proof (length_raw_bytes F r Hr) as Hl. destruct Hr. unfold scan. rewrite !length_app, Hl.
  unfold rec_bytes, kRecordHeader.
  replace (_ <? _ + 24)%nat with false by (symmetry; apply Nat.ltb_ge; lia). cbv zeta.
  replace (_ <? _)%nat with false by (symmetry; apply Nat.ltb_ge; lia).
  rewrite drop_app_length. unfold raw_bytes, record_bytes. rewrite <-!app_assoc.
  assert (forall n m z rest, (n <= m)%nat -> drop m (le_bytes n z ++ rest) = drop (m - n) rest) as Hd.
  { intros n m z rest H. by rewrite drop_app_ge, length_le_bytes by (rewrite length_le_bytes; lia). }
  assert (forall n z rest, 0 <= z < 256 ^ Z.of_nat n -> read_le n (le_bytes n z ++ rest) = z) as Hrd.
  { intros n z rest Hz. unfold read_le. rewrite take_app_length' by (by rewrite length_le_bytes).
    rewrite le_val_le_bytes. by apply Z.mod_small. }
  rewrite (Hrd 8%nat) by exact ra_seq0.
  rewrite !(Hd 8%nat 8%nat), !(Hd 8%nat 16%nat), !(Hd 8%nat 20%nat) by lia. cbn [Nat.sub]. rewrite drop_0.
  rewrite (Hrd 8%nat) by exact ra_ts0.
  rewrite !(Hd 8%nat 8%nat), !(Hd 8%nat 12%nat) by lia. cbn [Nat.sub]. rewrite drop_0.
  rewrite (Hd 4%nat 4%nat) by lia. cbn [Nat.sub]. rewrite drop_0.
  rewrite !(Hrd 4%nat) by (exact ra_crc0 || (pose proof (fo_payload F HF); simpl; lia)).
  rewrite Z.eqb_refl. cbn [negb]. unfold slice.
  do 2 (rewrite (Hd 8%nat) by lia). cbn [Nat.sub]. do 2 (rewrite (Hd 4%nat) by lia). cbn [Nat.sub]. rewrite drop_0.
  rewrite take_app_length' by done. unfold intact. by destruct (_ =? r_crc r).
Qed.
(** What a crash while appending leaves: a proper prefix of a record. *)
Definition torn (tail : list Z) : Prop :=
  exists r k, raw_ok F r /\ (k < rec_bytes F)%nat /\ tail = take k (raw_bytes F r).

Lemma torn_nil : torn [].
Proof.
  exists (mkRaw 0 0 0 (replicate (f_payload F) 0)), 0%nat. split_and!; [|unfold rec_bytes, kRecordHeader; lia|done].
  split; simpl; try (unfold is_u; lia). apply length_replicate.
Qed.

Lemma length_torn tail : torn tail -> (length tail < rec_bytes F)%nat.
Proof. intros (r & k & Hr & Hk & ->). rewrite length_take. lia. Qed.

Lemma scan_torn pre tail : torn tail ->
  scan F (pre ++ tail) (length pre) =
    if (length tail <? kRecordHeader)%nat then ScanEnd else ScanStop unexpected_eof.
Proof.
  intros Ht. pose proof (length_torn tail Ht) as Hlen. destruct Ht as (r & k & Hr & Hk & Htl).
  assert (length tail = k) as Hkl by (rewrite Htl, length_take, (length_raw_bytes F r Hr); lia).
  unfold scan. rewrite length_app.
  replace (length pre + length tail <? length pre + kRecordHeader)%nat with (length tail <? kRecordHeader)%nat
    by (destruct (Nat.ltb_spec (length tail) kRecordHeader); symmetry; [apply Nat.ltb_lt|apply Nat.ltb_ge]; lia).
  destruct (length tail <? kRecordHeader)%nat eqn:E; [done|]. apply Nat.ltb_ge in E. cbv zeta.
  rewrite drop_app_length. assert (read_le 4 (drop 16 tail) = Z.of_nat (f_payload F)) as ->.
  { rewrite Htl. unfold read_le. rewrite skipn_firstn_comm, take_take, Nat.min_l by (unfold kRecordHeader in E; lia).
    unfold raw_bytes, record_bytes. do 2 (rewrite drop_app_ge, length_le_bytes by (rewrite length_le_bytes; lia)).
    cbn [Nat.sub]. rewrite drop_0, take_app_length' by (by rewrite length_le_bytes).
    rewrite le_val_le_bytes. apply Z.mod_small. pose proof (fo_payload F HF). simpl. lia. }
  rewrite Z.eqb_refl. cbn [negb].
  by replace (_ <? _)%nat with true by (symmetry; apply Nat.ltb_lt; lia).
Qed.

(** The loop of [next] ends: each turn that continues consumes a record. *)
Lemma next_loop_mono f fuel : forall fuel' r x, (fuel <= fuel')%nat ->
  next_loop F fuel f r = Some x -> next_loop F fuel' f r = Some x.
Proof.
  induction fuel as [|fuel IH]; intros [|fuel'] r x Hf H; try done; [lia|].
  cbn [next_loop] in *. destruct (scan F f (off r)); try done. by apply IH; [lia|].
Qed.

Lemma scan_skip_bound f o : scan F f o = ScanSkip -> (o + rec_bytes F <= length f)%nat.
Proof.
  unfold scan. case_match; [done|]. cbv zeta. case_match; [done|].
  destruct (length f <? o + rec_bytes F)%nat eqn:E; [done|]. intros _. by apply Nat.ltb_ge.
Qed.

Lemma next_loop_total f fuel : forall r, (0 < fuel)%nat -> (length f < off r + fuel)%nat ->
  is_Some (next_loop F fuel f r).
Proof.
  induction fuel as [|fuel IH]; intros r H0 Hf; [lia|]. cbn [next_loop].
  destruct (scan F f (off r)) eqn:E; eauto. apply scan_skip_bound in E.
  unfold rec_bytes, kRecordHeader in *. apply IH; cbn [off]; lia.
Qed.

Lemma next_loop_unique f fuel r x : next_loop F fuel f r = Some x -> next_loop F (S (length f)) f r = Some x.
Proof.
  intros H. destruct (next_loop_total f (S (length f)) r) as [y Hy]; [lia|lia|].
  rewrite Hy. apply (next_loop_mono _ _ (fuel + S (length f))) in H; [|lia].
  apply (next_loop_mono _ _ (fuel + S (length f))) in Hy; [|lia]. congruence.
Qed.

(** Reading skips a record whose checksum is wrong. *)
Lemma read_all_skip fuel f o st err : scan F f o = ScanSkip ->
  read_all F fuel (mkReader (Some f) o st err) =
  read_all F fuel (mkReader (Some f) (o + rec_bytes F) (count_record F false st) (Some (record_crc, o))).
Proof.
  intros Hs. destruct fuel as [|fuel]; [done|]. cbn [read_all].
  enough (reader_next F (mkReader (Some f) o st err) = reader_next F (mkReader (Some f) (o + rec_bytes F)
    (count_record F false st) (Some (record_crc, o)))) as ->; [done|].
  unfold reader_next. cbn [base].
  set (r' := mkReader (Some f) (o + rec_bytes F) (count_record F false st) (Some (record_crc, o))).
  pose proof (scan_skip_bound f o Hs) as Hb. unfold rec_bytes, kRecordHeader in Hb.
  destruct (next_loop_total f (length f) r') as [x Hx]; [lia|subst r'; cbn [off]; unfold rec_bytes, kRecordHeader; lia|].
  rewrite (next_loop_unique _ _ _ _ Hx). cbn [next_loop off]. by rewrite Hs.
Qed.

(** The records a reader delivers, and its statistics after them. *)
Definition delivered (rs : list RawRecord) : list (list Z * Z * Z) :=
  map (fun r => (r_payload r, r_ts r, r_seq r)) (List.filter intact rs).

Definition stats_after (rs : list RawRecord) (tail : list Z) (st : JournalReaderStats) : JournalReaderStats :=
  let st := fold_left (fun st r => count_record F (intact r) st) rs st in
  if (length tail <? kRecordHeader)%nat then st else count_stop st.

Lemma read_all_log tail rs : Forall (raw_ok F) rs -> torn tail ->
  forall fuel pre st err, (length rs < fuel)%nat ->
  exists r', read_all F fuel (mkReader (Some (pre ++ log_bytes F rs ++ tail)) (length pre) st err)
    = Some (delivered rs, r') /\ rstats r' = stats_after rs tail st /\
    (error r' = None <-> err = None /\ forallb intact rs = true /\ tail = []).
Proof.
  intros Hrs Ht. induction Hrs as [|r rs Hr Hrs IH]; intros [|fuel] pre st err Hf; try (simpl in Hf; lia).
  - unfold log_bytes. cbn [map concat app delivered List.filter forallb read_all]. unfold reader_next.
    cbn [base next_loop off]. rewrite scan_torn by done. unfold stats_after. cbn [fold_left].
    destruct (length tail <? kRecordHeader)%nat eqn:El; (eexists; split; [done|]).
    + rewrite length_app. destruct (_ =? _)%nat eqn:E; cbn [rstats error]; (split; [done|]).
      * apply Nat.eqb_eq in E. assert (tail = []) by (apply nil_length_inv; lia). tauto.
      * apply Nat.eqb_neq in E. split; [done|]. intros (_ & _ & ->). simpl in E. lia.
    + split; [done|]. cbn [error]. split; [done|]. intros (_ & _ & ->). by vm_compute in El.
  - pose proof (length_raw_bytes F r Hr) as Hl.
    unfold log_bytes. cbn [length map concat delivered List.filter forallb] in *. fold (log_bytes F rs).
    rewrite <-app_assoc. set (f := pre ++ raw_bytes F r ++ log_bytes F rs ++ tail).
    assert (f = (pre ++ raw_bytes F r) ++ log_bytes F rs ++ tail) as Hfe by (subst f; by rewrite <-app_assoc).
    assert (length (pre ++ raw_bytes F r) = length pre + rec_bytes F)%nat as Hpre by (rewrite length_app; lia).
    pose proof (scan_raw pre r (log_bytes F rs ++ tail) Hr) as Hs. fold f in Hs.
    unfold stats_after. cbn [fold_left]. fold (stats_after rs tail (count_record F (intact r) st)).
    destruct (intact r).
    + edestruct (IH fuel (pre ++ raw_bytes F r)) as (r' & Hr' & Hst & He); [lia|].
      rewrite <-Hfe, Hpre in Hr'. exists r'. cbn [read_all]. unfold reader_next. cbn [base next_loop off].
      rewrite Hs. cbn [base off rstats error]. rewrite Hr'. split; [done|]. split; [done|]. tauto.
    + rewrite read_all_skip by done.
      edestruct (IH (S fuel) (pre ++ raw_bytes F r)) as (r' & Hr' & Hst & He); [lia|].
      rewrite <-Hfe, Hpre in Hr'. exists r'. split; [exact Hr'|]. split; [done|].
      rewrite He. split; [intros [? _]; done|intros (_ & ? & _); done].
Qed.

Lemma header_check rest : let f := header_bytes F ++ rest in
  length (header_bytes F) = kHeaderSize /\ slice f 0 4 = f_magic F /\ read_le 4 (drop 4 f) = f_version F.
Proof.
  destruct HF as [Hm Hv _]. cbv zeta. unfold header_bytes. rewrite length_app, length_le_bytes, Hm. split; [done|].
  unfold slice. rewrite drop_0, <-!app_assoc, take_app_length' by done. split; [done|].
  rewrite drop_app_length' by done. unfold read_le. rewrite take_app_length' by (by rewrite length_le_bytes).
  rewrite le_val_le_bytes. by apply Z.mod_small.
Qed.

(** Opening and reading a file of records. *)
Lemma open_read_all rs tail fuel r0 : Forall (raw_ok F) rs -> torn tail -> (length rs < fuel)%nat ->
  exists r1 r2, reader_open F (Some (header_bytes F ++ log_bytes F rs ++ tail)) true r0 = (true, r1) /\
    read_all F fuel r1 = Some (delivered rs, r2) /\ rstats r2 = stats_after rs tail reader_stats_init /\
    (error r2 = None <-> forallb intact rs = true /\ tail = []).
Proof.
  intros Hrs Ht Hf. destruct (header_check (log_bytes F rs ++ tail)) as (Hh & Hm & Hv).
  set (f := header_bytes F ++ log_bytes F rs ++ tail) in *.
  destruct (read_all_log tail rs Hrs Ht fuel (header_bytes F) reader_stats_init None Hf) as (r2 & Hr & Hs & He).
  exists (mkReader (Some f) kHeaderSize reader_stats_init None), r2. split_and!.
  - unfold reader_open. rewrite Hm, Hv, Z.eqb_refl. rewrite bool_decide_eq_true_2 by done. cbn [negb].
    replace (_ <? _)%nat with false; [done|]. symmetry. apply Nat.ltb_ge. subst f. rewrite length_app. lia.
  - rewrite <-Hr. f_equal. rewrite Hh. done.
  - exact Hs.
  - rewrite He. tauto.
Qed.
End read.

(** ** Opening a writer *)

Lemma number_ok F recs : forall seq, is_u 64 seq ->
  Forall (fun p => length p.1 = f_payload F /\ bytes_ok p.1 /\ is_u 64 p.2) recs ->
  Forall (raw_ok F) (number seq recs) /\ forallb intact (number seq recs) = true.
Proof.
  induction recs as [|[payload ts] recs IH]; intros seq Hs Hr; [done|].
  apply Forall_cons in Hr as [(Hl & Hok & Hts) Hr]. cbn [number forallb fst snd] in *.
  destruct (IH (seq +64 1) (u64_range _) Hr) as [H1 H2]. split.
  - constructor; [|done]. split; cbn [r_seq r_ts r_crc r_payload]; auto.
    apply crc32_update_u32; [unfold is_u; lia|done].
  - rewrite H2, andb_true_r. unfold intact. apply Z.eqb_refl.
Qed.

Lemma length_number seq recs : length (number seq recs) = length recs.
Proof. revert seq. induction recs as [|[p ts] recs IH]; intros seq; [done|]. cbn. by rewrite IH. Qed.

Section opening.
Context (os_write : list Z -> list Z -> Z) (F : Format).
Hypothesis os_write_header : os_write [] (header_bytes F) = Z.of_nat kHeaderSize.
Hypothesis HF : format_ok F.

(** Opening a missing or empty file writes the header; opening a journal
    resumes its numbering after the last record. *)
Lemma writer_open_spec contents rs w : fd w = false -> Forall (raw_ok F) rs ->
  contents = [] /\ rs = [] \/ contents = header_bytes F ++ log_bytes F rs ->
  exists w', writer_open os_write F true contents w = (true, w') /\ fd w' = true /\ buf w' = [] /\
    buffer_bytes w' = buffer_bytes w /\ file w' = header_bytes F ++ log_bytes F rs /\
    next_seq w' = (if decide (contents = []) then next_seq w else Z.of_nat (length rs) +64 1).
Proof.
  intros Hfd Hrs Hc. unfold writer_open. cbn [negb]. cbv zeta.
  assert (flush_active_buffer os_write w = w) as Hfl by (unfold flush_active_buffer; by rewrite Hfd).
  assert (writer_close os_write w = mkWriter false (file w) [] true (buffer_bytes w) (next_seq w)) as ->
    by (unfold writer_close; by rewrite Hfl).
  cbn [file buf on_a buffer_bytes next_seq]. unfold write_header_if_needed. cbn [file].
  destruct (header_check F HF (log_bytes F rs)) as (Hh & Hm & Hv).
  destruct Hc as [[-> ->] | ->].
  - cbn [length Nat.eqb]. unfold write_header. cbn [file]. rewrite os_write_header, Z.eqb_refl.
    eexists. split; [done|]. cbn [fd buf buffer_bytes file next_seq]. split_and!; try done.
    rewrite take_ge by (rewrite Hh; done). unfold log_bytes. simpl. by rewrite app_nil_r.
  - set (f := header_bytes F ++ log_bytes F rs) in *.
    assert (length f = kHeaderSize + length rs * rec_bytes F)%nat as Hlen.
    { subst f. by rewrite length_app, Hh, length_log_bytes. }
    replace (_ =? 0)%nat with false by (symmetry; apply Nat.eqb_neq; unfold kHeaderSize in *; lia).
    unfold validate_existing_header. cbn [file]. rewrite Hm, Hv, Z.eqb_refl, bool_decide_eq_true_2 by done.
    replace (_ <? _)%nat with false by (symmetry; apply Nat.ltb_ge; lia). cbn [negb].
    eexists. split; [done|]. cbn [fd buf buffer_bytes file next_seq]. split_and!; try done.
    rewrite decide_False by (intros E; rewrite E in Hlen; simpl in Hlen; lia).
    rewrite Hlen. replace (kHeaderSize + length rs * rec_bytes F - kHeaderSize)%nat
      with (length rs * rec_bytes F)%nat by lia.
    rewrite Nat.div_mul by (unfold rec_bytes, kRecordHeader; lia). done.
Qed.
End opening.

(** ** Damage *)

Lemma delivered_app a b : delivered (a ++ b) = delivered a ++ delivered b.
Proof. unfold delivered. by rewrite List.filter_app, map_app. Qed.

Lemma delivered_intact rs : forallb intact rs = true ->
  delivered rs = map (fun r => (r_payload r, r_ts r, r_seq r)) rs.
Proof.
  unfold delivered. induction rs as [|r rs IH]; [done|]. cbn [forallb List.filter].
  intros [-> H]%andb_true_iff. cbn [map]. by rewrite IH.
Qed.

Lemma intact_failures F rs : forall st, forallb intact rs = true ->
  crc_failures (fold_left (fun st r => count_record F (intact r) st) rs st) = crc_failures st.
Proof.
  induction rs as [|r rs IH]; intros st H; [done|]. cbn [forallb fold_left] in *.
  apply andb_true_iff in H as [-> H]. by rewrite IH.
Qed.

(** A payload damaged within four consecutive bytes costs that record and no
    other: the reader delivers every record before and after it, and counts one
    checksum failure. *)
Theorem journal_corruption_contained F a b seq ts x w w' y fuel r0 :
  format_ok F -> Forall (raw_ok F) (a ++ b) -> forallb intact (a ++ b) = true ->
  is_u 64 seq -> is_u 64 ts -> bytes_ok (x ++ w ++ y) -> bytes_ok w' -> length (x ++ w ++ y) = f_payload F ->
  length w' = length w -> (length w <= 4)%nat -> w' <> w -> (length (a ++ b) + 1 < fuel)%nat ->
  let damaged := mkRaw seq ts (crc32_update 0 (x ++ w ++ y)) (x ++ w' ++ y) in
  exists r1 r2,
    reader_open F (Some (header_bytes F ++ log_bytes F (a ++ damaged :: b))) true r0 = (true, r1) /\
    read_all F fuel r1 = Some (map (fun r => (r_payload r, r_ts r, r_seq r)) (a ++ b), r2) /\
    crc_failures (rstats r2) = 1.
Proof.
  intros HF Hraw Hint Hseq Hts Hok Hok' Hlen Hw Hw4 Hne Hf damaged.
  assert (raw_ok F damaged) as Hd.
  { split; cbn [r_seq r_ts r_crc r_payload damaged]; auto.
    - apply crc32_update_u32; [unfold is_u; lia|done].
    - rewrite !length_app in *. lia. }
  assert (intact damaged = false) as Hnot.
  { unfold intact. cbn [r_payload r_crc damaged]. apply Z.eqb_neq.
    apply Forall_app in Hok as [Hx [Hwok Hy]%Forall_app].
    apply crc32_burst; auto; unfold is_u; try lia. }
  apply Forall_app in Hraw as [Ha Hb]. rewrite forallb_app in Hint. apply andb_true_iff in Hint as [Hia Hib].
  destruct (open_read_all F HF (a ++ damaged :: b) [] fuel r0) as (r1 & r2 & Ho & Hr & Hs & _).
  { apply Forall_app. split; [done|by constructor]. }
  { apply torn_nil. }
  { rewrite length_app in *. simpl. lia. }
  exists r1, r2. rewrite app_nil_r in Ho. split; [done|]. split.
  - rewrite Hr, delivered_app, map_app. unfold delivered at 2. cbn [List.filter]. rewrite Hnot.
    fold (delivered b). by rewrite !delivered_intact.
  - rewrite Hs. unfold stats_after. cbn [length Nat.ltb Nat.leb kRecordHeader].
    rewrite fold_left_app, fold_left_cons, intact_failures, Hnot by done. cbn [count_record crc_failures].
    by rewrite intact_failures.
Qed.

(** C20. A journal whose last record a crash cut short, at any byte, still reads
    back every record before it, and the reader flags an error exactly when
    something was cut. *)
Theorem journal_torn_tail F rs last k fuel r0 :
  format_ok F -> Forall (raw_ok F) rs -> forallb intact rs = true -> raw_ok F last ->
  (k < rec_bytes F)%nat -> (length rs < fuel)%nat ->
  exists r1 r2,
    reader_open F (Some (header_bytes F ++ log_bytes F rs ++ take k (raw_bytes F last))) true r0 = (true, r1) /\
    read_all F fuel r1 = Some (map (fun r => (r_payload r, r_ts r, r_seq r)) rs, r2) /\
    (error r2 = None <-> k = 0%nat).
Proof.
  intros HF Hrs Hint Hl Hk Hf. assert (torn F (take k (raw_bytes F last))) as Ht by (by exists last, k).
  destruct (open_read_all F HF rs _ fuel r0 Hrs Ht Hf) as (r1 & r2 & Ho & Hr & _ & He).
  exists r1, r2. split; [done|]. rewrite Hr, delivered_intact by done. split; [done|]. rewrite He.
  split; [|intros ->; by rewrite take_0].
  intros [_ H]. apply (f_equal length) in H. rewrite length_take, length_raw_bytes in H by done. simpl in H. lia.
Qed.
