(* ===== verification/EventStore.v ===== *)
(** * The event journal and the event store (src/journal, src/research/event_store.cpp)

    The journal of [BookEvent] objects, its sink stages, the semantic checksum
    of a journal, and the research store that appends batches to a journal and
    replays it. Whatever batches were appended, replaying gives them back in
    order, with the stream checksum of the events themselves. *)

From S2P Require Import Prelude Types Crc Wire EventBytes Journal.

#[local] Open Scope list_scope.
#[local] Open Scope Z_scope.

(** ** The journal of events *)

Definition kJournalMagic : list Z := [77; 70; 74; 78].
Definition kJournalVersion : Z := 1.
Definition kJournalPayloadLenV1 : nat := kEventBytes.
Definition book_format : Format := mkFormat kJournalMagic kJournalVersion kJournalPayloadLenV1.

Lemma book_format_ok : format_ok book_format.
Proof. by split. Qed.

(** An event object in memory: its padding and its value. *)
Definition EventObject : Type := Padding * BookEvent.
Definition object_bytes (o : EventObject) : list Z := event_bytes o.1 o.2.

Definition journal_append (os_write : list Z -> list Z -> Z) (w : JournalWriter) (ev : EventObject) (ts : Z)
    : option JournalWriter :=
  writer_append os_write book_format w (object_bytes ev) ts.

(** [JournalReader::next]; [None] when the loop runs out of fuel or the object
    read holds no enumerator. *)
Definition journal_next (r : JournalReader) : option (option (BookEvent * Z * Z) * JournalReader) :=
  match reader_next book_format r with
  | Some (Some (payload, ts, seq), r) =>
      match event_of_bytes payload with
      | Some ev => Some (Some (ev, ts, seq), r)
      | None => None
      end
  | Some (None, r) => Some (None, r)
  | None => None
  end.

(** ** Sinks (journaling_sink.cpp) *)

Section sinks.
Context (os_write : list Z -> list Z -> Z) {S : Type}.

(** [JournalingSink::on_merged_event], a null pointer being [None]. *)
Definition journaling_on_merged_event (downstream : option (BookEvent -> S -> S)) (ev : EventObject)
    (st : option JournalWriter * S) : option (option JournalWriter * S) :=
  let '(writer, s) := st in
  let writer' := match writer with
                 | Some w => Some <$> journal_append os_write w ev (ingest_ts_ns ev.2)
                 | None => Some None
                 end in
  let s := match downstream with Some f => f ev.2 s | None => s end in
  match writer' with Some w => Some (w, s) | None => None end.

(** [JournalingIngestSink::operator()]. *)
Definition journaling_ingest {FeedSide : Type} (downstream : option (FeedSide -> BookEvent -> S -> S))
    (side : FeedSide) (ev : EventObject) (st : option JournalWriter * S)
    : option (option JournalWriter * S) :=
  let '(writer, s) := st in
  let writer' := match writer with
                 | Some w => Some <$> journal_append os_write w ev (ingest_ts_ns ev.2)
                 | None => Some None
                 end in
  let s := match downstream with Some f => f side ev.2 s | None => s end in
  match writer' with Some w => Some (w, s) | None => None end.
End sinks.

(** ** Semantic checksum (include/mf/journal/journal_semantic_crc.hpp) *)

Record JournalSemanticStats := mkSemantic { sem_records : Z; sem_crc : Z; sem_crc_failures : Z }.

Fixpoint semantic_loop (fuel : nat) (r : JournalReader) (out : JournalSemanticStats)
    : option (JournalSemanticStats * JournalReader) :=
  match fuel with
  | O => None
  | S fuel =>
      match journal_next r with
      | Some (Some (ev, _, _), r) =>
          semantic_loop fuel r (mkSemantic (sem_records out +64 1)
            (update_crc_from_book_event (sem_crc out) ev) (sem_crc_failures out))
      | Some (None, r) => Some (out, r)
      | None => None
      end
  end.

(** [path]: what the path holds, if it opens. *)
Definition compute_semantic_crc (path : option (list Z)) (out : JournalSemanticStats)
    : option (bool * JournalSemanticStats) :=
  match reader_open book_format path true reader_init with
  | (false, _) => Some (false, out)
  | (true, r) =>
      match semantic_loop (S (length (default [] path))) r (mkSemantic 0 0 0) with
      | Some (out, r) =>
          let out := mkSemantic (sem_records out) (sem_crc out) (crc_failures (rstats r)) in
          Some (sem_crc_failures out =? 0, out)
      | None => None
      end
  end.

(** ** The event store *)

Record EventStoreStats := mkStoreStats {
  records : Z; store_crc : Z; first_exchange_ts_ns : Z; last_exchange_ts_ns : Z; store_crc_failures : Z;
}.
Definition store_stats_init : EventStoreStats := mkStoreStats 0 0 0 0 0.

Definition update_stats (stats : EventStoreStats) (ev : BookEvent) : EventStoreStats :=
  mkStoreStats (records stats +64 1) (update_crc_from_book_event (store_crc stats) ev)
    (if records stats =? 0 then exchange_ts_ns ev else first_exchange_ts_ns stats)
    (exchange_ts_ns ev) (store_crc_failures stats).

(** [EventStore::append] on a path holding [contents]: success, and what the
    path holds afterwards. *)
Definition store_append (os_write : list Z -> list Z -> Z) (can_open : bool) (contents : list Z)
    (events : list EventObject) : option (bool * list Z) :=
  match writer_open os_write book_format can_open contents (writer_init (2 ^ 20)) with
  | (false, w) => Some (false, if can_open then file w else contents)
  | (true, w) =>
      match writer_append_all os_write book_format w
              (map (fun ev => (object_bytes ev, ingest_ts_ns ev.2)) events) with
      | Some w => Some (true, file (writer_close os_write w))
      | None => None
      end
  end.

Section replay.
(** The consumer: [IEventConsumer::on_event]. *)
Context {S : Type} (on_event : BookEvent -> S -> S).

Fixpoint replay_loop (fuel : nat) (r : JournalReader) (local : EventStoreStats) (s : S)
    : option (EventStoreStats * S * JournalReader) :=
  match fuel with
  | O => None
  | Datatypes.S fuel =>
      match journal_next r with
      | Some (Some (ev, ts, _), r) =>
          let ev := set_ingest_ts ts ev in
          replay_loop fuel r (update_stats local ev) (on_event ev s)
      | Some (None, r) => Some (local, s, r)
      | None => None
      end
  end.

Definition store_replay (path : option (list Z)) (s : S) : option (bool * EventStoreStats * S) :=
  match reader_open book_format path true reader_init with
  | (false, _) => Some (false, store_stats_init, s)
  | (true, r) =>
      match replay_loop (Datatypes.S (length (default [] path))) r store_stats_init s with
      | Some (local, s, r) =>
          let local := mkStoreStats (records local) (store_crc local) (first_exchange_ts_ns local)
                         (last_exchange_ts_ns local) (crc_failures (rstats r)) in
          Some (store_crc_failures local =? 0, local, s)
      | None => None
      end
  end.
End replay.

Definition load_all (path : option (list Z)) : option (list BookEvent * EventStoreStats) :=
  match store_replay (fun ev out => out ++ [ev]) path [] with
  | Some (_, stats, events) => Some (events, stats)
  | None => None
  end.

(** Batches appended one after the other, each by a writer of its own. *)
Fixpoint store_append_all (os_write : list Z -> list Z -> Z) (contents : list Z)
    (batches : list (list EventObject)) : option (bool * list Z) :=
  match batches with
  | [] => Some (true, contents)
  | b :: batches =>
      match store_append os_write true contents b with
      | Some (true, contents) => store_append_all os_write contents batches
      | x => x
      end
  end.

(** ** What a store holds *)

Definition object_ok (o : EventObject) : Prop := padding_ok o.1 /\ event_ok o.2.

(** [holds rs evs]: intact records [rs] hold the events [evs]. *)
Record holds (rs : list RawRecord) (evs : list BookEvent) : Prop := {
  ho_ok : Forall (raw_ok book_format) rs;
  ho_intact : forallb intact rs = true;
  ho_events : Forall2 (fun r e => event_of_bytes (r_payload r) = Some e /\ r_ts r = ingest_ts_ns e) rs evs;
}.

Definition as_records (events : list EventObject) : list (list Z * Z) :=
  map (fun ev => (object_bytes ev, ingest_ts_ns ev.2)) events.

Lemma number_holds events : Forall object_ok events -> forall seq, is_u 64 seq ->
  holds (number seq (as_records events)) (map snd events).
Proof.
  intros Hok seq Hs. destruct (number_ok book_format (as_records events) seq Hs) as [H1 H2].
  { apply Forall_map. eapply Forall_impl; [exact Hok|]. intros [p e] [Hp He]. cbn [fst snd].
    split; [by apply length_event_bytes|]. split; [by apply event_bytes_ok|apply He]. }
  split; [done|done|]. clear H1 H2. revert seq Hs. induction Hok as [|[p e] events [Hp He] _ IH]; intros seq Hs; [constructor|].
  cbn [as_records map number fst snd]. constructor; [|apply IH, u64_range].
  split; [|done]. by apply event_of_event_bytes.
Qed.

Lemma holds_app a b x y : holds a x -> holds b y -> holds (a ++ b) (x ++ y).
Proof.
  intros [] []. split; [by apply Forall_app|by rewrite forallb_app, ho_intact0, ho_intact1|by apply Forall2_app].
Qed.

Lemma holds_nil : holds [] [].
Proof. by split. Qed.

(** ** Replaying what a store holds *)

(** What the reader returned stands for the events [evs]. *)
Definition reads (xs : list (list Z * Z * Z)) (evs : list BookEvent) : Prop :=
  Forall2 (fun x e => event_of_bytes x.1.1 = Some e /\ x.1.2 = ingest_ts_ns e) xs evs.

Lemma holds_reads rs evs : holds rs evs -> reads (delivered rs) evs.
Proof.
  intros [_ Hi He]. rewrite delivered_intact by done. unfold reads. rewrite Forall2_fmap_l. done.
Qed.

Lemma set_ingest_id e : set_ingest_ts (ingest_ts_ns e) e = e.
Proof. by destruct e. Qed.

(** The callers' loops over [next], run on what [read_all] returns. *)
Lemma replay_loop_reads {S : Type} (on_event : BookEvent -> S -> S) fuel : forall r xs r' evs local s,
  read_all book_format fuel r = Some (xs, r') -> reads xs evs ->
  replay_loop on_event fuel r local s =
    Some (fold_left update_stats evs local, fold_left (fun s e => on_event e s) evs s, r').
Proof.
  induction fuel as [|fuel IH]; intros r xs r' evs local s H Hr; [done|].
  cbn [read_all replay_loop] in *. unfold journal_next.
  destruct (reader_next book_format r) as [[[[[payload ts] seq]|] r1]|]; [| |done].
  - destruct (read_all book_format fuel r1) as [[xs1 r2]|] eqn:E; [|done]. injection H as <- <-.
    apply Forall2_cons_inv_l in Hr as (e & evs' & [He Hts] & Hr & ->). cbn [fst snd] in *.
    rewrite He, Hts, set_ingest_id. by rewrite (IH _ _ _ _ _ _ E Hr).
  - injection H as <- <-. by apply Forall2_nil_inv_l in Hr as ->.
Qed.

Lemma semantic_loop_reads fuel : forall r xs r' evs out,
  read_all book_format fuel r = Some (xs, r') -> reads xs evs ->
  exists n, semantic_loop fuel r out =
    Some (mkSemantic n (crc_of_events (sem_crc out) evs) (sem_crc_failures out), r').
Proof.
  induction fuel as [|fuel IH]; intros r xs r' evs out H Hr; [done|].
  cbn [read_all semantic_loop] in *. unfold journal_next.
  destruct (reader_next book_format r) as [[[[[payload ts] seq]|] r1]|]; [| |done].
  - destruct (read_all book_format fuel r1) as [[xs1 r2]|] eqn:E; [|done]. injection H as <- <-.
    apply Forall2_cons_inv_l in Hr as (e & evs' & [He Hts] & Hr & ->). cbn [fst snd] in *. rewrite He.
    destruct (IH _ _ _ _ (mkSemantic (sem_records out +64 1) (update_crc_from_book_event (sem_crc out) e)
      (sem_crc_failures out)) E Hr) as [n Hn]. exists n. exact Hn.
  - injection H as <- <-. apply Forall2_nil_inv_l in Hr as ->. exists (sem_records out). by destruct out.
Qed.

Lemma semantic_loop_counts fuel : forall r xs r' evs out,
  read_all book_format fuel r = Some (xs, r') -> reads xs evs ->
  0 <= sem_records out -> sem_records out + Z.of_nat (length evs) < 2 ^ 64 ->
  semantic_loop fuel r out =
    Some (mkSemantic (sem_records out + Z.of_nat (length evs)) (crc_of_events (sem_crc out) evs) (sem_crc_failures out), r').
Proof.
  induction fuel as [|fuel IH]; intros r xs r' evs out H Hr H0 Hn; [done|].
  cbn [read_all semantic_loop] in *. unfold journal_next.
  destruct (reader_next book_format r) as [[[[[payload ts] seq]|] r1]|]; [| |done].
  - destruct (read_all book_format fuel r1) as [[xs1 r2]|] eqn:E; [|done]. injection H as <- <-.
    apply Forall2_cons_inv_l in Hr as (e & evs' & [He Hts] & Hr & ->). cbn [fst snd length] in *. rewrite He.
    rewrite (u64_small (sem_records out + 1)) by lia. rewrite (IH _ _ _ _ _ E Hr); cbn [sem_records sem_crc sem_crc_failures]; [|lia|lia].
    do 3 f_equal. lia.
  - injection H as <- <-. apply Forall2_nil_inv_l in Hr as ->. cbn [length crc_of_events fold_left]. rewrite Z.add_0_r. by destruct out.
Qed.

Lemma fold_update_stats evs : forall st,
  let st' := fold_left update_stats evs st in
  store_crc st' = crc_of_events (store_crc st) evs /\
  u64 (records st') = u64 (records st + Z.of_nat (length evs)).
Proof.
  induction evs as [|e evs IH]; intros st; [simpl; split; [done|f_equal; lia]|].
  cbn [fold_left length]. destruct (IH (update_stats st e)) as [H1 H2]. cbv zeta in *. split; [exact H1|].
  rewrite H2. cbn [update_stats records]. rewrite u64_add_l. f_equal. lia.
Qed.

(** Opening the file of a store and reading it to the end. *)
Lemma open_store rs evs : holds rs evs ->
  let f := header_bytes book_format ++ log_bytes book_format rs in
  exists r1 r2 xs, reader_open book_format (Some f) true reader_init = (true, r1) /\
    read_all book_format (S (length f)) r1 = Some (xs, r2) /\ reads xs evs /\
    crc_failures (rstats r2) = 0.
Proof.
  intros Hh f. pose proof Hh as [Hok Hi _].
  destruct (open_read_all book_format book_format_ok rs [] (S (length f)) reader_init Hok (torn_nil _))
    as (r1 & r2 & Ho & Hr & Hs & _).
  { subst f. rewrite length_app, length_log_bytes by done. unfold rec_bytes, kRecordHeader. lia. }
  exists r1, r2, (delivered rs). rewrite app_nil_r in Ho. split; [done|]. split; [done|].
  split; [by apply holds_reads|]. rewrite Hs. unfold stats_after. cbn [length Nat.ltb Nat.leb kRecordHeader].
  by rewrite intact_failures.
Qed.

(** The checksum and the count of a journal of intact records. *)
Lemma semantic_of_store rs evs out : holds rs evs -> Z.of_nat (length evs) < 2 ^ 64 ->
  compute_semantic_crc (Some (header_bytes book_format ++ log_bytes book_format rs)) out =
    Some (true, mkSemantic (Z.of_nat (length evs)) (crc_of_events 0 evs) 0).
Proof.
  intros Hh Hn. destruct (open_store rs evs Hh) as (r1 & r2 & xs & Ho & Hr & Hx & Hc). unfold compute_semantic_crc. rewrite Ho.
  cbn [default from_option]. unfold id. rewrite (semantic_loop_counts _ _ _ _ _ (mkSemantic 0 0 0) Hr Hx) by (cbn; lia).
  cbn [sem_records sem_crc sem_crc_failures]. by rewrite Hc.
Qed.

Section store.
Context (os_write : list Z -> list Z -> Z).
Hypothesis os_write_progress : forall f d, d <> [] -> 0 < os_write f d <= Z.of_nat (length d).
Hypothesis os_write_header : os_write [] (header_bytes book_format) = Z.of_nat kHeaderSize.

Lemma store_append_spec contents rs evs batch : holds rs evs ->
  contents = [] /\ rs = [] \/ contents = header_bytes book_format ++ log_bytes book_format rs ->
  Forall object_ok batch ->
  exists rs', store_append os_write true contents batch
    = Some (true, header_bytes book_format ++ log_bytes book_format (rs ++ rs')) /\
    holds (rs ++ rs') (evs ++ map snd batch).
Proof.
  intros Hh Hc Hb. unfold store_append.
  destruct (writer_open_spec os_write book_format os_write_header book_format_ok contents rs
    (writer_init (2 ^ 20)) eq_refl (ho_ok _ _ Hh) Hc) as (w & -> & Hfd & Hbuf & Hbb & Hfile & Hseq).
  fold (as_records batch).
  destruct (append_all_given os_write os_write_progress book_format (as_records batch) w Hfd)
    as (w' & -> & Hfd' & Hcon); [rewrite Hbb; by vm_compute|].
  exists (number (next_seq w) (as_records batch)). rewrite close_file by done.
  unfold all_given at 2 in Hcon. rewrite Hbuf, Hfile, app_nil_r in Hcon.
  rewrite Hcon, log_bytes_app, app_assoc. split; [done|].
  apply holds_app; [done|]. apply number_holds; [done|]. rewrite Hseq.
  case_decide; [unfold writer_init, is_u; simpl; lia|apply u64_range].
Qed.

Lemma store_append_all_spec batches : Forall (Forall object_ok) batches ->
  forall contents rs evs, holds rs evs ->
  contents = [] /\ rs = [] \/ contents = header_bytes book_format ++ log_bytes book_format rs ->
  exists rs', (contents <> [] \/ batches <> [] ->
     store_append_all os_write contents batches
     = Some (true, header_bytes book_format ++ log_bytes book_format rs')) /\
    holds rs' (evs ++ map snd (concat batches)).
Proof.
  induction 1 as [|b batches Hb Hbs IH]; intros contents rs evs Hh Hc.
  - exists rs. rewrite app_nil_r. split; [|done]. intros [H|H]; [|done].
    destruct Hc as [[-> _] | ->]; done.
  - destruct (store_append_spec contents rs evs b Hh Hc Hb) as (rs1 & H1 & Hh1).
    destruct (IH _ _ _ Hh1 (or_intror eq_refl)) as (rs2 & H2 & Hh2). exists rs2.
    cbn [concat]. rewrite map_app, app_assoc. split; [|done]. intros _. cbn [store_append_all]. rewrite H1.
    apply H2. left. intros E. by apply (f_equal length) in E.
Qed.
End store.

(** C19. Any batches of events, appended to a store one after the other by writers
    that come and go, are given back by [load_all] in order and unchanged,
    whatever their padding held; no checksum fails, and both the store's
    checksum and the journal's semantic checksum are that of the events. *)
Theorem event_store_round_trip os_write batches out :
  (forall f d, d <> [] -> 0 < os_write f d <= Z.of_nat (length d)) ->
  os_write [] (header_bytes book_format) = Z.of_nat kHeaderSize ->
  batches <> [] -> Forall (Forall object_ok) batches ->
  exists contents stats sem,
    store_append_all os_write [] batches = Some (true, contents) /\
    load_all (Some contents) = Some (map snd (concat batches), stats) /\
    store_crc stats = crc_of_events 0 (map snd (concat batches)) /\ store_crc_failures stats = 0 /\
    u64 (records stats) = u64 (Z.of_nat (length (concat batches))) /\
    compute_semantic_crc (Some contents) out = Some (true, sem) /\ sem_crc sem = store_crc stats.
Proof.
  intros Hw Hhdr Hne Hb.
  destruct (store_append_all_spec os_write Hw Hhdr batches Hb [] [] [] holds_nil (or_introl (conj eq_refl eq_refl)))
    as (rs & Happ & Hh). specialize (Happ (or_intror Hne)). cbn [app] in Hh.
  set (evs := map snd (concat batches)) in *. set (f := header_bytes book_format ++ log_bytes book_format rs) in *.
  destruct (open_store rs evs Hh) as (r1 & r2 & xs & Ho & Hr & Hx & Hc). fold f in Ho, Hr.
  destruct (semantic_loop_reads _ _ _ _ evs (mkSemantic 0 0 0) Hr Hx) as (n & Hsem).
  pose proof (fold_update_stats evs store_stats_init) as Hst. cbv zeta in Hst. destruct Hst as [Hcrc Hrec].
  eexists f, _, _. split; [exact Happ|]. unfold load_all, store_replay, compute_semantic_crc. rewrite Ho.
  change (default [] (Some f)) with f. rewrite (replay_loop_reads _ _ _ _ _ evs _ _ Hr Hx), Hsem, Hc.
  rewrite fold_left_snoc.
  split; [done|]. cbn [store_crc store_crc_failures records sem_crc sem_records sem_crc_failures]. rewrite Hcrc, Hrec.
  split_and!; try done. subst evs. by rewrite length_map.
Qed.

(** ** Concrete runs *)

(** A disk that takes everything it is offered. *)
Definition write_whole (_ data : list Z) : Z := Z.of_nat (length data).

Definition sample (seq : Z) : EventObject :=
  (pad_zero, event_default |> set_sequence seq |> set_ingest_ts (100 + seq) |> set_mpid (Some [65; 66; 67; 68])).

Lemma sample_ok seq : 0 <= seq < 1000 -> object_ok (sample seq).
Proof.
  intros H. split; [apply pad_zero_ok|]. split; simpl; try done; try (unfold is_u; lia).
  - split; [done|]. repeat constructor; unfold byte_ok, is_u; lia.
  - split; [done|]. repeat constructor; unfold byte_ok, is_u; lia.
Qed.

Lemma event_store_round_trip_witness : exists contents stats sem,
  store_append_all write_whole [] [[sample 1; sample 2]; [sample 3]] = Some (true, contents) /\
  load_all (Some contents) = Some (map snd [sample 1; sample 2; sample 3], stats) /\
  store_crc stats = crc_of_events 0 (map snd [sample 1; sample 2; sample 3]) /\
  store_crc_failures stats = 0 /\ u64 (records stats) = u64 3 /\
  compute_semantic_crc (Some contents) (mkSemantic 0 0 0) = Some (true, sem) /\ sem_crc sem = store_crc stats.
Proof.
  apply (event_store_round_trip write_whole [[sample 1; sample 2]; [sample 3]] (mkSemantic 0 0 0)).
  - intros f d Hd. unfold write_whole. destruct d; [done|]. simpl. lia.
  - reflexivity.
  - done.
  - constructor; [|constructor; [|constructor]]; repeat (constructor; [apply sample_ok; lia|]); constructor.
Defined.

Definition sample_raw (seq : Z) : RawRecord :=
  mkRaw seq 7 (crc32_update 0 (object_bytes (sample seq))) (object_bytes (sample seq)).

Lemma sample_raw_ok seq : 0 <= seq < 1000 -> raw_ok book_format (sample_raw seq) /\ intact (sample_raw seq) = true.
Proof.
  intros H. destruct (sample_ok seq H) as [Hp He]. split; [|apply Z.eqb_refl].
  split; cbn [sample_raw r_seq r_ts r_crc r_payload]; try (unfold is_u; lia).
  - apply crc32_update_u32; [unfold is_u; lia|by apply event_bytes_ok].
  - by apply length_event_bytes.
Qed.

(** The parts of the second record's payload around its price, and the record
    with its price overwritten. *)
Definition before_price : list Z := take 68 (object_bytes (sample 2)).
Definition at_price : list Z := take 4 (drop 68 (object_bytes (sample 2))).
Definition after_price : list Z := drop 72 (object_bytes (sample 2)).

Lemma sample_parts : before_price ++ at_price ++ after_price = object_bytes (sample 2).
Proof. vm_compute. reflexivity. Qed.

Lemma journal_corruption_contained_witness : exists r1 r2,
  reader_open book_format (Some (header_bytes book_format ++ log_bytes book_format
      ([sample_raw 1] ++ mkRaw 2 7 (crc32_update 0 (before_price ++ at_price ++ after_price))
                           (before_price ++ [1; 2; 3; 4] ++ after_price) :: [sample_raw 3]))) true reader_init
    = (true, r1) /\
  read_all book_format 4 r1 = Some (map (fun r => (r_payload r, r_ts r, r_seq r))
                                        ([sample_raw 1] ++ [sample_raw 3]), r2) /\
  crc_failures (rstats r2) = 1.
Proof.
  destruct (sample_ok 2 ltac:(lia)) as [Hp He].
  assert (Forall (raw_ok book_format) ([sample_raw 1] ++ [sample_raw 3])) as H1
    by (do 2 (constructor; [apply sample_raw_ok; lia|]); constructor).
  assert (forallb intact ([sample_raw 1] ++ [sample_raw 3]) = true) as H2 by (vm_compute; reflexivity).
  assert (bytes_ok (before_price ++ at_price ++ after_price)) as H3
    by (rewrite sample_parts; by apply event_bytes_ok).
  assert (bytes_ok [1; 2; 3; 4]) as H4 by (repeat constructor; unfold byte_ok, is_u; lia).
  assert (length (before_price ++ at_price ++ after_price) = f_payload book_format) as H5
    by (vm_compute; reflexivity).
  assert (length [1; 2; 3; 4] = length at_price) as H6 by (vm_compute; reflexivity).
  assert (length at_price <= 4)%nat as H7 by (vm_compute; lia).
  assert ([1; 2; 3; 4] <> at_price) as H8 by (vm_compute; discriminate).
  assert (length ([sample_raw 1] ++ [sample_raw 3]) + 1 < 4)%nat as H9 by (vm_compute; lia).
  exact (journal_corruption_contained book_format [sample_raw 1] [sample_raw 3] 2 7 before_price at_price
    [1; 2; 3; 4] after_price 4 reader_init book_format_ok H1 H2 ltac:(unfold is_u; lia) ltac:(unfold is_u; lia)
    H3 H4 H5 H6 H7 H8 H9).
Defined.

Lemma journal_torn_tail_witness : exists r1 r2,
  reader_open book_format (Some (header_bytes book_format ++ log_bytes book_format [sample_raw 1] ++
    take 50 (raw_bytes book_format (sample_raw 2)))) true reader_init = (true, r1) /\
  read_all book_format 2 r1 = Some (map (fun r => (r_payload r, r_ts r, r_seq r)) [sample_raw 1], r2) /\
  (error r2 = None <-> 50%nat = 0%nat).
Proof.
  apply (journal_torn_tail book_format [sample_raw 1] (sample_raw 2) 50 2 reader_init).
  - apply book_format_ok.
  - constructor; [apply sample_raw_ok; lia|constructor].
  - vm_compute. reflexivity.
  - apply sample_raw_ok. lia.
  - vm_compute. lia.
  - simpl. lia.
Defined.

(** Appending to a journal with a torn tail resumes right after the torn bytes:
    the reader takes the new record for the end of the torn one, and delivers
    nothing of what was appended. *)
Example append_after_torn_tail :
  let torn := header_bytes book_format ++ log_bytes book_format [sample_raw 1] ++
              take 50 (raw_bytes book_format (sample_raw 2)) in
  match store_append write_whole true torn [sample 3] with
  | Some (true, contents) =>
      match load_all (Some contents) with
      | Some (evs, stats) => evs = [(sample 1).2 |> set_ingest_ts 7] /\ store_crc_failures stats = 2
      | None => False
      end
  | _ => False
  end.
Proof. vm_compute. done. Qed.

(** A disk that fills up in the middle of a flush loses the rest of the
    buffer; once there is room again the journal goes on after the torn record
    and the reader cannot find the records that follow. *)
Definition write_full_once (f d : list Z) : Z :=
  if (length f =? 8)%nat then Z.min 60 (Z.of_nat (length d))
  else if (length f =? 68)%nat && (length d =? 52)%nat then -1 else Z.of_nat (length d).

Example short_write_loses_the_rest :
  match store_append write_full_once true [] [sample 1] with
  | Some (true, c1) =>
      match store_append write_full_once true c1 [sample 2; sample 3] with
      | Some (true, c2) => match load_all (Some c2) with Some (evs, _) => evs = [] | None => False end
      | _ => False
      end
  | _ => False
  end.
Proof. vm_compute. done. Qed.
