(* ===== verification/NbboJournal.v ===== *)
(** * The NBBO journal pipeline (src/phase3/nbbo_journal_pipeline.cpp, src/journal/nbbo_journal_*.cpp)

    Book events drive the order books; when a book's top changes the NBBO of
    its symbol is updated, and when that changes a record is appended to the
    NBBO journal. The quote kept for a symbol is always the best of the books'
    current tops, and reading the journal back gives exactly the records
    emitted, with the checksum the pipeline reports. *)

From S2P Require Import Prelude Crc Wire Types OrderBook Nbbo Journal.

#[local] Open Scope string_scope.
#[local] Open Scope list_scope.
#[local] Open Scope Z_scope.

(** ** [NbboEvent] (include/mf/journal/nbbo_event.hpp) *)

Record NbboEvent := mkNbboEvent {
  ne_symbol_u64 : Z; ne_exchange_ts_ns : Z; ne_ingest_ts_ns : Z;
  ne_quote : Nbbo;
}.

(** The two gaps in the 64-byte object. *)
Record NbboPadding := mkNbboPadding { np_1 : list Z; np_2 : list Z }.

Definition nbbo_padding_ok (p : NbboPadding) : Prop :=
  length (np_1 p) = 2%nat /\ length (np_2 p) = 2%nat /\ bytes_ok (np_1 p) /\ bytes_ok (np_2 p).

Definition NbboEventLayout : Layout :=
  [("symbol_u64", 8); ("exchange_ts_ns", 8); ("ingest_ts_ns", 8); ("has_bid", 1); ("has_ask", 1);
   ("pad_1", 2); ("bid_price", 4); ("bid_qty", 4); ("ask_price", 4); ("ask_qty", 4);
   ("bid_venue", 1); ("ask_venue", 1); ("pad_2", 2); ("bid_venue_sequence", 8);
   ("ask_venue_sequence", 8)]%nat.

Definition kNbboEventBytes : nat := 64.

Definition nbbo_event_bytes (p : NbboPadding) (e : NbboEvent) : list Z :=
  let q := ne_quote e in
  le_bytes 8 (ne_symbol_u64 e) ++ le_bytes 8 (ne_exchange_ts_ns e) ++ le_bytes 8 (ne_ingest_ts_ns e) ++
  [Z.b2z (n_has_bid q)] ++ [Z.b2z (n_has_ask q)] ++ np_1 p ++
  le_bytes 4 (n_bid_price q) ++ le_bytes 4 (n_bid_qty q) ++ le_bytes 4 (n_ask_price q) ++
  le_bytes 4 (n_ask_qty q) ++ [n_bid_venue q] ++ [n_ask_venue q] ++ np_2 p ++
  le_bytes 8 (n_bid_venue_sequence q) ++ le_bytes 8 (n_ask_venue_sequence q).

Definition bool_of_u8 (x : Z) : option bool :=
  if x =? 0 then Some false else if x =? 1 then Some true else None.

Definition nbbo_event_of_bytes (b : list Z) : option NbboEvent :=
  let member n := field NbboEventLayout n b in
  let num w n := read_le w (member n) in
  let byte n := first_byte (member n) in
  match bool_of_u8 (byte "has_bid"), bool_of_u8 (byte "has_ask") with
  | Some hb, Some ha =>
      Some (mkNbboEvent (num 8%nat "symbol_u64") (num 8%nat "exchange_ts_ns") (num 8%nat "ingest_ts_ns")
        (mkNbbo hb ha (num 4%nat "bid_price") (num 4%nat "bid_qty") (num 4%nat "ask_price")
           (num 4%nat "ask_qty") (byte "bid_venue") (byte "ask_venue")
           (num 8%nat "bid_venue_sequence") (num 8%nat "ask_venue_sequence")))
  | _, _ => None
  end.

(** ** The journal *)

Definition kNbboJournalMagic : list Z := [77; 70; 78; 66].
Definition kNbboJournalVersion : Z := 1.
Definition kNbboPayloadLenV1 : nat := kNbboEventBytes.
Definition nbbo_format : Format := mkFormat kNbboJournalMagic kNbboJournalVersion kNbboPayloadLenV1.

Lemma nbbo_format_ok : format_ok nbbo_format.
Proof. by split. Qed.

Section writer.
Context (os_write : list Z -> list Z -> Z).

(** [NbboJournalWriter::open]: the file is truncated, the header always
    written. *)
Definition nbbo_writer_open (can_open : bool) (w : JournalWriter) : bool * JournalWriter :=
  let w := writer_close os_write w in
  if negb can_open then (false, w) else
  let w := mkWriter true [] (buf w) (on_a w) (buffer_bytes w) (next_seq w) in
  let '(ok, w) := write_header os_write nbbo_format w in
  if ok then (true, w) else (false, writer_close os_write w).

Definition nbbo_append (w : JournalWriter) (p : NbboPadding) (ev : NbboEvent) : option JournalWriter :=
  writer_append os_write nbbo_format w (nbbo_event_bytes p ev) (ne_ingest_ts_ns ev).
End writer.

(** [NbboJournalReader]: the reader of the other journal without its error
    report, and with the running checksum of the payloads. *)
Record NbboJournalReader := mkNbboReader { nbbo_reader : JournalReader; payload_crc : Z }.

Definition nbbo_reader_open (contents : option (list Z)) (can_map : bool) (r : NbboJournalReader)
    : bool * NbboJournalReader :=
  let '(ok, b) := reader_open nbbo_format contents can_map (nbbo_reader r) in
  (ok, mkNbboReader b (if ok then 0 else payload_crc r)).

Definition nbbo_next (r : NbboJournalReader) : option (option NbboEvent * NbboJournalReader) :=
  match reader_next nbbo_format (nbbo_reader r) with
  | Some (Some (payload, _, _), b) =>
      match nbbo_event_of_bytes payload with
      | Some ev => Some (Some ev, mkNbboReader b (crc32_update (payload_crc r) payload))
      | None => None
      end
  | Some (None, b) => Some (None, mkNbboReader b (payload_crc r))
  | None => None
  end.

(** [while (reader.next(ev))] collecting what it returns. *)
Fixpoint nbbo_read_all (fuel : nat) (r : NbboJournalReader) : option (list NbboEvent * NbboJournalReader) :=
  match fuel with
  | O => None
  | S fuel =>
      match nbbo_next r with
      | Some (Some ev, r) =>
          match nbbo_read_all fuel r with
          | Some (l, r) => Some (ev :: l, r)
          | None => None
          end
      | Some (None, r) => Some ([], r)
      | None => None
      end
  end.

(** ** The pipeline *)

Definition to_nbbo_event (symbol_u64 : Z) (n : Nbbo) (exchange_ts_ns ingest_ts_ns : Z) : NbboEvent :=
  mkNbboEvent symbol_u64 exchange_ts_ns ingest_ts_ns n.

Record NbboJournalPipelineStats := mkNbboStats {
  book_events_in : Z; nbbo_emitted : Z; top_changes : Z; journal_crc : Z;
}.

Record NbboPipeline := mkNbboPipeline {
  np_books : OrderBookEngine; np_nbbo : NbboConsolidator; np_writer : JournalWriter;
  np_stats : NbboJournalPipelineStats;
}.

Section pipeline.
Context (os_write : list Z -> list Z -> Z).
(** What the padding of the local [record] holds when it is the [n]-th one. *)
Context (pad : nat -> NbboPadding).

(** The body of the loop over the events. *)
Definition nbbo_pipeline_step (st : NbboPipeline) (ev : BookEvent) : option NbboPipeline :=
  let s := np_stats st in
  let s := mkNbboStats (book_events_in s +64 1) (nbbo_emitted s) (top_changes s) (journal_crc s) in
  let '(books, apply) := book_on_event (np_books st) ev in
  if negb (changed_top apply) then Some (mkNbboPipeline books (np_nbbo st) (np_writer st) s) else
  let s := mkNbboStats (book_events_in s) (nbbo_emitted s) (top_changes s +64 1) (journal_crc s) in
  let sym := as_u64 (symbol ev) in
  let '(changed, nbbo) := nbbo_update (np_nbbo st) sym (venue ev) (top_after apply) (sequence ev) in
  if negb changed then Some (mkNbboPipeline books nbbo (np_writer st) s) else
  let after := current nbbo sym in
  let record := to_nbbo_event sym after (exchange_ts_ns ev) (ingest_ts_ns ev) in
  let p := pad (Z.to_nat (nbbo_emitted s)) in
  match nbbo_append os_write (np_writer st) p record with
  | None => None
  | Some w =>
      Some (mkNbboPipeline books nbbo w
              (mkNbboStats (book_events_in s) (nbbo_emitted s +64 1) (top_changes s)
                 (crc32_update (journal_crc s) (nbbo_event_bytes p record))))
  end.

Fixpoint nbbo_pipeline_run (st : NbboPipeline) (evs : list BookEvent) : option NbboPipeline :=
  match evs with
  | [] => Some st
  | ev :: evs => match nbbo_pipeline_step st ev with
                 | Some st => nbbo_pipeline_run st evs
                 | None => None
                 end
  end.

Definition nbbo_stats_init : NbboJournalPipelineStats := mkNbboStats 0 0 0 0.

(** [replay_to_journal]: success, the statistics, and what the file holds. *)
Definition replay_to_journal (slots : nat) (can_open : bool) (events : list BookEvent)
    : option (bool * NbboJournalPipelineStats * list Z) :=
  match nbbo_writer_open os_write can_open (writer_init (2 ^ 20)) with
  | (false, w) => Some (false, nbbo_stats_init, file w)
  | (true, w) =>
      match nbbo_pipeline_run (mkNbboPipeline (engine_init slots) consolidator_init w nbbo_stats_init) events with
      | Some st => Some (true, np_stats st, file (writer_close os_write (np_writer st)))
      | None => None
      end
  end.
End pipeline.

(** ** The quotes follow the books *)

Definition agrees (t : TopOfBook) (v : VenueTop) : Prop :=
  has_bid t = vt_has_bid v /\ has_ask t = vt_has_ask v /\
  bid_price t = vt_bid_price v /\ bid_qty t = vt_bid_qty v /\
  ask_price t = vt_ask_price v /\ ask_qty t = vt_ask_qty v.

(** The tops the consolidator keeps are those of the books. *)
Record tops_agree (e : OrderBookEngine) (c : NbboConsolidator) : Prop := {
  ta_engine : engine_ok e;
  ta_consolidator : consolidator_ok c;
  ta_tops v sym : agrees (top_of (book_at e v sym)) ((venues (state_at c sym)).[v]);
}.

Lemma tops_agree_init slots : tops_agree (engine_init slots) consolidator_init.
Proof.
  split; [apply engine_init_ok|apply consolidator_init_ok|]. intros v sym.
  assert (book_at (engine_init slots) v sym = book_empty) as -> by (by destruct v). by destruct v.
Qed.

Lemma top_changed_false a b : top_changed a b = false -> a = b.
Proof.
  unfold top_changed. rewrite !orb_false_iff, !negb_false_iff, !Z.eqb_eq, !eqb_true_iff.
  destruct a, b. cbn. intros H. destruct_and?. by subst.
Qed.

(** The quotes after one event: the event itself and the record it emits. *)
Definition quote_step (st : OrderBookEngine * NbboConsolidator) (ev : BookEvent)
    : option NbboEvent * (OrderBookEngine * NbboConsolidator) :=
  let '(books, apply) := book_on_event st.1 ev in
  if negb (changed_top apply) then (None, (books, st.2)) else
  let sym := as_u64 (symbol ev) in
  let '(changed, c) := nbbo_update st.2 sym (venue ev) (top_after apply) (sequence ev) in
  ((if changed then Some (mkNbboEvent sym (exchange_ts_ns ev) (ingest_ts_ns ev) (current c sym)) else None),
   (books, c)).

Fixpoint quote_run (st : OrderBookEngine * NbboConsolidator) (evs : list BookEvent)
    : list NbboEvent * (OrderBookEngine * NbboConsolidator) :=
  match evs with
  | [] => ([], st)
  | ev :: evs =>
      let '(o, st) := quote_step st ev in
      let '(l, st) := quote_run st evs in (option_list o ++ l, st)
  end.

Lemma quote_step_agree e c ev : tops_agree e c ->
  let '(o, (e', c')) := quote_step (e, c) ev in
  tops_agree e' c' /\ e' = (book_on_event e ev).1 /\
  match o with
  | None => forall sym, current c' sym = current c sym
  | Some r => ne_symbol_u64 r = as_u64 (symbol ev) /\ ne_quote r = current c' (as_u64 (symbol ev)) /\
              ne_quote r <> current c (as_u64 (symbol ev)) /\
              ne_exchange_ts_ns r = exchange_ts_ns ev /\ ne_ingest_ts_ns r = ingest_ts_ns ev
  end.
Proof.
  intros [He Hc Ht]. unfold quote_step. cbn [fst snd].
  assert (changed_top (book_on_event e ev).2 = top_changed (top_of (book_at e (venue ev) (as_u64 (symbol ev))))
    (top_after (book_on_event e ev).2)) as Hch.
  { pose proof (book_for_spec e (venue ev) (as_u64 (symbol ev)) He) as Hf. unfold book_on_event.
    destruct (book_for _ _ _) as [ptr e1]. destruct Hf as (-> & _ & _ & _ & Hat). rewrite Hat.
    by destruct (on_type _ _ _) as [[[? ?] ?] ?]. }
  pose proof (book_on_event_spec e ev He) as Hb. cbv zeta in Hb.
  destruct (on_type _ _ _) as [[[b' t'] sat] ahead]. destruct (book_on_event e ev) as [e' a].
  cbn [fst snd] in Hch |- *. destruct Hb as (He' & _ & _ & _ & Htop & Hbooks). rewrite Htop in Hch.
  destruct (changed_top a) eqn:Ea; cbn [negb].
  - pose proof (nbbo_update_spec c (mkTopUpdate (as_u64 (symbol ev)) (venue ev) (top_after a) (sequence ev)) Hc)
      as Hu. cbv zeta in Hu. cbn [tu_symbol tu_venue tu_top tu_sequence] in Hu. unfold consolidator_step in Hu.
    cbn [tu_symbol tu_venue tu_top tu_sequence] in Hu.
    assert (forall sym, sym <> as_u64 (symbol ev) -> current (nbbo_update c (as_u64 (symbol ev)) (venue ev)
      (top_after a) (sequence ev)).2 sym = current c sym) as Hother.
    { intros sym Hs. destruct Hu as (Hc' & _ & Hne). rewrite !current_compute by done. by rewrite Hne. }
    assert ((nbbo_update c (as_u64 (symbol ev)) (venue ev) (top_after a) (sequence ev)).1 =
      nbbo_changed (current c (as_u64 (symbol ev))) (current (nbbo_update c (as_u64 (symbol ev)) (venue ev)
      (top_after a) (sequence ev)).2 (as_u64 (symbol ev)))) as Hb1.
    { destruct Hu as (Hc' & _ & _). rewrite (current_compute _ _ Hc').
      pose proof (update_and_current_spec c (as_u64 (symbol ev)) (venue ev) (top_after a) (sequence ev) Hc) as Hs.
      cbv zeta in Hs. revert Hs. unfold nbbo_update. destruct (update_and_current _ _ _ _ _) as [n c'].
      cbn [fst snd]. intros (_ & _ & _ & ->). done. }
    destruct (nbbo_update _ _ _ _ _) as [changed c']. cbn [fst snd] in *. destruct Hu as (Hc' & Hv & Hne).
    split; [split; [done|done|]|split; [done|]].
    + intros v sym. rewrite Hbooks. destruct (decide (sym = as_u64 (symbol ev))) as [->|Hs].
      * rewrite Hv, pv_get_set_dec. destruct (decide (venue ev = v)) as [<-|Hd].
        -- rewrite decide_True, <-Htop by done. by split_and!.
        -- rewrite decide_False by (intros [? ?]; congruence). apply Ht.
      * rewrite decide_False, Hne by (tauto || done). apply Ht.
    + destruct changed; cbn [ne_symbol_u64 ne_quote ne_exchange_ts_ns ne_ingest_ts_ns].
      * split_and!; try done. symmetry in Hb1. apply nbbo_changed_iff in Hb1. congruence.
      * intros sym. destruct (decide (sym = as_u64 (symbol ev))) as [->|Hs]; [|auto].
        destruct (decide (current c (as_u64 (symbol ev)) = current c' (as_u64 (symbol ev)))); [done|].
        exfalso. assert (nbbo_changed (current c (as_u64 (symbol ev))) (current c' (as_u64 (symbol ev))) = true)
          as E by (by apply nbbo_changed_iff). congruence.
  - split; [split; [done|done|]|done]. intros v sym. rewrite Hbooks.
    destruct (decide (v = venue ev /\ sym = as_u64 (symbol ev))) as [[-> ->]|_]; [|apply Ht].
    symmetry in Hch. apply top_changed_false in Hch. rewrite <-Hch. apply Ht.
Qed.

Lemma quote_run_agree evs : forall e c, tops_agree e c ->
  let '(_, (e', c')) := quote_run (e, c) evs in tops_agree e' c' /\ e' = book_run e evs.
Proof.
  induction evs as [|ev evs IH]; intros e c H; [done|]. cbn [quote_run].
  pose proof (quote_step_agree e c ev H) as Hs. destruct (quote_step _ _) as [o [e1 c1]].
  destruct Hs as (H1 & -> & _). specialize (IH _ _ H1). destruct (quote_run _ _) as [l [e2 c2]].
  destruct IH as [H2 ->]. done.
Qed.

(** The best of the books' tops, for one symbol. *)
Definition best_of_books (e : OrderBookEngine) (sym : Z) (n : Nbbo) : Prop :=
  (if n_has_bid n then exists v, let t := top_of_book e v sym in
     has_bid t = true /\ n_bid_venue n = venue_u8 v /\ n_bid_price n = bid_price t /\ n_bid_qty n = bid_qty t /\
     forall w, has_bid (top_of_book e w sym) = true ->
       bid_price (top_of_book e w sym) < n_bid_price n \/
       bid_price (top_of_book e w sym) = n_bid_price n /\ venue_u8 v <= venue_u8 w
   else forall w, has_bid (top_of_book e w sym) = false) /\
  (if n_has_ask n then exists v, let t := top_of_book e v sym in
     has_ask t = true /\ n_ask_venue n = venue_u8 v /\ n_ask_price n = ask_price t /\ n_ask_qty n = ask_qty t /\
     forall w, has_ask (top_of_book e w sym) = true ->
       n_ask_price n < ask_price (top_of_book e w sym) \/
       ask_price (top_of_book e w sym) = n_ask_price n /\ venue_u8 v <= venue_u8 w
   else forall w, has_ask (top_of_book e w sym) = false).

Lemma top_of_book_at e v sym : top_of_book e v sym = top_of (book_at e v sym).
Proof. unfold top_of_book, find_book, book_at. by destruct (_ !! sym). Qed.

Lemma agree_best e c sym : tops_agree e c -> best_of_books e sym (current c sym).
Proof.
  intros [He Hc Ht]. rewrite current_compute by done. set (s := state_at c sym) in *.
  assert (forall v, agrees (top_of_book e v sym) ((venues s).[v])) as Hag
    by (intros v; rewrite top_of_book_at; apply Ht).
  assert (forall v, venue_u8 v < 5) as H5 by (intros v; pose proof (venue_u8_range v); lia).
  destruct (compute_best s) as [Hb Ha]. set (n := compute s) in *. clearbody n.
  unfold bid_best, ask_best in *. split.
  - destruct (n_has_bid n).
    + destruct Hb as (v & _ & Hv & -> & Hp & Hq & _ & Hbest). destruct (Hag v) as (E1 & _ & E2 & E3 & _).
      exists v. cbv zeta. split_and!; try congruence. intros w Hw. destruct (Hag w) as (F1 & _ & F2 & _).
      rewrite F2. apply Hbest; congruence || done.
    + destruct Hb as [Hno _]. intros w. destruct (Hag w) as (-> & _). by apply Hno.
  - destruct (n_has_ask n).
    + destruct Ha as (v & _ & Hv & -> & Hp & Hq & _ & Hbest). destruct (Hag v) as (_ & E1 & _ & _ & E2 & E3).
      exists v. cbv zeta. split_and!; try congruence. intros w Hw. destruct (Hag w) as (_ & F1 & _ & _ & F2 & _).
      rewrite F2. apply Hbest; congruence || done.
    + destruct Ha as [Hno _]. intros w. destruct (Hag w) as (_ & -> & _). by apply Hno.
Qed.

(** ** What the pipeline writes *)

(** Every number of a record fits its member. *)
Definition quote_ok (n : Nbbo) : Prop :=
  is_u 32 (n_bid_price n) /\ is_u 32 (n_bid_qty n) /\ is_u 32 (n_ask_price n) /\ is_u 32 (n_ask_qty n) /\
  is_u 8 (n_bid_venue n) /\ is_u 8 (n_ask_venue n) /\
  is_u 64 (n_bid_venue_sequence n) /\ is_u 64 (n_ask_venue_sequence n).

Record nbbo_event_ok (e : NbboEvent) : Prop := {
  neo_symbol : is_u 64 (ne_symbol_u64 e);
  neo_exchange : is_u 64 (ne_exchange_ts_ns e);
  neo_ingest : is_u 64 (ne_ingest_ts_ns e);
  neo_quote : quote_ok (ne_quote e);
}.

Lemma bool_of_b2z b : bool_of_u8 (Z.b2z b) = Some b.
Proof. by destruct b. Qed.

Section nbbo_bytes.
Context (p : NbboPadding) (e : NbboEvent).
Hypothesis (Hp : nbbo_padding_ok p) (He : nbbo_event_ok e).

Lemma length_nbbo_event_bytes : length (nbbo_event_bytes p e) = kNbboEventBytes.
Proof.
  destruct Hp as (H1 & H2 & _). unfold nbbo_event_bytes. cbv zeta.
  by rewrite !length_app, !length_le_bytes, H1, H2.
Qed.

Lemma nbbo_event_bytes_ok : bytes_ok (nbbo_event_bytes p e).
Proof.
  destruct Hp as (_ & _ & H1 & H2), He as [_ _ _ (_ & _ & _ & _ & H3 & H4 & _)].
  assert (forall b, byte_ok (Z.b2z b)) as Hb by (intros []; unfold byte_ok, is_u; simpl; lia).
  unfold nbbo_event_bytes. cbv zeta. rewrite !Forall_app, !Forall_singleton. auto 20 using le_bytes_ok.
Qed.

Lemma nbbo_event_of_event_bytes : nbbo_event_of_bytes (nbbo_event_bytes p e) = Some e.
Proof.
  destruct Hp as (H1 & H2 & _), He as [Hs Hx Hi (Hq1 & Hq2 & Hq3 & Hq4 & Hq5 & Hq6 & Hq7 & Hq8)].
  unfold nbbo_event_of_bytes, nbbo_event_bytes. cbv zeta. unfold NbboEventLayout. read_fields.
  cbn [first_byte hd]. rewrite !bool_of_b2z.
  assert (forall l, field [("ask_venue_sequence", 8%nat)] "ask_venue_sequence" l = take 8 l) as Hf by done.
  rewrite Hf, take_ge by (rewrite length_le_bytes; lia).
  rewrite !read_le_u64_le, !read_le_u32_le by done. by destruct e as [? ? ? []].
Qed.
End nbbo_bytes.

(** *** Records fit their members *)

Definition levels_priced (l : list (Z * Z)) : Prop := Forall (fun x => is_u 32 x.1) l.

Definition book_priced (b : VenueBook) : Prop := levels_priced (bids b) /\ levels_priced (asks b).

Lemma add_qty_priced l p q d : is_u 32 p -> levels_priced l -> levels_priced (Levels.add_qty l p q d).
Proof.
  intros Hp Hl. unfold Levels.add_qty, levels_priced in *. cbv zeta.
  assert (Forall (fun x => is_u 32 x.1) (take (lower_bound (Levels.level_before d p) l) l ++
    (p, q) :: drop (lower_bound (Levels.level_before d p) l) l)) as Hmid.
  { apply Forall_app. split; [by apply Forall_take|]. constructor; [done|by apply Forall_drop]. }
  destruct (l !! _) as [[p' q']|] eqn:E; [|done]. case_match; [|done].
  apply Forall_insert; [done|]. rewrite Forall_lookup in Hl. exact (Hl _ _ E).
Qed.

Lemma reduce_qty_priced l p q d : levels_priced l -> levels_priced (Levels.reduce_qty l p q d).
Proof.
  intros Hl. unfold Levels.reduce_qty, levels_priced in *. cbv zeta.
  destruct (l !! _) as [[p' q']|] eqn:E; [|done]. case_match; [|done]. case_match.
  - apply Forall_insert; [done|]. rewrite Forall_lookup in Hl. exact (Hl _ _ E).
  - by apply Forall_delete.
Qed.

Lemma add_side_priced b s p q : is_u 32 p -> book_priced b -> book_priced (add_side b s p q).
Proof. intros Hp []. destruct s; [split; [by apply add_qty_priced|done]|split; [done|by apply add_qty_priced]|done]. Qed.

Lemma reduce_side_priced b s p q : book_priced b -> book_priced (reduce_side b s p q).
Proof. intros []. destruct s; [split; [by apply reduce_qty_priced|done]|split; [done|by apply reduce_qty_priced]|done]. Qed.

Lemma on_type_priced b t ev : is_u 32 (price ev) -> book_priced b ->
  let '(b', _, _, _) := on_type b t ev in book_priced b'.
Proof.
  intros Hp Hb. unfold on_type, on_add, on_reduce, on_replace.
  destruct (type ev); try done; repeat case_match; simplify_eq;
    auto using add_side_priced, reduce_side_priced.
Qed.

Lemma top_of_ok b : book_priced b ->
  is_u 32 (bid_price (top_of b)) /\ is_u 32 (bid_qty (top_of b)) /\
  is_u 32 (ask_price (top_of b)) /\ is_u 32 (ask_qty (top_of b)).
Proof.
  intros [Hb Ha]. unfold top_of. destruct (bids b) as [|[p q] l], (asks b) as [|[p' q'] l'];
    cbn [bid_price bid_qty ask_price ask_qty]; unfold levels_priced in *;
    rewrite ?Forall_cons in *; destruct_and?; split_and!; auto with mf; try (unfold is_u; lia); by apply u32_is_u.
Qed.

(** The values behind the quotes are in range. *)
Record quotes_ok (e : OrderBookEngine) (c : NbboConsolidator) : Prop := {
  qo_agree : tops_agree e c;
  qo_priced v sym : book_priced (book_at e v sym);
  qo_seq v sym : is_u 64 (vt_bid_sequence ((venues (state_at c sym)).[v])) /\
                 is_u 64 (vt_ask_sequence ((venues (state_at c sym)).[v]));
}.

Lemma quotes_ok_init slots : quotes_ok (engine_init slots) consolidator_init.
Proof.
  split; [apply tops_agree_init|intros [] sym; split; constructor|].
  intros v sym. change (is_u 64 (vt_bid_sequence ((pv_const venue_top_default).[v])) /\
    is_u 64 (vt_ask_sequence ((pv_const venue_top_default).[v]))).
  rewrite pv_get_const. split; unfold is_u; simpl; lia.
Qed.

Lemma quotes_ok_current e c sym : quotes_ok e c -> quote_ok (current c sym).
Proof.
  intros [[He Hc Ht] Hp Hs]. rewrite current_compute by done. set (s := state_at c sym) in *.
  assert (forall v, is_u 32 (vt_bid_price ((venues s).[v])) /\ is_u 32 (vt_bid_qty ((venues s).[v])) /\
    is_u 32 (vt_ask_price ((venues s).[v])) /\ is_u 32 (vt_ask_qty ((venues s).[v]))) as Hv.
  { intros v. subst s. destruct (Ht v sym) as (_ & _ & <- & <- & <- & <-). apply top_of_ok, Hp. }
  assert (forall v, is_u 8 (venue_u8 v)) as H8 by (intros []; unfold is_u; simpl; lia).
  destruct (compute_best s) as [Hb Ha]. set (n := compute s) in *. clearbody n.
  unfold bid_best, ask_best, quote_ok in *.
  assert (is_u 32 0 /\ is_u 8 0 /\ is_u 64 0) as (Z32 & Z8 & Z64) by (unfold is_u; lia).
  assert (is_u 32 (n_bid_price n) /\ is_u 32 (n_bid_qty n) /\ is_u 8 (n_bid_venue n) /\
    is_u 64 (n_bid_venue_sequence n)) as (? & ? & ? & ?).
  { destruct (n_has_bid n); [|by destruct Hb as (_ & -> & -> & -> & ->)].
    destruct Hb as (v & _ & _ & -> & -> & -> & -> & _). destruct (Hv v) as (? & ? & _). split_and!; auto; apply Hs. }
  assert (is_u 32 (n_ask_price n) /\ is_u 32 (n_ask_qty n) /\ is_u 8 (n_ask_venue n) /\
    is_u 64 (n_ask_venue_sequence n)) as (? & ? & ? & ?).
  { destruct (n_has_ask n); [|by destruct Ha as (_ & -> & -> & -> & ->)].
    destruct Ha as (v & _ & _ & -> & -> & -> & -> & _). destruct (Hv v) as (_ & _ & ? & ?). split_and!; auto; apply Hs. }
  by split_and!.
Qed.

Lemma quote_step_ok e c ev : event_ok ev -> quotes_ok e c ->
  let '(o, (e', c')) := quote_step (e, c) ev in
  quotes_ok e' c' /\ Forall nbbo_event_ok (option_list o).
Proof.
  intros Hev [Ha Hp Hs]. pose proof (quote_step_agree e c ev Ha) as Hstep.
  pose proof (book_on_event_spec e ev (ta_engine _ _ Ha)) as Hb. cbv zeta in Hb.
  pose proof (on_type_priced (book_at e (venue ev) (as_u64 (symbol ev))) (table e) ev (eo_price ev Hev) (Hp _ _)) as Hpr.
  destruct (on_type _ _ _) as [[[b' t'] sat] ahead].
  assert (forall v sym, let '(_, (_, c')) := quote_step (e, c) ev in
    is_u 64 (vt_bid_sequence ((venues (state_at c' sym)).[v])) /\
    is_u 64 (vt_ask_sequence ((venues (state_at c' sym)).[v]))) as Hseq.
  { intros v sym. unfold quote_step. cbn [fst snd]. destruct (book_on_event e ev) as [e1 a].
    destruct (changed_top a); cbn [negb]; [|apply Hs].
    pose proof (nbbo_update_spec c (mkTopUpdate (as_u64 (symbol ev)) (venue ev) (top_after a) (sequence ev))
      (ta_consolidator _ _ Ha)) as Hu. unfold consolidator_step in Hu.
    cbv zeta in Hu. cbn [tu_symbol tu_venue tu_top tu_sequence] in Hu.
    destruct (nbbo_update _ _ _ _ _) as [ch c']. cbn [snd] in Hu. destruct Hu as (_ & Hv & Hne).
    destruct (decide (sym = as_u64 (symbol ev))) as [->|Hd]; [|rewrite Hne by done; apply Hs].
    rewrite Hv, pv_get_set_dec. case_decide; [|apply Hs]. unfold set_venue_top. cbn [vt_bid_sequence vt_ask_sequence].
    pose proof (eo_seq ev Hev) as Hq. split; [destruct (has_bid _)|destruct (has_ask _)]; exact Hq || apply Hs. }
  destruct (quote_step (e, c) ev) as [o [e' c']]. destruct Hstep as (Ha' & -> & Ho).
  assert (quotes_ok (book_on_event e ev).1 c') as Hok.
  { split; [done| |apply Hseq]. intros v sym. destruct (book_on_event e ev) as [e1 a]. cbn [fst].
    destruct Hb as (_ & _ & _ & _ & _ & Hbk). rewrite Hbk. case_decide; [done|apply Hp]. }
  split; [done|]. destruct o as [r|]; [|constructor]. cbn [option_list]. constructor; [|constructor].
  destruct Ho as (H1 & H2 & _ & H3 & H4). split; rewrite ?H1, ?H2, ?H3, ?H4.
  - apply as_u64_range, Hev.
  - apply Hev.
  - apply Hev.
  - by apply (quotes_ok_current (book_on_event e ev).1).
Qed.

Lemma quote_run_ok evs : Forall event_ok evs -> forall e c, quotes_ok e c ->
  Forall nbbo_event_ok (quote_run (e, c) evs).1.
Proof.
  induction 1 as [|ev evs Hev _ IH]; intros e c H; [constructor|]. cbn [quote_run].
  pose proof (quote_step_ok e c ev Hev H) as Hs. destruct (quote_step _ _) as [o [e1 c1]].
  destruct Hs as [H1 Hf]. specialize (IH _ _ H1). destruct (quote_run _ _) as [l [e2 c2]].
  cbn [fst] in *. by apply Forall_app.
Qed.

(** *** The journal holds the emissions *)

(** The payloads of records [n], [n + 1], ... and the timestamps stored with
    them. *)
Fixpoint emitted_records (pad : nat -> NbboPadding) (n : nat) (es : list NbboEvent) : list (list Z * Z) :=
  match es with
  | [] => []
  | e :: es => (nbbo_event_bytes (pad n) e, ne_ingest_ts_ns e) :: emitted_records pad (S n) es
  end.

Lemma append_all_app os_write F a b : forall w, writer_append_all os_write F w (a ++ b) =
  match writer_append_all os_write F w a with Some w => writer_append_all os_write F w b | None => None end.
Proof.
  induction a as [|[p ts] a IH]; intros w; [done|]. cbn [app writer_append_all].
  by destruct (writer_append _ _ _ _ _).
Qed.

(** The whole run: the books and quotes move as [quote_run] says, and the
    writer is given the records of its emissions. *)
Lemma pipeline_run_spec os_write pad evs : forall e c w s,
  0 <= nbbo_emitted s -> nbbo_emitted s + Z.of_nat (length evs) < 2 ^ 64 ->
  let '(out, (e', c')) := quote_run (e, c) evs in
  let recs := emitted_records pad (Z.to_nat (nbbo_emitted s)) out in
  match writer_append_all os_write nbbo_format w recs with
  | None => True
  | Some w' => exists s',
      nbbo_pipeline_run os_write pad (mkNbboPipeline e c w s) evs = Some (mkNbboPipeline e' c' w' s') /\
      nbbo_emitted s' = nbbo_emitted s + Z.of_nat (length out) /\
      journal_crc s' = fold_left (fun crc r => crc32_update crc r.1) recs (journal_crc s)
  end /\ (length out <= length evs)%nat.
Proof.
  induction evs as [|ev evs IH]; intros e c w s H0 Hlt.
  { cbn. split; [|lia]. exists s. split_and!; [done|lia|done]. }
  cbn [quote_run length nbbo_pipeline_run] in *. unfold nbbo_pipeline_step, quote_step. cbn [np_books np_nbbo np_stats np_writer fst snd].
  destruct (book_on_event e ev) as [e1 a]. destruct (changed_top a); cbn [negb].
  2: { set (s1 := mkNbboStats (book_events_in s +64 1) (nbbo_emitted s) (top_changes s) (journal_crc s)).
    specialize (IH e1 c w s1 H0 ltac:(subst s1; cbn [nbbo_emitted]; lia)). destruct (quote_run (e1, c) evs) as [out [e' c']].
    change (option_list None ++ out) with out. destruct IH as [IH Hl]. split; [exact IH|lia]. }
  destruct (nbbo_update _ _ _ _ _) as [changed c1]. destruct changed; cbn [negb].
  2: { set (s1 := mkNbboStats (book_events_in s +64 1) (nbbo_emitted s) (top_changes s +64 1) (journal_crc s)).
    specialize (IH e1 c1 w s1 H0 ltac:(subst s1; cbn [nbbo_emitted]; lia)). destruct (quote_run (e1, c1) evs) as [out [e' c']].
    change (option_list None ++ out) with out. destruct IH as [IH Hl]. split; [exact IH|lia]. }
  set (r := mkNbboEvent _ _ _ _).
  set (n := Z.to_nat (nbbo_emitted s)).
  assert (nbbo_emitted s +64 1 = nbbo_emitted s + 1) as Hn by (apply u64_small; lia).
  cbn [nbbo_emitted book_events_in top_changes journal_crc]. rewrite Hn.
  set (crc := crc32_update (journal_crc s) (nbbo_event_bytes (pad n) r)).
  unfold to_nbbo_event. fold r. unfold nbbo_append. fold n. fold crc.
  destruct (writer_append os_write nbbo_format w (nbbo_event_bytes (pad n) r) (ne_ingest_ts_ns r)) as [w1|] eqn:Ew.
  - set (s1 := mkNbboStats (book_events_in s +64 1) (nbbo_emitted s + 1) (top_changes s +64 1) crc).
    specialize (IH e1 c1 w1 s1 ltac:(subst s1; cbn [nbbo_emitted]; lia) ltac:(subst s1; cbn [nbbo_emitted]; lia)). destruct (quote_run (e1, c1) evs) as [out [e' c']].
    change (option_list (Some r) ++ out) with (r :: out). cbn [emitted_records writer_append_all length fold_left fst]. fold n. rewrite ?Ew.
    change (nbbo_emitted s1) with (nbbo_emitted s + 1) in IH.
    replace (Z.to_nat (nbbo_emitted s + 1)) with (S n) in IH by lia. destruct IH as [IH Hl]. split; [|lia].
    destruct (writer_append_all _ _ _ _); [|done]. destruct IH as (s' & Hrun & He & Hc). exists s'.
    split_and!; [done|lia|done].
  - destruct (quote_run (e1, c1) evs) as [out [e' c']] eqn:Eq.
    change (option_list (Some r) ++ out) with (r :: out). cbn [emitted_records writer_append_all length]. fold n. rewrite ?Ew. split; [done|].
    specialize (IH e1 c1 w (mkNbboStats 0 0 0 0) ltac:(cbn [nbbo_emitted]; lia) ltac:(cbn [nbbo_emitted]; lia)). rewrite Eq in IH. lia.
Qed.

Definition nbbo_reads (xs : list (list Z * Z * Z)) (evs : list NbboEvent) : Prop :=
  Forall2 (fun x e => nbbo_event_of_bytes x.1.1 = Some e) xs evs.

Lemma nbbo_read_all_reads fuel : forall b crc xs b' evs,
  read_all nbbo_format fuel b = Some (xs, b') -> nbbo_reads xs evs ->
  nbbo_read_all fuel (mkNbboReader b crc)
  = Some (evs, mkNbboReader b' (fold_left (fun crc x => crc32_update crc x) (map (fun x => x.1.1) xs) crc)).
Proof.
  induction fuel as [|fuel IH]; intros b crc xs b' evs H Hr; [done|].
  cbn [read_all nbbo_read_all] in *. unfold nbbo_next. cbn [nbbo_reader payload_crc].
  destruct (reader_next nbbo_format b) as [[[[[payload ts] seq]|] b1]|]; [| |done].
  - destruct (read_all nbbo_format fuel b1) as [[xs1 b2]|] eqn:E; [|done]. injection H as <- <-.
    apply Forall2_cons_inv_l in Hr as (e & evs' & He & Hr & ->). cbn [fst snd] in He. rewrite He.
    by rewrite (IH _ _ _ _ _ E Hr).
  - injection H as <- <-. by apply Forall2_nil_inv_l in Hr as ->.
Qed.

Lemma number_payloads recs : forall seq, map r_payload (number seq recs) = map fst recs.
Proof. induction recs as [|[p ts] recs IH]; intros seq; [done|]. cbn. by rewrite IH. Qed.

Lemma emitted_records_reads pad es : (forall n, nbbo_padding_ok (pad n)) -> Forall nbbo_event_ok es ->
  forall n, Forall (fun p => length p.1 = f_payload nbbo_format /\ bytes_ok p.1 /\ is_u 64 p.2) (emitted_records pad n es) /\
            Forall2 (fun p e => nbbo_event_of_bytes p = Some e) (map fst (emitted_records pad n es)) es.
Proof.
  intros Hp. induction 1 as [|e es He _ IH]; intros n; [by split|]. destruct (IH (S n)) as [H1 H2].
  cbn [emitted_records map fst]. split; constructor; auto.
  - cbn [fst snd]. split; [by apply length_nbbo_event_bytes|]. split; [by apply nbbo_event_bytes_ok|apply He].
  - by apply nbbo_event_of_event_bytes.
Qed.

Lemma emitted_records_crc pad es : forall n crc,
  fold_left (fun crc r => crc32_update crc r.1) (emitted_records pad n es) crc
  = fold_left (fun crc x => crc32_update crc x) (map fst (emitted_records pad n es)) crc.
Proof. induction es as [|e es IH]; intros n crc; [done|]. cbn. apply IH. Qed.

(** What the pipeline emits: the quotes after each event that changed one. *)
Definition emissions (slots : nat) (events : list BookEvent) : list NbboEvent :=
  (quote_run (engine_init slots, consolidator_init) events).1.

(** C11. After any events whatever, the quote kept for every symbol is the best of
    the order books' current tops, ties going to the first venue, and absent
    exactly when no book quotes that side: skipping the events that leave a top
    alone loses nothing. *)
Theorem nbbo_tracks_books slots events sym :
  let st := (quote_run (engine_init slots, consolidator_init) events).2 in
  st.1 = book_run (engine_init slots) events /\
  best_of_books (book_run (engine_init slots) events) sym (current st.2 sym).
Proof.
  cbv zeta. pose proof (quote_run_agree events _ _ (tops_agree_init slots)) as H.
  destruct (quote_run _ _) as [out [e c]]. destruct H as [Ha ->]. cbn [fst snd]. split; [done|].
  by apply agree_best.
Qed.

(** Replaying events to a journal succeeds, and reading the journal back gives
    exactly the quotes that changed, in order; the checksum the reader computes
    over the payloads is the one the pipeline reports, padding included. *)
Theorem nbbo_journal_round_trip os_write pad slots events r0 :
  (forall f d, d <> [] -> 0 < os_write f d <= Z.of_nat (length d)) ->
  os_write [] (header_bytes nbbo_format) = Z.of_nat kHeaderSize ->
  (forall n, nbbo_padding_ok (pad n)) -> Forall event_ok events -> Z.of_nat (length events) < 2 ^ 64 ->
  exists stats f r1 r2,
    replay_to_journal os_write pad slots true events = Some (true, stats, f) /\
    nbbo_emitted stats = Z.of_nat (length (emissions slots events)) /\
    nbbo_reader_open (Some f) true r0 = (true, r1) /\
    nbbo_read_all (S (length f)) r1 = Some (emissions slots events, r2) /\
    payload_crc r2 = journal_crc stats /\ crc_failures (rstats (nbbo_reader r2)) = 0.
Proof.
  intros Hw Hhdr Hpad Hev Hlen. unfold emissions.
  pose proof (quote_run_ok events Hev _ _ (quotes_ok_init slots)) as Hok.
  set (w0 := mkWriter true (header_bytes nbbo_format) [] true (2 ^ 20) 1).
  pose proof (pipeline_run_spec os_write pad events (engine_init slots) consolidator_init w0 nbbo_stats_init
    ltac:(cbn; lia) ltac:(cbn [nbbo_stats_init nbbo_emitted]; lia)) as Hrun.
  unfold replay_to_journal, nbbo_writer_open.
  change (writer_close os_write (writer_init (2 ^ 20))) with (mkWriter false [] [] true (2 ^ 20) 1).
  cbn [negb fd file buf on_a buffer_bytes next_seq]. cbv zeta.
  unfold write_header. cbn [file]. rewrite Hhdr, Z.eqb_refl.
  change ([] ++ take _ (header_bytes nbbo_format)) with (header_bytes nbbo_format).
  cbn [fd buf on_a buffer_bytes next_seq]. fold w0.
  destruct (quote_run _ _) as [out [e c]]. cbn [fst] in *. destruct Hrun as [Hrun _].
  destruct (emitted_records_reads pad out Hpad Hok 0) as [Hrecs Hreads].
  set (recs := emitted_records pad 0 out) in *.
  destruct (append_all_given os_write Hw nbbo_format recs w0) as (w' & Happ & Hfd & Hall); [done|by vm_compute|].
  change (Z.to_nat (nbbo_emitted nbbo_stats_init)) with 0%nat in Hrun. fold recs in Hrun.
  rewrite Happ in Hrun. destruct Hrun as (s' & -> & Hn & Hcrc). cbn [np_stats np_writer].
  rewrite close_file by done. rewrite Hall. change (next_seq w0) with 1.
  change (all_given w0) with (header_bytes nbbo_format ++ []). rewrite app_nil_r.
  destruct (number_ok nbbo_format recs 1) as [Hraw Hint]; [unfold is_u; lia|done|].
  set (rs := number 1 recs) in *. set (f := header_bytes nbbo_format ++ log_bytes nbbo_format rs).
  destruct (open_read_all nbbo_format nbbo_format_ok rs [] (S (length f)) (nbbo_reader r0) Hraw (torn_nil _))
    as (b1 & b2 & Ho & Hr & Hs & _).
  { subst f. rewrite length_app, length_log_bytes by done. unfold rec_bytes, kRecordHeader. lia. }
  rewrite app_nil_r in Ho. fold f in Ho. rewrite delivered_intact in Hr by done.
  assert (map (fun x : list Z * Z * Z => x.1.1) (map (fun r => (r_payload r, r_ts r, r_seq r)) rs) = map fst recs)
    as Hpay by (rewrite map_map; apply number_payloads).
  exists s', f, (mkNbboReader b1 0). eexists. split; [done|].
  split; [change (nbbo_emitted nbbo_stats_init) with 0 in Hn; lia|].
  split; [unfold nbbo_reader_open; by rewrite Ho|].
  split; [eapply nbbo_read_all_reads; [exact Hr|]|].
  - rewrite <-Hpay in Hreads. unfold nbbo_reads. by rewrite Forall2_fmap_l in Hreads.
  - cbn [payload_crc nbbo_reader]. rewrite Hpay, Hcrc, Hs. split; [symmetry; apply emitted_records_crc|].
    unfold stats_after. cbn [length Nat.ltb Nat.leb kRecordHeader]. by rewrite intact_failures.
Qed.

(** ** A concrete run *)

Definition quote_add (v : Venue) (seq p q : Z) : BookEvent :=
  event_default |> set_venue v |> set_type Add |> set_sequence seq |> set_side Buy
    |> set_order_id seq |> set_price p |> set_qty q.

Definition quote_events : list BookEvent :=
  [quote_add Nasdaq 1 100 5; quote_add Iex 2 99 7; quote_add Cboe 3 101 2].

Lemma quote_add_ok v seq p q : is_u 64 seq -> is_u 32 p -> is_u 32 q -> event_ok (quote_add v seq p q).
Proof.
  intros Hs Hp Hq. destruct event_default_ok. by split.
Qed.

Definition zero_gaps (_ : nat) : NbboPadding := mkNbboPadding [0; 0] [0; 0].

Lemma nbbo_journal_round_trip_witness : exists stats f r1 r2,
  replay_to_journal (fun _ d => Z.of_nat (length d)) zero_gaps 16 true quote_events = Some (true, stats, f) /\
  nbbo_emitted stats = Z.of_nat (length (emissions 16 quote_events)) /\
  nbbo_reader_open (Some f) true (mkNbboReader reader_init 0) = (true, r1) /\
  nbbo_read_all (S (length f)) r1 = Some (emissions 16 quote_events, r2) /\
  payload_crc r2 = journal_crc stats /\ crc_failures (rstats (nbbo_reader r2)) = 0.
Proof.
  apply (nbbo_journal_round_trip (fun _ d => Z.of_nat (length d)) zero_gaps 16 quote_events (mkNbboReader reader_init 0)).
  - intros f d Hd. destruct d; [done|]. simpl. lia.
  - reflexivity.
  - intros n. repeat split; repeat constructor; unfold byte_ok, is_u; lia.
  - repeat (constructor; [apply quote_add_ok; unfold is_u; lia|]). constructor.
  - simpl. lia.
Defined.

Example quote_events_emit_two :
  map (fun e => (n_bid_venue (ne_quote e), n_bid_price (ne_quote e))) (emissions 16 quote_events)
  = [(0, 100); (2, 101)].
Proof. vm_compute. reflexivity. Qed.
