(* ===== verification/Framing.v ===== *)
(** * Datagram framing (src/wire/framing.cpp, include/mf/wire/itch_moldudp.hpp,
    src/transport/afxdp/udp_payload.cpp)

    Cutting datagrams into messages for the three venues, packing raw ITCH
    into MoldUDP64 datagrams, and finding the UDP payload of an Ethernet frame.
    Every frame is a slice of its datagram, and framing a packed datagram gives
    back the messages packed, numbered consecutively. *)

From S2P Require Import Prelude Wire.

#[local] Open Scope list_scope.
#[local] Open Scope Z_scope.

(** ** Frames *)

Inductive WireProtocol := NasdaqItch50 | IexDeep | CboePitch.

(** [FrameSlice]: the pointer is an offset into the datagram. *)
Record FrameSlice := mkFrame { fs_off : nat; fs_len : nat; fs_sequence : Z }.

Definition frame_payload (d : list Z) (f : FrameSlice) : list Z := slice d (fs_off f) (fs_len f).

Definition be64_at (p : list Z) (off : nat) : Z := be_val (slice p off 8).

(** [parse_ascii_u64] of the framer: 0 as soon as a byte is not a digit. *)
Fixpoint frame_ascii (v : Z) (p : list Z) : Z :=
  match p with
  | [] => v
  | c :: p => if (c <? ch "0") || (c >? ch "9") then 0 else frame_ascii (u64 (u64 (v * 10) + (c - ch "0"))) p
  end.

(** The loop over length-prefixed messages ending at [limit]: [remaining] of
    them from the [i]-th on. *)
Fixpoint prefixed_loop (d : list Z) (limit : nat) (first_seq : Z) (remaining i off : nat) : list FrameSlice :=
  match remaining with
  | O => []
  | S remaining =>
      if (limit <? off + 2)%nat then [] else
      let mlen := Z.to_nat (be16_at d off) in
      let off := (off + 2)%nat in
      if (limit <? off + mlen)%nat then [] else
      mkFrame off mlen (first_seq +64 Z.of_nat i) ::
      prefixed_loop d limit first_seq remaining (S i) (off + mlen)%nat
  end.

(** The newline loop of the PITCH branch: the byte at [i] on, the message
    begun at [start]; the last line needs no newline. *)
Definition line_frame (d : list Z) (start i : nat) : FrameSlice :=
  let mlen := (i - start)%nat in
  mkFrame start mlen (if (8 <=? mlen)%nat then frame_ascii 0 (slice d start 8) else 0).

Fixpoint line_loop (d rest : list Z) (i start : nat) : list FrameSlice :=
  match rest with
  | [] => if (start <? length d)%nat then [line_frame d start (length d)] else []
  | c :: rest =>
      if negb (c =? 10) then line_loop d rest (S i) start
      else (if (start <? i)%nat then [line_frame d start i] else []) ++ line_loop d rest (S i) (S i)
  end.

(** [DatagramFramer::frame]: the slices passed to the callback, in order. *)
Definition frame (protocol : WireProtocol) (d : list Z) : list FrameSlice :=
  if (length d =? 0)%nat then [] else
  match protocol with
  | NasdaqItch50 =>
      if (length d <? 20)%nat then [] else
      prefixed_loop d (length d) (be64_at d 10) (Z.to_nat (be16_at d 18)) 0 20
  | IexDeep =>
      if (length d <? 36)%nat then [] else
      let limit := (36 + Z.to_nat (be16_at d 8))%nat in
      if (length d <? limit)%nat then [] else
      prefixed_loop d limit (be64_at d 20) (Z.to_nat (be16_at d 10)) 0 36
  | CboePitch => line_loop d d 0 0
  end.

(** ** Packing (ItchMoldUdpFramer) *)

Record ItchMoldUdpFramer := mkFramer { session : list Z; mold_next_seq : Z }.

Definition reset_sequence (seq : Z) (f : ItchMoldUdpFramer) : ItchMoldUdpFramer := mkFramer (session f) seq.

(** The packing loop: [out] is the datagram so far. [None]: out of fuel. *)
Fixpoint pack_loop (fuel : nat) (data : list Z) (max_messages max_bytes : Z)
    (out : list Z) (msg_count : Z) (off : nat) : option (list Z * Z * nat) :=
  match fuel with
  | O => None
  | S fuel =>
      if negb ((off + 2 <=? length data)%nat && (msg_count <? max_messages)) then Some (out, msg_count, off) else
      let msg_len := be16_at data off in
      let n := Z.to_nat msg_len in
      if (msg_len =? 0) || (length data <? off + 2 + n)%nat then Some (out, msg_count, off) else
      let needed := 20 + 2 + (Z.of_nat (length out) - 20) + 2 + msg_len in
      if needed >? max_bytes then Some (out, msg_count, off) else
      pack_loop fuel data max_messages max_bytes
        (out ++ be 2 msg_len ++ slice data (off + 2) n) (u16 (msg_count + 1)) (off + (2 + n))%nat
  end.

(** [pack_datagram]: the datagram (empty for none), the bytes consumed, and
    the framer. *)
Definition pack_datagram (f : ItchMoldUdpFramer) (data : list Z) (max_messages max_bytes : Z)
    : option (list Z * nat * ItchMoldUdpFramer) :=
  if (length data <? 2)%nat then Some ([], 0%nat, f) else
  let name := take 10 (session f) ++ repeat (ch " ") (10 - length (take 10 (session f))) in
  let out := name ++ be 8 (mold_next_seq f) ++ [0; 0] in
  match pack_loop (S (length data)) data max_messages max_bytes out 0 0 with
  | None => None
  | Some (out, msg_count, off) =>
      if msg_count =? 0 then Some ([], 0%nat, f) else
      Some (take 18 out ++ be 2 msg_count ++ drop 20 out, off,
            mkFramer (session f) (mold_next_seq f +64 msg_count))
  end.

(** ** Ethernet frames (extract_udp_payload) *)

Definition kEthHeader : nat := 14.
Definition kMinIpv4 : nat := 20.
Definition kUdpHeader : nat := 8.

(** The payload's offset and length; [None] for a null pointer and length 0. *)
Definition extract_udp_payload (frame : list Z) : option (nat * nat) :=
  if (length frame <? kEthHeader + kMinIpv4 + kUdpHeader)%nat then None else
  if negb (be16_at frame 12 =? 0x0800) then None else
  let ip := nth kEthHeader frame 0 in
  if negb (Z.shiftr ip 4 =? 4) then None else
  let ihl := (Z.to_nat (Z.land ip 0x0F) * 4)%nat in
  if (ihl <? kMinIpv4)%nat || (length frame <? kEthHeader + ihl + kUdpHeader)%nat then None else
  if negb (nth (kEthHeader + 9) frame 0 =? 17) then None else
  let udp_len := Z.to_nat (be16_at frame (kEthHeader + ihl + 4)) in
  if (udp_len <? kUdpHeader)%nat then None else
  if (length frame <? kEthHeader + ihl + udp_len)%nat then None else
  Some ((kEthHeader + ihl + kUdpHeader)%nat, (udp_len - kUdpHeader)%nat).

(** ** Bounds *)

(** Frames lie between [lo] and [hi], in order and without overlap. *)
Fixpoint frames_within (lo hi : nat) (fs : list FrameSlice) : Prop :=
  match fs with
  | [] => (lo <= hi)%nat
  | f :: fs => (lo <= fs_off f)%nat /\ (fs_off f + fs_len f <= hi)%nat /\
               frames_within (fs_off f + fs_len f) hi fs
  end.

Lemma frames_within_weaken lo lo' hi hi' fs : (lo' <= lo)%nat -> (hi <= hi')%nat ->
  frames_within lo hi fs -> frames_within lo' hi' fs.
Proof.
  revert lo lo'. induction fs as [|f fs IH]; intros lo lo' H1 H2; cbn [frames_within]; [lia|].
  intros (? & ? & H). split; [lia|]. split; [lia|]. eapply IH; [..|exact H]; lia.
Qed.

Lemma prefixed_loop_within d limit seq : forall remaining i off, (off <= limit)%nat ->
  frames_within off limit (prefixed_loop d limit seq remaining i off) /\
  Forall (fun f => is_u 64 (fs_sequence f)) (prefixed_loop d limit seq remaining i off).
Proof.
  induction remaining as [|k IH]; intros i off Ho; [by split|]. cbn [prefixed_loop].
  destruct (limit <? off + 2)%nat eqn:E1; [by split|]. cbv zeta.
  destruct (limit <? off + 2 + Z.to_nat (be16_at d off))%nat eqn:E2; [by split|].
  apply Nat.ltb_ge in E1, E2. destruct (IH (S i) (off + 2 + Z.to_nat (be16_at d off))%nat) as [H1 H2]; [lia|].
  split; [|constructor; [apply u64_range|done]]. cbn [frames_within fs_off fs_len]. split; [lia|]. split; [lia|done].
Qed.

Lemma frame_ascii_range p : forall v, is_u 64 v -> is_u 64 (frame_ascii v p).
Proof.
  induction p as [|c p IH]; intros v Hv; [done|]. cbn [frame_ascii].
  destruct (_ || _); [unfold is_u; lia|]. apply IH, u64_range.
Qed.

Lemma line_frame_seq d start i : is_u 64 (fs_sequence (line_frame d start i)).
Proof.
  cbn [line_frame fs_sequence]. destruct (_ <=? _)%nat; [apply frame_ascii_range|]; unfold is_u; lia.
Qed.

Lemma line_loop_within d rest : forall i start, (start <= i)%nat -> (i + length rest = length d)%nat ->
  frames_within start (length d) (line_loop d rest i start) /\
  Forall (fun f => is_u 64 (fs_sequence f)) (line_loop d rest i start).
Proof.
  induction rest as [|c rest IH]; intros i start Hs Hl; cbn [line_loop length] in *.
  - destruct (_ <? _)%nat eqn:E; [|split; [cbn; lia|done]]. apply Nat.ltb_lt in E.
    split; [cbn; lia|]. constructor; [apply line_frame_seq|done].
  - destruct (negb _); [apply IH; lia|]. destruct (IH (S i) (S i)) as [H1 H2]; [lia|lia|].
    destruct (_ <? _)%nat eqn:E.
    + apply Nat.ltb_lt in E. split; [|constructor; [apply line_frame_seq|done]].
      cbn [app frames_within line_frame fs_off fs_len]. split; [lia|]. split; [lia|].
      eapply frames_within_weaken; [..|exact H1]; lia.
    + split; [|done]. eapply frames_within_weaken; [..|exact H1]; lia.
Qed.

(** Whatever a datagram holds, the frames cut from it are slices of it, in
    order and disjoint, and their sequence numbers fit 64 bits. *)
Theorem frames_in_bounds protocol d :
  frames_within 0 (length d) (frame protocol d) /\
  Forall (fun f => is_u 64 (fs_sequence f)) (frame protocol d).
Proof.
  unfold frame. destruct (_ =? 0)%nat; [split; [cbn; lia|done]|]. destruct protocol.
  - destruct (_ <? _)%nat eqn:E; [split; [cbn; lia|done]|]. apply Nat.ltb_ge in E.
    destruct (prefixed_loop_within d (length d) (be64_at d 10) (Z.to_nat (be16_at d 18)) 0 20 E) as [H1 H2].
    split; [|done]. eapply frames_within_weaken; [..|exact H1]; lia.
  - destruct (_ <? _)%nat eqn:E; [split; [cbn; lia|done]|]. cbv zeta.
    destruct (length d <? 36 + Z.to_nat (be16_at d 8))%nat eqn:E2; [split; [cbn; lia|done]|].
    apply Nat.ltb_ge in E, E2.
    destruct (prefixed_loop_within d (36 + Z.to_nat (be16_at d 8)) (be64_at d 20) (Z.to_nat (be16_at d 10)) 0 36)
      as [H1 H2]; [lia|]. split; [|done]. eapply frames_within_weaken; [..|exact H1]; lia.
  - apply line_loop_within; lia.
Qed.

(** ** Packing and framing *)

(** A message with its big-endian length. *)
Definition prefixed (m : list Z) : list Z := be 2 (Z.of_nat (length m)) ++ m.

Definition prefixed_all (ms : list (list Z)) : list Z := concat (map prefixed ms).

Definition packable (m : list Z) : Prop := 0 < Z.of_nat (length m) < 2 ^ 16.

Lemma length_prefixed m : length (prefixed m) = (2 + length m)%nat.
Proof. unfold prefixed. by rewrite length_app, length_be. Qed.

Lemma prefixed_all_cons m ms : prefixed_all (m :: ms) = prefixed m ++ prefixed_all ms.
Proof. done. Qed.

(** Two bytes of a buffer are the encoding of the number read there. *)
Lemma be16_at_inv data off : bytes_ok data -> (off + 2 <= length data)%nat ->
  0 <= be16_at data off < 2 ^ 16 /\ be 2 (be16_at data off) = slice data off 2.
Proof.
  intros Hok Hl.
  destruct (lookup_lt_is_Some_2 data off) as [h Hh]; [lia|].
  destruct (lookup_lt_is_Some_2 data (off + 1)) as [l Hll]; [lia|].
  assert (byte_ok h /\ byte_ok l) as [Hbh Hbl] by (rewrite Forall_lookup in Hok; eauto).
  unfold be16_at. rewrite !(nth_lookup_Some _ _ 0 _ Hh), !(nth_lookup_Some _ _ 0 _ Hll).
  destruct (be16_pair h l Hbh Hbl) as [-> ->]. unfold byte_ok, is_u in *. change (2 ^ 8) with 256 in *.
  split; [lia|]. unfold slice. rewrite (drop_S data h off Hh).
  replace (S off) with (off + 1)%nat by lia. by rewrite (drop_S data l (off + 1) Hll).
Qed.

Lemma slice_take_drop {A} (l : list A) off n k : take n (drop off l) ++ slice l (off + n) k = take (n + k) (drop off l).
Proof. unfold slice. by rewrite <-drop_drop, take_take_drop. Qed.

Lemma pack_loop_spec data max_messages max_bytes : bytes_ok data -> max_messages < 2 ^ 16 ->
  forall fuel out cnt off, (length data < off + fuel)%nat -> (off <= length data)%nat ->
  0 <= cnt -> (20 <= length out)%nat ->
  exists ms, pack_loop fuel data max_messages max_bytes out cnt off
    = Some (out ++ prefixed_all ms, cnt + Z.of_nat (length ms), (off + length (prefixed_all ms))%nat) /\
    prefixed_all ms = take (length (prefixed_all ms)) (drop off data) /\ Forall packable ms /\
    (ms = [] \/ cnt + Z.of_nat (length ms) <= max_messages /\
                Z.of_nat (length (out ++ prefixed_all ms)) <= max_bytes).
Proof.
  intros Hok Hmax. induction fuel as [|fuel IH]; intros out cnt off Hf Ho Hc Hout; [lia|].
  assert (exists ms, Some (out, cnt, off) = Some (out ++ prefixed_all ms, cnt + Z.of_nat (length ms),
      (off + length (prefixed_all ms))%nat) /\
    prefixed_all ms = take (length (prefixed_all ms)) (drop off data) /\ Forall packable ms /\
    (ms = [] \/ cnt + Z.of_nat (length ms) <= max_messages /\
                Z.of_nat (length (out ++ prefixed_all ms)) <= max_bytes)) as Hstop.
  { exists []. unfold prefixed_all. cbn [map concat length]. rewrite app_nil_r, Z.add_0_r, Nat.add_0_r. auto. }
  cbn [pack_loop]. destruct ((off + 2 <=? length data)%nat && (cnt <? max_messages)) eqn:Eg; [|exact Hstop].
  apply andb_true_iff in Eg as [E1 E2]. apply Nat.leb_le in E1. zbool. cbn [negb]. cbv zeta.
  destruct (be16_at_inv data off Hok E1) as [Hr Hbe]. set (msg_len := be16_at data off) in *.
  set (n := Z.to_nat msg_len). destruct (_ || _) eqn:E3; [exact Hstop|].
  apply orb_false_iff in E3 as [E3 E4]. apply Nat.ltb_ge in E4. zbool.
  destruct (_ >? max_bytes) eqn:E5; [exact Hstop|].
  rewrite Z.gtb_ltb in E5. apply Z.ltb_ge in E5.
  set (m := slice data (off + 2) n).
  assert (length m = n) as Hm by (subst m; apply length_slice; lia).
  assert (be 2 msg_len ++ m = prefixed m) as Hp by (unfold prefixed; do 2 f_equal; lia).
  unfold u16. rewrite (wrap_small 16) by (unfold is_u; lia). rewrite Hp.
  destruct (IH (out ++ prefixed m) (cnt + 1) (off + (2 + n))%nat) as (ms & -> & Hms & Hpk & Hb);
    [lia|lia|lia|rewrite length_app; lia|].
  exists (m :: ms). rewrite prefixed_all_cons, !length_app, length_prefixed, Hm, <-app_assoc.
  split; [do 2 f_equal; [f_equal; cbn [length]; lia|lia]|]. split; [|split].
  - rewrite Hms at 1. rewrite <-Hp, Hbe. subst m. unfold slice at 1.
    rewrite slice_take_drop, <-(slice_take_drop data off (2 + n)). done.
  - constructor; [|done]. unfold packable. lia.
  - right. cbn [length]. destruct Hb as [-> | [Hb1 Hb2]].
    + change (prefixed_all []) with (@nil Z). cbn [length]. lia.
    + rewrite !length_app, length_prefixed, Hm in Hb2. lia.
Qed.

(** The frames of messages laid out from an offset on. *)
Fixpoint packed_frames (off i : nat) (first_seq : Z) (ms : list (list Z)) : list FrameSlice :=
  match ms with
  | [] => []
  | m :: ms => mkFrame (off + 2) (length m) (first_seq +64 Z.of_nat i) ::
               packed_frames (off + 2 + length m) (S i) first_seq ms
  end.

Lemma prefixed_loop_packed limit first_seq post ms : Forall packable ms -> forall pre i,
  (length pre + length (prefixed_all ms) <= limit)%nat ->
  prefixed_loop (pre ++ prefixed_all ms ++ post) limit first_seq (length ms) i (length pre)
  = packed_frames (length pre) i first_seq ms.
Proof.
  induction 1 as [|m ms Hm _ IH]; intros pre i Hl; [done|]. unfold packable in Hm.
  rewrite prefixed_all_cons, length_app, length_prefixed in Hl.
  set (d := pre ++ prefixed_all (m :: ms) ++ post).
  assert (d = (pre ++ prefixed m) ++ prefixed_all ms ++ post) as Hd
    by (subst d; rewrite prefixed_all_cons, <-!app_assoc; done).
  assert (be16_at d (length pre) = Z.of_nat (length m)) as Hb.
  { rewrite Hd. unfold prefixed. rewrite <-!app_assoc. apply be16_at_be. lia. }
  cbn [length prefixed_loop packed_frames]. rewrite Hb, Nat2Z.id. cbv zeta.
  replace (limit <? length pre + 2)%nat with false by (symmetry; apply Nat.ltb_ge; lia).
  replace (limit <? _)%nat with false by (symmetry; apply Nat.ltb_ge; lia). f_equal.
  specialize (IH (pre ++ prefixed m) (S i)). rewrite length_app, length_prefixed, <-Hd in IH.
  replace (length pre + 2 + length m)%nat with (length pre + (2 + length m))%nat by lia. apply IH. lia.
Qed.

Lemma packed_frames_payloads first_seq post ms : forall pre i,
  map (frame_payload (pre ++ prefixed_all ms ++ post)) (packed_frames (length pre) i first_seq ms) = ms /\
  map fs_sequence (packed_frames (length pre) i first_seq ms)
  = map (fun k => first_seq +64 Z.of_nat k) (seq i (length ms)).
Proof.
  induction ms as [|m ms IH]; intros pre i; [done|]. cbn [packed_frames map length seq fs_sequence].
  specialize (IH (pre ++ prefixed m) (S i)). rewrite length_app, length_prefixed in IH.
  replace (length pre + 2 + length m)%nat with (length pre + (2 + length m))%nat by lia.
  assert ((pre ++ prefixed m) ++ prefixed_all ms ++ post = pre ++ prefixed_all (m :: ms) ++ post) as E
    by (rewrite prefixed_all_cons, <-!app_assoc; done).
  rewrite E in IH. destruct IH as [-> ->]. split; [|done]. f_equal.
  unfold frame_payload, slice. cbn [fs_off fs_len]. rewrite prefixed_all_cons. unfold prefixed.
  rewrite <-!app_assoc, <-drop_drop, drop_app_length, drop_app_length' by (by rewrite length_be).
  by rewrite take_app_length.
Qed.

Lemma be64_at_be pre v rest : is_u 64 v -> be64_at (pre ++ be 8 v ++ rest) (length pre) = v.
Proof.
  intros Hv. unfold be64_at, slice. rewrite drop_app_length, take_app_length' by (by rewrite length_be).
  unfold be. rewrite be_val_be_bytes by lia. apply Z.mod_small. exact Hv.
Qed.

(** A MoldUDP64 datagram of messages. *)
Definition mold_datagram (name : list Z) (first_seq : Z) (ms : list (list Z)) : list Z :=
  name ++ be 8 first_seq ++ be 2 (Z.of_nat (length ms)) ++ prefixed_all ms.

Lemma frame_mold name first_seq ms : length name = 10%nat -> is_u 64 first_seq ->
  Forall packable ms -> Z.of_nat (length ms) < 2 ^ 16 ->
  frame NasdaqItch50 (mold_datagram name first_seq ms) = packed_frames 20 0 first_seq ms.
Proof.
  intros Hn Hs Hms Hl. set (d := mold_datagram name first_seq ms).
  assert (length d = 20 + length (prefixed_all ms))%nat as Hd
    by (subst d; unfold mold_datagram; rewrite !length_app, !length_be, Hn; lia).
  assert (be64_at d 10 = first_seq) as H1 by (subst d; unfold mold_datagram; rewrite <-Hn; by apply be64_at_be).
  assert (be16_at d 18 = Z.of_nat (length ms)) as H2.
  { subst d. unfold mold_datagram. rewrite app_assoc.
    replace 18%nat with (length (name ++ be 8 first_seq)) by (rewrite length_app, length_be; lia).
    apply be16_at_be. lia. }
  unfold frame. rewrite H1, H2, Hd, Nat2Z.id.
  replace (_ =? 0)%nat with false by (symmetry; apply Nat.eqb_neq; lia).
  replace (_ <? 20)%nat with false by (symmetry; apply Nat.ltb_ge; lia).
  pose proof (prefixed_loop_packed (20 + length (prefixed_all ms)) first_seq [] ms Hms
    (name ++ be 8 first_seq ++ be 2 (Z.of_nat (length ms))) 0) as H.
  rewrite !length_app, !length_be, Hn, app_nil_r in H. rewrite <-!app_assoc in H. apply H. lia.
Qed.

Lemma session_name_length s : length (take 10 s ++ repeat (ch " ") (10 - length (take 10 s))) = 10%nat.
Proof. rewrite length_app, repeat_length, length_take. lia. Qed.

(** What [pack_datagram] produces: a MoldUDP64 datagram of messages whose
    length-prefixed bytes are exactly the bytes consumed. *)
Lemma pack_datagram_spec f data max_messages max_bytes :
  bytes_ok data -> max_messages < 2 ^ 16 -> is_u 64 (mold_next_seq f) ->
  exists out consumed f', pack_datagram f data max_messages max_bytes = Some (out, consumed, f') /\
    (out = [] /\ consumed = 0%nat /\ f' = f \/
     exists name ms, out = mold_datagram name (mold_next_seq f) ms /\ length name = 10%nat /\ ms <> [] /\
       Forall packable ms /\ Z.of_nat (length ms) <= max_messages /\ Z.of_nat (length out) <= max_bytes /\
       prefixed_all ms = take consumed data /\ (0 < consumed)%nat /\
       mold_next_seq f' = mold_next_seq f +64 Z.of_nat (length ms)).
Proof.
  intros Hok Hmax Hs. unfold pack_datagram. destruct (_ <? 2)%nat; [eauto 10|]. cbv zeta.
  set (name := take 10 (session f) ++ _).
  pose proof (session_name_length (session f)) as Hn. fold name in Hn.
  destruct (pack_loop_spec data max_messages max_bytes Hok Hmax (S (length data))
    (name ++ be 8 (mold_next_seq f) ++ [0; 0]) 0 0) as (ms & -> & Hms & Hpk & Hb);
    [lia|lia|lia|rewrite !length_app, length_be, Hn; simpl; lia|].
  destruct (0 + Z.of_nat (length ms) =? 0) eqn:E; [eauto 10|]. zbool.
  assert (ms <> []) as Hne by (intros ->; done).
  destruct Hb as [Hb|[Hb1 Hb2]]; [done|].
  assert (take 18 ((name ++ be 8 (mold_next_seq f) ++ [0; 0]) ++ prefixed_all ms) = name ++ be 8 (mold_next_seq f)) as H18.
  { rewrite !app_assoc, <-(app_assoc _ [0; 0]). apply take_app_length'. by rewrite length_app, length_be, Hn. }
  assert (drop 20 ((name ++ be 8 (mold_next_seq f) ++ [0; 0]) ++ prefixed_all ms) = prefixed_all ms) as H20.
  { apply drop_app_length'. by rewrite !length_app, length_be, Hn. }
  eexists _, _, _. split; [done|]. right. exists name, ms. rewrite H18, H20.
  split; [unfold mold_datagram; rewrite <-!app_assoc; do 4 f_equal; lia|].
  split_and!; try done; try lia.
  - unfold mold_datagram. rewrite !length_app, !length_be, Hn in *. cbn [length] in Hb2. lia.
  - destruct ms as [|m ms]; [done|]. rewrite prefixed_all_cons, length_app, length_prefixed. lia.
Qed.

(** Framing a packed datagram gives back the messages packed: put behind their
    lengths again they are the bytes consumed; they are numbered from the
    framer's next sequence number on, which moves past them; and the datagram
    keeps both limits. When nothing is packed the framer does not move. *)
Theorem pack_frame_round_trip f data max_messages max_bytes :
  bytes_ok data -> max_messages < 2 ^ 16 -> is_u 64 (mold_next_seq f) ->
  exists out consumed f', pack_datagram f data max_messages max_bytes = Some (out, consumed, f') /\
    (out = [] -> consumed = 0%nat /\ f' = f) /\
    (out <> [] ->
       let fs := frame NasdaqItch50 out in
       prefixed_all (map (frame_payload out) fs) = take consumed data /\
       map fs_sequence fs = map (fun i => mold_next_seq f +64 Z.of_nat i) (seq 0 (length fs)) /\
       mold_next_seq f' = mold_next_seq f +64 Z.of_nat (length fs) /\
       0 < Z.of_nat (length fs) <= max_messages /\ Z.of_nat (length out) <= max_bytes).
Proof.
  intros Hok Hmax Hs. destruct (pack_datagram_spec f data max_messages max_bytes Hok Hmax Hs)
    as (out & consumed & f' & Hp & Hcase). exists out, consumed, f'. split; [done|].
  destruct Hcase as [(-> & -> & ->)|(name & ms & -> & Hn & Hne & Hpk & Hc & Hb & Htake & H0 & Hseq)]; [done|].
  split; [intros E; by apply (f_equal length) in E; unfold mold_datagram in E; rewrite length_app, Hn in E|].
  intros _. cbv zeta. rewrite frame_mold by (done || lia).
  pose proof (packed_frames_payloads (mold_next_seq f) [] ms
    (name ++ be 8 (mold_next_seq f) ++ be 2 (Z.of_nat (length ms))) 0) as [H1 H2].
  rewrite !length_app, !length_be, Hn in H1, H2. rewrite app_nil_r, <-!app_assoc in H1.
  change (10 + (8 + 2))%nat with 20%nat in *. fold (mold_datagram name (mold_next_seq f) ms) in H1.
  assert (length (packed_frames 20 0 (mold_next_seq f) ms) = length ms) as Hl
    by (apply (f_equal length) in H1; by rewrite length_map in H1).
  rewrite H1, H2, Hl. split_and!; try done. destruct ms; [done|]. simpl. lia.
Qed.

(** ** PITCH lines *)

Definition no_newline (l : list Z) : Prop := Forall (fun c => c <> 10) l.

Definition join_lines (ls : list (list Z)) (last : list Z) : list Z :=
  concat (map (fun l => l ++ [10]) ls) ++ last.

Lemma line_loop_skip d cur : forall rest i start, no_newline cur ->
  line_loop d (cur ++ rest) i start = line_loop d rest (i + length cur) start.
Proof.
  induction cur as [|c cur IH]; intros rest i start H; [cbn; f_equal; lia|].
  apply Forall_cons in H as [Hc H]. cbn [app line_loop length].
  replace (c =? 10) with false by (symmetry; by apply Z.eqb_neq). cbn [negb].
  rewrite IH by done. f_equal. lia.
Qed.

Definition has_bytes (l : list Z) : bool := negb (length l =? 0)%nat.

Lemma line_frame_payload pre l post :
  frame_payload (pre ++ l ++ post) (line_frame (pre ++ l ++ post) (length pre) (length pre + length l)) = l.
Proof.
  unfold frame_payload, slice. cbn [line_frame fs_off fs_len].
  replace (length pre + length l - length pre)%nat with (length l) by lia.
  by rewrite drop_app_length, take_app_length.
Qed.

Lemma line_loop_lines last ls : Forall no_newline ls -> no_newline last ->
  forall pre, let d := pre ++ join_lines ls last in
  map (frame_payload d) (line_loop d (join_lines ls last) (length pre) (length pre))
  = List.filter has_bytes (ls ++ [last]).
Proof.
  intros Hls Hlast. induction Hls as [|l ls Hl _ IH]; intros pre d.
  - subst d. unfold join_lines. cbn [map concat app List.filter].
    pose proof (line_frame_payload pre last []) as Hp. rewrite app_nil_r in Hp.
    pose proof (line_loop_skip (pre ++ last) last [] (length pre) (length pre) Hlast) as Hk.
    rewrite app_nil_r in Hk. rewrite Hk. cbn [line_loop]. rewrite length_app.
    unfold has_bytes. destruct last as [|c last]; [cbn [length]; by rewrite Nat.add_0_r, Nat.ltb_irrefl|].
    replace (_ <? _)%nat with true by (symmetry; apply Nat.ltb_lt; cbn [length]; lia).
    cbn [map]. by rewrite Hp.
  - assert (join_lines (l :: ls) last = l ++ [10] ++ join_lines ls last) as Hj
      by (unfold join_lines; cbn [map concat]; by rewrite <-!app_assoc).
    subst d. rewrite Hj. set (d := pre ++ l ++ [10] ++ join_lines ls last). cbn [app List.filter].
    rewrite line_loop_skip by done. cbn [app line_loop]. change (negb (10 =? 10)) with false. cbn match.
    specialize (IH (pre ++ l ++ [10])). cbv zeta in IH.
    assert ((pre ++ l ++ [10]) ++ join_lines ls last = d) as Hd by (subst d; by rewrite <-!app_assoc).
    rewrite Hd, !length_app in IH. cbn [length] in IH.
    replace (length pre + (length l + 1))%nat with (S (length pre + length l)) in IH by lia.
    rewrite map_app, IH. unfold has_bytes at 2. destruct l as [|c l].
    + cbn [length]. rewrite Nat.add_0_r, Nat.ltb_irrefl. done.
    + replace (_ <? _)%nat with true by (symmetry; apply Nat.ltb_lt; cbn [length]; lia).
      cbn [map app length Nat.eqb negb]. f_equal. subst d. apply (line_frame_payload pre (c :: l) ([10] ++ join_lines ls last)).
Qed.

(** Newline-delimited messages are framed one by one, empty lines dropped, with
    or without a newline after the last. *)
Theorem pitch_lines_round_trip ls last : Forall no_newline ls -> no_newline last ->
  map (frame_payload (join_lines ls last)) (frame CboePitch (join_lines ls last))
  = List.filter has_bytes (ls ++ [last]).
Proof.
  intros Hls Hlast. pose proof (line_loop_lines last ls Hls Hlast []) as H. cbv zeta in H. cbn [app length] in H.
  unfold frame. destruct (_ =? 0)%nat eqn:E; [|exact H].
  apply Nat.eqb_eq, nil_length_inv in E. rewrite E in H. rewrite <-H. done.
Qed.

(** ** Ethernet frames *)

(** An IPv4/UDP frame: [ihl] counts the IP header in 32-bit words; [ip1] and
    [ip2] are its bytes around the protocol, [csum] the UDP checksum and [pad]
    what the link adds. *)
Definition udp_frame (macs ip1 ip2 ports csum payload pad : list Z) (ihl : Z) : list Z :=
  macs ++ [8; 0] ++ [0x40 + ihl] ++ ip1 ++ [17] ++ ip2 ++ ports ++
  be 2 (8 + Z.of_nat (length payload)) ++ csum ++ payload ++ pad.

Lemma ip_first_byte ihl : 0 <= ihl < 16 ->
  Z.shiftr (0x40 + ihl) 4 = 4 /\ Z.land (0x40 + ihl) 0x0F = ihl.
Proof.
  intros H. change 0x0F with (Z.ones 4). rewrite Z.land_ones, Z.shiftr_div_pow2 by lia. change (2 ^ 4) with 16.
  change 0x40 with (4 * 16). rewrite (Z.add_comm (4 * 16)), Z.div_add, Z.mod_add, Z.div_small, Z.mod_small by lia. lia.
Qed.

(** What the checks read in such a frame. *)
Lemma udp_frame_reads macs ip1 ip2 ports csum payload pad ihl :
  length macs = 12%nat -> length ip1 = 8%nat -> Z.of_nat (length ip2) = 4 * ihl - 10 -> length ports = 4%nat ->
  length csum = 2%nat -> 5 <= ihl < 16 -> 8 + Z.of_nat (length payload) < 2 ^ 16 ->
  let frame := udp_frame macs ip1 ip2 ports csum payload pad ihl in
  let n := (Z.to_nat ihl * 4)%nat in
  length frame = (14 + n + 8 + length payload + length pad)%nat /\
  be16_at frame 12 = 0x0800 /\ nth 14 frame 0 = 0x40 + ihl /\ nth 23 frame 0 = 17 /\
  be16_at frame (14 + n + 4) = 8 + Z.of_nat (length payload) /\
  slice frame (14 + n + 8) (length payload) = payload.
Proof.
  intros Hm H1 H2 Hp Hc Hi Hl frame n.
  assert (length ip2 = n - 10)%nat as H2' by (subst n; lia).
  assert (20 <= n)%nat as Hn by (subst n; lia).
  set (pre := macs ++ [8; 0] ++ [0x40 + ihl] ++ ip1 ++ [17] ++ ip2 ++ ports).
  assert (frame = pre ++ be 2 (8 + Z.of_nat (length payload)) ++ csum ++ payload ++ pad) as Hf
    by (subst frame pre; unfold udp_frame; by rewrite <-!app_assoc).
  assert (length pre = 14 + n + 4)%nat as Hpre.
  { subst pre. rewrite !length_app, Hm, H1, H2', Hp. simpl. lia. }
  split_and!.
  - rewrite Hf, !length_app, length_be, Hpre, Hc. lia.
  - subst frame. unfold udp_frame. rewrite <-Hm. change [8; 0] with (be 2 0x0800). apply be16_at_be. lia.
  - subst frame. unfold udp_frame. rewrite (nth_tail 12), (nth_tail 2) by (done || lia). reflexivity.
  - subst frame. unfold udp_frame. rewrite (nth_tail 12), (nth_tail 2), (nth_tail 1), (nth_tail 8) by (done || lia). reflexivity.
  - rewrite Hf, <-Hpre. apply be16_at_be. lia.
  - rewrite Hf. unfold slice.
    replace (14 + n + 8)%nat with (length (pre ++ be 2 (8 + Z.of_nat (length payload)) ++ csum))
      by (rewrite !length_app, length_be, Hpre, Hc; lia).
    replace (pre ++ _ ++ csum ++ payload ++ pad) with
      ((pre ++ be 2 (8 + Z.of_nat (length payload)) ++ csum) ++ payload ++ pad) by (by rewrite <-!app_assoc).
    by rewrite drop_app_length, take_app_length.
Qed.

(** The payload found in a frame lies inside it, whatever the frame holds; in a
    well-formed IPv4/UDP frame it is the UDP payload, options and link padding
    left out. *)
Theorem udp_payload_correct :
  (forall frame off len, extract_udp_payload frame = Some (off, len) -> (off + len <= length frame)%nat) /\
  (forall macs ip1 ip2 ports csum payload pad ihl,
     length macs = 12%nat -> length ip1 = 8%nat -> Z.of_nat (length ip2) = 4 * ihl - 10 -> length ports = 4%nat ->
     length csum = 2%nat -> 5 <= ihl < 16 -> 8 + Z.of_nat (length payload) < 2 ^ 16 ->
     let frame := udp_frame macs ip1 ip2 ports csum payload pad ihl in
     exists off len, extract_udp_payload frame = Some (off, len) /\ slice frame off len = payload).
Proof.
  split.
  - intros frame off len. unfold extract_udp_payload. destruct (_ <? _)%nat; [done|]. destruct (negb _); [done|].
    cbv zeta. destruct (negb _); [done|]. set (ihl := (Z.to_nat _ * 4)%nat). destruct (_ || _); [done|].
    destruct (negb _); [done|]. set (udp_len := Z.to_nat _).
    destruct (udp_len <? kUdpHeader)%nat eqn:E1; [done|].
    destruct (length frame <? kEthHeader + ihl + udp_len)%nat eqn:E2; [done|].
    apply Nat.ltb_ge in E1, E2. intros [= <- <-]. unfold kUdpHeader, kEthHeader in *. lia.
  - intros macs ip1 ip2 ports csum payload pad ihl Hm H1 H2 Hp Hc Hi Hl frame.
    destruct (udp_frame_reads macs ip1 ip2 ports csum payload pad ihl Hm H1 H2 Hp Hc Hi Hl) as (Hlen & E1 & E2 & E3 & Hud & Hsl).
    fold frame in Hlen, E1, E2, E3, Hud, Hsl. destruct (ip_first_byte ihl ltac:(lia)) as [Hv Hihl].
    unfold extract_udp_payload, kEthHeader, kMinIpv4, kUdpHeader. change (14 + 9)%nat with 23%nat.
    rewrite E1, E2, E3, Hv, Hihl. change (negb (2048 =? 2048)) with false. change (negb (4 =? 4)) with false.
    change (negb (17 =? 17)) with false. cbv zeta. rewrite Hud, Hlen.
    replace (Z.to_nat (8 + Z.of_nat (length payload))) with (8 + length payload)%nat by lia.
    repeat match goal with
    | |- context [(?a <? ?b)%nat] => replace (a <? b)%nat with false by (symmetry; apply Nat.ltb_ge; lia)
    end.
    cbn [orb]. eexists _, _. split; [done|].
    by replace (8 + length payload - 8)%nat with (length payload) by lia.
Qed.

Lemma pack_frame_round_trip_witness :
  exists out consumed f', pack_datagram (mkFramer [83] 7) (be 2 3 ++ [1; 2; 3] ++ be 2 1 ++ [4] ++ [0]) 16 1400
    = Some (out, consumed, f') /\
    (out = [] -> consumed = 0%nat /\ f' = mkFramer [83] 7) /\
    (out <> [] ->
       let fs := frame NasdaqItch50 out in
       prefixed_all (map (frame_payload out) fs) = take consumed (be 2 3 ++ [1; 2; 3] ++ be 2 1 ++ [4] ++ [0]) /\
       map fs_sequence fs = map (fun i => 7 +64 Z.of_nat i) (seq 0 (length fs)) /\
       mold_next_seq f' = 7 +64 Z.of_nat (length fs) /\
       0 < Z.of_nat (length fs) <= 16 /\ Z.of_nat (length out) <= 1400).
Proof.
  apply (pack_frame_round_trip (mkFramer [83] 7) (be 2 3 ++ [1; 2; 3] ++ be 2 1 ++ [4] ++ [0]) 16 1400).
  - change (bytes_ok [0; 3; 1; 2; 3; 0; 1; 4; 0]). repeat constructor; unfold byte_ok, is_u; lia.
  - lia.
  - unfold is_u. simpl. lia.
Defined.

Lemma pitch_lines_round_trip_witness :
  map (frame_payload (join_lines [[65; 66]; []; [67]] [68])) (frame CboePitch (join_lines [[65; 66]; []; [67]] [68]))
  = [[65; 66]; [67]; [68]].
Proof. apply (pitch_lines_round_trip [[65; 66]; []; [67]] [68]); repeat constructor; lia. Defined.

(** A message the framer cannot pack, here one of length zero, stops it for
    good: nothing is consumed, however often it is called. *)
Example empty_message_stalls : forall f, pack_datagram f (be 2 0 ++ be 2 1 ++ [4]) 16 1400 = Some ([], 0%nat, f).
Proof. done. Qed.
