(* ===== verification/FeedSession.v ===== *)
(** * Feed sessions (src/wire/feed_session.cpp, src/transport/afxdp/feed_session.cpp)

    A session drains its receiver, frames each datagram, parses each frame with
    the parser of its protocol and hands the events to its sink. The receiver
    is the list of what its successive calls return. *)

From S2P Require Import Prelude Wire Types AbArbiter Itch Deep Pitch Framing.

#[local] Open Scope list_scope.
#[local] Open Scope Z_scope.

(** ** State *)

(** What [recv] returns: a datagram and its timestamp, or nothing (an empty
    datagram, no data yet, or an error). *)
Inductive Recv := RecvData (bytes : list Z) (ingest_ts_ns : Z) | RecvNone.

Record FeedSessionStats := mkSessionStats {
  datagrams_received : Z; bytes_received : Z; frames_parsed : Z; parse_failures : Z;
  sink_callbacks_fired : Z;
}.
Definition session_stats_init : FeedSessionStats := mkSessionStats 0 0 0 0 0.

(** The parser of the session and its statistics, in step. *)
Inductive ParserState :=
  | ItchParser (stats : ParseStats)
  | DeepParser (stats : DeepStats)
  | PitchParser (stats : ParseStats).

Record FeedSession := mkSession {
  framer : WireProtocol; side_ : FeedSide; parser : ParserState; session_stats : FeedSessionStats;
}.

Definition session_init (protocol : WireProtocol) (s : FeedSide) : FeedSession :=
  mkSession protocol s
    (match protocol with
     | NasdaqItch50 => ItchParser parse_stats_init
     | IexDeep => DeepParser (mkDeepStats parse_stats_init 0)
     | CboePitch => PitchParser parse_stats_init
     end) session_stats_init.

Definition parse_frame (p : ParserState) (payload : list Z) (seq ingest : Z) : option BookEvent * ParserState :=
  match p with
  | ItchParser s => let '(r, s) := itch_parse_message payload seq ingest s in (r, ItchParser s)
  | DeepParser s => let '(r, s) := deep_parse_message payload seq ingest s in (r, DeepParser s)
  | PitchParser s => let '(r, s) := pitch_parse_message payload seq ingest s in (r, PitchParser s)
  end.

Definition count_datagram (n : nat) (s : FeedSessionStats) : FeedSessionStats :=
  mkSessionStats (datagrams_received s +64 1) (bytes_received s +64 Z.of_nat n) (frames_parsed s)
                 (parse_failures s) (sink_callbacks_fired s).

Definition count_frame (ok : bool) (s : FeedSessionStats) : FeedSessionStats :=
  mkSessionStats (datagrams_received s) (bytes_received s) (frames_parsed s +64 1)
    (if ok then parse_failures s else parse_failures s +64 1)
    (if ok then sink_callbacks_fired s +64 1 else sink_callbacks_fired s).

Section session.
Context {S : Type} (sink_cb : FeedSide -> BookEvent -> S -> S).

(** The callback [poll] hands to the framer. *)
Definition on_frame (d : list Z) (ingest : Z) (st : FeedSession * S) (f : FrameSlice) : FeedSession * S :=
  let '(fs, s) := st in
  let '(ev, p) := parse_frame (parser fs) (frame_payload d f) (fs_sequence f) ingest in
  match ev with
  | None => (mkSession (framer fs) (side_ fs) p (count_frame false (session_stats fs)), s)
  | Some ev => (mkSession (framer fs) (side_ fs) p (count_frame true (session_stats fs)), sink_cb (side_ fs) ev s)
  end.

Fixpoint poll (recvs : list Recv) (st : FeedSession * S) : FeedSession * S :=
  match recvs with
  | RecvData [] _ :: _ | RecvNone :: _ | [] => st
  | RecvData d ingest :: recvs =>
      let '(fs, s) := st in
      let fs := mkSession (framer fs) (side_ fs) (parser fs) (count_datagram (length d) (session_stats fs)) in
      poll recvs (fold_left (on_frame d ingest) (frame (framer fs) d) (fs, s))
  end.
End session.

(** ** The AF_XDP session *)

Record AfxdpFeedSession := mkAfxdp { ax_parse_stats : ParseStats; ax_stats : FeedSessionStats }.

Definition afxdp_init : AfxdpFeedSession := mkAfxdp parse_stats_init session_stats_init.

Section afxdp.
Context {S : Type} (sink_cb : BookEvent -> S -> S).

Definition afxdp_on_frame (d : list Z) (ingest : Z) (st : AfxdpFeedSession * S) (f : FrameSlice)
    : AfxdpFeedSession * S :=
  let '(fs, s) := st in
  let '(ev, p) := itch_parse_message (frame_payload d f) (fs_sequence f) ingest (ax_parse_stats fs) in
  match ev with
  | None => (mkAfxdp p (count_frame false (ax_stats fs)), s)
  | Some ev => (mkAfxdp p (count_frame true (ax_stats fs)), sink_cb ev s)
  end.

Fixpoint afxdp_poll (recvs : list Recv) (st : AfxdpFeedSession * S) : AfxdpFeedSession * S :=
  match recvs with
  | RecvData [] _ :: _ | RecvNone :: _ | [] => st
  | RecvData d ingest :: recvs =>
      let '(fs, s) := st in
      let fs := mkAfxdp (ax_parse_stats fs) (count_datagram (length d) (ax_stats fs)) in
      afxdp_poll recvs (fold_left (afxdp_on_frame d ingest) (frame NasdaqItch50 d) (fs, s))
  end.
End afxdp.

(** ** The two transports deliver the same events *)

Definition same_session (a : AfxdpFeedSession) (f : FeedSession) : Prop :=
  framer f = NasdaqItch50 /\ parser f = ItchParser (ax_parse_stats a) /\ session_stats f = ax_stats a.

Section transports.
Context {S : Type} (sink_cb : BookEvent -> S -> S).

Lemma frames_same d ingest frames : forall a f s, same_session a f ->
  let '(a', s') := fold_left (afxdp_on_frame sink_cb d ingest) frames (a, s) in
  let '(f', s'') := fold_left (on_frame (fun _ => sink_cb) d ingest) frames (f, s) in
  same_session a' f' /\ s' = s''.
Proof.
  induction frames as [|x frames IH]; intros a f s H; [done|]. cbn [fold_left].
  destruct H as (Hf & Hp & Hs). unfold afxdp_on_frame at 2, on_frame at 2. rewrite Hp. cbn [parse_frame].
  destruct (itch_parse_message _ _ _ _) as [[ev|] p]; apply IH; split_and!; try done; cbn [session_stats ax_stats];
    by rewrite Hs.
Qed.

(** Fed the same datagrams, the AF_XDP session and the UDP session deliver the
    same events to their sinks and end with the same statistics. *)
Theorem transports_agree recvs s0 sd :
  let '(a, s) := afxdp_poll sink_cb recvs (afxdp_init, s0) in
  let '(f, s') := poll (fun _ => sink_cb) recvs (session_init NasdaqItch50 sd, s0) in
  s = s' /\ ax_stats a = session_stats f /\ parser f = ItchParser (ax_parse_stats a).
Proof.
  assert (forall a f s, same_session a f ->
    let '(a', s') := afxdp_poll sink_cb recvs (a, s) in
    let '(f', s'') := poll (fun _ => sink_cb) recvs (f, s) in same_session a' f' /\ s' = s'') as H.
  { induction recvs as [|[[|b d] ingest|] recvs IH]; intros a f s H; try done. cbn [afxdp_poll poll].
    destruct H as (Hf & Hp & Hs). cbn [framer]. rewrite Hf.
    pose proof (frames_same (b :: d) ingest (frame NasdaqItch50 (b :: d))
      (mkAfxdp (ax_parse_stats a) (count_datagram (length (b :: d)) (ax_stats a)))
      (mkSession NasdaqItch50 (side_ f) (parser f) (count_datagram (length (b :: d)) (session_stats f))) s) as Hfr.
    destruct (fold_left (afxdp_on_frame _ _ _) _ _) as [a1 s1], (fold_left (on_frame _ _ _) _ _) as [f1 s2].
    destruct Hfr as [H1 ->]; [split_and!; [done|done|cbn; by rewrite Hs]|]. by apply IH. }
  specialize (H afxdp_init (session_init NasdaqItch50 sd) s0).
  destruct (afxdp_poll _ _ _) as [a s], (poll _ _ _) as [f s']. destruct H as [(_ & Hp & Hs) ->]; [by split_and!|].
  by split_and!.
Qed.
End transports.

(** ** Every frame is accounted for *)

(** The counters of a session balance. *)
Definition balanced (s : FeedSessionStats) : Prop :=
  u64 (frames_parsed s) = u64 (parse_failures s + sink_callbacks_fired s).

Lemma count_frame_balanced ok s : balanced s -> balanced (count_frame ok s).
Proof.
  unfold balanced. intros H. destruct ok; cbn [count_frame frames_parsed parse_failures sink_callbacks_fired];
    unfold u64 at 1; rewrite wrap_wrap; fold (u64 (frames_parsed s + 1)).
  - rewrite (Z.add_comm (parse_failures s)), u64_add_l, <-u64_add_l, H, u64_add_l. f_equal. lia.
  - rewrite u64_add_l, <-u64_add_l, H, u64_add_l. f_equal. lia.
Qed.

(** Whatever arrives, on every protocol, each frame either reached the sink or
    was counted as a parse failure, and the sink was called exactly as often as
    the session says. *)
Theorem session_accounting protocol sd recvs :
  let '(f, n) := poll (fun _ _ (n : Z) => n +64 1) recvs (session_init protocol sd, 0) in
  balanced (session_stats f) /\ n = sink_callbacks_fired (session_stats f).
Proof.
  assert (forall f n, balanced (session_stats f) /\ n = sink_callbacks_fired (session_stats f) ->
    let '(f', n') := poll (fun _ _ (n : Z) => n +64 1) recvs (f, n) in
    balanced (session_stats f') /\ n' = sink_callbacks_fired (session_stats f')) as H.
  { induction recvs as [|[[|b d] ingest|] recvs IH]; intros f n H; try done. cbn [poll framer].
    set (f0 := mkSession _ _ _ _).
    assert (balanced (session_stats f0) /\ n = sink_callbacks_fired (session_stats f0)) as H0 by exact H.
    clearbody f0. clear H. generalize (frame (framer f) (b :: d)). intros frames. revert f0 n H0.
    induction frames as [|x frames IHf]; intros f0 n H0; [by apply IH|]. cbn [fold_left]. unfold on_frame at 2.
    destruct (parse_frame _ _ _ _) as [[ev|] p]; apply IHf; auto; destruct H0 as [Hb ->]; cbn [session_stats];
      (split; [by apply count_frame_balanced|done]). }
  apply H. done.
Qed.

(** ** From ITCH messages to events *)

(** One MoldUDP64 datagram: its session name, first sequence number, messages
    and arrival time. *)
Record ItchDatagram := mkItchDatagram {
  id_name : list Z; id_first : Z; id_messages : list (ItchHeader * ItchMessage); id_ingest : Z;
}.

Definition id_payloads (d : ItchDatagram) : list (list Z) :=
  map (fun hm => encode_itch hm.1 hm.2) (id_messages d).

Definition id_bytes (d : ItchDatagram) : list Z := mold_datagram (id_name d) (id_first d) (id_payloads d).

Record itch_datagram_ok (d : ItchDatagram) : Prop := {
  ido_name : length (id_name d) = 10%nat;
  ido_first : is_u 64 (id_first d);
  ido_count : Z.of_nat (length (id_messages d)) < 2 ^ 16;
  ido_messages : Forall (fun hm => is_u 48 (h_timestamp hm.1) /\ itch_message_ok hm.2) (id_messages d);
}.

(** The events of messages numbered from [first + i] on. *)
Fixpoint numbered_events (first : Z) (i : nat) (ingest : Z) (hms : list (ItchHeader * ItchMessage)) : list BookEvent :=
  match hms with
  | [] => []
  | (h, m) :: hms => itch_event h m (first +64 Z.of_nat i) ingest :: numbered_events first (Datatypes.S i) ingest hms
  end.

Definition id_events (d : ItchDatagram) : list BookEvent :=
  numbered_events (id_first d) 0 (id_ingest d) (id_messages d).

Lemma length_encode_itch h m : itch_message_ok m -> packable (encode_itch h m).
Proof.
  intros Hm. unfold packable, encode_itch. cbn [length]. rewrite !length_app, !length_be.
  destruct m; cbn [itch_body itch_message_ok] in *; destruct_and?; rewrite ?length_app, ?length_be;
    cbn [length]; rewrite ?length_app, ?length_be; simpl; lia.
Qed.

Lemma length_encode_deep m : deep_message_ok m -> packable (encode_deep m).
Proof.
  intros Hm. unfold packable. destruct m; cbn [encode_deep deep_message_ok app length] in *; destruct_and?;
    rewrite ?length_app, ?length_le_bytes; cbn [length]; simpl; lia.
Qed.

(** The sink that keeps what it is given. *)
Definition collect (_ : FeedSide) (ev : BookEvent) (out : list BookEvent) : list BookEvent := out ++ [ev].

Lemma frames_fold_events d first ingest hms : forall i frames f out ps,
  map (frame_payload d) frames = map (fun hm => encode_itch hm.1 hm.2) hms ->
  map fs_sequence frames = map (fun k => first +64 Z.of_nat k) (seq i (length hms)) ->
  Forall (fun hm => is_u 48 (h_timestamp hm.1) /\ itch_message_ok hm.2) hms ->
  parser f = ItchParser ps ->
  exists f' ps', fold_left (on_frame collect d ingest) frames (f, out)
      = (f', out ++ numbered_events first i ingest hms) /\
    framer f' = framer f /\ parser f' = ItchParser ps' /\ malformed_messages ps' = malformed_messages ps /\
    parse_failures (session_stats f') = parse_failures (session_stats f).
Proof.
  induction hms as [|[h m] hms IH]; intros i [|x frames] f out ps Hpay Hseq Hok Hp; try done.
  - exists f, ps. split; [cbn; by rewrite app_nil_r|]. done.
  - cbn [map length seq fst snd] in *. injection Hpay as Hx Hpay. injection Hseq as Hxs Hseq.
    apply Forall_cons in Hok as [[Hts Hm] Hok]. cbn [fold_left]. unfold on_frame at 2.
    rewrite Hp, Hx, Hxs. cbn [parse_frame].
    pose proof (itch_parse_encode h m [] (first +64 Z.of_nat i) ingest ps Hts Hm) as Hpe.
    rewrite app_nil_r in Hpe. rewrite Hpe. cbn [side_].
    edestruct (IH (Datatypes.S i) frames (mkSession (framer f) (side_ f) (ItchParser (count_type (itch_type m) ps))
      (count_frame true (session_stats f))) (out ++ [itch_event h m (first +64 Z.of_nat i) ingest])) as (f' & ps' & Hf & H1 & H2 & H3 & H4); [done..|].
    exists f', ps'. change (collect _ _ out) with (out ++ [itch_event h m (first +64 Z.of_nat i) ingest]).
    rewrite Hf, <-app_assoc. split; [done|]. split; [done|]. split; [done|].
    split; [by rewrite H3|by rewrite H4].
Qed.

Lemma numbered_frames d : itch_datagram_ok d ->
  let fs := frame NasdaqItch50 (id_bytes d) in
  map (frame_payload (id_bytes d)) fs = id_payloads d /\
  map fs_sequence fs = map (fun k => id_first d +64 Z.of_nat k) (seq 0 (length (id_messages d))).
Proof.
  intros [Hn Hf Hc Hm]. cbv zeta. unfold id_bytes.
  assert (length (id_payloads d) = length (id_messages d)) as Hl by (unfold id_payloads; apply length_map).
  rewrite frame_mold; [|done|done| |lia].
  2: { unfold id_payloads. apply Forall_map. eapply Forall_impl; [exact Hm|]. intros hm [_ H]. by apply length_encode_itch. }
  pose proof (packed_frames_payloads (id_first d) [] (id_payloads d)
    (id_name d ++ be 8 (id_first d) ++ be 2 (Z.of_nat (length (id_payloads d)))) 0) as [H1 H2].
  rewrite !length_app, !length_be, Hn in H1, H2. rewrite app_nil_r, <-!app_assoc in H1.
  change (10 + (8 + 2))%nat with 20%nat in *. rewrite Hl in H2. split; [exact H1|exact H2].
Qed.

(** From any state of a session. *)
Lemma itch_feed_from ds : Forall itch_datagram_ok ds -> forall f out ps, framer f = NasdaqItch50 -> parser f = ItchParser ps ->
  let '(f', out') := poll collect (map (fun d => RecvData (id_bytes d) (id_ingest d)) ds) (f, out) in
  out' = out ++ concat (map id_events ds) /\ parse_failures (session_stats f') = parse_failures (session_stats f) /\
  framer f' = NasdaqItch50 /\ exists ps', parser f' = ItchParser ps' /\ malformed_messages ps' = malformed_messages ps.
Proof.
  induction 1 as [|d ds Hd _ IH]; intros f out ps Hf Hp.
  { cbn. rewrite app_nil_r. eauto 6. }
  cbn [map poll concat]. pose proof (ido_name d Hd) as Hn.
  assert (id_bytes d <> []) as Hne.
  { intros E. apply (f_equal length) in E. unfold id_bytes, mold_datagram in E. rewrite length_app, Hn in E. done. }
  destruct (id_bytes d) as [|b rest] eqn:Eb; [done|]. rewrite <-Eb.
  set (f0 := mkSession _ _ _ _). destruct (numbered_frames d Hd) as [H1 H2].
  destruct (frames_fold_events (id_bytes d) (id_first d) (id_ingest d) (id_messages d) 0
    (frame NasdaqItch50 (id_bytes d)) f0 out ps) as (f' & ps' & Hfold & G1 & G2 & G3 & G4);
    [exact H1|exact H2|apply Hd|exact Hp|].
  subst f0. cbn [framer] in *. rewrite Hf in *. rewrite Hfold.
  specialize (IH f' (out ++ id_events d) ps' G1 G2). fold (id_events d).
  destruct (poll _ _ _) as [f2 out2]. destruct IH as (-> & E2 & E3 & ps2 & E4 & E5).
  split; [by rewrite <-app_assoc|]. split; [by rewrite E2, G4|]. split; [done|]. exists ps2. split; [done|]. by rewrite E5.
Qed.

(** A session hands its sink what it hands the sink that collects. *)
Section sinks.
Context {S : Type} (sink_cb : FeedSide -> BookEvent -> S -> S).

Lemma frames_collected d ingest frames sd : forall f s out, side_ f = sd ->
  let '(f', out') := fold_left (on_frame collect d ingest) frames (f, out) in
  fold_left (on_frame sink_cb d ingest) frames (f, fold_left (fun s e => sink_cb sd e s) out s)
  = (f', fold_left (fun s e => sink_cb sd e s) out' s).
Proof.
  induction frames as [|x frames IH]; intros f s out Hs; [done|]. cbn [fold_left]. unfold on_frame at 2 4.
  destruct (parse_frame _ _ _ _) as [[ev|] p]; [|by apply (IH _ s out)].
  rewrite Hs. specialize (IH (mkSession (framer f) sd p (count_frame true (session_stats f))) s (out ++ [ev]) eq_refl).
  rewrite fold_left_app in IH. exact IH.
Qed.

Lemma poll_collected recvs sd : forall f s out, side_ f = sd ->
  let '(f', out') := poll collect recvs (f, out) in
  poll sink_cb recvs (f, fold_left (fun s e => sink_cb sd e s) out s) = (f', fold_left (fun s e => sink_cb sd e s) out' s) /\ side_ f' = sd.
Proof.
  induction recvs as [|[[|b d] ingest|] recvs IH]; intros f s out Hs; try (by split). cbn [poll framer].
  set (f0 := mkSession _ _ _ _). assert (side_ f0 = sd) as Hs0 by exact Hs. clearbody f0.
  pose proof (frames_collected (b :: d) ingest (frame (framer f) (b :: d)) sd f0 s out Hs0) as H.
  assert (forall out, side_ (fold_left (on_frame collect (b :: d) ingest) (frame (framer f) (b :: d)) (f0, out)).1 = sd) as Hside.
  { clear H IH Hs. generalize (frame (framer f) (b :: d)). intros frames. revert f0 Hs0.
    induction frames as [|x frames IH]; intros f0 Hs0 o; [done|]. cbn [fold_left]. unfold on_frame at 2.
    destruct (parse_frame _ _ _ _) as [[ev|] p]; by apply IH. }
  specialize (Hside out). destruct (fold_left (on_frame collect _ _) _ _) as [f1 out1]. cbn [fst] in Hside. rewrite H. by apply IH.
Qed.
End sinks.

(** A feed of well-formed ITCH messages in MoldUDP64 datagrams reaches the sink
    as exactly their events, in order, each with the sequence number its place
    in its datagram gives it, and nothing is counted malformed or failed. *)
Theorem itch_feed_end_to_end ds sd :
  Forall itch_datagram_ok ds ->
  let '(f, out) := poll collect (map (fun d => RecvData (id_bytes d) (id_ingest d)) ds)
                     (session_init NasdaqItch50 sd, []) in
  out = concat (map id_events ds) /\ parse_failures (session_stats f) = 0 /\
  exists ps, parser f = ItchParser ps /\ malformed_messages ps = 0.
Proof.
  intros Hds. pose proof (itch_feed_from ds Hds (session_init NasdaqItch50 sd) [] parse_stats_init eq_refl eq_refl) as H.
  destruct (poll _ _ _) as [f out]. destruct H as (Ho & Hp & _ & Hps). by split_and!.
Qed.

Lemma itch_feed_end_to_end_witness :
  let d := mkItchDatagram (repeat 83 10) 41 [(mkItchHeader 1 2 3, ItchDelete 9); (mkItchHeader 1 2 4, ItchCancel 8 5)] 77 in
  let '(f, out) := poll collect [RecvData (id_bytes d) 77] (session_init NasdaqItch50 SideA, []) in
  out = concat (map id_events [d]) /\ parse_failures (session_stats f) = 0 /\
  exists ps, parser f = ItchParser ps /\ malformed_messages ps = 0.
Proof.
  intros d. apply (itch_feed_end_to_end [d] SideA). constructor; [|constructor].
  split; [done|unfold is_u; simpl; lia|simpl; lia|]. repeat constructor; unfold is_u; simpl; lia.
Defined.

(** On a PITCH feed the sequence number is the message's timestamp: messages of
    the same millisecond share it. *)
Example pitch_sequence_is_timestamp :
  let m id := encode_pitch 12345678 id (PitchCancel 5) in
  map fs_sequence (frame CboePitch (m 1 ++ [10] ++ m 2)) = [12345678; 12345678].
Proof. vm_compute. reflexivity. Qed.
