(* ===== verification/VenueFeeds.v ===== *)
(** * The feeds of the three venues, from bytes to events (src/wire/feed_session.cpp)

    What a session delivers of a well-formed feed in each protocol: ITCH
    messages in MoldUDP64 datagrams, DEEP+ messages in IEX-TP segments, PITCH
    messages in lines of text. Framing, parsing and polling are composed;
    [venue_feed_end_to_end] is the theorem, for all three. *)

From S2P Require Import Prelude Wire Types AbArbiter Itch Deep Pitch Framing FeedSession.

#[local] Open Scope list_scope.
#[local] Open Scope Z_scope.

(** ** Datagrams that deliver events *)

(** The parser belongs to the protocol. *)
Definition parser_of (protocol : WireProtocol) (p : ParserState) : Prop :=
  match protocol, p with
  | NasdaqItch50, ItchParser _ | IexDeep, DeepParser _ | CboePitch, PitchParser _ => True
  | _, _ => False
  end.

(** Whatever its statistics, the parser reads [e] from the payload. *)
Definition reads (protocol : WireProtocol) (payload : list Z) (seq ingest : Z) (e : BookEvent) : Prop :=
  forall p, parser_of protocol p -> exists p', parse_frame p payload seq ingest = (Some e, p') /\ parser_of protocol p'.

Definition delivers (protocol : WireProtocol) (d : list Z) (ingest : Z) (evs : list BookEvent) : Prop :=
  d <> [] /\ Forall2 (fun x e => reads protocol (frame_payload d x) (fs_sequence x) ingest e) (frame protocol d) evs.

Lemma frames_deliver protocol d ingest frames evs :
  Forall2 (fun x e => reads protocol (frame_payload d x) (fs_sequence x) ingest e) frames evs ->
  forall f out, parser_of protocol (parser f) ->
  exists f', fold_left (on_frame collect d ingest) frames (f, out) = (f', out ++ evs) /\ framer f' = framer f /\
    parser_of protocol (parser f') /\ parse_failures (session_stats f') = parse_failures (session_stats f).
Proof.
  induction 1 as [|x e frames evs Hx _ IH]; intros f out Hp; [exists f; by rewrite app_nil_r|].
  destruct (Hx _ Hp) as (p' & E & Hp'). cbn [fold_left]. unfold on_frame at 2. rewrite E.
  destruct (IH (mkSession (framer f) (side_ f) p' (count_frame true (session_stats f))) (out ++ [e]) Hp') as (f' & Hf & H1 & H2 & H3).
  exists f'. change (collect _ _ out) with (out ++ [e]). rewrite Hf, <-app_assoc. done.
Qed.

(** Polling datagrams that deliver events delivers them all, in order, and
    counts no failure. *)
Lemma poll_delivers protocol ds : Forall (fun de : list Z * Z * list BookEvent => delivers protocol de.1.1 de.1.2 de.2) ds ->
  forall f out, framer f = protocol -> parser_of protocol (parser f) ->
  let '(f', out') := poll collect (map (fun de => RecvData de.1.1 de.1.2) ds) (f, out) in
  out' = out ++ concat (map snd ds) /\ parse_failures (session_stats f') = parse_failures (session_stats f).
Proof.
  induction 1 as [|[[d ingest] evs] ds [Hne Hd] _ IH]; intros f out Hf Hp; [by cbn; rewrite app_nil_r|].
  cbn [map concat fst snd poll] in *. destruct d as [|b rest] eqn:Ed; [done|]. rewrite <-Ed in *. cbn [framer]. rewrite Hf.
  destruct (frames_deliver protocol d ingest (frame protocol d) evs Hd
    (mkSession protocol (side_ f) (parser f) (count_datagram (length d) (session_stats f))) out Hp) as (f' & -> & H1 & H2 & H3).
  specialize (IH f' (out ++ evs) H1 H2). destruct (poll _ _ _) as [f2 out2]. destruct IH as (-> & ->). by rewrite <-app_assoc.
Qed.

(** ** Numbered messages *)

(** The events of messages numbered from [first + i] on. *)
Fixpoint numbered {A} (event : A -> Z -> BookEvent) (first : Z) (i : nat) (ms : list A) : list BookEvent :=
  match ms with
  | [] => []
  | m :: ms => event m (first +64 Z.of_nat i) :: numbered event first (S i) ms
  end.

Lemma numbered_deliver {A} (encode : A -> list Z) (event : A -> Z -> BookEvent) protocol d ingest first ms :
  Forall (fun m => forall seq, reads protocol (encode m) seq ingest (event m seq)) ms -> forall frames i,
  map (frame_payload d) frames = map encode ms -> map fs_sequence frames = map (fun k => first +64 Z.of_nat k) (seq i (length ms)) ->
  Forall2 (fun x e => reads protocol (frame_payload d x) (fs_sequence x) ingest e) frames (numbered event first i ms).
Proof.
  induction 1 as [|m ms Hm _ IH].
  { intros frames i Hp _. apply map_eq_nil in Hp as ->. constructor. }
  intros [|x frames] i Hp Hs; [done|]. cbn [map length seq numbered] in *.
  injection Hp as Hx Hp. injection Hs as Hsx Hs. constructor; [by rewrite Hx, Hsx|by apply IH].
Qed.

(** ** MoldUDP64 *)

Lemma itch_reads hm seq ingest : is_u 48 (h_timestamp hm.1) -> itch_message_ok hm.2 ->
  reads NasdaqItch50 (encode_itch hm.1 hm.2) seq ingest (itch_event hm.1 hm.2 seq ingest).
Proof.
  intros Ht Hm [s| |] Hp; try done. cbn [parse_frame]. rewrite <-(app_nil_r (encode_itch _ _)), itch_parse_encode by done. by eexists.
Qed.

Lemma numbered_itch first ingest hms : forall i, numbered_events first i ingest hms = numbered (fun hm seq => itch_event hm.1 hm.2 seq ingest) first i hms.
Proof. induction hms as [|[h m] hms IH]; intros i; [done|]. cbn. by rewrite IH. Qed.

Lemma itch_datagram_delivers d : itch_datagram_ok d -> delivers NasdaqItch50 (id_bytes d) (id_ingest d) (id_events d).
Proof.
  intros Hd. pose proof (ido_name d Hd) as Hn. split.
  - intros E. apply (f_equal length) in E. unfold id_bytes, mold_datagram in E. rewrite length_app, Hn in E. done.
  - destruct (numbered_frames d Hd) as [H1 H2]. unfold id_events. rewrite numbered_itch.
    apply (numbered_deliver (fun hm => encode_itch hm.1 hm.2)); [|done|done].
    eapply Forall_impl; [apply Hd|]. intros hm [Ht Hm] seq. by apply itch_reads.
Qed.

(** ** IEX-TP *)

(** A segment: the eight bytes of version, protocol, channel and session, the
    stream offset and send time, the first sequence number, the messages, and
    bytes after the payload. *)
Record IexSegment := mkIexSegment {
  is_head : list Z; is_offset : list Z; is_first : Z; is_time : list Z; is_messages : list DeepMessage; is_pad : list Z; is_ingest : Z;
}.

Definition is_payload (s : IexSegment) : list Z := prefixed_all (map encode_deep (is_messages s)).

Definition is_bytes (s : IexSegment) : list Z :=
  is_head s ++ be 2 (Z.of_nat (length (is_payload s))) ++ be 2 (Z.of_nat (length (is_messages s))) ++ is_offset s ++ be 8 (is_first s) ++
  is_time s ++ is_payload s ++ is_pad s.

Record iex_segment_ok (s : IexSegment) : Prop := {
  iso_head : length (is_head s) = 8%nat; iso_offset : length (is_offset s) = 8%nat; iso_time : length (is_time s) = 8%nat;
  iso_first : is_u 64 (is_first s); iso_payload : Z.of_nat (length (is_payload s)) < 2 ^ 16;
  iso_messages : Forall deep_message_ok (is_messages s);
}.

Definition is_events (s : IexSegment) : list BookEvent := numbered (fun m seq => deep_event m seq (is_ingest s)) (is_first s) 0 (is_messages s).

Lemma deep_reads m seq ingest : deep_message_ok m -> reads IexDeep (encode_deep m) seq ingest (deep_event m seq ingest).
Proof. intros Hm [|s|] Hp; try done. cbn [parse_frame]. rewrite deep_parse_encode by done. by eexists. Qed.

Lemma frame_segment s : iex_segment_ok s -> frame IexDeep (is_bytes s) = packed_frames 36 0 (is_first s) (map encode_deep (is_messages s)).
Proof.
  intros [Hh Ho Ht Hf Hp Hm]. set (ms := map encode_deep (is_messages s)). set (n := Z.of_nat (length (is_payload s))) in *.
  set (c := Z.of_nat (length (is_messages s))). set (pre := is_head s ++ be 2 n ++ be 2 c ++ is_offset s ++ be 8 (is_first s) ++ is_time s).
  assert (Forall packable ms) as Hpk by (apply Forall_map; eapply Forall_impl; [exact Hm|]; intros m; apply length_encode_deep).
  assert (c <= n) as Hcn.
  { unfold n, c, is_payload. fold ms. pose proof (length_map encode_deep (is_messages s)) as E. fold ms in E. rewrite <-E. clear.
    induction ms as [|m ms IH]; [done|]. rewrite prefixed_all_cons, length_app, length_prefixed. cbn [length]. lia. }
  assert (is_bytes s = pre ++ prefixed_all ms ++ is_pad s) as E by (unfold pre, is_bytes; by rewrite <-!app_assoc).
  assert (length pre = 36%nat) as Hpre by (unfold pre; rewrite !length_app, !length_be, Hh, Ho, Ht; done).
  assert (be16_at (is_bytes s) 8 = n) as E8 by (unfold is_bytes; rewrite <-Hh; apply be16_at_be; unfold n in *; lia).
  assert (be16_at (is_bytes s) 10 = c) as E10.
  { assert (is_bytes s = (is_head s ++ be 2 n) ++ be 2 c ++ is_offset s ++ be 8 (is_first s) ++ is_time s ++ prefixed_all ms ++ is_pad s) as ->
      by (unfold is_bytes; by rewrite <-!app_assoc).
    replace 10%nat with (length (is_head s ++ be 2 n)) by (by rewrite length_app, length_be, Hh). apply be16_at_be. unfold n, c in *. lia. }
  assert (be64_at (is_bytes s) 20 = is_first s) as E20.
  { assert (is_bytes s = (is_head s ++ be 2 n ++ be 2 c ++ is_offset s) ++ be 8 (is_first s) ++ is_time s ++ prefixed_all ms ++ is_pad s) as ->
      by (unfold is_bytes; by rewrite <-!app_assoc).
    replace 20%nat with (length (is_head s ++ be 2 n ++ be 2 c ++ is_offset s)) by (by rewrite !length_app, !length_be, Hh, Ho). by apply be64_at_be. }
  unfold frame. rewrite E8, E10, E20. rewrite E, !length_app, Hpre. unfold n. rewrite !Nat2Z.id. change (length (is_payload s)) with (length (prefixed_all ms)).
  rewrite (proj2 (Nat.eqb_neq (36 + _) 0)), (proj2 (Nat.ltb_ge (36 + (_ + _)) 36)), (proj2 (Nat.ltb_ge (36 + (_ + _)) (36 + _))) by lia.
  unfold c. rewrite Nat2Z.id, <-(length_map encode_deep (is_messages s)). fold ms. rewrite <-Hpre at 2.
  rewrite prefixed_loop_packed by (done || lia). by rewrite Hpre.
Qed.

Lemma iex_segment_delivers s : iex_segment_ok s -> delivers IexDeep (is_bytes s) (is_ingest s) (is_events s).
Proof.
  intros Hs. pose proof Hs as [Hh Ho Ht Hf Hp Hm]. split.
  - intros E. apply (f_equal length) in E. unfold is_bytes in E. rewrite length_app, Hh in E. done.
  - rewrite frame_segment by done. set (n := Z.of_nat (length (is_payload s))).
    set (pre := is_head s ++ be 2 n ++ be 2 (Z.of_nat (length (is_messages s))) ++ is_offset s ++ be 8 (is_first s) ++ is_time s).
    assert (length pre = 36%nat) as Hpre by (unfold pre; rewrite !length_app, !length_be, Hh, Ho, Ht; done).
    assert (is_bytes s = pre ++ is_payload s ++ is_pad s) as E by (unfold pre, is_bytes; by rewrite <-!app_assoc).
    destruct (packed_frames_payloads (is_first s) (is_pad s) (map encode_deep (is_messages s)) pre 0) as [H1 H2].
    unfold is_payload in E. rewrite <-E, Hpre in H1. rewrite Hpre, length_map in H2.
    apply (numbered_deliver encode_deep); [|done|done]. eapply Forall_impl; [exact Hm|]. intros m Hmm seq. by apply deep_reads.
Qed.

(** ** PITCH lines *)

(** The time stamp in milliseconds, the order id and the message of a line; a
    datagram of lines, the last with its newline or without. *)
Definition PitchLine : Type := Z * Z * PitchMessage.
Definition pl_bytes (l : PitchLine) : list Z := encode_pitch l.1.1 l.1.2 l.2.

(** The session numbers a PITCH message with its time stamp. *)
Definition pl_event (ingest : Z) (l : PitchLine) : BookEvent := pitch_event l.1.1 l.1.2 l.2 l.1.1 ingest.

Record PitchDatagram := mkPitchDatagram { pd_lines : list PitchLine; pd_last : option PitchLine; pd_ingest : Z }.

Definition pd_bytes (d : PitchDatagram) : list Z := join_lines (map pl_bytes (pd_lines d)) (from_option pl_bytes [] (pd_last d)).
Definition pd_all (d : PitchDatagram) : list PitchLine := pd_lines d ++ option_list (pd_last d).
Definition pd_events (d : PitchDatagram) : list BookEvent := map (pl_event (pd_ingest d)) (pd_all d).

(** The letters of a message hold no newline. *)
Definition pitch_text (m : PitchMessage) : list Z :=
  match m with
  | PitchAddShort _ _ sym _ | PitchTradeShort _ _ sym _ _ | PitchTradeLong _ _ sym _ _ | PitchTradeExtended _ _ sym _ _ => sym
  | PitchAddLong _ _ sym _ participant | PitchAddExtended _ _ sym _ participant => sym ++ participant
  | PitchExecuted _ _ | PitchCancel _ => []
  end.

Definition pitch_line_ok (l : PitchLine) : Prop :=
  0 <= l.1.1 < 10 ^ 8 /\ 0 <= l.1.2 < 36 ^ 12 /\ pitch_message_ok l.2 /\ no_newline (pitch_text l.2).

Record pitch_datagram_ok (d : PitchDatagram) : Prop := {
  pdo_some : pd_all d <> [];
  pdo_lines : Forall pitch_line_ok (pd_all d);
}.

(** The number the framer reads from a line. *)
Definition line_seq (l : list Z) : Z := if (8 <=? length l)%nat then frame_ascii 0 (take 8 l) else 0.

Lemma line_frame_sequence d start i : (start <= i)%nat -> (i <= length d)%nat ->
  fs_sequence (line_frame d start i) = line_seq (frame_payload d (line_frame d start i)).
Proof.
  intros H1 H2. unfold line_seq, frame_payload. cbn [line_frame fs_sequence fs_off fs_len]. rewrite length_slice by lia.
  destruct (8 <=? i - start)%nat eqn:E; [|done]. apply Nat.leb_le in E. unfold slice. by rewrite take_take, Nat.min_l by lia.
Qed.

Lemma line_loop_sequences d rest : forall i start, (start <= i)%nat -> (i + length rest = length d)%nat ->
  Forall (fun x => fs_sequence x = line_seq (frame_payload d x)) (line_loop d rest i start).
Proof.
  induction rest as [|c rest IH]; intros i start H1 H2; cbn [line_loop length] in *.
  - destruct (_ <? _)%nat; repeat constructor. apply line_frame_sequence; lia.
  - destruct (negb _); [apply IH; lia|]. apply Forall_app. split; [|apply IH; lia].
    destruct (_ <? _)%nat; repeat constructor. apply line_frame_sequence; lia.
Qed.

(** The framer's reading of digits. *)
Lemma frame_ascii_digits n v : forall a, 0 <= a -> (a + 1) * 10 ^ Z.of_nat n <= 2 ^ 64 ->
  frame_ascii a (encode_digits 10 n v) = a * 10 ^ Z.of_nat n + v mod 10 ^ Z.of_nat n.
Proof.
  unfold encode_digits. induction n as [|n IH]; intros a Ha Hmax; [cbn; rewrite Z.mod_1_r; lia|].
  cbn [digits map frame_ascii]. set (d := (v / _) mod 10). assert (0 <= d < 10) as Hd by (apply Z.mod_pos_bound; lia).
  rewrite mod_pow_S by lia. fold d. rewrite Nat2Z.inj_succ, Z.pow_succ_r in * by lia.
  pose proof (Z.pow_pos_nonneg 10 (Z.of_nat n) ltac:(lia) ltac:(lia)). assert ((a + 1) * 10 <= 2 ^ 64) by nia.
  unfold digit_char. change (ch "0") with 48 in *. change (ch "9") with 57. replace (d <? 10) with true by lia.
  replace (48 + d <? 48) with false by lia. replace (48 + d >? 57) with false by lia. cbn [orb].
  rewrite (u64_small (a * 10)) by nia. rewrite u64_small by nia. rewrite IH by nia. nia.
Qed.

Lemma digits_no_newline radix n v : 0 < radix <= 36 -> no_newline (encode_digits radix n v).
Proof.
  intros Hr. unfold encode_digits. apply Forall_map, Forall_forall. intros d Hd%digits_range; [|lia]. unfold digit_char.
  change (ch "0") with 48. change (ch "A") with 65. destruct (_ <? _) eqn:E; lia.
Qed.

Lemma pl_bytes_no_newline l : pitch_line_ok l -> no_newline (pl_bytes l).
Proof.
  intros (_ & _ & _ & Ht). unfold pl_bytes, encode_pitch, no_newline. destruct l as [[ts id] m]. cbn [fst snd] in *.
  apply Forall_app_2; [by apply digits_no_newline|]. constructor; [by destruct m|]. apply Forall_app_2; [by apply digits_no_newline|].
  assert (forall s, pitch_side s <> 10) as Hside by (by intros []).
  destruct m; cbn [pitch_body pitch_text] in *; unfold no_newline in *; rewrite ?Forall_app in *; destruct_and?;
    split_and?; first [by apply digits_no_newline|done|by repeat constructor|by constructor; [apply Hside|constructor]].
Qed.

Lemma length_pl_bytes l : (8 <= length (pl_bytes l))%nat.
Proof. unfold pl_bytes, encode_pitch. rewrite length_app, length_encode_digits. lia. Qed.

Lemma pl_sequence l : pitch_line_ok l -> line_seq (pl_bytes l) = l.1.1.
Proof.
  intros (Hts & _). unfold line_seq. rewrite (proj2 (Nat.leb_le _ _) (length_pl_bytes l)).
  unfold pl_bytes, encode_pitch. rewrite take_app_length' by (by rewrite length_encode_digits). rewrite frame_ascii_digits by lia.
  rewrite Z.mul_0_l, Z.add_0_l. apply Z.mod_small. exact Hts.
Qed.

Lemma pitch_reads l ingest : pitch_line_ok l -> reads CboePitch (pl_bytes l) (line_seq (pl_bytes l)) ingest (pl_event ingest l).
Proof.
  intros Hl [| |s] Hp; try done. rewrite pl_sequence by done. destruct Hl as (Hts & Hid & Hm & _). cbn [parse_frame]. unfold pl_bytes.
  rewrite pitch_parse_encode by done. by eexists.
Qed.

Lemma lines_framed d : pitch_datagram_ok d -> map (frame_payload (pd_bytes d)) (frame CboePitch (pd_bytes d)) = map pl_bytes (pd_all d).
Proof.
  intros [_ Hl]. unfold pd_all in *. apply Forall_app in Hl as [Hl Hlast]. unfold pd_bytes. rewrite pitch_lines_round_trip.
  - assert (forall ls, List.filter has_bytes (map pl_bytes ls) = map pl_bytes ls) as Hall.
    { intros ls. induction ls as [|l ls IH]; [done|]. cbn [map List.filter]. pose proof (length_pl_bytes l). unfold has_bytes at 1.
      destruct (length (pl_bytes l)); [lia|]. cbn. by rewrite IH. }
    rewrite List.filter_app, Hall, map_app. f_equal. destruct (pd_last d) as [l|]; [|done]. exact (Hall [l]).
  - apply Forall_map. eapply Forall_impl; [exact Hl|]. apply pl_bytes_no_newline.
  - destruct (pd_last d) as [l|]; [|constructor]. apply pl_bytes_no_newline. by apply Forall_cons in Hlast as [? _].
Qed.

Lemma pitch_datagram_delivers d : pitch_datagram_ok d -> delivers CboePitch (pd_bytes d) (pd_ingest d) (pd_events d).
Proof.
  intros Hd. pose proof (lines_framed d Hd) as Hp. pose proof Hd as [Hs Hl]. set (b := pd_bytes d) in *. split.
  - intros E. rewrite E in Hp. cbn in Hp. symmetry in Hp. by apply map_eq_nil in Hp.
  - assert (Forall (fun x => fs_sequence x = line_seq (frame_payload b x)) (frame CboePitch b)) as Hq.
    { unfold frame. destruct (_ =? 0)%nat; [constructor|]. apply line_loop_sequences; lia. }
    unfold pd_events. clearbody b. revert Hp Hq Hl. generalize (frame CboePitch b). generalize (pd_all d).
    intros l. induction l as [|l ls IH]; intros frames Hp Hq Hl; [apply map_eq_nil in Hp as ->; constructor|]. destruct frames as [|x frames]; [done|]. cbn [map] in *. injection Hp as Hx Hp.
    apply Forall_cons in Hq as [Hqx Hq], Hl as [Hll Hl]. constructor; [|by apply IH]. rewrite Hqx, Hx. by apply pitch_reads.
Qed.

(** ** The three feeds *)

Inductive VenueDatagram := ItchFeed (d : ItchDatagram) | IexFeed (s : IexSegment) | PitchFeed (d : PitchDatagram).

Definition vd_protocol (v : VenueDatagram) : WireProtocol :=
  match v with ItchFeed _ => NasdaqItch50 | IexFeed _ => IexDeep | PitchFeed _ => CboePitch end.

Definition vd_ok (v : VenueDatagram) : Prop :=
  match v with ItchFeed d => itch_datagram_ok d | IexFeed s => iex_segment_ok s | PitchFeed d => pitch_datagram_ok d end.

Definition vd_recv (v : VenueDatagram) : list Z * Z :=
  match v with ItchFeed d => (id_bytes d, id_ingest d) | IexFeed s => (is_bytes s, is_ingest s) | PitchFeed d => (pd_bytes d, pd_ingest d) end.

Definition vd_events (v : VenueDatagram) : list BookEvent :=
  match v with ItchFeed d => id_events d | IexFeed s => is_events s | PitchFeed d => pd_events d end.

Lemma vd_delivers v : vd_ok v -> delivers (vd_protocol v) (vd_recv v).1 (vd_recv v).2 (vd_events v).
Proof. destruct v; [apply itch_datagram_delivers|apply iex_segment_delivers|apply pitch_datagram_delivers]. Qed.

(** C9. A feed of well-formed messages, of the types the parsers tell apart, reaches
    the sink as exactly their events, in order, and no failure is counted: ITCH messages in MoldUDP64 datagrams and
    DEEP+ messages in IEX-TP segments, numbered by their place from the first
    number of the datagram, and PITCH messages in lines, with or without a
    newline after the last, numbered by their time stamps. *)
Theorem venue_feed_end_to_end protocol vs sd : Forall (fun v => vd_protocol v = protocol /\ vd_ok v) vs ->
  let '(f, out) := poll collect (map (fun v => RecvData (vd_recv v).1 (vd_recv v).2) vs) (session_init protocol sd, []) in
  out = concat (map vd_events vs) /\ parse_failures (session_stats f) = 0.
Proof.
  intros Hvs. pose proof (poll_delivers protocol (map (fun v => (vd_recv v, vd_events v)) vs)) as H.
  rewrite !map_map in H. apply H; [|done|by destruct protocol].
  apply Forall_map. eapply Forall_impl; [exact Hvs|]. intros v [<- Hv]. by apply vd_delivers.
Qed.

Definition w_segment : IexSegment :=
  mkIexSegment [1; 1; 0; 1; 0; 0; 0; 1] (be 8 0) 41 (be 8 5) [DeepDelete 5 (chars "AAPL    ") 7; DeepSystem 79 6] [0] 90.

Lemma venue_feed_witness :
  let pitch := mkPitchDatagram [(1, 2, PitchCancel 5)] (Some (3, 4, PitchCancel 6)) 80 in
  (let '(f, out) := poll collect [RecvData (is_bytes w_segment) 90] (session_init IexDeep SideB, []) in
   out = is_events w_segment ++ [] /\ map sequence out = [41; 42] /\ parse_failures (session_stats f) = 0) /\
  (let '(f, out) := poll collect [RecvData (pd_bytes pitch) 80] (session_init CboePitch SideA, []) in
   out = pd_events pitch ++ [] /\ map sequence out = [1; 3] /\ parse_failures (session_stats f) = 0).
Proof.
  intros pitch. split.
  - pose proof (venue_feed_end_to_end IexDeep [IexFeed w_segment] SideB) as H. cbn [map vd_recv fst snd] in H.
    change (is_ingest w_segment) with 90 in H. destruct (poll _ _ _) as [f out]. destruct H as (-> & Hp); [|by split_and!].
    constructor; [|constructor]. split; [done|]. split; [done|done|done|unfold is_u; cbn; lia|reflexivity|].
    repeat constructor; try discriminate.
  - pose proof (venue_feed_end_to_end CboePitch [PitchFeed pitch] SideA) as H. cbn [map vd_recv fst snd] in H.
    change (pd_ingest pitch) with 80 in H. destruct (poll _ _ _) as [f out]. destruct H as (-> & Hp); [|by split_and!].
    constructor; [|constructor]. split; [done|]. split; [done|]. repeat constructor; try discriminate.
Defined.
