(* ===== verification/AfxdpReceiver.v ===== *)
(** * The AF_XDP receiver (src/transport/afxdp/receiver.cpp)

    A receiver shares with the kernel an area of fixed-size frames and two
    rings: through the fill ring it lends frames, through the receive ring the
    kernel hands them back filled with packets. [open] sets all this up, [recv]
    takes one packet, copies its UDP payload out and lends the frame again.

    The operating system is a parameter: what its calls answer during [open],
    the size of a page, and the memory it maps. The rings are mapped as the code
    does, with the length at which their entries begin; an access outside the
    pages that this maps gives no result. A configuration as large as the
    default one makes [open] leave them ([default_leaves_mapping]); whenever
    [open] returns, everything is held or everything is released. *)

From S2P Require Import Prelude Wire Types AbArbiter Itch Deep Pitch Framing FeedSession.

#[local] Open Scope list_scope.
#[local] Open Scope Z_scope.

(** ** State *)

Record AfxdpConfig := mkXdpConfig {
  cfg_ifname : list Z; cfg_ifindex : Z; cfg_queue_id : Z; cfg_frame_size : Z; cfg_frame_count : Z;
  cfg_bpf_obj_path : list Z; cfg_bpf_sec : list Z; cfg_bind_flags_copy : bool;
}.

Record AfxdpReceiverStats := mkXdpStats {
  frames_received : Z; xdp_bytes_received : Z; udp_payloads : Z; parse_skips : Z;
}.
Definition xdp_stats_init : AfxdpReceiverStats := mkXdpStats 0 0 0 0.

(** The member pointers: null, [MAP_FAILED] or a mapping of so many bytes. *)
Inductive Mapping := NullMap | FailedMap | Mapped (len : Z).

(** [xdp_ring_offset]: where in its mapping a ring has its counters and entries. *)
Record RingOffset := mkRingOff { ro_producer : Z; ro_consumer : Z; ro_desc : Z }.

Record Impl := mkImpl {
  i_cfg : AfxdpConfig; xsk_fd : Z; umem_area : Mapping; umem_size : Z; frame_size : Z; frame_count : Z;
  fill_prod : Z; rx_prod : Z; rx_cons : Z; fill_off : RingOffset; rx_off : RingOffset;
  fill_ring_map : Mapping; rx_ring_map : Mapping; xstats : AfxdpReceiverStats;
}.

Definition no_offset : RingOffset := mkRingOff 0 0 0.
Definition impl_init (cfg : AfxdpConfig) : Impl :=
  mkImpl cfg (-1) NullMap 0 0 0 0 0 0 no_offset no_offset NullMap NullMap xdp_stats_init.

Section setters.
Implicit Types im : Impl.
Definition set_cfg x im := mkImpl x (xsk_fd im) (umem_area im) (umem_size im) (frame_size im) (frame_count im) (fill_prod im) (rx_prod im) (rx_cons im) (fill_off im) (rx_off im) (fill_ring_map im) (rx_ring_map im) (xstats im).
Definition set_fd x im := mkImpl (i_cfg im) x (umem_area im) (umem_size im) (frame_size im) (frame_count im) (fill_prod im) (rx_prod im) (rx_cons im) (fill_off im) (rx_off im) (fill_ring_map im) (rx_ring_map im) (xstats im).
Definition set_umem x im := mkImpl (i_cfg im) (xsk_fd im) x (umem_size im) (frame_size im) (frame_count im) (fill_prod im) (rx_prod im) (rx_cons im) (fill_off im) (rx_off im) (fill_ring_map im) (rx_ring_map im) (xstats im).
Definition set_frames size fs fc im := mkImpl (i_cfg im) (xsk_fd im) (umem_area im) size fs fc (fill_prod im) (rx_prod im) (rx_cons im) (fill_off im) (rx_off im) (fill_ring_map im) (rx_ring_map im) (xstats im).
Definition set_counters fp rp rc im := mkImpl (i_cfg im) (xsk_fd im) (umem_area im) (umem_size im) (frame_size im) (frame_count im) fp rp rc (fill_off im) (rx_off im) (fill_ring_map im) (rx_ring_map im) (xstats im).
Definition set_fill_prod x im := set_counters x (rx_prod im) (rx_cons im) im.
Definition set_rx_prod x im := set_counters (fill_prod im) x (rx_cons im) im.
Definition set_rx_cons x im := set_counters (fill_prod im) (rx_prod im) x im.
Definition set_offsets f r im := mkImpl (i_cfg im) (xsk_fd im) (umem_area im) (umem_size im) (frame_size im) (frame_count im) (fill_prod im) (rx_prod im) (rx_cons im) f r (fill_ring_map im) (rx_ring_map im) (xstats im).
Definition set_rings f r im := mkImpl (i_cfg im) (xsk_fd im) (umem_area im) (umem_size im) (frame_size im) (frame_count im) (fill_prod im) (rx_prod im) (rx_cons im) (fill_off im) (rx_off im) f r (xstats im).
Definition set_xstats x im := mkImpl (i_cfg im) (xsk_fd im) (umem_area im) (umem_size im) (frame_size im) (frame_count im) (fill_prod im) (rx_prod im) (rx_cons im) (fill_off im) (rx_off im) (fill_ring_map im) (rx_ring_map im) x.
End setters.

(** [xdp_desc]: where a packet lies in the area, and its length. *)
Record XdpDesc := mkDesc { d_addr : Z; d_len : Z }.

(** The memory shared with the kernel: the area, and the rings with those of
    their counters that the program reads or writes. *)
Record Shared := mkShared {
  umem : Z -> Z; fill_ring : list Z; fill_producer : Z; rx_ring : list XdpDesc; rx_producer : Z; rx_consumer : Z;
}.

(** *** Accesses to the mapped rings *)

(** An access of [size] bytes at [off] ([None]: outside the mapping). *)
Definition in_map (m : Mapping) (off size : Z) : bool :=
  match m with Mapped len => (0 <=? off) && (off + size <=? len) | _ => false end.
Definition touch (m : Mapping) (off size : Z) : option () := if in_map m off size then Some () else None.

(** The pages that [mmap] maps for [len] bytes. *)
Definition mapped_len (page len : Z) : Z := (len + page - 1) / page * page.

(** A counter has 8 bytes, so has an entry of the fill ring; a descriptor has 16. *)
Definition word_bytes : Z := 8.
Definition desc_bytes : Z := 16.

(** The index of position [p]: [p & (frame_count - 1)]. *)
Definition ring_at (n p : Z) : nat := Z.to_nat (Z.land p (n -32 1)).

(** A store at position [p] of the fill ring ([None]: outside the mapping or
    the ring). *)
Definition ring_store (m : Mapping) (off : RingOffset) (n : Z) (ring : list Z) (p x : Z) : option (list Z) :=
  _ ← touch m (ro_desc off + word_bytes * Z.of_nat (ring_at n p)) word_bytes;
  if (ring_at n p <? length ring)%nat then Some (<[ring_at n p := x]> ring) else None.

(** ** Opening and closing *)

(** What is held from the operating system, a resource as often as it is held. *)
Inductive Resource := UmemArea | XdpSocket | FillRingMap | RxRingMap | BpfObject | BpfLink.
#[export] Instance Resource_eq_dec : EqDecision Resource.
Proof. solve_decision. Defined.

Fixpoint release (r : Resource) (held : list Resource) : list Resource :=
  match held with [] => [] | x :: held => if decide (x = r) then held else x :: release r held end.
Definition release_if (b : bool) (r : Resource) (held : list Resource) : list Resource := if b then release r held else held.

Definition is_mapped (m : Mapping) : bool := match m with Mapped _ => true | _ => false end.

Definition close (im : Impl) (held : list Resource) : Impl * list Resource :=
  let held := release_if (is_mapped (fill_ring_map im)) FillRingMap held in
  let held := release_if (is_mapped (rx_ring_map im)) RxRingMap held in
  let held := release_if (is_mapped (umem_area im)) UmemArea held in
  let held := release_if (0 <=? xsk_fd im) XdpSocket held in
  (im |> set_rings NullMap NullMap |> set_umem NullMap |> set_fd (-1), held).

Definition acquire (b : bool) (r : Resource) (held : list Resource) : list Resource := if b then r :: held else held.

(** [attach_xdp_redirect], by what its calls answer: the object opens, loads,
    has the program by its name or by its section, the program attaches, the
    map is found and updated. *)
Record AttachEnv := mkAttach {
  a_open : bool; a_load : bool; a_by_name : bool; a_by_sec : bool; a_link : bool; a_map : bool; a_update : bool;
}.

Definition attach_xdp_redirect (env : AttachEnv) (cfg : AfxdpConfig) (held : list Resource) : bool * list Resource :=
  if bool_decide (cfg_bpf_obj_path cfg = []) || (cfg_ifindex cfg <=? 0) then (false, held) else
  if negb (a_open env) then (false, held) else
  let held := BpfObject :: held in
  if negb (a_load env) then (false, release BpfObject held) else
  if negb (a_by_name env) && negb (a_by_sec env) then (false, release BpfObject held) else
  if negb (a_link env) then (false, release BpfObject held) else
  let held := BpfLink :: held in
  if negb (a_map env) then (false, release BpfObject (release BpfLink held)) else
  if negb (a_update env) then (false, release BpfObject (release BpfLink held)) else
  (true, held).

(** What the calls of [open] answer: whether they succeed, the offsets of the
    rings, the size of a page, and the memory of the rings as it is mapped. *)
Record OpenEnv := mkEnv {
  e_ifindex : Z; e_mmap_huge : bool; e_mmap : bool; e_socket : Z; e_umem_reg : bool;
  e_ring_opts : list (bool * Z); e_fill_off : option RingOffset; e_rx_off : option RingOffset;
  e_fill_map : bool; e_rx_map : bool; e_bind : bool; e_attach : AttachEnv; e_page : Z; e_shared : Shared;
}.

(** The frames lent at first: [i * frame_size] is a 32-bit product. *)
Fixpoint reserve_loop (n i : nat) (im : Impl) (ring : list Z) : option (Impl * list Z) :=
  match n with
  | O => Some (im, ring)
  | S n =>
      ring ← ring_store (fill_ring_map im) (fill_off im) (frame_count im) ring (fill_prod im) (u32 (Z.of_nat i * frame_size im));
      reserve_loop n (S i) (set_fill_prod (fill_prod im +64 1) im) ring
  end.

(** What [open] does to the rings once they are mapped: it reads their counters,
    lends the frames and publishes how far it got. *)
Definition start_rings (im : Impl) (sh : Shared) : option (Impl * Shared) :=
  _ ← touch (fill_ring_map im) (ro_producer (fill_off im)) word_bytes;
  _ ← touch (rx_ring_map im) (ro_producer (rx_off im)) word_bytes;
  _ ← touch (rx_ring_map im) (ro_consumer (rx_off im)) word_bytes;
  let im := set_counters (fill_producer sh) (rx_producer sh) (rx_consumer sh) im in
  '(im, ring) ← reserve_loop (Z.to_nat (frame_count im / 2)) 0 im (fill_ring sh);
  Some (im, mkShared (umem sh) ring (fill_prod im) (rx_ring sh) (rx_producer sh) (rx_consumer sh)).

(** The configuration with the index of its interface looked up. *)
Definition resolve_ifindex (found : Z) (cfg : AfxdpConfig) : AfxdpConfig :=
  if (cfg_ifindex cfg =? 0) && negb (bool_decide (cfg_ifname cfg = [])) then
    mkXdpConfig (cfg_ifname cfg) found (cfg_queue_id cfg) (cfg_frame_size cfg) (cfg_frame_count cfg)
      (cfg_bpf_obj_path cfg) (cfg_bpf_sec cfg) (cfg_bind_flags_copy cfg)
  else cfg.

(** [None]: an access outside the mapping of a ring. *)
Definition open (env : OpenEnv) (im : Impl) (held : list Resource) : option (bool * Impl * list Resource * Shared) :=
  let sh := e_shared env in
  let fail im held sh := let '(im, held) := close im held in Some (false, im, held, sh) in
  let '(im, held) := close im held in
  let cfg := resolve_ifindex (e_ifindex env) (i_cfg im) in
  let im := set_cfg cfg im in
  if cfg_ifindex cfg <=? 0 then Some (false, im, held, sh) else
  let im := set_frames (cfg_frame_size cfg * cfg_frame_count cfg) (cfg_frame_size cfg) (cfg_frame_count cfg) im in
  if negb (e_mmap_huge env || e_mmap env) then Some (false, set_umem NullMap im, held, sh) else
  let im := set_umem (Mapped (umem_size im)) im in let held := UmemArea :: held in
  let im := set_fd (e_socket env) im in let held := acquire (0 <=? e_socket env) XdpSocket held in
  if e_socket env <? 0 then fail im held sh else
  if negb (e_umem_reg env) then fail im held sh else
  if negb (forallb (fun o => o.1 && (0 <? o.2)) (e_ring_opts env)) then fail im held sh else
  match e_fill_off env with None => fail im held sh | Some fo =>
  match e_rx_off env with None => fail (set_offsets fo (rx_off im) im) held sh | Some ro =>
  let im := set_offsets fo ro im in
  let m (b : bool) len := if b then Mapped (mapped_len (e_page env) len) else FailedMap in
  let im := set_rings (m (e_fill_map env) (ro_desc fo)) (m (e_rx_map env) (ro_desc ro)) im in
  let held := acquire (e_rx_map env) RxRingMap (acquire (e_fill_map env) FillRingMap held) in
  if negb (e_fill_map env) || negb (e_rx_map env) then fail im held sh else
  '(im, sh) ← start_rings im sh;
  if negb (e_bind env) then fail im held sh else
  if bool_decide (cfg_bpf_obj_path cfg = []) then Some (true, im, held, sh) else
  let '(ok, held) := attach_xdp_redirect (e_attach env) cfg held in
  if ok then Some (true, im, held, sh) else fail im held sh
  end end.

(** ** Receiving *)

(** The three parts of [recv]: take a descriptor from the receive ring ([None]:
    outside the mapping or the ring; the result without a descriptor: nothing
    there) ... *)
Definition rx_take (im : Impl) (sh : Shared) : option (option XdpDesc * Impl * Shared) :=
  _ ← touch (rx_ring_map im) (ro_producer (rx_off im)) word_bytes;
  let im := set_rx_prod (rx_producer sh) im in
  if rx_cons im =? rx_prod im then Some (None, im, sh) else
  let idx := ring_at (frame_count im) (rx_cons im) in
  _ ← touch (rx_ring_map im) (ro_desc (rx_off im) + desc_bytes * Z.of_nat idx) desc_bytes;
  desc ← rx_ring sh !! idx;
  let im := set_rx_cons (rx_cons im +64 1) im in
  _ ← touch (rx_ring_map im) (ro_consumer (rx_off im)) word_bytes;
  Some (Some desc, im, mkShared (umem sh) (fill_ring sh) (fill_producer sh) (rx_ring sh) (rx_producer sh) (rx_cons im)).

Definition read_area (m : Z -> Z) (addr len : Z) : list Z := map m (seqZ addr len).

(** ... find the payload and copy it ([None]: outside the area); [now] is what
    the clock shows at the end ... *)
Definition rx_copy (buflen : nat) (now : Z) (im : Impl) (sh : Shared) (desc : XdpDesc) : option (Recv * Impl) :=
  if (0 <=? d_addr desc) && (d_addr desc + d_len desc <=? umem_size im) then
    let frame := read_area (umem sh) (d_addr desc) (d_len desc) in
    let s := xstats im in
    let s := mkXdpStats (frames_received s +64 1) (xdp_bytes_received s +64 d_len desc) (udp_payloads s) (parse_skips s) in
    match extract_udp_payload frame with
    | Some (off, S len) =>
        Some (RecvData (slice frame off (Nat.min buflen (S len))) now,
              set_xstats (mkXdpStats (frames_received s) (xdp_bytes_received s) (udp_payloads s +64 1) (parse_skips s)) im)
    | _ => Some (RecvNone, set_xstats (mkXdpStats (frames_received s) (xdp_bytes_received s) (udp_payloads s) (parse_skips s +64 1)) im)
    end
  else None.

(** ... and lend the frame again ([None]: outside the mapping or the ring). *)
Definition fill_return (im : Impl) (sh : Shared) (addr : Z) : option (Impl * Shared) :=
  ring ← ring_store (fill_ring_map im) (fill_off im) (frame_count im) (fill_ring sh) (fill_prod im) addr;
  let im := set_fill_prod (fill_prod im +64 1) im in
  _ ← touch (fill_ring_map im) (ro_producer (fill_off im)) word_bytes;
  Some (im, mkShared (umem sh) ring (fill_prod im) (rx_ring sh) (rx_producer sh) (rx_consumer sh)).

(** [recv] with a buffer of [buflen] bytes, not null. *)
Definition recv (buflen : nat) (now : Z) (im : Impl) (sh : Shared) : option (Recv * Impl * Shared) :=
  if (xsk_fd im <? 0) || (buflen =? 0)%nat then Some (RecvNone, im, sh) else
  '(d, im, sh) ← rx_take im sh;
  match d with
  | None => Some (RecvNone, im, sh)
  | Some desc =>
      '(r, im) ← rx_copy buflen now im sh desc;
      '(im, sh) ← fill_return im sh (d_addr desc);
      Some (r, im, sh)
  end.

(** ** Mappings *)

(** The counters lie in the pages mapped for [off], and so do [n] entries of
    [size] bytes. *)
Record counters_fit (page : Z) (off : RingOffset) : Prop := {
  cf_producer : 0 <= ro_producer off /\ ro_producer off + word_bytes <= mapped_len page (ro_desc off);
  cf_consumer : 0 <= ro_consumer off /\ ro_consumer off + word_bytes <= mapped_len page (ro_desc off);
}.
Definition entries_fit (page size n : Z) (off : RingOffset) : Prop :=
  0 <= ro_desc off /\ ro_desc off + size * n <= mapped_len page (ro_desc off).

Lemma touch_inside len off size : 0 <= off -> off + size <= len -> touch (Mapped len) off size = Some ().
Proof. intros ? ?. unfold touch, in_map. by rewrite (proj2 (Z.leb_le _ _)), (proj2 (Z.leb_le _ _)) by done. Qed.

Lemma touch_counters page off : counters_fit page off ->
  touch (Mapped (mapped_len page (ro_desc off))) (ro_producer off) word_bytes = Some () /\
  touch (Mapped (mapped_len page (ro_desc off))) (ro_consumer off) word_bytes = Some ().
Proof. intros [[] []]. split; by apply touch_inside. Qed.

Lemma touch_entry page size n off i : 0 <= size -> entries_fit page size n off -> Z.of_nat i < n ->
  touch (Mapped (mapped_len page (ro_desc off))) (ro_desc off + size * Z.of_nat i) size = Some ().
Proof. intros Hs [H0 H1] Hi. apply touch_inside; nia. Qed.

Lemma touch_bind {A} m off size (x : A) (k : option A) : (_ ← touch m off size; k) = Some x -> touch m off size = Some () /\ k = Some x.
Proof. unfold touch. by destruct (in_map m off size). Qed.

Lemma ring_at_bound n p : 0 < n < 2 ^ 32 -> Z.of_nat (ring_at n p) < n.
Proof.
  intros Hn. unfold ring_at. rewrite u32_small by lia. assert (0 <= Z.land p (n - 1)) by (apply Z.land_nonneg; lia).
  rewrite Z2Nat.id by done. assert (0 <= n - 1 - Z.land p (n - 1)); [|lia].
  rewrite Z.sub_nocarry_ldiff; [apply Z.ldiff_nonneg; lia|].
  apply Z.bits_inj'. intros b Hb. rewrite Z.ldiff_spec, Z.land_spec, Z.bits_0. by destruct (Z.testbit p b), (Z.testbit (n - 1) b).
Qed.

Section fill_ring.
Context (page n : Z) (off : RingOffset) (Hn : 0 <= n < 2 ^ 32) (Hfit : entries_fit page word_bytes n off).
Abbreviation fill_mapping := (Mapped (mapped_len page (ro_desc off))).

Lemma ring_store_ok ring p x : 0 < n -> n <= Z.of_nat (length ring) ->
  ring_store fill_mapping off n ring p x = Some (<[ring_at n p := x]> ring).
Proof using Hn Hfit.
  intros H0 Hr. pose proof (ring_at_bound n p ltac:(lia)). unfold ring_store.
  rewrite (touch_entry page word_bytes n off) by done. cbn [mbind option_bind]. by rewrite (proj2 (Nat.ltb_lt _ _)) by lia.
Qed.

(** The loop stays inside a ring that has an entry per frame, and touches the
    producer's position alone. *)
Lemma reserve_loop_ok m : forall i im ring, fill_ring_map im = fill_mapping -> fill_off im = off -> frame_count im = n ->
  0 < n -> n <= Z.of_nat (length ring) -> is_Some (reserve_loop m i im ring).
Proof using Hn Hfit.
  induction m as [|m IH]; intros i im ring Hm Ho Hc H0 Hr; [done|]. cbn [reserve_loop].
  rewrite Hm, Ho, Hc, ring_store_ok by done. cbn [mbind option_bind]. apply IH; [done..|]. by rewrite length_insert.
Qed.
End fill_ring.

(** The loop changes nothing but the producer's position. *)
Lemma reserve_loop_im m : forall i im ring im' ring', reserve_loop m i im ring = Some (im', ring') -> im' = set_fill_prod (fill_prod im') im.
Proof.
  induction m as [|m IH]; intros i im ring im' ring'; cbn [reserve_loop].
  - intros [= <- _]. by destruct im.
  - destruct (ring_store _ _ _ _ _ _) as [ring1|]; [|done]. cbn [mbind option_bind]. intros H. apply IH in H. by rewrite H at 1.
Qed.

(** ** Whatever happens, what was acquired is released *)

Definition of_receiver (r : Resource) : bool := match r with BpfObject | BpfLink => false | _ => true end.

(** The receiver's handles stand for what it holds. *)
Definition handle (im : Impl) (r : Resource) : bool :=
  match r with
  | UmemArea => is_mapped (umem_area im)
  | XdpSocket => 0 <=? xsk_fd im
  | FillRingMap => is_mapped (fill_ring_map im)
  | RxRingMap => is_mapped (rx_ring_map im)
  | BpfObject | BpfLink => false
  end.

(** How often a resource is held. *)
Fixpoint occ (r : Resource) (held : list Resource) : nat :=
  match held with [] => 0 | x :: held => Nat.b2n (bool_decide (x = r)) + occ r held end.

Definition consistent (im : Impl) (held : list Resource) : Prop :=
  forall r, of_receiver r = true -> occ r held = Nat.b2n (handle im r).

Lemma occ_release r x held : occ r (release x held) = (occ r held - Nat.b2n (bool_decide (x = r)))%nat.
Proof.
  induction held as [|y held IH]; [done|]. cbn [release occ]. destruct (decide (y = x)) as [->|Hy]; [lia|].
  cbn [occ]. rewrite IH. repeat case_bool_decide; subst; try done; cbn; lia.
Qed.

Lemma occ_release_if r b x held : occ r (release_if b x held) = (occ r held - Nat.b2n (b && bool_decide (x = r)))%nat.
Proof. destruct b; [apply occ_release|]. cbn. lia. Qed.

Lemma occ_acquire r b x held : occ r (acquire b x held) = (Nat.b2n (b && bool_decide (x = r)) + occ r held)%nat.
Proof. by destruct b. Qed.

(** Closing releases everything the receiver holds, and nothing else. *)
Lemma close_releases im held im' held' : consistent im held -> close im held = (im', held') ->
  i_cfg im' = i_cfg im /\ forall r, handle im' r = false /\ occ r held' = if of_receiver r then 0%nat else occ r held.
Proof.
  intros Hc. unfold close. intros [= <- <-]. split; [done|]. intros r. split; [by destruct r|].
  rewrite !occ_release_if. specialize (Hc r). destruct r; cbn in Hc |- *; rewrite ?Hc by done; rewrite ?andb_true_r, ?andb_false_r; cbn; lia.
Qed.

(** What [open] leaves in the receiver's hands: on success every resource once,
    with its handle, and on failure none; and of the programs attached to the
    interface what was there before, and one more when one is configured and
    [open] succeeds. *)
Definition settled (bpf : bool) (held0 : list Resource) (ok : bool) (im : Impl) (held : list Resource) : Prop :=
  forall r, if of_receiver r then handle im r = ok /\ occ r held = Nat.b2n ok
            else occ r held = (occ r held0 + Nat.b2n (ok && bpf))%nat.

(** A state [open] may be in: consistent, no program added or lost yet. *)
Definition opening (held0 : list Resource) (im : Impl) (held : list Resource) : Prop :=
  consistent im held /\ forall r, of_receiver r = false -> occ r held = occ r held0.

(** Any failure closes such a state. *)
Lemma opening_fails bpf held0 im held im' held' : opening held0 im held -> close im held = (im', held') -> settled bpf held0 false im' held'.
Proof.
  intros [Hc Hb] E r. destruct (close_releases _ _ _ _ Hc E) as [_ H]. destruct (H r) as [Hh Ho]. specialize (Hb r).
  destruct (of_receiver r); [by split|]. rewrite Ho, Hb by done. cbn. lia.
Qed.

Lemma attach_spec env cfg held ok held' : attach_xdp_redirect env cfg held = (ok, held') ->
  forall r, occ r held' = (occ r held + Nat.b2n (ok && negb (of_receiver r)))%nat.
Proof.
  unfold attach_xdp_redirect. destruct (_ || _); [intros [= <- <-] r; cbn; lia|].
  destruct (negb (a_open env)); [intros [= <- <-] r; cbn; lia|]. cbv zeta.
  repeat match goal with |- context [if negb ?b then _ else _] => destruct (negb b) | |- context [if ?a && ?b then _ else _] => destruct (a && b) end;
    intros [= <- <-] r; rewrite ?occ_release; cbn [occ]; destruct r; repeat case_bool_decide; try done; cbn; lia.
Qed.

(** A first-time or closed receiver that has its area and its socket ... *)
Lemma opening_socket held0 im held len fd :
  (forall r, handle im r = false) -> (forall r, occ r held = if of_receiver r then 0%nat else occ r held0) ->
  opening held0 (set_fd fd (set_umem (Mapped len) im)) (acquire (0 <=? fd) XdpSocket (UmemArea :: held)).
Proof.
  intros Hh Ho. split; intros r Hof; rewrite occ_acquire; cbn [occ]; rewrite Ho; pose proof (Hh r) as Hr;
    destruct r; try done; repeat case_bool_decide; try done; cbn in *; rewrite ?andb_true_r, ?andb_false_r; try rewrite Hr; cbn; lia.
Qed.

(** ... and that has mapped its rings. *)
Lemma opening_rings held0 im held fo ro (bf br : bool) mf mr :
  opening held0 im held -> handle im FillRingMap = false -> handle im RxRingMap = false ->
  is_mapped mf = bf -> is_mapped mr = br ->
  opening held0 (set_rings mf mr (set_offsets fo ro im)) (acquire br RxRingMap (acquire bf FillRingMap held)).
Proof.
  intros [Hc Hb] Hf Hr <- <-. split; intros r Hof; rewrite !occ_acquire.
  - rewrite (Hc r Hof). destruct r; try done; repeat case_bool_decide; try done; cbn in *; rewrite ?andb_true_r, ?andb_false_r; try rewrite Hf; try rewrite Hr; cbn; lia.
  - rewrite <-(Hb r Hof). destruct r; try done; repeat case_bool_decide; try done; cbn; by rewrite ?andb_false_r.
Qed.

Lemma start_rings_handles im sh im' sh' : start_rings im sh = Some (im', sh') ->
  exists fp rp rc, im' = set_counters fp rp rc im.
Proof.
  unfold start_rings. intros H. do 3 (apply touch_bind in H as [_ H]). cbv zeta in H.
  destruct (reserve_loop _ _ _ _) as [[im1 ring]|] eqn:E; [|done]. injection H as <- _. apply reserve_loop_im in E. rewrite E.
  by eexists _, _, _.
Qed.

(** The counters and the entries of the mapped rings can be reached. *)
Lemma start_rings_total page im sh :
  fill_ring_map im = Mapped (mapped_len page (ro_desc (fill_off im))) -> rx_ring_map im = Mapped (mapped_len page (ro_desc (rx_off im))) ->
  counters_fit page (fill_off im) -> counters_fit page (rx_off im) -> entries_fit page word_bytes (frame_count im) (fill_off im) ->
  is_u 32 (frame_count im) -> frame_count im <= Z.of_nat (length (fill_ring sh)) -> is_Some (start_rings im sh).
Proof.
  intros Hf Hr Hcf Hcr He Hn Hl. destruct (touch_counters _ _ Hcf) as [Ep _]. destruct (touch_counters _ _ Hcr) as [Erp Erc].
  unfold start_rings. rewrite Hf, Hr, Ep, Erp, Erc. cbn [mbind option_bind]. cbv zeta. unfold is_u in Hn. set (im1 := set_counters _ _ _ im).
  assert (is_Some (reserve_loop (Z.to_nat (frame_count im1 / 2)) 0 im1 (fill_ring sh))) as [[im2 ring] ->]; [|done].
  change (frame_count im1) with (frame_count im). destruct (decide (frame_count im = 0)) as [E|E]; [by rewrite E|].
  apply (reserve_loop_ok page (frame_count im) (fill_off im)); try done; lia.
Qed.

Lemma fail_settled bpf held0 im held (sh : Shared) ok im' held' sh' : opening held0 im held ->
  (let '(im, held) := close im held in Some (false, im, held, sh)) = Some (ok, im', held', sh') -> settled bpf held0 ok im' held'.
Proof. intros Hop. destruct (close im held) as [im1 held1] eqn:E. intros [= <- <- <- _]. by eapply opening_fails. Qed.

Lemma settled_closed bpf held0 im held : (forall r, handle im r = false) ->
  (forall r, occ r held = if of_receiver r then 0%nat else occ r held0) -> settled bpf held0 false im held.
Proof. intros Hh Ho r. rewrite Ho. destruct (of_receiver r); [by split|]. cbn. lia. Qed.

Lemma resolve_path found cfg : cfg_bpf_obj_path (resolve_ifindex found cfg) = cfg_bpf_obj_path cfg.
Proof. unfold resolve_ifindex. by destruct (_ && _). Qed.

Lemma resolve_size found cfg : cfg_frame_size (resolve_ifindex found cfg) = cfg_frame_size cfg.
Proof. unfold resolve_ifindex. by destruct (_ && _). Qed.

Lemma resolve_count found cfg : cfg_frame_count (resolve_ifindex found cfg) = cfg_frame_count cfg.
Proof. unfold resolve_ifindex. by destruct (_ && _). Qed.

(** Once both rings are mapped only the binding and the program can fail. *)
Lemma bound_settled (env : OpenEnv) cfg held0 im held (sh : Shared) ok im' held' sh' :
  opening held0 im held -> (forall r, of_receiver r = true -> handle im r = true) ->
  (let fail im held sh := let '(im, held) := close im held in Some (false, im, held, sh) in
   if negb (e_bind env) then fail im held sh else
   if bool_decide (cfg_bpf_obj_path cfg = []) then Some (true, im, held, sh) else
   let '(ok, held) := attach_xdp_redirect (e_attach env) cfg held in
   if ok then Some (true, im, held, sh) else fail im held sh) = Some (ok, im', held', sh') ->
  settled (negb (bool_decide (cfg_bpf_obj_path cfg = []))) held0 ok im' held'.
Proof.
  intros Hop Hall. cbv zeta. destruct (negb (e_bind env)); [by apply fail_settled|]. destruct (bool_decide _).
  - intros [= <- <- <- _]. destruct Hop as [Hc Hb]. intros r. specialize (Hc r). specialize (Hb r). specialize (Hall r).
    destruct (of_receiver r); [by rewrite Hc, Hall|]. rewrite Hb by done. cbn. lia.
  - destruct (attach_xdp_redirect _ _ _) as [ok1 held1] eqn:Ea. pose proof (attach_spec _ _ _ _ _ Ea) as Ha. destruct ok1.
    + intros [= <- <- <- _]. destruct Hop as [Hc Hb]. intros r. rewrite (Ha r). specialize (Hc r). specialize (Hb r). specialize (Hall r).
      destruct (of_receiver r); [rewrite Hc, Hall by done; by split|]. by rewrite Hb by done.
    + apply fail_settled. destruct Hop as [Hc Hb]. split; intros r Hr; rewrite (Ha r); cbn; rewrite Nat.add_0_r; auto.
Qed.

Lemma open_settled env im held ok im' held' sh' : consistent im held -> open env im held = Some (ok, im', held', sh') ->
  settled (negb (bool_decide (cfg_bpf_obj_path (i_cfg im) = []))) held ok im' held'.
Proof.
  intros Hc. unfold open. destruct (close im held) as [im0 held0] eqn:E0. destruct (close_releases _ _ _ _ Hc E0) as [Hcfg H0].
  rewrite Hcfg, <-(resolve_path (e_ifindex env) (i_cfg im)). set (cfg := resolve_ifindex _ _). cbv zeta.
  assert (forall r, handle im0 r = false) as Hh by apply H0.
  assert (forall r, occ r held0 = if of_receiver r then 0%nat else occ r held) as Ho by apply H0.
  clearbody cfg. clear Hc E0 Hcfg H0. destruct (cfg_ifindex cfg <=? 0); [intros [= <- <- <- _]; by apply settled_closed|].
  set (im1 := set_frames _ _ _ _). assert (forall r, handle im1 r = false) as Hh1 by exact Hh. clearbody im1. clear Hh.
  destruct (negb (_ || _)).
  { intros [= <- <- <- _]. apply settled_closed; [|done]. intros r. by destruct r; try apply (Hh1 XdpSocket); try apply (Hh1 FillRingMap); try apply (Hh1 RxRingMap). }
  set (im2 := set_fd _ _). set (held2 := acquire _ _ _). assert (opening held im2 held2) as H2 by by apply opening_socket.
  assert ((0 <=? e_socket env) = handle im2 XdpSocket) as Hfd by done. assert (handle im2 UmemArea = true) as Hum by done.
  assert (handle im2 FillRingMap = false /\ handle im2 RxRingMap = false) as [Hf Hr] by (split; [apply (Hh1 FillRingMap)|apply (Hh1 RxRingMap)]).
  clearbody im2 held2. destruct (e_socket env <? 0) eqn:Efd; [by apply fail_settled|].
  do 2 (match goal with |- context [if negb ?b then _ else _] => destruct (negb b); [by apply fail_settled|] end).
  destruct (e_fill_off env) as [fo|]; [|by apply fail_settled]. destruct (e_rx_off env) as [ro|]; [|by apply fail_settled].
  set (im3 := set_rings _ _ _). set (held3 := acquire _ RxRingMap _).
  assert (opening held im3 held3) as H3 by (apply opening_rings; try done; by destruct (e_fill_map env), (e_rx_map env)).
  destruct (e_fill_map env) eqn:Ef, (e_rx_map env) eqn:Er; cbn [negb orb]; try by apply fail_settled.
  destruct (start_rings im3 _) as [[im4 sh4]|] eqn:Es; [|done]. cbn [mbind option_bind].
  apply start_rings_handles in Es as (fp & rp & rc & ->). apply bound_settled; [exact H3|].
  intros [] Hof; try done; cbn in *. rewrite <-Hfd. apply Z.leb_le. lia.
Qed.

(** The pages mapped for the rings hold their counters and the entries of the
    fill ring, one per frame. *)
Definition fill_reachable (env : OpenEnv) (count : Z) : Prop :=
  (forall fo, e_fill_off env = Some fo -> counters_fit (e_page env) fo /\ entries_fit (e_page env) word_bytes count fo) /\
  (forall ro, e_rx_off env = Some ro -> counters_fit (e_page env) ro) /\
  count <= Z.of_nat (length (fill_ring (e_shared env))).

Lemma open_total env im held : is_u 32 (cfg_frame_count (i_cfg im)) -> fill_reachable env (cfg_frame_count (i_cfg im)) ->
  is_Some (open env im held).
Proof.
  intros Hn (Hfo & Hro & Hl). unfold open. destruct (close im held) as [im0 held0] eqn:E0.
  assert (i_cfg im0 = i_cfg im) as Hcfg by (unfold close in E0; by injection E0 as <- _).
  assert (forall im held (sh : Shared), is_Some (let '(im, held) := close im held in Some (false, im, held, sh))) as Hfail
    by (intros ? ? ?; by destruct (close _ _)).
  rewrite Hcfg. rewrite <-(resolve_count (e_ifindex env) (i_cfg im)) in Hn, Hfo, Hl. set (cfg := resolve_ifindex _ _) in *. cbv zeta. clearbody cfg.
  destruct (cfg_ifindex cfg <=? 0); [done|]. destruct (negb (_ || _)); [done|]. destruct (e_socket env <? 0); [apply Hfail|].
  do 2 (match goal with |- context [if negb ?b then _ else _] => destruct (negb b); [apply Hfail|] end).
  destruct (e_fill_off env) as [fo|]; [|apply Hfail]. destruct (e_rx_off env) as [ro|]; [|apply Hfail].
  destruct (Hfo fo eq_refl) as [Hcf He]. pose proof (Hro ro eq_refl) as Hcr.
  destruct (e_fill_map env), (e_rx_map env); cbn [negb orb]; try apply Hfail.
  destruct (start_rings _ _) as [[im4 sh4]|] eqn:Es; cbn [mbind option_bind].
  - destruct (negb (e_bind env)); [apply Hfail|]. case_bool_decide; [done|].
    destruct (attach_xdp_redirect _ _ _) as [[] held4]; [done|apply Hfail].
  - exfalso. eapply eq_None_not_Some; [exact Es|]. by apply (start_rings_total (e_page env)).
Qed.

(** C38. Opening is all or nothing. Whatever the system calls answer, whatever
    was open before and whatever program an earlier call left attached: if
    [open] returns, then on success the receiver holds the area, the socket and
    both rings exactly once, with their handles, and one more program when one
    is configured; on failure it holds none of them, no handle is left, and the
    programs attached before are still held, none added and none lost. And it
    returns whenever the pages mapped for the rings hold their counters and a
    fill entry per frame, which the code does not see to (it maps the rings up
    to where their entries begin). *)
Theorem open_all_or_nothing env im held : consistent im held ->
  (forall (ok : bool) im' held' sh', open env im held = Some (ok, im', held', sh') ->
     settled (negb (bool_decide (cfg_bpf_obj_path (i_cfg im) = []))) held ok im' held') /\
  (is_u 32 (cfg_frame_count (i_cfg im)) -> fill_reachable env (cfg_frame_count (i_cfg im)) -> is_Some (open env im held)).
Proof. intros Hc. split; [intros ok im' held' sh'; by apply open_settled|apply open_total]. Qed.

(** ** On concrete answers *)

Definition witness_cfg : AfxdpConfig := mkXdpConfig [118; 101; 116; 104; 49] 0 0 64 4 [] [] true.
Definition witness_off : RingOffset := mkRingOff 0 64 320.
Definition witness_answers (shared : Shared) : OpenEnv :=
  mkEnv 7 false true 5 true [(true, 1); (true, 1); (true, 1); (true, 1)] (Some witness_off) (Some witness_off) true true true
    (mkAttach true true true true true true true) 4096 shared.
Definition witness_env : OpenEnv :=
  witness_answers (mkShared (fun _ => 0) [0; 0; 0; 0] 0 [mkDesc 0 0; mkDesc 0 0; mkDesc 0 0; mkDesc 0 0] 0 0).

(** A program of an earlier call is still attached; nothing else is open. *)
Lemma open_all_or_nothing_witness :
  match open witness_env (impl_init witness_cfg) [BpfObject; BpfLink] with
  | Some (ok, im', held', _) => settled false [BpfObject; BpfLink] ok im' held'
  | None => False
  end.
Proof.
  assert (consistent (impl_init witness_cfg) [BpfObject; BpfLink]) as Hc by (by intros []).
  destruct (open_all_or_nothing witness_env (impl_init witness_cfg) [BpfObject; BpfLink] Hc) as [Ho Ht].
  destruct (open witness_env (impl_init witness_cfg) [BpfObject; BpfLink]) as [[[[ok im'] held'] sh']|]; [by apply (Ho ok im' held' sh')|].
  destruct Ht as [? Ht]; [by apply (bool_decide_unpack _); vm_compute| |by inversion Ht].
  split; [|split; [|done]]; intros off [= <-]; [split|]; by split.
Defined.

(** Both rings mapped and two frames lent; a socket that cannot bind leaves nothing. *)
Example open_works :
  match open witness_env (impl_init witness_cfg) [] with
  | Some (ok, im, held, sh) => (ok, held, fill_ring sh, fill_producer sh) = (true, [RxRingMap; FillRingMap; XdpSocket; UmemArea], [0; 64; 0; 0], 2)
  | None => False
  end.
Proof. reflexivity. Qed.

(** The default configuration: 4096 frames, whose fill entries do not lie in
    the one page that is mapped for a header of 320 bytes. [open] leaves the
    mapping before it returns. *)
Definition default_cfg : AfxdpConfig := mkXdpConfig [118; 101; 116; 104; 49] 0 0 4096 4096 [] [120; 100; 112] true.

Example default_leaves_mapping :
  open (witness_answers (mkShared (fun _ => 0) (replicate 4096 0) 0 (replicate 4096 (mkDesc 0 0)) 0 0)) (impl_init default_cfg) [] = None.
Proof. vm_compute. reflexivity. Qed.
