(* ===== verification/AfxdpCustody.v ===== *)
(** * Frames in custody: the AF_XDP receiver and the kernel

    The receiver of AfxdpReceiver.v and the kernel as one step relation over
    the memory they share. A call of [recv] is three steps (take, copy, lend
    again), between which the kernel may do anything the AF_XDP documentation
    allows: take frames from the fill ring, write into the frames it has, and
    hand them over through the receive ring. Every lent frame is in exactly one
    place at every moment, and what was received is what the kernel delivered.

    Two things are assumed that the code never sets up: that the rings of the
    kernel have an entry per frame ([fresh]; the code sets no ring size), and,
    for the accesses to be good ones, that these entries lie in the pages the
    code maps for the rings' headers ([rings_fit]; with the default
    configuration they do not, [AfxdpReceiver.default_leaves_mapping]). *)

From S2P Require Import Prelude Wire Types AbArbiter Itch Deep Pitch Framing FeedSession AfxdpReceiver.

#[local] Open Scope list_scope.
#[local] Open Scope Z_scope.

(** ** Windows of a ring *)

(** From position [start] on, the ring holds [l]. *)
Definition window {A} (n : Z) (ring : list A) (start : Z) (l : list A) : Prop :=
  forall j x, l !! j = Some x -> ring !! ring_at n (start + Z.of_nat j) = Some x.

Section windows.
Context {A : Type} (k : Z) (Hk : 0 <= k <= 31).
Implicit Types (ring l : list A).

Lemma ring_at_mod p : ring_at (2 ^ k) p = Z.to_nat (p mod 2 ^ k).
Proof using Hk.
  unfold ring_at. assert (0 < 2 ^ k <= 2 ^ 31) as H by (split; [lia|apply Z.pow_le_mono_r; lia]).
  rewrite u32_small by lia. replace (2 ^ k - 1) with (Z.ones k) by (rewrite Z.ones_equiv; lia).
  by rewrite Z.land_ones by lia.
Qed.

(** A position may be kept at 32 bits. *)
Lemma ring_at_u32 p : ring_at (2 ^ k) (u32 p) = ring_at (2 ^ k) p.
Proof using Hk.
  rewrite !ring_at_mod. f_equal. unfold u32, wrap.
  replace (2 ^ 32) with (2 ^ k * 2 ^ (32 - k)) by (rewrite <-Z.pow_add_r by lia; f_equal; lia).
  rewrite Z.rem_mul_r by lia. by rewrite Z.mul_comm, Z_mod_plus_full, Z.mod_mod by lia.
Qed.

Lemma ring_at_cong p q : u32 p = u32 q -> ring_at (2 ^ k) p = ring_at (2 ^ k) q.
Proof using Hk. intros E. by rewrite <-(ring_at_u32 p), E, ring_at_u32. Qed.

Lemma ring_at_lt p : Z.of_nat (ring_at (2 ^ k) p) < 2 ^ k.
Proof using Hk. rewrite ring_at_mod. pose proof (Z.mod_pos_bound p (2 ^ k) ltac:(lia)). lia. Qed.

(** Positions closer than the size of the ring do not meet. *)
Lemma ring_at_distinct i j : i < j -> j - i < 2 ^ k -> ring_at (2 ^ k) i <> ring_at (2 ^ k) j.
Proof using Hk.
  intros Hij Hj. rewrite !ring_at_mod. intros E.
  pose proof (Z.mod_pos_bound i (2 ^ k) ltac:(lia)). pose proof (Z.mod_pos_bound j (2 ^ k) ltac:(lia)).
  apply Z2Nat.inj in E; [|lia|lia].
  assert ((j - i) mod 2 ^ k = 0) as H1 by (by rewrite Zminus_mod, E, Z.sub_diag).
  rewrite Z.mod_small in H1 by lia. lia.
Qed.

Lemma window_nil n ring start : window n ring start [].
Proof. intros j x. by rewrite lookup_nil. Qed.

Lemma window_head n ring start x l : window n ring start (x :: l) -> ring !! ring_at n start = Some x.
Proof. intros H. specialize (H 0%nat x eq_refl). by rewrite Z.add_0_r in H. Qed.

Lemma window_tail n ring start x l : window n ring start (x :: l) -> window n ring (start + 1) l.
Proof. intros H j y Hj. replace (start + 1 + Z.of_nat j) with (start + Z.of_nat (S j)) by lia. by apply H. Qed.

Lemma window_cong ring start start' l : u32 start = u32 start' -> window (2 ^ k) ring start l -> window (2 ^ k) ring start' l.
Proof using Hk.
  intros E H j y Hj. rewrite (ring_at_cong _ (start + Z.of_nat j)); [by apply H|]. by rewrite <-u32_add_l, <-E, u32_add_l.
Qed.

Lemma window_push ring start p l x : length ring = Z.to_nat (2 ^ k) -> Z.of_nat (length l) < 2 ^ k ->
  u32 p = u32 (start + Z.of_nat (length l)) ->
  window (2 ^ k) ring start l -> window (2 ^ k) (<[ring_at (2 ^ k) p := x]> ring) start (l ++ [x]).
Proof using Hk.
  intros Hr Hl Hp Hw j y Hj. rewrite (ring_at_cong _ _ Hp). apply lookup_snoc_Some in Hj as [[Hlt Hj]|[-> ->]].
  - rewrite list_lookup_insert_ne; [by apply Hw|]. apply not_eq_sym, ring_at_distinct; lia.
  - apply list_lookup_insert_eq. pose proof (ring_at_lt (start + Z.of_nat (length l))). lia.
Qed.
End windows.

(** ** The step relation *)

(** Where a call of [recv] is: outside, with a descriptor taken, or with its
    result found and the frame still to be lent again. *)
Inductive RxPc := RxReady | RxHolding (d : XdpDesc) | RxReturning (addr : Z) (r : Recv).

(** The receiver, the shared memory, and what the kernel keeps: its position in
    the fill ring, the frames it has taken, the packets it has handed over.
    [s_out]: what the calls of [recv] that found a descriptor returned. *)
Record System := mkSystem {
  s_im : Impl; s_sh : Shared; s_pc : RxPc; s_out : list Recv;
  k_fill_cons : Z; k_taken : list Z; k_packets : list (list Z);
}.

(** The size of a ring. *)
Definition ring_len {A} (ring : list A) : Z := Z.of_nat (length ring).

(** The frame an address lies in. *)
Definition frame_of (im : Impl) (addr : Z) : Z := addr / frame_size im.

Section steps.
Context (buflen : nat).

Inductive rx_step : System -> System -> Prop :=
  | rx_empty im sh out kc kt kp im' sh' :
      rx_take im sh = Some (None, im', sh') ->
      rx_step (mkSystem im sh RxReady out kc kt kp) (mkSystem im' sh' RxReady out kc kt kp)
  | rx_taken im sh out kc kt kp d im' sh' :
      rx_take im sh = Some (Some d, im', sh') ->
      rx_step (mkSystem im sh RxReady out kc kt kp) (mkSystem im' sh' (RxHolding d) out kc kt kp)
  | rx_copied im sh out kc kt kp d now r im' :
      rx_copy buflen now im sh d = Some (r, im') ->
      rx_step (mkSystem im sh (RxHolding d) out kc kt kp) (mkSystem im' sh (RxReturning (d_addr d) r) out kc kt kp)
  | rx_returned im sh out kc kt kp addr r im' sh' :
      fill_return im sh addr = Some (im', sh') ->
      rx_step (mkSystem im sh (RxReturning addr r) out kc kt kp) (mkSystem im' sh' RxReady (out ++ [r]) kc kt kp).

(** What the documentation lets the kernel do. Its ring counters have 32 bits
    and its rings the size they have in its own memory; in the aligned mode,
    which the program asks for, an address of the fill ring stands for its
    frame. *)
Inductive kernel_step : System -> System -> Prop :=
  | k_take im sh pc out kc kt kp addr :
      kc <> u32 (fill_producer sh) -> fill_ring sh !! ring_at (ring_len (fill_ring sh)) kc = Some addr ->
      kernel_step (mkSystem im sh pc out kc kt kp) (mkSystem im sh pc out (kc +32 1) (kt ++ [frame_of im addr]) kp)
  | k_write im sh pc out kc kt kp m :
      (forall a, frame_of im a ∉ kt -> m a = umem sh a) ->
      kernel_step (mkSystem im sh pc out kc kt kp)
        (mkSystem im (mkShared m (fill_ring sh) (fill_producer sh) (rx_ring sh) (rx_producer sh) (rx_consumer sh)) pc out kc kt kp)
  | k_deliver im sh pc out kc kt1 c kt2 kp off pkt :
      0 <= off -> 0 < Z.of_nat (length pkt) -> off + Z.of_nat (length pkt) <= frame_size im ->
      read_area (umem sh) (c * frame_size im + off) (Z.of_nat (length pkt)) = pkt ->
      rx_producer sh -32 rx_consumer sh < ring_len (rx_ring sh) ->
      kernel_step (mkSystem im sh pc out kc (kt1 ++ c :: kt2) kp)
        (mkSystem im (mkShared (umem sh) (fill_ring sh) (fill_producer sh)
             (<[ring_at (ring_len (rx_ring sh)) (rx_producer sh) := mkDesc (c * frame_size im + off) (Z.of_nat (length pkt))]> (rx_ring sh))
             (rx_producer sh +32 1) (rx_consumer sh)) pc out kc (kt1 ++ kt2) (kp ++ [pkt])).

Inductive xdp_steps : System -> System -> Prop :=
  | xdp_refl s : xdp_steps s s
  | xdp_more s t u : xdp_steps s t -> rx_step t u \/ kernel_step t u -> xdp_steps s u.
End steps.

(** ** The invariant *)

(** What [recv] makes of a packet. *)
Definition payload_result (buflen : nat) (now : Z) (pkt : list Z) : Recv :=
  match extract_udp_payload pkt with
  | Some (off, S len) => RecvData (slice pkt off (Nat.min buflen (S len))) now
  | _ => RecvNone
  end.

Definition result_of (buflen : nat) (pkt : list Z) (r : Recv) : Prop := exists now, r = payload_result buflen now pkt.

(** The packet lies where the descriptor says, within one frame. *)
Record stored (fs : Z) (m : Z -> Z) (d : XdpDesc) (pkt : list Z) : Prop := {
  st_len : d_len d = Z.of_nat (length pkt);
  st_pos : 0 < d_len d;
  st_frame : d_addr d mod fs + d_len d <= fs;
  st_bytes : read_area m (d_addr d) (d_len d) = pkt;
}.

Definition held_frames (im : Impl) (pc : RxPc) : list Z :=
  match pc with
  | RxReady => []
  | RxHolding d => [frame_of im (d_addr d)]
  | RxReturning addr _ => [frame_of im addr]
  end.

Record geometry (k : Z) (im : Impl) (sh : Shared) : Prop := {
  ge_count : frame_count im = 2 ^ k;
  ge_size : 0 < frame_size im;
  ge_fd : 0 <= xsk_fd im;
  ge_umem : umem_size im = frame_size im * 2 ^ k;
  ge_fill : length (fill_ring sh) = Z.to_nat (2 ^ k);
  ge_rx : length (rx_ring sh) = Z.to_nat (2 ^ k);
}.

Lemma ge_fill_len k im sh : geometry k im sh -> ring_len (fill_ring sh) = 2 ^ k.
Proof. intros G. unfold ring_len. rewrite (ge_fill _ _ _ G). rewrite Z2Nat.id; [done|]. lia. Qed.

Lemma ge_rx_len k im sh : geometry k im sh -> ring_len (rx_ring sh) = 2 ^ k.
Proof. intros G. unfold ring_len. rewrite (ge_rx _ _ _ G). rewrite Z2Nat.id; [done|]. lia. Qed.

(** How the receiver reaches its rings, which no step changes ... *)
Definition ring_access (im : Impl) : Mapping * Mapping * RingOffset * RingOffset :=
  (fill_ring_map im, rx_ring_map im, fill_off im, rx_off im).

(** ... and that the pages mapped for the headers hold the counters and [n]
    entries of both rings. *)
Record rings_fit (page n : Z) (fo ro : RingOffset) : Prop := {
  rf_fill : counters_fit page fo;
  rf_rx : counters_fit page ro;
  rf_entries : entries_fit page word_bytes n fo;
  rf_descs : entries_fit page desc_bytes n ro;
}.

Definition rings_mapped (page n : Z) (im : Impl) : Prop := exists fo ro,
  ring_access im = (Mapped (mapped_len page (ro_desc fo)), Mapped (mapped_len page (ro_desc ro)), fo, ro) /\ rings_fit page n fo ro.

(** [F]: the addresses lent and not yet taken; [R]: the descriptors not yet
    read; [seen], [now_held], [pending]: the packets in the order delivered.
    The program reads the kernel's 32-bit counters as 64-bit words, so the
    receive ring is only understood while they do not wrap. *)
Record sys_ok (k r0 : Z) (buflen : nat) (s : System) (F : list Z) (R : list XdpDesc) (seen now_held pending : list (list Z)) : Prop := {
  so_geometry : geometry k (s_im s) (s_sh s);
  so_kc : is_u 32 (k_fill_cons s);
  so_fill_prod : u32 (fill_prod (s_im s)) = k_fill_cons s +32 Z.of_nat (length F);
  so_fill_pub : fill_producer (s_sh s) = fill_prod (s_im s);
  so_start : 0 <= r0 /\ r0 + Z.of_nat (length (k_packets s)) < 2 ^ 32;
  so_rx_cons : rx_cons (s_im s) = r0 + Z.of_nat (length (seen ++ now_held));
  so_rx_pub : rx_consumer (s_sh s) = rx_cons (s_im s);
  so_rx_prod : rx_producer (s_sh s) = rx_cons (s_im s) + Z.of_nat (length R);
  so_fill_window : window (2 ^ k) (fill_ring (s_sh s)) (k_fill_cons s) F;
  so_rx_window : window (2 ^ k) (rx_ring (s_sh s)) (rx_cons (s_im s)) R;
  so_custody : map (frame_of (s_im s)) F ++ k_taken s ++ map (frame_of (s_im s)) (map d_addr R) ++ held_frames (s_im s) (s_pc s)
               ≡ₚ seqZ 0 (2 ^ k / 2);
  so_stored : Forall2 (stored (frame_size (s_im s)) (umem (s_sh s))) R pending;
  so_pc : match s_pc s with
          | RxReady => now_held = []
          | RxHolding d => exists p, now_held = [p] /\ stored (frame_size (s_im s)) (umem (s_sh s)) d p
          | RxReturning addr r => exists p, now_held = [p] /\ result_of buflen p r
          end;
  so_packets : k_packets s = seen ++ now_held ++ pending;
  so_out : Forall2 (result_of buflen) seen (s_out s);
}.

Section custody.
Context (k r0 : Z) (Hk : 0 <= k <= 31) (buflen : nat).

Lemma half_lt : 0 <= 2 ^ k / 2 < 2 ^ k.
Proof using Hk. assert (0 < 2 ^ k) by lia. split; [apply Z.div_pos; lia|apply Z.div_lt; lia]. Qed.

(** Nothing is in two places, so the rings never overflow. *)
Lemma custody_counts s F R a b c : sys_ok k r0 buflen s F R a b c ->
  Z.of_nat (length F) + Z.of_nat (length (k_taken s)) + Z.of_nat (length R) + Z.of_nat (length (held_frames (s_im s) (s_pc s))) = 2 ^ k / 2.
Proof using Hk.
  intros Hok. pose proof (Permutation_length (so_custody _ _ _ _ _ _ _ _ _ Hok)) as H. pose proof half_lt.
  rewrite !length_app, !length_map, length_seqZ in H. lia.
Qed.

Lemma custody_range s F R a b c f : sys_ok k r0 buflen s F R a b c ->
  f ∈ map (frame_of (s_im s)) F ++ k_taken s ++ map (frame_of (s_im s)) (map d_addr R) ++ held_frames (s_im s) (s_pc s) ->
  0 <= f < 2 ^ k / 2.
Proof. intros Hok Hf. rewrite (so_custody _ _ _ _ _ _ _ _ _ Hok) in Hf. apply elem_of_seqZ in Hf. lia. Qed.

(** A frame the receiver was handed is not with the kernel. *)
Lemma custody_disjoint s F R a b c f : sys_ok k r0 buflen s F R a b c ->
  f ∈ map (frame_of (s_im s)) (map d_addr R) ++ held_frames (s_im s) (s_pc s) -> f ∉ k_taken s.
Proof.
  intros Hok Hf Ht. assert (NoDup (map (frame_of (s_im s)) F ++ k_taken s ++ map (frame_of (s_im s)) (map d_addr R) ++ held_frames (s_im s) (s_pc s))) as Hnd.
  { rewrite (so_custody _ _ _ _ _ _ _ _ _ Hok). apply NoDup_seqZ. }
  apply NoDup_app in Hnd as (_ & _ & Hnd). apply NoDup_app in Hnd as (_ & Hnd & _). by apply (Hnd f).
Qed.

(** A stored packet survives writes to other frames. *)
Lemma stored_frame fs m d p a : 0 < fs -> stored fs m d p -> d_addr d <= a < d_addr d + d_len d -> a / fs = d_addr d / fs.
Proof.
  intros Hfs [_ Hp Hf _] Ha. symmetry. apply (Z.div_unique_pos a fs (d_addr d / fs) (d_addr d mod fs + (a - d_addr d))).
  - pose proof (Z.mod_pos_bound (d_addr d) fs Hfs). lia.
  - pose proof (Z.div_mod (d_addr d) fs ltac:(lia)). lia.
Qed.

Lemma read_area_ext m m' addr len : (forall a, addr <= a < addr + len -> m' a = m a) -> read_area m' addr len = read_area m addr len.
Proof. intros H. unfold read_area. apply map_ext_in. intros a Ha. apply list_elem_of_In, elem_of_seqZ in Ha. apply H. lia. Qed.

Lemma stored_write fs m m' d p (taken : list Z) : 0 < fs -> (forall a, a / fs ∉ taken -> m' a = m a) -> d_addr d / fs ∉ taken ->
  stored fs m d p -> stored fs m' d p.
Proof.
  intros Hfs Hm Hd Hst. destruct (Hst) as [Hl Hp Hf Hb]. split; try done. rewrite <-Hb. apply read_area_ext. intros a Ha. apply Hm.
  by rewrite (stored_frame fs m d p a Hfs Hst Ha).
Qed.

(** *** The steps of the receiver *)

(** What taking a descriptor does when its accesses are good. *)
Lemma rx_take_inv im sh o im' sh' : rx_take im sh = Some (o, im', sh') ->
  match o with
  | None => rx_cons im = rx_producer sh /\ im' = set_rx_prod (rx_producer sh) im /\ sh' = sh
  | Some d => rx_cons im <> rx_producer sh /\ rx_ring sh !! ring_at (frame_count im) (rx_cons im) = Some d /\
      im' = set_rx_cons (rx_cons im +64 1) (set_rx_prod (rx_producer sh) im) /\
      sh' = mkShared (umem sh) (fill_ring sh) (fill_producer sh) (rx_ring sh) (rx_producer sh) (rx_cons im +64 1)
  end.
Proof.
  unfold rx_take. intros H. apply touch_bind in H as [_ H]. cbv zeta in H. cbn [rx_cons rx_prod set_rx_prod set_counters] in H.
  destruct (rx_cons im =? rx_producer sh) eqn:E; [injection H as <- <- <-; apply Z.eqb_eq in E; by rewrite E|].
  apply touch_bind in H as [_ H]. cbn [frame_count rx_ring_map set_rx_prod set_counters] in H.
  destruct (rx_ring sh !! ring_at (frame_count im) (rx_cons im)) as [d|] eqn:Ed; [|done]. cbn [mbind option_bind] in H.
  apply touch_bind in H as [_ H]. injection H as <- <- <-. apply Z.eqb_neq in E. by split_and!.
Qed.

Lemma take_ok im sh out kc kt kp F R seen h pend o im' sh' : sys_ok k r0 buflen (mkSystem im sh RxReady out kc kt kp) F R seen h pend ->
  rx_take im sh = Some (o, im', sh') ->
  match R with
  | [] => o = None /\ sys_ok k r0 buflen (mkSystem im' sh' RxReady out kc kt kp) F [] seen [] pend
  | d :: R' => exists p pend', pend = p :: pend' /\ o = Some d /\ sys_ok k r0 buflen (mkSystem im' sh' (RxHolding d) out kc kt kp) F R' seen [p] pend'
  end.
Proof using Hk.
  intros Hok Ht. apply rx_take_inv in Ht.
  destruct Hok as [G Hkc Hfp Hpub Hst Hrc Hcp Hrp Hfw Hrw Hcu Hsto Hpc Hpk Hout]. cbn -[Z.mul u32 u64 map] in *. subst h.
  assert (length R = length pend) as HR by exact (Forall2_length _ _ _ Hsto).
  assert (length kp = length seen + length pend)%nat as Hkp by (rewrite Hpk, !length_app; cbn; lia).
  rewrite length_app in Hrc. cbn in Hrc. destruct R as [|d R], o as [d'|]; try (destruct Ht; cbn in Hrp; lia).
  - destruct Ht as (_ & -> & ->). split; [done|]. split; cbn -[Z.mul u32 u64 map]; try done; [by destruct G|by rewrite length_app; cbn; lia].
  - destruct Ht as (_ & Hd0' & -> & ->). destruct pend as [|p pend]; [by inversion Hsto|]. inversion_clear Hsto as [|? ? ? ? Hd Hsto'].
    cbn [length] in *. pose proof (window_head _ _ _ _ _ Hrw) as Hd0. rewrite (ge_count _ _ _ G), Hd0 in Hd0'. injection Hd0' as <-.
    exists p, pend. split; [done|]. split; [done|]. assert (rx_cons im +64 1 = rx_cons im + 1) as E by (apply u64_small; lia).
    split; cbn -[Z.mul u32 u64 map]; rewrite ?E; try done.
    + destruct G; by split.
    + rewrite length_app. cbn. lia.
    + lia.
    + exact (window_tail _ _ _ _ _ Hrw).
    + etrans; [|exact Hcu]. cbn [map]. solve_Permutation.
    + exists p. by split.
Qed.

Lemma copy_ok im sh out kc kt kp F R seen h pend d now : sys_ok k r0 buflen (mkSystem im sh (RxHolding d) out kc kt kp) F R seen h pend ->
  exists p im', h = [p] /\ rx_copy buflen now im sh d = Some (payload_result buflen now p, im') /\
    sys_ok k r0 buflen (mkSystem im' sh (RxReturning (d_addr d) (payload_result buflen now p)) out kc kt kp) F R seen [p] pend.
Proof using Hk.
  intros Hok. pose proof (custody_range _ F R seen h pend (frame_of im (d_addr d)) Hok) as Hfr.
  destruct Hok as [G Hkc Hfp Hpub Hst Hrc Hcp Hrp Hfw Hrw Hcu Hsto Hpc Hpk Hout]. cbn -[Z.mul u32 u64 map] in *.
  destruct Hpc as (p & -> & Hd). destruct Hfr as [Hf0 Hf1]; [rewrite !elem_of_app; cbn; right; right; right; by left|].
  pose proof half_lt as Hhalf. pose proof (ge_size _ _ _ G) as Hfs. pose proof (ge_umem _ _ _ G) as Hum. destruct (Hd) as [Hl Hp Hfit Hb].
  assert (d_addr d = frame_size im * frame_of im (d_addr d) + d_addr d mod frame_size im) as Ha by (apply Z.div_mod; lia).
  pose proof (Z.mod_pos_bound (d_addr d) (frame_size im) Hfs) as Hm.
  unfold rx_copy. replace ((0 <=? d_addr d) && (d_addr d + d_len d <=? umem_size im)) with true; last first.
  { symmetry. apply andb_true_intro. split; apply Z.leb_le; nia. }
  cbv zeta. rewrite Hb. exists p. unfold payload_result.
  assert (forall x, sys_ok k r0 buflen (mkSystem (set_xstats x im) sh (RxReturning (d_addr d) (payload_result buflen now p)) out kc kt kp) F R seen [p] pend) as H.
  { intros x. split; cbn -[Z.mul u32 u64 map]; try done; [by destruct G|]. exists p. split; [done|]. by exists now. }
  unfold payload_result in H. destruct (extract_udp_payload p) as [[off [|len]]|]; eexists; (split; [reflexivity|]); (split; [reflexivity|]); apply H.
Qed.

Lemma ring_store_inv m off n ring p x ring' : ring_store m off n ring p x = Some ring' -> ring' = <[ring_at n p := x]> ring.
Proof. unfold ring_store. intros H. apply touch_bind in H as [_ H]. destruct (_ <? _)%nat; [|done]. by injection H as <-. Qed.

Lemma fill_return_inv im sh addr im' sh' : fill_return im sh addr = Some (im', sh') ->
  im' = set_fill_prod (fill_prod im +64 1) im /\
  sh' = mkShared (umem sh) (<[ring_at (frame_count im) (fill_prod im) := addr]> (fill_ring sh)) (fill_prod im +64 1) (rx_ring sh) (rx_producer sh) (rx_consumer sh).
Proof.
  unfold fill_return. destruct (ring_store _ _ _ _ _ _) as [ring|] eqn:E; [|done]. cbn [mbind option_bind]. intros H.
  apply touch_bind in H as [_ H]. injection H as <- <-. apply ring_store_inv in E as ->. done.
Qed.

Lemma return_ok im sh out kc kt kp F R seen h pend addr r im' sh' : sys_ok k r0 buflen (mkSystem im sh (RxReturning addr r) out kc kt kp) F R seen h pend ->
  fill_return im sh addr = Some (im', sh') ->
  exists p, h = [p] /\ sys_ok k r0 buflen (mkSystem im' sh' RxReady (out ++ [r]) kc kt kp) (F ++ [addr]) R (seen ++ [p]) [] pend.
Proof using Hk.
  intros Hok Hret. apply fill_return_inv in Hret as [-> ->]. pose proof (custody_counts _ F R seen h pend Hok) as Hcount.
  destruct Hok as [G Hkc Hfp Hpub Hst Hrc Hcp Hrp Hfw Hrw Hcu Hsto Hpc Hpk Hout]. cbn -[Z.mul u32 u64 map] in *.
  destruct Hpc as (p & -> & Hr). pose proof half_lt as Hhalf. exists p. split; [done|]. rewrite (ge_count _ _ _ G).
  assert (u32 (fill_prod im +64 1) = u32 (kc + Z.of_nat (length (F ++ [addr])))) as E.
  { rewrite u32_u64, <-u32_add_l, Hfp, u32_add_l, length_app. f_equal. cbn. lia. }
  split; cbn -[Z.mul u32 u64 map]; try done.
  - destruct G; split; cbn -[Z.mul]; try done. by rewrite length_insert.
  - by rewrite app_nil_r.
  - apply window_push; try done; [apply (ge_fill _ _ _ G)|lia].
  - etrans; [|exact Hcu]. rewrite map_app. cbn [map]. unfold frame_of. cbn -[Z.mul map]. solve_Permutation.
  - by rewrite <-app_assoc.
  - by apply Forall2_app; [|apply Forall2_cons].
Qed.

Lemma rx_step_ok s t F R seen h pend : sys_ok k r0 buflen s F R seen h pend -> rx_step buflen s t ->
  exists F' R' seen' h' pend', sys_ok k r0 buflen t F' R' seen' h' pend'.
Proof using Hk.
  intros Hok Hst. destruct Hst as [im sh out kc kt kp im' sh' E|im sh out kc kt kp d im' sh' E|im sh out kc kt kp d now r im' E|im sh out kc kt kp addr r im' sh' E].
  - pose proof (take_ok _ _ _ _ _ _ _ _ _ _ _ _ _ _ Hok E) as H. destruct R as [|d R]; [|by destruct H as (? & ? & _ & ? & _)].
    destruct H as [_ H]. by eexists _, _, _, _, _.
  - pose proof (take_ok _ _ _ _ _ _ _ _ _ _ _ _ _ _ Hok E) as H. destruct R as [|d' R]; [by destruct H|].
    destruct H as (p & pend' & -> & [= <-] & H). by eexists _, _, _, _, _.
  - destruct (copy_ok _ _ _ _ _ _ _ _ _ _ _ _ now Hok) as (p & im1 & -> & E1 & H). rewrite E1 in E. injection E as <- <-. by eexists _, _, _, _, _.
  - destruct (return_ok _ _ _ _ _ _ _ _ _ _ _ _ _ _ _ Hok E) as (p & -> & H). by eexists _, _, _, _, _.
Qed.

(** *** The accesses of the receiver *)

Lemma take_total page im sh out kc kt kp F R seen h pend : sys_ok k r0 buflen (mkSystem im sh RxReady out kc kt kp) F R seen h pend ->
  rings_mapped page (2 ^ k) im -> is_Some (rx_take im sh).
Proof using Hk.
  intros Hok (fo & ro & [= Hf Hr Hfo Hro] & Hfit). destruct (touch_counters _ _ (rf_rx _ _ _ _ Hfit)) as [Ep Ec].
  destruct Hok as [G Hkc Hfp Hpub Hst Hrc Hcp Hrp Hfw Hrw Hcu Hsto Hpc Hpk Hout]. cbn -[Z.mul u32 u64 map] in *.
  unfold rx_take. rewrite Hr, Hro, Ep. cbn [mbind option_bind]. cbv zeta. cbn [rx_cons rx_prod set_rx_prod set_rx_cons set_counters frame_count rx_ring_map rx_off].
  destruct (rx_cons im =? rx_producer sh) eqn:E; [done|]. rewrite Hr, Hro. destruct R as [|d R]; [apply Z.eqb_neq in E; cbn in Hrp; lia|].
  pose proof (window_head _ _ _ _ _ Hrw) as Hd. pose proof (ring_at_lt k Hk (rx_cons im)). rewrite (ge_count _ _ _ G).
  rewrite (touch_entry page desc_bytes (2 ^ k) ro) by (done || apply Hfit). cbn [mbind option_bind]. rewrite Hd. cbn [mbind option_bind].
  by rewrite Ec.
Qed.

Lemma return_total page im sh pc out kc kt kp F R seen h pend addr : sys_ok k r0 buflen (mkSystem im sh pc out kc kt kp) F R seen h pend ->
  rings_mapped page (2 ^ k) im -> is_Some (fill_return im sh addr).
Proof using Hk.
  intros Hok (fo & ro & [= Hf Hr Hfo Hro] & Hfit). destruct (touch_counters _ _ (rf_fill _ _ _ _ Hfit)) as [Ep _].
  pose proof (so_geometry _ _ _ _ _ _ _ _ _ Hok) as G. cbn [s_im s_sh] in G. pose proof half_lt.
  assert (0 < 2 ^ k <= 2 ^ 31) by (split; [lia|apply Z.pow_le_mono_r; lia]).
  unfold fill_return. rewrite Hf, Hfo, (ge_count _ _ _ G).
  rewrite (ring_store_ok page (2 ^ k) fo); [|lia|apply Hfit|lia|rewrite (ge_fill _ _ _ G); lia].
  cbn [mbind option_bind set_fill_prod set_counters fill_ring_map fill_off]. by rewrite Hf, Hfo, Ep.
Qed.

(** *** The steps of the kernel *)

Lemma kernel_take_ok im sh pc out kc kt kp addr F R seen h pend : sys_ok k r0 buflen (mkSystem im sh pc out kc kt kp) F R seen h pend ->
  kc <> u32 (fill_producer sh) -> fill_ring sh !! ring_at (ring_len (fill_ring sh)) kc = Some addr ->
  exists F', F = addr :: F' /\ sys_ok k r0 buflen (mkSystem im sh pc out (kc +32 1) (kt ++ [frame_of im addr]) kp) F' R seen h pend.
Proof using Hk.
  intros Hok Hne Hat. destruct Hok as [G Hkc Hfp Hpub Hst Hrc Hcp Hrp Hfw Hrw Hcu Hsto Hpc Hpk Hout]. cbn -[Z.mul u32 u64 map] in *.
  destruct F as [|a F].
  - exfalso. apply Hne. rewrite Hpub, Hfp. cbn. rewrite Z.add_0_r. symmetry. by apply u32_small.
  - rewrite (ge_fill_len _ _ _ G) in Hat. rewrite (window_head _ _ _ _ _ Hfw) in Hat. injection Hat as ->. exists F. split; [done|].
    split; cbn -[Z.mul u32 u64 map]; try done.
    + apply u32_range.
    + rewrite Hfp, u32_add_l. f_equal. cbn. lia.
    + eapply window_cong; [done| |apply (window_tail _ _ _ _ _ Hfw)]. unfold u32. by rewrite wrap_wrap.
    + etrans; [|exact Hcu]. cbn [map]. solve_Permutation.
Qed.

Lemma kernel_write_ok im sh pc out kc kt kp m F R seen h pend : sys_ok k r0 buflen (mkSystem im sh pc out kc kt kp) F R seen h pend ->
  (forall a, frame_of im a ∉ kt -> m a = umem sh a) ->
  sys_ok k r0 buflen (mkSystem im (mkShared m (fill_ring sh) (fill_producer sh) (rx_ring sh) (rx_producer sh) (rx_consumer sh)) pc out kc kt kp)
    F R seen h pend.
Proof using Hk.
  intros Hok Hm. pose proof (fun f => custody_disjoint _ F R seen h pend f Hok) as Hdis.
  destruct Hok as [G Hkc Hfp Hpub Hst Hrc Hcp Hrp Hfw Hrw Hcu Hsto Hpc Hpk Hout]. cbn -[Z.mul u32 u64 map] in *.
  pose proof (ge_size _ _ _ G) as Hfs. split; cbn -[Z.mul u32 u64 map]; try done.
  - by destruct G.
  - apply Forall2_same_length_lookup_2; [by eapply Forall2_length|]. intros i d p Hd Hp.
    apply (stored_write _ (umem sh) m d p kt Hfs Hm); [|by eapply Forall2_lookup_lr].
    apply Hdis, elem_of_app. left. rewrite map_map. apply list_elem_of_fmap. exists d. split; [done|by eapply list_elem_of_lookup_2].
  - destruct pc as [|d|addr r]; [done| |done]. destruct Hpc as (p & Hh & Hd). exists p. split; [done|].
    apply (stored_write _ (umem sh) m d p kt Hfs Hm); [|done]. apply Hdis, elem_of_app. right. by left.
Qed.

Lemma kernel_deliver_ok im sh pc out kc kt1 c kt2 kp off pkt F R seen h pend :
  sys_ok k r0 buflen (mkSystem im sh pc out kc (kt1 ++ c :: kt2) kp) F R seen h pend ->
  0 <= off -> 0 < Z.of_nat (length pkt) -> off + Z.of_nat (length pkt) <= frame_size im ->
  read_area (umem sh) (c * frame_size im + off) (Z.of_nat (length pkt)) = pkt ->
  r0 + Z.of_nat (length (kp ++ [pkt])) < 2 ^ 32 ->
  let d := mkDesc (c * frame_size im + off) (Z.of_nat (length pkt)) in
  sys_ok k r0 buflen (mkSystem im (mkShared (umem sh) (fill_ring sh) (fill_producer sh)
      (<[ring_at (ring_len (rx_ring sh)) (rx_producer sh) := d]> (rx_ring sh)) (rx_producer sh +32 1) (rx_consumer sh)) pc out kc (kt1 ++ kt2) (kp ++ [pkt]))
    F (R ++ [d]) seen h (pend ++ [pkt]).
Proof using Hk.
  intros Hok Hoff Hlen Hfit Hread Hmax d. pose proof (custody_counts _ F R seen h pend Hok) as Hcount. pose proof half_lt as Hhalf.
  destruct Hok as [G Hkc Hfp Hpub Hst Hrc Hcp Hrp Hfw Hrw Hcu Hsto Hpc Hpk Hout]. cbn -[Z.mul u32 u64 map] in *.
  pose proof (ge_size _ _ _ G) as Hfs. rewrite length_app in Hcount. cbn [length] in Hcount.
  assert (length R = length pend) as HR by exact (Forall2_length _ _ _ Hsto).
  assert (length kp = length seen + length h + length pend)%nat as Hkp by (rewrite Hpk, !length_app; lia).
  rewrite length_app in Hrc, Hmax. cbn in Hmax.
  assert (frame_of im (d_addr d) = c) as Hc.
  { unfold frame_of, d. cbn [d_addr]. rewrite Z.add_comm, Z.div_add by lia. rewrite Z.div_small by lia. lia. }
  assert (rx_producer sh +32 1 = rx_producer sh + 1) as E by (apply u32_small; lia).
  split; cbn -[Z.mul u32 u64 map]; rewrite ?E; try done.
  - destruct G; split; cbn -[Z.mul]; try done. by rewrite length_insert.
  - rewrite length_app. cbn. lia.
  - rewrite Hrc, length_app. done.
  - rewrite length_app. cbn. lia.
  - rewrite (ge_rx_len _ _ _ G). apply window_push; try done; [apply (ge_rx _ _ _ G)|lia|by rewrite Hrp].
  - etrans; [|exact Hcu]. rewrite !map_app. cbn [map]. rewrite Hc. solve_Permutation.
  - apply Forall2_app; [done|]. apply Forall2_cons. split; [|done]. split; cbn [d d_len d_addr]; [done|done| |done].
    rewrite (Z.add_comm (c * _)), Z_mod_plus_full, Z.mod_small by lia. lia.
  - rewrite Hpk. by rewrite <-!app_assoc.
Qed.

Lemma kernel_step_ok s t F R seen h pend : sys_ok k r0 buflen s F R seen h pend -> kernel_step s t ->
  r0 + Z.of_nat (length (k_packets t)) < 2 ^ 32 -> exists F' R' pend', sys_ok k r0 buflen t F' R' seen h pend'.
Proof using Hk.
  intros Hok Hst Hmax. destruct Hst as [? ? ? ? ? ? ? addr|? ? ? ? ? ? ? m|? ? ? ? ? ? c ? ? off pkt].
  - edestruct kernel_take_ok as (F' & _ & Hok'); [done..|]. by eexists _, _, _.
  - eexists _, _, _. by apply kernel_write_ok.
  - eexists _, _, _. by apply kernel_deliver_ok.
Qed.

(** *** Where it starts *)

(** The frames that [open] lends: the first half of the area. *)
Lemma reserve_loop_window n : forall i im ring kc im' ring', reserve_loop n i im ring = Some (im', ring') ->
  frame_count im = 2 ^ k -> length ring = Z.to_nat (2 ^ k) -> 0 <= frame_size im -> frame_size im * 2 ^ k <= 2 ^ 32 ->
  Z.of_nat i + Z.of_nat n <= 2 ^ k / 2 -> u32 (fill_prod im) = u32 (kc + Z.of_nat i) ->
  window (2 ^ k) ring kc (map (fun j => j * frame_size im) (seqZ 0 (Z.of_nat i))) ->
  length ring' = length ring /\ u32 (fill_prod im') = u32 (kc + Z.of_nat (i + n)) /\
    window (2 ^ k) ring' kc (map (fun j => j * frame_size im) (seqZ 0 (Z.of_nat (i + n)))).
Proof using Hk.
  induction n as [|n IH]; intros i im ring kc im' ring' E Hc Hr Hfs Harea Hin Hfp Hw.
  { injection E as <- <-. rewrite Nat.add_0_r. by split_and!. }
  pose proof half_lt as Hhalf. cbn [reserve_loop] in E. destruct (ring_store _ _ _ _ _ _) as [ring1|] eqn:Es; [|done].
  cbn [mbind option_bind] in E. apply ring_store_inv in Es. rewrite Hc in Es. rewrite (u32_small (Z.of_nat i * frame_size im)) in Es by nia.
  apply (IH _ _ _ kc) in E as (Hl & Hfp' & Hw'); try done; [|by rewrite Es, length_insert|lia| |].
  - rewrite <-Nat.add_succ_comm. rewrite Es, length_insert in Hl. by split_and!.
  - cbn [fill_prod set_fill_prod set_counters]. rewrite u32_u64, <-u32_add_l, Hfp, u32_add_l. f_equal. lia.
  - cbn [frame_size set_fill_prod set_counters]. rewrite Es, Nat2Z.inj_succ, <-Z.add_1_r, seqZ_app, map_app by lia.
    apply window_push; try done; rewrite length_map, length_seqZ; [lia|]. by rewrite Nat2Z.id.
Qed.

(** The rings as the code takes them to be: an entry per frame, both empty,
    with the receive ring at position [r0]; frames that 32 bits can address. *)
Record fresh (cfg : AfxdpConfig) (env : OpenEnv) : Prop := {
  fr_count : cfg_frame_count cfg = 2 ^ k;
  fr_size : 0 < cfg_frame_size cfg;
  fr_area : cfg_frame_size cfg * 2 ^ k <= 2 ^ 32;
  fr_fill : length (fill_ring (e_shared env)) = Z.to_nat (2 ^ k);
  fr_rx : length (rx_ring (e_shared env)) = Z.to_nat (2 ^ k);
  fr_rx_prod : rx_producer (e_shared env) = r0;
  fr_rx_cons : rx_consumer (e_shared env) = r0;
  fr_start : is_u 32 r0;
}.

(** The whole system when [open] returns. *)
Definition after_open (env : OpenEnv) (im : Impl) (sh : Shared) : System :=
  mkSystem im sh RxReady [] (u32 (fill_producer (e_shared env))) [] [].

(** A successful [open] got past every check, mapped both rings and filled the
    first; what follows changes the receiver no more. *)
Lemma open_success env im held im' held' sh' : open env im held = Some (true, im', held', sh') ->
  exists im0 fo ro, e_fill_off env = Some fo /\ e_rx_off env = Some ro /\ 0 <= xsk_fd im0 /\
    frame_count im0 = cfg_frame_count (i_cfg im) /\ frame_size im0 = cfg_frame_size (i_cfg im) /\
    umem_size im0 = cfg_frame_size (i_cfg im) * cfg_frame_count (i_cfg im) /\
    ring_access im0 = (Mapped (mapped_len (e_page env) (ro_desc fo)), Mapped (mapped_len (e_page env) (ro_desc ro)), fo, ro) /\
    start_rings im0 (e_shared env) = Some (im', sh').
Proof.
  unfold open. destruct (close im held) as [im0 held0] eqn:Ec.
  assert (i_cfg im0 = i_cfg im) as Hcfg by (unfold close in Ec; by injection Ec as <- _). rewrite Hcfg. cbv zeta. clear Hcfg Ec.
  rewrite <-(resolve_count (e_ifindex env) (i_cfg im)), <-(resolve_size (e_ifindex env) (i_cfg im)).
  set (cfg := resolve_ifindex _ _). clearbody cfg. assert (forall im held (sh sh1 : Shared),
    (let '(im, held) := close im held in Some (false, im, held, sh)) = Some (true, im', held', sh1) -> False) as Hfail by (intros ? ? ? ?; by destruct (close _ _)).
  destruct (cfg_ifindex cfg <=? 0); [done|]. destruct (negb (_ || _)); [done|]. destruct (e_socket env <? 0) eqn:Efd; [by intros ?%Hfail|].
  do 2 (match goal with |- context [if negb ?b then _ else _] => destruct (negb b); [by intros ?%Hfail|] end).
  destruct (e_fill_off env) as [fo|]; [|by intros ?%Hfail]. destruct (e_rx_off env) as [ro|]; [|by intros ?%Hfail].
  destruct (e_fill_map env), (e_rx_map env); cbn [negb orb]; try by intros ?%Hfail.
  set (im3 := set_rings _ _ _). destruct (start_rings im3 _) as [[im4 sh4]|] eqn:Es; [|done]. cbn [mbind option_bind]. intros H.
  assert (im4 = im' /\ sh4 = sh') as [-> ->].
  { destruct (negb (e_bind env)); [by apply Hfail in H|]. destruct (bool_decide _); [by injection H as <- _ <-|].
    destruct (attach_xdp_redirect _ _ _) as [[] held4]; [by injection H as <- _ <-|by apply Hfail in H]. }
  exists im3, fo, ro. split_and!; try done. cbn. lia.
Qed.

Lemma open_ok env im held im' held' sh' : fresh (i_cfg im) env -> open env im held = Some (true, im', held', sh') ->
  exists F, sys_ok k r0 buflen (after_open env im' sh') F [] [] [] [].
Proof using Hk.
  intros [F1 F2 F3 F4 F5 F6 F7 F8] Ho. apply open_success in Ho as (im0 & fo & ro & _ & _ & Hfd & Hn & Hs & Hu & _ & Hst).
  rewrite F1 in Hn, Hu. unfold start_rings in Hst. do 3 (apply touch_bind in Hst as [_ Hst]). cbv zeta in Hst. set (im4 := set_counters _ _ _ _) in Hst.
  destruct (reserve_loop _ _ _ _) as [[im5 ring]|] eqn:E; [|done]. injection Hst as <- <-. pose proof half_lt as Hhalf.
  assert (frame_count im4 = 2 ^ k) as Hc4 by exact Hn. assert (frame_size im4 = cfg_frame_size (i_cfg im)) as Hs4 by exact Hs.
  pose proof (reserve_loop_im _ _ _ _ _ _ E) as Him5.
  apply (reserve_loop_window _ _ _ _ (u32 (fill_producer (e_shared env)))) in E as (Hl & Hfp & Hw); try done; rewrite ?Hs4, ?Hc4; try lia;
    [|cbn [im4 fill_prod set_counters]; rewrite Z.add_0_r; unfold u32; by rewrite wrap_wrap].
  rewrite Hc4 in Hfp, Hw. exists (map (fun j => j * frame_size im4) (seqZ 0 (Z.of_nat (0 + Z.to_nat (2 ^ k / 2))))).
  assert (rx_cons im5 = r0) as Hrc by (rewrite Him5; exact F7). assert (frame_size im5 = frame_size im4) as Hs5 by (by rewrite Him5).
  split; cbn -[Z.mul u32 u64 map Z.of_nat Z.div seqZ]; rewrite ?Hrc, ?Z.add_0_r; try done.
  - split; cbn [s_im s_sh after_open fill_ring rx_ring]; rewrite ?Hs5, ?Hs4; try done; try congruence.
    + rewrite Him5. exact Hn.
    + rewrite Him5. exact Hfd.
    + rewrite Him5. exact Hu.
  - apply u32_range.
  - rewrite Hfp. by rewrite length_map, length_seqZ, Nat2Z.id.
  - rewrite app_nil_r, map_map, Z2Nat.id by lia. erewrite map_ext; [by rewrite map_id|]. intros j.
    unfold frame_of. rewrite Hs5. apply Z.div_mul. lia.
Qed.

Lemma open_access env im held im' held' sh' : open env im held = Some (true, im', held', sh') ->
  exists fo ro, e_fill_off env = Some fo /\ e_rx_off env = Some ro /\
    ring_access im' = (Mapped (mapped_len (e_page env) (ro_desc fo)), Mapped (mapped_len (e_page env) (ro_desc ro)), fo, ro).
Proof.
  intros Ho. apply open_success in Ho as (im0 & fo & ro & Hf & Hr & _ & _ & _ & _ & Ha & Hst). exists fo, ro.
  apply start_rings_handles in Hst as (fp & rp & rc & ->). by split_and!.
Qed.

(** How the rings are reached does not change. *)
Lemma steps_access s t : xdp_steps buflen s t -> ring_access (s_im t) = ring_access (s_im s).
Proof.
  induction 1 as [s|s t u _ IH Hstep]; [done|]. rewrite <-IH. destruct Hstep as [Hr|Hr].
  - destruct Hr as [im sh out kc kt kp im' sh' E|im sh out kc kt kp d im' sh' E|im sh out kc kt kp d now r im' E|im sh out kc kt kp addr r im' sh' E].
    + by apply rx_take_inv in E as (_ & -> & _).
    + by apply rx_take_inv in E as (_ & _ & -> & _).
    + unfold rx_copy in E. destruct (_ && _); [|done]. by destruct (extract_udp_payload _) as [[? []]|]; injection E as _ <-.
    + by apply fill_return_inv in E as [-> _].
  - by destruct Hr.
Qed.

(** The pages that the answers of the system make the code map hold [n] entries
    of each ring. *)
Definition env_fits (env : OpenEnv) (n : Z) : Prop :=
  forall fo ro, e_fill_off env = Some fo -> e_rx_off env = Some ro -> rings_fit (e_page env) n fo ro.

Lemma reachable_mapped env im held im' held' sh' s n : open env im held = Some (true, im', held', sh') ->
  xdp_steps buflen (after_open env im' sh') s -> env_fits env n -> rings_mapped (e_page env) n (s_im s).
Proof.
  intros Ho Hst Hfit. apply open_access in Ho as (fo & ro & Hf & Hr & Ha). apply steps_access in Hst. exists fo, ro.
  split; [by rewrite Hst|by apply Hfit].
Qed.

(** Every state the two can reach is well formed. *)
Lemma reachable_ok s t F : sys_ok k r0 buflen s F [] [] [] [] -> xdp_steps buflen s t -> r0 + Z.of_nat (length (k_packets t)) < 2 ^ 32 ->
  exists F R seen h pend, sys_ok k r0 buflen t F R seen h pend.
Proof using Hk.
  intros Hs Hst. induction Hst as [s|s t u Hst IH Hstep]; intros Hmax; [by eexists _, _, _, _, _|].
  assert (length (k_packets t) <= length (k_packets u))%nat as Hle.
  { destruct Hstep as [Hr|Hr]; destruct Hr; cbn; rewrite ?length_app; lia. }
  destruct (IH Hs ltac:(lia)) as (F1 & R1 & a & h & c & Hok). destruct Hstep as [Hr|Hr].
  - by eapply rx_step_ok.
  - edestruct (kernel_step_ok _ _ _ _ _ _ _ Hok Hr Hmax) as (F2 & R2 & c2 & H2). by eexists _, _, _, _, _.
Qed.
End custody.

(** ** Calls in a row, the kernel quiet *)

Fixpoint recv_many (buflen : nat) (clocks : list Z) (im : Impl) (sh : Shared) : option (list Recv * Impl * Shared) :=
  match clocks with
  | [] => Some ([], im, sh)
  | now :: clocks =>
      '(r, im, sh) ← recv buflen now im sh; '(rs, im, sh) ← recv_many buflen clocks im sh; Some (r :: rs, im, sh)
  end.

Section calls.
Context (page k r0 : Z) (Hk : 0 <= k <= 31) (buflen : nat) (Hbuf : buflen <> 0%nat).

(** One call is the three steps in sequence. *)
Lemma recv_next im sh out kc kt kp F R seen pend now : sys_ok k r0 buflen (mkSystem im sh RxReady out kc kt kp) F R seen [] pend ->
  rings_mapped page (2 ^ k) im ->
  match pend with
  | [] => exists im', recv buflen now im sh = Some (RecvNone, im', sh)
  | p :: pend' => exists im' sh' F' R', recv buflen now im sh = Some (payload_result buflen now p, im', sh') /\
      sys_ok k r0 buflen (mkSystem im' sh' RxReady (out ++ [payload_result buflen now p]) kc kt kp) F' R' (seen ++ [p]) [] pend' /\
      rings_mapped page (2 ^ k) im'
  end.
Proof using Hk Hbuf.
  intros Hok Hm. pose proof (ge_fd _ _ _ (so_geometry _ _ _ _ _ _ _ _ _ Hok)) as Hfd. cbn [s_im] in Hfd.
  pose proof (Forall2_length _ _ _ (so_stored _ _ _ _ _ _ _ _ _ Hok)) as Hlen.
  destruct (take_total k r0 Hk buflen page _ _ _ _ _ _ _ _ _ _ _ Hok Hm) as [[[o im1] sh1] E1].
  pose proof (take_ok k r0 Hk buflen _ _ _ _ _ _ _ _ _ _ _ _ _ _ Hok E1) as H. unfold recv.
  rewrite (proj2 (Z.ltb_ge _ _)) by done. rewrite (proj2 (Nat.eqb_neq _ _)) by done. rewrite E1. cbn [orb mbind option_bind].
  apply rx_take_inv in E1. destruct R as [|d R].
  - destruct pend; [|done]. destruct H as (-> & _). destruct E1 as (_ & _ & ->). by exists im1.
  - destruct H as (p & pend' & -> & -> & H1). destruct E1 as (_ & _ & -> & _).
    destruct (copy_ok k r0 Hk buflen _ _ _ _ _ _ _ _ _ _ _ _ now H1) as (p' & im2 & [= <-] & E2 & H2).
    assert (ring_access im2 = ring_access im) as Ha2.
    { unfold rx_copy in E2. destruct (_ && _); [|done]. by destruct (extract_udp_payload _) as [[? []]|]; injection E2 as _ <-. }
    assert (rings_mapped page (2 ^ k) im2) as Hm2 by (destruct Hm as (fo & ro & Hm & ?); exists fo, ro; by rewrite Ha2).
    rewrite E2. cbn [mbind option_bind]. destruct (return_total k r0 Hk buflen page _ _ _ _ _ _ _ _ _ _ _ _ (d_addr d) H2 Hm2) as [[im3 sh3] E3].
    destruct (return_ok k r0 Hk buflen _ _ _ _ _ _ _ _ _ _ _ _ _ _ _ H2 E3) as (p'' & [= <-] & H3). rewrite E3. cbn [mbind option_bind].
    apply fill_return_inv in E3 as [-> _]. by eexists _, _, _, _.
Qed.

Lemma recv_many_ok clocks : forall im sh out kc kt kp F R seen pend,
  sys_ok k r0 buflen (mkSystem im sh RxReady out kc kt kp) F R seen [] pend -> rings_mapped page (2 ^ k) im -> length clocks = length pend ->
  exists im' sh' out' F' R', recv_many buflen clocks im sh = Some (zip_with (payload_result buflen) clocks pend, im', sh') /\
    sys_ok k r0 buflen (mkSystem im' sh' RxReady out' kc kt kp) F' R' (seen ++ pend) [] [] /\ rings_mapped page (2 ^ k) im'.
Proof using Hk Hbuf.
  induction clocks as [|now clocks IH]; intros im sh out kc kt kp F R seen pend Hok Hm Hl; destruct pend as [|p pend]; try done.
  { rewrite app_nil_r. by eexists im, sh, out, F, R. }
  destruct (recv_next _ _ _ _ _ _ _ _ _ _ now Hok Hm) as (im1 & sh1 & F1 & R1 & E1 & H1 & Hm1).
  destruct (IH _ _ _ _ _ _ _ _ _ _ H1 Hm1 ltac:(by injection Hl)) as (im2 & sh2 & out2 & F2 & R2 & E2 & H2 & Hm2).
  exists im2, sh2, out2, F2, R2. cbn [recv_many]. rewrite E1. cbn [mbind option_bind]. rewrite E2. split; [done|].
  by rewrite <-app_assoc in H2.
Qed.
End calls.

(** ** What holds of every interleaving *)

(** C15. Receiver and kernel never disagree about a frame. Take a power of two of
    frames within 4 GiB, empty rings that have an entry per frame (the code sets
    no ring size) and an [open] that has succeeded. However the steps of the two interleave from then on, until the
    kernel's 32-bit counter of the receive ring wraps: each lent frame is in
    exactly one place (the fill ring, the kernel, the receive ring, or the call
    in progress), the two positions of each ring delimit exactly what is in it,
    the completed calls returned the payloads of the packets in the order the
    kernel delivered them, none lost, repeated or overwritten, and a packet is
    copied from inside the area. If moreover the entries lie in the pages mapped
    for the rings' headers (the code maps no more), no step of [recv] leaves the
    mappings. *)
Theorem frames_in_custody k r0 buflen env im held im' held' sh' s :
  0 <= k <= 31 -> fresh k r0 (i_cfg im) env -> open env im held = Some (true, im', held', sh') ->
  xdp_steps buflen (after_open env im' sh') s -> r0 + Z.of_nat (length (k_packets s)) < 2 ^ 32 ->
  exists F R seen later,
    (map (frame_of (s_im s)) F ++ k_taken s ++ map (frame_of (s_im s)) (map d_addr R) ++ held_frames (s_im s) (s_pc s) ≡ₚ seqZ 0 (2 ^ k / 2)) /\
    (window (2 ^ k) (fill_ring (s_sh s)) (k_fill_cons s) F /\ u32 (fill_producer (s_sh s)) = k_fill_cons s +32 Z.of_nat (length F)) /\
    (window (2 ^ k) (rx_ring (s_sh s)) (rx_consumer (s_sh s)) R /\ rx_producer (s_sh s) = rx_consumer (s_sh s) + Z.of_nat (length R)) /\
    match s_pc s with
    | RxReady => env_fits env (2 ^ k) -> is_Some (rx_take (s_im s) (s_sh s))
    | RxHolding d => forall now, is_Some (rx_copy buflen now (s_im s) (s_sh s) d)
    | RxReturning addr _ => env_fits env (2 ^ k) -> is_Some (fill_return (s_im s) (s_sh s) addr)
    end /\
    k_packets s = seen ++ later /\ Forall2 (result_of buflen) seen (s_out s) /\
    length later = (length (held_frames (s_im s) (s_pc s)) + length R)%nat.
Proof.
  intros Hk Hf Ho Hst Hmax. destruct (open_ok k r0 Hk buflen env im held im' held' sh' Hf Ho) as (F0 & H0).
  destruct (reachable_ok k r0 Hk buflen _ s F0 H0 Hst Hmax) as (F & R & seen & h & pend & Hok). exists F, R, seen, (h ++ pend).
  pose proof (Forall2_length _ _ _ (so_stored _ _ _ _ _ _ _ _ _ Hok)) as Hl.
  split; [apply (so_custody _ _ _ _ _ _ _ _ _ Hok)|]. split; [|split; [|split; [|split; [|split]]]].
  - rewrite (so_fill_pub _ _ _ _ _ _ _ _ _ Hok). split; [apply (so_fill_window _ _ _ _ _ _ _ _ _ Hok)|apply (so_fill_prod _ _ _ _ _ _ _ _ _ Hok)].
  - rewrite (so_rx_pub _ _ _ _ _ _ _ _ _ Hok). split; [apply (so_rx_window _ _ _ _ _ _ _ _ _ Hok)|apply (so_rx_prod _ _ _ _ _ _ _ _ _ Hok)].
  - destruct s as [sim ssh [|d|addr r] out kc kt kp]; cbn [s_pc s_im s_sh].
    + intros Hfit. by apply (take_total k r0 Hk buflen (e_page env) _ _ _ _ _ _ _ _ _ _ _ Hok), (reachable_mapped buflen env im held im' held' sh' _ _ Ho Hst).
    + intros now. by destruct (copy_ok k r0 Hk buflen _ _ _ _ _ _ _ _ _ _ _ _ now Hok) as (? & ? & _ & -> & _).
    + intros Hfit. by apply (return_total k r0 Hk buflen (e_page env) _ _ _ _ _ _ _ _ _ _ _ _ _ Hok), (reachable_mapped buflen env im held im' held' sh' _ _ Ho Hst).
  - apply (so_packets _ _ _ _ _ _ _ _ _ Hok).
  - apply (so_out _ _ _ _ _ _ _ _ _ Hok).
  - rewrite length_app, Hl. f_equal. pose proof (so_pc _ _ _ _ _ _ _ _ _ Hok) as Hpc.
    destruct (s_pc s); [by rewrite Hpc|by destruct Hpc as (? & -> & _)..].
Qed.

(** The receiver catches up where the entries of its rings are mapped: from any
    reachable state between two calls, as many calls as packets have not been
    received yet return the payloads of exactly these, in order, and the call
    after them finds nothing. *)
Theorem recv_catches_up k r0 buflen env im held im' held' sh' s clocks now :
  0 <= k <= 31 -> buflen <> 0%nat -> fresh k r0 (i_cfg im) env -> env_fits env (2 ^ k) -> open env im held = Some (true, im', held', sh') ->
  xdp_steps buflen (after_open env im' sh') s -> r0 + Z.of_nat (length (k_packets s)) < 2 ^ 32 ->
  s_pc s = RxReady -> length clocks = (length (k_packets s) - length (s_out s))%nat ->
  exists im1 sh1 im2, recv_many buflen clocks (s_im s) (s_sh s) =
      Some (zip_with (payload_result buflen) clocks (drop (length (s_out s)) (k_packets s)), im1, sh1) /\
    recv buflen now im1 sh1 = Some (RecvNone, im2, sh1).
Proof.
  intros Hk Hbuf Hf Hfit Ho Hst Hmax Hpc Hl. pose proof (reachable_mapped buflen env im held im' held' sh' s _ Ho Hst Hfit) as Hm. destruct (open_ok k r0 Hk buflen env im held im' held' sh' Hf Ho) as (F0 & H0).
  destruct (reachable_ok k r0 Hk buflen _ s F0 H0 Hst Hmax) as (F & R & seen & h & pend & Hok).
  destruct s as [sim ssh pc out kc kt kp]. cbn [s_pc s_im s_sh s_out k_packets] in *. subst pc.
  pose proof (so_pc _ _ _ _ _ _ _ _ _ Hok) as Hh. cbn in Hh. subst h. pose proof (so_packets _ _ _ _ _ _ _ _ _ Hok) as Hp. cbn in Hp.
  pose proof (Forall2_length _ _ _ (so_out _ _ _ _ _ _ _ _ _ Hok)) as Hlo. cbn in Hlo. rewrite <-Hlo, Hp, drop_app_length in *.
  rewrite length_app in Hl.
  destruct (recv_many_ok (e_page env) k r0 Hk buflen Hbuf clocks _ _ _ _ _ _ _ _ _ _ Hok Hm ltac:(lia)) as (im1 & sh1 & out1 & F1 & R1 & E & H1 & Hm1).
  destruct (recv_next (e_page env) k r0 Hk buflen Hbuf _ _ _ _ _ _ _ _ _ _ now H1 Hm1) as (im2 & E2). by exists im1, sh1, im2.
Qed.

(** ** A packet's way, and the wrap of the counter *)

Definition w_packet : list Z :=
  [0; 0; 0; 0; 0; 1; 0; 0; 0; 0; 0; 2; 8; 0] ++ [69; 0; 0; 31; 0; 0; 0; 0; 64; 17; 0; 0; 10; 0; 0; 1; 10; 0; 0; 2] ++
  [4; 0; 4; 0; 0; 11; 0; 0] ++ [1; 2; 3].
Definition w_memory (a : Z) : Z := if 0 <=? a then nth (Z.to_nat a) w_packet 0 else 0.

(** The receiver and the shared memory on the way. *)
Definition w_im (fp rp rc : Z) (st : AfxdpReceiverStats) : Impl :=
  mkImpl (mkXdpConfig [118; 101; 116; 104; 49] 7 0 64 4 [] [] true) 5 (Mapped 256) 256 64 4 fp rp rc witness_off witness_off
    (Mapped 4096) (Mapped 4096) st.
Definition w_sh (m : Z -> Z) (third fp len rp rc : Z) : Shared :=
  mkShared m [0; 64; third; 0] fp [mkDesc 0 len; mkDesc 0 0; mkDesc 0 0; mkDesc 0 0] rp rc.

Lemma w_open : open witness_env (impl_init witness_cfg) [] =
  Some (true, w_im 2 0 0 xdp_stats_init, [RxRingMap; FillRingMap; XdpSocket; UmemArea], w_sh (fun _ => 0) 0 2 0 0 0).
Proof. vm_compute. reflexivity. Qed.

Lemma w_fresh : fresh 2 0 (i_cfg (impl_init witness_cfg)) witness_env.
Proof. split; cbn; done || lia. Qed.

Lemma w_fits : env_fits witness_env (2 ^ 2).
Proof. intros fo ro [= <-] [= <-]. split; [split|split| |]; by split. Qed.

(** The kernel takes a frame, fills it and hands it over ... *)
Lemma w_delivered : xdp_steps 64 (after_open witness_env (w_im 2 0 0 xdp_stats_init) (w_sh (fun _ => 0) 0 2 0 0 0))
  (mkSystem (w_im 2 0 0 xdp_stats_init) (w_sh w_memory 0 2 45 1 0) RxReady [] 1 [] [w_packet]).
Proof.
  apply (xdp_more _ _ (mkSystem (w_im 2 0 0 xdp_stats_init) (w_sh w_memory 0 2 0 0 0) RxReady [] 1 [0] []));
    [|right; refine (k_deliver (w_im 2 0 0 xdp_stats_init) (w_sh w_memory 0 2 0 0 0) RxReady [] 1 [] 0 [] [] 0 w_packet _ _ _ _ _); by vm_compute].
  apply (xdp_more _ _ (mkSystem (w_im 2 0 0 xdp_stats_init) (w_sh (fun _ => 0) 0 2 0 0 0) RxReady [] 1 [0] [])).
  - apply (xdp_more _ _ (after_open witness_env (w_im 2 0 0 xdp_stats_init) (w_sh (fun _ => 0) 0 2 0 0 0))); [apply xdp_refl|].
    right. by refine (k_take (w_im 2 0 0 xdp_stats_init) (w_sh (fun _ => 0) 0 2 0 0 0) RxReady [] 0 [] [] 0 _ _).
  - right. refine (k_write (w_im 2 0 0 xdp_stats_init) (w_sh (fun _ => 0) 0 2 0 0 0) RxReady [] 1 [0] [] w_memory _). intros a Ha. unfold w_memory. case_match eqn:E; [|done].
    apply Z.leb_le in E. apply nth_overflow. apply not_elem_of_cons in Ha as [Ha _]. change (length w_packet) with 45%nat.
    assert (64 <= a); [|lia]. apply Z.nlt_ge. intros Hlt. apply Ha. unfold frame_of. cbn [frame_size w_im]. by rewrite Z.div_small by lia.
Qed.

(** ... and it is received. *)
Lemma w_steps (clock : Z) :
  xdp_steps 64 (after_open witness_env (w_im 2 0 0 xdp_stats_init) (w_sh (fun _ => 0) 0 2 0 0 0))
    (mkSystem (w_im 3 1 1 (mkXdpStats 1 45 1 0)) (w_sh w_memory 0 3 45 1 1) RxReady [RecvData [1; 2; 3] clock] 1 [] [w_packet]).
Proof.
  apply (xdp_more _ _ (mkSystem (w_im 2 1 1 (mkXdpStats 1 45 1 0)) (w_sh w_memory 0 2 45 1 1) (RxReturning 0 (RecvData [1; 2; 3] clock)) [] 1 [] [w_packet]));
    [|left; by apply rx_returned].
  apply (xdp_more _ _ (mkSystem (w_im 2 1 1 xdp_stats_init) (w_sh w_memory 0 2 45 1 1) (RxHolding (mkDesc 0 45)) [] 1 [] [w_packet]));
    [|left; apply (rx_copied _ _ _ _ _ _ _ (mkDesc 0 45) clock); vm_compute; reflexivity].
  apply (xdp_more _ _ _ _ w_delivered). left. apply rx_taken. vm_compute. reflexivity.
Qed.

Lemma frames_in_custody_witness : exists s, s_out s = [RecvData [1; 2; 3] 5] /\ exists F R seen later,
    (map (frame_of (s_im s)) F ++ k_taken s ++ map (frame_of (s_im s)) (map d_addr R) ++ held_frames (s_im s) (s_pc s) ≡ₚ seqZ 0 (2 ^ 2 / 2)) /\
    (window (2 ^ 2) (fill_ring (s_sh s)) (k_fill_cons s) F /\ u32 (fill_producer (s_sh s)) = k_fill_cons s +32 Z.of_nat (length F)) /\
    (window (2 ^ 2) (rx_ring (s_sh s)) (rx_consumer (s_sh s)) R /\ rx_producer (s_sh s) = rx_consumer (s_sh s) + Z.of_nat (length R)) /\
    match s_pc s with
    | RxReady => env_fits witness_env (2 ^ 2) -> is_Some (rx_take (s_im s) (s_sh s))
    | RxHolding d => forall now, is_Some (rx_copy 64 now (s_im s) (s_sh s) d)
    | RxReturning addr _ => env_fits witness_env (2 ^ 2) -> is_Some (fill_return (s_im s) (s_sh s) addr)
    end /\
    k_packets s = seen ++ later /\ Forall2 (result_of 64) seen (s_out s) /\
    length later = (length (held_frames (s_im s) (s_pc s)) + length R)%nat.
Proof.
  eexists. split; [|eapply (frames_in_custody 2 0 64); [lia|exact w_fresh|exact w_open|exact (w_steps 5)|by vm_compute]]. reflexivity.
Defined.

Lemma recv_catches_up_witness : exists im1 sh1 im2,
    recv_many 64 [5] (w_im 2 0 0 xdp_stats_init) (w_sh w_memory 0 2 45 1 0) = Some ([RecvData [1; 2; 3] 5], im1, sh1) /\
    recv 64 9 im1 sh1 = Some (RecvNone, im2, sh1).
Proof.
  apply (recv_catches_up 2 0 64 _ _ _ _ _ _ _ [5] 9 ltac:(lia) ltac:(done) w_fresh w_fits w_open w_delivered); by vm_compute.
Defined.

(** The kernel's counter has 32 bits and the program's 64: when the kernel's
    wraps, the ring is empty and the program still reads an old descriptor. *)
Example receive_counter_wraps :
  let sh := mkShared (fun _ => 0) [0; 0; 0; 0] 2 (replicate 4 (mkDesc 64 45)) (2 ^ 32 - 1 +32 1) (2 ^ 32) in
  let im := set_rx_cons (2 ^ 32) (w_im 2 0 0 xdp_stats_init) in
  u32 (rx_producer sh) = u32 (rx_consumer sh) /\ exists im' sh', rx_take im sh = Some (Some (mkDesc 64 45), im', sh').
Proof. split; [reflexivity|]. by eexists _, _. Qed.
