(* ===== verification/Spsc.v ===== *)
(** * The single-producer single-consumer ring (include/mf/core/spsc_ring.hpp)

    The operations as sequential functions, and the same code as a step
    relation in which the producer and the consumer interleave their accesses.
    An atomic index is its modification order: a thread that loads the other
    thread's index reads any value not older than the last one it read, which
    is what release stores and acquire loads allow. The slots are plain memory,
    which is sound because no slot is ever accessed by both threads at once
    ([spsc_race_free]). *)

From S2P Require Import Prelude.
From stdpp Require Import relations.

#[local] Open Scope list_scope.
#[local] Open Scope Z_scope.

Section ring.
(** The template parameters: the element type and [Size = 2^k]. *)
Context {T : Type} (k : nat).

Definition ring_size : Z := 2 ^ Z.of_nat k.

Definition mask_ : Z := ring_size - 1.

(** [(i + 1U) & mask_] *)
Definition ring_next (i : Z) : Z := Z.land (i + 1) mask_.

(** ** The operations *)

Record SPSCRingBuffer := mkRing { head_ : Z; tail_ : Z; buffer_ : list T }.

(** The constructor: external storage of the right capacity is used, otherwise
    the ring's own array. *)
Definition ring_init (owned : list T) (external_storage : option (list T)) (capacity : Z) : SPSCRingBuffer :=
  mkRing 0 0
    (match external_storage with
     | None => owned
     | Some storage => if negb (capacity =? ring_size) then owned else storage
     end).

Definition try_push (item : T) (r : SPSCRingBuffer) : bool * SPSCRingBuffer :=
  let head := head_ r in
  let next := ring_next head in
  if next =? tail_ r then (false, r)
  else (true, mkRing next (tail_ r) (<[Z.to_nat head := item]> (buffer_ r))).

(** [None]: the ring is empty ([buffer_ !! tail] always exists, see
    [ring_indices_in_range]). *)
Definition try_pop (r : SPSCRingBuffer) : option T * SPSCRingBuffer :=
  let tail := tail_ r in
  if tail =? head_ r then (None, r)
  else (buffer_ r !! Z.to_nat tail, mkRing (head_ r) (ring_next tail) (buffer_ r)).

Definition spsc_size (r : SPSCRingBuffer) : Z :=
  let head := head_ r in
  let tail := tail_ r in
  if head >=? tail then head - tail else ring_size - (tail - head).

(** ** The two threads

    Where a thread is in its operation, with its local variables. *)

Inductive Producer :=
  | PIdle
  | PLoaded (item : T) (head : Z)
  | PRoom (item : T) (head next : Z)
  | PWritten (item : T) (next : Z).

Inductive Consumer :=
  | CIdle
  | CLoaded (tail : Z)
  | CReady (tail : Z)
  | CRead (tail : Z) (item : T).

(** [head_mo], [tail_mo]: the values stored into the indices, oldest first.
    [p_seen], [c_seen]: how far into the other thread's index each has read.
    [pushed], [popped]: the items of the completed operations. *)
Record Threads := mkThreads {
  head_mo : list Z; tail_mo : list Z; slots : list T;
  producer : Producer; p_seen : nat;
  consumer : Consumer; c_seen : nat;
  pushed : list T; popped : list T;
}.

Definition threads_init (buffer : list T) : Threads :=
  mkThreads [0] [0] buffer PIdle 0 CIdle 0 [] [].

Inductive step : Threads -> Threads -> Prop :=
  (** [head_.load(relaxed)]: a thread reads its own index exactly *)
  | push_call item head hm tm bs ps c cs hs os :
      last hm = Some head ->
      step (mkThreads hm tm bs PIdle ps c cs hs os) (mkThreads hm tm bs (PLoaded item head) ps c cs hs os)
  (** [if (next == tail_.load(acquire)) return false] *)
  | push_full item head hm tm bs ps t c cs hs os :
      (ps <= t)%nat -> tm !! t = Some (ring_next head) ->
      step (mkThreads hm tm bs (PLoaded item head) ps c cs hs os) (mkThreads hm tm bs PIdle t c cs hs os)
  | push_room item head tail hm tm bs ps t c cs hs os :
      (ps <= t)%nat -> tm !! t = Some tail -> ring_next head <> tail ->
      step (mkThreads hm tm bs (PLoaded item head) ps c cs hs os)
           (mkThreads hm tm bs (PRoom item head (ring_next head)) t c cs hs os)
  (** [buffer_ptr()[head] = item] *)
  | push_write item head next hm tm bs ps c cs hs os :
      step (mkThreads hm tm bs (PRoom item head next) ps c cs hs os)
           (mkThreads hm tm (<[Z.to_nat head := item]> bs) (PWritten item next) ps c cs hs os)
  (** [head_.store(next, release)]; return true *)
  | push_store item next hm tm bs ps c cs hs os :
      step (mkThreads hm tm bs (PWritten item next) ps c cs hs os)
           (mkThreads (hm ++ [next]) tm bs PIdle ps c cs (hs ++ [item]) os)
  | pop_call tail hm tm bs p ps cs hs os :
      last tm = Some tail ->
      step (mkThreads hm tm bs p ps CIdle cs hs os) (mkThreads hm tm bs p ps (CLoaded tail) cs hs os)
  (** [if (tail == head_.load(acquire)) return false] *)
  | pop_empty tail hm tm bs p ps cs t hs os :
      (cs <= t)%nat -> hm !! t = Some tail ->
      step (mkThreads hm tm bs p ps (CLoaded tail) cs hs os) (mkThreads hm tm bs p ps CIdle t hs os)
  | pop_ready tail head hm tm bs p ps cs t hs os :
      (cs <= t)%nat -> hm !! t = Some head -> tail <> head ->
      step (mkThreads hm tm bs p ps (CLoaded tail) cs hs os) (mkThreads hm tm bs p ps (CReady tail) t hs os)
  (** [item = buffer_ptr()[tail]] *)
  | pop_read tail item hm tm bs p ps cs hs os :
      bs !! Z.to_nat tail = Some item ->
      step (mkThreads hm tm bs p ps (CReady tail) cs hs os) (mkThreads hm tm bs p ps (CRead tail item) cs hs os)
  (** [tail_.store((tail + 1U) & mask_, release)]; return true *)
  | pop_store tail item hm tm bs p ps cs hs os :
      step (mkThreads hm tm bs p ps (CRead tail item) cs hs os)
           (mkThreads hm (tm ++ [ring_next tail]) bs p ps CIdle cs hs (os ++ [item])).

Definition reachable (s : Threads) : Prop :=
  exists buffer, Z.of_nat (length buffer) = ring_size /\ rtc step (threads_init buffer) s.

(** ** Positions

    The [i]-th item ever pushed lives in slot [pos i]. *)

Definition pos (i : nat) : Z := Z.of_nat i mod ring_size.

Lemma ring_size_pos : 0 < ring_size.
Proof. apply Z.pow_pos_nonneg; lia. Qed.

Lemma pos_range i : 0 <= pos i < ring_size.
Proof. apply Z.mod_pos_bound, ring_size_pos. Qed.

Lemma ring_next_mod i : ring_next i = (i + 1) mod ring_size.
Proof.
  unfold ring_next, mask_, ring_size. rewrite <-Z.land_ones by lia. by rewrite Z.ones_equiv.
Qed.

Lemma ring_next_pos i : ring_next (pos i) = pos (S i).
Proof.
  rewrite ring_next_mod. unfold pos. rewrite Nat2Z.inj_succ, Zplus_mod_idemp_l. f_equal.
Qed.

(** Positions less than a ring apart do not share a slot. *)
Lemma ring_pos_inj i j : (i <= j)%nat -> Z.of_nat j < Z.of_nat i + ring_size -> pos i = pos j -> i = j.
Proof.
  unfold pos. intros Hij Hlt E. pose proof ring_size_pos.
  assert ((Z.of_nat j - Z.of_nat i) mod ring_size = 0) as Hm.
  { rewrite Zminus_mod, E, Z.sub_diag. apply Z.mod_0_l. lia. }
  rewrite Z.mod_small in Hm; lia.
Qed.

Lemma pos_slot_inj i j : Z.to_nat (pos i) = Z.to_nat (pos j) -> pos i = pos j.
Proof. pose proof (pos_range i). pose proof (pos_range j). lia. Qed.

(** ** The invariant *)

(** The modification order of an index stored [n] times. *)
Definition stores (n : nat) : list Z := map pos (seq 0 (S n)).

Lemma stores_snoc n : stores n ++ [pos (S n)] = stores (S n).
Proof. unfold stores. by rewrite (seq_S (S n)), map_app. Qed.

Lemma length_stores n : length (stores n) = S n.
Proof. unfold stores. by rewrite length_map, length_seq. Qed.

Lemma last_stores n : last (stores n) = Some (pos n).
Proof. destruct n; [done|]. rewrite <-stores_snoc, last_snoc. done. Qed.

Lemma lookup_stores n t v : stores n !! t = Some v -> v = pos t /\ (t <= n)%nat.
Proof.
  unfold stores. intros (i & -> & Hi)%list_lookup_fmap_Some. apply lookup_seq in Hi as [-> ?].
  split; [done|lia].
Qed.

Record ring_inv (s : Threads) : Prop := {
  ri_head : head_mo s = stores (length (pushed s));
  ri_tail : tail_mo s = stores (length (popped s));
  ri_slots : Z.of_nat (length (slots s)) = ring_size;
  ri_room : Z.of_nat (length (pushed s)) < Z.of_nat (p_seen s) + ring_size;
  ri_p_seen : (p_seen s <= length (popped s))%nat;
  ri_c_seen : (length (popped s) <= c_seen s <= length (pushed s))%nat;
  ri_popped : popped s = take (length (popped s)) (pushed s);
  ri_items i : (length (popped s) <= i < length (pushed s))%nat ->
    slots s !! Z.to_nat (pos i) = pushed s !! i;
  ri_producer :
    let h := length (pushed s) in
    match producer s with
    | PIdle => True
    | PLoaded _ head => head = pos h
    | PRoom _ head next => head = pos h /\ next = pos (S h) /\ Z.of_nat (S h) < Z.of_nat (p_seen s) + ring_size
    | PWritten item next =>
        next = pos (S h) /\ Z.of_nat (S h) < Z.of_nat (p_seen s) + ring_size /\
        slots s !! Z.to_nat (pos h) = Some item
    end;
  ri_consumer :
    let t := length (popped s) in
    match consumer s with
    | CIdle => True
    | CLoaded tail => tail = pos t
    | CReady tail => tail = pos t /\ (t < c_seen s)%nat
    | CRead tail item => tail = pos t /\ (t < c_seen s)%nat /\ pushed s !! t = Some item
    end;
}.

Lemma ring_inv_init buffer : Z.of_nat (length buffer) = ring_size -> ring_inv (threads_init buffer).
Proof.
  intros Hb. pose proof ring_size_pos. assert (pos 0 = 0) as H0 by (unfold pos; by rewrite Z.mod_0_l by lia).
  split; simpl; try done; try lia; unfold stores; simpl; by rewrite H0.
Qed.

(** The slot the producer writes holds no item the consumer has not taken. *)
Lemma write_slot_free s i : ring_inv s ->
  Z.of_nat (S (length (pushed s))) < Z.of_nat (p_seen s) + ring_size ->
  (length (popped s) <= i < length (pushed s))%nat ->
  Z.to_nat (pos (length (pushed s))) <> Z.to_nat (pos i).
Proof.
  intros Hi Hroom Hlt E. pose proof (ri_p_seen s Hi).
  apply pos_slot_inj in E. symmetry in E. apply ring_pos_inj in E; lia.
Qed.

Lemma ring_inv_step s s' : step s s' -> ring_inv s -> ring_inv s'.
Proof.
  intros Hs Hi. pose proof (write_slot_free s) as Hfree. specialize (Hfree) with (1 := Hi).
  destruct Hi as [Hh Ht Hn Hr Hp Hc Hpo Hit Hpr Hco].
  destruct Hs; simpl in *; subst;
    repeat match goal with
    | H : last _ = Some _ |- _ => rewrite last_stores in H; injection H as <-
    | H : stores _ !! _ = Some _ |- _ => apply lookup_stores in H as [? ?]
    end; destruct_and?; subst.
  - by constructor.
  - constructor; simpl; try done; lia.
  - constructor; simpl; try done; try lia. split; [done|]. split; [apply ring_next_pos|].
    rewrite ring_next_pos in *. destruct (decide (Z.of_nat (S (length hs)) = Z.of_nat t + ring_size)); [|lia].
    exfalso. match goal with H : pos _ <> pos _ |- _ => apply H end.
    unfold pos. rewrite e, <-Zplus_mod_idemp_r, Z_mod_same_full, Z.add_0_r. done.
  - constructor; simpl; try done; try lia.
    + by rewrite length_insert.
    + intros i Hi. rewrite list_lookup_insert_ne by (by apply Hfree). by apply Hit.
    + split_and!; [done|done|]. apply list_lookup_insert_eq. pose proof (pos_range (length hs)). lia.
  - constructor; simpl; rewrite ?length_app; simpl; rewrite ?Nat.add_1_r; try done; try lia.
    + apply stores_snoc.
    + rewrite take_app_le by lia. done.
    + intros i Hi. destruct (decide (i = length hs)) as [->|].
      * rewrite lookup_app_r, Nat.sub_diag by lia. done.
      * rewrite lookup_app_l by lia. apply Hit. lia.
    + destruct c; try done. destruct_and!. split_and!; try done. by apply lookup_app_l_Some.
  - by constructor.
  - constructor; simpl; try done; lia.
  - constructor; simpl; try done; try lia. split; [done|].
    destruct (decide (t = length os)); [by subst|lia].
  - constructor; simpl; try done; try lia. split_and!; try done. rewrite <-Hit by lia. done.
  - constructor; simpl; rewrite ?length_app; simpl; rewrite ?Nat.add_1_r; try done; try lia.
    + rewrite ring_next_pos. apply stores_snoc.
    + by rewrite (take_S_r _ _ item), <-Hpo by done.
    + intros i Hi. apply Hit. lia.
Qed.

Lemma reachable_inv s : reachable s -> ring_inv s.
Proof.
  intros (b & Hb & Hr). assert (ring_inv (threads_init b)) as Hi by by apply ring_inv_init.
  clear Hb. revert Hi. induction Hr as [|x y z Hs _ IH]; [done|]. intros Hi. apply IH. by eapply ring_inv_step.
Qed.
(** ** Safety of the interleaved code *)

(** C13. However the two threads interleave and however stale the indices they read,
    what was popped is an initial part of what was pushed, in order, nothing
    lost, repeated or invented, and what is in flight fits the ring. *)
Theorem spsc_fifo s : reachable s ->
  exists queue, pushed s = popped s ++ queue /\ Z.of_nat (length queue) < ring_size.
Proof.
  intros Hr. destruct (reachable_inv s Hr). exists (drop (length (popped s)) (pushed s)). split.
  - rewrite ri_popped0 at 1. by rewrite take_drop.
  - rewrite length_drop. lia.
Qed.

(** The slot a thread is about to access, if any. *)
Definition writes_slot (p : Producer) : option nat :=
  match p with PRoom _ head _ => Some (Z.to_nat head) | _ => None end.

Definition reads_slot (c : Consumer) : option nat :=
  match c with CReady tail => Some (Z.to_nat tail) | _ => None end.

(** C14. There is no data race: the slot the producer is about to write and the slot
    the consumer is about to read are inside the array and never the same. *)
Theorem spsc_race_free s : reachable s ->
  (forall i, writes_slot (producer s) = Some i -> (i < length (slots s))%nat) /\
  (forall i, reads_slot (consumer s) = Some i -> (i < length (slots s))%nat) /\
  (forall i j, writes_slot (producer s) = Some i -> reads_slot (consumer s) = Some j -> i <> j).
Proof.
  intros Hr%reachable_inv. pose proof (write_slot_free s) as Hfree. specialize (Hfree) with (1 := Hr).
  destruct Hr. split_and!.
  - intros i Hw. destruct (producer s); try done. injection Hw as <-. simpl in *. destruct_and!. subst.
    pose proof (pos_range (length (pushed s))). lia.
  - intros i Hc. destruct (consumer s); try done. injection Hc as <-. simpl in *. destruct_and!. subst.
    pose proof (pos_range (length (popped s))). lia.
  - intros i j Hw Hc. destruct (producer s); try done. destruct (consumer s); try done.
    injection Hw as <-. injection Hc as <-. simpl in *. destruct_and!. subst. apply Hfree; [done|lia].
Qed.

(** ** The sequential operations *)

(** A ring holding [queue]: its contents from [tail_] on. *)
Record holds (r : SPSCRingBuffer) (queue : list T) : Prop := {
  ho_slots : Z.of_nat (length (buffer_ r)) = ring_size;
  ho_bound : Z.of_nat (length queue) < ring_size;
  ho_tail : 0 <= tail_ r < ring_size;
  ho_head : head_ r = (tail_ r + Z.of_nat (length queue)) mod ring_size;
  ho_items i x : queue !! i = Some x ->
    buffer_ r !! Z.to_nat ((tail_ r + Z.of_nat i) mod ring_size) = Some x;
}.

Lemma tail_plus_inj t i j : 0 <= i < ring_size -> 0 <= j < ring_size ->
  (t + i) mod ring_size = (t + j) mod ring_size -> i = j.
Proof.
  intros Hi Hj E. pose proof ring_size_pos.
  assert ((i - j) mod ring_size = 0) as Hm.
  { replace (i - j) with ((t + i) - (t + j)) by lia. rewrite Zminus_mod, E, Z.sub_diag. apply Z.mod_0_l. lia. }
  destruct (Z.le_ge_cases j i).
  - rewrite Z.mod_small in Hm; lia.
  - assert ((j - i) mod ring_size = 0) as Hm'.
    { replace (j - i) with (- (i - j)) by lia. apply Z.mod_opp_l_z; lia. }
    rewrite Z.mod_small in Hm'; lia.
Qed.

Lemma ring_init_holds owned ext capacity : Z.of_nat (length owned) = ring_size ->
  (forall st, ext = Some st -> Z.of_nat (length st) = capacity) -> holds (ring_init owned ext capacity) [].
Proof.
  intros Ho He. pose proof ring_size_pos. unfold ring_init. split; cbn [buffer_ tail_ head_ length]; try lia; try done.
  destruct ext as [st|]; [|done]. destruct (Z.eqb_spec capacity ring_size); cbn [negb]; [|done].
  rewrite (He st); done.
Qed.
Lemma try_push_holds r queue item : holds r queue ->
  let '(ok, r') := try_push item r in
  ok = (Z.of_nat (length queue) + 1 <? ring_size) /\
  holds r' (if ok then queue ++ [item] else queue).
Proof.
  intros [Hs Hb Ht Hh Hi]. unfold try_push. rewrite ring_next_mod, Hh, Zplus_mod_idemp_l.
  destruct (Z.eqb_spec ((tail_ r + Z.of_nat (length queue) + 1) mod ring_size) (tail_ r)) as [E|E].
  - split; [|by split]. symmetry. apply Z.ltb_ge.
    destruct (decide (Z.of_nat (length queue) + 1 < ring_size)); [|lia].
    assert (Z.of_nat (length queue) + 1 = 0); [|lia]. apply (tail_plus_inj (tail_ r)); [lia|lia|].
    rewrite Z.add_assoc, E, Z.add_0_r, Z.mod_small; lia.
  - assert (Z.of_nat (length queue) + 1 < ring_size) as Hlt.
    { destruct (decide (Z.of_nat (length queue) + 1 = ring_size)) as [E'|]; [|lia]. exfalso. apply E.
      rewrite <-Z.add_assoc, E', <-Zplus_mod_idemp_r, Z_mod_same_full, Z.add_0_r, Z.mod_small; lia. }
    split; [symmetry; by apply Z.ltb_lt|]. split; cbn [buffer_ tail_ head_]; rewrite ?length_insert, ?length_app; try done.
    + cbn [length]. lia.
    + cbn [length]. f_equal. lia.
    + pose proof (Z.mod_pos_bound (tail_ r + Z.of_nat (length queue)) ring_size).
      intros i x Hx. destruct (decide (i = length queue)) as [->|Hne].
      * rewrite lookup_app_r, Nat.sub_diag in Hx by lia. injection Hx as <-.
        apply list_lookup_insert_eq. lia.
      * assert (i < length queue)%nat by (apply lookup_lt_Some in Hx; rewrite length_app in Hx; cbn in Hx; lia).
        rewrite lookup_app_l in Hx by lia. rewrite list_lookup_insert_ne; [by apply Hi|].
        pose proof (Z.mod_pos_bound (tail_ r + Z.of_nat i) ring_size).
        intros E'. apply Hne, Nat2Z.inj, (tail_plus_inj (tail_ r)); lia.
Qed.

Lemma try_pop_holds r queue : holds r queue ->
  let '(x, r') := try_pop r in x = head queue /\ holds r' (tail queue).
Proof.
  intros [Hs Hb Ht Hh Hi]. unfold try_pop. rewrite Hh. destruct queue as [|y queue].
  - rewrite Z.add_0_r, Z.mod_small, Z.eqb_refl by done. split; [done|]. by split.
  - assert (tail_ r <> (tail_ r + Z.of_nat (length (y :: queue))) mod ring_size) as Hne.
    { intros E. enough (Z.of_nat (length (y :: queue)) = 0) by done.
      apply (tail_plus_inj (tail_ r)); [cbn [length] in *; lia|lia|].
      rewrite <-E, Z.add_0_r, Z.mod_small; lia. }
    apply Z.eqb_neq in Hne as ->. split.
    { change (head (y :: queue)) with (Some y). rewrite <-(Hi 0%nat y eq_refl). by rewrite Z.add_0_r, Z.mod_small. }
    cbn [length list.tail] in *. split; cbn [buffer_ tail_ head_]; rewrite ?ring_next_mod, ?Zplus_mod_idemp_l; try done.
    + lia.
    + apply Z.mod_pos_bound. lia.
    + f_equal. lia.
    + intros i x Hx. rewrite <-(Hi (S i) x Hx), Zplus_mod_idemp_l. do 3 f_equal. lia.
Qed.

Lemma spsc_size_holds r queue : holds r queue -> spsc_size r = Z.of_nat (length queue).
Proof.
  intros [Hs Hb Ht Hh Hi]. unfold spsc_size. rewrite Hh.
  destruct (decide (tail_ r + Z.of_nat (length queue) < ring_size)).
  - rewrite Z.mod_small by lia. destruct (Z.geb_spec (tail_ r + Z.of_nat (length queue)) (tail_ r)); lia.
  - replace ((tail_ r + Z.of_nat (length queue)) mod ring_size) with (tail_ r + Z.of_nat (length queue) - ring_size).
    2: { rewrite <-(Z.mod_small (_ - _) ring_size) at 1 by lia. rewrite Zminus_mod, Z_mod_same_full, Z.sub_0_r. apply Zmod_mod. }
    destruct (Z.geb_spec (tail_ r + Z.of_nat (length queue) - ring_size) (tail_ r)); lia.
Qed.
(** ** Refinement of a bounded queue

    The specification: a list of at most [ring_size - 1] items. *)

Inductive RingOp := Push (item : T) | Pop | Size.
Inductive RingOut := Pushed (ok : bool) | Popped (item : option T) | Sized (n : Z).

Definition ring_op (r : SPSCRingBuffer) (op : RingOp) : RingOut * SPSCRingBuffer :=
  match op with
  | Push item => let '(ok, r) := try_push item r in (Pushed ok, r)
  | Pop => let '(x, r) := try_pop r in (Popped x, r)
  | Size => (Sized (spsc_size r), r)
  end.

Definition queue_op (q : list T) (op : RingOp) : RingOut * list T :=
  match op with
  | Push item => if Z.of_nat (length q) + 1 <? ring_size then (Pushed true, q ++ [item]) else (Pushed false, q)
  | Pop => (Popped (head q), tail q)
  | Size => (Sized (Z.of_nat (length q)), q)
  end.

(** The outputs of a sequence of operations. *)
Fixpoint outputs {St} (f : St -> RingOp -> RingOut * St) (ops : list RingOp) (s : St) : list RingOut :=
  match ops with
  | [] => []
  | op :: ops => let '(out, s) := f s op in out :: outputs f ops s
  end.

Lemma ring_op_holds r q op : holds r q ->
  (ring_op r op).1 = (queue_op q op).1 /\ holds (ring_op r op).2 (queue_op q op).2.
Proof.
  intros H. destruct op as [item| |]; cbn [ring_op queue_op].
  - pose proof (try_push_holds r q item H) as Hp. destruct (try_push item r) as [ok r'].
    destruct Hp as [-> Hr]. by destruct (_ <? _).
  - pose proof (try_pop_holds r q H) as Hp. destruct (try_pop r) as [x r']. by destruct Hp as [-> Hr].
  - by rewrite (spsc_size_holds r q H).
Qed.

(** Used by one thread at a time, the ring is a queue of [Size - 1] items: every
    sequence of operations returns what the queue returns. *)
Theorem ring_refines_queue owned ext capacity ops :
  Z.of_nat (length owned) = ring_size ->
  (forall storage, ext = Some storage -> Z.of_nat (length storage) = capacity) ->
  outputs ring_op ops (ring_init owned ext capacity) = outputs queue_op ops [].
Proof.
  intros Ho He. pose proof (ring_init_holds owned ext capacity Ho He) as H. revert H.
  generalize (ring_init owned ext capacity), (@nil T). induction ops as [|op ops IH]; intros r q H; [done|].
  cbn [outputs]. destruct (ring_op_holds r q op H) as [E Hr].
  destruct (ring_op r op) as [o1 r'], (queue_op q op) as [o2 q']. cbn in E, Hr. subst. f_equal. by apply IH.
Qed.

(** ** The step relation and the functions agree

    A thread that runs an operation to its end, alone and seeing the newest
    indices, does what the function does. *)

Definition ring_of (s : Threads) : option SPSCRingBuffer :=
  match last (head_mo s), last (tail_mo s) with
  | Some h, Some t => Some (mkRing h t (slots s))
  | _, _ => None
  end.

Lemma last_lookup_length (l : list Z) x : last l = Some x -> l !! pred (length l) = Some x.
Proof. by rewrite last_lookup. Qed.

Lemma try_push_steps s r item : ring_inv s -> ring_of s = Some r -> producer s = PIdle ->
  exists s', rtc step s s' /\ ring_of s' = Some (try_push item r).2 /\ producer s' = PIdle /\
    pushed s' = (if (try_push item r).1 then pushed s ++ [item] else pushed s) /\
    consumer s' = consumer s /\ popped s' = popped s.
Proof.
  intros Hi Hr Hp. destruct s as [hm tm bs p ps c cs hs os]. unfold ring_of in *. cbn in *. subst p.
  assert (ps <= pred (length tm))%nat as Hps.
  { pose proof (ri_tail _ Hi) as E. pose proof (ri_p_seen _ Hi) as H. cbn [tail_mo popped p_seen] in E, H.
    by rewrite E, length_stores. }
  destruct (last hm) as [h|] eqn:Eh; [|done]. destruct (last tm) as [t|] eqn:Et; [|done]. injection Hr as <-.
  pose proof (last_lookup_length _ _ Et) as Hl.
  unfold try_push. cbn. destruct (Z.eqb_spec (ring_next h) t) as [E|E].
  - eexists. split.
    { eapply rtc_l; [by apply (push_call item)|]. eapply rtc_l; [apply push_full; [done|by rewrite E]|]. apply rtc_refl. }
    split_and!; cbn; rewrite ?Eh, ?Et; reflexivity.
  - eexists. split.
    { eapply rtc_l; [by apply (push_call item)|]. eapply rtc_l; [by eapply push_room|].
    eapply rtc_l; [apply push_write|]. eapply rtc_l; [apply push_store|]. apply rtc_refl. }
    split_and!; cbn; rewrite ?last_snoc, ?Et; reflexivity.
Qed.

Lemma try_pop_steps s r : ring_inv s -> ring_of s = Some r -> consumer s = CIdle ->
  exists s', rtc step s s' /\ ring_of s' = Some (try_pop r).2 /\ consumer s' = CIdle /\
    popped s' = popped s ++ option_list (try_pop r).1 /\ producer s' = producer s /\ pushed s' = pushed s.
Proof.
  intros Hi Hr Hc. destruct s as [hm tm bs p ps c cs hs os]. unfold ring_of in *. cbn in *. subst c.
  assert (cs <= pred (length hm))%nat as Hcs.
  { pose proof (ri_head _ Hi) as E. pose proof (ri_c_seen _ Hi) as H. cbn [head_mo pushed popped c_seen] in E, H.
    rewrite E, length_stores. simpl. lia. }
  destruct (last hm) as [h|] eqn:Eh; [|done]. destruct (last tm) as [t|] eqn:Et; [|done]. injection Hr as <-.
  pose proof (last_lookup_length _ _ Eh) as Hl.
  unfold try_pop. cbn. destruct (Z.eqb_spec t h) as [E|E].
  - eexists. split.
    { eapply rtc_l; [by apply pop_call|]. eapply rtc_l; [apply pop_empty; [done|by rewrite E]|]. apply rtc_refl. }
    split_and!; cbn; rewrite ?Eh, ?Et, ?app_nil_r; reflexivity.
  - assert (exists x, bs !! Z.to_nat t = Some x) as [x Hx].
    { apply lookup_lt_is_Some_2. pose proof (ri_tail _ Hi) as Etm. pose proof (ri_slots _ Hi) as Hn.
      cbn [tail_mo popped slots] in Etm, Hn. rewrite Etm, last_stores in Et. injection Et as <-.
      pose proof (pos_range (length os)). lia. }
    rewrite Hx. eexists. split.
    { eapply rtc_l; [by apply pop_call|]. eapply rtc_l; [by eapply pop_ready|].
    eapply rtc_l; [by apply pop_read|]. eapply rtc_l; [apply pop_store|]. apply rtc_refl. }
    split_and!; cbn; rewrite ?last_snoc, ?Eh; reflexivity.
Qed.
End ring.

(** ** At concrete inputs *)

Lemma spsc_fifo_witness :
  let s := mkThreads [0; 1] [0; 1] [7; 0] PIdle 0 CIdle 1 [7] [7] in
  reachable 1 s /\ exists queue, pushed s = popped s ++ queue /\ Z.of_nat (length queue) < ring_size 1.
Proof.
  intros s. assert (reachable 1 s) as Hr.
  { exists [0; 0]. split; [done|]. unfold s, threads_init.
    eapply rtc_l; [by apply (push_call 1 7)|]. eapply rtc_l; [apply (push_room 1 7 0 0 _ _ _ _ 0); [simpl; lia|done|vm_compute; done]|].
    eapply rtc_l; [apply push_write|]. eapply rtc_l; [apply push_store|]. eapply rtc_l; [by apply pop_call|].
    eapply rtc_l; [apply (pop_ready 1 0 1 _ _ _ _ _ _ 1); [simpl; lia|done|vm_compute; done]|]. eapply rtc_l; [by apply (pop_read 1 0 7)|].
    eapply rtc_l; [apply pop_store|]. apply rtc_refl. }
  split; [done|]. by apply (spsc_fifo 1 s).
Defined.

Lemma spsc_race_free_witness :
  let s := mkThreads [0; 1] [0] [7; 0; 0; 0] (PRoom 8 1 2) 0 (CReady 0) 1 [7] [] in
  reachable 2 s /\ (forall i j, writes_slot (producer s) = Some i -> reads_slot (consumer s) = Some j -> i <> j).
Proof.
  intros s. assert (reachable 2 s) as Hr.
  { exists [0; 0; 0; 0]. split; [done|]. unfold s, threads_init.
    eapply rtc_l; [by apply (push_call 2 7)|]. eapply rtc_l; [apply (push_room 2 7 0 0 _ _ _ _ 0); [simpl; lia|done|vm_compute; done]|].
    eapply rtc_l; [apply push_write|]. eapply rtc_l; [apply push_store|]. eapply rtc_l; [by apply (push_call 2 8)|].
    eapply rtc_l; [apply (push_room 2 8 1 0 _ _ _ _ 0); [simpl; lia|done|vm_compute; done]|]. eapply rtc_l; [by apply pop_call|].
    eapply rtc_l; [apply (pop_ready 2 0 1 _ _ _ _ _ _ 1); [simpl; lia|done|vm_compute; done]|]. apply rtc_refl. }
  split; [done|]. apply (spsc_race_free 2 s Hr).
Defined.

Lemma ring_refines_queue_witness :
  let ops := [Push 1; Push 2; Push 3; Push 4; Pop; Size; Push 5; Pop; Pop; Pop; Pop] in
  outputs (ring_op 2) ops (ring_init 2 [0; 0; 0; 0] None 4) = outputs (queue_op 2) ops [].
Proof. intros ops. apply (ring_refines_queue 2 [0; 0; 0; 0] None 4 ops); done. Defined.
