(* ===== verification/Spmc.v ===== *)
(** * The seqlock broadcast ring (include/mf/core/spmc_seqlock_ring.hpp)

    One writer publishes into numbered slots; any number of readers copy them
    without taking a lock and check a version word around the copy. The
    operations as sequential functions, and the same code as a step relation in
    which the writer and the readers interleave word by word, an item being the
    sequence of the words the copy moves. The writer's stores reach memory in
    program order (as on x86); the readers never write. *)

From S2P Require Import Prelude.
From stdpp Require Import relations.

#[local] Open Scope list_scope.
#[local] Open Scope Z_scope.

(** ** Versions *)

Definition kNeverWrittenSequence : Z := Z.shiftr (2 ^ 64 - 1) 1.

Definition encode_version (sequence : Z) (write_in_progress : bool) : Z :=
  Z.lor (u64 (Z.shiftl sequence 1)) (if write_in_progress then 1 else 0).

Definition sequence_from_version (version : Z) : Z := Z.shiftr version 1.

Definition is_write_in_progress (version : Z) : bool := negb (Z.land version 1 =? 0).

Lemma encode_version_eq q b : 0 <= q < 2 ^ 63 -> encode_version q b = 2 * q + (if b then 1 else 0).
Proof.
  intros Hq. unfold encode_version. rewrite Z.shiftl_mul_pow2, u64_small by lia. change (2 ^ 1) with 2.
  destruct b; [|rewrite Z.lor_0_r; lia].
  change (q * 2) with (q * 2 ^ 1). rewrite <-Z.shiftl_mul_pow2, Z.lor_comm by lia.
  pose proof (Z.add_lor_land 1 (Z.shiftl q 1)) as Hadd.
  assert (Z.land 1 (Z.shiftl q 1) = 0) as Hz.
  { rewrite Z.land_comm. change 1 with (Z.ones 1) at 2. rewrite Z.land_ones by lia.
    rewrite Z.shiftl_mul_pow2 by lia. apply Z_mod_mult. }
  rewrite Z.shiftl_mul_pow2 in * by lia. change (2 ^ 1) with 2 in *. lia.
Qed.

Lemma sequence_of_encode q b : 0 <= q < 2 ^ 63 -> sequence_from_version (encode_version q b) = q.
Proof.
  intros Hq. rewrite encode_version_eq by done. unfold sequence_from_version. rewrite Z.shiftr_div_pow2 by lia.
  symmetry. apply (Z.div_unique _ _ q (if b then 1 else 0)); destruct b; lia.
Qed.

Lemma in_progress_encode q b : 0 <= q < 2 ^ 63 -> is_write_in_progress (encode_version q b) = b.
Proof.
  intros Hq. rewrite encode_version_eq by done. unfold is_write_in_progress.
  change 1 with (Z.ones 1) at 2. rewrite Z.land_ones by lia. change (2 ^ 1) with 2.
  rewrite Z.mul_comm, Z.add_comm, Z_mod_plus_full. by destruct b.
Qed.

(** A version that is even and has sequence [q] is the one of the complete item
    [q]. *)
Lemma version_of_parts v q : 0 <= q < 2 ^ 63 -> is_write_in_progress v = false -> sequence_from_version v = q ->
  v = encode_version q false.
Proof.
  intros Hq Hv <-. rewrite encode_version_eq by done. unfold is_write_in_progress, sequence_from_version in *.
  apply negb_false_iff, Z.eqb_eq in Hv. change 1 with (Z.ones 1) in Hv. rewrite Z.land_ones in Hv by lia.
  rewrite Z.shiftr_div_pow2 by lia. change (2 ^ 1) with 2 in *. pose proof (Z.div_mod v 2). lia.
Qed.

(** ** The operations *)

Inductive SpmcReadStatus := ReadSuccess | ReadEmpty | ReadOverrun | ReadRetryLimit.

Record SpmcReadResult := mkReadResult { status : SpmcReadStatus; torn_read_retries : Z; overruns : Z }.

Record SpmcReaderCursor := mkCursor {
  next_sequence : Z; observed_published_sequence : Z; cursor_torn_read_retries : Z; cursor_overruns : Z;
}.

Definition cursor_init : SpmcReaderCursor := mkCursor 0 0 0 0.

Section ring.
(** The template parameters: the number of words of an element and
    [Size = 2^k]. *)
Context (words k : nat).

Definition seqlock_size : Z := 2 ^ Z.of_nat k.

Definition slot_of (seq : Z) : nat := Z.to_nat (Z.land seq (seqlock_size - 1)).

Record Slot := mkSlot { version : Z; value : list Z }.

Record SPMCSeqlockRing := mkSeqlock {
  slots_ : list Slot; published_sequence_ : Z; next_sequence_ : Z;
}.

Definition seqlock_init : SPMCSeqlockRing :=
  mkSeqlock (replicate (Z.to_nat seqlock_size) (mkSlot (encode_version kNeverWrittenSequence false) (replicate words 0)))
            0 0.

Definition set_version (i : nat) (v : Z) (slots : list Slot) : list Slot :=
  alter (fun s => mkSlot v (value s)) i slots.

Definition set_word (i j : nat) (w : Z) (slots : list Slot) : list Slot :=
  alter (fun s => mkSlot (version s) (<[j := w]> (value s))) i slots.

Definition set_value (i : nat) (item : list Z) (slots : list Slot) : list Slot :=
  alter (fun s => mkSlot (version s) item) i slots.

(** Always succeeds. *)
Definition try_publish (item : list Z) (r : SPMCSeqlockRing) : SPMCSeqlockRing :=
  let seq := next_sequence_ r in
  let i := slot_of seq in
  let slots := set_version i (encode_version seq true) (slots_ r) in
  let slots := set_value i item slots in
  let slots := set_version i (encode_version seq false) slots in
  let next := seq +64 1 in
  mkSeqlock slots next next.

(** The attempts of a read; [None]: the retry limit. The ring cannot change
    between the two version loads of a reader running alone. *)
Fixpoint read_loop (attempts : nat) (target : Z) (slot : Slot) (retries : Z) : Z * option (list Z) :=
  match attempts with
  | O => (retries, None)
  | S attempts =>
      let before := version slot in
      if is_write_in_progress before || negb (sequence_from_version before =? target)
      then read_loop attempts target slot (retries +64 1)
      else
        let candidate := value slot in
        let after := version slot in
        if (before =? after) && negb (is_write_in_progress after) && (sequence_from_version after =? target)
        then (retries, Some candidate)
        else read_loop attempts target slot (retries +64 1)
  end.

(** What [try_read_next] does before it looks at a slot: the published sequence
    it goes by, or its early result. *)
Definition read_prologue (published_now : Z) (c : SpmcReaderCursor) : SpmcReaderCursor * option SpmcReadResult :=
  let published := observed_published_sequence c in
  let c' := if next_sequence c =? published
            then mkCursor (next_sequence c) published_now (cursor_torn_read_retries c) (cursor_overruns c) else c in
  let published := observed_published_sequence c' in
  if next_sequence c' =? published then (c', Some (mkReadResult ReadEmpty 0 0))
  else if (published >? next_sequence c') && (published -64 next_sequence c' >? seqlock_size) then
    let lost := published -64 next_sequence c' -64 seqlock_size in
    (mkCursor (published -64 seqlock_size) published (cursor_torn_read_retries c') (cursor_overruns c' +64 lost),
     Some (mkReadResult ReadOverrun 0 lost))
  else (c', None).

(** The end of a read that got its item, and of one that gave up. *)
Definition read_done (retries : Z) (c : SpmcReaderCursor) : SpmcReaderCursor :=
  mkCursor (next_sequence c +64 1) (observed_published_sequence c) (cursor_torn_read_retries c +64 retries)
           (cursor_overruns c).

Definition read_gave_up (retries : Z) (c : SpmcReaderCursor) : SpmcReaderCursor :=
  mkCursor (next_sequence c) (observed_published_sequence c) (cursor_torn_read_retries c +64 retries)
           (cursor_overruns c).

(** [out] is the item of a successful read. *)
Definition try_read_next (max_retries : nat) (r : SPMCSeqlockRing) (c : SpmcReaderCursor)
    : SpmcReadResult * option (list Z) * SpmcReaderCursor :=
  match read_prologue (published_sequence_ r) c with
  | (c, Some result) => (result, None, c)
  | (c, None) =>
      match slots_ r !! slot_of (next_sequence c) with
      | None => (mkReadResult ReadEmpty 0 0, None, c)
      | Some slot =>
          match read_loop max_retries (next_sequence c) slot 0 with
          | (retries, Some candidate) => (mkReadResult ReadSuccess retries 0, Some candidate, read_done retries c)
          | (retries, None) => (mkReadResult ReadRetryLimit retries 0, None, read_gave_up retries c)
          end
      end
  end.

(** ** The writer and the readers *)

Inductive Writer :=
  | WIdle
  | WWords (seq : Z) (item : list Z) (j : nat)
  | WClosed (seq : Z).

(** A reader in [try_read_next]: before the first version load of an attempt,
    or copying, with the version it saw and the words copied so far. *)
Inductive ReaderPc :=
  | RIdle
  | RAttempt (attempts : nat) (retries : Z)
  | RCopy (attempts : nat) (retries before : Z) (copied : list Z).

(** [delivered]: the sequence number and the item of each successful read. *)
Record Reader := mkReader { cursor : SpmcReaderCursor; pc : ReaderPc; delivered : list (Z * list Z) }.

Definition reader_init : Reader := mkReader cursor_init RIdle [].

(** [history]: the items whose final version has been stored, oldest first. *)
Record System := mkSystem {
  memory : SPMCSeqlockRing; writer : Writer; history : list (list Z); readers : list Reader;
}.

Definition system_init (n : nat) : System := mkSystem seqlock_init WIdle [] (replicate n reader_init).

(** The writer's stores, in order. *)
Inductive writer_step : SPMCSeqlockRing * Writer * list (list Z) -> SPMCSeqlockRing * Writer * list (list Z) -> Prop :=
  | w_open item ss pub next h :
      length item = words ->
      writer_step (mkSeqlock ss pub next, WIdle, h)
                  (mkSeqlock (set_version (slot_of next) (encode_version next true) ss) pub next, WWords next item 0, h)
  | w_word seq item j w ss pub next h :
      item !! j = Some w ->
      writer_step (mkSeqlock ss pub next, WWords seq item j, h)
                  (mkSeqlock (set_word (slot_of seq) j w ss) pub next, WWords seq item (S j), h)
  | w_close seq item ss pub next h :
      writer_step (mkSeqlock ss pub next, WWords seq item words, h)
                  (mkSeqlock (set_version (slot_of seq) (encode_version seq false) ss) pub next, WClosed seq, h ++ [item])
  | w_publish seq ss pub next h :
      writer_step (mkSeqlock ss pub next, WClosed seq, h)
                  (mkSeqlock ss (next +64 1) (next +64 1), WIdle, h).

(** A reader's loads, in order; [r] is the memory it loads from. *)
Inductive reader_step (r : SPMCSeqlockRing) : Reader -> Reader -> Prop :=
  | r_early c c' result ds :
      read_prologue (published_sequence_ r) c = (c', Some result) ->
      reader_step r (mkReader c RIdle ds) (mkReader c' RIdle ds)
  | r_begin c c' max_retries ds :
      read_prologue (published_sequence_ r) c = (c', None) ->
      reader_step r (mkReader c RIdle ds) (mkReader c' (RAttempt max_retries 0) ds)
  | r_gave_up c retries ds :
      reader_step r (mkReader c (RAttempt 0 retries) ds) (mkReader (read_gave_up retries c) RIdle ds)
  | r_mismatch c attempts retries slot ds :
      slots_ r !! slot_of (next_sequence c) = Some slot ->
      is_write_in_progress (version slot) || negb (sequence_from_version (version slot) =? next_sequence c) = true ->
      reader_step r (mkReader c (RAttempt (S attempts) retries) ds) (mkReader c (RAttempt attempts (retries +64 1)) ds)
  | r_match c attempts retries slot ds :
      slots_ r !! slot_of (next_sequence c) = Some slot ->
      is_write_in_progress (version slot) || negb (sequence_from_version (version slot) =? next_sequence c) = false ->
      reader_step r (mkReader c (RAttempt (S attempts) retries) ds)
                    (mkReader c (RCopy attempts retries (version slot) []) ds)
  | r_word c attempts retries before copied slot w ds :
      slots_ r !! slot_of (next_sequence c) = Some slot -> (length copied < words)%nat ->
      value slot !! length copied = Some w ->
      reader_step r (mkReader c (RCopy attempts retries before copied) ds)
                    (mkReader c (RCopy attempts retries before (copied ++ [w])) ds)
  | r_torn c attempts retries before copied slot ds :
      slots_ r !! slot_of (next_sequence c) = Some slot -> length copied = words ->
      (before =? version slot) && negb (is_write_in_progress (version slot))
        && (sequence_from_version (version slot) =? next_sequence c) = false ->
      reader_step r (mkReader c (RCopy attempts retries before copied) ds)
                    (mkReader c (RAttempt attempts (retries +64 1)) ds)
  | r_success c attempts retries before copied slot ds :
      slots_ r !! slot_of (next_sequence c) = Some slot -> length copied = words ->
      (before =? version slot) && negb (is_write_in_progress (version slot))
        && (sequence_from_version (version slot) =? next_sequence c) = true ->
      reader_step r (mkReader c (RCopy attempts retries before copied) ds)
                    (mkReader (read_done retries c) RIdle (ds ++ [(next_sequence c, copied)])).

Inductive sys_step : System -> System -> Prop :=
  | sys_writer m w h m' w' h' rs :
      writer_step (m, w, h) (m', w', h') -> sys_step (mkSystem m w h rs) (mkSystem m' w' h' rs)
  | sys_reader m w h rs i r r' :
      rs !! i = Some r -> reader_step m r r' -> sys_step (mkSystem m w h rs) (mkSystem m w h (<[i := r']> rs)).

Definition sys_reachable (s : System) : Prop := exists n, rtc sys_step (system_init n) s.

(** Fewer publications than the version word can number. *)
Definition few {A} (h : list A) : Prop := Z.of_nat (length h) < 2 ^ 63 - 1.

(** ** The invariant *)

Lemma encode_inj q b q' b' : 0 <= q < 2 ^ 63 -> 0 <= q' < 2 ^ 63 ->
  encode_version q b = encode_version q' b' -> q = q' /\ b = b'.
Proof.
  intros Hq Hq' E. split.
  - by rewrite <-(sequence_of_encode q b), E, sequence_of_encode.
  - by rewrite <-(in_progress_encode q b), E, in_progress_encode.
Qed.

Lemma lookup_alter_inv {A} (f : A -> A) i j (l : list A) y : alter f i l !! j = Some y ->
  (j = i /\ exists x, l !! i = Some x /\ y = f x) \/ (j <> i /\ l !! j = Some y).
Proof.
  destruct (decide (j = i)) as [->|Hne].
  - rewrite list_lookup_alter_eq. intros (x & E & Hx)%fmap_Some. left. eauto.
  - rewrite list_lookup_alter_ne by done. eauto.
Qed.

Lemma seqlock_size_pos : 0 < seqlock_size.
Proof. apply Z.pow_pos_nonneg; lia. Qed.

Lemma slot_of_lt seq : (slot_of seq < Z.to_nat seqlock_size)%nat.
Proof.
  unfold slot_of, seqlock_size. pose proof seqlock_size_pos as H. unfold seqlock_size in H.
  rewrite Z.sub_1_r, <-Z.ones_equiv, Z.land_ones by lia.
  pose proof (Z.mod_pos_bound seq _ H). lia.
Qed.

(** A slot whose version says item [q] is complete holds item [q]. *)
Definition slot_ok (h : list (list Z)) (s : Slot) : Prop :=
  length (value s) = words /\
  forall q, 0 <= q < 2 ^ 63 - 1 -> version s = encode_version q false -> h !! Z.to_nat q = Some (value s).

Definition writer_ok (m : SPMCSeqlockRing) (w : Writer) (h : list (list Z)) : Prop :=
  let n := Z.of_nat (length h) in
  match w with
  | WIdle => next_sequence_ m = n /\ published_sequence_ m = n
  | WWords seq item j =>
      next_sequence_ m = n /\ published_sequence_ m = n /\ seq = n /\ length item = words /\ (j <= words)%nat /\
      exists s, slots_ m !! slot_of seq = Some s /\ version s = encode_version seq true /\
                take j (value s) = take j item
  | WClosed seq => next_sequence_ m + 1 = n /\ published_sequence_ m + 1 = n
  end.

Record memory_ok (m : SPMCSeqlockRing) (w : Writer) (h : list (list Z)) : Prop := {
  mo_length : length (slots_ m) = Z.to_nat seqlock_size;
  mo_slots : Forall (slot_ok h) (slots_ m);
  mo_writer : writer_ok m w h;
}.

Lemma slot_ok_mono h x s : slot_ok h s -> slot_ok (h ++ [x]) s.
Proof. intros [Hl Hv]. split; [done|]. intros q Hq E. apply lookup_app_l_Some. by apply Hv. Qed.

(** Changing one slot keeps the others. *)
Lemma slots_alter (P : Slot -> Prop) f i ss : Forall P ss ->
  (forall s, ss !! i = Some s -> P s -> P (f s)) -> Forall P (alter f i ss).
Proof.
  rewrite !Forall_lookup. intros H Hf j y Hy.
  apply lookup_alter_inv in Hy as [(-> & x & Hx & ->)|[_ Hy]]; eauto.
Qed.

Lemma few_app {A} (h : list A) x : few (h ++ [x]) -> few h.
Proof. unfold few. rewrite length_app. simpl. lia. Qed.

(** A slot being written holds no complete item. *)
Lemma odd_slot_ok h ver v q : 0 <= q < 2 ^ 63 -> length v = words -> ver = encode_version q true ->
  slot_ok h (mkSlot ver v).
Proof.
  intros Hq Hl E. split; [done|]. cbn [version]. intros q' Hq' E'. rewrite E in E'.
  apply encode_inj in E' as [_ ?]; [done|lia|lia].
Qed.

Lemma writer_step_ok m w h m' w' h' : writer_step (m, w, h) (m', w', h') -> few h' ->
  memory_ok m w h -> memory_ok m' w' h'.
Proof.
  intros Hs Hfew [Hl Hsl Hw]. unfold few in Hfew. inversion Hs; subst; cbn in *; unfold set_version, set_word in *.
  - destruct Hw as [-> ->]. assert (exists s, ss !! slot_of (Z.of_nat (length h')) = Some s) as [s Hsl'].
    { apply lookup_lt_is_Some_2. rewrite Hl. apply slot_of_lt. }
    split; cbn; [by rewrite length_alter| |].
    + apply slots_alter; [done|]. intros s' _ [Hv _]. apply (odd_slot_ok _ _ _ (Z.of_nat (length h'))); [lia|done|done].
    + split_and!; try done; [lia|]. eexists. rewrite list_lookup_alter_eq, Hsl'. done.
  - destruct Hw as (-> & -> & -> & Hi & Hj & s & Hs' & Hv & Ht).
    assert (j < length item)%nat as Hjl by (by eapply lookup_lt_Some).
    split; cbn; [by rewrite length_alter| |].
    + apply slots_alter; [done|]. intros s' Hs'' [Hv' _]. rewrite Hs' in Hs''. injection Hs'' as <-.
      apply (odd_slot_ok _ _ _ (Z.of_nat (length h'))); [lia|by rewrite length_insert|done].
    + split_and!; try done; [lia|]. eexists. rewrite list_lookup_alter_eq, Hs'.
      split; [done|]. split; [done|]. cbn.
      rewrite Forall_lookup in Hsl. destruct (Hsl _ _ Hs') as [Hlen _].
      rewrite (take_S_r _ _ w0), (take_S_r item _ w0) by (try done; apply list_lookup_insert_eq; lia).
      rewrite take_insert_ge by lia. by rewrite Ht.
  - destruct Hw as (-> & -> & -> & Hi & Hj & s & Hs' & Hv & Ht). rewrite length_app in *. cbn in *.
    split; cbn; [by rewrite length_alter| |].
    + apply slots_alter; [eapply Forall_impl; [done|]; intros; by apply slot_ok_mono|].
      intros s' Hs'' [Hv' _]. rewrite Hs' in Hs''. injection Hs'' as <-. split; [done|]. cbn.
      intros q Hq E. apply encode_inj in E as [<- _]; [|lia|lia].
      rewrite Nat2Z.id, lookup_app_r, Nat.sub_diag by done. cbn.
      rewrite take_ge in Ht by lia. rewrite take_ge in Ht by lia. by rewrite Ht.
    + rewrite length_app. cbn. lia.
  - destruct Hw as [Hn Hp]. split; cbn; try done. rewrite u64_small by lia. done.
Qed.

(** A reader stays behind the writer; while the slot still carries the version
    the reader saw, what it copied so far is what the slot holds. *)
Definition pc_ok (m : SPMCSeqlockRing) (next observed : Z) (p : ReaderPc) : Prop :=
  match p with
  | RIdle => True
  | RAttempt _ _ => next < observed
  | RCopy _ _ before copied =>
      next < observed /\ before = encode_version next false /\
      forall s, slots_ m !! slot_of next = Some s -> version s = before -> copied = take (length copied) (value s)
  end.

Record reader_ok (m : SPMCSeqlockRing) (h : list (list Z)) (r : Reader) : Prop := {
  ro_next : 0 <= next_sequence (cursor r) <= observed_published_sequence (cursor r);
  ro_observed : observed_published_sequence (cursor r) <= published_sequence_ m;
  ro_pc : pc_ok m (next_sequence (cursor r)) (observed_published_sequence (cursor r)) (pc r);
  ro_items : Forall (fun d => 0 <= d.1 /\ h !! Z.to_nat d.1 = Some d.2) (delivered r);
  ro_order : StronglySorted Z.lt (map fst (delivered r) ++ [next_sequence (cursor r)]);
}.

(** Where the writer's step changes a slot, its new version is not that of an
    item already complete. *)
Lemma writer_step_slots m w h m' w' h' q s' : writer_step (m, w, h) (m', w', h') -> memory_ok m w h -> few h' ->
  0 <= q < Z.of_nat (length h) -> slots_ m' !! slot_of q = Some s' -> version s' = encode_version q false ->
  slots_ m !! slot_of q = Some s'.
Proof.
  intros Hs [Hl Hsl Hw] Hfew Hq Hs' E. unfold few in Hfew.
  inversion Hs; subst; cbn in *; unfold set_version, set_word in *; try done;
    (apply lookup_alter_inv in Hs' as [(Eq & x & Hx & ->)|[_ Hs']]; [|done]); cbn in E.
  - destruct Hw as [-> _]. apply encode_inj in E as [_ ?]; [done|lia|lia].
  - destruct Hw as (_ & _ & -> & _ & _ & s & Hsq & Hv & _). rewrite Hsq in Hx. injection Hx as <-.
    rewrite Hv in E. apply encode_inj in E as [_ ?]; [done|lia|lia].
  - rewrite length_app in Hfew. cbn in Hfew. destruct Hw as (_ & _ & -> & _). apply encode_inj in E as [E _]; lia.
Qed.

Lemma published_le m w h : memory_ok m w h -> published_sequence_ m <= Z.of_nat (length h).
Proof. intros [_ _ Hw]. destruct w; simpl in Hw; lia. Qed.

Lemma published_mono m w h m' w' h' : writer_step (m, w, h) (m', w', h') -> memory_ok m w h -> few h' ->
  published_sequence_ m <= published_sequence_ m'.
Proof.
  intros Hs [_ _ Hw] Hfew. unfold few in Hfew. inversion Hs; subst; cbn in *; try lia.
  rewrite u64_small; lia.
Qed.

Lemma writer_history m w h m' w' h' : writer_step (m, w, h) (m', w', h') -> exists more, h' = h ++ more.
Proof. intros Hs. inversion Hs; subst; [exists []|exists []|by eexists|exists []]; by rewrite app_nil_r. Qed.

Lemma writer_step_reader m w h m' w' h' r : writer_step (m, w, h) (m', w', h') -> memory_ok m w h -> few h' ->
  reader_ok m h r -> reader_ok m' h' r.
Proof.
  intros Hs Hm Hfew [Hn Ho Hp Hi Hord]. destruct (writer_history _ _ _ _ _ _ Hs) as [more E].
  split; [done| | | |done].
  - pose proof (published_mono _ _ _ _ _ _ Hs Hm Hfew). lia.
  - destruct (pc r) as [|a t|a t before copied]; [done|done|].
    destruct Hp as (Hlt & -> & Hc). split; [done|]. split; [done|].
    intros s' Hs' Ev. apply Hc; [|done]. pose proof (published_le _ _ _ Hm). eapply writer_step_slots; eauto. lia.
  - eapply Forall_impl; [exact Hi|]. intros [q x] [Hq Hx]. split; [done|]. rewrite E. by apply lookup_app_l_Some.
Qed.

Lemma read_prologue_ok m w h c c' res : memory_ok m w h -> few h ->
  0 <= next_sequence c <= observed_published_sequence c -> observed_published_sequence c <= published_sequence_ m ->
  read_prologue (published_sequence_ m) c = (c', res) ->
  next_sequence c <= next_sequence c' <= observed_published_sequence c' /\
  observed_published_sequence c' <= published_sequence_ m /\
  (res = None -> next_sequence c' = next_sequence c /\ next_sequence c' < observed_published_sequence c').
Proof.
  intros Hm%published_le Hfew Hn Ho. unfold few in Hfew. pose proof seqlock_size_pos as Hsz.
  destruct c as [next obs tr ov]. unfold read_prologue. cbn in *.
  assert (forall pub, next <= pub <= published_sequence_ m ->
    (if next =? pub then (mkCursor next pub tr ov, Some (mkReadResult ReadEmpty 0 0))
     else if (pub >? next) && (pub -64 next >? seqlock_size)
     then (mkCursor (pub -64 seqlock_size) pub tr (ov +64 (pub -64 next -64 seqlock_size)),
           Some (mkReadResult ReadOverrun 0 (pub -64 next -64 seqlock_size)))
     else (mkCursor next pub tr ov, None)) = (c', res) ->
    next <= next_sequence c' <= observed_published_sequence c' /\
    observed_published_sequence c' <= published_sequence_ m /\
    (res = None -> next_sequence c' = next /\ next_sequence c' < observed_published_sequence c')) as H.
  { intros pub Hp. destruct (Z.eqb_spec next pub); [intros [= <- <-]; cbn; split_and!; done || lia|].
    destruct (Z.gtb_spec pub next); [|lia]. rewrite (u64_small (pub - next)) by lia. cbn [andb].
    destruct (Z.gtb_spec (pub - next) seqlock_size).
    - rewrite (u64_small (pub - seqlock_size)) by lia. intros [= <- <-]; cbn. split_and!; done || lia.
    - intros [= <- <-]; cbn. split_and!; lia. }
  destruct (Z.eqb_spec next obs) as [->|]; cbn; apply H; lia.
Qed.

Lemma ordered_snoc (l : list Z) x y : StronglySorted Z.lt (l ++ [x]) -> x < y -> StronglySorted Z.lt ((l ++ [x]) ++ [y]).
Proof.
  intros Hs Hlt. apply StronglySorted_snoc; [done|]. apply StronglySorted_app_iff in Hs as (_ & _ & Hf).
  apply Forall_snoc. split; [|done]. eapply Forall_impl; [exact Hf|]. intros z Hz. inversion Hz. lia.
Qed.

Lemma ordered_raise (l : list Z) x y : StronglySorted Z.lt (l ++ [x]) -> x <= y -> StronglySorted Z.lt (l ++ [y]).
Proof.
  intros Hs Hle. apply StronglySorted_app_iff in Hs as (Hl & _ & Hf).
  apply StronglySorted_snoc; [done|]. eapply Forall_impl; [exact Hf|]. intros z Hz. inversion Hz. lia.
Qed.

Lemma reader_step_ok m w h r r' : reader_step m r r' -> memory_ok m w h -> few h ->
  reader_ok m h r -> reader_ok m h r'.
Proof.
  intros Hs Hm Hfew [Hn Ho Hp Hi Hord]. pose proof (published_le m w h Hm) as Hpub. pose proof Hfew as Hfew'.
  unfold few in Hfew'. destruct Hs as [c c' res ds E|c c' max ds E|c t ds|c a t s ds Hs Hb|c a t s ds Hs Hb
    |c a t before copied s x ds Hs Hlt Hx|c a t before copied s ds Hs Hl Hb|c a t before copied s ds Hs Hl Hb];
    cbn in *.
  - destruct (read_prologue_ok _ _ _ _ _ _ Hm Hfew Hn Ho E) as (H1 & H2 & H3).
    split; cbn; try done; [lia|]. eapply ordered_raise; [done|lia].
  - destruct (read_prologue_ok _ _ _ _ _ _ Hm Hfew Hn Ho E) as (H1 & H2 & H3). specialize (H3 eq_refl) as [H3 H4].
    split; cbn; try done; [lia|]. by rewrite H3.
  - by split.
  - by split.
  - split; cbn; try done. split; [done|]. split; [|done]. apply orb_false_iff in Hb as [Hb1 Hb2].
    apply version_of_parts; [lia|done|]. by apply negb_false_iff, Z.eqb_eq in Hb2.
  - destruct Hp as (Hq & Hbef & Hc). split; cbn; try done. split; [done|]. split; [done|].
    intros s' Hs' E. rewrite Hs in Hs'. injection Hs' as <-. rewrite length_app, Nat.add_1_r.
    rewrite (take_S_r _ _ x) by done. by rewrite <-(Hc s Hs E).
  - destruct Hp as (Hq & Hbef & Hc). by split.
  - destruct Hp as (Hq & -> & Hc). apply andb_true_iff in Hb as [[Hb _]%andb_true_iff _]. apply Z.eqb_eq in Hb.
    destruct Hm as [_ Hsl _]. rewrite Forall_lookup in Hsl. destruct (Hsl _ _ Hs) as [Hlen Hv].
    assert (copied = value s) as -> by (rewrite (Hc s Hs ltac:(done)), Hl, <-Hlen; apply take_ge; lia).
    assert (next_sequence c +64 1 = next_sequence c + 1) as Hnext by (rewrite u64_small; lia).
    split; cbn; rewrite ?Hnext; try done; [lia| |].
    + apply Forall_snoc. split; [done|]. cbn. split; [lia|]. apply Hv; [lia|done].
    + rewrite map_app. cbn. apply ordered_snoc; [done|lia].
Qed.

Lemma system_init_ok n : memory_ok seqlock_init WIdle [] /\ Forall (reader_ok seqlock_init []) (replicate n reader_init).
Proof.
  split.
  - split; cbn; [apply length_replicate| |done]. apply Forall_replicate. split; [apply length_replicate|]. cbn.
    intros q Hq E. apply encode_inj in E as [E _]; [|by vm_compute|lia].
    unfold kNeverWrittenSequence in E. change (Z.shiftr (2 ^ 64 - 1) 1) with (2 ^ 63 - 1) in E. lia.
  - apply Forall_replicate. split; cbn; try done. repeat constructor.
Qed.

Lemma sys_inv s : sys_reachable s -> few (history s) ->
  memory_ok (memory s) (writer s) (history s) /\ Forall (reader_ok (memory s) (history s)) (readers s).
Proof.
  intros [n Hr]. revert s Hr. apply (rtc_ind_r (fun s => few (history s) -> _)).
  { intros _. apply system_init_ok. }
  intros s s' _ Hs IH Hfew. destruct Hs as [m w h m' w' h' rs Hs|m w h rs i r r' Hi Hs]; cbn in *.
  - assert (few h) as Hfewh.
    { destruct (writer_history _ _ _ _ _ _ Hs) as [more ->]. unfold few in *. rewrite length_app in Hfew. lia. }
    destruct (IH Hfewh) as [Hm Hrs]. split; [by eapply writer_step_ok|].
    eapply Forall_impl; [exact Hrs|]. intros r Hr. by eapply writer_step_reader.
  - destruct (IH Hfew) as [Hm Hrs]. split; [done|]. apply Forall_insert; [done|].
    eapply reader_step_ok; eauto. by eapply Forall_lookup_1.
Qed.

(** C12. However the writer and the readers interleave, every item a reader delivers
    is, whole, the item that was published under that number, and a reader
    delivers its items in increasing order of their numbers. *)
Theorem no_torn_reads s : sys_reachable s -> few (history s) -> forall i r, readers s !! i = Some r ->
  Forall (fun d => history s !! Z.to_nat d.1 = Some d.2) (delivered r) /\ StronglySorted Z.lt (map fst (delivered r)).
Proof.
  intros Hs Hfew i r Hi. destruct (sys_inv s Hs Hfew) as [_ Hrs]. pose proof (Forall_lookup_1 _ _ _ _ Hrs Hi) as [].
  split; [eapply Forall_impl; [exact ro_items0|]; by intros [q x] [_ H]|].
  by apply StronglySorted_app_iff in ro_order0 as [? _].
Qed.

(** ** A publication alone *)

Lemma alter_alter {A} (f g : A -> A) (i : nat) (l : list A) : alter f i (alter g i l) = alter (f ∘ g) i l.
Proof. revert i. induction l as [|x l IH]; intros [|i]; try done. cbn. f_equal. apply IH. Qed.

Lemma alter_id_at {A} (f : A -> A) (i : nat) (l : list A) x : l !! i = Some x -> f x = x -> alter f i l = l.
Proof.
  intros Hx Hf. apply list_eq. intros j. destruct (decide (i = j)) as [<-|].
  - by rewrite list_lookup_alter_eq, Hx; cbn; rewrite Hf.
  - by rewrite list_lookup_alter_ne.
Qed.

Lemma set_word_value i j w v item ss : item !! j = Some w -> (j < length v)%nat ->
  set_word i j w (set_value i (take j item ++ drop j v) ss) = set_value i (take (S j) item ++ drop (S j) v) ss.
Proof.
  intros Hw Hj. unfold set_word, set_value. rewrite alter_alter. apply list_alter_ext; [|done]. intros s _. unfold compose. cbn.
  f_equal. assert (j < length item)%nat by (by eapply lookup_lt_Some).
  destruct (lookup_lt_is_Some_2 v j Hj) as [y Hy]. rewrite (drop_S _ y) by done.
  rewrite (take_S_r _ _ w) by done. rewrite insert_app_r_alt by (rewrite length_take; lia).
  rewrite length_take_le, Nat.sub_diag by lia. by rewrite <-app_assoc.
Qed.

Lemma words_steps m item h v : length item = words -> length v = words -> forall j, (j <= words)%nat ->
  rtc writer_step
    (mkSeqlock (set_value (slot_of (next_sequence_ m)) (take j item ++ drop j v) (slots_ m))
               (published_sequence_ m) (next_sequence_ m), WWords (next_sequence_ m) item j, h)
    (mkSeqlock (set_value (slot_of (next_sequence_ m)) item (slots_ m))
               (published_sequence_ m) (next_sequence_ m), WWords (next_sequence_ m) item words, h).
Proof.
  intros Hi Hv j Hj. remember (words - j)%nat as d eqn:Hd. revert j Hj Hd. induction d as [|d IH]; intros j Hj Hd.
  - assert (j = words) as -> by lia. rewrite take_ge, drop_ge, app_nil_r by lia. apply rtc_refl.
  - destruct (lookup_lt_is_Some_2 item j) as [w Hw]; [lia|].
    eapply rtc_l; [by apply w_word|]. rewrite set_word_value by (done || lia). apply IH; lia.
Qed.

Lemma set_value_self i v ss s0 : ss !! i = Some s0 -> value s0 = v -> set_value i v ss = ss.
Proof. intros Hs Hv. eapply alter_id_at; [done|]. destruct s0; cbn in *; by subst. Qed.

(** The writer running alone does what [try_publish] does. *)
Lemma publish_steps m h item : memory_ok m WIdle h -> length item = words ->
  rtc writer_step (m, WIdle, h) (try_publish item m, WIdle, h ++ [item]).
Proof.
  intros [Hl Hsl Hw] Hi. destruct m as [ss pub next]. cbn in Hl, Hsl.
  destruct (lookup_lt_is_Some_2 ss (slot_of next)) as [s0 Hs0]; [rewrite Hl; apply slot_of_lt|].
  rewrite Forall_lookup in Hsl. destruct (Hsl _ _ Hs0) as [Hv _].
  set (ss1 := set_version (slot_of next) (encode_version next true) ss).
  assert (ss1 !! slot_of next = Some (mkSlot (encode_version next true) (value s0))) as Hs1.
  { unfold ss1, set_version. by rewrite list_lookup_alter_eq, Hs0. }
  eapply rtc_l; [by apply (w_open item)|]. fold ss1.
  etrans.
  { pose proof (words_steps (mkSeqlock ss1 pub next) item h (value s0) Hi Hv 0 ltac:(lia)) as H.
    cbn [next_sequence_ slots_ published_sequence_] in H.
    change (take 0 item ++ drop 0 (value s0)) with (value s0) in H.
    rewrite (set_value_self _ (value s0) _ _ Hs1) in H by done. exact H. }
  cbn. eapply rtc_l; [apply w_close|]. eapply rtc_l; [apply w_publish|]. apply rtc_refl.
Qed.

(** ** A read alone *)

Lemma copy_steps m c s a t before ds : slots_ m !! slot_of (next_sequence c) = Some s -> length (value s) = words ->
  forall j, (j <= words)%nat ->
  rtc (reader_step m) (mkReader c (RCopy a t before (take j (value s))) ds) (mkReader c (RCopy a t before (value s)) ds).
Proof.
  intros Hs Hl j Hj. remember (words - j)%nat as d eqn:Hd. revert j Hj Hd. induction d as [|d IH]; intros j Hj Hd.
  - rewrite take_ge by lia. apply rtc_refl.
  - destruct (lookup_lt_is_Some_2 (value s) j) as [x Hx]; [lia|]. eapply rtc_l; [|apply (IH (S j)); lia].
    rewrite (take_S_r _ _ x) by done.
    eapply (r_word m c a t before _ s x); [done| |]; rewrite length_take_le by lia; [lia|done].
Qed.

Lemma read_loop_steps m c s ds : slots_ m !! slot_of (next_sequence c) = Some s -> length (value s) = words -> forall a t,
  rtc (reader_step m) (mkReader c (RAttempt a t) ds)
    (match read_loop a (next_sequence c) s t with
     | (t', Some x) => mkReader (read_done t' c) RIdle (ds ++ [(next_sequence c, x)])
     | (t', None) => mkReader (read_gave_up t' c) RIdle ds
     end).
Proof.
  intros Hs Hl. induction a as [|a IH]; intros t; cbn [read_loop].
  - eapply rtc_l; [apply r_gave_up|]. apply rtc_refl.
  - destruct (is_write_in_progress (version s) || negb (sequence_from_version (version s) =? next_sequence c)) eqn:E.
    { eapply rtc_l; [by eapply r_mismatch|]. apply IH. }
    eapply rtc_l; [by eapply r_match|]. etrans; [apply (copy_steps m c s a t _ ds Hs Hl 0); lia|].
    destruct ((version s =? version s) && negb (is_write_in_progress (version s))
      && (sequence_from_version (version s) =? next_sequence c)) eqn:E2.
    + eapply rtc_l; [by eapply r_success|]. apply rtc_refl.
    + eapply rtc_l; [by eapply r_torn|]. apply IH.
Qed.

(** A reader running alone does what [try_read_next] does. *)
Lemma read_steps m w h c ds max_retries : memory_ok m w h ->
  let '(_, out, c') := try_read_next max_retries m c in
  exists c'', rtc (reader_step m) (mkReader c RIdle ds)
    (mkReader c' RIdle (ds ++ match out with Some x => [(next_sequence c'', x)] | None => [] end)).
Proof.
  intros [Hl Hsl _]. unfold try_read_next. destruct (read_prologue (published_sequence_ m) c) as [c' [res|]] eqn:E.
  { exists c'. rewrite app_nil_r. eapply rtc_l; [by eapply r_early|]. apply rtc_refl. }
  destruct (lookup_lt_is_Some_2 (slots_ m) (slot_of (next_sequence c'))) as [s Hs]; [rewrite Hl; apply slot_of_lt|].
  rewrite Hs. rewrite Forall_lookup in Hsl. destruct (Hsl _ _ Hs) as [Hv _].
  pose proof (read_loop_steps m c' s ds Hs Hv max_retries 0) as Hrun.
  destruct (read_loop _ _ _ _) as [t [x|]]; exists c'; (eapply rtc_l; [by eapply r_begin|]); [done|].
  by rewrite app_nil_r.
Qed.

(** ** A reader while the writer rests *)

(** The ring after publishing the items of [h]. *)
Definition published (h : list (list Z)) : SPMCSeqlockRing := fold_left (fun m item => try_publish item m) h seqlock_init.

(** The newest [Size] items are in their slots. *)
Definition window_ok (m : SPMCSeqlockRing) (h : list (list Z)) : Prop :=
  forall q, 0 <= q -> Z.of_nat (length h) - seqlock_size <= q < Z.of_nat (length h) ->
  exists s, slots_ m !! slot_of q = Some s /\ version s = encode_version q false /\ h !! Z.to_nat q = Some (value s).

Lemma slot_of_mod q : slot_of q = Z.to_nat (q mod seqlock_size).
Proof. unfold slot_of, seqlock_size. rewrite Z.sub_1_r, <-Z.ones_equiv, Z.land_ones by lia. done. Qed.

Lemma slot_of_inj q q' : q < q' < q + seqlock_size -> slot_of q <> slot_of q'.
Proof.
  rewrite !slot_of_mod. intros Hq E. pose proof seqlock_size_pos.
  pose proof (Z.mod_pos_bound q seqlock_size). pose proof (Z.mod_pos_bound q' seqlock_size).
  assert ((q' - q) mod seqlock_size = 0) as Hm.
  { rewrite Zminus_mod. replace (q' mod seqlock_size) with (q mod seqlock_size) by lia. by rewrite Z.sub_diag, Z.mod_0_l by lia. }
  rewrite Z.mod_small in Hm; lia.
Qed.

Lemma writer_steps_history x y : rtc writer_step x y -> exists more, y.2 = x.2 ++ more.
Proof.
  induction 1 as [x|[[a b] c] [[a' b'] c'] z Hs _ [more IH]]; [exists []; by rewrite app_nil_r|].
  destruct (writer_history _ _ _ _ _ _ Hs) as [more' ->]. cbn in *. exists (more' ++ more). by rewrite IH, <-app_assoc.
Qed.

Lemma writer_steps_ok x y : rtc writer_step x y -> few y.2 -> memory_ok x.1.1 x.1.2 x.2 -> memory_ok y.1.1 y.1.2 y.2.
Proof.
  induction 1 as [x|[[m w] h] [[m' w'] h'] z Hs Hr IH]; intros Hfew Hm; [done|]. apply IH; [done|].
  eapply writer_step_ok; [done| |done]. destruct (writer_steps_history _ _ Hr) as [more E]. cbn in *.
  unfold few in *. rewrite E, length_app in Hfew. lia.
Qed.

Lemma try_publish_window m h item : memory_ok m WIdle h -> window_ok m h -> few h ->
  window_ok (try_publish item m) (h ++ [item]).
Proof.
  intros [Hl Hsl [Hn _]] Hw Hfew q Hq Hrange. unfold few in Hfew. rewrite length_app in Hrange. cbn [length] in Hrange.
  unfold try_publish, set_version, set_value. cbn [slots_]. rewrite Hn, !alter_alter.
  destruct (decide (q = Z.of_nat (length h))) as [->|Hne].
  - destruct (lookup_lt_is_Some_2 (slots_ m) (slot_of (Z.of_nat (length h)))) as [s Hs]; [rewrite Hl; apply slot_of_lt|].
    rewrite list_lookup_alter_eq, Hs. eexists. split; [done|]. split; [done|]. cbn.
    by rewrite Nat2Z.id, lookup_app_r, Nat.sub_diag by done.
  - destruct (Hw q Hq) as (s & Hs & Hv & Hh); [lia|]. exists s.
    rewrite list_lookup_alter_ne by (apply not_eq_sym, slot_of_inj; lia). split_and!; [done|done|].
    by apply lookup_app_l_Some.
Qed.

Lemma published_ok h : few h -> Forall (fun item => length item = words) h ->
  memory_ok (published h) WIdle h /\ window_ok (published h) h.
Proof.
  induction h as [|item h IH] using rev_ind; intros Hfew Hwords.
  { split; [apply (system_init_ok 0)|]. intros q Hq Hr. cbn in Hr. lia. }
  pose proof (few_app _ _ Hfew) as Hf. apply Forall_snoc in Hwords as [Hw Hi]. destruct (IH Hf Hw) as [Hm Hwin].
  unfold published. rewrite fold_left_app. fold (published h). cbn [fold_left]. split.
  - exact (writer_steps_ok _ _ (publish_steps _ _ item Hm Hi) Hfew Hm).
  - by apply try_publish_window.
Qed.

(** A reader polling [calls] times: the items it gets. *)
Fixpoint poll_reads (calls max_retries : nat) (m : SPMCSeqlockRing) (c : SpmcReaderCursor)
    : list (list Z) * SpmcReaderCursor :=
  match calls with
  | O => ([], c)
  | S calls =>
      let '(_, out, c) := try_read_next max_retries m c in
      let '(items, c) := poll_reads calls max_retries m c in
      (option_list out ++ items, c)
  end.

Lemma published_sequence_of h : few h -> Forall (fun item => length item = words) h ->
  published_sequence_ (published h) = Z.of_nat (length h).
Proof. intros Hf Hw. destruct (published_ok h Hf Hw) as [[_ _ [_ Hp]] _]. done. Qed.

Section resting.
Variable h : list (list Z).
Hypotheses (Hfew : few h) (Hwords : Forall (fun item => length item = words) h).

(** [c] has read everything it has seen, or has seen everything. *)
Definition up_to_date (c : SpmcReaderCursor) : Prop :=
  0 <= next_sequence c <= Z.of_nat (length h) /\
  (observed_published_sequence c = next_sequence c \/ observed_published_sequence c = Z.of_nat (length h)).

Lemma prologue_up_to_date c : up_to_date c ->
  let n := Z.of_nat (length h) in
  let c' := mkCursor (next_sequence c) n (cursor_torn_read_retries c) (cursor_overruns c) in
  read_prologue (published_sequence_ (published h)) c =
    if next_sequence c =? n then (c', Some (mkReadResult ReadEmpty 0 0))
    else if n - next_sequence c >? seqlock_size
    then (mkCursor (n - seqlock_size) n (cursor_torn_read_retries c)
                   (cursor_overruns c +64 (n - next_sequence c - seqlock_size)),
          Some (mkReadResult ReadOverrun 0 (n - next_sequence c - seqlock_size)))
    else (c', None).
Proof.
  intros [Hn Ho]. rewrite published_sequence_of by done. destruct c as [next obs tr ov]. unfold read_prologue. cbn in *.
  unfold few in Hfew. pose proof seqlock_size_pos.
  assert ((if next =? obs then mkCursor next (Z.of_nat (length h)) tr ov else mkCursor next obs tr ov)
    = mkCursor next (Z.of_nat (length h)) tr ov) as -> by (destruct (Z.eqb_spec next obs), Ho; congruence).
  cbn. destruct (Z.eqb_spec next (Z.of_nat (length h))); [done|].
  destruct (Z.gtb_spec (Z.of_nat (length h)) next); [|lia]. rewrite (u64_small (_ - next)) by lia. cbn [andb].
  destruct (Z.gtb_spec (Z.of_nat (length h) - next) seqlock_size); [|done].
  rewrite (u64_small (Z.of_nat (length h) - next - seqlock_size)) by lia.
  by rewrite (u64_small (Z.of_nat (length h) - seqlock_size)) by lia.
Qed.

Variable max_retries : nat.
Hypothesis Hmax : (0 < max_retries)%nat.

(** A slot of the window is read at the first attempt. *)
Lemma read_window c : 0 <= next_sequence c ->
  Z.of_nat (length h) - seqlock_size <= next_sequence c < Z.of_nat (length h) ->
  exists s, slots_ (published h) !! slot_of (next_sequence c) = Some s /\
    h !! Z.to_nat (next_sequence c) = Some (value s) /\
    read_loop max_retries (next_sequence c) s 0 = (0, Some (value s)).
Proof.
  intros H0 Hr. destruct (published_ok h Hfew Hwords) as [_ Hwin]. destruct (Hwin _ H0 Hr) as (s & Hs & Hv & Hh).
  exists s. split_and!; [done|done|]. destruct max_retries as [|a]; [lia|]. cbn [read_loop].
  unfold few in Hfew. rewrite Hv, in_progress_encode, sequence_of_encode, !Z.eqb_refl by lia. done.
Qed.

(** Once inside the window, the reader gets the rest, one item a call. *)
Lemma poll_window calls : forall c, up_to_date c -> Z.of_nat (length h) - next_sequence c <= seqlock_size ->
  (length h <= calls + Z.to_nat (next_sequence c))%nat ->
  let '(items, c') := poll_reads calls max_retries (published h) c in
  items = drop (Z.to_nat (next_sequence c)) h /\ next_sequence c' = Z.of_nat (length h) /\
  cursor_overruns c' = cursor_overruns c.
Proof.
  induction calls as [|calls IH]; intros c Hu Hw Hc; pose proof Hu as [Hn Ho].
  { cbn. rewrite drop_ge by lia. split_and!; [done|lia|done]. }
  cbn [poll_reads]. unfold try_read_next. rewrite (prologue_up_to_date c Hu). cbv zeta.
  destruct (Z.eqb_spec (next_sequence c) (Z.of_nat (length h))) as [E|E].
  - specialize (IH (mkCursor (next_sequence c) (Z.of_nat (length h)) (cursor_torn_read_retries c) (cursor_overruns c))).
    cbn in IH. destruct (poll_reads _ _ _ _) as [items c']. apply IH; [split; cbn; [lia|by right]|lia|lia].
  - destruct (Z.gtb_spec (Z.of_nat (length h) - next_sequence c) seqlock_size); [lia|]. cbn [next_sequence].
    destruct (read_window c) as (s & -> & Hh & ->); [lia|lia|]. unfold read_done. cbn. unfold few in Hfew.
    rewrite (u64_small (next_sequence c + 1)) by lia.
    specialize (IH (mkCursor (next_sequence c + 1) (Z.of_nat (length h)) (cursor_torn_read_retries c +64 0) (cursor_overruns c))).
    cbn in IH. destruct (poll_reads _ _ _ _) as [items c'].
    destruct IH as (-> & Hn' & Ho'); [split; cbn; [lia|by right]|lia|lia|].
    split_and!; [|done|done]. rewrite (drop_S h (value s) (Z.to_nat (next_sequence c))) by done.
    cbn. do 2 f_equal. lia.
Qed.
End resting.

(** C25. A reader that has kept up with what it saw catches up: polling while the
    writer rests it gets every item still in the ring, in order, counts exactly
    those it lost, and ends at the newest. *)
Theorem reader_catches_up h max_retries c calls :
  few h -> Forall (fun item => length item = words) h -> (0 < max_retries)%nat -> up_to_date h c ->
  (length h < calls + Z.to_nat (next_sequence c))%nat ->
  let lost := Z.max 0 (Z.of_nat (length h) - seqlock_size - next_sequence c) in
  let '(items, c') := poll_reads calls max_retries (published h) c in
  items = drop (Z.to_nat (next_sequence c + lost)) h /\ next_sequence c' = Z.of_nat (length h) /\
  (is_u 64 (cursor_overruns c) -> cursor_overruns c' = cursor_overruns c +64 lost).
Proof.
  intros Hfew Hwords Hmax Hu Hcalls lost. pose proof Hu as [Hn Ho]. pose proof seqlock_size_pos as Hsz.
  destruct (decide (Z.of_nat (length h) - next_sequence c <= seqlock_size)) as [Hw|Hw].
  - pose proof (poll_window h Hfew Hwords max_retries Hmax calls c Hu Hw ltac:(lia)) as H.
    destruct (poll_reads _ _ _ _) as [items c']. destruct H as (-> & -> & ->).
    assert (lost = 0) as -> by lia. rewrite !Z.add_0_r. split_and!; [done|done|]. intros. by rewrite u64_small.
  - destruct calls as [|calls]; [lia|]. cbn [poll_reads]. unfold try_read_next.
    rewrite (prologue_up_to_date h Hfew Hwords c Hu). cbv zeta.
    destruct (Z.eqb_spec (next_sequence c) (Z.of_nat (length h))) as [E|E]; [lia|].
    destruct (Z.gtb_spec (Z.of_nat (length h) - next_sequence c) seqlock_size); [|lia].
    pose proof (poll_window h Hfew Hwords max_retries Hmax calls (mkCursor (Z.of_nat (length h) - seqlock_size)
      (Z.of_nat (length h)) (cursor_torn_read_retries c)
      (cursor_overruns c +64 (Z.of_nat (length h) - next_sequence c - seqlock_size)))) as Hp. cbn [next_sequence cursor_overruns] in Hp.
    destruct (poll_reads _ _ _ _) as [items c']. destruct Hp as (-> & -> & ->); [split; cbn; [lia|by right]|lia|lia|].
    cbn. split_and!; [f_equal; lia|done|]. intros _. do 2 f_equal. lia.
Qed.

(** C26. A reader that is lapped between seeing an item announced and reading it is
    stuck: every later call gives up after its retries and leaves the cursor
    where it is, whatever is published. *)
Theorem lapped_reader_stuck h max_retries c calls :
  few h -> Forall (fun item => length item = words) h ->
  0 <= next_sequence c < observed_published_sequence c ->
  observed_published_sequence c <= next_sequence c + seqlock_size ->
  next_sequence c + seqlock_size < Z.of_nat (length h) ->
  let '(items, c') := poll_reads calls max_retries (published h) c in
  items = [] /\ next_sequence c' = next_sequence c /\ observed_published_sequence c' = observed_published_sequence c.
Proof.
  intros Hfew Hwords Hn Ho Hlap. revert c Hn Ho Hlap. induction calls as [|calls IH]; intros c Hn Ho Hlap; [done|].
  cbn [poll_reads]. pose proof seqlock_size_pos as Hsz. pose proof Hfew as Hf. unfold few in Hf.
  set (q := next_sequence c + seqlock_size * ((Z.of_nat (length h) - 1 - next_sequence c) / seqlock_size)).
  pose proof (Z.div_mod (Z.of_nat (length h) - 1 - next_sequence c) seqlock_size ltac:(lia)) as Hdm.
  pose proof (Z.mod_pos_bound (Z.of_nat (length h) - 1 - next_sequence c) seqlock_size Hsz) as Hm.
  destruct (published_ok h Hfew Hwords) as [_ Hwin]. destruct (Hwin q) as (s & Hs & Hv & _); [lia|lia|].
  assert (slot_of q = slot_of (next_sequence c)) as Eq.
  { rewrite !slot_of_mod. unfold q. by rewrite Z.mul_comm, Z_mod_plus_full. }
  rewrite Eq in Hs. unfold try_read_next, read_prologue.
  destruct (Z.eqb_spec (next_sequence c) (observed_published_sequence c)) as [E|E]; [lia|].
  apply Z.eqb_neq in E. rewrite E. rewrite (u64_small (_ - next_sequence c)) by lia.
  destruct (Z.gtb_spec (observed_published_sequence c - next_sequence c) seqlock_size); [lia|].
  rewrite andb_false_r, Hs.
  assert (forall a t, exists t', read_loop a (next_sequence c) s t = (t', None)) as Hloop.
  { induction a as [|a IHa]; intros t; [by eexists|]. cbn [read_loop]. rewrite Hv, sequence_of_encode by lia.
    destruct (Z.eqb_spec q (next_sequence c)); [|rewrite orb_true_r; apply IHa].
    assert (0 < (Z.of_nat (length h) - 1 - next_sequence c) / seqlock_size) by (apply Z.div_str_pos; lia). nia. }
  destruct (Hloop max_retries 0) as [t' ->]. unfold read_gave_up.
  pose proof (IH (mkCursor (next_sequence c) (observed_published_sequence c)
    (cursor_torn_read_retries c +64 t') (cursor_overruns c)) Hn Ho Hlap) as Hst. cbn in Hst.
  destruct (poll_reads _ _ _ _) as [items c']. exact Hst.
Qed.
End ring.

(** ** At concrete inputs *)

(** One writer, one reader, a ring of one two-word slot. *)
Lemma no_torn_reads_witness :
  let m := mkSeqlock [mkSlot 0 [5; 6]] 1 1 in
  let s := mkSystem m WIdle [[5; 6]] [mkReader (mkCursor 1 1 0 0) RIdle [(0, [5; 6])]] in
  sys_reachable 2 0 s /\ few (history s) /\
  Forall (fun d => history s !! Z.to_nat d.1 = Some d.2) [(0, [5; 6])].
Proof.
  intros m s. assert (sys_reachable 2 0 s) as Hr.
  { exists 1%nat. unfold s, m.
    eapply rtc_l; [apply sys_writer, (w_open 2 0 [5; 6]); done|]. eapply rtc_l; [by apply sys_writer, (w_word 2 0 _ _ _ 5)|].
    eapply rtc_l; [by apply sys_writer, (w_word 2 0 _ _ _ 6)|]. eapply rtc_l; [apply sys_writer, (w_close 2 0)|].
    eapply rtc_l; [apply sys_writer, (w_publish 2 0)|]. cbn.
    eapply rtc_l; [eapply (sys_reader 2 0 _ _ _ _ 0); [done|eapply (r_begin _ _ _ _ _ 1); reflexivity]|].
    eapply rtc_l; [eapply (sys_reader 2 0 _ _ _ _ 0); [done|eapply r_match; reflexivity]|].
    eapply rtc_l; [eapply (sys_reader 2 0 _ _ _ _ 0); [done|eapply r_word; [reflexivity|simpl; lia|reflexivity]]|].
    eapply rtc_l; [eapply (sys_reader 2 0 _ _ _ _ 0); [done|eapply r_word; [reflexivity|simpl; lia|reflexivity]]|].
    eapply rtc_l; [eapply (sys_reader 2 0 _ _ _ _ 0); [done|eapply r_success; reflexivity]|]. apply rtc_refl. }
  assert (few (history s)) as Hf by (unfold few; simpl; lia). split; [done|]. split; [done|].
  exact (proj1 (no_torn_reads 2 0 s Hr Hf 0 _ eq_refl)).
Defined.

Lemma reader_catches_up_witness :
  let h := [[1]; [2]; [3]; [4]; [5]; [6]; [7]] in
  let '(items, c') := poll_reads 2 9 128 (published 1 2 h) (mkCursor 1 1 0 0) in
  items = [[4]; [5]; [6]; [7]] /\ next_sequence c' = 7 /\ (is_u 64 0 -> cursor_overruns c' = 2).
Proof.
  intros h. apply (reader_catches_up 1 2 h 128 (mkCursor 1 1 0 0) 9);
    [unfold few; simpl; lia|repeat constructor|lia|split; simpl; [lia|by left]|simpl; lia].
Defined.

Lemma lapped_reader_stuck_witness :
  let h := [[1]; [2]; [3]; [4]] in
  let '(items, c') := poll_reads 1 9 128 (published 1 1 h) (mkCursor 1 2 0 0) in
  items = [] /\ next_sequence c' = 1 /\ observed_published_sequence c' = 2.
Proof.
  intros h. apply (lapped_reader_stuck 1 1 h 128 (mkCursor 1 2 0 0) 9);
    [unfold few; simpl; lia|repeat constructor|simpl; lia|by vm_compute|by vm_compute].
Defined.

(** How a reader gets there: two items are published, it reads one, and two
    more are published before it reads the other. *)
Example lapped_reader_gets_stuck :
  let r2 := published 1 1 [[1]; [2]] in
  let '(_, out, c) := try_read_next 1 128 r2 cursor_init in
  let r4 := try_publish 1 [4] (try_publish 1 [3] r2) in
  let '(res, out', c') := try_read_next 1 128 r4 c in
  (out, next_sequence c, observed_published_sequence c) = (Some [1], 1, 2) /\
  (status res, out') = (ReadRetryLimit, None) /\ next_sequence c' = 1 /\ observed_published_sequence c' = 2.
Proof. vm_compute. split_and!; reflexivity. Qed.
