(* ===== verification/Floats.v ===== *)
(** * Binary64 arithmetic

    [double] as the Standard Library's executable specification of IEEE 754
    (SpecFloat) at precision 53: every operation of the source rounds its exact
    result to the nearest double, ties to even. *)

From S2P Require Import Prelude.
From Stdlib Require Export SpecFloat.

#[local] Open Scope Z_scope.

Abbreviation double := spec_float.

Definition kPrec : Z := 53.
Definition kEmax : Z := 1024.

Definition dadd (x y : double) : double := SFadd kPrec kEmax x y.
Definition dsub (x y : double) : double := SFsub kPrec kEmax x y.
Definition dmul (x y : double) : double := SFmul kPrec kEmax x y.
Definition ddiv (x y : double) : double := SFdiv kPrec kEmax x y.
Definition dabs (x : double) : double := SFabs x.
Definition dneg (x : double) : double := SFopp x.

Definition dsqrt (x : double) : double := SFsqrt kPrec kEmax x.

(** [x > y] and [x <= y]: false when either is not a number. *)
Definition dgt (x y : double) : bool := SFltb y x.
Definition dle (x y : double) : bool := SFleb x y.

Definition dzero : double := S754_zero false.

(** [static_cast<double>] of an integer. *)
Definition of_Z (z : Z) : double := binary_normalize kPrec kEmax z 0 false.

(** A decimal literal [n / d]: the correctly rounded quotient. *)
Definition dlit (n d : Z) : double := ddiv (of_Z n) (of_Z d).

(** The exact value [m * 2^e] rounded down, and to the nearest integer with
    halves away from zero. *)
Definition floor_value (m e : Z) : Z := Z.shiftl m e.

Definition round_value (m e : Z) : Z :=
  if 0 <=? e then Z.shiftl m e else Z.shiftr (m + Z.shiftl 1 (- e - 1)) (- e).

(** A floating value converted to an integer type with values in [lo, hi]:
    outside them the conversion is undefined, and the model gives 0. *)
Definition clip (lo hi z : Z) : Z := if (lo <=? z) && (z <=? hi) then z else 0.

(** [static_cast<std::uint64_t>(std::floor(x))] *)
Definition floor_u64 (x : double) : Z :=
  match x with
  | S754_finite s m e => clip 0 (2 ^ 64 - 1) (floor_value (cond_Zopp s (Z.pos m)) e)
  | _ => 0
  end.

Lemma clip_range lo hi z : lo <= 0 <= hi -> lo <= clip lo hi z <= hi.
Proof. intros H. unfold clip. destruct (_ && _) eqn:E; [|done]. apply andb_true_iff in E as [?%Z.leb_le ?%Z.leb_le]. lia. Qed.

Lemma floor_u64_nonneg x : 0 <= floor_u64 x.
Proof. destruct x; cbn [floor_u64]; try done. apply clip_range. lia. Qed.

(** [std::llround(x)] *)
Definition llround (x : double) : Z :=
  match x with
  | S754_finite s m e => clip (- 2 ^ 63) (2 ^ 63 - 1) (cond_Zopp s (round_value (Z.pos m) e))
  | _ => 0
  end.

(** ** The order of numbers *)

Definition is_nan (x : double) : bool := match x with S754_nan => true | _ => false end.
Definition is_number (x : double) : Prop := is_nan x = false.

(** [x < y] *)
Definition dlt (x y : double) : bool := SFltb x y.

(** [std::max(a, b)] and [std::min(a, b)]: [a] unless the comparison holds. *)
Definition std_max (a b : double) : double := if dlt a b then b else a.
Definition std_min (a b : double) : double := if dlt b a then b else a.

(** Comparing numbers is comparing their kind, exponent and mantissa. *)
Definition float_key (x : double) : Z * Z * Z :=
  match x with
  | S754_infinity true => (-2, 0, 0)
  | S754_finite true m e => (-1, - e, Z.neg m)
  | S754_zero _ | S754_nan => (0, 0, 0)
  | S754_finite false m e => (1, e, Z.pos m)
  | S754_infinity false => (2, 0, 0)
  end.

Definition key_lt (a b : Z * Z * Z) : Prop :=
  a.1.1 < b.1.1 \/ a.1.1 = b.1.1 /\ (a.1.2 < b.1.2 \/ a.1.2 = b.1.2 /\ a.2 < b.2).

Lemma dlt_key x y : is_number x -> is_number y -> dlt x y = true <-> key_lt (float_key x) (float_key y).
Proof.
  unfold is_number, dlt, SFltb, key_lt. destruct x as [?|[]| |[] m e], y as [?|[]| |[] m' e']; cbn; intros; try done;
    try (split; [done|lia]); try (split; [lia|done]).
  all: change (PosDef.Pos.compare_cont Eq m m') with (Pos.compare m m'); destruct (Z.compare_spec e e'); cbn;
    try (destruct (Pos.compare_spec m m'); cbn); split; intros; (done || lia).
Qed.

Lemma dlt_irrefl x : is_number x -> dlt x x = false.
Proof. intros Hx. rewrite <-not_true_iff_false, dlt_key by done. unfold key_lt. lia. Qed.

Lemma dlt_order : strict_weak_on is_number dlt.
Proof.
  split.
  - intros x y Hx Hy. rewrite <-!not_true_iff_false, !dlt_key by done. unfold key_lt. lia.
  - intros x y z Hx Hy Hz. rewrite <-!not_true_iff_false, !dlt_key by done. unfold key_lt. lia.
Qed.

(** ** At concrete inputs *)

Example of_Z_exact : of_Z 10 = S754_finite false 5629499534213120 (-49).
Proof. vm_compute. reflexivity. Qed.

Example quarter_of_ten : floor_u64 (dmul (of_Z 10) (dlit 25 100)) = 2.
Proof. vm_compute. reflexivity. Qed.

Example literal_rounds : dlit 95 100 = S754_finite false 8556839292003942 (-53).
Proof. vm_compute. reflexivity. Qed.

Example llround_halves : map llround [dlit 5 2; dlit (-5) 2; dlit 49 20] = [3; -3; 2].
Proof. vm_compute. reflexivity. Qed.
