(* ===== verification/Rounding.v ===== *)
(** * Correct rounding of a quotient

    [ddiv] of two integers is the double nearest to their quotient: what
    reading a decimal number back relies on ([Sidecar]). The quotient is
    followed through the division, the shift to 53 bits, the rounding and the
    second shift as a pair of integers. *)

From S2P Require Import Prelude Floats.

#[local] Open Scope Z_scope.

(** ** Records of a shift *)

(** The record stands for [a / b]: its integer part, whether a half is left,
    and whether anything is left after that. *)
Definition represents (mrs : shr_record) (a b : Z) : Prop :=
  shr_m mrs = a / b /\ shr_r mrs = (b <=? 2 * (a mod b)) /\ shr_s mrs = negb ((2 * (a mod b)) mod b =? 0).

Lemma shr_1_parts m r s : 0 <= m -> shr_1 (Build_shr_record m r s) = Build_shr_record (m / 2) (Z.odd m) (r || s).
Proof.
  intros Hm. rewrite <-Z.div2_div. destruct m as [|[p|p|]|p]; [done..|lia].
Qed.

Lemma represents_shr_1 mrs a b : 0 <= a -> 0 < b -> represents mrs a b -> represents (shr_1 mrs) a (b * 2).
Proof.
  intros Ha Hb (Hm & Hr & Hs). destruct mrs as [m r s]. cbn [shr_m shr_r shr_s] in *. rewrite shr_1_parts by (subst m; apply Z.div_pos; lia).
  unfold represents. cbn [shr_m shr_r shr_s]. rewrite Z.rem_mul_r, <-Z.div_div by lia. rewrite <-Hm.
  pose proof (Z.mod_pos_bound a b Hb) as Hrem. set (x := a mod b) in *. clearbody x. rewrite Zmod_odd. split; [done|]. split.
  - destruct (Z.odd m); zbool; try done; lia.
  - rewrite (Z.mul_comm b 2), Z.mul_mod_distr_l by lia. subst r s.
    assert ((x + b * (if Z.odd m then 1 else 0)) mod b = x) as ->.
    { rewrite (Z.mul_comm b), Z_mod_plus_full. by apply Z.mod_small. }
    destruct (b <=? 2 * x) eqn:E; zbool; cbn [orb].
    + by replace (2 * x =? 0) with false by lia.
    + rewrite Z.mod_small by lia. done.
Qed.

Lemma iter_pos_shr p : forall mrs a b, 0 <= a -> 0 < b -> represents mrs a b -> represents (iter_pos shr_1 p mrs) a (b * 2 ^ Z.pos p).
Proof.
  induction p as [p IH|p IH|]; intros mrs a b Ha Hb Hm; cbn [iter_pos].
  - replace (Z.pos p~1) with (1 + Z.pos p + Z.pos p) by lia. rewrite !Z.pow_add_r by lia.
    replace (b * (2 ^ 1 * 2 ^ Z.pos p * 2 ^ Z.pos p)) with (b * 2 * 2 ^ Z.pos p * 2 ^ Z.pos p) by lia.
    assert (0 < 2 ^ Z.pos p) by (apply Z.pow_pos_nonneg; lia). apply IH; [done|lia|]. apply IH; [done|lia|]. by apply represents_shr_1.
  - replace (Z.pos p~0) with (Z.pos p + Z.pos p) by lia. rewrite Z.pow_add_r by lia. rewrite Z.mul_assoc.
    assert (0 < 2 ^ Z.pos p) by (apply Z.pow_pos_nonneg; lia). apply IH; [done|lia|]. by apply IH.
  - by apply represents_shr_1.
Qed.

Lemma represents_shr mrs a b e n : 0 <= a -> 0 < b -> 0 <= n -> represents mrs a b ->
  exists mrs', shr mrs e n = (mrs', e + n) /\ represents mrs' a (b * 2 ^ n).
Proof.
  intros Ha Hb Hn Hm. destruct n as [|p|p]; [..|lia]; cbn [shr].
  - exists mrs. rewrite Z.add_0_r. split; [done|]. by rewrite Z.mul_1_r.
  - eexists. split; [done|]. by apply iter_pos_shr.
Qed.

(** What the division leaves. *)
Lemma represents_quotient a b : 0 <= a -> 0 < b -> represents (shr_record_of_loc (a / b) (new_location b (a mod b))) a b.
Proof.
  intros Ha Hb. pose proof (Z.mod_pos_bound a b Hb) as Hr. unfold represents, new_location, new_location_even, new_location_odd.
  set (x := a mod b) in *. clearbody x. destruct (decide (x = 0)) as [->|Hx].
  { match goal with |- context [shr_record_of_loc _ ?l] => assert (l = loc_Exact) as -> by (by destruct (Z.even b)) end.
    cbn [shr_record_of_loc shr_m shr_r shr_s]. change (2 * 0) with 0. rewrite Z.mod_0_l by lia. split; [done|]. split; [lia|done]. }
  assert ((2 * x) mod b = if 2 * x <? b then 2 * x else 2 * x - b) as ->.
  { destruct (Z.ltb_spec (2 * x) b); [by rewrite Z.mod_small by lia|]. symmetry. apply (Z.mod_unique_pos _ _ 1); lia. }
  destruct (Z.even b) eqn:Hev; cbn beta; replace (x =? 0) with false by lia; cbn match.
  - destruct (Z.compare_spec (2 * x) b); cbn [shr_record_of_loc shr_m shr_r shr_s]; (split; [done|]); split; try lia;
      destruct (Z.ltb_spec (2 * x) b); lia.
  - assert (2 * x <> b) as Hne by (intros <-; rewrite Z.even_mul in Hev; done).
    destruct (Z.compare_spec (2 * x + 1) b); cbn [shr_record_of_loc shr_m shr_r shr_s]; (split; [done|]); split; try lia;
      destruct (Z.ltb_spec (2 * x) b); lia.
Qed.

Lemma represents_exact m : 0 <= m -> represents (shr_record_of_loc m loc_Exact) m 1.
Proof. intros Hm. unfold represents. cbn. rewrite Z.div_1_r, Z.mod_1_r. done. Qed.

(** The integer nearest to [a / b] is chosen when no other is as near. *)
Lemma round_represents mrs a b M : 0 < b -> represents mrs a b -> (2 * M - 1) * b < 2 * a -> 2 * a < (2 * M + 1) * b ->
  round_nearest_even (shr_m mrs) (loc_of_shr_record mrs) = M.
Proof.
  intros Hb (Hm & Hr & Hs) H1 H2. pose proof (Z.div_mod a b ltac:(lia)) as Hd. pose proof (Z.mod_pos_bound a b Hb) as Hx.
  set (q := a / b) in *. set (x := a mod b) in *. clearbody q x. destruct mrs as [m r s]. cbn [shr_m shr_r shr_s] in *. subst m.
  assert (2 * x = b -> False) as Hne.
  { intros E. assert (2 * a = (2 * q + 1) * b) as E2 by lia. rewrite E2 in H1, H2. apply Z.mul_lt_mono_pos_r in H1, H2; lia. }
  destruct (Z.leb_spec b (2 * x)) as [Hle|Hlt]; subst r.
  - assert (M = q + 1) as ->.
    { assert ((2 * M - 1) * b < (2 * (q + 1)) * b) as H3 by lia. assert ((2 * q + 1) * b < (2 * M + 1) * b) as H4 by lia.
      apply Z.mul_lt_mono_pos_r in H3, H4; lia. }
    assert (s = true) as ->; [|done].
    rewrite Hs. rewrite <-(Z.mod_unique_pos (2 * x) b 1 (2 * x - b)) by lia. by replace (_ =? 0) with false by lia.
  - assert (M = q) as ->.
    { assert ((2 * M - 1) * b < (2 * q + 1) * b) as H3 by lia. assert ((2 * q) * b < (2 * M + 1) * b) as H4 by lia.
      apply Z.mul_lt_mono_pos_r in H3, H4; lia. }
    by destruct s.
Qed.

(** ** Digits *)

Lemma digits2_pos_log p : Z.pos (digits2_pos p) = Z.log2 (Z.pos p) + 1.
Proof.
  induction p as [p IH|p IH|]; cbn [digits2_pos]; [..|done]; rewrite Pos2Z.inj_succ, IH.
  - replace (Z.pos p~1) with (2 * Z.pos p + 1) by lia. rewrite Z.log2_succ_double by lia. lia.
  - replace (Z.pos p~0) with (2 * Z.pos p) by lia. rewrite Z.log2_double by lia. lia.
Qed.

Lemma digits2_log n : 0 < n -> Zdigits2 n = Z.log2 n + 1.
Proof. intros Hn. destruct n as [|p|p]; [lia| |lia]. cbn [Zdigits2]. apply digits2_pos_log. Qed.

Lemma digits2_unique n k : 2 ^ k <= n < 2 ^ (k + 1) -> 0 <= k -> Zdigits2 n = k + 1.
Proof. intros Hn Hk. pose proof (Z.pow_pos_nonneg 2 k). rewrite digits2_log by lia. f_equal. by apply Z.log2_unique. Qed.

(** ** Rounding to 53 bits *)

Definition normal (M E : Z) : Prop := 2 ^ 52 <= M < 2 ^ 53 /\ -1073 <= E <= 971.

Lemma fexp_normal d : - 1021 <= d -> fexp kPrec kEmax d = d - 53.
Proof. intros Hd. unfold fexp, emin, kPrec, kEmax. lia. Qed.

(** The quotient [a / b] lies nearer to [M * 2 ^ t] than to its neighbours:
    half the distance below the least number of a binade is half as long. *)
Definition near (a b M t : Z) : Prop :=
  2 * a < (2 * M + 1) * (b * 2 ^ t) /\ (2 * M - 1) * (b * 2 ^ t) < 2 * a /\ (M = 2 ^ 52 -> (4 * M - 1) * (b * 2 ^ t) < 4 * a).

Lemma round_quotient s a b e M t : 0 <= a -> 0 < b -> 0 <= t -> 2 ^ 52 <= a / b -> normal M (e + t) -> near a b M t ->
  binary_round_aux kPrec kEmax s (a / b) e (new_location b (a mod b)) = S754_finite s (Z.to_pos M) (e + t).
Proof.
  intros Ha Hb Ht Hq [HM HE] (Hhi & Hlo & Hlow). pose proof (represents_quotient a b Ha Hb) as Hrep. pose proof (Z.pow_pos_nonneg 2 t ltac:(lia) Ht) as HT.
  assert (0 < b * 2 ^ t) as HB by (by apply Z.mul_pos_pos). pose proof (Z.mul_div_le a b Hb) as Hd1. pose proof (Z.mul_succ_div_gt a b Hb) as Hd2.
  unfold binary_round_aux, shr_fexp. change (kEmax - kPrec) with 971. destruct (Z.le_gt_cases (2 ^ 52 * 2 ^ t) (a / b)) as [Hc|Hc].
  - assert (Zdigits2 (a / b) = 53 + t) as ->.
    { replace (53 + t) with (52 + t + 1) by lia. apply digits2_unique; [|lia]. rewrite !Z.pow_add_r by lia. split; [lia|].
      apply Z.div_lt_upper_bound; [lia|]. change (2 ^ 52) with 4503599627370496 in *. change (2 ^ 53) with 9007199254740992 in *. nia. }
    rewrite fexp_normal by lia. replace (53 + t + e - 53 - e) with t by lia.
    destruct (represents_shr _ a b e t Ha Hb Ht Hrep) as (mrs & -> & Hmrs). rewrite (round_represents mrs a (b * 2 ^ t) M) by done.
    assert (Zdigits2 M = 53) as -> by (apply (digits2_unique M 52); [done|lia]). rewrite fexp_normal by lia. replace (53 + (e + t) - 53 - (e + t)) with 0 by lia.
    cbn [shr shr_record_of_loc shr_m]. destruct M as [|M|M]; [lia| |lia]. by replace (e + t <=? 971) with true by lia.
  - assert (M = 2 ^ 52) as -> by (change (2 ^ 52) with 4503599627370496 in *; nia). specialize (Hlow eq_refl).
    assert (1 <= t) as Ht1.
    { destruct (Z.eq_dec t 0) as [->|]; [|lia]. rewrite Z.mul_1_r in Hc. lia. }
    pose proof (Z.pow_pos_nonneg 2 (t - 1) ltac:(lia) ltac:(lia)) as HT1. assert (2 ^ t = 2 * 2 ^ (t - 1)) as E by (rewrite <-Z.pow_succ_r by lia; f_equal; lia).
    rewrite E in *. set (T := 2 ^ (t - 1)) in *.
    assert (Zdigits2 (a / b) = 52 + t) as ->.
    { replace (52 + t) with (52 + (t - 1) + 1) by lia. apply digits2_unique; [|lia]. rewrite !Z.pow_add_r by lia. fold T. split; [|lia].
      apply Z.div_le_lower_bound; [lia|]. change (2 ^ 52) with 4503599627370496 in *. nia. }
    rewrite fexp_normal by lia. replace (52 + t + e - 53 - e) with (t - 1) by lia.
    destruct (represents_shr _ a b e (t - 1) Ha Hb ltac:(lia) Hrep) as (mrs & -> & Hmrs). fold T in Hmrs.
    rewrite (round_represents mrs a (b * T) (2 ^ 53)); [|by apply Z.mul_pos_pos|done|..];
      [|change (2 ^ 52) with 4503599627370496 in *; change (2 ^ 53) with 9007199254740992; nia..].
    change (Zdigits2 (2 ^ 53)) with 54. rewrite fexp_normal by lia. replace (54 + (e + (t - 1)) - 53 - (e + (t - 1))) with 1 by lia.
    change (2 ^ 52) with 4503599627370496. change (2 ^ 53) with 9007199254740992. cbn [shr iter_pos shr_record_of_loc shr_1 shr_m].
    replace (e + (t - 1) + 1) with (e + t) by lia. by replace (e + t <=? 971) with true by lia.
Qed.

(** [M * 2 ^ E] is the double nearest to [n / d], both scaled to integers. *)
Definition nearest (n d M E : Z) : Prop := normal M E /\ near (n * 2 ^ 1100) d M (E + 1100).

Lemma near_cancel a b M t k : 0 <= t -> 0 <= k -> near (a * 2 ^ k) b M (t + k) -> near a b M t.
Proof.
  intros Ht Hk. unfold near. rewrite Z.pow_add_r by lia. pose proof (Z.pow_pos_nonneg 2 k ltac:(lia) Hk) as HK. set (K := 2 ^ k) in *. set (T := 2 ^ t).
  intros (H1 & H2 & H3). split_and!; [apply (Z.mul_lt_mono_pos_r K); lia..|]. intros HM. specialize (H3 HM). apply (Z.mul_lt_mono_pos_r K); lia.
Qed.

(** The division rounds to the nearest. *)
Theorem ddiv_nearest s n d M E : - 1021 <= Zdigits2 (Z.pos n) - Zdigits2 (Z.pos d) -> nearest (Z.pos n) (Z.pos d) M E ->
  ddiv (S754_finite s n 0) (S754_finite false d 0) = S754_finite s (Z.to_pos M) E.
Proof.
  intros Hdig [Hnorm Hnear]. unfold ddiv, SFdiv, SFdiv_core_binary. rewrite !Z.add_0_r. change (0 - 0) with 0.
  rewrite fexp_normal by done. rewrite !digits2_log in * by lia. set (e := Z.min _ 0).
  pose proof (Z.log2_spec (Z.pos n) ltac:(lia)) as Hn. pose proof (Z.log2_spec (Z.pos d) ltac:(lia)) as Hd.
  pose proof (Z.log2_nonneg (Z.pos n)) as Hln. pose proof (Z.log2_nonneg (Z.pos d)) as Hld.
  set (ln := Z.log2 (Z.pos n)) in *. set (ld := Z.log2 (Z.pos d)) in *. assert (e <= 0 /\ -1074 <= e /\ 53 - ln + ld <= - e) as (He0 & He1 & He2) by lia.
  assert (match 0 - e with Z0 => Z.pos n | Z.pos _ => Z.shiftl (Z.pos n) (0 - e) | Z.neg _ => 0 end = Z.pos n * 2 ^ (- e)) as ->.
  { rewrite Z.sub_0_l. destruct (- e) eqn:Ee; [lia| |lia]. by rewrite Z.shiftl_mul_pow2. }
  set (a := Z.pos n * 2 ^ (- e)). assert (2 ^ 52 * Z.pos d <= a) as Ha.
  { transitivity (2 ^ (ln + - e)); [|unfold a; rewrite Z.pow_add_r by lia; apply Z.mul_le_mono_nonneg_r; [by apply Z.pow_nonneg|lia]].
    transitivity (2 ^ (52 + Z.succ ld)); [rewrite Z.pow_add_r by lia; apply Z.mul_le_mono_nonneg_l; lia|apply Z.pow_le_mono_r; lia]. }
  destruct (Z.div_eucl a (Z.pos d)) as [q r] eqn:Eq. assert (q = a / Z.pos d /\ r = a mod Z.pos d) as [-> ->] by (unfold Z.div, Z.modulo; by rewrite Eq).
  rewrite xorb_false_r. destruct Hnorm as [HM HE]. assert (a * 2 ^ (1100 + e) = Z.pos n * 2 ^ 1100) as Hscale.
  { unfold a. rewrite <-Z.mul_assoc, <-Z.pow_add_r by lia. do 2 f_equal. lia. }
  rewrite <-Hscale in Hnear. assert (e <= E) as HeE.
  { apply Z.nlt_ge. intros Hlt. destruct Hnear as [Hhi _]. pose proof (Z.pow_le_mono_r 2 (E + 1100 + 1) (1100 + e) ltac:(lia) ltac:(lia)) as Hp.
    rewrite Z.pow_add_r in Hp by lia. change (2 ^ 1) with 2 in Hp. set (S := 2 ^ (1100 + e)) in *. set (P := 2 ^ (E + 1100)) in *.
    assert (0 < P) by (apply Z.pow_pos_nonneg; lia). change (2 ^ 52) with 4503599627370496 in *. change (2 ^ 53) with 9007199254740992 in *. 
    assert (4503599627370496 * Z.pos d * (P * 2) <= a * S) by (apply Z.mul_le_mono_nonneg; lia).
    assert ((2 * M + 1) * (Z.pos d * P) <= 18014398509481983 * (Z.pos d * P)) by (apply Z.mul_le_mono_nonneg_r; lia). lia. }
  replace E with (e + (E - e)) by lia. apply round_quotient; [lia|lia|lia|apply Z.div_le_lower_bound; lia|split; [done|lia]|].
  apply (near_cancel _ _ _ _ (1100 + e)); [lia|lia|]. by replace (E - e + (1100 + e)) with (E + 1100) by lia.
Qed.
