(* ===== verification/Histogram.v ===== *)
(** * Latency histogram (src/bench/histogram.cpp)

    Samples are counted in logarithmic buckets; a percentile is read off the
    counts. [std::log2] and [std::pow(2, x)] are parameters: nothing that is
    proved depends on what they return. A percentile is the value of the bucket
    of the sample of that rank, in whatever order the samples came, and merged
    histograms are the histogram of all samples. *)

From S2P Require Import Prelude Floats.

#[local] Open Scope list_scope.
#[local] Open Scope Z_scope.

Section histogram.
Context (log2 pow2 : double -> double).

Record LatencyHistogram := mkHistogram {
  min_ns : Z; max_ns : Z; significant_digits : Z; bins_per_octave : Z;
  buckets : list Z; total_count : Z; max_observed : Z;
}.

Definition histogram_init (mn mx digits : Z) : LatencyHistogram :=
  let mn := Z.max 1 mn in
  let mx := Z.max mn mx in
  let bins := if digits <=? 1 then 16 else if digits =? 2 then 32 else 64 in
  let octaves := dadd (log2 (ddiv (of_Z mx) (of_Z mn))) (of_Z 1) in
  let n := floor_u64 (dmul octaves (of_Z bins)) + 1 in
  mkHistogram mn mx digits bins (replicate (Z.to_nat n) 0) 0 0.

Definition index_for (h : LatencyHistogram) (ns : Z) : nat :=
  let clamped := Z.max (min_ns h) (Z.min (max_ns h) ns) in
  let ratio := ddiv (of_Z clamped) (of_Z (min_ns h)) in
  let raw := dmul (log2 ratio) (of_Z (bins_per_octave h)) in
  Nat.min (Z.to_nat (floor_u64 raw)) (length (buckets h) - 1).

Definition value_for_index (h : LatencyHistogram) (idx : nat) : Z :=
  let x := ddiv (of_Z (Z.of_nat idx)) (of_Z (bins_per_octave h)) in
  floor_u64 (dmul (of_Z (min_ns h)) (pow2 x)).

Definition set_counts bs total mx (h : LatencyHistogram) : LatencyHistogram :=
  mkHistogram (min_ns h) (max_ns h) (significant_digits h) (bins_per_octave h) bs total mx.

Definition record (h : LatencyHistogram) (ns : Z) : LatencyHistogram :=
  set_counts (alter (Z.add 1) (index_for h ns) (buckets h)) (total_count h + 1)
    (if max_observed h <? ns then ns else max_observed h) h.

Definition target_of (h : LatencyHistogram) (p : double) : Z :=
  let bounded := std_max dzero (std_min (of_Z 1) p) in
  floor_u64 (dmul bounded (of_Z (total_count h - 1))).

Fixpoint bucket_loop (bs : list Z) (i : nat) (acc target : Z) : option nat :=
  match bs with
  | [] => None
  | b :: bs => if target <? acc + b then Some i else bucket_loop bs (S i) (acc + b) target
  end.

Definition percentile (h : LatencyHistogram) (p : double) : Z :=
  if total_count h =? 0 then 0 else
  match bucket_loop (buckets h) 0 0 (target_of h p) with
  | Some i => value_for_index h i
  | None => max_observed h
  end.

Definition merge (h other : LatencyHistogram) : LatencyHistogram :=
  if negb (length (buckets other) =? length (buckets h))%nat then h else
  set_counts (zip_with Z.add (buckets h) (buckets other)) (total_count h + total_count other)
    (Z.max (max_observed h) (max_observed other)) h.

(** ** The samples behind the counts *)

(** How many of the [indices] are [i]. *)
Definition occurrences (i : nat) (indices : list nat) : Z := Z.of_nat (length (filter (fun j => j = i) indices)).

(** The counts of samples with the given [indices] among [n] buckets. *)
Definition counts (n : nat) (indices : list nat) : list Z := (fun i => occurrences i indices) <$> seq 0 n.

Definition record_all (h : LatencyHistogram) (samples : list Z) : LatencyHistogram := fold_left record samples h.

(** A histogram with nothing recorded. *)
Definition empty_histogram (h : LatencyHistogram) : Prop :=
  buckets h = replicate (length (buckets h)) 0 /\ (0 < length (buckets h))%nat /\ total_count h = 0 /\ max_observed h = 0.

(** The histogram that has counted [samples]. *)
Definition holding (h : LatencyHistogram) (samples : list Z) : LatencyHistogram :=
  set_counts (counts (length (buckets h)) (index_for h <$> samples)) (Z.of_nat (length samples)) (foldr Z.max 0 samples) h.

Lemma histogram_init_empty mn mx digits : empty_histogram (histogram_init mn mx digits).
Proof.
  unfold empty_histogram, histogram_init. cbn [buckets total_count max_observed]. rewrite length_replicate. split_and!; try done.
  pose proof (floor_u64_nonneg (dmul (dadd (log2 (ddiv (of_Z (Z.max (Z.max 1 mn) mx)) (of_Z (Z.max 1 mn)))) (of_Z 1))
    (of_Z (if digits <=? 1 then 16 else if digits =? 2 then 32 else 64)))). lia.
Qed.

Lemma length_counts n l : length (counts n l) = n.
Proof. unfold counts. by rewrite length_fmap, length_seq. Qed.

Lemma counts_lookup n l i : (i < n)%nat -> counts n l !! i = Some (occurrences i l).
Proof. intros Hi. unfold counts. rewrite list_lookup_fmap, lookup_seq_lt by done. done. Qed.

Lemma occurrences_app i l1 l2 : occurrences i (l1 ++ l2) = occurrences i l1 + occurrences i l2.
Proof. unfold occurrences. rewrite filter_app, length_app. lia. Qed.

Lemma occurrences_perm i l1 l2 : l1 ≡ₚ l2 -> occurrences i l1 = occurrences i l2.
Proof. intros H. unfold occurrences. by rewrite H. Qed.

Lemma occurrences_none i l : Forall (fun j => j <> i) l -> occurrences i l = 0.
Proof. unfold occurrences. induction 1 as [|j l Hj _ IH]; [done|]. by rewrite filter_cons_False by done. Qed.

Lemma counts_snoc n l i : (i < n)%nat -> counts n (l ++ [i]) = alter (Z.add 1) i (counts n l).
Proof.
  intros Hi. apply list_eq. intros j. destruct (decide (j < n)%nat) as [Hj|Hj].
  - rewrite counts_lookup by done. rewrite occurrences_app. destruct (decide (j = i)) as [->|Hne].
    + rewrite list_lookup_alter_eq, counts_lookup by done. cbn. unfold occurrences at 2. rewrite filter_cons_True by done. cbn. f_equal. lia.
    + rewrite list_lookup_alter_ne by done. rewrite counts_lookup by done. unfold occurrences at 2.
      rewrite filter_cons_False by done. cbn. f_equal. lia.
  - rewrite !lookup_ge_None_2; [done|rewrite length_alter, length_counts; lia|rewrite length_counts; lia].
Qed.

Lemma counts_app n l1 l2 : counts n (l1 ++ l2) = zip_with Z.add (counts n l1) (counts n l2).
Proof.
  apply list_eq. intros j. rewrite lookup_zip_with. destruct (decide (j < n)%nat) as [Hj|Hj].
  - rewrite !counts_lookup by done. cbn. by rewrite occurrences_app.
  - rewrite !lookup_ge_None_2; [done|rewrite length_counts; lia..].
Qed.

Lemma index_for_lt h ns : (0 < length (buckets h))%nat -> (index_for h ns < length (buckets h))%nat.
Proof. unfold index_for. lia. Qed.

(** The state after any samples. *)
Lemma record_all_holding h samples : empty_histogram h -> record_all h samples = holding h samples.
Proof.
  intros (Hb & Hlen & Ht & Hm). induction samples as [|ns samples IH] using rev_ind.
  - unfold holding, counts. destruct h as [mn mx d bins bs t m]. cbn in *. subst t m. unfold set_counts. cbn. f_equal.
    rewrite Hb at 1. apply list_eq. intros i. rewrite list_lookup_fmap. destruct (decide (i < length bs)%nat) as [Hi|Hi].
    + by rewrite lookup_replicate_2, lookup_seq_lt by done.
    + rewrite lookup_seq_ge by lia. apply lookup_ge_None_2. rewrite length_replicate. lia.
  - unfold record_all in *. rewrite fold_left_app, IH. cbn [fold_left]. unfold record, holding, set_counts. cbn [buckets total_count max_observed].
    assert (index_for (set_counts (counts (length (buckets h)) (index_for h <$> samples)) (Z.of_nat (length samples)) (foldr Z.max 0 samples) h) ns = index_for h ns) as Hi.
    { unfold index_for, set_counts. cbn [min_ns max_ns bins_per_octave buckets]. by rewrite length_counts. }
    unfold set_counts in Hi. rewrite Hi, fmap_app. cbn [fmap list_fmap]. rewrite counts_snoc by by apply index_for_lt.
    f_equal; [rewrite length_app; cbn; lia|].
    rewrite foldr_app. cbn. clear. induction samples as [|x samples IHs]; cbn [foldr]; [destruct (Z.ltb_spec 0 ns); lia|].
    rewrite <-IHs. destruct (Z.ltb_spec (foldr Z.max 0 samples) ns), (Z.ltb_spec (Z.max x (foldr Z.max 0 samples)) ns); lia.
Qed.

(** ** Percentiles *)

(** The first bucket split off a sorted list of indices. *)
Lemma sorted_split i0 (s : list nat) : StronglySorted le s -> Forall (le i0) s ->
  exists s', s = replicate (Z.to_nat (occurrences i0 s)) i0 ++ s' /\ StronglySorted le s' /\ Forall (le (S i0)) s'.
Proof.
  induction 1 as [|x s Hs IH Hx]; intros Hall; [exists []; by repeat constructor|]. apply Forall_cons in Hall as [Hle Hall].
  destruct (decide (x = i0)) as [->|Hne].
  - destruct (IH Hall) as (s' & E & H1 & H2). exists s'. split_and!; try done. unfold occurrences in *.
    rewrite filter_cons_True by done. cbn [length]. rewrite Nat2Z.id in *. cbn [replicate app]. by f_equal.
  - exists (x :: s). assert (Forall (le (S i0)) (x :: s)) as Hs'.
    { apply Forall_cons. split; [lia|]. eapply Forall_impl; [exact Hx|]. cbn. lia. }
    assert (occurrences i0 (x :: s) = 0) as ->.
    { apply occurrences_none. eapply Forall_impl; [exact Hs'|]. cbn. lia. }
    split_and!; try done. by constructor.
Qed.

Lemma bucket_loop_sorted m : forall i0 acc target (s : list nat), StronglySorted le s -> Forall (fun i => i0 <= i < i0 + m)%nat s -> acc <= target ->
  bucket_loop ((fun i => occurrences i s) <$> seq i0 m) i0 acc target = s !! Z.to_nat (target - acc).
Proof.
  induction m as [|m IH]; intros i0 acc target s Hs Hall Ht.
  { destruct s as [|x s]; [done|]. apply Forall_cons in Hall as [? _]. lia. }
  destruct (sorted_split i0 s Hs) as (s' & E & Hs' & Hge); [eapply Forall_impl; [exact Hall|]; cbn; lia|].
  assert (0 <= occurrences i0 s) as Hc by (unfold occurrences; lia).
  cbn [seq fmap list_fmap bucket_loop]. destruct (Z.ltb_spec target (acc + occurrences i0 s)) as [Hlt|Hnl].
  - rewrite E. rewrite lookup_app_l by (rewrite length_replicate; lia). symmetry. apply lookup_replicate_2. lia.
  - assert (Forall (fun i => S i0 <= i < S i0 + m)%nat s') as Hall'.
    { rewrite E in Hall. apply Forall_app in Hall as [_ Hall]. apply Forall_forall. intros i Hi. rewrite Forall_forall in Hall, Hge.
      specialize (Hall i Hi). specialize (Hge i Hi). lia. }
    rewrite (list_fmap_ext _ (fun i => occurrences i s') (seq (S i0) m)).
    + rewrite (IH (S i0) (acc + occurrences i0 s) target s' Hs' Hall' Hnl). rewrite E at 2.
      rewrite lookup_app_r by (rewrite length_replicate; lia). rewrite length_replicate. f_equal. lia.
    + intros j i Hi. apply list_elem_of_lookup_2, elem_of_seq in Hi. rewrite E at 1. rewrite occurrences_app.
      by rewrite occurrences_none by (apply Forall_replicate; lia).
Qed.

(** A percentile is the value of the bucket of the sample of that rank,
    whatever the samples and the order they came in; a histogram that counted
    nothing gives 0, and a rank past the last sample its maximum. *)
Theorem percentile_is_order_statistic h samples p : empty_histogram h ->
  let h' := record_all h samples in
  percentile h' p =
    match samples with
    | [] => 0
    | _ => match merge_sort le (index_for h <$> samples) !! Z.to_nat (target_of h' p) with
           | Some i => value_for_index h i
           | None => foldr Z.max 0 samples
           end
    end.
Proof.
  intros He h'. pose proof He as (_ & Hlen & _). unfold h', percentile. rewrite record_all_holding by done.
  destruct samples as [|x samples]; [done|]. set (l := x :: samples). cbn [total_count holding set_counts].
  rewrite (proj2 (Z.eqb_neq _ _)) by (cbn; lia). set (t := target_of _ p).
  assert (0 <= t) as Ht by apply floor_u64_nonneg.
  pose proof (merge_sort_Permutation le (index_for h <$> l)) as Hp.
  assert (bucket_loop (buckets (holding h l)) 0 0 t = merge_sort le (index_for h <$> l) !! Z.to_nat t) as ->.
  { change (buckets (holding h l)) with ((fun i => occurrences i (index_for h <$> l)) <$> seq 0 (length (buckets h))).
    rewrite (list_fmap_ext _ (fun i => occurrences i (merge_sort le (index_for h <$> l)))) by (intros j i _; symmetry; by apply occurrences_perm).
    rewrite bucket_loop_sorted; [by rewrite Z.sub_0_r|apply (StronglySorted_merge_sort le)| |done].
    rewrite Hp. apply Forall_fmap, Forall_forall. intros ns _. cbn. pose proof (index_for_lt h ns Hlen). lia. }
  by destruct (merge_sort le (index_for h <$> l) !! Z.to_nat t).
Qed.

(** Merging histograms of one shape is counting all the samples in one. *)
Theorem merge_is_concatenation h xs ys : empty_histogram h ->
  merge (record_all h xs) (record_all h ys) = record_all h (xs ++ ys).
Proof.
  intros He. rewrite !record_all_holding by done. unfold merge, holding, set_counts. cbn [buckets total_count max_observed].
  rewrite !length_counts, Nat.eqb_refl. cbn [negb min_ns max_ns significant_digits bins_per_octave].
  f_equal; [by rewrite fmap_app, counts_app|rewrite length_app; lia|].
  clear. induction xs as [|x xs IH]; cbn [foldr app]; [|lia]. induction ys; cbn [foldr] in *; lia.
Qed.

(** Only the number of buckets is compared: histograms of other ranges are
    added bucket by bucket, although their buckets stand for other values. *)
Lemma merge_ignores_ranges x : exists h, h = merge (histogram_init 1 10 3) (record (histogram_init 2 20 3) x) /\
  total_count h = 1 /\ min_ns h <> min_ns (histogram_init 2 20 3).
Proof.
  eexists. split; [done|]. unfold merge.
  assert (length (buckets (record (histogram_init 2 20 3) x)) = length (buckets (histogram_init 1 10 3))) as ->.
  { unfold record, set_counts. cbn [buckets]. rewrite length_alter. unfold histogram_init. cbn [buckets]. rewrite !length_replicate.
    replace (ddiv (of_Z (Z.max (Z.max 1 2) 20)) (of_Z (Z.max 1 2))) with (ddiv (of_Z (Z.max (Z.max 1 1) 10)) (of_Z (Z.max 1 1))) by (vm_compute; reflexivity).
    done. }
  rewrite Nat.eqb_refl. cbn. done.
Qed.
End histogram.

(** ** At concrete inputs *)

(** The whole part of the logarithm, and powers of whole exponents. *)
Definition w_log2 (x : double) : double := of_Z match x with S754_finite _ _ e => e + 52 | _ => 0 end.
Definition w_pow2 (x : double) : double := of_Z (2 ^ floor_u64 x).
Definition w_histogram : LatencyHistogram := histogram_init w_log2 1 1000 1.

Lemma percentile_is_order_statistic_witness :
  percentile w_pow2 (record_all w_log2 w_histogram [700; 5; 90; 7]) (dlit 1 2) = 4 /\
  percentile w_pow2 (record_all w_log2 w_histogram [700; 5; 90; 7]) (of_Z 1) = 512.
Proof.
  split; (rewrite (percentile_is_order_statistic w_log2 w_pow2) by apply histogram_init_empty); vm_compute; reflexivity.
Defined.

Lemma merge_is_concatenation_witness :
  merge (record_all w_log2 w_histogram [700; 5]) (record_all w_log2 w_histogram [90]) = record_all w_log2 w_histogram [700; 5; 90].
Proof. apply (merge_is_concatenation w_log2 w_histogram [700; 5] [90]), histogram_init_empty. Defined.
