(* ===== verification/Matching.v ===== *)
(** * The simulated matching engine (src/phase4/sim_matching_engine.cpp)

    Strategy orders rest in private books, one per symbol; trade prints of the
    tape fill them in price-time priority, up to a fraction of the printed
    quantity. The fills a call reports are its result, in order. *)

From S2P Require Import Prelude Floats Types.

#[local] Open Scope list_scope.
#[local] Open Scope Z_scope.

(** ** State *)

Inductive OrderSide := BuySide | SellSide.
#[export] Instance OrderSide_eq_dec : EqDecision OrderSide.
Proof. solve_decision. Defined.

Record Fill := mkFill {
  fill_order_id : Z; fill_side : OrderSide; fill_price : Z; fill_qty : Z; fill_ts_ns : Z; fill_partial : bool;
}.

Record Order := mkOrder { o_id : Z; o_side : OrderSide; o_price : Z; o_qty : Z; o_ts_ns : Z }.

Record SymbolBook := mkSymbolBook { sim_bids : list Order; sim_asks : list Order }.
Definition symbol_book_empty : SymbolBook := mkSymbolBook [] [].

(** [on_fill_set]: whether a fill callback is installed. *)
Record SimMatchingEngine := mkSim {
  participation_cap : double; sim_books : gmap Z SymbolBook; order_to_symbol : gmap Z Z; on_fill_set : bool;
}.

Definition sim_init (cap : double) : SimMatchingEngine := mkSim cap ∅ ∅ false.

Definition set_fill_callback (e : SimMatchingEngine) : SimMatchingEngine :=
  mkSim (participation_cap e) (sim_books e) (order_to_symbol e) true.

(** ** Priority *)

Definition bid_better (a b : Order) : bool :=
  if negb (o_price a =? o_price b) then o_price a >? o_price b else o_ts_ns a <? o_ts_ns b.

Definition ask_better (a b : Order) : bool :=
  if negb (o_price a =? o_price b) then o_price a <? o_price b else o_ts_ns a <? o_ts_ns b.

(** ** Operations *)

Definition bind_order_symbol (order_id symbol_u64 : Z) (e : SimMatchingEngine) : SimMatchingEngine :=
  if order_id =? 0 then e
  else mkSim (participation_cap e) (sim_books e) (<[order_id := symbol_u64]> (order_to_symbol e)) (on_fill_set e).

Section engine.
Context `{StdSort}.

Definition sim_submit (side : OrderSide) (price qty order_id ts_ns : Z) (e : SimMatchingEngine) : SimMatchingEngine :=
  if (order_id =? 0) || (qty =? 0) then e else
  match order_to_symbol e !! order_id with
  | None => e
  | Some sym =>
      let book := default symbol_book_empty (sim_books e !! sym) in
      let ord := mkOrder order_id side price qty ts_ns in
      let book :=
        match side with
        | BuySide => mkSymbolBook (std_sort bid_better (sim_bids book ++ [ord])) (sim_asks book)
        | SellSide => mkSymbolBook (sim_bids book) (std_sort ask_better (sim_asks book ++ [ord]))
        end in
      mkSim (participation_cap e) (<[sym := book]> (sim_books e)) (order_to_symbol e) (on_fill_set e)
  end.
End engine.

(** [remove_order]: the erase-remove idiom. *)
Definition remove_order (order_id : Z) (v : list Order) : list Order :=
  List.filter (fun o => negb (o_id o =? order_id)) v.

Definition sim_cancel (order_id : Z) (e : SimMatchingEngine) : SimMatchingEngine :=
  match order_to_symbol e !! order_id with
  | None => e
  | Some sym =>
      match sim_books e !! sym with
      | None => e
      | Some book =>
          mkSim (participation_cap e)
                (<[sym := mkSymbolBook (remove_order order_id (sim_bids book)) (remove_order order_id (sim_asks book))]>
                   (sim_books e))
                (delete order_id (order_to_symbol e)) (on_fill_set e)
      end
  end.

(** The common loop of [fill_bids] and [fill_asks], from [it] on: the orders
    left, the fills reported, and the ids of the orders erased. [beyond]: the
    order's price does not cross the trade, which ends the loop. *)
Fixpoint fill_loop (reports : bool) (beyond : Z -> bool) (side : OrderSide) (trade_price ts_ns fill_budget : Z)
    (orders : list Order) : list Order * list Fill * list Z :=
  match orders with
  | [] => ([], [], [])
  | o :: rest =>
      if negb (fill_budget >? 0) || beyond (o_price o) then (orders, [], []) else
      let take := Z.min (o_qty o) fill_budget in
      let fill := if reports && (take >? 0)
                  then [mkFill (o_id o) side trade_price take ts_ns (take <? o_qty o)] else [] in
      let qty := o_qty o -64 take in
      let '(left_, fills, erased) := fill_loop reports beyond side trade_price ts_ns (fill_budget -64 take) rest in
      if qty =? 0 then (left_, fill ++ fills, o_id o :: erased)
      else (mkOrder (o_id o) (o_side o) (o_price o) qty (o_ts_ns o) :: left_, fill ++ fills, erased)
  end.

Definition erase_ids (ids : list Z) (m : gmap Z Z) : gmap Z Z := fold_left (fun m id => delete id m) ids m.

Definition fill_bids (e : SimMatchingEngine) (sym : Z) (book : SymbolBook) (trade_price fill_budget ts_ns : Z)
    : SimMatchingEngine * list Fill :=
  let '(left_, fills, erased) :=
    fill_loop (on_fill_set e) (fun p => p <? trade_price) BuySide trade_price ts_ns fill_budget (sim_bids book) in
  (mkSim (participation_cap e) (<[sym := mkSymbolBook left_ (sim_asks book)]> (sim_books e))
         (erase_ids erased (order_to_symbol e)) (on_fill_set e), fills).

Definition fill_asks (e : SimMatchingEngine) (sym : Z) (book : SymbolBook) (trade_price fill_budget ts_ns : Z)
    : SimMatchingEngine * list Fill :=
  let '(left_, fills, erased) :=
    fill_loop (on_fill_set e) (fun p => p >? trade_price) SellSide trade_price ts_ns fill_budget (sim_asks book) in
  (mkSim (participation_cap e) (<[sym := mkSymbolBook (sim_bids book) left_]> (sim_books e))
         (erase_ids erased (order_to_symbol e)) (on_fill_set e), fills).

(** The share of a print the strategy may take. *)
Definition fill_budget (cap : double) (qty : Z) : Z :=
  floor_u64 (dmul (of_Z qty) (if dgt cap dzero then cap else dzero)).

Definition is_print (t : EventType) : bool :=
  match t with Trade | ExecutePrice | CrossTrade => true | _ => false end.

Definition on_market_event (e : SimMatchingEngine) (ev : BookEvent) : SimMatchingEngine * list Fill :=
  if negb (is_print (type ev)) then (e, []) else
  let sym := as_u64 (symbol ev) in
  match sim_books e !! sym with
  | None => (e, [])
  | Some book =>
      if qty ev =? 0 then (e, []) else
      let budget := fill_budget (participation_cap e) (qty ev) in
      if budget =? 0 then (e, []) else
      match side ev with
      | Sell => fill_bids e sym book (price ev) budget (exchange_ts_ns ev)
      | Buy => fill_asks e sym book (price ev) budget (exchange_ts_ns ev)
      | _ => (e, [])
      end
  end.

(** ** The books stay sorted *)

Lemma bid_better_weak : strict_weak bid_better.
Proof.
  split; unfold bid_better; intros *.
  - rewrite Z.eqb_refl. apply Z.ltb_irrefl.
  - destruct (Z.eqb_spec (o_price x) (o_price y)), (Z.eqb_spec (o_price y) (o_price x)); cbn; lia.
  - destruct (Z.eqb_spec (o_price x) (o_price y)), (Z.eqb_spec (o_price y) (o_price x)),
      (Z.eqb_spec (o_price y) (o_price z)), (Z.eqb_spec (o_price z) (o_price y)),
      (Z.eqb_spec (o_price x) (o_price z)), (Z.eqb_spec (o_price z) (o_price x)); cbn; lia.
Qed.

Lemma ask_better_weak : strict_weak ask_better.
Proof.
  split; unfold ask_better; intros *.
  - rewrite Z.eqb_refl. apply Z.ltb_irrefl.
  - destruct (Z.eqb_spec (o_price x) (o_price y)), (Z.eqb_spec (o_price y) (o_price x)); cbn; lia.
  - destruct (Z.eqb_spec (o_price x) (o_price y)), (Z.eqb_spec (o_price y) (o_price x)),
      (Z.eqb_spec (o_price y) (o_price z)), (Z.eqb_spec (o_price z) (o_price y)),
      (Z.eqb_spec (o_price x) (o_price z)), (Z.eqb_spec (o_price z) (o_price x)); cbn; lia.
Qed.

Definition order_ok (s : OrderSide) (o : Order) : Prop := o_id o <> 0 /\ o_side o = s /\ 0 < o_qty o < 2 ^ 64.

Record side_ok (better : Order -> Order -> bool) (s : OrderSide) (os : list Order) : Prop := {
  so_sorted : StronglySorted (not_after better) os;
  so_orders : Forall (order_ok s) os;
}.

Record symbol_book_ok (b : SymbolBook) : Prop := {
  sb_bids : side_ok bid_better BuySide (sim_bids b);
  sb_asks : side_ok ask_better SellSide (sim_asks b);
}.

Definition sim_ok (e : SimMatchingEngine) : Prop := forall sym b, sim_books e !! sym = Some b -> symbol_book_ok b.

(** The order with another quantity. *)
Definition with_qty (o : Order) (q : Z) : Order := mkOrder (o_id o) (o_side o) (o_price o) q (o_ts_ns o).

Lemma fill_loop_Forall (P : Order -> Prop) reports beyond side px ts :
  (forall o q, P o -> 0 < q <= o_qty o -> P (with_qty o q)) ->
  forall os budget, 0 <= budget < 2 ^ 64 -> Forall (fun o => 0 < o_qty o < 2 ^ 64) os -> Forall P os ->
  Forall P (fill_loop reports beyond side px ts budget os).1.1.
Proof.
  intros Hq. induction os as [|o os IH]; intros budget Hb Hos HP; [done|]. cbn [fill_loop].
  apply Forall_cons in Hos as [Ho Hos], HP as [Hp HP].
  destruct (negb (budget >? 0) || beyond (o_price o)); [by constructor|].
  assert (budget -64 Z.min (o_qty o) budget = budget - Z.min (o_qty o) budget) as -> by (apply u64_small; lia).
  rewrite (u64_small (o_qty o - _)) by lia.
  specialize (IH (budget - Z.min (o_qty o) budget) ltac:(lia) Hos HP).
  destruct (fill_loop _ _ _ _ _ _ _) as [[l f] er]. cbn in IH.
  destruct (Z.eqb_spec (o_qty o - Z.min (o_qty o) budget) 0); [done|]. cbn. constructor; [|done].
  apply (Hq o _ Hp). lia.
Qed.

Lemma fill_loop_side_ok better s reports beyond px ts budget os :
  (forall x y q, better (with_qty x q) y = better x y) -> (forall x y q, better x (with_qty y q) = better x y) ->
  0 <= budget < 2 ^ 64 -> side_ok better s os ->
  side_ok better s (fill_loop reports beyond s px ts budget os).1.1.
Proof.
  intros H1 H2 Hb [Hs Ho]. assert (Forall (fun o => 0 < o_qty o < 2 ^ 64) os) as Hqs
    by (eapply Forall_impl; [exact Ho|]; by intros o (_ & _ & ?)).
  split; [|apply fill_loop_Forall; try done; intros o q (Hi & Hsd & Hq) ?; split_and!; simpl; done || lia].
  revert budget Hb. clear Ho. induction Hs as [|o os Hs IH Hf]; intros budget Hb; [constructor|]. cbn [fill_loop].
  apply Forall_cons in Hqs as [Ho Hqs]. specialize (IH Hqs).
  destruct (negb (budget >? 0) || beyond (o_price o)); [by constructor|].
  rewrite (u64_small (budget - _)), (u64_small (o_qty o - _)) by lia.
  specialize (IH (budget - Z.min (o_qty o) budget) ltac:(lia)).
  pose proof (fill_loop_Forall (not_after better o) reports beyond s px ts) as HF.
  specialize (HF ltac:(intros; unfold not_after; by rewrite H1) os (budget - Z.min (o_qty o) budget) ltac:(lia) Hqs Hf).
  destruct (fill_loop _ _ _ _ _ _ _) as [[l f] er]. cbn in *.
  destruct (Z.eqb_spec (o_qty o - Z.min (o_qty o) budget) 0); [done|]. cbn. constructor; [done|].
  eapply Forall_impl; [exact HF|]. intros y Hy. unfold not_after in *. fold (with_qty o (o_qty o - Z.min (o_qty o) budget)).
  by rewrite H2.
Qed.

Lemma fill_budget_range cap q : 0 <= fill_budget cap q < 2 ^ 64.
Proof.
  unfold fill_budget, floor_u64. destruct (dmul _ _); try lia. unfold clip.
  destruct (0 <=? _) eqn:E1, (_ <=? 2 ^ 64 - 1) eqn:E2; zbool; cbn; lia.
Qed.

Lemma side_ok_nil better s : side_ok better s [].
Proof. split; constructor. Qed.

Lemma side_ok_insert `{StdSort} better s os o : strict_weak better -> side_ok better s os -> order_ok s o ->
  side_ok better s (std_sort better (os ++ [o])).
Proof.
  intros Hw [_ Ho] Hn. split; [by apply std_sort_sorted|]. rewrite std_sort_perm. by apply Forall_snoc.
Qed.

Lemma Forall_filter_list {A} (P : A -> Prop) f l : Forall P l -> Forall P (List.filter f l).
Proof. induction 1; cbn; [done|]. destruct (f _); [by constructor|done]. Qed.

Lemma StronglySorted_filter_list {A} (R : A -> A -> Prop) f l : StronglySorted R l -> StronglySorted R (List.filter f l).
Proof. induction 1; cbn; [constructor|]. destruct (f _); [|done]. constructor; [done|]. by apply Forall_filter_list. Qed.

Lemma side_ok_remove better s id os : side_ok better s os -> side_ok better s (remove_order id os).
Proof. intros [Hs Ho]. split; [by apply StronglySorted_filter_list|by apply Forall_filter_list]. Qed.

Section run.
Context `{StdSort}.

(** The calls a user of the engine can make. *)
Inductive SimOp :=
  | OpBind (order_id symbol_u64 : Z)
  | OpSubmit (side : OrderSide) (price qty order_id ts_ns : Z)
  | OpCancel (order_id : Z)
  | OpMarket (ev : BookEvent).

Definition sim_op (e : SimMatchingEngine) (op : SimOp) : SimMatchingEngine * list Fill :=
  match op with
  | OpBind id sym => (bind_order_symbol id sym e, [])
  | OpSubmit s p q id ts => (sim_submit s p q id ts e, [])
  | OpCancel id => (sim_cancel id e, [])
  | OpMarket ev => on_market_event e ev
  end.

(** Arguments of their C++ types. *)
Definition sim_op_ok (op : SimOp) : Prop :=
  match op with OpSubmit _ _ q _ _ => is_u 64 q | _ => True end.

Lemma lookup_insert_sim_ok e sym b cap m f : sim_ok e -> symbol_book_ok b ->
  sim_ok (mkSim cap (<[sym := b]> (sim_books e)) m f).
Proof.
  intros He Hb s b'. cbn. rewrite lookup_insert_Some. intros [[<- <-]|[_ Hs]]; [done|]. by eapply He.
Qed.

Lemma sim_op_preserves e op : sim_op_ok op -> sim_ok e -> sim_ok (sim_op e op).1.
Proof.
  intros Hop He. destruct op as [id sym|s p q id ts|id|ev]; cbn [sim_op fst].
  - unfold bind_order_symbol. by destruct (id =? 0).
  - unfold sim_submit. destruct ((id =? 0) || (q =? 0)) eqn:E; [done|]. zbool.
    destruct (order_to_symbol e !! id) as [sym|]; [|done].
    assert (symbol_book_ok (default symbol_book_empty (sim_books e !! sym))) as [Hb Ha].
    { destruct (sim_books e !! sym) as [b|] eqn:Eb; [by eapply He|]. split; apply side_ok_nil. }
    assert (order_ok s (mkOrder id s p q ts)) as Ho by (cbn in Hop; unfold is_u in Hop; split_and!; cbn; done || lia).
    apply lookup_insert_sim_ok; [done|]. destruct s; split; cbn; try done.
    + apply side_ok_insert; [apply bid_better_weak|done|done].
    + apply side_ok_insert; [apply ask_better_weak|done|done].
  - unfold sim_cancel. destruct (order_to_symbol e !! id) as [sym|]; [|done].
    destruct (sim_books e !! sym) as [b|] eqn:Eb; [|done]. destruct (He _ _ Eb).
    apply lookup_insert_sim_ok; [done|]. split; by apply side_ok_remove.
  - unfold on_market_event. destruct (negb _); [done|]. destruct (sim_books e !! _) as [b|] eqn:Eb; [|done].
    destruct (qty ev =? 0); [done|]. destruct (fill_budget _ _ =? 0); [done|]. destruct (He _ _ Eb) as [Hb Ha].
    pose proof (fill_budget_range (participation_cap e) (qty ev)) as Hr.
    destruct (side ev); [|  |done].
    + pose proof (fill_loop_side_ok ask_better SellSide (on_fill_set e) (fun p => p >? price ev) (price ev)
        (exchange_ts_ns ev) (fill_budget (participation_cap e) (qty ev)) (sim_asks b)
        ltac:(done) ltac:(done) Hr Ha) as Hl.
      unfold fill_asks. destruct (fill_loop _ _ _ _ _ _ _) as [[l f] er]. by apply lookup_insert_sim_ok.
    + pose proof (fill_loop_side_ok bid_better BuySide (on_fill_set e) (fun p => p <? price ev) (price ev)
        (exchange_ts_ns ev) (fill_budget (participation_cap e) (qty ev)) (sim_bids b)
        ltac:(done) ltac:(done) Hr Hb) as Hl.
      unfold fill_bids. destruct (fill_loop _ _ _ _ _ _ _) as [[l f] er]. by apply lookup_insert_sim_ok.
Qed.

Definition sim_run (e : SimMatchingEngine) (ops : list SimOp) : SimMatchingEngine :=
  fold_left (fun e op => (sim_op e op).1) ops e.

Lemma sim_run_ok ops : forall e, Forall sim_op_ok ops -> sim_ok e -> sim_ok (sim_run e ops).
Proof.
  induction ops as [|op ops IH]; intros e Hops He; [done|]. apply Forall_cons in Hops as [Hop Hops].
  apply IH; [done|]. by apply sim_op_preserves.
Qed.
End run.

(** ** The reference allocation

    Every order that crosses, in priority order, takes what is left of the
    budget up to its quantity. *)

Fixpoint allocate (budget : Z) (os : list Order) : list (Order * Z) :=
  match os with
  | [] => []
  | o :: os => (o, Z.min (o_qty o) budget) :: allocate (budget - Z.min (o_qty o) budget) os
  end.

Definition total_qty (os : list Order) : Z := foldr (fun o n => o_qty o + n) 0 os.

Definition filled_qty (fs : list Fill) : Z := foldr (fun f n => fill_qty f + n) 0 fs.

Lemma total_qty_nil : total_qty [] = 0.
Proof. done. Qed.

Lemma filled_qty_nil : filled_qty [] = 0.
Proof. done. Qed.

Lemma total_qty_cons o os : total_qty (o :: os) = o_qty o + total_qty os.
Proof. done. Qed.

Lemma filled_qty_cons f fs : filled_qty (f :: fs) = fill_qty f + filled_qty fs.
Proof. done. Qed.

Lemma total_qty_nonneg os : Forall (fun o => 0 < o_qty o) os -> 0 <= total_qty os.
Proof. induction 1; rewrite ?total_qty_cons; [done|lia]. Qed.

#[global] Opaque total_qty filled_qty.

Definition fill_of (side : OrderSide) (px ts : Z) (a : Order * Z) : Fill :=
  mkFill (o_id a.1) side px a.2 ts (a.2 <? o_qty a.1).

Lemma allocate_zero os : Forall (fun o => 0 < o_qty o) os -> List.filter (fun a => a.2 >? 0) (allocate 0 os) = [].
Proof.
  induction 1 as [|o os Ho _ IH]; [done|]. cbn [allocate List.filter snd]. rewrite Z.min_r by lia. cbn. exact IH.
Qed.

(** [beyond] only grows along the priority order. *)
Definition beyond_mono (better : Order -> Order -> bool) (beyond : Z -> bool) : Prop :=
  forall x y, not_after better x y -> beyond (o_price x) = true -> beyond (o_price y) = true.

Lemma beyond_filter better beyond os o : beyond_mono better beyond -> Forall (not_after better o) os ->
  beyond (o_price o) = true -> List.filter (fun o => negb (beyond (o_price o))) os = [].
Proof.
  intros Hm Hf Hb. induction Hf as [|y os Hy _ IH]; [done|]. cbn. by rewrite (Hm o y Hy Hb).
Qed.

Lemma fill_loop_reference better beyond side px ts : beyond_mono better beyond ->
  forall os budget, 0 <= budget < 2 ^ 64 -> side_ok better side os ->
  let crossing := List.filter (fun o => negb (beyond (o_price o))) os in
  (fill_loop true beyond side px ts budget os).1.2 =
    map (fill_of side px ts) (List.filter (fun a => a.2 >? 0) (allocate budget crossing)) /\
  filled_qty (fill_loop true beyond side px ts budget os).1.2 = Z.min budget (total_qty crossing) /\
  total_qty (fill_loop true beyond side px ts budget os).1.1
    = total_qty os - filled_qty (fill_loop true beyond side px ts budget os).1.2.
Proof.
  intros Hm. induction os as [|o os IH]; intros budget Hb [Hs Ho]; cbv zeta.
  { cbn [fill_loop List.filter fst snd map allocate]. rewrite total_qty_nil, filled_qty_nil. split_and!; lia || done. }
  inversion_clear Hs as [|? ? Hs' Hf]. apply Forall_cons in Ho as [(Hi & Hsd & Hq) Ho].
  assert (Forall (fun o => 0 < o_qty o) (List.filter (fun o => negb (beyond (o_price o))) os)) as Hpos.
  { apply Forall_filter_list. eapply Forall_impl; [exact Ho|]. intros x (_ & _ & ?). lia. }
  assert (0 <= total_qty (List.filter (fun o => negb (beyond (o_price o))) os)) as Htot.
  { by apply total_qty_nonneg. }
  cbn [fill_loop List.filter]. destruct (Z.gtb_spec budget 0) as [Hbud|Hbud]; cbn [negb orb].
  2: { assert (budget = 0) as -> by lia. cbn [fst snd map]. rewrite filled_qty_nil. split_and!; [| |lia].
    - destruct (negb (beyond (o_price o))); rewrite allocate_zero; try done. constructor; [lia|done].
    - destruct (negb (beyond (o_price o))); rewrite ?total_qty_cons; lia. }
  destruct (beyond (o_price o)) eqn:E; cbn [negb].
  { rewrite (beyond_filter better beyond os o Hm Hf E). cbn [fst snd map allocate List.filter].
    rewrite total_qty_nil, filled_qty_nil. split_and!; done || lia. }
  rewrite (u64_small (budget - _)), (u64_small (o_qty o - _)) by lia.
  destruct (IH (budget - Z.min (o_qty o) budget)) as (IH1 & IH2 & IH3); [lia|by split|].
  destruct (fill_loop _ _ _ _ _ _ _) as [[l f] er]. cbn [fst snd] in *.
  cbn [allocate List.filter snd]. destruct (Z.gtb_spec (Z.min (o_qty o) budget) 0); [|lia].
  cbn [andb app]. rewrite !total_qty_cons.
  destruct (Z.eqb_spec (o_qty o - Z.min (o_qty o) budget) 0); cbn [fst snd app]; rewrite filled_qty_cons, IH2;
    (split_and!; [cbn [map]; by rewrite IH1|cbn [fill_qty]; lia|rewrite ?total_qty_cons, IH3, IH2; cbn [o_qty fill_qty]; lia]).
Qed.

Section tape.
Context `{StdSort}.

(** The resting orders of [b] a print on [s] at [px] can fill, as they are
    stored, and the side they are on. *)
Definition crossing (b : SymbolBook) (s : Side) (px : Z) : list Order :=
  match s with
  | Sell => List.filter (fun o => negb (o_price o <? px)) (sim_bids b)
  | Buy => List.filter (fun o => negb (o_price o >? px)) (sim_asks b)
  | SideUnknown => []
  end.

Definition filled_side (s : Side) : OrderSide := match s with Sell => BuySide | _ => SellSide end.

Definition print_crossing (e : SimMatchingEngine) (ev : BookEvent) : list Order :=
  if is_print (type ev) then
    match sim_books e !! as_u64 (symbol ev) with
    | Some b => crossing b (side ev) (price ev)
    | None => []
    end
  else [].

(** Price-time priority on a side: the better price first (the higher bid, the
    lower ask), and at one price the older order first. *)
Definition priority (s : OrderSide) (x y : Order) : Prop :=
  match s with BuySide => o_price y < o_price x | SellSide => o_price x < o_price y end \/
  o_price x = o_price y /\ o_ts_ns x <= o_ts_ns y.

(** The fills of the orders [os], served in their order. *)
Definition fills_in_order (os : list Order) (e : SimMatchingEngine) (ev : BookEvent) : list Fill :=
  map (fill_of (filled_side (side ev)) (price ev) (exchange_ts_ns ev))
      (List.filter (fun a => a.2 >? 0) (allocate (fill_budget (participation_cap e) (qty ev)) os)).

Lemma bid_priority x y : not_after bid_better x y -> priority BuySide x y.
Proof. unfold not_after, bid_better, priority. destruct (Z.eqb_spec (o_price y) (o_price x)); cbn; lia. Qed.

Lemma ask_priority x y : not_after ask_better x y -> priority SellSide x y.
Proof. unfold not_after, ask_better, priority. destruct (Z.eqb_spec (o_price y) (o_price x)); cbn; lia. Qed.

(** What crosses is stored in priority order. *)
Lemma crossing_sorted b s px : symbol_book_ok b -> StronglySorted (priority (filled_side s)) (crossing b s px).
Proof.
  intros [[Hb _] [Ha _]]. destruct s; cbn [crossing filled_side]; [| |constructor]; apply StronglySorted_filter_list.
  - by apply (sorted_weaken _ _ _ ask_priority).
  - by apply (sorted_weaken _ _ _ bid_priority).
Qed.

Lemma print_crossing_sorted e ev : sim_ok e -> StronglySorted (priority (filled_side (side ev))) (print_crossing e ev).
Proof.
  intros He. unfold print_crossing. destruct (is_print (type ev)); [|constructor].
  destruct (sim_books e !! _) as [b|] eqn:Eb; [|constructor]. apply crossing_sorted. by eapply He.
Qed.

Lemma fill_budget_no_qty cap : fill_budget cap 0 = 0.
Proof. unfold fill_budget. by destruct cap as [[]|[]| |[]]. Qed.

Lemma bid_beyond_mono px : beyond_mono bid_better (fun p => p <? px).
Proof. intros x y. unfold not_after, bid_better. destruct (Z.eqb_spec (o_price y) (o_price x)); cbn; lia. Qed.

Lemma ask_beyond_mono px : beyond_mono ask_better (fun p => p >? px).
Proof. intros x y. unfold not_after, ask_better. destruct (Z.eqb_spec (o_price y) (o_price x)); cbn; lia. Qed.

Lemma sim_op_callback e op : on_fill_set (sim_op e op).1 = on_fill_set e.
Proof.
  destruct op as [id sym|s p q id ts|id|ev]; cbn [sim_op fst].
  - unfold bind_order_symbol. by destruct (id =? 0).
  - unfold sim_submit. destruct (_ || _); [done|]. by destruct (order_to_symbol e !! id).
  - unfold sim_cancel. destruct (order_to_symbol e !! id) as [sym|]; [|done]. by destruct (sim_books e !! sym).
  - unfold on_market_event. destruct (negb _); [done|]. destruct (sim_books e !! _); [|done].
    destruct (qty ev =? 0); [done|]. destruct (fill_budget _ _ =? 0); [done|].
    unfold fill_asks, fill_bids. destruct (side ev); [|  |done]; by destruct (fill_loop _ _ _ _ _ _ _) as [[? ?] ?].
Qed.

Lemma sim_run_callback ops : forall e, on_fill_set (sim_run e ops) = on_fill_set e.
Proof.
  induction ops as [|op ops IH]; intros e; [done|]. unfold sim_run in *. cbn [fold_left]. by rewrite IH, sim_op_callback.
Qed.

Lemma crossing_positive b s px : symbol_book_ok b -> Forall (fun o => 0 < o_qty o) (crossing b s px).
Proof.
  intros [[_ Hb] [_ Ha]].
  destruct s; cbn; [|  |done]; apply Forall_filter_list; eapply Forall_impl; try done; intros o (_ & _ & ?); lia.
Qed.

Lemma no_budget_no_fills side px ts os : Forall (fun o => 0 < o_qty o) os ->
  [] = map (fill_of side px ts) (List.filter (fun a => a.2 >? 0) (allocate 0 os)) /\
  filled_qty [] = Z.min 0 (total_qty os).
Proof. intros Hos. rewrite allocate_zero, filled_qty_nil by done. pose proof (total_qty_nonneg _ Hos). split; [done|lia]. Qed.

(** In a good state a print fills what crosses in the order stored. *)
Lemma on_market_event_fills e ev : sim_ok e -> on_fill_set e = true ->
  (on_market_event e ev).2 = fills_in_order (print_crossing e ev) e ev /\
  filled_qty (on_market_event e ev).2 = Z.min (fill_budget (participation_cap e) (qty ev)) (total_qty (print_crossing e ev)).
Proof.
  intros He Hcb. unfold on_market_event, fills_in_order, print_crossing.
  pose proof (fill_budget_range (participation_cap e) (qty ev)) as Hr.
  destruct (is_print (type ev)); cbn [negb fst snd].
  2: { cbn. rewrite filled_qty_nil, total_qty_nil. split; [done|lia]. }
  destruct (sim_books e !! _) as [b|] eqn:Eb.
  2: { cbn. rewrite filled_qty_nil, total_qty_nil. split; [done|lia]. }
  pose proof (He _ _ Eb) as Hbk. destruct Hbk as [Hb Ha].
  destruct (Z.eqb_spec (qty ev) 0) as [Eq|].
  { rewrite Eq, fill_budget_no_qty. apply no_budget_no_fills, crossing_positive. by eapply He. }
  destruct (Z.eqb_spec (fill_budget (participation_cap e) (qty ev)) 0) as [Ez|].
  { rewrite Ez. apply no_budget_no_fills, crossing_positive. by eapply He. }
  destruct (side ev); cbn [crossing filled_side].
  - destruct (fill_loop_reference ask_better (fun p => p >? price ev) SellSide (price ev) (exchange_ts_ns ev)
      (ask_beyond_mono _) (sim_asks b) _ Hr Ha) as (H1 & H2 & _).
    unfold fill_asks. rewrite Hcb. destruct (fill_loop _ _ _ _ _ _ _) as [[l f] er]. by split.
  - destruct (fill_loop_reference bid_better (fun p => p <? price ev) BuySide (price ev) (exchange_ts_ns ev)
      (bid_beyond_mono _) (sim_bids b) _ Hr Hb) as (H1 & H2 & _).
    unfold fill_bids. rewrite Hcb. destruct (fill_loop _ _ _ _ _ _ _) as [[l f] er]. by split.
  - cbn. rewrite filled_qty_nil, total_qty_nil. split; [done|lia].
Qed.

(** C18. After any calls, a tape print fills exactly the resting orders it
    crosses in price-time priority: there is an arrangement of these orders,
    the better price first (higher for bids, lower for asks) and the older
    order first at one price, such that the fills are those of serving them one
    after the other, each up to its quantity until the participation budget is
    spent; the fills total the smaller of the budget and what crosses. *)
Theorem tape_fills_by_priority cap ops ev : Forall sim_op_ok ops ->
  let e := sim_run (set_fill_callback (sim_init cap)) ops in
  (exists os, os ≡ₚ print_crossing e ev /\ StronglySorted (priority (filled_side (side ev))) os /\
     (on_market_event e ev).2 = fills_in_order os e ev) /\
  filled_qty (on_market_event e ev).2
    = Z.min (fill_budget (participation_cap e) (qty ev)) (total_qty (print_crossing e ev)).
Proof.
  intros Hops e. assert (sim_ok e) as He by (apply sim_run_ok; [done|]; intros s b Hb; done).
  assert (on_fill_set e = true) as Hcb by apply sim_run_callback.
  destruct (on_market_event_fills e ev He Hcb) as [Hf Hq]. split; [|exact Hq].
  exists (print_crossing e ev). split; [done|]. split; [by apply print_crossing_sorted|exact Hf].
Qed.
End tape.

(** ** At concrete inputs *)

Definition sample_ops : list SimOp :=
  [OpBind 1 7; OpSubmit BuySide 100 10 1 1; OpBind 2 7; OpSubmit BuySide 101 10 2 2;
   OpBind 3 7; OpSubmit BuySide 101 10 3 1; OpBind 4 7; OpSubmit BuySide 98 10 4 1].

Definition sample_print : BookEvent :=
  mkEvent Nasdaq Trade 1 9 9 [0; 0; 0; 0; 0; 0; 0; 7] 0 0 0 100 99 0 0 Sell None 80.

Lemma tape_fills_by_priority_witness :
  let e := @sim_run insertion_std_sort (set_fill_callback (sim_init (dlit 25 100))) sample_ops in
  (exists os, os ≡ₚ print_crossing e sample_print /\ StronglySorted (priority BuySide) os /\
     (on_market_event e sample_print).2 = fills_in_order os e sample_print) /\
  filled_qty (on_market_event e sample_print).2
    = Z.min (fill_budget (participation_cap e) 100) (total_qty (print_crossing e sample_print)).
Proof.
  apply (tape_fills_by_priority (dlit 25 100) sample_ops sample_print).
  unfold sample_ops. repeat constructor; simpl; unfold is_u; lia.
Defined.

Example sample_fills :
  let e := @sim_run insertion_std_sort (set_fill_callback (sim_init (dlit 25 100))) sample_ops in
  map (fun f => (fill_order_id f, fill_price f, fill_qty f, fill_partial f)) (on_market_event e sample_print).2
  = [(3, 99, 10, false); (2, 99, 10, false); (1, 99, 5, true)].
Proof. vm_compute. reflexivity. Qed.
