(* ===== verification/Features.v ===== *)
(** * The feature pipeline and bridge (src/phase3/feature_pipeline.cpp,
    src/phase3/feature_bridge.cpp)

    From the merged events to feature vectors: the book engine and the NBBO
    consolidator are those of their own files; the features are computed in
    binary64. *)

From S2P Require Import Prelude OrderTable OrderBook Nbbo NbboJournal Floats Spsc Spmc Types.

#[local] Open Scope list_scope.
#[local] Open Scope Z_scope.

(** ** State *)

Record FeatureConfig := mkFeatureConfig {
  ofi_window_ns : Z; vpin_bucket_volume : Z; vpin_bucket_count : nat; ofi_reserve_points : nat;
}.

Definition feature_config_default : FeatureConfig :=
  mkFeatureConfig 1000000000 10000 32 (Nat.pow 2 20).

Record FeatureVector := mkFeature {
  fv_symbol_u64 : Z; fv_exchange_ts_ns : Z; fv_ingest_ts_ns : Z;
  fv_nbbo_bid_price : Z; fv_nbbo_bid_qty : Z; fv_nbbo_ask_price : Z; fv_nbbo_ask_qty : Z;
  fv_microprice : double; fv_ofi : double; fv_queue_ahead : double; fv_effective_spread : double;
  fv_kyle_lambda : double; fv_vpin : double;
}.

(** The members of [State], in groups: the order-flow imbalance, the effective
    spread and last mid, the regression sums, and the VPIN buckets. *)
Record OfiState := mkOfi {
  last_bid_price : Z; last_bid_qty : Z; last_ask_price : Z; last_ask_qty : Z;
  ofi_sum : double; ofi_window : list (Z * double); ofi_head : nat;
}.

Record SpreadState := mkSpread {
  effective_spread_ema : double; has_effective_spread : bool; last_mid : double; has_mid : bool;
}.

Record RegState := mkReg { reg_n : Z; reg_sum_x : double; reg_sum_y : double; reg_sum_xx : double; reg_sum_xy : double }.

Record VpinState := mkVpin {
  vpin_bucket_buy : Z; vpin_bucket_sell : Z; vpin_buckets : list double; vpin_head : nat; vpin_size : nat;
}.

Record FeatureState := mkFeatureState { f_ofi : OfiState; f_spread : SpreadState; f_reg : RegState; f_vpin : VpinState }.

Definition feature_state_default : FeatureState :=
  mkFeatureState (mkOfi 0 0 0 0 dzero [] 0) (mkSpread dzero false dzero false) (mkReg 0 dzero dzero dzero dzero)
                 (mkVpin 0 0 (replicate 64 dzero) 0 0).

(** [cached_state_] points to a node of [by_symbol_]: the pointer is its key. *)
Record FeaturePipeline := mkFeatures {
  feature_cfg : FeatureConfig; f_by_symbol : gmap Z FeatureState;
  f_cached_symbol : Z; f_cached_state : option Z; f_cached_valid : bool;
}.

Definition features_init (cfg : FeatureConfig) : FeaturePipeline := mkFeatures cfg ∅ 0 None false.

(** The pointer to the state of the symbol, created when missing. *)
Definition feature_state_for (p : FeaturePipeline) (sym : Z) : Z * FeaturePipeline :=
  match f_cached_valid p && (f_cached_symbol p =? sym), f_cached_state p with
  | true, Some ptr => (ptr, p)
  | _, _ =>
      let m := match f_by_symbol p !! sym with
               | Some _ => f_by_symbol p
               | None => <[sym := feature_state_default]> (f_by_symbol p)
               end in
      (sym, mkFeatures (feature_cfg p) m sym (Some sym) true)
  end.

(** ** The features *)

Definition d_half : double := dlit 1 2.
Definition d_two : double := of_Z 2.

(** The change of the order-flow imbalance between two quotes. *)
Definition delta_ofi (o : OfiState) (n : Nbbo) : double :=
  let bid_q := of_Z (n_bid_qty n) in
  let ask_q := of_Z (n_ask_qty n) in
  if negb (last_bid_price o =? 0) || negb (last_ask_price o =? 0) then
    let d :=
      if n_bid_price n >? last_bid_price o then dadd dzero bid_q
      else if n_bid_price n <? last_bid_price o then dsub dzero (of_Z (last_bid_qty o))
      else dadd dzero (dsub bid_q (of_Z (last_bid_qty o))) in
    if n_ask_price n <? last_ask_price o then dsub d ask_q
    else if n_ask_price n >? last_ask_price o then dadd d (of_Z (last_ask_qty o))
    else dsub d (dsub ask_q (of_Z (last_ask_qty o)))
  else dzero.

(** The loop that forgets the points older than the window: [points] are those
    from [head] on. *)
Fixpoint ofi_evict (now window_ns : Z) (points : list (Z * double)) (head : nat) (sum : double) : nat * double :=
  match points with
  | [] => (head, sum)
  | (ts, v) :: points =>
      if (now -64 ts) >? window_ns then ofi_evict now window_ns points (S head) (dsub sum v) else (head, sum)
  end.

Definition ofi_step (cfg : FeatureConfig) (o : OfiState) (n : Nbbo) (now : Z) : OfiState :=
  let d := delta_ofi o n in
  let window := ofi_window o ++ [(now, d)] in
  let '(head, sum) := ofi_evict now (ofi_window_ns cfg) (drop (ofi_head o) window) (ofi_head o) (dadd (ofi_sum o) d) in
  let '(window, head) :=
    if (4096 <? head)%nat && (length window <? head * 2)%nat then (drop head window, 0%nat) else (window, head) in
  mkOfi (n_bid_price n) (n_bid_qty n) (n_ask_price n) (n_ask_qty n) sum window head.

Definition spread_step (s : SpreadState) (trade_p mid : double) : SpreadState :=
  let eff := dmul d_two (dabs (dsub trade_p mid)) in
  if negb (has_effective_spread s) then mkSpread eff true (last_mid s) (has_mid s)
  else mkSpread (dadd (dmul (dlit 95 100) (effective_spread_ema s)) (dmul (dlit 5 100) eff)) true (last_mid s) (has_mid s).

Definition trade_sign (s : Side) : double :=
  match s with Buy => of_Z 1 | Sell => of_Z (-1) | SideUnknown => dzero end.

Definition reg_step (r : RegState) (s : SpreadState) (x mid : double) : RegState :=
  let y := if has_mid s then dsub mid (last_mid s) else dzero in
  mkReg (reg_n r +64 1) (dadd (reg_sum_x r) x) (dadd (reg_sum_y r) y) (dadd (reg_sum_xx r) (dmul x x))
        (dadd (reg_sum_xy r) (dmul x y)).

Definition max_buckets (cfg : FeatureConfig) (v : VpinState) : nat :=
  if (vpin_bucket_count cfg <? length (vpin_buckets v))%nat then vpin_bucket_count cfg else length (vpin_buckets v).

(** One turn of the bucket loop. *)
Definition vpin_turn (cfg : FeatureConfig) (v : VpinState) : VpinState :=
  let volume := vpin_bucket_volume cfg in
  let tox := ddiv (dabs (dsub (of_Z (vpin_bucket_buy v)) (of_Z (vpin_bucket_sell v)))) (of_Z volume) in
  let mb := max_buckets cfg v in
  let '(buckets, head, size) :=
    if (vpin_size v <? mb)%nat
    then (<[((vpin_head v + vpin_size v) mod mb)%nat := tox]> (vpin_buckets v), vpin_head v, S (vpin_size v))
    else if (0 <? mb)%nat
    then (<[vpin_head v := tox]> (vpin_buckets v), ((vpin_head v + 1) mod mb)%nat, vpin_size v)
    else (vpin_buckets v, vpin_head v, vpin_size v) in
  let excess := (vpin_bucket_buy v +32 vpin_bucket_sell v) -32 volume in
  let buy := if vpin_bucket_buy v >? excess then excess else 0 in
  let sell := if vpin_bucket_sell v >? buy then excess -32 buy else 0 in
  mkVpin buy sell buckets head size.

(** The bucket loop; [None]: still running after [fuel] turns. *)
Fixpoint vpin_loop (fuel : nat) (cfg : FeatureConfig) (v : VpinState) : option VpinState :=
  if (vpin_bucket_buy v +32 vpin_bucket_sell v) >=? vpin_bucket_volume cfg
  then match fuel with O => None | S fuel => vpin_loop fuel cfg (vpin_turn cfg v) end
  else Some v.

Definition vpin_add (v : VpinState) (s : Side) (qty : Z) : VpinState :=
  match s with
  | Buy => mkVpin (vpin_bucket_buy v +32 qty) (vpin_bucket_sell v) (vpin_buckets v) (vpin_head v) (vpin_size v)
  | Sell => mkVpin (vpin_bucket_buy v) (vpin_bucket_sell v +32 qty) (vpin_buckets v) (vpin_head v) (vpin_size v)
  | SideUnknown => v
  end.

(** Enough turns for the bucket loop whenever the volume is positive. *)
Definition vpin_fuel (cfg : FeatureConfig) (v : VpinState) : nat :=
  Z.to_nat ((vpin_bucket_buy v +32 vpin_bucket_sell v) / vpin_bucket_volume cfg).

Definition kyle_lambda (r : RegState) : double :=
  let n := of_Z (reg_n r) in
  let denom := dsub (dmul n (reg_sum_xx r)) (dmul (reg_sum_x r) (reg_sum_x r)) in
  if dgt (dabs denom) (dlit 1 1000000000000)
  then ddiv (dsub (dmul n (reg_sum_xy r)) (dmul (reg_sum_x r) (reg_sum_y r))) denom
  else dzero.

Definition vpin_value (cfg : FeatureConfig) (v : VpinState) : double :=
  if (0 <? vpin_size v)%nat then
    let mb := max_buckets cfg v in
    let sum := fold_left (fun sum i => dadd sum (default dzero (vpin_buckets v !! ((vpin_head v + i) mod mb)%nat)))
                         (seq 0 (vpin_size v)) dzero in
    ddiv sum (of_Z (Z.of_nat (vpin_size v)))
  else dzero.

Definition mid_price (n : Nbbo) : double := dmul d_half (dadd (of_Z (n_bid_price n)) (of_Z (n_ask_price n))).

Definition micro_price (n : Nbbo) : double :=
  let bid_p := of_Z (n_bid_price n) in
  let ask_p := of_Z (n_ask_price n) in
  let bid_q := of_Z (n_bid_qty n) in
  let ask_q := of_Z (n_ask_qty n) in
  let denom := dadd bid_q ask_q in
  if dgt denom dzero then ddiv (dadd (dmul ask_p bid_q) (dmul bid_p ask_q)) denom else mid_price n.

Definition is_feature_trade (t : EventType) : bool := match t with Trade | CrossTrade => true | _ => false end.

(** The part of [on_event] for trades; [None]: the bucket loop does not end. *)
Definition trade_step (cfg : FeatureConfig) (s : FeatureState) (ev : BookEvent) (mid : double) : option FeatureState :=
  if is_feature_trade (type ev) then
    let spread := spread_step (f_spread s) (of_Z (price ev)) mid in
    let reg := reg_step (f_reg s) (f_spread s) (dmul (trade_sign (side ev)) (of_Z (qty ev))) mid in
    let v := vpin_add (f_vpin s) (side ev) (qty ev) in
    match vpin_loop (vpin_fuel cfg v) cfg v with
    | None => None
    | Some v => Some (mkFeatureState (f_ofi s) spread reg v)
    end
  else Some s.

(** [FeaturePipeline::on_event]; [None]: the call does not return. *)
Definition feature_on_event (p : FeaturePipeline) (ev : BookEvent) (n : Nbbo) (queue_ahead_hint : double)
    : option (option FeatureVector * FeaturePipeline) :=
  let sym := as_u64 (symbol ev) in
  let '(ptr, p) := feature_state_for p sym in
  let s := default feature_state_default (f_by_symbol p !! ptr) in
  if negb (n_has_bid n) || negb (n_has_ask n) || (n_bid_price n =? 0) || (n_ask_price n =? 0) then Some (None, p) else
  let mid := mid_price n in
  let s := mkFeatureState (ofi_step (feature_cfg p) (f_ofi s) n (exchange_ts_ns ev)) (f_spread s) (f_reg s) (f_vpin s) in
  match trade_step (feature_cfg p) s ev mid with
  | None => None
  | Some s =>
      let s := mkFeatureState (f_ofi s)
                 (mkSpread (effective_spread_ema (f_spread s)) (has_effective_spread (f_spread s)) mid true)
                 (f_reg s) (f_vpin s) in
      let fv := mkFeature sym (exchange_ts_ns ev) (ingest_ts_ns ev) (n_bid_price n) (n_bid_qty n) (n_ask_price n)
                  (n_ask_qty n) (micro_price n) (ofi_sum (f_ofi s)) queue_ahead_hint
                  (effective_spread_ema (f_spread s)) (kyle_lambda (f_reg s)) (vpin_value (feature_cfg p) (f_vpin s)) in
      Some (Some fv, mkFeatures (feature_cfg p) (<[ptr := s]> (f_by_symbol p)) (f_cached_symbol p) (f_cached_state p)
                                (f_cached_valid p))
  end.

(** ** The bucket loop ends *)

(** The bucket state in its C++ ranges; every index the code computes is inside
    the array. *)
Record vpin_ok (cfg : FeatureConfig) (v : VpinState) : Prop := {
  vo_buy : is_u 32 (vpin_bucket_buy v);
  vo_sell : is_u 32 (vpin_bucket_sell v);
  vo_buckets : length (vpin_buckets v) = 64%nat;
  vo_size : (vpin_size v <= max_buckets cfg v)%nat;
  vo_head : (vpin_head v < Nat.max 1 (max_buckets cfg v))%nat;
}.

Definition bucket_total (v : VpinState) : Z := vpin_bucket_buy v +32 vpin_bucket_sell v.

Lemma max_buckets_le cfg v : length (vpin_buckets v) = 64%nat -> (max_buckets cfg v <= 64)%nat.
Proof. intros H. unfold max_buckets. rewrite H. destruct (Nat.ltb_spec (vpin_bucket_count cfg) 64); lia. Qed.

Lemma max_buckets_same cfg v v' : length (vpin_buckets v') = length (vpin_buckets v) ->
  max_buckets cfg v' = max_buckets cfg v.
Proof. intros H. unfold max_buckets. by rewrite H. Qed.

(** A turn takes a bucket's volume off the total. *)
Lemma vpin_turn_total cfg v : is_u 32 (vpin_bucket_buy v) -> is_u 32 (vpin_bucket_sell v) ->
  0 < vpin_bucket_volume cfg <= bucket_total v ->
  0 <= bucket_total (vpin_turn cfg v) <= bucket_total v - vpin_bucket_volume cfg /\
  is_u 32 (vpin_bucket_buy (vpin_turn cfg v)) /\ is_u 32 (vpin_bucket_sell (vpin_turn cfg v)).
Proof.
  unfold is_u. intros Hb Hs Hv. unfold vpin_turn. destruct (if (vpin_size v <? _)%nat then _ else _) as [[bs h] n].
  unfold bucket_total in *. cbn [vpin_bucket_buy vpin_bucket_sell].
  set (total := vpin_bucket_buy v +32 vpin_bucket_sell v) in *.
  pose proof (u32_range (vpin_bucket_buy v + vpin_bucket_sell v)) as Ht. fold total in Ht.
  rewrite (u32_small (total - _)) by lia.
  destruct (Z.gtb_spec (vpin_bucket_buy v) (total - vpin_bucket_volume cfg)).
  - destruct (Z.gtb_spec (vpin_bucket_sell v) (total - vpin_bucket_volume cfg)).
    + rewrite Z.sub_diag. rewrite (u32_small 0), Z.add_0_r, u32_small by lia. lia.
    + rewrite Z.add_0_r, u32_small by lia. lia.
  - destruct (Z.gtb_spec (vpin_bucket_sell v) 0).
    + rewrite Z.sub_0_r, Z.add_0_l, !u32_small by (rewrite ?u32_small; lia). lia.
    + rewrite Z.add_0_l, u32_small by lia. lia.
Qed.

Lemma vpin_turn_ok cfg v : vpin_ok cfg v -> 0 < vpin_bucket_volume cfg <= bucket_total v -> vpin_ok cfg (vpin_turn cfg v).
Proof.
  intros [Hb Hs Hl Hn Hh] Hv. destruct (vpin_turn_total cfg v Hb Hs Hv) as (_ & Hb' & Hs').
  assert (length (vpin_buckets (vpin_turn cfg v)) = length (vpin_buckets v)) as Hlen.
  { unfold vpin_turn. destruct (vpin_size v <? _)%nat; [cbn; apply length_insert|].
    destruct (0 <? _)%nat; cbn; [apply length_insert|done]. }
  split; [done|done|by rewrite Hlen| |]; rewrite (max_buckets_same _ _ _ Hlen).
  - unfold vpin_turn. destruct (Nat.ltb_spec (vpin_size v) (max_buckets cfg v)); [cbn; lia|].
    destruct (0 <? _)%nat; cbn; lia.
  - unfold vpin_turn. destruct (Nat.ltb_spec (vpin_size v) (max_buckets cfg v)); [cbn; lia|].
    destruct (Nat.ltb_spec 0 (max_buckets cfg v)); cbn; [|lia].
    pose proof (Nat.mod_upper_bound (vpin_head v + 1) (max_buckets cfg v)). lia.
Qed.

Lemma vpin_loop_ends cfg : 0 < vpin_bucket_volume cfg -> forall fuel v, vpin_ok cfg v ->
  bucket_total v < (Z.of_nat fuel + 1) * vpin_bucket_volume cfg ->
  exists v', vpin_loop fuel cfg v = Some v' /\ vpin_ok cfg v' /\ bucket_total v' < vpin_bucket_volume cfg.
Proof.
  intros Hvol. induction fuel as [|fuel IH]; intros v Hv Hlt; cbn [vpin_loop]; fold (bucket_total v);
    destruct (Z.geb_spec (bucket_total v) (vpin_bucket_volume cfg)); try (by exists v).
  - lia.
  - apply IH; [by apply vpin_turn_ok|].
    destruct (vpin_turn_total cfg v) as (? & _); [apply Hv|apply Hv|lia|]. lia.
Qed.

Lemma vpin_fuel_enough cfg v : vpin_ok cfg v -> 0 < vpin_bucket_volume cfg ->
  exists v', vpin_loop (vpin_fuel cfg v) cfg v = Some v' /\ vpin_ok cfg v' /\ bucket_total v' < vpin_bucket_volume cfg.
Proof.
  intros Hv Hvol. apply vpin_loop_ends; [done|done|]. unfold vpin_fuel. fold (bucket_total v).
  pose proof (u32_range (vpin_bucket_buy v + vpin_bucket_sell v)) as Ht. fold (bucket_total v) in Ht.
  pose proof (Z.div_mod (bucket_total v) (vpin_bucket_volume cfg)).
  pose proof (Z.mod_pos_bound (bucket_total v) (vpin_bucket_volume cfg) Hvol).
  assert (0 <= bucket_total v / vpin_bucket_volume cfg) by (apply Z.div_pos; lia). rewrite Z2Nat.id by lia. lia.
Qed.

(** With a bucket volume of 0 the loop never ends. *)
Lemma vpin_loop_zero cfg : vpin_bucket_volume cfg = 0 -> forall fuel v, vpin_loop fuel cfg v = None.
Proof.
  intros Hz. induction fuel as [|fuel IH]; intros v; cbn [vpin_loop]; rewrite Hz;
    pose proof (u32_range (vpin_bucket_buy v + vpin_bucket_sell v));
    destruct (Z.geb_spec (vpin_bucket_buy v +32 vpin_bucket_sell v) 0); try done; lia.
Qed.

Record feature_state_ok (cfg : FeatureConfig) (s : FeatureState) : Prop := {
  fs_vpin : vpin_ok cfg (f_vpin s);
  fs_head : (ofi_head (f_ofi s) <= length (ofi_window (f_ofi s)))%nat;
  fs_total : 0 < vpin_bucket_volume cfg -> bucket_total (f_vpin s) < vpin_bucket_volume cfg;
}.

Definition features_ok (p : FeaturePipeline) : Prop :=
  map_Forall (fun _ s => feature_state_ok (feature_cfg p) s) (f_by_symbol p) /\
  (f_cached_valid p = true -> f_cached_state p = Some (f_cached_symbol p)).

Lemma feature_state_default_ok cfg : feature_state_ok cfg feature_state_default.
Proof. split; [split; cbn; unfold is_u; lia || done|done|]. intros. done. Qed.

Lemma ofi_evict_head now w points : forall head sum,
  (head <= (ofi_evict now w points head sum).1 <= head + length points)%nat.
Proof.
  induction points as [|[ts v] points IH]; intros head sum; cbn; [lia|].
  destruct (_ >? w); cbn; [|lia]. specialize (IH (S head) (dsub sum v)). lia.
Qed.

Lemma ofi_step_head cfg o n now : (ofi_head o <= length (ofi_window o))%nat ->
  (ofi_head (ofi_step cfg o n now) <= length (ofi_window (ofi_step cfg o n now)))%nat.
Proof.
  intros H. unfold ofi_step. set (w := ofi_window o ++ _).
  assert (length w = S (length (ofi_window o))) as Hw by (unfold w; rewrite length_app; cbn; lia).
  pose proof (ofi_evict_head now (ofi_window_ns cfg) (drop (ofi_head o) w) (ofi_head o)
    (dadd (ofi_sum o) (delta_ofi o n))) as He. rewrite length_drop in He.
  destruct (ofi_evict _ _ _ _ _) as [h s]. cbn in He. destruct ((4096 <? h)%nat && _); cbn; lia.
Qed.

Lemma feature_state_for_ok p sym : features_ok p ->
  features_ok (feature_state_for p sym).2 /\ (feature_state_for p sym).1 = sym /\
  feature_cfg (feature_state_for p sym).2 = feature_cfg p /\
  feature_state_ok (feature_cfg p) (default feature_state_default (f_by_symbol (feature_state_for p sym).2 !! sym)).
Proof.
  intros [Hm Hc].
  assert (forall (m : gmap Z FeatureState), map_Forall (fun _ s => feature_state_ok (feature_cfg p) s) m ->
    feature_state_ok (feature_cfg p) (default feature_state_default (m !! sym))) as Hd.
  { intros m H. destruct (m !! sym) eqn:E; [by eapply H|apply feature_state_default_ok]. }
  assert (map_Forall (fun _ s => feature_state_ok (feature_cfg p) s)
    (match f_by_symbol p !! sym with Some _ => f_by_symbol p | None => <[sym := feature_state_default]> (f_by_symbol p) end)) as Hm'.
  { destruct (f_by_symbol p !! sym); [done|]. apply map_Forall_insert_2; [apply feature_state_default_ok|done]. }
  unfold feature_state_for. destruct (f_cached_valid p && (f_cached_symbol p =? sym)) eqn:E.
  - zbool. subst. rewrite Hc by done. cbn. split_and!; [by split|done|done|by apply Hd].
  - cbn. split_and!; [split; [exact Hm'|done]|done|done|by apply Hd].
Qed.

(** [on_event] always returns when the bucket volume is positive, and keeps the
    state well formed. *)
Lemma feature_on_event_ok p ev n q : features_ok p -> 0 < vpin_bucket_volume (feature_cfg p) ->
  exists r p', feature_on_event p ev n q = Some (r, p') /\ features_ok p' /\ feature_cfg p' = feature_cfg p.
Proof.
  intros Hp Hvol. destruct (feature_state_for_ok p (as_u64 (symbol ev)) Hp) as (Hp' & Hptr & Hcfg & Hs).
  unfold feature_on_event. destruct (feature_state_for p (as_u64 (symbol ev))) as [ptr p']. cbn in Hp', Hptr, Hcfg, Hs. subst ptr.
  destruct (_ || _); [by eexists _, _|].
  set (s := default _ _) in *. destruct Hs as [Hv Hh Ht]. rewrite Hcfg.
  pose proof (ofi_step_head (feature_cfg p) (f_ofi s) n (exchange_ts_ns ev) Hh) as Hh'.
  assert (exists s', trade_step (feature_cfg p)
    (mkFeatureState (ofi_step (feature_cfg p) (f_ofi s) n (exchange_ts_ns ev)) (f_spread s) (f_reg s) (f_vpin s)) ev (mid_price n)
    = Some s' /\ feature_state_ok (feature_cfg p) s') as (s' & -> & Hs').
  { unfold trade_step. cbn [f_vpin f_ofi f_spread f_reg]. destruct (is_feature_trade (type ev)); [|by eexists; split; [done|split]].
    assert (vpin_ok (feature_cfg p) (vpin_add (f_vpin s) (side ev) (qty ev))) as Hva.
    { destruct Hv as [Hb Hse Hl Hn Hhd]. destruct (side ev); split; cbn; try done; apply u32_range. }
    destruct (vpin_fuel_enough _ _ Hva Hvol) as (v' & -> & Hv' & Hlt). eexists. split; [done|]. by split. }
  eexists _, _. split; [done|]. destruct Hp' as [Hm Hc]. split; [|by cbn]. split; cbn; [|done].
  rewrite Hcfg in *. apply map_Forall_insert_2; [|done]. destruct Hs'. by split.
Qed.

(** ** The bridge *)

Record FeatureBridgeStats := mkBridgeStats { published : Z; dropped : Z; feature_updates : Z }.

Record FeatureBridge := mkBridge {
  fb_books : OrderBookEngine; fb_nbbo : NbboConsolidator; fb_features : FeaturePipeline; fb_stats : FeatureBridgeStats;
}.

Definition bridge_init (slots : nat) (cfg : FeatureConfig) : FeatureBridge :=
  mkBridge (engine_init slots) consolidator_init (features_init cfg) (mkBridgeStats 0 0 0).

(** [IFeaturePublisher]: what [try_publish] returns and does to the publisher. *)
Class IFeaturePublisher (P : Type) := { fp_try_publish : FeatureVector -> P -> bool * P }.

(** [RingFeaturePublisher] over a possibly null ring of [2^k] slots. *)
#[export] Instance RingFeaturePublisher (k : nat) : IFeaturePublisher (option (@SPSCRingBuffer FeatureVector)) := {|
  fp_try_publish fv ring :=
    match ring with
    | None => (false, None)
    | Some r => let '(ok, r) := try_push k fv r in (ok, Some r)
    end
|}.

(** [SpmcFeaturePublisher]; [encode]: the words of a feature vector. *)
Definition spmc_try_publish (k : nat) (encode : FeatureVector -> list Z) (fv : FeatureVector)
    (ring : option SPMCSeqlockRing) : bool * option SPMCSeqlockRing :=
  match ring with
  | None => (false, None)
  | Some r => (true, Some (Spmc.try_publish k (encode fv) r))
  end.

Section bridge.
Context {P : Type} `{IFeaturePublisher P}.

Definition count_publish (ok : bool) (s : FeatureBridgeStats) : FeatureBridgeStats :=
  if ok then mkBridgeStats (published s +64 1) (dropped s) (feature_updates s)
  else mkBridgeStats (published s) (dropped s +64 1) (feature_updates s).

(** [FeatureBridge::on_merged_event]; the publisher may be null; [None]: the
    call does not return. *)
Definition bridge_on_event (b : FeatureBridge) (publisher : option P) (ev : BookEvent) : option (FeatureBridge * option P) :=
  let '(books, apply) := book_on_event (fb_books b) ev in
  let '(n, c) := update_and_current (fb_nbbo b) (as_u64 (symbol ev)) (venue ev) (top_after apply) 0 in
  match feature_on_event (fb_features b) ev n (of_Z (queue_ahead_before_add apply)) with
  | None => None
  | Some (None, f) => Some (mkBridge books c f (fb_stats b), publisher)
  | Some (Some fv, f) =>
      let s := mkBridgeStats (published (fb_stats b)) (dropped (fb_stats b)) (feature_updates (fb_stats b) +64 1) in
      match publisher with
      | None => Some (mkBridge books c f (count_publish false s), None)
      | Some pub =>
          let '(ok, pub) := fp_try_publish fv pub in Some (mkBridge books c f (count_publish ok s), Some pub)
      end
  end.

Fixpoint bridge_run (b : FeatureBridge) (publisher : option P) (evs : list BookEvent) : option (FeatureBridge * option P) :=
  match evs with
  | [] => Some (b, publisher)
  | ev :: evs =>
      match bridge_on_event b publisher ev with
      | None => None
      | Some (b, publisher) => bridge_run b publisher evs
      end
  end.
End bridge.

(** ** What the bridge promises *)

(** After any event the consolidator still agrees with the books. *)
Lemma tops_agree_update e c ev seq : tops_agree e c ->
  let '(e', a) := book_on_event e ev in
  let '(n, c') := update_and_current c (as_u64 (symbol ev)) (venue ev) (top_after a) seq in
  tops_agree e' c' /\ n = current c' (as_u64 (symbol ev)) /\ e' = (book_on_event e ev).1.
Proof.
  intros [He Hc Ht]. pose proof (book_on_event_spec e ev He) as Hb. cbv zeta in Hb.
  destruct (on_type _ _ _) as [[[b' t'] sat] ahead]. destruct (book_on_event e ev) as [e' a].
  cbn [fst snd] in *. destruct Hb as (He' & _ & _ & _ & Htop & Hbooks).
  pose proof (update_and_current_spec c (as_u64 (symbol ev)) (venue ev) (top_after a) seq Hc) as Hu. cbv zeta in Hu.
  destruct (update_and_current _ _ _ _ _) as [n c']. destruct Hu as (Hc' & Hs & Hne & Hn).
  split; [split; [done|done|]|split; [|done]].
  - intros v sym. rewrite Hbooks. destruct (decide (sym = as_u64 (symbol ev))) as [->|Hs'].
    + rewrite Hs. cbn [venues]. rewrite pv_get_set_dec. destruct (decide (venue ev = v)) as [<-|Hd].
      * rewrite decide_True, <-Htop by done. by split_and!.
      * rewrite decide_False by (intros [? ?]; congruence). apply Ht.
    + rewrite decide_False, Hne by (tauto || done). apply Ht.
  - by rewrite current_compute, Hn by done.
Qed.

Definition stats_balance (s : FeatureBridgeStats) : Prop := u64 (feature_updates s) = u64 (published s + dropped s).

Record bridge_ok (b : FeatureBridge) : Prop := {
  bo_tops : tops_agree (fb_books b) (fb_nbbo b);
  bo_features : features_ok (fb_features b);
  bo_stats : stats_balance (fb_stats b);
}.

Lemma bridge_init_ok slots cfg : bridge_ok (bridge_init slots cfg).
Proof. split; [apply tops_agree_init|split; [intros ? ? ?; done|done]|done]. Qed.

Lemma balance_updates s : stats_balance s ->
  forall ok, stats_balance (count_publish ok (mkBridgeStats (published s) (dropped s) (feature_updates s +64 1))).
Proof.
  unfold stats_balance. intros H ok. destruct s as [p d f]. cbn in *.
  assert (u64 (f +64 1) = u64 (p + d + 1)) as E.
  { unfold u64 at 1. rewrite wrap_wrap. fold (u64 (f + 1)). by rewrite <-u64_add_l, H, u64_add_l. }
  destruct ok; cbn; rewrite E; [|rewrite (Z.add_comm p (d +64 1))]; rewrite u64_add_l; f_equal; lia.
Qed.

(** The quote a feature vector carries. *)
Definition carries (fv : FeatureVector) (n : Nbbo) : Prop :=
  fv_nbbo_bid_price fv = n_bid_price n /\ fv_nbbo_bid_qty fv = n_bid_qty n /\
  fv_nbbo_ask_price fv = n_ask_price n /\ fv_nbbo_ask_qty fv = n_ask_qty n.

Lemma feature_on_event_carries p ev n q fv p' : feature_on_event p ev n q = Some (Some fv, p') ->
  carries fv n /\ fv_symbol_u64 fv = as_u64 (symbol ev) /\ fv_exchange_ts_ns fv = exchange_ts_ns ev /\
  n_has_bid n = true /\ n_has_ask n = true.
Proof.
  unfold feature_on_event. destruct (feature_state_for _ _) as [ptr p1].
  destruct (_ || _ || _ || _) eqn:E; [done|]. destruct (trade_step _ _ _ _) as [s|]; [|done].
  intros [= <- _]. zbool. split_and!; done.
Qed.

Section promises.
Context {P : Type} `{IFeaturePublisher P}.

(** One event: the call returns, the state stays well formed, and a published
    vector carries the best of the books. *)
Lemma bridge_on_event_ok b pub ev : bridge_ok b -> 0 < vpin_bucket_volume (feature_cfg (fb_features b)) ->
  exists b' pub' r, bridge_on_event b pub ev = Some (b', pub') /\ bridge_ok b' /\
    feature_cfg (fb_features b') = feature_cfg (fb_features b) /\
    fb_books b' = (book_on_event (fb_books b) ev).1 /\
    match r with
    | None => pub' = pub
    | Some fv => pub' = option_map (fun p => (fp_try_publish fv p).2) pub /\
        fv_symbol_u64 fv = as_u64 (symbol ev) /\ fv_exchange_ts_ns fv = exchange_ts_ns ev /\
        exists n, carries fv n /\ n_has_bid n = true /\ n_has_ask n = true /\
          best_of_books (fb_books b') (as_u64 (symbol ev)) n
    end.
Proof.
  intros [Ht Hf Hs] Hvol. unfold bridge_on_event.
  pose proof (tops_agree_update (fb_books b) (fb_nbbo b) ev 0 Ht) as Hu.
  destruct (book_on_event (fb_books b) ev) as [books apply]. destruct (update_and_current _ _ _ _ _) as [n c].
  destruct Hu as (Ht' & Hn & _).
  destruct (feature_on_event_ok (fb_features b) ev n (of_Z (queue_ahead_before_add apply)) Hf Hvol) as (r & f & E & Hf' & Hcfg).
  rewrite E. destruct r as [fv|]; [|by eexists _, _, None; split_and!].
  destruct (feature_on_event_carries _ _ _ _ _ _ E) as (H1 & H2 & H3 & H4 & H5).
  assert (best_of_books books (as_u64 (symbol ev)) n) as Hbest by (rewrite Hn; by apply agree_best).
  destruct pub as [pub|].
  - destruct (fp_try_publish fv pub) as [ok pub'] eqn:Ep. eexists _, _, (Some fv). split; [done|].
    split; [split; [done|done|by apply balance_updates]|]. split_and!; try done; [cbn; by rewrite Ep|by exists n].
  - eexists _, _, (Some fv). split; [done|].
    split; [split; [done|done|by apply (balance_updates (fb_stats b) Hs false)]|]. split_and!; try done. by exists n.
Qed.

(** Whatever the publisher does with them, every feature update is counted as
    published or dropped. *)
Lemma bridge_run_ok evs : forall b pub, bridge_ok b -> 0 < vpin_bucket_volume (feature_cfg (fb_features b)) ->
  exists b' pub', bridge_run b pub evs = Some (b', pub') /\ bridge_ok b'.
Proof.
  induction evs as [|ev evs IH]; intros b pub Hb Hvol; [by eexists _, _|]. cbn [bridge_run].
  destruct (bridge_on_event_ok b pub ev Hb Hvol) as (b' & pub' & r & -> & Hb' & Hcfg & _).
  apply IH; [done|]. by rewrite Hcfg.
Qed.
End promises.

(** The publisher that keeps everything. *)
#[local] Instance Collector : IFeaturePublisher (list FeatureVector) := {| fp_try_publish fv l := (true, l ++ [fv]) |}.

Lemma collector_run evs : forall b out pre, bridge_ok b -> 0 < vpin_bucket_volume (feature_cfg (fb_features b)) ->
  forall slots, fb_books b = book_run (engine_init slots) pre ->
  exists b' more, bridge_run b (Some out) evs = Some (b', Some (out ++ more)) /\ bridge_ok b' /\
  Forall (fun fv => exists mid ev post n, evs = mid ++ ev :: post /\ fv_symbol_u64 fv = as_u64 (symbol ev) /\
    fv_exchange_ts_ns fv = exchange_ts_ns ev /\ carries fv n /\ n_has_bid n = true /\ n_has_ask n = true /\
    best_of_books (book_run (engine_init slots) (pre ++ mid ++ [ev])) (as_u64 (symbol ev)) n) more.
Proof.
  induction evs as [|ev evs IH]; intros b out pre Hb Hvol slots Hbk.
  { exists b, []. cbn. by rewrite app_nil_r. }
  cbn [bridge_run]. destruct (bridge_on_event_ok b (Some out) ev Hb Hvol) as (b' & pub' & r & -> & Hb' & Hcfg & Hbooks & Hr).
  assert (fb_books b' = book_run (engine_init slots) (pre ++ [ev])) as Hbk'.
  { rewrite Hbooks, Hbk. unfold book_run. by rewrite fold_left_app. }
  assert (exists first, pub' = Some (out ++ first) /\ Forall (fun fv => fv_symbol_u64 fv = as_u64 (symbol ev) /\
    fv_exchange_ts_ns fv = exchange_ts_ns ev /\ exists n, carries fv n /\ n_has_bid n = true /\ n_has_ask n = true /\
    best_of_books (fb_books b') (as_u64 (symbol ev)) n) first) as (first & -> & Hfirst).
  { destruct r as [fv|]; [|exists []; by rewrite app_nil_r, Hr]. destruct Hr as (-> & H1 & H2 & H3).
    exists [fv]. split; [done|]. by constructor. }
  destruct (IH b' (out ++ first) (pre ++ [ev]) Hb' ltac:(by rewrite Hcfg) slots Hbk') as (b2 & more & -> & Hb2 & Hmore).
  exists b2, (first ++ more). rewrite app_assoc. split; [done|]. split; [done|]. apply Forall_app. split.
  - eapply Forall_impl; [exact Hfirst|]. intros fv (H1 & H2 & n & H3 & H4 & H5 & H6).
    exists [], ev, evs, n. rewrite Hbk' in H6. by split_and!.
  - eapply Forall_impl; [exact Hmore|]. intros fv (mid & ev' & post & n & -> & H1 & H2 & H3 & H4 & H5 & H6).
    exists (ev :: mid), ev', post, n. split_and!; try done. by rewrite <-app_assoc in H6.
Qed.

(** C24. With a positive bucket volume the bridge returns from every event of every
    stream, and each feature vector it publishes carries, two-sided, the best
    bid and ask over the venues' books as they stand after its event. *)
Theorem features_carry_best_quotes slots cfg evs : 0 < vpin_bucket_volume cfg ->
  exists b out, bridge_run (bridge_init slots cfg) (Some []) evs = Some (b, Some out) /\ stats_balance (fb_stats b) /\
  Forall (fun fv => exists mid ev post n, evs = mid ++ ev :: post /\ fv_symbol_u64 fv = as_u64 (symbol ev) /\
    fv_exchange_ts_ns fv = exchange_ts_ns ev /\ carries fv n /\ n_has_bid n = true /\ n_has_ask n = true /\
    best_of_books (book_run (engine_init slots) (mid ++ [ev])) (as_u64 (symbol ev)) n) out.
Proof.
  intros Hvol. destruct (collector_run evs (bridge_init slots cfg) [] [] (bridge_init_ok slots cfg) Hvol slots eq_refl)
    as (b & out & E & Hb & Hout). exists b, out. split; [done|]. split; [apply Hb|done].
Qed.

(** With a bucket volume of 0 the bucket loop of the first trade never ends. *)
Theorem zero_volume_diverges cfg : vpin_bucket_volume cfg = 0 -> forall fuel v, vpin_loop fuel cfg v = None.
Proof. apply vpin_loop_zero. Qed.

(** ** At concrete inputs *)

Definition feature_quote (v : Venue) (id p q : Z) (s : Side) : BookEvent :=
  mkEvent v Add id id id [65; 65; 65; 32; 32; 32; 32; 32] id 0 0 q p 0 0 s None 65.

Definition feature_events : list BookEvent :=
  [feature_quote Nasdaq 1 100 5 Buy; feature_quote Iex 2 103 7 Sell; feature_quote Nasdaq 3 101 5 Buy].

Lemma features_carry_best_quotes_witness :
  exists b out, bridge_run (bridge_init 16 feature_config_default) (Some []) feature_events = Some (b, Some out) /\
    stats_balance (fb_stats b) /\
    Forall (fun fv => exists mid ev post n, feature_events = mid ++ ev :: post /\ fv_symbol_u64 fv = as_u64 (symbol ev) /\
      fv_exchange_ts_ns fv = exchange_ts_ns ev /\ carries fv n /\ n_has_bid n = true /\ n_has_ask n = true /\
      best_of_books (book_run (engine_init 16) (mid ++ [ev])) (as_u64 (symbol ev)) n) out.
Proof. apply (features_carry_best_quotes 16 feature_config_default feature_events). done. Defined.

Example bridge_publishes_two :
  match bridge_run (bridge_init 16 feature_config_default) (Some []) feature_events with
  | Some (b, Some out) =>
      map (fun fv => (fv_nbbo_bid_price fv, fv_nbbo_ask_price fv)) out = [(100, 103); (101, 103)] /\
      published (fb_stats b) = 2
  | _ => False
  end.
Proof. vm_compute. split; reflexivity. Qed.

(** A trade of three bucket volumes fills three buckets, of toxicity 3, 2 and
    1, where a bucket's imbalance cannot exceed its volume. *)
Example vpin_exceeds_one :
  let cfg := feature_config_default in
  let v := vpin_add (f_vpin feature_state_default) Buy 30000 in
  match vpin_loop (vpin_fuel cfg v) cfg v with
  | Some v => (take 3 (vpin_buckets v), vpin_value cfg v) = ([of_Z 3; of_Z 2; of_Z 1], of_Z 2)
  | None => False
  end.
Proof. vm_compute. reflexivity. Qed.
