(* ===== verification/Strategy.v ===== *)
(** * The market-making strategy (src/phase4/strategy.cpp)

    One bid and one ask per symbol around a centre computed from the feature
    vector, cancelled and replaced when the centre moves. *)

From S2P Require Import Prelude Floats Types Matching Features.

#[local] Open Scope list_scope.
#[local] Open Scope Z_scope.

(** [IOrderRouter]: what its calls do to the router. *)
Class IOrderRouter (R : Type) := {
  router_submit : forall (symbol_u64 : Z) (side : OrderSide) (price qty ts_ns order_id : Z), R -> R;
  router_cancel : forall (order_id ts_ns : Z), R -> R;
}.

Record StrategyConfig := mkStrategyConfig {
  half_spread_ticks : Z; quote_size : Z; max_inventory : Z;
  inventory_skew_ticks_per_unit : double; ofi_skew_coef : double;
  requote_threshold_ticks : Z; cancel_replace_cooldown_ns : Z;
}.

Definition strategy_config_default : StrategyConfig := mkStrategyConfig 1 10 1000 dzero dzero 1 0.

Record SideOrder := mkSideOrder { so_order_id : Z; so_price : Z; so_active : bool }.
Definition side_order_none : SideOrder := mkSideOrder 0 0 false.

Record StrategySymbol := mkStrategySymbol {
  inventory : Z; st_bid : SideOrder; st_ask : SideOrder; last_center : Z; has_center : bool; last_requote_ts : Z;
}.
Definition strategy_symbol_default : StrategySymbol := mkStrategySymbol 0 side_order_none side_order_none 0 false 0.

Record MarketMakingStrategy := mkStrategy {
  strategy_cfg : StrategyConfig; st_by_symbol : gmap Z StrategySymbol; next_order_id_ : Z;
}.

Definition strategy_init (cfg : StrategyConfig) : MarketMakingStrategy := mkStrategy cfg ∅ 1.

(** [std::clamp] *)
Definition clamp (v lo hi : Z) : Z := if v <? lo then lo else if hi <? v then hi else v.

Section strategy.
Context {R : Type} `{IOrderRouter R}.

(** [cancel] of a quote, if it is active. *)
Definition cancel_quote (o : SideOrder) (ts_ns : Z) (r : R) : SideOrder * R :=
  if so_active o then (side_order_none, router_cancel (so_order_id o) ts_ns r) else (o, r).

(** [requote]; [None]: no router. The state of the symbol, the next order id
    and the router after the call. *)
Definition requote (cfg : StrategyConfig) (symbol_u64 : Z) (st : StrategySymbol) (bid_px ask_px ts_ns next_id : Z)
    (router : option R) : StrategySymbol * Z * option R :=
  match router with
  | None => (st, next_id, None)
  | Some r =>
      let '(_, r) := cancel_quote (st_bid st) ts_ns r in
      let '(_, r) := cancel_quote (st_ask st) ts_ns r in
      let bid := mkSideOrder next_id bid_px true in
      let ask := mkSideOrder (next_id +64 1) ask_px true in
      let r := router_submit symbol_u64 BuySide bid_px (quote_size cfg) ts_ns (so_order_id bid) r in
      let r := router_submit symbol_u64 SellSide ask_px (quote_size cfg) ts_ns (so_order_id ask) r in
      (mkStrategySymbol (inventory st) bid ask (last_center st) (has_center st) ts_ns, next_id +64 1 +64 1, Some r)
  end.

(** The centre of the quotes, in ticks. *)
Definition center_ticks (cfg : StrategyConfig) (inv : Z) (fv : FeatureVector) : Z :=
  llround (dsub (dsub (fv_microprice fv) (dmul (of_Z inv) (inventory_skew_ticks_per_unit cfg)))
                (dmul (fv_ofi fv) (ofi_skew_coef cfg))).

Definition strategy_on_feature (s : MarketMakingStrategy) (router : option R) (fv : FeatureVector)
    : MarketMakingStrategy * option R :=
  let cfg := strategy_cfg s in
  let sym := fv_symbol_u64 fv in
  let st := default strategy_symbol_default (st_by_symbol s !! sym) in
  let inv := clamp (inventory st) (- max_inventory cfg) (max_inventory cfg) in
  let center := center_ticks cfg inv fv in
  let bid_px := center - half_spread_ticks cfg in
  let ask_px := center + half_spread_ticks cfg in
  let refresh_by_first := negb (has_center st) in
  let refresh_by_move := has_center st && (Z.abs (center - last_center st) >=? requote_threshold_ticks cfg) in
  let cooldown_ok := (fv_exchange_ts_ns fv >=? last_requote_ts st) &&
    ((fv_exchange_ts_ns fv -64 last_requote_ts st) >=? cancel_replace_cooldown_ns cfg) in
  if (refresh_by_first || refresh_by_move) && cooldown_ok then
    let '(st, next_id, router) := requote cfg sym st bid_px ask_px (fv_exchange_ts_ns fv) (next_order_id_ s) router in
    let st := mkStrategySymbol (inventory st) (st_bid st) (st_ask st) center true (last_requote_ts st) in
    (mkStrategy cfg (<[sym := st]> (st_by_symbol s)) next_id, router)
  else (mkStrategy cfg (<[sym := st]> (st_by_symbol s)) (next_order_id_ s), router).
End strategy.

(** ** Fills *)

Definition quote_is (o : SideOrder) (id : Z) : bool := so_active o && (so_order_id o =? id).

Definition owns (id : Z) (st : StrategySymbol) : bool := quote_is (st_bid st) id || quote_is (st_ask st) id.

Definition fill_state (f : Fill) (st : StrategySymbol) : StrategySymbol :=
  let inv := match fill_side f with
             | BuySide => inventory st + to_i64 (fill_qty f)
             | SellSide => inventory st - to_i64 (fill_qty f)
             end in
  let bid := if negb (fill_partial f) && quote_is (st_bid st) (fill_order_id f) then side_order_none else st_bid st in
  let ask := if negb (fill_partial f) && quote_is (st_ask st) (fill_order_id f) then side_order_none else st_ask st in
  mkStrategySymbol inv bid ask (last_center st) false (last_requote_ts st).

(** The first symbol, in the map's order, that owns the filled order. *)
Definition strategy_on_fill `{UnorderedMap} (s : MarketMakingStrategy) (f : Fill) : MarketMakingStrategy :=
  match List.find (fun e => owns (fill_order_id f) e.2) (map_iter (st_by_symbol s)) with
  | None => s
  | Some (sym, st) => mkStrategy (strategy_cfg s) (<[sym := fill_state f st]> (st_by_symbol s)) (next_order_id_ s)
  end.

(** ** At concrete inputs *)

(** A router that keeps the calls: the orders submitted (symbol, side, price,
    quantity, id), and the ids cancelled. *)
#[local] Instance LogRouter : IOrderRouter (list (Z * OrderSide * Z * Z * Z) * list Z) := {|
  router_submit sym s px q _ id r := (r.1 ++ [(sym, s, px, q, id)], r.2);
  router_cancel id _ r := (r.1, r.2 ++ [id]);
|}.

Definition sample_feature (micro ts : Z) : FeatureVector :=
  mkFeature 1 ts ts 0 0 0 0 (of_Z micro) dzero dzero dzero dzero dzero.

Example requote_on_move :
  let s0 := strategy_init (mkStrategyConfig 1 10 100 dzero dzero 3 0) in
  let '(s1, r1) := strategy_on_feature s0 (Some ([], [])) (sample_feature 100 1) in
  let '(s2, r2) := strategy_on_feature s1 r1 (sample_feature 101 2) in
  let '(s3, r3) := strategy_on_feature s2 r2 (sample_feature 104 3) in
  r2 = Some ([(1, BuySide, 99, 10, 1); (1, SellSide, 101, 10, 2)], []) /\
  r3 = Some ([(1, BuySide, 99, 10, 1); (1, SellSide, 101, 10, 2); (1, BuySide, 103, 10, 3); (1, SellSide, 105, 10, 4)], [1; 2]).
Proof. vm_compute. split; reflexivity. Qed.
