(* ===== verification/Pnl.v ===== *)
(** * The profit-and-loss accountant (src/phase4/pnl_accountant.cpp)

    Positions in units, money in binary64. *)

From S2P Require Import Prelude Floats Types Matching Features.

#[local] Open Scope list_scope.
#[local] Open Scope Z_scope.

Record PnlConfig := mkPnlConfig {
  sharpe_bucket_ns : Z; maker_rebate_per_share : double; taker_fee_per_share : double;
}.

Definition pnl_config_default : PnlConfig := mkPnlConfig 1000000000 (dlit 20 10000) (dlit 30 10000).

Record PnlReport := mkPnlReport {
  total_realized_pnl : double; total_unrealized_pnl : double; total_equity : double; r_max_drawdown : double;
  sharpe : double; fill_ratio : double; turnover : double; r_cumulative_fees : double; r_cumulative_rebates : double;
  r_fills : Z; r_submitted_orders : Z;
}.

Record PnlSymbol := mkPnlSymbol {
  position : Z; cash : double; avg_cost : double; realized_pnl : double; unrealized_pnl : double;
  fill_count : Z; gross_volume : double; p_last_mid : double; p_has_mid : bool;
}.
Definition pnl_symbol_default : PnlSymbol := mkPnlSymbol 0 dzero dzero dzero dzero 0 dzero dzero false.

Record PnlAccountant := mkPnl {
  pnl_cfg : PnlConfig; pnl_by_symbol : gmap Z PnlSymbol; submitted_orders : Z; total_fills : Z;
  peak_equity : double; max_drawdown : double; current_bucket : Z; has_bucket : bool; last_bucket_equity : double;
  sum_returns : double; sum_sq_returns : double; n_returns : Z; cumulative_fees : double; cumulative_rebates : double;
}.

Definition pnl_init (cfg : PnlConfig) : PnlAccountant :=
  mkPnl cfg ∅ 0 0 dzero dzero 0 false dzero dzero dzero 0 dzero dzero.

Definition on_order_submitted (p : PnlAccountant) : PnlAccountant :=
  mkPnl (pnl_cfg p) (pnl_by_symbol p) (submitted_orders p +64 1) (total_fills p) (peak_equity p) (max_drawdown p)
    (current_bucket p) (has_bucket p) (last_bucket_equity p) (sum_returns p) (sum_sq_returns p) (n_returns p)
    (cumulative_fees p) (cumulative_rebates p).

(** The signed quantity of a fill. *)
Definition signed_qty (f : Fill) : Z :=
  match fill_side f with BuySide => to_i64 (fill_qty f) | SellSide => - to_i64 (fill_qty f) end.

(** The position, average cost and realized profit after a fill. *)
Definition apply_fill (st : PnlSymbol) (f : Fill) : Z * double * double :=
  let px := of_Z (fill_price f) in
  let qty := of_Z (fill_qty f) in
  let sq := signed_qty f in
  let pos := position st + sq in
  if (position st =? 0) || eqb (position st >? 0) (sq >? 0) then
    let old_notional := dmul (avg_cost st) (of_Z (Z.abs (position st))) in
    let new_notional := dadd old_notional (dmul px qty) in
    (pos, (if pos =? 0 then dzero else ddiv new_notional (of_Z (Z.abs pos))), realized_pnl st)
  else
    let close_qty := Z.min (Z.abs (position st)) (Z.abs sq) in
    let pnl := if position st >? 0 then dmul (dsub px (avg_cost st)) (of_Z close_qty)
               else dmul (dsub (avg_cost st) px) (of_Z close_qty) in
    (pos,
     (if pos =? 0 then dzero
      else if eqb (pos >? 0) (sq >? 0) && (Z.abs pos >? close_qty) then px else avg_cost st),
     dadd (realized_pnl st) pnl).

Definition pnl_on_fill (p : PnlAccountant) (symbol_u64 : Z) (f : Fill) (taker : bool) : PnlAccountant :=
  let st := default pnl_symbol_default (pnl_by_symbol p !! symbol_u64) in
  let px := of_Z (fill_price f) in
  let qty := of_Z (fill_qty f) in
  let '(pos, cost, realized) := apply_fill st f in
  let flow := match fill_side f with BuySide => dmul (dneg px) qty | SellSide => dmul px qty end in
  let st := mkPnlSymbol pos (dadd (cash st) flow) cost realized (unrealized_pnl st) (fill_count st +64 1)
              (dadd (gross_volume st) (dmul px qty)) (p_last_mid st) (p_has_mid st) in
  mkPnl (pnl_cfg p) (<[symbol_u64 := st]> (pnl_by_symbol p)) (submitted_orders p) (total_fills p +64 1) (peak_equity p)
    (max_drawdown p) (current_bucket p) (has_bucket p) (last_bucket_equity p) (sum_returns p) (sum_sq_returns p)
    (n_returns p)
    (if taker then dadd (cumulative_fees p) (dmul (taker_fee_per_share (pnl_cfg p)) qty) else cumulative_fees p)
    (if taker then cumulative_rebates p else dadd (cumulative_rebates p) (dmul (maker_rebate_per_share (pnl_cfg p)) qty)).

Definition pnl_on_feature (p : PnlAccountant) (fv : FeatureVector) : PnlAccountant :=
  if (fv_nbbo_bid_price fv =? 0) || (fv_nbbo_ask_price fv =? 0) then p else
  let st := default pnl_symbol_default (pnl_by_symbol p !! fv_symbol_u64 fv) in
  let mid := dmul d_half (dadd (of_Z (fv_nbbo_bid_price fv)) (of_Z (fv_nbbo_ask_price fv))) in
  let st := mkPnlSymbol (position st) (cash st) (avg_cost st) (realized_pnl st) (unrealized_pnl st) (fill_count st)
              (gross_volume st) mid true in
  mkPnl (pnl_cfg p) (<[fv_symbol_u64 fv := st]> (pnl_by_symbol p)) (submitted_orders p) (total_fills p) (peak_equity p)
    (max_drawdown p) (current_bucket p) (has_bucket p) (last_bucket_equity p) (sum_returns p) (sum_sq_returns p)
    (n_returns p) (cumulative_fees p) (cumulative_rebates p).

(** The unrealized profit of a symbol, at its last mid. *)
Definition mark (st : PnlSymbol) : PnlSymbol :=
  mkPnlSymbol (position st) (cash st) (avg_cost st) (realized_pnl st)
    (if p_has_mid st then dmul (dsub (p_last_mid st) (avg_cost st)) (of_Z (position st)) else dzero)
    (fill_count st) (gross_volume st) (p_last_mid st) (p_has_mid st).

(** [cash + realized_pnl + unrealized_pnl] *)
Definition symbol_equity (st : PnlSymbol) : double := dadd (dadd (cash st) (realized_pnl st)) (unrealized_pnl st).

Section reports.
Context `{UnorderedMap}.

Definition pnl_on_tick_end (p : PnlAccountant) (ts_ns : Z) : PnlAccountant :=
  let equity := fold_left (fun equity e => dadd equity (symbol_equity (mark e.2))) (map_iter (pnl_by_symbol p)) dzero in
  let peak := if dgt equity (peak_equity p) then equity else peak_equity p in
  let dd := dsub peak equity in
  let mdd := if dgt dd (max_drawdown p) then dd else max_drawdown p in
  let bucket := if sharpe_bucket_ns (pnl_cfg p) =? 0 then 0 else ts_ns / sharpe_bucket_ns (pnl_cfg p) in
  let upd cb hb lbe sr ssr nr :=
    mkPnl (pnl_cfg p) (mark <$> pnl_by_symbol p) (submitted_orders p) (total_fills p) peak mdd cb hb lbe sr ssr nr
      (cumulative_fees p) (cumulative_rebates p) in
  if negb (has_bucket p) then upd bucket true equity (sum_returns p) (sum_sq_returns p) (n_returns p)
  else if negb (bucket =? current_bucket p) then
    let ret := dsub equity (last_bucket_equity p) in
    upd bucket true equity (dadd (sum_returns p) ret) (dadd (sum_sq_returns p) (dmul ret ret)) (n_returns p +64 1)
  else upd (current_bucket p) true (last_bucket_equity p) (sum_returns p) (sum_sq_returns p) (n_returns p).

Definition sharpe_of (p : PnlAccountant) : double :=
  if n_returns p >? 1 then
    let n := of_Z (n_returns p) in
    let mean := ddiv (sum_returns p) n in
    let var := dsub (ddiv (sum_sq_returns p) n) (dmul mean mean) in
    if dgt var dzero then ddiv mean (SFsqrt kPrec kEmax var) else dzero
  else dzero.

Definition finalize (p : PnlAccountant) : PnlReport :=
  let sum f := fold_left (fun a e => dadd a (f e.2)) (map_iter (pnl_by_symbol p)) dzero in
  let fills := fold_left (fun n e => n +64 fill_count e.2) (map_iter (pnl_by_symbol p)) 0 in
  let equity := sum symbol_equity in
  mkPnlReport (sum realized_pnl) (sum unrealized_pnl)
    (dadd (dsub equity (cumulative_fees p)) (cumulative_rebates p)) (max_drawdown p) (sharpe_of p)
    (if submitted_orders p =? 0 then dzero else ddiv (of_Z (total_fills p)) (of_Z (submitted_orders p)))
    (sum gross_volume) (cumulative_fees p) (cumulative_rebates p) fills (submitted_orders p).
End reports.

(** ** Positions *)

Definition pnl_position (p : PnlAccountant) (sym : Z) : Z :=
  match pnl_by_symbol p !! sym with Some st => position st | None => 0 end.

Lemma apply_fill_position st f : (apply_fill st f).1.1 = position st + signed_qty f.
Proof. unfold apply_fill. by destruct (_ || _). Qed.

Lemma pnl_on_fill_position p sym f taker s :
  pnl_position (pnl_on_fill p sym f taker) s = pnl_position p s + (if decide (s = sym) then signed_qty f else 0).
Proof.
  unfold pnl_position, pnl_on_fill. set (st := default _ _).
  pose proof (apply_fill_position st f) as Ha. destruct (apply_fill st f) as [[pos cost] realized]. cbn in Ha. subst pos.
  cbn. destruct (decide (s = sym)) as [->|Hne].
  - rewrite lookup_insert_eq. cbn. unfold st. by destruct (pnl_by_symbol p !! sym).
  - rewrite lookup_insert_ne by done. lia.
Qed.

Lemma pnl_on_feature_position p fv s : pnl_position (pnl_on_feature p fv) s = pnl_position p s.
Proof.
  unfold pnl_position, pnl_on_feature. destruct (_ || _); [done|]. cbn.
  destruct (decide (fv_symbol_u64 fv = s)) as [->|Hne]; [|by rewrite lookup_insert_ne].
  rewrite lookup_insert_eq. cbn. by destruct (pnl_by_symbol p !! s).
Qed.

Lemma pnl_on_tick_end_position `{UnorderedMap} p ts s : pnl_position (pnl_on_tick_end p ts) s = pnl_position p s.
Proof.
  unfold pnl_position, pnl_on_tick_end.
  destruct (negb (has_bucket p)); [|destruct (negb _)]; cbn; rewrite lookup_fmap; by destruct (pnl_by_symbol p !! s).
Qed.

(** ** A closed round trip *)

(** Buying ten at 100 and selling them at 101 earns 10, as cash and again as
    realized profit: the equity the drawdown follows counts it twice. *)
Example round_trip_equity :
  let p := pnl_init pnl_config_default in
  let p := pnl_on_fill p 1 (mkFill 1 BuySide 100 10 1 false) false in
  let p := pnl_on_fill p 1 (mkFill 2 SellSide 101 10 2 false) false in
  let st := default pnl_symbol_default (pnl_by_symbol p !! 1) in
  position st = 0 /\ cash st = of_Z 10 /\ realized_pnl st = of_Z 10 /\ symbol_equity (mark st) = of_Z 20.
Proof. vm_compute. split_and!; reflexivity. Qed.
