(* ===== verification/Backtest.v ===== *)
(** * The backtest (src/phase4/backtest_runner.cpp)

    The book, feature, strategy, matching and accounting components wired
    together, and the agreement of what the strategy and the accountant think
    is held. *)

From S2P Require Import Prelude Floats Types OrderTable OrderBook Nbbo NbboJournal Matching Features Strategy Pnl.

#[local] Open Scope list_scope.
#[local] Open Scope Z_scope.

(** ** State *)

(** What [EngineRouter] points to. *)
Record EngineRouter := mkRouter { r_engine : SimMatchingEngine; r_pnl : PnlAccountant; r_orders : gmap Z Z }.

(** What [StrategyPublisher] points to: the strategy and, through it and
    directly, the rest. *)
Record BacktestCore := mkCore { core_strategy : MarketMakingStrategy; core_router : EngineRouter }.

Record BacktestRunner := mkRunner { run_bridge : FeatureBridge; run_core : BacktestCore }.

Record BacktestReport := mkReport {
  b_realized_pnl : double; b_unrealized_pnl : double; b_total_pnl : double; b_sharpe : double; b_fill_ratio : double;
  b_max_drawdown : double; b_turnover : double; b_fills : Z; b_submitted_orders : Z;
}.

Section backtest.
Context `{StdSort} `{UnorderedMap}.

#[export] Instance engine_router : IOrderRouter EngineRouter := {|
  router_submit sym side price qty ts_ns id r :=
    mkRouter (sim_submit side price qty id ts_ns (bind_order_symbol id sym (r_engine r)))
             (on_order_submitted (r_pnl r)) (<[id := sym]> (r_orders r));
  router_cancel id ts_ns r := mkRouter (sim_cancel id (r_engine r)) (r_pnl r) (delete id (r_orders r));
|}.

(** The strategy's router is never null. *)
Definition strategy_step (c : BacktestCore) (fv : FeatureVector) : BacktestCore :=
  match strategy_on_feature (core_strategy c) (Some (core_router c)) fv with
  | (s, Some r) => mkCore s r
  | (s, None) => mkCore s (core_router c)
  end.

#[export] Instance StrategyPublisher : IFeaturePublisher BacktestCore := {|
  fp_try_publish fv c :=
    let r := core_router c in
    let c := mkCore (core_strategy c) (mkRouter (r_engine r) (pnl_on_feature (r_pnl r) fv) (r_orders r)) in
    (true, strategy_step c fv);
|}.

(** The fill callback the constructor installs. *)
Definition fill_callback (c : BacktestCore) (f : Fill) : BacktestCore :=
  let r := core_router c in
  match r_orders r !! fill_order_id f with
  | None => c
  | Some sym =>
      mkCore (strategy_on_fill (core_strategy c) f)
        (mkRouter (r_engine r) (pnl_on_fill (r_pnl r) sym f false)
           (if fill_partial f then r_orders r else delete (fill_order_id f) (r_orders r)))
  end.

(** [engine_.on_market_event]; the callback does not touch the engine, so the
    fills can be handled after the call. *)
Definition market_step (c : BacktestCore) (ev : BookEvent) : BacktestCore :=
  let r := core_router c in
  let '(e, fills) := on_market_event (r_engine r) ev in
  fold_left fill_callback fills (mkCore (core_strategy c) (mkRouter e (r_pnl r) (r_orders r))).

Definition tick_step (c : BacktestCore) (ev : BookEvent) : BacktestCore :=
  let r := core_router c in
  mkCore (core_strategy c) (mkRouter (r_engine r) (pnl_on_tick_end (r_pnl r) (exchange_ts_ns ev)) (r_orders r)).

Definition runner_init (slots : nat) (scfg : StrategyConfig) (pcfg : PnlConfig) (cap : double) : BacktestRunner :=
  mkRunner (bridge_init slots feature_config_default)
    (mkCore (strategy_init scfg) (mkRouter (set_fill_callback (sim_init cap)) (pnl_init pcfg) ∅)).

(** The body of the loop of [run]; [None]: it does not return. *)
Definition runner_step (b : BacktestRunner) (ev : BookEvent) : option BacktestRunner :=
  match bridge_on_event (run_bridge b) (Some (run_core b)) ev with
  | Some (bridge, Some c) => Some (mkRunner bridge (tick_step (market_step c ev) ev))
  | Some (bridge, None) => Some (mkRunner bridge (tick_step (market_step (run_core b) ev) ev))
  | None => None
  end.

Fixpoint run_events (b : BacktestRunner) (evs : list BookEvent) : option BacktestRunner :=
  match evs with
  | [] => Some b
  | ev :: evs => match runner_step b ev with None => None | Some b => run_events b evs end
  end.

Definition report_of (p : PnlReport) : BacktestReport :=
  mkReport (total_realized_pnl p) (total_unrealized_pnl p) (dadd (total_realized_pnl p) (total_unrealized_pnl p))
    (sharpe p) (fill_ratio p) (r_max_drawdown p) (turnover p) (r_fills p) (r_submitted_orders p).

Definition run (b : BacktestRunner) (evs : list BookEvent) : option (BacktestReport * BacktestRunner) :=
  match run_events b evs with
  | None => None
  | Some b => Some (report_of (finalize (r_pnl (core_router (run_core b)))), b)
  end.
End backtest.

(** ** Resting orders and active quotes *)

Definition resting (e : SimMatchingEngine) (sym : Z) (sd : OrderSide) : list Order :=
  match sim_books e !! sym with
  | None => []
  | Some b => match sd with BuySide => sim_bids b | SellSide => sim_asks b end
  end.

Definition quote_of (st : StrategySymbol) (sd : OrderSide) : SideOrder :=
  match sd with BuySide => st_bid st | SellSide => st_ask st end.

(** [active s id sym sd]: order [id] is the strategy's live quote on [sd]. *)
Definition active (s : MarketMakingStrategy) (id sym : Z) (sd : OrderSide) : Prop :=
  exists st, st_by_symbol s !! sym = Some st /\ quote_is (quote_of st sd) id = true.

Lemma quote_is_true o id : quote_is o id = true <-> so_active o = true /\ so_order_id o = id.
Proof. unfold quote_is. by rewrite andb_true_iff, Z.eqb_eq. Qed.

(** What rests in the engine: per symbol and side nothing, or one order, which
    is among [act] and known to both maps. *)
Definition rest_ok (r : EngineRouter) (act : Z -> Z -> OrderSide -> Prop) : Prop :=
  forall sym sd, resting (r_engine r) sym sd = [] \/
  exists o, resting (r_engine r) sym sd = [o] /\ act (o_id o) sym sd /\ 0 < o_qty o < 2 ^ 64 /\
    order_to_symbol (r_engine r) !! o_id o = Some sym /\ r_orders r !! o_id o = Some sym.

Lemma rest_ok_mono r (act act' : Z -> Z -> OrderSide -> Prop) :
  (forall i sym sd, act i sym sd -> act' i sym sd) -> rest_ok r act -> rest_ok r act'.
Proof. intros Hm Hr sym sd. destruct (Hr sym sd) as [E|(o & E & Ha & Hq)]; [by left|right]. exists o. eauto. Qed.

Lemma remove_order_one id o : remove_order id [o] = if o_id o =? id then [] else [o].
Proof. unfold remove_order. cbn. by destruct (o_id o =? id). Qed.

Lemma resting_cancel id e sym sd : resting (sim_cancel id e) sym sd =
  if decide (order_to_symbol e !! id = Some sym) then remove_order id (resting e sym sd) else resting e sym sd.
Proof.
  unfold sim_cancel, resting. destruct (order_to_symbol e !! id) as [s|] eqn:E; [|done].
  destruct (sim_books e !! s) as [b|] eqn:Eb; cbn [sim_books].
  - destruct (decide (s = sym)) as [->|Hne].
    + rewrite lookup_insert_eq, Eb. destruct (decide _); [by destruct sd|done].
    + rewrite lookup_insert_ne by done. destruct (decide _); [congruence|done].
  - destruct (decide (Some s = Some sym)) as [[= ->]|]; [|done]. by rewrite Eb.
Qed.

Lemma order_to_symbol_cancel id e i : i <> id -> order_to_symbol (sim_cancel id e) !! i = order_to_symbol e !! i.
Proof.
  intros Hi. unfold sim_cancel. destruct (order_to_symbol e !! id) as [s|]; [|done].
  destruct (sim_books e !! s); [|done]. cbn. by rewrite lookup_delete_ne.
Qed.

Section routing.
Context `{StdSort}.

(** A cancelled id no longer rests. *)
Lemma rest_ok_cancel id ts r act : rest_ok r act ->
  rest_ok (router_cancel id ts r) (fun i sym sd => act i sym sd /\ i <> id).
Proof.
  intros Hr sym sd. cbn [router_cancel engine_router r_engine r_orders]. rewrite resting_cancel.
  destruct (Hr sym sd) as [->|(o & -> & Ha & Hq & H1 & H2)]; [left; by destruct (decide _)|].
  destruct (decide (o_id o = id)) as [<-|Hne].
  - left. rewrite decide_True by done. by rewrite remove_order_one, Z.eqb_refl.
  - right. exists o. rewrite remove_order_one. apply Z.eqb_neq in Hne as Hb. rewrite Hb.
    split; [by destruct (decide _)|]. rewrite order_to_symbol_cancel, lookup_delete_ne by done. done.
Qed.

Lemma std_sort_one {A} lt (x : A) : std_sort lt [x] = [x].
Proof. apply Permutation_singleton_r, std_sort_perm. Qed.

Lemma resting_submit sd price q id ts sym e sym' sd' : id <> 0 -> resting e sym sd = [] ->
  resting (sim_submit sd price q id ts (bind_order_symbol id sym e)) sym' sd' =
  if decide (sym' = sym /\ sd' = sd /\ q <> 0) then [mkOrder id sd price q ts] else resting e sym' sd'.
Proof.
  intros Hid Hr. unfold bind_order_symbol. apply Z.eqb_neq in Hid as Eid. rewrite Eid.
  unfold sim_submit. rewrite Eid. cbn [orb order_to_symbol]. destruct (Z.eqb_spec q 0) as [->|Hq].
  { rewrite decide_False by tauto. done. }
  rewrite lookup_insert_eq. cbn [sim_books]. unfold resting in *. cbn [sim_books].
  destruct (decide (sym' = sym)) as [->|Hne].
  - rewrite lookup_insert_eq. destruct (sim_books e !! sym) as [b|] eqn:Eb; cbn [default];
      destruct sd, sd'; cbn in Hr; cbn [from_option sim_bids sim_asks symbol_book_empty];
      unfold Datatypes.id; rewrite ?Hr; cbn [app]; rewrite ?std_sort_one;
      destruct (decide _) as [(_ & Hsd & _)|Hn]; try done; exfalso; apply Hn; split_and!; done.
  - rewrite lookup_insert_ne by done. by destruct (decide _) as [[]|].
Qed.

Lemma order_to_symbol_submit sd price q id ts sym e i : id <> 0 ->
  order_to_symbol (sim_submit sd price q id ts (bind_order_symbol id sym e)) !! i =
  if decide (i = id) then Some sym else order_to_symbol e !! i.
Proof.
  intros Hid. unfold bind_order_symbol. apply Z.eqb_neq in Hid as Eid. rewrite Eid. unfold sim_submit. rewrite Eid.
  assert (<[id := sym]> (order_to_symbol e) !! i = if decide (i = id) then Some sym else order_to_symbol e !! i) as E.
  { destruct (decide (i = id)) as [->|]; [by rewrite lookup_insert_eq|by rewrite lookup_insert_ne]. }
  cbn [orb order_to_symbol]. destruct (q =? 0); [done|]. by rewrite lookup_insert_eq.
Qed.

(** A new id on an empty side is the only one resting there. *)
Lemma rest_ok_submit sym sd price q ts id r act : rest_ok r act -> resting (r_engine r) sym sd = [] -> id <> 0 ->
  0 <= q < 2 ^ 64 -> (forall i s d, act i s d -> i <> id) ->
  rest_ok (router_submit sym sd price q ts id r) (fun i s d => act i s d \/ (i = id /\ s = sym /\ d = sd)).
Proof.
  intros Hr He Hid Hq Hfresh s d. cbn [router_submit engine_router r_engine r_orders].
  rewrite resting_submit by done. destruct (decide _) as [(-> & -> & Hq0)|Hne].
  - right. eexists. split; [done|]. cbn [o_id o_qty]. rewrite order_to_symbol_submit, decide_True by done.
    rewrite lookup_insert_eq. split_and!; [by right|lia|lia|done|done].
  - destruct (Hr s d) as [->|(o & -> & Ha & Ho & H1 & H2)]; [by left|right]. exists o.
    pose proof (Hfresh _ _ _ Ha) as Hf. rewrite order_to_symbol_submit, decide_False, lookup_insert_ne by done.
    split_and!; [done|by left|lia|lia|done|done].
Qed.
End routing.

(** ** The invariant *)

Definition strategy_inventory (s : MarketMakingStrategy) (sym : Z) : Z :=
  match st_by_symbol s !! sym with Some st => inventory st | None => 0 end.

Record strategy_ok (s : MarketMakingStrategy) : Prop := {
  sk_next : 1 <= next_order_id_ s;
  sk_ids id sym sd : active s id sym sd -> 1 <= id < next_order_id_ s;
  sk_unique id sym sd sym' sd' : active s id sym sd -> active s id sym' sd' -> sym = sym' /\ sd = sd';
}.

Record core_ok (c : BacktestCore) : Prop := {
  ck_strategy : strategy_ok (core_strategy c);
  ck_quote_size : is_u 64 (quote_size (strategy_cfg (core_strategy c)));
  ck_rest : rest_ok (core_router c) (active (core_strategy c));
  ck_callback : on_fill_set (r_engine (core_router c)) = true;
  ck_agree sym : strategy_inventory (core_strategy c) sym = pnl_position (r_pnl (core_router c)) sym;
}.

(** Giving a symbol a state changes only its quotes. *)
Lemma active_insert cfg m next sym st id s d :
  active (mkStrategy cfg (<[sym := st]> m) next) id s d <->
  (s = sym /\ quote_is (quote_of st d) id = true) \/
  (s <> sym /\ exists st', m !! s = Some st' /\ quote_is (quote_of st' d) id = true).
Proof.
  unfold active. cbn. split.
  - intros (st' & Hl & Hq). apply lookup_insert_Some in Hl as [[<- <-]|[Hne Hl]]; [by left|right; eauto].
  - intros [[-> Hq]|(Hne & st' & Hl & Hq)].
    + exists st. by rewrite lookup_insert_eq.
    + exists st'. by rewrite lookup_insert_ne.
Qed.

Section steps.
Context `{StdSort} `{UnorderedMap}.

(** Cancelling a quote of a symbol, live or not. *)
Lemma cancel_quote_rest o ts r act : rest_ok r act ->
  rest_ok (cancel_quote o ts r).2 (fun i s d => act i s d /\ quote_is o i = false) /\
  r_pnl (cancel_quote o ts r).2 = r_pnl r /\ on_fill_set (r_engine (cancel_quote o ts r).2) = on_fill_set (r_engine r).
Proof.
  intros Hr. unfold cancel_quote. destruct (so_active o) eqn:E; cbn [snd].
  - split; [|split; [done|]].
    + eapply rest_ok_mono; [|by apply (rest_ok_cancel (so_order_id o) ts)]. intros i s d [Ha Hi]. split; [done|].
      unfold quote_is. rewrite E. cbn. apply Z.eqb_neq. congruence.
    + exact (sim_op_callback (r_engine r) (OpCancel (so_order_id o))).
  - split; [|done]. eapply rest_ok_mono; [|done]. intros i s d Ha. split; [done|]. unfold quote_is. by rewrite E.
Qed.

Lemma submit_rest sym sd px q ts id r act : rest_ok r act -> (forall i, ~ act i sym sd) -> id <> 0 -> 0 <= q < 2 ^ 64 ->
  (forall i s d, act i s d -> i <> id) ->
  let r' := router_submit sym sd px q ts id r in
  rest_ok r' (fun i s d => act i s d \/ (i = id /\ s = sym /\ d = sd)) /\
  (forall s, pnl_position (r_pnl r') s = pnl_position (r_pnl r) s) /\
  on_fill_set (r_engine r') = on_fill_set (r_engine r).
Proof.
  intros Hr Hno Hid Hq Hfresh. split; [|split; [done|]].
  - apply rest_ok_submit; try done. destruct (Hr sym sd) as [?|(o & _ & Ha & _)]; [done|by destruct (Hno _ Ha)].
  - cbn. pose proof (sim_op_callback (bind_order_symbol id sym (r_engine r)) (OpSubmit sd px q id ts)) as E. cbn in E.
    rewrite E. exact (sim_op_callback (r_engine r) (OpBind id sym)).
Qed.

(** The live quotes of the symbol's state, present or default. *)
Lemma active_state s sym sd i : active s i sym sd ->
  quote_is (quote_of (default strategy_symbol_default (st_by_symbol s !! sym)) sd) i = true.
Proof. intros (st & -> & Hq). done. Qed.

Lemma requote_ok c fv bid_px ask_px : core_ok c -> next_order_id_ (core_strategy c) + 2 < 2 ^ 64 ->
  let s := core_strategy c in
  let sym := fv_symbol_u64 fv in
  let st := default strategy_symbol_default (st_by_symbol s !! sym) in
  let '(st', next, r) := requote (strategy_cfg s) sym st bid_px ask_px (fv_exchange_ts_ns fv) (next_order_id_ s)
                                 (Some (core_router c)) in
  next = next_order_id_ s + 2 /\ inventory st' = inventory st /\
  so_order_id (st_bid st') = next_order_id_ s /\ so_order_id (st_ask st') = next_order_id_ s + 1 /\
  exists r', r = Some r' /\ on_fill_set (r_engine r') = true /\
    (forall x, pnl_position (r_pnl r') x = pnl_position (r_pnl (core_router c)) x) /\
    rest_ok r' (fun i x d => (x <> sym /\ active s i x d) \/ (x = sym /\ quote_is (quote_of st' d) i = true)).
Proof.
  intros [[Hn Hids Huniq] Hq Hr Hcb Hag] Hb s sym st. unfold requote.
  destruct (cancel_quote_rest (st_bid st) (fv_exchange_ts_ns fv) _ _ Hr) as (Hr1 & Hp1 & Hc1).
  destruct (cancel_quote (st_bid st) _ _) as [o1 r1]. cbn [snd] in *.
  destruct (cancel_quote_rest (st_ask st) (fv_exchange_ts_ns fv) _ _ Hr1) as (Hr2 & Hp2 & Hc2).
  destruct (cancel_quote (st_ask st) _ _) as [o2 r2]. cbn [snd so_order_id] in *.
  fold s in Hn, Hids, Huniq, Hb, Hq, Hr1, Hr2.
  assert (forall i d, ~ ((active s i sym d /\ quote_is (st_bid st) i = false) /\ quote_is (st_ask st) i = false)) as Hno.
  { intros i d [[Ha Hb'] Hk']. apply active_state in Ha. fold st in Ha. destruct d; cbn in Ha; congruence. }
  rewrite (u64_small (next_order_id_ s + 1)), (u64_small (next_order_id_ s + 1 + 1)) by lia.
  destruct (submit_rest sym BuySide bid_px (quote_size (strategy_cfg s)) (fv_exchange_ts_ns fv) (next_order_id_ s) r2 _ Hr2)
    as (Hr3 & Hp3 & Hc3); [intros i; apply Hno|lia|exact Hq|intros i x d [[Ha _] _]; apply Hids in Ha; lia|].
  destruct (submit_rest sym SellSide ask_px (quote_size (strategy_cfg s)) (fv_exchange_ts_ns fv) (next_order_id_ s + 1) _ _ Hr3)
    as (Hr4 & Hp4 & Hc4); [intros i [Hi|(_ & _ & ?)]; [by eapply Hno|done]|lia|exact Hq
      |intros i x d [[[Ha _] _]|(-> & _)]; [apply Hids in Ha; lia|lia]|].
  cbn [inventory st_bid st_ask so_order_id]. split_and!; [lia|done|done|done|]. eexists. split; [done|].
  split; [by rewrite Hc4, Hc3, Hc2, Hc1|]. split; [intros x; by rewrite Hp4, Hp3, Hp2, Hp1|].
  eapply rest_ok_mono; [|exact Hr4]. intros i x d [[Ha|(-> & -> & ->)]|(-> & -> & ->)].
  - destruct (decide (x = sym)) as [->|]; [by apply Hno in Ha|]. left. split; [done|]. apply Ha.
  - right. split; [done|]. cbn. unfold quote_is. cbn. apply Z.eqb_refl.
  - right. split; [done|]. cbn. unfold quote_is. cbn. apply Z.eqb_refl.
Qed.

(** A feature vector leaves the invariant, and uses at most two ids. *)
Lemma strategy_step_ok c fv : core_ok c -> next_order_id_ (core_strategy c) + 2 < 2 ^ 64 ->
  core_ok (strategy_step c fv) /\
  next_order_id_ (core_strategy (strategy_step c fv)) <= next_order_id_ (core_strategy c) + 2.
Proof.
  intros Hc Hb. unfold strategy_step, strategy_on_feature. cbv zeta. set (s := core_strategy c) in *.
  set (sym := fv_symbol_u64 fv). set (st := default strategy_symbol_default (st_by_symbol s !! sym)).
  set (bid_px := _ - half_spread_ticks _). set (ask_px := _ + half_spread_ticks _). pose proof Hc as [[Hn Hids Huniq] Hq Hr Hcb Hag].
  assert (forall i d, quote_is (quote_of st d) i = true -> active s i sym d) as Hst.
  { intros i d Hqi. unfold st in Hqi. destruct (st_by_symbol s !! sym) as [x|] eqn:Ex; [by exists x|]. by destruct d. }
  destruct ((negb (has_center st) || _) && _).
  - pose proof (requote_ok c fv bid_px ask_px Hc Hb) as Hrq. cbv zeta in Hrq. fold s sym st in Hrq.
    destruct (requote _ _ _ _ _ _ _ _) as [[st' next] r]. destruct Hrq as (-> & Hinv & Hid1 & Hid2 & r' & -> & Hcb' & Hp & Hrest).
    fold s in Hn, Hids, Huniq. cbn [core_strategy next_order_id_]. split; [|lia].
    assert (forall i x d, active (mkStrategy (strategy_cfg s) (<[sym := mkStrategySymbol (inventory st') (st_bid st') (st_ask st')
      (center_ticks (strategy_cfg s) (clamp (inventory st) (- max_inventory (strategy_cfg s)) (max_inventory (strategy_cfg s))) fv)
      true (last_requote_ts st')]> (st_by_symbol s)) (next_order_id_ s + 2)) i x d <->
      (x <> sym /\ active s i x d) \/ (x = sym /\ quote_is (quote_of st' d) i = true)) as Hact.
    { intros i x d. rewrite active_insert. assert (quote_of (mkStrategySymbol (inventory st') (st_bid st') (st_ask st')
        (center_ticks (strategy_cfg s) (clamp (inventory st) (- max_inventory (strategy_cfg s)) (max_inventory (strategy_cfg s))) fv)
        true (last_requote_ts st')) d = quote_of st' d) as -> by (by destruct d). unfold active. tauto. }
    assert (forall i d, quote_is (quote_of st' d) i = true -> i = match d with BuySide => next_order_id_ s | SellSide => next_order_id_ s + 1 end) as Hq'.
    { intros i d [_ <-]%quote_is_true. by destruct d. }
    split; cbn [core_strategy core_router strategy_cfg].
    + split; cbn [next_order_id_]; [lia| |].
      * intros i x d [[_ Ha]|[_ Hd]]%Hact; [apply Hids in Ha; lia|]. apply Hq' in Hd. destruct d; lia.
      * intros i x d x' d' [[Hx Ha]|[-> Hd]]%Hact [[Hx' Ha']|[-> Hd']]%Hact.
        -- by eapply Huniq.
        -- apply Hids in Ha. apply Hq' in Hd'. destruct d'; lia.
        -- apply Hids in Ha'. apply Hq' in Hd. destruct d; lia.
        -- apply Hq' in Hd, Hd'. split; [done|]. destruct d, d'; lia || done.
    + exact Hq.
    + eapply rest_ok_mono; [|exact Hrest]. intros i x d Hx. by apply Hact.
    + done.
    + intros x. rewrite Hp, <-Hag. unfold strategy_inventory. cbn. fold s.
      destruct (decide (sym = x)) as [<-|Hne]; [|by rewrite lookup_insert_ne].
      rewrite lookup_insert_eq. cbn. rewrite Hinv. unfold st. by destruct (st_by_symbol s !! sym).
  - cbn [core_strategy next_order_id_]. split; [|lia].
    assert (forall i x d, active (mkStrategy (strategy_cfg s) (<[sym := st]> (st_by_symbol s)) (next_order_id_ s)) i x d <->
      active s i x d) as Hact.
    { intros i x d. rewrite active_insert. split.
      - intros [[-> Hd]|[_ Ha]]; [by apply Hst|exact Ha].
      - intros Ha. destruct (decide (x = sym)) as [->|Hne]; [left; split; [done|by apply active_state]|by right]. }
    fold s in Hn, Hids, Huniq. split; cbn [core_strategy core_router strategy_cfg].
    + split; cbn [next_order_id_]; [done| |]; setoid_rewrite Hact; eauto.
    + exact Hq.
    + eapply rest_ok_mono; [|exact Hr]. intros i x d. apply Hact.
    + done.
    + intros x. rewrite <-Hag. unfold strategy_inventory. cbn. fold s.
      destruct (decide (sym = x)) as [<-|Hne]; [|by rewrite lookup_insert_ne].
      rewrite lookup_insert_eq. unfold st. by destruct (st_by_symbol s !! sym).
Qed.
End steps.

(** ** Fills *)

(** A side of at most one order, after a print: untouched, or one fill of its
    order. *)
Lemma fill_loop_one beyond sd px ts budget os : 0 < budget < 2 ^ 64 ->
  os = [] \/ (exists o, os = [o] /\ 0 < o_qty o < 2 ^ 64) ->
  fill_loop true beyond sd px ts budget os = (os, [], []) \/
  exists o take, os = [o] /\ 0 < take <= o_qty o /\
    fill_loop true beyond sd px ts budget os =
      (if take =? o_qty o then [] else [with_qty o (o_qty o - take)],
       [mkFill (o_id o) sd px take ts (negb (take =? o_qty o))], if take =? o_qty o then [o_id o] else []).
Proof.
  intros Hb [->|(o & -> & Ho)]; [by left|]. cbn [fill_loop].
  destruct (Z.gtb_spec budget 0); [|lia]. cbn [negb orb]. destruct (beyond (o_price o)); [by left|right].
  exists o, (Z.min (o_qty o) budget). split; [done|]. split; [lia|].
  destruct (Z.gtb_spec (Z.min (o_qty o) budget) 0); [|lia]. rewrite (u64_small (o_qty o - _)) by lia. cbn [andb app].
  destruct (Z.eqb_spec (o_qty o - Z.min (o_qty o) budget) 0), (Z.eqb_spec (Z.min (o_qty o) budget) (o_qty o)); try lia.
  - do 4 f_equal. apply Z.ltb_ge. lia.
  - do 4 f_equal. apply Z.ltb_lt. lia.
Qed.

Lemma resting_insert cap b m f books sym s d :
  resting (mkSim cap (<[sym := b]> books) m f) s d =
  if decide (s = sym) then match d with BuySide => sim_bids b | SellSide => sim_asks b end
  else match books !! s with Some b' => match d with BuySide => sim_bids b' | SellSide => sim_asks b' end | None => [] end.
Proof.
  unfold resting. cbn. destruct (decide (s = sym)) as [->|]; [by rewrite lookup_insert_eq|by rewrite lookup_insert_ne].
Qed.

(** What a market event does to the engine: nothing that shows, or one fill. *)
Inductive market_effect (e : SimMatchingEngine) (ev : BookEvent) : SimMatchingEngine -> list Fill -> Prop :=
  | no_fill e' :
      (forall sym sd, resting e' sym sd = resting e sym sd) -> order_to_symbol e' = order_to_symbol e ->
      market_effect e ev e' []
  | one_fill e' sym sd o take :
      resting e sym sd = [o] -> 0 < take <= o_qty o ->
      (forall s d, (s, d) <> (sym, sd) -> resting e' s d = resting e s d) ->
      resting e' sym sd = (if take =? o_qty o then [] else [with_qty o (o_qty o - take)]) ->
      order_to_symbol e' = (if take =? o_qty o then delete (o_id o) (order_to_symbol e) else order_to_symbol e) ->
      market_effect e ev e' [mkFill (o_id o) sd (price ev) take (exchange_ts_ns ev) (negb (take =? o_qty o))].

Lemma market_event_effect e ev : on_fill_set e = true ->
  (forall sym sd, resting e sym sd = [] \/ exists o, resting e sym sd = [o] /\ 0 < o_qty o < 2 ^ 64) ->
  market_effect e ev (on_market_event e ev).1 (on_market_event e ev).2.
Proof.
  intros Hcb Hone. unfold on_market_event. destruct (negb _); [by apply no_fill|].
  destruct (sim_books e !! as_u64 (symbol ev)) as [b|] eqn:Eb; [|by apply no_fill].
  destruct (qty ev =? 0); [by apply no_fill|]. destruct (Z.eqb_spec (fill_budget (participation_cap e) (qty ev)) 0); [by apply no_fill|].
  pose proof (fill_budget_range (participation_cap e) (qty ev)) as Hr. set (sym := as_u64 (symbol ev)) in *.
  assert (forall s d, resting e s d = if decide (s = sym) then match d with BuySide => sim_bids b | SellSide => sim_asks b end
    else match sim_books e !! s with Some b' => match d with BuySide => sim_bids b' | SellSide => sim_asks b' end | None => [] end) as He.
  { intros s d. unfold resting. destruct (decide (s = sym)) as [->|]; [by rewrite Eb|done]. }
  destruct (side ev); [|  |by apply no_fill].
  - pose proof (Hone sym SellSide) as Ho. rewrite He, decide_True in Ho by done. unfold fill_asks. rewrite Hcb.
    destruct (fill_loop_one (fun p => p >? price ev) SellSide (price ev) (exchange_ts_ns ev) (fill_budget (participation_cap e) (qty ev))
      _ ltac:(lia) Ho) as [->|(o & take & Eo & Ht & ->)]; cbn [fst snd].
    + apply no_fill; [|done]. intros s d. rewrite resting_insert, He. destruct (decide (s = sym)); [by destruct d|done].
    + eapply (one_fill _ _ _ sym SellSide o take); [rewrite He, decide_True by done; exact Eo|done| | |].
      * intros s d Hne. rewrite resting_insert, He. destruct (decide (s = sym)) as [->|]; [by destruct d|done].
      * by rewrite resting_insert, decide_True.
      * by destruct (take =? o_qty o).
  - pose proof (Hone sym BuySide) as Ho. rewrite He, decide_True in Ho by done. unfold fill_bids. rewrite Hcb.
    destruct (fill_loop_one (fun p => p <? price ev) BuySide (price ev) (exchange_ts_ns ev) (fill_budget (participation_cap e) (qty ev))
      _ ltac:(lia) Ho) as [->|(o & take & Eo & Ht & ->)]; cbn [fst snd].
    + apply no_fill; [|done]. intros s d. rewrite resting_insert, He. destruct (decide (s = sym)); [by destruct d|done].
    + eapply (one_fill _ _ _ sym BuySide o take); [rewrite He, decide_True by done; exact Eo|done| | |].
      * intros s d Hne. rewrite resting_insert, He. destruct (decide (s = sym)) as [->|]; [by destruct d|done].
      * by rewrite resting_insert, decide_True.
      * by destruct (take =? o_qty o).
Qed.

Section fills.
Context `{StdSort} `{UnorderedMap}.

(** A fill of a live quote reaches the state of its symbol. *)
Lemma strategy_on_fill_active s f sym sd : strategy_ok s -> active s (fill_order_id f) sym sd ->
  exists st, st_by_symbol s !! sym = Some st /\ quote_is (quote_of st sd) (fill_order_id f) = true /\
  strategy_on_fill s f = mkStrategy (strategy_cfg s) (<[sym := fill_state f st]> (st_by_symbol s)) (next_order_id_ s).
Proof.
  intros Hs Ha. pose proof Ha as (st & Hl & Hq). exists st. split; [done|]. split; [done|]. unfold strategy_on_fill.
  assert (owns (fill_order_id f) st = true) as Ho.
  { unfold owns. destruct sd; cbn in Hq; rewrite Hq; [done|]. apply orb_true_r. }
  destruct (List.find _ _) as [[sym' st']|] eqn:E.
  - apply List.find_some in E as [Hin Ho']. cbn in Ho'. apply map_iter_In in Hin.
    assert (exists d, active s (fill_order_id f) sym' d) as [d Ha'].
    { unfold owns in Ho'. apply orb_true_iff in Ho' as [Hb|Hb]; [exists BuySide|exists SellSide]; by exists st'. }
    destruct (sk_unique s Hs _ _ _ _ _ Ha Ha') as [<- _]. rewrite Hl in Hin. by injection Hin as <-.
  - exfalso. pose proof (List.find_none _ _ E (sym, st)) as Hn. cbn in Hn. rewrite Hn in Ho; [done|]. by apply map_iter_In.
Qed.

(** The live quotes after a fill: all of them if it was partial, all but the
    filled one otherwise. *)
Lemma active_after_fill s f st sym sd : strategy_ok s -> st_by_symbol s !! sym = Some st ->
  quote_is (quote_of st sd) (fill_order_id f) = true ->
  forall i x d, active (mkStrategy (strategy_cfg s) (<[sym := fill_state f st]> (st_by_symbol s)) (next_order_id_ s)) i x d <->
  active s i x d /\ (fill_partial f = true \/ i <> fill_order_id f).
Proof.
  intros Hs Hl Hq i x d.
  assert (forall i d, quote_is (quote_of (fill_state f st) d) i = true <->
    quote_is (quote_of st d) i = true /\ (fill_partial f = true \/ i <> fill_order_id f)) as Hquote.
  { intros j e. assert (quote_of (fill_state f st) e =
      if negb (fill_partial f) && quote_is (quote_of st e) (fill_order_id f) then side_order_none else quote_of st e) as ->
      by (by destruct e).
    destruct (fill_partial f); cbn [negb andb]; [tauto|].
    destruct (quote_is (quote_of st e) (fill_order_id f)) eqn:E.
    - apply quote_is_true in E as [_ E]. split; [done|]. intros [[_ E']%quote_is_true [?|Hne]]; [done|congruence].
    - split; [|tauto]. intros Hj. split; [done|]. right. intros ->. congruence. }
  rewrite active_insert. split.
  - intros [[-> Hf]|(Hne & st' & Hl' & Hq')].
    + apply Hquote in Hf as [H1 H2]. split; [by exists st|done].
    + split; [by exists st'|]. right. intros ->. apply Hne.
      destruct (sk_unique s Hs (fill_order_id f) x d sym sd); [by exists st'|by exists st|done].
  - intros [Ha Hp]. destruct (decide (x = sym)) as [->|Hne].
    + left. split; [done|]. apply Hquote. split; [|done]. destruct Ha as (st' & Hl' & Hq'). congruence.
    + right. split; [done|]. exact Ha.
Qed.

Lemma market_step_ok c ev : core_ok c ->
  core_ok (market_step c ev) /\ next_order_id_ (core_strategy (market_step c ev)) = next_order_id_ (core_strategy c).
Proof.
  intros [Hs Hq Hr Hcb Hag]. unfold market_step. set (r := core_router c) in *. set (s := core_strategy c) in *.
  assert (forall sym sd, resting (r_engine r) sym sd = [] \/ exists o, resting (r_engine r) sym sd = [o] /\ 0 < o_qty o < 2 ^ 64) as Hone.
  { intros sym sd. destruct (Hr sym sd) as [?|(o & ? & _ & ? & _)]; [by left|right; eauto]. }
  pose proof (market_event_effect (r_engine r) ev Hcb Hone) as He.
  pose proof (sim_op_callback (r_engine r) (OpMarket ev)) as Hcb'. cbn [sim_op] in Hcb'.
  destruct (on_market_event (r_engine r) ev) as [e' fills]. cbn [fst snd] in He, Hcb'. rewrite Hcb in Hcb'.
  destruct He as [e' Hsame Hmap|e' sym sd o take Ho Ht Hothers Hleft Hmap].
  { cbn. split; [|done]. split; cbn; try done. intros sym sd. cbn. rewrite Hsame, Hmap. apply Hr. }
  destruct (Hr sym sd) as [E|(o' & E & Ha & Hqty & H1 & H2)]; rewrite Ho in E; [done|]. injection E as <-.
  cbn [fold_left]. unfold fill_callback. cbn [core_router core_strategy r_orders r_engine r_pnl fill_order_id]. rewrite H2.
  set (f := mkFill _ _ _ _ _ _).
  destruct (strategy_on_fill_active s f sym sd Hs Ha) as (st & Hl & Hqu & ->).
  pose proof (active_after_fill s f st sym sd Hs Hl Hqu) as Hact.
  split; [|done]. split; cbn [core_strategy core_router r_engine r_pnl r_orders strategy_cfg]; [|done| |done|].
  - destruct Hs as [Hn Hids Huniq]. split; cbn [next_order_id_]; [done| |].
    + intros i x d [Hi _]%Hact. by eapply Hids.
    + intros i x d x' d' [Hi _]%Hact [Hi' _]%Hact. by eapply Huniq.
  - intros s' d'. cbn. destruct (decide ((s', d') = (sym, sd))) as [[= -> ->]|Hne].
    + rewrite Hleft, Hmap. destruct (Z.eqb_spec take (o_qty o)) as [->|Hne]; [by left|right]. eexists. split; [done|].
      cbn. split_and!; [|lia|lia|done|done]. apply Hact. split; [done|by left].
    + rewrite Hothers by done. destruct (Hr s' d') as [->|(o2 & -> & Ha2 & Hq2 & G1 & G2)]; [by left|right].
      assert (o_id o2 <> o_id o) as Hid.
      { intros E. rewrite E in Ha2. apply Hne. by destruct (sk_unique s Hs _ _ _ _ _ Ha Ha2) as [-> ->]. }
      exists o2. rewrite Hmap. split_and!; [done|apply Hact; split; [done|by right]|lia|lia| |].
      * destruct (take =? o_qty o); [by rewrite lookup_delete_ne|done].
      * destruct (negb (take =? o_qty o)); [done|by rewrite lookup_delete_ne].
  - intros x. rewrite pnl_on_fill_position, <-Hag. unfold strategy_inventory. cbn [st_by_symbol].
    destruct (decide (x = sym)) as [->|Hne]; [|rewrite lookup_insert_ne by done; lia].
    rewrite lookup_insert_eq, Hl. unfold fill_state, signed_qty, f. cbn. destruct sd; lia.
Qed.
End fills.

(** ** The whole backtest *)

Section whole.
Context `{StdSort} `{UnorderedMap}.

Lemma core_pnl_change c p : core_ok c -> (forall x, pnl_position p x = pnl_position (r_pnl (core_router c)) x) ->
  core_ok (mkCore (core_strategy c) (mkRouter (r_engine (core_router c)) p (r_orders (core_router c)))).
Proof. intros [Hs Hq Hr Hcb Hag] Hp. split; cbn; try done. intros x. by rewrite Hp. Qed.

Lemma tick_step_ok c ev : core_ok c -> core_ok (tick_step c ev) /\ core_strategy (tick_step c ev) = core_strategy c.
Proof. intros Hc. split; [|done]. apply core_pnl_change; [done|]. intros x. apply pnl_on_tick_end_position. Qed.

Lemma publish_ok fv c : core_ok c -> next_order_id_ (core_strategy c) + 2 < 2 ^ 64 ->
  core_ok (fp_try_publish fv c).2 /\
  next_order_id_ (core_strategy (fp_try_publish fv c).2) <= next_order_id_ (core_strategy c) + 2.
Proof.
  intros Hc Hb. cbn [fp_try_publish StrategyPublisher snd].
  destruct (strategy_step_ok _ fv (core_pnl_change c (pnl_on_feature (r_pnl (core_router c)) fv) Hc
    (fun x => pnl_on_feature_position _ fv x)) Hb) as [H1 H2]. by split.
Qed.

Record runner_ok (b : BacktestRunner) : Prop := {
  rk_bridge : bridge_ok (run_bridge b);
  rk_volume : 0 < vpin_bucket_volume (feature_cfg (fb_features (run_bridge b)));
  rk_core : core_ok (run_core b);
}.

Lemma runner_step_ok b ev : runner_ok b -> next_order_id_ (core_strategy (run_core b)) + 2 < 2 ^ 64 ->
  exists b', runner_step b ev = Some b' /\ runner_ok b' /\
    next_order_id_ (core_strategy (run_core b')) <= next_order_id_ (core_strategy (run_core b)) + 2.
Proof.
  intros [Hb Hv Hc] Hn. unfold runner_step.
  destruct (bridge_on_event_ok (run_bridge b) (Some (run_core b)) ev Hb Hv) as (b' & pub' & r & -> & Hb' & Hcfg & _ & Hr).
  assert (exists c', pub' = Some c' /\ core_ok c' /\
    next_order_id_ (core_strategy c') <= next_order_id_ (core_strategy (run_core b)) + 2) as (c' & -> & Hc' & Hn').
  { destruct r as [fv|]; [|exists (run_core b); split_and!; [done|done|lia]]. destruct Hr as (-> & _).
    eexists. split; [done|]. by apply publish_ok. }
  destruct (market_step_ok c' ev Hc') as [Hm Hmn]. destruct (tick_step_ok _ ev Hm) as [Ht Hts].
  eexists. split; [done|]. split; [split; cbn; [done|by rewrite Hcfg|done]|]. cbn [run_core]. by rewrite Hts, Hmn.
Qed.

Lemma run_events_ok evs : forall b, runner_ok b ->
  next_order_id_ (core_strategy (run_core b)) + 2 * Z.of_nat (length evs) < 2 ^ 64 ->
  exists b', run_events b evs = Some b' /\ runner_ok b'.
Proof.
  induction evs as [|ev evs IH]; intros b Hb Hn; [by exists b|]. cbn [run_events length] in *.
  destruct (runner_step_ok b ev Hb) as (b' & -> & Hb' & Hn'); [lia|]. apply IH; [done|]. lia.
Qed.

Lemma runner_init_ok slots scfg pcfg cap : is_u 64 (quote_size scfg) -> runner_ok (runner_init slots scfg pcfg cap).
Proof.
  intros Hq. split; [apply bridge_init_ok|done|]. split; try done.
  - assert (forall i x d, ~ active (strategy_init scfg) i x d) as Hno by (intros i x d (st & Hl & _); done).
    split; [done| |]; intros *; intros Ha; by apply Hno in Ha.
  - intros sym sd. by left.
Qed.

(** C17. The backtest of any stream returns, and at its end the strategy's inventory
    of every symbol is the accountant's position; per symbol and side at most
    one order rests in the matching engine, and it is the strategy's live quote.
    (Each event uses at most two order ids; the bound keeps them distinct.) *)
Theorem positions_agree slots scfg pcfg cap evs :
  is_u 64 (quote_size scfg) -> 2 * Z.of_nat (length evs) < 2 ^ 64 - 1 ->
  exists rep b, run (runner_init slots scfg pcfg cap) evs = Some (rep, b) /\
  let c := run_core b in
  (forall sym, strategy_inventory (core_strategy c) sym = pnl_position (r_pnl (core_router c)) sym) /\
  (forall sym sd, resting (r_engine (core_router c)) sym sd = [] \/
     exists o, resting (r_engine (core_router c)) sym sd = [o] /\ active (core_strategy c) (o_id o) sym sd).
Proof.
  intros Hq Hn. destruct (run_events_ok evs (runner_init slots scfg pcfg cap)) as (b & E & Hb);
    [by apply runner_init_ok|cbn; lia|].
  unfold run. rewrite E. eexists _, b. split; [done|]. destruct Hb as [_ _ [Hs _ Hr _ Hag]]. cbv zeta. split; [exact Hag|].
  intros sym sd. destruct (Hr sym sd) as [?|(o & ? & ? & _)]; [by left|right]. by exists o.
Qed.
End whole.

(** ** At concrete inputs *)

Definition tape_event (t : EventType) (s : Side) (px q ts id : Z) : BookEvent :=
  mkEvent Nasdaq t ts ts ts [65; 65; 80; 76; 32; 32; 32; 32] id 0 0 q px 0 0 s None 0.

Definition sample_tape : list BookEvent :=
  [tape_event Add Buy 100 200 1 1; tape_event Add Sell 102 200 2 2;
   tape_event Trade Sell 100 100 3 0; tape_event Trade Buy 102 100 4 0].

Example sample_backtest :
  match run (runner_init 16 strategy_config_default pnl_config_default (dlit 1 4)) sample_tape with
  | Some (rep, b) =>
      (b_fills rep, b_submitted_orders rep, b_realized_pnl rep) = (2, 4, of_Z 20)
  | None => False
  end.
Proof. vm_compute. reflexivity. Qed.

Lemma positions_agree_witness :
  exists rep b, run (runner_init 16 strategy_config_default pnl_config_default (dlit 1 4)) sample_tape = Some (rep, b) /\
  let c := run_core b in
  (forall sym, strategy_inventory (core_strategy c) sym = pnl_position (r_pnl (core_router c)) sym) /\
  (forall sym sd, resting (r_engine (core_router c)) sym sd = [] \/
     exists o, resting (r_engine (core_router c)) sym sd = [o] /\ active (core_strategy c) (o_id o) sym sd).
Proof.
  apply (positions_agree 16 strategy_config_default pnl_config_default (dlit 1 4) sample_tape); [unfold is_u; simpl; lia|simpl; lia].
Defined.
