(* ===== verification/JitBridge.v ===== *)
(** * The JIT bridge (src/phase2/jit_bridge.cpp, include/mf/phase2/jit_bridge.hpp)

    A sink of the pipeline's merged stream that converts each event to a
    fixed-layout record and offers it to a publisher, counting what was taken
    and what was not; the publisher of interest is a ring. *)

From S2P Require Import Prelude Types Crc SequenceTracker Recovery Merger Pipeline Spsc.

#[local] Open Scope list_scope.
#[local] Open Scope Z_scope.

(** ** The code *)

Record JitSignalEvent := mkJit {
  j_venue : Z; j_type : Z; j_side : Z; j_raw_type : Z; j_sequence : Z; j_exchange_ts_ns : Z;
  j_ingest_ts_ns : Z; j_symbol_u64 : Z; j_order_id : Z; j_match_id : Z; j_qty : Z; j_price : Z;
}.

Class IJitPublisher (P : Type) := jit_try_publish : JitSignalEvent -> P -> bool * P.

Record JitBridgeStats := mkJitStats { published : Z; dropped : Z }.

(** [publisher_] is a pointer that may be null. *)
Record JitBridge (P : Type) := mkBridge { publisher_ : option P; jit_stats : JitBridgeStats }.
#[global] Arguments mkBridge {P}.
#[global] Arguments publisher_ {P}.
#[global] Arguments jit_stats {P}.

Definition jit_bridge_init {P} (publisher : option P) : JitBridge P := mkBridge publisher (mkJitStats 0 0).

Definition convert (ev : BookEvent) : JitSignalEvent :=
  mkJit (venue_u8 (venue ev)) (type_u8 (type ev)) (side_u8 (side ev)) (raw_type ev) (sequence ev)
        (exchange_ts_ns ev) (ingest_ts_ns ev) (as_u64 (symbol ev)) (order_id ev) (match_id ev) (qty ev) (price ev).

Definition jit_on_merged_event `{IJitPublisher P} (ev : BookEvent) (b : JitBridge P) : JitBridge P :=
  let st := jit_stats b in
  match publisher_ b with
  | None => mkBridge None (mkJitStats (published st) (dropped st + 1))
  | Some p =>
      let '(ok, p) := jit_try_publish (convert ev) p in
      if ok then mkBridge (Some p) (mkJitStats (published st + 1) (dropped st))
      else mkBridge (Some p) (mkJitStats (published st) (dropped st + 1))
  end.

#[export] Instance jit_sink `{IJitPublisher P} : MergedEventSink (JitBridge P) := jit_on_merged_event.

(** [RingJitPublisher] over a ring of [2^k] slots that may be null. *)
Definition RingJitPublisher (k : nat) : IJitPublisher (option (@SPSCRingBuffer JitSignalEvent)) :=
  fun ev ring => match ring with
                 | None => (false, None)
                 | Some r => let '(ok, r) := try_push k ev r in (ok, Some r)
                 end.

(** ** Every event is accounted for *)

Lemma jit_accounting `{IJitPublisher P} evs : forall b : JitBridge P,
  let b' := fold_left (fun b ev => jit_on_merged_event ev b) evs b in
  published (jit_stats b') + dropped (jit_stats b') =
  published (jit_stats b) + dropped (jit_stats b) + Z.of_nat (length evs).
Proof.
  induction evs as [|ev evs IH]; intros b; cbn [fold_left length]; [lia|]. cbn zeta in IH |- *. rewrite IH.
  unfold jit_on_merged_event. destruct (publisher_ b) as [p|]; [destruct (jit_try_publish _ p) as [[] ?]|]; simpl; lia.
Qed.

Section ring.
Context (k : nat).
#[local] Instance jit_ring : IJitPublisher (option (@SPSCRingBuffer JitSignalEvent)) := RingJitPublisher k.

(** Nothing is popped meanwhile: the ring takes events until it is full. *)
Lemma jit_ring_fills evs : forall r queue st, holds k r queue ->
  let room := (Z.to_nat (ring_size k - 1) - length queue)%nat in
  let b := fold_left (fun b ev => jit_on_merged_event ev b) evs (mkBridge (Some (Some r)) st) in
  (exists r', publisher_ b = Some (Some r') /\ holds k r' (queue ++ (convert <$> take room evs))) /\
  jit_stats b = mkJitStats (published st + Z.of_nat (length (take room evs))) (dropped st + Z.of_nat (length (drop room evs))).
Proof.
  induction evs as [|ev evs IH]; intros r queue st Hr room.
  - cbn [fold_left]. rewrite take_nil, drop_nil, app_nil_r. cbn [length]. split; [by exists r|]. destruct st. simpl. f_equal; lia.
  - cbn [fold_left]. unfold jit_on_merged_event at 2 4. cbn [publisher_ jit_stats]. unfold jit_try_publish, jit_ring, RingJitPublisher.
    pose proof (try_push_holds k r queue (convert ev) Hr) as Hp.
    destruct (try_push k (convert ev) r) as [[] r1]; destruct Hp as [Hroom Hp]; symmetry in Hroom; zbool.
    + specialize (IH r1 _ (mkJitStats (published st + 1) (dropped st)) Hp). cbn zeta in IH.
      rewrite length_app in IH. cbn [length published dropped] in IH.
      assert (room = S (Z.to_nat (ring_size k - 1) - (length queue + 1))) as -> by (unfold room; lia).
      cbn [take drop]. destruct IH as ((r' & H1 & H2) & H3). split.
      * exists r'. split; [exact H1|]. rewrite fmap_cons, cons_middle, app_assoc. exact H2.
      * etrans; [exact H3|]. cbn [length]. f_equal; lia.
    + specialize (IH r1 _ (mkJitStats (published st) (dropped st + 1)) Hp). cbn zeta in IH.
      assert (room = 0%nat) as E by (unfold room; lia). unfold room in *. rewrite E in *. cbn [take drop] in *.
      destruct IH as [H1 H2]. split; [exact H1|]. etrans; [exact H2|]. cbn [published dropped length]. f_equal; rewrite ?drop_0; lia.
Qed.

(** Finalizing a pipeline into an empty ring leaves in it, in order, the
    first [Size - 1] events of the merged stream, converted; the rest are
    counted as dropped. *)
Theorem jit_ring_gets_prefix p owned : Z.of_nat (length owned) = ring_size k ->
  let merged := merger_drain (merger p) in
  let n := Z.to_nat (ring_size k - 1) in
  exists b r, (pipeline_finalize p (Some (jit_bridge_init (Some (Some (ring_init k owned None (ring_size k))))))).2 = Some b /\
  publisher_ b = Some (Some r) /\ holds k r (convert <$> take n merged) /\
  jit_stats b = mkJitStats (Z.of_nat (length (take n merged))) (Z.of_nat (length (drop n merged))).
Proof.
  intros Ho merged n.
  destruct (pipeline_finalize_drain p (Some (jit_bridge_init (Some (Some (ring_init k owned None (ring_size k)))))))
    as [-> _]. cbn [fmap option_fmap option_map].
  destruct (jit_ring_fills merged (ring_init k owned None (ring_size k)) [] (mkJitStats 0 0)) as ((r & H1 & H2) & H3).
  { by apply ring_init_holds. }
  rewrite Nat.sub_0_r in *. eexists _, r. split; [done|]. split_and!; [exact H1|exact H2|exact H3].
Qed.
End ring.

#[local] Instance jit_ring4 : IJitPublisher (option (@SPSCRingBuffer JitSignalEvent)) := RingJitPublisher 2.

Lemma jit_ring_gets_prefix_witness :
  let p := pipeline_run (pipeline_init 256 0) [sample_event Nasdaq 1 1; sample_event Iex 2 1; sample_event Nasdaq 3 2; sample_event Iex 4 2] in
  exists b r, (pipeline_finalize p (Some (jit_bridge_init (Some (Some
    (ring_init 2 (replicate 4 (convert event_default)) None (ring_size 2))))))).2 = Some b /\
  publisher_ b = Some (Some r) /\
  holds 2 r (convert <$> [sample_event Nasdaq 1 1; sample_event Iex 2 1; sample_event Nasdaq 3 2]) /\
  jit_stats b = mkJitStats 3 1.
Proof.
  intros p. destruct (jit_ring_gets_prefix 2 p (replicate 4 (convert event_default)) eq_refl) as (b & r & H1 & H2 & H3 & H4).
  exists b, r. split_and!; [exact H1|exact H2| |].
  - replace (convert <$> _) with (convert <$> take (Z.to_nat (ring_size 2 - 1)) (merger_drain (merger p))) by (vm_compute; reflexivity). exact H3.
  - rewrite H4. vm_compute. reflexivity.
Defined.
