(* ===== verification/Bitfinex.v ===== *)
(** * The Bitfinex live feed (src/live/bitfinex: fixed_point, on_book, lowering, resync_state_machine)

    Rows of the exchange's order-by-order book (id, price, signed amount, a
    price of zero for removal) are lowered to [BookEvent]s against a tracker of
    the orders on the book, under a state machine that waits for a snapshot and
    drops out when a sequence number is missing.

    The tracker and the order book downstream follow the exchange's book; a
    second snapshot, though, clears the tracker but not the book downstream.
    The sidecar file that [on_snapshot] writes is left to [Sidecar]: its result
    is discarded. *)

From S2P Require Import Prelude Types OrderTable Levels OrderBook BookTotals Floats.

#[local] Open Scope list_scope.
#[local] Open Scope Z_scope.

(** ** Fixed point *)

Record FixedPointStats := mkFixed { price_reject : Z; qty_reject : Z }.

(** [!std::isfinite(v) || v < 0.0], then [std::round] and the bound; [None]
    counts a rejection. [std::round] is exact: above 2^53 every double is
    already an integer. *)
Definition to_u32_bounded (v : double) : option Z :=
  match v with
  | S754_zero _ => Some 0
  | S754_finite false m e =>
      let rounded := round_value (Z.pos m) e in
      if 2 ^ 32 - 1 <? rounded then None else Some rounded
  | _ => None
  end.

Definition price_to_u32_4dp (price : double) (st : FixedPointStats) : option Z * FixedPointStats :=
  match to_u32_bounded (dmul price (of_Z 10000)) with
  | Some x => (Some x, st)
  | None => (None, mkFixed (price_reject st +64 1) (qty_reject st))
  end.

Definition qty_to_u32_micro_base (abs_amount : double) (st : FixedPointStats) : option Z * FixedPointStats :=
  match to_u32_bounded (dmul abs_amount (of_Z 1000000)) with
  | Some x => (Some x, st)
  | None => (None, mkFixed (price_reject st) (qty_reject st +64 1))
  end.

(** [!price_to_u32_4dp(..) || !qty_to_u32_micro_base(..)]: the quantity is
    converted only when the price was. *)
Definition fixed_row (price amount : double) (st : FixedPointStats) : option (Z * Z) * FixedPointStats :=
  let '(p, st) := price_to_u32_4dp price st in
  match p with
  | None => (None, st)
  | Some p => let '(q, st) := qty_to_u32_micro_base (dabs amount) st in
              (match q with Some q => Some (p, q) | None => None end, st)
  end.

(** ** The tracker *)

Record BookRow := mkRow { row_order_id : Z; row_price : double; row_amount : double }.

Record RestingOrder := mkResting { ro_price : Z; ro_qty : Z }.

Abbreviation OnBookTracker := (gmap Z RestingOrder).

Definition contains (t : OnBookTracker) (id : Z) : bool := bool_decide (is_Some (t !! id)).
Definition get (t : OnBookTracker) (id : Z) : option RestingOrder := t !! id.
Definition track_insert (t : OnBookTracker) (id price qty : Z) : OnBookTracker := <[id := mkResting price qty]> t.
Definition track_erase (t : OnBookTracker) (id : Z) : OnBookTracker := delete id t.

(** ** Lowering *)

Record LoweringStats := mkLowering {
  fixed_point : FixedPointStats; adds : Z; replaces : Z; cancels : Z; skipped_not_on_book : Z; ls_rejected : Z;
}.
Definition lowering_init : LoweringStats := mkLowering (mkFixed 0 0) 0 0 0 0 0.

Section counters.
Implicit Types s : LoweringStats.
Definition with_fixed x s := mkLowering x (adds s) (replaces s) (cancels s) (skipped_not_on_book s) (ls_rejected s).
Definition inc_adds s := mkLowering (fixed_point s) (adds s +64 1) (replaces s) (cancels s) (skipped_not_on_book s) (ls_rejected s).
Definition inc_replaces s := mkLowering (fixed_point s) (adds s) (replaces s +64 1) (cancels s) (skipped_not_on_book s) (ls_rejected s).
Definition inc_cancels s := mkLowering (fixed_point s) (adds s) (replaces s) (cancels s +64 1) (skipped_not_on_book s) (ls_rejected s).
Definition inc_skipped s := mkLowering (fixed_point s) (adds s) (replaces s) (cancels s) (skipped_not_on_book s +64 1) (ls_rejected s).
Definition inc_rejected s := mkLowering (fixed_point s) (adds s) (replaces s) (cancels s) (skipped_not_on_book s) (ls_rejected s +64 1).
End counters.

Definition side_from_amount (amount : double) : Side :=
  if dgt amount dzero then Buy else if dgt dzero amount then Sell else SideUnknown.

Definition make_base (seq ts_ns : Z) (sym : SymbolKey) : BookEvent :=
  event_default |> set_venue Bitfinex |> set_sequence seq |> set_exchange_ts ts_ns |> set_ingest_ts ts_ns |> set_symbol sym.

Definition symbol_from_wire (wire : list Z) : SymbolKey := take 8 wire ++ replicate (8 - length wire) 0.

(** [price == 0.0] *)
Definition is_removal (row : BookRow) : bool := SFeqb (row_price row) dzero.

Definition cancel_event (row : BookRow) (seq ts_ns : Z) (sym : SymbolKey) : BookEvent :=
  make_base seq ts_ns sym |> set_type Cancel |> set_raw_type 88 |> set_order_id (row_order_id row)
    |> set_side (side_from_amount (row_amount row)) |> set_qty 0.

Definition add_event (row : BookRow) (price qty seq ts_ns : Z) (sym : SymbolKey) : BookEvent :=
  make_base seq ts_ns sym |> set_type Add |> set_raw_type 65 |> set_order_id (row_order_id row)
    |> set_side (side_from_amount (row_amount row)) |> set_price price |> set_qty qty.

Definition replace_event (row : BookRow) (price qty seq ts_ns : Z) (sym : SymbolKey) (prev : option RestingOrder) : BookEvent :=
  let ev := make_base seq ts_ns sym |> set_type Replace |> set_raw_type 82 |> set_order_id (row_order_id row)
    |> set_reference_order_id (row_order_id row) |> set_side (side_from_amount (row_amount row))
    |> set_price price |> set_qty qty in
  match prev with
  | Some o => ev |> set_prev_price (ro_price o) |> set_prev_qty (ro_qty o)
  | None => ev
  end.

Definition lower_row (row : BookRow) (seq ts_ns : Z) (wire : list Z) (t : OnBookTracker) (st : LoweringStats)
    : option BookEvent * OnBookTracker * LoweringStats :=
  let sym := symbol_from_wire wire in
  if is_removal row then
    if negb (contains t (row_order_id row)) then (None, t, inc_skipped st)
    else (Some (cancel_event row seq ts_ns sym), track_erase t (row_order_id row), inc_cancels st)
  else
    let '(fixed, fp) := fixed_row (row_price row) (row_amount row) (fixed_point st) in
    let st := with_fixed fp st in
    match fixed with
    | None => (None, t, inc_rejected st)
    | Some (price, qty) =>
        if negb (contains t (row_order_id row))
        then (Some (add_event row price qty seq ts_ns sym), track_insert t (row_order_id row) price qty, inc_adds st)
        else (Some (replace_event row price qty seq ts_ns sym (get t (row_order_id row))),
              track_insert t (row_order_id row) price qty, inc_replaces st)
    end.

Fixpoint lower_snapshot_rows (rows : list BookRow) (ts_ns : Z) (wire : list Z) (t : OnBookTracker) (st : LoweringStats)
    : list BookEvent * OnBookTracker * LoweringStats :=
  match rows with
  | [] => ([], t, st)
  | row :: rows =>
      if is_removal row then lower_snapshot_rows rows ts_ns wire t st else
      let '(fixed, fp) := fixed_row (row_price row) (row_amount row) (fixed_point st) in
      let st := with_fixed fp st in
      match fixed with
      | None => lower_snapshot_rows rows ts_ns wire t (inc_rejected st)
      | Some (price, qty) =>
          let ev := add_event row price qty 0 ts_ns (symbol_from_wire wire) in
          let '(evs, t, st) := lower_snapshot_rows rows ts_ns wire (track_insert t (row_order_id row) price qty) (inc_adds st) in
          (ev :: evs, t, st)
      end
  end.

(** ** The state machine *)

Record SnapshotFrame := mkSnapshotFrame { sf_channel_id : Z; sf_rows : list BookRow; sf_sequence : Z }.
Record UpdateFrame := mkUpdateFrame { uf_channel_id : Z; uf_row : BookRow; uf_sequence : Z }.

Inductive FeedState := Gapped | Live.
Inductive FeedAction := ActionNone | RequestResubscribe.

Record FeedStats := mkFeedStats { gaps : Z; resyncs : Z; reconnects : Z; snapshots : Z; updates_applied : Z }.

(** [emit_] is a callback that may be empty; what it is called with is a
    result of the operations. *)
Record ResyncStateMachine := mkMachine {
  symbol_wire : list Z; has_emit : bool; fstate : FeedState; fstats : FeedStats;
  on_book : OnBookTracker; lowering_stats : LoweringStats; last_seq : Z; have_seq : bool;
}.

Definition machine_init (wire : list Z) (emit : bool) : ResyncStateMachine :=
  mkMachine wire emit Gapped (mkFeedStats 0 0 0 0 0) ∅ lowering_init 0 false.

Definition emitted (m : ResyncStateMachine) (evs : list BookEvent) : list BookEvent := if has_emit m then evs else [].

Definition on_disconnect (m : ResyncStateMachine) : ResyncStateMachine :=
  let s := fstats m in
  mkMachine (symbol_wire m) (has_emit m) Gapped
    (mkFeedStats (gaps s) (resyncs s) (reconnects s +64 1) (snapshots s) (updates_applied s))
    (on_book m) (lowering_stats m) 0 false.

Definition on_snapshot (m : ResyncStateMachine) (f : SnapshotFrame) (ts_ns : Z)
    : FeedAction * list BookEvent * ResyncStateMachine :=
  let '(evs, t, ls) := lower_snapshot_rows (sf_rows f) ts_ns (symbol_wire m) ∅ (lowering_stats m) in
  let s := fstats m in
  (ActionNone, emitted m evs,
   mkMachine (symbol_wire m) (has_emit m) Live
     (mkFeedStats (gaps s) (resyncs s +64 1) (reconnects s) (snapshots s +64 1) (updates_applied s))
     t ls (if negb (sf_sequence f =? 0) then sf_sequence f else 0) (negb (sf_sequence f =? 0))).

Definition on_update (m : ResyncStateMachine) (f : UpdateFrame) (ts_ns : Z)
    : FeedAction * list BookEvent * ResyncStateMachine :=
  let s := fstats m in
  match fstate m with
  | Gapped => (RequestResubscribe, [], m)
  | Live =>
      if negb (uf_sequence f =? 0) && (negb (have_seq m) || negb (uf_sequence f =? last_seq m +64 1)) then
        (RequestResubscribe, [],
         mkMachine (symbol_wire m) (has_emit m) Gapped
           (mkFeedStats (gaps s +64 1) (resyncs s) (reconnects s) (snapshots s) (updates_applied s))
           (on_book m) (lowering_stats m) 0 false)
      else
        let seq := if negb (uf_sequence f =? 0) then uf_sequence f else last_seq m in
        let '(ev, t, ls) := lower_row (uf_row f) (uf_sequence f) ts_ns (symbol_wire m) (on_book m) (lowering_stats m) in
        let applied := match ev with Some _ => has_emit m | None => false end in
        (ActionNone, emitted m (match ev with Some ev => [ev] | None => [] end),
         mkMachine (symbol_wire m) (has_emit m) Live
           (mkFeedStats (gaps s) (resyncs s) (reconnects s) (snapshots s)
              (if applied then updates_applied s +64 1 else updates_applied s))
           t ls seq (have_seq m))
  end.

(** What the connection hands the machine. *)
Inductive FeedInput :=
  | Disconnect
  | Snapshot (f : SnapshotFrame) (ts_ns : Z)
  | Update (f : UpdateFrame) (ts_ns : Z).

Definition machine_step (m : ResyncStateMachine) (i : FeedInput) : FeedAction * list BookEvent * ResyncStateMachine :=
  match i with
  | Disconnect => (ActionNone, [], on_disconnect m)
  | Snapshot f ts => on_snapshot m f ts
  | Update f ts => on_update m f ts
  end.

Fixpoint machine_run (m : ResyncStateMachine) (inputs : list FeedInput) : list BookEvent * ResyncStateMachine :=
  match inputs with
  | [] => ([], m)
  | i :: inputs =>
      let '(_, evs, m) := machine_step m i in
      let '(evs', m) := machine_run m inputs in
      (evs ++ evs', m)
  end.

(** ** Sequence discipline *)

(** A machine that is live and counts expects the number after the last. *)
Definition expects (m : ResyncStateMachine) : option Z :=
  match fstate m with Live => if have_seq m then Some (last_seq m +64 1) else None | Gapped => None end.

(** The updates a machine applies, in order. *)
Fixpoint applied_updates (m : ResyncStateMachine) (inputs : list FeedInput) : list UpdateFrame :=
  match inputs with
  | [] => []
  | i :: inputs =>
      let '(a, _, m') := machine_step m i in
      match i, a with
      | Update f _, ActionNone => f :: applied_updates m' inputs
      | _, _ => applied_updates m' inputs
      end
  end.

(** The longest initial part of [ups] numbered [n], [n + 1], ... *)
Fixpoint in_order (n : Z) (ups : list UpdateFrame) : list UpdateFrame :=
  match ups with
  | [] => []
  | f :: ups => if uf_sequence f =? n then f :: in_order (n + 1) ups else []
  end.

Lemma gapped_applies_nothing ups ts : forall m, fstate m = Gapped ->
  applied_updates m ((fun f => Update f ts) <$> ups) = [] /\
  fst (machine_run m ((fun f => Update f ts) <$> ups)) = [] /\ fstate (snd (machine_run m ((fun f => Update f ts) <$> ups))) = Gapped.
Proof.
  induction ups as [|f ups IH]; intros m Hm; [done|]. rewrite fmap_cons. cbn [applied_updates machine_run machine_step].
  unfold on_update. rewrite Hm. destruct (IH m Hm) as (-> & H1 & H2). destruct (machine_run m _) as [evs m']. simpl in *. by subst.
Qed.

Lemma live_applies_in_order ups ts : forall m n, fstate m = Live -> have_seq m = true -> last_seq m = n ->
  0 <= n -> n + Z.of_nat (length ups) < 2 ^ 64 -> Forall (fun f => uf_sequence f <> 0) ups ->
  let applied := in_order (n + 1) ups in
  applied_updates m ((fun f => Update f ts) <$> ups) = applied /\
  (fstate (snd (machine_run m ((fun f => Update f ts) <$> ups))) = Live <-> length applied = length ups).
Proof.
  induction ups as [|f ups IH]; intros m n Hs Hh Hl H0 Hn Hf; [done|]. apply Forall_cons in Hf as [Hf0 Hf].
  cbn zeta. rewrite !fmap_cons. cbn [applied_updates machine_run machine_step in_order length] in *.
  unfold on_update. rewrite Hs, Hh, Hl. cbn [negb orb]. destruct (Z.eqb_spec (uf_sequence f) 0) as [|_]; [done|]. cbn [negb andb].
  rewrite u64_small by lia. destruct (Z.eqb_spec (uf_sequence f) (n + 1)) as [E|Hne]; cbn [negb].
  - destruct (lower_row _ _ _ _ _ _) as [[ev t] ls].
    set (m1 := mkMachine _ _ _ _ _ _ _ _). destruct (IH m1 (n + 1)) as [H1 H2]; [done..|lia|lia|done|].
    rewrite H1. destruct (machine_run m1 _) as [evs m']. simpl in *. split; [done|].
    rewrite H2. split; [by intros ->|by intros [= ->]].
  - set (m1 := mkMachine _ _ _ _ _ _ _ _). destruct (gapped_applies_nothing ups ts m1 eq_refl) as (-> & _ & H2).
    destruct (machine_run m1 _) as [evs m']. simpl in *. rewrite H2. done.
Qed.

(** After a snapshot numbered [n] the machine applies exactly the updates
    that continue it without a gap, [n + 1], [n + 2], ...; it is live at the
    end if and only if there was no gap. *)
Theorem updates_applied_without_gap m f ts ups : 0 < sf_sequence f ->
  sf_sequence f + Z.of_nat (length ups) < 2 ^ 64 -> Forall (fun u => uf_sequence u <> 0) ups ->
  let m1 := snd (on_snapshot m f ts) in
  let inputs := (fun u => Update u ts) <$> ups in
  let applied := in_order (sf_sequence f + 1) ups in
  applied_updates m1 inputs = applied /\
  (fstate (snd (machine_run m1 inputs)) = Live <-> length applied = length ups).
Proof.
  intros Hpos Hn Hu m1 inputs applied. unfold m1, on_snapshot. destruct (lower_snapshot_rows _ _ _ _ _) as [[evs t] ls].
  apply live_applies_in_order; try done; simpl; destruct (Z.eqb_spec (sf_sequence f) 0); simpl; lia || done.
Qed.

(** ** The books follow the exchange *)

(** The exchange's own book: its orders by id; a row removes its order, or puts
    it with the row's side, price and quantity when they can be represented. *)
Definition exchange_row (sym : SymbolKey) (bk : gmap Z OrderRef) (row : BookRow) : gmap Z OrderRef :=
  if is_removal row then delete (row_order_id row) bk else
  match fst (fixed_row (row_price row) (row_amount row) (mkFixed 0 0)) with
  | Some (price, qty) =>
      <[row_order_id row := mkOrder Bitfinex (as_u64 sym) (side_from_amount (row_amount row)) price qty 0]> bk
  | None => bk
  end.

(** A row that removes, is rejected, or stands for a real order. *)
Definition row_regular (row : BookRow) : Prop :=
  is_removal row = true \/
  match fst (fixed_row (row_price row) (row_amount row) (mkFixed 0 0)) with
  | Some (price, qty) => row_order_id row <> 0 /\ side_from_amount (row_amount row) <> SideUnknown /\ qty <> 0
  | None => True
  end.

Lemma fixed_row_fst price amount st : fst (fixed_row price amount st) = fst (fixed_row price amount (mkFixed 0 0)).
Proof.
  unfold fixed_row, price_to_u32_4dp, qty_to_u32_micro_base. destruct (to_u32_bounded (dmul price _)); [|done].
  by destruct (to_u32_bounded (dmul (dabs amount) _)).
Qed.

Lemma round_value_nonneg m e : 0 <= round_value (Z.pos m) e.
Proof.
  unfold round_value. destruct (0 <=? e); [apply Z.shiftl_nonneg; lia|]. apply Z.shiftr_nonneg.
  pose proof (proj2 (Z.shiftl_nonneg 1 (- e - 1))). lia.
Qed.

Lemma to_u32_range v x : to_u32_bounded v = Some x -> 0 <= x < 2 ^ 32.
Proof.
  unfold to_u32_bounded. destruct v as [s|s| |s m e]; try done.
  - intros [= <-]. lia.
  - destruct s; [done|]. destruct (Z.ltb_spec (2 ^ 32 - 1) (round_value (Z.pos m) e)); [done|]. intros [= <-].
    pose proof (round_value_nonneg m e). lia.
Qed.

Lemma fixed_row_range price amount st p q : fst (fixed_row price amount st) = Some (p, q) -> 0 <= p < 2 ^ 32 /\ 0 <= q < 2 ^ 32.
Proof.
  unfold fixed_row, price_to_u32_4dp, qty_to_u32_micro_base.
  destruct (to_u32_bounded (dmul price _)) as [p'|] eqn:Ep; [|done].
  destruct (to_u32_bounded (dmul (dabs amount) _)) as [q'|] eqn:Eq; [|done].
  simpl. intros [= <- <-]. split; by eapply to_u32_range.
Qed.

Definition bitfinex_key : Z -> Z := order_key Bitfinex.

#[local] Instance bitfinex_key_inj : Inj (=) (=) bitfinex_key.
Proof.
  intros x y E. unfold bitfinex_key, order_key in E.
  rewrite <-(Z.lxor_0_l x), <-(Z.lxor_0_l y), <-!(Z.lxor_nilpotent (u64 (Z.shiftl (venue_u8 Bitfinex) 56))), !Z.lxor_assoc.
  by rewrite E.
Qed.

Definition no_ahead (o : OrderRef) : OrderRef := mkOrder (o_venue o) (o_symbol o) (o_side o) (o_price o) (o_qty o) 0.

(** The live orders downstream are the exchange's, under their table keys. *)
Definition follows (m bk : gmap Z OrderRef) : Prop := no_ahead <$> m = kmap bitfinex_key bk.

Definition tracked (bk : gmap Z OrderRef) : OnBookTracker := (fun o => mkResting (o_price o) (o_qty o)) <$> bk.

Lemma total_list m pl : total m pl = foldr (fun e acc => contrib e.2 pl + acc) 0 (map_to_list m).
Proof.
  unfold total. rewrite map_fold_foldr. induction (map_to_list m) as [|[k o] l IH]; [done|]. simpl. by rewrite IH.
Qed.

Lemma follows_total m bk pl : follows m bk -> total m pl = total bk pl.
Proof.
  intros Hf. transitivity (total (no_ahead <$> m) pl).
  - unfold total. by rewrite map_fold_fmap.
  - rewrite Hf, !total_list.
    assert (forall l l' : list (Z * OrderRef), Permutation l l' ->
      foldr (fun e acc => contrib e.2 pl + acc) 0 l = foldr (fun e acc => contrib e.2 pl + acc) 0 l') as Hp.
    { induction 1; simpl; lia. }
    rewrite (Hp _ _ (map_to_list_kmap bitfinex_key bk)). generalize (map_to_list bk). intros l.
    induction l as [|[k o] l IH]; [done|]. rewrite fmap_cons. cbn [foldr]. by rewrite IH.
Qed.

Lemma follows_lookup m bk id : follows m bk -> no_ahead <$> m !! bitfinex_key id = bk !! id.
Proof. intros Hf. rewrite <-lookup_fmap, Hf. apply lookup_kmap, _. Qed.

Lemma follows_insert m bk id o : follows m bk -> follows (<[bitfinex_key id := o]> m) (<[id := no_ahead o]> bk).
Proof. unfold follows. intros Hf. rewrite fmap_insert, Hf. symmetry. apply kmap_insert, _. Qed.

Lemma follows_delete m bk id : follows m bk -> follows (delete (bitfinex_key id) m) (delete id bk).
Proof. unfold follows. intros Hf. rewrite fmap_delete, Hf. symmetry. apply kmap_delete, _. Qed.

Lemma follows_live m bk id (P : OrderRef -> Prop) : follows m bk -> (forall o, P (no_ahead o) -> P o) ->
  map_Forall (fun _ o => P o) bk -> if_live m (bitfinex_key id) P.
Proof.
  intros Hf HP Hall. unfold if_live. pose proof (follows_lookup m bk id Hf) as Hl.
  destruct (m !! bitfinex_key id) as [o|]; [|done]. symmetry in Hl. apply Hall in Hl. auto.
Qed.

Definition of_book (sym : SymbolKey) (o : OrderRef) : Prop := o_venue o = Bitfinex /\ o_symbol o = as_u64 sym.

Lemma exchange_row_of_book sym bk row : map_Forall (fun _ o => of_book sym o) bk ->
  map_Forall (fun _ o => of_book sym o) (exchange_row sym bk row).
Proof.
  intros Hall. unfold exchange_row. destruct (is_removal row); [by apply map_Forall_delete|].
  destruct (fst _) as [[p q]|]; [|done]. by apply map_Forall_insert_2.
Qed.

(** A row that became an [Add]. *)
Lemma add_follows sym m bk row price qty seq ts ahead : follows m bk -> bk !! row_order_id row = None ->
  is_removal row = false -> row_regular row ->
  fst (fixed_row (row_price row) (row_amount row) (mkFixed 0 0)) = Some (price, qty) ->
  let ev := add_event row price qty seq ts sym in
  disciplined m ev /\ follows (spec_orders m ev ahead) (exchange_row sym bk row).
Proof.
  intros Hf Hnone Hrem Hreg Hfix ev. destruct Hreg as [Hreg|Hreg]; [congruence|]. rewrite Hfix in Hreg.
  destruct Hreg as (Hid & Hside & Hq0). destruct (fixed_row_range _ _ _ _ _ Hfix) as [_ Hq].
  pose proof (follows_lookup m bk (row_order_id row) Hf) as Hl. rewrite Hnone in Hl.
  split.
  - unfold disciplined, new_order_ok. simpl. split_and!; [done| |lia|lia|done].
    unfold event_key. simpl. fold (bitfinex_key (row_order_id row)). by destruct (m !! _).
  - unfold exchange_row. rewrite Hrem, Hfix. unfold spec_orders. simpl.
    exact (follows_insert m bk (row_order_id row) (order_of ev ahead) Hf).
Qed.

(** A row that became a [Replace]. *)
Lemma replace_follows sym m bk row price qty seq ts prev ahead : follows m bk ->
  map_Forall (fun _ o => of_book sym o) bk -> is_removal row = false -> row_regular row ->
  fst (fixed_row (row_price row) (row_amount row) (mkFixed 0 0)) = Some (price, qty) ->
  let ev := replace_event row price qty seq ts sym prev in
  disciplined m ev /\ follows (spec_orders m ev ahead) (exchange_row sym bk row).
Proof.
  intros Hf Hbook Hrem Hreg Hfix ev. destruct Hreg as [Hreg|Hreg]; [congruence|]. rewrite Hfix in Hreg.
  destruct Hreg as (Hid & Hside & Hq0). destruct (fixed_row_range _ _ _ _ _ Hfix) as [_ Hq].
  assert (event_key ev = bitfinex_key (row_order_id row) /\ event_old_key ev = bitfinex_key (row_order_id row)) as [Hk Hok]
    by (unfold ev, replace_event; by destruct prev).
  assert (new_order_ok (delete (event_old_key ev) m) ev) as Hnew.
  { unfold new_order_ok. rewrite Hk, Hok, lookup_delete_eq. unfold ev, replace_event. destruct prev; simpl; split_and!; done || lia. }
  assert (if_live m (event_old_key ev) (fun o => same_book o ev)) as Hlive.
  { rewrite Hok. apply (follows_live m bk _ _ Hf); [done|]. eapply map_Forall_impl; [exact Hbook|].
    intros k o [H1 H2]. unfold same_book, ev, replace_event. by destruct prev. }
  assert (type ev = Replace) as Hty by (unfold ev, replace_event; by destruct prev).
  split; [unfold disciplined; by rewrite Hty|]. unfold exchange_row, spec_orders. rewrite Hrem, Hfix, Hty, Hk, Hok, insert_delete_eq.
  unfold ev, replace_event. destruct prev; exact (follows_insert m bk (row_order_id row) (order_of _ 0) Hf).
Qed.

Lemma lower_row_follows sym m bk row seq ts wire st ahead : symbol_from_wire wire = sym ->
  follows m bk -> map_Forall (fun _ o => of_book sym o) bk -> row_regular row ->
  let '(ev, t, _) := lower_row row seq ts wire (tracked bk) st in
  t = tracked (exchange_row sym bk row) /\
  match ev with
  | Some ev => disciplined m ev /\ follows (spec_orders m ev ahead) (exchange_row sym bk row)
  | None => exchange_row sym bk row = bk
  end.
Proof.
  intros Hsym Hf Hbook Hreg. unfold lower_row. rewrite Hsym. set (id := row_order_id row).
  assert (contains (tracked bk) id = bool_decide (is_Some (bk !! id))) as Hc.
  { unfold contains, tracked. rewrite lookup_fmap. apply bool_decide_ext, fmap_is_Some. }
  rewrite Hc. destruct (is_removal row) eqn:Hrem.
  - unfold exchange_row. rewrite Hrem. fold id. case_bool_decide as Hin; simpl.
    + unfold track_erase, tracked. rewrite fmap_delete. split; [done|]. split.
      * split; [done|]. apply (follows_live m bk id _ Hf); [done|].
        eapply map_Forall_impl; [exact Hbook|]. intros k o [H1 H2]. by split.
      * unfold spec_orders. simpl. change (event_key _) with (bitfinex_key id).
        destruct (m !! bitfinex_key id) as [o|] eqn:Eo.
        -- unfold reduce_by. simpl. rewrite Z.leb_refl. by apply follows_delete.
        -- pose proof (follows_lookup m bk id Hf) as Hl. rewrite Eo in Hl. by rewrite <-Hl in Hin; destruct Hin.
    + rewrite delete_id; [done|]. by apply eq_None_not_Some.
  - pose proof (fixed_row_fst (row_price row) (row_amount row) (fixed_point st)) as Hfst.
    destruct (fixed_row _ _ (fixed_point st)) as [fixed fp]. simpl in Hfst.
    destruct fixed as [[price qty]|]; symmetry in Hfst.
    2:{ unfold exchange_row. by rewrite Hrem, Hfst. }
    assert (track_insert (tracked bk) id price qty = tracked (exchange_row sym bk row)) as Ht.
    { unfold exchange_row, track_insert, tracked. rewrite Hrem, Hfst, fmap_insert. done. }
    case_bool_decide as Hin; simpl; (split; [exact Ht|]).
    + by eapply replace_follows.
    + apply eq_None_not_Some in Hin. by apply add_follows.
Qed.

(** The order table never rejects an order for want of room. *)
Fixpoint unsaturated (e : OrderBookEngine) (evs : list BookEvent) : bool :=
  match evs with
  | [] => true
  | ev :: evs => let '(e', r) := book_on_event e ev in negb (order_table_saturated r) && unsaturated e' evs
  end.

(** The engine downstream and the tracker both hold the exchange's book. *)
Definition mirrors (sym : SymbolKey) (e : OrderBookEngine) (t : OnBookTracker) (bk : gmap Z OrderRef) : Prop :=
  t = tracked bk /\ map_Forall (fun _ o => of_book sym o) bk /\ exists m, consistent e m /\ follows m bk.

Definition exchange_rows (sym : SymbolKey) (rows : list BookRow) (bk : gmap Z OrderRef) : gmap Z OrderRef :=
  fold_left (exchange_row sym) rows bk.

Lemma book_run_app e evs evs' : book_run e (evs ++ evs') = book_run (book_run e evs) evs'.
Proof. apply fold_left_app. Qed.

Lemma unsaturated_app evs evs' : forall e, unsaturated e (evs ++ evs') = true ->
  unsaturated e evs = true /\ unsaturated (book_run e evs) evs' = true.
Proof.
  induction evs as [|ev evs IH]; intros e; [done|]. cbn [app unsaturated book_run fold_left].
  destruct (book_on_event e ev) as [e' r] eqn:E. intros [Hs H]%andb_prop. apply IH in H as [H1 H2].
  by rewrite Hs, H1.
Qed.

Lemma mirrors_event sym e m bk' ev : consistent e m -> unsaturated e [ev] = true ->
  (forall ahead, disciplined m ev /\ follows (spec_orders m ev ahead) bk') -> map_Forall (fun _ o => of_book sym o) bk' ->
  mirrors sym (book_run e [ev]) (tracked bk') bk'.
Proof.
  intros Hc Hu Hd Hb. unfold mirrors. split_and!; [done|done|]. unfold book_run. cbn [fold_left unsaturated] in *.
  pose proof (book_on_event_consistent e m ev Hc) as H. destruct (book_on_event e ev) as [e' r].
  apply andb_prop in Hu as [Hs _]. apply negb_true_iff in Hs. destruct (Hd (queue_ahead_before_add r)) as [Hd1 Hf].
  eexists. split; [by apply H|done].
Qed.

Lemma lower_row_mirrors sym e t bk row seq ts wire st : symbol_from_wire wire = sym -> mirrors sym e t bk -> row_regular row ->
  let '(ev, t', _) := lower_row row seq ts wire t st in
  let evs := match ev with Some ev => [ev] | None => [] end in
  unsaturated e evs = true -> mirrors sym (book_run e evs) t' (exchange_row sym bk row).
Proof.
  intros Hsym (-> & Hbook & m & Hc & Hf) Hreg.
  pose proof (fun ahead => lower_row_follows sym m bk row seq ts wire st ahead Hsym Hf Hbook Hreg) as H.
  destruct (lower_row row seq ts wire (tracked bk) st) as [[ev t'] st']. cbn zeta. intros Hu. destruct (H 0) as [-> H0].
  destruct ev as [ev|].
  - eapply mirrors_event; [done|done|apply (fun ahead => proj2 (H ahead))|by apply exchange_row_of_book].
  - rewrite H0. unfold mirrors. eauto.
Qed.

Lemma snapshot_mirrors sym ts wire rows : symbol_from_wire wire = sym -> forall e t bk st,
  mirrors sym e t bk -> Forall row_regular rows -> NoDup (row_order_id <$> rows) ->
  (forall row, row ∈ rows -> bk !! row_order_id row = None) ->
  let '(evs, t', _) := lower_snapshot_rows rows ts wire t st in
  unsaturated e evs = true -> mirrors sym (book_run e evs) t' (exchange_rows sym rows bk).
Proof.
  intros Hsym. induction rows as [|row rows IH]; intros e t bk st Hm Hreg Hnd Hfresh; [by intros _|].
  apply Forall_cons in Hreg as [Hr Hreg]. rewrite fmap_cons in Hnd. apply NoDup_cons in Hnd as [Hin Hnd].
  assert (forall row', row' ∈ rows -> row_order_id row' <> row_order_id row) as Hne.
  { intros row' Hr' E. apply Hin. rewrite <-E. by apply list_elem_of_fmap_2. }
  assert (bk !! row_order_id row = None) as Hnone by (apply Hfresh; left).
  cbn [lower_snapshot_rows]. change (exchange_rows sym (row :: rows) bk) with (exchange_rows sym rows (exchange_row sym bk row)).
  destruct (is_removal row) eqn:Hrem.
  { replace (exchange_row sym bk row) with bk; [|unfold exchange_row; by rewrite Hrem, (delete_id _ _ Hnone)].
    apply IH; [done..|]. intros row' ?. apply Hfresh. by right. }
  pose proof (fixed_row_fst (row_price row) (row_amount row) (fixed_point st)) as Hfst.
  destruct (fixed_row _ _ (fixed_point st)) as [fixed fp]. simpl in Hfst.
  destruct fixed as [[price qty]|]; symmetry in Hfst.
  2:{ replace (exchange_row sym bk row) with bk; [|unfold exchange_row; by rewrite Hrem, Hfst].
      apply IH; [done..|]. intros row' ?. apply Hfresh. by right. }
  rewrite Hsym. set (ev := add_event row price qty 0 ts sym). destruct Hm as (-> & Hbook & m & Hc & Hf).
  assert (track_insert (tracked bk) (row_order_id row) price qty = tracked (exchange_row sym bk row)) as ->.
  { unfold exchange_row, track_insert, tracked. by rewrite Hrem, Hfst, fmap_insert. }
  specialize (IH (book_run e [ev]) (tracked (exchange_row sym bk row)) (exchange_row sym bk row) (inc_adds (with_fixed fp st))).
  destruct (lower_snapshot_rows rows _ _ _ _) as [[evs t'] st']. intros Hu.
  apply (unsaturated_app [ev] evs) in Hu as [Hu1 Hu2]. apply IH; [|done|done| |done].
  - eapply mirrors_event; [done|done| |by apply exchange_row_of_book]. intros ahead. by apply add_follows.
  - intros row' Hr'. unfold exchange_row. rewrite Hrem, Hfst, lookup_insert_ne by (intros E; by apply (Hne row')).
    apply Hfresh. by right.
Qed.

Lemma update_mirrors m f ts e bk sym : symbol_from_wire (symbol_wire m) = sym -> has_emit m = true ->
  row_regular (uf_row f) -> mirrors sym e (on_book m) bk ->
  let '(a, evs, m') := on_update m f ts in
  symbol_wire m' = symbol_wire m /\ has_emit m' = true /\
  (unsaturated e evs = true ->
   mirrors sym (book_run e evs) (on_book m') (match a with ActionNone => exchange_row sym bk (uf_row f) | _ => bk end)).
Proof.
  intros Hsym Hem Hreg Hm. unfold on_update. destruct (fstate m); [done|].
  destruct (_ && _); [done|].
  pose proof (lower_row_mirrors sym e (on_book m) bk (uf_row f) (uf_sequence f) ts (symbol_wire m) (lowering_stats m) Hsym Hm Hreg) as H.
  destruct (lower_row _ _ _ _ _ _) as [[ev t] ls]. cbn zeta in *. simpl. split_and!; [done|done|].
  unfold emitted. by rewrite Hem.
Qed.

Lemma updates_mirror sym ts ups : forall m e bk, symbol_from_wire (symbol_wire m) = sym -> has_emit m = true ->
  Forall (fun u => row_regular (uf_row u)) ups -> mirrors sym e (on_book m) bk ->
  let inputs := (fun u => Update u ts) <$> ups in
  let '(evs, m') := machine_run m inputs in
  unsaturated e evs = true ->
  mirrors sym (book_run e evs) (on_book m') (exchange_rows sym (uf_row <$> applied_updates m inputs) bk).
Proof.
  induction ups as [|f ups IH]; intros m e bk Hsym Hem Hreg Hm; [by intros inputs _|].
  apply Forall_cons in Hreg as [Hr Hreg]. cbn zeta. rewrite fmap_cons. cbn [machine_run machine_step applied_updates].
  pose proof (update_mirrors m f ts e bk sym Hsym Hem Hr Hm) as Hs.
  destruct (on_update m f ts) as [[a evs1] m1]. destruct Hs as (Hw & Hem1 & Hs).
  assert (forall bk1, (unsaturated e evs1 = true -> mirrors sym (book_run e evs1) (on_book m1) bk1) ->
    let '(evs2, m') := machine_run m1 ((fun u => Update u ts) <$> ups) in
    unsaturated e (evs1 ++ evs2) = true ->
    mirrors sym (book_run e (evs1 ++ evs2)) (on_book m')
      (exchange_rows sym (uf_row <$> applied_updates m1 ((fun u => Update u ts) <$> ups)) bk1)) as Hall.
  { intros bk1 Hm1. destruct (machine_run m1 _) as [evs2 m'] eqn:Er. intros [Hu1 Hu2]%unsaturated_app.
    rewrite <-Hw in Hsym. specialize (IH m1 (book_run e evs1) bk1 Hsym Hem1 Hreg (Hm1 Hu1)). cbn zeta in IH.
    rewrite Er in IH. rewrite book_run_app. by apply IH. }
  destruct (machine_run m1 _) as [evs2 m']. destruct a; by apply Hall.
Qed.

(** C39. The live book is the exchange's book as of the last applied update. From
    a snapshot with distinct order ids and any updates after it, all of regular
    rows, the tracker holds the orders that the snapshot and the applied updates
    leave, and the book engine downstream shows, at each price, the sum of them,
    as long as its order table rejects none. After a gap nothing is applied
    until the next snapshot. *)
Theorem bitfinex_book_mirrors_exchange k wire f ts ups : 0 <= k <= 31 ->
  NoDup (row_order_id <$> sf_rows f) -> Forall row_regular (sf_rows f) -> Forall (fun u => row_regular (uf_row u)) ups ->
  let sym := symbol_from_wire wire in
  let '(_, evs0, m0) := on_snapshot (machine_init wire true) f ts in
  let inputs := (fun u => Update u ts) <$> ups in
  let '(evs, m) := machine_run m0 inputs in
  let e0 := engine_init (Z.to_nat (2 ^ k)) in
  let bk := exchange_rows sym (uf_row <$> applied_updates m0 inputs) (exchange_rows sym (sf_rows f) ∅) in
  unsaturated e0 (evs0 ++ evs) = true ->
  on_book m = tracked bk /\
  forall s p, s <> SideUnknown ->
    book_qty (book_at (book_run e0 (evs0 ++ evs)) Bitfinex (as_u64 sym)) s p = level_of (total bk (mkPlace Bitfinex (as_u64 sym) s p)).
Proof.
  intros Hk Hnd Hreg Hups sym. unfold on_snapshot, emitted. set (e0 := engine_init (Z.to_nat (2 ^ k))). simpl.
  assert (mirrors sym e0 ∅ ∅) as Hm0.
  { split_and!; [unfold tracked; by rewrite fmap_empty|apply map_Forall_empty|].
    exists ∅. split; [by apply engine_init_consistent|]. unfold follows. by rewrite fmap_empty, kmap_empty. }
  pose proof (snapshot_mirrors sym ts wire (sf_rows f) eq_refl e0 ∅ ∅ lowering_init Hm0 Hreg Hnd (fun _ _ => lookup_empty _)) as Hs.
  destruct (lower_snapshot_rows _ _ _ _ _) as [[evs0 t0] ls0]. set (m0 := mkMachine _ _ _ _ _ _ _ _).
  pose proof (updates_mirror sym ts ups m0 (book_run e0 evs0) (exchange_rows sym (sf_rows f) ∅) eq_refl eq_refl Hups) as Hu.
  destruct (machine_run m0 _) as [evs m] eqn:Er. intros [Hu0 Hu1]%unsaturated_app. specialize (Hu (Hs Hu0)). cbn zeta in Hu.
  rewrite Er in Hu. destruct (Hu Hu1) as (Ht & _ & mm & Hc & Hf).
  split; [exact Ht|]. intros s p Hsd. rewrite <-(follows_total mm _ _ Hf).
  rewrite book_run_app. by apply (co_shows _ _ Hc).
Qed.

#[export] Instance row_regular_dec row : Decision (row_regular row).
Proof. unfold row_regular. destruct (fst (fixed_row _ _ _)) as [[? ?]|]; apply _. Defined.

(** ** Witnesses, and a resynchronisation *)

(** "tBTCUSD" *)
Definition btc : list Z := [116; 66; 84; 67; 85; 83; 68].

Definition sample_row (id price amount : Z) : BookRow := mkRow id (of_Z price) (of_Z amount).

Definition sample_snapshot : SnapshotFrame :=
  mkSnapshotFrame 1 [sample_row 11 100 2; sample_row 12 101 (-1); sample_row 13 100 1] 5.

Definition sample_updates : list UpdateFrame :=
  [mkUpdateFrame 1 (sample_row 11 99 3) 6; mkUpdateFrame 1 (sample_row 12 0 (-1)) 7;
   mkUpdateFrame 1 (sample_row 14 103 (-4)) 9; mkUpdateFrame 1 (sample_row 15 104 (-4)) 10].

Lemma updates_applied_witness : let m := machine_init btc true in
  let m1 := snd (on_snapshot m sample_snapshot 1) in
  let inputs := (fun u => Update u 1) <$> sample_updates in
  applied_updates m1 inputs = in_order 6 sample_updates /\
  (fstate (snd (machine_run m1 inputs)) = Live <-> length (in_order 6 sample_updates) = 4%nat).
Proof.
  apply (updates_applied_without_gap (machine_init btc true) sample_snapshot 1 sample_updates); [reflexivity..|].
  apply (bool_decide_unpack _). vm_compute. exact I.
Defined.

Example sample_is_unsaturated :
  let '(_, evs0, m0) := on_snapshot (machine_init btc true) sample_snapshot 1 in
  let '(evs, _) := machine_run m0 ((fun u => Update u 1) <$> sample_updates) in
  unsaturated (engine_init (Z.to_nat (2 ^ 4))) (evs0 ++ evs) = true.
Proof. vm_compute. reflexivity. Qed.

Lemma bitfinex_book_witness : let sym := symbol_from_wire btc in
  let '(_, evs0, m0) := on_snapshot (machine_init btc true) sample_snapshot 1 in
  let inputs := (fun u => Update u 1) <$> sample_updates in
  let '(evs, m) := machine_run m0 inputs in
  let bk := exchange_rows sym (uf_row <$> applied_updates m0 inputs) (exchange_rows sym (sf_rows sample_snapshot) ∅) in
  on_book m = tracked bk /\
  forall s p, s <> SideUnknown ->
    book_qty (book_at (book_run (engine_init (Z.to_nat (2 ^ 4))) (evs0 ++ evs)) Bitfinex (as_u64 sym)) s p =
    level_of (total bk (mkPlace Bitfinex (as_u64 sym) s p)).
Proof.
  generalize (bitfinex_book_mirrors_exchange 4 btc sample_snapshot 1 sample_updates ltac:(lia)
    ltac:(apply (bool_decide_unpack _); vm_compute; exact I) ltac:(apply (bool_decide_unpack _); vm_compute; exact I)
    ltac:(apply (bool_decide_unpack _); vm_compute; exact I)).
  generalize sample_is_unsaturated. cbn zeta. destruct (on_snapshot _ _ _) as [[a evs0] m0].
  destruct (machine_run m0 _) as [evs m]. auto.
Defined.

(** After a gap the machine asks for a new snapshot, clears its own tracker and
    adds every order again; nothing tells the book downstream to drop the old
    ones, so each level it shows is twice the exchange's. *)
Example resync_duplicates_orders :
  let session := [Snapshot sample_snapshot 1; Update (mkUpdateFrame 1 (sample_row 14 103 (-4)) 9) 2; Snapshot sample_snapshot 3] in
  let '(evs, m) := machine_run (machine_init btc true) session in
  let b := book_at (book_run (engine_init 16) evs) Bitfinex (as_u64 (symbol_from_wire btc)) in
  fstate m = Live /\ on_book m !! 11 = Some (mkResting 1000000 2000000) /\ on_book m !! 13 = Some (mkResting 1000000 1000000) /\
  book_qty b Buy 1000000 = Some 6000000.
Proof. vm_compute. split_and!; reflexivity. Qed.
