(* ===== verification/WireParse.v ===== *)
(** * The Bitfinex frame scanner (src/live/bitfinex/wire_parse.cpp)

    A message of the exchange's WebSocket is a JSON text; the scanner reads the
    three shapes it needs (a snapshot of rows, one updated row, a heart beat)
    and the name of a control event. The pair of the text and the index [i] is
    the suffix that starts at [i]; a scanning function returns its result, or
    [None] for [false], with the suffix it stopped at: after a failure the
    index stays where it was left, and [parse_frame] goes on from there in the
    loop over a control object.

    Rendered frames are read back, with each decimal correctly rounded; what is
    accepted lies within the ranges the state machine relies on. *)

From S2P Require Import Prelude Wire Floats Bitfinex.

#[local] Open Scope list_scope.
#[local] Open Scope Z_scope.

(** ** Characters and spans *)

(** [std::isspace] and [std::isdigit] in the C locale. *)
Definition isspace (c : Z) : bool := (c =? ch " ") || (9 <=? c) && (c <=? 13).
Definition isdigit (c : Z) : bool := (ch "0" <=? c) && (c <=? ch "9").

(** [while (i < s.size() && p(s[i])) ++i]: what was passed, and the suffix. *)
Fixpoint span (p : Z -> bool) (s : list Z) : list Z * list Z :=
  match s with
  | c :: s' => if p c then let '(a, r) := span p s' in (c :: a, r) else ([], s)
  | [] => ([], [])
  end.

Definition skip_ws (s : list Z) : list Z := snd (span isspace s).

Definition starts_with (c : Z) (s : list Z) : bool :=
  match s with x :: _ => x =? c | [] => false end.

(** [if (s[i] == '-') ++i] *)
Definition sign (s : list Z) : bool * list Z :=
  if starts_with (ch "-") s then (true, tail s) else (false, s).

(** ** [std::from_chars] *)

Definition number (digits : list Z) : Z := fold_left (fun n c => n * 10 + (c - ch "0")) digits 0.

(** Of an [int64_t]: out of range is an error. *)
Definition from_chars_i64 (neg : bool) (digits : list Z) : option Z :=
  let v := if neg then - number digits else number digits in
  if (- 2 ^ 63 <=? v) && (v <? 2 ^ 63) then Some v else None.

(** The double nearest to [m / 10^k]; too large a value is an error. *)
Definition decimal (neg : bool) (m : Z) (k : nat) : option double :=
  match m, 10 ^ Z.of_nat k with
  | Zpos m, Zpos d =>
      match ddiv (S754_finite neg m 0) (S754_finite false d 0) with
      | S754_infinity _ => None
      | x => Some x
      end
  | _, _ => Some (S754_zero neg)
  end.

(** Of a [double], on a text of digits and dots: the longest prefix with one
    dot at most counts, and it needs a digit. *)
Definition from_chars_double (neg : bool) (text : list Z) : option double :=
  let '(ip, r) := span isdigit text in
  let fp := if starts_with (ch ".") r then fst (span isdigit (tail r)) else [] in
  match ip ++ fp with
  | [] => None
  | digits => decimal neg (number digits) (length fp)
  end.

(** ** Tokens *)

Definition parse_i64 (s : list Z) : option Z * list Z :=
  let '(neg, r) := sign (skip_ws s) in
  let '(digits, r) := span isdigit r in
  (match digits with [] => None | _ => from_chars_i64 neg digits end, r).

Definition parse_u64 (s : list Z) : option Z * list Z :=
  let '(v, r) := parse_i64 s in
  (match v with Some v => if v <? 0 then None else Some v | None => None end, r).

Definition parse_double (s : list Z) : option double * list Z :=
  let '(neg, r) := sign (skip_ws s) in
  let '(text, r) := span (fun c => isdigit c || (c =? ch ".")) r in
  (match text with [] => None | _ => from_chars_double neg text end, r).

Definition expect (c : Z) (s : list Z) : bool * list Z :=
  let s := skip_ws s in
  if starts_with c s then (true, tail s) else (false, s).

Definition parse_string_token (s : list Z) : option (list Z) * list Z :=
  let s := skip_ws s in
  if starts_with 34 s then
    let '(t, r) := span (fun c => negb (c =? 34)) (tail s) in
    match r with [] => (None, []) | _ :: r => (Some t, r) end
  else (None, s).

(** The early returns of [parse_row] and the functions that follow it. *)
Definition bind {A B} (p : option A * list Z) (k : A -> list Z -> option B * list Z) : option B * list Z :=
  let '(x, s) := p in match x with Some x => k x s | None => (None, s) end.

Definition then_expect {B} (c : Z) (s : list Z) (k : list Z -> option B * list Z) : option B * list Z :=
  let '(ok, s) := expect c s in if ok then k s else (None, s).

Definition parse_row (s : list Z) : option BookRow * list Z :=
  then_expect (ch "[") s (fun s =>
  bind (parse_u64 s) (fun id s =>
  then_expect (ch ",") s (fun s =>
  bind (parse_double s) (fun price s =>
  then_expect (ch ",") s (fun s =>
  bind (parse_double s) (fun amount s =>
  then_expect (ch "]") s (fun s => (Some (mkRow id price amount), s)))))))).

(** The [for] loop: a row, then the end of the array or a comma. *)
Fixpoint parse_rows_loop (fuel : nat) (s : list Z) (rows : list BookRow) : option (list BookRow) * list Z :=
  match fuel with
  | O => (None, s)
  | S fuel =>
      bind (parse_row s) (fun row s =>
        let rows := rows ++ [row] in
        let s := skip_ws s in
        if starts_with (ch "]") s then (Some rows, tail s)
        else then_expect (ch ",") s (fun s => parse_rows_loop fuel s rows))
  end.

Definition parse_snapshot_rows (s : list Z) : option (list BookRow) * list Z :=
  then_expect (ch "[") s (fun s =>
    let s := skip_ws s in
    if starts_with (ch "]") s then (Some [], tail s) else parse_rows_loop (S (length s)) s []).

(** ** Frames *)

Inductive ParsedKind := KindNone | KindSnapshot | KindUpdate | KindHeartbeat | KindControl.

Record ParsedFrame := mkParsed {
  pf_kind : ParsedKind;
  pf_snapshot : SnapshotFrame;
  pf_update : UpdateFrame;
  pf_control_event : list Z
}.

Definition parsed_init : ParsedFrame :=
  mkParsed KindNone (mkSnapshotFrame 0 [] 0) (mkUpdateFrame 0 (mkRow 0 dzero dzero) 0) [].

(** The loop over the members of a control object: the value of "event" is
    kept, strings and numbers are passed over, anything else ends it. A failed
    [parse_string_token] leaves the value as it was. *)
Fixpoint control_loop (fuel : nat) (s : list Z) (event : list Z) : list Z :=
  match fuel with
  | O => event
  | S fuel =>
      match s with
      | [] => event
      | _ =>
          match parse_string_token s with
          | (None, _) => event
          | (Some key, s) =>
              let '(ok, s) := expect (ch ":") s in
              if negb ok then event else
              let '(event, s) :=
                if bool_decide (key = chars "event") then
                  let '(t, s) := parse_string_token s in (match t with Some t => t | None => event end, s)
                else
                  let s := skip_ws s in
                  if starts_with 34 s then (event, snd (parse_string_token s)) else (event, snd (parse_double s)) in
              let s := skip_ws s in
              if starts_with (ch ",") s then control_loop fuel (tail s) event else event
          end
      end
  end.

Definition parse_control (s : list Z) : option ParsedFrame :=
  match control_loop (S (length s)) s [] with
  | [] => None
  | event => Some (mkParsed KindControl (pf_snapshot parsed_init) (pf_update parsed_init) event)
  end.

Definition parse_snapshot (chan : Z) (s : list Z) : option ParsedFrame :=
  let '(rows, s) := parse_snapshot_rows s in
  match rows with
  | None => None
  | Some rows =>
      let s := skip_ws s in
      let '(sequence, s) :=
        if starts_with (ch ",") s then
          let '(q, s) := parse_u64 (tail s) in (match q with Some q => q | None => 0 end, s)
        else (0, s) in
      let s := skip_ws s in
      if starts_with (ch "]") s then
        Some (mkParsed KindSnapshot (mkSnapshotFrame chan rows sequence) (pf_update parsed_init) [])
      else None
  end.

Definition parse_update (chan : Z) (s : list Z) : option ParsedFrame :=
  let '(row, s) := parse_row s in
  match row with
  | None => None
  | Some row =>
      let frame sequence := mkParsed KindUpdate (pf_snapshot parsed_init) (mkUpdateFrame chan row sequence) [] in
      let s := skip_ws s in
      if starts_with (ch ",") s then
        match fst (parse_u64 (tail s)) with Some q => Some (frame q) | None => None end
      else Some (frame 0)
  end.

(** [None] is the result [false]; no caller looks at [out] then. *)
Definition parse_frame (json : list Z) : option ParsedFrame :=
  let '(array, s) := expect (ch "[") json in
  if negb array then
    let '(object, s) := expect (ch "{") s in
    if object then parse_control s else None
  else
  match parse_i64 s with
  | (None, _) => None
  | (Some chan, s) =>
      let '(ok, s) := expect (ch ",") s in
      if negb ok then None else
      let s := skip_ws s in
      if starts_with 34 s then
        match fst (parse_string_token s) with
        | Some tag => if bool_decide (tag = chars "hb")
                      then Some (mkParsed KindHeartbeat (pf_snapshot parsed_init) (pf_update parsed_init) []) else None
        | None => None
        end
      else if starts_with (ch "[") s then
        if starts_with (ch "[") (skip_ws (tail s)) then parse_snapshot chan s else parse_update chan s
      else None
  end.

(** ** The fixtures of the tests *)

Example fixture_snapshot :
  parse_frame (chars "[88, [[238803645123, 95000.5, 0.01], [238803645124, 95001.0, -0.02]], 1]") =
  Some (mkParsed KindSnapshot (mkSnapshotFrame 88
    [mkRow 238803645123 (dlit 950005 10) (dlit 1 100); mkRow 238803645124 (of_Z 95001) (dneg (dlit 2 100))] 1)
    (pf_update parsed_init) []).
Proof. vm_compute. reflexivity. Qed.

Example fixture_remove_bid :
  parse_frame (chars "[88, [238803645123, 0, 1], 3]") =
  Some (mkParsed KindUpdate (pf_snapshot parsed_init) (mkUpdateFrame 88 (mkRow 238803645123 dzero (of_Z 1)) 3) []).
Proof. vm_compute. reflexivity. Qed.

(** An amount in exponent form, which JSON allows and JavaScript writes below
    1e-6, makes the whole frame unreadable. *)
Example exponent_rejected : parse_frame (chars "[88,[7,95000,1e-7],3]") = None.
Proof. vm_compute. reflexivity. Qed.

(** [parse_snapshot_rows] accepts an empty array of rows, but [parse_frame]
    takes a frame for a snapshot only when a row follows. *)
Example empty_snapshot_rejected :
  fst (parse_snapshot_rows (chars "[]")) = Some [] /\ parse_frame (chars "[88,[],1]") = None.
Proof. vm_compute. split; reflexivity. Qed.

(** The end of an update is not looked at. *)
Example truncated_update_accepted :
  option_map (fun f => uf_sequence (pf_update f)) (parse_frame (chars "[88,[7,95000,1],3")) = Some 3 /\
  option_map (fun f => uf_sequence (pf_update f)) (parse_frame (chars "[88,[7,95000,1]")) = Some 0.
Proof. vm_compute. split; reflexivity. Qed.

(** ** Progress: the scanner never runs out of fuel *)

Lemma span_app_eq p s : let '(a, r) := span p s in a ++ r = s.
Proof. induction s as [|c s IH]; [done|]. cbn [span]. destruct (p c); [|done]. destruct (span p s). simpl. by rewrite IH. Qed.

Lemma span_le p s : (length (snd (span p s)) <= length s)%nat.
Proof. pose proof (span_app_eq p s) as H. destruct (span p s) as [a r]. rewrite <-H, length_app. simpl. lia. Qed.

Lemma span_all p s : Forall (fun c => p c = true) (fst (span p s)).
Proof.
  induction s as [|c s IH]; [by constructor|]. cbn [span]. destruct (p c) eqn:E; [|by constructor].
  destruct (span p s). constructor; [done|apply IH].
Qed.

Lemma skip_ws_le s : (length (skip_ws s) <= length s)%nat.
Proof. apply span_le. Qed.

Lemma skip_ws_idemp s : skip_ws (skip_ws s) = skip_ws s.
Proof.
  unfold skip_ws. induction s as [|c s IH]; [done|]. cbn [span]. destruct (isspace c) eqn:E.
  - by destruct (span isspace s).
  - cbn [snd span]. by rewrite E.
Qed.

Lemma starts_tail c s : starts_with c s = true -> length s = S (length (tail s)).
Proof. by destruct s. Qed.

Lemma sign_le s : (length (snd (sign s)) <= length s)%nat.
Proof. unfold sign. destruct (starts_with _ s) eqn:E; [apply starts_tail in E|]; simpl; lia. Qed.

(** A scanning function leaves no more than it was given. *)
Definition shrinks {A} (s : list Z) (p : A * list Z) : Prop := (length (snd p) <= length s)%nat.

Lemma expect_shrinks c s : shrinks s (expect c s).
Proof.
  unfold shrinks, expect. pose proof (skip_ws_le s). destruct (starts_with c _) eqn:E; [apply starts_tail in E|]; simpl; lia.
Qed.

Lemma expect_consumes c s s' : expect c s = (true, s') -> (length s' < length s)%nat.
Proof.
  unfold expect. pose proof (skip_ws_le s). destruct (starts_with c _) eqn:E; [|done]. apply starts_tail in E.
  intros [= <-]. lia.
Qed.

Lemma parse_i64_shrinks s : shrinks s (parse_i64 s).
Proof.
  unfold shrinks, parse_i64. pose proof (skip_ws_le s). pose proof (sign_le (skip_ws s)) as H1.
  destruct (sign _) as [neg r]. simpl in H1. pose proof (span_le isdigit r). destruct (span isdigit r). simpl in *. lia.
Qed.

Lemma parse_u64_shrinks s : shrinks s (parse_u64 s).
Proof. unfold parse_u64. pose proof (parse_i64_shrinks s). by destruct (parse_i64 s). Qed.

Lemma parse_double_shrinks s : shrinks s (parse_double s).
Proof.
  unfold shrinks, parse_double. pose proof (skip_ws_le s). pose proof (sign_le (skip_ws s)) as H1.
  destruct (sign _) as [neg r]. simpl in H1. set (p := fun c => _). pose proof (span_le p r). destruct (span p r). simpl in *. lia.
Qed.

Lemma parse_string_shrinks s : shrinks s (parse_string_token s).
Proof.
  unfold shrinks, parse_string_token. pose proof (skip_ws_le s). destruct (starts_with _ _) eqn:E; [|done].
  apply starts_tail in E. set (p := fun c => _). pose proof (span_le p (tail (skip_ws s))).
  destruct (span p _) as [a [|x r]]; simpl in *; lia.
Qed.

Lemma string_token_consumes s t s' : parse_string_token s = (Some t, s') -> (length s' < length s)%nat.
Proof.
  unfold parse_string_token. pose proof (skip_ws_le s). destruct (starts_with _ _) eqn:E; [|done].
  apply starts_tail in E. set (p := fun c => _). pose proof (span_le p (tail (skip_ws s))).
  destruct (span p _) as [a [|x r]]; [done|]. simpl in *. intros [= _ <-]. lia.
Qed.

Lemma bind_shrinks {A B} s0 (p : option A * list Z) (k : A -> list Z -> option B * list Z) :
  shrinks s0 p -> (forall x s, (length s <= length s0)%nat -> shrinks s0 (k x s)) -> shrinks s0 (bind p k).
Proof. destruct p as [[x|] s]; cbn [bind]; [|done]. intros Hs Hk. by apply Hk. Qed.

Lemma then_expect_shrinks {B} s0 c s (k : list Z -> option B * list Z) : (length s <= length s0)%nat ->
  (forall s, (length s <= length s0)%nat -> shrinks s0 (k s)) -> shrinks s0 (then_expect c s k).
Proof.
  intros Hs Hk. unfold then_expect. pose proof (expect_shrinks c s) as H. destruct (expect c s) as [[] r];
    unfold shrinks in *; simpl in *; [apply Hk|]; lia.
Qed.

Lemma shrinks_trans {A} s0 s (p : A * list Z) : (length s <= length s0)%nat -> shrinks s p -> shrinks s0 p.
Proof. unfold shrinks. lia. Qed.

Lemma parse_row_consumes s row s' : parse_row s = (Some row, s') -> (length s' < length s)%nat.
Proof.
  unfold parse_row, then_expect at 1. destruct (expect _ s) as [[] s1] eqn:E; [|done]. apply expect_consumes in E.
  intros H. enough (shrinks s1 (Some row, s')) as Hs by (unfold shrinks in Hs; simpl in Hs; lia). rewrite <-H.
  apply bind_shrinks; [apply parse_u64_shrinks|intros id s2 H2].
  apply then_expect_shrinks; [done|intros s3 H3].
  apply bind_shrinks; [eapply shrinks_trans, parse_double_shrinks; done|intros price s4 H4].
  apply then_expect_shrinks; [done|intros s5 H5].
  apply bind_shrinks; [eapply shrinks_trans, parse_double_shrinks; done|intros amount s6 H6].
  by apply then_expect_shrinks.
Qed.

Lemma rows_loop_fuel fuel : forall fuel' s rows, (length s < fuel)%nat -> (length s < fuel')%nat ->
  parse_rows_loop fuel s rows = parse_rows_loop fuel' s rows.
Proof.
  induction fuel as [|fuel IH]; intros [|fuel'] s rows H H'; try lia. cbn [parse_rows_loop].
  destruct (parse_row s) as [[row|] s1] eqn:Er; [|done]. apply parse_row_consumes in Er. cbn [bind].
  destruct (starts_with _ _); [done|]. unfold then_expect. pose proof (skip_ws_le s1).
  destruct (expect _ _) as [[] s2] eqn:E; [|done]. apply expect_consumes in E. apply IH; lia.
Qed.

Lemma control_loop_fuel fuel : forall fuel' s event, (length s < fuel)%nat -> (length s < fuel')%nat ->
  control_loop fuel s event = control_loop fuel' s event.
Proof.
  induction fuel as [|fuel IH]; intros [|fuel'] s event H H'; try lia. cbn [control_loop].
  destruct s as [|c0 s0]; [done|]. set (s := c0 :: s0) in *.
  destruct (parse_string_token s) as [[key|] s1] eqn:Et; [|done]. apply string_token_consumes in Et.
  destruct (expect _ s1) as [[] s2] eqn:E; [|done]. apply expect_consumes in E. cbn [negb].
  assert (forall ev s3, (length s3 <= length s2)%nat ->
    (let s := skip_ws s3 in if starts_with (ch ",") s then control_loop fuel (tail s) ev else ev) =
    (let s := skip_ws s3 in if starts_with (ch ",") s then control_loop fuel' (tail s) ev else ev)) as Hnext.
  { intros ev s3 H3. cbn zeta. pose proof (skip_ws_le s3). destruct (starts_with _ _) eqn:Es; [|done].
    apply starts_tail in Es. apply IH; lia. }
  case_bool_decide.
  - pose proof (parse_string_shrinks s2) as Hs. destruct (parse_string_token s2) as [? s3]. by apply Hnext.
  - pose proof (skip_ws_le s2). cbn zeta. destruct (starts_with _ (skip_ws s2)); apply Hnext.
    + pose proof (parse_string_shrinks (skip_ws s2)) as Hs. unfold shrinks in Hs. lia.
    + pose proof (parse_double_shrinks (skip_ws s2)) as Hs. unfold shrinks in Hs. lia.
Qed.

(** ** Rendered frames *)

(** A decimal as it is written. *)
Record Literal := mkLiteral { lit_neg : bool; lit_int : list Z; lit_frac : list Z }.

Definition lit_ok (l : Literal) : Prop :=
  lit_int l <> [] /\ Forall (fun c => isdigit c = true) (lit_int l ++ lit_frac l).

Definition lit_text (l : Literal) : list Z :=
  (if lit_neg l then [ch "-"] else []) ++ lit_int l ++ match lit_frac l with [] => [] | f => ch "." :: f end.

(** The double nearest to it. *)
Definition lit_value (l : Literal) : option double :=
  decimal (lit_neg l) (number (lit_int l ++ lit_frac l)) (length (lit_frac l)).

Definition int_text (n : Z) : list Z :=
  (if n <? 0 then [ch "-"] else []) ++ decimal_digits 19 (Z.abs n).

Section render.
(** The white space before each token. *)
Context (w : list Z) (w_space : Forall (fun c => isspace c = true) w).

Definition tok (t : list Z) : list Z := w ++ t.

Definition row_text (row : Z * Literal * Literal) : list Z :=
  let '(id, price, amount) := row in
  tok [ch "["] ++ tok (int_text id) ++ tok [ch ","] ++ tok (lit_text price) ++ tok [ch ","] ++ tok (lit_text amount) ++ tok [ch "]"].

Fixpoint rows_text (rows : list (Z * Literal * Literal)) : list Z :=
  match rows with
  | [] => []
  | [row] => row_text row ++ tok [ch "]"]
  | row :: rows => row_text row ++ tok [ch ","] ++ rows_text rows
  end.

Definition snapshot_text (chan : Z) (rows : list (Z * Literal * Literal)) (sequence : Z) : list Z :=
  tok [ch "["] ++ tok (int_text chan) ++ tok [ch ","] ++ tok [ch "["] ++ rows_text rows ++
  tok [ch ","] ++ tok (int_text sequence) ++ tok [ch "]"].

Definition update_text (chan : Z) (row : Z * Literal * Literal) (sequence : Z) : list Z :=
  tok [ch "["] ++ tok (int_text chan) ++ tok [ch ","] ++ row_text row ++ tok [ch ","] ++ tok (int_text sequence) ++ tok [ch "]"].

(** What a written row stands for. *)
Definition row_value (row : Z * Literal * Literal) : option BookRow :=
  let '(id, price, amount) := row in
  match lit_value price, lit_value amount with
  | Some p, Some a => Some (mkRow id p a)
  | _, _ => None
  end.

Definition row_ok (row : Z * Literal * Literal) : Prop :=
  let '(id, price, amount) := row in 0 <= id < 2 ^ 63 /\ lit_ok price /\ lit_ok amount.

(** ** Reading them back *)

(** The first character of [s], when there is one, is not in [p]. *)
Definition stops (p : Z -> bool) (s : list Z) : Prop := match s with c :: _ => p c = false | [] => True end.

Lemma span_stops p a s : Forall (fun c => p c = true) a -> stops p s -> span p (a ++ s) = (a, s).
Proof.
  induction 1 as [|c a Hc _ IH]; intros Hs.
  - destruct s as [|c s]; [done|]. cbn [app span]. by rewrite Hs.
  - cbn [app span]. by rewrite Hc, IH.
Qed.

Lemma skip_tok t s : t <> [] -> stops isspace t -> skip_ws (tok t ++ s) = t ++ s.
Proof.
  intros Ht Hs. unfold skip_ws, tok. rewrite <-app_assoc, (span_stops isspace w); [done..|]. by destruct t.
Qed.

Lemma skip_char c s : isspace c = false -> skip_ws (tok [c] ++ s) = c :: s.
Proof. intros Hc. by rewrite skip_tok. Qed.

Lemma expect_tok c s : isspace c = false -> expect c (tok [c] ++ s) = (true, s).
Proof. intros Hc. unfold expect. rewrite skip_char by done. cbn [starts_with]. by rewrite Z.eqb_refl. Qed.

Lemma isdigit_range c : isdigit c = true <-> 48 <= c <= 57.
Proof. unfold isdigit. change (ch "0") with 48. change (ch "9") with 57. zbool; lia. Qed.

Lemma digit_not_space c : isdigit c = true -> isspace c = false.
Proof. intros H%isdigit_range. unfold isspace. change (ch " ") with 32. zbool; lia. Qed.

(** A token that ends a number. *)
Lemma stops_tok (p : Z -> bool) c s : (forall x, isspace x = true -> p x = false) -> p c = false -> stops p (tok [c] ++ s).
Proof. intros Hp Hc. unfold tok. destruct w_space as [|x w' Hx _]; [exact Hc|by apply Hp]. Qed.

Lemma number_snoc ds c : number (ds ++ [c]) = number ds * 10 + (c - 48).
Proof. unfold number. by rewrite fold_left_app. Qed.

Lemma decimal_digits_number fuel : forall n, 0 <= n < 10 ^ Z.of_nat fuel -> number (decimal_digits fuel n) = n.
Proof.
  induction fuel as [|fuel IH]; intros n Hn; [simpl in Hn; by replace n with 0 by lia|].
  rewrite Nat2Z.inj_succ, Z.pow_succ_r in Hn by lia. cbn [decimal_digits]. rewrite number_snoc.
  change (ch "0") with 48. pose proof (Z.div_mod n 10). case_match; zbool.
  - rewrite Z.mod_small by lia. change (number []) with 0. lia.
  - rewrite IH; [lia|]. split; [apply Z.div_pos; lia|apply Z.div_lt_upper_bound; lia].
Qed.

Lemma decimal_digits_digits fuel : forall n, Forall (fun c => isdigit c = true) (decimal_digits fuel n).
Proof.
  induction fuel as [|fuel IH]; intros n; [constructor|]. cbn [decimal_digits]. apply Forall_app. split.
  - case_match; [constructor|apply IH].
  - constructor; [|done]. apply isdigit_range. change (ch "0") with 48. pose proof (Z.mod_pos_bound n 10). lia.
Qed.

Lemma int_text_head n : 0 <= n -> exists c ds, int_text n = c :: ds /\ isdigit c = true.
Proof.
  intros Hn. unfold int_text. replace (n <? 0) with false by lia. pose proof (decimal_digits_digits 19 (Z.abs n)) as Hd.
  cbn [app]. destruct (decimal_digits 19 (Z.abs n)) as [|c ds] eqn:E.
  - cbn [decimal_digits] in E. by destruct (if _ <? _ then _ else _).
  - apply Forall_cons in Hd as [Hc _]. eauto.
Qed.

Lemma sign_minus s : sign (ch "-" :: s) = (true, s).
Proof. done. Qed.

Lemma sign_digits ds s : ds <> [] -> Forall (fun c => isdigit c = true) ds -> sign (ds ++ s) = (false, ds ++ s).
Proof.
  intros Hne Hds. destruct Hds as [|c ds Hc _]; [congruence|]. apply isdigit_range in Hc. unfold sign. cbn [app starts_with].
  change (ch "-") with 45. by replace (c =? 45) with false by lia.
Qed.

(** The text of a signed number: an optional minus and a digit. *)
Lemma skip_signed (neg : bool) ds s : ds <> [] -> Forall (fun c => isdigit c = true) ds ->
  skip_ws (tok ((if neg then [ch "-"] else []) ++ ds) ++ s) = (if neg then [ch "-"] else []) ++ ds ++ s.
Proof.
  intros Hne Hds. rewrite skip_tok; [by rewrite app_assoc| |]; destruct neg, Hds as [|c ds Hc _]; try done.
  by apply digit_not_space.
Qed.

Lemma sign_signed (neg : bool) ds s : ds <> [] -> Forall (fun c => isdigit c = true) ds ->
  sign ((if neg then [ch "-"] else []) ++ ds ++ s) = (neg, ds ++ s).
Proof. intros Hne Hds. destruct neg; [exact (sign_minus _)|exact (sign_digits ds s Hne Hds)]. Qed.

Lemma parse_i64_tok n s : - 2 ^ 63 <= n < 2 ^ 63 -> stops isdigit s -> parse_i64 (tok (int_text n) ++ s) = (Some n, s).
Proof.
  intros Hn Hs. unfold int_text, parse_i64. assert (decimal_digits 19 (Z.abs n) <> []) as Hne by (cbn [decimal_digits]; by destruct (if _ <? _ then _ else _)).
  pose proof (decimal_digits_digits 19 (Z.abs n)) as Hds. rewrite skip_signed, sign_signed, (span_stops isdigit) by done.
  destruct (decimal_digits 19 (Z.abs n)) eqn:E; [done|]. rewrite <-E. f_equal. unfold from_chars_i64.
  rewrite decimal_digits_number by (split; [lia|]; simpl; lia).
  replace (if n <? 0 then - Z.abs n else Z.abs n) with n by (case_match; zbool; lia).
  case_match; [done|]. zbool; lia.
Qed.

Lemma parse_u64_tok n s : 0 <= n < 2 ^ 63 -> stops isdigit s -> parse_u64 (tok (int_text n) ++ s) = (Some n, s).
Proof. intros Hn Hs. unfold parse_u64. rewrite parse_i64_tok by (done || lia). by replace (n <? 0) with false by lia. Qed.

Lemma isspace_not_digit x : isspace x = true -> isdigit x = false.
Proof. intros H. destruct (isdigit x) eqn:E; [|done]. apply digit_not_space in E. congruence. Qed.

Lemma isspace_not_dot x : isspace x = true -> (x =? ch ".") = false.
Proof. unfold isspace. change (ch " ") with 32. change (ch ".") with 46. intros H. zbool; lia. Qed.

Lemma stops_digit c s : isdigit c = false -> stops isdigit (tok [c] ++ s).
Proof. intros Hc. apply stops_tok; [apply isspace_not_digit|done]. Qed.

Definition numeric (c : Z) : bool := isdigit c || (c =? ch ".").

Lemma stops_numeric c s : numeric c = false -> stops numeric (tok [c] ++ s).
Proof.
  intros Hc. apply stops_tok; [|done]. intros x Hx. unfold numeric. by rewrite isspace_not_digit, isspace_not_dot.
Qed.

Lemma from_chars_literal l : lit_ok l ->
  from_chars_double (lit_neg l) (lit_int l ++ match lit_frac l with [] => [] | f => ch "." :: f end) = lit_value l.
Proof.
  intros [Hne Hd]. apply Forall_app in Hd as [Hi Hf]. unfold from_chars_double, lit_value.
  rewrite (span_stops isdigit) by (done || by destruct (lit_frac l)).
  destruct (lit_frac l) as [|f fs].
  - cbn [starts_with]. rewrite app_nil_r. by destruct (lit_int l).
  - cbn [starts_with tail]. rewrite Z.eqb_refl.
    pose proof (span_stops isdigit (f :: fs) [] Hf I) as Hsp. rewrite app_nil_r in Hsp. rewrite Hsp.
    cbn [fst]. by destruct (lit_int l).
Qed.

Lemma parse_double_tok l s : lit_ok l -> stops numeric s -> parse_double (tok (lit_text l) ++ s) = (lit_value l, s).
Proof.
  intros Hl Hs. pose proof (from_chars_literal l Hl) as Hv. destruct Hl as [Hne Hd]. apply Forall_app in Hd as [Hi Hf].
  unfold parse_double, lit_text. set (fr := match lit_frac l with [] => _ | _ => _ end) in *.
  replace (tok ((if lit_neg l then [ch "-"] else []) ++ lit_int l ++ fr) ++ s)
    with (tok ((if lit_neg l then [ch "-"] else []) ++ lit_int l) ++ fr ++ s) by (unfold tok; by rewrite <-!app_assoc).
  rewrite skip_signed, sign_signed by done. rewrite (app_assoc _ fr).
  change (fun c => isdigit c || (c =? ch ".")) with numeric. rewrite (span_stops numeric _ s); [|..|done].
  - rewrite Hv. by destruct (lit_int l).
  - assert (forall k, Forall (fun c => isdigit c = true) k -> Forall (fun c => numeric c = true) k) as Hdig.
    { intros k Hk. eapply Forall_impl; [exact Hk|]. intros c Hc. unfold numeric. by rewrite Hc. }
    apply Forall_app. split; [by apply Hdig|]. subst fr. destruct (lit_frac l); [done|]. constructor; [done|by apply Hdig].
Qed.

Lemma parse_row_text row v s : row_ok row -> row_value row = Some v -> parse_row (row_text row ++ s) = (Some v, s).
Proof.
  destruct row as [[id price] amount]. intros (Hid & Hp & Ha). unfold row_value, row_text, parse_row, then_expect.
  destruct (lit_value price) as [p|] eqn:Ep; [|done]. destruct (lit_value amount) as [a|] eqn:Ea; [|done]. intros [= <-].
  rewrite <-!app_assoc, expect_tok, parse_u64_tok by (done || by apply stops_digit). cbn [bind].
  rewrite expect_tok, parse_double_tok by (done || by apply stops_numeric). rewrite Ep. cbn [bind].
  rewrite expect_tok, parse_double_tok by (done || by apply stops_numeric). rewrite Ea. cbn [bind].
  by rewrite expect_tok.
Qed.

Lemma parse_row_skip s : parse_row (skip_ws s) = parse_row s.
Proof. unfold parse_row, then_expect, expect. by rewrite skip_ws_idemp. Qed.

Lemma row_starts row s : starts_with (ch "[") (skip_ws (row_text row ++ s)) = true.
Proof.
  destruct row as [[id price] amount]. unfold row_text. rewrite <-!app_assoc, skip_char by done. apply Z.eqb_refl.
Qed.

Lemma rows_loop_text rows : forall vs acc fuel s, rows <> [] -> Forall row_ok rows -> mapM row_value rows = Some vs ->
  (length rows <= fuel)%nat -> parse_rows_loop fuel (rows_text rows ++ s) acc = (Some (acc ++ vs), s).
Proof.
  induction rows as [|row rows IH]; [done|]. intros vs acc fuel s _ [Hr Hrs]%Forall_cons Hv Hf.
  cbn [mapM] in Hv. destruct (row_value row) as [v|] eqn:Ev; [|done]. cbn [mbind option_bind] in Hv.
  destruct (mapM row_value rows) as [vs'|] eqn:Evs; [|done]. injection Hv as <-.
  destruct fuel as [|fuel]; [simpl in Hf; lia|]. cbn [parse_rows_loop].
  destruct rows as [|row2 rows].
  - injection Evs as <-. cbn [rows_text]. rewrite <-app_assoc, (parse_row_text row v) by done. cbn [bind].
    rewrite skip_char by done. cbn [starts_with tail]. by rewrite Z.eqb_refl.
  - change (rows_text (row :: row2 :: rows)) with (row_text row ++ tok [ch ","] ++ rows_text (row2 :: rows)).
    rewrite <-!app_assoc, (parse_row_text row v) by done. cbn [bind]. rewrite skip_char by done.
    cbn [starts_with]. change (ch "," =? ch "]") with false. cbv iota.
    unfold then_expect. replace (expect (ch ",") (ch "," :: rows_text (row2 :: rows) ++ s)) with (true, rows_text (row2 :: rows) ++ s) by done.
    rewrite (IH vs') by (done || simpl in *; lia). by rewrite <-app_assoc.
Qed.

Lemma rows_text_length rows : (length rows <= length (rows_text rows))%nat.
Proof.
  assert (forall row s, (1 <= length (row_text row ++ s))%nat) as H1.
  { intros [[id p] a] s. unfold row_text, tok. rewrite !length_app. simpl. lia. }
  induction rows as [|row [|row2 rows] IH]; [simpl; lia|apply H1|].
  change (rows_text (row :: row2 :: rows)) with (row_text row ++ tok [ch ","] ++ rows_text (row2 :: rows)).
  cbn [length] in *. pose proof (H1 row []) as H. rewrite app_nil_r in H. rewrite !length_app. lia.
Qed.

Lemma rows_text_starts rows s : rows <> [] -> starts_with (ch "[") (skip_ws (rows_text rows ++ s)) = true.
Proof.
  destruct rows as [|row [|row2 rows]]; [done| |]; intros _.
  - cbn [rows_text]. rewrite <-app_assoc. apply row_starts.
  - change (rows_text (row :: row2 :: rows)) with (row_text row ++ tok [ch ","] ++ rows_text (row2 :: rows)).
    rewrite <-app_assoc. apply row_starts.
Qed.

Lemma other_start c d s : starts_with c s = true -> c <> d -> starts_with d s = false.
Proof. destruct s as [|x s]; [done|]. cbn [starts_with]. intros ->%Z.eqb_eq H. by apply Z.eqb_neq. Qed.

Lemma parse_snapshot_rows_text rows vs s : rows <> [] -> Forall row_ok rows -> mapM row_value rows = Some vs ->
  parse_snapshot_rows (ch "[" :: rows_text rows ++ s) = (Some vs, s).
Proof.
  intros Hne Hok Hv. unfold parse_snapshot_rows, then_expect.
  replace (expect (ch "[") (ch "[" :: rows_text rows ++ s)) with (true, rows_text rows ++ s) by done. cbv iota beta zeta.
  pose proof (rows_text_starts rows s Hne) as Hst. rewrite (other_start _ (ch "]") _ Hst) by done.
  set (t := rows_text rows ++ s) in *. pose proof (skip_ws_le t).
  rewrite (rows_loop_fuel _ (S (length t))) by lia.
  replace (parse_rows_loop (S (length t)) (skip_ws t) []) with (parse_rows_loop (S (length t)) t [])
    by (cbn [parse_rows_loop]; by rewrite parse_row_skip).
  unfold t. apply (rows_loop_text rows vs []); [done..|].
  rewrite length_app. pose proof (rows_text_length rows). lia.
Qed.

(** The head of a frame: the bracket, the channel and the comma. *)
Lemma parse_head chan s : - 2 ^ 63 <= chan < 2 ^ 63 ->
  starts_with (ch "[") (skip_ws s) = true ->
  parse_frame (tok [ch "["] ++ tok (int_text chan) ++ tok [ch ","] ++ s) =
  if starts_with (ch "[") (skip_ws (tail (skip_ws s))) then parse_snapshot chan (skip_ws s) else parse_update chan (skip_ws s).
Proof.
  intros Hc Hs. unfold parse_frame. rewrite expect_tok by done. cbn [negb].
  rewrite parse_i64_tok by (done || by apply stops_digit). rewrite expect_tok by done. cbn [negb].
  rewrite Hs. by rewrite (other_start _ 34 _ Hs).
Qed.

(** C22. A snapshot frame as the exchange renders it, with any white space
    before its tokens, is read back: the channel, the sequence number, and
    every row with its prices and amounts rounded to the nearest double. *)
Theorem snapshot_frame_read chan rows vs sequence : - 2 ^ 63 <= chan < 2 ^ 63 -> 0 <= sequence < 2 ^ 63 ->
  rows <> [] -> Forall row_ok rows -> mapM row_value rows = Some vs ->
  parse_frame (snapshot_text chan rows sequence) =
  Some (mkParsed KindSnapshot (mkSnapshotFrame chan vs sequence) (pf_update parsed_init) []).
Proof.
  intros Hc Hq Hne Hok Hv. unfold snapshot_text. set (tl := tok [ch ","] ++ tok (int_text sequence) ++ tok [ch "]"]).
  rewrite parse_head by (done || by rewrite skip_char). rewrite skip_char by done. cbn [tail].
  rewrite rows_text_starts by done. unfold parse_snapshot. rewrite (parse_snapshot_rows_text rows vs) by done.
  subst tl. rewrite skip_char by done. cbn [starts_with tail]. rewrite Z.eqb_refl.
  rewrite <-(app_nil_r (tok [ch "]"])), parse_u64_tok by (done || by apply stops_digit).
  rewrite skip_char by done. cbn [starts_with]. by rewrite Z.eqb_refl.
Qed.

Lemma update_frame_read chan row v sequence : - 2 ^ 63 <= chan < 2 ^ 63 -> 0 <= sequence < 2 ^ 63 ->
  row_ok row -> row_value row = Some v ->
  parse_frame (update_text chan row sequence) =
  Some (mkParsed KindUpdate (pf_snapshot parsed_init) (mkUpdateFrame chan v sequence) []).
Proof.
  intros Hc Hq Hok Hv. unfold update_text. rewrite parse_head by (done || apply row_starts).
  assert (starts_with (ch "[") (skip_ws (tail (skip_ws (row_text row ++ tok [ch ","] ++ tok (int_text sequence) ++ tok [ch "]"])))) = false) as ->.
  { destruct row as [[id p] a]. destruct Hok as (Hid & _). unfold row_text. rewrite <-!app_assoc, skip_char by done. cbn [tail].
    destruct (int_text_head id) as (c & ds & -> & Hc'); [lia|]. rewrite skip_tok by (done || by apply digit_not_space).
    apply isdigit_range in Hc'. cbn [app starts_with]. change (ch "[") with 91. lia. }
  unfold parse_update.
  rewrite parse_row_skip, (parse_row_text row v) by done. rewrite skip_char by done. cbn [starts_with tail]. rewrite Z.eqb_refl.
  by rewrite <-(app_nil_r (tok [ch "]"])), parse_u64_tok by (done || by apply stops_digit).
Qed.

End render.

(** ** Ranges of what is accepted *)

Lemma from_chars_range neg ds v : from_chars_i64 neg ds = Some v -> - 2 ^ 63 <= v < 2 ^ 63.
Proof. unfold from_chars_i64. cbv zeta. generalize (if neg then - number ds else number ds). intros x. case_match; [|done]. intros [= <-]. zbool; lia. Qed.

Lemma parse_i64_range s n s' : parse_i64 s = (Some n, s') -> - 2 ^ 63 <= n < 2 ^ 63.
Proof.
  unfold parse_i64. destruct (sign _) as [neg r]. destruct (span isdigit r) as [[|d ds] r']; [done|].
  intros [= H _]. by eapply from_chars_range.
Qed.

Lemma parse_u64_range s n s' : parse_u64 s = (Some n, s') -> 0 <= n < 2 ^ 63.
Proof.
  unfold parse_u64. destruct (parse_i64 s) as [[v|] r] eqn:E; [|done]. apply parse_i64_range in E.
  destruct (v <? 0) eqn:E1; [done|]. intros [= <- _]. zbool; lia.
Qed.

Lemma shr_1_nonneg r : 0 <= shr_m r -> 0 <= shr_m (shr_1 r).
Proof. destruct r as [[|[p|p|]|p] ? ?]; simpl; lia. Qed.

Lemma shr_nonneg r e n : 0 <= shr_m r -> 0 <= shr_m (fst (shr r e n)).
Proof.
  intros Hr. destruct n as [|p|p]; [done| |done]. cbn [shr fst]. revert r Hr.
  induction p as [p IH|p IH|]; intros r Hr; cbn [iter_pos]; [|by apply IH, IH|by apply shr_1_nonneg].
  by apply IH, IH, shr_1_nonneg.
Qed.

Lemma round_aux_number sx m e l : 0 <= m -> binary_round_aux kPrec kEmax sx m e l <> S754_nan.
Proof.
  intros Hm. unfold binary_round_aux, shr_fexp.
  assert (0 <= shr_m (shr_record_of_loc m l)) as Hl by (by destruct l as [|[]]).
  pose proof (shr_nonneg _ e (fexp kPrec kEmax (Zdigits2 m + e) - e) Hl) as H1.
  destruct (shr _ e _) as [r1 e1]. cbn [fst] in H1.
  set (m2 := round_nearest_even _ _). assert (0 <= m2) as Hm2.
  { unfold m2, round_nearest_even. destruct (loc_of_shr_record r1) as [|[]]; [..|lia]; try done. case_match; lia. }
  pose proof (shr_nonneg (shr_record_of_loc m2 loc_Exact) e1 (fexp kPrec kEmax (Zdigits2 m2 + e1) - e1) Hm2) as H2.
  destruct (shr _ e1 _) as [r2 e2]. cbn [fst] in H2. destruct (shr_m r2); [done|by case_match|lia].
Qed.

(** A finite double. *)
Definition is_finite (x : double) : Prop := match x with S754_zero _ | S754_finite _ _ _ => True | _ => False end.

Lemma decimal_finite neg m k x : 0 <= m -> decimal neg m k = Some x -> is_finite x.
Proof.
  intros Hm. unfold decimal. destruct m as [|m|]; [by intros [= <-]| |lia].
  destruct (10 ^ Z.of_nat k) as [|d|] eqn:Ek; [lia| |lia]. unfold ddiv, SFdiv, SFdiv_core_binary.
  set (e' := Z.min _ _). set (m' := match _ with Z0 => _ | _ => _ end).
  assert (0 <= m') as Hm'.
  { unfold m'. destruct (0 - 0 - e') eqn:E; [lia| |lia]. by apply Z.shiftl_nonneg. }
  destruct (Z.div_eucl m' (Z.pos d)) as [q r] eqn:Eq.
  assert (0 <= q) as Hq.
  { replace q with (m' / Z.pos d) by (unfold Z.div; by rewrite Eq). apply Z.div_pos; lia. }
  pose proof (round_aux_number (xorb neg false) q e' (new_location (Z.pos d) r) Hq) as Hn.
  destruct (binary_round_aux _ _ _ _ _ _); [by intros [= <-]|done|done|by intros [= <-]].
Qed.

Lemma number_nonneg ds : Forall (fun c => isdigit c = true) ds -> 0 <= number ds.
Proof.
  induction ds as [|c ds IH] using rev_ind; [done|]. intros [Hds Hc]%Forall_app. rewrite number_snoc.
  apply Forall_cons in Hc as [Hc%isdigit_range _]. specialize (IH Hds). lia.
Qed.

Lemma parse_double_finite s x s' : parse_double s = (Some x, s') -> is_finite x.
Proof.
  unfold parse_double. destruct (sign _) as [neg r]. destruct (span _ r) as [[|t ts] r']; [done|].
  intros [= H _]. revert H. unfold from_chars_double.
  pose proof (span_all isdigit (t :: ts)) as Hip. destruct (span isdigit (t :: ts)) as [ip r2]. cbn [fst] in Hip.
  set (fp := if starts_with _ _ then _ else _).
  assert (Forall (fun c => isdigit c = true) fp) as Hfp.
  { unfold fp. destruct (starts_with _ _); [apply span_all|constructor]. }
  pose proof (Forall_app_2 _ _ _ Hip Hfp) as Hd. destruct (ip ++ fp); [done|]. apply decimal_finite. by apply number_nonneg.
Qed.

Definition row_in_range (row : BookRow) : Prop :=
  0 <= row_order_id row < 2 ^ 63 /\ is_finite (row_price row) /\ is_finite (row_amount row).

Lemma parse_row_range s row s' : parse_row s = (Some row, s') -> row_in_range row.
Proof.
  unfold parse_row, then_expect. destruct (expect (ch "[") s) as [[] s1]; [|done].
  destruct (parse_u64 s1) as [[id|] s2] eqn:Eid; [|done]. cbn [bind]. destruct (expect _ s2) as [[] s3]; [|done].
  destruct (parse_double s3) as [[p|] s4] eqn:Ep; [|done]. cbn [bind]. destruct (expect _ s4) as [[] s5]; [|done].
  destruct (parse_double s5) as [[a|] s6] eqn:Ea; [|done]. cbn [bind]. destruct (expect _ s6) as [[] s7]; [|done].
  intros [= <- _]. apply parse_u64_range in Eid. split_and!; [apply Eid..| |]; by eapply parse_double_finite.
Qed.

Lemma rows_loop_range fuel : forall s rows vs s', Forall row_in_range rows ->
  parse_rows_loop fuel s rows = (Some vs, s') -> Forall row_in_range vs /\ vs <> [].
Proof.
  induction fuel as [|fuel IH]; [done|]. intros s rows vs s' Hrows. cbn [parse_rows_loop].
  destruct (parse_row s) as [[row|] s1] eqn:Er; [|done]. cbn [bind]. apply parse_row_range in Er.
  assert (Forall row_in_range (rows ++ [row])) as H by (apply Forall_app; auto).
  destruct (starts_with _ _); [intros [= <- _]; split; [done|by destruct rows]|].
  unfold then_expect. destruct (expect _ _) as [[] s2]; [|done]. by apply IH.
Qed.

Definition channel_ok (n : Z) : Prop := - 2 ^ 63 <= n < 2 ^ 63.
Definition sequence_ok (n : Z) : Prop := 0 <= n < 2 ^ 63.

(** What the state machine may rely on, whatever the text was. *)
Definition frame_in_range (f : ParsedFrame) : Prop :=
  match pf_kind f with
  | KindNone => False
  | KindSnapshot =>
      channel_ok (sf_channel_id (pf_snapshot f)) /\ sequence_ok (sf_sequence (pf_snapshot f)) /\
      sf_rows (pf_snapshot f) <> [] /\ Forall row_in_range (sf_rows (pf_snapshot f))
  | KindUpdate =>
      channel_ok (uf_channel_id (pf_update f)) /\ sequence_ok (uf_sequence (pf_update f)) /\
      row_in_range (uf_row (pf_update f))
  | KindHeartbeat => True
  | KindControl => pf_control_event f <> []
  end.

Lemma parse_snapshot_range chan s f : channel_ok chan -> starts_with (ch "[") s = true ->
  starts_with (ch "[") (skip_ws (tail s)) = true -> parse_snapshot chan s = Some f -> frame_in_range f.
Proof.
  intros Hc Hs Ht. unfold parse_snapshot. destruct s as [|c s]; [done|]. apply Z.eqb_eq in Hs as ->. cbn [tail] in Ht.
  unfold parse_snapshot_rows, then_expect. replace (expect (ch "[") (ch "[" :: s)) with (true, s) by done. cbv iota beta zeta.
  rewrite (other_start _ (ch "]") _ Ht) by done. destruct (parse_rows_loop _ _ _) as [[rows|] s1] eqn:El; [|done].
  apply rows_loop_range in El as [Hr Hne]; [|constructor].
  assert (forall q s', (let '(sequence, s) := (q, s') in
    if starts_with (ch "]") (skip_ws s) then
      Some (mkParsed KindSnapshot (mkSnapshotFrame chan rows sequence) (pf_update parsed_init) []) else None) = Some f ->
    sequence_ok q -> frame_in_range f) as Hf.
  { intros q s'. cbv iota beta. destruct (starts_with (ch "]") _); [|done]. by intros [= <-]. }
  destruct (starts_with (ch ",") _).
  - destruct (parse_u64 _) as [[q|] s2] eqn:Eq.
    + intros H. eapply Hf; [exact H|by apply parse_u64_range in Eq].
    + intros H. eapply Hf; [exact H|]. unfold sequence_ok. lia.
  - intros H. eapply Hf; [exact H|]. unfold sequence_ok. lia.
Qed.

Lemma parse_update_range chan s f : channel_ok chan -> parse_update chan s = Some f -> frame_in_range f.
Proof.
  intros Hc. unfold parse_update. destruct (parse_row s) as [[row|] s1] eqn:Er; [|done]. apply parse_row_range in Er.
  cbv zeta. destruct (starts_with _ _).
  - destruct (parse_u64 _) as [[q|] s2] eqn:Eq; cbn [fst]; [|done]. intros [= <-]. by apply parse_u64_range in Eq.
  - intros [= <-]. unfold frame_in_range, sequence_ok. simpl. split_and!; (apply Hc || apply Er || lia).
Qed.

(** C40. Whatever the text, an accepted frame is within range: a snapshot has a
    row, order ids and sequence numbers lie below 2^63, the channel fits an
    [int64_t], and every price and amount is a finite number. *)
Theorem accepted_frame_in_range json f : parse_frame json = Some f -> frame_in_range f.
Proof.
  unfold parse_frame. destruct (expect (ch "[") json) as [[] s]; cbn [negb].
  - destruct (parse_i64 s) as [[chan|] s1] eqn:Ec; [|done]. apply parse_i64_range in Ec.
    destruct (expect _ s1) as [[] s2]; [|done]. cbn [negb]. cbv zeta. destruct (starts_with 34 _).
    + destruct (fst _); [|done]. case_bool_decide; [|done]. by intros [= <-].
    + destruct (starts_with (ch "[") (skip_ws s2)) eqn:Es; [|done].
      destruct (starts_with (ch "[") (skip_ws (tail _))) eqn:Et; [by apply parse_snapshot_range|by apply parse_update_range].
  - destruct (expect _ s) as [[] s1]; [|done]. unfold parse_control. destruct (control_loop _ _ _) eqn:E; [done|].
    by intros [= <-].
Qed.

(** ** Witnesses *)

Definition lit (neg : bool) (i f : string) : Literal := mkLiteral neg (chars i) (chars f).

Definition sample_rows : list (Z * Literal * Literal) :=
  [(238803645123, lit false "95000" "5", lit false "0" "01"); (238803645124, lit false "95001" "0", lit true "0" "02")].

#[export] Instance lit_ok_dec l : Decision (lit_ok l).
Proof. unfold lit_ok. apply _. Defined.

#[export] Instance row_ok_dec r : Decision (row_ok r).
Proof. destruct r as [[id p] a]. unfold row_ok. apply _. Defined.

Lemma snapshot_read_witness :
  parse_frame (snapshot_text [32] 88 sample_rows 1) =
  Some (mkParsed KindSnapshot (mkSnapshotFrame 88
    [mkRow 238803645123 (dlit 950005 10) (dlit 1 100); mkRow 238803645124 (of_Z 95001) (dneg (dlit 2 100))] 1)
    (pf_update parsed_init) []).
Proof.
  apply (snapshot_frame_read [32] ltac:(repeat constructor) 88 sample_rows); [lia|lia|done| |vm_compute; reflexivity].
  apply (bool_decide_unpack _). vm_compute. exact I.
Defined.

Lemma accepted_range_witness :
  frame_in_range (mkParsed KindUpdate (pf_snapshot parsed_init) (mkUpdateFrame 88 (mkRow 238803645123 dzero (of_Z 1)) 3) []).
Proof. exact (accepted_frame_in_range _ _ fixture_remove_bid). Defined.
