(* ===== verification/DecimalText.v ===== *)
(** * A double written with 17 significant digits

    [std::ostream] with [std::setprecision(17)], as the sidecar file of the
    Bitfinex feed is written (src/live/bitfinex/snapshot_sidecar.cpp): the 17
    digits nearest to the value without trailing zeros, with an exponent when
    the value is below [10 ^ -4] or not below [10 ^ 17].

    Without an exponent the text is the literal of a decimal number, and
    reading that gives the double back ([literal_read_back]): 17 digits are
    enough because half a unit of the last digit is less than half the
    distance between two doubles. *)

From S2P Require Import Prelude Wire Floats Rounding Bitfinex WireParse.

#[local] Open Scope list_scope.
#[local] Open Scope Z_scope.

(** ** The text *)

(** How many digits [n] has. The largest double has 309, the least positive
    one a 324th part of which is needed. *)
Definition digit_count (n : Z) : Z := Z.of_nat (length (decimal_digits 330 n)).

(** The [x] with [10 ^ x <= num / den < 10 ^ (x + 1)]. *)
Definition decimal_exponent (num den : Z) : Z :=
  if den <=? num then digit_count (num / den) - 1 else - digit_count ((den - 1) / num).

(** The integer nearest to [a / b], ties to even. *)
Definition div_even (a b : Z) : Z :=
  let q := a / b in
  match 2 * (a mod b) ?= b with Lt => q | Gt => q + 1 | Eq => if Z.even q then q else q + 1 end.

(** The 17 digits, as a number, and the exponent of the first. *)
Definition significant (num den : Z) : Z * Z :=
  let x := decimal_exponent num den in
  let d := if x <=? 16 then div_even (num * 10 ^ (16 - x)) den else div_even num (den * 10 ^ (x - 16)) in
  if d =? 10 ^ 17 then (10 ^ 16, x + 1) else (d, x).

Definition strip_zeros (ds : list Z) : list Z := rev (snd (span (fun c => c =? ch "0") (rev ds))).

Definition point (ip fp : list Z) : list Z := ip ++ match strip_zeros fp with [] => [] | f => ch "." :: f end.

Definition exponent_text (x : Z) : list Z :=
  [ch "e"; if x <? 0 then ch "-" else ch "+"] ++ (if Z.abs x <? 10 then [ch "0"] else []) ++ decimal_digits 3 (Z.abs x).

Definition minus (s : bool) : list Z := if s then [ch "-"] else [].

Definition fraction (m : positive) (e : Z) : Z * Z := (Z.pos m * 2 ^ Z.max e 0, 2 ^ Z.max (- e) 0).

Definition format_g17 (m : positive) (e : Z) : list Z :=
  let '(d, x) := significant (fraction m e).1 (fraction m e).2 in
  let ds := decimal_digits 17 d in
  if (x <? -4) || (17 <=? x) then point (take 1 ds) (drop 1 ds) ++ exponent_text x
  else if x <? 0 then point [ch "0"] (replicate (Z.to_nat (- x - 1)) (ch "0") ++ ds)
  else point (take (S (Z.to_nat x)) ds) (drop (S (Z.to_nat x)) ds).

Definition double_text (v : double) : list Z :=
  match v with
  | S754_nan => chars "nan"
  | S754_infinity s => minus s ++ chars "inf"
  | S754_zero s => minus s ++ [ch "0"]
  | S754_finite s m e => minus s ++ format_g17 m e
  end.

Example text_half : double_text (dlit 5 10) = chars "0.5". Proof. vm_compute. reflexivity. Qed.
Example text_tenth : double_text (dlit (-1) 10) = chars "-0.10000000000000001". Proof. vm_compute. reflexivity. Qed.
Example text_large : double_text (dlit 12345678 1) = chars "12345678". Proof. vm_compute. reflexivity. Qed.
Example text_small : double_text (dlit 1 100000) = chars "1.0000000000000001e-05". Proof. vm_compute. reflexivity. Qed.
Example text_huge : double_text (S754_finite false (2 ^ 53 - 1) 971) = chars "1.7976931348623157e+308". Proof. vm_compute. reflexivity. Qed.
Example text_least : double_text (S754_finite false 1 (-1074)) = chars "4.9406564584124654e-324". Proof. vm_compute. reflexivity. Qed.

(** ** The digits are within half a unit *)

Lemma digit_count_spec n : 1 <= n < 10 ^ 330 -> 1 <= digit_count n /\ 10 ^ (digit_count n - 1) <= n < 10 ^ digit_count n.
Proof.
  unfold digit_count. change 330 with (Z.of_nat 330). generalize 330%nat. intros fuel. revert n.
  induction fuel as [|fuel IH]; intros n Hn; [simpl in Hn; lia|].
  rewrite Nat2Z.inj_succ, Z.pow_succ_r in Hn by lia. cbn [decimal_digits]. rewrite length_app. cbn [length].
  pose proof (Z.div_mod n 10 ltac:(lia)) as Hd. pose proof (Z.mod_pos_bound n 10 ltac:(lia)) as Hm. destruct (n <? 10) eqn:E; zbool.
  - cbn [length]. change (Z.of_nat (0 + 1)) with 1. change (10 ^ (1 - 1)) with 1. change (10 ^ 1) with 10. lia.
  - destruct (IH (n / 10)) as (H1 & H2 & H3); [split; [apply Z.div_le_lower_bound; lia|apply Z.div_lt_upper_bound; lia]|].
    rewrite Nat2Z.inj_add. change (Z.of_nat 1) with 1. set (c := Z.of_nat (length _)) in *.
    replace (c + 1 - 1) with (Z.succ (c - 1)) by lia. rewrite Z.pow_succ_r by lia. replace (c + 1) with (Z.succ c) by lia. rewrite Z.pow_succ_r by lia. lia.
Qed.

Lemma decimal_digits_length fuel : forall n, 10 ^ (Z.of_nat fuel - 1) <= n < 10 ^ Z.of_nat fuel -> length (decimal_digits fuel n) = fuel.
Proof.
  induction fuel as [|fuel IH]; intros n Hn; [done|]. cbn [decimal_digits]. rewrite length_app. cbn [length].
  pose proof (Z.div_mod n 10 ltac:(lia)) as Hd. pose proof (Z.mod_pos_bound n 10 ltac:(lia)) as Hm.
  replace (Z.of_nat (S fuel) - 1) with (Z.of_nat fuel) in Hn by lia. rewrite Nat2Z.inj_succ, Z.pow_succ_r in Hn by lia.
  destruct (n <? 10) eqn:E; zbool.
  - destruct fuel as [|fuel]; [done|]. pose proof (Z.pow_le_mono_r 10 1 (Z.of_nat (S fuel))). lia.
  - destruct fuel as [|fuel]; [simpl in Hn; lia|]. rewrite IH; [lia|].
    replace (Z.of_nat (S fuel)) with (Z.succ (Z.of_nat (S fuel) - 1)) in Hn at 1 by lia. rewrite Z.pow_succ_r in Hn by lia.
    split; [apply Z.div_le_lower_bound; lia|apply Z.div_lt_upper_bound; lia].
Qed.

Lemma div_below a d P : 0 <= a < P -> 0 < d -> a / d < P.
Proof. intros Ha Hd. apply Z.div_lt_upper_bound; [done|]. nia. Qed.

(** The exponent of a value below [10 ^ 17], times as much as makes 17 digits. *)
Lemma decimal_exponent_spec num den : 0 < num < 10 ^ 330 -> 0 < den < 10 ^ 330 -> let x := decimal_exponent num den in x <= 16 ->
  10 ^ 16 * den <= num * 10 ^ (16 - x) /\ num * 10 ^ (16 - x) < 10 ^ 17 * den.
Proof.
  intros Hn Hd x Hx. subst x. unfold decimal_exponent in *. destruct (den <=? num) eqn:E; zbool.
  - assert (1 <= num / den < 10 ^ 330) as Hq.
    { split; [apply Z.div_le_lower_bound; lia|apply div_below; lia]. }
    destruct (digit_count_spec _ Hq) as (Hc & H1 & H2). set (c := digit_count _) in *.
    pose proof (Z.mul_div_le num den ltac:(lia)) as H3. pose proof (Z.mul_succ_div_gt num den ltac:(lia)) as H4.
    replace (10 ^ 16) with (10 ^ (c - 1) * 10 ^ (16 - (c - 1))) by (rewrite <-Z.pow_add_r by lia; f_equal; lia).
    replace (10 ^ 17) with (10 ^ c * 10 ^ (16 - (c - 1))) by (rewrite <-Z.pow_add_r by lia; f_equal; lia).
    pose proof (Z.pow_pos_nonneg 10 (16 - (c - 1)) ltac:(lia) ltac:(lia)). set (T := 10 ^ (16 - (c - 1))) in *.
    set (A := 10 ^ (c - 1)) in *. set (B := 10 ^ c) in *. set (q := num / den) in *. clearbody q T A B.
    assert (A * den <= num) by nia. assert (num < B * den) as Hlt by nia. split; [|apply (Z.mul_lt_mono_pos_r T) in Hlt; lia].
    transitivity (A * den * T); [lia|]. apply Z.mul_le_mono_nonneg_r; lia.
  - assert (1 <= (den - 1) / num < 10 ^ 330) as Hq.
    { split; [apply Z.div_le_lower_bound; lia|apply div_below; lia]. }
    destruct (digit_count_spec _ Hq) as (Hc & H1 & H2). set (c := digit_count _) in *.
    pose proof (Z.mul_div_le (den - 1) num ltac:(lia)) as H3. pose proof (Z.mul_succ_div_gt (den - 1) num ltac:(lia)) as H4.
    replace (16 - - c) with (16 + c) by lia. rewrite Z.pow_add_r by lia. replace (10 ^ c) with (10 * 10 ^ (c - 1)) in * by (rewrite <-Z.pow_succ_r by lia; f_equal; lia).
    set (A := 10 ^ (c - 1)) in *. set (q := (den - 1) / num) in *. change (10 ^ 17) with (10 ^ 16 * 10). set (T := 10 ^ 16). assert (0 < T) by done. clearbody q T A.
    assert (den <= num * (10 * A)) as H5 by nia. assert (num * A < den) as H6 by nia.
    apply (Z.mul_le_mono_pos_l _ _ T) in H5; [|done]. apply (Z.mul_lt_mono_pos_l (T * 10)) in H6; [|lia]. lia.
Qed.

Lemma div_even_spec a b : 0 <= a -> 0 < b -> - b <= 2 * (div_even a b * b) - 2 * a <= b.
Proof.
  intros Ha Hb. unfold div_even. pose proof (Z.div_mod a b ltac:(lia)) as Hd. pose proof (Z.mod_pos_bound a b Hb) as Hm.
  set (q := a / b) in *. set (r := a mod b) in *. clearbody q r.
  destruct (Z.compare_spec (2 * r) b); [destruct (Z.even q)|..]; nia.
Qed.

Lemma div_even_range a b lo hi : 0 <= a -> 0 < b -> lo * b <= a -> a < hi * b -> lo <= div_even a b <= hi.
Proof. intros Ha Hb H1 H2. pose proof (div_even_spec a b Ha Hb). nia. Qed.

(** [d] digits and the exponent [x]: within half a unit of the 17th place, which
    is one further when rounding carried. *)
Lemma significant_spec num den d x : 0 < num < 10 ^ 330 -> 0 < den < 10 ^ 330 -> significant num den = (d, x) -> -4 <= x <= 16 ->
  10 ^ 16 <= d < 10 ^ 17 /\ exists b, 0 <= b <= 1 /\ 10 ^ 16 * den <= num * 10 ^ (16 - x + b) /\
    - den <= 2 * (d * 10 ^ b * den) - 2 * (num * 10 ^ (16 - x + b)) <= den.
Proof.
  intros Hn Hd. unfold significant. set (x0 := decimal_exponent num den). intros E Hx.
  assert (x0 <= 16) as Hx0 by (destruct (_ =? _) in E; injection E as _ <-; lia). replace (x0 <=? 16) with true in E by lia.
  pose proof (decimal_exponent_spec num den Hn Hd Hx0) as [H1 H2]. fold x0 in H1, H2. pose proof (Z.pow_pos_nonneg 10 (16 - x0) ltac:(lia) ltac:(lia)) as HT.
  assert (0 <= num * 10 ^ (16 - x0)) as Ha by lia. pose proof (div_even_spec _ den Ha ltac:(lia)) as Hs.
  pose proof (div_even_range _ den _ _ Ha ltac:(lia) H1 H2) as Hr. destruct (Z.eqb_spec (div_even (num * 10 ^ (16 - x0)) den) (10 ^ 17)) as [Hc|Hc].
  - injection E as <- <-. split; [lia|]. exists 1. replace (16 - (x0 + 1) + 1) with (16 - x0) by lia. rewrite Hc in Hs.
    change (10 ^ 16 * 10 ^ 1) with (10 ^ 17). split_and!; lia.
  - injection E as <- <-. split; [lia|]. exists 0. rewrite !Z.add_0_r, Z.mul_1_r. split_and!; lia.
Qed.

(** ** 17 digits are enough *)

Lemma bounded_normal m e : bounded kPrec kEmax m e = true -> (fraction m e).2 <= 10 ^ 5 * (fraction m e).1 -> normal (Z.pos m) e.
Proof.
  unfold bounded, canonical_mantissa, fraction, normal. cbn [fst snd]. intros [Hc%Zeq_is_eq_bool He%Z.leb_le]%andb_true_iff Hbig. change (kEmax - kPrec) with 971 in He.
  unfold fexp, emin, kPrec, kEmax in Hc. rewrite digits2_pos_log in Hc. pose proof (Z.log2_spec (Z.pos m) ltac:(lia)) as Hl. pose proof (Z.log2_nonneg (Z.pos m)).
  set (l := Z.log2 (Z.pos m)) in *. assert (-75 <= e) as He2.
  { apply Z.nlt_ge. intros Hlt. rewrite Z.max_l, Z.max_r in Hbig by lia. rewrite Z.mul_1_r in Hbig.
    assert (l <= 52) as Hl52 by lia. pose proof (Z.pow_le_mono_r 2 (Z.succ l) 53 ltac:(lia) ltac:(lia)). pose proof (Z.pow_le_mono_r 2 75 (- e) ltac:(lia) ltac:(lia)). lia. }
  assert (l = 52) as Hl52 by lia. rewrite Hl52 in Hl. change (Z.succ 52) with 53 in Hl. lia.
Qed.

Lemma digits_nearest m e n j k b d p : bounded kPrec kEmax m e = true -> 0 <= j -> 0 <= k -> 0 <= b -> p <= 21 ->
  n * 10 ^ j = d -> k + j + b = p -> let num := (fraction m e).1 in let den := (fraction m e).2 in
  10 ^ 16 * den <= num * 10 ^ p -> - den <= 2 * (d * 10 ^ b * den) - 2 * (num * 10 ^ p) <= den -> nearest n (10 ^ k) (Z.pos m) e.
Proof.
  intros Hb Hj Hk Hb0 Hp21 Hn Hp num den Hlo Herr.
  assert (0 < den /\ 0 < num) as [Hden Hnum] by (unfold num, den, fraction; cbn [fst snd]; split; [|apply Z.mul_pos_pos; [lia|]]; apply Z.pow_pos_nonneg; lia).
  assert (normal (Z.pos m) e) as Hnorm.
  { apply bounded_normal; [done|]. fold num den. pose proof (Z.pow_le_mono_r 10 p 21 ltac:(lia) Hp21) as Hp10.
    assert (num * 10 ^ p <= num * 10 ^ 21) by (apply Z.mul_le_mono_nonneg_l; lia). lia. }
  split; [done|]. destruct Hnorm as [Hm He]. unfold near. set (U := 2 ^ 1100). set (P := 2 ^ (e + 1100)). set (w := 2 ^ Z.max e 0).
  assert (num = Z.pos m * w) as Enum by done. assert (P * den = U * w) as HPU.
  { unfold P, den, U, w, fraction. cbn [snd]. rewrite <-!Z.pow_add_r by lia. f_equal. lia. }
  assert (10 ^ p = 10 ^ k * 10 ^ j * 10 ^ b) as ET by (rewrite <-!Z.pow_add_r by lia; f_equal; lia). subst d.
  pose proof (Z.pow_pos_nonneg 10 k ltac:(lia) Hk) as H10k. pose proof (Z.pow_pos_nonneg 10 j ltac:(lia) Hj) as H10j. pose proof (Z.pow_pos_nonneg 10 b ltac:(lia) Hb0) as H10b.
  assert (0 < U) as HU by (by apply Z.pow_pos_nonneg). set (K := 10 ^ k) in *. set (J := 10 ^ j * 10 ^ b).
  assert (0 < J) as HJ by (by apply Z.mul_pos_pos). replace (n * 10 ^ j * 10 ^ b) with (n * J) in Herr by (unfold J; lia). replace (10 ^ p) with (K * J) in * by (unfold J; lia).
  assert (0 < w) as Hw by (apply Z.pow_pos_nonneg; lia). rewrite Enum in *. clearbody U P w den K J num.
  set (W := K * J * w) in *. assert (Z.pos m * w * (K * J) = Z.pos m * W) as EW by (unfold W; lia). rewrite EW in *.
  assert (den < W) as HdW.
  { change (10 ^ 16) with 10000000000000000 in Hlo. change (2 ^ 53) with 9007199254740992 in Hm. nia. }
  assert (forall c z, c * (K * P) < z * (n * U) <-> c * W < z * (n * J * den)) as Hscale.
  { intros c z. rewrite (Z.mul_lt_mono_pos_r (J * den)) by (by apply Z.mul_pos_pos).
    replace (c * (K * P) * (J * den)) with (c * W * U) by (unfold W; transitivity (c * K * J * (P * den)); [rewrite HPU|]; lia).
    replace (z * (n * U) * (J * den)) with (z * (n * J * den) * U) by lia. by rewrite <-Z.mul_lt_mono_pos_r. }
  assert (forall c z, z * (n * U) < c * (K * P) <-> z * (n * J * den) < c * W) as Hscale2.
  { intros c z. rewrite (Z.mul_lt_mono_pos_r (J * den)) by (by apply Z.mul_pos_pos).
    replace (c * (K * P) * (J * den)) with (c * W * U) by (unfold W; transitivity (c * K * J * (P * den)); [rewrite HPU|]; lia).
    replace (z * (n * U) * (J * den)) with (z * (n * J * den) * U) by lia. by rewrite <-Z.mul_lt_mono_pos_r. }
  rewrite Hscale, Hscale2. split_and!; [lia|lia|]. intros Em. rewrite Hscale, Em in *.
  change (10 ^ 16) with 10000000000000000 in Hlo. change (2 ^ 52) with 4503599627370496 in *. lia.
Qed.

(** ** The literal *)

Lemma number_zeros_after ds j : number (ds ++ replicate j 48) = number ds * 10 ^ Z.of_nat j.
Proof.
  induction j as [|j IH]; [rewrite app_nil_r; simpl; lia|].
  rewrite replicate_S_end, app_assoc, number_snoc, IH, Nat2Z.inj_succ, Z.pow_succ_r by lia. lia.
Qed.

Lemma number_zeros_before ds j : number (replicate j 48 ++ ds) = number ds.
Proof. induction j as [|j IH]; [done|]. cbn [replicate app]. rewrite <-IH. done. Qed.

Lemma span_zeros s : exists j, (span (fun c => c =? ch "0") s).1 = replicate j 48.
Proof.
  pose proof (span_all (fun c => c =? ch "0") s) as H. exists (length (span (fun c => c =? ch "0") s).1).
  symmetry. apply replicate_as_elem_of. split; [done|]. intros c Hc. rewrite Forall_forall in H. specialize (H c Hc). cbn beta in H. zbool. done.
Qed.

Lemma rev_same {A} j (x : A) : rev (replicate j x) = replicate j x.
Proof. induction j as [|j IH]; [done|]. cbn [replicate rev]. by rewrite IH, <-replicate_S_end. Qed.

Lemma strip_zeros_app ds : exists j, ds = strip_zeros ds ++ replicate j 48.
Proof.
  unfold strip_zeros. pose proof (span_app_eq (fun c => c =? ch "0") (rev ds)) as H. destruct (span_zeros (rev ds)) as [j Hj].
  destruct (span _ (rev ds)) as [a r]. cbn [fst snd] in *. exists j. subst a.
  rewrite <-(rev_involutive ds), <-H, rev_app_distr. f_equal. by rewrite rev_same.
Qed.

(** An integer part of [i] digits and what follows is the literal of
    [d / 10 ^ p]. *)
Lemma point_literal s ip fp : ip <> [] -> Forall (fun c => isdigit c = true) (ip ++ fp) ->
  exists l j, lit_ok l /\ minus s ++ point ip fp = lit_text l /\ lit_neg l = s /\
    number (lit_int l ++ lit_frac l) * 10 ^ Z.of_nat j = number (ip ++ fp) /\ (length (lit_frac l) + j)%nat = length fp.
Proof.
  intros Hne Hd. destruct (strip_zeros_app fp) as [j Hj]. exists (mkLiteral s ip (strip_zeros fp)), j. unfold lit_ok, lit_text. cbn [lit_neg lit_int lit_frac].
  split_and!; try done.
  - rewrite Hj, app_assoc in Hd. by apply Forall_app in Hd as [? _].
  - rewrite <-number_zeros_after, <-app_assoc. by rewrite <-Hj.
  - rewrite Hj at 2. by rewrite length_app, length_replicate.
Qed.

(** Without an exponent the text is a literal of the digits. *)
Lemma format_literal s m e d x : significant (fraction m e).1 (fraction m e).2 = (d, x) -> 10 ^ 16 <= d < 10 ^ 17 -> -4 <= x <= 16 ->
  exists l j, lit_ok l /\ minus s ++ format_g17 m e = lit_text l /\ lit_neg l = s /\
    number (lit_int l ++ lit_frac l) * 10 ^ Z.of_nat j = d /\ Z.of_nat (length (lit_frac l)) + Z.of_nat j = 16 - x.
Proof.
  intros E Hd Hx. unfold format_g17. rewrite E. replace ((x <? -4) || (17 <=? x)) with false by lia.
  pose proof (decimal_digits_digits 17 d) as Hdig. assert (length (decimal_digits 17 d) = 17%nat) as Hlen by (by apply decimal_digits_length).
  assert (number (decimal_digits 17 d) = d) as Hnum by (apply decimal_digits_number; lia). set (ds := decimal_digits 17 d) in *. clearbody ds.
  destruct (x <? 0) eqn:Ex; zbool.
  - destruct (point_literal s [ch "0"] (replicate (Z.to_nat (- x - 1)) (ch "0") ++ ds)) as (l & j & H1 & H2 & H3 & H4 & H5); [done|..].
    { constructor; [done|]. apply Forall_app. split; [|done]. by apply Forall_replicate. }
    exists l, j. split_and!; try done.
    + rewrite H4. cbn [app]. change (ch "0" :: replicate (Z.to_nat (- x - 1)) (ch "0") ++ ds) with (replicate (S (Z.to_nat (- x - 1))) 48 ++ ds).
      by rewrite number_zeros_before.
    + rewrite length_app, length_replicate in H5. lia.
  - destruct (point_literal s (take (S (Z.to_nat x)) ds) (drop (S (Z.to_nat x)) ds)) as (l & j & H1 & H2 & H3 & H4 & H5).
    { destruct ds; [done|]. done. }
    { by rewrite take_drop. }
    exists l, j. rewrite take_drop in H4. split_and!; try done; [by rewrite H4|]. rewrite length_drop in H5. lia.
Qed.

(** A finite double written without an exponent. *)
Definition plain (v : double) : Prop :=
  match v with
  | S754_zero _ => True
  | S754_finite s m e => bounded kPrec kEmax m e = true /\ -4 <= (significant (fraction m e).1 (fraction m e).2).2 <= 16
  | _ => False
  end.

#[export] Instance plain_dec v : Decision (plain v).
Proof. destruct v; cbn [plain]; apply _. Defined.

Lemma fraction_range m e : bounded kPrec kEmax m e = true -> 0 < (fraction m e).1 < 10 ^ 330 /\ 0 < (fraction m e).2 < 10 ^ 330.
Proof.
  unfold bounded, canonical_mantissa, fraction. cbn [fst snd]. intros [Hc%Zeq_is_eq_bool He%Z.leb_le]%andb_true_iff. change (kEmax - kPrec) with 971 in He.
  unfold fexp, emin, kPrec, kEmax in Hc. rewrite digits2_pos_log in Hc. pose proof (Z.log2_spec (Z.pos m) ltac:(lia)) as Hl. pose proof (Z.log2_nonneg (Z.pos m)) as Hl0.
  set (l := Z.log2 (Z.pos m)) in *. assert (2 ^ 1080 < 10 ^ 330) as Hbig by (by vm_compute).
  pose proof (Z.pow_pos_nonneg 2 (Z.max e 0) ltac:(lia) ltac:(lia)). pose proof (Z.pow_pos_nonneg 2 (Z.max (- e) 0) ltac:(lia) ltac:(lia)).
  split; split; [lia| |lia|].
  - apply (Z.lt_le_trans _ (2 ^ (Z.succ l) * 2 ^ Z.max e 0)); [apply Z.mul_lt_mono_pos_r; lia|]. rewrite <-Z.pow_add_r by lia.
    transitivity (2 ^ 1080); [apply Z.pow_le_mono_r; lia|lia].
  - apply (Z.le_lt_trans _ (2 ^ 1080)); [apply Z.pow_le_mono_r; lia|done].
Qed.

(** What the literal's number says of the double: no bits were lost below the
    least normal one. *)
Definition unlost (v : double) (l : Literal) : Prop :=
  match v with
  | S754_zero _ => number (lit_int l ++ lit_frac l) = 0
  | S754_finite _ m _ => 2 ^ 52 <= Z.pos m
  | _ => False
  end.

(** A double written without an exponent is a literal whose value, correctly
    rounded, is the double. *)
Theorem literal_read_back v : plain v -> exists l, lit_ok l /\ double_text v = lit_text l /\ lit_value l = Some v /\ unlost v l.
Proof.
  destruct v as [s|s| |s m e]; cbn [plain]; try done.
  { intros _. exists (mkLiteral s [ch "0"] []). split_and!; [split; [done|by repeat constructor]|by destruct s|done|done]. }
  intros [Hb Hx]. destruct (significant _ _) as [d x] eqn:E. cbn [snd] in Hx. destruct (fraction_range m e Hb) as [Hn Hd].
  destruct (significant_spec _ _ d x Hn Hd E Hx) as (Hd17 & b & Hb01 & Hlo & Herr).
  destruct (format_literal s m e d x E Hd17 Hx) as (l & j & Hok & Ht & Hs & Hnum & Hlen). exists l. split; [done|]. split; [exact Ht|].
  unfold lit_value, decimal, unlost. rewrite Hs. set (k := length (lit_frac l)) in *. set (n := number (lit_int l ++ lit_frac l)) in *.
  assert (nearest n (10 ^ Z.of_nat k) (Z.pos m) e) as Hnear.
  { by apply (digits_nearest m e n (Z.of_nat j) (Z.of_nat k) b d (16 - x + b)); try lia. }
  pose proof (Z.pow_pos_nonneg 10 (Z.of_nat j) ltac:(lia) ltac:(lia)) as HJ. pose proof (Z.pow_pos_nonneg 10 (Z.of_nat k) ltac:(lia) ltac:(lia)) as HK.
  pose proof (Z.pow_le_mono_r 10 (Z.of_nat k) 20 ltac:(lia) ltac:(lia)) as HK2.
  destruct n as [|n|n]; [lia| |lia]. destruct (10 ^ Z.of_nat k) as [|dd|dd]; [lia| |lia].
  rewrite (ddiv_nearest s n dd (Z.pos m) e); [split; [done|destruct Hnear as [[Hm52 _] _]; lia]| |done].
  rewrite !digits2_log by lia. pose proof (Z.log2_nonneg (Z.pos n)). pose proof (Z.log2_le_mono _ _ HK2) as Hlog. change (Z.log2 (10 ^ 20)) with 66 in Hlog. lia.
Qed.
