(* ===== verification/Sidecar.v ===== *)
(** * The sidecar file of a snapshot (src/live/bitfinex/snapshot_sidecar.cpp)

    [write_sidecar] renders a snapshot as JSON, [read_sidecar] looks for keys in
    the text, without parsing it. A position in the text is the suffix that
    starts there.

    A sidecar whose numbers are written without an exponent is read back with
    its symbol and every row as it was ([sidecar_read_back]); not so the version,
    the sequence number and the time, which are never read, nor a symbol with a
    quote or a backslash. An amount below [10 ^ -4] is written with an exponent,
    which the reader stops at: it comes back ten thousand times as large or more
    ([small_amount_misread]).

    That the file opens is a parameter; what a full disk does to the write is
    not modelled. *)

From S2P Require Import Prelude Wire Floats Rounding Bitfinex WireParse DecimalText.

#[local] Open Scope list_scope.
#[local] Open Scope Z_scope.

Record SnapshotSidecar := mkSidecar {
  sc_version : Z; sc_symbol : list Z; sc_cut_sequence : Z; sc_exchange_ts_ns : Z; sc_rows : list BookRow;
}.

Definition sidecar_default : SnapshotSidecar := mkSidecar 1 [] 0 0 [].

Definition sidecar_path_for_journal (journal_path : list Z) : list Z := journal_path ++ chars ".snapshot.json".

(** ** Writing *)

Definition quote : Z := 34.
Definition newline : Z := 10.
Definition quoted (s : list Z) : list Z := [quote] ++ s ++ [quote].
Definition key (s : string) : list Z := quoted (chars s).

Definition escape_json (s : list Z) : list Z :=
  concat (map (fun c => if (c =? quote) || (c =? ch "\") then [ch "\"; c] else [c]) s).

(** An unsigned integer of 64 bits. *)
Definition u64_text (n : Z) : list Z := decimal_digits 20 n.

Definition sidecar_row (r : BookRow) (last : bool) : list Z :=
  chars "    {" ++ key "order_id" ++ chars ": " ++ u64_text (row_order_id r) ++ chars ", " ++ key "price" ++ chars ": " ++ double_text (row_price r) ++
  chars ", " ++ key "amount" ++ chars ": " ++ double_text (row_amount r) ++ chars "}" ++ (if last then [] else [ch ","]) ++ [newline].

Fixpoint sidecar_rows (rows : list BookRow) : list Z :=
  match rows with
  | [] => []
  | r :: rows => sidecar_row r (match rows with [] => true | _ => false end) ++ sidecar_rows rows
  end.

Definition sidecar_text (sc : SnapshotSidecar) : list Z :=
  chars "{" ++ [newline] ++
  chars "  " ++ key "version" ++ chars ": " ++ u64_text (sc_version sc) ++ chars "," ++ [newline] ++
  chars "  " ++ key "symbol" ++ chars ": " ++ quoted (escape_json (sc_symbol sc)) ++ chars "," ++ [newline] ++
  chars "  " ++ key "cut_sequence" ++ chars ": " ++ u64_text (sc_cut_sequence sc) ++ chars "," ++ [newline] ++
  chars "  " ++ key "exchange_ts_ns" ++ chars ": " ++ u64_text (sc_exchange_ts_ns sc) ++ chars "," ++ [newline] ++
  chars "  " ++ key "rows" ++ chars ": [" ++ [newline] ++ sidecar_rows (sc_rows sc) ++ chars "  ]" ++ [newline] ++ chars "}" ++ [newline].

(** The result, and the file when it could be opened. *)
Definition write_sidecar (opens : bool) (sc : SnapshotSidecar) : bool * option (list Z) :=
  if opens then (true, Some (sidecar_text sc)) else (false, None).

(** ** Reading *)

Fixpoint begins (needle s : list Z) : bool :=
  match needle, s with
  | [], _ => true
  | a :: needle, b :: s => (a =? b) && begins needle s
  | _ :: _, [] => false
  end.

(** [json.find(needle, pos)] *)
Fixpoint find_text (needle s : list Z) : option (list Z) :=
  if begins needle s then Some s else match s with [] => None | _ :: s => find_text needle s end.

(** The text from one position to a later one. *)
Definition text_between (a b : list Z) : list Z := take (length a - length b) a.

Definition read_symbol (json : list Z) : list Z :=
  match find_text (key "symbol") json with
  | None => []
  | Some s =>
      match find_text [quote] (drop 8 s) with
      | None => []
      | Some q1 => match find_text [quote] (tail q1) with None => [] | Some q2 => text_between (tail q1) q2 end
      end
  end.

(** [std::stod] of digits, dots and minus signs: the longest number it begins
    with. A value too large, or too small to be exact, is an error. *)
Definition underflows (v : double) (n : Z) (k : nat) : bool :=
  match v with
  | S754_zero _ => 0 <? n
  | S754_finite _ m e => (Z.pos m <? 2 ^ 52) && negb (Z.pos m * 10 ^ Z.of_nat k =? n * 2 ^ (- e))
  | _ => false
  end.

Definition stod (text : list Z) : option double :=
  let '(neg, r) := sign text in
  let '(ip, r) := span isdigit r in
  let fp := if starts_with (ch ".") r then fst (span isdigit (tail r)) else [] in
  match ip ++ fp with
  | [] => None
  | digits =>
      match decimal neg (number digits) (length fp) with
      | Some v => if underflows v (number digits) (length fp) then None else Some v
      | None => None
      end
  end.

Definition number_char (c : Z) : bool := (c =? ch "-") || (c =? ch ".") || isdigit c.

(** [parse_num]: from the key at [s]. *)
Definition parse_num (s : list Z) : option double :=
  match find_text [ch ":"] s with
  | None => None
  | Some c => stod (span number_char (span (fun c => (c =? ch " ") || (c =? 9)) (tail c)).2).1
  end.

(** [oid = oid * 10 + digit] on 64 bits. *)
Definition parse_id (s : list Z) : Z :=
  fold_left (fun n c => u64 (n * 10 + (c - ch "0"))) (span isdigit (span (fun c => negb (isdigit c)) s).2).1 0.

Fixpoint sidecar_loop (fuel : nat) (s : list Z) (rows : list BookRow) : option (list BookRow) :=
  match fuel with
  | O => None
  | S fuel =>
      match find_text (key "order_id") s with
      | None => Some rows
      | Some pos =>
          match find_text [ch ":"] pos with
          | None => Some rows
          | Some p =>
              match find_text (key "price") pos, find_text (key "amount") pos with
              | Some price_key, Some amt_key =>
                  match parse_num price_key, parse_num amt_key with
                  | Some price, Some amount => sidecar_loop fuel (drop 8 amt_key) (rows ++ [mkRow (parse_id (tail p)) price amount])
                  | _, _ => Some rows
                  end
              | _, _ => Some rows
              end
          end
      end
  end.

(** The result and [out]; [file] is [None] when it cannot be opened. *)
Definition read_sidecar (file : option (list Z)) (out : SnapshotSidecar) : option (bool * SnapshotSidecar) :=
  match file with
  | None => Some (false, out)
  | Some json =>
      rows ← sidecar_loop (S (length json)) json [];
      let symbol := read_symbol json in
      Some (negb (bool_decide (rows = [])) || negb (bool_decide (symbol = [])), mkSidecar 1 symbol 0 0 rows)
  end.

(** An amount of five hundred-thousandths is read back as five. *)
Example small_amount_misread :
  let sc := mkSidecar 1 (chars "tBTCUSD") 7 9 [mkRow 5 (dlit 50000 1) (dlit 5 100000)] in
  read_sidecar (write_sidecar true sc).2 sidecar_default = Some (true, mkSidecar 1 (chars "tBTCUSD") 0 0 [mkRow 5 (dlit 50000 1) (dlit 50000000000000002 10000000000000000)]).
Proof. vm_compute. reflexivity. Qed.

(** ** Reading always ends *)

Lemma begins_length needle : forall s, begins needle s = true -> (length needle <= length s)%nat.
Proof.
  induction needle as [|a needle IH]; intros s Hs; [cbn; lia|]. destruct s as [|b s]; [done|].
  cbn [begins] in Hs. apply andb_true_iff in Hs as [_ Hs]. apply IH in Hs. cbn [length]. lia.
Qed.

Lemma find_text_begins needle s r : find_text needle s = Some r -> begins needle r = true /\ (length r <= length s)%nat.
Proof.
  revert r. induction s as [|c s IH]; intros r; cbn [find_text].
  - destruct (begins needle []) eqn:E; [|done]. intros [= <-]. split; [done|lia].
  - destruct (begins needle (c :: s)) eqn:E; [intros [= <-]; split; [done|lia]|]. intros Hr. apply IH in Hr as [H1 H2]. cbn [length]. split; [done|lia].
Qed.

Lemma sidecar_loop_total fuel : forall s rows, (length s < fuel)%nat -> exists rows', sidecar_loop fuel s rows = Some rows'.
Proof.
  induction fuel as [|fuel IH]; intros s rows Hf; [lia|]. cbn [sidecar_loop].
  destruct (find_text (key "order_id") s) as [pos|] eqn:Epos; [|by eexists]. destruct (find_text [ch ":"] pos); [|by eexists].
  destruct (find_text (key "price") pos); [|by eexists]. destruct (find_text (key "amount") pos) as [a|] eqn:Ea; [|by eexists].
  destruct (parse_num _); [|by eexists]. destruct (parse_num a); [|by eexists].
  apply find_text_begins in Epos as [_ Hpos], Ea as [Ha1 Ha2]. apply begins_length in Ha1. change (length (key "amount")) with 8%nat in Ha1.
  apply IH. rewrite length_drop. lia.
Qed.

(** Whatever the file holds, reading returns. *)
Theorem read_sidecar_total file out : exists ok sc, read_sidecar file out = Some (ok, sc).
Proof.
  destruct file as [json|]; [|by do 2 eexists]. cbn [read_sidecar]. destruct (sidecar_loop_total (S (length json)) json []) as [rows ->]; [lia|].
  by do 2 eexists.
Qed.

(** ** Text that holds no key *)

(** The two differ at a place that both have. *)
Fixpoint clash (needle s : list Z) : bool :=
  match needle, s with
  | a :: needle, b :: s => negb (a =? b) || clash needle s
  | _, _ => false
  end.

(** The needle begins at no place of [pre], whatever follows. *)
Fixpoint misses (needle pre : list Z) : bool :=
  match pre with [] => true | _ :: pre' => clash needle pre && misses needle pre' end.

Lemma clash_app needle : forall pre s, clash needle pre = true -> clash needle (pre ++ s) = true.
Proof.
  induction needle as [|a needle IH]; intros pre s H; [done|]. destruct pre as [|b pre]; [done|]. cbn [clash app] in *.
  apply orb_true_iff in H as [->|H]; [done|]. by rewrite (IH _ _ H), orb_true_r.
Qed.

Lemma clash_begins needle : forall s, clash needle s = true -> begins needle s = false.
Proof.
  induction needle as [|a needle IH]; intros s H; [done|]. destruct s as [|b s]; [done|]. cbn [clash begins] in *.
  destruct (a =? b); [by apply IH|done].
Qed.

Lemma misses_app needle a b : misses needle a = true -> misses needle b = true -> misses needle (a ++ b) = true.
Proof.
  intros Ha Hb. induction a as [|c a IH]; [done|]. cbn [misses app] in *. apply andb_true_iff in Ha as [H1 H2].
  rewrite IH by done. rewrite andb_true_r. by apply (clash_app needle (c :: a) b).
Qed.

Lemma misses_free n needle pre : Forall (fun c => c <> n) pre -> misses (n :: needle) pre = true.
Proof.
  induction 1 as [|c pre Hc _ IH]; [done|]. cbn [misses clash]. rewrite IH, andb_true_r. by replace (n =? c) with false by lia.
Qed.

Lemma find_misses needle pre s : misses needle pre = true -> find_text needle (pre ++ s) = find_text needle s.
Proof.
  induction pre as [|c pre IH]; [done|]. cbn [misses app find_text]. intros [H1 H2]%andb_true_iff.
  pose proof (clash_begins needle _ (clash_app needle (c :: pre) s H1)) as E. cbn [app] in E. rewrite E. by apply IH.
Qed.

Lemma begins_self needle s : begins needle (needle ++ s) = true.
Proof. induction needle as [|a needle IH]; [done|]. cbn [begins app]. by rewrite Z.eqb_refl. Qed.

Lemma find_here needle s : needle <> [] -> find_text needle (needle ++ s) = Some (needle ++ s).
Proof. intros Hne. destruct needle as [|a n]; [done|]. cbn [app find_text]. pose proof (begins_self (a :: n) s) as E. cbn [app] in E. by rewrite E. Qed.

Lemma find_after needle pre s : needle <> [] -> misses needle pre = true -> find_text needle (pre ++ needle ++ s) = Some (needle ++ s).
Proof. intros Hne Hm. by rewrite find_misses, find_here. Qed.

(** ** Numbers *)

Lemma number_char_range c : number_char c = true -> 45 <= c <= 57.
Proof. unfold number_char, isdigit. change (ch "-") with 45. change (ch ".") with 46. change (ch "0") with 48. change (ch "9") with 57. lia. Qed.

Lemma digit_number_char c : isdigit c = true -> number_char c = true.
Proof. intros H. unfold number_char. by rewrite H, orb_true_r. Qed.

Lemma lit_text_chars l : lit_ok l -> Forall (fun c => number_char c = true) (lit_text l).
Proof.
  intros [_ [Hi Hf]%Forall_app]. unfold lit_text. apply (List.Forall_impl _ digit_number_char) in Hi, Hf.
  apply Forall_app. split; [by destruct (lit_neg l); repeat constructor|]. apply Forall_app. split; [done|].
  destruct (lit_frac l); [done|]. by constructor.
Qed.

Lemma misses_number needle s : Forall (fun c => number_char c = true) s -> misses (quote :: needle) s = true.
Proof. intros H. apply misses_free. apply (List.Forall_impl _ (P := fun c => number_char c = true)); [|done]. intros c Hc%number_char_range. unfold quote. lia. Qed.

Lemma misses_digits needle n : misses (quote :: needle) (u64_text n) = true.
Proof. apply misses_number. eapply List.Forall_impl; [apply digit_number_char|]. apply decimal_digits_digits. Qed.

(** The text of a literal is converted to its value. *)
Lemma stod_literal l v : lit_ok l -> lit_value l = Some v -> unlost v l -> stod (lit_text l) = Some v.
Proof.
  intros Hl Hv Hun. destruct Hl as [Hne Hd]. pose proof Hd as [Hi Hf]%Forall_app. unfold stod, lit_text.
  set (fr := match lit_frac l with [] => _ | _ => _ end). rewrite (sign_signed (lit_neg l) (lit_int l) fr) by done.
  rewrite (span_stops isdigit) by (done || by subst fr; destruct (lit_frac l)).
  assert ((if starts_with (ch ".") fr then (span isdigit (tail fr)).1 else []) = lit_frac l) as ->.
  { subst fr. destruct (lit_frac l) as [|f fs]; [done|]. cbn [starts_with tail]. rewrite Z.eqb_refl.
    pose proof (span_stops isdigit (f :: fs) [] Hf I) as Hsp. rewrite app_nil_r in Hsp. by rewrite Hsp. }
  unfold lit_value in Hv. destruct (lit_int l ++ lit_frac l) as [|d ds] eqn:E; [by destruct (lit_int l)|]. rewrite Hv.
  assert (underflows v (number (d :: ds)) (length (lit_frac l)) = false) as ->; [|done].
  destruct v; cbn [underflows unlost] in *; try done; rewrite ?E in Hun; lia.
Qed.

(** A key and its number, up to a character that is not of a number. *)
Lemma parse_num_key k l v c s : lit_ok l -> lit_value l = Some v -> unlost v l -> misses [ch ":"] (key k) = true -> number_char c = false ->
  parse_num (key k ++ chars ": " ++ lit_text l ++ c :: s) = Some v.
Proof.
  intros Hl Hv Hun Hk Hc. unfold parse_num. change (chars ": ") with ([ch ":"] ++ [ch " "]). rewrite <-app_assoc, find_after by done.
  cbn [app tail]. pose proof (lit_text_chars l Hl) as Hch. destruct Hl as [Hne Hd] eqn:El. clear El.
  assert (exists x t, lit_text l = x :: t) as (x & t & Et).
  { unfold lit_text. destruct (lit_neg l); [by do 2 eexists|]. destruct (lit_int l); [done|by do 2 eexists]. }
  pose proof (span_stops (fun c => (c =? ch " ") || (c =? 9)) [ch " "] (lit_text l ++ c :: s)) as Hsp. cbn [app] in Hsp. rewrite Hsp; [|by repeat constructor|].
  - cbn [snd]. rewrite (span_stops number_char) by done. cbn [fst]. by apply stod_literal.
  - rewrite Et in *. apply Forall_cons in Hch as [Hx%number_char_range _]. cbn [app stops]. change (ch " ") with 32. lia.
Qed.

Lemma fold_id ds : Forall (fun c => isdigit c = true) ds -> number ds < 2 ^ 64 -> fold_left (fun n c => u64 (n * 10 + (c - ch "0"))) ds 0 = number ds.
Proof.
  induction ds as [|c ds IH] using rev_ind; [done|]. intros [Hds Hc]%Forall_app Hn. rewrite fold_left_app. rewrite number_snoc in *.
  pose proof (number_nonneg ds Hds). apply Forall_cons in Hc as [Hc%isdigit_range _]. rewrite IH by (done || lia). cbn [fold_left].
  change (ch "0") with 48. apply u64_small. unfold is_u. lia.
Qed.

Lemma parse_id_text n c s : is_u 64 n -> isdigit c = false -> parse_id (ch " " :: u64_text n ++ c :: s) = n.
Proof.
  intros Hn Hc. unfold parse_id. pose proof (decimal_digits_digits 20 n) as Hd. fold (u64_text n) in Hd.
  assert (u64_text n <> []) as Hne by (unfold u64_text; cbn [decimal_digits]; by destruct (if _ <? _ then _ else _)).
  pose proof (span_stops (fun c => negb (isdigit c)) [ch " "] (u64_text n ++ c :: s)) as Hsp. cbn [app] in Hsp. rewrite Hsp; [|by repeat constructor|].
  - cbn [snd]. rewrite (span_stops isdigit) by done. cbn [fst]. assert (number (u64_text n) = n) as E by (apply decimal_digits_number; unfold is_u in Hn; lia).
    rewrite fold_id by (done || rewrite E; unfold is_u in Hn; lia). done.
  - destruct (u64_text n) as [|x t]; [done|]. apply Forall_cons in Hd as [Hx _]. cbn [app stops]. by rewrite Hx.
Qed.

(** ** Rows *)

Definition row_plain (r : BookRow) : Prop := is_u 64 (row_order_id r) /\ plain (row_price r) /\ plain (row_amount r).

Ltac find_key n :=
  repeat rewrite (find_misses n) by (reflexivity || apply misses_digits || (apply misses_number, lit_text_chars; assumption) || assumption);
  rewrite (find_here n) by discriminate.

(** A row is read where the next [order_id] is. *)
Lemma row_read r last fuel rest rows junk : row_plain r -> misses (key "order_id") junk = true ->
  sidecar_loop (S fuel) (junk ++ sidecar_row r last ++ rest) rows =
  sidecar_loop fuel (chars ": " ++ double_text (row_amount r) ++ chars "}" ++ (if last then [] else [ch ","]) ++ [newline] ++ rest) (rows ++ [r]).
Proof.
  intros (Hid & Hp & Ha) Hj. destruct (literal_read_back _ Hp) as (lp & Hlp & Ep & Hvp & Hup). destruct (literal_read_back _ Ha) as (la & Hla & Ea & Hva & Hua).
  unfold sidecar_row. rewrite Ep, Ea. rewrite <-!app_assoc. set (tl := (if last then [] else [ch ","]) ++ [newline] ++ rest). cbn [sidecar_loop].
  find_key (key "order_id"). change (chars ": " ++ u64_text (row_order_id r) ++ ?x) with ([ch ":"] ++ ch " " :: u64_text (row_order_id r) ++ x).
  find_key [ch ":"]. change (tail ([ch ":"] ++ ?x)) with x. change ([ch ":"] ++ ch " " :: ?x) with (chars ": " ++ x).
  rewrite (app_assoc (key "order_id")). find_key (key "price"). rewrite (app_assoc (key "price")). find_key (key "amount"). rewrite <-!app_assoc. change (chars ", " ++ ?x) with (ch "," :: ch " " :: x). change (chars "}" ++ ?x) with (ch "}" :: x).
  rewrite (parse_num_key "price" lp (row_price r)), (parse_num_key "amount" la (row_amount r)), parse_id_text by done.
  change (drop 8 (key "amount" ++ ?x)) with x. by destruct r.
Qed.

Lemma find_none needle pre : needle <> [] -> misses needle pre = true -> find_text needle pre = None.
Proof. intros Hne Hm. rewrite <-(app_nil_r pre), find_misses by done. by destruct needle. Qed.

Definition trailer : list Z := chars "  ]" ++ [newline] ++ chars "}" ++ [newline].

Lemma rows_read rows : forall fuel acc junk, misses (key "order_id") junk = true -> (length rows < fuel)%nat -> Forall row_plain rows ->
  sidecar_loop fuel (junk ++ sidecar_rows rows ++ trailer) acc = Some (acc ++ rows).
Proof.
  induction rows as [|r rows IH]; intros fuel acc junk Hj Hf Hr; (destruct fuel as [|fuel]; [cbn in Hf; lia|]).
  - cbn [sidecar_rows app sidecar_loop]. rewrite find_none; [by rewrite app_nil_r|done|by apply misses_app].
  - apply Forall_cons in Hr as [Hr Hrs]. cbn [sidecar_rows]. rewrite <-app_assoc, row_read by done.
    destruct Hr as (_ & _ & (la & Hla & -> & _)%literal_read_back). pose proof (misses_number (chars "order_id" ++ [quote]) _ (lit_text_chars la Hla)) as Hm. rewrite !app_assoc, <-(app_assoc _ _ trailer), IH, <-app_assoc; [done| |cbn in Hf; lia|done].
    repeat first [exact Hm|reflexivity|apply misses_app|by destruct rows].
Qed.

Lemma sidecar_rows_length rows : (length rows <= length (sidecar_rows rows))%nat.
Proof.
  induction rows as [|r rows IH]; [done|]. cbn [sidecar_rows length]. rewrite length_app. unfold sidecar_row. rewrite !length_app. cbn [length]. lia.
Qed.

(** ** The header *)

(** No quotes and no backslashes. *)
Definition symbol_plain (s : list Z) : Prop := Forall (fun c => c <> quote /\ c <> ch "\") s /\ s <> chars "order_id".

Lemma escape_plain s : Forall (fun c => c <> quote /\ c <> ch "\") s -> escape_json s = s.
Proof.
  unfold escape_json. induction 1 as [|c s [H1 H2] _ IH]; [done|]. cbn [map concat]. rewrite IH.
  replace ((c =? quote) || (c =? ch "\")) with false; [done|]. symmetry. apply orb_false_iff. split; by apply Z.eqb_neq.
Qed.

(** Two different words without quotes, and the quote after them. *)
Lemma clash_words w : forall s, Forall (fun c => c <> quote) w -> Forall (fun c => c <> quote) s -> w <> s -> clash (w ++ [quote]) (s ++ [quote]) = true.
Proof.
  induction w as [|a w IH]; intros [|b s] Hw Hs Hne; try done; cbn [app clash].
  - apply Forall_cons in Hs as [Hb _]. by replace (quote =? b) with false by lia.
  - apply Forall_cons in Hw as [Ha _]. by replace (a =? quote) with false by lia.
  - apply Forall_cons in Hw as [Ha Hw], Hs as [Hb Hs]. destruct (Z.eqb_spec a b) as [->|]; [|done]. apply IH; [done..|]. congruence.
Qed.

Lemma misses_symbol s : symbol_plain s -> misses (key "order_id") (quoted s ++ chars ",") = true.
Proof.
  intros [Hs Hne]. assert (Forall (fun c => c <> quote) s) as Hq by (eapply List.Forall_impl; [|exact Hs]; by intros c [? _]).
  unfold quoted. rewrite <-!app_assoc. cbn [app misses]. apply andb_true_iff. split.
  - change (key "order_id") with (quote :: chars "order_id" ++ [quote]). cbn [clash]. change (quote :: chars ",") with ([quote] ++ chars ",").
    rewrite app_assoc. apply orb_true_iff. right. apply clash_app. apply clash_words; [by repeat constructor|done|congruence].
  - apply misses_app; [by apply misses_free|done].
Qed.

Definition header (sc : SnapshotSidecar) : list Z :=
  (chars "{" ++ [newline] ++ chars "  " ++ key "version" ++ chars ": ") ++ u64_text (sc_version sc) ++
  (chars "," ++ [newline] ++ chars "  " ++ key "symbol" ++ chars ": ") ++ (quoted (sc_symbol sc) ++ chars ",") ++
  ([newline] ++ chars "  " ++ key "cut_sequence" ++ chars ": ") ++ u64_text (sc_cut_sequence sc) ++
  (chars "," ++ [newline] ++ chars "  " ++ key "exchange_ts_ns" ++ chars ": ") ++ u64_text (sc_exchange_ts_ns sc) ++
  (chars "," ++ [newline] ++ chars "  " ++ key "rows" ++ chars ": [" ++ [newline]).

Lemma text_parts sc : symbol_plain (sc_symbol sc) -> sidecar_text sc = header sc ++ sidecar_rows (sc_rows sc) ++ trailer.
Proof.
  intros [Hs _]. unfold sidecar_text, header, trailer. rewrite (escape_plain _ Hs). rewrite <-!app_assoc. reflexivity.
Qed.

Lemma header_misses sc : symbol_plain (sc_symbol sc) -> misses (key "order_id") (header sc) = true.
Proof.
  intros Hs. unfold header.
  do 8 (apply misses_app; [lazymatch goal with |- misses _ (u64_text _) = _ => apply misses_digits | |- misses _ (quoted _ ++ _) = _ => by apply misses_symbol | _ => reflexivity end|]).
  reflexivity.
Qed.

Lemma between_read s r : text_between (s ++ r) r = s.
Proof. unfold text_between. rewrite length_app. replace (length s + length r - length r)%nat with (length s) by lia. apply take_app_length. Qed.

Lemma symbol_read sc : symbol_plain (sc_symbol sc) -> read_symbol (sidecar_text sc) = sc_symbol sc.
Proof.
  intros Hs. rewrite (text_parts sc Hs). destruct Hs as [Hs _]. unfold header, read_symbol, quoted. set (tl := sidecar_rows _ ++ trailer). rewrite <-!app_assoc.
  assert (misses [quote] (sc_symbol sc) = true) as Hq by (apply misses_free; eapply List.Forall_impl; [|exact Hs]; by intros c [? _]).
  rewrite (app_assoc (key "version")). find_key (key "symbol"). change (drop 8 (key "symbol" ++ ?x)) with x.
  find_key [quote]. change (tail ([quote] ++ ?x)) with x. find_key [quote]. apply between_read.
Qed.

(** ** Reading back *)

Definition sidecar_ok (sc : SnapshotSidecar) : Prop := symbol_plain (sc_symbol sc) /\ Forall row_plain (sc_rows sc).

(** C33. The symbol and the rows of a sidecar are read back as they were written,
    every price and amount to the bit; nothing else is. *)
Theorem sidecar_read_back sc out : sidecar_ok sc ->
  read_sidecar (write_sidecar true sc).2 out =
  Some (negb (bool_decide (sc_rows sc = [])) || negb (bool_decide (sc_symbol sc = [])), mkSidecar 1 (sc_symbol sc) 0 0 (sc_rows sc)).
Proof.
  intros [Hs Hr]. cbn [write_sidecar snd read_sidecar]. rewrite (symbol_read sc Hs), (text_parts sc Hs).
  rewrite rows_read; [done|by apply header_misses| |done]. rewrite !length_app. pose proof (sidecar_rows_length (sc_rows sc)). lia.
Qed.

(** ** What the state machine writes *)

(** The sidecar that [on_snapshot] writes. *)
Definition snapshot_sidecar (m : ResyncStateMachine) (f : SnapshotFrame) (ts_ns : Z) : SnapshotSidecar :=
  mkSidecar 1 (symbol_wire m) (sf_sequence f) ts_ns (sf_rows f).

Definition sidecar_sample : list BookRow := [mkRow 34006738527 (dlit 8744 1) (dlit 25603413 100000000); mkRow 7 (dlit 87445 10) (dlit (-5) 1000)].

Lemma sidecar_read_back_witness :
  read_sidecar (write_sidecar true (snapshot_sidecar (machine_init (chars "tBTCUSD") true) (mkSnapshotFrame 17470 sidecar_sample 42) 99)).2 sidecar_default =
  Some (true, mkSidecar 1 (chars "tBTCUSD") 0 0 sidecar_sample).
Proof.
  apply (sidecar_read_back (snapshot_sidecar (machine_init (chars "tBTCUSD") true) (mkSnapshotFrame 17470 sidecar_sample 42) 99) sidecar_default).
  split; [split; [repeat constructor; discriminate|discriminate]|].
  repeat constructor; try (vm_compute; congruence); apply (bool_decide_unpack _); vm_compute; exact I.
Defined.

(** The sequence number the snapshot was cut at and its time are lost. *)
Example cut_sequence_lost :
  sc_cut_sequence <$> (read_sidecar (write_sidecar true (mkSidecar 1 (chars "tBTCUSD") 42 99 sidecar_sample)).2 sidecar_default ≫= (fun p => Some p.2)) = Some 0.
Proof. vm_compute. reflexivity. Qed.

(** A symbol that is called as the key is taken for one: the first row gets
    the sequence number for its order id. *)
Example symbol_taken_for_key :
  map row_order_id ∘ sc_rows <$> (read_sidecar (write_sidecar true (mkSidecar 1 (chars "order_id") 42 99 sidecar_sample)).2 sidecar_default ≫= (fun p => Some p.2)) = Some [42; 7].
Proof. vm_compute. reflexivity. Qed.
