(* ===== verification/AbEvidence.v ===== *)
(** * Failover evidence (src/apps/phase2_ab_evidence_main.cpp, tools/ab_failover_validation.cpp)

    Both programs run a stream of events through a pipeline, once as it is and
    once through the A/B arbiter fed with the race of two feeds that drop
    events, and compare checksums (and, in the second program, the merged
    events one by one).

    The random draws of the race are a parameter, as is the recursion depth of
    the arbiter ([arbiter_replay_dead] shows it does not matter). As long as no
    event is dropped on both feeds the two runs agree in everything, whatever
    the window, the capacity and the draws; the synthetic source has the
    numbering this needs at every size. *)

From S2P Require Import Prelude Types Crc SequenceTracker Recovery Merger Pipeline InOrder AbArbiter.

#[local] Open Scope list_scope.
#[local] Open Scope Z_scope.

(** ** Comparing the merged streams *)

Definition same_event (a b : BookEvent) : bool :=
  bool_decide (venue a = venue b) && bool_decide (type a = type b) && (sequence a =? sequence b) &&
  (exchange_ts_ns a =? exchange_ts_ns b) && bool_decide (side a = side b) && (price a =? price b) && (qty a =? qty b) &&
  (order_id a =? order_id b) && (raw_type a =? raw_type b) && bool_decide (symbol a = symbol b).

(** The loop over the common length. *)
Fixpoint divergences_from (a b : list BookEvent) (div : Z) : Z :=
  match a, b with
  | x :: a, y :: b => divergences_from a b (if same_event x y then div else div +64 1)
  | _, _ => div
  end.

Definition divergence_count (a b : list BookEvent) : Z :=
  let div := divergences_from a b 0 in
  let la := Z.of_nat (length a) in let lb := Z.of_nat (length b) in
  if lb <? la then div +64 (la - lb) else if la <? lb then div +64 (lb - la) else div.

(** ** The runs *)

Record RunOutcome := mkOutcome { ro_crc : Z; ro_merged : list BookEvent }.

Definition outcome (p : Pipeline) : RunOutcome :=
  let '(p, sink) := pipeline_finalize (T := list BookEvent) p (Some []) in
  mkOutcome (merged_crc (pstats p)) (default [] sink).

Definition run_baseline (gap_window capacity : Z) (source : list BookEvent) : RunOutcome :=
  outcome (pipeline_run (pipeline_init gap_window capacity) source).

Section raced.
Context `{StdSort}.
(** The depth of the arbiter's recursion. *)
Context (fuel : nat).

(** The loop over the raced stream: arbitrate, drain, hand over. *)
Definition raced_step (st : AbArbiter * Pipeline) (pair : FeedSide * BookEvent) : AbArbiter * Pipeline :=
  let '(arb, p) := st in
  let arb := (arbiter_on_event fuel arb pair.1 pair.2).1 in
  let '(ready, arb) := drain_ready arb in
  (arb, fold_left pipeline_on_event ready p).

Definition run_raced_stream (gap_window capacity : Z) (raced : list (FeedSide * BookEvent)) : AbArbiter * Pipeline :=
  fold_left raced_step raced (arbiter_init gap_window, pipeline_init gap_window capacity).

(** [run_drop_injected], and [run_raced] without [--complementary-drops]:
    [keep] holds the two draws per event. *)
Definition run_drop_injected (gap_window capacity : Z) (keep : list (bool * bool)) (source : list BookEvent)
    : RunOutcome * DroppedFeedCounts :=
  let '(raced, drops) := make_dual_feed_race_stream keep source in
  (outcome (run_raced_stream gap_window capacity raced).2, drops).

(** [--complementary-drops]: even numbers on one feed, odd ones on the other. *)
Definition complementary (source : list BookEvent) : list (FeedSide * BookEvent) :=
  map (fun ev => (if Z.land (sequence ev) 1 =? 0 then SideA else SideB, ev)) source.

Definition run_complementary (gap_window capacity : Z) (source : list BookEvent) : RunOutcome :=
  outcome (run_raced_stream gap_window capacity (complementary source)).2.
End raced.

(** ** The synthetic source *)

Definition make_event (v : Venue) (seq ts : Z) : BookEvent :=
  event_default |> set_venue v |> set_type Types.Add |> set_sequence seq |> set_exchange_ts ts |> set_ingest_ts (ts +64 10)
    |> set_side Buy |> set_price (u32 (10000 + Z.land seq 127)) |> set_qty 50 |> set_order_id seq |> set_raw_type 65
    |> set_symbol [65; 65; 80; 76; 32; 32; 32; 32].

(** The loop from [i] on, with the counters of the three venues. *)
Fixpoint make_source_loop (n : nat) (i seq_n seq_i seq_c ts : Z) : list BookEvent :=
  match n with
  | O => []
  | S n =>
      if i mod 3 =? 0 then make_event Nasdaq seq_n ts :: make_source_loop n (i + 1) (seq_n +64 1) seq_i seq_c (ts +64 100)
      else if i mod 3 =? 1 then make_event Iex seq_i ts :: make_source_loop n (i + 1) seq_n (seq_i +64 1) seq_c (ts +64 100)
      else make_event Cboe seq_c ts :: make_source_loop n (i + 1) seq_n seq_i (seq_c +64 1) (ts +64 100)
  end.

Definition make_source (n : nat) : list BookEvent := make_source_loop n 0 1 1 1 1000000.

(** ** The comparison *)

Lemma same_event_refl a : same_event a a = true.
Proof. unfold same_event. by rewrite !bool_decide_eq_true_2, !Z.eqb_refl by done. Qed.

Lemma divergences_bound a : forall b div, 0 <= div -> div + Z.of_nat (length a) < 2 ^ 64 ->
  div <= divergences_from a b div <= div + Z.of_nat (length a `min` length b) /\
  (divergences_from a b div = div <-> Forall2 (fun x y => same_event x y = true) (take (length a `min` length b) a) (take (length a `min` length b) b)).
Proof.
  induction a as [|x a IH]; intros [|y b] div Hd Hl; try (split; [simpl; lia|split; [constructor|done]]).
  cbn [divergences_from length Nat.min take]. cbn [length] in Hl. rewrite Nat2Z.inj_succ. destruct (same_event x y) eqn:E.
  - destruct (IH b div) as [H1 H2]; [lia|lia|]. split; [lia|]. rewrite H2, Forall2_cons. tauto.
  - rewrite u64_small by lia. destruct (IH b (div + 1)) as [H1 H2]; [lia|lia|]. split; [lia|].
    split; [lia|]. intros Hf. inversion Hf. congruence.
Qed.

(** No divergence is reported exactly when the streams are equally long and
    agree in every compared member. *)
Lemma divergence_count_zero a b : Z.of_nat (length a) + Z.of_nat (length b) < 2 ^ 64 ->
  divergence_count a b = 0 <-> Forall2 (fun x y => same_event x y = true) a b.
Proof.
  intros Hl. unfold divergence_count. cbv zeta. destruct (divergences_bound a b 0) as [H1 H2]; [lia|lia|].
  destruct (decide (length a = length b)) as [E|E].
  - replace (Z.of_nat (length b) <? Z.of_nat (length a)) with false by lia.
    replace (Z.of_nat (length a) <? Z.of_nat (length b)) with false by lia.
    rewrite H2. rewrite E, Nat.min_id, take_ge, (take_ge b) by lia. done.
  - split; [|intros Hf; by apply Forall2_length in Hf].
    destruct (Z.of_nat (length b) <? Z.of_nat (length a)) eqn:E1; [rewrite u64_small by lia; lia|].
    destruct (Z.of_nat (length a) <? Z.of_nat (length b)) eqn:E2; [rewrite u64_small by lia; lia|lia].
Qed.

(** ** No event lost on both feeds *)

Section lossless.
Context `{StdSort} (G M : Z) (HG : 0 <= G) (HM : 0 <= M) (HGM : M + G + 3 <= 2 ^ 64) (fuel : nat).

Lemma fresh_drained next s : fresh G M next s -> fresh G M next (drain_ready s).2.
Proof.
  intros [Hok Hn Hb]. split; [|exact Hn|exact Hb]. destruct Hok. split; try done; cbn [drain_ready snd ready] in *.
  - intros v. constructor.
  - intros e He. by apply not_elem_of_nil in He.
Qed.

(** The next event of a venue goes straight to the pipeline ... *)
Lemma raced_in_order next s p a e : fresh G M next s -> ready s = [] -> sequence e = next.[venue e] -> sequence e <= M ->
  exists s', raced_step (S fuel) (s, p) (a, e) = (s', pipeline_on_event p e) /\
  fresh G M (next.[venue e := sequence e + 1]) s' /\ ready s' = [].
Proof using HG HGM.
  intros Hf Hr Hs HeM. destruct (fresh_in_order G M HGM HG fuel next s a e Hf Hs HeM) as [Hf' Hr'].
  unfold raced_step. cbn [fst snd]. destruct (arbiter_on_event (S fuel) s a e) as [s1 r1]. cbn [fst] in *.
  eexists. cbn [drain_ready]. rewrite Hr', Hr. cbn [app fold_left]. split; [done|]. split; [|done].
  by apply (fresh_drained _ s1).
Qed.

(** ... and its copy on the other feed is dropped. *)
Lemma raced_copy next s p a e : fresh G M next s -> ready s = [] -> 0 <= sequence e < next.[venue e] -> sequence e <= M ->
  exists s', raced_step (S fuel) (s, p) (a, e) = (s', p) /\ fresh G M next s' /\ ready s' = [].
Proof using HG HGM.
  intros Hf Hr Hs HeM. destruct (fresh_old G M HGM HG fuel next s a e Hf Hs HeM) as [Hf' Hr'].
  unfold raced_step. cbn [fst snd]. destruct (arbiter_on_event (S fuel) s a e) as [s1 r1]. cbn [fst] in *.
  eexists. cbn [drain_ready]. rewrite Hr', Hr. cbn [fold_left]. split; [done|]. split; [|done].
  by apply (fresh_drained _ s1).
Qed.

Lemma raced_pair next s p e ka kb : fresh G M next s -> ready s = [] -> sequence e = next.[venue e] -> sequence e <= M ->
  ka || kb = true ->
  exists s', fold_left (raced_step (S fuel)) (race_pair ka kb e) (s, p) = (s', pipeline_on_event p e) /\
  fresh G M (next.[venue e := sequence e + 1]) s' /\ ready s' = [].
Proof using HG HGM.
  intros Hf Hr Hs HeM Hk. assert (0 <= sequence e) as H0.
  { pose proof (ok_next _ (ao_tracker _ _ _ (fr_ok _ _ _ _ Hf) (venue e))). rewrite Hs, <-(fr_next _ _ _ _ Hf). lia. }
  assert (forall a b, exists s', fold_left (raced_step (S fuel)) [(a, e); (b, e)] (s, p) = (s', pipeline_on_event p e) /\
    fresh G M (next.[venue e := sequence e + 1]) s' /\ ready s' = []) as H2.
  { intros a b. cbn [fold_left]. destruct (raced_in_order next s p a e Hf Hr Hs HeM) as (s1 & -> & Hf1 & Hr1).
    apply (raced_copy _ s1 (pipeline_on_event p e) b e Hf1 Hr1); [rewrite pv_get_set; lia|done]. }
  unfold race_pair. destruct ka, kb; simpl in Hk; try done.
  - by destruct (_ =? _).
  - cbn [fold_left]. by apply raced_in_order.
  - cbn [fold_left]. by apply raced_in_order.
Qed.

Lemma raced_stream source : forall keep next s p, fresh G M next s -> ready s = [] -> consecutive M next source ->
  length keep = length source -> Forall (fun k => k.1 || k.2 = true) keep ->
  (fold_left (raced_step (S fuel)) (make_dual_feed_race_stream keep source).1 (s, p)).2 = pipeline_run p source.
Proof using HG HGM.
  induction source as [|e source IH]; intros [|[ka kb] keep] next s p Hf Hr Hc Hl Hk; try done.
  destruct Hc as (Hs & HeM & Hc). inversion_clear Hk as [|? ? Hk1 Hk2]. injection Hl as Hl.
  cbn [make_dual_feed_race_stream]. specialize (fun n s p Hf Hr Hc => IH keep n s p Hf Hr Hc Hl Hk2).
  destruct (make_dual_feed_race_stream keep source) as [out local]. cbn [fst] in *. rewrite fold_left_app.
  destruct (raced_pair next s p e ka kb Hf Hr Hs HeM Hk1) as (s' & -> & Hf' & Hr').
  by rewrite (IH _ _ _ Hf' Hr' Hc).
Qed.

(** The draws that send even numbers over one feed and odd ones over the other. *)
Definition parity_draws (source : list BookEvent) : list (bool * bool) :=
  map (fun ev => let even := Z.land (sequence ev) 1 =? 0 in (even, negb even)) source.

Lemma complementary_race source : complementary source = (make_dual_feed_race_stream (parity_draws source) source).1.
Proof.
  induction source as [|e source IH]; [done|]. cbn [complementary parity_draws map make_dual_feed_race_stream].
  unfold complementary, parity_draws in IH. rewrite IH. destruct (make_dual_feed_race_stream _ source) as [out local]. cbn [fst].
  by destruct (_ =? 0).
Qed.
End lossless.

(** C21. Failover evidence: from a source in which each venue's numbers are 1, 2,
    3, ... in this order, and when no event is dropped on both feeds, the run
    through the arbiter ends exactly as the run on the source stream does,
    with the same checksum and the same merged events, so no divergence is
    reported; so it does when the numbers alternate between the feeds. *)
Theorem failover_runs_agree `{StdSort} G M fuel capacity keep source : 0 <= G -> 0 <= M -> M + G + 3 <= 2 ^ 64 ->
  consecutive M (pv_const 1) source -> length keep = length source -> Forall (fun k => k.1 || k.2 = true) keep ->
  let baseline := run_baseline G capacity source in
  let injected := (run_drop_injected (S fuel) G capacity keep source).1 in
  injected = baseline /\ run_complementary (S fuel) G capacity source = baseline /\
  (2 * Z.of_nat (length (ro_merged baseline)) < 2 ^ 64 -> divergence_count (ro_merged baseline) (ro_merged injected) = 0).
Proof.
  intros HG HM HGM Hc Hl Hk baseline injected. pose proof (arbiter_init_ok G M HG HM HGM) as Hf.
  assert (forall keep, length keep = length source -> Forall (fun k => k.1 || k.2 = true) keep ->
    outcome (run_raced_stream (S fuel) G capacity (make_dual_feed_race_stream keep source).1).2 = baseline) as Hrun.
  { intros k Hlk Hkk. unfold run_raced_stream. by rewrite (raced_stream G M HG HGM fuel source k (pv_const 1)) by done. }
  assert (injected = baseline) as ->.
  { unfold injected, run_drop_injected. specialize (Hrun keep Hl Hk). by destruct (make_dual_feed_race_stream keep source). }
  split; [done|]. split.
  - unfold run_complementary. rewrite complementary_race. apply Hrun; [apply length_map|].
    apply Forall_map, Forall_forall. intros e _. cbn [fst snd]. by destruct (_ =? 0).
  - intros Hb. apply divergence_count_zero; [lia|]. clear. induction (ro_merged baseline) as [|e l IH]; constructor;
      [apply same_event_refl|exact IH].
Qed.

(** ** The synthetic source *)

Lemma make_source_consecutive M n : forall i a b c ts, 1 <= a -> 1 <= b -> 1 <= c -> M + 1 < 2 ^ 64 ->
  a + Z.of_nat n <= M + 1 -> b + Z.of_nat n <= M + 1 -> c + Z.of_nat n <= M + 1 ->
  consecutive M (mkPerVenue a b c 1 1) (make_source_loop n i a b c ts).
Proof.
  induction n as [|n IH]; intros i a b c ts Ha Hb Hc HM H1 H2 H3; [done|]. cbn [make_source_loop].
  rewrite Nat2Z.inj_succ in *.
  destruct (i mod 3 =? 0); [|destruct (i mod 3 =? 1)]; cbn [consecutive]; (split; [done|]);
    (split; [cbn; lia|]); rewrite u64_small by lia; apply IH; lia.
Qed.

(** The synthetic evidence is sound at every size: whatever is dropped, as
    long as no event is dropped on both feeds, [make_source]'s stream goes
    through with the checksum of the undropped run. *)
Theorem synthetic_evidence `{StdSort} G fuel capacity n keep : 0 <= G -> Z.of_nat n + G + 3 <= 2 ^ 64 ->
  length keep = length (make_source n) -> Forall (fun k => k.1 || k.2 = true) keep ->
  let baseline := run_baseline G capacity (make_source n) in
  (run_drop_injected (S fuel) G capacity keep (make_source n)).1 = baseline /\
  run_complementary (S fuel) G capacity (make_source n) = baseline.
Proof.
  intros HG Hn Hl Hk. destruct (failover_runs_agree G (Z.of_nat n) fuel capacity keep (make_source n)) as (H1 & H2 & _);
    [lia..| |done|done|split; [exact H1|exact H2]].
  apply (make_source_consecutive (Z.of_nat n)); lia.
Qed.

(** ** At concrete inputs *)

Lemma failover_witness :
  let source := make_source 4 in let keep := [(true, false); (false, true); (true, true); (false, true)] in
  (run_drop_injected 1 4 16 keep source).1 = run_baseline 4 16 source /\ run_complementary 1 4 16 source = run_baseline 4 16 source /\
  (2 * Z.of_nat (length (ro_merged (run_baseline 4 16 source))) < 2 ^ 64 ->
   divergence_count (ro_merged (run_baseline 4 16 source)) (ro_merged (run_drop_injected 1 4 16 keep source).1) = 0).
Proof.
  intros source keep. apply (failover_runs_agree 4 10 0 16 keep source); [lia|lia|lia| |reflexivity|repeat constructor].
  apply (make_source_consecutive 10); lia.
Defined.

Lemma synthetic_evidence_witness :
  (run_drop_injected 1 4 16 [(true, false); (false, true)] (make_source 2)).1 = run_baseline 4 16 (make_source 2) /\
  run_complementary 1 4 16 (make_source 2) = run_baseline 4 16 (make_source 2).
Proof. apply (synthetic_evidence 4 0 16 2); [lia|lia|reflexivity|repeat constructor]. Defined.

(** An event dropped on both feeds: the comparison reports the divergence. *)
Example lost_event_diverges :
  let source := make_source 6 in
  let injected := (run_drop_injected 1 4 16 [(false, false); (true, true); (true, true); (true, true); (true, true); (true, true)] source).1 in
  ro_crc injected <> ro_crc (run_baseline 4 16 source) /\
  divergence_count (ro_merged (run_baseline 4 16 source)) (ro_merged injected) = 6.
Proof. vm_compute. split; [discriminate|reflexivity]. Qed.

(** The members the comparison leaves out: the match id, the referenced order
    and the previous price and quantity. *)
Example comparison_blind : same_event (event_default |> set_match_id 1 |> set_reference_order_id 2) event_default = true.
Proof. reflexivity. Qed.
