(* ===== verification/WireReplay.v ===== *)
(** * From the wire to the merged stream (tools/wire_replay_to_pipeline.cpp, src/wire/event_loop.cpp)

    Two sessions receive the same feed over two paths. Whatever either delivers
    goes through the arbiter, what the arbiter lets through into the pipeline,
    and the pipeline is finalized between turns of the event loop until enough
    events are merged.

    [wire_replay_lossless] composes the theorems of every stage: datagrams,
    frames, ITCH messages, arbitration, sequencing and merging. Which sessions
    the event loop finds readable, and what they then receive, is arbitrary.
    The latencies and the report are not modelled. *)

From S2P Require Import Prelude Wire Types Crc SequenceTracker Recovery Merger Pipeline InOrder AbArbiter Itch Deep Pitch Framing FeedSession AbEvidence.

#[local] Open Scope list_scope.
#[local] Open Scope Z_scope.

(** ** The program *)

Record Replay := mkReplay {
  session_a : FeedSession; session_b : FeedSession; wr_arb : AbArbiter; wr_pipeline : Pipeline; wr_merged : list BookEvent;
}.

(** What a session receives in one poll, as the event loop finds it readable. *)
Definition Turn : Type := FeedSide * list Recv.

Section replay.
Context `{StdSort} (fuel : nat).

(** The callback of the sessions. *)
Definition wr_on_event (side : FeedSide) (ev : BookEvent) (st : AbArbiter * Pipeline) : AbArbiter * Pipeline :=
  let '(arb, p) := st in
  let arb := (arbiter_on_event fuel arb side ev).1 in
  let '(ready, arb) := drain_ready arb in
  (arb, fold_left pipeline_on_event ready p).

Definition poll_turn (st : Replay) (turn : Turn) : Replay :=
  match turn.1 with
  | SideA => let '(a, (arb, p)) := poll wr_on_event turn.2 (session_a st, (wr_arb st, wr_pipeline st)) in
             mkReplay a (session_b st) arb p (wr_merged st)
  | SideB => let '(b, (arb, p)) := poll wr_on_event turn.2 (session_b st, (wr_arb st, wr_pipeline st)) in
             mkReplay (session_a st) b arb p (wr_merged st)
  end.

(** [loop.run_for(20ms)] ... *)
Definition run_for (turns : list Turn) (st : Replay) : Replay := fold_left poll_turn turns st.

(** ... and [pipeline.finalize(&sink)]. *)
Definition wr_finalize (st : Replay) : Replay :=
  let '(p, sink) := pipeline_finalize (T := list BookEvent) (wr_pipeline st) (Some (wr_merged st)) in
  mkReplay (session_a st) (session_b st) (wr_arb st) p (default (wr_merged st) sink).

(** [while (sink.merged < target)], over the turns of each [run_for]; it stops
    as well when nothing more is received. *)
Fixpoint wr_loop (target : nat) (rounds : list (list Turn)) (st : Replay) : Replay :=
  if (target <=? length (wr_merged st))%nat then st else
  match rounds with
  | [] => st
  | turns :: rounds => wr_loop target rounds (wr_finalize (run_for turns st))
  end.

Definition replay_init (gap_window capacity : Z) (protocol : WireProtocol) : Replay :=
  mkReplay (session_init protocol SideA) (session_init protocol SideB) (arbiter_init gap_window) (pipeline_init gap_window capacity) [].

(** [main] from the sessions being open to the last [finalize]. *)
Definition wire_replay (gap_window capacity : Z) (protocol : WireProtocol) (target : nat) (rounds : list (list Turn)) : Replay :=
  wr_finalize (wr_loop target rounds (replay_init gap_window capacity protocol)).
End replay.

(** ** Two copies of one feed *)

(** A poll of one side that receives well-formed ITCH datagrams. *)
Definition ItchTurn : Type := FeedSide * list ItchDatagram.
Definition turn_of (t : ItchTurn) : Turn := (t.1, map (fun d => RecvData (id_bytes d) (id_ingest d)) t.2).
Definition turn_events (t : ItchTurn) : list BookEvent := concat (map id_events t.2).
Definition all_events (rounds : list (list ItchTurn)) : list BookEvent := concat (map turn_events (concat rounds)).

(** The number after [next] once [evs] have arrived. *)
Fixpoint next_after (next : Z) (evs : list BookEvent) : Z :=
  match evs with
  | [] => next
  | e :: evs => next_after (if sequence e =? next then next + 1 else next) evs
  end.

(** Every event that arrives is the next of the feed or has arrived before:
    where one side misses datagrams, the other has delivered them in time. *)
Fixpoint no_hole (next : Z) (evs : list BookEvent) : Prop :=
  match evs with
  | [] => True
  | e :: evs => 1 <= sequence e <= next /\ no_hole (if sequence e =? next then next + 1 else next) evs
  end.

#[export] Instance no_hole_dec next evs : Decision (no_hole next evs).
Proof. revert next. induction evs as [|e evs IH]; intros next; cbn [no_hole]; apply _. Defined.

(** The first copy of every event. *)
Fixpoint first_copies (next : Z) (evs : list BookEvent) : list BookEvent :=
  match evs with
  | [] => []
  | e :: evs => if sequence e =? next then e :: first_copies (next + 1) evs else first_copies next evs
  end.

Lemma no_hole_app evs evs' : forall next, no_hole next (evs ++ evs') <-> no_hole next evs /\ no_hole (next_after next evs) evs'.
Proof. induction evs as [|e evs IH]; intros next; cbn; [tauto|]. rewrite IH. tauto. Qed.

Lemma first_copies_app evs evs' : forall next, first_copies next (evs ++ evs') = first_copies next evs ++ first_copies (next_after next evs) evs'.
Proof. induction evs as [|e evs IH]; intros next; cbn; [done|]. destruct (_ =? _); by rewrite IH. Qed.

Lemma next_after_app evs evs' : forall next, next_after next (evs ++ evs') = next_after (next_after next evs) evs'.
Proof. induction evs as [|e evs IH]; intros next; cbn; [done|]. by rewrite IH. Qed.

Lemma next_after_length evs : forall next, next_after next evs = next + Z.of_nat (length (first_copies next evs)).
Proof. induction evs as [|e evs IH]; intros next; cbn; [lia|]. rewrite IH. destruct (_ =? _); cbn [length]; lia. Qed.

(** The first copies are the feed, numbered without gaps. *)
Lemma first_copies_numbers evs : forall next, sequence <$> first_copies next evs = seqZ next (Z.of_nat (length (first_copies next evs))).
Proof.
  induction evs as [|e evs IH]; intros next; cbn [first_copies]; [done|]. destruct (Z.eqb_spec (sequence e) next) as [E|]; [|done].
  cbn [length fmap list_fmap]. rewrite seqZ_cons by lia. rewrite E. f_equal. unfold fmap in IH. rewrite IH. f_equal; lia.
Qed.

Lemma itch_event_venue h m seq ingest : venue (itch_event h m seq ingest) = Nasdaq.
Proof. by destruct m. Qed.

Lemma numbered_events_venue first ingest hms : forall i, Forall (fun e => venue e = Nasdaq) (numbered_events first i ingest hms).
Proof. induction hms as [|[h m] hms IH]; intros i; constructor; [apply itch_event_venue|apply IH]. Qed.

Lemma turn_events_venue t : Forall (fun e => venue e = Nasdaq) (turn_events t).
Proof. unfold turn_events. apply Forall_concat, Forall_map, Forall_forall. intros d _. apply numbered_events_venue. Qed.

Section lossless.
Context `{StdSort} (fuel : nat) (G M : Z) (HG : 0 <= G) (HGM : M + G + 4 <= 2 ^ 64).

(** The events [L] have been let through, [D] of them are merged. *)
Record wr_ok (L : list BookEvent) (st : Replay) : Prop := {
  wo_a : side_ (session_a st) = SideA /\ framer (session_a st) = NasdaqItch50 /\ parse_failures (session_stats (session_a st)) = 0 /\
         exists ps, parser (session_a st) = ItchParser ps;
  wo_b : side_ (session_b st) = SideB /\ framer (session_b st) = NasdaqItch50 /\ parse_failures (session_stats (session_b st)) = 0 /\
         exists ps, parser (session_b st) = ItchParser ps;
  wo_fresh : fresh G M ((pv_const 1).[Nasdaq := 1 + Z.of_nat (length L)]) (wr_arb st);
  wo_ready : ready (wr_arb st) = [];
  wo_pipeline : in_order_ok G (wr_merged st) L (wr_pipeline st);
  wo_venue : Forall (fun e => venue e = Nasdaq) L;
  wo_max : Z.of_nat (length L) <= M;
}.

Lemma of_nasdaq L : Forall (fun e => venue e = Nasdaq) L -> of_venue Nasdaq L = L.
Proof. unfold of_venue. induction 1 as [|e L He _ IH]; [done|]. by rewrite filter_cons_True, IH. Qed.

(** Events from either side, none beyond the next. *)
Lemma arrivals_ok side evs : forall L arb p D, Forall (fun e => venue e = Nasdaq /\ sequence e <= M) evs ->
  Forall (fun e => venue e = Nasdaq) L -> Z.of_nat (length L) <= M ->
  no_hole (1 + Z.of_nat (length L)) evs -> fresh G M ((pv_const 1).[Nasdaq := 1 + Z.of_nat (length L)]) arb -> ready arb = [] ->
  in_order_ok G D L p ->
  let '(arb', p') := fold_left (fun s e => wr_on_event (S fuel) side e s) evs (arb, p) in
  let L' := L ++ first_copies (1 + Z.of_nat (length L)) evs in
  fresh G M ((pv_const 1).[Nasdaq := 1 + Z.of_nat (length L')]) arb' /\ ready arb' = [] /\ in_order_ok G D L' p' /\
  Forall (fun e => venue e = Nasdaq) L' /\ Z.of_nat (length L') <= M.
Proof using HG HGM.
  induction evs as [|e evs IH]; intros L arb p D Hev HL HLM Hh Hf Hr Hp.
  { cbn. rewrite app_nil_r. by split_and!. }
  apply Forall_cons in Hev as [[Hv He] Hev]. destruct Hh as [He1 Hh]. cbn [fold_left first_copies].
  change (wr_on_event (S fuel) side e (arb, p)) with (raced_step (S fuel) (arb, p) (side, e)).
  assert (((pv_const 1).[Nasdaq := 1 + Z.of_nat (length L)]).[venue e] = 1 + Z.of_nat (length L)) as Hnext by (by rewrite Hv, pv_get_set).
  destruct (Z.eqb_spec (sequence e) (1 + Z.of_nat (length L))) as [E|E].
  - edestruct (raced_in_order G M HG ltac:(lia) fuel _ arb p side e Hf Hr) as (arb1 & -> & Hf1 & Hr1); [by rewrite Hnext|done|].
    rewrite Hv, pv_set_set in Hf1.
    assert (Z.of_nat (length (L ++ [e])) = 1 + Z.of_nat (length L)) as Hl by (rewrite length_app; cbn; lia).
    specialize (IH (L ++ [e]) arb1 (pipeline_on_event p e) D Hev). rewrite Hl in IH.
    replace (1 + (1 + Z.of_nat (length L))) with (1 + Z.of_nat (length L) + 1) in IH by lia. rewrite E in Hf1.
    rewrite (cons_middle e L), app_assoc.
    apply IH; try done.
    + by apply Forall_snoc.
    + lia.
    + apply in_order_step; try done; [lia|]. rewrite Hv, (of_nasdaq L HL). done.
  - edestruct (raced_copy G M HG ltac:(lia) fuel _ arb p side e Hf Hr) as (arb1 & -> & Hf1 & Hr1); [rewrite Hnext; lia|done|].
    by apply IH.
Qed.

(** One poll. *)
Lemma turn_ok t L st : Forall itch_datagram_ok t.2 -> Forall (fun e => sequence e <= M) (turn_events t) ->
  no_hole (1 + Z.of_nat (length L)) (turn_events t) -> wr_ok L st ->
  wr_ok (L ++ first_copies (1 + Z.of_nat (length L)) (turn_events t)) (poll_turn (S fuel) st (turn_of t)) /\
  wr_merged (poll_turn (S fuel) st (turn_of t)) = wr_merged st.
Proof using HG HGM.
  intros Hd HM Hh [Ha Hb Hf Hr Hp Hv Hmax].
  assert (Forall (fun e => venue e = Nasdaq /\ sequence e <= M) (turn_events t)) as Hev.
  { apply Forall_and. split; [apply turn_events_venue|done]. }
  pose proof (arrivals_ok t.1 (turn_events t) L (wr_arb st) (wr_pipeline st) (wr_merged st) Hev Hv Hmax Hh Hf Hr Hp) as Hfold.
  assert (forall f sd ps, side_ f = sd -> t.1 = sd -> framer f = NasdaqItch50 -> parse_failures (session_stats f) = 0 -> parser f = ItchParser ps ->
    exists f', poll (wr_on_event (S fuel)) (turn_of t).2 (f, (wr_arb st, wr_pipeline st)) =
      (f', fold_left (fun s e => wr_on_event (S fuel) t.1 e s) (turn_events t) (wr_arb st, wr_pipeline st)) /\
      side_ f' = sd /\ framer f' = NasdaqItch50 /\ parse_failures (session_stats f') = 0 /\ exists ps', parser f' = ItchParser ps') as Hpoll.
  { intros f sd ps Hs Ht Hfr Hpf Hps. unfold turn_of. cbn [snd].
    pose proof (itch_feed_from t.2 Hd f [] ps Hfr Hps) as H1.
    pose proof (poll_collected (wr_on_event (S fuel)) (map (fun d => RecvData (id_bytes d) (id_ingest d)) t.2) sd f (wr_arb st, wr_pipeline st) [] Hs) as H2.
    destruct (poll collect _ _) as [f' out]. destruct H1 as (-> & H1 & H3 & ps' & H4 & _), H2 as [H2 H5]. cbn [fold_left app] in H2.
    exists f'. rewrite H2, Ht. split; [done|]. split; [done|]. split; [done|]. split; [by rewrite H1|]. by exists ps'. }
  unfold poll_turn. destruct Ha as (A1 & A2 & A3 & ps & A4), Hb as (B1 & B2 & B3 & ps' & B4). change (turn_of t).1 with t.1. destruct t.1 eqn:Et.
  - destruct (Hpoll (session_a st) SideA ps A1 eq_refl A2 A3 A4) as (f' & -> & F1 & F2 & F3 & F4).
    destruct (fold_left _ _ _) as [arb' p']. destruct Hfold as (C1 & C2 & C3 & C4 & C5). split; [|done]. by split; [|split_and!; eauto|..].
  - destruct (Hpoll (session_b st) SideB ps' B1 eq_refl B2 B3 B4) as (f' & -> & F1 & F2 & F3 & F4).
    destruct (fold_left _ _ _) as [arb' p']. destruct Hfold as (C1 & C2 & C3 & C4 & C5). split; [|done]. by split; [split_and!; eauto|..].
Qed.

Lemma run_for_ok ts : forall L st, Forall (fun t => Forall itch_datagram_ok t.2) ts ->
  let evs := concat (map turn_events ts) in
  Forall (fun e => sequence e <= M) evs -> no_hole (1 + Z.of_nat (length L)) evs -> wr_ok L st ->
  wr_ok (L ++ first_copies (1 + Z.of_nat (length L)) evs) (run_for (S fuel) (map turn_of ts) st) /\
  wr_merged (run_for (S fuel) (map turn_of ts) st) = wr_merged st.
Proof using HG HGM.
  induction ts as [|t ts IH]; intros L st Hd evs HM Hh Hok; cbn in evs.
  { subst evs. cbn. by rewrite app_nil_r. }
  apply Forall_cons in Hd as [Hd Hds]. subst evs. apply Forall_app in HM as [HM HMs]. rewrite no_hole_app in Hh. destruct Hh as [Hh Hhs].
  destruct (turn_ok t L st Hd HM Hh Hok) as [Hok1 Hm1]. unfold run_for in *. cbn [map fold_left]. rewrite first_copies_app.
  rewrite next_after_length in *. set (L1 := L ++ first_copies _ _) in *.
  replace (1 + Z.of_nat (length L) + Z.of_nat (length (first_copies (1 + Z.of_nat (length L)) (turn_events t)))) with (1 + Z.of_nat (length L1)) in *
    by (unfold L1; rewrite length_app; lia).
  destruct (IH L1 _ Hds HMs Hhs Hok1) as [Hok2 Hm2]. rewrite Hm2, Hm1. split; [|done]. by rewrite app_assoc.
Qed.

(** Finalizing merges everything let through. *)
Lemma finalize_ok L st : wr_ok L st -> wr_ok L (wr_finalize st) /\ wr_merged (wr_finalize st) = L.
Proof using.
  intros [Ha Hb Hf Hr Hp Hv Hmax].
  pose proof (in_order_finalize G (wr_merged st) L (wr_pipeline st) (Some (wr_merged st)) Hp) as Hp'.
  pose proof (pipeline_finalize_drain (wr_pipeline st) (Some (wr_merged st))) as [Hd _]. unfold wr_finalize.
  destruct (pipeline_finalize _ _) as [p sink]. cbn [fst snd] in *. subst sink. cbn [fmap option_fmap option_map default].
  set (D := merger_drain (merger (wr_pipeline st))) in *.
  assert (fold_left (fun s e => on_merged_event e s) D (wr_merged st) = wr_merged st ++ D) as E.
  { clear. generalize (wr_merged st). induction D as [|e D IH]; intros l; cbn [fold_left]; [by rewrite app_nil_r|].
    rewrite IH. change (on_merged_event e l) with (l ++ [e]). by rewrite <-app_assoc. }
  assert (wr_merged st ++ D = L) as EL.
  { pose proof (fun v => in_order_collected G (wr_merged st) L (wr_pipeline st) v Hp) as Hcol. fold D in Hcol.
    rewrite <-(of_nasdaq L Hv), <-(Hcol Nasdaq). symmetry. apply of_nasdaq, Forall_forall. intros e He.
    assert (e ∈ of_venue (venue e) (wr_merged st ++ D)) as Hin by (unfold of_venue; by apply list_elem_of_filter).
    rewrite Hcol in Hin. apply list_elem_of_filter in Hin as [_ Hin]. rewrite Forall_forall in Hv. by apply Hv. }
  rewrite E. split; [|exact EL]. by split.
Qed.

Lemma loop_ok target rounds : forall L st, Forall (Forall (fun t => Forall itch_datagram_ok t.2)) rounds ->
  Forall (fun e => sequence e <= M) (all_events rounds) -> no_hole (1 + Z.of_nat (length L)) (all_events rounds) -> wr_ok L st -> wr_merged st = L ->
  exists k, let L' := L ++ first_copies (1 + Z.of_nat (length L)) (all_events (take k rounds)) in
    let st' := wr_loop (S fuel) target (map (map turn_of) rounds) st in
    wr_ok L' st' /\ wr_merged st' = L' /\ (k = length rounds \/ target <= length L')%nat.
Proof using HG HGM.
  induction rounds as [|ts rounds IH]; intros L st Hd HM Hh Hok Hmg.
  { exists 0%nat. cbn. rewrite app_nil_r. destruct (_ <=? _)%nat; split_and!; auto. }
  cbn [wr_loop map]. destruct (Nat.leb_spec target (length (wr_merged st))) as [Hle|Hlt].
  { exists 0%nat. cbn. rewrite app_nil_r. split_and!; try done. right. by rewrite <-Hmg. }
  apply Forall_cons in Hd as [Hd Hds]. unfold all_events in *. cbn [concat] in *. rewrite map_app, concat_app in *.
  apply Forall_app in HM as [HM HMs]. rewrite no_hole_app in Hh. destruct Hh as [Hh Hhs].
  destruct (run_for_ok ts L st Hd HM Hh Hok) as [Hok1 Hm1]. rewrite next_after_length in Hhs. set (L1 := L ++ first_copies _ _) in *.
  replace (1 + Z.of_nat (length L) + Z.of_nat (length (first_copies (1 + Z.of_nat (length L)) (concat (map turn_events ts))))) with (1 + Z.of_nat (length L1)) in *
    by (unfold L1; rewrite length_app; lia).
  destruct (finalize_ok L1 _ Hok1) as [Hok2 Hm2]. destruct (IH L1 _ Hds HMs Hhs Hok2 Hm2) as (k & H1 & H2 & H3).
  exists (S k). cbn [take concat]. rewrite map_app, concat_app, first_copies_app, next_after_length.
  replace (1 + Z.of_nat (length L) + Z.of_nat (length (first_copies (1 + Z.of_nat (length L)) (concat (map turn_events ts))))) with (1 + Z.of_nat (length L1))
    by (unfold L1; rewrite length_app; lia).
  rewrite app_assoc. fold L1. split; [done|]. split; [done|]. destruct H3 as [->|H3]; [by left|by right].
Qed.

(** From the start of the program to its end. *)
Lemma wire_replay_run capacity target rounds : 0 <= M -> Forall (Forall (fun t => Forall itch_datagram_ok t.2)) rounds ->
  Forall (fun e => sequence e <= M) (all_events rounds) -> no_hole 1 (all_events rounds) ->
  exists k, let L := first_copies 1 (all_events (take k rounds)) in let st := wire_replay (S fuel) G capacity NasdaqItch50 target (map (map turn_of) rounds) in
  wr_ok L st /\ wr_merged st = L /\ (take k rounds = rounds \/ target <= length L)%nat.
Proof using HG HGM.
  intros HM Hd Hev Hh.
  assert (wr_ok [] (replay_init G capacity NasdaqItch50)) as H0.
  { split; [split_and!; by eauto|split_and!; by eauto|exact (arbiter_init_ok G M HG HM ltac:(lia))|done|apply in_order_init; lia|constructor|done]. }
  destruct (loop_ok target rounds [] _ Hd Hev Hh H0 eq_refl) as (k & Hok & Hm & Hk). cbn [app length] in *. change (1 + Z.of_nat 0) with 1 in *.
  destruct (finalize_ok _ _ Hok) as [Hok' Hm']. exists k. split; [done|]. split; [done|]. destruct Hk as [->|Hk]; [left; apply firstn_all|right]. exact Hk.
Qed.
End lossless.

(** C10. From the wire to the merged stream: two sessions receive the datagrams
    of one ITCH feed over two paths, in any interleaving of polls and
    finalizations, with any losses and delays such that whatever arrives on
    either is the next event of the feed or a copy of an earlier one: what one
    path misses the other has delivered before anything later arrives. (An
    event buffered ahead of a gap is lost by the arbiter.) Then nothing fails to
    parse, and what is merged is the feed itself: the first copy of every event,
    numbered 1, 2, 3, ... without gaps, under its checksum. The program ends
    with all events of the turns it took, and with the target reached if so
    many events arrived at all. *)
Theorem wire_replay_lossless `{StdSort} fuel G M capacity target rounds :
  0 <= G -> 0 <= M -> M + G + 4 <= 2 ^ 64 ->
  Forall (Forall (fun t => Forall itch_datagram_ok t.2)) rounds ->
  Forall (fun e => sequence e <= M) (all_events rounds) -> no_hole 1 (all_events rounds) ->
  let st := wire_replay (S fuel) G capacity NasdaqItch50 target (map (map turn_of) rounds) in
  (exists k, wr_merged st = first_copies 1 (all_events (take k rounds))) /\
  sequence <$> wr_merged st = seqZ 1 (Z.of_nat (length (wr_merged st))) /\
  merged_crc (pstats (wr_pipeline st)) = crc_of_events 0 (wr_merged st) /\
  parse_failures (session_stats (session_a st)) = 0 /\ parse_failures (session_stats (session_b st)) = 0 /\
  (target <= length (first_copies 1 (all_events rounds)) -> target <= length (wr_merged st))%nat.
Proof.
  intros HG HM HGM Hd Hev Hh st.
  destruct (wire_replay_run fuel G M HG HGM capacity target rounds HM Hd Hev Hh) as (k & [Ha Hb _ _ Hp _ _] & Hm & Hk). fold st in Ha, Hb, Hp, Hm, Hk.
  rewrite Hm in *. split_and!.
  - by exists k.
  - apply first_copies_numbers.
  - apply (io_crc _ _ _ _ Hp).
  - apply Ha.
  - apply Hb.
  - intros Ht. by destruct Hk as [->|Hk].
Qed.

(** ** At a concrete input *)

Definition w_datagram (first ingest : Z) (n : nat) : ItchDatagram :=
  mkItchDatagram (repeat 83 10) first (replicate n (mkItchHeader 1 2 7, ItchDelete 9)) ingest.

Lemma w_datagram_ok first ingest n : is_u 64 first -> Z.of_nat n < 2 ^ 16 -> itch_datagram_ok (w_datagram first ingest n).
Proof.
  intros Hf Hn. split; cbn [w_datagram id_name id_first id_messages]; [done|done|by rewrite length_replicate|].
  apply Forall_replicate. split; cbn; unfold is_u; lia.
Qed.

(** A misses the third event, B is late with the first two. *)
Definition w_rounds : list (list ItchTurn) :=
  [[(SideA, [w_datagram 1 77 2])]; [(SideB, [w_datagram 1 90 2; w_datagram 3 91 1]); (SideA, [w_datagram 4 95 1])]].

Lemma wire_replay_lossless_witness :
  let st := wire_replay 1 4 16 NasdaqItch50 4 (map (map turn_of) w_rounds) in
  map ingest_ts_ns (first_copies 1 (all_events w_rounds)) = [77; 77; 91; 95] /\
  sequence <$> wr_merged st = seqZ 1 (Z.of_nat (length (wr_merged st))) /\ (4 <= length (wr_merged st))%nat.
Proof.
  destruct (wire_replay_lossless 0 4 10 16 4 w_rounds) as (_ & H1 & _ & _ & _ & H2); [lia|lia|lia| | | |].
  - unfold w_rounds. repeat first [apply w_datagram_ok; [unfold is_u; lia|lia]|apply Forall_nil_2|apply Forall_cons_2].
  - apply (bool_decide_unpack _); vm_compute; exact I.
  - apply (bool_decide_unpack _); vm_compute; exact I.
  - split; [vm_compute; reflexivity|]. split; [exact H1|]. apply H2. vm_compute. lia.
Defined.
