(* ===== verification/FeedSender.v ===== *)
(** * The synthetic feed (tools/synthetic_mcast_sender.cpp, tools/journal_capture_loopback.cpp)

    The sender numbers its events from one, makes a datagram of each in the
    protocol asked for and sends it to two ports, dropping some at random: the
    draws are a parameter.

    [each_datagram_received]: in each protocol the session that receives a
    datagram delivers the one event it was made of. [sender_to_replay]: sent to
    the replay program over two lossy paths of which one at least carries each
    event, the whole feed is merged.

    The packet of the capture tool has its side and symbol in the wrong places
    ([capture_packet_misplaced]). Sockets, sleeps and arguments are not
    modelled. *)

From S2P Require Import Prelude Wire Types Crc Floats SequenceTracker Recovery Merger Pipeline InOrder AbArbiter Itch Deep Pitch Framing FeedSession AbEvidence WireReplay VenueFeeds.

#[local] Open Scope list_scope.
#[local] Open Scope Z_scope.

(** ** The datagrams *)

(** [be16], [be64] and the byte-swapped members of the packed structs store
    most significant byte first. *)
Definition make_nasdaq_datagram (seq : Z) : list Z :=
  let m := be 2 0 ++ be 2 0 ++ [0; 0; 0; 0; 0; Z.land seq 0xFF] ++ be 8 seq ++ [ch "B"] ++ be 4 100 ++ chars "AAPL    " ++ be 4 (u32 (10000 + u32 (seq mod 1000))) in
  chars "SESSION000" ++ be 8 seq ++ be 2 1 ++ be 2 (u16 (1 + Z.of_nat (length m))) ++ [ch "A"] ++ m.

Definition make_iex_datagram (seq : Z) : list Z :=
  let m := [ch "a"; ch "8"] ++ le_bytes 8 seq ++ chars "AAPL    " ++ le_bytes 8 seq ++ le_bytes 4 100 ++ le_bytes 8 (10000 +64 seq) in
  let payload_len := u16 (2 + Z.of_nat (length m)) in
  [1; 1] ++ be 2 1 ++ [0; 0; 0; 1] ++ be 2 payload_len ++ be 2 1 ++ be 8 seq ++ be 8 seq ++ be 8 seq ++ be 2 (u16 (Z.of_nat (length m))) ++ m.

(** [%08llu] of a number of at most eight digits. *)
Definition make_pitch_datagram (seq : Z) : list Z :=
  encode_digits 10 8 (seq mod 100000000) ++ chars "A000000000001B000100AAPL  0000010000Z" ++ [10].

Definition make_datagram (protocol : WireProtocol) (seq : Z) : list Z :=
  match protocol with
  | IexDeep => make_iex_datagram seq
  | CboePitch => make_pitch_datagram seq
  | NasdaqItch50 => make_nasdaq_datagram seq
  end.

Section sender.
(** The draws of the [seq]-th round, and the two drop rates. *)
Context (u_a u_b : Z -> double) (drop_a drop_b : double).

(** What goes to the two ports. *)
Definition send_round (protocol : WireProtocol) (seq : Z) : list (FeedSide * list Z) :=
  let pkt := make_datagram protocol seq in
  (if dle drop_a (u_a seq) then [(SideA, pkt)] else []) ++ (if dle drop_b (u_b seq) then [(SideB, pkt)] else []).

Definition sender (protocol : WireProtocol) (total : nat) : list (FeedSide * list Z) :=
  concat (map (fun i => send_round protocol (Z.of_nat i)) (seq 1 total)).
End sender.

(** The packet of the capture tool: 58 zero bytes, some of them set. *)
Definition make_pkt (seq : Z) : list Z :=
  let d := chars "SESSION000" ++ be 8 seq ++ be 2 1 ++ be 2 36 ++ repeat 0 36 in
  let set i v d := <[i := v]> d in
  d |> set 22%nat (ch "A") |> set 34%nat (Z.land seq 0xFF) |> set 43%nat (if Z.land seq 1 =? 0 then ch "S" else ch "B")
    |> set 47%nat 10 |> set 48%nat (ch "A") |> set 49%nat (ch "A") |> set 50%nat (ch "P") |> set 51%nat (ch "L")
    |> set 57%nat (u8 (10 + seq mod 8)).

(** ** What is received *)

Definition itch_sent (seq : Z) : ItchHeader * ItchMessage :=
  (mkItchHeader 0 0 (seq mod 256), ItchAdd seq Buy 100 (chars "AAPL    ") (10000 + seq mod 1000)).

Definition sent_event (protocol : WireProtocol) (seq ingest : Z) : BookEvent :=
  match protocol with
  | NasdaqItch50 => itch_event (itch_sent seq).1 (itch_sent seq).2 seq ingest
  | IexDeep => deep_event (DeepAdd Buy seq (chars "AAPL    ") seq 100 (10000 + seq)) seq ingest
  | CboePitch => pitch_event (seq mod 10 ^ 8) 1 (PitchAddShort Buy 100 (chars "AAPL  ") 10000) (seq mod 10 ^ 8) ingest
  end.

Definition nasdaq_datagram (seq ingest : Z) : ItchDatagram := mkItchDatagram (chars "SESSION000") seq [itch_sent seq] ingest.

Lemma nasdaq_datagram_ok seq ingest : is_u 64 seq -> itch_datagram_ok (nasdaq_datagram seq ingest).
Proof.
  intros Hs. split; cbn [nasdaq_datagram id_name id_first id_messages]; [done|done|done|].
  constructor; [|constructor]. pose proof (Z.mod_pos_bound seq 1000 ltac:(lia)). pose proof (Z.mod_pos_bound seq 256 ltac:(lia)).
  split; [cbn [itch_sent fst h_timestamp]; unfold is_u; lia|]. cbn [itch_sent snd itch_message_ok]. split_and!; [done|unfold is_u; lia|done|unfold is_u; lia].
Qed.

Lemma be_land_byte v : be 6 (v mod 256) = [0; 0; 0; 0; 0; Z.land v 0xFF].
Proof.
  change 0xFF with (Z.ones 8). rewrite Z.land_ones by lia. change (2 ^ 8) with 256. pose proof (Z.mod_pos_bound v 256 ltac:(lia)). set (b := v mod 256) in *.
  cbv [be le_bytes rev app]. rewrite (Z.div_small b 256), (Z.mod_small b 256) by lia. done.
Qed.

Lemma nasdaq_datagram_bytes seq ingest : id_bytes (nasdaq_datagram seq ingest) = make_nasdaq_datagram seq.
Proof.
  unfold id_bytes, mold_datagram, make_nasdaq_datagram, nasdaq_datagram, id_payloads. cbn [id_name id_first id_messages map length].
  unfold prefixed_all, prefixed. cbn [map concat fst snd itch_sent]. rewrite app_nil_r.
  unfold encode_itch. cbn [itch_type h_locate h_tracking h_timestamp itch_body encode_side]. rewrite be_land_byte.
  pose proof (Z.mod_pos_bound seq 1000 ltac:(lia)). rewrite (u32_small (seq mod 1000)), u32_small by lia.
  rewrite !length_app, !length_be. cbn [length]. reflexivity.
Qed.

(** The segment of the IEX packet. *)
Definition iex_segment (seq ingest : Z) : IexSegment :=
  mkIexSegment ([1; 1] ++ be 2 1 ++ [0; 0; 0; 1]) (be 8 seq) seq (be 8 seq) [DeepAdd Buy seq (chars "AAPL    ") seq 100 (10000 +64 seq)] [] ingest.

Lemma iex_message_ok seq : is_u 64 seq -> deep_message_ok (DeepAdd Buy seq (chars "AAPL    ") seq 100 (10000 +64 seq)).
Proof. intros Hs. unfold deep_message_ok. split; [done|]. split; [done|]. split; [done|]. split; [unfold is_u; lia|apply u64_range]. Qed.

Lemma iex_segment_fits seq ingest : is_u 64 seq -> iex_segment_ok (iex_segment seq ingest).
Proof.
  intros Hs. split; cbn [iex_segment is_head is_offset is_first is_time is_messages is_payload]; [done|by rewrite length_be|by rewrite length_be|done| |].
  - unfold is_payload, prefixed_all. cbn [iex_segment is_messages map concat]. rewrite app_nil_r, length_prefixed. cbn [encode_deep].
    rewrite !length_app, !length_le_bytes. done.
  - constructor; [by apply iex_message_ok|constructor].
Qed.

Lemma iex_datagram_bytes seq ingest : is_bytes (iex_segment seq ingest) = make_iex_datagram seq.
Proof.
  unfold is_bytes, is_payload, make_iex_datagram, prefixed_all, prefixed, iex_segment. cbn [is_head is_offset is_first is_time is_messages is_pad map concat encode_deep].
  rewrite !app_nil_r, !length_app, !length_be, !length_le_bytes, <-!app_assoc. reflexivity.
Qed.

Definition pitch_line (seq : Z) : list Z := encode_digits 10 8 (seq mod 10 ^ 8) ++ chars "A000000000001B000100AAPL  0000010000Z".

Lemma pitch_datagram_frame seq :
  exists f, frame CboePitch (make_pitch_datagram seq) = [f] /\ frame_payload (make_pitch_datagram seq) f = pitch_line seq /\ fs_sequence f = seq mod 10 ^ 8.
Proof.
  assert (make_pitch_datagram seq = pitch_line seq ++ [10]) as E by (unfold make_pitch_datagram, pitch_line; by rewrite <-app_assoc).
  assert (length (pitch_line seq) = 45%nat) as Hl by (unfold pitch_line; by rewrite length_app, length_encode_digits).
  assert (no_newline (pitch_line seq)) as Hn.
  { unfold pitch_line. apply Forall_app_2.
    - unfold encode_digits. apply Forall_map, Forall_forall. intros d Hd%digits_range; [|lia]. unfold digit_char. change (ch "0") with 48. destruct (_ <? _) eqn:E'; lia.
    - apply (bool_decide_unpack _). vm_compute. exact I. }
  exists (line_frame (make_pitch_datagram seq) 0 45). split; [|split].
  - unfold frame. rewrite E at 1. rewrite length_app. cbn [length]. rewrite Hl. cbn [Nat.add Nat.eqb]. rewrite E at 2.
    rewrite line_loop_skip by done. rewrite Hl. cbn [line_loop Nat.add]. change (10 =? 10) with true. cbn [negb]. cbn [Nat.ltb Nat.leb app].
    rewrite E. rewrite length_app, Hl. done.
  - rewrite E. pose proof (line_frame_payload [] (pitch_line seq) [10]) as H. cbn [app length Nat.add] in H. by rewrite Hl in H.
  - cbn [line_frame fs_sequence Nat.sub Nat.leb]. rewrite E. unfold slice, pitch_line. rewrite drop_0, <-app_assoc, take_app_length' by (by rewrite length_encode_digits).
    rewrite frame_ascii_digits by lia. rewrite Z.mul_0_l, Z.add_0_l. apply Z.mod_mod. lia.
Qed.

Lemma pitch_line_parsed seq s ingest stats :
  pitch_parse_message (pitch_line seq) s ingest stats =
  (Some (pitch_event (seq mod 10 ^ 8) 1 (PitchAddShort Buy 100 (chars "AAPL  ") 10000) s ingest), count_type (ch "A") stats).
Proof.
  pose proof (Z.mod_pos_bound seq (10 ^ 8) ltac:(lia)) as Hs. unfold pitch_line, pitch_event. rewrite <-(ts_encode _ Hs).
  pose proof (length_encode_digits 10 8 (seq mod 10 ^ 8)) as Hl. revert Hl. generalize (encode_digits 10 8 (seq mod 10 ^ 8)). intros l Hl.
  do 8 (destruct l as [|? l]; [done|]). destruct l; [|done]. reflexivity.
Qed.

(** In each protocol a datagram of the sender delivers the one event it was made
    of. *)
Lemma sent_delivers protocol seq ingest : 1 <= seq -> 10000 + seq < 2 ^ 64 ->
  delivers protocol (make_datagram protocol seq) ingest [sent_event protocol seq ingest].
Proof.
  intros H1 H2. assert (is_u 64 seq) as Hs by (unfold is_u; lia). destruct protocol; cbn [make_datagram sent_event].
  - pose proof (itch_datagram_delivers _ (nasdaq_datagram_ok seq ingest Hs)) as H. rewrite nasdaq_datagram_bytes in H.
    replace (id_events (nasdaq_datagram seq ingest)) with [itch_event (itch_sent seq).1 (itch_sent seq).2 seq ingest] in H; [exact H|].
    unfold id_events. cbn. by rewrite Z.add_0_r, u64_small.
  - pose proof (iex_segment_delivers _ (iex_segment_fits seq ingest Hs)) as H. rewrite iex_datagram_bytes in H.
    unfold is_events in H. cbn [iex_segment is_messages is_first is_ingest numbered] in H. change (Z.of_nat 0) with 0 in H.
    rewrite Z.add_0_r, (u64_small seq), (u64_small (10000 + seq)) in H by (unfold is_u; lia). exact H.
  - destruct (pitch_datagram_frame seq) as (x & Hx & Hpay & Hseq). split.
    + unfold make_pitch_datagram. intros E%(f_equal length). by rewrite length_app, length_encode_digits in E.
    + rewrite Hx. constructor; [|constructor]. rewrite Hpay, Hseq. intros [| |s] Hp; try done. cbn [parse_frame]. rewrite pitch_line_parsed. by eexists.
Qed.

(** In each protocol the session that receives a datagram of the sender hands
    its sink that event, and counts no failure. *)
Theorem each_datagram_received protocol seq ingest sd : 1 <= seq -> 10000 + seq < 2 ^ 64 ->
  let '(f, out) := poll collect [RecvData (make_datagram protocol seq) ingest] (session_init protocol sd, []) in
  out = [sent_event protocol seq ingest] /\ parse_failures (session_stats f) = 0.
Proof.
  intros H1 H2. pose proof (poll_delivers protocol [(make_datagram protocol seq, ingest, [sent_event protocol seq ingest])]) as H.
  apply H; [|done|by destruct protocol]. constructor; [by apply sent_delivers|constructor].
Qed.

Lemma each_datagram_received_witness :
  let '(f, out) := poll collect [RecvData (make_datagram IexDeep 7) 9] (session_init IexDeep SideB, []) in
  out = [sent_event IexDeep 7 9] /\ parse_failures (session_stats f) = 0.
Proof. apply (each_datagram_received IexDeep 7 9 SideB); lia. Defined.

(** ** From the sender to the merged stream *)

Section to_replay.
Context (u_a u_b : Z -> double) (drop_a drop_b : double).

(** The ports and numbers of [sender], from [n] on. *)
Definition sent_numbers (n m : nat) : list (FeedSide * Z) :=
  concat (map (fun i => let seq := Z.of_nat i in
    (if dle drop_a (u_a seq) then [(SideA, seq)] else []) ++ (if dle drop_b (u_b seq) then [(SideB, seq)] else [])) (seq n m)).

Lemma sender_numbers protocol total :
  sender u_a u_b drop_a drop_b protocol total = map (fun si => (si.1, make_datagram protocol si.2)) (sent_numbers 1 total).
Proof.
  unfold sender, sent_numbers. rewrite concat_map, map_map. f_equal. apply map_ext. intros i. unfold send_round.
  by destruct (dle drop_a _), (dle drop_b _).
Qed.

(** At least one port gets each number. *)
Definition one_path (total : nat) : Prop := forall i, 1 <= i <= Z.of_nat total -> dle drop_a (u_a i) = true \/ dle drop_b (u_b i) = true.

Lemma numbers_arrive total m : one_path total -> forall n evs, (1 <= n)%nat -> (n + m <= S total)%nat -> map sequence evs = map snd (sent_numbers n m) ->
  no_hole (Z.of_nat n) evs /\ next_after (Z.of_nat n) evs = Z.of_nat (n + m).
Proof.
  intros Hone. induction m as [|m IH]; intros n evs Hn Hm E.
  { cbn in E. apply map_eq_nil in E as ->. cbn. split; [done|lia]. }
  unfold sent_numbers in E. cbn [seq map concat] in E. fold (sent_numbers (S n) m) in E. rewrite map_app in E.
  replace (n + S m)%nat with (S n + m)%nat by lia.
  specialize (Hone (Z.of_nat n) ltac:(lia)). destruct (dle drop_a _), (dle drop_b _); cbn [map app snd] in E; try (by destruct Hone).
  - destruct evs as [|e [|e' evs]]; [done..|]. injection E as E1 E2 E. cbn [no_hole next_after]. rewrite E1, E2, Z.eqb_refl.
    replace (Z.of_nat n =? Z.of_nat n + 1) with false by lia. replace (Z.of_nat n + 1) with (Z.of_nat (S n)) by lia.
    destruct (IH (S n) evs ltac:(lia) ltac:(lia) E) as [Hh Hx]. split_and!; try done; lia.
  - destruct evs as [|e evs]; [done|]. injection E as E1 E. cbn [no_hole next_after]. rewrite E1, Z.eqb_refl.
    replace (Z.of_nat n + 1) with (Z.of_nat (S n)) by lia. destruct (IH (S n) evs ltac:(lia) ltac:(lia) E) as [Hh Hx]. split_and!; try done; lia.
  - destruct evs as [|e evs]; [done|]. injection E as E1 E. cbn [no_hole next_after]. rewrite E1, Z.eqb_refl.
    replace (Z.of_nat n + 1) with (Z.of_nat (S n)) by lia. destruct (IH (S n) evs ltac:(lia) ltac:(lia) E) as [Hh Hx]. split_and!; try done; lia.
Qed.

Lemma sent_numbers_range n m : Forall (fun si => Z.of_nat n <= si.2 < Z.of_nat (n + m)) (sent_numbers n m).
Proof.
  unfold sent_numbers. apply Forall_concat, Forall_map, Forall_forall. intros i [? ?]%elem_of_seq. apply Forall_app.
  split; destruct (dle _ _); repeat constructor; cbn; lia.
Qed.
End to_replay.

(** A datagram of the sender received at the time [t]. *)
Definition itch_turn (si : FeedSide * Z) (t : Z) : ItchTurn := (si.1, [nasdaq_datagram si.2 t]).

Lemma itch_turn_events si t : is_u 64 si.2 -> turn_events (itch_turn si t) = [sent_event NasdaqItch50 si.2 t].
Proof. intros Hs. unfold turn_events, itch_turn. cbn. by rewrite Z.add_0_r, u64_small. Qed.

Lemma itch_turns_events sis : Forall (fun si => is_u 64 si.2) sis -> forall times, length times = length sis ->
  concat (map turn_events (zip_with itch_turn sis times)) = zip_with (fun si t => sent_event NasdaqItch50 si.2 t) sis times.
Proof.
  induction 1 as [|si sis Hs _ IH]; intros [|t times] E; try done. cbn [zip_with map concat]. rewrite itch_turn_events by done. cbn [app]. f_equal.
  apply IH. by injection E.
Qed.

(** Rounds of received datagrams are rounds of ITCH turns. *)
Lemma rounds_of_turns rounds : forall L, concat rounds = map turn_of L -> exists rounds', rounds = map (map turn_of) rounds' /\ concat rounds' = L.
Proof.
  induction rounds as [|ts rounds IH]; intros L E; cbn [concat] in E.
  - symmetry in E. apply map_eq_nil in E as ->. by exists [].
  - symmetry in E. apply map_eq_app in E as (L1 & L2 & -> & <- & E). symmetry in E. destruct (IH L2 E) as (rs & -> & <-). by exists (L1 :: rs).
Qed.

Lemma first_copies_Forall P evs : Forall P evs -> forall next, Forall P (first_copies next evs).
Proof. induction 1 as [|e evs He _ IH]; intros next; cbn [first_copies]; [done|]. destruct (_ =? _); [by constructor|done]. Qed.

Definition received (sd : FeedSide * list Z) (t : Z) : Turn := (sd.1, [RecvData sd.2 t]).

(** The sender and the replay program together: when each number is sent to one
    port at least and the datagrams arrive in the order sent, at any times and
    over any polls, the replay merges the whole feed: the numbers 1 to [total],
    each event the one sent. *)
Theorem sender_to_replay `{StdSort} fuel G capacity u_a u_b drop_a drop_b total times rounds :
  0 <= G -> Z.of_nat total + G + 4 <= 2 ^ 64 -> one_path u_a u_b drop_a drop_b total ->
  let sent := sender u_a u_b drop_a drop_b NasdaqItch50 total in
  length times = length sent -> concat rounds = zip_with received sent times ->
  let st := wire_replay (S fuel) G capacity NasdaqItch50 total rounds in
  map sequence (wr_merged st) = seqZ 1 (Z.of_nat total) /\
  Forall (fun e => e = sent_event NasdaqItch50 (sequence e) (ingest_ts_ns e)) (wr_merged st) /\
  parse_failures (session_stats (session_a st)) = 0 /\ parse_failures (session_stats (session_b st)) = 0.
Proof.
  intros HG HGM Hone sent Ht Hr st. set (ns := sent_numbers u_a u_b drop_a drop_b 1 total).
  assert (sent = map (fun si => (si.1, make_datagram NasdaqItch50 si.2)) ns) as Es by apply sender_numbers. rewrite Es in Ht, Hr. rewrite length_map in Ht.
  assert (Forall (fun si => is_u 64 si.2) ns) as Hns.
  { eapply Forall_impl; [apply sent_numbers_range|]. intros si Hsi. cbn beta in Hsi. unfold is_u. lia. }
  assert (concat rounds = map turn_of (zip_with itch_turn ns times)) as Hc.
  { rewrite Hr. clear -Ht. revert times Ht. induction ns as [|si ns IH]; intros [|t times] E; try done. cbn [map zip_with]. rewrite IH by (by injection E).
    f_equal. unfold received, turn_of, itch_turn. cbn [fst snd map]. by rewrite nasdaq_datagram_bytes. }
  destruct (rounds_of_turns rounds _ Hc) as (rs & -> & Hrs).
  assert (all_events rs = zip_with (fun si t => sent_event NasdaqItch50 si.2 t) ns times) as Hev by (unfold all_events; rewrite Hrs; by apply itch_turns_events).
  assert (map sequence (all_events rs) = map snd ns) as Hseq.
  { rewrite Hev. clear -Ht. revert times Ht. induction ns as [|si ns IH]; intros [|t times] E; try done. cbn [map zip_with]. f_equal. apply IH. by injection E. }
  destruct (numbers_arrive u_a u_b drop_a drop_b total total Hone 1 (all_events rs) ltac:(lia) ltac:(lia) Hseq) as [Hh Hx].
  assert (Forall (Forall (fun t => Forall itch_datagram_ok t.2)) rs) as Hok.
  { apply (proj1 (Forall_concat (fun t : ItchTurn => Forall itch_datagram_ok t.2) rs)). rewrite Hrs. clear -Hns. revert times. induction Hns as [|si ns Hs _ IH]; intros [|t times]; cbn [zip_with]; constructor; [|apply IH].
    constructor; [by apply nasdaq_datagram_ok|constructor]. }
  assert (Forall (fun e => sequence e <= Z.of_nat total) (all_events rs)) as HM.
  { apply (Forall_map sequence (fun z => z <= Z.of_nat total)). rewrite Hseq. apply Forall_map. eapply Forall_impl; [apply sent_numbers_range|]. cbn. lia. }
  destruct (wire_replay_run fuel G (Z.of_nat total) HG HGM capacity total rs ltac:(lia) Hok HM Hh) as (k & [Ha Hb _ _ _ _ Hmax] & Hm & Hk). fold st in Ha, Hb, Hm.
  rewrite Hm. set (L := first_copies 1 _) in *.
  assert (length L = total) as HL.
  { destruct Hk as [Hk|Hk]; [|lia]. pose proof (next_after_length (all_events rs) 1) as Hn. change 1 with (Z.of_nat 1) in Hn at 1. rewrite Hx in Hn. unfold L. rewrite Hk. lia. }
  split; [|split; [|split; [apply Ha|apply Hb]]].
  - rewrite <-HL. apply first_copies_numbers.
  - apply first_copies_Forall. assert (Forall (fun e => e = sent_event NasdaqItch50 (sequence e) (ingest_ts_ns e)) (all_events rs)) as Hall.
    { rewrite Hev. clear. revert times. induction ns as [|si ns IH]; intros [|t times]; cbn [zip_with]; constructor; [done|apply IH]. }
    rewrite <-(take_drop k rs) in Hall. unfold all_events in Hall |- *. rewrite concat_app, map_app, concat_app in Hall. by apply Forall_app in Hall as [? _].
Qed.

(** Two ports that lose different events. *)
Definition w_draw (even : bool) (i : Z) : double := if Bool.eqb (Z.even i) even then dlit 1 2 else dzero.

Definition w_sent : list (FeedSide * list Z) := sender (w_draw true) (w_draw false) (dlit 1 4) dzero NasdaqItch50 3.

Lemma sender_to_replay_witness :
  let st := wire_replay 1 4 16 NasdaqItch50 3 [zip_with received (take 2 w_sent) [7; 8]; zip_with received (drop 2 w_sent) [9; 10]] in
  map fst w_sent = [SideB; SideA; SideB; SideB] /\ map sequence (wr_merged st) = seqZ 1 3 /\
  Forall (fun e => e = sent_event NasdaqItch50 (sequence e) (ingest_ts_ns e)) (wr_merged st).
Proof.
  edestruct (sender_to_replay 0 4 16 (w_draw true) (w_draw false) (dlit 1 4) dzero 3 [7; 8; 9; 10]
    [zip_with received (take 2 w_sent) [7; 8]; zip_with received (drop 2 w_sent) [9; 10]]) as (H1 & H2 & _ & _); [lia|lia| | | |].
  - intros i Hi. right. assert (i = 1 \/ i = 2 \/ i = 3) as [->|[->| ->]] by lia; reflexivity.
  - reflexivity.
  - reflexivity.
  - split; [reflexivity|]. by split.
Defined.

(** Every 'A' message of the capture tool has a zero side, its 'B' or 'S' as a
    byte of the number of shares, its symbol two bytes late after a byte 10,
    and its number in the second byte of the order reference: the event is
    parsed without an error, with an unknown side. *)
Example capture_packet_misplaced :
  let '(f, out) := poll collect [RecvData (make_pkt 1) 9] (session_init NasdaqItch50 SideA, []) in
  parse_failures (session_stats f) = 0 /\
  map (fun e => (sequence e, side e, qty e, symbol e, order_id e, price e)) out =
    [(1, SideUnknown, 66 * 2 ^ 16, [0; 10] ++ chars "AAPL" ++ [0; 0], 2 ^ 48, 11)].
Proof. vm_compute. by split. Qed.

(** The 64-bit price of an IEX packet is clamped to the 32 bits of an event. *)
Example iex_price_clamped : price (sent_event IexDeep (2 ^ 32) 0) = 2 ^ 32 - 1.
Proof. reflexivity. Qed.
