(* ===== verification/CaptureFiles.v ===== *)
(** * Capture files (src/apps/phase1_parser_validate_main.cpp, phase2_ab_evidence_main.cpp)

    The two programs read recorded feeds: files of length-prefixed messages,
    raw ITCH files without lengths, and pcap files of IEX-TP datagrams. A file
    is the list of its bytes, a stream what is left of it; [in.read] of [n]
    bytes succeeds when [n] are left, and every caller gives up when it fails.
    An exception is [None].

    A well-formed file is read to its last whole message; the readers of the
    two programs agree where they should; the merge mode hands the sink the
    deterministic merge of all the messages in the files. *)

From S2P Require Import Prelude Types Crc SequenceTracker Recovery Merger Pipeline InOrder Wire Itch Deep Pitch Framing AbArbiter FeedSession Floats.

#[local] Open Scope list_scope.
#[local] Open Scope Z_scope.

(** ** Streams *)

Definition read (n : nat) (s : list Z) : option (list Z * list Z) :=
  if (n <=? length s)%nat then Some (take n s, drop n s) else None.

(** [in.seekg(n, std::ios::cur)]: past the end nothing is left. *)
Definition seek (n : Z) (s : list Z) : list Z :=
  if Z.of_nat (length s) <=? n then [] else drop (Z.to_nat n) s.

Definition read_u16_be (p : list Z) : Z := be16_at p 0.

(** ** [looks_like_text_csv] *)

Definition is_printable (b : Z) : bool := (32 <=? b) && (b <=? 126) || (b =? 10) || (b =? 13) || (b =? 9).

Definition count (p : Z -> bool) (l : list Z) : Z := Z.of_nat (length (filter (fun b => p b = true) l)).

(** On the first 4096 bytes. *)
Definition looks_like_text_csv (file : list Z) : bool :=
  let buf := take (Z.to_nat 4096) file in
  if (length buf =? 0)%nat then false else
  let printable_ratio := ddiv (of_Z (count is_printable buf)) (of_Z (Z.of_nat (length buf))) in
  dgt printable_ratio (dlit 95 100) && (10 <? count (fun b => b =? ch ",") buf) && (5 <? count (fun b => b =? 10) buf).

(** ** One message *)

Record RunSummary := mkSummary { rs_frames : Z; rs_parsed : Z; rs_malformed : Z; rs_crc : Z }.
Definition summary_init : RunSummary := mkSummary 0 0 0 0.

(** The malformed messages the parser counted. *)
Definition parser_malformed (p : ParserState) : Z :=
  match p with
  | ItchParser s | PitchParser s => malformed_messages s
  | DeepParser s => malformed_messages (deep_base s)
  end.

(** Where a run stands: the summary, the parser, [seq], and the pipeline or
    whatever else takes the events. *)
Record RunState (S : Type) := mkRun { run_summary : RunSummary; run_parser : ParserState; run_seq : Z; run_sink : S }.
Arguments mkRun {S} _ _ _ _.
Arguments run_summary {S} _.
Arguments run_parser {S} _.
Arguments run_seq {S} _.
Arguments run_sink {S} _.

Section files.
(** The monotonic clock as it is read for each message. *)
Context (clock : Z -> Z) {S : Type} (sink : S -> BookEvent -> S).

Definition run_init (p : ParserState) (s : S) : RunState S := mkRun summary_init p 1 s.

Definition on_message (st : RunState S) (msg : list Z) : RunState S :=
  let s := run_summary st in
  let '(ev, p) := parse_frame (run_parser st) msg (run_seq st) (clock (run_seq st)) in
  match ev with
  | Some ev => mkRun (mkSummary (rs_frames s +64 1) (rs_parsed s +64 1) (rs_malformed s) (update_crc_from_book_event (rs_crc s) ev))
                     p (run_seq st +64 1) (sink (run_sink st) ev)
  | None => mkRun (mkSummary (rs_frames s +64 1) (rs_parsed s) (rs_malformed s) (rs_crc s)) p (run_seq st +64 1) (run_sink st)
  end.

Definition count_malformed (st : RunState S) : RunState S :=
  let s := run_summary st in
  mkRun (mkSummary (rs_frames s) (rs_parsed s) (rs_malformed s +64 1) (rs_crc s)) (run_parser st) (run_seq st) (run_sink st).

(** [summary.malformed += stats.malformed_messages] *)
Definition run_end (st : RunState S) : RunState S :=
  let s := run_summary st in
  mkRun (mkSummary (rs_frames s) (rs_parsed s) (rs_malformed s +64 parser_malformed (run_parser st)) (rs_crc s))
        (run_parser st) (run_seq st) (run_sink st).

(** ** Length-prefixed files ([run_framed_file], [run_framed_file_phase2]) *)

Fixpoint framed_loop (fuel : nat) (s : list Z) (st : RunState S) : RunState S :=
  match fuel with
  | O => st
  | Datatypes.S fuel =>
      match read 2 s with
      | None => st
      | Some (len_buf, s) =>
          let msg_len := read_u16_be len_buf in
          if msg_len =? 0 then framed_loop fuel s (count_malformed st)
          else match read (Z.to_nat msg_len) s with
               | None => st
               | Some (msg, s) => framed_loop fuel s (on_message st msg)
               end
      end
  end.

Definition run_framed_file (file : list Z) (p : ParserState) (s : S) : RunState S :=
  run_end (framed_loop (Datatypes.S (length file)) file (run_init p s)).

(** ** Raw ITCH files *)

Definition nasdaq_itch_wire_len (t : Z) : nat :=
  if t =? ch "A" then sizeof Itch.AddOrderMessage + 1
  else if t =? ch "F" then sizeof Itch.AddOrderMpidMessage + 1
  else if t =? ch "E" then sizeof Itch.OrderExecutedMessage + 1
  else if t =? ch "C" then sizeof Itch.OrderExecutedPriceMessage + 1
  else if t =? ch "X" then sizeof Itch.OrderCancelMessage + 1
  else if t =? ch "D" then sizeof OrderDeleteMessage + 1
  else if t =? ch "U" then sizeof OrderReplaceMessage + 1
  else if t =? ch "P" then sizeof Itch.TradeMessage + 1
  else if t =? ch "Q" then sizeof CrossTradeMessage + 1
  else if t =? ch "I" then sizeof NoiiMessage + 1
  else if t =? ch "S" then sizeof Itch.SystemEventMessage + 1
  else if t =? ch "R" then sizeof StockDirectoryMessage + 1
  else 0.

Fixpoint raw_loop (fuel : nat) (s : list Z) (st : RunState S) : option (RunState S) :=
  match fuel with
  | O => None
  | Datatypes.S fuel =>
      match s with
      | [] => Some st
      | t :: s =>
          let msg_len := nasdaq_itch_wire_len t in
          if (msg_len =? 0)%nat then None
          else match read (msg_len - 1) s with
               | None => Some st
               | Some (body, s) => raw_loop fuel s (on_message st (t :: body))
               end
      end
  end.

Definition run_nasdaq_raw_itch_file (file : list Z) (p : ParserState) (s : S) : option (RunState S) :=
  run_end <$> raw_loop (Datatypes.S (length file)) file (run_init p s).

(** ** pcap files *)

(** What the checks of one captured packet come to. *)
Inductive PacketCheck := PacketMalformed | PacketSkipped | PacketPayload (payload : list Z).

Definition ip_header_len (pkt : list Z) : nat := Z.to_nat (Z.land (nth 14 pkt 0) 0x0F) * 4.
Definition is_ipv4 (pkt : list Z) : bool := (nth 12 pkt 0 =? 0x08) && (nth 13 pkt 0 =? 0x00).

(** The UDP length and the payload it leaves in the packet. *)
Definition check_udp (pkt : list Z) (ip_hlen : nat) : PacketCheck :=
  let udp_off := (14 + ip_hlen)%nat in
  let udp_len := Z.to_nat (be16_at pkt (udp_off + 4)) in
  if (udp_len <? 8)%nat then PacketMalformed else
  let udp_payload_len := (udp_len - 8)%nat in
  if (length pkt <? udp_off + 8 + udp_payload_len)%nat then PacketMalformed else
  if (udp_payload_len <? 40)%nat then PacketMalformed else
  PacketPayload (slice pkt (udp_off + 8) udp_payload_len).

(** In [run_iex_pcap_file] ... *)
Definition check_packet (pkt : list Z) : PacketCheck :=
  if (length pkt <? 42)%nat then PacketMalformed else
  if negb (is_ipv4 pkt) then PacketSkipped else
  let ip_hlen := ip_header_len pkt in
  if (ip_hlen <? 20)%nat || (length pkt <? 14 + ip_hlen + 8)%nat then PacketMalformed else
  if negb (nth (14 + 9) pkt 0 =? 17) then PacketSkipped else
  check_udp pkt ip_hlen.

(** ... and in [run_iex_pcap_file_phase2], which counts less. *)
Definition check_packet_phase2 (pkt : list Z) : PacketCheck :=
  if (length pkt <? 42)%nat || negb (is_ipv4 pkt) then PacketSkipped else
  let ip_hlen := ip_header_len pkt in
  if (ip_hlen <? 20)%nat || (length pkt <? 14 + ip_hlen + 8)%nat || negb (nth (14 + 9) pkt 0 =? 17) then PacketSkipped else
  check_udp pkt ip_hlen.

(** The messages of a payload from offset 40 on, each with its little-endian
    length; [s] is the payload from [off] on. *)
Fixpoint messages_loop (fuel : nat) (s : list Z) (st : RunState S) : RunState S :=
  match fuel with
  | O => st
  | Datatypes.S fuel =>
      match read 2 s with
      | None => st
      | Some (len_buf, s) =>
          let msg_len := Z.to_nat (le_val len_buf) in
          if (msg_len =? 0)%nat || (length s <? msg_len)%nat then count_malformed st
          else messages_loop fuel (drop msg_len s) (on_message st (take msg_len s))
      end
  end.

Section pcap.
Context (check : list Z -> PacketCheck).

Definition on_packet (st : RunState S) (pkt : list Z) : RunState S :=
  match check pkt with
  | PacketMalformed => count_malformed st
  | PacketSkipped => st
  | PacketPayload payload => let s := drop 40 payload in messages_loop (Datatypes.S (length s)) s st
  end.

(** A packet of an impossible length is counted but not passed over. *)
Fixpoint pcap_loop (fuel : nat) (s : list Z) (st : RunState S) : RunState S :=
  match fuel with
  | O => st
  | Datatypes.S fuel =>
      match read 16 s with
      | None => st
      | Some (ph, s) =>
          let incl_len := le_val (slice ph 8 4) in
          if incl_len =? 0 then pcap_loop fuel s (count_malformed st)
          else if 65535 <? incl_len then pcap_loop fuel s (count_malformed st)
          else match read (Z.to_nat incl_len) s with
               | None => st
               | Some (pkt, s) => pcap_loop fuel s (on_packet st pkt)
               end
      end
  end.

Definition pcap_magic_ok (gh : list Z) : bool :=
  let magic := le_val (take 4 gh) in (magic =? 0xa1b2c3d4) || (magic =? 0xd4c3b2a1).

Definition run_pcap (file : list Z) (p : ParserState) (s : S) : option (RunState S) :=
  match read 24 file with
  | None => None
  | Some (gh, rest) =>
      if pcap_magic_ok gh then Some (run_end (pcap_loop (Datatypes.S (length rest)) rest (run_init p s))) else None
  end.
End pcap.

Definition run_iex_pcap_file : list Z -> ParserState -> S -> option (RunState S) := run_pcap check_packet.
Definition run_iex_pcap_file_phase2 : list Z -> ParserState -> S -> option (RunState S) := run_pcap check_packet_phase2.

End files.

(** ** The loaders of phase2_ab_evidence *)

(** They keep the events only: the parser, [seq] and [out]. *)
Record LoadState := mkLoad { load_parser : ParserState; load_seq : Z; load_out : list BookEvent }.

Section loaders.
Context (clock : Z -> Z).

Definition load_message (st : LoadState) (msg : list Z) : LoadState :=
  let '(ev, p) := parse_frame (load_parser st) msg (load_seq st) (clock (load_seq st)) in
  mkLoad p (load_seq st +64 1) (match ev with Some ev => load_out st ++ [ev] | None => load_out st end).

(** [load_nasdaq_framed] and [load_cboe_framed]. *)
Fixpoint load_framed_loop (fuel : nat) (s : list Z) (st : LoadState) : LoadState :=
  match fuel with
  | O => st
  | S fuel =>
      match read 2 s with
      | None => st
      | Some (lbuf, s) =>
          let len := read_u16_be lbuf in
          if len =? 0 then load_framed_loop fuel s st
          else match read (Z.to_nat len) s with
               | None => st
               | Some (msg, s) => load_framed_loop fuel s (load_message st msg)
               end
      end
  end.

Definition load_framed (p : ParserState) (file : list Z) (out : list BookEvent) : list BookEvent :=
  load_out (load_framed_loop (S (length file)) file (mkLoad p 1 out)).

Fixpoint load_raw_loop (fuel : nat) (s : list Z) (st : LoadState) : option LoadState :=
  match fuel with
  | O => None
  | S fuel =>
      match s with
      | [] => Some st
      | t :: s =>
          let len := nasdaq_itch_wire_len t in
          if (len =? 0)%nat then None
          else match read (len - 1) s with
               | None => Some st
               | Some (body, s) => load_raw_loop fuel s (load_message st (t :: body))
               end
      end
  end.

Definition load_nasdaq_raw_itch (file : list Z) (out : list BookEvent) : option (list BookEvent) :=
  load_out <$> load_raw_loop (S (length file)) file (mkLoad (ItchParser parse_stats_init) 1 out).

(** The messages of a payload at [base] of the packet, [udp_pl] long as the
    length field has it: [None] when a read leaves the packet. *)
Fixpoint load_messages (fuel : nat) (pkt : list Z) (base : nat) (udp_pl off : Z) (st : LoadState) : option LoadState :=
  match fuel with
  | O => None
  | S fuel =>
      if udp_pl <? off + 2 then Some st else
      let at_ := (base + Z.to_nat off)%nat in
      match pkt !! at_, pkt !! (at_ + 1)%nat with
      | Some b0, Some b1 =>
          let mlen := b0 + 256 * b1 in
          let off := off + 2 in
          if (mlen =? 0) || (udp_pl <? off + mlen) then Some st
          else if (length pkt <? at_ + 2 + Z.to_nat mlen)%nat then None
          else load_messages fuel pkt base udp_pl (off + mlen) (load_message st (slice pkt (at_ + 2) (Z.to_nat mlen)))
      | _, _ => None
      end
  end.

(** [udp_pl] is a [size_t]: a length field below 8 wraps it around. *)
Definition load_packet (pkt : list Z) (st : LoadState) : option LoadState :=
  if (length pkt <? 42)%nat || negb (is_ipv4 pkt) then Some st else
  let ip_hlen := ip_header_len pkt in
  if (ip_hlen <? 20)%nat || (length pkt <? 14 + ip_hlen + 8)%nat || negb (nth (14 + 9) pkt 0 =? 17) then Some st else
  let udp_off := (14 + ip_hlen)%nat in
  let udp_pl := be16_at pkt (udp_off + 4) -64 8 in
  if (Z.of_nat (length pkt) <? (Z.of_nat udp_off + 8) +64 udp_pl) || (udp_pl <? 40) then Some st else
  load_messages (S (length pkt)) pkt (udp_off + 8) udp_pl 40 st.

Fixpoint load_pcap_loop (fuel : nat) (s : list Z) (st : LoadState) : option LoadState :=
  match fuel with
  | O => Some st
  | S fuel =>
      match read 16 s with
      | None => Some st
      | Some (ph, s) =>
          let incl := le_val (slice ph 8 4) in
          if (incl =? 0) || (65535 <? incl) then load_pcap_loop fuel (seek incl s) st
          else match read (Z.to_nat incl) s with
               | None => Some st
               | Some (pkt, s) => match load_packet pkt st with Some st => load_pcap_loop fuel s st | None => None end
               end
      end
  end.

(** [None]: an exception, or a read outside a packet. *)
Definition load_iex_pcap (file : list Z) (out : list BookEvent) : option (list BookEvent) :=
  match read 24 file with
  | None => None
  | Some (gh, rest) =>
      if pcap_magic_ok gh
      then load_out <$> load_pcap_loop (S (length rest)) rest (mkLoad (DeepParser (mkDeepStats parse_stats_init 0)) 1 out)
      else None
  end.
End loaders.

(** ** The merge modes *)

Definition itch_parser : ParserState := ItchParser parse_stats_init.
Definition deep_parser : ParserState := DeepParser (mkDeepStats parse_stats_init 0).
Definition pitch_parser : ParserState := PitchParser parse_stats_init.

Definition run_framed_file_phase2 (clock : Z -> Z) : list Z -> ParserState -> Pipeline -> RunState Pipeline :=
  run_framed_file clock pipeline_on_event.

(** [--phase2-merge], [--phase2-merge-jit] and [--phase3-merge-features]: the
    files one after the other into a pipeline; the summaries, and the pipeline
    before it is finalized ... *)
Definition merge_sources (clock : Z -> Z) (nasdaq iex : list Z) (cboe : option (list Z))
    : option (RunSummary * RunSummary * option RunSummary * Pipeline) :=
  if looks_like_text_csv nasdaq || looks_like_text_csv iex || match cboe with Some c => looks_like_text_csv c | None => false end
  then None else
  let n := run_framed_file_phase2 clock nasdaq itch_parser (pipeline_init 256 (2 ^ 20)) in
  i ← run_iex_pcap_file_phase2 clock pipeline_on_event iex deep_parser (run_sink n);
  let '(c, p) :=
    match cboe with
    | Some f => let c := run_framed_file_phase2 clock f pitch_parser (run_sink i) in (Some (run_summary c), run_sink c)
    | None => (None, run_sink i)
    end in
  Some (run_summary n, run_summary i, c, p).

(** ... into the bridge of the mode, if any. *)
Definition merge_files (clock : Z -> Z) `{MergedEventSink T} (nasdaq iex : list Z) (cboe : option (list Z)) (sink : option T)
    : option (RunSummary * RunSummary * option RunSummary * Pipeline * option T) :=
  '(n, i, c, p) ← merge_sources clock nasdaq iex cboe;
  let '(p, sink) := pipeline_finalize p sink in
  Some (n, i, c, p, sink).

(** The default mode: no pipeline, the checksums of the files combined. *)
Definition combined_crc (clock : Z -> Z) (nasdaq iex : list Z) (cboe : option (list Z)) : option Z :=
  if looks_like_text_csv nasdaq || looks_like_text_csv iex || match cboe with Some c => looks_like_text_csv c | None => false end
  then None else
  let keep (s : unit) (_ : BookEvent) := s in
  let n := run_framed_file clock keep nasdaq itch_parser tt in
  i ← run_iex_pcap_file clock keep iex deep_parser tt;
  let combined := Z.lxor (rs_crc (run_summary n)) (rs_crc (run_summary i)) in
  Some match cboe with
       | Some f => Z.lxor combined (rs_crc (run_summary (run_framed_file clock keep f pitch_parser tt)))
       | None => combined
       end.

(** ** Reading whole records *)

Lemma read_app a s : read (length a) (a ++ s) = Some (a, s).
Proof.
  unfold read. rewrite length_app. replace (length a <=? length a + length s)%nat with true by (symmetry; apply Nat.leb_le; lia).
  by rewrite take_app_length, drop_app_length.
Qed.

Lemma read_n n a s : length a = n -> read n (a ++ s) = Some (a, s).
Proof. intros <-. apply read_app. Qed.

Lemma read_short n s : (length s < n)%nat -> read n s = None.
Proof. intros Hn. unfold read. by replace (n <=? length s)%nat with false by (symmetry; apply Nat.leb_gt; lia). Qed.

Lemma read_u16_be_be n : 0 <= n < 2 ^ 16 -> read_u16_be (be 2 n) = n.
Proof. intros Hn. pose proof (be16_at_be [] n [] Hn) as H. by rewrite app_nil_r in H. Qed.

Lemma read_prefixed m s : packable m ->
  read 2 (prefixed m ++ s) = Some (be 2 (Z.of_nat (length m)), m ++ s) /\
  read_u16_be (be 2 (Z.of_nat (length m))) = Z.of_nat (length m).
Proof.
  intros Hm. unfold packable in Hm. split; [|apply read_u16_be_be; lia].
  unfold prefixed. rewrite <-app_assoc. apply read_n, length_be.
Qed.

(** What is left of a record cut short. *)
Definition torn_record (tail : list Z) : Prop := exists m k, packable m /\ (k < length (prefixed m))%nat /\ tail = take k (prefixed m).

Lemma torn_framed tail : torn_record tail ->
  read 2 tail = None \/ exists m t, packable m /\ read 2 tail = Some (be 2 (Z.of_nat (length m)), t) /\ (length t < length m)%nat.
Proof.
  intros (m & k & Hm & Hk & ->). rewrite length_prefixed in Hk.
  destruct (decide (k < 2)%nat) as [Hs|Hs]; [left; apply read_short; rewrite length_take; lia|right].
  exists m, (take (k - 2) m). split; [done|]. split; [|rewrite length_take; lia].
  unfold prefixed. rewrite take_app, length_be, take_ge by (rewrite length_be; lia). apply read_n, length_be.
Qed.

Section framed.
Context (clock : Z -> Z) {S : Type} (sink : S -> BookEvent -> S).

Lemma framed_loop_spec ms tail : Forall packable ms -> torn_record tail -> forall fuel st, (length ms < fuel)%nat ->
  framed_loop clock sink fuel (prefixed_all ms ++ tail) st = fold_left (on_message clock sink) ms st.
Proof.
  intros Hms Ht. induction Hms as [|m ms Hm _ IH]; intros [|fuel] st Hf; try (simpl in Hf; lia).
  - cbn [prefixed_all map concat app framed_loop fold_left].
    destruct (torn_framed tail Ht) as [->|(m & t & Hm & -> & Hl)]; [done|].
    rewrite read_u16_be_be by (unfold packable in Hm; lia). unfold packable in Hm.
    replace (Z.of_nat (length m) =? 0) with false by lia. by rewrite Nat2Z.id, read_short.
  - rewrite prefixed_all_cons, <-app_assoc. cbn [framed_loop fold_left]. destruct (read_prefixed m (prefixed_all ms ++ tail) Hm) as [-> ->].
    unfold packable in Hm. replace (Z.of_nat (length m) =? 0) with false by lia. rewrite Nat2Z.id, read_app.
    apply IH. simpl in Hf. lia.
Qed.

Lemma length_prefixed_all ms : (length ms <= length (prefixed_all ms))%nat.
Proof.
  induction ms as [|m ms IH]; [done|]. rewrite prefixed_all_cons, length_app, length_prefixed. simpl. lia.
Qed.

(** *** Runs of messages that parse *)

(** A message with the event it stands for. *)
Definition Item : Type := list Z * (Z -> Z -> BookEvent).

(** The parser stays in [P] and delivers the event. *)
Definition parses (P : ParserState -> Prop) (it : Item) : Prop :=
  forall p seq ingest, P p -> exists p', parse_frame p it.1 seq ingest = (Some (it.2 seq ingest), p') /\ P p'.

(** Events of messages numbered from [seq] on. *)
Fixpoint events_from (seq : Z) (items : list Item) : list BookEvent :=
  match items with
  | [] => []
  | it :: items => it.2 seq (clock seq) :: events_from (seq + 1) items
  end.

Lemma length_events_from items : forall seq, length (events_from seq items) = length items.
Proof. induction items as [|it items IH]; intros seq; [done|]. cbn [events_from length]. by rewrite IH. Qed.

Definition advance (evs : list BookEvent) (p : ParserState) (st : RunState S) : RunState S :=
  let s := run_summary st in let n := Z.of_nat (length evs) in
  mkRun (mkSummary (rs_frames s + n) (rs_parsed s + n) (rs_malformed s) (crc_of_events (rs_crc s) evs))
        p (run_seq st + n) (fold_left sink evs (run_sink st)).

(** No counter is near 2^64. *)
Definition run_room (n : nat) (st : RunState S) : Prop :=
  0 <= rs_frames (run_summary st) /\ rs_frames (run_summary st) + Z.of_nat n < 2 ^ 64 /\
  0 <= rs_parsed (run_summary st) /\ rs_parsed (run_summary st) + Z.of_nat n < 2 ^ 64 /\
  0 <= run_seq st /\ run_seq st + Z.of_nat n < 2 ^ 64.

Lemma fold_on_messages P items : Forall (parses P) items -> forall st, P (run_parser st) -> run_room (length items) st ->
  exists p', P p' /\ fold_left (on_message clock sink) (map fst items) st = advance (events_from (run_seq st) items) p' st.
Proof.
  induction 1 as [|it items Hit _ IH]; intros [s p seq snk] Hp Hr.
  - exists p. split; [done|]. unfold advance. cbn. destruct s. by rewrite !Z.add_0_r.
  - unfold run_room in Hr. cbn [run_summary run_seq length] in Hr. cbn [run_parser] in Hp.
    cbn [map fold_left fst]. unfold on_message at 2. cbn [run_summary run_parser run_seq run_sink].
    destruct (Hit p seq (clock seq) Hp) as (p1 & -> & Hp1). rewrite !u64_small by lia.
    set (st1 := mkRun _ _ _ _). destruct (IH st1 Hp1) as (p' & Hp' & ->); [unfold run_room; cbn; lia|].
    exists p'. split; [done|]. subst st1. unfold advance. cbn [run_summary run_seq run_sink rs_frames rs_parsed rs_malformed rs_crc].
    cbn [events_from length fold_left]. rewrite !Nat2Z.inj_succ. f_equal; [f_equal|]; lia.
Qed.

(** A length-prefixed file, its last record cut short or not. *)
Lemma run_framed_items P items tail p s : Forall (parses P) items -> P p -> (forall p, P p -> parser_malformed p = 0) ->
  Forall packable (map fst items) -> torn_record tail -> Z.of_nat (length items) + 1 < 2 ^ 64 ->
  let evs := events_from 1 items in let n := Z.of_nat (length items) in
  exists p', P p' /\
  run_framed_file clock sink (prefixed_all (map fst items) ++ tail) p s =
  mkRun (mkSummary n n 0 (crc_of_events 0 evs)) p' (1 + n) (fold_left sink evs s).
Proof.
  intros Hit Hp Hmal Hpk Ht Hn evs n. unfold run_framed_file. rewrite framed_loop_spec; [|done|done|].
  2:{ rewrite length_app, length_map. pose proof (length_prefixed_all (map fst items)). rewrite length_map in *. lia. }
  destruct (fold_on_messages P items Hit (run_init p s) Hp) as (p' & Hp' & ->); [unfold run_room; cbn; lia|].
  exists p'. split; [done|]. unfold run_end, advance. cbn [run_summary run_init rs_frames rs_parsed rs_malformed rs_crc run_parser run_seq run_sink summary_init].
  rewrite (Hmal p' Hp'), length_events_from. done.
Qed.
End framed.

(** ** The two programs read the same events *)

Definition snoc (out : list BookEvent) (ev : BookEvent) : list BookEvent := out ++ [ev].

Definition loaded (st : RunState (list BookEvent)) : LoadState := mkLoad (run_parser st) (run_seq st) (run_sink st).

Section loaders_agree.
Context (clock : Z -> Z).

Lemma loaded_message st msg : loaded (on_message clock snoc st msg) = load_message clock (loaded st) msg.
Proof. unfold on_message, load_message, loaded. cbn. by destruct (parse_frame _ _ _ _) as [[ev|] p]. Qed.

Lemma loaded_framed fuel : forall s st, loaded (framed_loop clock snoc fuel s st) = load_framed_loop clock fuel s (loaded st).
Proof.
  induction fuel as [|fuel IH]; intros s st; [done|]. cbn [framed_loop load_framed_loop].
  destruct (read 2 s) as [[lb s1]|]; [|done]. case_match; [by rewrite IH|].
  destruct (read _ s1) as [[msg s2]|]; [|done]. by rewrite IH, loaded_message.
Qed.

Lemma loaded_raw fuel : forall s st, loaded <$> raw_loop clock snoc fuel s st = load_raw_loop clock fuel s (loaded st).
Proof.
  induction fuel as [|fuel IH]; intros s st; [done|]. cbn [raw_loop load_raw_loop]. destruct s as [|t s]; [done|].
  case_match; [done|]. destruct (read _ s) as [[body s2]|]; [|done]. by rewrite IH, loaded_message.
Qed.

(** One iteration over a payload that lies in the packet. *)
Lemma slice_read pkt base n off : (off + 2 <= n)%nat -> (base + n <= length pkt)%nat ->
  exists b0 b1, pkt !! (base + off)%nat = Some b0 /\ pkt !! (base + off + 1)%nat = Some b1 /\
  read 2 (drop off (slice pkt base n)) = Some ([b0; b1], drop (off + 2) (slice pkt base n)).
Proof.
  intros Ho Hn. destruct (lookup_lt_is_Some_2 pkt (base + off)) as [b0 H0]; [lia|].
  destruct (lookup_lt_is_Some_2 pkt (base + off + 1)) as [b1 H1]; [lia|]. exists b0, b1. split_and!; [done..|].
  assert (forall i, (i < n)%nat -> slice pkt base n !! i = pkt !! (base + i)%nat) as Hsl.
  { intros i Hi. unfold slice. rewrite lookup_take_lt by lia. apply lookup_drop. }
  assert (slice pkt base n !! off = Some b0) as E0 by (rewrite Hsl by lia; done).
  assert (slice pkt base n !! Datatypes.S off = Some b1) as E1.
  { rewrite Hsl by lia. by replace (base + Datatypes.S off)%nat with (base + off + 1)%nat by lia. }
  rewrite (drop_S _ _ _ E0), (drop_S _ _ _ E1). replace (off + 2)%nat with (Datatypes.S (Datatypes.S off)) by lia.
  apply (read_n 2 [b0; b1]). done.
Qed.

Lemma le_val_pair a b : le_val [a; b] = a + 256 * b.
Proof. rewrite le_val_cons, le_val_single. done. Qed.

Lemma loaded_messages fuel : forall fuel' pkt base n off st, bytes_ok pkt -> (base + n <= length pkt)%nat ->
  (off <= n)%nat -> (n < off + fuel)%nat -> (n < off + fuel')%nat ->
  load_messages clock fuel' pkt base (Z.of_nat n) (Z.of_nat off) (loaded st) =
  Some (loaded (messages_loop clock snoc fuel (drop off (slice pkt base n)) st)).
Proof.
  induction fuel as [|fuel IH]; intros [|fuel'] pkt base n off st Hok Hb Ho Hf Hf'; try lia.
  assert (length (slice pkt base n) = n) as Hsl by (rewrite length_slice; lia).
  cbn [load_messages messages_loop]. destruct (decide (n < off + 2)%nat) as [Hend|Hend].
  - replace (Z.of_nat n <? Z.of_nat off + 2) with true by lia. by rewrite read_short by (rewrite length_drop; lia).
  - replace (Z.of_nat n <? Z.of_nat off + 2) with false by lia. rewrite Nat2Z.id.
    destruct (slice_read pkt base n off) as (b0 & b1 & H0 & H1 & ->); [lia|done|]. rewrite H0, H1, <-le_val_pair.
    assert (bytes_ok [b0; b1]) as Hb2 by (constructor; [exact (Forall_lookup_1 _ _ _ _ Hok H0)|constructor; [exact (Forall_lookup_1 _ _ _ _ Hok H1)|constructor]]).
    pose proof (le_val_range _ Hb2) as Hm. set (mlen := Z.to_nat (le_val [b0; b1])) in *.
    replace (le_val [b0; b1]) with (Z.of_nat mlen) by (unfold mlen; lia). clearbody mlen. clear Hm.
    replace (Z.of_nat mlen =? 0) with (mlen =? 0)%nat by (destruct (Nat.eqb_spec mlen 0); lia).
    rewrite length_drop, Hsl. replace (n - (off + 2) <? mlen)%nat with (Z.of_nat n <? Z.of_nat off + 2 + Z.of_nat mlen)
      by (destruct (Nat.ltb_spec (n - (off + 2)) mlen); lia).
    destruct (_ || _) eqn:Estop; [done|]. apply orb_false_iff in Estop as [Ez%Nat.eqb_neq Ele%Z.ltb_ge].
    replace (length pkt <? base + off + 2 + mlen)%nat with false by (symmetry; apply Nat.ltb_ge; lia).
    replace (Z.of_nat off + 2 + Z.of_nat mlen) with (Z.of_nat (off + 2 + mlen)) by lia.
    assert (slice pkt (base + off + 2) mlen = take mlen (drop (off + 2) (slice pkt base n))) as ->.
    { unfold slice. rewrite skipn_firstn_comm, take_take, drop_drop.
      replace (mlen `min` (n - (off + 2)))%nat with mlen by lia. by replace (base + (off + 2))%nat with (base + off + 2)%nat by lia. }
    rewrite <-loaded_message, (IH fuel' pkt base n (off + 2 + mlen)%nat); [|exact Hok|exact Hb|lia|lia|lia].
    by rewrite drop_drop.
Qed.

(** The UDP length of a UDP packet covers its own header. *)
Definition udp_length_ok (pkt : list Z) : Prop :=
  is_ipv4 pkt = true -> nth 23 pkt 0 = 17 -> 8 <= be16_at pkt (14 + ip_header_len pkt + 4).

Lemma loaded_packet pkt st : bytes_ok pkt -> Z.of_nat (length pkt) <= 65535 -> udp_length_ok pkt ->
  load_packet clock pkt (loaded st) = Some (loaded (on_packet clock snoc check_packet_phase2 st pkt)).
Proof.
  intros Hok Hl Hu. unfold load_packet, on_packet, check_packet_phase2. unfold udp_length_ok in Hu.
  destruct (length pkt <? 42)%nat eqn:E1; [done|]. destruct (is_ipv4 pkt) eqn:E2; [|done]. cbn [orb negb].
  set (ih := ip_header_len pkt) in *. destruct (ih <? 20)%nat eqn:E3; [done|].
  destruct (length pkt <? 14 + ih + 8)%nat eqn:E4; [done|]. cbn [orb]. change (14 + 9)%nat with 23%nat.
  destruct (Z.eqb_spec (nth 23 pkt 0) 17) as [E5|E5]; [|done]. cbn [negb]. specialize (Hu eq_refl E5).
  apply Nat.ltb_ge in E4. destruct (be16_at_inv pkt (14 + ih + 4) Hok ltac:(lia)) as [Hr _].
  unfold check_udp. set (u := be16_at pkt (14 + ih + 4)) in *. clearbody u ih. clear E1 E3. change (2 ^ 16) with 65536 in Hr.
  rewrite (u64_small (u - 8)), u64_small by lia.
  replace (Z.to_nat u <? 8)%nat with false by (symmetry; apply Nat.ltb_ge; lia).
  destruct (Nat.ltb_spec (length pkt) (14 + ih + 8 + (Z.to_nat u - 8))) as [E6|E6].
  { by rewrite (proj2 (Z.ltb_lt _ _)) by lia. }
  rewrite (proj2 (Z.ltb_ge _ _)) by lia. cbn [orb].
  destruct (Nat.ltb_spec (Z.to_nat u - 8) 40) as [E7|E7]; [by replace (u - 8 <? 40) with true by lia|].
  replace (u - 8 <? 40) with false by lia. set (n := (Z.to_nat u - 8)%nat) in *.
  replace (u - 8) with (Z.of_nat n) by lia. change 40 with (Z.of_nat 40) at 1.
  assert (length (slice pkt (14 + ih + 8) n) = n) as Hs by (rewrite length_slice; lia).
  apply loaded_messages; [exact Hok|lia|lia| |lia]. rewrite length_drop, Hs. lia.
Qed.
End loaders_agree.

(** ** Captures *)

(** A packet as the capture holds it: its time stamp, original length and bytes. *)
Record Captured := mkCaptured { cap_ts : list Z; cap_orig : list Z; cap_bytes : list Z }.

Definition captured_ok (c : Captured) : Prop :=
  length (cap_ts c) = 8%nat /\ length (cap_orig c) = 4%nat /\ 0 < Z.of_nat (length (cap_bytes c)) <= 65535.

Definition captured (c : Captured) : list Z :=
  cap_ts c ++ le_bytes 4 (Z.of_nat (length (cap_bytes c))) ++ cap_orig c ++ cap_bytes c.

Definition captured_all (cs : list Captured) : list Z := concat (map captured cs).

(** The record header. *)
Definition captured_head (c : Captured) : list Z :=
  cap_ts c ++ le_bytes 4 (Z.of_nat (length (cap_bytes c))) ++ cap_orig c.

Lemma captured_split c : captured c = captured_head c ++ cap_bytes c.
Proof. unfold captured, captured_head. by rewrite <-!app_assoc. Qed.

Lemma captured_head_reads c : captured_ok c ->
  length (captured_head c) = 16%nat /\ le_val (slice (captured_head c) 8 4) = Z.of_nat (length (cap_bytes c)).
Proof.
  intros (H1 & H2 & H3). unfold captured_head. split; [rewrite !length_app, length_le_bytes; lia|].
  unfold slice. rewrite <-H1, drop_app_length, take_app_le by (by rewrite length_le_bytes).
  rewrite firstn_all2 by (by rewrite length_le_bytes). rewrite le_val_le_bytes. apply Z.mod_small.
  change (256 ^ Z.of_nat 4) with 4294967296. lia.
Qed.

(** What is left when the capture was cut short inside a record. *)
Definition torn_capture (tail : list Z) : Prop := exists c k, captured_ok c /\ (k < length (captured c))%nat /\ tail = take k (captured c).

Lemma torn_captured tail : torn_capture tail ->
  read 16 tail = None \/ exists c t, captured_ok c /\ read 16 tail = Some (captured_head c, t) /\ (length t < length (cap_bytes c))%nat.
Proof.
  intros (c & k & Hc & Hk & ->). destruct (captured_head_reads c Hc) as [Hh _]. rewrite captured_split, length_app, Hh in Hk.
  destruct (decide (k < 16)%nat) as [Hs|Hs]; [left; apply read_short; rewrite length_take; lia|right].
  exists c, (take (k - 16) (cap_bytes c)). split; [done|]. split; [|rewrite length_take; lia].
  rewrite captured_split, take_app, Hh, take_ge by lia. by apply read_n.
Qed.

Section captures.
Context (clock : Z -> Z).

Lemma pcap_loop_spec {S} (sink : S -> BookEvent -> S) check tail cs : Forall captured_ok cs -> torn_capture tail ->
  forall fuel st, (length cs < fuel)%nat ->
  pcap_loop clock sink check fuel (captured_all cs ++ tail) st = fold_left (on_packet clock sink check) (map cap_bytes cs) st.
Proof.
  intros Hcs Ht. induction Hcs as [|c cs Hc _ IH]; intros [|fuel] st Hf; try (simpl in Hf; lia).
  - cbn [captured_all map concat app pcap_loop fold_left].
    destruct (torn_captured tail Ht) as [->|(c & t & Hc & -> & Hl)]; [done|].
    destruct (captured_head_reads c Hc) as [_ ->]. destruct Hc as (_ & _ & Hc).
    replace (Z.of_nat (length (cap_bytes c)) =? 0) with false by lia.
    replace (65535 <? Z.of_nat (length (cap_bytes c))) with false by lia. by rewrite Nat2Z.id, read_short.
  - cbn [captured_all map concat pcap_loop fold_left]. rewrite captured_split, <-!app_assoc.
    destruct (captured_head_reads c Hc) as [Hh Hv]. rewrite (read_n 16) by done. rewrite Hv. destruct Hc as (_ & _ & Hc).
    replace (Z.of_nat (length (cap_bytes c)) =? 0) with false by lia.
    replace (65535 <? Z.of_nat (length (cap_bytes c))) with false by lia. rewrite Nat2Z.id, read_app.
    apply IH. simpl in Hf. lia.
Qed.

Lemma load_pcap_loop_spec tail cs : Forall captured_ok cs -> torn_capture tail ->
  Forall (fun c => bytes_ok (cap_bytes c) /\ udp_length_ok (cap_bytes c)) cs ->
  forall fuel st, (length cs < fuel)%nat ->
  load_pcap_loop clock fuel (captured_all cs ++ tail) (loaded st) =
  Some (loaded (fold_left (on_packet clock snoc check_packet_phase2) (map cap_bytes cs) st)).
Proof.
  intros Hcs Ht. induction Hcs as [|c cs Hc _ IH]; intros Hu [|fuel] st Hf; try (simpl in Hf; lia).
  - cbn [captured_all map concat app load_pcap_loop fold_left].
    destruct (torn_captured tail Ht) as [->|(c & t & Hc & -> & Hl)]; [done|].
    destruct (captured_head_reads c Hc) as [_ ->]. destruct Hc as (_ & _ & Hc).
    replace (Z.of_nat (length (cap_bytes c)) =? 0) with false by lia.
    replace (65535 <? Z.of_nat (length (cap_bytes c))) with false by lia. cbn [orb]. by rewrite Nat2Z.id, read_short.
  - apply Forall_cons in Hu as [[Hb Hul] Hu]. cbn [captured_all map concat load_pcap_loop fold_left].
    rewrite captured_split, <-!app_assoc.
    destruct (captured_head_reads c Hc) as [Hh Hv]. rewrite (read_n 16) by done. rewrite Hv. destruct Hc as (_ & _ & Hc).
    replace (Z.of_nat (length (cap_bytes c)) =? 0) with false by lia.
    replace (65535 <? Z.of_nat (length (cap_bytes c))) with false by lia. cbn [orb]. rewrite Nat2Z.id, read_app.
    rewrite loaded_packet by (done || lia). apply IH; [done|]. simpl in Hf. lia.
Qed.

Lemma length_captured_all cs : (length cs <= length (captured_all cs))%nat \/ ~ Forall captured_ok cs.
Proof.
  destruct (decide (Forall (fun c => (1 <= length (captured c))%nat) cs)) as [H|H].
  - left. induction H as [|c cs Hc _ IH]; [done|]. cbn [captured_all map concat length]. rewrite length_app.
    unfold captured_all in IH. lia.
  - right. contradict H. eapply Forall_impl; [exact H|]. intros c (H1 & _). unfold captured. rewrite length_app. lia.
Qed.

(** A capture file: the global header, the packets, the rest of a torn one. *)
Lemma run_pcap_spec {S} (sink : S -> BookEvent -> S) check gh cs tail p s : length gh = 24%nat -> pcap_magic_ok gh = true ->
  Forall captured_ok cs -> torn_capture tail ->
  run_pcap clock sink check (gh ++ captured_all cs ++ tail) p s =
  Some (run_end (fold_left (on_packet clock sink check) (map cap_bytes cs) (run_init p s))).
Proof.
  intros Hg Hm Hcs Ht. unfold run_pcap. rewrite (read_n 24), Hm by done. rewrite pcap_loop_spec; [done..|].
  rewrite length_app. destruct (length_captured_all cs); [lia|done].
Qed.

(** The validation program and the evidence program read the same events:
    of every length-prefixed file and every raw ITCH file, whatever is in it,
    and of every capture whose packets are of possible length and whose UDP
    lengths cover the UDP header. *)
Theorem loaders_agree :
  (forall file p, load_framed clock p file [] = run_sink (run_framed_file clock snoc file p [])) /\
  (forall file, load_nasdaq_raw_itch clock file [] =
                run_sink <$> run_nasdaq_raw_itch_file clock snoc file itch_parser []) /\
  (forall gh cs tail, length gh = 24%nat -> Forall captured_ok cs -> torn_capture tail ->
     Forall (fun c => bytes_ok (cap_bytes c) /\ udp_length_ok (cap_bytes c)) cs ->
     load_iex_pcap clock (gh ++ captured_all cs ++ tail) [] =
     run_sink <$> run_iex_pcap_file_phase2 clock snoc (gh ++ captured_all cs ++ tail) deep_parser []).
Proof.
  split_and!.
  - intros file p. unfold load_framed, run_framed_file, run_end. cbn [run_sink].
    pose proof (loaded_framed clock (S (length file)) file (run_init p [])) as H. unfold loaded at 2 in H. cbn in H.
    cbn. by rewrite <-H.
  - intros file. unfold load_nasdaq_raw_itch, run_nasdaq_raw_itch_file.
    pose proof (loaded_raw clock (S (length file)) file (run_init itch_parser [])) as H. unfold loaded at 2 in H.
    cbn [run_init run_parser run_seq run_sink] in H. fold itch_parser. rewrite <-H. by destruct (raw_loop _ _ _ _ _).
  - intros gh cs tail Hg Hcs Ht Hu. unfold load_iex_pcap, run_iex_pcap_file_phase2. destruct (pcap_magic_ok gh) eqn:Em.
    + rewrite run_pcap_spec by done. rewrite (read_n 24), Em by done.
      pose proof (load_pcap_loop_spec tail cs Hcs Ht Hu (S (length (captured_all cs ++ tail))) (run_init deep_parser [])) as H.
      unfold loaded at 1 in H. cbn [run_init run_parser run_seq run_sink] in H. fold deep_parser. rewrite H; [done|].
      rewrite length_app. destruct (length_captured_all cs); [lia|done].
    + unfold run_pcap. by rewrite (read_n 24), Em by done.
Qed.
End captures.

(** ** IEX-TP packets *)

Definition le_prefixed (m : list Z) : list Z := le_bytes 2 (Z.of_nat (length m)) ++ m.
Definition le_prefixed_all (ms : list (list Z)) : list Z := concat (map le_prefixed ms).

Lemma messages_loop_spec {S} (clock : Z -> Z) (sink : S -> BookEvent -> S) ms : Forall packable ms ->
  forall fuel st, (length ms < fuel)%nat ->
  messages_loop clock sink fuel (le_prefixed_all ms) st = fold_left (on_message clock sink) ms st.
Proof.
  induction 1 as [|m ms Hm _ IH]; intros [|fuel] st Hf; try (simpl in Hf; lia); [done|].
  cbn [le_prefixed_all map concat messages_loop fold_left]. unfold le_prefixed at 1. rewrite <-!app_assoc.
  rewrite (read_n 2) by apply length_le_bytes. unfold packable in Hm.
  rewrite le_val_le_bytes, Z.mod_small by (change (256 ^ Z.of_nat 2) with (2 ^ 16); lia). rewrite Nat2Z.id.
  replace (length m =? 0)%nat with false by (symmetry; apply Nat.eqb_neq; lia).
  replace (length (m ++ concat (map le_prefixed ms)) <? length m)%nat with false
    by (symmetry; apply Nat.ltb_ge; rewrite length_app; lia).
  cbn [orb]. rewrite take_app_length, drop_app_length. apply IH. simpl in Hf. lia.
Qed.

Lemma length_le_prefixed_all ms : (length ms <= length (le_prefixed_all ms))%nat.
Proof.
  induction ms as [|m ms IH]; [done|]. cbn [le_prefixed_all map concat length]. unfold le_prefixed_all in IH.
  rewrite length_app. unfold le_prefixed at 1. rewrite length_app, length_le_bytes. lia.
Qed.

(** A datagram of DEEP+ messages behind a 40-byte transport header. *)
Record IexPacket := mkIexPacket {
  ik_ts : list Z; ik_orig : list Z; ik_macs : list Z; ik_ip1 : list Z; ik_ip2 : list Z; ik_ports : list Z;
  ik_csum : list Z; ik_pad : list Z; ik_ihl : Z; ik_header : list Z; ik_messages : list DeepMessage;
}.

Definition ik_payload (k : IexPacket) : list Z := ik_header k ++ le_prefixed_all (map encode_deep (ik_messages k)).

Definition ik_captured (k : IexPacket) : Captured :=
  mkCaptured (ik_ts k) (ik_orig k)
    (udp_frame (ik_macs k) (ik_ip1 k) (ik_ip2 k) (ik_ports k) (ik_csum k) (ik_payload k) (ik_pad k) (ik_ihl k)).

Record iex_packet_ok (k : IexPacket) : Prop := {
  iko_captured : captured_ok (ik_captured k);
  iko_macs : length (ik_macs k) = 12%nat;
  iko_ip1 : length (ik_ip1 k) = 8%nat;
  iko_ip2 : Z.of_nat (length (ik_ip2 k)) = 4 * ik_ihl k - 10;
  iko_ports : length (ik_ports k) = 4%nat;
  iko_csum : length (ik_csum k) = 2%nat;
  iko_ihl : 5 <= ik_ihl k < 16;
  iko_header : length (ik_header k) = 40%nat;
  iko_payload : 8 + Z.of_nat (length (ik_payload k)) < 2 ^ 16;
  iko_messages : Forall deep_message_ok (ik_messages k);
}.

(** Both programs find the datagram in it. *)
Lemma iex_packet_checks k : iex_packet_ok k ->
  check_packet (cap_bytes (ik_captured k)) = PacketPayload (ik_payload k) /\
  check_packet_phase2 (cap_bytes (ik_captured k)) = PacketPayload (ik_payload k).
Proof.
  intros [Hc Hm H1 H2 Hp Hs Hi Hh Hl _]. cbn [ik_captured cap_bytes].
  destruct (udp_frame_reads (ik_macs k) (ik_ip1 k) (ik_ip2 k) (ik_ports k) (ik_csum k) (ik_payload k) (ik_pad k) (ik_ihl k)
    Hm H1 H2 Hp Hs Hi Hl) as (Hlen & _ & E14 & E23 & Eu & Esl).
  set (pkt := udp_frame _ _ _ _ _ _ _ _) in *. set (n := (Z.to_nat (ik_ihl k) * 4)%nat) in *.
  assert (20 <= n)%nat as Hn by (unfold n; lia).
  assert (is_ipv4 pkt = true) as Hip.
  { unfold is_ipv4, pkt, udp_frame. by rewrite (nth_tail 12 _ _ 12), (nth_tail 12 _ _ 13) by (done || lia). }
  assert (ip_header_len pkt = n) as Hih.
  { unfold ip_header_len. rewrite E14. by destruct (ip_first_byte (ik_ihl k) ltac:(lia)) as [_ ->]. }
  assert (40 <= length (ik_payload k))%nat as H40 by (unfold ik_payload; rewrite length_app; lia).
  clearbody n. assert (check_udp pkt n = PacketPayload (ik_payload k)) as Hu.
  { unfold check_udp. rewrite Eu. replace (Z.to_nat (8 + Z.of_nat (length (ik_payload k)))) with (8 + length (ik_payload k))%nat by lia.
    rewrite Hlen, !(proj2 (Nat.ltb_ge _ _)) by lia. cbv zeta.
    by replace (8 + length (ik_payload k) - 8)%nat with (length (ik_payload k)) by lia; rewrite Esl. }
  unfold check_packet, check_packet_phase2. change (14 + 9)%nat with 23%nat. rewrite Hip, Hih, E23, Hu, Hlen.
  rewrite !(proj2 (Nat.ltb_ge _ _)) by lia. done.
Qed.

Lemma on_iex_packets {S} (clock : Z -> Z) (sink : S -> BookEvent -> S) check ks :
  Forall iex_packet_ok ks -> (forall k, iex_packet_ok k -> check (cap_bytes (ik_captured k)) = PacketPayload (ik_payload k)) ->
  forall st, fold_left (on_packet clock sink check) (map cap_bytes (map ik_captured ks)) st =
  fold_left (on_message clock sink) (map encode_deep (concat (map ik_messages ks))) st.
Proof.
  intros Hks Hc. induction Hks as [|k ks Hk _ IH]; intros st; [done|]. cbn [map fold_left concat].
  rewrite map_app, fold_left_app, IH. f_equal. unfold on_packet. rewrite (Hc k Hk). unfold ik_payload.
  rewrite <-(iko_header k Hk), drop_app_length. apply messages_loop_spec.
  - apply Forall_map. eapply Forall_impl; [exact (iko_messages k Hk)|]. apply length_encode_deep.
  - pose proof (length_le_prefixed_all (map encode_deep (ik_messages k))). lia.
Qed.

(** ** Files of messages *)

Definition itch_item (hm : ItchHeader * ItchMessage) : Item := (encode_itch hm.1 hm.2, itch_event hm.1 hm.2).
Definition deep_item (m : DeepMessage) : Item := (encode_deep m, deep_event m).
Definition pitch_item (x : Z * Z * PitchMessage) : Item :=
  let '(ts, id, m) := x in (encode_pitch ts id m, pitch_event ts id m).

Definition itch_ok (hm : ItchHeader * ItchMessage) : Prop := is_u 48 (h_timestamp hm.1) /\ itch_message_ok hm.2.
Definition pitch_ok (x : Z * Z * PitchMessage) : Prop :=
  let '(ts, id, m) := x in 0 <= ts < 10 ^ 8 /\ 0 <= id < 36 ^ 12 /\ pitch_message_ok m.

(** The parsers, as long as nothing was malformed. *)
Definition clean_itch (p : ParserState) : Prop := exists s, p = ItchParser s /\ malformed_messages s = 0.
Definition clean_deep (p : ParserState) : Prop := exists s, p = DeepParser s /\ malformed_messages (deep_base s) = 0.
Definition clean_pitch (p : ParserState) : Prop := exists s, p = PitchParser s /\ malformed_messages s = 0.

Lemma itch_parses hm : itch_ok hm -> parses clean_itch (itch_item hm).
Proof.
  intros [Hts Hm] p seq ingest (s & -> & Hs). cbn [itch_item fst snd parse_frame].
  pose proof (itch_parse_encode hm.1 hm.2 [] seq ingest s Hts Hm) as H. rewrite app_nil_r in H. rewrite H.
  eexists. split; [done|]. by eexists.
Qed.

Lemma deep_parses m : deep_message_ok m -> parses clean_deep (deep_item m).
Proof.
  intros Hm p seq ingest (s & -> & Hs). cbn [deep_item fst snd parse_frame]. rewrite deep_parse_encode by done.
  eexists. split; [done|]. by eexists.
Qed.

Lemma pitch_parses x : pitch_ok x -> parses clean_pitch (pitch_item x).
Proof.
  destruct x as [[ts id] m]. intros (Hts & Hid & Hm) p seq ingest (s & -> & Hs). cbn [pitch_item fst snd parse_frame].
  rewrite pitch_parse_encode by done. eexists. split; [done|]. by eexists.
Qed.

Lemma clean_malformed p : clean_itch p \/ clean_deep p \/ clean_pitch p -> parser_malformed p = 0.
Proof. by intros [(s & -> & H)|[(s & -> & H)|(s & -> & H)]]. Qed.

Lemma length_encode_pitch x : pitch_ok x -> packable (pitch_item x).1.
Proof.
  destruct x as [[ts id] m]. intros (_ & _ & Hm). unfold packable. cbn [pitch_item fst]. unfold encode_pitch.
  rewrite !length_app, !length_encode_digits. destruct m; cbn [pitch_body pitch_message_ok] in *; destruct_and?;
    rewrite ?length_app, ?length_encode_digits; cbn [length]; rewrite ?length_app, ?length_encode_digits; simpl; lia.
Qed.

(** ** Merging the files *)

(** Every event of the items is of the venue and carries its number. *)
Definition items_of (v : Venue) (items : list Item) : Prop :=
  Forall (fun it => forall seq ingest, venue (it.2 seq ingest) = v /\ sequence (it.2 seq ingest) = seq) items.

Lemma events_of_venue clock v items seq : items_of v items -> Forall (fun e => venue e = v) (events_from clock seq items).
Proof. intros H. revert seq. induction H as [|it items Hit _ IH]; intros seq; constructor; [apply Hit|apply IH]. Qed.

Lemma events_sequences clock v items seq : items_of v items ->
  sequence <$> events_from clock seq items = seqZ seq (Z.of_nat (length items)).
Proof.
  intros H. revert seq. induction H as [|it items Hit _ IH]; intros seq; [done|].
  cbn [events_from length]. rewrite fmap_cons, IH, (seqZ_cons seq) by lia. destruct (Hit seq (clock seq)) as [_ ->].
  f_equal. f_equal; lia.
Qed.

Lemma of_venue_other v w l : v <> w -> Forall (fun e => venue e = w) l -> of_venue v l = [].
Proof.
  intros Hne H. unfold of_venue. induction H as [|e l He _ IH]; [done|]. rewrite filter_cons_False; [done|congruence].
Qed.

Lemma of_venue_app v a b : of_venue v (a ++ b) = of_venue v a ++ of_venue v b.
Proof. apply filter_app. Qed.

Lemma itch_items hms : items_of Nasdaq (map itch_item hms).
Proof. apply Forall_map, Forall_forall. intros [h m] _ seq ingest. by destruct m. Qed.

Lemma deep_items ms : items_of Iex (map deep_item ms).
Proof. apply Forall_map, Forall_forall. intros m _ seq ingest. by destruct m. Qed.

Lemma pitch_items xs : items_of Cboe (map pitch_item xs).
Proof. apply Forall_map, Forall_forall. intros [[ts id] m] _ seq ingest. by destruct m. Qed.

Lemma three_venues clock ni ii ci : items_of Nasdaq ni -> items_of Iex ii -> items_of Cboe ci ->
  let en := events_from clock 1 ni in let ei := events_from clock 1 ii in let ec := events_from clock 1 ci in
  of_venue Nasdaq (en ++ ei ++ ec) = en /\ of_venue Iex (en ++ ei ++ ec) = ei /\ of_venue Cboe (en ++ ei ++ ec) = ec /\
  numbered (en ++ ei ++ ec).
Proof.
  intros Hn Hi Hc en ei ec.
  pose proof (events_of_venue clock Nasdaq ni 1 Hn) as Vn. pose proof (events_of_venue clock Iex ii 1 Hi) as Vi.
  pose proof (events_of_venue clock Cboe ci 1 Hc) as Vc. fold en in Vn. fold ei in Vi. fold ec in Vc.
  assert (forall v, of_venue v (en ++ ei ++ ec) = match v with Nasdaq => en | Iex => ei | Cboe => ec | _ => [] end) as H.
  { intros v. rewrite !of_venue_app. destruct v;
      rewrite ?(of_venue_all _ _ Vn), ?(of_venue_all _ _ Vi), ?(of_venue_all _ _ Vc),
        ?(of_venue_other _ Nasdaq en), ?(of_venue_other _ Iex ei), ?(of_venue_other _ Cboe ec) by done;
      by rewrite ?app_nil_r. }
  split_and!; [apply H..|]. intros v. rewrite H. destruct v; try done; unfold en, ei, ec;
    [rewrite (events_sequences clock Nasdaq)|rewrite (events_sequences clock Iex)|rewrite (events_sequences clock Cboe)];
    try done; by rewrite length_events_from.
Qed.

Section merged.
Context (clock : Z -> Z) `{MergedEventSink T}.

(** What the summary of a file of [n] good messages says. *)
Definition clean_summary (evs : list BookEvent) : RunSummary :=
  let n := Z.of_nat (length evs) in mkSummary n n 0 (crc_of_events 0 evs).

(** A capture of well-formed packets. *)
Lemma run_iex_items {S} (sink : S -> BookEvent -> S) check gh ks tail s : Forall iex_packet_ok ks ->
  (forall k, iex_packet_ok k -> check (cap_bytes (ik_captured k)) = PacketPayload (ik_payload k)) ->
  length gh = 24%nat -> pcap_magic_ok gh = true -> torn_capture tail ->
  let items := map deep_item (concat (map ik_messages ks)) in let evs := events_from clock 1 items in
  Z.of_nat (length items) + 1 < 2 ^ 64 ->
  exists p seq, run_pcap clock sink check (gh ++ captured_all (map ik_captured ks) ++ tail) deep_parser s =
  Some (mkRun (clean_summary evs) p seq (fold_left sink evs s)).
Proof.
  intros Hks Hck Hg Hm Ht items evs Hl. rewrite run_pcap_spec; [|done|done| |done].
  2:{ apply Forall_map. eapply Forall_impl; [exact Hks|]. intros k Hk. apply (iko_captured k Hk). }
  rewrite on_iex_packets by done.
  assert (Forall (parses clean_deep) items) as Hitems.
  { apply Forall_map, Forall_concat, Forall_map. eapply Forall_impl; [exact Hks|]. intros k Hk.
    eapply Forall_impl; [exact (iko_messages k Hk)|]. apply deep_parses. }
  destruct (fold_on_messages clock sink clean_deep items Hitems (run_init deep_parser s)) as (p & Hp & Hf);
    [by eexists|unfold run_room; cbn; lia|].
  assert (map fst items = map encode_deep (concat (map ik_messages ks))) as Hm2 by (unfold items; by rewrite map_map).
  rewrite Hm2 in Hf. exists p. eexists. rewrite Hf.
  unfold run_end, advance. cbn [run_init run_summary run_parser run_seq run_sink summary_init rs_frames rs_parsed rs_malformed rs_crc].
  rewrite (clean_malformed p) by auto. done.
Qed.

(** C36. The merge modes are lossless and deterministic: from a file of ITCH
    messages, a capture of DEEP+ datagrams and a file of PITCH messages, the
    last record of each possibly cut short, every message is parsed and
    counted, the bridge is handed the merge of the three event streams, which
    keeps each venue's messages whole and in file order, and the checksum
    reported is that of what the bridge saw. *)
Theorem merge_files_lossless hms ks xs gh tn ti tc (sink : option T) :
  Forall itch_ok hms -> Forall iex_packet_ok ks -> Forall pitch_ok xs ->
  length gh = 24%nat -> pcap_magic_ok gh = true -> torn_record tn -> torn_capture ti -> torn_record tc ->
  let nasdaq := prefixed_all (map fst (map itch_item hms)) ++ tn in
  let iex := gh ++ captured_all (map ik_captured ks) ++ ti in
  let cboe := prefixed_all (map fst (map pitch_item xs)) ++ tc in
  looks_like_text_csv nasdaq || looks_like_text_csv iex || looks_like_text_csv cboe = false ->
  let en := events_from clock 1 (map itch_item hms) in
  let ei := events_from clock 1 (map deep_item (concat (map ik_messages ks))) in
  let ec := events_from clock 1 (map pitch_item xs) in
  Z.of_nat (length (en ++ ei ++ ec)) + 260 <= 2 ^ 64 ->
  exists merged p, merge_files clock nasdaq iex (Some cboe) sink =
    Some (clean_summary en, clean_summary ei, Some (clean_summary ec), p,
          (fun s => fold_left (fun s e => on_merged_event e s) merged s) <$> sink) /\
    of_venue Nasdaq merged = en /\ of_venue Iex merged = ei /\ of_venue Cboe merged = ec /\
    merged_crc (pstats p) = crc_of_events 0 merged.
Proof.
  intros Hn Hi Hc Hg Hm Htn Hti Htc nasdaq iex cboe Hcsv en ei ec Hlen.
  rewrite !length_app in Hlen. unfold en, ei, ec in Hlen. rewrite !length_events_from in Hlen.
  destruct (run_framed_items clock pipeline_on_event clean_itch (map itch_item hms) tn itch_parser (pipeline_init 256 (2 ^ 20)))
    as (pn & _ & Rn); [|by eexists|intros p Hp; apply clean_malformed; auto| |done|lia|].
  { apply Forall_map. eapply Forall_impl; [exact Hn|]. apply itch_parses. }
  { apply Forall_map, Forall_map. eapply Forall_impl; [exact Hn|]. intros hm [_ Hok]. by apply length_encode_itch. }
  fold nasdaq en in Rn. set (p1 := fold_left pipeline_on_event en (pipeline_init 256 (2 ^ 20))) in Rn.
  destruct (run_iex_items pipeline_on_event check_packet_phase2 gh ks ti p1 Hi) as (pi & qi & Ri); [|done|done|done|lia|].
  { intros k Hk. apply (iex_packet_checks k Hk). }
  fold iex ei in Ri. set (p2 := fold_left pipeline_on_event ei p1) in Ri.
  destruct (run_framed_items clock pipeline_on_event clean_pitch (map pitch_item xs) tc pitch_parser p2)
    as (pc & _ & Rc); [|by eexists|intros p Hp; apply clean_malformed; auto| |done|lia|].
  { apply Forall_map. eapply Forall_impl; [exact Hc|]. apply pitch_parses. }
  { apply Forall_map, Forall_map. eapply Forall_impl; [exact Hc|]. apply length_encode_pitch. }
  fold cboe ec in Rc.
  destruct (three_venues clock _ _ _ (itch_items hms) (deep_items (concat (map ik_messages ks))) (pitch_items xs)) as (Vn & Vi & Vc & Hnum).
  fold en ei ec in Vn, Vi, Vc, Hnum. set (evs := en ++ ei ++ ec) in *.
  assert (fold_left pipeline_on_event ec p2 = pipeline_run (pipeline_init 256 (2 ^ 20)) evs) as Ep
    by (unfold evs, pipeline_run, p2, p1; by rewrite !fold_left_app).
  assert (Z.of_nat (length evs) + 256 + 4 <= 2 ^ 64) as Hl.
  { unfold evs, en, ei, ec. rewrite !length_app, !length_events_from. lia. }
  exists (merger_drain (merger_push_all (merger_init 0) evs)).
  pose proof (pipeline_finalize_drain (pipeline_run (pipeline_init 256 (2 ^ 20)) evs) sink) as Hf. cbv zeta in Hf.
  rewrite in_order_drain in Hf by (done || lia).
  rewrite (io_crc _ _ _ _ (in_order_run 256 (2 ^ 20) evs ltac:(lia) Hl Hnum)) in Hf.
  unfold merge_files, merge_sources, run_framed_file_phase2. rewrite Hcsv, Rn. cbn [run_sink run_summary]. unfold run_iex_pcap_file_phase2. rewrite Ri.
  cbn [mbind option_bind run_sink run_summary]. rewrite Rc. cbn [mbind option_bind run_sink run_summary]. rewrite Ep.
  destruct (pipeline_finalize _ sink) as [p snk]. cbn [fst snd] in Hf. destruct Hf as [-> Hcrc]. exists p.
  rewrite !merge_keeps_venue_order. split_and!; try done.
  unfold clean_summary, en, ec. by rewrite !length_events_from.
Qed.
End merged.

(** ** Raw ITCH files *)

Lemma wire_len_encode h m : itch_message_ok m ->
  exists body, encode_itch h m = itch_type m :: body /\ nasdaq_itch_wire_len (itch_type m) = S (length body).
Proof.
  intros Hm. unfold encode_itch. eexists. split; [done|]. rewrite !length_app, !length_be.
  destruct m; cbn [itch_body itch_message_ok itch_type] in *; destruct_and?; rewrite ?length_app, ?length_be;
    cbn [length]; rewrite ?length_app, ?length_be;
    repeat match goal with H : length _ = _ |- _ => rewrite H; clear H end; reflexivity.
Qed.

(** A raw file of well-formed messages is read as the length-prefixed file of
    the same messages is. *)
Lemma raw_itch_as_framed {S} (clock : Z -> Z) (sink : S -> BookEvent -> S) hms p s : Forall itch_ok hms ->
  let ms := map fst (map itch_item hms) in
  run_nasdaq_raw_itch_file clock sink (concat ms) p s = Some (run_framed_file clock sink (prefixed_all ms) p s).
Proof.
  intros Hok ms. unfold run_nasdaq_raw_itch_file, run_framed_file.
  assert (Forall packable ms) as Hpk.
  { apply Forall_map, Forall_map. eapply Forall_impl; [exact Hok|]. intros hm [_ H]. by apply length_encode_itch. }
  rewrite <-(app_nil_r (prefixed_all ms)), framed_loop_spec; [|exact Hpk| |].
  2:{ exists [0], 0%nat. split_and!; [unfold packable; simpl; lia|simpl; lia|done]. }
  2:{ rewrite length_app. pose proof (length_prefixed_all ms). lia. }
  assert (forall fuel st, (length ms < fuel)%nat -> raw_loop clock sink fuel (concat ms) st = Some (fold_left (on_message clock sink) ms st)) as H.
  { unfold ms. clear ms Hpk. induction Hok as [|hm hms [_ Hm] _ IH]; intros [|fuel] st Hf; try (simpl in Hf; lia); [done|].
    cbn [map concat fold_left raw_loop]. destruct (wire_len_encode hm.1 hm.2 Hm) as (body & E & Hl).
    cbn [itch_item fst]. rewrite E. cbn [app]. rewrite Hl. cbn [Nat.eqb]. replace (Datatypes.S (length body) - 1)%nat with (length body) by lia.
    rewrite read_app. apply IH. simpl in Hf. lia. }
  rewrite H; [done|]. pose proof (length_prefixed_all ms). clear -Hpk.
  induction Hpk as [|m ms Hm _ IH]; [simpl; lia|]. cbn [concat length]. rewrite length_app. unfold packable in Hm. lia.
Qed.

(** ** At concrete inputs *)

Definition tick (n : Z) : Z := 1000 + n.

Definition sample_itch : list (ItchHeader * ItchMessage) :=
  [(mkItchHeader 1 2 30, ItchDelete 9); (mkItchHeader 1 2 40, ItchCancel 8 5)].

Definition sample_packet : IexPacket :=
  mkIexPacket (repeat 0 8) (repeat 0 4) (repeat 1 12) (repeat 0 8) (repeat 0 10) (repeat 0 4) (repeat 0 2) [7; 7] 5 (repeat 0 40)
    [DeepSystem 1 35; DeepDelete 36 (repeat 65 8) 4].

Definition sample_pitch : list (Z * Z * PitchMessage) := [(12345678, 5, PitchCancel 5)].

(** The header of a little-endian capture. *)
Definition sample_header : list Z := le_bytes 4 0xa1b2c3d4 ++ repeat 0 20.

#[export] Instance captured_ok_dec c : Decision (captured_ok c).
Proof. unfold captured_ok. apply _. Defined.

Lemma sample_packet_ok : iex_packet_ok sample_packet.
Proof.
  split; [apply (bool_decide_unpack _); vm_compute; exact I|reflexivity..|cbn [ik_ihl sample_packet]; lia|reflexivity|vm_compute; reflexivity|].
  repeat constructor; unfold is_u; lia.
Qed.

Lemma torn_nil_record : torn_record [].
Proof. exists [0], 0%nat. split_and!; [unfold packable; simpl; lia|simpl; lia|done]. Qed.

Lemma merge_files_witness :
  let nasdaq := prefixed_all (map fst (map itch_item sample_itch)) ++ [0] in
  let iex := sample_header ++ captured_all [ik_captured sample_packet] ++ [] in
  let cboe := prefixed_all (map fst (map pitch_item sample_pitch)) ++ [] in
  let en := events_from tick 1 (map itch_item sample_itch) in
  let ei := events_from tick 1 (map deep_item (ik_messages sample_packet)) in
  let ec := events_from tick 1 (map pitch_item sample_pitch) in
  exists merged p, merge_files (T := list BookEvent) tick nasdaq iex (Some cboe) (Some []) =
    Some (clean_summary en, clean_summary ei, Some (clean_summary ec), p,
          Some (fold_left (fun s e => on_merged_event e s) merged [])) /\
    of_venue Nasdaq merged = en /\ of_venue Iex merged = ei /\ of_venue Cboe merged = ec /\
    merged_crc (pstats p) = crc_of_events 0 merged.
Proof.
  intros nasdaq iex cboe en ei ec.
  apply (merge_files_lossless tick sample_itch [sample_packet] sample_pitch sample_header [0] [] [] (Some [])).
  - constructor; [|constructor; [|constructor]]; split; cbn [fst snd h_timestamp itch_message_ok]; unfold is_u; lia.
  - constructor; [exact sample_packet_ok|constructor].
  - constructor; [|constructor]. unfold pitch_ok. cbn [pitch_message_ok]. lia.
  - reflexivity.
  - reflexivity.
  - exists [0], 1%nat. split_and!; [unfold packable; simpl; lia|simpl; lia|done].
  - exists (ik_captured sample_packet), 0%nat. split_and!; [apply (iko_captured _ sample_packet_ok)|vm_compute; lia|done].
  - exact torn_nil_record.
  - vm_compute. reflexivity.
  - vm_compute. discriminate.
Defined.

#[export] Instance udp_length_ok_dec pkt : Decision (udp_length_ok pkt).
Proof. unfold udp_length_ok. apply _. Defined.

Lemma loaders_agree_witness :
  load_iex_pcap tick (sample_header ++ captured_all [ik_captured sample_packet] ++ []) [] =
  run_sink <$> run_iex_pcap_file_phase2 tick snoc (sample_header ++ captured_all [ik_captured sample_packet] ++ []) deep_parser [].
Proof.
  apply (loaders_agree tick); [reflexivity| | |apply (bool_decide_unpack _); vm_compute; exact I].
  - constructor; [apply (iko_captured _ sample_packet_ok)|constructor].
  - exists (ik_captured sample_packet), 0%nat. split_and!; [apply (iko_captured _ sample_packet_ok)|vm_compute; lia|done].
Defined.

(** A UDP length field below 8 wraps the payload length of the evidence
    program around, whose loop then reads past the packet. *)
Example short_udp_length_overrun :
  let pkt := repeat 1 12 ++ [8; 0; 0x45] ++ repeat 0 8 ++ [17] ++ repeat 0 18 ++ repeat 1 20 in
  check_packet pkt = PacketMalformed /\ load_packet tick pkt (mkLoad deep_parser 1 []) = None.
Proof. vm_compute. split; reflexivity. Qed.

(** The validation program does not pass over a packet it calls too long: it
    takes what follows for the next header. The evidence program skips it. *)
Example long_packet_not_skipped :
  let file := sample_header ++ (repeat 0 8 ++ le_bytes 4 65536 ++ repeat 0 4) ++ captured_all [ik_captured sample_packet] in
  option_map run_summary (run_iex_pcap_file tick snoc file deep_parser []) <> None /\
  (length <$> (run_sink <$> run_iex_pcap_file_phase2 tick snoc file deep_parser [])) = Some 2%nat /\
  load_iex_pcap tick file [] = Some [].
Proof. vm_compute. split_and!; [discriminate|reflexivity|reflexivity]. Qed.

(** A capture written with the other byte order passes the check of the magic
    number, but its lengths are read as they stand: no packet is found. *)
Example swapped_capture_unread :
  let c := ik_captured sample_packet in
  let file := be 4 0xa1b2c3d4 ++ repeat 0 20 ++
    (cap_ts c ++ be 4 (Z.of_nat (length (cap_bytes c))) ++ cap_orig c ++ cap_bytes c) in
  exists s, option_map run_summary (run_iex_pcap_file tick snoc file deep_parser []) = Some s /\ rs_frames s = 0 /\ rs_malformed s <> 0.
Proof. eexists. split; [vm_compute; reflexivity|]. split; [reflexivity|discriminate]. Qed.

(** A message that does not parse uses up a number: the pipeline waits for it,
    and the well-formed message behind it is not merged. *)
Example malformed_message_holds_back :
  let m id := encode_itch (mkItchHeader 1 2 id) (ItchDelete id) in
  let file := prefixed_all [m 7; [ch "A"]; m 8] in
  let n := run_framed_file tick pipeline_on_event file itch_parser (pipeline_init 256 (2 ^ 20)) in
  rs_parsed (run_summary n) = 2 /\
  map order_id <$> (pipeline_finalize (T := list BookEvent) (run_sink n) (Some [])).2 = Some [7].
Proof. vm_compute. split; reflexivity. Qed.
