(* ===== verification/MergeModes.v ===== *)
(** * The modes of the merge program (src/apps/phase1_parser_validate_main.cpp)

    [main] of the program, mode by mode: what each runs on the files it is
    given and what it reports. The three merge modes differ in the bridge the
    merged stream is drained into, and agree in everything else on every
    input: the ring of signals gets the head of the same stream whose features
    the feature bridge computes. *)

From S2P Require Import Prelude Types Crc SequenceTracker Recovery Merger Pipeline Wire Itch Framing OrderTable OrderBook Nbbo Spsc Floats Features JitBridge FeedSession CaptureFiles.

#[local] Open Scope list_scope.
#[local] Open Scope Z_scope.

(** ** The code *)

(** The rings of both bridges have [2^20] slots. *)
Definition kRingBits : nat := 20.

#[export] Instance jit_publisher : IJitPublisher (option (@SPSCRingBuffer JitSignalEvent)) := RingJitPublisher kRingBits.

Definition FeatureSink : Type := option (FeatureBridge * option (option (@SPSCRingBuffer FeatureVector))).

(** [FeatureBridge::on_merged_event]; [None] once it has not returned. *)
#[export] Instance feature_sink : MergedEventSink FeatureSink :=
  fun ev s => match s with
              | Some (b, pub) => bridge_on_event (H := RingFeaturePublisher kRingBits) b pub ev
              | None => None
              end.

Section modes.
Context (clock : Z -> Z).

Definition phase2_merge (nasdaq iex : list Z) (cboe : option (list Z)) :=
  merge_files clock (T := list BookEvent) nasdaq iex cboe None.

(** [ring]: the new signal ring. *)
Definition phase2_merge_jit (ring : @SPSCRingBuffer JitSignalEvent) (nasdaq iex : list Z) (cboe : option (list Z)) :=
  merge_files clock nasdaq iex cboe (Some (jit_bridge_init (Some (Some ring)))).

(** [ring]: the new feature ring; [slots]: the size of the order table. *)
Definition phase3_merge_features (slots : nat) (ring : @SPSCRingBuffer FeatureVector) (nasdaq iex : list Z) (cboe : option (list Z)) :=
  merge_files clock (T := FeatureSink) nasdaq iex cboe (Some (Some (bridge_init slots feature_config_default, Some (Some ring)))).

(** The modes that only parse: the summary, whose checksum is printed again as
    the combined one; [None] is an exception. *)
Definition ignore (s : unit) (_ : BookEvent) : unit := s.

Definition nasdaq_raw_itch (nasdaq : list Z) : option RunSummary :=
  if looks_like_text_csv nasdaq then None else
  run_summary <$> run_nasdaq_raw_itch_file clock ignore nasdaq itch_parser tt.

Definition nasdaq_only (nasdaq : list Z) : option RunSummary :=
  if looks_like_text_csv nasdaq then None else Some (run_summary (run_framed_file clock ignore nasdaq itch_parser tt)).

Definition iex_only (iex : list Z) : option RunSummary :=
  if looks_like_text_csv iex then None else
  run_summary <$> run_iex_pcap_file clock ignore iex deep_parser tt.
End modes.

(** ** The merge modes agree *)

(** The pipeline ends the same way whatever it is drained into. *)
Lemma finalize_loop_sink `{MergedEventSink T} `{MergedEventSink U} fuel : forall m (s : option T) (t : option U) crc,
  let r := finalize_loop fuel m s crc in let q := finalize_loop fuel m t crc in r.1.1 = q.1.1 /\ r.2 = q.2.
Proof.
  induction fuel as [|fuel IH]; intros m s t crc; [done|]. cbn [finalize_loop]. destruct (merger_pop_next m) as [[ev m']|]; [|done].
  apply IH.
Qed.

Lemma finalize_sink `{MergedEventSink T} `{MergedEventSink U} p (s : option T) (t : option U) :
  (pipeline_finalize p s).1 = (pipeline_finalize p t).1.
Proof.
  unfold pipeline_finalize. pose proof (finalize_loop_sink (queued_count (merger p)) (merger p) s t (merged_crc (pstats p))) as [H1 H2].
  destruct (finalize_loop _ _ s _) as [[m a] crc], (finalize_loop _ _ t _) as [[m' b] crc']. cbn [fst snd] in *. by subst.
Qed.

Lemma feature_sink_run evs : forall b pub,
  fold_left (fun s e => on_merged_event e s) evs (Some (b, pub) : FeatureSink) =
  bridge_run (H := RingFeaturePublisher kRingBits) b pub evs.
Proof.
  assert (fold_left (fun s e => on_merged_event e s) evs (None : FeatureSink) = None) as Hn by (induction evs; done).
  clear Hn. induction evs as [|e evs IH]; intros b pub; [done|]. cbn [fold_left bridge_run].
  change (on_merged_event e (Some (b, pub) : FeatureSink)) with (bridge_on_event (H := RingFeaturePublisher kRingBits) b pub e).
  destruct (bridge_on_event b pub e) as [[b1 p1]|]; [apply IH|]. clear. by induction evs.
Qed.

(** On every input the three merge modes succeed together and report the same
    summaries, the same pipeline counters and the same checksum; the signal
    ring then holds, converted, the merged events up to its capacity, the rest
    counted as dropped, and the features are those of the same merged events,
    each counted as published or dropped. *)
Theorem merge_modes_agree clock slots owned fring nasdaq iex cboe : Z.of_nat (length owned) = ring_size kRingBits ->
  let jring := ring_init kRingBits owned None (ring_size kRingBits) in
  let room := Z.to_nat (ring_size kRingBits - 1) in
  match phase2_merge clock nasdaq iex cboe with
  | None => phase2_merge_jit clock jring nasdaq iex cboe = None /\ phase3_merge_features clock slots fring nasdaq iex cboe = None
  | Some (n, i, c, p, _) => exists merged b r fb fpub,
      phase2_merge_jit clock jring nasdaq iex cboe = Some (n, i, c, p, Some b) /\
      publisher_ b = Some (Some r) /\ holds kRingBits r (convert <$> take room merged) /\
      jit_stats b = mkJitStats (Z.of_nat (length (take room merged))) (Z.of_nat (length (drop room merged))) /\
      phase3_merge_features clock slots fring nasdaq iex cboe = Some (n, i, c, p, Some (Some (fb, fpub))) /\
      bridge_run (H := RingFeaturePublisher kRingBits) (bridge_init slots feature_config_default) (Some (Some fring)) merged = Some (fb, fpub) /\
      stats_balance (fb_stats fb) /\
      merge_files clock nasdaq iex cboe (Some []) = Some (n, i, c, p, Some merged)
  end.
Proof.
  intros Ho jring room. unfold phase2_merge, phase2_merge_jit, phase3_merge_features, merge_files.
  destruct (merge_sources clock nasdaq iex cboe) as [[[[n i] c] p]|]; [|done]. cbn [mbind option_bind].
  set (js := Some (jit_bridge_init (Some (Some jring)))).
  set (fs := Some (Some (bridge_init slots feature_config_default, Some (Some fring))) : option FeatureSink).
  pose proof (finalize_sink p (None : option (list BookEvent)) js) as Ej.
  pose proof (finalize_sink p (None : option (list BookEvent)) fs) as Ef.
  pose proof (finalize_sink p (None : option (list BookEvent)) (Some ([] : list BookEvent))) as El.
  destruct (jit_ring_gets_prefix kRingBits p owned Ho) as (b & r & Hb & Hr & Hh & Hst). fold jring in Hb.
  destruct (pipeline_finalize_drain p fs) as [Hf _]. destruct (pipeline_finalize_drain p (Some ([] : list BookEvent))) as [Hl _].
  destruct (bridge_run_ok (H := RingFeaturePublisher kRingBits) (merger_drain (merger p)) (bridge_init slots feature_config_default)
    (Some (Some fring)) (bridge_init_ok slots _) ltac:(done)) as (fb & fpub & Hrun & Hok).
  assert ((pipeline_finalize p js).2 = Some b) as Hb' by exact Hb.
  destruct (pipeline_finalize p (None : option (list BookEvent))) as [p0 s0], (pipeline_finalize p js) as [p1 s1],
    (pipeline_finalize p fs) as [p2 s2], (pipeline_finalize p (Some [])) as [p3 s3]. cbn [fst snd] in *. subst p1 p2 p3 s1 s2 s3.
  exists (merger_drain (merger p)), b, r, fb, fpub. split_and!; try done.
  - unfold fs. cbn [fmap option_fmap option_map]. by rewrite feature_sink_run, Hrun.
  - apply Hok.
  - cbn [fmap option_fmap option_map].
    change (fun s e => on_merged_event e s) with (fun (l : list BookEvent) x => l ++ [x]). by rewrite fold_left_snoc.
Qed.

(** ** At concrete inputs *)

Definition blank_slots : list JitSignalEvent := replicate (Z.to_nat (ring_size kRingBits)) (convert event_default).

Definition blank_features : list FeatureVector :=
  replicate (Z.to_nat (ring_size kRingBits)) (mkFeature 0 0 0 0 0 0 0 dzero dzero dzero dzero dzero dzero).

Lemma merge_modes_agree_witness :
  let nasdaq := prefixed_all (map fst (map itch_item sample_itch)) in
  let iex := sample_header ++ captured_all (map ik_captured [sample_packet]) in
  let jring := ring_init kRingBits blank_slots None (ring_size kRingBits) in
  let fring := ring_init kRingBits blank_features None (ring_size kRingBits) in
  let room := Z.to_nat (ring_size kRingBits - 1) in
  match phase2_merge tick nasdaq iex None with
  | None => phase2_merge_jit tick jring nasdaq iex None = None /\ phase3_merge_features tick 16 fring nasdaq iex None = None
  | Some (n, i, c, p, _) => exists merged b r fb fpub,
      phase2_merge_jit tick jring nasdaq iex None = Some (n, i, c, p, Some b) /\
      publisher_ b = Some (Some r) /\ holds kRingBits r (convert <$> take room merged) /\
      jit_stats b = mkJitStats (Z.of_nat (length (take room merged))) (Z.of_nat (length (drop room merged))) /\
      phase3_merge_features tick 16 fring nasdaq iex None = Some (n, i, c, p, Some (Some (fb, fpub))) /\
      bridge_run (H := RingFeaturePublisher kRingBits) (bridge_init 16 feature_config_default) (Some (Some fring)) merged = Some (fb, fpub) /\
      stats_balance (fb_stats fb) /\
      merge_files tick nasdaq iex None (Some []) = Some (n, i, c, p, Some merged)
  end.
Proof.
  apply (merge_modes_agree tick 16 blank_slots). unfold blank_slots. rewrite length_replicate, Z2Nat.id; [reflexivity|].
  unfold ring_size, kRingBits. lia.
Defined.

(** The files of the witness merge. *)
Example sample_files_merge :
  match phase2_merge tick (prefixed_all (map fst (map itch_item sample_itch)))
          (sample_header ++ captured_all (map ik_captured [sample_packet])) None with
  | Some (n, i, None, _, _) => rs_parsed n = 2 /\ rs_parsed i = 2
  | _ => False
  end.
Proof. vm_compute. split; reflexivity. Qed.
