(* ===== verification/JournalTools.v ===== *)
(** * The journal tools (tools/journal_diff.cpp, nbbo_journal_diff.cpp, itch_to_journal.cpp,
    journal_replay.cpp, book_reconcile.cpp, make_research_journal.cpp, and the loader of
    ab_failover_validation.cpp)

    What the command-line tools do with journals, their arguments given and
    their output left out: comparing two, converting an ITCH file to one,
    replaying one through the pipeline, reconciling the books of one, and
    generating the synthetic ones. A path is what it holds, [None] when it
    cannot be opened; padding bytes of the objects written are a parameter, as
    is the clock.

    A converted file is read back as the messages it was made of; a replayed
    journal gives the checksum of the pipeline run on it, whatever tool runs it,
    up to the interval at which the replay tool drains; identical journals are
    those equal up to their last whole record. *)

From S2P Require Import Prelude Types Crc SequenceTracker Recovery Merger Pipeline InOrder OrderTable Levels OrderBook BookTotals Wire Itch Framing AbArbiter FeedSession EventBytes Journal EventStore NbboJournal CaptureFiles AbEvidence.

#[local] Open Scope list_scope.
#[local] Open Scope Z_scope.

(** ** journal_diff and nbbo_journal_diff *)

Inductive DiffResult :=
  | DiffOpenFailed | DiffHeaderSize | DiffHeader | DiffRecordCount (lhs rhs : nat)
  | DivergedAt (i : nat) | Identical (records : nat).

(** [open_map]: an empty file is a failure. *)
Definition open_map (path : option (list Z)) : option (list Z) :=
  match path with Some (b :: f) => Some (b :: f) | _ => None end.

(** The loop over [n] records from record [i] on: the first that differs. *)
Fixpoint first_difference (hdr rec : nat) (l r : list Z) (n i : nat) : option nat :=
  match n with
  | O => None
  | S n =>
      if bool_decide (slice l (hdr + i * rec) rec = slice r (hdr + i * rec) rec) then first_difference hdr rec l r n (S i)
      else Some i
  end.

Definition diff_files (hdr rec : nat) (lhs rhs : option (list Z)) : DiffResult :=
  match open_map lhs, open_map rhs with
  | Some l, Some r =>
      if (length l <? hdr)%nat || (length r <? hdr)%nat then DiffHeaderSize else
      if negb (bool_decide (take hdr l = take hdr r)) then DiffHeader else
      let lrecs := ((length l - hdr) / rec)%nat in
      let rrecs := ((length r - hdr) / rec)%nat in
      if negb (lrecs =? rrecs)%nat then DiffRecordCount lrecs rrecs else
      match first_difference hdr rec l r lrecs 0 with
      | Some i => DivergedAt i
      | None => Identical lrecs
      end
  | _, _ => DiffOpenFailed
  end.

Definition journal_diff : option (list Z) -> option (list Z) -> DiffResult := diff_files kHeaderSize (rec_bytes book_format).
Definition nbbo_journal_diff : option (list Z) -> option (list Z) -> DiffResult := diff_files kHeaderSize (rec_bytes nbbo_format).

(** ** itch_to_journal *)

Record ConvertState := mkConvert {
  cv_writer : JournalWriter; cv_stats : ParseStats; bytes_read_ : Z; messages_parsed : Z; events_written : Z;
  unhandled_msg_count : Z; last_exchange_ts_ns_ : Z; cv_seq : Z;
}.

(** A message without a time stamp takes that of the last one with one. *)
Definition fill_timestamp (last : Z) (ev : BookEvent) : BookEvent * Z :=
  if (exchange_ts_ns ev =? 0) && negb (last =? 0) then (set_exchange_ts last ev, last)
  else if negb (exchange_ts_ns ev =? 0) then (ev, exchange_ts_ns ev)
  else (ev, last).

Section convert.
Context (os_write : list Z -> list Z -> Z) (clock : Z -> Z) (pad : Z -> Padding).
(** [--max-events] and [--max-bytes], 0 for none. *)
Context (max_events max_bytes : Z).

Definition over_bytes (n : Z) : bool := (0 <? max_bytes) && (max_bytes <? n).

(** One message: the new state, and whether the loop goes on; [None]: the
    record does not fit the writer's buffer. *)
Definition convert_message (msg : list Z) (st : ConvertState) : option (ConvertState * bool) :=
  let seq := cv_seq st in
  let '(ev, stats) := itch_parse_message msg seq (clock seq) (cv_stats st) in
  let st := mkConvert (cv_writer st) stats (bytes_read_ st +64 Z.of_nat (length msg)) (messages_parsed st +64 1)
              (events_written st) (unhandled_msg_count st) (last_exchange_ts_ns_ st) (seq +64 1) in
  match ev with
  | None => Some (st, true)
  | Some ev =>
      let unhandled := if decide (type ev = TypeUnknown) then unhandled_msg_count st +64 1 else unhandled_msg_count st in
      let '(ev, last) := fill_timestamp (last_exchange_ts_ns_ st) ev in
      w ← journal_append os_write (cv_writer st) (pad seq, ev) (ingest_ts_ns ev);
      let written := events_written st +64 1 in
      Some (mkConvert w (cv_stats st) (bytes_read_ st) (messages_parsed st) written unhandled last (cv_seq st),
            negb ((0 <? max_events) && (max_events <=? written)))
  end.

Definition add_bytes (n : Z) (st : ConvertState) : ConvertState :=
  mkConvert (cv_writer st) (cv_stats st) (bytes_read_ st +64 n) (messages_parsed st) (events_written st)
    (unhandled_msg_count st) (last_exchange_ts_ns_ st) (cv_seq st).
Definition add_unhandled (st : ConvertState) : ConvertState :=
  mkConvert (cv_writer st) (cv_stats st) (bytes_read_ st) (messages_parsed st) (events_written st)
    (unhandled_msg_count st +64 1) (last_exchange_ts_ns_ st) (cv_seq st).

Fixpoint convert_loop (fuel : nat) (s : list Z) (st : ConvertState) : option ConvertState :=
  match fuel with
  | O => None
  | S fuel =>
      match read 2 s with
      | None => Some st
      | Some (len_buf, s) =>
          let st := add_bytes 2 st in
          if over_bytes (bytes_read_ st) then Some st else
          let msg_len := read_u16_be len_buf in
          if msg_len =? 0 then convert_loop fuel s (add_unhandled st) else
          if over_bytes (bytes_read_ st +64 msg_len) then Some st else
          match read (Z.to_nat msg_len) s with
          | None => Some st
          | Some (msg, s) =>
              '(st, go) ← convert_message msg st;
              if (go : bool) then convert_loop fuel s st else Some st
          end
      end
  end.

(** The main program on an input that opens and an output that can be
    written: what the output holds at the end. [append]: the flag. *)
Definition itch_to_journal (input contents : list Z) (append : bool) : option (bool * list Z * ConvertState) :=
  let contents := if append then contents else [] in
  let start w := mkConvert w parse_stats_init 0 0 0 0 0 1 in
  match writer_open os_write book_format true contents (writer_init (2 ^ 20)) with
  | (false, w) => Some (false, file w, start w)
  | (true, w) =>
      st ← convert_loop (S (length input)) input (start w);
      Some (true, file (writer_close os_write (cv_writer st)), st)
  end.
End convert.

(** ** load_journal *)

Fixpoint load_loop (fuel : nat) (r : JournalReader) (out : list BookEvent) : option (list BookEvent * JournalReader) :=
  match fuel with
  | O => None
  | S fuel =>
      match journal_next r with
      | Some (Some (ev, ts, _), r) => load_loop fuel r (out ++ [set_ingest_ts ts ev])
      | Some (None, r) => Some (out, r)
      | None => None
      end
  end.

(** The result and [out]; the outer option is that of [journal_next]. *)
Definition load_journal (path : option (list Z)) : option (bool * list BookEvent) :=
  match reader_open book_format path true reader_init with
  | (false, _) => Some (false, [])
  | (true, r) =>
      '(out, r) ← load_loop (S (length (default [] path))) r [];
      Some (match error r with None => true | Some _ => false end, out)
  end.

(** ** journal_replay *)

(** The result of the tool: it failed; with [--no-finalize], the pipeline as it
    stands; else the pipeline after the last [finalize] and the merged events. *)
Inductive ReplayResult :=
  | ReplayFailed
  | ReplayUnfinished (p : Pipeline)
  | ReplayDone (records : Z) (p : Pipeline) (merged : list BookEvent).

Definition kDrainIntervalRecords : Z := 100000.

Section journal_replay.
(** The interval between drains, [--max-records], and whether the mode collects
    the merged events. *)
Context (interval max_records : Z) (collect_merged : bool).

(** [pipeline.finalize(collect ? &sink : nullptr)] *)
Definition drain_into (collect : bool) (p : Pipeline) (merged : list BookEvent) : Pipeline * list BookEvent :=
  let '(p, sink) := pipeline_finalize (T := list BookEvent) p (if collect then Some merged else None) in
  (p, default merged sink).

Fixpoint journal_replay_loop (fuel : nat) (r : JournalReader) (p : Pipeline) (merged : list BookEvent)
    : option (JournalReader * Pipeline * list BookEvent) :=
  match fuel with
  | O => None
  | S fuel =>
      match journal_next r with
      | Some (Some (ev, ts, _), r) =>
          let p := pipeline_on_event p (set_ingest_ts ts ev) in
          let n := records_read (rstats r) in
          let '(p, merged) := if n mod interval =? 0 then drain_into collect_merged p merged else (p, merged) in
          if (0 <? max_records) && (max_records <=? n) then Some (r, p, merged)
          else journal_replay_loop fuel r p merged
      | Some (None, r) => Some (r, p, merged)
      | None => None
      end
  end.

Definition journal_replay (path : option (list Z)) (no_finalize : bool) : option ReplayResult :=
  match reader_open book_format path true reader_init with
  | (false, _) => Some ReplayFailed
  | (true, r) =>
      '(r, p, merged) ← journal_replay_loop (S (length (default [] path))) r (pipeline_init 1024 (2 ^ 20)) [];
      match error r with
      | Some _ => Some ReplayFailed
      | None =>
          if no_finalize then Some (ReplayUnfinished p) else
          let '(p, merged) := drain_into true p merged in
          Some (ReplayDone (records_read (rstats r)) p merged)
      end
  end.
End journal_replay.

(** ** book_reconcile *)

Definition symbol_for (idx : Z) : SymbolKey := chars "SYMB000" ++ [ch "1" + idx mod 8].

(** [static_cast<Venue>(n)] for [n] below 3. *)
Definition venue_below_3 (n : Z) : Venue := if n =? 0 then Nasdaq else if n =? 1 then Iex else Cboe.

(** Event [i] of the synthetic journal: five steps per symbol and cycle. *)
Definition reconcile_event (i : Z) : BookEvent :=
  let symbol_idx := i mod 8 in
  let cycle := i / 40 in
  let step := (i / 8) mod 5 in
  let base := 100000000 +64 cycle * 1000 +64 symbol_idx * 10 in
  let price := u32 (10000 + (cycle + symbol_idx) mod 64) in
  let ev := event_default |> set_venue (venue_below_3 (symbol_idx mod 3)) |> set_sequence (i +64 1)
    |> set_exchange_ts (i +64 1) |> set_ingest_ts (i +64 1001) |> set_symbol (symbol_for symbol_idx)
    |> set_raw_type (u8 (ch "A" + step)) in
  if step =? 0 then ev |> set_type Types.Add |> set_side Buy |> set_price price |> set_qty 100 |> set_order_id (base +64 1)
  else if step =? 1 then
    ev |> set_type Types.Add |> set_side Sell |> set_price (u32 (price + 20)) |> set_qty 120 |> set_order_id (base +64 2)
  else if step =? 2 then ev |> set_type Execute |> set_side SideUnknown |> set_qty 40 |> set_order_id (base +64 1)
  else if step =? 3 then ev |> set_type Types.Cancel |> set_side SideUnknown |> set_qty 30 |> set_order_id (base +64 2)
  else ev |> set_type Replace |> set_side Buy |> set_price (u32 (price + 1)) |> set_qty 50
         |> set_order_id (base +64 3) |> set_reference_order_id (base +64 1).

Definition synthetic_events (n : nat) : list BookEvent := map (fun i => reconcile_event (Z.of_nat i)) (seq 0 n).

(** The file is removed first; the result of [open] is an exception when false. *)
Definition generate_synthetic_journal (os_write : list Z -> list Z -> Z) (pad : Z -> Padding) (events : nat) : option (list Z) :=
  match writer_open os_write book_format true [] (writer_init (2 ^ 20)) with
  | (false, _) => None
  | (true, w) =>
      w ← writer_append_all os_write book_format w
            (map (fun ev => (object_bytes (pad (sequence ev), ev), ingest_ts_ns ev)) (synthetic_events events));
      Some (file (writer_close os_write w))
  end.

Fixpoint reconcile_loop (slots fuel : nat) (r : JournalReader) (rc : BookReconciler) : option BookReconciler :=
  match fuel with
  | O => None
  | S fuel =>
      match journal_next r with
      | Some (Some (ev, _, _), r) => reconcile_loop slots fuel r (reconciler_on_event slots rc ev)
      | Some (None, r) => Some rc
      | None => None
      end
  end.

(** [None]: an exception. *)
Definition run_reconcile (slots : nat) (snapshot_interval : Z) (path : option (list Z)) : option BookReconcileStats :=
  match reader_open book_format path true reader_init with
  | (false, _) => None
  | (true, r) => rec_stats <$> reconcile_loop slots (S (length (default [] path))) r (reconciler_init slots snapshot_interval)
  end.

(** ** make_research_journal *)

Definition kSymbols : list SymbolKey :=
  map chars ["AAPL0001"; "MSFT0002"; "NVDA0003"; "AMZN0004"; "GOOG0005"; "META0006"; "TSLA0007"; "AMD00008"]%string.

Definition research_event (i symbol_count : Z) : BookEvent :=
  let effective := if symbol_count =? 0 then 1 else Z.min symbol_count (Z.of_nat (length kSymbols)) in
  let symbol_slot := i mod effective in
  let cycle := i / (effective * 6) in
  let step := (i / effective) mod 6 in
  let mid := u32 (10000 + cycle mod 97) in
  let bid_order := 1 +64 cycle * 2 in
  let ask_order := bid_order +64 1 in
  let ev := event_default |> set_venue Nasdaq |> set_sequence (i +64 1) |> set_exchange_ts (i +64 1)
    |> set_ingest_ts (i +64 1001) |> set_symbol (nth (Z.to_nat symbol_slot) kSymbols symbol_zero) |> set_qty 100 in
  if step =? 0 then ev |> set_type Types.Add |> set_side Buy |> set_price (u32 (mid - 1)) |> set_order_id bid_order
  else if step =? 1 then ev |> set_type Types.Add |> set_side Sell |> set_price (u32 (mid + 1)) |> set_order_id ask_order
  else if step =? 2 then ev |> set_type Trade |> set_side Sell |> set_price (u32 (mid - 1)) |> set_qty 80 |> set_match_id (i +64 10)
  else if step =? 3 then ev |> set_type Trade |> set_side Buy |> set_price (u32 (mid + 1)) |> set_qty 80 |> set_match_id (i +64 10)
  else if step =? 4 then ev |> set_type Types.Delete |> set_side Buy |> set_price (u32 (mid - 1)) |> set_order_id bid_order
  else ev |> set_type Types.Delete |> set_side Sell |> set_price (u32 (mid + 1)) |> set_order_id ask_order.

Definition research_events (n : nat) (symbol_count : Z) : list BookEvent :=
  map (fun i => research_event (Z.of_nat i) symbol_count) (seq 0 n).

(** What is written, and the checksum printed with it. *)
Definition make_research_journal (os_write : list Z -> list Z -> Z) (pad : Z -> Padding) (events : nat) (symbol_count : Z)
    (contents : list Z) : option (list Z * Z) :=
  match writer_open os_write book_format true contents (writer_init (2 ^ 20)) with
  | (false, _) => None
  | (true, w) =>
      let evs := research_events events symbol_count in
      w ← writer_append_all os_write book_format w (map (fun ev => (object_bytes (pad (sequence ev), ev), ingest_ts_ns ev)) evs);
      Some (file (writer_close os_write w), crc_of_events 0 evs)
  end.

(** With two symbols the orders of both carry the same ids: what the delete of
    one symbol removes from the order table the delete of the other no longer
    finds, so after a whole cycle the second symbol still has its levels. *)
Example research_orders_collide :
  let book n symbols sym := book_at (book_run (engine_init 16) (research_events n symbols)) Nasdaq (as_u64 (chars sym)) in
  book 6%nat 1 "AAPL0001"%string = mkBook [] [] /\
  book 12%nat 2 "AAPL0001"%string = mkBook [] [] /\
  book 12%nat 2 "MSFT0002"%string = mkBook [(9999, 100)] [(10001, 100)].
Proof. vm_compute. split_and!; reflexivity. Qed.

(** ** Identical journals *)

Lemma first_difference_none hdr rec l r n : forall i, (hdr + (i + n) * rec <= length l)%nat -> (hdr + (i + n) * rec <= length r)%nat ->
  first_difference hdr rec l r n i = None <->
  slice l (hdr + i * rec) (n * rec) = slice r (hdr + i * rec) (n * rec).
Proof.
  induction n as [|n IH]; intros i Hl Hr; [by unfold slice|]. cbn [first_difference].
  assert (forall k : list Z, (hdr + (i + S n) * rec <= length k)%nat ->
    slice k (hdr + i * rec) (S n * rec) = slice k (hdr + i * rec) rec ++ slice k (hdr + S i * rec) (n * rec) /\
    length (slice k (hdr + i * rec) rec) = rec) as Hs.
  { intros k Hk. split; [|rewrite length_slice; nia].
    replace (hdr + S i * rec)%nat with (hdr + i * rec + rec)%nat by lia. unfold slice at 2. by rewrite slice_take_drop. }
  destruct (Hs l Hl) as [-> Hll], (Hs r Hr) as [-> Hlr].
  case_bool_decide as E.
  - rewrite IH by nia. rewrite E. split; [by intros ->|]. intros Ha. by apply app_inv_head in Ha.
  - split; [done|]. intros Ha. apply app_inj_1 in Ha as [? _]; [done|congruence].
Qed.

(** Two files are called identical exactly when their headers are equal and
    they hold the same number of whole records, all equal; what follows the
    last whole record is not looked at. *)
Lemma diff_files_identical hdr rec l r n : (0 < rec)%nat ->
  diff_files hdr rec (Some l) (Some r) = Identical n <->
  l <> [] /\ r <> [] /\ (hdr <= length l)%nat /\ (hdr <= length r)%nat /\
  ((length l - hdr) / rec = n)%nat /\ ((length r - hdr) / rec = n)%nat /\ take (hdr + n * rec) l = take (hdr + n * rec) r.
Proof.
  intros Hrec. unfold diff_files, open_map. destruct l as [|b l]; [split; [done|by intros []]|].
  destruct r as [|c r]; [split; [done|by intros (_ & [] & _)]|]. set (l' := b :: l). set (r' := c :: r).
  assert (l' <> [] /\ r' <> []) as [H1 H2] by done. clearbody l' r'. clear b c l r.
  destruct (Nat.ltb_spec (length l') hdr); [split; [done|lia]|]. destruct (Nat.ltb_spec (length r') hdr); [split; [done|lia]|].
  cbn [orb]. pose proof (Nat.Div0.mul_div_le (length l' - hdr) rec). pose proof (Nat.Div0.mul_div_le (length r' - hdr) rec).
  set (ln := ((length l' - hdr) / rec)%nat) in *. set (rn := ((length r' - hdr) / rec)%nat) in *.
  assert (forall k : list Z, take (hdr + n * rec) k = take hdr k ++ slice k hdr (n * rec)) as Hsplit.
  { intros k. unfold slice. by rewrite take_take_drop. }
  rewrite (Hsplit l'), (Hsplit r'). case_bool_decide as Eh; cbn [negb].
  - rewrite Eh. destruct (Nat.eqb_spec ln rn) as [En|En]; cbn [negb]; [|split; [done|lia]].
    assert (first_difference hdr rec l' r' ln 0 = None <-> slice l' hdr (ln * rec) = slice r' hdr (ln * rec)) as Hf.
    { rewrite first_difference_none by nia. cbn. by rewrite Nat.add_0_r. }
    destruct (first_difference hdr rec l' r' ln 0) as [i|].
    + split; [done|]. intros (_ & _ & _ & _ & <- & _ & E). apply app_inv_head in E. by apply Hf in E.
    + split; [|by intros (_ & _ & _ & _ & <- & _)]. intros [= <-]. split_and!; try done. f_equal. by apply Hf.
  - split; [done|]. intros (_ & _ & _ & _ & _ & _ & E). apply app_inj_1 in E as [? _]; [done|].
    rewrite !length_take. lia.
Qed.

(** A file of records, whole or torn. *)
Lemma whole_records F rs tail : format_ok F -> Forall (raw_ok F) rs -> torn F tail ->
  let f := header_bytes F ++ log_bytes F rs ++ tail in
  f <> [] /\ (kHeaderSize <= length f)%nat /\ ((length f - kHeaderSize) / rec_bytes F = length rs)%nat /\
  take (kHeaderSize + length rs * rec_bytes F) f = header_bytes F ++ log_bytes F rs.
Proof.
  intros HF Hrs Ht f. destruct (header_check F HF []) as (Hh & _ & _).
  assert (length f = kHeaderSize + (length rs * rec_bytes F + length tail))%nat as Hl.
  { unfold f. rewrite !length_app, Hh, length_log_bytes by done. lia. }
  pose proof (length_torn F tail Ht) as Htl. split_and!.
  - intros E. rewrite E in Hl. unfold kHeaderSize in Hl. simpl in Hl. lia.
  - lia.
  - rewrite Hl. symmetry. apply (Nat.div_unique _ _ _ (length tail)); lia.
  - unfold f. rewrite app_assoc. rewrite take_app_length'; [done|]. rewrite length_app, Hh, length_log_bytes by done. lia.
Qed.

Lemma raw_bytes_inj F a b : raw_ok F a -> raw_ok F b -> raw_bytes F a = raw_bytes F b -> a = b.
Proof.
  intros [] [] E. destruct a as [sa ta ca pa], b as [sb tb cb pb]. unfold raw_bytes, record_bytes in E. cbn [r_seq r_ts r_crc r_payload] in *.
  apply app_inj_1 in E as [E1 E]; [|by rewrite !length_le_bytes].
  apply app_inj_1 in E as [E2 E]; [|by rewrite !length_le_bytes].
  apply app_inj_1 in E as [_ E]; [|by rewrite !length_le_bytes].
  apply app_inj_1 in E as [E3 ->]; [|by rewrite !length_le_bytes].
  f_equal; [by apply (le_bytes_inj 8)|by apply (le_bytes_inj 8)|by apply (le_bytes_inj 4)].
Qed.

Lemma log_bytes_inj F a : forall b, Forall (raw_ok F) a -> Forall (raw_ok F) b -> log_bytes F a = log_bytes F b -> a = b.
Proof.
  induction a as [|x a IH]; intros [|y b] Ha Hb E; [done| | |].
  1, 2: apply (f_equal length) in E; rewrite !length_log_bytes in E by done; unfold rec_bytes, kRecordHeader in E; simpl in E; lia.
  apply Forall_cons in Ha as [Hx Ha]. apply Forall_cons in Hb as [Hy Hb].
  unfold log_bytes in E. cbn [map concat] in E. apply app_inj_1 in E as [E1 E2]; [|by rewrite !length_raw_bytes].
  f_equal; [by apply (raw_bytes_inj F)|by apply IH].
Qed.

(** Two journals, each possibly cut short by a crash, are called identical
    exactly when the whole records they hold are the same ones. *)
Theorem journals_identical F ra rb ta tb n : format_ok F -> Forall (raw_ok F) ra -> Forall (raw_ok F) rb -> torn F ta -> torn F tb ->
  diff_files kHeaderSize (rec_bytes F) (Some (header_bytes F ++ log_bytes F ra ++ ta)) (Some (header_bytes F ++ log_bytes F rb ++ tb))
    = Identical n <-> ra = rb /\ n = length ra.
Proof.
  intros HF Hra Hrb Hta Htb. rewrite diff_files_identical by (unfold rec_bytes, kRecordHeader; lia).
  destruct (whole_records F ra ta HF Hra Hta) as (A1 & A2 & A3 & A4), (whole_records F rb tb HF Hrb Htb) as (B1 & B2 & B3 & B4).
  rewrite A3, B3. split.
  - intros (_ & _ & _ & _ & Ea & Eb & E). subst n. rewrite A4, <-Eb, B4 in E. apply app_inv_head in E.
    split; [by apply (log_bytes_inj F)|done].
  - intros [-> ->]. split_and!; try done. by rewrite A4, B4.
Qed.

(** ** The tools' loops over a journal *)

Lemma load_loop_reads fuel : forall r xs r' evs out, read_all book_format fuel r = Some (xs, r') -> reads xs evs ->
  load_loop fuel r out = Some (out ++ evs, r').
Proof.
  induction fuel as [|fuel IH]; intros r xs r' evs out H Hr; [done|]. cbn [read_all load_loop] in *. unfold journal_next.
  destruct (reader_next book_format r) as [[[[[payload ts] seq]|] r1]|]; [| |done].
  - destruct (read_all book_format fuel r1) as [[xs1 r2]|] eqn:E; [|done]. injection H as <- <-.
    apply Forall2_cons_inv_l in Hr as (e & evs' & [He Hts] & Hr & ->). cbn [fst snd] in *.
    rewrite He, Hts, set_ingest_id, (IH _ _ _ _ _ E Hr). by rewrite <-app_assoc.
  - injection H as <- <-. apply Forall2_nil_inv_l in Hr as ->. by rewrite app_nil_r.
Qed.

(** The reader counts the records it returns. *)
Lemma next_loop_counts F f fuel : forall r x r', next_loop F fuel f r = Some (x, r') ->
  records_read (rstats r') = match x with Some _ => records_read (rstats r) +64 1 | None => records_read (rstats r) end.
Proof.
  induction fuel as [|fuel IH]; intros r x r' H; [done|]. cbn [next_loop] in H. destruct (scan F f (off r)).
  - injection H as <- <-. by destruct (_ =? _)%nat.
  - by injection H as <- <-.
  - apply IH in H. exact H.
  - by injection H as <- <-.
Qed.

Lemma reader_next_counts F r x r' : reader_next F r = Some (x, r') ->
  records_read (rstats r') = match x with Some _ => records_read (rstats r) +64 1 | None => records_read (rstats r) end.
Proof. unfold reader_next. destruct (base r); [apply next_loop_counts|by intros [= <- <-]]. Qed.

Lemma read_all_counts F fuel : forall r xs r', read_all F fuel r = Some (xs, r') ->
  0 <= records_read (rstats r) -> records_read (rstats r) + Z.of_nat (length xs) < 2 ^ 64 ->
  records_read (rstats r') = records_read (rstats r) + Z.of_nat (length xs).
Proof.
  induction fuel as [|fuel IH]; intros r xs r' H H0 Hl; [done|]. cbn [read_all] in H.
  destruct (reader_next F r) as [[[x|] r1]|] eqn:En; [| |done]; apply reader_next_counts in En.
  - destruct (read_all F fuel r1) as [[xs1 r2]|] eqn:E; [|done]. injection H as <- <-. cbn [length] in *.
    rewrite u64_small in En by lia. rewrite (IH _ _ _ E), En; lia.
  - injection H as <- <-. rewrite En. simpl. lia.
Qed.

(** The loop of the replay tool on the events themselves, [n] records read. *)
Fixpoint replay_events (interval : Z) (collect : bool) (n : Z) (evs : list BookEvent) (p : Pipeline) (merged : list BookEvent)
    : Pipeline * list BookEvent :=
  match evs with
  | [] => (p, merged)
  | ev :: evs =>
      let p := pipeline_on_event p ev in
      let n := n +64 1 in
      let '(p, merged) := if n mod interval =? 0 then drain_into collect p merged else (p, merged) in
      replay_events interval collect n evs p merged
  end.

Lemma journal_replay_loop_reads interval collect fuel : forall r xs r' evs p merged,
  read_all book_format fuel r = Some (xs, r') -> reads xs evs ->
  journal_replay_loop interval 0 collect fuel r p merged =
    Some (r', (replay_events interval collect (records_read (rstats r)) evs p merged).1,
          (replay_events interval collect (records_read (rstats r)) evs p merged).2).
Proof.
  induction fuel as [|fuel IH]; intros r xs r' evs p merged H Hr; [done|]. cbn [read_all journal_replay_loop] in *. unfold journal_next.
  destruct (reader_next book_format r) as [[[[[payload ts] seq]|] r1]|] eqn:En; [| |done]; apply reader_next_counts in En.
  - destruct (read_all book_format fuel r1) as [[xs1 r2]|] eqn:E; [|done]. injection H as <- <-.
    apply Forall2_cons_inv_l in Hr as (e & evs' & [He Hts] & Hr & ->). cbn [fst snd] in *.
    rewrite He, Hts, set_ingest_id, En. cbn [replay_events length]. change ((0 <? 0) && _) with false.
    destruct (if _ =? 0 then drain_into _ _ _ else _) as [p1 m1]. by rewrite (IH _ _ _ _ p1 m1 E Hr), En.
  - injection H as <- <-. by apply Forall2_nil_inv_l in Hr as ->.
Qed.

(** Opening a journal, possibly torn, and reading it to the end. *)
Lemma open_journal rs evs tail : holds rs evs -> torn book_format tail ->
  let f := header_bytes book_format ++ log_bytes book_format rs ++ tail in
  exists r1 r2 xs, reader_open book_format (Some f) true reader_init = (true, r1) /\
    read_all book_format (S (length f)) r1 = Some (xs, r2) /\ reads xs evs /\
    records_read (rstats r1) = 0 /\ (error r2 = None <-> tail = []).
Proof.
  intros Hh Ht f. pose proof Hh as [Hok Hi _].
  destruct (open_read_all book_format book_format_ok rs tail (S (length f)) reader_init Hok Ht) as (r1 & r2 & Ho & Hr & _ & He).
  { unfold f. rewrite !length_app, length_log_bytes by done. unfold rec_bytes, kRecordHeader. lia. }
  fold f in Ho. exists r1, r2, (delivered rs). split; [done|]. split; [done|]. split; [by apply holds_reads|].
  split; [|rewrite He, Hi; tauto]. unfold reader_open in Ho. repeat case_match; try done. by injection Ho as <-.
Qed.

Lemma replay_events_no_drain interval collect evs : forall n p merged, 0 <= n -> n + Z.of_nat (length evs) < interval -> interval <= 2 ^ 64 ->
  replay_events interval collect n evs p merged = (pipeline_run p evs, merged).
Proof.
  induction evs as [|e evs IH]; intros n p merged H0 Hn Hi; [done|]. cbn [length] in Hn. cbn [replay_events].
  rewrite u64_small, Z.mod_small by lia. replace (n + 1 =? 0) with false by lia. by rewrite IH by lia.
Qed.

(** Whatever the interval, nothing of the merged stream is lost when it is
    collected. *)
Lemma replay_events_in_order G interval evs : 0 <= G -> forall n p merged H,
  Z.of_nat (length (H ++ evs)) + G + 4 <= 2 ^ 64 -> numbered (H ++ evs) -> in_order_ok G merged H p ->
  let '(p, merged) := replay_events interval true n evs p merged in in_order_ok G merged (H ++ evs) p.
Proof.
  intros HG. induction evs as [|e evs IH]; intros n p merged H Hlen Hnum Hok; [by rewrite app_nil_r|]. cbn [replay_events].
  rewrite cons_middle, app_assoc in Hlen, Hnum |- *.
  assert (numbered (H ++ [e])) as Hnum1.
  { clear -Hnum. revert Hnum. induction evs as [|x evs IH] using rev_ind; [by rewrite app_nil_r|].
    rewrite app_assoc. by intros [? _]%numbered_snoc; apply IH. }
  apply numbered_snoc in Hnum1 as [_ Hseq].
  assert (Z.of_nat (length H) + G + 4 <= 2 ^ 64) as Hl by (rewrite !length_app in Hlen; lia).
  pose proof (in_order_step G merged H p e Hok HG Hl Hseq) as Hok1. destruct (_ =? 0); [|by apply IH].
  unfold drain_into. pose proof (in_order_finalize G merged (H ++ [e]) _ (Some merged) Hok1) as Hf.
  pose proof (pipeline_finalize_drain (pipeline_on_event p e) (Some merged)) as [Hs _].
  destruct (pipeline_finalize _ _) as [p1 s1]. cbn [fst snd] in *. subst s1.
  cbn [default fmap option_fmap option_map from_option].
  change (fun s e => on_merged_event e s) with (fun (l : list BookEvent) x => l ++ [x]). rewrite fold_left_snoc. by apply IH.
Qed.

(** A journal of fewer records than the drain interval, whichever tool reads
    it: [load_journal] gives its events, and the replay ends with the merged
    events and the checksum of the failover tool's baseline run on them. When
    its last record is cut short, both say so. *)
Theorem journal_replay_agrees rs evs tail interval collect : holds rs evs -> torn book_format tail ->
  Z.of_nat (length evs) < interval <= 2 ^ 64 ->
  let f := header_bytes book_format ++ log_bytes book_format rs ++ tail in
  let b := run_baseline 1024 (2 ^ 20) evs in
  load_journal (Some f) = Some (bool_decide (tail = []), evs) /\
  (tail <> [] -> journal_replay interval 0 collect (Some f) false = Some ReplayFailed) /\
  (tail = [] -> exists p, journal_replay interval 0 collect (Some f) false =
     Some (ReplayDone (Z.of_nat (length evs)) p (ro_merged b)) /\ merged_crc (pstats p) = ro_crc b).
Proof.
  intros Hh Ht Hi f b. destruct (open_journal rs evs tail Hh Ht) as (r1 & r2 & xs & Ho & Hr & Hx & Hn & He). fold f in Ho, Hr.
  unfold load_journal, journal_replay. rewrite Ho. change (default [] (Some f)) with f.
  rewrite (load_loop_reads _ _ _ _ _ [] Hr Hx).
  rewrite (journal_replay_loop_reads interval collect _ _ _ _ _ (pipeline_init 1024 (2 ^ 20)) [] Hr Hx).
  rewrite Hn, replay_events_no_drain in * by lia. cbn [mbind option_bind fst snd app].
  assert (records_read (rstats r2) = Z.of_nat (length evs)) as ->.
  { apply Forall2_length in Hx. rewrite (read_all_counts _ _ _ _ _ Hr), Hn; lia. }
  unfold b, run_baseline, outcome, drain_into.
  destruct (pipeline_finalize _ _) as [p s]. cbn [ro_merged ro_crc].
  destruct (error r2) as [e|].
  - assert (tail <> []) as Hne by (intros E; by apply He in E). rewrite bool_decide_eq_false_2 by done. split_and!; [done|done|done].
  - rewrite bool_decide_eq_true_2 by (by apply He). split_and!; [done|intros H; destruct H; by apply He|].
    intros _. by exists p.
Qed.

(** Replaying a journal of a stream without gaps, at any drain interval: the
    events collected keep every venue's stream whole and in order, however often
    the pipeline was drained on the way, and the checksum reported is theirs. *)
Theorem journal_replay_collects rs evs interval : holds rs evs -> numbered evs -> Z.of_nat (length evs) + 1028 <= 2 ^ 64 ->
  let f := header_bytes book_format ++ log_bytes book_format rs in
  exists p merged, journal_replay interval 0 true (Some f) false = Some (ReplayDone (Z.of_nat (length evs)) p merged) /\
    (forall v, of_venue v merged = of_venue v evs) /\ merged_crc (pstats p) = crc_of_events 0 merged.
Proof.
  intros Hh Hnum Hlen f. destruct (open_journal rs evs [] Hh (torn_nil _)) as (r1 & r2 & xs & Ho & Hr & Hx & Hn & He).
  rewrite app_nil_r in Ho, Hr. fold f in Ho, Hr. unfold journal_replay. rewrite Ho. change (default [] (Some f)) with f.
  rewrite (journal_replay_loop_reads interval true _ _ _ _ _ (pipeline_init 1024 (2 ^ 20)) [] Hr Hx).
  pose proof (replay_events_in_order 1024 interval evs ltac:(lia) (records_read (rstats r1)) (pipeline_init 1024 (2 ^ 20)) [] []
    ltac:(cbn [app]; lia) Hnum (in_order_init 1024 (2 ^ 20) ltac:(lia) ltac:(lia))) as Hok.
  cbn [mbind option_bind]. destruct (replay_events _ _ _ _ _ _) as [p merged]. cbn [fst snd app] in *.
  rewrite (proj2 He eq_refl). apply Forall2_length in Hx. rewrite (read_all_counts _ _ _ _ _ Hr), Hn, Hx by lia.
  unfold drain_into. pose proof (pipeline_finalize_drain p (Some merged)) as [Hs Hc].
  destruct (pipeline_finalize _ _) as [p1 s]. cbn [fst snd] in *. subst s. rewrite (io_crc _ _ _ _ Hok) in Hc.
  exists p1, (merged ++ merger_drain (merger p)). split_and!.
  - cbn [default fmap option_fmap option_map from_option].
    change (fun s e => on_merged_event e s) with (fun (l : list BookEvent) x => l ++ [x]). by rewrite fold_left_snoc.
  - intros v. by apply (in_order_collected 1024).
  - rewrite Hc. unfold crc_of_events. by rewrite fold_left_app.
Qed.

(** ** Converting *)

(** The events with the missing time stamps filled in, [last] being the last
    one seen. *)
Fixpoint filled (last : Z) (evs : list BookEvent) : list BookEvent :=
  match evs with
  | [] => []
  | ev :: evs => if exchange_ts_ns ev =? 0 then set_exchange_ts last ev :: filled last evs
                 else ev :: filled (exchange_ts_ns ev) evs
  end.

Lemma fill_timestamp_spec last ev :
  fill_timestamp last ev = if exchange_ts_ns ev =? 0 then (set_exchange_ts last ev, last) else (ev, exchange_ts_ns ev).
Proof.
  unfold fill_timestamp. destruct (Z.eqb_spec (exchange_ts_ns ev) 0) as [E|]; [|done]. cbn [andb negb].
  destruct (Z.eqb_spec last 0) as [->|]; [|done]. cbn [negb]. f_equal. rewrite <-E. by destruct ev.
Qed.

Lemma filled_cons last ev evs : filled last (ev :: evs) = (fill_timestamp last ev).1 :: filled (fill_timestamp last ev).2 evs.
Proof. rewrite fill_timestamp_spec. cbn [filled]. by destruct (_ =? 0). Qed.

Lemma fill_timestamp_keeps last ev : event_ok ev -> is_u 64 last ->
  event_ok (fill_timestamp last ev).1 /\ is_u 64 (fill_timestamp last ev).2.
Proof.
  intros Hev Hl. rewrite fill_timestamp_spec. destruct (_ =? 0); cbn [fst snd]; (split; [|done || apply Hev]); [|done].
  destruct Hev; by split.
Qed.

Lemma fill_timestamp_sequence last ev : sequence (fill_timestamp last ev).1 = sequence ev.
Proof. rewrite fill_timestamp_spec. by destruct (_ =? 0). Qed.

Section converted.
Context (os_write : list Z -> list Z -> Z) (clock : Z -> Z) (pad : Z -> Padding).
Hypothesis os_write_progress : forall f d, d <> [] -> 0 < os_write f d <= Z.of_nat (length d).
Hypothesis os_write_header : os_write [] (header_bytes book_format) = Z.of_nat kHeaderSize.
Hypothesis clock_ok : forall n, is_u 64 (clock n).
Hypothesis pad_ok : forall n, padding_ok (pad n).

(** The objects the converter hands its writer. *)
Definition converted (last seq : Z) (items : list Item) : list EventObject :=
  map (fun ev => (pad (sequence ev), ev)) (filled last (events_from clock seq items)).

(** Messages the converter writes: encoded ITCH within range. *)
Definition convertible (hm : ItchHeader * ItchMessage) : Prop := itch_ok hm /\ bytes_ok (encode_itch hm.1 hm.2).

Lemma convertible_event hm seq ingest : convertible hm -> is_u 64 seq -> is_u 64 ingest ->
  event_ok (itch_event hm.1 hm.2 seq ingest) /\ sequence (itch_event hm.1 hm.2 seq ingest) = seq.
Proof.
  intros [[Hts Hm] Hb] Hs Hi. pose proof (itch_parse_encode hm.1 hm.2 [] seq ingest parse_stats_init Hts Hm) as H.
  rewrite app_nil_r in H. pose proof (itch_parse_fits _ seq ingest parse_stats_init Hb Hs Hi) as Hf. rewrite H in Hf.
  destruct Hf as (? & ? & _). done.
Qed.

Lemma converted_ok hms : Forall convertible hms -> forall last seq, is_u 64 last -> 0 <= seq -> seq + Z.of_nat (length hms) < 2 ^ 64 ->
  Forall object_ok (converted last seq (map itch_item hms)).
Proof using clock_ok pad_ok.
  induction 1 as [|hm hms Hhm _ IH]; intros last seq Hl H0 Hn; [constructor|]. cbn [length] in Hn.
  destruct (convertible_event hm seq (clock seq) Hhm ltac:(unfold is_u; lia) (clock_ok _)) as [Hev _].
  destruct (fill_timestamp_keeps last _ Hev Hl) as (He & Hl1).
  unfold converted. cbn [map events_from itch_item snd]. rewrite filled_cons. cbn [map]. constructor; [split; [apply pad_ok|exact He]|]. apply IH; [done|lia|lia].
Qed.

Lemma append_given w ev : fd w = true -> Z.of_nat (rec_bytes book_format) <= buffer_bytes w ->
  exists w', journal_append os_write w ev (ingest_ts_ns ev.2) = Some w' /\ fd w' = true /\ buffer_bytes w' = buffer_bytes w /\
    next_seq w' = next_seq w +64 1 /\
    all_given w' = all_given w ++ log_bytes book_format (number (next_seq w) (as_records [ev])).
Proof using os_write_progress.
  intros Hfd Hb. destruct (append_all_given os_write os_write_progress book_format (as_records [ev]) w Hfd Hb) as (w' & Hw & Hf & Hg).
  exists w'. cbn [as_records map writer_append_all] in Hw. unfold journal_append.
  destruct (writer_append os_write book_format w (object_bytes ev) (ingest_ts_ns ev.2)) as [w1|] eqn:E; [|done]. injection Hw as ->.
  split; [done|]. split; [done|]. unfold writer_append in E. rewrite Hfd in E. cbn [negb] in E. cbv zeta in E.
  pose proof (flush_all_given os_write os_write_progress w Hfd) as (_ & _ & _ & _ & Hbb & Hns).
  set (w1 := if _ >? buffer_bytes w then _ else w) in E.
  assert (buffer_bytes w1 = buffer_bytes w /\ next_seq w1 = next_seq w) as [Hb1 Hn1] by (unfold w1; by destruct (_ >? _)).
  clearbody w1. destruct (Z.of_nat (length (buf w1) + rec_bytes book_format) >? buffer_bytes w1); [done|]. injection E as <-. split_and!; [exact Hb1|cbn [next_seq]; by rewrite Hn1|exact Hg].
Qed.

(** The loop, without limits, over messages that parse. *)
Lemma convert_loop_spec hms tail : Forall convertible hms -> torn_record tail -> forall fuel st, (length hms < fuel)%nat ->
  fd (cv_writer st) = true -> Z.of_nat (rec_bytes book_format) <= buffer_bytes (cv_writer st) ->
  0 <= cv_seq st -> cv_seq st + Z.of_nat (length hms) < 2 ^ 64 ->
  0 <= events_written st -> events_written st + Z.of_nat (length hms) < 2 ^ 64 ->
  exists st', convert_loop os_write clock pad 0 0 fuel (prefixed_all (map fst (map itch_item hms)) ++ tail) st = Some st' /\
    fd (cv_writer st') = true /\ events_written st' = events_written st + Z.of_nat (length hms) /\
    all_given (cv_writer st') = all_given (cv_writer st) ++ log_bytes book_format
      (number (next_seq (cv_writer st)) (as_records (converted (last_exchange_ts_ns_ st) (cv_seq st) (map itch_item hms)))).
Proof using os_write_progress.
  intros Hhms Ht. induction Hhms as [|hm hms Hhm _ IH]; intros [|fuel] st Hf Hfd Hbb H0 Hs H1 Hw; try (simpl in Hf; lia).
  - exists (match read 2 tail with Some _ => add_bytes 2 st | None => st end). cbn [map prefixed_all concat app convert_loop].
    assert (forall x, (x = st \/ x = add_bytes 2 st) -> fd (cv_writer x) = true /\ events_written x = events_written st + Z.of_nat 0 /\
      all_given (cv_writer x) = all_given (cv_writer st) ++ log_bytes book_format (number (next_seq (cv_writer st)) (as_records (converted (last_exchange_ts_ns_ st) (cv_seq st) [])))) as Hx.
    { intros x Hx. unfold log_bytes. cbn. rewrite app_nil_r. destruct Hx as [-> | ->]; cbn; rewrite Z.add_0_r; done. }
    destruct (torn_framed tail Ht) as [->|(m & t & Hm & -> & Hl)]; [split; [done|apply Hx; auto]|].
    rewrite read_u16_be_be by (unfold packable in Hm; lia). unfold packable in Hm. change (over_bytes 0 _) with false.
    replace (Z.of_nat (length m) =? 0) with false by lia. rewrite Nat2Z.id, read_short by done. split; [done|apply Hx; auto].
  - cbn [map length] in *. destruct Hhm as [[Hts Hm] Hb]. pose proof (length_encode_itch hm.1 hm.2 Hm) as Hp.
    rewrite prefixed_all_cons, <-app_assoc. cbn [convert_loop].
    change (itch_item hm).1 with (encode_itch hm.1 hm.2).
    destruct (read_prefixed _ (prefixed_all (map fst (map itch_item hms)) ++ tail) Hp) as [-> ->].
    change (over_bytes 0 _) with false. unfold packable in Hp.
    replace (Z.of_nat (length (encode_itch hm.1 hm.2)) =? 0) with false by lia. rewrite Nat2Z.id, read_app.
    unfold convert_message. cbn [add_bytes cv_seq cv_stats cv_writer bytes_read_ messages_parsed events_written unhandled_msg_count last_exchange_ts_ns_].
    pose proof (itch_parse_encode hm.1 hm.2 [] (cv_seq st) (clock (cv_seq st)) (cv_stats st) Hts Hm) as Hpe. rewrite app_nil_r in Hpe. rewrite Hpe.
    set (ev := itch_event hm.1 hm.2 (cv_seq st) (clock (cv_seq st))).
    destruct (fill_timestamp (last_exchange_ts_ns_ st) ev) as [ev' last] eqn:Efill.
    assert (converted (last_exchange_ts_ns_ st) (cv_seq st) (itch_item hm :: map itch_item hms) =
      (pad (cv_seq st), ev') :: converted last (cv_seq st + 1) (map itch_item hms)) as ->.
    { unfold converted. cbn [events_from itch_item snd]. fold ev. rewrite filled_cons, Efill. cbn [map]. cbn [fst snd]. do 3 f_equal.
      replace ev' with (fill_timestamp (last_exchange_ts_ns_ st) ev).1 by (by rewrite Efill).
      rewrite fill_timestamp_sequence. unfold ev. by destruct hm.2. }
    destruct (append_given (cv_writer st) (pad (cv_seq st), ev') Hfd Hbb) as (w & Hap & Hfd' & Hbb' & Hns & Hg).
    cbn [snd] in Hap. rewrite Hap. cbn [mbind option_bind]. change (negb _) with true. cbn iota.
    rewrite (u64_small (cv_seq st + 1)), (u64_small (events_written st + 1)) by lia. set (st1 := mkConvert w _ _ _ _ _ _ _).
    destruct (IH fuel st1) as (st' & -> & Hf2 & He & Ha); unfold st1 in *;
      cbn [cv_writer cv_seq events_written last_exchange_ts_ns_] in *; try lia; [exact Hfd'|].
    exists st'. split_and!; [done|done|lia|]. rewrite Ha, Hg, Hns, <-app_assoc, <-log_bytes_app. done.
Qed.
End converted.

(** Conversion: a file of ITCH messages, its last record possibly cut short,
    becomes a journal in which every tool reads back every message, in order,
    numbered from one, the missing time stamps filled in from the message
    before, whatever padding the objects had. *)
Theorem conversion_read_back os_write clock pad hms tail contents :
  (forall f d, d <> [] -> 0 < os_write f d <= Z.of_nat (length d)) -> os_write [] (header_bytes book_format) = Z.of_nat kHeaderSize ->
  (forall n, is_u 64 (clock n)) -> (forall n, padding_ok (pad n)) ->
  Forall convertible hms -> torn_record tail -> Z.of_nat (length hms) + 1 < 2 ^ 64 ->
  let evs := filled 0 (events_from clock 1 (map itch_item hms)) in
  exists f st, itch_to_journal os_write clock pad 0 0 (prefixed_all (map fst (map itch_item hms)) ++ tail) contents false = Some (true, f, st) /\
    events_written st = Z.of_nat (length hms) /\
    load_journal (Some f) = Some (true, evs) /\ exists stats, load_all (Some f) = Some (evs, stats) /\ store_crc stats = crc_of_events 0 evs.
Proof.
  intros Hw Hhdr Hclock Hpad Hhms Ht Hlen evs. unfold itch_to_journal.
  destruct (writer_open_spec os_write book_format Hhdr book_format_ok [] [] (writer_init (2 ^ 20)) eq_refl (Forall_nil_2 _)
    (or_introl (conj eq_refl eq_refl))) as (w & -> & Hfd & Hbuf & Hbb & Hfile & Hseq). rewrite decide_True in Hseq by done.
  set (st0 := mkConvert w parse_stats_init 0 0 0 0 0 1). cbv zeta.
  destruct (convert_loop_spec os_write clock pad Hw hms tail Hhms Ht (S (length (prefixed_all (map fst (map itch_item hms)) ++ tail))) st0)
    as (st & -> & Hf & He & Hg); try (cbn; lia); [|done|cbn [st0 cv_writer]; rewrite Hbb; by vm_compute|].
  { rewrite length_app. pose proof (length_prefixed_all (map fst (map itch_item hms))) as H. rewrite !length_map in H. lia. }
  cbn [mbind option_bind]. rewrite close_file by done. rewrite Hg. cbn [st0 cv_writer events_written last_exchange_ts_ns_ cv_seq] in *.
  unfold all_given. rewrite Hbuf, Hfile, Hseq. change (log_bytes book_format []) with (@nil Z). rewrite !app_nil_r.
  set (objs := converted clock pad 0 1 (map itch_item hms)).
  assert (Forall object_ok objs) as Hok.
  { apply converted_ok; try done; unfold is_u; lia. }
  assert (map snd objs = evs) as Hsnd by (unfold objs, converted; by rewrite map_map, map_id).
  pose proof (number_holds objs Hok 1 ltac:(unfold is_u; lia)) as Hh. rewrite Hsnd in Hh.
  eexists _, st. split; [done|]. split; [lia|].
  destruct (open_journal _ evs [] Hh (torn_nil _)) as (r1 & r2 & xs & Ho & Hr & Hx & _ & Her). rewrite app_nil_r in Ho, Hr.
  cbn [next_seq writer_init]. unfold load_journal, load_all, store_replay. rewrite Ho. cbn [default from_option].
  unfold id. rewrite (load_loop_reads _ _ _ _ _ [] Hr Hx), (replay_loop_reads _ _ _ _ _ evs _ _ Hr Hx), fold_left_snoc.
  cbn [mbind option_bind]. rewrite (proj2 Her eq_refl). split; [done|]. eexists. split; [done|].
  cbn [store_crc]. apply (fold_update_stats evs store_stats_init).
Qed.

(** ** Reconciling *)

Lemma reconcile_loop_reads slots fuel : forall r xs r' evs rc, read_all book_format fuel r = Some (xs, r') -> reads xs evs ->
  reconcile_loop slots fuel r rc = Some (reconciler_run slots rc evs).
Proof.
  induction fuel as [|fuel IH]; intros r xs r' evs rc H Hr; [done|]. cbn [read_all reconcile_loop] in *. unfold journal_next.
  destruct (reader_next book_format r) as [[[[[payload ts] seq]|] r1]|]; [| |done].
  - destruct (read_all book_format fuel r1) as [[xs1 r2]|] eqn:E; [|done]. injection H as <- <-.
    apply Forall2_cons_inv_l in Hr as (e & evs' & [He _] & Hr & ->). cbn [fst snd] in *. rewrite He. by rewrite (IH _ _ _ _ (reconciler_on_event slots rc e) E Hr).
  - injection H as <- <-. by apply Forall2_nil_inv_l in Hr as ->.
Qed.

Lemma reconciler_counts slots evs : forall rc,
  events_processed (rec_stats (reconciler_run slots rc evs)) = events_processed (rec_stats rc) + Z.of_nat (length evs).
Proof.
  assert (forall l r keys s, events_processed (fold_left (check_key l r) keys s) = events_processed s) as Hk.
  { intros l r keys. induction keys as [|k keys IH]; intros s; [done|]. cbn [fold_left]. by rewrite IH. }
  unfold reconciler_run. induction evs as [|e evs IH]; intros rc; [simpl; lia|]. cbn [fold_left length]. rewrite IH.
  unfold reconciler_on_event, check_snapshot. destruct (_ =? 0); cbn [rec_stats]; rewrite ?Hk; cbn [events_processed]; lia.
Qed.

(** The shape of the generated events: everything is within its width. *)
Lemma reconcile_event_ok i : 0 <= i -> event_ok (reconcile_event i).
Proof.
  intros H0. pose proof (Z.mod_pos_bound i 8 ltac:(lia)) as Hm.
  assert (symbol_ok (symbol_for (i mod 8))) as Hsym .
  { unfold symbol_for. change (chars "SYMB000") with [83; 89; 77; 66; 48; 48; 48]. change (ch "1") with 49.
    pose proof (Z.mod_pos_bound (i mod 8) 8 ltac:(lia)). split; [done|]. repeat (apply Forall_cons; split; [unfold byte_ok, is_u; lia|]). constructor. }
  unfold reconcile_event. cbv zeta. repeat case_match; split; cbn; try done; try apply u64_range; try apply u32_range; try apply u8_range;
    try (unfold is_u; lia).
Qed.

(** The reconciliation tool accepts what it generates: the synthetic journal
    of any size is written, read back whole, and its books are rebuilt without a
    divergence at any snapshot interval. *)
Theorem synthetic_reconciles os_write pad n slots interval :
  (forall f d, d <> [] -> 0 < os_write f d <= Z.of_nat (length d)) -> os_write [] (header_bytes book_format) = Z.of_nat kHeaderSize ->
  (forall i, padding_ok (pad i)) ->
  exists f s, generate_synthetic_journal os_write pad n = Some f /\ run_reconcile slots interval (Some f) = Some s /\
    events_processed s = Z.of_nat n /\ divergences s = 0.
Proof.
  intros Hw Hhdr Hpad. unfold generate_synthetic_journal, run_reconcile.
  destruct (writer_open_spec os_write book_format Hhdr book_format_ok [] [] (writer_init (2 ^ 20)) eq_refl (Forall_nil_2 _)
    (or_introl (conj eq_refl eq_refl))) as (w & -> & Hfd & Hbuf & Hbb & Hfile & Hseq). rewrite decide_True in Hseq by done.
  set (objs := map (fun ev => (pad (sequence ev), ev)) (synthetic_events n)).
  assert (map (fun ev => (object_bytes (pad (sequence ev), ev), ingest_ts_ns ev)) (synthetic_events n) = as_records objs) as ->
    by (unfold objs, as_records; by rewrite map_map).
  destruct (append_all_given os_write Hw book_format (as_records objs) w Hfd) as (w' & -> & Hfd' & Hg); [rewrite Hbb; by vm_compute|].
  cbn [mbind option_bind]. rewrite close_file, Hg by done. unfold all_given. rewrite Hbuf, Hfile, Hseq.
  change (log_bytes book_format []) with (@nil Z). rewrite !app_nil_r.
  assert (Forall object_ok objs) as Hok.
  { unfold objs, synthetic_events. do 2 apply Forall_map. apply Forall_forall. intros i _.
    split; [apply Hpad|]. cbn [snd]. apply reconcile_event_ok. lia. }
  pose proof (number_holds objs Hok 1 ltac:(unfold is_u; lia)) as Hh.
  assert (map snd objs = synthetic_events n) as Hsnd by (unfold objs; by rewrite map_map, map_id). rewrite Hsnd in Hh.
  destruct (open_journal _ _ [] Hh (torn_nil _)) as (r1 & r2 & xs & Ho & Hr & Hx & _ & _). rewrite app_nil_r in Ho, Hr.
  eexists _, _. split; [done|]. cbn [next_seq writer_init]. rewrite Ho. cbn [default from_option]. unfold id.
  rewrite (reconcile_loop_reads slots _ _ _ _ _ (reconciler_init slots interval) Hr Hx). split; [done|].
  rewrite reconciler_counts, reconciler_never_diverges. unfold synthetic_events. by rewrite length_map, length_seq.
Qed.

(** ** At concrete inputs *)

Lemma write_whole_progress : forall f d : list Z, d <> [] -> 0 < write_whole f d <= Z.of_nat (length d).
Proof. intros f d Hd. unfold write_whole. destruct d; [done|]. simpl. lia. Qed.

Lemma sample_holds : holds (number 1 (as_records [sample 1; sample 2])) [(sample 1).2; (sample 2).2].
Proof.
  apply (number_holds [sample 1; sample 2]); [|unfold is_u; lia].
  repeat (constructor; [apply sample_ok; lia|]). constructor.
Qed.

Lemma sample_torn : torn book_format (take 50 (raw_bytes book_format (sample_raw 2))).
Proof. exists (sample_raw 2), 50%nat. split; [apply sample_raw_ok; lia|]. split; [apply Nat.ltb_lt; reflexivity|done]. Qed.

Lemma journals_identical_witness :
  let rs := number 1 (as_records [sample 1; sample 2]) in let f := header_bytes book_format ++ log_bytes book_format rs in
  journal_diff (Some (f ++ take 50 (raw_bytes book_format (sample_raw 2)))) (Some (f ++ [])) = Identical 2 <-> rs = rs /\ 2%nat = length rs.
Proof.
  intros rs f. unfold f. rewrite <-!app_assoc.
  apply (journals_identical book_format rs rs _ [] 2 book_format_ok (ho_ok _ _ sample_holds) (ho_ok _ _ sample_holds) sample_torn (torn_nil _)).
Defined.

Lemma journal_replay_agrees_witness :
  let f := header_bytes book_format ++ log_bytes book_format (number 1 (as_records [sample 1; sample 2])) ++ [] in
  let evs := [(sample 1).2; (sample 2).2] in let b := run_baseline 1024 (2 ^ 20) evs in
  load_journal (Some f) = Some (bool_decide (@nil Z = []), evs) /\
  (@nil Z <> [] -> journal_replay kDrainIntervalRecords 0 false (Some f) false = Some ReplayFailed) /\
  (@nil Z = [] -> exists p, journal_replay kDrainIntervalRecords 0 false (Some f) false =
     Some (ReplayDone 2 p (ro_merged b)) /\ merged_crc (pstats p) = ro_crc b).
Proof. apply (journal_replay_agrees _ _ [] kDrainIntervalRecords false sample_holds (torn_nil _)). unfold kDrainIntervalRecords. simpl. lia. Defined.

Lemma journal_replay_collects_witness :
  let f := header_bytes book_format ++ log_bytes book_format (number 1 (as_records [sample 1; sample 2])) in
  let evs := [(sample 1).2; (sample 2).2] in
  exists p merged, journal_replay 1 0 true (Some f) false = Some (ReplayDone 2 p merged) /\
    (forall v, of_venue v merged = of_venue v evs) /\ merged_crc (pstats p) = crc_of_events 0 merged.
Proof. apply (journal_replay_collects _ _ 1 sample_holds); [intros []; reflexivity|simpl; lia]. Defined.

Definition clock64 (n : Z) : Z := u64 (tick n).

#[local] Instance byte_ok_dec b : Decision (byte_ok b).
Proof. unfold byte_ok, is_u. apply _. Defined.

Lemma sample_convertible : Forall convertible sample_itch.
Proof. repeat (constructor; [split; [split; cbn; unfold is_u; lia|apply (bool_decide_unpack _); vm_compute; exact I]|]). constructor. Qed.

Lemma conversion_witness :
  let evs := filled 0 (events_from clock64 1 (map itch_item sample_itch)) in
  exists f st, itch_to_journal write_whole clock64 (fun _ => pad_zero) 0 0 (prefixed_all (map fst (map itch_item sample_itch)) ++ []) [] false
      = Some (true, f, st) /\
    events_written st = 2 /\
    load_journal (Some f) = Some (true, evs) /\ exists stats, load_all (Some f) = Some (evs, stats) /\ store_crc stats = crc_of_events 0 evs.
Proof.
  apply (conversion_read_back write_whole clock64 (fun _ => pad_zero) sample_itch [] []).
  - apply write_whole_progress.
  - reflexivity.
  - intros n. apply u64_range.
  - intros n. apply pad_zero_ok.
  - apply sample_convertible.
  - apply torn_nil_record.
  - simpl. lia.
Defined.

Lemma synthetic_reconciles_witness : exists f s,
  generate_synthetic_journal write_whole (fun _ => pad_zero) 20 = Some f /\ run_reconcile 16 5 (Some f) = Some s /\
  events_processed s = 20 /\ divergences s = 0.
Proof.
  apply (synthetic_reconciles write_whole (fun _ => pad_zero) 20 16 5); [apply write_whole_progress|reflexivity|].
  intros i. apply pad_zero_ok.
Defined.

(** What the comparison does not see: a last record cut short. *)
Example torn_tail_ignored :
  let f := header_bytes book_format ++ log_bytes book_format [sample_raw 1] in
  journal_diff (Some (f ++ take 50 (raw_bytes book_format (sample_raw 2)))) (Some f) = Identical 1.
Proof. vm_compute. reflexivity. Qed.

(** Draining on the way is not neutral: an event of another venue that arrives
    after the drain is merged behind those already taken, although its time
    stamp is earlier, so the checksum depends on the interval. *)
Example interval_changes_the_checksum :
  let late := mkEvent Iex Types.Add 1 5 0 (chars "AAPL    ") 1 0 0 1 1 0 0 Buy None 0 in
  let evs := [set_exchange_ts 50 (sample 1).2; late] in
  let f := header_bytes book_format ++ log_bytes book_format (number 1 (as_records (map (fun e => (pad_zero, e)) evs))) in
  match journal_replay 1 0 true (Some f) false, journal_replay 100 0 true (Some f) false with
  | Some (ReplayDone _ p l), Some (ReplayDone _ q m) =>
      map venue l = [Nasdaq; Iex] /\ map venue m = [Iex; Nasdaq] /\ merged_crc (pstats p) <> merged_crc (pstats q)
  | _, _ => False
  end.
Proof. vm_compute. split_and!; [reflexivity|reflexivity|discriminate]. Qed.
