(* ===== verification/Loopback.v ===== *)
(** * The AF_XDP loopback (tools/afxdp_loopback_bench.cpp, tools/afxdp_itch_producer.cpp,
    tools/afxdp_itch_consumer.cpp)

    A file of ITCH messages is converted to a journal directly and, a second
    time, sent as MoldUDP64 datagrams, received by an AF_XDP session and
    journaled; the two semantic checksums are compared. What a poll receives is
    a parameter, given for every turn of the sending loop.

    [loopback_matches]: when every datagram arrives once and in order, at
    whatever poll, and every message carries a time stamp, the checksums match.
    With a limit on the events the comparison fails although nothing is lost
    ([limit_mismatch]), as it does for messages without a time stamp
    ([timestamp_mismatch]); the loop that waits for an event never leaves early
    ([spin_never_breaks]); and the producer sends the beginning of its file
    again and again ([producer_repeats]).

    Sockets, latencies and reports are not modelled. *)

From S2P Require Import Prelude Wire Types Crc AbArbiter EventBytes Journal EventStore Itch Deep Pitch Framing FeedSession CaptureFiles JournalTools.

#[local] Open Scope list_scope.
#[local] Open Scope Z_scope.

(** ** Sending *)

Definition framer_default : ItchMoldUdpFramer := mkFramer (chars "SESSION0001") 1.
Definition default_max_messages : Z := 16.
Definition default_max_bytes : Z := 1400.

(** [afxdp_itch_producer]: the datagrams sent. [pack_datagram] is handed the
    beginning of the buffer, with the length of what is left. [None]: out of
    fuel. *)
Fixpoint producer_loop (fuel : nat) (max_events : Z) (file : list Z) (f : ItchMoldUdpFramer) (off : nat) (messages_sent : Z) : option (list (list Z)) :=
  match fuel with
  | O => None
  | S fuel =>
      if (length file <? off + 2)%nat then Some [] else
      '(datagram, consumed, f) ← pack_datagram f (take (length file - off) file) default_max_messages default_max_bytes;
      if bool_decide (datagram = []) then Some [] else
      let messages_sent := if (0 <? consumed)%nat then messages_sent +64 1 else messages_sent in
      if (0 <? max_events) && (max_events <=? messages_sent) then Some [datagram] else
      sent ← producer_loop fuel max_events file f (off + consumed) messages_sent;
      Some (datagram :: sent)
  end.

Definition producer (max_events max_bytes : Z) (file : list Z) : option (list (list Z)) :=
  let file := if (0 <? max_bytes) && (max_bytes <? Z.of_nat (length file)) then take (Z.to_nat max_bytes) file else file in
  producer_loop (S (length file)) max_events file framer_default 0 0.

(** ** The journal made directly *)

Record OfflineState := mkOffline {
  of_writer : JournalWriter; of_stats : ParseStats; of_seq : Z; of_crc : Z; of_written : Z; of_last : Z;
}.

Section loopback.
Context (os_write : list Z -> list Z -> Z) (clock : Z -> Z) (pad : Z -> Padding) (max_events : Z).

Fixpoint offline_loop (fuel : nat) (s : list Z) (st : OfflineState) : option OfflineState :=
  match fuel with
  | O => None
  | S fuel =>
      match read 2 s with
      | None => Some st
      | Some (len_buf, s) =>
          let msg_len := read_u16_be len_buf in
          if msg_len =? 0 then offline_loop fuel s st else
          match read (Z.to_nat msg_len) s with
          | None => Some st
          | Some (msg, s) =>
              let seq := of_seq st in
              let '(ev, stats) := itch_parse_message msg seq (clock seq) (of_stats st) in
              match ev with
              | None => offline_loop fuel s (mkOffline (of_writer st) stats (seq +64 1) (of_crc st) (of_written st) (of_last st))
              | Some ev =>
                  let '(ev, last) := fill_timestamp (of_last st) ev in
                  w ← journal_append os_write (of_writer st) (pad seq, ev) (ingest_ts_ns ev);
                  let st := mkOffline w stats (seq +64 1) (update_crc_from_book_event (of_crc st) ev) (of_written st +64 1) last in
                  if (0 <? max_events) && (max_events <=? of_written st) then Some st else offline_loop fuel s st
              end
          end
      end
  end.

(** The checksum and the number of events of the journal written. *)
Definition write_offline_journal (input : list Z) : option (bool * Z * Z) :=
  match writer_open os_write book_format true [] (writer_init (2 ^ 20)) with
  | (false, _) => Some (false, 0, 0)
  | (true, w) =>
      st ← offline_loop (S (length input)) input (mkOffline w parse_stats_init 1 0 0 0);
      Some (true, of_crc st, of_written st)
  end.

(** ** The journal made over the wire *)

(** The writer of the session's sink ([None]: a record did not fit its buffer),
    and [events_written]. *)
Definition WireSink : Type := option JournalWriter * Z.

Definition wire_sink (ev : BookEvent) (s : WireSink) : WireSink :=
  (w ← s.1; journal_append os_write w (pad (sequence ev), ev) (ingest_ts_ns ev), s.2 +64 1).

Definition WireState : Type := AfxdpFeedSession * WireSink.

(** [for (spin < 1000)]; an element of [polls] is what one poll receives. *)
Fixpoint spin (polls : list (list Recv)) (st : WireState) : WireState :=
  match polls with
  | [] => st
  | recvs :: polls =>
      let st := afxdp_poll wire_sink recvs st in
      if st.2.2 <? sink_callbacks_fired (ax_stats st.1) then st else spin polls st
  end.

(** [net k]: what the polls after the [k]-th datagram receive; [late k]: the
    deadline has passed before it. *)
Context (net : nat -> list (list Recv)) (late : nat -> bool).

Fixpoint send_loop (fuel : nat) (file : list Z) (k : nat) (f : ItchMoldUdpFramer) (off : nat) (st : WireState) : option (list (list Z) * WireState) :=
  match fuel with
  | O => None
  | S fuel =>
      if (length file <? off + 2)%nat || late k then Some ([], st) else
      if (0 <? max_events) && (max_events <=? st.2.2) then Some ([], st) else
      '(datagram, consumed, f) ← pack_datagram f (drop off file) default_max_messages default_max_bytes;
      if bool_decide (datagram = []) then Some ([], st) else
      let st := spin (take 1000 (net k)) st in
      '(sent, st) ← send_loop fuel file (S k) f (off + consumed) st;
      Some (datagram :: sent, st)
  end.

(** The polls after the last datagram. *)
Fixpoint drain_wire (polls : list (list Recv)) (offline_events : Z) (st : WireState) : WireState :=
  match polls with
  | [] => st
  | recvs :: polls =>
      let st := afxdp_poll wire_sink recvs st in
      if offline_events <=? st.2.2 then st else drain_wire polls offline_events st
  end.

Inductive LoopbackResult :=
  | LoopbackFailed
  | LoopbackDone (sent : list (list Z)) (offline_crc offline_events wire_crc wire_records : Z) (crc_match : bool).

(** [tail]: the polls after the last datagram. The journal of the wire is
    removed first. *)
Definition loopback (tail : list (list Recv)) (file : list Z) : option LoopbackResult :=
  '(ok, offline_crc, offline_events) ← write_offline_journal file;
  if negb ok then Some LoopbackFailed else
  match writer_open os_write book_format true [] (writer_init (2 ^ 20)) with
  | (false, _) => Some LoopbackFailed
  | (true, w) =>
      '(sent, st) ← send_loop (S (length file)) file 0 framer_default 0 (afxdp_init, (Some w, 0));
      w ← (drain_wire (take 5000 tail) offline_events st).2.1;
      '(_, wire) ← compute_semantic_crc (Some (Journal.file (writer_close os_write w))) (mkSemantic 0 0 0);
      Some (LoopbackDone sent offline_crc offline_events (sem_crc wire) (sem_records wire)
              ((sem_crc wire =? offline_crc) && (sem_records wire =? offline_events)))
  end.

(** ** The consumer *)

(** [afxdp_itch_consumer], as long as the deadline lets it poll. *)
Fixpoint consumer_loop (polls : list (list Recv)) (expected : Z) (st : WireState) : WireState :=
  match polls with
  | [] => st
  | recvs :: polls =>
      let st := afxdp_poll wire_sink recvs st in
      if (0 <? expected) && (expected <=? st.2.2) then st else consumer_loop polls expected st
  end.
End loopback.

(** ** The waiting loop *)

(** The session counts a callback for every event its sink counts. *)
Definition counts_agree (st : WireState) : Prop := sink_callbacks_fired (ax_stats st.1) = st.2.2.

Lemma frames_counts os_write pad d ingest frames : forall st, counts_agree st ->
  counts_agree (fold_left (afxdp_on_frame (wire_sink os_write pad) d ingest) frames st).
Proof.
  induction frames as [|f frames IH]; intros [fs s] H; [done|]. cbn [fold_left]. apply IH.
  unfold afxdp_on_frame. destruct (itch_parse_message _ _ _ _) as [[ev|] p]; [|done].
  unfold counts_agree in *. cbn in *. by rewrite H.
Qed.

Lemma poll_counts os_write pad recvs : forall st, counts_agree st -> counts_agree (afxdp_poll (wire_sink os_write pad) recvs st).
Proof.
  induction recvs as [|[[|b d] ingest|] recvs IH]; intros [fs s] H; try done. cbn [afxdp_poll]. apply IH, frames_counts. done.
Qed.

(** The condition to leave the loop is never met: all polls are made, whatever
    they receive, and the latency recorded is that of all of them. *)
Theorem spin_never_breaks os_write pad polls : forall st, counts_agree st ->
  spin os_write pad polls st = fold_left (fun st recvs => afxdp_poll (wire_sink os_write pad) recvs st) polls st.
Proof.
  induction polls as [|recvs polls IH]; intros st H; [done|]. cbn [spin fold_left].
  pose proof (poll_counts os_write pad recvs st H) as H1. rewrite H1, Z.ltb_irrefl. by apply IH.
Qed.

(** ** Polls that receive data *)

Definition is_data (r : Recv) : Prop := match r with RecvData (_ :: _) _ => True | _ => False end.

Section polls.
Context {S : Type} (sink : BookEvent -> S -> S).

Lemma afxdp_poll_app r1 : forall r2 st, Forall is_data r1 -> afxdp_poll sink (r1 ++ r2) st = afxdp_poll sink r2 (afxdp_poll sink r1 st).
Proof.
  induction r1 as [|[[|b d] ingest|] r1 IH]; intros r2 [fs s] H; try (by apply Forall_cons in H as [[] _]); [done|].
  apply Forall_cons in H as [_ H]. cbn [app afxdp_poll]. by apply IH.
Qed.

Lemma polls_concat polls : forall st, Forall (Forall is_data) polls ->
  fold_left (fun st recvs => afxdp_poll sink recvs st) polls st = afxdp_poll sink (concat polls) st.
Proof.
  induction polls as [|r polls IH]; intros st H; [by destruct st|]. apply Forall_cons in H as [Hr H]. cbn [fold_left concat].
  rewrite IH by done. by rewrite afxdp_poll_app.
Qed.

(** From its first state the session hands its sink what the UDP session does. *)
Lemma afxdp_poll_feed ds s : Forall itch_datagram_ok ds ->
  (afxdp_poll sink (map (fun d => RecvData (id_bytes d) (id_ingest d)) ds) (afxdp_init, s)).2
  = fold_left (fun s e => sink e s) (concat (map id_events ds)) s.
Proof.
  intros Hds. set (recvs := map _ ds). pose proof (transports_agree sink recvs s SideA) as Ht.
  pose proof (poll_collected (fun _ => sink) recvs SideA (session_init NasdaqItch50 SideA) s [] eq_refl) as Hc.
  pose proof (itch_feed_from ds Hds (session_init NasdaqItch50 SideA) [] parse_stats_init eq_refl eq_refl) as Hf. fold recvs in Hf.
  destruct (afxdp_poll _ _ _) as [a s1], (poll collect _ _) as [f out]. destruct Hf as (-> & _). cbn [app] in Hc.
  destruct Hc as [Hc _]. cbn [fold_left] in Hc. rewrite Hc in Ht. by destruct Ht as (-> & _).
Qed.
End polls.

(** ** Packing *)

(** Messages of which a datagram holds one at least. *)
Definition short (m : list Z) : Prop := packable m /\ Z.of_nat (length m) <= 1356.

Lemma itch_short hm : itch_ok hm -> short (encode_itch hm.1 hm.2).
Proof.
  intros [_ Hm]. split; [by apply length_encode_itch|]. unfold encode_itch. cbn [length]. rewrite !length_app, !length_be.
  destruct hm.2; cbn [itch_body itch_message_ok] in *; destruct_and?; rewrite ?length_app, ?length_be; cbn [length];
    rewrite ?length_app, ?length_be; simpl; lia.
Qed.

(** The bytes of a torn record stop the packer. *)
Lemma pack_loop_torn fuel pre tail out cnt : torn_record tail -> (0 < fuel)%nat ->
  pack_loop fuel (pre ++ tail) default_max_messages default_max_bytes out cnt (length pre) = Some (out, cnt, length pre).
Proof.
  intros Ht Hf. destruct fuel as [|fuel]; [lia|]. cbn [pack_loop]. rewrite length_app.
  destruct (torn_framed tail Ht) as [Hr|(m & t & Hm & Hr & Hl)]; unfold read in Hr.
  - destruct (2 <=? length tail)%nat eqn:E; [done|]. apply Nat.leb_gt in E.
    by replace (length pre + 2 <=? _)%nat with false by (symmetry; apply Nat.leb_gt; lia).
  - destruct (2 <=? length tail)%nat eqn:E; [|done]. apply Nat.leb_le in E. injection Hr as Hb Ht'.
    assert (tail = be 2 (Z.of_nat (length m)) ++ t) as -> by (by rewrite <-Hb, <-Ht', take_drop). unfold packable in Hm.
    destruct (negb _); [done|]. rewrite be16_at_be, Nat2Z.id by lia. cbv zeta. rewrite length_app, length_be.
    replace (_ <? _)%nat with true by (symmetry; apply Nat.ltb_lt; lia). by rewrite orb_true_r.
Qed.

Lemma pack_loop_messages tail ms : torn_record tail -> Forall short ms -> forall fuel pre out cnt,
  (length ms < fuel)%nat -> 0 <= cnt <= default_max_messages -> (20 <= length out)%nat ->
  exists k, (k <= length ms)%nat /\ cnt + Z.of_nat k <= default_max_messages /\
    pack_loop fuel (pre ++ prefixed_all ms ++ tail) default_max_messages default_max_bytes out cnt (length pre) =
      Some (out ++ prefixed_all (take k ms), cnt + Z.of_nat k, (length pre + length (prefixed_all (take k ms)))%nat) /\
    (length out = 20%nat -> cnt < default_max_messages -> ms <> [] -> (0 < k)%nat).
Proof.
  intros Ht. induction 1 as [|m ms [Hm Hs] _ IH]; intros fuel pre out cnt Hf Hc Ho.
  - exists 0%nat. cbn [take prefixed_all map concat length app] in *. rewrite pack_loop_torn by (done || lia).
    split_and!; [lia|lia|by rewrite app_nil_r, Z.add_0_r, Nat.add_0_r|done].
  - destruct fuel as [|fuel]; [simpl in Hf; lia|].
    assert (exists k, (k <= length (m :: ms))%nat /\ cnt + Z.of_nat k <= default_max_messages /\
      Some (out, cnt, length pre) =
      Some (out ++ prefixed_all (take k (m :: ms)), cnt + Z.of_nat k, (length pre + length (prefixed_all (take k (m :: ms))))%nat) /\ k = 0%nat) as Hstop.
    { exists 0%nat. cbn. rewrite app_nil_r, Z.add_0_r, Nat.add_0_r. split_and!; [lia|lia|done|done]. }
    cbn [pack_loop]. rewrite prefixed_all_cons.
    assert (be16_at (pre ++ (prefixed m ++ prefixed_all ms) ++ tail) (length pre) = Z.of_nat (length m)) as Eb.
    { unfold prefixed at 1. rewrite <-!app_assoc. apply be16_at_be. unfold packable in Hm. lia. }
    rewrite Eb, Nat2Z.id, !length_app, length_prefixed. unfold packable in Hm.
    replace (length pre + 2 <=? _)%nat with true by (symmetry; apply Nat.leb_le; lia). cbn [andb].
    destruct (Z.ltb_spec cnt default_max_messages) as [Hlt|Hge]; cbn [negb].
    2: { destruct Hstop as (k & H1 & H2 & H3 & ->). exists 0%nat. split_and!; try done. lia. }
    replace (Z.of_nat (length m) =? 0) with false by lia. cbn [orb].
    replace (_ <? _)%nat with false by (symmetry; apply Nat.ltb_ge; lia).
    destruct (_ >? default_max_bytes) eqn:Eg.
    { destruct Hstop as (k & H1 & H2 & H3 & ->). exists 0%nat. split_and!; try done. intros H20. unfold default_max_bytes in Eg. lia. }
    assert (slice (pre ++ (prefixed m ++ prefixed_all ms) ++ tail) (length pre + 2) (length m) = m) as ->.
    { unfold slice, prefixed. rewrite <-drop_drop, drop_app_length, <-!app_assoc.
      rewrite drop_app_length' by (by rewrite length_be). by rewrite take_app_length. }
    unfold u16. unfold default_max_messages in *. rewrite wrap_small by (unfold is_u; lia).
    destruct (IH fuel (pre ++ prefixed m) (out ++ prefixed m) (cnt + 1)) as (k & H1 & H2 & H3 & _);
      [simpl in Hf; lia|lia|rewrite length_app; lia|].
    exists (S k). rewrite length_app, length_prefixed in H3. rewrite <-!app_assoc in *.
    change (be 2 (Z.of_nat (length m)) ++ m) with (prefixed m). rewrite H3. cbn [take length]. rewrite prefixed_all_cons, length_app, length_prefixed.
    split_and!; [lia|lia| |lia]. do 2 f_equal; [f_equal; lia|lia].
Qed.

Definition session_name : list Z := chars "SESSION000".

(** What a datagram takes of a file. *)
Lemma pack_messages tail ms next : torn_record tail -> Forall short ms -> ms <> [] ->
  exists k, (0 < k <= length ms)%nat /\ Z.of_nat k <= default_max_messages /\
    pack_datagram (mkFramer (chars "SESSION0001") next) (prefixed_all ms ++ tail) default_max_messages default_max_bytes =
      Some (mold_datagram session_name next (take k ms), length (prefixed_all (take k ms)), mkFramer (chars "SESSION0001") (next +64 Z.of_nat k)).
Proof.
  intros Ht Hs Hne. unfold pack_datagram. cbn [Framing.session mold_next_seq]. set (name := take 10 _ ++ _).
  assert (name = session_name) as -> by (by vm_compute).
  set (out := session_name ++ be 8 next ++ [0; 0]). assert (length out = 20)%nat as Ho by (unfold out; rewrite !length_app, length_be; done).
  pose proof (length_prefixed_all ms) as Hl.
  destruct (pack_loop_messages tail ms Ht Hs (S (length (prefixed_all ms ++ tail))) [] out 0) as (k & H1 & H2 & H3 & H4);
    [rewrite length_app; lia|unfold default_max_messages; lia|lia|].
  specialize (H4 Ho ltac:(done) Hne). cbn [app length Nat.add] in H3. rewrite H3, Z.add_0_l.
  assert (2 <= length (prefixed_all ms))%nat as H2l by (destruct ms; [done|]; rewrite prefixed_all_cons, length_app, length_prefixed; lia).
  rewrite length_app. replace (_ <? 2)%nat with false by (symmetry; apply Nat.ltb_ge; lia).
  replace (Z.of_nat k =? 0) with false by lia. exists k. split; [lia|]. split; [lia|]. f_equal. f_equal. f_equal.
  rewrite drop_app_length' by done. unfold mold_datagram, out. rewrite length_take, Nat.min_l by lia.
  rewrite <-!app_assoc, (app_assoc session_name). rewrite take_app_length' by (by rewrite length_app, length_be). by rewrite <-app_assoc.
Qed.

Lemma pack_torn f tail : torn_record tail -> pack_datagram f tail default_max_messages default_max_bytes = Some ([], 0%nat, f).
Proof.
  intros Ht. unfold pack_datagram. destruct (_ <? 2)%nat; [done|].
  pose proof (fun out => pack_loop_torn (S (length tail)) [] tail out 0 Ht ltac:(lia)) as Hp. cbn [app length] in Hp. by rewrite Hp.
Qed.

(** ** What is sent *)

Definition encoded (hms : list (ItchHeader * ItchMessage)) : list (list Z) := map fst (map itch_item hms).

Lemma encoded_app a b : encoded (a ++ b) = encoded a ++ encoded b.
Proof. unfold encoded. by rewrite !map_app. Qed.

Lemma prefixed_all_app a b : prefixed_all (a ++ b) = prefixed_all a ++ prefixed_all b.
Proof. unfold prefixed_all. by rewrite map_app, concat_app. Qed.

Lemma encoded_short hms : Forall itch_ok hms -> Forall short (encoded hms).
Proof. intros H. apply Forall_map, Forall_map. eapply Forall_impl; [exact H|]. apply itch_short. Qed.

(** The datagrams of groups of messages, numbered from [next] on. *)
Fixpoint datagrams (next : Z) (groups : list (list (ItchHeader * ItchMessage))) : list (list Z) :=
  match groups with
  | [] => []
  | g :: groups => mold_datagram session_name next (encoded g) :: datagrams (next + Z.of_nat (length g)) groups
  end.

Section sending.
Context (os_write : list Z -> list Z -> Z) (pad : Z -> Padding) (net : nat -> list (list Recv)).
Context (Hnet : forall k, Forall (Forall is_data) (net k)).
Abbreviation sink := (wire_sink os_write pad).

(** What arrives after the datagrams from the [k]-th on. *)
Definition arrivals (k n : nat) : list Recv := concat (map (fun i => concat (take 1000 (net i))) (seq k n)).

Lemma send_loop_spec tail : torn_record tail -> forall fuel hms pre k next st, Forall itch_ok hms -> (length hms < fuel)%nat ->
  counts_agree st -> 0 <= next -> next + Z.of_nat (length hms) < 2 ^ 64 ->
  exists groups, concat groups = hms /\ Forall (fun g => g <> [] /\ Z.of_nat (length g) <= default_max_messages) groups /\
  send_loop os_write pad 0 net (fun _ => false) fuel (pre ++ prefixed_all (encoded hms) ++ tail) k (mkFramer (chars "SESSION0001") next) (length pre) st =
    Some (datagrams next groups, afxdp_poll sink (arrivals k (length groups)) st).
Proof using Hnet.
  intros Ht. induction fuel as [|fuel IH]; intros hms pre k next st Hok Hf Hst H0 Hn; [lia|].
  cbn [send_loop]. rewrite orb_false_r. change (0 <? 0) with false. cbn [andb].
  destruct (decide (hms = [])) as [->|Hne].
  { exists []. cbn [encoded map prefixed_all concat app]. split; [done|]. split; [constructor|].
    destruct (_ <? _)%nat; [by destruct st|]. rewrite drop_app_length, pack_torn by done. cbn [mbind option_bind]. by destruct st. }
  destruct (pack_messages tail (encoded hms) next Ht (encoded_short _ Hok)) as (j & [Hj1 Hj2] & Hj16 & Hpack); [by destruct hms|].
  assert (length (encoded hms) = length hms) as Hlen by (unfold encoded; by rewrite !length_map). rewrite Hlen in Hj2.
  assert (2 <= length (prefixed_all (encoded hms)))%nat as H2l.
  { destruct hms; [done|]. cbn [encoded map]. rewrite prefixed_all_cons, length_app, length_prefixed. lia. }
  rewrite !length_app. replace (_ <? _)%nat with false by (symmetry; apply Nat.ltb_ge; lia).
  rewrite drop_app_length, Hpack. cbn [mbind option_bind].
  assert (take j (encoded hms) = encoded (take j hms)) as Etake by (unfold encoded; by rewrite <-!firstn_map).
  rewrite bool_decide_false by (unfold mold_datagram; by intros ?%(f_equal length)).
  rewrite (spin_never_breaks os_write pad _ st Hst), (polls_concat sink) by (by apply Forall_take).
  set (st1 := afxdp_poll sink (concat (take 1000 (net k))) st).
  assert (counts_agree st1) as Hst1 by (by apply poll_counts). rewrite u64_small by lia.
  destruct (IH (drop j hms) (pre ++ prefixed_all (encoded (take j hms))) (S k) (next + Z.of_nat j) st1) as (groups & Hg & Hgs & Hsend);
    [by apply Forall_drop|rewrite length_drop; lia|done|lia|rewrite length_drop; lia|].
  rewrite <-!app_assoc, (app_assoc (prefixed_all _)), <-prefixed_all_app, <-encoded_app, take_drop, length_app, <-Etake in Hsend.
  rewrite Hsend. cbn [mbind option_bind]. exists (take j hms :: groups).
  split; [cbn [concat]; by rewrite Hg, take_drop|]. split.
  { constructor; [|done]. rewrite length_take. split; [|lia]. intros E%(f_equal length). rewrite length_take in E. cbn in E. lia. }
  cbn [datagrams length]. rewrite length_take, Nat.min_l, Etake by lia. do 2 f_equal.
  unfold arrivals. cbn [seq map concat]. rewrite (afxdp_poll_app sink); [done|]. apply Forall_concat. by apply Forall_take.
Qed.
End sending.

(** ** What is written *)

Section writing.
Context (os_write : list Z -> list Z -> Z) (clock : Z -> Z) (pad : Z -> Padding).
Hypothesis os_write_progress : forall f d, d <> [] -> 0 < os_write f d <= Z.of_nat (length d).
Hypothesis os_write_header : os_write [] (header_bytes book_format) = Z.of_nat kHeaderSize.
Hypothesis pad_ok : forall n, padding_ok (pad n).

Definition padded (evs : list BookEvent) : list EventObject := map (fun ev => (pad (sequence ev), ev)) evs.

Lemma wire_sink_fold evs : forall w n, fd w = true -> Z.of_nat (rec_bytes book_format) <= buffer_bytes w -> 0 <= n -> n + Z.of_nat (length evs) < 2 ^ 64 ->
  exists w', fold_left (fun s e => wire_sink os_write pad e s) evs (Some w, n) = (Some w', n + Z.of_nat (length evs)) /\
    fd w' = true /\ all_given w' = all_given w ++ log_bytes book_format (number (next_seq w) (as_records (padded evs))).
Proof using os_write_progress.
  induction evs as [|ev evs IH]; intros w n Hfd Hb H0 Hn.
  { exists w. cbn. rewrite Z.add_0_r. split_and!; [done|done|]. unfold log_bytes. cbn. by rewrite app_nil_r. }
  cbn [length fold_left] in *. destruct (append_given os_write os_write_progress w (pad (sequence ev), ev) Hfd Hb) as (w1 & Hw & Hfd1 & Hb1 & Hn1 & Hg1).
  unfold wire_sink at 2. cbn [fst snd] in *. cbn [mbind option_bind]. rewrite Hw, u64_small by lia.
  destruct (IH w1 (n + 1)) as (w' & -> & Hfd' & Hg'); [done|by rewrite Hb1|lia|lia|]. exists w'.
  split; [f_equal; lia|]. split; [done|]. rewrite Hg', Hg1, Hn1, <-app_assoc, <-log_bytes_app. done.
Qed.

(** What a fresh journal of [evs] is read as. *)
Lemma fresh_journal evs : Forall event_ok evs -> Z.of_nat (length evs) < 2 ^ 64 ->
  exists w, writer_open os_write book_format true [] (writer_init (2 ^ 20)) = (true, w) /\
  exists w', fold_left (fun s e => wire_sink os_write pad e s) evs (Some w, 0) = (Some w', Z.of_nat (length evs)) /\
  forall out, compute_semantic_crc (Some (file (writer_close os_write w'))) out =
    Some (true, mkSemantic (Z.of_nat (length evs)) (crc_of_events 0 evs) 0).
Proof using os_write_header os_write_progress pad_ok.
  intros Hok Hn. destruct (writer_open_spec os_write book_format os_write_header book_format_ok [] [] (writer_init (2 ^ 20)) eq_refl (Forall_nil_2 _)
    (or_introl (conj eq_refl eq_refl))) as (w & Ho & Hfd & Hbuf & Hbb & Hfile & Hseq). rewrite decide_True in Hseq by done.
  exists w. split; [done|]. destruct (wire_sink_fold evs w 0 Hfd) as (w' & Hw' & Hfd' & Hg); [rewrite Hbb; by vm_compute|lia|lia|].
  exists w'. split; [done|]. intros out. rewrite close_file by done. rewrite Hg. unfold all_given. rewrite Hbuf, Hfile, Hseq.
  change (log_bytes book_format []) with (@nil Z). rewrite !app_nil_r.
  assert (map snd (padded evs) = evs) as Hsnd by (unfold padded; by rewrite map_map, map_id).
  assert (holds (number 1 (as_records (padded evs))) evs) as Hh.
  { pose proof (number_holds (padded evs)) as Hh. rewrite Hsnd in Hh. apply Hh; [|unfold is_u; lia]. unfold padded. apply Forall_map.
    eapply Forall_impl; [exact Hok|]. intros ev Hev. by split; [apply pad_ok|]. }
  by apply semantic_of_store.
Qed.

(** The journal made directly, of messages that carry a time stamp. *)
Lemma offline_loop_spec hms tail : Forall convertible hms -> Forall (fun hm => h_timestamp hm.1 <> 0) hms -> torn_record tail ->
  forall fuel st, (length hms < fuel)%nat -> fd (of_writer st) = true -> Z.of_nat (rec_bytes book_format) <= buffer_bytes (of_writer st) ->
  0 <= of_seq st -> of_seq st + Z.of_nat (length hms) < 2 ^ 64 -> 0 <= of_written st -> of_written st + Z.of_nat (length hms) < 2 ^ 64 ->
  exists st', offline_loop os_write clock pad 0 fuel (prefixed_all (encoded hms) ++ tail) st = Some st' /\
    of_crc st' = crc_of_events (of_crc st) (events_from clock (of_seq st) (map itch_item hms)) /\
    of_written st' = of_written st + Z.of_nat (length hms).
Proof using os_write_progress.
  intros Hhms Hts Ht. induction Hhms as [|hm hms [[Hts48 Hm] Hb] _ IH]; intros [|fuel] st Hf Hfd Hbb H0 Hs H1 Hw; try (simpl in Hf; lia).
  - exists st. cbn [map encoded prefixed_all concat app offline_loop events_from length]. rewrite Z.add_0_r. split; [|done].
    destruct (torn_framed tail Ht) as [->|(m & t & Hm & -> & Hl)]; [done|].
    rewrite read_u16_be_be by (unfold packable in Hm; lia). unfold packable in Hm.
    replace (Z.of_nat (length m) =? 0) with false by lia. by rewrite Nat2Z.id, read_short.
  - apply Forall_cons in Hts as [Hts0 Hts]. cbn [length] in *. pose proof (length_encode_itch hm.1 hm.2 Hm) as Hp.
    change (encoded (hm :: hms)) with (encode_itch hm.1 hm.2 :: encoded hms). rewrite prefixed_all_cons, <-app_assoc. cbn [offline_loop].
    destruct (read_prefixed _ (prefixed_all (encoded hms) ++ tail) Hp) as [-> ->]. unfold packable in Hp.
    replace (Z.of_nat (length (encode_itch hm.1 hm.2)) =? 0) with false by lia. rewrite Nat2Z.id, read_app.
    pose proof (itch_parse_encode hm.1 hm.2 [] (of_seq st) (clock (of_seq st)) (of_stats st) Hts48 Hm) as Hpe. rewrite app_nil_r in Hpe. rewrite Hpe.
    cbn [map events_from itch_item snd]. set (ev := itch_event hm.1 hm.2 (of_seq st) (clock (of_seq st))).
    assert (exchange_ts_ns ev = h_timestamp hm.1) as Hev by (unfold ev; by destruct hm.2).
    assert (exists last, fill_timestamp (of_last st) ev = (ev, last)) as [last ->].
    { rewrite fill_timestamp_spec, Hev. replace (h_timestamp hm.1 =? 0) with false by lia. by eexists. }
    destruct (append_given os_write os_write_progress (of_writer st) (pad (of_seq st), ev) Hfd Hbb) as (w & Hap & Hfd' & Hbb' & _).
    cbn [snd] in Hap. rewrite Hap. cbn [mbind option_bind]. change (0 <? 0) with false. cbn [andb].
    rewrite (u64_small (of_seq st + 1)), (u64_small (of_written st + 1)) by lia.
    match goal with |- context [offline_loop _ _ _ _ fuel _ ?st1] => destruct (IH Hts fuel st1) as (st' & -> & Hc & Hn) end;
      cbn [of_writer of_seq of_written of_crc] in *; try lia; try done.
    exists st'. split_and!; [done|done|lia].
Qed.
End writing.

(** ** What arrives *)

(** The checksum does not cover when an event was taken in. *)
Lemma crc_ingest crc h m seq i i' : update_crc_from_book_event crc (itch_event h m seq i) = update_crc_from_book_event crc (itch_event h m seq i').
Proof. by destruct m. Qed.

Lemma crc_numbered clock ingest g : forall crc next i, 0 <= next -> next + Z.of_nat (i + length g) < 2 ^ 64 ->
  crc_of_events crc (numbered_events next i ingest g) = crc_of_events crc (events_from clock (next + Z.of_nat i) (map itch_item g)).
Proof.
  induction g as [|[h m] g IH]; intros crc next i H0 Hn; [done|]. cbn [length] in Hn.
  cbn [numbered_events map events_from itch_item snd fst]. rewrite u64_small by lia. rewrite !crc_of_events_cons.
  rewrite (crc_ingest crc h m _ ingest (clock (next + Z.of_nat i))).
  replace (next + Z.of_nat i + 1) with (next + Z.of_nat (S i)) by lia. apply IH; lia.
Qed.

(** The datagrams with the times they arrive at. *)
Fixpoint stamped (next : Z) (groups : list (list (ItchHeader * ItchMessage))) (times : list Z) : list ItchDatagram :=
  match groups, times with
  | g :: groups, t :: times => mkItchDatagram session_name next g t :: stamped (next + Z.of_nat (length g)) groups times
  | _, _ => []
  end.

Lemma events_from_app {A} clock (a b : list A) f : forall seq,
  events_from clock seq (map f (a ++ b)) = events_from clock seq (map f a) ++ events_from clock (seq + Z.of_nat (length a)) (map f b).
Proof.
  induction a as [|x a IH]; intros seq; [cbn; by rewrite Z.add_0_r|]. cbn [app map events_from length]. rewrite IH. do 2 f_equal. f_equal. lia.
Qed.

Lemma crc_stamped clock groups : forall next times crc, length times = length groups -> 0 <= next -> next + Z.of_nat (length (concat groups)) < 2 ^ 64 ->
  crc_of_events crc (concat (map id_events (stamped next groups times))) = crc_of_events crc (events_from clock next (map itch_item (concat groups))).
Proof.
  induction groups as [|g groups IH]; intros next [|t times] crc Hl H0 Hn; try done. cbn [stamped map concat] in *. rewrite length_app in Hn.
  rewrite events_from_app. unfold id_events at 1. cbn [id_first id_ingest id_messages].
  rewrite !crc_of_events_app, (crc_numbered clock), Z.add_0_r by lia. apply IH; [by injection Hl|lia|lia].
Qed.

Definition arrived (d : ItchDatagram) : Recv := RecvData (id_bytes d) (id_ingest d).

Lemma stamped_arrive groups : forall next times, zip_with RecvData (datagrams next groups) times = map arrived (stamped next groups times).
Proof.
  induction groups as [|g groups IH]; intros next [|t times]; try done. cbn [datagrams stamped zip_with map]. rewrite IH. f_equal.
  unfold arrived, id_bytes, id_payloads, encoded. cbn [id_name id_first id_messages id_ingest]. by rewrite map_map.
Qed.

Lemma stamped_ok groups : forall next times, Forall (Forall convertible) groups -> Forall (fun g => Z.of_nat (length g) <= default_max_messages) groups ->
  0 <= next -> next + Z.of_nat (length (concat groups)) < 2 ^ 64 -> Forall itch_datagram_ok (stamped next groups times).
Proof.
  induction groups as [|g groups IH]; intros next [|t times] Hg Hs H0 Hn; try (by constructor).
  apply Forall_cons in Hg as [Hg Hgs]. apply Forall_cons in Hs as [Hs Hss]. cbn [concat] in Hn. rewrite length_app in Hn. unfold default_max_messages in Hs.
  constructor; [|apply IH; try done; lia]. split; cbn [id_name id_first id_messages]; [done|unfold is_u; lia|lia|].
  eapply Forall_impl; [exact Hg|]. by intros hm [Hok _].
Qed.

Lemma length_numbered first ingest g : forall i, length (numbered_events first i ingest g) = length g.
Proof. induction g as [|[h m] g IH]; intros i; [done|]. cbn. by rewrite IH. Qed.

Lemma length_stamped_events groups : forall next times, length times = length groups ->
  length (concat (map id_events (stamped next groups times))) = length (concat groups).
Proof.
  induction groups as [|g groups IH]; intros next [|t times] Hl; try done. cbn [stamped map concat]. rewrite !length_app, IH by (by injection Hl).
  unfold id_events. by rewrite length_numbered.
Qed.

Lemma stamped_events_ok groups : forall next times, Forall (Forall convertible) groups -> Forall (is_u 64) times ->
  Forall event_ok (concat (map id_events (stamped next groups times))).
Proof.
  induction groups as [|g groups IH]; intros next [|t times] Hg Ht; try (by constructor). apply Forall_cons in Hg as [Hg Hgs], Ht as [Ht Hts].
  cbn [stamped map concat]. apply Forall_app. split; [|by apply IH]. unfold id_events. cbn [id_first id_ingest id_messages].
  generalize 0%nat. induction Hg as [|hm g Hhm _ IHg]; intros i; [constructor|]. destruct hm as [h m]. cbn [numbered_events].
  constructor; [|apply IHg]. by destruct (convertible_event (h, m) (next +64 Z.of_nat i) t Hhm) as [? _]; [apply u64_range|..].
Qed.

(** Part of the events stem from part of the datagrams. *)
Lemma all_arrived groups next times j : Forall (fun g => g <> []) groups -> length times = length groups ->
  (length (concat groups) <= length (concat (map id_events (take j (stamped next groups times)))))%nat ->
  take j (stamped next groups times) = stamped next groups times.
Proof.
  intros Hg Hl Hj. rewrite <-(length_stamped_events groups next times Hl) in Hj. set (ds := stamped next groups times) in *.
  rewrite <-(take_drop j ds) in Hj at 1. rewrite map_app, concat_app, length_app in Hj.
  destruct (drop j ds) as [|d rest] eqn:E; [by rewrite <-(take_drop j ds) at 2; rewrite E, app_nil_r|exfalso].
  assert (Forall (fun d => id_messages d <> []) ds) as Hne.
  { subst ds. clear -Hg. revert next times. induction Hg as [|g groups Hg _ IH]; intros next [|t times]; constructor; [done|apply IH]. }
  assert (d ∈ ds) as Hd by (rewrite <-(take_drop j ds), E; apply elem_of_app; right; left).
  rewrite Forall_forall in Hne. specialize (Hne d Hd). cbn [map concat] in Hj. rewrite length_app in Hj. unfold id_events in Hj at 2.
  rewrite length_numbered in Hj. destruct (id_messages d); [done|]. cbn [length] in Hj. lia.
Qed.

Lemma drain_prefix os_write pad polls n : forall st, Forall (Forall is_data) polls ->
  exists p q, polls = p ++ q /\ drain_wire os_write pad polls n st = afxdp_poll (wire_sink os_write pad) (concat p) st /\
  (q = [] \/ n <= (afxdp_poll (wire_sink os_write pad) (concat p) st).2.2).
Proof.
  induction polls as [|r polls IH]; intros st H.
  { exists [], []. split; [done|]. split; [by destruct st|by left]. }
  apply Forall_cons in H as [Hr H]. cbn [drain_wire]. set (st1 := afxdp_poll _ r st).
  destruct (Z.leb_spec n st1.2.2).
  - exists [r], polls. cbn [concat app]. rewrite app_nil_r. split; [done|]. split; [done|by right].
  - destruct (IH st1 H) as (p & q & -> & E & Hq). exists (r :: p), q. cbn [concat]. rewrite afxdp_poll_app by done. done.
Qed.

(** What the sink is left with when the datagrams have arrived, part of them
    perhaps after the last was sent. *)
Lemma all_received os_write pad w groups times polled tail :
  let st0 : WireState := (afxdp_init, (Some w, 0)) in let sink := wire_sink os_write pad in
  let ds := stamped 1 groups times in let evs := concat (map id_events ds) in
  (forall f d, d <> [] -> 0 < os_write f d <= Z.of_nat (length d)) -> fd w = true -> Z.of_nat (rec_bytes book_format) <= buffer_bytes w ->
  Forall itch_datagram_ok ds -> Forall (fun g => g <> []) groups -> length times = length groups -> Z.of_nat (length evs) < 2 ^ 64 ->
  Forall is_data polled -> Forall (Forall is_data) tail -> polled ++ concat tail = map arrived ds ->
  (drain_wire os_write pad tail (Z.of_nat (length evs)) (afxdp_poll sink polled st0)).2 = fold_left (fun s e => sink e s) evs (Some w, 0).
Proof.
  intros st0 sink ds evs Hw Hfd Hbb Hds Hne Hl Hn Hdata Htail Harr.
  destruct (drain_prefix os_write pad tail (Z.of_nat (length evs)) (afxdp_poll sink polled st0) Htail) as (p & q & -> & Hdrain & Hq).
  fold sink in Hdrain, Hq. rewrite <-(afxdp_poll_app sink _ _ st0 Hdata) in Hdrain, Hq. rewrite concat_app, app_assoc in Harr.
  set (j := length (polled ++ concat p)).
  assert (polled ++ concat p = map arrived (take j ds)) as Hp by (unfold j; by rewrite <-firstn_map, <-Harr, take_app_length).
  rewrite Hp in Hdrain, Hq. rewrite Hdrain. clear Hdrain.
  assert ((afxdp_poll sink (map arrived (take j ds)) st0).2 = fold_left (fun s e => sink e s) (concat (map id_events (take j ds))) (Some w, 0)) as Hfeed
    by (apply afxdp_poll_feed; by apply Forall_take).
  rewrite Hfeed in *. unfold evs. do 3 f_equal. destruct Hq as [->|Hq].
  - apply (f_equal length) in Harr. cbn [concat] in Harr. rewrite app_nil_r, length_map in Harr. fold j in Harr. apply take_ge. lia.
  - apply all_arrived; [done|done|]. fold ds. set (part := concat (map id_events (take j ds))) in *.
    assert (length part <= length evs)%nat as Hpart.
    { unfold part, evs. rewrite <-(take_drop j ds) at 2. rewrite map_app, concat_app, length_app. lia. }
    destruct (wire_sink_fold os_write pad Hw part w 0 Hfd) as (w3 & Hw3 & _); [done|lia|lia|].
    fold sink in Hw3. rewrite Hw3 in Hq. cbn [snd] in Hq. unfold evs, ds in Hq. rewrite length_stamped_events in Hq by done. lia.
Qed.

(** C32. A file of well-formed ITCH messages that carry time stamps, its last record
    possibly cut short, run without a limit on the events (the tool's default
    is 50000, see [limit_mismatch]) and with a deadline that does not pass: the
    datagrams sent are groups of its messages in order, and if each of them is
    received once and in order, whenever it may be, both journals hold as many
    events as the file has messages, under the same checksum. *)
Theorem loopback_matches os_write clock pad net tail hms file_tail :
  (forall f d, d <> [] -> 0 < os_write f d <= Z.of_nat (length d)) -> os_write [] (header_bytes book_format) = Z.of_nat kHeaderSize ->
  (forall n, padding_ok (pad n)) ->
  Forall convertible hms -> Forall (fun hm => h_timestamp hm.1 <> 0) hms -> torn_record file_tail -> 1 + Z.of_nat (length hms) < 2 ^ 64 ->
  (forall k, Forall (Forall is_data) (net k)) -> Forall (Forall is_data) tail ->
  exists groups, concat groups = hms /\ Forall (fun g => g <> [] /\ Z.of_nat (length g) <= default_max_messages) groups /\
  forall times, length times = length groups -> Forall (is_u 64) times ->
    arrivals net 0 (length groups) ++ concat (take 5000 tail) = zip_with RecvData (datagrams 1 groups) times ->
    let crc := crc_of_events 0 (events_from clock 1 (map itch_item hms)) in let n := Z.of_nat (length hms) in
    loopback os_write clock pad 0 net (fun _ => false) tail (prefixed_all (encoded hms) ++ file_tail) =
      Some (LoopbackDone (datagrams 1 groups) crc n crc n true).
Proof.
  intros Hw Hhdr Hpad Hhms Hts Ht Hn Hnet Htail.
  assert (Forall itch_ok hms) as Hitch by (eapply Forall_impl; [exact Hhms|]; by intros hm [? _]).
  set (file := prefixed_all (encoded hms) ++ file_tail).
  assert (length hms <= length file)%nat as Hfile.
  { unfold file. rewrite length_app. pose proof (length_prefixed_all (encoded hms)) as H. unfold encoded in H. rewrite !length_map in H. unfold encoded. lia. }
  destruct (writer_open_spec os_write book_format Hhdr book_format_ok [] [] (writer_init (2 ^ 20)) eq_refl (Forall_nil_2 _)
    (or_introl (conj eq_refl eq_refl))) as (w & Ho & Hfd & _ & Hbb & _ & _).
  destruct (send_loop_spec os_write pad net Hnet file_tail Ht (S (length file)) hms [] 0 1 (afxdp_init, (Some w, 0)) Hitch)
    as (groups & Hg & Hgs & Hsend); [lia|done|lia|lia|]. cbn [app length] in Hsend. fold file in Hsend.
  exists groups. split; [done|]. split; [done|]. intros times Hl Htimes Harr crc n.
  set (ost0 := mkOffline w parse_stats_init 1 0 0 0).
  assert (exists ost, offline_loop os_write clock pad 0 (S (length file)) file ost0 = Some ost /\ of_crc ost = crc /\ of_written ost = n)
    as (ost & Hoff & Hocrc & Hon).
  { apply (offline_loop_spec os_write clock pad Hw hms file_tail Hhms Hts Ht (S (length file)) ost0); cbn; try lia; [done|].
    rewrite Hbb. by vm_compute. }
  assert (Forall (Forall convertible) groups) as Hgc by (apply Forall_concat; by rewrite Hg).
  apply Forall_and in Hgs as [Hgne Hg16]. set (ds := stamped 1 groups times).
  assert (Forall itch_datagram_ok ds) as Hds by (apply stamped_ok; rewrite ?Hg; done || lia).
  rewrite stamped_arrive in Harr. fold ds in Harr.
  set (sink := wire_sink os_write pad) in *. set (st0 := (afxdp_init, (Some w, 0))) in *.
  assert (Forall is_data (arrivals net 0 (length groups))) as Hdata.
  { unfold arrivals. apply Forall_concat, Forall_map, Forall_forall. intros k _. apply Forall_concat, Forall_take, Hnet. }
  set (evs := concat (map id_events ds)).
  assert (Z.of_nat (length evs) = n) as Hlen by (unfold evs, ds, n; by rewrite length_stamped_events, Hg).
  destruct (fresh_journal os_write pad Hw Hhdr Hpad evs) as (w' & Ho' & w2 & Hw2 & Hsem); [by apply stamped_events_ok|lia|].
  rewrite Ho in Ho'. injection Ho' as <-.
  pose proof (all_received os_write pad w groups times (arrivals net 0 (length groups)) (take 5000 tail) Hw Hfd ltac:(rewrite Hbb; by vm_compute)
    Hds Hgne Hl ltac:(fold ds; fold evs; lia) Hdata ltac:(by apply Forall_take) Harr) as Hrec.
  fold ds in Hrec. fold evs in Hrec. rewrite Hw2, Hlen, <-Hon in Hrec.
  change ((drain_wire os_write pad (take 5000 tail) (of_written ost) (afxdp_poll sink (arrivals net 0 (length groups)) st0)).2 = (Some w2, of_written ost)) in Hrec.
  unfold loopback, write_offline_journal. rewrite Ho. cbn zeta. fold ost0. rewrite Hoff. cbn [mbind option_bind negb].
  change (mkFramer (chars "SESSION0001") 1) with framer_default in Hsend. fold st0. rewrite Hsend. cbn [mbind option_bind].
  rewrite Hrec. cbn [fst mbind option_bind]. rewrite Hsem. cbn [mbind option_bind sem_crc sem_records].
  assert (crc_of_events 0 evs = crc) as Ecrc.
  { unfold evs, ds, crc. rewrite (crc_stamped clock) by (rewrite ?Hg; done || lia). by rewrite Hg. }
  by rewrite Ecrc, Hlen, Hocrc, Hon, !Z.eqb_refl.
Qed.

(** ** At concrete inputs *)

Definition w_message (ts : Z) : ItchHeader * ItchMessage := (mkItchHeader 1 2 ts, ItchDelete 9).

Lemma w_message_convertible ts : is_u 48 ts -> convertible (w_message ts).
Proof.
  intros Hts. split; [split; [done|change (is_u 64 9); unfold is_u; lia]|]. unfold w_message, encode_itch, itch_body.
  cbn [fst snd h_locate h_tracking h_timestamp]. repeat first [apply Forall_cons_2; [unfold byte_ok, is_u; vm_compute; split; [discriminate|reflexivity]|]|apply Forall_app_2; [apply be_ok|]|apply be_ok|apply Forall_nil_2].
Qed.

Definition w_file (times : list Z) : list Z := prefixed_all (encoded (map w_message times)).

(** The first datagram is received at once, the rest while waiting. *)
Definition w_net (ds : list (list Z)) (k : nat) : list (list Recv) := match k, ds with O, d :: _ => [[RecvData d 70]] | _, _ => [] end.
Definition w_tail (ds : list (list Z)) : list (list Recv) := match ds with _ :: ds => map (fun d => [RecvData d 80]) ds | _ => [] end.
Definition w_sent (times : list Z) : list (list Z) := datagrams 1 [take 16 (map w_message times); drop 16 (map w_message times)].
Definition w_times : list Z := map Z.of_nat (seq 100 17).

Example loopback_runs : match loopback write_whole (fun _ => 5) (fun _ => pad_zero) 0 (w_net (w_sent w_times)) (fun _ => false) (w_tail (w_sent w_times)) (w_file w_times) with
  | Some (LoopbackDone sent _ offline _ wire ok) => sent = w_sent w_times /\ (offline, wire, ok) = (17, 17, true)
  | _ => False
  end.
Proof. vm_compute. split; reflexivity. Qed.

Lemma loopback_matches_witness : exists groups, concat groups = map w_message w_times /\
  forall times, length times = length groups -> Forall (is_u 64) times ->
    arrivals (w_net (w_sent w_times)) 0 (length groups) ++ concat (take 5000 (w_tail (w_sent w_times))) = zip_with RecvData (datagrams 1 groups) times ->
    exists crc, loopback write_whole (fun _ => 5) (fun _ => pad_zero) 0 (w_net (w_sent w_times)) (fun _ => false) (w_tail (w_sent w_times)) (w_file w_times ++ []) =
      Some (LoopbackDone (datagrams 1 groups) crc 17 crc 17 true).
Proof.
  destruct (loopback_matches write_whole (fun _ => 5) (fun _ => pad_zero) (w_net (w_sent w_times)) (w_tail (w_sent w_times)) (map w_message w_times) [])
    as (groups & Hg & _ & H).
  - intros f d Hd. unfold write_whole. destruct d; [done|]. cbn [length]. lia.
  - reflexivity.
  - intros n. apply pad_zero_ok.
  - apply Forall_map, Forall_forall. intros ts Hts. apply w_message_convertible. unfold w_times in Hts.
    apply list_elem_of_fmap in Hts as (k & -> & Hk%elem_of_seq). unfold is_u. lia.
  - apply (bool_decide_unpack _); vm_compute; exact I.
  - apply torn_nil_record.
  - cbn. lia.
  - intros [|k]; repeat constructor.
  - repeat constructor.
  - exists groups. split; [exact Hg|]. intros times Hl Ht Ha. eexists. exact (H times Hl Ht Ha).
Defined.

(** With a limit of one event the direct journal ends after one, the datagram
    that was sent holds two. *)
Example limit_mismatch : let sent := datagrams 1 [map w_message [5; 6]] in
  match loopback write_whole (fun _ => 5) (fun _ => pad_zero) 1 (w_net sent) (fun _ => false) [] (w_file [5; 6]) with
  | Some (LoopbackDone _ _ offline _ wire ok) => (offline, wire, ok) = (1, 2, false)
  | _ => False
  end.
Proof. vm_compute. reflexivity. Qed.

(** A message without a time stamp is given one on one side only. *)
Example timestamp_mismatch : let sent := datagrams 1 [map w_message [5; 0]] in
  match loopback write_whole (fun _ => 5) (fun _ => pad_zero) 0 (w_net sent) (fun _ => false) [] (w_file [5; 0]) with
  | Some (LoopbackDone _ _ offline _ wire ok) => (offline, wire, ok) = (2, 2, false)
  | _ => False
  end.
Proof. vm_compute. reflexivity. Qed.

(** The producer: the 17th message is never sent, the first goes out again
    under its number. *)
Example producer_repeats :
  producer 0 0 (w_file w_times) = Some (datagrams 1 [take 16 (map w_message w_times); [w_message 100]]) /\
  nth 16 w_times 0 = 116.
Proof. vm_compute. split; reflexivity. Qed.
