(* ===== verification/ReplayService.v ===== *)
(** * The replay service (src/service, include/mf/service)

    A catalogue of the journals, loaded once, and the queries over it: a stream
    of book events read from the journal, a stream of quotes, and the latest
    quote of a symbol at a time. The gRPC runtime is a parameter: the writer of
    a stream is a state and a function that accepts or refuses a message. The
    mutex around the catalogue and the uptime clock are not modelled: the
    catalogue never changes after [load].

    What was recorded through the journal writers is what the service serves:
    [recorded_ticks_served], [recorded_quotes_served]. *)

From S2P Require Import Prelude Types Crc OrderTable Levels OrderBook Bitfinex Wire Nbbo EventBytes Journal EventStore NbboJournal.

#[local] Open Scope list_scope.
#[local] Open Scope Z_scope.

(** ** Symbols (symbol_codec.hpp) *)

Definition symbol_key_from_view (symbol : list Z) : SymbolKey := take 8 symbol ++ replicate (8 - length symbol) (ch " ").

Definition symbol_to_u64 (symbol : list Z) : Z := as_u64 (symbol_key_from_view symbol).

(** [key.bytes\[i\] = (symbol_u64 >> (56 - 8 * i)) & 0xFF] *)
Definition key_of_u64 (symbol_u64 : Z) : SymbolKey :=
  (fun i => Z.land (Z.shiftr symbol_u64 (56 - 8 * Z.of_nat i)) 255) <$> seq 0 8.

(** [while (!out.empty() && out.back() == ' ') out.pop_back()], from the back. *)
Fixpoint drop_spaces (l : list Z) : list Z :=
  match l with
  | x :: l' => if x =? ch " " then drop_spaces l' else l
  | [] => []
  end.

Definition symbol_to_string (symbol_u64 : Z) : list Z := rev (drop_spaces (rev (key_of_u64 symbol_u64))).

(** ** Messages (proto/tick_service.proto, event_codec.hpp) *)

Record BookEventMsg := mkBookEventMsg {
  bm_venue : Z; bm_event_type : Z; bm_sequence : Z; bm_exchange_ts_ns : Z; bm_ingest_ts_ns : Z; bm_symbol : list Z;
  bm_order_id : Z; bm_match_id : Z; bm_reference_order_id : Z; bm_qty : Z; bm_price : Z; bm_prev_qty : Z;
  bm_prev_price : Z; bm_side : Z; bm_raw_type : Z; bm_has_mpid : bool; bm_mpid : list Z;
}.

Record NbboEventMsg := mkNbboEventMsg {
  nm_symbol : list Z; nm_exchange_ts_ns : Z; nm_ingest_ts_ns : Z; nm_has_bid : bool; nm_has_ask : bool;
  nm_bid_price : Z; nm_bid_qty : Z; nm_ask_price : Z; nm_ask_qty : Z; nm_bid_venue : Z; nm_ask_venue : Z;
  nm_bid_venue_sequence : Z; nm_ask_venue_sequence : Z;
}.

Definition book_event_to_proto (ev : BookEvent) : BookEventMsg :=
  mkBookEventMsg (venue_u8 (venue ev)) (type_u8 (type ev)) (sequence ev) (exchange_ts_ns ev) (ingest_ts_ns ev)
    (symbol_to_string (as_u64 (symbol ev))) (order_id ev) (match_id ev) (reference_order_id ev) (qty ev) (price ev)
    (prev_qty ev) (prev_price ev) (side_u8 (side ev)) (raw_type ev) (bool_decide (is_Some (mpid ev))) (default [] (mpid ev)).

Definition nbbo_event_to_proto (ev : NbboEvent) : NbboEventMsg :=
  let n := ne_quote ev in
  mkNbboEventMsg (symbol_to_string (ne_symbol_u64 ev)) (ne_exchange_ts_ns ev) (ne_ingest_ts_ns ev) (n_has_bid n) (n_has_ask n)
    (n_bid_price n) (n_bid_qty n) (n_ask_price n) (n_ask_qty n) (n_bid_venue n) (n_ask_venue n)
    (n_bid_venue_sequence n) (n_ask_venue_sequence n).

Definition in_ts_window (ts start_ts end_ts : Z) : bool :=
  if (0 <? start_ts) && (ts <? start_ts) then false else if (0 <? end_ts) && (end_ts <? ts) then false else true.

(** [StreamTicksRequest] and [StreamNbboRequest] have the same members. *)
Record StreamRequest := mkStreamRequest { rq_symbol : list Z; rq_start_ts_ns : Z; rq_end_ts_ns : Z; rq_limit : Z }.

Inductive Status := OK | FailedPrecondition | DataLoss (reason : option ErrorReason).

(** ** The catalogue (replay_catalog.cpp) *)

Record ReplayCatalog := mkCatalog {
  book_journal_path : list Z; nbbo_journal_path : list Z; book_record_count : Z; nbbo_record_count : Z;
  nbbo_journal_crc : Z; nbbo_events : list NbboEvent;
}.

(** [sizeof(JournalRecord) + sizeof(BookEvent)] *)
Definition k_record_bytes : nat := rec_bytes book_format.

Section load.
(** The contents of a path, [None] when it cannot be opened. *)
Context (fs : list Z -> option (list Z)).

(** The result and the catalogue it leaves; the outer option is the fuel of the
    readers. *)
Definition load (book_path nbbo_path : list Z) : option (bool * ReplayCatalog) :=
  let c := mkCatalog book_path nbbo_path 0 0 0 [] in
  match fs book_path with
  | None => Some (false, c)
  | Some f =>
      if (length f <? kHeaderSize)%nat then Some (false, c) else
      let payload_bytes := (length f - kHeaderSize)%nat in
      if negb (payload_bytes mod k_record_bytes =? 0)%nat then Some (false, c) else
      let c := mkCatalog book_path nbbo_path (Z.of_nat (payload_bytes / k_record_bytes)) 0 0 [] in
      if bool_decide (nbbo_path = []) then Some (true, c) else
      let '(ok, nbbo) := nbbo_reader_open (fs nbbo_path) true (mkNbboReader reader_init 0) in
      if negb ok then Some (false, c) else
      match nbbo_read_all (S (length (default [] (fs nbbo_path)))) nbbo with
      | Some (rows, nbbo) =>
          Some (true, mkCatalog book_path nbbo_path (book_record_count c) (Z.of_nat (length rows)) (payload_crc nbbo) rows)
      | None => None
      end
  end.
End load.

(** ** The service (tick_replay_service.cpp) *)

Record HealthResponse := mkHealth {
  hr_book_journal_path : list Z; hr_nbbo_journal_path : list Z; hr_book_record_count : Z; hr_nbbo_record_count : Z;
  hr_uptime_seconds : Z;
}.

(** The build id and the service mode are constant strings. *)
Definition Health (c : ReplayCatalog) (uptime_seconds : Z) : Status * HealthResponse :=
  (OK, mkHealth (book_journal_path c) (nbbo_journal_path c) (book_record_count c) (nbbo_record_count c) uptime_seconds).

(** Whether the filters of a request let a symbol and a time through. *)
Definition wanted (rq : StreamRequest) (symbol_u64 ts : Z) : bool :=
  let filter_symbol := negb (bool_decide (rq_symbol rq = [])) in
  let want_u64 := if filter_symbol then symbol_to_u64 (rq_symbol rq) else 0 in
  if filter_symbol && negb (symbol_u64 =? want_u64) then false
  else in_ts_window ts (rq_start_ts_ns rq) (rq_end_ts_ns rq).

Section streams.
Context {W : Type}.

(** The loop of [StreamTicks]: the writer, and the reader the loop ended with
    unless a write was refused. *)
Fixpoint ticks_loop (write : BookEventMsg -> W -> bool * W) (rq : StreamRequest) (fuel : nat) (r : JournalReader) (sent : Z) (w : W)
    : option (W * option JournalReader) :=
  match fuel with
  | O => None
  | S fuel =>
      match journal_next r with
      | None => None
      | Some (None, r) => Some (w, Some r)
      | Some (Some (ev, _, _), r) =>
          if negb (wanted rq (as_u64 (symbol ev)) (exchange_ts_ns ev)) then ticks_loop write rq fuel r sent w else
          let '(ok, w) := write (book_event_to_proto ev) w in
          if negb ok then Some (w, None) else
          let sent := sent +32 1 in
          if (0 <? rq_limit rq) && (rq_limit rq <=? sent) then Some (w, Some r) else ticks_loop write rq fuel r sent w
      end
  end.

Definition StreamTicks (fs : list Z -> option (list Z)) (c : ReplayCatalog) (write : BookEventMsg -> W -> bool * W)
    (rq : StreamRequest) (w : W) : option (Status * W) :=
  let '(ok, r) := reader_open book_format (fs (book_journal_path c)) true reader_init in
  if negb ok then Some (FailedPrecondition, w) else
  match ticks_loop write rq (S (length (default [] (fs (book_journal_path c))))) r 0 w with
  | Some (w, Some r) =>
      Some (match error r with Some (reason, _) => DataLoss (Some reason) | None => OK end, w)
  | Some (w, None) => Some (OK, w)
  | None => None
  end.

Fixpoint nbbo_loop (write : NbboEventMsg -> W -> bool * W) (rq : StreamRequest) (rows : list NbboEvent) (sent : Z) (w : W) : W :=
  match rows with
  | [] => w
  | row :: rows =>
      if negb (wanted rq (ne_symbol_u64 row) (ne_exchange_ts_ns row)) then nbbo_loop write rq rows sent w else
      let '(ok, w) := write (nbbo_event_to_proto row) w in
      if negb ok then w else
      let sent := sent +32 1 in
      if (0 <? rq_limit rq) && (rq_limit rq <=? sent) then w else nbbo_loop write rq rows sent w
  end.

Definition StreamNbbo (c : ReplayCatalog) (write : NbboEventMsg -> W -> bool * W) (rq : StreamRequest) (w : W) : Status * W :=
  if bool_decide (nbbo_events c = []) then (FailedPrecondition, w) else (OK, nbbo_loop write rq (nbbo_events c) 0 w).
End streams.

Definition query_step (want_u64 ts : Z) (best : option NbboEvent) (row : NbboEvent) : option NbboEvent :=
  if negb (ne_symbol_u64 row =? want_u64) then best else
  if ts <? ne_exchange_ts_ns row then best else
  match best with
  | None => Some row
  | Some b => if ne_exchange_ts_ns b <? ne_exchange_ts_ns row then Some row else best
  end.

(** The message is [None] when [found] is false. *)
Definition QueryNbbo (c : ReplayCatalog) (symbol : list Z) (timestamp_ns : Z) : Status * option NbboEventMsg :=
  if bool_decide (nbbo_events c = []) then (FailedPrecondition, None) else
  (OK, nbbo_event_to_proto <$> fold_left (query_step (symbol_to_u64 symbol) timestamp_ns) (nbbo_events c) None).

(** ** Symbols survive *)

Lemma length_key_of_u64 u : length (key_of_u64 u) = 8%nat.
Proof. done. Qed.

Lemma key_of_u64_ok u : bytes_ok (key_of_u64 u).
Proof.
  unfold key_of_u64. apply Forall_fmap, Forall_true. intros i. unfold compose, byte_ok, is_u. simpl.
  change 255 with (Z.ones 8). rewrite Z.land_ones by lia. apply Z.mod_pos_bound. lia.
Qed.

Lemma le_bytes_shifts n : forall z, le_bytes n z = (fun i => Z.land (Z.shiftr z (8 * Z.of_nat i)) 255) <$> seq 0 n.
Proof.
  induction n as [|n IH]; intros z; [done|]. change (le_bytes (S n) z) with (z mod 256 :: le_bytes n (z / 256)).
  cbn [seq]. rewrite fmap_cons, <-fmap_S_seq, <-list_fmap_compose, IH.
  change 255 with (Z.ones 8). f_equal; [rewrite Z.land_ones by lia; by rewrite Z.shiftr_0_r|].
  apply list_fmap_ext. intros _ i _. unfold compose. f_equal. rewrite !Z.shiftr_div_pow2, Z.div_div by lia.
  f_equal. change 256 with (2 ^ 8). rewrite <-Z.pow_add_r by lia. f_equal. lia.
Qed.

Lemma as_u64_key u : is_u 64 u -> as_u64 (key_of_u64 u) = u.
Proof.
  intros Hu. unfold as_u64. rewrite be_val_rev by (apply key_of_u64_ok || (rewrite length_key_of_u64; lia)).
  change (rev (key_of_u64 u)) with ((fun i => Z.land (Z.shiftr u (8 * Z.of_nat i)) 255) <$> seq 0 8). rewrite <-le_bytes_shifts.
  rewrite le_val_le_bytes. by apply Z.mod_small.
Qed.

Lemma rev_replicate {A} n (x : A) : rev (replicate n x) = replicate n x.
Proof. induction n as [|n IH]; [done|]. cbn [replicate rev]. rewrite IH. symmetry. apply replicate_cons_app. Qed.

Lemma drop_spaces_spec l : exists n, l = replicate n (ch " ") ++ drop_spaces l.
Proof.
  induction l as [|x l [n IH]]; [by exists 0%nat|]. simpl. destruct (Z.eqb_spec x (ch " ")) as [->|]; [|by exists 0%nat].
  exists (S n). cbn. by rewrite <-IH.
Qed.

Lemma strip_pad k : length k = 8%nat -> symbol_key_from_view (rev (drop_spaces (rev k))) = k.
Proof.
  intros Hk. destruct (drop_spaces_spec (rev k)) as [n Hn]. set (d := drop_spaces (rev k)) in *. clearbody d.
  assert (k = rev d ++ replicate n (ch " ")) as ->.
  { rewrite <-(rev_involutive k), Hn, rev_app_distr. f_equal. apply rev_replicate. }
  rewrite length_app, length_replicate in Hk. unfold symbol_key_from_view. rewrite take_ge by lia. do 2 f_equal. lia.
Qed.

(** Querying with a symbol as the service prints it finds that symbol. *)
Lemma symbol_to_u64_string u : is_u 64 u -> symbol_to_u64 (symbol_to_string u) = u.
Proof.
  intros Hu. unfold symbol_to_u64, symbol_to_string. rewrite strip_pad by apply length_key_of_u64. by apply as_u64_key.
Qed.

(** ** What the streams send *)

(** A reader that reports no error has reported none before. *)
Lemma next_loop_error F fuel f : forall r x r', next_loop F fuel f r = Some (x, r') -> error r' = None -> error r = None.
Proof.
  induction fuel as [|fuel IH]; intros r x r'; [done|]. cbn [next_loop]. destruct (scan F f (off r)).
  - intros [= <- <-]. by destruct (off r =? length f)%nat.
  - by intros [= <- <-].
  - intros H1 H2. by apply IH in H1.
  - by intros [= <- <-].
Qed.

Lemma read_all_error F fuel : forall r xs r', read_all F fuel r = Some (xs, r') -> error r' = None -> error r = None.
Proof.
  induction fuel as [|fuel IH]; intros r xs r'; [done|]. cbn [read_all].
  assert (forall x r1, reader_next F r = Some (x, r1) -> error r1 = None -> error r = None) as Hn.
  { unfold reader_next. destruct (base r); [apply next_loop_error|]. by intros x r1 [= <- <-]. }
  destruct (reader_next F r) as [[[x|] r1]|]; [| |done].
  - destruct (read_all F fuel r1) as [[xs1 r2]|] eqn:E; [|done]. intros [= <- <-] H. eauto.
  - intros [= <- <-]. eauto.
Qed.

Section served.
Context {W : Type}.

(** Messages are written until one is refused. *)
Fixpoint write_all {M} (write : M -> W -> bool * W) (ms : list M) (w : W) : bool * W :=
  match ms with
  | [] => (true, w)
  | m :: ms => let '(ok, w) := write m w in if ok then write_all write ms w else (false, w)
  end.

(** What the limit leaves of [l] when [sent] messages are out. *)
Definition room {A} (limit sent : Z) (l : list A) : list A := if 0 <? limit then take (Z.to_nat (limit - sent)) l else l.

Definition room_ok (limit sent : Z) : Prop := is_u 32 limit /\ (0 < limit -> 0 <= sent < limit).

Lemma room_fmap {A B} limit sent (f : A -> B) (l : list A) : f <$> room limit sent l = room limit sent (f <$> l).
Proof. unfold room. destruct (0 <? limit); [apply fmap_take|done]. Qed.

(** One turn of a stream's loop. *)
Lemma write_all_room {M} (write : M -> W -> bool * W) limit sent m ms w : room_ok limit sent ->
  write_all write (room limit sent (m :: ms)) w =
  (let '(ok, w) := write m w in
   if negb ok then (false, w) else
   if (0 <? limit) && (limit <=? sent +32 1) then (true, w) else write_all write (room limit (sent +32 1) ms) w).
Proof.
  intros [Hl Hs]. unfold room. destruct (Z.ltb_spec 0 limit) as [H0|H0]; cbn [andb]; [|cbn [write_all]; destruct (write m w) as [[] ?]; done].
  specialize (Hs H0). unfold is_u in Hl. rewrite u32_small by lia.
  replace (Z.to_nat (limit - sent)) with (S (Z.to_nat (limit - (sent + 1)))) by lia. cbn [firstn write_all].
  destruct (write m w) as [[] w']; [|done]. cbn [negb]. destruct (Z.leb_spec limit (sent + 1)); [|done].
  by replace (Z.to_nat (limit - (sent + 1))) with 0%nat by lia.
Qed.

Lemma room_ok_next limit sent : room_ok limit sent -> (0 <? limit) && (limit <=? sent +32 1) = false -> room_ok limit (sent +32 1).
Proof.
  intros [Hl Hs] Hc. split; [done|]. intros H0. specialize (Hs H0). unfold is_u in Hl.
  rewrite u32_small in * by lia. lia.
Qed.

(** The events a request asks for, before its limit. *)
Definition wanted_events (rq : StreamRequest) (evs : list BookEvent) : list BookEvent :=
  List.filter (fun ev => wanted rq (as_u64 (symbol ev)) (exchange_ts_ns ev)) evs.
Definition wanted_quotes (rq : StreamRequest) (rows : list NbboEvent) : list NbboEvent :=
  List.filter (fun row => wanted rq (ne_symbol_u64 row) (ne_exchange_ts_ns row)) rows.

Lemma nbbo_loop_spec write rq rows : forall sent (w : W), room_ok (rq_limit rq) sent ->
  nbbo_loop write rq rows sent w = (write_all write (nbbo_event_to_proto <$> room (rq_limit rq) sent (wanted_quotes rq rows)) w).2.
Proof.
  induction rows as [|row rows IH]; intros sent w Hr.
  - unfold room, wanted_quotes. cbn [List.filter]. rewrite take_nil. by destruct (0 <? rq_limit rq).
  - cbn [nbbo_loop]. unfold wanted_quotes. cbn [List.filter]. destruct (wanted rq _ _); cbn [negb]; [|by apply IH].
    rewrite room_fmap, fmap_cons, write_all_room by done. destruct (write _ w) as [[] w']; cbn [negb]; [|done].
    destruct (_ && _) eqn:Hc; [done|]. rewrite IH by by apply room_ok_next. by rewrite room_fmap.
Qed.

(** What the journal reader returned stands for the events [evs]. *)
Definition ticks_read (xs : list (list Z * Z * Z)) (evs : list BookEvent) : Prop :=
  Forall2 (fun x e => event_of_bytes x.1.1 = Some e) xs evs.

Lemma ticks_loop_spec write rq fuel : forall r xs r' evs sent (w : W),
  read_all book_format fuel r = Some (xs, r') -> ticks_read xs evs -> room_ok (rq_limit rq) sent ->
  let out := write_all write (book_event_to_proto <$> room (rq_limit rq) sent (wanted_events rq evs)) w in
  exists last, ticks_loop write rq fuel r sent w = Some (out.2, last) /\
    (error r' = None -> match last with Some r => error r = None | None => True end) /\
    (rq_limit rq = 0 -> out.1 = true -> last = Some r').
Proof.
  induction fuel as [|fuel IH]; intros r xs r' evs sent w H Hx Hr; [done|]. cbn zeta.
  cbn [read_all ticks_loop] in *. unfold journal_next. destruct (reader_next book_format r) as [[[[[payload ts] seq]|] r1]|]; [| |done].
  - destruct (read_all book_format fuel r1) as [[xs1 r2]|] eqn:E; [|done]. injection H as <- <-.
    apply Forall2_cons_inv_l in Hx as (e & evs' & He & Hx & ->). cbn [fst] in He. rewrite He.
    unfold wanted_events. cbn [List.filter]. destruct (wanted rq _ _); cbn [negb]; [|by apply (IH _ _ _ _ _ _ E)].
    rewrite room_fmap, fmap_cons, write_all_room by done. destruct (write _ w) as [[] w']; cbn [negb].
    2:{ exists None. by split_and!. }
    destruct (_ && _) eqn:Hc.
    + exists (Some r1). split_and!; [done|by apply (read_all_error _ _ _ _ _ E)|]. intros H0. by rewrite H0 in Hc.
    + rewrite <-room_fmap. apply (IH _ _ _ _ _ _ E Hx), room_ok_next; done.
  - injection H as <- <-. apply Forall2_nil_inv_l in Hx as ->. exists (Some r1). unfold room, wanted_events. cbn [List.filter].
    rewrite take_nil. by destruct (0 <? rq_limit rq).
Qed.
End served.

(** ** The latest quote *)

Definition eligible (sym ts : Z) (row : NbboEvent) : Prop := ne_symbol_u64 row = sym /\ ne_exchange_ts_ns row <= ts.

(** What the loop of a query finds: the first of the eligible quotes with the
    greatest time; none if none is eligible. *)
Definition latest_quote (rows : list NbboEvent) (sym ts : Z) (best : option NbboEvent) : Prop :=
  match best with
  | None => Forall (fun row => ~ eligible sym ts row) rows
  | Some b => eligible sym ts b /\ exists before after, rows = before ++ b :: after /\
      Forall (fun row => eligible sym ts row -> ne_exchange_ts_ns row < ne_exchange_ts_ns b) before /\
      Forall (fun row => eligible sym ts row -> ne_exchange_ts_ns row <= ne_exchange_ts_ns b) after
  end.

Lemma query_step_spec sym ts rows row best : latest_quote rows sym ts best ->
  latest_quote (rows ++ [row]) sym ts (query_step sym ts best row).
Proof.
  intros H. unfold query_step. assert (~ eligible sym ts row -> latest_quote (rows ++ [row]) sym ts best) as Hno.
  { intros Hne. destruct best as [b|]; [|by apply Forall_snoc; split].
    destruct H as (He & before & after & -> & H1 & H2). split; [done|]. exists before, (after ++ [row]).
    rewrite <-app_assoc. split_and!; [done|done|]. apply Forall_snoc. by split. }
  destruct (Z.eqb_spec (ne_symbol_u64 row) sym) as [Hs|Hs]; cbn [negb]; [|apply Hno; by intros []].
  destruct (Z.ltb_spec ts (ne_exchange_ts_ns row)) as [Ht|Ht]; [apply Hno; intros []; lia|].
  destruct best as [b|]; [|by split; [|exists rows, []; split_and!; [|eapply Forall_impl; [exact H|]|]]].
  destruct H as (He & before & after & -> & H1 & H2).
  destruct (Z.ltb_spec (ne_exchange_ts_ns b) (ne_exchange_ts_ns row)) as [Hlt|Hge]; (split; [done|]).
  - exists (before ++ b :: after), []. split_and!; [done| |done]. apply Forall_app. split; [|constructor; [done|]];
      (eapply Forall_impl; [eassumption|]); cbn beta; intros row' H Hr'; specialize (H Hr'); lia.
  - exists before, (after ++ [row]). rewrite <-app_assoc. split_and!; [done|done|]. apply Forall_snoc. split; [done|]. intros _. lia.
Qed.

Lemma query_spec sym ts rows : latest_quote rows sym ts (fold_left (query_step sym ts) rows None).
Proof.
  induction rows as [|row rows IH] using rev_ind; [by constructor|]. rewrite fold_left_app. by apply query_step_spec.
Qed.

(** What a query is to answer (tick_service.proto: the latest quote at or before
    the time): the eligible quote with the greatest time, and of several the
    last recorded, which replaced the others. *)
Definition quote_in_force (rows : list NbboEvent) (sym ts : Z) (best : option NbboEvent) : Prop :=
  match best with
  | None => Forall (fun row => ~ eligible sym ts row) rows
  | Some b => eligible sym ts b /\ exists before after, rows = before ++ b :: after /\
      Forall (fun row => eligible sym ts row -> ne_exchange_ts_ns row <= ne_exchange_ts_ns b) before /\
      Forall (fun row => eligible sym ts row -> ne_exchange_ts_ns row < ne_exchange_ts_ns b) after
  end.

(** An eligible quote with the greatest time. *)
Definition greatest_time (rows : list NbboEvent) (sym ts : Z) (best : option NbboEvent) : Prop :=
  match best with
  | None => Forall (fun row => ~ eligible sym ts row) rows
  | Some b => b ∈ rows /\ eligible sym ts b /\ Forall (fun row => eligible sym ts row -> ne_exchange_ts_ns row <= ne_exchange_ts_ns b) rows
  end.

(** No two quotes of the symbol at one time. *)
Definition distinct_times (sym : Z) (rows : list NbboEvent) : Prop :=
  NoDup (ne_exchange_ts_ns <$> filter (fun row => ne_symbol_u64 row = sym) rows).

Lemma latest_greatest rows sym ts best : latest_quote rows sym ts best -> greatest_time rows sym ts best.
Proof.
  destruct best as [b|]; [|done]. intros (He & before & after & -> & H1 & H2). split; [apply elem_of_app; right; left|]. split; [done|].
  apply Forall_app. split; [|constructor; [done|exact H2]]. eapply Forall_impl; [exact H1|]. intros row H Hr. specialize (H Hr). lia.
Qed.

Lemma latest_in_force rows sym ts best : distinct_times sym rows -> latest_quote rows sym ts best -> quote_in_force rows sym ts best.
Proof.
  destruct best as [b|]; [|done]. intros Hd (He & before & after & -> & H1 & H2). split; [done|]. exists before, after. split; [done|]. split.
  - eapply Forall_impl; [exact H1|]. intros row H Hr. specialize (H Hr). lia.
  - unfold distinct_times in Hd. rewrite filter_app, filter_cons_True, fmap_app in Hd by apply He. apply NoDup_app in Hd as (_ & _ & Hd).
    apply NoDup_cons in Hd as [Hd _]. rewrite Forall_forall in H2 |- *. intros row Hin Hr. specialize (H2 row Hin Hr).
    assert (ne_exchange_ts_ns row <> ne_exchange_ts_ns b); [|lia]. intros E. apply Hd. rewrite <-E. apply list_elem_of_fmap_2, list_elem_of_filter.
    split; [apply Hr|done].
Qed.

(** ** What was recorded is what is served *)

Lemma open_book (fs : list Z -> option (list Z)) path rs tail : fs path = Some (header_bytes book_format ++ log_bytes book_format rs ++ tail) ->
  Forall (raw_ok book_format) rs -> torn book_format tail ->
  exists r1 r2, reader_open book_format (fs path) true reader_init = (true, r1) /\
    read_all book_format (S (length (default [] (fs path)))) r1 = Some (delivered rs, r2) /\
    (error r2 = None <-> forallb intact rs = true /\ tail = []).
Proof.
  intros Hfs Hok Ht. rewrite Hfs. cbn [default].
  destruct (open_read_all book_format book_format_ok rs tail
    (S (length (header_bytes book_format ++ log_bytes book_format rs ++ tail))) reader_init Hok Ht) as (r1 & r2 & Ho & Hr & _ & He).
  { rewrite !length_app, length_log_bytes by done. unfold rec_bytes, kRecordHeader. lia. }
  by exists r1, r2.
Qed.

(** A stream of ticks sends, of the events whose records are intact, those
    the request asks for, in order, up to its limit or the first refused
    write; a stream that runs to the end reports whether any record was
    damaged or torn, and one over an undamaged journal always succeeds. *)
Theorem ticks_served {W} (write : BookEventMsg -> W -> bool * W) fs c rs tail evs rq w :
  fs (book_journal_path c) = Some (header_bytes book_format ++ log_bytes book_format rs ++ tail) ->
  Forall (raw_ok book_format) rs -> torn book_format tail -> ticks_read (delivered rs) evs -> is_u 32 (rq_limit rq) ->
  let out := write_all write (book_event_to_proto <$> room (rq_limit rq) 0 (wanted_events rq evs)) w in
  exists status, StreamTicks fs c write rq w = Some (status, out.2) /\
    (forallb intact rs = true /\ tail = [] -> status = OK) /\
    (rq_limit rq = 0 -> out.1 = true -> status = OK -> forallb intact rs = true /\ tail = []).
Proof.
  intros Hfs Hok Ht Hx Hl out. destruct (open_book fs _ rs tail Hfs Hok Ht) as (r1 & r2 & Ho & Hr & He).
  destruct (ticks_loop_spec write rq _ _ _ _ evs 0 w Hr Hx) as (last & Hloop & Herr & Hend); [split; [done|lia]|].
  unfold StreamTicks. rewrite Ho. cbn [negb]. rewrite Hloop. fold out in Hend |- *. destruct last as [r|].
  - eexists. split; [done|]. split; [intros Hi; apply He, Herr in Hi; by rewrite Hi|]. intros H0 H1. specialize (Hend H0 H1) as [= ->].
    destruct (error r2) as [[]|]; [done|]. intros _. by apply He.
  - exists OK. split_and!; [done|done|]. intros H0 H1. by specialize (Hend H0 H1).
Qed.

Lemma load_counts fs book_path nbbo_path rs : fs book_path = Some (header_bytes book_format ++ log_bytes book_format rs) ->
  Forall (raw_ok book_format) rs ->
  load fs book_path nbbo_path =
  (let c := mkCatalog book_path nbbo_path (Z.of_nat (length rs)) 0 0 [] in
   if bool_decide (nbbo_path = []) then Some (true, c) else
   let '(ok, nbbo) := nbbo_reader_open (fs nbbo_path) true (mkNbboReader reader_init 0) in
   if negb ok then Some (false, c) else
   match nbbo_read_all (S (length (default [] (fs nbbo_path)))) nbbo with
   | Some (rows, nbbo) =>
       Some (true, mkCatalog book_path nbbo_path (Z.of_nat (length rs)) (Z.of_nat (length rows)) (payload_crc nbbo) rows)
   | None => None
   end).
Proof.
  intros Hfs Hok. unfold load. rewrite Hfs, length_app, length_log_bytes by done. change (length (header_bytes book_format)) with kHeaderSize.
  replace (kHeaderSize + length rs * rec_bytes book_format <? kHeaderSize)%nat with false by (symmetry; apply Nat.ltb_ge; lia).
  rewrite Nat.add_comm, Nat.add_sub. change k_record_bytes with (rec_bytes book_format).
  rewrite Nat.Div0.mod_mul, Nat.div_mul by by vm_compute. done.
Qed.

(** C37. The quotes journaled from a run of the book engine are the quotes the
    service answers with: streaming sends those asked for, in order; a query
    gives a quote of the symbol with the greatest time not after the time
    asked, or none if there is none; and when no two quotes of the symbol have
    the same time, it is the quote in force at the time asked. *)
Theorem recorded_quotes_served {W} (write : NbboEventMsg -> W -> bool * W) os_write pad slots events stats f fs book_path nbbo_path rs :
  (forall f d, d <> [] -> 0 < os_write f d <= Z.of_nat (length d)) ->
  os_write [] (header_bytes nbbo_format) = Z.of_nat kHeaderSize ->
  (forall n, nbbo_padding_ok (pad n)) -> Forall event_ok events -> Z.of_nat (length events) < 2 ^ 64 ->
  replay_to_journal os_write pad slots true events = Some (true, stats, f) -> emissions slots events <> [] ->
  fs book_path = Some (header_bytes book_format ++ log_bytes book_format rs) -> Forall (raw_ok book_format) rs ->
  nbbo_path <> [] -> fs nbbo_path = Some f ->
  let quotes := emissions slots events in
  exists c, load fs book_path nbbo_path = Some (true, c) /\
    book_record_count c = Z.of_nat (length rs) /\ nbbo_record_count c = Z.of_nat (length quotes) /\ nbbo_journal_crc c = journal_crc stats /\
    (forall rq w, is_u 32 (rq_limit rq) ->
       StreamNbbo c write rq w = (OK, (write_all write (nbbo_event_to_proto <$> room (rq_limit rq) 0 (wanted_quotes rq quotes)) w).2)) /\
    (forall symbol ts, exists best, QueryNbbo c symbol ts = (OK, nbbo_event_to_proto <$> best) /\
       greatest_time quotes (symbol_to_u64 symbol) ts best /\
       (distinct_times (symbol_to_u64 symbol) quotes -> quote_in_force quotes (symbol_to_u64 symbol) ts best)).
Proof.
  intros Hw Hhdr Hpad Hev Hlen Hrep Hne Hbook Hok Hpath Hfs quotes.
  destruct (nbbo_journal_round_trip os_write pad slots events (mkNbboReader reader_init 0) Hw Hhdr Hpad Hev Hlen)
    as (stats' & f' & r1 & r2 & Hrep' & _ & Ho & Hr & Hcrc & _).
  rewrite Hrep in Hrep'. injection Hrep' as <- <-. fold quotes in Hr. rewrite (load_counts fs book_path nbbo_path rs Hbook Hok).
  rewrite bool_decide_eq_false_2, Hfs, Ho by done. change (default [] (Some f)) with f. cbn [negb]. rewrite Hr. eexists. split; [done|]. cbn.
  split_and!; [done|done|done| |].
  - intros rq w Hl. unfold StreamNbbo. cbn [nbbo_events]. rewrite bool_decide_eq_false_2 by done.
    f_equal. apply nbbo_loop_spec. split; [done|lia].
  - intros symbol ts. unfold QueryNbbo. cbn [nbbo_events]. rewrite bool_decide_eq_false_2 by done.
    pose proof (query_spec (symbol_to_u64 symbol) ts quotes) as Hq. eexists. split; [done|].
    split; [by apply latest_greatest|]. intros Hd. by apply latest_in_force.
Qed.

(** ** Witnesses, and two answers to beware of *)

(** A client that takes every message. *)
Definition collect {M} (m : M) (w : list M) : bool * list M := (true, w ++ [m]).

Definition book_path : list Z := [98].
Definition nbbo_path : list Z := [110].

Definition sample_catalog : ReplayCatalog := mkCatalog book_path [] 3 0 0 [].

(** A journal of three records, the second damaged, the last cut short. *)
Definition damaged : list RawRecord := [sample_raw 1; mkRaw 2 7 0 (object_bytes (sample 2)); sample_raw 3].
Definition cut : list Z := take 30 (raw_bytes book_format (sample_raw 4)).

Definition damaged_fs (path : list Z) : option (list Z) :=
  if decide (path = book_path) then Some (header_bytes book_format ++ log_bytes book_format damaged ++ cut) else None.

Lemma ticks_served_witness :
  let out := write_all collect (book_event_to_proto <$> room 1 0 (wanted_events (mkStreamRequest [] 0 0 1) [snd (sample 1); snd (sample 3)])) [] in
  exists status, StreamTicks damaged_fs sample_catalog collect (mkStreamRequest [] 0 0 1) [] = Some (status, out.2) /\
    (forallb intact damaged = true /\ cut = [] -> status = OK) /\
    (1 = 0 -> out.1 = true -> status = OK -> forallb intact damaged = true /\ cut = []).
Proof.
  apply (ticks_served collect damaged_fs sample_catalog damaged cut [snd (sample 1); snd (sample 3)] (mkStreamRequest [] 0 0 1) []).
  - apply (decide_True _ _ eq_refl).
  - constructor; [apply sample_raw_ok; lia|]. constructor; [|constructor; [apply sample_raw_ok; lia|constructor]].
    destruct (sample_raw_ok 2 ltac:(lia)) as [[] _]. split; [assumption|assumption|unfold is_u; simpl; lia|assumption].
  - exists (sample_raw 4), 30%nat. split; [apply sample_raw_ok; lia|]. split; [vm_compute; lia|reflexivity].
  - assert (delivered damaged = [(object_bytes (sample 1), 7, 1); (object_bytes (sample 3), 7, 3)]) as -> by (vm_compute; reflexivity).
    constructor; [|constructor; [|constructor]]; vm_compute; reflexivity.
  - unfold is_u; simpl; lia.
Defined.

Definition recorded_fs (f : list Z) (path : list Z) : option (list Z) :=
  if decide (path = book_path) then Some (header_bytes book_format ++ log_bytes book_format [sample_raw 1])
  else if decide (path = nbbo_path) then Some f else None.

Lemma sample_disk (f d : list Z) : d <> [] -> 0 < Z.of_nat (length d) <= Z.of_nat (length d).
Proof. intros Hd. destruct d; [done|]. simpl. lia. Qed.

Lemma zero_gaps_ok n : nbbo_padding_ok (zero_gaps n).
Proof. repeat split; repeat constructor; unfold byte_ok, is_u; lia. Qed.

(** Three quotes of one symbol at different times, the second not the best. *)
Definition timed_quotes : list BookEvent :=
  [quote_add Nasdaq 1 100 5 |> set_exchange_ts 10; quote_add Iex 2 99 7 |> set_exchange_ts 20; quote_add Cboe 3 101 2 |> set_exchange_ts 30].

Lemma timed_quotes_ok : Forall event_ok timed_quotes.
Proof. repeat (constructor; [split; try apply event_default_ok; unfold is_u; cbn; lia|]). constructor. Qed.

Lemma recorded_fs_book f : recorded_fs f book_path = Some (header_bytes book_format ++ log_bytes book_format [sample_raw 1]).
Proof. unfold recorded_fs. by rewrite decide_True. Qed.

Lemma recorded_fs_nbbo f : recorded_fs f nbbo_path = Some f.
Proof. unfold recorded_fs. by rewrite decide_False, decide_True. Qed.

Lemma recorded_quotes_served_witness : exists stats f c,
  replay_to_journal (fun _ d => Z.of_nat (length d)) zero_gaps 16 true timed_quotes = Some (true, stats, f) /\
  load (recorded_fs f) book_path nbbo_path = Some (true, c) /\
  StreamNbbo c collect (mkStreamRequest [] 0 0 1) [] =
    (OK, (write_all collect (nbbo_event_to_proto <$> room 1 0 (wanted_quotes (mkStreamRequest [] 0 0 1) (emissions 16 timed_quotes))) []).2) /\
  exists best, QueryNbbo c (replicate 8 0) 25 = (OK, nbbo_event_to_proto <$> best) /\ quote_in_force (emissions 16 timed_quotes) 0 25 best.
Proof.
  destruct (nbbo_journal_round_trip (fun _ d => Z.of_nat (length d)) zero_gaps 16 timed_quotes (mkNbboReader reader_init 0)
    sample_disk eq_refl zero_gaps_ok timed_quotes_ok ltac:(simpl; lia)) as (stats & f & _ & _ & Hrep & _).
  destruct (recorded_quotes_served collect (fun _ d => Z.of_nat (length d)) zero_gaps 16 timed_quotes stats f (recorded_fs f)
    book_path nbbo_path [sample_raw 1] sample_disk eq_refl zero_gaps_ok timed_quotes_ok ltac:(simpl; lia) Hrep
    ltac:(vm_compute; discriminate) (recorded_fs_book f) (Forall_cons_2 _ _ _ (proj1 (sample_raw_ok 1 ltac:(lia))) (Forall_nil_2 _))
    ltac:(discriminate) (recorded_fs_nbbo f)) as (c & Hload & _ & _ & _ & Hstream & Hquery).
  exists stats, f, c. split; [exact Hrep|]. split; [exact Hload|]. split.
  - apply (Hstream (mkStreamRequest [] 0 0 1) []). unfold is_u; simpl; lia.
  - destruct (Hquery (replicate 8 0) 25) as (best & Hbest & _ & Hforce). exists best. split; [exact Hbest|].
    apply Hforce. apply (bool_decide_unpack _). vm_compute. exact I.
Defined.

Example timed_answers : map (fun ts => nm_bid_price <$> (QueryNbbo (mkCatalog book_path nbbo_path 0 2 0 (emissions 16 timed_quotes)) (replicate 8 0) ts).2) [9; 10; 25; 30]
  = [None; Some 100; Some 100; Some 101].
Proof. vm_compute. reflexivity. Qed.

(** Two quotes of one symbol at one time: the query gives the first, which the
    second replaced. *)
Example tie_serves_replaced_quote :
  let quotes := emissions 16 quote_events in
  map (fun e => (ne_symbol_u64 e, ne_exchange_ts_ns e, n_bid_price (ne_quote e))) quotes = [(0, 0, 100); (0, 0, 101)] /\
  nm_bid_price <$> (QueryNbbo (mkCatalog book_path nbbo_path 0 2 0 quotes) (replicate 8 0) 0).2 = Some 100.
Proof. vm_compute. split; reflexivity. Qed.

(** A Bitfinex symbol is padded with zero bytes, the requested one with
    spaces: asking for tBTCUSD finds nothing. *)
Example bitfinex_symbol_not_found : (symbol_to_u64 btc =? as_u64 (symbol_from_wire btc)) = false.
Proof. vm_compute. reflexivity. Qed.
