(* ===== verification/AlphaLab.v ===== *)
(** * The research lab's feature store (src/research/alpha_lab: label_builder, feature_store)

    A journal is replayed through the feature bridge into rows, and each row is
    labelled with the returns of the mid price over several horizons.

    Labels are found by sorting all observations, a binary search and a scan;
    [labels_are_first_returns] says directly which observations they compare.
    [materialize_recorded] follows a recorded journal to its rows. The CSV
    output and the wall clock are not modelled. *)

From S2P Require Import Prelude Types Crc OrderTable Levels OrderBook Nbbo EventBytes Journal EventStore NbboJournal Spsc Spmc Floats Features.

#[local] Open Scope list_scope.
#[local] Open Scope Z_scope.

(** ** Rows (types.hpp) *)

(** [quiet_NaN()] *)
Definition kMissingLabel : double := S754_nan.

Record MidObservation := mkMid { mo_symbol_u64 : Z; mo_exchange_ts_ns : Z; mo_mid : double }.

Record LabeledFeatureRow := mkRow {
  lr_symbol_u64 : Z; lr_exchange_ts_ns : Z; lr_ingest_ts_ns : Z;
  lr_nbbo_bid_price : Z; lr_nbbo_bid_qty : Z; lr_nbbo_ask_price : Z; lr_nbbo_ask_qty : Z;
  lr_mid : double; lr_microprice : double; lr_ofi : double; lr_queue_ahead : double; lr_effective_spread : double;
  lr_kyle_lambda : double; lr_vpin : double; forward_mid_returns : list double;
}.

Definition mid_from_nbbo (bid ask : Z) : double :=
  if (bid =? 0) || (ask =? 0) then dzero else dmul (dlit 1 2) (dadd (of_Z bid) (of_Z ask)).

Definition from_feature_vector (label_count : nat) (fv : FeatureVector) : LabeledFeatureRow :=
  mkRow (fv_symbol_u64 fv) (fv_exchange_ts_ns fv) (fv_ingest_ts_ns fv) (fv_nbbo_bid_price fv) (fv_nbbo_bid_qty fv)
    (fv_nbbo_ask_price fv) (fv_nbbo_ask_qty fv) (mid_from_nbbo (fv_nbbo_bid_price fv) (fv_nbbo_ask_price fv))
    (fv_microprice fv) (fv_ofi fv) (fv_queue_ahead fv) (fv_effective_spread fv) (fv_kyle_lambda fv) (fv_vpin fv)
    (replicate label_count kMissingLabel).

Definition set_labels (labels : list double) (r : LabeledFeatureRow) : LabeledFeatureRow :=
  mkRow (lr_symbol_u64 r) (lr_exchange_ts_ns r) (lr_ingest_ts_ns r) (lr_nbbo_bid_price r) (lr_nbbo_bid_qty r)
    (lr_nbbo_ask_price r) (lr_nbbo_ask_qty r) (lr_mid r) (lr_microprice r) (lr_ofi r) (lr_queue_ahead r)
    (lr_effective_spread r) (lr_kyle_lambda r) (lr_vpin r) labels.

(** [LabelHorizons] *)
Definition default_horizons_ns : list Z := [1000000000; 5000000000; 10000000000].

(** ** Labels (label_builder.cpp) *)

Definition observation_of (row : LabeledFeatureRow) : MidObservation :=
  mkMid (lr_symbol_u64 row) (lr_exchange_ts_ns row) (lr_mid row).

Definition less_observation (a b : MidObservation) : bool :=
  if negb (mo_symbol_u64 a =? mo_symbol_u64 b) then mo_symbol_u64 a <? mo_symbol_u64 b
  else mo_exchange_ts_ns a <? mo_exchange_ts_ns b.

(** The observations of the rows with a positive mid. *)
Definition observations (rows : list LabeledFeatureRow) : list MidObservation :=
  map observation_of (List.filter (fun row => negb (dle (lr_mid row) dzero)) rows).

Definition build_timeline (rows : list LabeledFeatureRow) : list MidObservation :=
  stable_sort less_observation (observations rows).

(** The loop from [origin_index + 1] over [rest]; [i] is the index of its head
    and the result the end of the timeline when there is none. *)
Fixpoint find_future_loop (symbol target_ts_ns : Z) (rest : list MidObservation) (i : nat) : nat :=
  match rest with
  | [] => i
  | x :: rest =>
      if negb (mo_symbol_u64 x =? symbol) then find_future_loop symbol target_ts_ns rest (S i)
      else if target_ts_ns <=? mo_exchange_ts_ns x then i
      else find_future_loop symbol target_ts_ns rest (S i)
  end.

Definition find_future_mid_index (timeline : list MidObservation) (origin_index : nat) (origin : MidObservation) (target_ts_ns : Z) : nat :=
  find_future_loop (mo_symbol_u64 origin) target_ts_ns (drop (S origin_index) timeline) (S origin_index).

Definition forward_mid_return (timeline : list MidObservation) (origin_index : nat) (horizon_ns : Z) : double :=
  match timeline !! origin_index with
  | None => kMissingLabel
  | Some origin =>
      let mid_now := mo_mid origin in
      if dle mid_now dzero then kMissingLabel else
      let target_ts := mo_exchange_ts_ns origin +64 horizon_ns in
      match timeline !! find_future_mid_index timeline origin_index origin target_ts with
      | None => kMissingLabel
      | Some future =>
          let mid_future := mo_mid future in
          if dle mid_future dzero then kMissingLabel else ddiv (dsub mid_future mid_now) mid_now
      end
  end.

Definition label_row (horizons_ns : list Z) (timeline : list MidObservation) (row : LabeledFeatureRow) : LabeledFeatureRow :=
  let missing := replicate (length horizons_ns) kMissingLabel in
  if dle (lr_mid row) dzero then set_labels missing row else
  let it := lower_bound (fun x => less_observation x (observation_of row)) timeline in
  match timeline !! it with
  | None => set_labels missing row
  | Some x =>
      if negb (mo_symbol_u64 x =? lr_symbol_u64 row) || negb (mo_exchange_ts_ns x =? lr_exchange_ts_ns row)
      then set_labels missing row
      else set_labels (map (forward_mid_return timeline it) horizons_ns) row
  end.

Definition attach_labels (horizons_ns : list Z) (rows : list LabeledFeatureRow) : list LabeledFeatureRow :=
  map (label_row horizons_ns (build_timeline rows)) rows.

(** ** The feature store (feature_store.cpp) *)

Definition RowCollector : Type := list LabeledFeatureRow.

#[local] Instance RowCollector_publisher (label_count : nat) : IFeaturePublisher RowCollector := {|
  fp_try_publish fv rows := (true, rows ++ [from_feature_vector label_count fv])
|}.

(** [ReplayConsumer]: the bridge with its collector; [None] once the bridge has
    not returned. *)
Definition replay_consumer (label_count : nat) (ev : BookEvent) (s : option (FeatureBridge * option RowCollector))
    : option (FeatureBridge * option RowCollector) :=
  match s with
  | Some (b, pub) => bridge_on_event (H := RowCollector_publisher label_count) b pub ev
  | None => None
  end.

Record MaterializeStats := mkMaterialize {
  ms_journal_events : Z; ms_feature_rows : Z; ms_journal_crc : Z; ms_first_exchange_ts_ns : Z; ms_last_exchange_ts_ns : Z;
}.

(** [None]: the call does not return. [slots] is the order table's size; on a
    failed replay [out] and [stats] are left as they were. *)
Definition materialize_from_journal (slots : nat) (cfg : FeatureConfig) (horizons_ns : list Z) (path : option (list Z))
    (out : list LabeledFeatureRow) (stats : MaterializeStats) : option (bool * list LabeledFeatureRow * MaterializeStats) :=
  let n := length horizons_ns in
  match store_replay (replay_consumer n) path (Some (bridge_init slots cfg, Some [])) with
  | Some (true, rs, Some (_, Some rows)) =>
      let out := attach_labels horizons_ns rows in
      Some (store_crc_failures rs =? 0, out,
            mkMaterialize (records rs) (Z.of_nat (length out)) (store_crc rs) (first_exchange_ts_ns rs) (last_exchange_ts_ns rs))
  | Some (false, _, Some _) => Some (false, out, stats)
  | _ => None
  end.

(** ** Which observations a label compares *)

Definition same_instant (sym ts : Z) (x : MidObservation) : bool := (mo_symbol_u64 x =? sym) && (mo_exchange_ts_ns x =? ts).
Definition from_time (sym ts : Z) (x : MidObservation) : bool := (mo_symbol_u64 x =? sym) && (ts <=? mo_exchange_ts_ns x).

(** [x] is the earliest of [l], the first of those with its time. *)
Definition earliest (l : list MidObservation) (x : MidObservation) : Prop :=
  exists before after, l = before ++ x :: after /\
    Forall (fun y => mo_exchange_ts_ns x < mo_exchange_ts_ns y) before /\
    Forall (fun y => mo_exchange_ts_ns x <= mo_exchange_ts_ns y) after.

(** The return from the first observation at a row's symbol and time to the
    earliest at least the horizon later; missing when there is none. *)
Definition label_of (obs : list MidObservation) (row : LabeledFeatureRow) (horizon_ns : Z) (label : double) : Prop :=
  match List.filter (from_time (lr_symbol_u64 row) (lr_exchange_ts_ns row + horizon_ns)) obs with
  | [] => label = kMissingLabel
  | later => exists origin future,
      head (List.filter (same_instant (lr_symbol_u64 row) (lr_exchange_ts_ns row)) obs) = Some origin /\
      earliest later future /\ label = ddiv (dsub (mo_mid future) (mo_mid origin)) (mo_mid origin)
  end.

Lemma less_strict_weak : strict_weak less_observation.
Proof.
  split; unfold less_observation; intros.
  - rewrite Z.eqb_refl. cbn [negb]. apply Z.ltb_irrefl.
  - rewrite Z.eqb_sym. destruct (Z.eqb_spec (mo_symbol_u64 x) (mo_symbol_u64 y)) as [E|E]; cbn [negb] in *; lia.
  - repeat match goal with H : context [?a =? ?b] |- _ => destruct (Z.eqb_spec a b) | |- context [?a =? ?b] => destruct (Z.eqb_spec a b) end;
      cbn [negb] in *; lia.
Qed.

Lemma timeline_sorted obs i j x y : stable_sort less_observation obs !! i = Some x -> stable_sort less_observation obs !! j = Some y ->
  (i <= j)%nat -> less_observation y x = false.
Proof.
  intros Hi Hj Hij. destruct (decide (i = j)) as [->|Hne].
  { replace y with x by congruence. apply less_strict_weak. }
  pose proof (stable_sort_sorted less_observation obs less_strict_weak) as Hs. apply (StronglySorted_lookup_lt _ _ i j x y Hs Hi Hj). lia.
Qed.

(** A filter's head is the first element that passes. *)
Lemma head_filter_lookup {A} (p : A -> bool) l i x : l !! i = Some x -> p x = true ->
  (forall j y, (j < i)%nat -> l !! j = Some y -> p y = false) -> head (List.filter p l) = Some x.
Proof.
  revert i. induction l as [|y l IH]; intros [|i] Hi Hp Hj; try done.
  - cbn in *. injection Hi as ->. by rewrite Hp.
  - cbn [List.filter]. rewrite (Hj 0%nat y) by (done || lia). apply (IH i Hi Hp). intros j z Hlt Hz. apply (Hj (S j) z); [lia|done].
Qed.

Lemma head_filter_split {A} (p : A -> bool) l x : head (List.filter p l) = Some x ->
  exists before after, l = before ++ x :: after /\ Forall (fun y => p y = false) before /\ p x = true.
Proof.
  induction l as [|y l IH]; [done|]. cbn [List.filter]. destruct (p y) eqn:E.
  - cbn. intros [= ->]. by exists [], l.
  - intros (before & after & -> & Hb & Hx)%IH. exists (y :: before), after. split_and!; [done|by constructor|done].
Qed.

Lemma filter_both {A} (p q : A -> bool) l : (forall x, p x = true -> q x = true) -> List.filter p (List.filter q l) = List.filter p l.
Proof.
  intros Hpq. induction l as [|x l IH]; [done|]. cbn [List.filter]. destruct (q x) eqn:Eq; cbn [List.filter]; rewrite IH; [done|].
  destruct (p x) eqn:Ep; [|done]. by rewrite (Hpq x Ep) in Eq.
Qed.

Lemma same_instant_filter obs sym ts :
  List.filter (same_instant sym ts) (stable_sort less_observation obs) = List.filter (same_instant sym ts) obs.
Proof.
  apply stable_sort_filter. unfold same_instant, less_observation. intros x y Hx Hy.
  destruct (Z.eqb_spec (mo_symbol_u64 x) (mo_symbol_u64 y)); cbn [negb]; lia.
Qed.

(** The scan's answer is the first observation that qualifies. *)
Lemma find_future_loop_spec sym target rest : forall i,
  match List.filter (from_time sym target) rest with
  | [] => find_future_loop sym target rest i = (i + length rest)%nat
  | x :: _ => exists k, rest !! k = Some x /\ find_future_loop sym target rest i = (i + k)%nat
  end.
Proof.
  induction rest as [|y rest IH]; intros i; cbn [List.filter find_future_loop]; [cbn; lia|].
  unfold from_time at 1. destruct (mo_symbol_u64 y =? sym); cbn [andb negb]; [destruct (target <=? mo_exchange_ts_ns y)|].
  1: { exists 0%nat. split; [done|lia]. }
  all: specialize (IH (S i)); destruct (List.filter _ rest); [cbn [length]; lia|destruct IH as (k & Hk & ->); exists (S k); split; [done|lia]].
Qed.

Section timeline.
Context (obs : list MidObservation).
Abbreviation timeline := (stable_sort less_observation obs).

(** The binary search finds the first observation of an instant. *)
Lemma origin_found sym ts o key : o ∈ obs -> mo_symbol_u64 o = sym -> mo_exchange_ts_ns o = ts ->
  mo_symbol_u64 key = sym -> mo_exchange_ts_ns key = ts ->
  exists x, timeline !! lower_bound (fun x => less_observation x key) timeline = Some x /\
    same_instant sym ts x = true /\ head (List.filter (same_instant sym ts) obs) = Some x.
Proof.
  intros Ho Hs Ht Hks Hkt.
  assert (partitioned (fun x => less_observation x key) timeline) as Hpart.
  { intros i j x y Hi Hj Hij Hy. destruct (less_observation x key) eqn:E; [done|].
    pose proof (timeline_sorted obs i j x y Hi Hj Hij) as Hyx. by rewrite (sw_negtrans _ less_strict_weak _ _ _ E Hyx) in Hy. }
  destruct (lower_bound_spec _ _ Hpart) as (_ & Hlt & Hge). set (r := lower_bound _ timeline) in *.
  rewrite <-(stable_sort_perm less_observation obs) in Ho. apply list_elem_of_lookup_1 in Ho as [k Hk].
  assert (r <= k)%nat as Hrk.
  { destruct (decide (r <= k)%nat) as [|Hn]; [done|]. specialize (Hlt k o Hk ltac:(lia)).
    unfold less_observation in Hlt. destruct (Z.eqb_spec (mo_symbol_u64 o) (mo_symbol_u64 key)); cbn [negb] in Hlt; lia. }
  destruct (lookup_lt_is_Some_2 timeline r) as [x Hx]; [apply lookup_lt_Some in Hk; lia|].
  pose proof (timeline_sorted obs _ _ _ _ Hx Hk Hrk) as Hox. pose proof (Hge r x Hx ltac:(lia)) as Hxk.
  assert (same_instant sym ts x = true) as Hsame.
  { unfold less_observation, same_instant in *. subst sym ts.
    destruct (Z.eqb_spec (mo_symbol_u64 o) (mo_symbol_u64 x)), (Z.eqb_spec (mo_symbol_u64 x) (mo_symbol_u64 key)); cbn [negb] in *; lia. }
  exists x. split_and!; [done|done|]. rewrite <-same_instant_filter. apply (head_filter_lookup _ _ r x Hx Hsame).
  intros j y Hj Hy. specialize (Hlt j y Hy Hj). unfold less_observation in Hlt. unfold same_instant.
  destruct (Z.eqb_spec (mo_symbol_u64 y) (mo_symbol_u64 key)); cbn [negb] in Hlt; lia.
Qed.

(** The first of the timeline from a time on is the earliest observation. *)
Lemma head_is_earliest sym target f : head (List.filter (from_time sym target) timeline) = Some f ->
  earliest (List.filter (from_time sym target) obs) f.
Proof.
  intros Hf. destruct (head_filter_split _ _ _ Hf) as (b & a & Hl & Hb & Hpf).
  assert (Hp : from_time sym target f = true) by done. unfold from_time in Hp. apply andb_prop in Hp as [Hsym Htgt].
  assert (timeline !! length b = Some f) as Hat by (rewrite Hl; by apply list_lookup_middle).
  assert (forall y, y ∈ obs -> from_time sym target y = true -> mo_exchange_ts_ns f <= mo_exchange_ts_ns y) as Hmin.
  { intros y Hy Hyp. rewrite <-(stable_sort_perm less_observation obs) in Hy. apply list_elem_of_lookup_1 in Hy as [j Hj].
    destruct (decide (length b <= j)%nat) as [Hle|Hgt].
    - pose proof (timeline_sorted obs _ _ _ _ Hat Hj Hle) as Hs. unfold less_observation, from_time in *.
      destruct (Z.eqb_spec (mo_symbol_u64 y) (mo_symbol_u64 f)); cbn [negb] in Hs; lia.
    - rewrite Hl, lookup_app_l in Hj by lia. eapply (proj1 (Forall_lookup _ _) Hb) in Hj. congruence. }
  assert (head (List.filter (same_instant sym (mo_exchange_ts_ns f)) (List.filter (from_time sym target) obs)) = Some f) as Hh.
  { rewrite filter_both, <-same_instant_filter by (unfold same_instant, from_time; intros; lia).
    apply (head_filter_lookup _ _ (length b) f Hat); [unfold same_instant; lia|]. intros j y Hj Hy.
    rewrite Hl, lookup_app_l in Hy by done. eapply (proj1 (Forall_lookup _ _) Hb) in Hy. unfold same_instant, from_time in *. lia. }
  destruct (head_filter_split _ _ _ Hh) as (before & after & Hs & Hbefore & _). exists before, after. split; [done|].
  assert (Forall (fun y => mo_symbol_u64 y = sym /\ mo_exchange_ts_ns f <= mo_exchange_ts_ns y) (before ++ f :: after)) as Hall.
  { rewrite <-Hs. apply Forall_forall. intros y Hy. apply list_elem_of_In, filter_In in Hy as [Hy Hyp].
    apply list_elem_of_In in Hy. split; [unfold from_time in Hyp; lia|by apply Hmin]. }
  apply Forall_app in Hall as [H1 H2]. apply Forall_cons in H2 as [_ H2]. split.
  - apply Forall_forall. intros y Hy. eapply Forall_forall in H1; [|exact Hy]. eapply Forall_forall in Hbefore; [|exact Hy].
    unfold same_instant in Hbefore. lia.
  - eapply Forall_impl; [exact H2|]. intros y. cbn beta. lia.
Qed.
End timeline.

Lemma observations_positive rows x : x ∈ observations rows -> dle (mo_mid x) dzero = false.
Proof.
  unfold observations. intros Hx. apply list_elem_of_In, in_map_iff in Hx as (row & <- & Hrow).
  apply filter_In in Hrow as [_ Hrow]. by apply negb_true_iff in Hrow.
Qed.

Lemma filter_none {A} (p : A -> bool) l : Forall (fun x => p x = false) l -> List.filter p l = [].
Proof. induction 1 as [|x l Hx _ IH]; [done|]. cbn [List.filter]. by rewrite Hx. Qed.

Lemma filter_perm {A} (p : A -> bool) l l' : Permutation l l' -> Permutation (List.filter p l) (List.filter p l').
Proof.
  induction 1 as [|x l l' _ IH|x y l|]; cbn [List.filter]; [done| | |by etrans].
  - by destruct (p x); rewrite IH.
  - destruct (p x), (p y); done || constructor.
Qed.

(** Before the origin of a positive horizon nothing qualifies. *)
Lemma filter_after_origin obs r o h : stable_sort less_observation obs !! r = Some o -> 0 < h ->
  let later := from_time (mo_symbol_u64 o) (mo_exchange_ts_ns o + h) in
  List.filter later (stable_sort less_observation obs) = List.filter later (drop (S r) (stable_sort less_observation obs)).
Proof.
  intros Ho Hh later. set (T := stable_sort less_observation obs) in *. rewrite <-(take_drop (S r) T) at 1.
  rewrite List.filter_app, filter_none; [done|]. apply Forall_forall. intros x Hx.
  apply list_elem_of_lookup_1 in Hx as [i Hi]. apply lookup_take_Some in Hi as [Hi Hlt].
  pose proof (timeline_sorted obs i r x o Hi Ho ltac:(lia)) as Hs. unfold less_observation in Hs. unfold later, from_time.
  destruct (Z.eqb_spec (mo_symbol_u64 o) (mo_symbol_u64 x)); cbn [negb] in Hs; lia.
Qed.

Lemma forward_mid_return_spec rows r o row h : build_timeline rows !! r = Some o ->
  same_instant (lr_symbol_u64 row) (lr_exchange_ts_ns row) o = true ->
  head (List.filter (same_instant (lr_symbol_u64 row) (lr_exchange_ts_ns row)) (observations rows)) = Some o ->
  0 < h -> 0 <= lr_exchange_ts_ns row -> lr_exchange_ts_ns row + h < 2 ^ 64 ->
  label_of (observations rows) row h (forward_mid_return (build_timeline rows) r h).
Proof.
  intros Ho Hsame Hhead Hh H0 Hmax. unfold forward_mid_return. rewrite Ho.
  assert (forall x i, build_timeline rows !! i = Some x -> dle (mo_mid x) dzero = false) as Hpos.
  { intros x i Hx. apply (observations_positive rows). apply list_elem_of_lookup_2 in Hx.
    unfold build_timeline in Hx. by rewrite stable_sort_perm in Hx. }
  rewrite (Hpos o r Ho). unfold same_instant in Hsame. apply andb_prop in Hsame as [Hsym Hts]. apply Z.eqb_eq in Hsym, Hts.
  rewrite Hts, u64_small by lia. unfold find_future_mid_index. rewrite Hsym.
  pose proof (find_future_loop_spec (lr_symbol_u64 row) (lr_exchange_ts_ns row + h) (drop (S r) (build_timeline rows)) (S r)) as Hf.
  pose proof (filter_after_origin (observations rows) r o h Ho Hh) as Hd. cbn zeta in Hd. rewrite Hsym, Hts in Hd.
  fold (build_timeline rows) in Hd. rewrite <-Hd in Hf.
  assert (Permutation (List.filter (from_time (lr_symbol_u64 row) (lr_exchange_ts_ns row + h)) (build_timeline rows))
    (List.filter (from_time (lr_symbol_u64 row) (lr_exchange_ts_ns row + h)) (observations rows))) as Hperm
    by (apply filter_perm, stable_sort_perm).
  unfold label_of. destruct (List.filter _ (build_timeline rows)) as [|f later] eqn:Ef.
  - apply Permutation_nil in Hperm. rewrite Hperm, Hf. rewrite length_drop.
    rewrite lookup_ge_None_2; [done|]. apply lookup_lt_Some in Ho. lia.
  - destruct Hf as (k & Hk & ->). rewrite lookup_drop in Hk. rewrite Hk, (Hpos f _ Hk).
    destruct (List.filter (from_time _ _) (observations rows)) as [|x l] eqn:El; [symmetry in Hperm; by apply Permutation_nil_cons in Hperm|]. rewrite <-El.
    exists o, f. split_and!; [done| |done]. apply head_is_earliest. fold (build_timeline rows). by rewrite Ef.
Qed.

(** C29. Sorting, searching and scanning compute the labels the data call for.
    A row with a positive mid gets, for each horizon, the return from the
    first observation of its symbol and time to the earliest observation of
    its symbol at least the horizon later, missing when there is none; a row
    without a positive mid gets none. *)
Theorem labels_are_first_returns horizons_ns rows i row : rows !! i = Some row ->
  0 <= lr_exchange_ts_ns row -> Forall (fun h => 0 < h /\ lr_exchange_ts_ns row + h < 2 ^ 64) horizons_ns ->
  exists labels, attach_labels horizons_ns rows !! i = Some (set_labels labels row) /\
    if dle (lr_mid row) dzero then labels = replicate (length horizons_ns) kMissingLabel
    else Forall2 (label_of (observations rows) row) horizons_ns labels.
Proof.
  intros Hrow H0 Hh. unfold attach_labels. rewrite list_lookup_fmap, Hrow. cbn [fmap option_fmap option_map]. unfold label_row.
  destruct (dle (lr_mid row) dzero) eqn:Emid; [by eexists|].
  assert (observation_of row ∈ observations rows) as Hin.
  { apply list_elem_of_In, in_map, filter_In. split; [by apply list_elem_of_In, (list_elem_of_lookup_2 _ i)|by rewrite Emid]. }
  destruct (origin_found (observations rows) (lr_symbol_u64 row) (lr_exchange_ts_ns row) _ (observation_of row) Hin
    eq_refl eq_refl eq_refl eq_refl) as (o & Ho & Hsame & Hhead).
  fold (build_timeline rows) in Ho. rewrite Ho. pose proof Hsame as Hs. apply andb_prop in Hs as [-> ->]. cbn [negb orb].
  eexists. split; [done|]. rewrite Forall2_fmap_r. apply Forall_Forall2_diag. eapply Forall_impl; [exact Hh|].
  intros h [Hpos Hmax]. by apply (forward_mid_return_spec rows _ o row h).
Qed.

(** ** From journal to rows *)

Lemma bridge_rows n b out ev :
  bridge_on_event (H := RowCollector_publisher n) b (Some (from_feature_vector n <$> out)) ev =
  match bridge_on_event (H := Collector) b (Some out) ev with
  | Some (b', Some out') => Some (b', Some (from_feature_vector n <$> out'))
  | Some (b', None) => Some (b', None)
  | None => None
  end.
Proof.
  unfold bridge_on_event. destruct (book_on_event (fb_books b) ev) as [books apply].
  destruct (update_and_current _ _ _ _ _) as [q c]. destruct (feature_on_event _ _ _ _) as [[[fv|] f]|]; [|done..].
  cbn. by rewrite fmap_app.
Qed.

Lemma replay_rows n evs : forall b out b' out', bridge_run (H := Collector) b (Some out) evs = Some (b', Some out') ->
  fold_left (fun s ev => replay_consumer n ev s) evs (Some (b, Some (from_feature_vector n <$> out))) =
  Some (b', Some (from_feature_vector n <$> out')).
Proof.
  induction evs as [|ev evs IH]; intros b out b' out' H; cbn [fold_left bridge_run] in *.
  - by injection H as <- <-.
  - unfold replay_consumer at 2. rewrite bridge_rows. unfold bridge_on_event in H |- *.
    destruct (book_on_event (fb_books b) ev) as [books apply]. destruct (update_and_current _ _ _ _ _) as [q c].
    destruct (feature_on_event _ _ _ _) as [[[fv|] f]|]; [|by apply IH|done]. cbn [fp_try_publish Collector] in *. by apply IH.
Qed.

(** What a store holds is what its replay shows the consumer. *)
Lemma store_replay_recorded {S : Type} (on_event : BookEvent -> S -> S) os_write batches s :
  (forall f d, d <> [] -> 0 < os_write f d <= Z.of_nat (length d)) ->
  os_write [] (header_bytes book_format) = Z.of_nat kHeaderSize ->
  batches <> [] -> Forall (Forall object_ok) batches ->
  let evs := map snd (concat batches) in
  exists contents stats, store_append_all os_write [] batches = Some (true, contents) /\
    store_crc stats = crc_of_events 0 evs /\ store_crc_failures stats = 0 /\
    store_replay on_event (Some contents) s = Some (true, stats, fold_left (fun s e => on_event e s) evs s).
Proof.
  intros Hw Hhdr Hne Hb evs.
  destruct (store_append_all_spec os_write Hw Hhdr batches Hb [] [] [] holds_nil (or_introl (conj eq_refl eq_refl)))
    as (rs & Happ & Hh). specialize (Happ (or_intror Hne)). cbn [app] in Hh. fold evs in Hh.
  destruct (open_store rs evs Hh) as (r1 & r2 & xs & Ho & Hr & Hx & Hc).
  pose proof (fold_update_stats evs store_stats_init) as [Hcrc _].
  eexists _, (mkStoreStats _ _ _ _ 0). split; [exact Happ|]. split; [exact Hcrc|]. split; [done|].
  unfold store_replay. rewrite Ho. change (default [] (Some ?f)) with f.
  by rewrite (replay_loop_reads on_event _ _ _ _ evs store_stats_init s Hr Hx), Hc.
Qed.

(** Materializing a recorded journal gives the labelled rows of the feature
    vectors the bridge publishes on the recorded events, and the checksum of
    the events. *)
Theorem materialize_recorded slots cfg horizons_ns os_write batches out stats :
  (forall f d, d <> [] -> 0 < os_write f d <= Z.of_nat (length d)) ->
  os_write [] (header_bytes book_format) = Z.of_nat kHeaderSize ->
  batches <> [] -> Forall (Forall object_ok) batches -> 0 < vpin_bucket_volume cfg ->
  let evs := map snd (concat batches) in
  exists contents b fvs ms, store_append_all os_write [] batches = Some (true, contents) /\
    bridge_run (H := Collector) (bridge_init slots cfg) (Some []) evs = Some (b, Some fvs) /\
    materialize_from_journal slots cfg horizons_ns (Some contents) out stats =
      Some (true, attach_labels horizons_ns (from_feature_vector (length horizons_ns) <$> fvs), ms) /\
    ms_journal_crc ms = crc_of_events 0 evs /\ ms_feature_rows ms = Z.of_nat (length fvs).
Proof.
  intros Hw Hhdr Hne Hb Hvol evs.
  destruct (collector_run evs (bridge_init slots cfg) [] [] (bridge_init_ok slots cfg) Hvol slots eq_refl) as (b & fvs & Hrun & _).
  destruct (store_replay_recorded (replay_consumer (length horizons_ns)) os_write batches (Some (bridge_init slots cfg, Some [])) Hw Hhdr Hne Hb)
    as (contents & rs & Happ & Hcrc & Hfail & Hrep). fold evs in Hcrc, Hrep.
  pose proof (replay_rows (length horizons_ns) evs _ [] _ _ Hrun) as Hrows. cbn [fmap list_fmap app] in Hrows. rewrite Hrows in Hrep.
  eexists contents, b, fvs, _. split; [done|]. split; [done|]. unfold materialize_from_journal. rewrite Hrep, Hfail.
  split; [done|]. split; [done|]. cbn [ms_feature_rows]. unfold attach_labels. by rewrite length_map, length_fmap.
Qed.

(** ** At concrete inputs *)

Definition mid_row (ts mid : Z) : LabeledFeatureRow :=
  mkRow 1 ts 0 0 0 0 0 (of_Z mid) dzero dzero dzero dzero dzero dzero [].

(** Out of time order, with two rows at time 20. *)
Definition mid_rows : list LabeledFeatureRow := [mid_row 40 103; mid_row 20 100; mid_row 20 101; mid_row 30 102; mid_row 5 0].

Lemma labels_are_first_returns_witness : exists labels,
  attach_labels [10; 15; 100] mid_rows !! 2%nat = Some (set_labels labels (mid_row 20 101)) /\
  Forall2 (label_of (observations mid_rows) (mid_row 20 101)) [10; 15; 100] labels.
Proof.
  apply (labels_are_first_returns [10; 15; 100] mid_rows 2 (mid_row 20 101)); [reflexivity|simpl; lia|].
  repeat (constructor; [simpl; lia|]). constructor.
Defined.

(** The second row of an instant is labelled with the return from the first
    one's mid: from 100 to 102, although its own mid is 101. *)
Example instant_shares_label :
  map (fun row => map (fun l => SFcompare l (ddiv (dsub (of_Z 102) (of_Z 100)) (of_Z 100))) (forward_mid_returns row))
    (attach_labels [10] [mid_row 20 100; mid_row 20 101; mid_row 30 102]) = [[Some Eq]; [Some Eq]; [None]].
Proof. vm_compute. reflexivity. Qed.

Lemma materialize_recorded_witness : exists contents b fvs ms,
  store_append_all write_whole [] [[sample 1; sample 2]; [sample 3]] = Some (true, contents) /\
  bridge_run (H := Collector) (bridge_init 16 feature_config_default) (Some []) (map snd [sample 1; sample 2; sample 3]) = Some (b, Some fvs) /\
  materialize_from_journal 16 feature_config_default default_horizons_ns (Some contents) [] (mkMaterialize 0 0 0 0 0) =
    Some (true, attach_labels default_horizons_ns (from_feature_vector 3 <$> fvs), ms) /\
  ms_journal_crc ms = crc_of_events 0 (map snd [sample 1; sample 2; sample 3]) /\ ms_feature_rows ms = Z.of_nat (length fvs).
Proof.
  apply (materialize_recorded 16 feature_config_default default_horizons_ns write_whole [[sample 1; sample 2]; [sample 3]]).
  - intros f d Hd. unfold write_whole. destruct d; [done|]. simpl. lia.
  - reflexivity.
  - done.
  - constructor; [|constructor; [|constructor]]; repeat (constructor; [apply sample_ok; lia|]); constructor.
  - done.
Defined.
