(* ===== verification/PurgedCv.v ===== *)
(** * Purged cross-validation (src/research/alpha_lab/purged_cv.cpp)

    The rows in time order are cut into consecutive test folds; the training
    rows of a fold are those outside it whose time is not within the purge
    before the fold or the embargo after it.

    The test folds partition the rows, the training rows are exactly those
    outside purge and embargo, and such a split passes the code's own check for
    leaks up to the purge ([purged_folds_sound]). That check compares times; the
    label of a training row may still be computed from a test row
    ([training_label_from_test_row]). *)

From S2P Require Import Prelude Types Floats Features AlphaLab.

#[local] Open Scope list_scope.
#[local] Open Scope Z_scope.

Record CvFold := mkFold {
  fold_id : nat; test_start_ns : Z; test_end_ns : Z; train_indices : list nat; test_indices : list nat;
}.

Record PurgedCvConfig := mkCvConfig { n_folds : nat; purge_ns : Z; embargo_ns : Z }.
Definition purged_cv_config_default : PurgedCvConfig := mkCvConfig 5 2000000000 1000000000.

Definition row_ts (rows : list LabeledFeatureRow) (i : nat) : Z :=
  match rows !! i with Some row => lr_exchange_ts_ns row | None => 0 end.

(** The comparison of the sort: by time, then by index. *)
Definition earlier (rows : list LabeledFeatureRow) (a b : nat) : bool :=
  if negb (row_ts rows a =? row_ts rows b) then row_ts rows a <? row_ts rows b else (a <? b)%nat.

Definition time_order (rows : list LabeledFeatureRow) : list nat :=
  stable_sort (earlier rows) (seq 0 (length rows)).

Definition fold_size (cfg : PurgedCvConfig) (n : nat) : nat := Nat.max 1 (n / n_folds cfg).

(** The positions of fold [f] in the time order. *)
Definition fold_start (cfg : PurgedCvConfig) (n f : nat) : nat := (f * fold_size cfg n)%nat.
Definition fold_end (cfg : PurgedCvConfig) (n f : nat) : nat :=
  if (f + 1 =? n_folds cfg)%nat then n else Nat.min n ((f + 1) * fold_size cfg n).

(** [push_back] of each training index, in time order; [i] is the position. *)
Fixpoint train_loop (rows : list LabeledFeatureRow) (start end_ : nat) (purge_start embargo_end : Z) (i : nat) (order : list nat) : list nat :=
  match order with
  | [] => []
  | idx :: order =>
      let ts := row_ts rows idx in
      let in_test := (start <=? i)%nat && (i <? end_)%nat in
      let in_purge_embargo := (purge_start <=? ts) && (ts <=? embargo_end) in
      let rest := train_loop rows start end_ purge_start embargo_end (S i) order in
      if negb in_test && negb in_purge_embargo then idx :: rest else rest
  end.

(** One turn of the loop over folds; an empty fold is skipped. *)
Definition make_fold (cfg : PurgedCvConfig) (rows : list LabeledFeatureRow) (order : list nat) (f : nat) : option CvFold :=
  let start := fold_start cfg (length order) f in
  let end_ := fold_end cfg (length order) f in
  if (end_ <=? start)%nat then None else
  let ts_at i := row_ts rows (default 0%nat (order !! i)) in
  let test_start := ts_at start in
  let test_end := ts_at (end_ - 1)%nat in
  let purge_start := if purge_ns cfg <? test_start then test_start - purge_ns cfg else 0 in
  let embargo_end := test_end +64 embargo_ns cfg in
  Some (mkFold f test_start test_end (train_loop rows start end_ purge_start embargo_end 0 order) (slice order start (end_ - start))).

Definition split (cfg : PurgedCvConfig) (rows : list LabeledFeatureRow) : list CvFold :=
  if bool_decide (rows = []) || (n_folds cfg <? 2)%nat then [] else
  omap (make_fold cfg rows (time_order rows)) (seq 0 (n_folds cfg)).

Fixpoint leaky_loop (rows : list LabeledFeatureRow) (f : CvFold) (label_horizon_ns : Z) (train : list nat) : bool :=
  match train with
  | [] => false
  | train_idx :: train =>
      let ts := row_ts rows train_idx in
      let label_end := ts +64 label_horizon_ns in
      if (test_start_ns f <=? label_end) && (ts <=? test_end_ns f) then true else leaky_loop rows f label_horizon_ns train
  end.

(** The check the code makes of a fold: it takes a label to end [label_horizon_ns]
    after its row. The label builder takes the first observation from then on,
    which may be later. *)
Definition is_leaky_split (f : CvFold) (label_horizon_ns : Z) (rows : list LabeledFeatureRow) : bool :=
  leaky_loop rows f label_horizon_ns (train_indices f).

(** ** The time order *)

Lemma earlier_strict_weak rows : strict_weak (earlier rows).
Proof.
  split; unfold earlier; intros.
  - rewrite Z.eqb_refl. cbn [negb]. apply Nat.ltb_irrefl.
  - destruct (Z.eqb_spec (row_ts rows x) (row_ts rows y)) as [E|E]; cbn [negb] in *.
    + rewrite E, Z.eqb_refl. cbn [negb]. apply Nat.ltb_ge. apply Nat.ltb_lt in H. lia.
    + destruct (Z.eqb_spec (row_ts rows y) (row_ts rows x)); [congruence|]. cbn [negb]. lia.
  - repeat match goal with H : context [?a =? ?b] |- _ => destruct (Z.eqb_spec a b) | |- context [?a =? ?b] => destruct (Z.eqb_spec a b) end;
      cbn [negb] in *; repeat match goal with H : (_ <? _)%nat = false |- _ => apply Nat.ltb_ge in H end; try (apply Nat.ltb_ge); lia.
Qed.

Lemma time_order_perm rows : Permutation (time_order rows) (seq 0 (length rows)).
Proof. apply stable_sort_perm. Qed.

Lemma length_time_order rows : length (time_order rows) = length rows.
Proof. rewrite time_order_perm. apply length_seq. Qed.

(** Later positions have later or equal times. *)
Lemma time_order_sorted rows i j x y : time_order rows !! i = Some x -> time_order rows !! j = Some y -> (i <= j)%nat ->
  row_ts rows x <= row_ts rows y.
Proof.
  intros Hi Hj Hij. destruct (decide (i = j)) as [->|Hne]; [replace y with x by congruence; lia|].
  pose proof (stable_sort_sorted (earlier rows) (seq 0 (length rows)) (earlier_strict_weak rows)) as Hs.
  apply (StronglySorted_lookup_lt _ _ i j x y) in Hs; [|done|done|lia].
  unfold not_after, earlier in Hs. destruct (Z.eqb_spec (row_ts rows y) (row_ts rows x)); cbn in Hs; lia.
Qed.

(** ** The test folds *)

Section folds.
Context (cfg : PurgedCvConfig) (rows : list LabeledFeatureRow).
Hypothesis two_folds : (2 <= n_folds cfg)%nat.

Abbreviation order := (time_order rows).
Abbreviation n := (length (time_order rows)).

Lemma fold_size_pos k : (0 < fold_size cfg k)%nat.
Proof. unfold fold_size. lia. Qed.

(** The folds before [k], the last not among them, cover the first positions. *)
Lemma folds_prefix k : (k < n_folds cfg)%nat ->
  concat (map test_indices (omap (make_fold cfg rows order) (seq 0 k))) = take (fold_start cfg n k) order.
Proof.
  induction k as [|k IH]; intros Hk; [done|]. rewrite seq_S, omap_app, map_app, concat_app, IH by lia.
  cbn [Nat.add omap list_omap]. unfold make_fold at 1. pose proof (fold_size_pos n) as Hp.
  assert (fold_end cfg n k = Nat.min n (fold_start cfg n (S k))) as He.
  { unfold fold_end, fold_start. destruct (Nat.eqb_spec (k + 1) (n_folds cfg)); [lia|]. by rewrite Nat.add_1_r. }
  assert (fold_start cfg n (S k) = fold_start cfg n k + fold_size cfg n)%nat as Hs by (unfold fold_start; lia).
  rewrite He. destruct (Nat.leb_spec (n `min` fold_start cfg n (S k)) (fold_start cfg n k)) as [Hle|Hlt].
  - cbn [map concat]. rewrite app_nil_r. rewrite (take_ge _ (fold_start cfg n k)), take_ge by lia. done.
  - cbn [map concat test_indices]. rewrite app_nil_r. unfold slice.
    replace (take (n `min` fold_start cfg n (S k) - fold_start cfg n k) (drop (fold_start cfg n k) order))
      with (drop (fold_start cfg n k) (take (n `min` fold_start cfg n (S k)) order)) by (rewrite skipn_firstn_comm; done).
    replace (take (fold_start cfg n k) order) with (take (fold_start cfg n k) (take (n `min` fold_start cfg n (S k)) order))
      by (rewrite take_take; f_equal; lia).
    rewrite take_drop. destruct (Nat.min_spec n (fold_start cfg n (S k))) as [[? ->]|[? ->]]; [by rewrite !take_ge by lia|done].
Qed.

(** The test folds, one after the other, are the rows in time order. *)
Lemma folds_concat : concat (map test_indices (omap (make_fold cfg rows order) (seq 0 (n_folds cfg)))) = order.
Proof.
  replace (n_folds cfg) with (S (n_folds cfg - 1)) by lia.
  rewrite seq_S, omap_app, map_app, concat_app, folds_prefix by lia. cbn [Nat.add omap list_omap].
  unfold make_fold, fold_end. rewrite (proj2 (Nat.eqb_eq (n_folds cfg - 1 + 1) (n_folds cfg))) by lia.
  destruct (Nat.leb_spec n (fold_start cfg n (n_folds cfg - 1))) as [Hle|Hlt].
  - cbn [map concat]. by rewrite app_nil_r, take_ge.
  - cbn [map concat test_indices]. rewrite app_nil_r. unfold slice. rewrite (take_ge (drop _ _)) by (rewrite length_drop; lia). apply take_drop.
Qed.

Lemma split_concat : concat (map test_indices (split cfg rows)) = order.
Proof using two_folds.
  unfold split. rewrite (proj2 (Nat.ltb_ge _ _)) by done. rewrite orb_false_r. case_bool_decide as He; [by rewrite He|apply folds_concat].
Qed.

(** ** The training rows *)

Lemma train_loop_spec start end_ lo hi l : forall i x,
  x ∈ train_loop rows start end_ lo hi i l <->
  exists j, l !! j = Some x /\ ~ (start <= i + j < end_)%nat /\ ~ (lo <= row_ts rows x <= hi).
Proof.
  induction l as [|y l IH]; intros i x; cbn [train_loop].
  - split; [by intros ?%elem_of_nil|]. intros (j & Hj & _). by rewrite lookup_nil in Hj.
  - assert ((exists j, (y :: l) !! j = Some x /\ ~ (start <= i + j < end_)%nat /\ ~ (lo <= row_ts rows x <= hi)) <->
      (x = y /\ ~ (start <= i < end_)%nat /\ ~ (lo <= row_ts rows x <= hi)) \/
      exists j, l !! j = Some x /\ ~ (start <= S i + j < end_)%nat /\ ~ (lo <= row_ts rows x <= hi)) as ->.
    { split.
      - intros ([|j] & Hj & H1 & H2); [left|right].
        + cbn in Hj. injection Hj as ->. split_and!; [done|lia|lia].
        + exists j. split_and!; [done|lia|lia].
      - intros [(-> & H1 & H2)|(j & Hj & H1 & H2)]; [exists 0%nat|exists (S j)]; split_and!; done || lia. }
    rewrite <-IH. destruct (negb _ && negb _) eqn:E.
    + rewrite elem_of_cons. split; [|intros [[-> _]|?]; [by left|by right]]. intros [->|?]; [left|by right].
      split; [done|]. apply andb_prop in E as [E1 E2]. rewrite negb_true_iff, andb_false_iff, ?Nat.leb_gt, ?Nat.ltb_ge, ?Z.leb_gt in *. lia.
    + split; [by right|]. intros [(-> & H1 & H2)|?]; [exfalso|done].
      apply andb_false_iff in E as [E|E]; rewrite negb_false_iff, andb_true_iff, ?Nat.leb_le, ?Nat.ltb_lt, ?Z.leb_le in E; lia.
Qed.

Lemma leaky_loop_false f h l : (forall i, i ∈ l -> ~ (test_start_ns f <= row_ts rows i +64 h /\ row_ts rows i <= test_end_ns f)) ->
  leaky_loop rows f h l = false.
Proof.
  induction l as [|i l IH]; intros H; [done|]. cbn [leaky_loop]. destruct (_ && _) eqn:E.
  - exfalso. apply andb_prop in E as [E1 E2]. apply (H i); [left|lia].
  - apply IH. intros j Hj. apply H. by right.
Qed.

Hypothesis times_ok : Forall (fun row => 0 <= lr_exchange_ts_ns row /\ lr_exchange_ts_ns row + embargo_ns cfg < 2 ^ 64) rows.
Hypothesis config_ok : 0 <= purge_ns cfg /\ 0 <= embargo_ns cfg.

Lemma order_lookup i x : order !! i = Some x -> exists row, rows !! x = Some row /\ row_ts rows x = lr_exchange_ts_ns row.
Proof.
  intros Hi. apply list_elem_of_lookup_2 in Hi. rewrite time_order_perm in Hi. apply elem_of_seq in Hi as [_ Hi].
  destruct (lookup_lt_is_Some_2 rows x Hi) as [row Hrow]. exists row. split; [done|]. unfold row_ts. by rewrite Hrow.
Qed.

(** A fold's training rows are exactly those whose time is outside the purged
    and embargoed window around its test rows. *)
Lemma make_fold_train f fd : make_fold cfg rows order f = Some fd -> forall i,
  i ∈ train_indices fd <->
  (i < length rows)%nat /\ (row_ts rows i + purge_ns cfg < test_start_ns fd \/ test_end_ns fd + embargo_ns cfg < row_ts rows i).
Proof.
  unfold make_fold. set (start := fold_start cfg n f). set (end_ := fold_end cfg n f).
  destruct (Nat.leb_spec end_ start) as [|Hlt]; [done|]. intros [= <-] i. cbn [train_indices test_start_ns test_end_ns].
  assert (end_ <= n)%nat as Hn by (unfold end_, fold_end; destruct (_ =? _)%nat; lia).
  destruct (lookup_lt_is_Some_2 order start) as [a Ha]; [lia|].
  destruct (lookup_lt_is_Some_2 order (end_ - 1)) as [b Hb]; [lia|].
  rewrite Ha, Hb. cbn [default]. change (id a) with a. change (id b) with b.
  destruct (order_lookup _ _ Ha) as (ra & Hra & Ea). destruct (order_lookup _ _ Hb) as (rb & Hrb & Eb).
  pose proof (proj1 (Forall_lookup _ _) times_ok _ _ Hra) as [Hta _]. pose proof (proj1 (Forall_lookup _ _) times_ok _ _ Hrb) as [Htb Hwb].
  rewrite train_loop_spec, u64_small by lia. split.
  - intros (j & Hj & Hpos & Hwin). destruct (order_lookup _ _ Hj) as (r & Hr & Er). split; [by eapply lookup_lt_Some|].
    pose proof (proj1 (Forall_lookup _ _) times_ok _ _ Hr) as [Ht _]. destruct (Z.ltb_spec (purge_ns cfg) (row_ts rows a)); lia.
  - intros [Hi Hout]. assert (i ∈ order) as Hin by (rewrite time_order_perm; apply elem_of_seq; lia).
    apply list_elem_of_lookup_1 in Hin as [j Hj]. destruct (order_lookup _ _ Hj) as (r & Hr & Er).
    pose proof (proj1 (Forall_lookup _ _) times_ok _ _ Hr) as [Ht _]. exists j. split; [done|]. split.
    + intros [Hs He]. pose proof (time_order_sorted rows _ _ _ _ Ha Hj ltac:(lia)). pose proof (time_order_sorted rows _ _ _ _ Hj Hb ltac:(lia)). lia.
    + destruct (Z.ltb_spec (purge_ns cfg) (row_ts rows a)); lia.
Qed.

Lemma make_fold_not_leaky f fd h : make_fold cfg rows order f = Some fd -> 0 <= h <= purge_ns cfg -> is_leaky_split fd h rows = false.
Proof.
  intros Hf Hh. apply leaky_loop_false. intros i Hi. apply (make_fold_train f fd Hf) in Hi as [Hlen Hout].
  assert (0 <= row_ts rows i) as H0.
  { destruct (lookup_lt_is_Some_2 rows i Hlen) as [r Hr]. unfold row_ts. rewrite Hr.
    by destruct (proj1 (Forall_lookup _ _) times_ok _ _ Hr). }
  assert (test_start_ns fd < 2 ^ 64) as Hs.
  { revert Hf. unfold make_fold. destruct (_ <=? _)%nat; [done|]. intros [= <-]. cbn [test_start_ns].
    unfold row_ts. destruct (rows !! _) as [r|] eqn:Hr; [|lia]. destruct (proj1 (Forall_lookup _ _) times_ok _ _ Hr). lia. }
  intros [H1 H2]. destruct Hout as [Hout|Hout]; [|lia]. rewrite u64_small in H1 by lia. lia.
Qed.
End folds.

Definition times_fit (cfg : PurgedCvConfig) (row : LabeledFeatureRow) : Prop :=
  0 <= lr_exchange_ts_ns row /\ lr_exchange_ts_ns row + embargo_ns cfg < 2 ^ 64.

(** C30. The splits are what they are declared to be: the test folds, one after
    the other, are all the rows in time order, each once; a fold trains on
    exactly the rows whose time is before its test rows by more than the purge
    or after them by more than the embargo; and [is_leaky_split], which asks
    whether the time of a training row plus the horizon reaches the test rows,
    reports no leak for horizons up to the purge. *)
Theorem purged_folds_sound cfg rows : (2 <= n_folds cfg)%nat -> Forall (times_fit cfg) rows ->
  0 <= purge_ns cfg /\ 0 <= embargo_ns cfg ->
  concat (map test_indices (split cfg rows)) = time_order rows /\ Permutation (time_order rows) (seq 0 (length rows)) /\
  Forall (fun fd =>
    (forall i, i ∈ train_indices fd <-> (i < length rows)%nat /\
       (row_ts rows i + purge_ns cfg < test_start_ns fd \/ test_end_ns fd + embargo_ns cfg < row_ts rows i)) /\
    forall h, 0 <= h <= purge_ns cfg -> is_leaky_split fd h rows = false) (split cfg rows).
Proof.
  intros Hn Ht Hc. unfold split. destruct (Nat.ltb_spec (n_folds cfg) 2) as [|_]; [lia|]. rewrite orb_false_r.
  case_bool_decide as He; [by subst|]. split; [by apply folds_concat|]. split; [apply time_order_perm|].
  apply Forall_forall. intros fd Hfd. apply list_elem_of_omap in Hfd as (f & _ & Hf). split.
  - by apply make_fold_train with f.
  - intros h Hh. by apply make_fold_not_leaky with cfg f.
Qed.

(** ** At concrete inputs *)

Definition cv_row (ts : Z) : LabeledFeatureRow :=
  mkRow 1 ts 0 0 0 0 0 dzero dzero dzero dzero dzero dzero dzero [].

Definition cv_rows : list LabeledFeatureRow := cv_row <$> [50; 10; 20; 40; 30; 60; 35].
Definition cv_config : PurgedCvConfig := mkCvConfig 3 5 10.

Lemma purged_folds_sound_witness :
  concat (map test_indices (split cv_config cv_rows)) = time_order cv_rows /\ Permutation (time_order cv_rows) (seq 0 7) /\
  Forall (fun fd =>
    (forall i, i ∈ train_indices fd <-> (i < 7)%nat /\
       (row_ts cv_rows i + 5 < test_start_ns fd \/ test_end_ns fd + 10 < row_ts cv_rows i)) /\
    forall h, 0 <= h <= 5 -> is_leaky_split fd h cv_rows = false) (split cv_config cv_rows).
Proof.
  apply (purged_folds_sound cv_config cv_rows); [simpl; lia| |simpl; lia].
  repeat (constructor; [unfold times_fit; simpl; lia|]). constructor.
Defined.

(** The default purge of 2 s is shorter than the default label horizons of 5 s
    and 10 s: on rows a second apart, labels of those leak in every fold but
    the first. *)
Example default_purge_leaks :
  let rows := map (fun i => cv_row (1000000000 * Z.of_nat i)) (seq 0 100) in
  map (fun fd => map (fun h => is_leaky_split fd h rows) default_horizons_ns) (split purged_cv_config_default rows) =
  [[false; false; false]; [false; true; true]; [false; true; true]; [false; true; true]; [false; true; true]].
Proof. vm_compute. reflexivity. Qed.

(** A purge as long as the horizon does not keep test rows out of training
    labels: of two rows 10 ns apart the first is in the training set of the fold
    that tests the second, no leak is reported, and its label of 5 ns is the
    return to the second row's mid, the first observation 5 ns later or more. *)
Definition mid_row (ts : Z) (mid : double) : LabeledFeatureRow :=
  mkRow 1 ts 0 0 0 0 0 mid dzero dzero dzero dzero dzero dzero [].

Example training_label_from_test_row :
  let rows mid := attach_labels [5] [mid_row 0 (of_Z 1); mid_row 10 mid] in
  map (fun fd => (train_indices fd, test_indices fd, is_leaky_split fd 5 (rows (of_Z 2)))) (split (mkCvConfig 2 5 0) (rows (of_Z 2)))
    = [([1%nat], [0%nat], false); ([0%nat], [1%nat], false)] /\
  forward_mid_returns <$> rows (of_Z 2) !! 0%nat = Some [of_Z 1] /\ forward_mid_returns <$> rows (of_Z 3) !! 0%nat = Some [of_Z 2].
Proof. split_and!; vm_compute; reflexivity. Qed.
