(* ===== verification/Signals.v ===== *)
(** * Signals of the research lab (src/research/alpha_lab/signal_registry.cpp)

    A signal maps a labelled row to a number; its context shows it every row
    and carries a history from row to row. No signal of the zoo looks ahead:
    its values over the first rows do not depend on the rows that follow. The
    rolling z-score is that of the last [window] values. *)

From stdpp Require Import strings.
From S2P Require Import Prelude Types Crc OrderTable Levels OrderBook Nbbo EventBytes Journal EventStore NbboJournal Spsc Spmc Floats Features AlphaLab.

#[local] Open Scope list_scope.
#[local] Open Scope Z_scope.

(** ** Signals *)

Record SignalContext := mkContext { sx_row_index : nat; sx_rows : list LabeledFeatureRow; ofi_history : list double }.

Definition SignalFn : Type := LabeledFeatureRow -> SignalContext -> double * SignalContext.

Record SignalDefinition := mkSignal { sd_name : string; sd_compute : SignalFn }.

Definition set_history (h : list double) (ctx : SignalContext) : SignalContext := mkContext (sx_row_index ctx) (sx_rows ctx) h.

(** The prices are 32-bit unsigned, and so is their difference. *)
Definition spread_from_row (row : LabeledFeatureRow) : double :=
  if (lr_nbbo_bid_price row =? 0) || (lr_nbbo_ask_price row =? 0) then dzero
  else of_Z (lr_nbbo_ask_price row -32 lr_nbbo_bid_price row).

(** [std::accumulate(l.begin(), l.end(), 0.0)] *)
Definition accumulate (l : list double) : double := fold_left dadd l dzero.

Definition mean_of (l : list double) : double := ddiv (accumulate l) (of_Z (Z.of_nat (length l))).

(** The sum of the squared distances from [mean], over the count. *)
Definition variance_of (mean : double) (l : list double) : double :=
  ddiv (fold_left (fun var v => let d := dsub v mean in dadd var (dmul d d)) l dzero) (of_Z (Z.of_nat (length l))).

(** What [rolling_zscore] computes from the history once it is trimmed. *)
Definition zscore (history : list double) (value : double) : double :=
  if (length history <? 2)%nat then dzero else
  let mean := mean_of history in
  let var := variance_of mean history in
  if dle var dzero then dzero else ddiv (dsub value mean) (dsqrt var).

Definition rolling_zscore (history : list double) (value : double) (window : nat) : double * list double :=
  let history := history ++ [value] in
  let history := if (window <? length history)%nat then drop (length history - window) history else history in
  (zscore history value, history).

(** A signal that reads its row only. *)
Definition of_row (f : LabeledFeatureRow -> double) : SignalFn := fun row ctx => (f row, ctx).

Definition ofi_zscore : SignalDefinition := mkSignal "ofi_zscore" (fun row ctx =>
  let '(v, h) := rolling_zscore (ofi_history ctx) (lr_ofi row) 100 in (v, set_history h ctx)).

Definition default_zoo : list SignalDefinition := [
  mkSignal "ofi" (of_row lr_ofi);
  mkSignal "microprice_minus_mid" (of_row (fun row => dsub (lr_microprice row) (lr_mid row)));
  mkSignal "queue_ahead" (of_row lr_queue_ahead);
  mkSignal "effective_spread" (of_row lr_effective_spread);
  mkSignal "kyle_lambda" (of_row lr_kyle_lambda);
  mkSignal "vpin" (of_row lr_vpin);
  ofi_zscore;
  mkSignal "microprice_spread_adj" (of_row (fun row =>
    let spread := spread_from_row row in
    if dle spread dzero then dzero else ddiv (dsub (lr_microprice row) (lr_mid row)) spread));
  mkSignal "ofi_times_spread" (of_row (fun row => dmul (lr_ofi row) (spread_from_row row)));
  mkSignal "sign_microprice_minus_mid" (of_row (fun row =>
    let d := dsub (lr_microprice row) (lr_mid row) in
    if dgt d dzero then of_Z 1 else if dlt d dzero then of_Z (-1) else dzero));
  mkSignal "neg_effective_spread" (of_row (fun row => dneg (lr_effective_spread row)));
  mkSignal "queue_over_spread" (of_row (fun row =>
    let spread := std_max (of_Z 1) (spread_from_row row) in ddiv (lr_queue_ahead row) spread));
  mkSignal "bid_ask_imbalance" (of_row (fun row =>
    let denom := of_Z (lr_nbbo_bid_qty row +32 lr_nbbo_ask_qty row) in
    if dle denom dzero then dzero
    else ddiv (dsub (of_Z (lr_nbbo_bid_qty row)) (of_Z (lr_nbbo_ask_qty row))) denom))
].

Fixpoint extract_loop (signal : SignalDefinition) (rows : list LabeledFeatureRow) (i : nat) (ctx : SignalContext) : list double :=
  match rows with
  | [] => []
  | row :: rows =>
      let '(v, ctx) := sd_compute signal row (mkContext i (sx_rows ctx) (ofi_history ctx)) in
      v :: extract_loop signal rows (S i) ctx
  end.

Definition extract (signal : SignalDefinition) (rows : list LabeledFeatureRow) : list double :=
  extract_loop signal rows 0 (mkContext 0 rows []).

(** ** No look-ahead *)

(** A signal that only uses its row and its history. *)
Definition historical (f : SignalFn) : Prop :=
  exists g : LabeledFeatureRow -> list double -> double * list double,
    forall row ctx, f row ctx = ((g row (ofi_history ctx)).1, set_history (g row (ofi_history ctx)).2 ctx).

Lemma of_row_historical f : historical (of_row f).
Proof. exists (fun row h => (f row, h)). by intros row []. Qed.

Lemma zoo_historical : Forall (fun s => historical (sd_compute s)) default_zoo.
Proof.
  repeat (apply Forall_cons; split; [first [apply of_row_historical|exists (fun row h => rolling_zscore h (lr_ofi row) 100); done]|]).
  apply Forall_nil. done.
Qed.

Lemma extract_loop_app s rows : historical (sd_compute s) -> forall later i all all' h,
  extract_loop s rows i (mkContext i all h) `prefix_of` extract_loop s (rows ++ later) i (mkContext i all' h).
Proof.
  intros [g Hg] later. assert (forall rows i j all all' h,
    extract_loop s rows i (mkContext j all h) `prefix_of` extract_loop s (rows ++ later) i (mkContext j all' h)) as H; [|auto].
  clear rows. intros rows. induction rows as [|row rows IH]; intros i j all all' h; [apply prefix_nil|].
  cbn [extract_loop app]. rewrite !Hg. cbn [sx_rows ofi_history]. apply prefix_cons, IH.
Qed.

(** The values of any signal of the zoo over some rows are the first values
    of the same signal over any longer sequence of rows: what comes later in
    time is never used. *)
Theorem signals_causal s rows later : s ∈ default_zoo -> extract s rows `prefix_of` extract s (rows ++ later).
Proof.
  intros Hs. pose proof zoo_historical as H. rewrite Forall_forall in H. apply extract_loop_app. auto.
Qed.

Lemma length_extract_loop s rows : forall i ctx, length (extract_loop s rows i ctx) = length rows.
Proof. induction rows as [|row rows IH]; intros i ctx; [done|]. cbn. destruct (sd_compute _ _ _). cbn. by rewrite IH. Qed.

(** ** The rolling z-score *)

(** The last [w] elements. *)
Definition last_n {A} (w : nat) (l : list A) : list A := drop (length l - w) l.

Lemma last_n_snoc {A} w (l : list A) x : (0 < w)%nat -> last_n w (last_n w l ++ [x]) = last_n w (l ++ [x]).
Proof.
  intros Hw. unfold last_n. rewrite !length_app, length_drop. cbn [length].
  destruct (decide (w <= length l)%nat) as [Hle|Hgt].
  - replace (length l - (length l - w) + 1 - w)%nat with 1%nat by lia. rewrite !drop_app_le by (rewrite ?length_drop; lia).
    rewrite drop_drop. f_equal. f_equal. lia.
  - replace (length l - w)%nat with 0%nat by lia. by rewrite drop_0, Nat.sub_0_r.
Qed.

Lemma rolling_last_n history value window :
  rolling_zscore history value window = (zscore (last_n window (history ++ [value])) value, last_n window (history ++ [value])).
Proof.
  unfold rolling_zscore, last_n. destruct (Nat.ltb_spec window (length (history ++ [value]))) as [Hlt|Hge]; [done|].
  by rewrite (proj2 (Nat.sub_0_le _ _) Hge), drop_0.
Qed.

Lemma zscore_loop rows : forall seen i j row all, rows !! j = Some row ->
  extract_loop ofi_zscore rows i (mkContext 0 all (last_n 100 seen)) !! j =
    Some (zscore (last_n 100 (seen ++ (lr_ofi <$> take (S j) rows))) (lr_ofi row)).
Proof.
  assert (forall rows seen i k j row all, rows !! j = Some row ->
    extract_loop ofi_zscore rows i (mkContext k all (last_n 100 seen)) !! j =
      Some (zscore (last_n 100 (seen ++ (lr_ofi <$> take (S j) rows))) (lr_ofi row))) as H; [|intros; by apply H].
  clear rows. intros rows. induction rows as [|r rows IH]; intros seen i k j row all Hj; [done|].
  cbn [extract_loop ofi_zscore sd_compute sx_rows ofi_history]. rewrite rolling_last_n, last_n_snoc by lia. unfold set_history. cbn [sx_rows sx_row_index].
  destruct j as [|j].
  - injection Hj as ->. cbn [lookup list_lookup take fmap list_fmap]. by rewrite take_0.
  - change (extract_loop ofi_zscore rows (S i) (mkContext i all (last_n 100 (seen ++ [lr_ofi r]))) !! j =
      Some (zscore (last_n 100 (seen ++ lr_ofi r :: (lr_ofi <$> take (S j) rows))) (lr_ofi row))).
    rewrite (IH (seen ++ [lr_ofi r]) (S i) i j row all Hj).
    by rewrite <-app_assoc.
Qed.

(** The rolling z-score of a row is that of the order-flow imbalances of at
    most the last hundred rows up to it. *)
Theorem zscore_of_last_hundred rows i row : rows !! i = Some row ->
  extract ofi_zscore rows !! i = Some (zscore (last_n 100 (lr_ofi <$> take (S i) rows)) (lr_ofi row)).
Proof. intros Hi. apply (zscore_loop rows [] 0 i row rows Hi). Qed.

(** ** At concrete inputs *)

Definition w_row (bid bq ask aq : Z) (ofi : Z) : LabeledFeatureRow :=
  mkRow 7 1000 1000 bid bq ask aq (mid_from_nbbo bid ask) (mid_from_nbbo bid ask) (of_Z ofi) dzero dzero dzero dzero [].
Definition w_rows : list LabeledFeatureRow := [w_row 100 5 102 5 1; w_row 100 5 102 5 3; w_row 100 5 102 5 2].

Lemma signals_causal_witness : extract ofi_zscore w_rows `prefix_of` extract ofi_zscore (w_rows ++ w_rows) /\
  extract ofi_zscore w_rows = [dzero; of_Z 1; dzero].
Proof.
  split; [|vm_compute; reflexivity]. apply (signals_causal ofi_zscore w_rows w_rows).
  do 6 apply list_elem_of_further. apply list_elem_of_here.
Defined.

Lemma zscore_of_last_hundred_witness :
  extract ofi_zscore w_rows !! 1%nat = Some (zscore (last_n 100 [of_Z 1; of_Z 3]) (of_Z 3)).
Proof. by apply (zscore_of_last_hundred w_rows 1 (w_row 100 5 102 5 3)). Defined.

(** A crossed quote has an enormous spread: the difference wraps. *)
Example crossed_spread_wraps : spread_from_row (w_row 102 5 100 5 0) = of_Z (2 ^ 32 - 2).
Proof. vm_compute. reflexivity. Qed.

(** The sum of the quantities wraps, and the imbalance leaves [-1, 1]. *)
Example imbalance_wraps : map (fun s => extract s [w_row 100 (2 ^ 32 - 1) 102 2 0]) (drop 12 default_zoo) = [[of_Z (2 ^ 32 - 3)]].
Proof. vm_compute. reflexivity. Qed.
