(* ===== verification/Evaluator.v ===== *)
(** * Evaluating signals (src/research/alpha_lab: signal_evaluator, pbo)

    A signal is compared with its labels on the rows where neither is missing:
    correlation, hit rate, and the spread between the labels of the highest and
    the lowest fifth of the signal. The metrics of the folds are grouped by
    signal and horizon; in-sample and out-of-sample scores are compared fold by
    fold.

    Grouping loses, repeats and mixes nothing ([aggregate_groups]); the
    quintile spread does not depend on how the sort orders its work
    ([quintile_spread_determined]); a fold counts as overfit exactly when an
    in-sample score beats every out-of-sample score ([pbo_counts]). *)

From stdpp Require Import strings.
From S2P Require Import Prelude Types Crc OrderTable Levels OrderBook Nbbo EventBytes Journal EventStore NbboJournal Spsc Spmc Floats Features AlphaLab Signals.

#[local] Open Scope list_scope.
#[local] Open Scope Z_scope.

(** ** Metrics *)

Record Pair := mkPair { pr_signal : double; pr_label : double }.

(** The loop over [i < min(signal.size(), labels.size())]. *)
Fixpoint valid_pairs (signal labels : list double) : list Pair :=
  match signal, labels with
  | s :: signal, l :: labels =>
      if is_nan s || is_nan l then valid_pairs signal labels else mkPair s l :: valid_pairs signal labels
  | _, _ => []
  end.

Definition pearson_ic (signal labels : list double) : double :=
  let pairs := valid_pairs signal labels in
  if (length pairs <? 3)%nat then dzero else
  let n := of_Z (Z.of_nat (length pairs)) in
  let mx := ddiv (accumulate (map pr_signal pairs)) n in
  let my := ddiv (accumulate (map pr_label pairs)) n in
  let '(cov, vx, vy) := fold_left (fun '(cov, vx, vy) p =>
      let dx := dsub (pr_signal p) mx in
      let dy := dsub (pr_label p) my in
      (dadd cov (dmul dx dy), dadd vx (dmul dx dx), dadd vy (dmul dy dy))) pairs (dzero, dzero, dzero) in
  if dle vx dzero || dle vy dzero then dzero else ddiv cov (dsqrt (dmul vx vy)).

Definition is_hit (p : Pair) : bool :=
  dgt (pr_signal p) dzero && dgt (pr_label p) dzero || dlt (pr_signal p) dzero && dlt (pr_label p) dzero.

Definition hit_rate (signal labels : list double) : double :=
  let pairs := valid_pairs signal labels in
  if bool_decide (length pairs = 0%nat) then dzero else
  ddiv (of_Z (Z.of_nat (length (List.filter is_hit pairs)))) (of_Z (Z.of_nat (length pairs))).

Definition pair_less (a b : Pair) : bool := dlt (pr_signal a) (pr_signal b).

Definition quintile_spread `{StdSort} (signal labels : list double) : double :=
  let pairs := valid_pairs signal labels in
  if (length pairs <? 10)%nat then dzero else
  let pairs := std_sort pair_less pairs in
  let q := Nat.max 1 (length pairs / 5) in
  let bottom := accumulate (map pr_label (take q pairs)) in
  let top := accumulate (map pr_label (take q (reverse pairs))) in
  ddiv (dsub top bottom) (of_Z (Z.of_nat q)).

Record SignalFoldMetrics := mkMetrics {
  fm_signal : string; fm_horizon_ns : Z; fm_fold_id : nat; fm_ic : double; fm_hit_rate : double; fm_quintile_spread : double; fm_n_obs : nat;
}.

Definition evaluate_fold `{StdSort} (name : string) (horizon_ns : Z) (signal labels : list double) (fold_id : nat) : SignalFoldMetrics :=
  mkMetrics name horizon_ns fold_id (pearson_ic signal labels) (hit_rate signal labels) (quintile_spread signal labels)
    (length (valid_pairs signal labels)).

(** ** Aggregation *)

Record SignalAggregate := mkAggregate {
  ag_signal : string; ag_horizon_ns : Z; mean_ic : double; std_ic : double; mean_quintile_spread : double;
  std_quintile_spread : double; ag_n_folds : nat;
}.

Definition Key : Type := string * Z.
Definition key_of (m : SignalFoldMetrics) : Key := (fm_signal m, fm_horizon_ns m).

(** [a < b] for strings. *)
Definition name_less (a b : string) : bool := match String.compare a b with Lt => true | _ => false end.

Definition key_less (a b : Key) : bool := if bool_decide (a.1 <> b.1) then name_less a.1 b.1 else a.2 <? b.2.

(** [grouped[key].push_back(m)] in the ordered map. *)
Fixpoint group_push (key : Key) (m : SignalFoldMetrics) (grouped : list (Key * list SignalFoldMetrics)) :=
  match grouped with
  | [] => [(key, [m])]
  | (k, items) :: rest =>
      if key_less key k then (key, [m]) :: grouped
      else if key_less k key then (k, items) :: group_push key m rest
      else (k, items ++ [m]) :: rest
  end.

Definition aggregate_one (key : Key) (items : list SignalFoldMetrics) : SignalAggregate :=
  let n := of_Z (Z.of_nat (length items)) in
  let sum f := fold_left (fun acc item => dadd acc (f item)) items dzero in
  let mean := ddiv (sum fm_ic) n in
  let mean_qs := ddiv (sum fm_quintile_spread) n in
  let ic_sq := sum (fun item => dmul (fm_ic item) (fm_ic item)) in
  let qs_sq := sum (fun item => dmul (fm_quintile_spread item) (fm_quintile_spread item)) in
  let ic_var := std_max dzero (dsub (ddiv ic_sq n) (dmul mean mean)) in
  let qs_var := std_max dzero (dsub (ddiv qs_sq n) (dmul mean_qs mean_qs)) in
  mkAggregate key.1 key.2 mean (dsqrt ic_var) mean_qs (dsqrt qs_var) (length items).

Definition group_all (per_fold : list SignalFoldMetrics) : list (Key * list SignalFoldMetrics) :=
  fold_left (fun g m => group_push (key_of m) m g) per_fold [].

Definition better_ic (a b : SignalAggregate) : bool := dgt (mean_ic a) (mean_ic b).

Definition aggregate `{StdSort} (per_fold : list SignalFoldMetrics) : list SignalAggregate :=
  std_sort better_ic (map (fun g => aggregate_one g.1 g.2) (group_all per_fold)).

(** ** Overfitting (pbo.cpp) *)

Record PboResult := mkPbo { pbo_probability : double; n_comparisons : nat; n_overfit : nat }.
Definition pbo_default : PboResult := mkPbo (dlit 1 2) 0 0.

(** [*std::max_element] of [x :: l]. *)
Definition max_element (x : double) (l : list double) : double := fold_left (fun best y => if dlt best y then y else best) l x.

Definition pbo_step (out : PboResult) (fold : list double * list double) : PboResult :=
  match fold with
  | (x :: is_scores, y :: oos_scores) =>
      let is_best := max_element x is_scores in
      let oos_best := max_element y oos_scores in
      mkPbo (pbo_probability out) (S (n_comparisons out)) (if dgt is_best oos_best then S (n_overfit out) else n_overfit out)
  | _ => out
  end.

Definition compute_pbo (fold_is_scores fold_oos_scores : list (list double)) : PboResult :=
  let n_folds := length fold_is_scores in
  if (n_folds =? 0)%nat || negb (length fold_oos_scores =? n_folds)%nat then pbo_default else
  let out := fold_left pbo_step (zip fold_is_scores fold_oos_scores) pbo_default in
  if (0 <? n_comparisons out)%nat then
    mkPbo (ddiv (of_Z (Z.of_nat (n_overfit out))) (of_Z (Z.of_nat (n_comparisons out)))) (n_comparisons out) (n_overfit out)
  else out.

(** ** The quintile spread *)

Lemma valid_pairs_numbers signal : forall labels, Forall (fun p => is_number (pr_signal p) /\ is_number (pr_label p)) (valid_pairs signal labels).
Proof.
  induction signal as [|s signal IH]; intros [|l labels]; cbn; try apply Forall_nil, I.
  destruct (is_nan s) eqn:Es, (is_nan l) eqn:El; cbn; auto.
Qed.

Lemma pair_less_order : strict_weak_on (fun p => is_number (pr_signal p)) pair_less.
Proof.
  split; unfold pair_less.
  - intros x y. apply (so_asym _ _ dlt_order).
  - intros x y z. apply (so_negtrans _ _ dlt_order).
Qed.

(** No two pairs tie on the signal, unless they are the same. *)
Definition no_ties (pairs : list Pair) : Prop :=
  forall a b, a ∈ pairs -> b ∈ pairs -> pair_less a b = false -> pair_less b a = false -> a = b.

(** Without ties in the signal the quintile spread is determined: whatever
    sorted permutation [std::sort] leaves, the sums are the same, to the last
    bit. *)
Theorem quintile_spread_determined (S1 S2 : StdSort) signal labels : no_ties (valid_pairs signal labels) ->
  @quintile_spread S1 signal labels = @quintile_spread S2 signal labels.
Proof.
  intros Ht. unfold quintile_spread. destruct (_ <? _)%nat; [done|].
  rewrite (std_sort_unique S1 S2 _ _ _ _ (valid_pairs signal labels) pair_less_order); try done.
  eapply Forall_impl; [apply valid_pairs_numbers|]. by intros p [? _].
Qed.

(** ** Grouping *)

Lemma name_less_irrefl a : name_less a a = false.
Proof. unfold name_less. destruct (String.compare a a) eqn:E; try done. pose proof (String.compare_antisym a a) as H. rewrite E in H. done. Qed.

Lemma ascii_compare_N a b : Ascii.compare a b = N.compare (Ascii.N_of_ascii a) (Ascii.N_of_ascii b).
Proof. done. Qed.

Lemma name_less_trans a : forall b c, name_less a b = true -> name_less b c = true -> name_less a c = true.
Proof.
  unfold name_less. induction a as [|x a IH]; intros [|y b] [|z c]; cbn; try done. rewrite !ascii_compare_N.
  destruct (N.compare_spec (Ascii.N_of_ascii x) (Ascii.N_of_ascii y)) as [E1|E1|E1], (N.compare_spec (Ascii.N_of_ascii y) (Ascii.N_of_ascii z)) as [E2|E2|E2]; try done.
  - rewrite E1, E2, N.compare_refl. apply IH.
  - rewrite E1, (proj2 (N.compare_lt_iff _ _)) by done. done.
  - rewrite <-E2, (proj2 (N.compare_lt_iff _ _)) by done. done.
  - rewrite (proj2 (N.compare_lt_iff _ _)) by lia. done.
Qed.

Lemma name_less_total a b : name_less a b = false -> name_less b a = false -> a = b.
Proof.
  unfold name_less. rewrite (String.compare_antisym b a). destruct (String.compare a b) eqn:E; cbn; try done.
  intros _ _. by apply String.compare_eq_iff.
Qed.

Lemma key_less_irrefl a : key_less a a = false.
Proof. unfold key_less. rewrite bool_decide_false by (intros H; by apply H). lia. Qed.

Lemma key_less_trans a b c : key_less a b = true -> key_less b c = true -> key_less a c = true.
Proof.
  unfold key_less. destruct a as [a x], b as [b y], c as [c z]. cbn. intros Hab Hbc. revert Hab Hbc.
  destruct (decide (a = b)) as [->|Nab], (decide (b = c)) as [->|Nbc];
    rewrite ?(bool_decide_false (_ <> _)) by naive_solver; rewrite ?(bool_decide_true (_ <> _)) by done; try done; [lia|].
  destruct (decide (a = c)) as [->|Nac]; intros Hab Hbc; pose proof (name_less_trans _ _ _ Hab Hbc) as Hac.
  - by rewrite name_less_irrefl in Hac.
  - by rewrite bool_decide_true.
Qed.

Lemma key_less_total a b : key_less a b = false -> key_less b a = false -> a = b.
Proof.
  unfold key_less. destruct a as [a x], b as [b y]. cbn. repeat case_bool_decide; subst; try congruence.
  - intros H1 H2. exfalso. by apply H, name_less_total.
  - intros. f_equal. lia.
Qed.

Definition group_order (a b : Key * list SignalFoldMetrics) : Prop := key_less a.1 b.1 = true.

(** The metrics of one key, in the order they came. *)
Definition with_key (k : Key) (l : list SignalFoldMetrics) : list SignalFoldMetrics := filter (fun m => key_of m = k) l.

(** The map after the metrics [l]: ordered, complete, each group its key's. *)
Record groups_ok (l : list SignalFoldMetrics) (g : list (Key * list SignalFoldMetrics)) : Prop := {
  go_sorted : StronglySorted group_order g;
  go_items : Forall (fun ki => ki.2 = with_key ki.1 l) g;
  go_complete : forall k, with_key k l <> [] -> k ∈ map fst g;
}.

Lemma with_key_snoc k l m : with_key k (l ++ [m]) = if bool_decide (key_of m = k) then with_key k l ++ [m] else with_key k l.
Proof.
  unfold with_key. rewrite filter_app. case_bool_decide; [by rewrite filter_cons_True|].
  by rewrite filter_cons_False, filter_nil, app_nil_r.
Qed.

Lemma group_push_keys k m g x : x ∈ map fst (group_push k m g) <-> x = k \/ x ∈ map fst g.
Proof.
  induction g as [|[k' items] g IH]; cbn; [set_solver|]. destruct (key_less k k') eqn:E1; [set_solver|].
  destruct (key_less k' k) eqn:E2; cbn; [set_solver|]. rewrite (key_less_total _ _ E1 E2). set_solver.
Qed.

Lemma group_push_sorted k m g : StronglySorted group_order g -> StronglySorted group_order (group_push k m g).
Proof.
  induction 1 as [|[k' items] g Hs IH Hf]; cbn; [by repeat constructor|]. destruct (key_less k k') eqn:E1.
  - constructor; [by constructor|]. constructor; [done|]. eapply Forall_impl; [exact Hf|]. intros [k'' i]. by apply key_less_trans.
  - destruct (key_less k' k) eqn:E2; (constructor; [done|]); [|done]. apply Forall_forall. intros [k'' i] Hin. unfold group_order. cbn.
    assert (k'' ∈ map fst (group_push k m g)) as Hk by (apply list_elem_of_fmap; by exists (k'', i)).
    apply group_push_keys in Hk as [->|Hk]; [done|]. apply list_elem_of_fmap in Hk as ([? j] & -> & Hj).
    rewrite Forall_forall in Hf. by apply (Hf _ Hj).
Qed.

Lemma group_push_items l m g : StronglySorted group_order g -> Forall (fun ki => ki.2 = with_key ki.1 l) g ->
  (key_of m ∉ map fst g -> with_key (key_of m) l = []) ->
  Forall (fun ki => ki.2 = with_key ki.1 (l ++ [m])) (group_push (key_of m) m g).
Proof.
  induction 1 as [|[k items] g Hs IH Hf]; intros Hi Hnew; cbn.
  { apply Forall_singleton. cbn. rewrite with_key_snoc, bool_decide_true by done. rewrite Hnew by apply not_elem_of_nil. done. }
  apply Forall_cons in Hi as [Hk Hi]. cbn in Hk.
  assert (forall g', Forall (fun ki => ki.2 = with_key ki.1 l) g' -> Forall (fun ki => key_less (key_of m) ki.1 = true) g' ->
    Forall (fun ki => ki.2 = with_key ki.1 (l ++ [m])) g') as Hrest.
  { intros g' H1 H2. apply Forall_forall. intros ki Hki. rewrite Forall_forall in H1, H2. specialize (H1 _ Hki). specialize (H2 _ Hki).
    cbn in H1, H2. rewrite with_key_snoc, bool_decide_false; [done|]. intros E. rewrite E, key_less_irrefl in H2. done. }
  destruct (key_less (key_of m) k) eqn:E1; [|destruct (key_less k (key_of m)) eqn:E2].
  - assert (Forall (fun ki => key_less (key_of m) ki.1 = true) ((k, items) :: g)) as Hless.
    { constructor; [done|]. eapply Forall_impl; [exact Hf|]. intros [k' i]. unfold group_order. cbn. by apply key_less_trans. }
    constructor; [|by apply Hrest; [constructor|]]. cbn. rewrite with_key_snoc, bool_decide_true by done. rewrite Hnew; [done|].
    intros Hin. apply (list_elem_of_fmap fst) in Hin as (ki & E & Hki). rewrite Forall_forall in Hless. specialize (Hless _ Hki). cbn in Hless.
    rewrite E, key_less_irrefl in Hless. done.
  - constructor; cbn.
    + rewrite with_key_snoc, bool_decide_false; [done|]. intros E. rewrite E, key_less_irrefl in E2. done.
    + apply IH; [done|]. intros Hn. apply Hnew. cbn. intros [E|Hin]%elem_of_cons; [|done]. rewrite E, key_less_irrefl in E2. done.
  - pose proof (key_less_total _ _ E1 E2) as E. constructor; cbn.
    + rewrite with_key_snoc, bool_decide_true by done. by rewrite Hk.
    + apply Hrest; [done|]. eapply Forall_impl; [exact Hf|]. intros [k' i]. unfold group_order. cbn. by rewrite E.
Qed.

Lemma group_all_ok l : groups_ok l (group_all l).
Proof.
  induction l as [|m l [Hs Hi Hc]] using rev_ind; [split; [constructor|constructor|done]|].
  unfold group_all in *. rewrite fold_left_app. cbn [fold_left]. set (g := fold_left _ _ _) in *. split.
  - by apply group_push_sorted.
  - apply group_push_items; try done. intros Hn. destruct (with_key (key_of m) l) eqn:E; [done|]. exfalso. apply Hn, Hc. by rewrite E.
  - intros k Hk. rewrite group_push_keys. rewrite with_key_snoc in Hk. case_bool_decide; [by left|]. right. by apply Hc.
Qed.

Lemma group_push_concat k m g : concat (map snd (group_push k m g)) ≡ₚ m :: concat (map snd g).
Proof.
  induction g as [|[k' items] g IH]; cbn; [done|]. destruct (key_less k k'); [done|]. destruct (key_less k' k); cbn.
  - rewrite IH. by rewrite <-Permutation_middle.
  - rewrite <-app_assoc. cbn. by rewrite <-Permutation_middle.
Qed.

Lemma group_all_concat l : concat (map snd (group_all l)) ≡ₚ l.
Proof.
  induction l as [|m l IH] using rev_ind; [done|]. unfold group_all in *. rewrite fold_left_app. cbn [fold_left].
  rewrite group_push_concat, IH. by rewrite Permutation_cons_append.
Qed.

Lemma group_all_keys l k : k ∈ map fst (group_all l) <-> exists m, m ∈ l /\ key_of m = k.
Proof.
  induction l as [|m l IH] using rev_ind; [split; [intros H; by apply elem_of_nil in H|intros (? & H & _); by apply elem_of_nil in H]|].
  unfold group_all in *. rewrite fold_left_app. cbn [fold_left]. rewrite group_push_keys, IH. set_solver.
Qed.

Lemma better_ic_order : strict_weak_on (fun a => is_number (mean_ic a)) better_ic.
Proof.
  split; unfold better_ic, dgt; intros x y.
  - intros Hx Hy. by apply (so_asym _ _ dlt_order).
  - intros z Hx Hy Hz H1 H2. by apply (so_negtrans _ _ dlt_order _ (mean_ic y)).
Qed.

(** Aggregation loses, repeats and mixes nothing: there is one result per
    signal and horizon that occurs, computed from exactly the metrics of that
    signal and horizon in the order they came; the fold counts add up to the
    number of metrics; and when no mean is missing the results come with
    falling mean correlation. *)
Theorem aggregate_groups `{StdSort} per_fold : exists keys,
  NoDup keys /\ (forall k, k ∈ keys <-> exists m, m ∈ per_fold /\ key_of m = k) /\
  (aggregate per_fold ≡ₚ map (fun k => aggregate_one k (with_key k per_fold)) keys) /\
  sum_list (map ag_n_folds (aggregate per_fold)) = length per_fold /\
  (Forall (fun a => is_number (mean_ic a)) (aggregate per_fold) ->
   StronglySorted (fun a b => dlt (mean_ic a) (mean_ic b) = false) (aggregate per_fold)).
Proof.
  destruct (group_all_ok per_fold) as [Hs Hi Hc]. exists (map fst (group_all per_fold)). unfold aggregate. split_and!.
  - clear -Hs. induction Hs as [|[k items] g Hs IH Hf]; cbn; [constructor|]. constructor; [|done].
    intros Hin. apply list_elem_of_fmap in Hin as ([? j] & -> & Hj). rewrite Forall_forall in Hf. specialize (Hf _ Hj).
    unfold group_order in Hf. cbn in Hf. by rewrite key_less_irrefl in Hf.
  - apply group_all_keys.
  - rewrite std_sort_perm, map_map. erewrite map_ext_in; [done|]. intros [k items] Hin. cbn.
    rewrite Forall_forall in Hi. apply list_elem_of_In, Hi in Hin. cbn in Hin. by rewrite Hin.
  - rewrite std_sort_perm, map_map. transitivity (length (concat (map snd (group_all per_fold)))); [|by rewrite group_all_concat].
    clear. induction (group_all per_fold) as [|[k items] g IH]; cbn; [done|]. rewrite length_app. unfold sum_list in IH. by rewrite <-IH.
  - intros Hn. apply (std_sort_sorted_on _ (fun a => is_number (mean_ic a)) _ _ better_ic_order). by rewrite std_sort_perm in Hn.
Qed.

(** ** Overfitting *)

Lemma max_element_spec l : forall x, Forall is_number (x :: l) ->
  max_element x l ∈ x :: l /\ forall y, y ∈ x :: l -> dlt (max_element x l) y = false.
Proof.
  unfold max_element. induction l as [|z l IH] using rev_ind; intros x Hn.
  { split; [by apply list_elem_of_here|]. intros y ->%list_elem_of_singleton. inversion_clear Hn. by apply dlt_irrefl. }
  rewrite fold_left_app. cbn [fold_left]. rewrite app_comm_cons in Hn. apply Forall_app in Hn as [Hn Hz]. rewrite Forall_singleton in Hz.
  destruct (IH x Hn) as [Hin Hmax]. set (m := fold_left _ l x) in *. rewrite Forall_forall in Hn. pose proof (Hn _ Hin) as Hm.
  rewrite app_comm_cons. destruct (dlt m z) eqn:E.
  - split; [apply elem_of_app; right; by apply list_elem_of_singleton|]. intros y [Hy| ->%list_elem_of_singleton]%elem_of_app.
    + apply (so_negtrans _ _ dlt_order y m z); auto. by apply (so_asym _ _ dlt_order).
    + by apply dlt_irrefl.
  - split; [apply elem_of_app; by left|]. intros y [Hy| ->%list_elem_of_singleton]%elem_of_app; [auto|done].
Qed.

(** Some in-sample score beats every out-of-sample score. *)
Definition overfits (f : list double * list double) : bool := existsb (fun x => forallb (fun y => dlt y x) f.2) f.1.
Definition compared (f : list double * list double) : bool := negb (bool_decide (f.1 = [])) && negb (bool_decide (f.2 = [])).

Lemma best_beats x is_scores y oos_scores : Forall is_number (x :: is_scores) -> Forall is_number (y :: oos_scores) ->
  dgt (max_element x is_scores) (max_element y oos_scores) = overfits (x :: is_scores, y :: oos_scores).
Proof.
  intros Hx Hy. destruct (max_element_spec _ _ Hx) as [Ix Mx], (max_element_spec _ _ Hy) as [Iy My]. rewrite Forall_forall in Hx, Hy.
  apply eq_true_iff_eq. unfold overfits, dgt. cbn [fst snd]. rewrite existsb_exists. fold (dlt (max_element y oos_scores) (max_element x is_scores)). split.
  - intros Hlt. exists (max_element x is_scores). split; [by apply list_elem_of_In|]. apply forallb_forall. intros z Hz%list_elem_of_In.
    destruct (dlt z (max_element x is_scores)) eqn:E; [done|]. rewrite <-Hlt. symmetry. apply (so_negtrans _ _ dlt_order _ z); auto.
  - intros (z & Hz%list_elem_of_In & Hall). rewrite forallb_forall in Hall. specialize (Hall _ (proj1 (list_elem_of_In _ _) Iy)).
    destruct (dlt (max_element y oos_scores) (max_element x is_scores)) eqn:E; [done|]. rewrite <-Hall.
    symmetry. apply (so_negtrans _ _ dlt_order _ (max_element x is_scores)); auto.
Qed.

(** Where no score is missing, the folds compared are those with scores on
    both sides, a fold counts as overfit exactly when some in-sample score beats
    every out-of-sample score, and the probability is the quotient of the two. *)
Theorem pbo_counts is_scores oos_scores : length is_scores = length oos_scores ->
  Forall (Forall is_number) is_scores -> Forall (Forall is_number) oos_scores ->
  let out := compute_pbo is_scores oos_scores in
  let folds := List.filter compared (zip is_scores oos_scores) in
  n_comparisons out = length folds /\ n_overfit out = length (List.filter overfits folds) /\ (n_overfit out <= n_comparisons out)%nat /\
  (folds <> [] -> pbo_probability out = ddiv (of_Z (Z.of_nat (n_overfit out))) (of_Z (Z.of_nat (n_comparisons out)))).
Proof.
  intros Hl Hi Ho out folds.
  assert (forall fs acc, Forall (fun f => Forall is_number f.1 /\ Forall is_number f.2) fs ->
    let r := fold_left pbo_step fs acc in
    n_comparisons r = (n_comparisons acc + length (List.filter compared fs))%nat /\
    n_overfit r = (n_overfit acc + length (List.filter overfits (List.filter compared fs)))%nat) as Hfold.
  { induction fs as [|[a b] fs IH]; intros acc Hfs; [cbn; lia|]. apply Forall_cons in Hfs as [[Ha Hb] Hfs]. cbn [fst snd] in Ha, Hb.
    cbn [fold_left]. destruct (IH (pbo_step acc (a, b)) Hfs) as [-> ->]. destruct a as [|x a], b as [|y b]; try (cbn; lia).
    change (List.filter compared ((x :: a, y :: b) :: fs)) with ((x :: a, y :: b) :: List.filter compared fs).
    cbn -[overfits]. rewrite (best_beats x a y b Ha Hb). destruct (overfits _); cbn; lia. }
  assert (length (List.filter overfits folds) <= length folds)%nat as Hle by apply List.filter_length_le.
  unfold out, compute_pbo. rewrite <-Hl, Nat.eqb_refl. destruct (Nat.eqb_spec (length is_scores) 0) as [E|_].
  { destruct is_scores; [|done]. cbn. split_and!; try done. }
  cbn [negb orb]. destruct (Hfold (zip is_scores oos_scores) pbo_default) as [Hc Hv].
  { apply Forall_forall. intros [a b] Hab. rewrite Forall_forall in Hi, Ho. split; [apply Hi|apply Ho]; cbn.
    - by eapply elem_of_zip_l.
    - by eapply elem_of_zip_r. }
  cbn [pbo_default n_comparisons n_overfit Nat.add] in Hc, Hv. fold folds in Hc, Hv.
  destruct (Nat.ltb_spec 0 (n_comparisons (fold_left pbo_step (zip is_scores oos_scores) pbo_default))) as [Hpos|Hz]; cbn; rewrite ?Hc, ?Hv; split_and!; try done.
  intros Hne. destruct folds; [done|]. cbn in Hc. lia.
Qed.

(** ** At concrete inputs *)

Definition w_signal : list double := map of_Z [3; 1; 4; 10; 5; 9; 2; 6; 8; 7].
Definition w_labels : list double := map of_Z [30; 10; 40; 100; 50; 90; 20; 60; 80; 70].

#[local] Instance double_eq_dec : EqDecision double.
Proof. unfold EqDecision, Decision. decide equality; apply (decide (_ = _)). Defined.
#[local] Instance Pair_eq_dec : EqDecision Pair.
Proof. solve_decision. Defined.

Definition no_ties_b (pairs : list Pair) : bool :=
  forallb (fun a => forallb (fun b => pair_less a b || pair_less b a || bool_decide (a = b)) pairs) pairs.

Lemma no_ties_b_ok pairs : no_ties_b pairs = true -> no_ties pairs.
Proof.
  unfold no_ties_b. rewrite forallb_forall. intros H a b Ha%list_elem_of_In Hb%list_elem_of_In H1 H2.
  specialize (H a Ha). rewrite forallb_forall in H. specialize (H b Hb). rewrite H1, H2 in H. by apply bool_decide_eq_true in H.
Qed.

(** A second sort that keeps its promise. *)
#[local] Program Instance stable_std_sort : StdSort := {
  std_sort := fun A lt l => insertion_sort lt (reverse l);
}.
Next Obligation. intros A lt l. cbn. rewrite (@std_sort_perm insertion_std_sort). apply reverse_Permutation. Qed.
Next Obligation. intros A P lt l Hsw Hl. apply (@std_sort_sorted_on insertion_std_sort A P lt); [done|]. by rewrite reverse_Permutation. Qed.

Lemma quintile_spread_determined_witness :
  @quintile_spread insertion_std_sort w_signal w_labels = @quintile_spread stable_std_sort w_signal w_labels /\
  @quintile_spread insertion_std_sort w_signal w_labels = of_Z 80.
Proof.
  split; [|vm_compute; reflexivity]. apply (quintile_spread_determined insertion_std_sort stable_std_sort w_signal w_labels).
  apply no_ties_b_ok. vm_compute. reflexivity.
Defined.

Lemma pbo_counts_witness :
  let is_scores := [map of_Z [3; 2]; map of_Z [1; 2]; []] in
  let oos_scores := [map of_Z [1; 0]; map of_Z [4]; map of_Z [1]] in
  let out := compute_pbo is_scores oos_scores in
  (n_comparisons out = 2%nat /\ n_overfit out = 1%nat) /\
  n_overfit out = length (List.filter overfits (List.filter compared (zip is_scores oos_scores))).
Proof.
  intros is_scores oos_scores out. split; [done|].
  apply (pbo_counts is_scores oos_scores eq_refl); repeat (apply Forall_cons; split; [|]); repeat (done || apply Forall_nil || apply Forall_cons; split).
Defined.

Example aggregate_groups_metrics :
  let m name h ic := mkMetrics name h 0 (of_Z ic) dzero dzero 1 in
  map (fun a => (ag_signal a, ag_horizon_ns a, ag_n_folds a, mean_ic a))
    (aggregate [m "ofi" 5 1; m "vpin" 5 4; m "ofi" 1 7; m "ofi" 5 3]) =
  [("ofi"%string, 1, 1%nat, of_Z 7); ("vpin"%string, 5, 1%nat, of_Z 4); ("ofi"%string, 5, 2%nat, of_Z 2)].
Proof. vm_compute. reflexivity. Qed.
