(* ===== verification/Capacity.v ===== *)
(** * Costs, capacity and ablation (src/research/alpha_lab: cost_model, capacity_sweep, deflated_sharpe, strategy_bridge)

    A signal is turned into positions, its returns are charged a cost, and the
    ratio of mean and deviation of the returns is computed for growing
    participation. The bridge does the same per test fold and for variants of
    the signal with a component removed.

    Over the folds of purged_cv.cpp every row is scored exactly once, with its
    own label ([folds_score_every_row_once]). The capacity ceiling is the
    largest participation that still pays ([capacity_ceiling_spec]). [std::erf],
    [std::log] and [std::pow] are parameters. *)

From stdpp Require Import strings.
From S2P Require Import Prelude Types Crc OrderTable Levels OrderBook Nbbo EventBytes Journal EventStore NbboJournal Spsc Spmc Floats Features AlphaLab PurgedCv Signals Evaluator.

#[local] Open Scope list_scope.
#[local] Open Scope Z_scope.

(** ** Costs (cost_model.cpp) *)

Record CostModelConfig := mkCosts { half_spread_bps : double; impact_lambda : double; default_spread : double }.
Definition cost_config_default : CostModelConfig := mkCosts (of_Z 5) (dlit 1 1000000) (dlit 1 100).

Definition crossing_cost (cfg : CostModelConfig) (spread quantity : double) : double :=
  let half_spread := dadd (dmul (dlit 1 2) spread) (if dle spread dzero then default_spread cfg else dzero) in
  let bps := dmul (half_spread_bps cfg) (dlit 1 10000) in
  dmul quantity (dadd half_spread bps).

Definition impact_cost (cfg : CostModelConfig) (quantity : double) : double := dmul (impact_lambda cfg) (dabs quantity).

Definition net_return (cfg : CostModelConfig) (gross_return spread quantity : double) : double :=
  let cost := dadd (crossing_cost cfg spread quantity) (impact_cost cfg quantity) in
  dsub gross_return cost.

Definition calibrate_lambda_from_spreads (cfg : CostModelConfig) (spreads : list double) : double :=
  let positive := List.filter (fun s => dgt s dzero) spreads in
  if bool_decide (positive = []) then impact_lambda cfg
  else dmul (ddiv (accumulate positive) (of_Z (Z.of_nat (length positive)))) (dlit 1 10000000).

(** ** Ratios (deflated_sharpe.cpp) *)

Definition sharpe_ratio (returns : list double) : double :=
  if (length returns <? 2)%nat then dzero else
  let mean := mean_of returns in
  let var := variance_of mean returns in
  if dle var dzero then dzero else ddiv mean (dsqrt var).

(** [dadd m (d * d * ... * d)] over the distances from the mean, over the count. *)
Definition moment (power : double -> double) (mean : double) (values : list double) : double :=
  ddiv (fold_left (fun m v => dadd m (power (dsub v mean))) values dzero) (of_Z (Z.of_nat (length values))).

Definition square (d : double) : double := dmul d d.
Definition cube (d : double) : double := dmul (dmul d d) d.
Definition fourth (d : double) : double := dmul (dmul (dmul d d) d) d.

Section ratios.
Context (erf log : double -> double) (pow : double -> double -> double).

Definition skewness (values : list double) : double :=
  if (length values <? 3)%nat then dzero else
  let mean := mean_of values in
  let m2 := moment square mean values in
  let m3 := moment cube mean values in
  if dle m2 dzero then dzero else ddiv m3 (pow m2 (dlit 3 2)).

Definition kurtosis_excess (values : list double) : double :=
  if (length values <? 4)%nat then dzero else
  let mean := mean_of values in
  let m2 := moment square mean values in
  let m4 := moment fourth mean values in
  if dle m2 dzero then dzero else dsub (ddiv m4 (dmul m2 m2)) (of_Z 3).

Definition normal_cdf (x : double) : double := dmul (dlit 1 2) (dadd (of_Z 1) (erf (ddiv x (dsqrt (of_Z 2))))).

Definition euler_mascheroni : double := dlit 5772156649015329 10000000000000000.

Definition expected_max_sharpe (n_trials : Z) (variance : double) : double :=
  if n_trials <=? 1 then dzero else
  let n := of_Z n_trials in
  let z1 := dsqrt variance in
  let gamma := euler_mascheroni in
  let root := dsqrt (dmul (of_Z 2) (log n)) in
  dmul z1 (dadd (dmul (dsub (of_Z 1) gamma) root) (ddiv gamma root)).

Record DeflatedSharpeInput := mkDsrIn {
  observed_sharpe : double; n_trials : Z; n_observations : Z; in_skewness : double; in_kurtosis : double; sharpe_std_error : double;
}.
Record DeflatedSharpeResult := mkDsr { deflated_sharpe : double; p_value : double; dsr_expected_max : double }.

Definition compute_deflated_sharpe (i : DeflatedSharpeInput) : DeflatedSharpeResult :=
  let n := of_Z (Z.max 2 (n_observations i)) in
  let sr_std := if dgt (sharpe_std_error i) dzero then sharpe_std_error i else ddiv (of_Z 1) (dsqrt n) in
  let sr_var := dmul sr_std sr_std in
  let adjustment :=
    dadd (dmul (ddiv (in_skewness i) (of_Z 6)) (observed_sharpe i))
      (dmul (dmul (ddiv (dsub (in_kurtosis i) (of_Z 3)) (of_Z 24)) (observed_sharpe i)) (observed_sharpe i)) in
  let sr_star := dmul (dsub (observed_sharpe i) adjustment) (dsqrt (ddiv (dsub n (of_Z 1)) (dsub n (of_Z 2)))) in
  let expected := expected_max_sharpe (Z.max 1 (n_trials i)) sr_var in
  let z := ddiv (dsub sr_star expected) sr_std in
  mkDsr z (dsub (of_Z 1) (normal_cdf z)) expected.
End ratios.

(** ** Capacity (capacity_sweep.cpp) *)

Record CapacityPoint := mkPoint { participation : double; gross_sharpe : double; net_sharpe : double; mean_return : double }.

Record CapacitySweepConfig := mkSweep { participation_grid : list double; costs : CostModelConfig }.
Definition sweep_config_default : CapacitySweepConfig :=
  mkSweep [dlit 1 100; dlit 5 100; dlit 10 100; dlit 25 100; dlit 50 100; of_Z 1] cost_config_default.

Definition sign_of (s : double) : double := if dgt s dzero then of_Z 1 else if dlt s dzero then of_Z (-1) else dzero.

(** The gross and net returns of the rows from index [i] on. *)
Fixpoint returns_loop (cfg : CapacitySweepConfig) (participation : double) (spreads : list double) (i : nat) (signal labels : list double) : list (double * double) :=
  match signal, labels with
  | s :: signal, l :: labels =>
      let rest := returns_loop cfg participation spreads (S i) signal labels in
      if is_nan s || is_nan l then rest else
      let position := dmul (sign_of s) participation in
      let gross := dmul position l in
      let spread := default (default_spread (costs cfg)) (spreads !! i) in
      let net := net_return (costs cfg) gross spread position in
      (gross, net) :: rest
  | _, _ => []
  end.

Definition sweep_point (cfg : CapacitySweepConfig) (signal labels spreads : list double) (participation : double) : CapacityPoint :=
  let returns := returns_loop cfg participation spreads 0 signal labels in
  let gross_returns := map fst returns in
  mkPoint participation (sharpe_ratio gross_returns) (sharpe_ratio (map snd returns))
    (if bool_decide (gross_returns = []) then dzero else mean_of gross_returns).

Definition sweep (cfg : CapacitySweepConfig) (signal labels spreads : list double) : list CapacityPoint :=
  map (sweep_point cfg signal labels spreads) (participation_grid cfg).

Definition capacity_ceiling (curve : list CapacityPoint) : double :=
  fold_left (fun ceiling pt => if dgt (net_sharpe pt) dzero then std_max ceiling (participation pt) else ceiling) curve dzero.

(** ** The bridge (strategy_bridge.cpp) *)

(** An index outside is skipped, or has no label. *)
Definition subset (values : list double) (indices : list nat) : list double := omap (fun idx => values !! idx) indices.

Definition fold_labels (rows : list LabeledFeatureRow) (indices : list nat) (horizon_index : nat) : list double :=
  map (fun idx => default kMissingLabel (row ← rows !! idx; forward_mid_returns row !! horizon_index)) indices.

Definition proxy_sharpe (signal labels : list double) : double :=
  sharpe_ratio (map (fun p => dmul (sign_of (pr_signal p)) (pr_label p)) (valid_pairs signal labels)).

Record StrategyBridgeResult := mkBridgeResult { br_signal : string; br_fold_id : nat; br_sharpe : double; br_fills : nat }.

Definition evaluate_top_signal (name : string) (rows : list LabeledFeatureRow) (folds : list CvFold) (signal_values : list double) : list StrategyBridgeResult :=
  map (fun fold =>
    let test_signal := subset signal_values (test_indices fold) in
    let test_labels := fold_labels rows (test_indices fold) 0 in
    mkBridgeResult name (fold_id fold) (proxy_sharpe test_signal test_labels) (length test_signal / 100)) folds.

Record AblationRow := mkAblation { variant : string; ab_mean_ic : double; ab_mean_quintile_spread : double; ab_net_sharpe : double }.

(** [top_signal.signal.find(part) != npos] *)
Definition name_contains (part name : string) : bool := match String.index 0 part name with Some _ => true | None => false end.

(** The signal with its first [n] values put to zero. *)
Definition zero_first (n : nat) (signal : list double) : list double :=
  replicate (Nat.min n (length signal)) dzero ++ drop n signal.

Section bridge.
Context `{StdSort}.

Definition add_variant (rows : list LabeledFeatureRow) (folds : list CvFold) (name : string) (signal : list double) : list AblationRow :=
  let per_fold f := fold_left (fun sum fold =>
    dadd sum (f (subset signal (test_indices fold)) (fold_labels rows (test_indices fold) 0))) folds dzero in
  let n := of_Z (Z.of_nat (length folds)) in
  if (length folds =? 0)%nat then [] else
  [mkAblation name (ddiv (per_fold pearson_ic) n) (ddiv (per_fold quintile_spread) n) (ddiv (per_fold proxy_sharpe) n)].

Definition ablate (part : string) (top_signal : SignalAggregate) (rows : list LabeledFeatureRow) (signal_values : list double) : list double :=
  if name_contains part (ag_signal top_signal) then zero_first (length rows) signal_values else signal_values.

Definition run_ablation (top_signal : SignalAggregate) (rows : list LabeledFeatureRow) (folds : list CvFold) (signal_values : list double) (baseline_sharpe : double) : list AblationRow :=
  let spreads := map (fun row => of_Z (lr_nbbo_ask_price row -32 lr_nbbo_bid_price row)) rows in
  let labels := fold_labels rows (seq 0 (length rows)) 0 in
  let curve := sweep sweep_config_default signal_values labels spreads in
  add_variant rows folds "full_signal" signal_values ++
  add_variant rows folds "ablate_ofi_component" (ablate "ofi" top_signal rows signal_values) ++
  add_variant rows folds "ablate_microprice_component" (ablate "microprice" top_signal rows signal_values) ++
  [mkAblation "no_cost_model" (mean_ic top_signal) (mean_quintile_spread top_signal)
     match curve with pt :: _ => gross_sharpe pt | [] => dzero end;
   mkAblation "phase0_ofi_baseline" (mean_ic top_signal) (mean_quintile_spread top_signal) baseline_sharpe].
End bridge.

(** ** Every row is scored once *)

Lemma subset_in_range values indices : Forall (fun i => i < length values)%nat indices ->
  subset values indices = map (fun i => nth i values dzero) indices.
Proof.
  unfold subset. induction 1 as [|i indices Hi _ IH]; [done|]. cbn.
  destruct (lookup_lt_is_Some_2 values i Hi) as [v Hv]. rewrite Hv. cbn. rewrite IH. f_equal. symmetry. by apply nth_lookup_Some.
Qed.

Lemma map_nth_seq {A} (l : list A) d : map (fun i => nth i l d) (seq 0 (length l)) = l.
Proof.
  apply list_eq. intros i. rewrite list_lookup_fmap. destruct (decide (i < length l)%nat) as [Hi|Hi].
  - rewrite lookup_seq_lt by done. cbn. destruct (lookup_lt_is_Some_2 l i Hi) as [v Hv]. rewrite Hv. f_equal. by apply nth_lookup_Some.
  - rewrite lookup_seq_ge by lia. by rewrite lookup_ge_None_2 by lia.
Qed.

(** The label of a row over the horizon. *)
Definition label_of (horizon_index : nat) (row : LabeledFeatureRow) : double :=
  default kMissingLabel (forward_mid_returns row !! horizon_index).

(** What a row earns when it is traded on the sign of its signal for the first
    horizon: nothing when one of the two is missing. *)
Definition row_return (s : double) (row : LabeledFeatureRow) : option double :=
  let l := label_of 0 row in if is_nan s || is_nan l then None else Some (dmul (sign_of s) l).

Definition index_return (rows : list LabeledFeatureRow) (signal_values : list double) (i : nat) : option double :=
  s ← signal_values !! i; row ← rows !! i; row_return s row.

Lemma omap_concat {A B} (f : A -> option B) ls : omap f (concat ls) = concat (map (omap f) ls).
Proof. induction ls as [|l ls IH]; [done|]. cbn [concat map]. by rewrite omap_app, IH. Qed.

Lemma omap_map {A B C} (f : A -> B) (g : B -> option C) (l : list A) : omap g (f <$> l) = omap (fun x => g (f x)) l.
Proof. induction l as [|x l IH]; [done|]. cbn. by rewrite IH. Qed.

(** A fold's Sharpe ratio is that of what its test rows earn. *)
Lemma proxy_sharpe_rows rows signal_values indices : length signal_values = length rows -> Forall (fun i => i < length rows)%nat indices ->
  proxy_sharpe (subset signal_values indices) (fold_labels rows indices 0) = sharpe_ratio (omap (index_return rows signal_values) indices).
Proof.
  intros Hl Hi. unfold proxy_sharpe. f_equal. rewrite subset_in_range by (by rewrite Hl). unfold fold_labels.
  induction Hi as [|i indices Hi _ IH]; [done|]. cbn [map valid_pairs omap list_omap]. unfold index_return at 1, row_return, label_of.
  destruct (lookup_lt_is_Some_2 signal_values i) as [s Hs]; [lia|]. destruct (lookup_lt_is_Some_2 rows i Hi) as [row Hrow].
  rewrite Hs, Hrow, (nth_lookup_Some _ _ _ _ Hs). cbn [mbind option_bind]. destruct (_ || _); [exact IH|]. cbn [map pr_signal pr_label]. by rewrite IH.
Qed.

(** All rows by their indices are all rows. *)
Lemma index_returns_all rows : forall signal_values, length signal_values = length rows ->
  omap (index_return rows signal_values) (seq 0 (length rows)) = omap (fun p => row_return p.1 p.2) (zip signal_values rows).
Proof.
  induction rows as [|row rows IH]; intros [|s signal_values] Hl; try done. injection Hl as Hl. cbn [length seq zip zip_with omap list_omap].
  rewrite <-(IH _ Hl), <-fmap_S_seq, omap_map. done.
Qed.

(** C31. The folds of the purged cross-validation score every row exactly once:
    [evaluate_top_signal] returns, per fold in order, its name and number, the
    Sharpe ratio of what the fold's test rows earn (the sign of a row's signal
    times its own label, for the rows that have both) and the fills of their
    number; and what the test rows of all folds earn is, taken together, what
    all rows earn. *)
Theorem folds_score_every_row_once cfg rows signal_values name : (2 <= n_folds cfg)%nat -> length signal_values = length rows ->
  let earned fold := omap (index_return rows signal_values) (test_indices fold) in
  evaluate_top_signal name rows (split cfg rows) signal_values =
    map (fun fold => mkBridgeResult name (fold_id fold) (sharpe_ratio (earned fold)) (length (test_indices fold) / 100)) (split cfg rows) /\
  concat (map earned (split cfg rows)) ≡ₚ omap (fun p => row_return p.1 p.2) (zip signal_values rows).
Proof.
  intros Hn Hl earned. pose proof (split_concat cfg rows Hn) as Hc. pose proof (time_order_perm rows) as Hp. split.
  - assert (Forall (fun i => i < length rows)%nat (concat (map test_indices (split cfg rows)))) as Hi by (rewrite Hc, Hp; apply Forall_seq; lia).
    clear Hc Hp. unfold evaluate_top_signal. apply map_ext_in. intros fold Hf%list_elem_of_In. apply Forall_concat in Hi.
    rewrite Forall_forall in Hi. specialize (Hi (test_indices fold) ltac:(by apply list_elem_of_fmap_2)). rewrite proxy_sharpe_rows by done. f_equal.
    rewrite subset_in_range by (by rewrite Hl). by rewrite length_map.
  - unfold earned. rewrite <-(map_map test_indices), <-omap_concat, Hc, Hp. by rewrite index_returns_all.
Qed.

(** ** The ceiling *)

Definition pays (pt : CapacityPoint) : bool := dgt (net_sharpe pt) dzero.

(** The ceiling is nothing or the participation of a point that pays, and
    no point that pays has a larger one. *)
Theorem capacity_ceiling_spec curve : Forall (fun pt => is_number (participation pt)) curve ->
  (capacity_ceiling curve = dzero \/ exists pt, pt ∈ curve /\ pays pt = true /\ capacity_ceiling curve = participation pt) /\
  forall pt, pt ∈ curve -> pays pt = true -> dlt (capacity_ceiling curve) (participation pt) = false.
Proof.
  unfold capacity_ceiling. induction curve as [|pt curve IH] using rev_ind; intros Hn.
  { split; [by left|]. intros pt Hpt. by apply elem_of_nil in Hpt. }
  apply Forall_app in Hn as [Hn Hpt]. rewrite Forall_singleton in Hpt. specialize (IH Hn). rewrite fold_left_app. cbn [fold_left].
  set (c := fold_left _ curve dzero) in *. destruct IH as [Hfrom Hmax].
  assert (is_number c) as Hc by (destruct Hfrom as [->|(q & Hq & _ & ->)]; [done|]; rewrite Forall_forall in Hn; auto).
  rewrite Forall_forall in Hn. fold (pays pt). destruct (pays pt) eqn:Ep.
  - unfold std_max. destruct (dlt c (participation pt)) eqn:El.
    + split; [right; exists pt; split; [apply elem_of_app; right; by apply list_elem_of_singleton|done]|].
      intros q [Hq| ->%list_elem_of_singleton]%elem_of_app Hqp; [|by apply dlt_irrefl].
      apply (so_negtrans _ _ dlt_order _ c); auto. by apply (so_asym _ _ dlt_order).
    + split; [destruct Hfrom as [->|(q & Hq & H)]; [by left|right; exists q; split; [apply elem_of_app; by left|done]]|].
      intros q [Hq| ->%list_elem_of_singleton]%elem_of_app Hqp; [auto|done].
  - split; [destruct Hfrom as [->|(q & Hq & H)]; [by left|right; exists q; split; [apply elem_of_app; by left|done]]|].
    intros q [Hq| ->%list_elem_of_singleton]%elem_of_app Hqp; [auto|congruence].
Qed.

(** ** The sign of the cost *)

Lemma round_neg s m e l : binary_round_aux kPrec kEmax (negb s) m e l = dneg (binary_round_aux kPrec kEmax s m e l).
Proof.
  unfold binary_round_aux. destruct (shr_fexp kPrec kEmax m e l) as [r1 e1]. destruct (shr_fexp kPrec kEmax _ e1 loc_Exact) as [r2 e2].
  destruct (shr_m r2); cbn; try done. by destruct (_ <=? _).
Qed.

Lemma dmul_neg_l x y : dmul (dneg x) y = dneg (dmul x y).
Proof.
  destruct x as [s|s| |s m e], y as [s'|s'| |s' m' e']; cbn; rewrite ?negb_xorb_l; try done. rewrite <-negb_xorb_l. apply round_neg.
Qed.

(** The crossing cost is odd in the quantity: a short position is paid for
    crossing the spread what a long one of the same size is charged. *)
Lemma crossing_cost_odd cfg spread quantity : crossing_cost cfg spread (dneg quantity) = dneg (crossing_cost cfg spread quantity).
Proof. apply dmul_neg_l. Qed.

Example short_position_profits : dgt (net_return cost_config_default dzero (of_Z 2) (of_Z (-1))) dzero = true /\
  dlt (net_return cost_config_default dzero (of_Z 2) (of_Z 1)) dzero = true.
Proof. split; vm_compute; reflexivity. Qed.

(** ** At concrete inputs *)

Definition w_labelled : list LabeledFeatureRow := map (fun row => set_labels [of_Z (lr_exchange_ts_ns row)] row) cv_rows.
Definition w_values : list double := [of_Z 1; of_Z (-2); of_Z 3; kMissingLabel; of_Z 5; of_Z (-6); of_Z 7].

Lemma folds_score_every_row_once_witness :
  (2 <= n_folds cv_config)%nat /\
  concat (map (fun fold => omap (index_return w_labelled w_values) (test_indices fold)) (split cv_config w_labelled))
    ≡ₚ [of_Z 50; of_Z (-10); of_Z 20; of_Z 30; of_Z (-60); of_Z 35].
Proof.
  split; [cbn; lia|]. exact (proj2 (folds_score_every_row_once cv_config w_labelled w_values "ofi" ltac:(cbn; lia) eq_refl)).
Defined.

Definition w_curve : list CapacityPoint :=
  [mkPoint (dlit 1 100) (of_Z 1) (of_Z 1) dzero; mkPoint (dlit 5 100) (of_Z 1) (of_Z 1) dzero; mkPoint (dlit 10 100) (of_Z 1) (of_Z (-1)) dzero].

Lemma capacity_ceiling_spec_witness :
  (capacity_ceiling w_curve = dzero \/ exists pt, pt ∈ w_curve /\ pays pt = true /\ capacity_ceiling w_curve = participation pt) /\
  dlt (capacity_ceiling w_curve) (dlit 5 100) = false.
Proof.
  destruct (capacity_ceiling_spec w_curve) as [H1 H2].
  - repeat (apply Forall_cons; split; [vm_compute; reflexivity|]). apply Forall_nil. exact I.
  - split; [exact H1|]. apply (H2 (mkPoint (dlit 5 100) (of_Z 1) (of_Z 1) dzero)); [|vm_compute; reflexivity].
    apply list_elem_of_further, list_elem_of_here.
Defined.

(** Removing a component the name does not contain changes nothing. *)
Example ablation_rows :
  let agg := mkAggregate "vpin" 5 dzero dzero dzero dzero 3 in
  map variant (run_ablation agg w_labelled (split cv_config w_labelled) w_values dzero) =
    ["full_signal"; "ablate_ofi_component"; "ablate_microprice_component"; "no_cost_model"; "phase0_ofi_baseline"]%string /\
  ablate "ofi" agg w_labelled w_values = w_values /\ name_contains "ofi" "ofi_zscore" = true.
Proof. split_and!; vm_compute; reflexivity. Qed.

(** With two observations or fewer the correction divides by zero. *)
Example deflated_two_observations erf log :
  deflated_sharpe (compute_deflated_sharpe erf log (mkDsrIn dzero 1 2 dzero (of_Z 3) (of_Z 1))) = S754_nan.
Proof. vm_compute. reflexivity. Qed.
