(* ===== verification/Bootstrap.v ===== *)
(** * The block bootstrap (src/research/metrics/bootstrap.cpp)

    The p-value of a positive mean: the share of resampled series whose mean is
    not positive. A resample strings together blocks of the series, each read
    circularly from a random start. The draws of the generator are a parameter:
    the [k]-th call of [start_dist(rng)] yields [draw k].

    [bootstrap_resamples]: every loop ends, each iteration uses as many fresh
    draws as it needs blocks, and place [i] of a resample holds the element of
    the series that block [i / b] and offset [i mod b] say. *)

From S2P Require Import Prelude Floats.

#[local] Open Scope list_scope.
#[local] Open Scope nat_scope.

Record BlockBootstrapResult := mkBootstrap {
  observed_mean : double; p_value_greater_than_zero : double; bs_iterations : nat; bs_block_size : nat;
}.
Definition bootstrap_default : BlockBootstrapResult := mkBootstrap dzero (of_Z 1) 0 0.

(** [std::accumulate] over the number of elements. *)
Definition average (l : list double) : double := ddiv (fold_left dadd l dzero) (of_Z (Z.of_nat (length l))).

Section bootstrap.
Context (draw : nat -> nat).

(** The inner loop, [count] elements of the block to go. *)
Fixpoint block_loop (series : list double) (start i count : nat) (sample : list double) : list double :=
  match count with
  | O => sample
  | S count =>
      if length sample <? length series
      then block_loop series start (S i) count (sample ++ [nth ((start + i) mod length series) series dzero])
      else sample
  end.

(** [while (sample.size() < series.size())], from the [k]-th draw on. *)
Fixpoint sample_loop (fuel : nat) (series : list double) (block_size k : nat) (sample : list double) : option (list double * nat) :=
  if length sample <? length series then
    match fuel with
    | O => None
    | S fuel => sample_loop fuel series block_size (S k) (block_loop series (draw k) 0 block_size sample)
    end
  else Some (sample, k).

Fixpoint bootstrap_loop (series : list double) (block_size iterations k le_zero : nat) : option nat :=
  match iterations with
  | O => Some le_zero
  | S iterations =>
      '(sample, k) ← sample_loop (length series) series block_size k [];
      bootstrap_loop series block_size iterations k (if dle (average sample) dzero then S le_zero else le_zero)
  end.

Definition block_bootstrap_mean_pvalue (series : list double) (block_size iterations : nat) : option BlockBootstrapResult :=
  if bool_decide (series = []) || (iterations =? 0) then Some (mkBootstrap dzero (of_Z 1) iterations 0) else
  let block_size := Nat.max 1 block_size in
  let block_size := if length series <? block_size then length series else block_size in
  le_zero ← bootstrap_loop series block_size iterations 0 0;
  Some (mkBootstrap (average series) (ddiv (of_Z (Z.of_nat le_zero)) (of_Z (Z.of_nat iterations))) iterations block_size).

(** ** The resamples *)

Section resample.
Context (series : list double) (b : nat).
Let n := length series.

(** Blocks of a resample. *)
Definition blocks : nat := (n + b - 1) / b.

(** Place [i] of the resample that starts at the [k]-th draw. *)
Definition resampled (k i : nat) : double := nth ((draw (k + i / b) + i mod b) mod n) series dzero.
Definition resample (k : nat) : list double := map (resampled k) (seq 0 n).

Lemma block_loop_map start count : forall i sample, length sample <= n ->
  block_loop series start i count sample = sample ++ map (fun j => nth ((start + j) mod n) series dzero) (seq i (Nat.min count (n - length sample))).
Proof.
  induction count as [|count IH]; intros i sample Hs; [cbn; by rewrite app_nil_r|]. cbn [block_loop]. fold n.
  destruct (Nat.ltb_spec (length sample) n) as [Hl|Hl].
  - rewrite IH by (rewrite length_app; cbn; lia). rewrite <-app_assoc. f_equal. rewrite length_app. cbn [length].
    replace (Nat.min (S count) (n - length sample)) with (S (Nat.min count (n - (length sample + 1)))) by lia. done.
  - replace (n - length sample) with 0 by lia. rewrite Nat.min_0_r. cbn. by rewrite app_nil_r.
Qed.

Context (Hb : 0 < b).

Lemma blocks_enough m : m <= blocks -> n <= m * b -> m = blocks.
Proof. 
  unfold blocks. intros Hm Hn. enough ((n + b - 1) / b < S m) by lia. apply Nat.Div0.div_lt_upper_bound. nia.
Qed.

Lemma blocks_more m : m * b < n -> S m <= blocks.
Proof. intros Hm. unfold blocks. apply Nat.div_le_lower_bound; lia. Qed.

(** [m] blocks are there already. *)
Lemma sample_loop_from k : forall fuel m, m <= blocks -> n <= m + fuel ->
  sample_loop fuel series b (k + m) (map (resampled k) (seq 0 (Nat.min (m * b) n))) = Some (resample k, k + blocks).
Proof.
  induction fuel as [|fuel IH]; intros m Hm Hf; cbn [sample_loop]; rewrite length_map, length_seq; fold n.
  - destruct (Nat.ltb_spec (Nat.min (m * b) n) n) as [Hl|Hl]; [nia|]. rewrite Nat.min_r by lia. by rewrite (blocks_enough m) by lia.
  - destruct (Nat.ltb_spec (Nat.min (m * b) n) n) as [Hl|Hl]; [|rewrite Nat.min_r by lia; by rewrite (blocks_enough m) by lia].
    rewrite Nat.min_l by lia. rewrite block_loop_map by (rewrite length_map, length_seq; lia). rewrite length_map, length_seq.
    rewrite <-(IH (S m)) by (try apply blocks_more; lia). f_equal; [lia|]. cbn [Nat.mul].
    replace (Nat.min (b + m * b) n) with (m * b + Nat.min b (n - m * b)) by lia. rewrite seq_app, map_app. f_equal.
    rewrite Nat.add_0_l. set (c := Nat.min b (n - m * b)). apply list_eq. intros i. rewrite !list_lookup_fmap.
    destruct (decide (i < c)) as [Hi|Hi]; [|by rewrite !lookup_seq_ge by lia]. rewrite !lookup_seq_lt by done. cbn [fmap option_fmap option_map].
    unfold resampled. rewrite Nat.div_add_l, (Nat.div_small i b), Nat.add_0_r by lia.
    rewrite (Nat.add_comm (m * b) i), Nat.Div0.mod_add, (Nat.mod_small i b) by lia. done.
Qed.

Lemma sample_loop_resample k : sample_loop n series b k [] = Some (resample k, k + blocks).
Proof. rewrite <-(sample_loop_from k n 0) by lia. by rewrite Nat.add_0_r. Qed.

(** How many of the next [iterations] resamples have a mean that is not positive. *)
Definition not_positive (k iterations : nat) : nat :=
  length (filter (fun it => dle (average (resample (k + it * blocks))) dzero = true) (seq 0 iterations)).

Lemma not_positive_S k iterations : not_positive k (S iterations) =
  (if dle (average (resample k)) dzero then 1 else 0) + not_positive (k + blocks) iterations.
Proof.
  unfold not_positive. cbn [seq]. rewrite filter_cons, Nat.mul_0_l, Nat.add_0_r.
  assert (length (filter (fun it => dle (average (resample (k + it * blocks))) dzero = true) (seq 1 iterations)) =
          length (filter (fun it => dle (average (resample (k + blocks + it * blocks))) dzero = true) (seq 0 iterations))) as E.
  { rewrite <-fmap_S_seq, length_filter_map. f_equal. apply list_filter_iff. intros it. cbn. by rewrite Nat.add_assoc. }
  destruct (dle _ _); [rewrite decide_True by done|rewrite decide_False by done]; cbn [length]; by rewrite E.
Qed.

Lemma bootstrap_loop_counts iterations : forall k le_zero,
  bootstrap_loop series b iterations k le_zero = Some (le_zero + not_positive k iterations).
Proof.
  induction iterations as [|iterations IH]; intros k le_zero; [by rewrite Nat.add_0_r|]. cbn [bootstrap_loop]. fold n.
  rewrite sample_loop_resample. cbn [mbind option_bind]. rewrite IH, not_positive_S. f_equal. destruct (dle _ _); lia.
Qed.

End resample.
End bootstrap.

Lemma block_bootstrap_total draw series block_size iterations : exists r, block_bootstrap_mean_pvalue draw series block_size iterations = Some r.
Proof.
  unfold block_bootstrap_mean_pvalue. destruct (bool_decide_reflect (series = [])) as [|Hs]; [by eexists|]. destruct (_ || _); [by eexists|].
  assert (0 < length series) by (destruct series; [done|cbn; lia]).
  rewrite bootstrap_loop_counts; [by eexists|]. destruct (Nat.ltb_spec (length series) (Nat.max 1 block_size)); lia.
Qed.

(** On a series with at least one iteration the
    block size is brought between 1 and the length of the series, and the
    p-value is the share of the resamples whose mean is not positive, where
    resample [it] starts at draw [it * blocks] and its place [i] is the element
    of the series at offset [i mod b] of block [i / b], read circularly. *)
Theorem bootstrap_resamples draw series block_size iterations : series <> [] -> iterations <> 0 ->
  let n := length series in
  let b := Nat.min (Nat.max 1 block_size) n in
  block_bootstrap_mean_pvalue draw series block_size iterations =
    Some (mkBootstrap (average series)
            (ddiv (of_Z (Z.of_nat (not_positive draw series b 0 iterations))) (of_Z (Z.of_nat iterations))) iterations b) /\
  blocks series b * b < n + b /\ not_positive draw series b 0 iterations <= iterations.
Proof.
  intros Hs Hi n b. assert (0 < n) as Hn by (subst n; destruct series; [done|cbn; lia]). split_and!.
  - unfold block_bootstrap_mean_pvalue. rewrite bool_decide_false by done. destruct (Nat.eqb_spec iterations 0); [done|]. cbn [orb]. fold n.
    assert ((if n <? Nat.max 1 block_size then n else Nat.max 1 block_size) = b) as -> by (subst b; destruct (Nat.ltb_spec n (Nat.max 1 block_size)); lia).
    by rewrite bootstrap_loop_counts by lia.
  - unfold blocks. fold n. pose proof (Nat.Div0.div_mod (n + b - 1) b). assert (0 < b) by lia. nia.
  - unfold not_positive. etransitivity; [apply length_filter|]. by rewrite length_seq.
Qed.

(** A block as long as the series or longer: every resample is a rotation. *)
Lemma whole_block_rotates draw series k i : series <> [] -> i < length series ->
  resampled draw series (length series) k i = nth ((draw k + i) mod length series) series dzero.
Proof. intros Hs Hi. unfold resampled. by rewrite (Nat.div_small i), (Nat.mod_small i), Nat.add_0_r by done. Qed.

(** ** At a concrete input *)

Definition w_series : list double := map of_Z [1; -3; 1; 1; 1]%Z.

(** Blocks of two, three to a resample: means -1/5, 1, -1/5 and 1/5. *)
Definition w_draw (k : nat) : nat := nth k [0; 2; 1; 2; 4; 3; 1; 2; 4; 2; 3; 4] 0.

Lemma bootstrap_resamples_witness :
  block_bootstrap_mean_pvalue w_draw w_series 2 4 =
    Some (mkBootstrap (average w_series) (ddiv (of_Z (Z.of_nat (not_positive w_draw w_series 2 0 4))) (of_Z 4)) 4 2).
Proof. apply (bootstrap_resamples w_draw w_series 2 4); done. Defined.

Example w_resample : resample w_draw w_series 2 3 = map of_Z [1; 1; 1; 1; 1]%Z.
Proof. vm_compute. reflexivity. Qed.
