(* ===== verification/ResearchStrategies.v ===== *)
(** * The research strategies (src/research/strategy_engine.cpp,
    src/research/signals/ofi.cpp, src/research/strategies/ofi_strategy.cpp)

    Both strategies keep one bid and one ask per symbol and speak to an
    [IOrderIntentSink], which is an interface here as it is in the source; the
    experiment of Experiment.v implements it.

    The order-flow signal adds up, over a window, what each quote does to the
    pressure on its side; its ask side has the sign reversed
    ([ask_flow_reversed]). *)

From S2P Require Import Prelude Floats Types OrderTable Levels OrderBook Nbbo Matching Features.

#[local] Open Scope list_scope.
#[local] Open Scope Z_scope.

(** ** Order intents (strategy_engine.hpp) *)

Inductive OrderAction := SubmitIntent | CancelIntent.

Record OrderIntent := mkIntent {
  i_action : OrderAction; i_symbol_u64 : Z; i_side : OrderSide; i_price : Z; i_qty : Z; i_ts_ns : Z; i_order_id : Z;
}.

Class IOrderIntentSink (R : Type) := on_intent : OrderIntent -> R -> R.

(** ** [StrategyEngine] *)

Record EngineConfig := mkEngineConfig {
  ec_half_spread_ticks : Z; ec_quote_size : Z; ec_max_inventory : Z;
  ec_inventory_skew_ticks_per_unit : double; ec_ofi_skew_coef : double;
  ec_requote_threshold_ticks : Z; ec_cancel_replace_cooldown_ns : Z;
}.
Definition engine_config_default : EngineConfig := mkEngineConfig 1 10 1000 dzero dzero 1 0.

Record EngineQuote := mkQuote { q_order_id : Z; q_side : OrderSide; q_price : Z; q_active : bool }.
Definition quote_none : EngineQuote := mkQuote 0 BuySide 0 false.

Record EngineSymbol := mkEngineSymbol {
  es_inventory : Z; es_bid : EngineQuote; es_ask : EngineQuote; es_last_center : Z; es_has_center : bool; es_last_requote_ts : Z;
}.
Definition engine_symbol_default : EngineSymbol := mkEngineSymbol 0 quote_none quote_none 0 false 0.

(** [states_] is searched from the front and extended at the back. *)
Record StrategyEngine := mkEngine { se_cfg : EngineConfig; se_states : list (Z * EngineSymbol); se_next_order_id : Z }.
Definition strategy_engine_init (cfg : EngineConfig) : StrategyEngine := mkEngine cfg [] 1.

Fixpoint find_state (sym : Z) (states : list (Z * EngineSymbol)) : option EngineSymbol :=
  match states with
  | [] => None
  | (s, st) :: states => if s =? sym then Some st else find_state sym states
  end.

(** The entry found is changed in place; a missing one is pushed back. *)
Fixpoint set_state (sym : Z) (st : EngineSymbol) (states : list (Z * EngineSymbol)) : list (Z * EngineSymbol) :=
  match states with
  | [] => [(sym, st)]
  | (s, x) :: states => if s =? sym then (s, st) :: states else (s, x) :: set_state sym st states
  end.

Definition engine_clamp (v lo hi : Z) : Z := if v <? lo then lo else if hi <? v then hi else v.

Section engine.
Context {R : Type} `{IOrderIntentSink R}.

(** The sink may be null. *)
Definition emit_cancel (order : EngineQuote) (sym ts_ns : Z) (sink : option R) : EngineQuote * option R :=
  match sink with
  | None => (order, None)
  | Some r =>
      if q_active order then
        (quote_none, Some (on_intent (mkIntent CancelIntent sym (q_side order) (q_price order) 0 ts_ns (q_order_id order)) r))
      else (order, Some r)
  end.

(** The symbol's state, the next order id and the sink after the call. *)
Definition emit_submit (cfg : EngineConfig) (sym : Z) (st : EngineSymbol) (side : OrderSide) (price ts_ns next_id : Z)
    (sink : option R) : EngineSymbol * Z * option R :=
  match sink with
  | None => (st, next_id, None)
  | Some r =>
      let q := mkQuote next_id side price true in
      let st := match side with
                | BuySide => mkEngineSymbol (es_inventory st) q (es_ask st) (es_last_center st) (es_has_center st) (es_last_requote_ts st)
                | SellSide => mkEngineSymbol (es_inventory st) (es_bid st) q (es_last_center st) (es_has_center st) (es_last_requote_ts st)
                end in
      (st, next_id +64 1, Some (on_intent (mkIntent SubmitIntent sym side price (ec_quote_size cfg) ts_ns next_id) r))
  end.

Definition engine_center (cfg : EngineConfig) (inv : Z) (fv : FeatureVector) : Z :=
  llround (dsub (dsub (fv_microprice fv) (dmul (of_Z inv) (ec_inventory_skew_ticks_per_unit cfg)))
                (dmul (fv_ofi fv) (ec_ofi_skew_coef cfg))).

(** Both quotes cancelled and replaced around [center]. *)
Definition engine_requote (cfg : EngineConfig) (sym : Z) (st : EngineSymbol) (center ts_ns next_id : Z) (sink : option R)
    : EngineSymbol * Z * option R :=
  let '(bid, sink) := emit_cancel (es_bid st) sym ts_ns sink in
  let '(ask, sink) := emit_cancel (es_ask st) sym ts_ns sink in
  let st := mkEngineSymbol (es_inventory st) bid ask (es_last_center st) (es_has_center st) (es_last_requote_ts st) in
  let '(st, next_id, sink) := emit_submit cfg sym st BuySide (center - ec_half_spread_ticks cfg) ts_ns next_id sink in
  let '(st, next_id, sink) := emit_submit cfg sym st SellSide (center + ec_half_spread_ticks cfg) ts_ns next_id sink in
  (mkEngineSymbol (es_inventory st) (es_bid st) (es_ask st) center true ts_ns, next_id, sink).

Definition engine_on_feature (s : StrategyEngine) (sink : option R) (fv : FeatureVector) : StrategyEngine * option R :=
  let cfg := se_cfg s in
  let sym := fv_symbol_u64 fv in
  let ts := fv_exchange_ts_ns fv in
  let st := default engine_symbol_default (find_state sym (se_states s)) in
  let inv := engine_clamp (es_inventory st) (- ec_max_inventory cfg) (ec_max_inventory cfg) in
  let center := engine_center cfg inv fv in
  let refresh_by_first := negb (es_has_center st) in
  let refresh_by_move := es_has_center st && (Z.abs (center - es_last_center st) >=? ec_requote_threshold_ticks cfg) in
  let cooldown_ok := (ts >=? es_last_requote_ts st) &&
    ((ts -64 es_last_requote_ts st) >=? ec_cancel_replace_cooldown_ns cfg) in
  if (negb refresh_by_first && negb refresh_by_move) || negb cooldown_ok then
    (mkEngine cfg (set_state sym st (se_states s)) (se_next_order_id s), sink)
  else
    let '(st, next_id, sink) := engine_requote cfg sym st center ts (se_next_order_id s) sink in
    (mkEngine cfg (set_state sym st (se_states s)) next_id, sink).
End engine.

Definition is_quote (q : EngineQuote) (id : Z) : bool := q_active q && (q_order_id q =? id).

Definition fill_signed (f : Fill) (inventory : Z) : Z :=
  match fill_side f with BuySide => inventory + to_i64 (fill_qty f) | SellSide => inventory - to_i64 (fill_qty f) end.

Definition engine_on_fill (s : StrategyEngine) (sym : Z) (f : Fill) : StrategyEngine :=
  match find_state sym (se_states s) with
  | None => s
  | Some st =>
      let is_bid := is_quote (es_bid st) (fill_order_id f) in
      let is_ask := is_quote (es_ask st) (fill_order_id f) in
      if negb is_bid && negb is_ask then s else
      let st := mkEngineSymbol (fill_signed f (es_inventory st))
        (if negb (fill_partial f) && is_bid then quote_none else es_bid st)
        (if negb (fill_partial f) && is_ask then quote_none else es_ask st)
        (es_last_center st) false (es_last_requote_ts st) in
      mkEngine (se_cfg s) (set_state sym st (se_states s)) (se_next_order_id s)
  end.

(** ** [OfiSignal] *)

Record OfiSignalConfig := mkSignalConfig { max_events : Z; max_window_ns : Z }.
Definition signal_config_default : OfiSignalConfig := mkSignalConfig 128 0.

(** [window_] front first: times and flows. *)
Record OfiSignal := mkSignal {
  sig_cfg : OfiSignalConfig; sig_window : list (Z * double); sig_sum : double;
  sig_has_bid : bool; sig_has_ask : bool; sig_bid_px : Z; sig_bid_qty : Z; sig_ask_px : Z; sig_ask_qty : Z;
}.
Definition signal_init (cfg : OfiSignalConfig) : OfiSignal := mkSignal cfg [] dzero false false 0 0 0 0.

(** The first loop of [prune]. *)
Fixpoint prune_time (max_window_ns ts_ns : Z) (window : list (Z * double)) (sum : double) : list (Z * double) * double :=
  match window with
  | [] => ([], sum)
  | (ts, v) :: rest => if (ts +64 max_window_ns) <? ts_ns then prune_time max_window_ns ts_ns rest (dsub sum v) else (window, sum)
  end.

(** The second. *)
Fixpoint prune_count (max_events : Z) (window : list (Z * double)) (sum : double) : list (Z * double) * double :=
  match window with
  | [] => ([], sum)
  | (ts, v) :: rest =>
      if Z.of_nat (length window) >? max_events then prune_count max_events rest (dsub sum v) else (window, sum)
  end.

Definition prune (cfg : OfiSignalConfig) (ts_ns : Z) (window : list (Z * double)) (sum : double) : list (Z * double) * double :=
  let '(window, sum) := if max_window_ns cfg >? 0 then prune_time (max_window_ns cfg) ts_ns window sum else (window, sum) in
  if max_events cfg >? 0 then prune_count (max_events cfg) window sum else (window, sum).

(** The flow of a bid and of an ask. *)
Definition bid_flow (s : OfiSignal) (new_px new_qty : Z) : double :=
  if negb (sig_has_bid s) then of_Z new_qty
  else if new_px >? sig_bid_px s then of_Z new_qty
  else if new_px =? sig_bid_px s then dsub (of_Z new_qty) (of_Z (sig_bid_qty s))
  else dneg (of_Z (sig_bid_qty s)).

Definition ask_flow (s : OfiSignal) (new_px new_qty : Z) : double :=
  if negb (sig_has_ask s) then dneg (of_Z new_qty)
  else if new_px >? sig_ask_px s then dneg (of_Z new_qty)
  else if new_px =? sig_ask_px s then dadd (dneg (of_Z new_qty)) (of_Z (sig_ask_qty s))
  else of_Z (sig_ask_qty s).

Definition signal_update (s : OfiSignal) (ev : BookEvent) : OfiSignal :=
  let priced := price ev >? 0 in
  let is_bid := bool_decide (side ev = Buy) && priced in
  let is_ask := bool_decide (side ev = Sell) && priced in
  let fi := if is_bid then bid_flow s (price ev) (qty ev)
            else if is_ask then ask_flow s (price ev) (qty ev) else dzero in
  let '(window, sum) := prune (sig_cfg s) (exchange_ts_ns ev) (sig_window s ++ [(exchange_ts_ns ev, fi)]) (dadd (sig_sum s) fi) in
  mkSignal (sig_cfg s) window sum (sig_has_bid s || is_bid) (sig_has_ask s || is_ask)
    (if is_bid then price ev else sig_bid_px s) (if is_bid then qty ev else sig_bid_qty s)
    (if is_ask then price ev else sig_ask_px s) (if is_ask then qty ev else sig_ask_qty s).

(** ** [OfiStrategy] *)

Record OfiConfig := mkOfiConfig {
  oc_signal : OfiSignalConfig; oc_quote_size : Z; oc_half_spread_ticks : Z; oc_max_position : Z; oc_threshold : double;
  oc_aggressive_flatten_offset_ticks : Z; oc_requote_cooldown_events : Z;
}.
Definition ofi_config_default : OfiConfig := mkOfiConfig signal_config_default 10 1 200 (of_Z 100) 0 0.

Record OfiSymbol := mkOfiSymbol {
  os_signal : OfiSignal; os_inventory : Z; os_bid_order_id : Z; os_ask_order_id : Z;
  os_last_bid_quote : Z; os_last_ask_quote : Z; os_events_since_quote : Z; os_has_last_quote : bool;
}.
Definition ofi_symbol_default : OfiSymbol := mkOfiSymbol (signal_init signal_config_default) 0 0 0 0 0 0 false.

Record OfiStrategy := mkOfiStrategy {
  oc_cfg : OfiConfig; oc_by_symbol : gmap Z OfiSymbol; oc_book_engine : OrderBookEngine; oc_next_order_id : Z;
}.
Definition ofi_strategy_init (slots : nat) (cfg : OfiConfig) : OfiStrategy := mkOfiStrategy cfg ∅ (engine_init slots) 1.

(** A symbol without quotes, inventory or signal gets the configured signal. *)
Definition ofi_configure (cfg : OfiConfig) (st : OfiSymbol) : OfiSymbol :=
  if SFeqb (sig_sum (os_signal st)) dzero && (os_inventory st =? 0) && (os_bid_order_id st =? 0) &&
     (os_ask_order_id st =? 0) && negb (os_has_last_quote st)
  then mkOfiSymbol (signal_init (oc_signal cfg)) (os_inventory st) (os_bid_order_id st) (os_ask_order_id st)
         (os_last_bid_quote st) (os_last_ask_quote st) (os_events_since_quote st) (os_has_last_quote st)
  else st.

Definition ofi_center (cfg : OfiConfig) (ofi : double) (best_bid best_ask : Z) : Z :=
  let mid := (best_bid + best_ask) / 2 in
  if dgt ofi (oc_threshold cfg) then Z.max mid best_ask
  else if dgt (dneg (oc_threshold cfg)) ofi then Z.min mid best_bid else mid.

Section ofi.
Context {R : Type} `{IOrderIntentSink R}.

(** The order id and the sink after the call. *)
Definition cancel_if_active (sym order_id : Z) (side : OrderSide) (price ts_ns : Z) (sink : option R) : Z * option R :=
  match sink with
  | None => (order_id, None)
  | Some r =>
      if order_id =? 0 then (order_id, Some r)
      else (0, Some (on_intent (mkIntent CancelIntent sym side price 0 ts_ns order_id) r))
  end.

(** The id used, or 0, the next id and the sink. *)
Definition ofi_submit (sym : Z) (side : OrderSide) (price qty ts_ns next_id : Z) (sink : option R) : Z * Z * option R :=
  match sink with
  | None => (0, next_id, None)
  | Some r =>
      if qty =? 0 then (0, next_id, Some r)
      else (next_id, next_id +64 1, Some (on_intent (mkIntent SubmitIntent sym side price qty ts_ns next_id) r))
  end.

(** From the cancellations on: at the position limit one order to flatten,
    otherwise both quotes. *)
Definition ofi_requote (cfg : OfiConfig) (sym : Z) (st : OfiSymbol) (best_bid best_ask bid_quote ask_quote ts_ns next_id : Z)
    (sink : option R) : OfiSymbol * Z * option R :=
  let '(bid_id, sink) := cancel_if_active sym (os_bid_order_id st) BuySide (os_last_bid_quote st) ts_ns sink in
  let '(ask_id, sink) := cancel_if_active sym (os_ask_order_id st) SellSide (os_last_ask_quote st) ts_ns sink in
  if os_inventory st >=? oc_max_position cfg then
    let px := best_bid - oc_aggressive_flatten_offset_ticks cfg in
    let '(id, next_id, sink) := ofi_submit sym SellSide px (oc_quote_size cfg) ts_ns next_id sink in
    (mkOfiSymbol (os_signal st) (os_inventory st) bid_id id (os_last_bid_quote st) px 0 true, next_id, sink)
  else if os_inventory st <=? - oc_max_position cfg then
    let px := best_ask + oc_aggressive_flatten_offset_ticks cfg in
    let '(id, next_id, sink) := ofi_submit sym BuySide px (oc_quote_size cfg) ts_ns next_id sink in
    (mkOfiSymbol (os_signal st) (os_inventory st) id ask_id px (os_last_ask_quote st) 0 true, next_id, sink)
  else
    let '(bid_id, next_id, sink) := ofi_submit sym BuySide bid_quote (oc_quote_size cfg) ts_ns next_id sink in
    let '(ask_id, next_id, sink) := ofi_submit sym SellSide ask_quote (oc_quote_size cfg) ts_ns next_id sink in
    (mkOfiSymbol (os_signal st) (os_inventory st) bid_id ask_id bid_quote ask_quote 0 true, next_id, sink).

(** The two reasons to leave the quotes as they are. *)
Definition ofi_keeps_quotes (cfg : OfiConfig) (st : OfiSymbol) (bid_quote ask_quote : Z) : bool :=
  let both := negb (os_bid_order_id st =? 0) && negb (os_ask_order_id st =? 0) in
  (os_has_last_quote st && both && (os_last_bid_quote st =? bid_quote) && (os_last_ask_quote st =? ask_quote)) ||
  ((oc_requote_cooldown_events cfg >? 0) && both && (os_events_since_quote st <? oc_requote_cooldown_events cfg)).

Definition ofi_on_event (s : OfiStrategy) (sink : option R) (ev : BookEvent) : OfiStrategy * option R :=
  let cfg := oc_cfg s in
  let sym := as_u64 (symbol ev) in
  let st := ofi_configure cfg (default ofi_symbol_default (oc_by_symbol s !! sym)) in
  let '(books, _) := book_on_event (oc_book_engine s) ev in
  let st := mkOfiSymbol (signal_update (os_signal st) ev) (os_inventory st) (os_bid_order_id st) (os_ask_order_id st)
              (os_last_bid_quote st) (os_last_ask_quote st) (os_events_since_quote st) (os_has_last_quote st) in
  let top := OrderBook.top_of_book books (venue ev) sym in
  if negb (has_bid top) || negb (has_ask top) then
    (mkOfiStrategy cfg (<[sym := st]> (oc_by_symbol s)) books (oc_next_order_id s), sink)
  else
    let st := mkOfiSymbol (os_signal st) (os_inventory st) (os_bid_order_id st) (os_ask_order_id st)
                (os_last_bid_quote st) (os_last_ask_quote st) (os_events_since_quote st +64 1) (os_has_last_quote st) in
    let center := ofi_center cfg (sig_sum (os_signal st)) (bid_price top) (ask_price top) in
    let bid_quote := center - oc_half_spread_ticks cfg in
    let ask_quote := center + oc_half_spread_ticks cfg in
    if ofi_keeps_quotes cfg st bid_quote ask_quote then
      (mkOfiStrategy cfg (<[sym := st]> (oc_by_symbol s)) books (oc_next_order_id s), sink)
    else
      let '(st, next_id, sink) :=
        ofi_requote cfg sym st (bid_price top) (ask_price top) bid_quote ask_quote (exchange_ts_ns ev) (oc_next_order_id s) sink in
      (mkOfiStrategy cfg (<[sym := st]> (oc_by_symbol s)) books next_id, sink).
End ofi.

Definition ofi_on_fill (s : OfiStrategy) (sym : Z) (f : Fill) : OfiStrategy :=
  match oc_by_symbol s !! sym with
  | None => s
  | Some st =>
      let st := mkOfiSymbol (os_signal st) (fill_signed f (os_inventory st))
        (if negb (fill_partial f) && (os_bid_order_id st =? fill_order_id f) then 0 else os_bid_order_id st)
        (if negb (fill_partial f) && (os_ask_order_id st =? fill_order_id f) then 0 else os_ask_order_id st)
        (os_last_bid_quote st) (os_last_ask_quote st) (os_events_since_quote st) (os_has_last_quote st) in
      mkOfiStrategy (oc_cfg s) (<[sym := st]> (oc_by_symbol s)) (oc_book_engine s) (oc_next_order_id s)
  end.

(** ** What the strategies do on concrete input *)

(** A sink that keeps every intent. *)
#[local] Instance LogSink : IOrderIntentSink (list OrderIntent) := fun i l => l ++ [i].

Definition ofi_quote (s : Side) (id px q ts : Z) : BookEvent :=
  mkEvent Nasdaq Types.Add id ts ts [65; 65; 80; 76; 32; 32; 32; 32] id 0 0 q px 0 0 s None 65.

(** A cheaper ask is selling pressure, and the feature pipeline takes it so
    ([Features.delta_ofi]: minus the new quantity); the signal counts it as
    plus the quantity of the ask it replaces. *)
Example ask_flow_reversed :
  let s := fold_left signal_update [ofi_quote Buy 1 100 10 1; ofi_quote Sell 2 110 7 2] (signal_init signal_config_default) in
  ask_flow s 105 20 = of_Z 7 /\
  delta_ofi (mkOfi 100 10 110 7 dzero [] 0) (mkNbbo true true 100 10 105 20 0 0 1 2) = dneg (of_Z 20).
Proof. vm_compute. split; reflexivity. Qed.
