(* ===== verification/Experiment.v ===== *)
(** * Research experiments (src/research/experiment_runner.cpp,
    include/mf/research/simulation_clock.hpp, src/research/metrics/risk_metrics.cpp)

    A recorded tape is replayed through the feature bridge, one of the two
    research strategies, the matching engine and the accountant. The
    experiment is at once the consumer of the tape, the bridge's publisher and
    the strategies' intent sink; the parts of it those three roles touch are
    nested records here.

    Every order is one side of a symbol's pair of quotes, at most one rests per
    side, and the strategy's inventory is the accountant's position
    ([experiment_positions_agree]); under the order-flow strategy it stays
    within the position limit and one quote ([ofi_position_bounded]). An event
    older than its predecessor is counted and otherwise has no effect
    ([late_events_ignored]).

    The bytes of a NaN are not fixed by the language: they are a parameter. *)

From S2P Require Import Prelude Types Crc Floats OrderTable Levels OrderBook Nbbo NbboJournal EventBytes Journal EventStore Matching Features Pnl Strategy Backtest ResearchStrategies AlphaLab.

#[local] Open Scope list_scope.
#[local] Open Scope Z_scope.

(** ** [SimulationClock] *)

Record SimulationClock := mkClock { now_ns : Z; events_seen : Z }.
Definition clock_init : SimulationClock := mkClock 0 0.

Definition clock_reset (ts_ns : Z) (c : SimulationClock) : SimulationClock := mkClock ts_ns 0.

Definition advance_to (ts_ns : Z) (c : SimulationClock) : bool * SimulationClock :=
  if ts_ns <? now_ns c then (false, c) else (true, mkClock ts_ns (events_seen c +64 1)).

Definition clock_on_event (ev : BookEvent) (c : SimulationClock) : bool * SimulationClock := advance_to (exchange_ts_ns ev) c.

(** ** [compute_risk_metrics] *)

Record RiskMetricsInput := mkRiskInput {
  ri_returns : list double; ri_equity_curve : list double; ri_trade_pnls : list double;
  ri_orders_submitted : Z; ri_fills : Z; ri_inventory_turnover : double; ri_avg_holding_time_ms : double;
}.

Record RiskMetrics := mkRisk {
  sharpe_ratio : double; sortino_ratio : double; rm_max_drawdown : double; win_rate : double;
  avg_pnl_per_trade : double; rm_fill_ratio : double; inventory_turnover : double; avg_holding_time_ms : double;
}.

(** The sum, the sum of squares, the sum of squares of the losses and their number. *)
Definition return_step (a : double * double * double * Z) (r : double) : double * double * double * Z :=
  let '(sum, sum_sq, downside_sq, downside_n) := a in
  if dgt dzero r then (dadd sum r, dadd sum_sq (dmul r r), dadd downside_sq (dmul r r), downside_n +64 1)
  else (dadd sum r, dadd sum_sq (dmul r r), downside_sq, downside_n).

Definition return_ratios (returns : list double) : double * double :=
  match returns with
  | [] => (dzero, dzero)
  | _ =>
      let '(sum, sum_sq, downside_sq, downside_n) := fold_left return_step returns (dzero, dzero, dzero, 0) in
      let n := of_Z (Z.of_nat (length returns)) in
      let mean := ddiv sum n in
      let var := dsub (ddiv sum_sq n) (dmul mean mean) in
      let sharpe := if dgt var dzero then ddiv mean (SFsqrt kPrec kEmax var) else dzero in
      let sortino :=
        if downside_n >? 0 then
          let downside_dev := SFsqrt kPrec kEmax (ddiv downside_sq (of_Z downside_n)) in
          if dgt downside_dev dzero then ddiv mean downside_dev else dzero
        else dzero in
      (sharpe, sortino)
  end.

(** The peak and the deepest fall from it. *)
Definition drawdown_step (a : double * double) (v : double) : double * double :=
  let '(peak, worst) := a in
  let peak := if dgt v peak then v else peak in
  let dd := dsub peak v in
  (peak, if dgt dd worst then dd else worst).

Definition curve_drawdown (curve : list double) : double :=
  match curve with [] => dzero | first :: _ => (fold_left drawdown_step curve (first, dzero)).2 end.

Definition trade_pnl_step (a : Z * double) (p : double) : Z * double :=
  (if dgt p dzero then a.1 +64 1 else a.1, dadd a.2 p).

Definition compute_risk_metrics (i : RiskMetricsInput) : RiskMetrics :=
  let '(sharpe, sortino) := return_ratios (ri_returns i) in
  let '(wins, sum) := fold_left trade_pnl_step (ri_trade_pnls i) (0, dzero) in
  let trades := of_Z (Z.of_nat (length (ri_trade_pnls i))) in
  let traded := negb (bool_decide (ri_trade_pnls i = [])) in
  mkRisk sharpe sortino (curve_drawdown (ri_equity_curve i))
    (if traded then ddiv (of_Z wins) trades else dzero) (if traded then ddiv sum trades else dzero)
    (if ri_orders_submitted i >? 0 then ddiv (of_Z (ri_fills i)) (of_Z (ri_orders_submitted i)) else dzero)
    (ri_inventory_turnover i) (ri_avg_holding_time_ms i).

(** ** The experiment *)

Inductive StrategyKind := MarketMaking | Ofi.
#[export] Instance StrategyKind_eq_dec : EqDecision StrategyKind.
Proof. solve_decision. Defined.

Record ExperimentConfig := mkExperimentConfig {
  strategy_kind : StrategyKind; x_strategy_cfg : EngineConfig; x_ofi_cfg : OfiConfig; x_pnl_cfg : PnlConfig;
  x_participation_cap : double;
}.
Definition experiment_config_default : ExperimentConfig :=
  mkExperimentConfig MarketMaking engine_config_default ofi_config_default pnl_config_default (dlit 25 100).

(** The counters and curves. [last_equity]: none before the first feature. *)
Record ExperimentLog := mkLog {
  x_submitted_orders : Z; x_cancel_intents : Z; x_fills : Z; x_output_hash : Z; x_returns : list double;
  x_equity_curve : list double; x_trade_pnls : list double; x_last_equity : option double;
}.
Definition log_init : ExperimentLog := mkLog 0 0 0 0 [] [] [] None.

(** What [on_intent] works on. [d_router] holds the matching engine, the
    accountant and the map from orders to symbols, as in the backtest. *)
Record ExperimentDesk := mkDesk {
  d_router : EngineRouter; d_order_taker : gmap Z bool; d_top : gmap Z (Z * Z); d_log : ExperimentLog;
}.

(** What [try_publish] works on: the strategies and the desk. *)
Record ExperimentFloor := mkFloor { x_strategy : StrategyEngine; x_ofi : OfiStrategy; x_desk : ExperimentDesk }.

Record ExperimentState := mkExperiment {
  x_clock : SimulationClock; x_bridge : FeatureBridge; x_floor : ExperimentFloor; x_events : Z; x_clock_rejects : Z;
}.

Record ExperimentReport := mkExperimentReport {
  er_input : EventStoreStats; er_events_replayed : Z; er_clock_rejects : Z; er_submitted_orders : Z; er_cancel_intents : Z;
  er_fills : Z; er_config_hash : Z; er_output_hash : Z; er_pnl : PnlReport; er_risk : RiskMetrics;
  er_period_pnls : list double; er_trade_pnls : list double; er_equity_curve : list double;
}.

(** [hash_scalar] on the bytes of some scalars, in order. *)
Definition hash_scalars (scalars : list (list Z)) (crc : Z) : Z := fold_left crc32_update scalars crc.

Definition set_hash (crc : Z) (l : ExperimentLog) : ExperimentLog :=
  mkLog (x_submitted_orders l) (x_cancel_intents l) (x_fills l) crc (x_returns l) (x_equity_curve l) (x_trade_pnls l) (x_last_equity l).

Definition action_u8 (a : OrderAction) : Z := match a with SubmitIntent => 0 | CancelIntent => 1 end.
Definition kind_u8 (k : StrategyKind) : Z := match k with MarketMaking => 0 | Ofi => 1 end.

(** An order that crosses the last published quote is marked as a taker's. *)
Definition crosses (i : OrderIntent) (bid ask : Z) : bool :=
  match i_side i with
  | BuySide => (ask >? 0) && (i_price i >=? ask)
  | SellSide => (bid >? 0) && (i_price i <=? bid)
  end.

Section experiment.
Context `{StdSort} `{UnorderedMap}.
(** The object representation of a NaN. *)
Context (nan_bits : Z).

Definition double_bits (x : double) : Z :=
  let sign (s : bool) := if s then 2 ^ 63 else 0 in
  match x with
  | S754_zero s => sign s
  | S754_infinity s => sign s + 2047 * 2 ^ 52
  | S754_nan => nan_bits
  | S754_finite s m e => if Z.pos m <? 2 ^ 52 then sign s + Z.pos m else sign s + (e + 1075) * 2 ^ 52 + (Z.pos m - 2 ^ 52)
  end.

Definition u64_bytes (x : Z) : list Z := le_bytes 8 (u64 x).
Definition double_bytes (x : double) : list Z := le_bytes 8 (double_bits x).

#[export] Instance experiment_sink : IOrderIntentSink ExperimentDesk := fun i d =>
  let r := d_router d in
  let l := d_log d in
  let crc := hash_scalars [u64_bytes (i_order_id i); u64_bytes (i_price i); u64_bytes (i_qty i); u64_bytes (i_ts_ns i);
                           [action_u8 (i_action i)]] (x_output_hash l) in
  match i_action i with
  | CancelIntent =>
      mkDesk (mkRouter (sim_cancel (i_order_id i) (r_engine r)) (r_pnl r) (delete (i_order_id i) (r_orders r)))
        (d_order_taker d) (d_top d)
        (mkLog (x_submitted_orders l) (x_cancel_intents l +64 1) (x_fills l) crc (x_returns l) (x_equity_curve l)
           (x_trade_pnls l) (x_last_equity l))
  | SubmitIntent =>
      let taker := match d_top d !! i_symbol_u64 i with Some (bid, ask) => crosses i bid ask | None => false end in
      mkDesk
        (mkRouter (sim_submit (i_side i) (i_price i) (i_qty i) (i_order_id i) (i_ts_ns i)
                     (bind_order_symbol (i_order_id i) (i_symbol_u64 i) (r_engine r)))
           (on_order_submitted (r_pnl r)) (<[i_order_id i := i_symbol_u64 i]> (r_orders r)))
        (<[i_order_id i := taker]> (d_order_taker d)) (d_top d)
        (mkLog (x_submitted_orders l +64 1) (x_cancel_intents l) (x_fills l) crc (x_returns l) (x_equity_curve l)
           (x_trade_pnls l) (x_last_equity l))
  end.

(** The fill callback. *)
Definition experiment_fill (c : ExperimentFloor) (f : Fill) : ExperimentFloor :=
  let d := x_desk c in
  let r := d_router d in
  match r_orders r !! fill_order_id f with
  | None => c
  | Some sym =>
      let taker := default false (d_order_taker d !! fill_order_id f) in
      let realized_before := total_realized_pnl (finalize (r_pnl r)) in
      let pnl := pnl_on_fill (r_pnl r) sym f taker in
      let realized_after := total_realized_pnl (finalize pnl) in
      let l := d_log d in
      mkFloor (engine_on_fill (x_strategy c) sym f) (ofi_on_fill (x_ofi c) sym f)
        (mkDesk (mkRouter (r_engine r) pnl (if fill_partial f then r_orders r else delete (fill_order_id f) (r_orders r)))
           (d_order_taker d) (d_top d)
           (mkLog (x_submitted_orders l) (x_cancel_intents l) (x_fills l +64 1)
              (hash_scalars [u64_bytes (fill_order_id f); u64_bytes (fill_price f); u64_bytes (fill_qty f); u64_bytes (fill_ts_ns f)]
                 (x_output_hash l))
              (x_returns l) (x_equity_curve l) (x_trade_pnls l ++ [dsub realized_after realized_before]) (x_last_equity l)))
  end.

Definition with_pnl (p : PnlAccountant) (d : ExperimentDesk) : ExperimentDesk :=
  mkDesk (mkRouter (r_engine (d_router d)) p (r_orders (d_router d))) (d_order_taker d) (d_top d) (d_log d).

Definition with_log (l : ExperimentLog) (d : ExperimentDesk) : ExperimentDesk :=
  mkDesk (d_router d) (d_order_taker d) (d_top d) l.

Definition set_top (sym bid ask : Z) (d : ExperimentDesk) : ExperimentDesk :=
  mkDesk (d_router d) (d_order_taker d) (<[sym := (bid, ask)]> (d_top d)) (d_log d).

(** A strategy's sink is never null here. *)
Definition sink_of (d : ExperimentDesk) (sink : option ExperimentDesk) : ExperimentDesk := default d sink.

(** The end of [try_publish]: the hash and the equity return. *)
Definition log_feature (fv : FeatureVector) (d : ExperimentDesk) : ExperimentDesk :=
  let l := d_log d in
  let eq := total_equity (finalize (r_pnl (d_router d))) in
  with_log
    (mkLog (x_submitted_orders l) (x_cancel_intents l) (x_fills l)
       (hash_scalars [u64_bytes (fv_symbol_u64 fv); u64_bytes (fv_exchange_ts_ns fv); double_bytes (fv_microprice fv); double_bytes (fv_ofi fv)]
          (x_output_hash l))
       (match x_last_equity l with Some last => x_returns l ++ [dsub eq last] | None => x_returns l end)
       (x_equity_curve l) (x_trade_pnls l) (Some eq)) d.

Definition experiment_publish (kind : StrategyKind) (fv : FeatureVector) (c : ExperimentFloor) : ExperimentFloor :=
  let d := x_desk c in
  let d := with_pnl (pnl_on_feature (r_pnl (d_router d)) fv) d in
  let d := set_top (fv_symbol_u64 fv) (fv_nbbo_bid_price fv) (fv_nbbo_ask_price fv) d in
  let '(s, d) :=
    match kind with
    | MarketMaking => let '(s, sink) := engine_on_feature (x_strategy c) (Some d) fv in (s, sink_of d sink)
    | Ofi => (x_strategy c, d)
    end in
  mkFloor s (x_ofi c) (log_feature fv d).

#[local] Instance experiment_publisher (kind : StrategyKind) : IFeaturePublisher ExperimentFloor := {|
  fp_try_publish fv c := (true, experiment_publish kind fv c)
|}.

(** [engine_.on_market_event]; the callback does not touch the engine, so the
    fills can be handled after the call. *)
Definition experiment_market (c : ExperimentFloor) (ev : BookEvent) : ExperimentFloor :=
  let d := x_desk c in
  let r := d_router d in
  let '(e, fills) := on_market_event (r_engine r) ev in
  fold_left experiment_fill fills
    (mkFloor (x_strategy c) (x_ofi c) (mkDesk (mkRouter e (r_pnl r) (r_orders r)) (d_order_taker d) (d_top d) (d_log d))).

(** The end of [on_event]: the tick, the equity curve and the hash. *)
Definition experiment_tick (c : ExperimentFloor) (ev : BookEvent) : ExperimentFloor :=
  let d := with_pnl (pnl_on_tick_end (r_pnl (d_router (x_desk c))) (exchange_ts_ns ev)) (x_desk c) in
  let l := d_log d in
  mkFloor (x_strategy c) (x_ofi c)
    (with_log
       (mkLog (x_submitted_orders l) (x_cancel_intents l) (x_fills l)
          (hash_scalars [u64_bytes (exchange_ts_ns ev)] (x_output_hash l)) (x_returns l)
          (x_equity_curve l ++ [total_equity (finalize (r_pnl (d_router d)))]) (x_trade_pnls l) (x_last_equity l)) d).

Definition experiment_ofi (kind : StrategyKind) (c : ExperimentFloor) (ev : BookEvent) : ExperimentFloor :=
  match kind with
  | Ofi => let '(s, sink) := ofi_on_event (x_ofi c) (Some (x_desk c)) ev in mkFloor (x_strategy c) s (sink_of (x_desk c) sink)
  | MarketMaking => c
  end.

(** [on_event]; [None]: it does not return. *)
Definition experiment_on_event (kind : StrategyKind) (x : ExperimentState) (ev : BookEvent) : option ExperimentState :=
  let events := x_events x +64 1 in
  let '(accepted, clock) := clock_on_event ev (x_clock x) in
  if negb accepted then Some (mkExperiment clock (x_bridge x) (x_floor x) events (x_clock_rejects x +64 1)) else
  match bridge_on_event (H := experiment_publisher kind) (x_bridge x) (Some (x_floor x)) ev with
  | Some (bridge, Some c) =>
      Some (mkExperiment clock bridge (experiment_tick (experiment_market (experiment_ofi kind c ev) ev) ev) events (x_clock_rejects x))
  | _ => None
  end.

(** [slots]: the capacity of the order tables. *)
Definition experiment_init (slots : nat) (cfg : ExperimentConfig) : ExperimentState :=
  mkExperiment clock_init (bridge_init slots feature_config_default)
    (mkFloor (strategy_engine_init (x_strategy_cfg cfg)) (ofi_strategy_init slots (x_ofi_cfg cfg))
       (mkDesk (mkRouter (set_fill_callback (sim_init (x_participation_cap cfg))) (pnl_init (x_pnl_cfg cfg)) ∅) ∅ ∅ log_init)) 0 0.

Definition config_hash (cfg : ExperimentConfig) : Z :=
  let s := x_strategy_cfg cfg in
  let o := x_ofi_cfg cfg in
  let p := x_pnl_cfg cfg in
  hash_scalars
    [u64_bytes (ec_half_spread_ticks s); u64_bytes (ec_quote_size s); u64_bytes (ec_max_inventory s);
     double_bytes (ec_inventory_skew_ticks_per_unit s); double_bytes (ec_ofi_skew_coef s);
     u64_bytes (ec_requote_threshold_ticks s); u64_bytes (ec_cancel_replace_cooldown_ns s);
     [kind_u8 (strategy_kind cfg)];
     double_bytes (oc_threshold o); u64_bytes (oc_max_position o); u64_bytes (oc_quote_size o);
     u64_bytes (oc_half_spread_ticks o); u64_bytes (oc_requote_cooldown_events o);
     double_bytes (maker_rebate_per_share p); double_bytes (taker_fee_per_share p); u64_bytes (sharpe_bucket_ns p);
     double_bytes (x_participation_cap cfg)] 0.

(** [fill_report], with the two members its callers set. *)
Definition fill_report (x : ExperimentState) (input : EventStoreStats) (hash : Z) : ExperimentReport :=
  let l := d_log (x_desk (x_floor x)) in
  let pnl := finalize (r_pnl (d_router (x_desk (x_floor x)))) in
  mkExperimentReport input (x_events x) (x_clock_rejects x) (x_submitted_orders l) (x_cancel_intents l) (x_fills l) hash
    (x_output_hash l) pnl
    (compute_risk_metrics
       (mkRiskInput (x_returns l) (x_equity_curve l) (x_trade_pnls l) (x_submitted_orders l) (x_fills l) (turnover pnl) dzero))
    (x_returns l) (x_trade_pnls l) (x_equity_curve l).

Fixpoint experiment_events (kind : StrategyKind) (x : ExperimentState) (evs : list BookEvent) : option ExperimentState :=
  match evs with
  | [] => Some x
  | ev :: evs => x ← experiment_on_event kind x ev; experiment_events kind x evs
  end.

(** [run_on_events] on a fresh report: of its [input] only the number of
    records is set. *)
Definition run_on_events (slots : nat) (cfg : ExperimentConfig) (evs : list BookEvent) : option (bool * ExperimentReport) :=
  x ← experiment_events (strategy_kind cfg) (experiment_init slots cfg) evs;
  let input := mkStoreStats (Z.of_nat (length evs)) 0 0 0 0 in
  Some (x_clock_rejects x =? 0, fill_report x input (config_hash cfg)).

(** [run]: the experiment as the consumer of a store's replay. *)
Definition experiment_consumer (kind : StrategyKind) (ev : BookEvent) (x : option ExperimentState) : option ExperimentState :=
  x ← x; experiment_on_event kind x ev.

Definition experiment_run (slots : nat) (cfg : ExperimentConfig) (path : option (list Z)) : option (bool * ExperimentReport) :=
  match store_replay (experiment_consumer (strategy_kind cfg)) path (Some (experiment_init slots cfg)) with
  | Some (ok, stats, Some x) =>
      Some (ok && (x_clock_rejects x =? 0), fill_report x stats (config_hash cfg))
  | _ => None
  end.
End experiment.

(** ** The desk

    [q sym sd] is the live order of a side of a symbol; [room sym sd] bounds the
    quantity resting there; [next] is the next order id. *)

Definition quotes : Type := Z -> OrderSide -> option Z.

Record desk_ok (q : quotes) (room : Z -> OrderSide -> Z) (next : Z) (d : ExperimentDesk) : Prop := {
  dk_next : 1 <= next;
  dk_ids i sym sd : q sym sd = Some i -> 1 <= i < next;
  dk_unique i sym sd sym' sd' : q sym sd = Some i -> q sym' sd' = Some i -> sym = sym' /\ sd = sd';
  dk_rest : rest_ok (d_router d) (fun i sym sd => q sym sd = Some i);
  dk_room sym sd o : resting (r_engine (d_router d)) sym sd = [o] -> o_qty o <= room sym sd;
  dk_callback : on_fill_set (r_engine (d_router d)) = true;
}.

Definition set_quote (q : quotes) (sym : Z) (sd : OrderSide) (v : option Z) : quotes :=
  fun s d => if decide (s = sym /\ d = sd) then v else q s d.

Lemma desk_ok_ext q q' room next d : (forall s e, q' s e = q s e) -> desk_ok q room next d -> desk_ok q' room next d.
Proof.
  intros Hq [H1 H2 H3 H4 H5 H6]. split; [done|setoid_rewrite Hq; eauto|setoid_rewrite Hq; eauto| |done|done].
  eapply rest_ok_mono; [|exact H4]. intros i s e. by rewrite Hq.
Qed.

Lemma desk_ok_room q room room' next d : (forall s e, room s e <= room' s e) -> desk_ok q room next d -> desk_ok q room' next d.
Proof. intros Hr [H1 H2 H3 H4 H5 H6]. split; try done. intros s e o Ho. specialize (H5 s e o Ho). specialize (Hr s e). lia. Qed.

(** Parts of the desk the quotes do not depend on. *)
Lemma desk_ok_router q room next d d' : r_engine (d_router d') = r_engine (d_router d) -> r_orders (d_router d') = r_orders (d_router d) ->
  desk_ok q room next d -> desk_ok q room next d'.
Proof.
  intros He Ho [H1 H2 H3 H4 H5 H6]. split; [done|done|done| |by rewrite He|by rewrite He]. intros s e. rewrite He, Ho. apply H4.
Qed.

Definition desk_position (d : ExperimentDesk) (sym : Z) : Z := pnl_position (r_pnl (d_router d)) sym.

Section desk.
Context `{StdSort}.

Lemma desk_cancel q room next d sym sd id px ts : desk_ok q room next d -> q sym sd = Some id ->
  let d' := on_intent (mkIntent CancelIntent sym sd px 0 ts id) d in
  desk_ok (set_quote q sym sd None) room next d' /\ forall s, desk_position d' s = desk_position d s.
Proof.
  intros [H1 H2 H3 H4 H5 H6] Hq d'. split; [|done].
  assert (forall i s e, set_quote q sym sd None s e = Some i <-> q s e = Some i /\ i <> id) as Hset.
  { intros i s e. unfold set_quote. destruct (decide (s = sym /\ e = sd)) as [[-> ->]|Hne].
    - split; [done|]. intros [E Hi]. congruence.
    - split; [|by intros [? _]]. intros E. split; [done|]. intros ->. apply Hne. by destruct (H3 _ _ _ _ _ Hq E) as [-> ->]. }
  split; [done|intros i s e [E _]%Hset; eauto|intros i s e s' e' [E _]%Hset [E' _]%Hset; eauto| | |].
  - eapply rest_ok_mono; [|exact (rest_ok_cancel id ts (d_router d) _ H4)]. intros i s e [E Hi]. by apply Hset.
  - intros s e o. change (r_engine (d_router d')) with (sim_cancel id (r_engine (d_router d))). rewrite resting_cancel.
    destruct (H4 s e) as [E|(o' & E & _)]; rewrite E.
    + by destruct (decide _).
    + rewrite remove_order_one. specialize (H5 s e o' E). destruct (decide _); [destruct (o_id o' =? id)|]; intros [=]; by subst.
  - cbn. rewrite <-H6. exact (sim_op_callback (r_engine (d_router d)) (OpCancel id)).
Qed.

Lemma desk_submit q room next d sym sd px qty ts : desk_ok q room next d -> q sym sd = None ->
  0 <= qty < 2 ^ 64 -> qty <= room sym sd ->
  let d' := on_intent (mkIntent SubmitIntent sym sd px qty ts next) d in
  desk_ok (set_quote q sym sd (Some next)) room (next + 1) d' /\ forall s, desk_position d' s = desk_position d s.
Proof.
  intros [H1 H2 H3 H4 H5 H6] Hq Hqty Hroom d'. split; [|done].
  assert (forall i s e, set_quote q sym sd (Some next) s e = Some i -> q s e = Some i \/ (i = next /\ s = sym /\ e = sd)) as Hset.
  { intros i s e. unfold set_quote. destruct (decide (s = sym /\ e = sd)) as [[-> ->]|Hne]; [intros [= <-]; by right|by left]. }
  destruct (submit_rest sym sd px qty ts next (d_router d) _ H4) as (Hr & _ & Hc); [congruence|lia|done|intros i s e E; apply H2 in E; lia|].
  split; [lia| | | | |].
  - intros i s e [E|(-> & _)]%Hset; [apply H2 in E; lia|lia].
  - intros i s e s' e' [E|(-> & -> & ->)]%Hset [E'|(E' & -> & ->)]%Hset; [eauto|apply H2 in E; lia|apply H2 in E'; lia|done].
  - eapply rest_ok_mono; [|exact Hr]. intros i s e [E|(-> & -> & ->)]; unfold set_quote.
    + rewrite decide_False; [done|]. intros [-> ->]. congruence.
    + by rewrite decide_True.
  - intros s e o. cbn. destruct (H4 sym sd) as [E|(o' & _ & E & _)]; [|congruence].
    rewrite (resting_submit sd px qty next ts sym (r_engine (d_router d)) s e) by (lia || done).
    destruct (decide _) as [(-> & -> & _)|]; [by intros [= <-]|apply H5].
  - cbn. rewrite <-H6. exact Hc.
Qed.
Context `{UnorderedMap}.

Lemma experiment_fill_known c f sym : r_orders (d_router (x_desk c)) !! fill_order_id f = Some sym ->
  let c' := experiment_fill c f in
  x_strategy c' = engine_on_fill (x_strategy c) sym f /\ x_ofi c' = ofi_on_fill (x_ofi c) sym f /\
  r_engine (d_router (x_desk c')) = r_engine (d_router (x_desk c)) /\
  r_orders (d_router (x_desk c')) =
    (if fill_partial f then r_orders (d_router (x_desk c)) else delete (fill_order_id f) (r_orders (d_router (x_desk c)))) /\
  forall s, desk_position (x_desk c') s = desk_position (x_desk c) s + (if decide (s = sym) then signed_qty f else 0).
Proof.
  intros Ho c'. unfold c', experiment_fill. rewrite Ho. split_and!; try done. intros s. apply pnl_on_fill_position.
Qed.

Definition less_room (room : Z -> OrderSide -> Z) (sym : Z) (sd : OrderSide) (n : Z) : Z -> OrderSide -> Z :=
  fun s d => if decide (s = sym /\ d = sd) then room s d - n else room s d.

(** What a print does: nothing the strategies see, or one fill of a live
    quote, which uses up its room. *)
Inductive print_effect (q : quotes) (room : Z -> OrderSide -> Z) (next : Z) (c c' : ExperimentFloor) : Prop :=
  | print_nothing :
      x_strategy c' = x_strategy c -> x_ofi c' = x_ofi c -> desk_ok q room next (x_desk c') ->
      (forall s, desk_position (x_desk c') s = desk_position (x_desk c) s) -> print_effect q room next c c'
  | print_fill f sym :
      q sym (fill_side f) = Some (fill_order_id f) -> 0 < fill_qty f <= room sym (fill_side f) -> fill_qty f < 2 ^ 64 ->
      x_strategy c' = engine_on_fill (x_strategy c) sym f -> x_ofi c' = ofi_on_fill (x_ofi c) sym f ->
      desk_ok (if fill_partial f then q else set_quote q sym (fill_side f) None) (less_room room sym (fill_side f) (fill_qty f))
        next (x_desk c') ->
      (forall s, desk_position (x_desk c') s = desk_position (x_desk c) s + (if decide (s = sym) then signed_qty f else 0)) ->
      print_effect q room next c c'.

Lemma experiment_market_effect q room next c ev : desk_ok q room next (x_desk c) ->
  print_effect q room next c (experiment_market c ev).
Proof.
  intros Hok. pose proof Hok as [H1 H2 H3 H4 H5 H6]. unfold experiment_market. set (r := d_router (x_desk c)) in *.
  assert (forall sym sd, resting (r_engine r) sym sd = [] \/ exists o, resting (r_engine r) sym sd = [o] /\ 0 < o_qty o < 2 ^ 64) as Hone.
  { intros sym sd. destruct (H4 sym sd) as [?|(o & ? & _ & ? & _)]; [by left|right; eauto]. }
  pose proof (market_event_effect (r_engine r) ev H6 Hone) as He.
  pose proof (sim_op_callback (r_engine r) (OpMarket ev)) as Hcb. cbn [sim_op] in Hcb.
  destruct (on_market_event (r_engine r) ev) as [e' fills]. cbn [fst snd] in He, Hcb. rewrite H6 in Hcb.
  destruct He as [e' Hsame Hmap|e' sym sd o take Ho Ht Hothers Hleft Hmap].
  { apply print_nothing; try done. split; try done.
    - intros s d. cbn. rewrite Hsame, Hmap. apply H4.
    - intros s d o. cbn. rewrite Hsame. apply H5. }
  destruct (H4 sym sd) as [E|(o' & E & Hq & Hqty & G1 & G2)]; rewrite Ho in E; [done|]. injection E as <-.
  cbn [fold_left]. set (f := mkFill _ _ _ _ _ _). set (c1 := mkFloor _ _ _).
  destruct (experiment_fill_known c1 f sym G2) as (Hst & Hof & Heng & Hord & Hpos).
  pose proof (H5 sym sd o Ho) as Hroom.
  apply (print_fill _ _ _ _ _ f sym); cbn [fill_side fill_qty fill_order_id f]; try done; [lia|lia|].
  assert (forall i s d, q s d = Some i -> (s, d) <> (sym, sd) -> i <> o_id o) as Hother.
  { intros i s d Hi Hne ->. apply Hne. by destruct (H3 _ _ _ _ _ Hq Hi) as [-> ->]. }
  assert (forall i s d, (if fill_partial f then q else set_quote q sym sd None) s d = Some i <->
    q s d = Some i /\ (fill_partial f = true \/ i <> o_id o)) as Hset.
  { intros i s d. destruct (fill_partial f); [split; [by split; [|left]|by intros []]|]. unfold set_quote.
    destruct (decide (s = sym /\ d = sd)) as [[-> ->]|Hne]; [split; [done|intros [? [?|?]]; congruence]|].
    split; [|by intros []]. intros Hi. split; [done|]. right. apply (Hother i s d Hi). intros [= -> ->]. by apply Hne. }
  split; [done|intros i s d [Hi _]%Hset; eauto|intros i s d s' d' [Hi _]%Hset [Hi' _]%Hset; eauto| | |by rewrite Heng].
  - intros s d. rewrite Heng, Hord. cbn [c1 x_desk d_router r_engine r_orders]. fold r.
    destruct (decide ((s, d) = (sym, sd))) as [[= -> ->]|Hne].
    + rewrite Hleft, Hmap. unfold f. cbn [fill_partial fill_order_id]. destruct (Z.eqb_spec take (o_qty o)) as [->|Hne]; [by left|right].
      eexists. split; [done|]. cbn. split_and!; [by rewrite decide_True || done|lia|lia|done|done].
    + rewrite Hothers by done. destruct (H4 s d) as [->|(o2 & -> & Hq2 & Hqty2 & K1 & K2)]; [by left|right].
      pose proof (Hother _ _ _ Hq2 Hne) as Hid. exists o2. rewrite Hmap. cbn [f fill_partial fill_order_id].
      split_and!; [done|apply Hset; split; [done|by right]|lia|lia| |].
      * destruct (take =? o_qty o); [by rewrite lookup_delete_ne|done].
      * destruct (negb (take =? o_qty o)); [done|by rewrite lookup_delete_ne].
  - intros s d o2. rewrite Heng. cbn [c1 x_desk d_router r_engine]. unfold less_room.
    destruct (decide (s = sym /\ d = sd)) as [[-> ->]|Hne].
    + rewrite Hleft. destruct (take =? o_qty o); [done|]. intros [= <-]. cbn. lia.
    + rewrite Hothers by (intros [= -> ->]; by apply Hne). apply H5.
Qed.
End desk.

(** ** The order-flow strategy *)

Definition nonzero_id (id : Z) : option Z := if id =? 0 then None else Some id.

Definition ofi_quotes (s : OfiStrategy) : quotes := fun sym sd =>
  st ← oc_by_symbol s !! sym; nonzero_id (match sd with BuySide => os_bid_order_id st | SellSide => os_ask_order_id st end).

Definition ofi_inventory (s : OfiStrategy) (sym : Z) : Z :=
  match oc_by_symbol s !! sym with Some st => os_inventory st | None => 0 end.

(** The quantity a side may still fill before the inventory passes [limit]. *)
Definition ofi_room (limit : Z) (s : OfiStrategy) (sym : Z) (sd : OrderSide) : Z :=
  match sd with BuySide => limit - ofi_inventory s sym | SellSide => limit + ofi_inventory s sym end.

(** The quotes [q], with those of one symbol given. *)
Definition pair_quotes (q : quotes) (sym : Z) (bid ask : option Z) : quotes := fun s d =>
  if decide (s = sym) then match d with BuySide => bid | SellSide => ask end else q s d.

Lemma pair_set_bid q sym bid ask v s d : pair_quotes q sym v ask s d = set_quote (pair_quotes q sym bid ask) sym BuySide v s d.
Proof.
  unfold pair_quotes, set_quote. destruct (decide (s = sym)) as [->|Hs].
  - destruct d; [by rewrite decide_True|by rewrite decide_False by (intros [? ?]; done)].
  - by rewrite decide_False by tauto.
Qed.

Lemma pair_set_ask q sym bid ask v s d : pair_quotes q sym bid v s d = set_quote (pair_quotes q sym bid ask) sym SellSide v s d.
Proof.
  unfold pair_quotes, set_quote. destruct (decide (s = sym)) as [->|Hs].
  - destruct d; [by rewrite decide_False by (intros [? ?]; done)|by rewrite decide_True].
  - by rewrite decide_False by tauto.
Qed.

Lemma desk_pair_bid q sym bid ask v room next d : desk_ok (set_quote (pair_quotes q sym bid ask) sym BuySide v) room next d ->
  desk_ok (pair_quotes q sym v ask) room next d.
Proof. apply desk_ok_ext. intros. apply pair_set_bid. Qed.

Lemma desk_pair_ask q sym bid ask v room next d : desk_ok (set_quote (pair_quotes q sym bid ask) sym SellSide v) room next d ->
  desk_ok (pair_quotes q sym bid v) room next d.
Proof. apply desk_ok_ext. intros. apply pair_set_ask. Qed.

Lemma pair_quotes_self q sym s d : pair_quotes q sym (q sym BuySide) (q sym SellSide) s d = q s d.
Proof. unfold pair_quotes. destruct (decide (s = sym)) as [->|]; [by destruct d|done]. Qed.

Section ofi.
Context `{StdSort} `{UnorderedMap}.

(** Cancelling and submitting one side of a symbol, through the strategy's
    own calls. *)
Lemma cancel_if_active_ok q room next d sym sd id px ts : desk_ok q room next d -> q sym sd = nonzero_id id ->
  exists d', cancel_if_active sym id sd px ts (Some d) = (0, Some d') /\ desk_ok (set_quote q sym sd None) room next d' /\
  forall s, desk_position d' s = desk_position d s.
Proof.
  intros Hd Hq. unfold cancel_if_active, nonzero_id in *. destruct (Z.eqb_spec id 0) as [->|Hid].
  - exists d. split; [done|]. split; [|done]. eapply desk_ok_ext; [|exact Hd]. intros s e. unfold set_quote.
    by destruct (decide _) as [[-> ->]|].
  - eexists. split; [done|]. by apply desk_cancel.
Qed.

Lemma ofi_submit_ok q room next d sym sd px qty ts : desk_ok q room next d -> q sym sd = None -> next + 1 < 2 ^ 64 ->
  0 <= qty < 2 ^ 64 -> qty <= room sym sd ->
  exists id next' d', ofi_submit sym sd px qty ts next (Some d) = (id, next', Some d') /\ next' <= next + 1 /\
  desk_ok (set_quote q sym sd (nonzero_id id)) room next' d' /\ forall s, desk_position d' s = desk_position d s.
Proof.
  intros Hd Hq Hn Hqty Hroom. unfold ofi_submit. destruct (Z.eqb_spec qty 0) as [->|Hne].
  - exists 0, next, d. split; [done|]. split; [lia|]. split; [|done]. eapply desk_ok_ext; [|exact Hd]. intros s e.
    unfold set_quote. by destruct (decide _) as [[-> ->]|].
  - pose proof (dk_next _ _ _ _ Hd). eexists next, (next + 1), _. rewrite u64_small by lia. split; [done|]. split; [lia|].
    destruct (desk_submit q room next d sym sd px qty ts Hd Hq Hqty Hroom) as [G1 G2]. split; [|done].
    unfold nonzero_id. by destruct (Z.eqb_spec next 0); [lia|].
Qed.

(** What a strategy call leaves of a symbol: its quotes, with the inventory
    as it was. *)
Record requoted (q : quotes) (room : Z -> OrderSide -> Z) (sym next : Z) (d : ExperimentDesk) (st : OfiSymbol)
    (r : OfiSymbol * Z * option ExperimentDesk) : Prop := {
  rq_inventory : os_inventory r.1.1 = os_inventory st;
  rq_next : r.1.2 <= next + 2;
  rq_desk : exists d', r.2 = Some d' /\ (forall s, desk_position d' s = desk_position d s) /\
    desk_ok (pair_quotes q sym (nonzero_id (os_bid_order_id r.1.1)) (nonzero_id (os_ask_order_id r.1.1))) room r.1.2 d';
}.

Lemma ofi_requote_ok cfg q room next d sym st bb ba bq aq ts :
  desk_ok (pair_quotes q sym (nonzero_id (os_bid_order_id st)) (nonzero_id (os_ask_order_id st))) room next d ->
  next + 2 < 2 ^ 64 -> is_u 64 (oc_quote_size cfg) ->
  (os_inventory st < oc_max_position cfg -> oc_quote_size cfg <= room sym BuySide) ->
  (- oc_max_position cfg < os_inventory st -> oc_quote_size cfg <= room sym SellSide) -> 1 <= oc_max_position cfg ->
  requoted q room sym next d st (ofi_requote cfg sym st bb ba bq aq ts next (Some d)).
Proof.
  intros Hd Hn Hq Hbuy Hsell Hmax. unfold is_u in Hq. unfold ofi_requote.
  destruct (cancel_if_active_ok _ _ _ _ sym BuySide (os_bid_order_id st) (os_last_bid_quote st) ts Hd) as (d1 & -> & Hd1 & Hp1);
    [unfold pair_quotes; by rewrite decide_True|].
  apply desk_pair_bid in Hd1.
  destruct (cancel_if_active_ok _ _ _ _ sym SellSide (os_ask_order_id st) (os_last_ask_quote st) ts Hd1) as (d2 & -> & Hd2 & Hp2);
    [unfold pair_quotes; by rewrite decide_True|].
  apply desk_pair_ask in Hd2.
  assert (forall x sd, pair_quotes q x None None x sd = None) as Hnone by (intros x []; unfold pair_quotes; by rewrite decide_True).
  destruct (Z.geb_spec (os_inventory st) (oc_max_position cfg)) as [Hge|Hlt]; [|destruct (Z.leb_spec (os_inventory st) (- oc_max_position cfg)) as [Hle|Hgt]].
  - destruct (ofi_submit_ok _ _ _ _ sym SellSide (bb - oc_aggressive_flatten_offset_ticks cfg) (oc_quote_size cfg) ts Hd2)
      as (id & next' & d3 & -> & Hn' & Hd3 & Hp3); [apply Hnone|lia|exact Hq|apply Hsell; lia|].
    split; cbn [fst snd os_inventory os_bid_order_id os_ask_order_id]; [done|lia|]. exists d3. split; [done|].
    split; [intros s; by rewrite Hp3, Hp2, Hp1|]. exact (desk_pair_ask _ _ _ _ _ _ _ _ Hd3).
  - destruct (ofi_submit_ok _ _ _ _ sym BuySide (ba + oc_aggressive_flatten_offset_ticks cfg) (oc_quote_size cfg) ts Hd2)
      as (id & next' & d3 & -> & Hn' & Hd3 & Hp3); [apply Hnone|lia|exact Hq|apply Hbuy; lia|].
    split; cbn [fst snd os_inventory os_bid_order_id os_ask_order_id]; [done|lia|]. exists d3. split; [done|].
    split; [intros s; by rewrite Hp3, Hp2, Hp1|]. exact (desk_pair_bid _ _ _ _ _ _ _ _ Hd3).
  - destruct (ofi_submit_ok _ _ _ _ sym BuySide bq (oc_quote_size cfg) ts Hd2) as (bid & next1 & d3 & -> & Hn1 & Hd3 & Hp3);
      [apply Hnone|lia|exact Hq|apply Hbuy; lia|].
    apply desk_pair_bid in Hd3.
    destruct (ofi_submit_ok _ _ _ _ sym SellSide aq (oc_quote_size cfg) ts Hd3) as (ask & next2 & d4 & -> & Hn2 & Hd4 & Hp4);
      [unfold pair_quotes; by rewrite decide_True|lia|exact Hq|apply Hsell; lia|].
    split; cbn [fst snd os_inventory os_bid_order_id os_ask_order_id]; [done|lia|]. exists d4. split; [done|].
    split; [intros s; by rewrite Hp4, Hp3, Hp2, Hp1|]. exact (desk_pair_ask _ _ _ _ _ _ _ _ Hd4).
Qed.

(** The invariant of the strategy and its desk. *)
Record ofi_ok (cfg : OfiConfig) (limit : Z) (s : OfiStrategy) (d : ExperimentDesk) : Prop := {
  ofk_cfg : oc_cfg s = cfg;
  ofk_desk : desk_ok (ofi_quotes s) (ofi_room limit s) (oc_next_order_id s) d;
  ofk_bound sym : - limit <= ofi_inventory s sym <= limit;
  ofk_agree sym : ofi_inventory s sym = desk_position d sym;
}.

(** Configurations whose limit means something and fits the position's type. *)
Record ofi_config_ok (cfg : OfiConfig) : Prop := {
  oko_position : 1 <= oc_max_position cfg;
  oko_quote : 0 <= oc_quote_size cfg;
  oko_range : oc_max_position cfg + oc_quote_size cfg <= 2 ^ 62;
}.

(** The furthest a position can go: just short of the limit, and one quote. *)
Definition position_limit (cfg : OfiConfig) : Z := oc_max_position cfg - 1 + oc_quote_size cfg.

Lemma ofi_store_quotes cfg s sym st books next x e :
  ofi_quotes (mkOfiStrategy cfg (<[sym := st]> (oc_by_symbol s)) books next) x e =
  pair_quotes (ofi_quotes s) sym (nonzero_id (os_bid_order_id st)) (nonzero_id (os_ask_order_id st)) x e.
Proof.
  unfold ofi_quotes, pair_quotes. cbn [oc_by_symbol]. destruct (decide (x = sym)) as [->|Hne]; [|by rewrite lookup_insert_ne].
  rewrite lookup_insert_eq. by destruct e.
Qed.

Lemma ofi_store_inventory cfg s sym st books next x :
  ofi_inventory (mkOfiStrategy cfg (<[sym := st]> (oc_by_symbol s)) books next) x =
  if decide (x = sym) then os_inventory st else ofi_inventory s x.
Proof.
  unfold ofi_inventory. cbn [oc_by_symbol]. destruct (decide (x = sym)) as [->|Hne]; [by rewrite lookup_insert_eq|by rewrite lookup_insert_ne].
Qed.

(** A call that keeps the inventories. *)
Lemma ofi_stored_ok cfg limit s sym st books next d d' : ofi_ok cfg limit s d ->
  os_inventory st = ofi_inventory s sym -> (forall x, desk_position d' x = desk_position d x) ->
  desk_ok (pair_quotes (ofi_quotes s) sym (nonzero_id (os_bid_order_id st)) (nonzero_id (os_ask_order_id st))) (ofi_room limit s) next d' ->
  ofi_ok cfg limit (mkOfiStrategy cfg (<[sym := st]> (oc_by_symbol s)) books next) d'.
Proof.
  intros [Hc Hd Hb Ha] Hi Hp Hd'.
  assert (forall x, ofi_inventory (mkOfiStrategy cfg (<[sym := st]> (oc_by_symbol s)) books next) x = ofi_inventory s x) as Hinv.
  { intros x. rewrite ofi_store_inventory. by destruct (decide (x = sym)) as [->|]. }
  split; [done| |intros x; by rewrite Hinv|intros x; by rewrite Hinv, Hp].
  apply (desk_ok_ext (pair_quotes (ofi_quotes s) sym (nonzero_id (os_bid_order_id st)) (nonzero_id (os_ask_order_id st))));
    [intros; apply ofi_store_quotes|].
  eapply desk_ok_room; [|exact Hd']. intros x []; cbn; rewrite Hinv; lia.
Qed.

(** The state a strategy finds for a symbol is what its quotes and inventory
    say, configured or not. *)
Lemma ofi_configured cfg s sym : let st := ofi_configure cfg (default ofi_symbol_default (oc_by_symbol s !! sym)) in
  nonzero_id (os_bid_order_id st) = ofi_quotes s sym BuySide /\ nonzero_id (os_ask_order_id st) = ofi_quotes s sym SellSide /\
  os_inventory st = ofi_inventory s sym.
Proof.
  intros st. subst st. unfold ofi_configure, ofi_quotes, ofi_inventory.
  destruct (oc_by_symbol s !! sym) as [st|]; cbn [default from_option]; unfold id; by destruct (_ && _).
Qed.

Lemma ofi_on_event_ok cfg s d ev : ofi_config_ok cfg -> ofi_ok cfg (position_limit cfg) s d -> oc_next_order_id s + 2 < 2 ^ 64 ->
  exists s' d', ofi_on_event s (Some d) ev = (s', Some d') /\ ofi_ok cfg (position_limit cfg) s' d' /\
  oc_next_order_id s' <= oc_next_order_id s + 2.
Proof.
  intros [Hm Hq Hr] Hok Hn. pose proof Hok as [Hc Hd Hb Ha]. unfold ofi_on_event. rewrite Hc. set (sym := as_u64 (symbol ev)).
  destruct (ofi_configured cfg s sym) as (E1 & E2 & E3). set (st := ofi_configure cfg _) in *.
  destruct (book_on_event (oc_book_engine s) ev) as [books ap].
  assert (desk_ok (pair_quotes (ofi_quotes s) sym (nonzero_id (os_bid_order_id st)) (nonzero_id (os_ask_order_id st)))
    (ofi_room (position_limit cfg) s) (oc_next_order_id s) d) as Hpair.
  { rewrite E1, E2. eapply desk_ok_ext; [|exact Hd]. intros. apply pair_quotes_self. }
  cbn zeta. cbn [os_signal os_inventory os_bid_order_id os_ask_order_id os_last_bid_quote os_last_ask_quote os_events_since_quote os_has_last_quote].
  destruct (negb (has_bid _) || negb (has_ask _)).
  { eexists _, d. split; [done|]. split; [|cbn; lia]. by apply (ofi_stored_ok cfg _ s sym _ books _ d d Hok). }
  destruct (ofi_keeps_quotes _ _ _ _).
  { eexists _, d. split; [done|]. split; [|cbn; lia]. by apply (ofi_stored_ok cfg _ s sym _ books _ d d Hok). }
  set (st' := mkOfiSymbol _ _ _ _ _ _ _ _).
  match goal with |- context [ofi_requote cfg sym st' ?bb ?ba ?bq ?aq ?ts _ _] =>
    destruct (ofi_requote_ok cfg (ofi_quotes s) _ _ d sym st' bb ba bq aq ts Hpair Hn) as [Hi Hn' (d' & Er & Hp & Hd')];
      [unfold is_u; lia|cbn; unfold position_limit; rewrite E3; lia|cbn; unfold position_limit; rewrite E3; lia|done|];
    destruct (ofi_requote cfg sym st' bb ba bq aq ts (oc_next_order_id s) (Some d)) as [[st2 next2] sink] end.
  cbn [fst snd] in *. subst sink. eexists _, d'. split; [done|]. split; [|done].
  apply (ofi_stored_ok cfg _ s sym st2 books next2 d d' Hok); [by rewrite Hi|done|done].
Qed.

Lemma to_i64_small x : 0 <= x < 2 ^ 63 -> to_i64 x = x.
Proof. intros Hx. unfold to_i64. destruct (Z.ltb_spec x (2 ^ 63)); lia. Qed.

(** A fill of a live quote: its side is cleared unless it was partial. *)
Lemma ofi_fill_quotes q s sym f : (forall x e, q x e = ofi_quotes s x e) ->
  (forall i x e x' e', q x e = Some i -> q x' e' = Some i -> x = x' /\ e = e') -> q sym (fill_side f) = Some (fill_order_id f) ->
  forall x e, ofi_quotes (ofi_on_fill s sym f) x e = (if fill_partial f then q else set_quote q sym (fill_side f) None) x e.
Proof.
  intros Hq Hu Hf x e. pose proof (Hu (fill_order_id f) sym BuySide sym SellSide) as Hne. rewrite !Hq in Hne. rewrite Hq in Hf.
  unfold ofi_on_fill. destruct (oc_by_symbol s !! sym) as [st|] eqn:Est; [|unfold ofi_quotes in Hf; by rewrite Est in Hf].
  assert (ofi_quotes s sym BuySide = nonzero_id (os_bid_order_id st) /\ ofi_quotes s sym SellSide = nonzero_id (os_ask_order_id st)) as [Eb Ea]
    by (unfold ofi_quotes; by rewrite Est).
  rewrite ofi_store_quotes. cbn [os_bid_order_id os_ask_order_id].
  assert (forall v, set_quote q sym (fill_side f) v x e = set_quote (ofi_quotes s) sym (fill_side f) v x e) as Eset
    by (intros v; unfold set_quote; by rewrite Hq).
  assert (forall id, nonzero_id id = Some (fill_order_id f) -> id = fill_order_id f) as Hnz.
  { intros id. unfold nonzero_id. destruct (id =? 0); [done|by intros [=]]. }
  destruct (fill_partial f); cbn [negb andb]; [rewrite Hq, <-Eb, <-Ea; apply pair_quotes_self|]. rewrite Eset.
  rewrite Eb, Ea in Hne. unfold pair_quotes, set_quote. destruct (decide (x = sym)) as [->|Hx]; [|by rewrite decide_False by tauto].
  destruct (fill_side f) eqn:Es, e; rewrite ?Eb, ?Ea in Hf; rewrite ?Eb, ?Ea; try (rewrite decide_True by done); try (rewrite decide_False by (intros [? ?]; done)).
  - by rewrite (Hnz _ Hf), Z.eqb_refl.
  - destruct (Z.eqb_spec (os_ask_order_id st) (fill_order_id f)) as [E|]; [|done]. rewrite E in Hne.
    pose proof (Hnz _ Hf) as E'. rewrite E' in Hf, Hne. by destruct (Hne Hf Hf).
  - destruct (Z.eqb_spec (os_bid_order_id st) (fill_order_id f)) as [E|]; [|done]. rewrite E in Hne.
    pose proof (Hnz _ Hf) as E'. rewrite E' in Hf, Hne. by destruct (Hne Hf Hf).
  - by rewrite (Hnz _ Hf), Z.eqb_refl.
Qed.

Lemma ofi_fill_inventory s sym f x : ofi_quotes s sym (fill_side f) <> None ->
  ofi_inventory (ofi_on_fill s sym f) x = ofi_inventory s x + (if decide (x = sym) then signed_qty f else 0).
Proof.
  intros Hq. unfold ofi_on_fill. destruct (oc_by_symbol s !! sym) as [st|] eqn:Est; [|unfold ofi_quotes in Hq; by rewrite Est in Hq].
  rewrite ofi_store_inventory. cbn [os_inventory]. destruct (decide (x = sym)) as [->|]; [|lia].
  unfold ofi_inventory. rewrite Est. unfold fill_signed, signed_qty. destruct (fill_side f); lia.
Qed.

Lemma ofi_on_fill_rest s sym f : oc_cfg (ofi_on_fill s sym f) = oc_cfg s /\ oc_next_order_id (ofi_on_fill s sym f) = oc_next_order_id s.
Proof. unfold ofi_on_fill. by destruct (oc_by_symbol s !! sym). Qed.

Lemma ofi_market_ok cfg c ev : ofi_config_ok cfg -> ofi_ok cfg (position_limit cfg) (x_ofi c) (x_desk c) ->
  ofi_ok cfg (position_limit cfg) (x_ofi (experiment_market c ev)) (x_desk (experiment_market c ev)) /\
  oc_next_order_id (x_ofi (experiment_market c ev)) = oc_next_order_id (x_ofi c).
Proof.
  intros [Hm Hq Hr] [Hc Hd Hb Ha].
  destruct (experiment_market_effect _ _ _ c ev Hd) as [_ -> Hd' Hp|f sym Hf Hqty H64 _ Eofi Hd' Hp].
  { split; [|done]. split; try done. intros x. by rewrite Hp. }
  destruct (ofi_on_fill_rest (x_ofi c) sym f) as [Ec En]. rewrite Eofi.
  assert (forall x, ofi_inventory (ofi_on_fill (x_ofi c) sym f) x = ofi_inventory (x_ofi c) x + (if decide (x = sym) then signed_qty f else 0)) as Hinv
    by (intros x; apply ofi_fill_inventory; congruence).
  pose proof (Hb sym) as Hbs. unfold position_limit in Hbs.
  assert (to_i64 (fill_qty f) = fill_qty f) as Ei.
  { apply to_i64_small. unfold ofi_room, position_limit in Hqty. destruct (fill_side f); lia. }
  assert (signed_qty f = match fill_side f with BuySide => fill_qty f | SellSide => - fill_qty f end) as Esg
    by (unfold signed_qty; by rewrite Ei).
  split; [|done]. split; [by rewrite Ec| | |intros x; by rewrite Hinv, Hp, Ha].
  - rewrite En. eapply desk_ok_ext, desk_ok_room; [| |exact Hd'].
    + apply ofi_fill_quotes; [done|exact (dk_unique _ _ _ _ Hd)|done].
    + intros x e. unfold less_room, ofi_room. rewrite Hinv, Esg.
      destruct (decide (x = sym /\ e = fill_side f)) as [[-> ->]|Hne]; [rewrite decide_True by done; destruct (fill_side f); lia|].
      destruct (decide (x = sym)) as [->|]; [|destruct e; lia]. destruct e, (fill_side f); try lia; exfalso; by apply Hne.
  - intros x. rewrite Hinv, Esg. destruct (decide (x = sym)) as [->|]; [|specialize (Hb x); lia].
    specialize (Hb sym). unfold ofi_room in Hqty. destruct (fill_side f); lia.
Qed.
End ofi.

(** ** The market-making strategy *)

Definition live_quote (q : EngineQuote) : option Z := if q_active q then Some (q_order_id q) else None.

Definition engine_quotes (s : StrategyEngine) : quotes := fun sym sd =>
  st ← find_state sym (se_states s); live_quote (match sd with BuySide => es_bid st | SellSide => es_ask st end).

Definition engine_inventory (s : StrategyEngine) (sym : Z) : Z :=
  match find_state sym (se_states s) with Some st => es_inventory st | None => 0 end.

(** This strategy does not bound what it holds. *)
Definition any_room : Z -> OrderSide -> Z := fun _ _ => 2 ^ 64.

Record engine_ok (s : StrategyEngine) (d : ExperimentDesk) : Prop := {
  ek_quote : is_u 64 (ec_quote_size (se_cfg s));
  ek_desk : desk_ok (engine_quotes s) any_room (se_next_order_id s) d;
  ek_agree sym : engine_inventory s sym = desk_position d sym;
}.

Lemma find_set_state sym st l x : find_state x (set_state sym st l) = if decide (x = sym) then Some st else find_state x l.
Proof.
  induction l as [|[y sy] l IH]; cbn [set_state find_state].
  - destruct (Z.eqb_spec sym x) as [->|Hne]; [by rewrite decide_True|by rewrite decide_False].
  - destruct (Z.eqb_spec y sym) as [->|Hy]; cbn [find_state].
    + destruct (Z.eqb_spec sym x) as [->|Hne]; [by rewrite decide_True|by rewrite decide_False].
    + rewrite IH. destruct (Z.eqb_spec y x) as [->|]; [by rewrite decide_False|done].
Qed.

Section engine.
Context `{StdSort} `{UnorderedMap}.

Lemma emit_cancel_ok q room next d sym sd qt ts : desk_ok q room next d -> q sym sd = live_quote qt ->
  exists qt' d', emit_cancel qt sym ts (Some d) = (qt', Some d') /\ live_quote qt' = None /\
  desk_ok (set_quote q sym sd None) room next d' /\ forall s, desk_position d' s = desk_position d s.
Proof.
  intros Hd Hq. unfold emit_cancel, live_quote in *. destruct (q_active qt) eqn:E.
  - eexists quote_none, _. split; [done|]. split; [done|]. exact (desk_cancel q room next d sym sd (q_order_id qt) (q_price qt) ts Hd Hq).
  - exists qt, d. split; [done|]. split; [by rewrite E|]. split; [|done]. eapply desk_ok_ext; [|exact Hd]. intros s e. unfold set_quote.
    by destruct (decide _) as [[-> ->]|].
Qed.

Lemma engine_requote_ok cfg q next d sym st center ts : is_u 64 (ec_quote_size cfg) ->
  desk_ok (pair_quotes q sym (live_quote (es_bid st)) (live_quote (es_ask st))) any_room next d -> next + 2 < 2 ^ 64 ->
  exists st' d', engine_requote cfg sym st center ts next (Some d) = (st', next + 2, Some d') /\
  es_inventory st' = es_inventory st /\ (forall s, desk_position d' s = desk_position d s) /\
  desk_ok (pair_quotes q sym (live_quote (es_bid st')) (live_quote (es_ask st'))) any_room (next + 2) d'.
Proof.
  intros Hq Hd Hn. pose proof (dk_next _ _ _ _ Hd) as H1. unfold engine_requote.
  destruct (emit_cancel_ok _ _ _ _ sym BuySide (es_bid st) ts Hd) as (b & d1 & -> & Eb & Hd1 & Hp1); [unfold pair_quotes; by rewrite decide_True|].
  apply desk_pair_bid in Hd1.
  destruct (emit_cancel_ok _ _ _ _ sym SellSide (es_ask st) ts Hd1) as (a & d2 & -> & Ea & Hd2 & Hp2); [unfold pair_quotes; by rewrite decide_True|].
  apply desk_pair_ask in Hd2. unfold emit_submit. cbn zeta. rewrite (u64_small (next + 1)), (u64_small (next + 1 + 1)) by lia.
  destruct (desk_submit _ _ _ _ sym BuySide (center - ec_half_spread_ticks cfg) (ec_quote_size cfg) ts Hd2) as [Hd3 Hp3];
    [unfold pair_quotes; by rewrite decide_True|exact Hq|unfold any_room, is_u in *; lia|].
  apply desk_pair_bid in Hd3.
  destruct (desk_submit _ _ _ _ sym SellSide (center + ec_half_spread_ticks cfg) (ec_quote_size cfg) ts Hd3) as [Hd4 Hp4];
    [unfold pair_quotes; by rewrite decide_True|exact Hq|unfold any_room, is_u in *; lia|].
  apply desk_pair_ask in Hd4. rewrite <-Z.add_assoc in Hd4. change (1 + 1) with 2 in Hd4.
  rewrite <-(Z.add_assoc next 1 1). change (1 + 1) with 2.
  eexists _, _. split; [done|]. split; [done|]. split; [intros s; by rewrite Hp4, Hp3, Hp2, Hp1|]. exact Hd4.
Qed.

Lemma engine_store_quotes cfg s sym st next x e :
  engine_quotes (mkEngine cfg (set_state sym st (se_states s)) next) x e =
  pair_quotes (engine_quotes s) sym (live_quote (es_bid st)) (live_quote (es_ask st)) x e.
Proof.
  unfold engine_quotes, pair_quotes. cbn [se_states]. rewrite find_set_state.
  destruct (decide (x = sym)) as [->|Hne]; [by destruct e|done].
Qed.

Lemma engine_store_inventory cfg s sym st next x :
  engine_inventory (mkEngine cfg (set_state sym st (se_states s)) next) x =
  if decide (x = sym) then es_inventory st else engine_inventory s x.
Proof. unfold engine_inventory. cbn [se_states]. rewrite find_set_state. by destruct (decide (x = sym)). Qed.

Lemma engine_stored_ok s sym st next d d' : engine_ok s d ->
  es_inventory st = engine_inventory s sym -> (forall x, desk_position d' x = desk_position d x) ->
  desk_ok (pair_quotes (engine_quotes s) sym (live_quote (es_bid st)) (live_quote (es_ask st))) any_room next d' ->
  engine_ok (mkEngine (se_cfg s) (set_state sym st (se_states s)) next) d'.
Proof.
  intros [Hq Hd Ha] Hi Hp Hd'. split; [done| |].
  - eapply desk_ok_ext; [|exact Hd']. intros. apply engine_store_quotes.
  - intros x. rewrite engine_store_inventory, Hp, <-Ha. by destruct (decide (x = sym)) as [->|].
Qed.

Lemma engine_on_feature_ok s d fv : engine_ok s d -> se_next_order_id s + 2 < 2 ^ 64 ->
  exists s' d', engine_on_feature s (Some d) fv = (s', Some d') /\ engine_ok s' d' /\ se_next_order_id s' <= se_next_order_id s + 2.
Proof.
  intros Hok Hn. pose proof Hok as [Hq Hd Ha]. unfold engine_on_feature. cbn zeta. set (sym := fv_symbol_u64 fv).
  set (st := default engine_symbol_default (find_state sym (se_states s))).
  assert (live_quote (es_bid st) = engine_quotes s sym BuySide /\ live_quote (es_ask st) = engine_quotes s sym SellSide /\
    es_inventory st = engine_inventory s sym) as (E1 & E2 & E3).
  { unfold st, engine_quotes, engine_inventory. by destruct (find_state sym (se_states s)). }
  assert (desk_ok (pair_quotes (engine_quotes s) sym (live_quote (es_bid st)) (live_quote (es_ask st))) any_room (se_next_order_id s) d) as Hpair.
  { rewrite E1, E2. eapply desk_ok_ext; [|exact Hd]. intros. apply pair_quotes_self. }
  destruct (_ || _).
  { eexists _, d. split; [done|]. split; [|cbn; lia]. by apply (engine_stored_ok s sym st _ d d Hok). }
  match goal with |- context [engine_requote _ sym st ?center ?ts _ _] =>
    destruct (engine_requote_ok (se_cfg s) (engine_quotes s) _ d sym st center ts Hq Hpair Hn) as (st' & d' & -> & Hi & Hp & Hd') end.
  eexists _, d'. split; [done|]. split; [|cbn; lia]. apply (engine_stored_ok s sym st' _ d d' Hok); [congruence|done|done].
Qed.

Lemma is_quote_live qt id : is_quote qt id = true <-> live_quote qt = Some id.
Proof.
  unfold is_quote, live_quote. destruct (q_active qt); cbn [andb]; [|split; done]. rewrite Z.eqb_eq. split; [by intros ->|by intros [=]].
Qed.

Lemma live_cleared qt id : live_quote (if is_quote qt id then quote_none else qt) =
  if decide (live_quote qt = Some id) then None else live_quote qt.
Proof.
  destruct (is_quote qt id) eqn:E; [apply is_quote_live in E; by rewrite decide_True|].
  rewrite decide_False; [done|]. intros Hl%is_quote_live. congruence.
Qed.

(** A fill of a live quote reaches the state of its symbol. *)
Lemma engine_fill_known q s sym f : (forall x e, q x e = engine_quotes s x e) ->
  (forall i x e x' e', q x e = Some i -> q x' e' = Some i -> x = x' /\ e = e') -> q sym (fill_side f) = Some (fill_order_id f) ->
  let s' := engine_on_fill s sym f in
  se_cfg s' = se_cfg s /\ se_next_order_id s' = se_next_order_id s /\
  (forall x, engine_inventory s' x = engine_inventory s x + (if decide (x = sym) then signed_qty f else 0)) /\
  forall x e, engine_quotes s' x e = (if fill_partial f then q else set_quote q sym (fill_side f) None) x e.
Proof.
  intros Hq Hu Hf s'. unfold s', engine_on_fill. clear s'.
  assert (exists st, find_state sym (se_states s) = Some st) as [st Est].
  { rewrite Hq in Hf. unfold engine_quotes in Hf. destruct (find_state sym (se_states s)) as [st|]; [by exists st|done]. }
  rewrite Est. assert (forall e, q sym e = live_quote (match e with BuySide => es_bid st | SellSide => es_ask st end)) as Eq
    by (intros e; rewrite Hq; unfold engine_quotes; by rewrite Est).
  assert (negb (is_quote (es_bid st) (fill_order_id f)) && negb (is_quote (es_ask st) (fill_order_id f)) = false) as ->.
  { rewrite Eq in Hf. destruct (fill_side f); apply is_quote_live in Hf; rewrite Hf; [done|apply andb_false_r]. }
  split; [done|]. split; [done|]. split.
  - intros x. rewrite engine_store_inventory. cbn [es_inventory]. destruct (decide (x = sym)) as [->|]; [|lia].
    unfold engine_inventory. rewrite Est. unfold fill_signed, signed_qty. destruct (fill_side f); lia.
  - intros x e. rewrite engine_store_quotes. cbn [es_bid es_ask].
    destruct (fill_partial f); cbn [negb andb].
    { rewrite <-(Eq BuySide), <-(Eq SellSide), Hq. unfold pair_quotes. rewrite !Hq. by apply pair_quotes_self. }
    rewrite !live_cleared, <-(Eq BuySide), <-(Eq SellSide).
    unfold pair_quotes, set_quote. destruct (decide (x = sym)) as [->|Hx]; [|by rewrite decide_False by tauto].
    assert (forall e', q sym e' = Some (fill_order_id f) <-> e' = fill_side f) as Hside.
    { intros e'. split; [|by intros ->]. intros He. by destruct (Hu _ _ _ _ _ He Hf) as [_ ->]. }
    destruct e; destruct (decide (q sym _ = _)) as [E|E]; rewrite Hside in E;
      destruct (decide (sym = sym /\ _)) as [[_ E']|E']; try done; exfalso; by apply E'.
Qed.

Lemma engine_market_ok c ev : engine_ok (x_strategy c) (x_desk c) ->
  engine_ok (x_strategy (experiment_market c ev)) (x_desk (experiment_market c ev)) /\
  se_next_order_id (x_strategy (experiment_market c ev)) = se_next_order_id (x_strategy c).
Proof.
  intros [Hq Hd Ha].
  destruct (experiment_market_effect _ _ _ c ev Hd) as [-> _ Hd' Hp|f sym Hf Hqty H64 Est _ Hd' Hp].
  { split; [|done]. split; try done. intros x. by rewrite Hp. }
  destruct (engine_fill_known (engine_quotes (x_strategy c)) (x_strategy c) sym f ltac:(done) (dk_unique _ _ _ _ Hd) Hf) as (Ec & En & Hinv & Hqs).
  rewrite Est. split; [|done]. split; [by rewrite Ec| |intros x; by rewrite Hinv, Hp, Ha].
  rewrite En. eapply desk_ok_ext, desk_ok_room; [exact Hqs| |exact Hd'].
  intros x e. unfold less_room, any_room. destruct (decide _); lia.
Qed.
End engine.

(** ** The whole experiment *)

(** What the strategy of the experiment holds, and its next order id. *)
Definition held (kind : StrategyKind) (c : ExperimentFloor) (sym : Z) : Z :=
  match kind with MarketMaking => engine_inventory (x_strategy c) sym | Ofi => ofi_inventory (x_ofi c) sym end.

Definition live_orders (kind : StrategyKind) (c : ExperimentFloor) : quotes :=
  match kind with MarketMaking => engine_quotes (x_strategy c) | Ofi => ofi_quotes (x_ofi c) end.

Definition next_id (kind : StrategyKind) (c : ExperimentFloor) : Z :=
  match kind with MarketMaking => se_next_order_id (x_strategy c) | Ofi => oc_next_order_id (x_ofi c) end.

Definition experiment_config_ok (cfg : ExperimentConfig) : Prop :=
  match strategy_kind cfg with MarketMaking => is_u 64 (ec_quote_size (x_strategy_cfg cfg)) | Ofi => ofi_config_ok (x_ofi_cfg cfg) end.

Definition floor_ok (cfg : ExperimentConfig) (c : ExperimentFloor) : Prop :=
  match strategy_kind cfg with
  | MarketMaking => engine_ok (x_strategy c) (x_desk c)
  | Ofi => ofi_ok (x_ofi_cfg cfg) (position_limit (x_ofi_cfg cfg)) (x_ofi c) (x_desk c)
  end.

Section whole.
Context `{StdSort} `{UnorderedMap} (nan_bits : Z).

(** The same orders and positions. *)
Definition same_desk (d d' : ExperimentDesk) : Prop :=
  r_engine (d_router d') = r_engine (d_router d) /\ r_orders (d_router d') = r_orders (d_router d) /\
  forall x, desk_position d' x = desk_position d x.

Lemma floor_ok_desk cfg c d : floor_ok cfg c -> same_desk (x_desk c) d -> floor_ok cfg (mkFloor (x_strategy c) (x_ofi c) d).
Proof.
  unfold floor_ok. intros Hok (He & Ho & Hp). destruct (strategy_kind cfg).
  - destruct Hok as [Hq Hd Ha]. split; [done|by apply (desk_ok_router _ _ _ (x_desk c))|intros x; by rewrite Hp].
  - destruct Hok as [Hc Hd Hb Ha]. split; [done|by apply (desk_ok_router _ _ _ (x_desk c))|done|intros x; by rewrite Hp].
Qed.

Lemma floor_eta c : mkFloor (x_strategy c) (x_ofi c) (x_desk c) = c.
Proof. by destruct c. Qed.

Lemma publish_floor_ok cfg fv c : floor_ok cfg c -> next_id (strategy_kind cfg) c + 2 < 2 ^ 64 ->
  let c' := experiment_publish nan_bits (strategy_kind cfg) fv c in
  floor_ok cfg c' /\ next_id (strategy_kind cfg) c' <= next_id (strategy_kind cfg) c + (if decide (strategy_kind cfg = MarketMaking) then 2 else 0).
Proof.
  intros Hok Hn c'. unfold c', experiment_publish. clear c'. cbn zeta. set (d := set_top _ _ _ _).
  assert (same_desk (x_desk c) d) as Hd by (split_and!; [done..|intros x; apply pnl_on_feature_position]).
  pose proof (floor_ok_desk cfg c d Hok Hd) as Hok1. destruct (strategy_kind cfg) eqn:Ek.
  - assert (engine_ok (x_strategy c) d) as He by (unfold floor_ok in Hok1; by rewrite Ek in Hok1).
    destruct (engine_on_feature_ok (x_strategy c) d fv He Hn) as (s' & d' & -> & Hok' & Hn').
    split; [|rewrite decide_True by done; exact Hn'].
    assert (floor_ok cfg (mkFloor s' (x_ofi c) d')) as Hf by (unfold floor_ok; by rewrite Ek).
    apply (floor_ok_desk cfg _ (log_feature nan_bits fv d') Hf). by split_and!.
  - split; [|by rewrite Z.add_0_r]. apply (floor_ok_desk cfg _ (log_feature nan_bits fv d) Hok1). by split_and!.
Qed.

Lemma ofi_floor_ok cfg ev c : experiment_config_ok cfg -> floor_ok cfg c -> next_id (strategy_kind cfg) c + 2 < 2 ^ 64 ->
  let c' := experiment_ofi (strategy_kind cfg) c ev in
  floor_ok cfg c' /\ next_id (strategy_kind cfg) c' <= next_id (strategy_kind cfg) c + (if decide (strategy_kind cfg = MarketMaking) then 0 else 2).
Proof.
  unfold experiment_config_ok, floor_ok, experiment_ofi. intros Hcfg Hok Hn.
  destruct (strategy_kind cfg); [split; [done|rewrite decide_True by done; lia]|].
  destruct (ofi_on_event_ok _ _ (x_desk c) ev Hcfg Hok Hn) as (s' & d' & -> & Hok' & Hn'). done.
Qed.

Lemma market_floor_ok cfg ev c : experiment_config_ok cfg -> floor_ok cfg c ->
  floor_ok cfg (experiment_market c ev) /\ next_id (strategy_kind cfg) (experiment_market c ev) = next_id (strategy_kind cfg) c.
Proof.
  unfold experiment_config_ok, floor_ok. intros Hcfg Hok. destruct (strategy_kind cfg); [by apply engine_market_ok|by apply ofi_market_ok].
Qed.

Lemma tick_floor_ok cfg ev c : floor_ok cfg c -> floor_ok cfg (experiment_tick c ev).
Proof. intros Hok. apply (floor_ok_desk cfg c _ Hok). split_and!; [done..|]. intros x. apply pnl_on_tick_end_position. Qed.

Record experiment_ok (cfg : ExperimentConfig) (x : ExperimentState) : Prop := {
  xk_bridge : bridge_ok (x_bridge x);
  xk_volume : 0 < vpin_bucket_volume (feature_cfg (fb_features (x_bridge x)));
  xk_floor : floor_ok cfg (x_floor x);
}.

Lemma experiment_step_ok cfg x ev : experiment_config_ok cfg -> experiment_ok cfg x -> next_id (strategy_kind cfg) (x_floor x) + 4 < 2 ^ 64 ->
  exists x', experiment_on_event nan_bits (strategy_kind cfg) x ev = Some x' /\ experiment_ok cfg x' /\
  next_id (strategy_kind cfg) (x_floor x') <= next_id (strategy_kind cfg) (x_floor x) + 2.
Proof.
  intros Hcfg [Hb Hv Hf] Hn. unfold experiment_on_event. destruct (clock_on_event ev (x_clock x)) as [accepted clock].
  destruct accepted; cbn [negb]; [|eexists; split; [done|]; split; [by split|cbn; lia]].
  destruct (bridge_on_event_ok (H := experiment_publisher nan_bits (strategy_kind cfg)) (x_bridge x) (Some (x_floor x)) ev Hb Hv)
    as (b' & pub' & r & -> & Hb' & Hcfg' & _ & Hr).
  set (two := if decide (strategy_kind cfg = MarketMaking) then 2 else 0).
  assert (exists c', pub' = Some c' /\ floor_ok cfg c' /\
    next_id (strategy_kind cfg) c' <= next_id (strategy_kind cfg) (x_floor x) + two) as (c' & -> & Hc' & Hn').
  { assert (0 <= two) by (unfold two; destruct (decide _); lia).
    destruct r as [fv|]; [|exists (x_floor x); split_and!; [done|done|lia]]. destruct Hr as (-> & _).
    eexists. split; [done|]. apply publish_floor_ok; [done|lia]. }
  destruct (ofi_floor_ok cfg ev c' Hcfg Hc') as [Ho Hno]; [unfold two in Hn'; destruct (decide _); lia|].
  destruct (market_floor_ok cfg ev _ Hcfg Ho) as [Hm Hnm].
  eexists. split; [done|]. split; [split; cbn [x_bridge x_floor]; [done|by rewrite Hcfg'|by apply tick_floor_ok]|].
  cbn [x_floor]. assert (forall c, next_id (strategy_kind cfg) (experiment_tick c ev) = next_id (strategy_kind cfg) c) as -> by (intros c; by destruct (strategy_kind cfg)).
  rewrite Hnm. unfold two in Hn'. destruct (decide _); lia.
Qed.

Lemma experiment_events_ok cfg evs : experiment_config_ok cfg -> forall x, experiment_ok cfg x ->
  next_id (strategy_kind cfg) (x_floor x) + 2 * Z.of_nat (length evs) + 2 < 2 ^ 64 ->
  exists x', experiment_events nan_bits (strategy_kind cfg) x evs = Some x' /\ experiment_ok cfg x'.
Proof.
  intros Hcfg. induction evs as [|ev evs IH]; intros x Hx Hn; [by exists x|]. cbn [experiment_events length] in *.
  destruct (experiment_step_ok cfg x ev Hcfg Hx) as (x' & -> & Hx' & Hn'); [lia|]. apply IH; [done|]. lia.
Qed.

Lemma experiment_init_ok slots cfg : experiment_config_ok cfg -> experiment_ok cfg (experiment_init slots cfg) /\
  next_id (strategy_kind cfg) (x_floor (experiment_init slots cfg)) = 1.
Proof.
  intros Hcfg. assert (forall q room, (forall s e, q s e = None) ->
    desk_ok q room 1 (x_desk (x_floor (experiment_init slots cfg)))) as Hdesk.
  { intros q room Hq. split; [done|intros *; by rewrite Hq|intros *; by rewrite Hq|intros s e; by left|intros s e o Ho; done|done]. }
  split; [|by destruct (strategy_kind cfg)]. split; [apply bridge_init_ok|done|].
  unfold floor_ok, experiment_config_ok in *. destruct (strategy_kind cfg).
  - split; [done|by apply Hdesk|done].
  - destruct Hcfg as [Hm Hq Hr]. split; [done|by apply Hdesk|intros s; change (ofi_inventory _ s) with 0; unfold position_limit; lia|done].
Qed.

(** An experiment on any tape returns, and at its end the strategy's inventory
    of every symbol is the accountant's position; per symbol and side at most
    one order rests in the matching engine, and it is the strategy's live
    quote. *)
Theorem experiment_positions_agree slots cfg evs : experiment_config_ok cfg -> 2 * Z.of_nat (length evs) + 3 < 2 ^ 64 ->
  exists x, experiment_events nan_bits (strategy_kind cfg) (experiment_init slots cfg) evs = Some x /\
  let c := x_floor x in
  (forall sym, held (strategy_kind cfg) c sym = pnl_position (r_pnl (d_router (x_desk c))) sym) /\
  (forall sym sd, resting (r_engine (d_router (x_desk c))) sym sd = [] \/
     exists o, resting (r_engine (d_router (x_desk c))) sym sd = [o] /\ live_orders (strategy_kind cfg) c sym sd = Some (o_id o)).
Proof.
  intros Hcfg Hn. destruct (experiment_init_ok slots cfg Hcfg) as [Hi Hn1].
  destruct (experiment_events_ok cfg evs Hcfg _ Hi) as (x & E & [_ _ Hf]); [rewrite Hn1; lia|]. exists x. split; [exact E|].
  unfold floor_ok, held, live_orders in *. destruct (strategy_kind cfg).
  - destruct Hf as [_ Hd Ha]. split; [exact Ha|]. intros sym sd. destruct (dk_rest _ _ _ _ Hd sym sd) as [?|(o & ? & ? & _)]; eauto.
  - destruct Hf as [_ Hd _ Ha]. split; [exact Ha|]. intros sym sd. destruct (dk_rest _ _ _ _ Hd sym sd) as [?|(o & ? & ? & _)]; eauto.
Qed.

(** C16. Whatever the tape, under the order-flow strategy the position the
    accountant books never leaves the limit by more than one quote: it is
    below [max_position + quote_size] on either side. *)
Theorem ofi_position_bounded slots cfg evs : strategy_kind cfg = Ofi -> ofi_config_ok (x_ofi_cfg cfg) ->
  2 * Z.of_nat (length evs) + 3 < 2 ^ 64 ->
  exists x, experiment_events nan_bits Ofi (experiment_init slots cfg) evs = Some x /\
  forall sym, Z.abs (pnl_position (r_pnl (d_router (x_desk (x_floor x)))) sym) < oc_max_position (x_ofi_cfg cfg) + oc_quote_size (x_ofi_cfg cfg).
Proof.
  intros Ek Hcfg Hn. assert (experiment_config_ok cfg) as Hok by (unfold experiment_config_ok; by rewrite Ek).
  destruct (experiment_init_ok slots cfg Hok) as [Hi Hn1].
  destruct (experiment_events_ok cfg evs Hok _ Hi) as (x & E & [_ _ Hf]); [rewrite Hn1; lia|]. rewrite Ek in E. exists x. split; [exact E|].
  unfold floor_ok in Hf. rewrite Ek in Hf. destruct Hf as [_ _ Hb Ha]. intros sym. specialize (Hb sym). rewrite Ha in Hb.
  unfold position_limit, desk_position in Hb. lia.
Qed.

(** *** Late events *)

(** The events not older than the last one taken before them. *)
Fixpoint in_time (now : Z) (evs : list BookEvent) : list BookEvent :=
  match evs with
  | [] => []
  | ev :: evs => if exchange_ts_ns ev <? now then in_time now evs else ev :: in_time (exchange_ts_ns ev) evs
  end.

Lemma length_in_time evs : forall now, (length (in_time now evs) <= length evs)%nat.
Proof. induction evs as [|ev evs IH]; intros now; [done|]. cbn [in_time]. case_match; cbn [length]; [specialize (IH now)|specialize (IH (exchange_ts_ns ev))]; lia. Qed.

(** Two states that differ in how many events they have seen and refused. *)
Definition same_run (x y : ExperimentState) : Prop := x_clock x = x_clock y /\ x_bridge x = x_bridge y /\ x_floor x = x_floor y.

Lemma late_events_run kind evs : forall x y x', same_run x y -> experiment_events nan_bits kind x evs = Some x' ->
  exists y', experiment_events nan_bits kind y (in_time (now_ns (x_clock x)) evs) = Some y' /\ same_run x' y' /\
  u64 (x_clock_rejects x') = u64 (x_clock_rejects x + (Z.of_nat (length evs) - Z.of_nat (length (in_time (now_ns (x_clock x)) evs)))) /\
  u64 (x_events x') = u64 (x_events x + Z.of_nat (length evs)) /\ x_clock_rejects y' = x_clock_rejects y.
Proof.
  induction evs as [|ev evs IH]; intros x y x' Hs He.
  { injection He as <-. exists y. cbn. rewrite !Z.add_0_r. done. }
  cbn [experiment_events] in He. unfold experiment_on_event, clock_on_event, advance_to in He. cbn [in_time].
  destruct (exchange_ts_ns ev <? now_ns (x_clock x)) eqn:Elate; cbn [negb] in He.
  - simpl mbind in He. set (x1 := mkExperiment _ _ _ _ _) in He.
    destruct (IH x1 y x' Hs He) as (y' & E & Hs' & Hr & Hv & Hy). exists y'.
    subst x1. cbn [x_clock x_clock_rejects x_events] in *. split; [exact E|]. split; [done|].
    rewrite Hr, Hv, !u64_add_l. cbn [length]. split_and!; [f_equal; lia|f_equal; lia|done].
  - destruct (bridge_on_event _ _ _) as [[b [c|]]|] eqn:Eb; [|done..]. simpl mbind in He.
    destruct Hs as (E1 & E2 & E3). cbn [experiment_events]. unfold experiment_on_event at 1, clock_on_event, advance_to.
    rewrite <-E1, Elate. cbn [negb]. rewrite <-E2, <-E3, Eb. simpl mbind. set (x1 := mkExperiment _ _ _ _ _) in He.
    match goal with |- context [experiment_events _ _ ?y1 _] => destruct (IH x1 y1 x' (conj eq_refl (conj eq_refl eq_refl)) He) as (y' & E & Hs' & Hr & Hv & Hy) end.
    subst x1. cbn [x_clock now_ns x_clock_rejects x_events] in *. exists y'. split; [exact E|]. split; [done|].
    rewrite Hr, Hv, u64_add_l. cbn [length]. split_and!; [f_equal; lia|f_equal; lia|done].
Qed.

(** The counters are 64-bit values. *)
Lemma counts_small kind evs : forall x x', experiment_events nan_bits kind x evs = Some x' ->
  is_u 64 (x_clock_rejects x) -> is_u 64 (x_events x) -> u64 (x_clock_rejects x') = x_clock_rejects x' /\ u64 (x_events x') = x_events x'.
Proof.
  induction evs as [|ev evs IH]; intros x x' He Hr Hv.
  { injection He as <-. unfold is_u in *. rewrite !u64_small by lia. done. }
  cbn [experiment_events] in He. unfold experiment_on_event in He. destruct (clock_on_event _ _) as [[] c]; cbn [negb] in He.
  - destruct (bridge_on_event _ _ _) as [[b [f|]]|]; [|done..]. simpl mbind in He. apply (IH _ _ He); [done|]. cbn. unfold is_u.
    pose proof (u64_range (x_events x + 1)). lia.
  - simpl mbind in He. apply (IH _ _ He); cbn; unfold is_u; [pose proof (u64_range (x_clock_rejects x + 1))|pose proof (u64_range (x_events x + 1))]; lia.
Qed.

(** A report with other counts and another input. *)
Definition recount (input : EventStoreStats) (events rejects : Z) (r : ExperimentReport) : ExperimentReport :=
  mkExperimentReport input events rejects (er_submitted_orders r) (er_cancel_intents r) (er_fills r) (er_config_hash r)
    (er_output_hash r) (er_pnl r) (er_risk r) (er_period_pnls r) (er_trade_pnls r) (er_equity_curve r).

Lemma in_time_all evs now : (length (in_time now evs) = length evs)%nat <-> in_time now evs = evs.
Proof.
  split; [|by intros ->]. revert now. induction evs as [|ev evs IH]; intros now; [done|]. cbn [in_time].
  destruct (exchange_ts_ns ev <? now); cbn [length].
  - pose proof (length_in_time evs now). lia.
  - intros [= E]. by rewrite (IH _ E).
Qed.

(** C27. An event older than one taken before it is counted and changes nothing
    else: but for the counts, the report is that of the tape without its late
    events, and the run succeeds exactly when there are none. *)
Theorem late_events_ignored slots cfg evs : experiment_config_ok cfg -> 2 * Z.of_nat (length evs) + 3 < 2 ^ 64 ->
  let kept := in_time 0 evs in
  exists r, run_on_events nan_bits slots cfg kept = Some (true, r) /\
  run_on_events nan_bits slots cfg evs =
    Some (bool_decide (kept = evs),
          recount (mkStoreStats (Z.of_nat (length evs)) 0 0 0 0) (Z.of_nat (length evs))
                  (Z.of_nat (length evs) - Z.of_nat (length kept)) r).
Proof.
  intros Hcfg Hn kept. destruct (experiment_init_ok slots cfg Hcfg) as [Hi Hn1].
  destruct (experiment_events_ok cfg evs Hcfg _ Hi) as (x & E & _); [rewrite Hn1; lia|].
  destruct (late_events_run _ evs _ (experiment_init slots cfg) x ltac:(by split_and!) E) as (y & Ey & (E1 & E2 & E3) & Hr & Hv & Hy).
  change (now_ns (x_clock (experiment_init slots cfg))) with 0 in *. fold kept in Ey, Hr.
  pose proof (length_in_time evs 0) as Hl. fold kept in Hl.
  assert (x_clock_rejects x = Z.of_nat (length evs) - Z.of_nat (length kept) /\ x_events x = Z.of_nat (length evs)) as [Er Ev].
  { destruct (counts_small _ _ _ _ E) as [G1 G2]; [done..|]. rewrite <-G1, <-G2, Hr, Hv. cbn. split; rewrite u64_small; lia. }
  unfold run_on_events. rewrite E, Ey. simpl mbind. eexists. split; [by rewrite Hy|].
  unfold recount, fill_report. cbn [er_submitted_orders er_cancel_intents er_fills er_config_hash er_output_hash er_pnl er_risk er_period_pnls er_trade_pnls er_equity_curve].
  rewrite E3, Er, Ev. do 2 f_equal. pose proof (in_time_all evs 0) as Hall. fold kept in Hall.
  destruct (Z.eqb_spec (Z.of_nat (length evs) - Z.of_nat (length kept)) 0) as [Ez|Ez]; symmetry; [apply bool_decide_eq_true, Hall; lia|].
  apply bool_decide_eq_false. intros Hk. rewrite Hk in Ez. lia.
Qed.

(** A tape in order of time is accepted whole. *)
Lemma in_time_sorted evs : forall now, Forall (fun ev => now <= exchange_ts_ns ev) evs ->
  StronglySorted (fun a b => exchange_ts_ns a <= exchange_ts_ns b) evs -> in_time now evs = evs.
Proof.
  induction evs as [|ev evs IH]; intros now Hf Hs; [done|]. apply Forall_cons in Hf as [H1 _]. apply StronglySorted_inv in Hs as [Hs Hf].
  cbn [in_time]. destruct (Z.ltb_spec (exchange_ts_ns ev) now); [lia|]. by rewrite (IH _ Hf Hs).
Qed.

Lemma run_in_time slots cfg evs : experiment_config_ok cfg -> 2 * Z.of_nat (length evs) + 3 < 2 ^ 64 -> in_time 0 evs = evs ->
  exists r, run_on_events nan_bits slots cfg evs = Some (true, r) /\ er_clock_rejects r = 0 /\ er_events_replayed r = Z.of_nat (length evs).
Proof.
  intros Hcfg Hn Hin. destruct (experiment_init_ok slots cfg Hcfg) as [Hi Hn1].
  destruct (experiment_events_ok cfg evs Hcfg _ Hi) as (x & E & _); [rewrite Hn1; lia|].
  destruct (late_events_run _ evs _ (experiment_init slots cfg) x ltac:(by split_and!) E) as (y & _ & _ & Hr & Hv & _).
  change (now_ns (x_clock (experiment_init slots cfg))) with 0 in *. rewrite Hin in Hr.
  destruct (counts_small _ _ _ _ E) as [G1 G2]; [done..|].
  assert (x_clock_rejects x = 0) as Er by (rewrite <-G1, Hr; cbn; rewrite u64_small; lia).
  assert (x_events x = Z.of_nat (length evs)) as Ev by (rewrite <-G2, Hv; cbn; rewrite u64_small; lia).
  unfold run_on_events. rewrite E. simpl mbind. rewrite Er. eexists. split; [done|]. by split.
Qed.

(** *** Recorded tapes *)

Lemma consumer_run kind evs x : fold_left (fun s ev => experiment_consumer nan_bits kind ev s) evs (Some x) =
  experiment_events nan_bits kind x evs.
Proof.
  revert x. assert (fold_left (fun s ev => experiment_consumer nan_bits kind ev s) evs None = None) as Hn by (induction evs; done).
  induction evs as [|ev evs IH]; intros x; [done|]. cbn [fold_left experiment_events].
  change (experiment_consumer nan_bits kind ev (Some x)) with (experiment_on_event nan_bits kind x ev).
  destruct (experiment_on_event nan_bits kind x ev) as [x'|]; [by apply IH|]. clear IH Hn. by induction evs.
Qed.

(** An experiment on a store of appended batches reports what the run on the
    events themselves reports, with the statistics of the store, whose
    checksum is the stream's. *)
Theorem recorded_experiment os_write slots cfg batches :
  (forall f d, d <> [] -> 0 < os_write f d <= Z.of_nat (length d)) ->
  os_write [] (header_bytes book_format) = Z.of_nat kHeaderSize ->
  batches <> [] -> Forall (Forall object_ok) batches -> experiment_config_ok cfg ->
  let evs := map snd (concat batches) in
  2 * Z.of_nat (length evs) + 3 < 2 ^ 64 ->
  exists contents stats ok r, store_append_all os_write [] batches = Some (true, contents) /\
    run_on_events nan_bits slots cfg evs = Some (ok, r) /\
    experiment_run nan_bits slots cfg (Some contents) = Some (ok, recount stats (er_events_replayed r) (er_clock_rejects r) r) /\
    store_crc stats = crc_of_events 0 evs.
Proof.
  intros Hw Hhdr Hne Hb Hcfg evs Hn.
  destruct (store_replay_recorded (experiment_consumer nan_bits (strategy_kind cfg)) os_write batches (Some (experiment_init slots cfg)) Hw Hhdr Hne Hb)
    as (contents & stats & Happ & Hcrc & _ & Hrep). fold evs in Hcrc, Hrep.
  destruct (experiment_init_ok slots cfg Hcfg) as [Hi Hn1].
  destruct (experiment_events_ok cfg evs Hcfg _ Hi) as (x & E & _); [rewrite Hn1; lia|].
  rewrite consumer_run, E in Hrep. exists contents, stats. unfold run_on_events, experiment_run. rewrite E, Hrep.
  eexists _, _. split; [done|]. split; [done|]. split; [done|exact Hcrc].
Qed.
End whole.

(** ** At concrete inputs *)

Definition x_event (t : EventType) (s : Side) (px q ts id : Z) : BookEvent :=
  mkEvent Nasdaq t ts ts ts [65; 65; 80; 76; 32; 32; 32; 32] id 0 0 q px 0 0 s None 0.

(** The tape of the source's test. *)
Definition x_tape : list BookEvent :=
  [x_event Types.Add Buy 100 200 1 1; x_event Types.Add Sell 102 200 2 2;
   x_event Trade Sell 100 100 3 0; x_event Trade Buy 102 100 4 0].

Definition x_nan : Z := 0xfff8000000000000.

Example tape_experiment :
  match run_on_events x_nan 16 experiment_config_default x_tape with
  | Some (ok, r) => (ok, er_submitted_orders r, er_fills r, er_cancel_intents r, total_realized_pnl (er_pnl r)) = (true, 4, 2, 1, of_Z 20)
  | None => False
  end.
Proof. vm_compute. reflexivity. Qed.

Definition x_ofi_config : ExperimentConfig :=
  mkExperimentConfig Ofi engine_config_default (mkOfiConfig signal_config_default 10 1 15 (of_Z 100) 0 0) pnl_config_default (of_Z 1).

(** Sellers hit the strategy's bid until it is past its limit of 15, by 5:
    the second bid, of 10, was placed at a position of 10. *)
Definition x_selling : list BookEvent :=
  [x_event Types.Add Buy 100 200 1 1; x_event Types.Add Sell 104 200 2 2; x_event Trade Sell 100 50 3 0;
   x_event Types.Add Buy 99 10 4 3; x_event Trade Sell 100 50 5 0; x_event Trade Sell 100 50 6 0].

Example selling_experiment :
  match experiment_events x_nan Ofi (experiment_init 16 x_ofi_config) x_selling with
  | Some x => pnl_position (r_pnl (d_router (x_desk (x_floor x)))) (as_u64 (symbol (x_event Trade Buy 0 0 0 0))) = 20
  | None => False
  end.
Proof. vm_compute. reflexivity. Qed.

Lemma ofi_position_bounded_witness :
  exists x, experiment_events x_nan Ofi (experiment_init 16 x_ofi_config) x_selling = Some x /\
  forall sym, Z.abs (pnl_position (r_pnl (d_router (x_desk (x_floor x)))) sym) < 15 + 10.
Proof.
  apply (ofi_position_bounded x_nan 16 x_ofi_config x_selling); [done|split; simpl; lia|simpl; lia].
Defined.

Lemma experiment_positions_agree_witness :
  exists x, experiment_events x_nan MarketMaking (experiment_init 16 experiment_config_default) x_tape = Some x /\
  let c := x_floor x in
  (forall sym, held MarketMaking c sym = pnl_position (r_pnl (d_router (x_desk c))) sym) /\
  (forall sym sd, resting (r_engine (d_router (x_desk c))) sym sd = [] \/
     exists o, resting (r_engine (d_router (x_desk c))) sym sd = [o] /\ live_orders MarketMaking c sym sd = Some (o_id o)).
Proof.
  apply (experiment_positions_agree x_nan 16 experiment_config_default x_tape); [unfold experiment_config_ok, is_u; simpl; lia|simpl; lia].
Defined.

(** The tape with a copy of its third event in front: the two quotes are late. *)
Definition x_late_tape : list BookEvent := [x_event Trade Sell 100 100 3 0] ++ x_tape.

Lemma late_events_ignored_witness : let kept := in_time 0 x_late_tape in
  exists r, run_on_events x_nan 16 experiment_config_default kept = Some (true, r) /\
  run_on_events x_nan 16 experiment_config_default x_late_tape =
    Some (bool_decide (kept = x_late_tape),
          recount (mkStoreStats (Z.of_nat (length x_late_tape)) 0 0 0 0) (Z.of_nat (length x_late_tape))
                  (Z.of_nat (length x_late_tape) - Z.of_nat (length kept)) r).
Proof.
  apply (late_events_ignored x_nan 16 experiment_config_default x_late_tape); [unfold experiment_config_ok, is_u; simpl; lia|simpl; lia].
Defined.

Example late_tape_refused : in_time 0 x_late_tape = [x_event Trade Sell 100 100 3 0; x_event Trade Sell 100 100 3 0; x_event Trade Buy 102 100 4 0].
Proof. reflexivity. Qed.

Lemma recorded_experiment_witness : let evs := map snd (concat [[sample 1; sample 2]; [sample 3]]) in
  exists contents stats ok r, store_append_all write_whole [] [[sample 1; sample 2]; [sample 3]] = Some (true, contents) /\
    run_on_events x_nan 16 experiment_config_default evs = Some (ok, r) /\
    experiment_run x_nan 16 experiment_config_default (Some contents) = Some (ok, recount stats (er_events_replayed r) (er_clock_rejects r) r) /\
    store_crc stats = crc_of_events 0 evs.
Proof.
  apply (recorded_experiment x_nan write_whole 16 experiment_config_default [[sample 1; sample 2]; [sample 3]]).
  - intros f d Hd. unfold write_whole. destruct d; [done|]. simpl length. lia.
  - reflexivity.
  - done.
  - repeat constructor; apply sample_ok; lia.
  - unfold experiment_config_ok, is_u. simpl. lia.
  - simpl. lia.
Defined.

(** Experiments that differ in the signal's window and event cap and in the
    flattening offset have the same configuration hash. *)
Example config_hash_blind :
  let cfg w off := mkExperimentConfig Ofi engine_config_default (mkOfiConfig w 10 1 200 (of_Z 100) off 0) pnl_config_default (dlit 25 100) in
  config_hash x_nan (cfg signal_config_default 0) = config_hash x_nan (cfg (mkSignalConfig 7 1000) 5).
Proof. reflexivity. Qed.

(** The market-making strategy's [max_inventory] only bounds the skew: at a
    maximum of 1, ten shares are bought. *)
Example max_inventory_not_kept :
  let cfg := mkExperimentConfig MarketMaking (mkEngineConfig 1 10 1 dzero dzero 1 0) ofi_config_default pnl_config_default (of_Z 1) in
  match experiment_events x_nan MarketMaking (experiment_init 16 cfg)
          [x_event Types.Add Buy 100 200 1 1; x_event Types.Add Sell 102 200 2 2; x_event Trade Sell 100 100 3 0] with
  | Some x => held MarketMaking (x_floor x) (as_u64 (symbol (x_event Trade Buy 0 0 0 0))) = 10
  | None => False
  end.
Proof. vm_compute. reflexivity. Qed.
