(* ===== verification/OfiBacktest.v ===== *)
(** * The order-flow backtest (tools/ofi_backtest.cpp)

    A journal is loaded and brought into the order of exchange time; the events
    of the last part of its time span are replayed through the experiment under
    the order-flow strategy, and the series of profits is bootstrapped.

    [ofi_backtest_completes]: the replay never fails on its clock, whatever the
    journal held and in whatever order. [ofi_backtest_order_irrelevant]: where
    no two events share their time, venue and number, the order of the journal
    makes no difference to any number reported. Parsing of arguments and the
    report are not modelled. *)

From S2P Require Import Prelude Types Crc Floats EventBytes Journal EventStore Matching Features Pnl Strategy Backtest ResearchStrategies AlphaLab Experiment Bootstrap.

#[local] Open Scope list_scope.
#[local] Open Scope Z_scope.

(** ** The program *)

Record OfiArgs := mkOfiArgs {
  oa_holdout_frac : double; oa_bootstrap_iters : nat; oa_bootstrap_block : nat; oa_threshold : double;
  oa_max_position : Z; oa_quote_size : Z; oa_maker_rebate : double; oa_taker_fee : double; oa_sharpe_bucket_ns : Z;
}.
Definition ofi_args_default : OfiArgs :=
  mkOfiArgs (dlit 30 100) 2000 0 (of_Z 100) 200 20 (dlit 20 10000) (dlit 30 10000) (sharpe_bucket_ns pnl_config_default).

Definition ofi_experiment_config (a : OfiArgs) : ExperimentConfig :=
  let o := ofi_config_default in
  mkExperimentConfig Ofi engine_config_default
    (mkOfiConfig (oc_signal o) (oa_quote_size a) (oc_half_spread_ticks o) (to_i64 (oa_max_position a)) (oa_threshold a)
       (oc_aggressive_flatten_offset_ticks o) (oc_requote_cooldown_events o))
    (mkPnlConfig (oa_sharpe_bucket_ns a) (oa_maker_rebate a) (oa_taker_fee a)) (x_participation_cap experiment_config_default).

Definition by_exchange_time (a b : BookEvent) : bool :=
  if negb (exchange_ts_ns a =? exchange_ts_ns b) then exchange_ts_ns a <? exchange_ts_ns b else
  if negb (bool_decide (venue a = venue b)) then venue_u8 (venue a) <? venue_u8 (venue b) else
  sequence a <? sequence b.

(** From the first and the last time stamp. *)
Definition holdout_start (frac : double) (t_min t_max : Z) : Z :=
  t_min +64 floor_u64 (dmul (of_Z (t_max -64 t_min)) (dsub (of_Z 1) frac)).

(** The changes of equity, zeros left out. *)
Fixpoint equity_deltas (curve : list double) : list double :=
  match curve with
  | a :: (b :: _) as rest => let d := dsub b a in if SFeqb d dzero then equity_deltas rest else d :: equity_deltas rest
  | _ => []
  end.

Definition pnl_series (r : ExperimentReport) : list double :=
  let deltas := equity_deltas (er_equity_curve r) in
  if negb (bool_decide (deltas = [])) then deltas else
  if negb (bool_decide (er_trade_pnls r = [])) then er_trade_pnls r else er_period_pnls r.

(** How the program ends. *)
Inductive OfiOutcome :=
  | EmptyJournal
  | EmptyHoldout (start : Z)
  | ExperimentFailed (r : ExperimentReport)
  | OfiDone (start : Z) (holdout : list BookEvent) (r : ExperimentReport) (boot : BlockBootstrapResult).

Section ofi_backtest.
Context `{StdSort} `{UnorderedMap} (nan_bits : Z) (draw : nat -> nat).

Definition ofi_backtest_on (slots : nat) (a : OfiArgs) (all : list BookEvent) : option OfiOutcome :=
  let all := std_sort by_exchange_time all in
  match head all, last all with
  | Some first, Some final =>
      let start := holdout_start (oa_holdout_frac a) (exchange_ts_ns first) (exchange_ts_ns final) in
      let holdout := filter (fun ev => start <= exchange_ts_ns ev) all in
      if bool_decide (holdout = []) then Some (EmptyHoldout start) else
      '(ok, report) ← run_on_events nan_bits slots (ofi_experiment_config a) holdout;
      if negb ok then Some (ExperimentFailed report) else
      let series := pnl_series report in
      let block_size := if (0 <? oa_bootstrap_block a)%nat then oa_bootstrap_block a else Nat.max 1 (length series / 10) in
      boot ← block_bootstrap_mean_pvalue draw series block_size (oa_bootstrap_iters a);
      Some (OfiDone start holdout report boot)
  | _, _ => Some EmptyJournal
  end.

Definition ofi_backtest (slots : nat) (a : OfiArgs) (journal : option (list Z)) : option OfiOutcome :=
  '(all, _) ← load_all journal; ofi_backtest_on slots a all.

(** ** The order of time *)

Lemma by_exchange_time_spec x y : by_exchange_time x y = true <->
  exchange_ts_ns x < exchange_ts_ns y \/
  exchange_ts_ns x = exchange_ts_ns y /\
  (venue_u8 (venue x) < venue_u8 (venue y) \/ venue_u8 (venue x) = venue_u8 (venue y) /\ sequence x < sequence y).
Proof.
  unfold by_exchange_time. destruct (Z.eqb_spec (exchange_ts_ns x) (exchange_ts_ns y)); cbn [negb]; [|rewrite Z.ltb_lt; lia].
  case_bool_decide as Hv; cbn [negb]; rewrite Z.ltb_lt; [rewrite Hv; lia|]. pose proof (venue_u8_inj (venue x) (venue y)). intuition lia.
Qed.

Lemma by_exchange_time_false x y : by_exchange_time x y = false <-> ~ (by_exchange_time x y = true).
Proof. destruct (by_exchange_time x y); split; congruence. Qed.

Lemma by_exchange_time_order : strict_weak by_exchange_time.
Proof. split; intros *; rewrite ?by_exchange_time_false, ?by_exchange_time_spec; lia. Qed.

Lemma sorted_by_time l : StronglySorted (fun x y => exchange_ts_ns x <= exchange_ts_ns y) (std_sort by_exchange_time l).
Proof.
  eapply sorted_weaken; [|exact (std_sort_sorted _ _ l by_exchange_time_order)].
  intros x y Hxy. unfold not_after in Hxy. rewrite by_exchange_time_false, by_exchange_time_spec in Hxy. lia.
Qed.

(** ** What comes out *)

Context (slots : nat) (a : OfiArgs).
Context (Hpos : 1 <= oa_max_position a < 2 ^ 63) (Hqty : 0 <= oa_quote_size a) (Hlim : oa_max_position a + oa_quote_size a <= 2 ^ 62).

Lemma ofi_args_ok : experiment_config_ok (ofi_experiment_config a).
Proof using Hlim Hpos Hqty. split; cbn; rewrite ?to_i64_small; lia. Qed.

(** The time stamps of [evs] span [lo] to [hi]. *)
Definition spans (lo hi : Z) (evs : list BookEvent) : Prop :=
  lo ∈ map exchange_ts_ns evs /\ hi ∈ map exchange_ts_ns evs /\ Forall (fun ev => lo <= exchange_ts_ns ev <= hi) evs.

Lemma sorted_spans evs first final : head (std_sort by_exchange_time evs) = Some first -> last (std_sort by_exchange_time evs) = Some final ->
  spans (exchange_ts_ns first) (exchange_ts_ns final) evs.
Proof using.
  intros Hf Hl. pose proof (sorted_by_time evs) as Hs. unfold spans. rewrite <-(std_sort_perm _ by_exchange_time evs).
  set (l := std_sort by_exchange_time evs) in *. clearbody l. destruct l as [|x l]; [done|]. injection Hf as ->.
  apply last_Some in Hl as [l' Hl]. split_and!.
  - cbn. left.
  - rewrite Hl, map_app. apply elem_of_app. right. cbn. left.
  - apply Forall_forall. intros ev Hev. split.
    + apply StronglySorted_inv in Hs as [_ Hs]. rewrite Forall_forall in Hs. apply elem_of_cons in Hev as [->|Hev]; [lia|by apply Hs].
    + rewrite Hl in Hs, Hev. apply elem_of_app in Hev as [Hev|Hev]; [|apply list_elem_of_singleton in Hev as ->; lia].
      apply (StronglySorted_app_1_elem_of _ l' [final] _ _ Hs Hev). left.
Qed.

(** What an outcome says of the events recorded. *)
Definition outcome_ok (evs : list BookEvent) (r : OfiOutcome) : Prop :=
  match r with
  | EmptyJournal => evs = []
  | EmptyHoldout start => exists lo hi, spans lo hi evs /\ start = holdout_start (oa_holdout_frac a) lo hi /\ hi < start
  | ExperimentFailed _ => False
  | OfiDone start holdout report boot =>
      (exists lo hi, spans lo hi evs /\ start = holdout_start (oa_holdout_frac a) lo hi) /\
      holdout <> [] /\ Permutation holdout (filter (fun ev => start <= exchange_ts_ns ev) evs) /\
      StronglySorted (fun x y => exchange_ts_ns x <= exchange_ts_ns y) holdout /\
      run_on_events nan_bits slots (ofi_experiment_config a) holdout = Some (true, report) /\
      er_clock_rejects report = 0 /\ er_events_replayed report = Z.of_nat (length holdout) /\
      exists block, block_bootstrap_mean_pvalue draw (pnl_series report) block (oa_bootstrap_iters a) = Some boot
  end.

Lemma ofi_backtest_on_ok evs : Forall (fun ev => 0 <= exchange_ts_ns ev) evs -> 2 * Z.of_nat (length evs) + 3 < 2 ^ 64 ->
  exists r, ofi_backtest_on slots a evs = Some r /\ outcome_ok evs r.
Proof using Hlim Hpos Hqty.
  intros Hnn Hn. unfold ofi_backtest_on. pose proof (sorted_by_time evs) as Hs. pose proof (std_sort_perm _ by_exchange_time evs) as Hp.
  pose proof (sorted_spans evs) as Hspan. set (l := std_sort by_exchange_time evs) in *. clearbody l.
  destruct (head l) as [first|] eqn:Ef; [|destruct l; [|done]; exists EmptyJournal; split; [done|]; by apply Permutation_nil].
  destruct (last l) as [final|] eqn:El; [|destruct l; [done|by apply last_None in El]].
  specialize (Hspan first final eq_refl eq_refl). cbn zeta.
  set (start := holdout_start _ _ _). set (holdout := filter _ l).
  assert (Permutation holdout (filter (fun ev => start <= exchange_ts_ns ev) evs)) as Hh by (unfold holdout; by rewrite Hp).
  case_bool_decide as E.
  { eexists. split; [done|]. eexists _, _. split; [exact Hspan|]. split; [done|]. apply last_Some in El as [l' El].
    destruct (Z.lt_ge_cases (exchange_ts_ns final) start) as [|Hge]; [done|exfalso].
    assert (final ∈ holdout) as Hin by (apply list_elem_of_filter; split; [done|]; rewrite El; apply elem_of_app; right; left).
    rewrite E in Hin. by apply elem_of_nil in Hin. }
  assert (StronglySorted (fun x y => exchange_ts_ns x <= exchange_ts_ns y) holdout) as Hsh by (by apply sorted_filter).
  assert (length holdout <= length evs)%nat as Hlen by (rewrite Hh; apply length_filter).
  assert (Forall (fun ev => 0 <= exchange_ts_ns ev) holdout) as Hnn'.
  { rewrite Hh. apply Forall_forall. intros ev [_ Hev]%list_elem_of_filter. rewrite Forall_forall in Hnn. by apply Hnn. }
  destruct (run_in_time nan_bits slots _ holdout ofi_args_ok) as (report & Er & Hrej & Hrep); [lia|by apply in_time_sorted|].
  rewrite Er. cbn [mbind option_bind negb].
  destruct (block_bootstrap_total draw (pnl_series report)
    (if (0 <? oa_bootstrap_block a)%nat then oa_bootstrap_block a else Nat.max 1 (length (pnl_series report) / 10)) (oa_bootstrap_iters a)) as [boot Eb].
  rewrite Eb. cbn [mbind option_bind]. eexists. split; [done|]. split_and!; eauto.
Qed.

(** C28. Whatever events were recorded, in whatever order and in however many
    batches: the backtest of the journal returns, the experiment on the holdout
    is not refused, and the holdout is every event recorded from the start of
    the holdout on, in the order of time. *)
Theorem recorded_ofi_backtest os_write batches :
  (forall f d, d <> [] -> 0 < os_write f d <= Z.of_nat (length d)) ->
  os_write [] (header_bytes book_format) = Z.of_nat kHeaderSize ->
  batches <> [] -> Forall (Forall object_ok) batches ->
  let evs := map snd (concat batches) in
  2 * Z.of_nat (length evs) + 3 < 2 ^ 64 ->
  exists contents r, store_append_all os_write [] batches = Some (true, contents) /\
    ofi_backtest slots a (Some contents) = Some r /\ outcome_ok evs r.
Proof using Hlim Hpos Hqty.
  intros Hw Hhdr Hne Hb evs Hn.
  destruct (store_replay_recorded (fun ev out => out ++ [ev]) os_write batches [] Hw Hhdr Hne Hb) as (contents & stats & Happ & _ & _ & Hrep).
  fold evs in Hrep. rewrite fold_left_snoc in Hrep.
  destruct (ofi_backtest_on_ok evs) as (r & Hr & Hok); [|done|].
  { subst evs. apply Forall_map, Forall_concat. eapply Forall_impl; [exact Hb|]. intros b Hob. eapply Forall_impl; [exact Hob|].
    intros o [_ Ho]. apply Ho. }
  exists contents, r. split; [done|]. split; [|done]. unfold ofi_backtest, load_all. rewrite Hrep. exact Hr.
Qed.

End ofi_backtest.

(** The order of a journal makes no difference where no two of its events share
    their time, venue and sequence number: the outcome, every number of it, is
    that of any other journal of the same events. *)
Theorem ofi_backtest_order_irrelevant `{StdSort} `{UnorderedMap} nan_bits draw slots a journal journal' evs evs' stats stats' :
  load_all journal = Some (evs, stats) -> load_all journal' = Some (evs', stats') -> Permutation evs evs' ->
  (forall x y, x ∈ evs -> y ∈ evs -> exchange_ts_ns x = exchange_ts_ns y -> venue x = venue y -> sequence x = sequence y -> x = y) ->
  ofi_backtest nan_bits draw slots a journal = ofi_backtest nan_bits draw slots a journal'.
Proof.
  intros E E' Hp Hkey. unfold ofi_backtest. rewrite E, E'. cbn [mbind option_bind]. unfold ofi_backtest_on.
  rewrite (std_sort_unique _ _ _ (fun _ => True) by_exchange_time evs evs'); [done|apply strict_weak_everywhere, by_exchange_time_order|by apply Forall_true| |done].
  intros x y Hx Hy Hxy Hyx. rewrite by_exchange_time_false, by_exchange_time_spec in Hxy, Hyx.
  apply Hkey; [done|done|lia|apply venue_u8_inj; lia|]. lia.
Qed.

(** ** At concrete inputs *)

Definition w_object (t : EventType) (s : Side) (px q ts id : Z) : EventObject := (pad_zero, x_event t s px q ts id).

Lemma w_object_ok t s px q ts id : is_u 32 px -> is_u 32 q -> is_u 64 ts -> is_u 64 id -> object_ok (w_object t s px q ts id).
Proof.
  intros Hp Hq Ht Hi. split; [apply pad_zero_ok|]. split; cbn; try done; try (unfold is_u; lia).
  split; [done|]. repeat constructor; unfold byte_ok, is_u; lia.
Qed.

(** A short tape, its second half recorded first. *)
Definition w_late : list EventObject := [w_object Trade Sell 100 50 900 0; w_object Trade Buy 104 50 1000 0].
Definition w_early : list EventObject :=
  [w_object Types.Add Buy 100 200 100 1; w_object Types.Add Sell 104 200 700 2; w_object Types.Add Buy 99 10 850 3].

Lemma w_batches_ok : Forall (Forall object_ok) [w_late; w_early].
Proof. repeat first [apply Forall_nil_2|apply Forall_cons_2|apply w_object_ok; unfold is_u; lia]. Qed.

Lemma recorded_ofi_backtest_witness : exists contents r,
  store_append_all write_whole [] [w_late; w_early] = Some (true, contents) /\
  ofi_backtest x_nan (fun k => k) 16 ofi_args_default (Some contents) = Some r /\
  outcome_ok x_nan (fun k => k) 16 ofi_args_default (map snd (concat [w_late; w_early])) r.
Proof.
  refine (recorded_ofi_backtest x_nan (fun k => k) 16 ofi_args_default _ _ _ write_whole [w_late; w_early] _ _ _ w_batches_ok _);
    [cbn; lia|cbn; lia|cbn; lia| |reflexivity|done|cbn; lia].
  intros f d Hd. unfold write_whole. destruct d; [done|]. cbn [length]. lia.
Defined.

(** The last 30 per cent of the time from 100 to 1000: from 730 on. *)
Example short_backtest :
  match ofi_backtest_on x_nan (fun k => k) 16 ofi_args_default (map snd (w_late ++ w_early)) with
  | Some (OfiDone start holdout r boot) => (start, map exchange_ts_ns holdout, er_events_replayed r) = (730, [850; 900; 1000], 3)
  | _ => False
  end.
Proof. vm_compute. reflexivity. Qed.

Lemma ofi_backtest_order_irrelevant_witness : exists c c',
  store_append_all write_whole [] [w_late; w_early] = Some (true, c) /\
  store_append_all write_whole [] [w_early ++ w_late] = Some (true, c') /\ c <> c' /\
  ofi_backtest x_nan (fun k => k) 16 ofi_args_default (Some c) = ofi_backtest x_nan (fun k => k) 16 ofi_args_default (Some c').
Proof.
  eexists _, _. split; [vm_compute; reflexivity|]. split; [vm_compute; reflexivity|]. split; [vm_compute; discriminate|].
  eapply (ofi_backtest_order_irrelevant x_nan _ 16 _ _ _ (map snd (w_late ++ w_early)) (map snd (w_early ++ w_late)));
    [vm_compute; reflexivity|vm_compute; reflexivity|apply Permutation_map, Permutation_app_comm|].
  assert (Forall (fun x => Forall (fun y => exchange_ts_ns x = exchange_ts_ns y -> x = y) (map snd (w_late ++ w_early))) (map snd (w_late ++ w_early))) as H
    by (repeat constructor; cbn; lia || discriminate).
  intros x y Hx Hy E _ _. rewrite Forall_forall in H. specialize (H x Hx). cbn beta in H. rewrite Forall_forall in H. by apply H.
Defined.

(** Spans beyond 2^53 ns, some 104 days, may be rounded up: with nothing held
    back at the front, the start still lies behind the last event. *)
Example start_past_end : holdout_start dzero 0 (2 ^ 53 + 3) = 2 ^ 53 + 4.
Proof. vm_compute. reflexivity. Qed.
