(* ===== verification/Sharded.v ===== *)
(** * The sharded runtime (include/mf/runtime/shard_router.hpp,
    include/mf/runtime/sharded_pipeline.hpp)

    Events are routed to worker threads by a hash of their symbol; the checksum
    of the whole stream is computed on the side, incrementally while the stream
    arrives in merge order and through a merger otherwise. The threads and
    their rings are a step relation over bounded queues, which the SPSC ring
    implements. *)

From S2P Require Import Prelude Types Crc Merger.
From stdpp Require Import relations.

#[local] Open Scope list_scope.
#[local] Open Scope Z_scope.

(** ** Routing *)

Definition xorshift (v k : Z) : Z := Z.lxor v (Z.shiftr v k).

Definition splitmix64_mix (v : Z) : Z :=
  let v := xorshift v 30 in
  let v := u64 (v * 0xbf58476d1ce4e5b9) in
  let v := xorshift v 27 in
  let v := u64 (v * 0x94d049bb133111eb) in
  xorshift v 31.

Definition shard_for_symbol_u64 (symbol_u64 shard_count : Z) : Z :=
  if shard_count =? 0 then 0 else splitmix64_mix symbol_u64 mod shard_count.

Definition shard_for_symbol (s : SymbolKey) (shard_count : Z) : Z := shard_for_symbol_u64 (as_u64 s) shard_count.

(** ** The checksum on the side *)

(** [incremental_*] and [routed_events_in_submit_order_]. *)
Record Reaggregator := mkReagg {
  routed : list BookEvent; last_event : option BookEvent; crc_ordered : bool; incremental_crc : Z;
}.
Definition reagg_init : Reaggregator := mkReagg [] None true 0.

Definition update_incremental_reaggregation_crc (r : Reaggregator) (ev : BookEvent) : Reaggregator :=
  let ordered := match last_event r with
                 | Some l => if less_event ev l then false else crc_ordered r
                 | None => crc_ordered r
                 end in
  mkReagg (routed r) (Some ev) ordered
          (if ordered then update_crc_from_book_event (incremental_crc r) ev else incremental_crc r).

(** The part of [submit] that records an accepted event. *)
Definition record_routed (r : Reaggregator) (ev : BookEvent) : Reaggregator :=
  let r := update_incremental_reaggregation_crc r ev in
  mkReagg (routed r ++ [ev]) (last_event r) (crc_ordered r) (incremental_crc r).

(** The loop of [is_deterministic_ordered], after [prev]. *)
Fixpoint ordered_after (prev : BookEvent) (evs : list BookEvent) : bool :=
  match evs with
  | [] => true
  | e :: evs => if less_event e prev then false else ordered_after e evs
  end.

Definition is_deterministic_ordered (evs : list BookEvent) : bool :=
  match evs with [] => true | e :: evs => ordered_after e evs end.

(** What [finalize] reports: whether the fast path was taken, and the checksum. *)
Definition reaggregate (r : Reaggregator) : bool * Z :=
  if is_deterministic_ordered (routed r) && crc_ordered r then (true, incremental_crc r)
  else (false, fold_left update_crc_from_book_event (merger_drain (merger_push_all (merger_init 0) (routed r))) 0).

(** ** Local sequence numbers *)

(** [local_seq_by_shard_] has three counters a shard. *)
Definition kLocalSeqSlots : nat := 3.

Definition local_seq_init (shard_count : nat) : list (list Z) := replicate shard_count (replicate kLocalSeqSlots 0).

(** [++local_seq_by_shard_[shard][venue_idx]]; [None]: outside the array, which
    is undefined. *)
Definition next_local_seq (seqs : list (list Z)) (shard : nat) (v : Venue) : option (Z * list (list Z)) :=
  let i := Z.to_nat (venue_u8 v) in
  match seqs !! shard with
  | None => None
  | Some counters =>
      match counters !! i with
      | None => None
      | Some n => Some (n +64 1, <[shard := <[i := n +64 1]> counters]> seqs)
      end
  end.

(** The routing half of [submit]: the shard and the relabelled event that is
    pushed to it. [None]: a venue index outside the counters. *)
Fixpoint route (shard_count : nat) (seqs : list (list Z)) (evs : list BookEvent) : option (list (nat * BookEvent)) :=
  match evs with
  | [] => Some []
  | e :: evs =>
      let shard := Z.to_nat (shard_for_symbol (symbol e) (Z.of_nat shard_count)) in
      '(n, seqs) ← next_local_seq seqs shard (venue e);
      rest ← route shard_count seqs evs;
      Some ((shard, set_sequence n e) :: rest)
  end.

(** What one worker is given. *)
Definition of_shard (shard : nat) (routed : list (nat * BookEvent)) : list BookEvent :=
  (filter (fun p => p.1 = shard) routed).*2.

(** ** The threads of a shard *)

(** A worker polls its ring; after an empty poll it looks at [input_closed_]. *)
Inductive WorkerPc := Polling | SawEmpty | Finished.

Record Shard := mkShard {
  to_submit : list BookEvent; ring_queue : list BookEvent; input_closed : bool;
  worker_pc : WorkerPc; processed : list BookEvent;
}.

Definition shard_start (evs : list BookEvent) : Shard := mkShard evs [] false Polling [].

Section shard.
(** The ring holds at most [room] events. *)
Context (room : nat).

Inductive shard_step : Shard -> Shard -> Prop :=
  (** [try_push] succeeds, or fails and [submit] yields *)
  | submit_push ev evs q pc done_ :
      (length q < room)%nat ->
      shard_step (mkShard (ev :: evs) q false pc done_) (mkShard evs (q ++ [ev]) false pc done_)
  | submit_full ev evs q pc done_ :
      (room <= length q)%nat ->
      shard_step (mkShard (ev :: evs) q false pc done_) (mkShard (ev :: evs) q false pc done_)
  (** [finalize] closes the input after the last [submit] *)
  | close_input q pc done_ :
      shard_step (mkShard [] q false pc done_) (mkShard [] q true pc done_)
  (** [worker_loop]: [try_pop] succeeds, or fails and the flag is loaded *)
  | worker_pop evs ev q c done_ :
      shard_step (mkShard evs (ev :: q) c Polling done_) (mkShard evs q c Polling (done_ ++ [ev]))
  | worker_empty evs c done_ :
      shard_step (mkShard evs [] c Polling done_) (mkShard evs [] c SawEmpty done_)
  | worker_continue evs q done_ :
      shard_step (mkShard evs q false SawEmpty done_) (mkShard evs q false Polling done_)
  | worker_finish evs q done_ :
      shard_step (mkShard evs q true SawEmpty done_) (mkShard evs q true Finished done_).
End shard.

(** ** The checksum does not depend on the path taken *)

Lemma strict_weak_tie a b : less_event a b = false -> less_event b a = false -> venue a = venue b.
Proof. rewrite !less_event_false, !less_event_spec. intros. apply venue_u8_inj. lia. Qed.

Lemma of_venue_cons v e l : of_venue v (e :: l) = if decide (venue e = v) then e :: of_venue v l else of_venue v l.
Proof. unfold of_venue. rewrite filter_cons. by case_decide. Qed.

Lemma elem_of_of_venue x l : x ∈ l -> x ∈ of_venue (venue x) l.
Proof. intros Hx. unfold of_venue. by apply list_elem_of_filter. Qed.

Lemma of_venue_incl x v l : x ∈ of_venue v l -> x ∈ l.
Proof. unfold of_venue. by intros [_ ?]%list_elem_of_filter. Qed.

(** A sorted stream is determined by its venues' streams, when only events of
    one venue are tied. *)
Lemma sorted_by_venue_inj (lt : BookEvent -> BookEvent -> bool) l :
  (forall a b, lt a b = false -> lt b a = false -> venue a = venue b) -> forall k,
  StronglySorted (not_after lt) l -> StronglySorted (not_after lt) k ->
  (forall v, of_venue v l = of_venue v k) -> l = k.
Proof.
  intros Htie. induction l as [|a l IH]; intros [|b k] Hl Hk Hv.
  - done.
  - specialize (Hv (venue b)). rewrite of_venue_cons, decide_True in Hv by done. discriminate.
  - specialize (Hv (venue a)). rewrite of_venue_cons, decide_True in Hv by done. discriminate.
  - apply StronglySorted_inv in Hl as [Hl Hal], Hk as [Hk Hbk].
    assert (venue a = venue b) as E.
    { destruct (decide (venue a = venue b)) as [|Hne]; [done|]. rewrite Forall_forall in Hal, Hbk.
      pose proof (Hv (venue a)) as Ha. rewrite !of_venue_cons, decide_True, decide_False in Ha by congruence.
      pose proof (Hv (venue b)) as Hb. rewrite !of_venue_cons, decide_False, decide_True in Hb by congruence.
      apply Htie; [apply Hbk, (of_venue_incl _ (venue a))|apply Hal, (of_venue_incl _ (venue b))];
        [rewrite <-Ha|rewrite Hb]; by left. }
    pose proof (Hv (venue a)) as Ha. rewrite !of_venue_cons, !decide_True in Ha by done.
    injection Ha as -> _. f_equal. apply IH; [done..|]. intros v. specialize (Hv v).
    rewrite !of_venue_cons in Hv. case_decide; [by injection Hv|done].
Qed.

Lemma sorted_of_venue_inj l k :
  StronglySorted (not_after less_event) l -> StronglySorted (not_after less_event) k ->
  (forall v, of_venue v l = of_venue v k) -> l = k.
Proof. apply sorted_by_venue_inj. exact strict_weak_tie. Qed.

Lemma of_venue_sorted v l : StronglySorted (not_after less_event) l -> StronglySorted (not_after less_event) (of_venue v l).
Proof.
  induction 1 as [|e l Hl IH He]; [constructor|]. rewrite of_venue_cons. case_decide; [|done].
  constructor; [done|]. rewrite Forall_forall in He |- *. intros x Hx%of_venue_incl. auto.
Qed.

Lemma merge_sorted_id c evs : StronglySorted (not_after less_event) evs ->
  merger_drain (merger_push_all (merger_init c) evs) = evs.
Proof.
  intros Hs. assert (forall v, (queues (merger_push_all (merger_init c) evs)).[v] = of_venue v evs) as Hq.
  { intros v. rewrite push_all_queues. simpl. by rewrite pv_get_const. }
  apply sorted_of_venue_inj; [|done|].
  - apply drain_sorted. intros v. rewrite Hq. by apply of_venue_sorted.
  - intros v. unfold merger_drain. rewrite of_venue_drain; [apply Hq|apply push_all_wf|lia].
Qed.

Lemma not_after_trans a b c : not_after less_event a b -> not_after less_event b c -> not_after less_event a c.
Proof. unfold not_after. intros H1 H2. exact (sw_negtrans _ less_event_strict_weak a b c H1 H2). Qed.

Lemma ordered_after_spec l : forall e, ordered_after e l = true <->
  StronglySorted (not_after less_event) (e :: l).
Proof.
  induction l as [|x l IH]; intros e; cbn [ordered_after]; [split; [by repeat constructor|done]|].
  destruct (less_event x e) eqn:E.
  { split; [done|]. intros [_ H]%StronglySorted_inv. inversion_clear H as [|? ? H1].
    unfold not_after in H1. congruence. }
  rewrite IH. split.
  - intros Hs. constructor; [done|]. constructor; [exact E|]. apply StronglySorted_inv in Hs as [_ Hx].
    eapply Forall_impl; [exact Hx|]. intros y. by apply not_after_trans.
  - by intros [? _]%StronglySorted_inv.
Qed.

Lemma is_deterministic_ordered_spec l :
  is_deterministic_ordered l = true <-> StronglySorted (not_after less_event) l.
Proof. destruct l as [|e l]; [split; [constructor|done]|apply ordered_after_spec]. Qed.

Lemma ordered_after_snoc l : forall e x, ordered_after e (l ++ [x]) =
  ordered_after e l && negb (less_event x (default e (last l))).
Proof.
  induction l as [|y l IH]; intros e x; cbn [ordered_after app]; [simpl; by destruct (less_event x e)|].
  destruct (less_event y e); [done|]. rewrite IH. f_equal. f_equal. f_equal.
  rewrite last_cons. by destruct (last l).
Qed.

Lemma reagg_invariant evs : let r := fold_left record_routed evs reagg_init in
  routed r = evs /\ last_event r = last evs /\ crc_ordered r = is_deterministic_ordered evs /\
  (crc_ordered r = true -> incremental_crc r = crc_of_events 0 evs).
Proof.
  induction evs as [|ev evs IH] using rev_ind; [done|]. rewrite fold_left_app. cbn [fold_left].
  set (r := fold_left record_routed evs reagg_init) in *. destruct IH as (Hr & Hl & Ho & Hc).
  assert (is_deterministic_ordered (evs ++ [ev]) =
          match last evs with Some l => if less_event ev l then false else crc_ordered r | None => crc_ordered r end) as Hd.
  { destruct evs as [|e evs]; [done|]. simpl app. unfold is_deterministic_ordered at 1.
    rewrite ordered_after_snoc, last_cons, Ho. cbn [is_deterministic_ordered].
    destruct (last evs); simpl; destruct (less_event ev _), (ordered_after _ _); done. }
  unfold record_routed, update_incremental_reaggregation_crc. cbn [routed last_event crc_ordered incremental_crc].
  rewrite Hl, Hr, last_snoc. rewrite <-Hd. split_and!; [done..|]. intros Hord. rewrite Hord. unfold crc_of_events.
  rewrite fold_left_app. cbn [fold_left]. f_equal. apply Hc. rewrite Hd in Hord.
  destruct (last evs) as [l|]; [by destruct (less_event ev l)|done].
Qed.

(** The checksum [finalize] reports. *)
Lemma reaggregate_crc evs : (reaggregate (fold_left record_routed evs reagg_init)).2 =
  crc_of_events 0 (merger_drain (merger_push_all (merger_init 0) evs)).
Proof.
  destruct (reagg_invariant evs) as (Hr & _ & Ho & Hc). unfold reaggregate. rewrite Hr, Ho, andb_diag.
  destruct (is_deterministic_ordered evs) eqn:E; [|done]. cbn [snd]. rewrite (Hc Ho). f_equal.
  symmetry. by apply merge_sorted_id, is_deterministic_ordered_spec.
Qed.

(** The path it takes. *)
Lemma reaggregate_fast evs : (reaggregate (fold_left record_routed evs reagg_init)).1 = is_deterministic_ordered evs.
Proof.
  destruct (reagg_invariant evs) as (Hr & _ & Ho & _). unfold reaggregate. rewrite Hr, Ho, andb_diag.
  by destruct (is_deterministic_ordered evs).
Qed.

(** Whatever was submitted, [finalize] reports the checksum of the merged
    stream: the checksum kept on the fly is used exactly when the events were
    submitted in merge order, and is then the checksum of the merge. *)
Theorem reaggregation_paths_agree evs :
  reaggregate (fold_left record_routed evs reagg_init) =
  (is_deterministic_ordered evs,
   crc_of_events 0 (merger_drain (merger_push_all (merger_init 0) evs))).
Proof. rewrite <-reaggregate_crc, <-reaggregate_fast. apply surjective_pairing. Qed.

(** ** Routing *)

Lemma shard_for_symbol_range s n : (0 < n)%nat -> (Z.to_nat (shard_for_symbol s (Z.of_nat n)) < n)%nat.
Proof.
  intros Hn. unfold shard_for_symbol, shard_for_symbol_u64. destruct (Z.eqb_spec (Z.of_nat n) 0); [lia|].
  pose proof (Z.mod_pos_bound (splitmix64_mix (as_u64 s)) (Z.of_nat n)). lia.
Qed.

(** The counter of a venue in a shard. *)
Definition counter (seqs : list (list Z)) (shard : nat) (v : Venue) : option Z :=
  seqs !! shard ≫= fun counters => counters !! Z.to_nat (venue_u8 v).

Lemma next_local_seq_spec seqs shard v n seqs' : next_local_seq seqs shard v = Some (n, seqs') ->
  exists c, counter seqs shard v = Some c /\ n = c +64 1 /\
  forall shard' v', counter seqs' shard' v' =
    if decide (shard' = shard /\ v' = v) then Some n else counter seqs shard' v'.
Proof.
  unfold next_local_seq, counter. destruct (seqs !! shard) as [counters|] eqn:Es; [|done].
  destruct (counters !! _) as [c|] eqn:Ec; [|done]. intros [= <- <-]. exists c. simpl.
  split_and!; [done..|]. intros shard' v'. pose proof (lookup_lt_Some _ _ _ Es). pose proof (lookup_lt_Some _ _ _ Ec).
  destruct (decide (shard' = shard)) as [->|Hs].
  - rewrite list_lookup_insert_eq by done. rewrite Es. simpl. destruct (decide (v' = v)) as [->|Hv].
    + rewrite list_lookup_insert_eq by done. by rewrite decide_True.
    + rewrite decide_False by tauto. apply list_lookup_insert_ne. intros Heq. apply Hv. apply venue_u8_inj.
      destruct v, v'; cbn in *; lia.
  - rewrite decide_False by tauto. by rewrite list_lookup_insert_ne.
Qed.

Lemma of_shard_cons shard p routed : of_shard shard (p :: routed) =
  if decide (p.1 = shard) then p.2 :: of_shard shard routed else of_shard shard routed.
Proof. unfold of_shard. rewrite filter_cons. by case_decide. Qed.

Lemma route_consecutive n evs : forall seqs out shard v c,
  route n seqs evs = Some out -> counter seqs shard v = Some c ->
  0 <= c -> c + Z.of_nat (length evs) < 2 ^ 64 ->
  sequence <$> of_venue v (of_shard shard out) =
  seqZ (c + 1) (Z.of_nat (length (of_venue v (of_shard shard out)))).
Proof.
  induction evs as [|e evs IH]; intros seqs out shard v c Hr Hc H0 Hlt; cbn [route] in Hr.
  { injection Hr as <-. done. }
  destruct (next_local_seq _ _ _) as [[m seqs']|] eqn:En; simpl in Hr; [|done].
  destruct (route n seqs' evs) as [rest|] eqn:Er; simpl in Hr; [|done]. injection Hr as <-.
  apply next_local_seq_spec in En as (d & Hd & -> & Hnew).
  pose proof (Hnew shard v) as Hc'. rewrite of_shard_cons. cbn [fst snd].
  cbn [length] in Hlt. destruct (decide (Z.to_nat _ = shard)) as [Hs|Hs].
  - rewrite of_venue_cons. simpl venue. destruct (decide (venue e = v)) as [Hv|Hv].
    + rewrite decide_True in Hc' by done. subst shard v. rewrite Hd in Hc. injection Hc as ->.
      assert (u64 (c + 1) = c + 1) as Hw by (apply wrap_small; unfold is_u; lia).
      rewrite Hw in Hc' |- *. rewrite fmap_cons. cbn [length]. rewrite seqZ_cons by lia. f_equal.
      rewrite (IH _ _ _ _ _ Er Hc') by lia. f_equal; lia.
    + rewrite decide_False in Hc' by intuition congruence. apply (IH _ _ _ _ _ Er); [congruence|lia..].
  - rewrite decide_False in Hc' by intuition congruence. apply (IH _ _ _ _ _ Er); [congruence|lia..].
Qed.

(** Every shard has its counters. *)
Definition counters_ok (shard_count : nat) (seqs : list (list Z)) : Prop :=
  length seqs = shard_count /\ Forall (fun counters => length counters = kLocalSeqSlots) seqs.

Lemma next_local_seq_total k seqs shard v : counters_ok k seqs -> (shard < k)%nat ->
  venue_u8 v < Z.of_nat kLocalSeqSlots ->
  exists n seqs', next_local_seq seqs shard v = Some (n, seqs') /\ counters_ok k seqs'.
Proof.
  intros [Hk Hl] Hs Hv. unfold next_local_seq. rewrite Forall_lookup in Hl.
  destruct (lookup_lt_is_Some_2 seqs shard) as [counters Hc]; [lia|]. rewrite Hc. pose proof (Hl _ _ Hc).
  assert (0 <= venue_u8 v) by (destruct v; cbn; lia).
  destruct (lookup_lt_is_Some_2 counters (Z.to_nat (venue_u8 v))) as [c Hcv]; [lia|]. rewrite Hcv.
  do 2 eexists. split; [done|]. split; [by rewrite length_insert|].
  apply Forall_lookup. intros i x Hx. apply list_lookup_insert_Some in Hx as [(-> & <- & _)|[_ Hx]]; [|by eapply Hl].
  by rewrite length_insert.
Qed.

Lemma route_total k evs : forall seqs, (0 < k)%nat -> counters_ok k seqs ->
  Forall (fun e => venue_u8 (venue e) < Z.of_nat kLocalSeqSlots) evs -> is_Some (route k seqs evs).
Proof.
  induction evs as [|e evs IH]; intros seqs Hk Hok Hv; [by eexists|]. apply Forall_cons in Hv as [Hv Hvs].
  cbn [route]. pose proof (shard_for_symbol_range (symbol e) k Hk) as Hs.
  destruct (next_local_seq_total _ _ _ _ Hok Hs Hv) as (m & seqs' & -> & Hok'). simpl.
  destruct (IH seqs' Hk Hok' Hvs) as [rest ->]. by eexists.
Qed.

Lemma counters_ok_init k : counters_ok k (local_seq_init k).
Proof. split; [apply length_replicate|]. apply Forall_replicate. apply length_replicate. Qed.

(** Events of the venues that have a counter are all routed, and every shard
    sees every venue numbered 1, 2, 3, ... without a gap, however the symbols
    spread over the shards. *)
Theorem shards_see_no_gap shard_count evs :
  (0 < shard_count)%nat -> Z.of_nat (length evs) < 2 ^ 64 ->
  Forall (fun e => venue_u8 (venue e) < Z.of_nat kLocalSeqSlots) evs ->
  exists routed, route shard_count (local_seq_init shard_count) evs = Some routed /\
  forall shard v, (shard < shard_count)%nat -> venue_u8 v < Z.of_nat kLocalSeqSlots ->
    sequence <$> of_venue v (of_shard shard routed) =
    seqZ 1 (Z.of_nat (length (of_venue v (of_shard shard routed)))).
Proof.
  intros Hk Hlen Hv. destruct (route_total shard_count evs _ Hk (counters_ok_init _) Hv) as [routed Hr].
  exists routed. split; [done|]. intros shard v Hs Hi.
  apply (route_consecutive _ _ _ _ _ _ 0 Hr); [|lia..].
  unfold counter, local_seq_init. rewrite lookup_replicate_2 by done.
  unfold mbind, option_bind. apply lookup_replicate_2. destruct v; cbn in *; lia.
Qed.

Lemma shards_see_no_gap_witness :
  let evs := [sample_event Nasdaq 10 7; sample_event Iex 11 90; sample_event Nasdaq 12 8] in
  exists routed, route 4 (local_seq_init 4) evs = Some routed /\
  forall shard v, (shard < 4)%nat -> venue_u8 v < Z.of_nat kLocalSeqSlots ->
    sequence <$> of_venue v (of_shard shard routed) =
    seqZ 1 (Z.of_nat (length (of_venue v (of_shard shard routed)))).
Proof. apply shards_see_no_gap; [lia|reflexivity|repeat constructor]. Defined.

(** The two venues above index 2 have no counter: [submit] writes past the
    array for them. *)
Example cme_has_no_counter shard_count shard :
  next_local_seq (local_seq_init shard_count) shard Cme = None /\
  next_local_seq (local_seq_init shard_count) shard Bitfinex = None.
Proof.
  unfold next_local_seq, local_seq_init. destruct (replicate _ _ !! shard) as [counters|] eqn:E; [|done].
  by apply lookup_replicate_1 in E as [-> _].
Qed.

(** ** The threads *)

(** Nothing is lost or reordered on the way: what was processed, what is in
    the ring and what is still to be submitted make up the stream, and a full
    ring only delays. *)
Lemma shard_conserves room evs s : rtc (shard_step room) (shard_start evs) s ->
  processed s ++ ring_queue s ++ to_submit s = evs /\ (length (ring_queue s) <= room)%nat /\
  (input_closed s = true -> to_submit s = []) /\ (worker_pc s = Finished -> input_closed s = true).
Proof.
  intros Hr. remember (shard_start evs) as s0 eqn:E.
  assert (processed s0 ++ ring_queue s0 ++ to_submit s0 = evs /\ (length (ring_queue s0) <= room)%nat /\
    (input_closed s0 = true -> to_submit s0 = []) /\ (worker_pc s0 = Finished -> input_closed s0 = true)) as Hi.
  { subst s0. simpl. split_and!; [done|lia|done|done]. }
  clear E. induction Hr as [s|s s1 s2 Hs Hr IH]; [done|]. apply IH. clear IH Hr.
  destruct Hi as (H1 & H2 & H3 & H4). destruct Hs; simpl in *; split_and!;
    rewrite ?length_app; simpl; rewrite <-?app_assoc in *; simpl in *; try done; try lia; auto.
Qed.

(** The empty poll and the look at the flag are two steps: an event pushed
    between them, before the input is closed, stays in the ring for good. *)
Example shard_loses_last_event :
  let ev := sample_event Nasdaq 1 1 in
  exists s, rtc (shard_step 1) (shard_start [ev]) s /\
  worker_pc s = Finished /\ to_submit s = [] /\ processed s = [] /\ ring_queue s = [ev].
Proof.
  intros ev. exists (mkShard [] [ev] true Finished []). split; [|done].
  eapply rtc_l; [apply worker_empty|]. eapply rtc_l; [apply (submit_push 1 ev [] []); simpl; lia|].
  eapply rtc_l; [apply close_input|]. eapply rtc_l; [apply worker_finish|]. apply rtc_refl.
Qed.
