(* ===== verification/ShardedRun.v ===== *)
(** * The workers of the sharded runtime (include/mf/runtime/sharded_pipeline.hpp)

    [submit] and [finalize] of the runtime, and what a worker does with the
    events of its shard: a pipeline and, at the end, the feature bridge fed
    with the merged events.

    A stream numbered without gaps goes straight through a pipeline
    ([in_order_run]), so a worker's bridge sees the merge of its shard's
    events, and for every symbol that is what the merge of the whole stream
    holds of it ([sharding_keeps_symbol_streams]). The clock is a parameter;
    wall times and CPU numbers are not modelled. *)

From S2P Require Import Prelude Types Crc SequenceTracker Recovery Merger Pipeline InOrder OrderTable Levels OrderBook Nbbo NbboJournal Spsc Spmc Floats Features Sharded.
From stdpp Require Import relations.

#[local] Open Scope list_scope.
#[local] Open Scope Z_scope.

(** ** [submit] and [finalize] *)

Record ShardedState := mkSharded {
  local_seq_by_shard : list (list Z); reagg : Reaggregator; submitted_events : Z; routed_events : Z;
}.
Definition sharded_init (shard_count : nat) : ShardedState := mkSharded (local_seq_init shard_count) reagg_init 0 0.

(** [now_ns]: the clock; [pushed]: whether the ring took the event before the
    input was closed. The result, the event pushed to a shard, the new state;
    [None]: no counter for the venue. *)
Definition submit (shard_count : nat) (now_ns : Z) (pushed : bool) (st : ShardedState) (ev : BookEvent)
    : option (bool * option (nat * BookEvent) * ShardedState) :=
  let copy := set_ingest_ts now_ns ev in
  let shard := Z.to_nat (shard_for_symbol (symbol copy) (Z.of_nat shard_count)) in
  '(n, seqs) ← next_local_seq (local_seq_by_shard st) shard (venue copy);
  if pushed then
    Some (true, Some (shard, set_sequence n copy),
          mkSharded seqs (record_routed (reagg st) copy) (submitted_events st +64 1) (routed_events st +64 1))
  else Some (false, None, mkSharded seqs (reagg st) (submitted_events st) (routed_events st)).

Record ShardedStats := mkShardedStats {
  ss_submitted_events : Z; ss_routed_events : Z; sorted_input_fast_path : bool; reaggregated_crc : Z;
}.

Definition sharded_finalize (st : ShardedState) : ShardedStats :=
  let '(fast, crc) := reaggregate (reagg st) in
  mkShardedStats (submitted_events st) (routed_events st) fast crc.

Fixpoint submit_all (shard_count : nat) (st : ShardedState) (evs : list (Z * BookEvent))
    : option (list (nat * BookEvent) * ShardedState) :=
  match evs with
  | [] => Some ([], st)
  | (now, ev) :: evs =>
      match submit shard_count now true st ev with
      | Some (_, Some out, st) => '(rest, st) ← submit_all shard_count st evs; Some (out :: rest, st)
      | _ => None
      end
  end.

(** ** The worker *)

Section worker.
(** What the clock shows at each feature vector. *)
Context (clock : nat -> Z).

Record LatencyPublisher := mkLatency { latencies_ns : list Z; lp_calls : nat }.

#[export] Instance latency_publisher : IFeaturePublisher LatencyPublisher := {|
  fp_try_publish fv p :=
    let now_ns := clock (lp_calls p) in
    (true, mkLatency (if fv_ingest_ts_ns fv <=? now_ns then latencies_ns p ++ [now_ns -64 fv_ingest_ts_ns fv] else latencies_ns p)
             (S (lp_calls p)))
|}.

(** The bridge as the pipeline's sink; [None] once it has not returned. *)
#[export] Instance bridge_sink : MergedEventSink (option (FeatureBridge * option LatencyPublisher)) :=
  fun ev s => match s with Some (b, pub) => bridge_on_event b pub ev | None => None end.

(** [worker_loop] over the events it popped, and its [finalize]. *)
Definition worker_run (gap_window per_venue_capacity : Z) (slots : nat) (evs : list BookEvent)
    : option (option (FeatureBridge * option LatencyPublisher)) :=
  let p := pipeline_run (pipeline_init gap_window per_venue_capacity) evs in
  (pipeline_finalize p (Some (Some (bridge_init slots feature_config_default, Some (mkLatency [] 0))))).2.
End worker.

(** The baseline checksum of an unsharded pipeline without a sink. *)
Definition deterministic_crc_for_events (evs : list BookEvent) : Z :=
  merged_crc (pstats (pipeline_finalize (T := list BookEvent) (pipeline_run (pipeline_init 256 0) evs) None).1).

(** ** The baseline checksum *)

(** The unsharded baseline and the reaggregated checksum are the same on a
    stream without gaps. *)
Theorem baseline_crc_agrees evs : Z.of_nat (length evs) + 260 <= 2 ^ 64 -> numbered evs ->
  deterministic_crc_for_events evs = (reaggregate (fold_left record_routed evs reagg_init)).2.
Proof.
  intros Hlen Hnum. rewrite reaggregate_crc. unfold deterministic_crc_for_events.
  destruct (pipeline_finalize_drain (T := list BookEvent) (pipeline_run (pipeline_init 256 0) evs) None) as [_ ->].
  rewrite (in_order_drain 256 0 evs), (io_crc 256 [] evs _ (in_order_run 256 0 evs ltac:(lia) ltac:(lia) Hnum)) by (done || lia). done.
Qed.

(** ** Sharding a symbol *)

Definition of_symbol (s : SymbolKey) (l : list BookEvent) : list BookEvent := filter (fun e => symbol e = s) l.

(** The event without its sequence number, which the shards renumber. *)
Definition erase (e : BookEvent) : BookEvent := set_sequence 0 e.

(** Time, then venue: the merge order short of the ties within a venue. *)
Definition before_tv (a b : BookEvent) : bool :=
  (exchange_ts_ns a <? exchange_ts_ns b) || ((exchange_ts_ns a =? exchange_ts_ns b) && (venue_u8 (venue a) <? venue_u8 (venue b))).

Lemma before_tv_tie a b : before_tv a b = false -> before_tv b a = false -> venue a = venue b.
Proof. unfold before_tv. intros. apply venue_u8_inj. lia. Qed.

Lemma less_before_tv a b : not_after less_event a b -> not_after before_tv a b.
Proof. unfold not_after. rewrite less_event_false, less_event_spec. unfold before_tv. lia. Qed.

Lemma of_venue_erase v l : of_venue v (erase <$> l) = erase <$> of_venue v l.
Proof. induction l as [|e l IH]; [done|]. rewrite fmap_cons, !of_venue_cons. cbn. rewrite IH. by case_decide. Qed.

Lemma of_symbol_erase s l : of_symbol s (erase <$> l) = erase <$> of_symbol s l.
Proof. induction l as [|e l IH]; [done|]. unfold of_symbol in *. rewrite fmap_cons, !filter_cons, IH. cbn. by case_decide. Qed.

Lemma of_venue_symbol v s l : of_venue v (of_symbol s l) = of_symbol s (of_venue v l).
Proof. unfold of_venue, of_symbol. rewrite !list_filter_filter. apply list_filter_iff. intros x. tauto. Qed.

(** Merging and then selecting a symbol is decided by the venues' streams of it. *)
Lemma merged_symbol_streams s a b :
  (forall v, StronglySorted (not_after less_event) (of_venue v a)) ->
  (forall v, StronglySorted (not_after less_event) (of_venue v b)) ->
  (forall v, erase <$> of_symbol s (of_venue v a) = erase <$> of_symbol s (of_venue v b)) ->
  erase <$> of_symbol s (merger_drain (merger_push_all (merger_init 0) a)) =
  erase <$> of_symbol s (merger_drain (merger_push_all (merger_init 0) b)).
Proof.
  assert (forall l, (forall v, StronglySorted (not_after less_event) (of_venue v l)) ->
    StronglySorted (not_after before_tv) (erase <$> of_symbol s (merger_drain (merger_push_all (merger_init 0) l)))) as Hsorted.
  { intros l Hl. apply (StronglySorted_fmap _ (not_after less_event)); [|apply sorted_filter, merge_output_sorted; exact Hl].
    intros x y Hxy. exact (less_before_tv x y Hxy). }
  intros Ha Hb Hab. apply (sorted_by_venue_inj before_tv); [exact before_tv_tie|by apply Hsorted|by apply Hsorted|].
  intros v. rewrite !of_venue_erase, !of_venue_symbol, !merge_keeps_venue_order. apply Hab.
Qed.

Lemma route_shards n evs : forall seqs out, route n seqs evs = Some out ->
  (erase <$> out.*2) = (erase <$> evs) /\
  Forall (fun p => p.1 = Z.to_nat (shard_for_symbol (symbol p.2) (Z.of_nat n))) out.
Proof.
  induction evs as [|e evs IH]; intros seqs out Hr; cbn [route] in Hr; [by injection Hr as <-|].
  destruct (next_local_seq _ _ _) as [[m seqs']|]; simpl in Hr; [|done].
  destruct (route n seqs' evs) as [rest|] eqn:Er; simpl in Hr; [|done]. injection Hr as <-.
  destruct (IH _ _ Er) as [H1 H2]. split; [by rewrite !fmap_cons, H1|]. by constructor.
Qed.

(** All events of a symbol are in its shard. *)
Lemma of_symbol_shard n s out : Forall (fun p => p.1 = Z.to_nat (shard_for_symbol (symbol p.2) (Z.of_nat n))) out ->
  of_symbol s (of_shard (Z.to_nat (shard_for_symbol s (Z.of_nat n))) out) = of_symbol s out.*2.
Proof.
  induction 1 as [|p out Hp _ IH]; [done|]. rewrite of_shard_cons, fmap_cons. unfold of_symbol in *. rewrite (filter_cons _ p.2).
  destruct (decide (symbol p.2 = s)) as [E|E].
  - rewrite decide_True by (by rewrite Hp, E). rewrite filter_cons, decide_True by done. by rewrite IH.
  - case_decide; [rewrite filter_cons, decide_False by done|]; exact IH.
Qed.

Lemma of_shard_length shard out : (length (of_shard shard out) <= length out)%nat.
Proof. unfold of_shard. rewrite length_fmap. apply length_filter. Qed.

(** *** The shards' streams *)

Lemma of_venue_venue v l : Forall (fun e => venue e = v) (of_venue v l).
Proof. apply Forall_forall. by intros x [? _]%list_elem_of_filter. Qed.

(** A stream whose venues are in time order and numbered is in merge order
    venue by venue. *)
Lemma numbered_sorted l : numbered l ->
  (forall v, StronglySorted (fun a b => exchange_ts_ns a <= exchange_ts_ns b) (of_venue v l)) ->
  forall v, StronglySorted (not_after less_event) (of_venue v l).
Proof.
  intros Hn Ht v. apply (sorted_impl (fun e => venue e = v) (fun a b => exchange_ts_ns a <= exchange_ts_ns b /\ sequence a < sequence b)).
  - intros a b Ha Hb [H1 H2]. unfold not_after. rewrite less_event_false, less_event_spec, Ha, Hb. lia.
  - apply of_venue_venue.
  - apply sorted_and; [apply Ht|]. apply sorted_unmap. rewrite Hn. apply sorted_seqZ.
Qed.

(** The events of the venues that have a counter. *)
Definition counted (evs : list BookEvent) : Prop := Forall (fun e => venue_u8 (venue e) < Z.of_nat kLocalSeqSlots) evs.

(** What the worker of a shard is given: a stream without gaps, in time order
    venue by venue. *)
Record shard_stream_ok (evs x : list BookEvent) : Prop := {
  sst_numbered : numbered x;
  sst_sorted v : StronglySorted (not_after less_event) (of_venue v x);
  sst_length : (length x <= length evs)%nat;
}.

(** An order on erased events that holds within the venues of a stream holds
    within the venues of its shards. *)
Lemma shard_time_order evs out shard v : erase <$> out.*2 = erase <$> evs ->
  (forall v, StronglySorted (not_after less_event) (of_venue v evs)) ->
  StronglySorted (fun a b => exchange_ts_ns a <= exchange_ts_ns b) (of_venue v (of_shard shard out)).
Proof.
  intros He Hs. assert (StronglySorted (fun a b => exchange_ts_ns a <= exchange_ts_ns b) (of_venue v (erase <$> evs))) as H.
  { rewrite of_venue_erase. apply (StronglySorted_fmap _ (fun a b => exchange_ts_ns a <= exchange_ts_ns b)); [done|].
    refine (sorted_impl (fun e => venue e = v) _ _ _ _ (of_venue_venue v evs) (Hs v)). intros a b Ha Hb Hab.
    unfold not_after in Hab. rewrite less_event_false, less_event_spec, Ha, Hb in Hab. lia. }
  rewrite <-He, of_venue_erase in H. apply sorted_unmap in H. cbn [exchange_ts_ns erase set_sequence] in H. clear Hs.
  clear He. induction out as [|p out IH]; [constructor|]. rewrite fmap_cons, of_venue_cons in H. rewrite of_shard_cons.
  destruct (decide (venue p.2 = v)) as [Hv|Hv].
  - apply StronglySorted_inv in H as [H Hp]. case_decide; [|by apply IH]. rewrite of_venue_cons, decide_True by done.
    constructor; [by apply IH|]. rewrite Forall_forall in Hp |- *. intros x Hx. apply Hp.
    apply list_elem_of_filter in Hx as [Hxv Hx]. apply list_elem_of_filter. split; [done|].
    unfold of_shard in Hx. apply list_elem_of_fmap in Hx as (q & -> & [_ Hq]%list_elem_of_filter).
    apply list_elem_of_fmap. eauto.
  - case_decide; [rewrite of_venue_cons, decide_False by done|]; by apply IH.
Qed.

Lemma counted_erase l : counted (erase <$> l) <-> counted l.
Proof. unfold counted. by rewrite Forall_fmap. Qed.

Lemma of_shard_incl shard out x : x ∈ of_shard shard out -> x ∈ out.*2.
Proof.
  unfold of_shard. intros (q & -> & [_ Hq]%list_elem_of_filter)%list_elem_of_fmap. apply list_elem_of_fmap. eauto.
Qed.

Lemma shard_stream k evs out shard : route k (local_seq_init k) evs = Some out -> (shard < k)%nat ->
  Z.of_nat (length evs) < 2 ^ 64 -> counted evs ->
  (forall v, StronglySorted (not_after less_event) (of_venue v evs)) -> shard_stream_ok evs (of_shard shard out).
Proof.
  intros Hr Hk Hlen Hc Hs. destruct (route_shards _ _ _ _ Hr) as [He _].
  assert (numbered (of_shard shard out)) as Hn.
  { intros v. destruct (decide (venue_u8 v < Z.of_nat kLocalSeqSlots)) as [Hv|Hv].
    - apply (route_consecutive _ _ _ _ _ _ 0 Hr); [|lia..].
      unfold counter, local_seq_init. rewrite lookup_replicate_2 by done. unfold mbind, option_bind.
      apply lookup_replicate_2. destruct v; cbn in *; lia.
    - destruct (of_venue v (of_shard shard out)) as [|x rest] eqn:E; [done|]. exfalso.
      assert (x ∈ of_venue v (of_shard shard out)) as Hx by (rewrite E; by left).
      apply list_elem_of_filter in Hx as [<- Hx%of_shard_incl].
      rewrite <-counted_erase, <-He, counted_erase in Hc. unfold counted in Hc. rewrite Forall_forall in Hc.
      by apply Hv, Hc. }
  split; [done| |].
  - apply numbered_sorted; [done|]. intros v. exact (shard_time_order evs out shard v He Hs).
  - pose proof (of_shard_length shard out) as Hl. pose proof (f_equal length He) as E. rewrite !length_fmap in E. lia.
Qed.

(** The stream of a symbol within a venue is the same in its shard. *)
Lemma shard_symbol_stream k evs out s v : route k (local_seq_init k) evs = Some out ->
  erase <$> of_symbol s (of_venue v (of_shard (Z.to_nat (shard_for_symbol s (Z.of_nat k))) out)) =
  erase <$> of_symbol s (of_venue v evs).
Proof.
  intros Hr. destruct (route_shards _ _ _ _ Hr) as [He Hsh].
  by rewrite <-!of_venue_symbol, of_symbol_shard, <-!of_venue_erase, <-!of_symbol_erase, He by done.
Qed.

(** *** [submit] *)

(** The event as it is stamped when it is submitted. *)
Definition stamp (p : Z * BookEvent) : BookEvent := set_ingest_ts p.1 p.2.

Lemma submit_all_spec k tevs : forall st out, route k (local_seq_by_shard st) (stamp <$> tevs) = Some out ->
  exists st', submit_all k st tevs = Some (out, st') /\ reagg st' = fold_left record_routed (stamp <$> tevs) (reagg st) /\
  u64 (submitted_events st') = u64 (submitted_events st + Z.of_nat (length tevs)) /\
  u64 (routed_events st') = u64 (routed_events st + Z.of_nat (length tevs)).
Proof.
  induction tevs as [|[now ev] tevs IH]; intros st out Hr.
  { injection Hr as <-. exists st. cbn. rewrite !Z.add_0_r. done. }
  cbn [submit_all]. rewrite fmap_cons in Hr |- *. cbn [route] in Hr. unfold submit. cbn zeta.
  change (stamp (now, ev)) with (set_ingest_ts now ev) in *.
  destruct (next_local_seq _ _ _) as [[n seqs]|]; [|done]. simpl mbind in Hr. cbn iota beta in Hr.
  simpl mbind. cbn iota beta. destruct (route k seqs _) as [rest|] eqn:Er; [|done]. injection Hr as <-.
  edestruct (IH (mkSharded seqs (record_routed (reagg st) (set_ingest_ts now ev))
    (submitted_events st +64 1) (routed_events st +64 1)) rest Er) as (st' & -> & H1 & H2 & H3).
  exists st'. split; [done|]. cbn [reagg submitted_events routed_events fold_left] in *.
  rewrite H2, H3, !u64_add_l. cbn [length]. rewrite Nat2Z.inj_succ, <-Z.add_1_l, !Z.add_assoc. done.
Qed.

Lemma shard_finished room evs w : rtc (shard_step room) (shard_start evs) w ->
  worker_pc w = Finished -> ring_queue w = [] -> processed w = evs.
Proof.
  intros Hw Hfin Hring. destruct (shard_conserves _ _ _ Hw) as (H1 & _ & H3 & H4).
  by rewrite Hring, H3, !app_nil_r in H1 by auto.
Qed.

(** C23. Every symbol's worker sees of it exactly what the merge of the whole
    stream holds of it, in the same order, up to the sequence numbers, which a
    shard assigns anew: events of the first three venues (the shards' counters
    have no more), each venue's submitted in merge order, are all routed, and a
    worker that
    stopped with its ring empty, however the threads interleaved, runs them
    through its pipeline without a gap and merges them. The checksum reported
    for the run is that of the merge. *)
Theorem sharding_keeps_symbol_streams k G cap tevs : let evs := stamp <$> tevs in
  (0 < k)%nat -> 0 <= G -> Z.of_nat (length evs) + G + 4 <= 2 ^ 64 -> counted evs ->
  (forall v, StronglySorted (not_after less_event) (of_venue v evs)) ->
  exists routed st, submit_all k (sharded_init k) tevs = Some (routed, st) /\
  sharded_finalize st = mkShardedStats (submitted_events st) (routed_events st) (is_deterministic_ordered evs)
    (crc_of_events 0 (merger_drain (merger_push_all (merger_init 0) evs))) /\
  forall s room w,
    rtc (shard_step room) (shard_start (of_shard (Z.to_nat (shard_for_symbol s (Z.of_nat k))) routed)) w ->
    worker_pc w = Finished -> ring_queue w = [] ->
  exists out : list BookEvent,
    (pipeline_finalize (pipeline_run (pipeline_init G cap) (processed w)) (Some [])).2 = Some out /\
    erase <$> of_symbol s out = erase <$> of_symbol s (merger_drain (merger_push_all (merger_init 0) evs)).
Proof.
  intros evs Hk HG Hlen Hc Hs. destruct (route_total k evs _ Hk (counters_ok_init k) Hc) as [routed Hr].
  destruct (submit_all_spec k tevs (sharded_init k) routed Hr) as (st & E & Hst & _). exists routed, st.
  split; [exact E|]. split.
  { unfold sharded_finalize. rewrite Hst. change (reagg (sharded_init k)) with reagg_init.
    rewrite (surjective_pairing (reaggregate _)), reaggregate_crc, reaggregate_fast. done. }
  intros s room w Hw Hfin Hring. rewrite (shard_finished _ _ _ Hw Hfin Hring). clear w Hw Hfin Hring.
  set (shard := Z.to_nat (shard_for_symbol s (Z.of_nat k))).
  destruct (shard_stream k evs routed shard Hr (shard_for_symbol_range s k Hk) ltac:(lia) Hc Hs) as [Hn Hss Hl].
  destruct (pipeline_finalize_drain (pipeline_run (pipeline_init G cap) (of_shard shard routed)) (Some [])) as [-> _].
  rewrite in_order_drain by (done || lia). eexists. split; [apply (f_equal Some), (fold_left_snoc [])|].
  apply merged_symbol_streams; [exact Hss|exact Hs|]. intros v. by apply shard_symbol_stream.
Qed.

(** *** The worker's bridge *)

Lemma bridge_sink_run clock evs : forall b pub,
  fold_left (fun s e => on_merged_event (MergedEventSink := bridge_sink clock) e s) evs (Some (b, pub)) =
  bridge_run (H := latency_publisher clock) b pub evs.
Proof.
  assert (fold_left (fun s e => on_merged_event (MergedEventSink := bridge_sink clock) e s) evs None = None) as Hn.
  { induction evs as [|e evs IH]; [done|]. exact IH. }
  induction evs as [|e evs IH]; intros b pub; [done|]. cbn [fold_left bridge_run].
  change (on_merged_event (MergedEventSink := bridge_sink clock) e (Some (b, pub))) with (bridge_on_event (H := latency_publisher clock) b pub e).
  destruct (bridge_on_event b pub e) as [[b' pub']|]; [|clear IH Hn; by induction evs]. apply IH. clear IH Hn. by induction evs.
Qed.

(** What the latencies are of: the [n]-th vector published is read against
    the clock's [n]-th reading, and left out when the clock is behind. *)
Definition latency_of (clock : nat -> Z) (i : nat) (fv : FeatureVector) : option Z :=
  if fv_ingest_ts_ns fv <=? clock i then Some (clock i -64 fv_ingest_ts_ns fv) else None.

Definition latencies_of (clock : nat -> Z) (out : list FeatureVector) : LatencyPublisher :=
  mkLatency (omap id (imap (latency_of clock) out)) (length out).

Lemma latencies_snoc clock out fv :
  (fp_try_publish (IFeaturePublisher := latency_publisher clock) fv (latencies_of clock out)).2 = latencies_of clock (out ++ [fv]).
Proof.
  unfold latencies_of. cbn. rewrite imap_app, omap_app, length_app, Nat.add_1_r. f_equal. cbn.
  rewrite Nat.add_0_r. unfold latency_of, id. case_match; cbn; [done|by rewrite app_nil_r].
Qed.

Lemma latencies_run clock evs : forall b out,
  bridge_run (H := latency_publisher clock) b (Some (latencies_of clock out)) evs =
  match bridge_run (H := Collector) b (Some out) evs with
  | Some (b', pub) => Some (b', latencies_of clock <$> pub)
  | None => None
  end.
Proof.
  induction evs as [|ev evs IH]; intros b out; [done|]. cbn [bridge_run]. unfold bridge_on_event.
  destruct (book_on_event (fb_books b) ev) as [books apply]. destruct (update_and_current _ _ _ _ _) as [q c].
  destruct (feature_on_event _ _ _ _) as [[[fv|] f]|]; [|by apply IH|done].
  pose proof (latencies_snoc clock out fv) as Hs. cbn [fp_try_publish latency_publisher Collector snd] in Hs |- *.
  rewrite Hs. apply IH.
Qed.

(** A worker given a stream without gaps returns: its bridge has seen the
    merge of the stream, and the latencies it reports are those of the vectors
    the bridge publishes, in order. *)
Theorem worker_reports_latencies clock G cap slots x : 0 <= G -> Z.of_nat (length x) + G + 4 <= 2 ^ 64 -> numbered x ->
  exists b out, worker_run clock G cap slots x = Some (Some (b, Some (latencies_of clock out))) /\
  bridge_run (H := Collector) (bridge_init slots feature_config_default) (Some [])
    (merger_drain (merger_push_all (merger_init 0) x)) = Some (b, Some out).
Proof.
  intros HG Hlen Hn. unfold worker_run.
  destruct (pipeline_finalize_drain (H := bridge_sink clock) (pipeline_run (pipeline_init G cap) x)
    (Some (Some (bridge_init slots feature_config_default, Some (mkLatency [] 0))))) as [-> _].
  rewrite in_order_drain by done. simpl fmap. rewrite bridge_sink_run. change (mkLatency [] 0) with (latencies_of clock []).
  rewrite latencies_run.
  destruct (collector_run (merger_drain (merger_push_all (merger_init 0) x)) (bridge_init slots feature_config_default) [] []
    (bridge_init_ok _ _) ltac:(done) slots eq_refl) as (b & out & E & _). exists b, out. by rewrite E.
Qed.

(** ** At concrete inputs *)

Definition sharded_quote (v : Venue) (c ts seq : Z) : BookEvent :=
  mkEvent v Types.Add seq ts 0 [c; 32; 32; 32; 32; 32; 32; 32] seq 0 0 100 5000 0 0 Buy None 65.

Definition sharded_input : list (Z * BookEvent) :=
  [(7, sharded_quote Nasdaq 65 10 40); (8, sharded_quote Iex 68 11 9); (8, sharded_quote Iex 65 12 11);
   (9, sharded_quote Nasdaq 68 12 41); (9, sharded_quote Nasdaq 65 20 43)].

Lemma sharding_keeps_symbol_streams_witness : let evs := stamp <$> sharded_input in
  exists routed st, submit_all 2 (sharded_init 2) sharded_input = Some (routed, st) /\
  sharded_finalize st = mkShardedStats (submitted_events st) (routed_events st) (is_deterministic_ordered evs)
    (crc_of_events 0 (merger_drain (merger_push_all (merger_init 0) evs))) /\
  forall s room w,
    rtc (shard_step room) (shard_start (of_shard (Z.to_nat (shard_for_symbol s (Z.of_nat 2))) routed)) w ->
    worker_pc w = Finished -> ring_queue w = [] ->
  exists out : list BookEvent,
    (pipeline_finalize (pipeline_run (pipeline_init 256 4096) (processed w)) (Some [])).2 = Some out /\
    erase <$> of_symbol s out = erase <$> of_symbol s (merger_drain (merger_push_all (merger_init 0) evs)).
Proof.
  apply (sharding_keeps_symbol_streams 2 256 4096 sharded_input); [lia|lia|done| |].
  - apply (bool_decide_unpack _). vm_compute. exact I.
  - intros []; repeat constructor.
Defined.

(** The five events go to both shards, each venue numbered from 1. *)
Example sharded_input_routed :
  option_map (fun r => map (fun p => (p.1, sequence p.2)) r.1) (submit_all 2 (sharded_init 2) sharded_input) =
  Some [(0%nat, 1); (1%nat, 1); (0%nat, 1); (1%nat, 1); (0%nat, 2)].
Proof. vm_compute. reflexivity. Qed.

Lemma worker_reports_latencies_witness :
  let x := [sharded_quote Nasdaq 65 10 1; sharded_quote Iex 65 12 1; sharded_quote Nasdaq 65 20 2] in
  exists b out, worker_run (fun n => Z.of_nat n) 256 4096 16 x = Some (Some (b, Some (latencies_of (fun n => Z.of_nat n) out))) /\
  bridge_run (H := Collector) (bridge_init 16 feature_config_default) (Some [])
    (merger_drain (merger_push_all (merger_init 0) x)) = Some (b, Some out).
Proof. apply worker_reports_latencies; [lia|done|]. intros []; vm_compute; reflexivity. Defined.

Lemma baseline_crc_agrees_witness :
  let x := [sharded_quote Nasdaq 65 10 1; sharded_quote Iex 65 12 1; sharded_quote Nasdaq 65 20 2] in
  deterministic_crc_for_events x = (reaggregate (fold_left record_routed x reagg_init)).2.
Proof. apply baseline_crc_agrees; [done|]. intros []; vm_compute; reflexivity. Defined.
