(* ===== verification/Intrusive.v ===== *)
(** * The slab order book (src/phase3/intrusive_order_book.cpp)

    A second order book that keeps every order: nodes in a slab, taken from
    and returned to a free list; at each price of each side a doubly linked
    queue of nodes, first come first; an index from order keys to nodes; and
    the best price of each side, maintained as levels come and go. A node
    reference is an index into the slab, [kNull] for none. *)

From S2P Require Import Prelude Types OrderTable Levels OrderBook.

#[local] Open Scope list_scope.
#[local] Open Scope Z_scope.

(** ** Data *)

Definition kNull : Z := 2 ^ 32 - 1.

Record OrderNode := mkNode {
  n_key : Z; n_symbol : Z; n_price : Z; n_qty : Z; n_prev : Z; n_next : Z;
  n_venue : Venue; n_side : Side; n_live : bool;
}.
Definition node_default : OrderNode := mkNode 0 0 0 0 kNull kNull Nasdaq SideUnknown false.

Record Level := mkLevel { l_price : Z; l_qty : Z; l_head : Z; l_tail : Z }.

Record SideBook := mkSide { levels : gmap Z Level; best_price : Z; has_best : bool; descending : bool }.

Record VenueBook := mkBook { bids : SideBook; asks : SideBook }.
Definition book_empty : VenueBook := mkBook (mkSide ∅ 0 false true) (mkSide ∅ 0 false false).

(** The back of [free_list_] is the head of [free_list]; a cached pointer is
    the symbol of the book it points to. *)
Record IntrusiveOrderBook := mkIntrusive {
  books : PerVenue (gmap Z VenueBook);
  nodes : list OrderNode; free_list : list Z; order_index : gmap Z Z;
  live_order_count : Z; dropped_order_inserts : Z;
  cached_symbols : PerVenue Z; cached_books : PerVenue (option Z); cached_valid : PerVenue bool;
}.

Definition intrusive_init (order_capacity : nat) : IntrusiveOrderBook :=
  mkIntrusive (pv_const ∅) (replicate order_capacity node_default) (seqZ 0 (Z.of_nat order_capacity)) ∅ 0 0
              (pv_const 0) (pv_const None) (pv_const false).

Record ApplyResult := mkApply {
  changed_top : bool; order_pool_exhausted : bool; queue_ahead_before_add : Z; top_after : TopOfBook;
}.

Section updates.
Implicit Types s : IntrusiveOrderBook.
Definition with_books x s := mkIntrusive x (nodes s) (free_list s) (order_index s) (live_order_count s) (dropped_order_inserts s) (cached_symbols s) (cached_books s) (cached_valid s).
Definition with_nodes x s := mkIntrusive (books s) x (free_list s) (order_index s) (live_order_count s) (dropped_order_inserts s) (cached_symbols s) (cached_books s) (cached_valid s).
Definition with_free x s := mkIntrusive (books s) (nodes s) x (order_index s) (live_order_count s) (dropped_order_inserts s) (cached_symbols s) (cached_books s) (cached_valid s).
Definition with_index x s := mkIntrusive (books s) (nodes s) (free_list s) x (live_order_count s) (dropped_order_inserts s) (cached_symbols s) (cached_books s) (cached_valid s).
Definition with_live x s := mkIntrusive (books s) (nodes s) (free_list s) (order_index s) x (dropped_order_inserts s) (cached_symbols s) (cached_books s) (cached_valid s).
Definition with_dropped x s := mkIntrusive (books s) (nodes s) (free_list s) (order_index s) (live_order_count s) x (cached_symbols s) (cached_books s) (cached_valid s).
Definition with_cache syms bs valid s := mkIntrusive (books s) (nodes s) (free_list s) (order_index s) (live_order_count s) (dropped_order_inserts s) syms bs valid.
End updates.

Section node_updates.
Implicit Types n : OrderNode.
Definition set_prev x n := mkNode (n_key n) (n_symbol n) (n_price n) (n_qty n) x (n_next n) (n_venue n) (n_side n) (n_live n).
Definition set_next x n := mkNode (n_key n) (n_symbol n) (n_price n) (n_qty n) (n_prev n) x (n_venue n) (n_side n) (n_live n).
Definition set_node_qty x n := mkNode (n_key n) (n_symbol n) (n_price n) x (n_prev n) (n_next n) (n_venue n) (n_side n) (n_live n).
End node_updates.

(** [nodes_[i]], read and modified. *)
Definition node_at (ns : list OrderNode) (i : Z) : OrderNode := default node_default (ns !! Z.to_nat i).
Definition alter_node (f : OrderNode -> OrderNode) (i : Z) (ns : list OrderNode) : list OrderNode := alter f (Z.to_nat i) ns.

(** ** Books and sides *)

Definition snapshot_top (b : VenueBook) : TopOfBook :=
  let quote s := if has_best s then (true, best_price s, match levels s !! best_price s with
                                                         | Some l => u32 (l_qty l) | None => 0 end)
                 else (false, 0, 0) in
  let '(hb, bp, bq) := quote (bids b) in
  let '(ha, ap, aq) := quote (asks b) in
  mkTop hb ha bp bq ap aq.

Definition book_for (s : IntrusiveOrderBook) (v : Venue) (sym : Z) : Z * IntrusiveOrderBook :=
  match (cached_valid s).[v] && ((cached_symbols s).[v] =? sym), (cached_books s).[v] with
  | true, Some ptr => (ptr, s)
  | _, _ =>
      let by_symbol := (books s).[v] in
      let by_symbol := match by_symbol !! sym with
                       | Some _ => by_symbol
                       | None => <[sym := book_empty]> by_symbol
                       end in
      (sym, s |> with_books ((books s).[v := by_symbol])
              |> with_cache ((cached_symbols s).[v := sym]) ((cached_books s).[v := Some sym]) ((cached_valid s).[v := true]))
  end.

Definition find_book (s : IntrusiveOrderBook) (v : Venue) (sym : Z) : option VenueBook := (books s).[v] !! sym.

Definition book_at (s : IntrusiveOrderBook) (v : Venue) (ptr : Z) : VenueBook :=
  default book_empty (find_book s v ptr).

Definition side_book (b : VenueBook) (sd : Side) : SideBook := if decide (sd = Buy) then bids b else asks b.

Definition put_side (b : VenueBook) (sd : Side) (x : SideBook) : VenueBook :=
  if decide (sd = Buy) then mkBook x (asks b) else mkBook (bids b) x.

Definition store_side (s : IntrusiveOrderBook) (v : Venue) (ptr : Z) (sd : Side) (x : SideBook) : IntrusiveOrderBook :=
  with_books ((books s).[v := <[ptr := put_side (book_at s v ptr) sd x]> (books s).[v]]) s.

Definition put_level (s : SideBook) (l : Level) (price : Z) : SideBook :=
  mkSide (<[price := l]> (levels s)) (best_price s) (has_best s) (descending s).

Definition update_best_on_add (s : SideBook) (price : Z) : SideBook :=
  if negb (has_best s) then mkSide (levels s) price true (descending s) else
  if (descending s && (best_price s <? price)) || (negb (descending s) && (price <? best_price s))
  then mkSide (levels s) price (has_best s) (descending s) else s.

Definition find_or_add_level (s : SideBook) (price : Z) : Level * SideBook :=
  match levels s !! price with
  | Some l => (l, s)
  | None => let l := mkLevel price 0 kNull kNull in (l, update_best_on_add (put_level s l price) price)
  end.

Section books.
Context `{UnorderedMap}.

Definition recompute_best (s : SideBook) : SideBook :=
  fold_left (fun s '(price, level) => if l_qty level =? 0 then s else update_best_on_add s price)
            (map_iter (levels s)) (mkSide (levels s) 0 false (descending s)).

Definition remove_level_if_empty (s : SideBook) (price : Z) : SideBook :=
  match levels s !! price with
  | None => s
  | Some l =>
      if negb (l_qty l =? 0) || negb (l_head l =? kNull) then s else
      let removed_best := has_best s && (best_price s =? price) in
      let s := mkSide (delete price (levels s)) (best_price s) (has_best s) (descending s) in
      if removed_best then recompute_best s else s
  end.

(** ** The slab *)

Definition allocate_node (s : IntrusiveOrderBook) : Z * IntrusiveOrderBook :=
  match free_list s with
  | [] => (kNull, with_dropped (dropped_order_inserts s +64 1) s)
  | idx :: rest =>
      (idx, s |> with_free rest
              |> with_nodes (<[Z.to_nat idx := mkNode 0 0 0 0 kNull kNull Nasdaq SideUnknown true]> (nodes s))
              |> with_live (live_order_count s +64 1))
  end.

Definition release_node (s : IntrusiveOrderBook) (idx : Z) : IntrusiveOrderBook :=
  if (idx =? kNull) || (Z.of_nat (length (nodes s)) <=? idx) || negb (n_live (node_at (nodes s) idx)) then s else
  let s := s |> with_nodes (<[Z.to_nat idx := node_default]> (nodes s)) |> with_free (idx :: free_list s) in
  if 0 <? live_order_count s then with_live (live_order_count s - 1) s else s.

(** ** Orders *)

Definition add_order (s : IntrusiveOrderBook) (v : Venue) (symbol : Z) (ev : BookEvent) : bool * Z * IntrusiveOrderBook :=
  if decide (side ev = SideUnknown) then (true, 0, s) else
  let '(idx, s) := allocate_node s in
  if idx =? kNull then (false, 0, s) else
  let '(ptr, s) := book_for s v symbol in
  let '(level, sb) := find_or_add_level (side_book (book_at s v ptr) (side ev)) (price ev) in
  let queue_ahead := double_of_u64 (l_qty level) in
  let key := order_key v (order_id ev) in
  let ns := alter_node (fun n => mkNode key symbol (price ev) (qty ev) (l_tail level) (n_next n) v (side ev) (n_live n))
                       idx (nodes s) in
  let '(ns, head) := if negb (l_tail level =? kNull) then (alter_node (set_next idx) (l_tail level) ns, l_head level)
                     else (ns, idx) in
  let level := mkLevel (l_price level) (l_qty level +64 qty ev) head idx in
  (true, queue_ahead,
   store_side (with_nodes ns s) v ptr (side ev) (put_level sb level (price ev))
   |> with_index (<[key := idx]> (order_index s))).

(** Takes node [idx] out of the queue of its level. *)
Definition unlink (ns : list OrderNode) (level : Level) (idx : Z) : list OrderNode * Level :=
  let node := node_at ns idx in
  let '(ns, level) :=
    if negb (n_prev node =? kNull) then (alter_node (set_next (n_next node)) (n_prev node) ns, level)
    else (ns, mkLevel (l_price level) (l_qty level) (n_next node) (l_tail level)) in
  let node := node_at ns idx in
  if negb (n_next node =? kNull) then (alter_node (set_prev (n_prev node)) (n_next node) ns, level)
  else (ns, mkLevel (l_price level) (l_qty level) (l_head level) (n_prev node)).

Definition reduce_order (s : IntrusiveOrderBook) (key qty : Z) (delete_all : bool) : IntrusiveOrderBook :=
  match order_index s !! key with
  | None => s
  | Some idx =>
      let node := node_at (nodes s) idx in
      let '(ptr, s) := book_for s (n_venue node) (n_symbol node) in
      let sb := side_book (book_at s (n_venue node) ptr) (n_side node) in
      match levels sb !! n_price node with
      | None => release_node (with_index (delete key (order_index s)) s) idx
      | Some level =>
          let dec := if delete_all || (qty =? 0) || (n_qty node <? qty) then n_qty node else qty in
          let level := mkLevel (l_price level) (if dec <? l_qty level then l_qty level -64 dec else 0)
                               (l_head level) (l_tail level) in
          let ns := alter_node (fun n => set_node_qty (n_qty n -32 dec) n) idx (nodes s) in
          if (n_qty (node_at ns idx) =? 0) || delete_all then
            let '(ns, level) := unlink ns level idx in
            let old_price := n_price (node_at ns idx) in
            let s := release_node (with_nodes ns s |> with_index (delete key (order_index s))) idx in
            store_side s (n_venue node) ptr (n_side node)
              (remove_level_if_empty (put_level sb level (n_price node)) old_price)
          else store_side (with_nodes ns s) (n_venue node) ptr (n_side node) (put_level sb level (n_price node))
      end
  end.

Definition replace_order (s : IntrusiveOrderBook) (v : Venue) (symbol : Z) (ev : BookEvent) : bool * Z * IntrusiveOrderBook :=
  let old_key := order_key v (reference_order_id ev) in
  let '(sd, s) :=
    match order_index s !! old_key with
    | Some idx =>
        (if decide (side ev = SideUnknown) then n_side (node_at (nodes s) idx) else side ev,
         reduce_order s old_key 0 true)
    | None => (side ev, s)
    end in
  add_order s v symbol (set_side sd ev).

Definition on_type (s : IntrusiveOrderBook) (symbol : Z) (ev : BookEvent) : bool * Z * IntrusiveOrderBook :=
  match type ev with
  | Add | AddMpid =>
      if negb (order_id ev =? 0)
      then let '(ok, ahead, s) := add_order s (venue ev) symbol ev in (negb ok, ahead, s)
      else (false, 0, s)
  | Execute | ExecutePrice | Cancel | Delete =>
      (false, 0, reduce_order s (order_key (venue ev) (order_id ev)) (qty ev) (bool_decide (type ev = Delete)))
  | Replace => let '(_, _, s) := replace_order s (venue ev) symbol ev in (false, 0, s)
  | _ => (false, 0, s)
  end.

Definition intrusive_on_event (s : IntrusiveOrderBook) (ev : BookEvent) : IntrusiveOrderBook * ApplyResult :=
  let symbol := as_u64 (symbol ev) in
  let '(ptr, s) := book_for s (venue ev) symbol in
  let before := snapshot_top (book_at s (venue ev) ptr) in
  let '(exhausted, ahead, s) := on_type s symbol ev in
  let after := snapshot_top (book_at s (venue ev) ptr) in
  (s, mkApply (top_changed before after) exhausted ahead after).

Definition intrusive_run (s : IntrusiveOrderBook) (evs : list BookEvent) : IntrusiveOrderBook :=
  fold_left (fun s ev => (intrusive_on_event s ev).1) evs s.

(** ** Reading *)

Definition top_of_book (s : IntrusiveOrderBook) (v : Venue) (sym : Z) : TopOfBook :=
  match find_book s v sym with None => top_default | Some b => snapshot_top b end.

Context `{StdSort}.

Definition side_levels (sb : SideBook) (before : Z -> Z -> bool) : list (Z * Z) :=
  std_sort (fun a b => before a.1 b.1) (map (fun kv => (kv.1, l_qty kv.2)) (map_iter (levels sb))).

Definition snapshot (s : IntrusiveOrderBook) (v : Venue) (sym : Z) : BookSnapshot :=
  match find_book s v sym with
  | None => mkSnapshot [] []
  | Some b => mkSnapshot (side_levels (bids b) (fun p q => q <? p)) (side_levels (asks b) Z.ltb)
  end.
End books.
