(* ===== verification/IntrusiveQueues.v ===== *)
(** * The slab order book refines queues of orders

    The specification: the live orders in order of arrival, each at a place (a
    price of a side of a book). An order whose id is added again stays where it
    is but can no longer be reached. [intrusive_refines_queues]: on every
    stream whose orders have a quantity, the slab book returns exactly what the
    specification returns, and walking the links of a level visits its orders
    in the order of arrival. *)

From S2P Require Import Prelude Types OrderTable Levels OrderBook BookTotals Intrusive.

#[local] Open Scope list_scope.
#[local] Open Scope Z_scope.

(** ** Specification *)

Record Resting := mkResting { r_key : Z; r_place : Place; r_qty : Z; r_reachable : bool }.

Definition hits (k : Z) (o : Resting) : bool := r_reachable o && (r_key o =? k).

Definition supersede (k : Z) (o : Resting) : Resting :=
  if hits k o then mkResting (r_key o) (r_place o) (r_qty o) false else o.

Definition resting_at (pl : Place) (os : list Resting) : list Resting := filter (fun o => r_place o = pl) os.

Definition sum_qty (os : list Resting) : Z := foldr (fun o acc => r_qty o + acc) 0 os.

Definition quantity_at (pl : Place) (os : list Resting) : Z := sum_qty (resting_at pl os).

Definition spec_add (cap : nat) (os : list Resting) (v : Venue) (sym : Z) (ev : BookEvent) : bool * Z * list Resting :=
  if decide (side ev = SideUnknown) then (true, 0, os) else
  if (cap <=? length os)%nat then (false, 0, os) else
  let pl := mkPlace v sym (side ev) (price ev) in
  let key := order_key v (order_id ev) in
  (true, double_of_u64 (quantity_at pl os),
   (supersede key <$> os) ++ [mkResting key pl (qty ev) true]).

Definition spec_reduce (os : list Resting) (k qty : Z) (delete_all : bool) : list Resting :=
  match List.find (hits k) os with
  | None => os
  | Some o =>
      let dec := if delete_all || (qty =? 0) || (r_qty o <? qty) then r_qty o else qty in
      if (r_qty o - dec =? 0) || delete_all then filter (fun o => hits k o = false) os
      else (fun o => if hits k o then mkResting (r_key o) (r_place o) (r_qty o - dec) (r_reachable o) else o) <$> os
  end.

Definition spec_replace (cap : nat) (os : list Resting) (v : Venue) (sym : Z) (ev : BookEvent) : bool * Z * list Resting :=
  let old_key := order_key v (reference_order_id ev) in
  let sd := match List.find (hits old_key) os with
            | Some o => if decide (side ev = SideUnknown) then pl_side (r_place o) else side ev
            | None => side ev
            end in
  spec_add cap (spec_reduce os old_key 0 true) v sym (set_side sd ev).

Definition spec_type (cap : nat) (os : list Resting) (sym : Z) (ev : BookEvent) : bool * Z * list Resting :=
  match type ev with
  | Add | AddMpid =>
      if negb (order_id ev =? 0)
      then let '(ok, ahead, os) := spec_add cap os (venue ev) sym ev in (negb ok, ahead, os)
      else (false, 0, os)
  | Execute | ExecutePrice | Cancel | Delete =>
      (false, 0, spec_reduce os (order_key (venue ev) (order_id ev)) (qty ev) (bool_decide (type ev = Delete)))
  | Replace => let '(_, _, os) := spec_replace cap os (venue ev) sym ev in (false, 0, os)
  | _ => (false, 0, os)
  end.

(** The best of some prices. *)
Definition best_of (descending : bool) (ps : list Z) : option Z :=
  foldr (fun p best => match best with
                       | None => Some p
                       | Some b => Some (if descending then Z.max p b else Z.min p b)
                       end) None ps.

Definition prices_on (v : Venue) (sym : Z) (sd : Side) (os : list Resting) : list Z :=
  (fun o => pl_price (r_place o)) <$>
  filter (fun o => pl_venue (r_place o) = v /\ pl_symbol (r_place o) = sym /\ pl_side (r_place o) = sd) os.

Definition spec_quote (v : Venue) (sym : Z) (sd : Side) (os : list Resting) : bool * Z * Z :=
  match best_of (bool_decide (sd = Buy)) (prices_on v sym sd os) with
  | None => (false, 0, 0)
  | Some p => (true, p, u32 (quantity_at (mkPlace v sym sd p) os))
  end.

Definition spec_top (v : Venue) (sym : Z) (os : list Resting) : TopOfBook :=
  let '(hb, bp, bq) := spec_quote v sym Buy os in
  let '(ha, ap, aq) := spec_quote v sym Sell os in
  mkTop hb ha bp bq ap aq.

Definition spec_on_event (cap : nat) (os : list Resting) (ev : BookEvent) : list Resting * ApplyResult :=
  let sym := as_u64 (symbol ev) in
  let before := spec_top (venue ev) sym os in
  let '(exhausted, ahead, os) := spec_type cap os sym ev in
  let after := spec_top (venue ev) sym os in
  (os, mkApply (top_changed before after) exhausted ahead after).

(** The queue of a level as the code would walk it: [fuel] nodes at most. *)
Fixpoint walk (fuel : nat) (ns : list OrderNode) (i : Z) : list (Z * Z) :=
  match fuel with
  | O => []
  | S fuel => if i =? kNull then [] else
      let n := node_at ns i in (n_key n, n_qty n) :: walk fuel ns (n_next n)
  end.

Definition queue_of (s : IntrusiveOrderBook) (pl : Place) : list (Z * Z) :=
  match levels (side_book (book_at s (pl_venue pl) (pl_symbol pl)) (pl_side pl)) !! pl_price pl with
  | None => []
  | Some l => walk (length (nodes s)) (nodes s) (l_head l)
  end.

(** ** Doubly linked queues *)

Definition onull (o : option Z) : Z := default kNull o.

(** Every node of [l] links to its neighbours in [l]. *)
Definition linked (ns : list OrderNode) (l : list Z) : Prop :=
  forall a i b, l = a ++ i :: b ->
    n_next (node_at ns i) = onull (head b) /\ n_prev (node_at ns i) = onull (last a).

(** [i] is a node of a slab of [n]. *)
Definition in_slab (n : nat) (i : Z) : Prop := 0 <= i < Z.of_nat n.

Lemma node_at_alter f i j ns : in_slab (length ns) i -> 0 <= j ->
  node_at (alter_node f i ns) j = if decide (j = i) then f (node_at ns i) else node_at ns j.
Proof.
  intros Hi Hj. unfold node_at, alter_node. unfold in_slab in Hi. case_decide as E.
  - subst j. rewrite list_lookup_alter_eq. destruct (lookup_lt_is_Some_2 ns (Z.to_nat i)) as [n ->]; [lia|]. done.
  - by rewrite list_lookup_alter_ne by lia.
Qed.

Lemma node_at_insert n i j ns : in_slab (length ns) i -> 0 <= j ->
  node_at (<[Z.to_nat i := n]> ns) j = if decide (j = i) then n else node_at ns j.
Proof.
  intros Hi Hj. unfold node_at. unfold in_slab in Hi. case_decide as E.
  - subst j. by rewrite list_lookup_insert_eq by lia.
  - by rewrite list_lookup_insert_ne by lia.
Qed.

Lemma length_alter_node f i ns : length (alter_node f i ns) = length ns.
Proof. apply length_alter. Qed.

Lemma linked_frame ns ns' l : linked ns l ->
  (forall i, i ∈ l -> n_next (node_at ns' i) = n_next (node_at ns i) /\ n_prev (node_at ns' i) = n_prev (node_at ns i)) ->
  linked ns' l.
Proof.
  intros Hl Hf a i b E. destruct (Hf i) as [-> ->]; [rewrite E; set_solver|]. by apply Hl.
Qed.

Lemma head_app_default (a b : list Z) : head (a ++ b) = match head a with Some x => Some x | None => head b end.
Proof. by destruct a. Qed.

Lemma last_app_default (a b : list Z) : last (a ++ b) = match last b with Some x => Some x | None => last a end.
Proof. apply last_app. Qed.

(** In a list without duplicates the last element occurs nowhere else. *)
Lemma last_occurrence (a c : list Z) j : NoDup (a ++ j :: c) -> last (a ++ j :: c) = Some j <-> c = [].
Proof.
  intros Hn. destruct c as [|x c _] using rev_ind; [by rewrite last_snoc|].
  rewrite app_comm_cons, app_assoc, last_snoc. split; [|by destruct c].
  intros [= ->]. apply NoDup_app in Hn as (_ & _ & Hn). apply NoDup_cons in Hn as [Hn _]. set_solver.
Qed.

Lemma head_occurrence (c b : list Z) j : NoDup (c ++ j :: b) -> head (c ++ j :: b) = Some j <-> c = [].
Proof.
  intros Hn. destruct c as [|x c]; [done|]. simpl. split; [|done]. intros [= ->].
  apply NoDup_cons in Hn as [Hn _]. set_solver.
Qed.

Lemma linked_snoc ns ns' l i : linked ns l -> NoDup (l ++ [i]) ->
  n_next (node_at ns' i) = kNull -> n_prev (node_at ns' i) = onull (last l) ->
  (forall j, j ∈ l -> n_prev (node_at ns' j) = n_prev (node_at ns j) /\
    n_next (node_at ns' j) = if decide (last l = Some j) then i else n_next (node_at ns j)) ->
  linked ns' (l ++ [i]).
Proof.
  intros Hl Hn Hnext Hprev Hf a j b E. destruct b as [|x b _] using rev_ind.
  - apply app_inj_tail in E as [<- <-]. done.
  - rewrite app_comm_cons, app_assoc in E. apply app_inj_tail in E as [El <-].
    destruct (Hl _ _ _ El) as [H1 H2]. destruct (Hf j) as [-> ->]; [rewrite El; set_solver|].
    split; [|done]. apply NoDup_app in Hn as [Hn _]. rewrite El in Hn |- *.
    pose proof (last_occurrence _ _ _ Hn) as Hlast. case_decide as Hd.
    + apply Hlast in Hd as ->. done.
    + rewrite H1. destruct b; [|done]. exfalso. by apply Hd, Hlast.
Qed.

Lemma linked_remove ns ns' a i b : linked ns (a ++ i :: b) -> NoDup (a ++ i :: b) ->
  (forall j, j ∈ a ++ b ->
    n_next (node_at ns' j) = (if decide (last a = Some j) then onull (head b) else n_next (node_at ns j)) /\
    n_prev (node_at ns' j) = (if decide (head b = Some j) then onull (last a) else n_prev (node_at ns j))) ->
  linked ns' (a ++ b).
Proof.
  intros Hl Hn Hf a' j b' E. destruct (Hf j) as [-> ->]; [rewrite E; set_solver|].
  apply NoDup_app in Hn as (Hna & Hab & Hnb). apply NoDup_cons in Hnb as [Hib Hnb].
  apply app_eq_inv in E as [(c & Ea & Eb)|(c & Ea & Eb)].
  1: destruct c as [|x c]; [rewrite app_nil_r in Ea; simpl in Eb; subst a'|injection Eb as <- ->].
  - (* j heads b *)
    subst b. rewrite (decide_True (P := head _ = _)) by done.
    destruct (Hl (a ++ [i]) j b') as [H1 _]; [by rewrite <-app_assoc|].
    rewrite decide_False; [by split|]. intros Hj%last_Some_elem_of. by destruct (Hab j Hj); set_solver.
  - (* j is in a *)
    destruct (Hl a' j (c ++ i :: b)) as [H1 H2]; [by rewrite Ea, <-app_assoc|].
    rewrite (decide_False (P := head b = Some j)).
    2:{ intros Hj%head_Some_elem_of. destruct (Hab j); set_solver. }
    split; [|done]. rewrite Ea in Hna. pose proof (last_occurrence _ _ _ Hna) as Hlast. rewrite <-Ea in Hlast.
    case_decide as Hd; [by apply Hlast in Hd as ->|].
    rewrite H1. destruct c; [|done]. exfalso. by apply Hd, Hlast.
  - (* j is in b *)
    destruct (Hl (a ++ i :: c) j b') as [H1 H2]; [by rewrite Eb, <-app_assoc|].
    rewrite (decide_False (P := last a = Some j)).
    2:{ intros Hj%last_Some_elem_of. destruct (Hab j); set_solver. }
    split; [done|]. rewrite Eb in Hnb. pose proof (head_occurrence _ _ _ Hnb) as Hhead. rewrite <-Eb in Hhead.
    rewrite Ea. case_decide as Hd; [apply Hhead in Hd as ->; by rewrite app_nil_r|].
    rewrite H2. destruct c as [|x c _] using rev_ind; [exfalso; by apply Hd, Hhead|].
    by rewrite app_comm_cons, !app_assoc, !last_snoc.
Qed.

(** ** The best price *)

Definition is_best (desc : bool) (P : Z -> Prop) (b : Z) : Prop :=
  P b /\ forall p, P p -> if desc then p <= b else b <= p.

(** [has_best] and [best_price] of a side are the best of the prices in [P]. *)
Definition best_over (P : Z -> Prop) (sb : SideBook) : Prop :=
  if has_best sb then is_best (descending sb) P (best_price sb) else forall p, ~ P p.

Definition has_level (sb : SideBook) (p : Z) : Prop := is_Some (levels sb !! p).

Lemma best_over_iff P Q sb : (forall p, P p <-> Q p) -> best_over P sb -> best_over Q sb.
Proof. unfold best_over, is_best. intros HPQ. destruct (has_best sb); [|by setoid_rewrite HPQ]. intros [H1 H2]. split; [by apply HPQ|by intros p Hp%HPQ; apply H2]. Qed.

Lemma update_best_levels sb p : levels (update_best_on_add sb p) = levels sb /\
  descending (update_best_on_add sb p) = descending sb.
Proof. unfold update_best_on_add. repeat split_match; done. Qed.

Lemma update_best_over P sb p : best_over P sb -> best_over (fun x => P x \/ x = p) (update_best_on_add sb p).
Proof.
  unfold best_over, update_best_on_add, is_best. intros Hb. destruct (has_best sb) eqn:Eh; simpl.
  2:{ split; [by right|]. intros x [Hx|Hx]; [by destruct (Hb x)|]. destruct (descending sb); lia. }
  destruct Hb as [H1 H2].
  destruct (descending sb) eqn:Ed; simpl; rewrite ?orb_false_r;
    destruct (_ <? _) eqn:E; simpl; rewrite ?Eh, ?Ed; zbool;
    (split; [by auto|intros x [Hx| ->]; [apply H2 in Hx; lia|lia]]).
Qed.

Section best.
Context `{UnorderedMap}.

Lemma recompute_best_spec sb : (forall p l, levels sb !! p = Some l -> l_qty l <> 0) ->
  let sb' := recompute_best sb in
  levels sb' = levels sb /\ descending sb' = descending sb /\ best_over (has_level sb') sb'.
Proof.
  intros Hq. unfold recompute_best.
  set (step := fun s '(price, level) => if l_qty level =? 0 then s else update_best_on_add s price).
  assert (forall it s P, Forall (fun kv => l_qty kv.2 <> 0) it -> best_over P s ->
    let s' := fold_left step it s in
    levels s' = levels s /\ descending s' = descending s /\ best_over (fun x => P x \/ x ∈ it.*1) s') as Hfold.
  { induction it as [|[p l] it IH]; intros s P Hit Hs; cbn [fold_left].
    - split_and!; [done..|]. eapply best_over_iff; [|exact Hs]. intros x. cbn. set_solver.
    - apply Forall_cons in Hit as [Hl Hit]. unfold step at 2 4 6. simpl in Hl.
      destruct (Z.eqb_spec (l_qty l) 0) as [|_]; [done|].
      destruct (IH _ _ Hit (update_best_over _ _ p Hs)) as (H1 & H2 & H3).
      destruct (update_best_levels s p) as [E1 E2]. rewrite E1 in H1. rewrite E2 in H2. split_and!; [done..|].
      eapply best_over_iff; [|exact H3]. intros x. rewrite fmap_cons. cbn. set_solver. }
  destruct (Hfold (map_iter (levels sb)) (mkSide (levels sb) 0 false (descending sb)) (fun _ => False)) as (H1 & H2 & H3).
  - apply Forall_forall. intros [p l] Hin. apply (Hq p). apply map_iter_In. by apply list_elem_of_In.
  - intros p. auto.
  - simpl in H1, H2. split_and!; [done..|]. eapply best_over_iff; [|exact H3]. intros p. unfold has_level. rewrite H1.
    rewrite list_elem_of_fmap. split.
    + intros [[]|([q l] & -> & Hin%list_elem_of_In%map_iter_In)]. by exists l.
    + intros [l Hl]. right. exists (p, l). split; [done|]. by apply list_elem_of_In, map_iter_In.
Qed.

(** ** A side and its queues *)

(** [lv] is the level of [q], a queue of node references and orders. *)
Definition level_rep (ns : list OrderNode) (lv : option Level) (p : Z) (q : list (Z * Resting)) : Prop :=
  match lv with
  | None => q = []
  | Some l => q <> [] /\ l = mkLevel p (sum_qty q.*2) (onull (head q.*1)) (onull (last q.*1)) /\ linked ns q.*1
  end.

Record side_rep (ns : list OrderNode) (sb : SideBook) (sd : Side) (q : Z -> list (Z * Resting)) : Prop := {
  sr_desc : descending sb = bool_decide (sd = Buy);
  sr_level p : level_rep ns (levels sb !! p) p (q p);
  sr_best : best_over (has_level sb) sb;
}.

Lemma levels_put sb l p p' : levels (put_level sb l p) !! p' = if decide (p' = p) then Some l else levels sb !! p'.
Proof. simpl. rewrite lookup_insert. destruct (decide (p = p')), (decide (p' = p)); congruence. Qed.

Lemma find_or_add_level_spec ns sb sd q p level sb' : side_rep ns sb sd q ->
  find_or_add_level sb p = (level, sb') ->
  level = mkLevel p (sum_qty (q p).*2) (onull (head (q p).*1)) (onull (last (q p).*1)) /\ linked ns (q p).*1 /\
  descending sb' = descending sb /\
  (forall l p', levels (put_level sb' l p) !! p' = if decide (p' = p) then Some l else levels sb !! p') /\
  forall l, best_over (has_level (put_level sb' l p)) (put_level sb' l p).
Proof.
  intros [Hd Hl Hb] Hf. unfold find_or_add_level in Hf. pose proof (Hl p) as Hlp.
  destruct (levels sb !! p) as [l0|] eqn:E; injection Hf as <- <-; simpl in Hlp.
  - destruct Hlp as (_ & -> & Hlink). split_and!; [done..| |].
    + intros l p'. apply levels_put.
    + intros l. eapply best_over_iff; [|exact Hb]. intros p'. unfold has_level. rewrite levels_put.
      destruct (decide (p' = p)) as [->|]; [rewrite E; split; by eexists|done].
  - rewrite Hlp. set (l0 := mkLevel p 0 kNull kNull). destruct (update_best_levels (put_level sb l0 p) p) as [E1 E2].
    split_and!; [done|by intros [] ? ?|done| |].
    + intros l p'. rewrite levels_put, E1, levels_put. by destruct (decide (p' = p)).
    + intros l. pose proof (update_best_over _ (put_level sb l0 p) p Hb) as Hu.
      eapply best_over_iff; [|exact Hu]. intros p'. unfold has_level. rewrite levels_put, E1, levels_put.
      destruct (decide (p' = p)) as [->|]; [split; [by eexists|by right]|]. split; [by intros [?| ->]|by left].
Qed.

(** The side after its level at [p] is stored back empty or not. *)
Lemma remove_level_spec sb p l : has_level sb p -> best_over (has_level sb) sb ->
  (forall p' l', p' <> p -> levels sb !! p' = Some l' -> l_qty l' <> 0) ->
  let gone := (l_qty l =? 0) && (l_head l =? kNull) in
  let sb' := remove_level_if_empty (put_level sb l p) p in
  descending sb' = descending sb /\ best_over (has_level sb') sb' /\
  forall p', levels sb' !! p' = if decide (p' = p) then (if gone then None else Some l) else levels sb !! p'.
Proof.
  intros Hp Hb Hq gone. unfold remove_level_if_empty. simpl. rewrite lookup_insert_eq.
  assert (negb (l_qty l =? 0) || negb (l_head l =? kNull) = negb gone) as -> by (unfold gone; by rewrite negb_andb).
  destruct gone; simpl.
  - rewrite delete_insert_eq.
    assert (forall p', delete p (levels sb) !! p' = if decide (p' = p) then None else levels sb !! p') as Hlk.
    { intros p'. case_decide; [subst; apply lookup_delete_eq|by apply lookup_delete_ne]. }
    destruct (has_best sb && (best_price sb =? p)) eqn:E.
    + destruct (recompute_best_spec (mkSide (delete p (levels sb)) (best_price sb) (has_best sb) (descending sb)))
        as (E1 & E2 & E3).
      { simpl. intros p' l'. rewrite Hlk. case_decide; [done|by apply Hq]. }
      simpl in E1, E2. split_and!; [done..|]. intros p'. by rewrite E1.
    + split_and!; [done| |done]. unfold best_over, is_best, has_level in *. simpl.
      destruct (has_best sb); simpl in E; zbool.
      * destruct Hb as [H1 H2]. rewrite Hlk. rewrite decide_False by done. split; [done|].
        intros p'. rewrite Hlk. case_decide; [by intros []|apply H2].
      * intros p'. rewrite Hlk. case_decide; [by intros []|apply Hb].
  - split_and!; [done| |].
    + eapply best_over_iff; [|exact Hb]. intros p'. unfold has_level. rewrite levels_put.
      destruct (decide (p' = p)) as [->|]; [split; [by eexists|done]|done].
    + intros p'. apply levels_put.
Qed.
End best.

(** ** The representation *)

Definition at_place (pl : Place) (ords : list (Z * Resting)) : list (Z * Resting) :=
  filter (fun e => r_place e.2 = pl) ords.

Definition side_at (s : IntrusiveOrderBook) (v : Venue) (sym : Z) (sd : Side) : SideBook :=
  side_book (book_at s v sym) sd.

(** The node of an order holds its fields. *)
Definition holds (ns : list OrderNode) (e : Z * Resting) : Prop :=
  let n := node_at ns e.1 in
  n_key n = r_key e.2 /\ mkPlace (n_venue n) (n_symbol n) (n_side n) (n_price n) = r_place e.2 /\
  n_qty n = r_qty e.2 /\ n_live n = true.

Definition resting_valid (o : Resting) : Prop := 0 < r_qty o < 2 ^ 32 /\ pl_side (r_place o) <> SideUnknown.

Definition cache_ok (s : IntrusiveOrderBook) : Prop :=
  forall v ptr, (cached_valid s).[v] = true -> (cached_books s).[v] = Some ptr ->
    (cached_symbols s).[v] = ptr /\ is_Some ((books s).[v] !! ptr).

(** [ords]: the live orders in order of arrival, with their nodes. *)
Record rep (cap : nat) (s : IntrusiveOrderBook) (ords : list (Z * Resting)) : Prop := {
  rp_length : length (nodes s) = cap;
  rp_slab : Permutation (ords.*1 ++ free_list s) (seqZ 0 (Z.of_nat cap));
  rp_holds : Forall (holds (nodes s)) ords;
  rp_valid : Forall (fun e => resting_valid e.2) ords;
  rp_live : live_order_count s = Z.of_nat (length ords);
  rp_index k i : order_index s !! k = Some i <-> exists o, (i, o) ∈ ords /\ hits k o = true;
  rp_cache : cache_ok s;
  rp_side v sym sd : sd <> SideUnknown ->
    side_rep (nodes s) (side_at s v sym sd) sd (fun p => at_place (mkPlace v sym sd p) ords);
}.

Section at_place.
Implicit Types (ords : list (Z * Resting)) (pl : Place).

Lemma at_place_app pl a b : at_place pl (a ++ b) = at_place pl a ++ at_place pl b.
Proof. apply filter_app. Qed.

Lemma at_place_cons pl e ords : at_place pl (e :: ords) =
  if decide (r_place e.2 = pl) then e :: at_place pl ords else at_place pl ords.
Proof. unfold at_place. rewrite filter_cons. by case_decide. Qed.

Lemma at_place_resting pl ords : (at_place pl ords).*2 = resting_at pl ords.*2.
Proof.
  induction ords as [|e ords IH]; [done|]. rewrite at_place_cons, fmap_cons. unfold resting_at.
  rewrite filter_cons. case_decide; [|done]. by rewrite fmap_cons, IH.
Qed.

Lemma elem_of_at_place pl ords e : e ∈ at_place pl ords <-> r_place e.2 = pl /\ e ∈ ords.
Proof. unfold at_place. by rewrite list_elem_of_filter. Qed.

Lemma at_place_sub pl ords i : i ∈ (at_place pl ords).*1 -> i ∈ ords.*1.
Proof. rewrite !list_elem_of_fmap. intros (e & -> & [_ He]%elem_of_at_place). by exists e. Qed.

Lemma nodup_fst ords i o o' : NoDup ords.*1 -> (i, o) ∈ ords -> (i, o') ∈ ords -> o = o'.
Proof.
  induction ords as [|[j x] ords IH]; [by intros ? []%not_elem_of_nil|]. rewrite fmap_cons, NoDup_cons. simpl.
  intros [Hj Hn] [E1|H1]%elem_of_cons [E2|H2]%elem_of_cons; simplify_eq; try done; [| |by apply IH].
  - destruct Hj. apply list_elem_of_fmap. by exists (j, o').
  - destruct Hj. apply list_elem_of_fmap. by exists (j, o).
Qed.

Lemma at_place_disjoint pl pl' ords i : NoDup ords.*1 ->
  i ∈ (at_place pl ords).*1 -> i ∈ (at_place pl' ords).*1 -> pl = pl'.
Proof.
  intros Hn. rewrite !list_elem_of_fmap.
  intros ([i1 o] & -> & [<- H1]%elem_of_at_place) ([i2 o'] & Hi & [<- H2]%elem_of_at_place).
  simpl in Hi. subst i2. by rewrite (nodup_fst _ _ _ _ Hn H1 H2).
Qed.

Lemma at_place_nodup pl ords : NoDup ords.*1 -> NoDup (at_place pl ords).*1.
Proof.
  intros Hn. eapply sublist_NoDup; [exact Hn|]. unfold at_place. apply fmap_sublist. apply sublist_filter.
Qed.

Lemma at_place_fmap pl (f : Resting -> Resting) ords : (forall o, r_place (f o) = r_place o) ->
  at_place pl (prod_map id f <$> ords) = prod_map id f <$> at_place pl ords.
Proof.
  intros Hf. induction ords as [|e ords IH]; [done|]. rewrite fmap_cons, !at_place_cons. simpl. rewrite Hf.
  case_decide; [|done]. by rewrite IH.
Qed.

Lemma fst_fmap (f : Resting -> Resting) ords : (prod_map id f <$> ords).*1 = ords.*1.
Proof. rewrite <-list_fmap_compose. by apply list_fmap_ext. Qed.

Lemma snd_fmap (f : Resting -> Resting) ords : (prod_map id f <$> ords).*2 = f <$> ords.*2.
Proof. rewrite <-!list_fmap_compose. by apply list_fmap_ext. Qed.

Lemma sum_qty_cons o a : sum_qty (o :: a) = r_qty o + sum_qty a.
Proof. done. Qed.

Lemma sum_qty_app a b : sum_qty (a ++ b) = sum_qty a + sum_qty b.
Proof. induction a as [|o a IH]; [done|]. simpl app. rewrite !sum_qty_cons, IH. lia. Qed.

Lemma sum_qty_fmap (f : Resting -> Resting) os : (forall o, r_qty (f o) = r_qty o) -> sum_qty (f <$> os) = sum_qty os.
Proof. intros Hf. induction os as [|o os IH]; [done|]. rewrite fmap_cons, !sum_qty_cons, Hf. lia. Qed.

Lemma sum_qty_bound ords : Forall (fun e => resting_valid e.2) ords ->
  Z.of_nat (length ords) <= sum_qty ords.*2 <= Z.of_nat (length ords) * 2 ^ 32.
Proof.
  induction 1 as [|e ords He _ IH]; [done|]. rewrite fmap_cons, sum_qty_cons. cbn [length]. destruct He. lia.
Qed.

Lemma at_place_valid pl ords : Forall (fun e => resting_valid e.2) ords -> Forall (fun e => resting_valid e.2) (at_place pl ords).
Proof. rewrite !Forall_forall. intros Hf e [_ He]%elem_of_at_place. auto. Qed.

Lemma at_place_length pl ords : (length (at_place pl ords) <= length ords)%nat.
Proof. apply length_filter. Qed.
End at_place.

(** ** Frames *)

Section frames.
Implicit Types (ns : list OrderNode) (sb : SideBook) (q : list (Z * Resting)).

Definition same_links ns ns' (i : Z) : Prop :=
  n_next (node_at ns' i) = n_next (node_at ns i) /\ n_prev (node_at ns' i) = n_prev (node_at ns i).

Lemma level_rep_frame ns ns' lv p q q' : level_rep ns lv p q -> q'.*1 = q.*1 -> sum_qty q'.*2 = sum_qty q.*2 ->
  (forall i, i ∈ q.*1 -> same_links ns ns' i) -> level_rep ns' lv p q'.
Proof.
  intros Hl E1 E2 Hf. destruct lv as [l|]; simpl in *.
  - destruct Hl as (Hne & -> & Hlink). rewrite E1, E2. split_and!; [|done|by eapply linked_frame].
    intros ->. destruct q; [done|discriminate].
  - subst q. by destruct q'.
Qed.

Lemma side_rep_frame ns ns' sb sd (q q' : Z -> list (Z * Resting)) : side_rep ns sb sd q ->
  (forall p, (q' p).*1 = (q p).*1 /\ sum_qty (q' p).*2 = sum_qty (q p).*2) ->
  (forall p i, i ∈ (q p).*1 -> same_links ns ns' i) -> side_rep ns' sb sd q'.
Proof. intros [Hd Hl Hb] E Hf. split; [done| |done]. intros p. eapply level_rep_frame; [apply Hl|apply E..|apply Hf]. Qed.

Lemma rep_nodup cap s ords : rep cap s ords -> NoDup (ords.*1 ++ free_list s).
Proof. intros Hr. rewrite (rp_slab _ _ _ Hr). apply NoDup_seqZ. Qed.

Lemma rep_in_slab cap s ords i : rep cap s ords -> i ∈ ords.*1 ++ free_list s -> in_slab cap i.
Proof. intros Hr. rewrite (rp_slab _ _ _ Hr). rewrite elem_of_seqZ. unfold in_slab. lia. Qed.

Lemma rep_count cap s ords : rep cap s ords -> (length ords + length (free_list s) = cap)%nat.
Proof.
  intros Hr. pose proof (Permutation_length (rp_slab _ _ _ Hr)) as Hlen.
  rewrite length_app, length_fmap, length_seqZ in Hlen. lia.
Qed.
End frames.

(** ** Books and the cache *)

Definition slab_same (s s' : IntrusiveOrderBook) : Prop :=
  nodes s' = nodes s /\ free_list s' = free_list s /\ order_index s' = order_index s /\
  live_order_count s' = live_order_count s.

Lemma slab_book_for_spec s v sym : cache_ok s -> let '(ptr, s') := book_for s v sym in
  ptr = sym /\ cache_ok s' /\ slab_same s s' /\ forall w k, book_at s' w k = book_at s w k.
Proof.
  intros Hc. unfold book_for. pose proof (Hc v) as Hcv.
  assert (let by_symbol := match (books s).[v] !! sym with
            | Some _ => (books s).[v] | None => <[sym := book_empty]> (books s).[v] end in
    let s' := s |> with_books ((books s).[v := by_symbol])
       |> with_cache ((cached_symbols s).[v := sym]) ((cached_books s).[v := Some sym]) ((cached_valid s).[v := true]) in
    cache_ok s' /\ slab_same s s' /\ forall w k, book_at s' w k = book_at s w k) as Hmiss.
  { cbn zeta. split_and!; [|done|].
    - intros w ptr. simpl. rewrite !pv_get_set_dec. case_decide as Hw; [|by apply Hc]. intros _ [= <-].
      split; [done|]. destruct ((books s).[v] !! sym) eqn:E; [by eexists|]. rewrite lookup_insert_eq. by eexists.
    - intros w k. unfold book_at, find_book. simpl. rewrite pv_get_set_dec. case_decide as Hw; [|done]. subst w.
      destruct ((books s).[v] !! sym) eqn:E; [done|]. rewrite lookup_insert. case_decide; [subst; by rewrite E|done]. }
  destruct ((cached_valid s).[v] && _) eqn:E; [|by split].
  destruct ((cached_books s).[v]) as [ptr|]; [|by split]. zbool. by destruct (Hcv ptr) as [<- _].
Qed.

Lemma slab_book_at_store s v sym sd x w k : book_at (store_side s v sym sd x) w k =
  if decide (w = v /\ k = sym) then put_side (book_at s v sym) sd x else book_at s w k.
Proof.
  unfold store_side, book_at at 1, find_book. simpl. rewrite pv_get_set_dec. case_decide as Hw.
  - subst w. rewrite lookup_insert. destruct (decide (sym = k)) as [->|Hk].
    + destruct (decide _) as [|Hn]; [done|by destruct Hn].
    + destruct (decide _) as [[_ ->]|_]; done.
  - destruct (decide _) as [[-> _]|_]; done.
Qed.

Lemma side_at_store s v sym sd x w k sd' : sd <> SideUnknown -> sd' <> SideUnknown ->
  side_at (store_side s v sym sd x) w k sd' =
  if decide (w = v /\ k = sym /\ sd' = sd) then x else side_at s w k sd'.
Proof.
  intros Hs Hs'. unfold side_at. rewrite slab_book_at_store. destruct (decide (w = v /\ k = sym)) as [[-> ->]|Hn].
  - destruct (decide (sd' = sd)) as [->|Hd].
    + rewrite decide_True by done. unfold side_book, put_side. by case_decide.
    + rewrite decide_False by tauto. unfold side_book, put_side. by destruct sd, sd'.
  - by rewrite decide_False by tauto.
Qed.

Lemma cache_ok_store s v sym sd x : cache_ok s -> cache_ok (store_side s v sym sd x).
Proof.
  intros Hc w ptr H1 H2. destruct (Hc w ptr H1 H2) as [E Hs]. split; [done|]. simpl. rewrite pv_get_set_dec.
  case_decide; [subst w|done]. rewrite lookup_insert. case_decide; [by eexists|done].
Qed.

(** ** Adding an order *)

(** A write through a reference that may be null. *)
Definition alter_opt (f : OrderNode -> OrderNode) (o : option Z) (ns : list OrderNode) : list OrderNode :=
  if negb (onull o =? kNull) then alter_node f (onull o) ns else ns.

Lemma alter_opt_spec f o ns : (forall x, o = Some x -> in_slab (length ns) x /\ x <> kNull) ->
  length (alter_opt f o ns) = length ns /\
  forall j, 0 <= j -> node_at (alter_opt f o ns) j = if decide (o = Some j) then f (node_at ns j) else node_at ns j.
Proof.
  intros Ho. unfold alter_opt. destruct o as [x|]; simpl; [|done]. destruct (Ho x eq_refl) as [Hx Hnull].
  destruct (Z.eqb_spec x kNull); [done|]. simpl. split; [apply length_alter_node|]. intros j Hj.
  rewrite node_at_alter by done. destruct (decide (j = x)) as [->|]; [by rewrite decide_True|].
  by rewrite decide_False by congruence.
Qed.

(** The slab writes of [add_order]: fill node [idx] and link the old tail to it. *)
Definition append_nodes (ns : list OrderNode) (idx : Z) (t : option Z) (f : OrderNode -> OrderNode) : list OrderNode :=
  alter_opt (set_next idx) t (alter_node f idx ns).

Lemma append_nodes_spec ns idx (t : option Z) f : in_slab (length ns) idx ->
  (forall x, t = Some x -> in_slab (length ns) x /\ x <> idx /\ x <> kNull) ->
  let ns' := append_nodes ns idx t f in
  length ns' = length ns /\ node_at ns' idx = f (node_at ns idx) /\
  forall j, 0 <= j -> j <> idx ->
    node_at ns' j = if decide (t = Some j) then set_next idx (node_at ns j) else node_at ns j.
Proof.
  intros Hi Ht ns'. assert (0 <= idx) as H0 by (unfold in_slab in Hi; lia). unfold ns', append_nodes.
  destruct (alter_opt_spec (set_next idx) t (alter_node f idx ns)) as [-> Hat].
  { intros x Hx. rewrite length_alter_node. by destruct (Ht x Hx) as (? & _ & ?). }
  split_and!; [apply length_alter_node| |intros j Hj Hji]; rewrite Hat by done; rewrite node_at_alter by done.
  - rewrite decide_False, decide_True; [done..|]. intros Hx. by destruct (Ht idx Hx) as (_ & ? & _).
  - by rewrite (decide_False (P := j = idx)).
Qed.

Lemma holds_frame ns ns' e : holds ns e ->
  (node_at ns' e.1 = node_at ns e.1 \/ exists x, node_at ns' e.1 = set_next x (node_at ns e.1)) -> holds ns' e.
Proof. unfold holds. intros H [->|[x ->]]; exact H. Qed.

Section slab.
Context `{UnorderedMap}.

Lemma supersede_key k o : hits k (supersede k o) = false.
Proof. unfold supersede. destruct (hits k o) eqn:E; [done|done]. Qed.
Lemma supersede_other k k' o : k <> k' -> hits k' (supersede k o) = hits k' o.
Proof.
  intros Hk. unfold supersede. destruct (hits k o) eqn:E; [|done]. unfold hits in *. simpl.
  apply andb_prop in E as [_ E]. zbool. destruct (Z.eqb_spec (r_key o) k'); [congruence|]. by rewrite andb_false_r.
Qed.
Lemma supersede_place k o : r_place (supersede k o) = r_place o.
Proof. unfold supersede. by destruct (hits k o). Qed.
Lemma supersede_qty k o : r_qty (supersede k o) = r_qty o.
Proof. unfold supersede. by destruct (hits k o). Qed.
Lemma supersede_r_key k o : r_key (supersede k o) = r_key o.
Proof. unfold supersede. by destruct (hits k o). Qed.

Definition new_order (v : Venue) (sym : Z) (ev : BookEvent) : Resting :=
  mkResting (order_key v (order_id ev)) (mkPlace v sym (side ev) (price ev)) (qty ev) true.

Definition superseded (k : Z) (ords : list (Z * Resting)) : list (Z * Resting) := prod_map id (supersede k) <$> ords.

Lemma at_place_superseded pl k ords : at_place pl (superseded k ords) = superseded k (at_place pl ords).
Proof. apply at_place_fmap, supersede_place. Qed.

Lemma superseded_same k q : (superseded k q).*1 = q.*1 /\ sum_qty (superseded k q).*2 = sum_qty q.*2.
Proof. unfold superseded. rewrite fst_fmap, snd_fmap, sum_qty_fmap by apply supersede_qty. done. Qed.

Lemma elem_of_superseded k ords i o : (i, o) ∈ superseded k ords <-> exists o0, o = supersede k o0 /\ (i, o0) ∈ ords.
Proof.
  unfold superseded. rewrite list_elem_of_fmap. split.
  - intros ([j o0] & E & Hin). injection E as -> ->. by exists o0.
  - intros (o0 & -> & Hin). by exists (i, o0).
Qed.

(** The index once the key points to the new node. *)
Lemma index_add (index : gmap Z Z) ords k idx o :
  (forall k i, index !! k = Some i <-> exists o, (i, o) ∈ ords /\ hits k o = true) ->
  r_key o = k -> r_reachable o = true ->
  forall k' i, <[k := idx]> index !! k' = Some i <->
    exists o', (i, o') ∈ superseded k ords ++ [(idx, o)] /\ hits k' o' = true.
Proof.
  intros Hi Hk Hr k' i. setoid_rewrite elem_of_app. setoid_rewrite elem_of_superseded.
  setoid_rewrite list_elem_of_singleton. rewrite lookup_insert. destruct (decide (k = k')) as [->|Hne].
  - split.
    + intros [= <-]. exists o. split; [by right|]. unfold hits. by rewrite Hr, Hk, Z.eqb_refl.
    + intros (o' & [(o0 & -> & _)|[= -> ->]] & Ho'); [by rewrite supersede_key in Ho'|done].
  - rewrite Hi. split.
    + intros (o' & Hin & Ho'). exists (supersede k o'). split; [left; by exists o'|]. by rewrite supersede_other.
    + intros (o' & [(o0 & -> & Hin)|[= -> ->]] & Ho').
      * rewrite supersede_other in Ho' by done. by exists o0.
      * unfold hits in Ho'. rewrite Hk in Ho'. apply andb_prop in Ho' as [_ Ho']. zbool. congruence.
Qed.

(** The sides once node [idx] is linked behind the queue of its place. *)
Lemma add_side_rep ns ns' sb sb' sd q pk idx o level : side_rep ns sb sd q ->
  find_or_add_level sb (pl_price (r_place o)) = (level, sb') ->
  let p := pl_price (r_place o) in
  (forall p', q p' = at_place (mkPlace (pl_venue (r_place o)) (pl_symbol (r_place o)) sd p') pk) ->
  NoDup (pk.*1 ++ [idx]) -> pl_side (r_place o) = sd ->
  n_next (node_at ns' idx) = kNull -> n_prev (node_at ns' idx) = onull (last (q p).*1) ->
  (forall j, j ∈ pk.*1 -> node_at ns' j = if decide (last (q p).*1 = Some j) then set_next idx (node_at ns j) else node_at ns j) ->
  side_rep ns' (put_level sb' (mkLevel p (sum_qty (q p).*2 + r_qty o) (onull (head ((q p).*1 ++ [idx]))) idx) p) sd
    (fun p' => if decide (p' = p) then q p ++ [(idx, o)] else q p').
Proof.
  intros Hs Hf p Hq Hn Hsd Hnext Hprev Hother.
  destruct (find_or_add_level_spec ns sb sd q p level sb' Hs Hf) as (_ & Hlink & Hd & Hl & Hb).
  assert (forall p' j, j ∈ (q p').*1 -> j ∈ pk.*1) as Hsub.
  { intros p' j. rewrite Hq. apply at_place_sub. }
  split; [simpl; rewrite Hd; apply Hs| |by apply Hb].
  intros p'. rewrite Hl. destruct (decide (p' = p)) as [->|Hp].
  - cbn [level_rep]. rewrite !fmap_app. change ([(idx, o)].*1) with [idx]. change ([(idx, o)].*2) with [o].
    rewrite last_snoc, sum_qty_app, sum_qty_cons. split_and!; [by destruct (q p)| |].
    + f_equal. change (sum_qty []) with 0. lia.
    + apply (linked_snoc ns); [done| |done|done|].
      * apply NoDup_app in Hn as (Hn & Hd' & _). apply NoDup_app. split_and!.
        -- rewrite Hq. by apply at_place_nodup.
        -- intros j Hj%Hsub. by apply Hd'.
        -- repeat constructor. set_solver.
      * intros j Hj. pose proof (Hother j (Hsub _ _ Hj)) as Ho. rewrite Ho. by case_decide.
  - eapply level_rep_frame; [apply Hs|done..|]. intros j Hj. unfold same_links.
    rewrite (Hother j (Hsub _ _ Hj)). rewrite decide_False; [done|].
    intros Hlast%last_Some_elem_of. rewrite Hq in Hj, Hlast. apply NoDup_app in Hn as [Hn _].
    pose proof (at_place_disjoint _ _ _ _ Hn Hj Hlast). congruence.
Qed.
(** What [add_order] leaves behind is a representation of one more order. *)
Lemma rep_added cap s ords s' idx o level sb' : let pl := r_place o in let q := at_place pl ords in
  rep cap s ords -> idx ∉ ords.*1 -> resting_valid o -> r_reachable o = true ->
  length (nodes s') = cap -> Permutation ((ords.*1 ++ [idx]) ++ free_list s') (seqZ 0 (Z.of_nat cap)) ->
  live_order_count s' = Z.of_nat (length ords) + 1 -> order_index s' = <[r_key o := idx]> (order_index s) ->
  cache_ok s' -> holds (nodes s') (idx, o) ->
  n_next (node_at (nodes s') idx) = kNull -> n_prev (node_at (nodes s') idx) = onull (last q.*1) ->
  (forall j, j ∈ ords.*1 -> node_at (nodes s') j =
     if decide (last q.*1 = Some j) then set_next idx (node_at (nodes s) j) else node_at (nodes s) j) ->
  find_or_add_level (side_at s (pl_venue pl) (pl_symbol pl) (pl_side pl)) (pl_price pl) = (level, sb') ->
  (forall v sym sd, sd <> SideUnknown -> side_at s' v sym sd =
     if decide (v = pl_venue pl /\ sym = pl_symbol pl /\ sd = pl_side pl)
     then put_level sb' (mkLevel (pl_price pl) (sum_qty q.*2 + r_qty o) (onull (head (q.*1 ++ [idx]))) idx) (pl_price pl)
     else side_at s v sym sd) ->
  rep cap s' (superseded (r_key o) ords ++ [(idx, o)]).
Proof.
  intros pl q Hr Hnew Ho Hre Hlen Hperm Hlive Hindex Hcache Hidx Hnext Hprev Hother Hfind Hside.
  set (qf := fun p => at_place (mkPlace (pl_venue pl) (pl_symbol pl) (pl_side pl) p) ords).
  assert (q = qf (pl_price pl)) as Hqf by (unfold q, qf, pl; by destruct (r_place o)). clearbody q. subst q.
  assert (NoDup (ords.*1 ++ [idx])) as Hnd.
  { apply NoDup_app. pose proof (rep_nodup _ _ _ Hr) as Hn. apply NoDup_app in Hn as [Hn _].
    split_and!; [done|set_solver|repeat constructor; set_solver]. }
  destruct (superseded_same (r_key o) ords) as [Hfst _].
  assert (forall j, j ∈ ords.*1 -> node_at (nodes s') j = node_at (nodes s) j \/
    exists x, node_at (nodes s') j = set_next x (node_at (nodes s) j)) as Hlinks.
  { intros j Hj. rewrite (Hother j Hj). case_decide; [right; by eexists|by left]. }
  split; try done.
  - rewrite fmap_app, Hfst. exact Hperm.
  - apply Forall_snoc. split; [|done]. apply Forall_forall. intros [i x] Hin.
    apply elem_of_superseded in Hin as (x0 & -> & Hin).
    pose proof (proj1 (Forall_forall _ _) (rp_holds _ _ _ Hr) _ Hin) as Hh.
    assert (holds (nodes s') (i, x0)) as Hh'.
    { eapply holds_frame; [exact Hh|]. apply Hlinks. apply list_elem_of_fmap. by exists (i, x0). }
    unfold holds in *. simpl in *. by rewrite supersede_r_key, supersede_place, supersede_qty.
  - apply Forall_snoc. split; [|done]. apply Forall_forall. intros [i x] Hin.
    apply elem_of_superseded in Hin as (x0 & -> & Hin). unfold resting_valid. simpl.
    rewrite supersede_qty, supersede_place. exact (proj1 (Forall_forall _ _) (rp_valid _ _ _ Hr) _ Hin).
  - rewrite Hlive, length_app. unfold superseded. rewrite length_fmap. simpl. lia.
  - rewrite Hindex. intros k i. by apply index_add; [apply (rp_index _ _ _ Hr)|..].
  - intros v sym sd Hsd. rewrite (Hside v sym sd Hsd). pose proof (rp_side _ _ _ Hr v sym sd Hsd) as Hs.
    destruct (decide (v = pl_venue pl /\ sym = pl_symbol pl /\ sd = pl_side pl)) as [(-> & -> & ->)|Hne].
    + eapply (side_rep_frame (nodes s')).
      * exact (add_side_rep (nodes s) (nodes s') _ sb' (pl_side pl) qf ords idx o level Hs Hfind
                 (fun _ => eq_refl) Hnd eq_refl Hnext Hprev Hother).
      * intros p. cbn beta. rewrite at_place_app, at_place_superseded, at_place_cons. simpl.
        destruct (superseded_same (r_key o) (at_place (mkPlace (pl_venue pl) (pl_symbol pl) (pl_side pl) p) ords)) as [E1 E2].
        destruct (decide (p = pl_price pl)) as [->|Hp].
        -- rewrite decide_True by (unfold pl; by destruct (r_place o)). rewrite decide_True by done.
           rewrite !fmap_app, E1, !sum_qty_app, E2. done.
        -- rewrite decide_False by (intros E; exact (Hp (eq_sym (f_equal pl_price E)))).
           rewrite decide_False by done. by rewrite app_nil_r.
      * done.
    + eapply side_rep_frame; [exact Hs|..].
      * intros p. rewrite at_place_app, at_place_superseded, at_place_cons. simpl.
        rewrite decide_False by (intros E; apply Hne; unfold pl; by rewrite E). rewrite app_nil_r. apply superseded_same.
      * intros p j Hj. unfold same_links. rewrite (Hother j) by (by eapply at_place_sub).
        rewrite decide_False; [done|]. intros Hl%last_Some_elem_of. apply NoDup_app in Hnd as [Hnd _].
        pose proof (at_place_disjoint _ _ _ _ Hnd Hj Hl) as E. apply Hne. by injection E.
Qed.

Lemma head_of_snoc (l : list Z) idx : (forall j, j ∈ l -> j <> kNull) ->
  (if negb (onull (last l) =? kNull) then onull (head l) else idx) = onull (head (l ++ [idx])).
Proof.
  intros Hl. destruct l as [|x l]; [done|]. simpl head. destruct (last (x :: l)) as [y|] eqn:Ey.
  - simpl. destruct (Z.eqb_spec y kNull); [|done]. by destruct (Hl y (last_Some_elem_of _ _ Ey)).
  - by apply last_None in Ey.
Qed.

(** [allocate_node] on a slab with a free node. *)
Lemma allocate_spec cap s ords idx s' : Z.of_nat cap < 2 ^ 32 -> rep cap s ords -> allocate_node s = (idx, s') ->
  match free_list s with
  | [] => idx = kNull /\ rep cap s' ords /\ length ords = cap
  | _ => idx <> kNull /\ in_slab cap idx /\ (idx ∉ ords.*1) /\ (length ords < cap)%nat /\
         Permutation ((ords.*1 ++ [idx]) ++ free_list s') (seqZ 0 (Z.of_nat cap)) /\
         live_order_count s' = Z.of_nat (length ords) + 1 /\ length (nodes s') = cap /\
         node_at (nodes s') idx = mkNode 0 0 0 0 kNull kNull Nasdaq SideUnknown true /\
         (forall j, j ∈ ords.*1 -> node_at (nodes s') j = node_at (nodes s) j) /\
         order_index s' = order_index s /\ cache_ok s' /\ (forall w k, book_at s' w k = book_at s w k)
  end.
Proof.
  intros Hcap Hr Ha. unfold allocate_node in Ha. pose proof (rep_count _ _ _ Hr) as Hc. pose proof (rep_nodup _ _ _ Hr) as Hn.
  destruct (free_list s) as [|i rest] eqn:Ef; injection Ha as <- <-.
  { split_and!; [done| |simpl in Hc; lia]. destruct Hr. by split. }
  assert (in_slab cap i) as Hi by (apply (rep_in_slab _ _ _ _ Hr); rewrite Ef; set_solver).
  rewrite <-(rp_length _ _ _ Hr) in Hi. simpl in Hc.
  split_and!.
  - unfold in_slab in Hi. rewrite (rp_length _ _ _ Hr) in Hi. unfold kNull. lia.
  - by rewrite <-(rp_length _ _ _ Hr).
  - apply NoDup_app in Hn as (_ & Hn & _). intros Hin. apply (Hn i Hin). by left.
  - lia.
  - simpl. rewrite <-app_assoc. simpl. rewrite <-Ef. apply (rp_slab _ _ _ Hr).
  - simpl. rewrite (rp_live _ _ _ Hr). apply u64_small. lia.
  - simpl. by rewrite length_insert, (rp_length _ _ _ Hr).
  - simpl. rewrite node_at_insert by (done || (unfold in_slab in Hi; lia)). by rewrite decide_True.
  - intros j Hj. simpl. assert (in_slab cap j) as Hj' by (apply (rep_in_slab _ _ _ _ Hr); set_solver).
    rewrite node_at_insert by (done || (unfold in_slab in Hj'; lia)). rewrite decide_False; [done|].
    intros ->. apply NoDup_app in Hn as (_ & Hn & _). apply (Hn i Hj). by left.
  - done.
  - apply (rp_cache _ _ _ Hr).
  - done.
Qed.

Lemma add_order_rep cap s ords v sym ev : Z.of_nat cap < 2 ^ 32 -> rep cap s ords -> 0 < qty ev < 2 ^ 32 ->
  let '(ok, ahead, s') := add_order s v sym ev in
  let '(ok', ahead', os') := spec_add cap ords.*2 v sym ev in
  ok = ok' /\ ahead = ahead' /\ exists ords', ords'.*2 = os' /\ rep cap s' ords'.
Proof.
  intros Hcap Hr Hq. unfold add_order, spec_add. destruct (decide (side ev = SideUnknown)) as [|Hsd]; [by eauto|].
  rewrite length_fmap. pose proof (rep_count _ _ _ Hr) as Hc.
  destruct (allocate_node s) as [idx s1] eqn:Ha. pose proof (allocate_spec _ _ _ _ _ Hcap Hr Ha) as H1.
  destruct (free_list s) as [|? ?]; simpl in Hc.
  { destruct H1 as (-> & Hr1 & Hlen). rewrite Z.eqb_refl. destruct (Nat.leb_spec cap (length ords)); [by eauto|lia]. }
  destruct H1 as (Hnull & Hslab & Hnew & Hlt & Hperm & Hlive & Hlen & Hnode & Hsame & Hindex & Hcache & Hbooks).
  destruct (Z.eqb_spec idx kNull) as [|_]; [done|]. destruct (Nat.leb_spec cap (length ords)) as [|_]; [lia|].
  pose proof (slab_book_for_spec s1 v sym Hcache) as H2. destruct (book_for s1 v sym) as [ptr s2].
  destruct H2 as (-> & Hcache2 & (Hn2 & Hf2 & Hi2 & Hl2) & Hb2).
  assert (book_at s2 v sym = book_at s v sym) as -> by by rewrite Hb2, Hbooks.
  set (o := new_order v sym ev). set (pl := mkPlace v sym (side ev) (price ev)).
  set (q := fun p => at_place (mkPlace v sym (side ev) p) ords).
  pose proof (rp_side _ _ _ Hr v sym (side ev) Hsd) as Hside. unfold side_at in Hside.
  destruct (find_or_add_level _ (price ev)) as [level sb'] eqn:Hfind.
  destruct (find_or_add_level_spec _ _ _ _ _ _ _ Hside Hfind) as (Hlevel & _). fold pl in Hlevel.
  set (t := last (at_place pl ords).*1).
  assert (l_tail level = onull t) as Htail by by rewrite Hlevel.
  assert (NoDup ords.*1) as Hnd by (pose proof (rep_nodup _ _ _ Hr) as Hn; by apply NoDup_app in Hn as [? _]).
  assert (forall j, j ∈ ords.*1 -> in_slab cap j /\ j <> idx /\ j <> kNull) as Hords.
  { intros j Hj. assert (in_slab cap j) as Hs by (apply (rep_in_slab _ _ _ _ Hr); set_solver).
    split_and!; [done|by intros ->|unfold in_slab in Hs; unfold kNull; lia]. }
  set (fill := fun n => mkNode (r_key o) sym (price ev) (qty ev) (onull t) (n_next n) v (side ev) (n_live n)).
  destruct (append_nodes_spec (nodes s2) idx t fill) as (Hlen' & Hidx & Hother).
  { by rewrite Hn2, Hlen. }
  { intros x Hx%last_Some_elem_of%at_place_sub. rewrite Hn2, Hlen. by apply Hords. }
  rewrite Hn2 in Hidx, Hother, Hlen'. rewrite Hnode in Hidx. rewrite Hn2.
  set (ns' := append_nodes (nodes s1) idx t fill) in *.
  set (qi := (at_place pl ords).*1) in *.
  match goal with |- context [if negb (l_tail level =? kNull) then ?a else ?b] =>
    assert ((if negb (l_tail level =? kNull) then a else b) = (ns', onull (head (qi ++ [idx])))) as -> end.
  { rewrite <-head_of_snoc by (intros j Hj%at_place_sub; by apply Hords).
    unfold ns', append_nodes, alter_opt. fold t. rewrite Htail, Hlevel. cbn [l_head]. by destruct (negb (onull t =? kNull)). }
  assert (l_qty level = quantity_at pl ords.*2) as Hql.
  { rewrite Hlevel. simpl. unfold quantity_at. by rewrite <-at_place_resting. }
  split_and!; [done|by rewrite Hql|]. exists (superseded (r_key o) ords ++ [(idx, o)]).
  split; [by rewrite fmap_app; unfold superseded; rewrite snd_fmap|].
  apply (rep_added cap s ords _ idx o level sb'); try done.
  - simpl. by rewrite Hlen'.
  - simpl. by rewrite Hf2.
  - simpl. by rewrite Hl2.
  - simpl. by rewrite Hi2, Hindex.
  - by apply cache_ok_store.
  - unfold holds. simpl. by rewrite Hidx.
  - simpl. by rewrite Hidx.
  - simpl. by rewrite Hidx.
  - intros j Hj. destruct (Hords j Hj) as (Hs & Hne & _). simpl. rewrite <-(Hsame j Hj). apply Hother; [|done].
    unfold in_slab in Hs. lia.
  - intros w k sd' Hsd'. unfold with_index, side_at at 1, book_at, find_book. cbn [books].
    change (side_book _ sd') with (side_at (store_side (with_nodes ns' s2) v sym (side ev)
      (put_level sb' (mkLevel (l_price level) (l_qty level +64 qty ev) (onull (head (qi ++ [idx]))) idx) (price ev))) w k sd').
    rewrite side_at_store by done. case_decide as Hw.
    + rewrite decide_True by done. f_equal. rewrite Hlevel. simpl. f_equal. apply u64_small. fold pl.
      pose proof (sum_qty_bound _ (at_place_valid pl _ (rp_valid _ _ _ Hr))). pose proof (at_place_length pl ords). lia.
    + rewrite decide_False by done. unfold side_at. by rewrite <-Hbooks, <-Hb2.
Qed.

(** ** Reducing an order *)

Definition relink (a b : option Z) (j : Z) (n : OrderNode) : OrderNode :=
  let n := if decide (a = Some j) then set_next (onull b) n else n in
  if decide (b = Some j) then set_prev (onull a) n else n.

Lemma relink_holds a b j n : n_key (relink a b j n) = n_key n /\ n_qty (relink a b j n) = n_qty n /\
  n_venue (relink a b j n) = n_venue n /\ n_symbol (relink a b j n) = n_symbol n /\
  n_side (relink a b j n) = n_side n /\ n_price (relink a b j n) = n_price n /\ n_live (relink a b j n) = n_live n.
Proof. unfold relink. by repeat case_decide. Qed.

Lemma unlink_eq ns level i oa ob : n_prev (node_at ns i) = onull oa -> n_next (node_at ns i) = onull ob ->
  0 <= i -> oa <> Some i -> (forall x, oa = Some x -> in_slab (length ns) x /\ x <> kNull) ->
  unlink ns level i =
    (alter_opt (set_prev (onull oa)) ob (alter_opt (set_next (onull ob)) oa ns),
     mkLevel (l_price level) (l_qty level) (if negb (onull oa =? kNull) then l_head level else onull ob)
             (if negb (onull ob =? kNull) then l_tail level else onull oa)).
Proof.
  intros Hp Hn Hi Hai Ha. destruct (alter_opt_spec (set_next (onull ob)) oa ns Ha) as [_ Hat].
  specialize (Hat i Hi). rewrite decide_False in Hat by done. unfold unlink. rewrite Hp, Hn.
  assert ((if negb (onull oa =? kNull) then (alter_node (set_next (onull ob)) (onull oa) ns, level)
           else (ns, mkLevel (l_price level) (l_qty level) (onull ob) (l_tail level))) =
    (alter_opt (set_next (onull ob)) oa ns,
     mkLevel (l_price level) (l_qty level) (if negb (onull oa =? kNull) then l_head level else onull ob) (l_tail level))) as ->.
  { unfold alter_opt. destruct (negb (onull oa =? kNull)); [by destruct level|done]. }
  rewrite Hat, Hp, Hn. cbn [l_price l_qty l_head l_tail]. unfold alter_opt at 1 3. by destruct (negb (onull ob =? kNull)).
Qed.

Lemma unlink_spec ns level a i b : let l := a ++ i :: b in linked ns l -> NoDup l ->
  (forall j, j ∈ l -> in_slab (length ns) j /\ j <> kNull) ->
  l_head level = onull (head l) -> l_tail level = onull (last l) ->
  let '(ns', level') := unlink ns level i in
  length ns' = length ns /\
  level' = mkLevel (l_price level) (l_qty level) (onull (head (a ++ b))) (onull (last (a ++ b))) /\
  forall j, 0 <= j -> node_at ns' j = if decide (j = i) then node_at ns i else relink (last a) (head b) j (node_at ns j).
Proof.
  intros l Hl Hn Hs Hh Ht. destruct (Hl a i b eq_refl) as [Hnext Hprev].
  apply NoDup_app in Hn as (_ & Hd & Hn). apply NoDup_cons in Hn as [Hib _].
  assert (forall j, last a = Some j -> j ∈ a) as Hla by (intros j; apply last_Some_elem_of).
  assert (forall j, head b = Some j -> j ∈ b) as Hhb by (intros j; apply head_Some_elem_of).
  assert (last a <> Some i) as Hai by (intros Hi%Hla; apply (Hd i Hi); by left).
  assert (head b <> Some i) as Hbi by by intros Hi%Hhb.
  assert (in_slab (length ns) i) as Hi by (apply Hs; unfold l; set_solver).
  assert (forall j, last a = Some j -> in_slab (length ns) j /\ j <> kNull) as Ha by (intros j Hj%Hla; apply Hs; unfold l; set_solver).
  assert (forall j, head b = Some j -> in_slab (length ns) j /\ j <> kNull) as Hb by (intros j Hj%Hhb; apply Hs; unfold l; set_solver).
  rewrite (unlink_eq ns level i (last a) (head b)); [|done|done|unfold in_slab in Hi; lia|done|done].
  destruct (alter_opt_spec (set_next (onull (head b))) (last a) ns Ha) as [Hlen1 Hat1].
  destruct (alter_opt_spec (set_prev (onull (last a))) (head b) (alter_opt (set_next (onull (head b))) (last a) ns)) as [Hlen2 Hat2].
  { by rewrite Hlen1. }
  split_and!; [by rewrite Hlen2| |].
  - f_equal.
    + rewrite Hh. unfold l. rewrite !head_app_default. destruct a as [|x a']; [done|]. simpl head.
      destruct (last (x :: a')) as [y|] eqn:Ey; [|by apply last_None in Ey]. simpl.
      destruct (Ha y eq_refl) as [_ ?]. by destruct (Z.eqb_spec y kNull).
    + rewrite Ht. unfold l. rewrite !last_app, last_cons. destruct b as [|x b']; [by destruct (last a)|].
      simpl head. simpl onull at 1. destruct (Hb x eq_refl) as [_ ?]. destruct (Z.eqb_spec x kNull); [done|].
      simpl negb. cbn iota. destruct (last (x :: b')) as [y|] eqn:Ey; [done|by apply last_None in Ey].
  - intros j Hj. rewrite Hat2, Hat1 by done. unfold relink. destruct (decide (j = i)) as [->|]; [|done].
    by rewrite !decide_False.
Qed.

(** The order a key reaches, in its place among the others. *)
Definition reaches (k : Z) (a : list (Z * Resting)) (i : Z) (o : Resting) (b : list (Z * Resting)) : Prop :=
  hits k o = true /\ Forall (fun e => hits k e.2 = false) (a ++ b).

Lemma find_miss k os : Forall (fun o => hits k o = false) os -> List.find (hits k) os = None.
Proof. induction 1 as [|o os Ho _ IH]; simpl; [done|by rewrite Ho]. Qed.

Lemma find_hit k a o b : Forall (fun o => hits k o = false) a -> hits k o = true ->
  List.find (hits k) (a ++ o :: b) = Some o.
Proof. intros Ha Ho. induction Ha as [|x a Hx _ IH]; simpl; [by rewrite Ho|by rewrite Hx]. Qed.

Lemma index_reaches cap s ords k : rep cap s ords ->
  match order_index s !! k with
  | None => List.find (hits k) ords.*2 = None
  | Some i => exists a o b, ords = a ++ (i, o) :: b /\ reaches k a i o b /\ List.find (hits k) ords.*2 = Some o
  end.
Proof.
  intros Hr. pose proof (rp_index _ _ _ Hr k) as Hi. pose proof (rep_nodup _ _ _ Hr) as Hn. apply NoDup_app in Hn as [Hn _].
  assert (forall i o, (i, o) ∈ ords -> hits k o = true -> order_index s !! k = Some i) as Honly.
  { intros i o Hin Ho. apply Hi. by exists o. }
  destruct (order_index s !! k) as [i|] eqn:E.
  - destruct (proj1 (Hi i) eq_refl) as (o & Hin & Ho). apply list_elem_of_split in Hin as (a & b & ->).
    exists a, o, b. assert (Forall (fun e => hits k e.2 = false) (a ++ b)) as Hmiss.
    { apply Forall_forall. intros [j x] Hj. simpl. destruct (hits k x) eqn:Ex; [|done]. exfalso.
      assert (i = j) as -> by (specialize (Honly j x); rewrite elem_of_app, elem_of_cons in Honly;
        apply elem_of_app in Hj; destruct Hj; naive_solver).
      rewrite fmap_app, fmap_cons in Hn. apply NoDup_app in Hn as (_ & Hd & Hn). apply NoDup_cons in Hn as [Hn _].
      apply elem_of_app in Hj as [Hj|Hj]; [apply (Hd j)|apply Hn]; simpl; try (by left); apply list_elem_of_fmap; by exists (j, x). }
    split; [done|]. split; [done|]. rewrite fmap_app, fmap_cons. apply find_hit; [|done].
    apply Forall_app in Hmiss as [Ha _]. by apply Forall_fmap.
  - apply find_miss, Forall_fmap, Forall_forall. intros [j x] Hj. simpl. destruct (hits k x) eqn:Ex; [|done].
    by specialize (Honly j x Hj Ex).
Qed.

Lemma filter_miss k (os : list Resting) : Forall (fun o => hits k o = false) os -> filter (fun o => hits k o = false) os = os.
Proof. induction 1 as [|o os Ho _ IH]; [done|]. rewrite filter_cons_True by done. by rewrite IH. Qed.

Lemma spec_reduce_reaches k ords a i o b qty all : ords = a ++ (i, o) :: b -> reaches k a i o b ->
  let dec := if all || (qty =? 0) || (r_qty o <? qty) then r_qty o else qty in
  spec_reduce ords.*2 k qty all =
    if (r_qty o - dec =? 0) || all then (a ++ b).*2
    else (a ++ (i, mkResting (r_key o) (r_place o) (r_qty o - dec) (r_reachable o)) :: b).*2.
Proof.
  intros -> [Ho Hmiss] dec. apply Forall_app in Hmiss as [Ha Hb].
  assert (Forall (fun o => hits k o = false) a.*2) as Ha' by by apply Forall_fmap.
  assert (Forall (fun o => hits k o = false) b.*2) as Hb' by by apply Forall_fmap.
  unfold spec_reduce. rewrite !fmap_app, !fmap_cons. cbn [snd]. rewrite find_hit by done. fold dec. destruct ((_ =? 0) || all).
  - rewrite filter_app, filter_cons_False by (by rewrite Ho). by rewrite !filter_miss.
  - rewrite fmap_app, fmap_cons, Ho. f_equal; [|f_equal].
    + rewrite <-(list_fmap_id a.*2) at 2. apply Forall_fmap_ext. eapply Forall_impl; [exact Ha'|]. by intros x ->.
    + rewrite <-(list_fmap_id b.*2) at 2. apply Forall_fmap_ext. eapply Forall_impl; [exact Hb'|]. by intros x ->.
Qed.

Lemma at_place_mid pl a i o b : at_place pl (a ++ (i, o) :: b) =
  if decide (r_place o = pl) then at_place pl a ++ (i, o) :: at_place pl b else at_place pl a ++ at_place pl b.
Proof. rewrite at_place_app, at_place_cons. simpl. by case_decide. Qed.

Definition with_qty (q : Z) (o : Resting) : Resting := mkResting (r_key o) (r_place o) q (r_reachable o).

Lemma set_qty_links q n : n_next (set_node_qty q n) = n_next n /\ n_prev (set_node_qty q n) = n_prev n.
Proof. done. Qed.

Lemma place_eta pl : mkPlace (pl_venue pl) (pl_symbol pl) (pl_side pl) (pl_price pl) = pl.
Proof. by destruct pl. Qed.

Lemma at_place_elsewhere pl a i o b : r_place o <> pl -> at_place pl (a ++ (i, o) :: b) = at_place pl (a ++ b).
Proof. intros Hne. by rewrite at_place_mid, decide_False, at_place_app. Qed.

Lemma at_place_here pl a i o b : r_place o = pl ->
  at_place pl (a ++ (i, o) :: b) = at_place pl a ++ (i, o) :: at_place pl b.
Proof. intros He. by rewrite at_place_mid, decide_True. Qed.

(** The other orders sit in other nodes. *)
Lemma mid_nodup a i (o : Resting) b : NoDup (a ++ (i, o) :: b).*1 ->
  NoDup (a ++ b).*1 /\ (i ∉ (a ++ b).*1) /\ forall j : Z, j ∈ (a ++ b).*1 -> (j ∈ (a ++ (i, o) :: b).*1) /\ j <> i.
Proof.
  rewrite !fmap_app, fmap_cons. simpl. intros Hn.
  assert (NoDup (i :: a.*1 ++ b.*1)) as Hn' by by rewrite Permutation_middle.
  apply NoDup_cons in Hn' as [Hi Hab]. split_and!; [done..|]. intros j Hj. split; [|by intros ->].
  rewrite elem_of_app, elem_of_cons. apply elem_of_app in Hj. tauto.
Qed.

Lemma Forall_mid {A} (P : A -> Prop) a x b : Forall P (a ++ x :: b) <-> P x /\ Forall P (a ++ b).
Proof. rewrite !Forall_app, Forall_cons. tauto. Qed.

Lemma elem_of_mid {A} (a : list A) x y b : x ∈ a ++ y :: b <-> x = y \/ x ∈ a ++ b.
Proof. rewrite !elem_of_app, elem_of_cons. tauto. Qed.

(** What a partial reduction leaves behind. *)
Lemma rep_updated cap s a i o b s' q l : let ords := a ++ (i, o) :: b in let pl := r_place o in
  rep cap s ords -> 0 < q < 2 ^ 32 -> length (nodes s') = cap -> free_list s' = free_list s ->
  live_order_count s' = live_order_count s -> order_index s' = order_index s -> cache_ok s' ->
  (forall j, j ∈ ords.*1 -> node_at (nodes s') j = if decide (j = i) then set_node_qty q (node_at (nodes s) i) else node_at (nodes s) j) ->
  levels (side_at s (pl_venue pl) (pl_symbol pl) (pl_side pl)) !! pl_price pl = Some l ->
  (forall v sym sd, sd <> SideUnknown -> side_at s' v sym sd =
     if decide (v = pl_venue pl /\ sym = pl_symbol pl /\ sd = pl_side pl)
     then put_level (side_at s v sym sd) (mkLevel (l_price l) (l_qty l - (r_qty o - q)) (l_head l) (l_tail l)) (pl_price pl)
     else side_at s v sym sd) ->
  rep cap s' (a ++ (i, with_qty q o) :: b).
Proof.
  intros ords pl Hr Hq Hlen Hfree Hlive Hindex Hcache Hnode Hl Hside. unfold ords in *.
  assert (forall pl', (at_place pl' (a ++ (i, with_qty q o) :: b)).*1 = (at_place pl' (a ++ (i, o) :: b)).*1) as Hfst.
  { intros pl'. rewrite !at_place_mid. simpl. case_decide; [by rewrite !fmap_app, !fmap_cons|done]. }
  pose proof (rep_nodup _ _ _ Hr) as Hnd. apply NoDup_app in Hnd as [Hnd _]. destruct (mid_nodup _ _ _ _ Hnd) as (_ & _ & Hab).
  assert (forall j, j ∈ (a ++ (i, o) :: b).*1 -> same_links (nodes s) (nodes s') j) as Hlinks.
  { intros j Hj. unfold same_links. rewrite (Hnode j Hj). by destruct (decide (j = i)) as [->|]. }
  assert (i ∈ (a ++ (i, o) :: b).*1) as Hi by (rewrite fmap_app, fmap_cons; set_solver).
  pose proof (rp_holds _ _ _ Hr) as Hh. pose proof (rp_valid _ _ _ Hr) as Hv. rewrite Forall_mid in Hh, Hv.
  destruct Hh as [Hhi Hh], Hv as [[_ Hsd] Hv].
  split; try done.
  - rewrite Hfree. replace ((a ++ (i, with_qty q o) :: b).*1) with ((a ++ (i, o) :: b).*1) by by rewrite !fmap_app.
    apply (rp_slab _ _ _ Hr).
  - apply Forall_mid. split.
    + unfold holds in *. simpl in *. rewrite (Hnode i Hi), decide_True by done. simpl. tauto.
    + apply Forall_forall. intros e He. destruct (Hab e.1) as [He' Hne]; [by apply list_elem_of_fmap; exists e|].
      eapply holds_frame; [by apply (proj1 (Forall_forall _ _) Hh)|]. left. by rewrite Hnode, decide_False.
  - apply Forall_mid. by split.
  - rewrite Hlive, (rp_live _ _ _ Hr), !length_app. done.
  - intros k j. rewrite Hindex, (rp_index _ _ _ Hr). setoid_rewrite elem_of_mid. split.
    + intros (x & [[= -> ->]|Hx] & Hk); [exists (with_qty q o)|exists x]; auto.
    + intros (x & [[= -> ->]|Hx] & Hk); [exists o|exists x]; auto.
  - intros v sym sd Hsd'. rewrite (Hside v sym sd Hsd'). pose proof (rp_side _ _ _ Hr v sym sd Hsd') as Hs.
    destruct (decide (v = pl_venue pl /\ sym = pl_symbol pl /\ sd = pl_side pl)) as [(-> & -> & ->)|Hne].
    + split; [apply Hs| |].
      * intros p. rewrite levels_put. pose proof (sr_level _ _ _ _ Hs p) as Hlp. destruct (decide (p = pl_price pl)) as [->|Hp].
        -- rewrite Hl in Hlp. simpl in Hlp. rewrite place_eta in *. destruct Hlp as (Hne & -> & Hlink).
           cbn [level_rep l_price l_qty l_head l_tail]. rewrite Hfst. split_and!.
           ++ rewrite at_place_here by done. by destruct (at_place _ a).
           ++ f_equal. rewrite !at_place_here by done. rewrite !fmap_app, !fmap_cons, !sum_qty_app, !sum_qty_cons. simpl. lia.
           ++ eapply linked_frame; [exact Hlink|]. intros j Hj%at_place_sub. by apply Hlinks.
        -- eapply level_rep_frame; [exact Hlp|apply Hfst| |intros j Hj%at_place_sub; by apply Hlinks].
           assert (r_place o <> mkPlace (pl_venue pl) (pl_symbol pl) (pl_side pl) p) as Hne
             by (intros E; apply Hp; unfold pl; by rewrite E).
           by rewrite !at_place_elsewhere.
      * eapply best_over_iff; [|apply Hs]. intros p. unfold has_level. rewrite levels_put.
        destruct (decide (p = pl_price pl)) as [->|]; [rewrite Hl; split; by eexists|done].
    + eapply side_rep_frame; [exact Hs| |intros p j Hj%at_place_sub; by apply Hlinks].
      intros p. split; [apply Hfst|].
      assert (r_place o <> mkPlace v sym sd p) as Hne' by (intros E; apply Hne; unfold pl; by rewrite E).
      by rewrite !at_place_elsewhere.
Qed.

(** What the removal of an order leaves behind. *)
Lemma rep_removed cap s a i o b s' k sb' : let ords := a ++ (i, o) :: b in let pl := r_place o in
  let qa := at_place pl a in let qb := at_place pl b in
  rep cap s ords -> reaches k a i o b -> length (nodes s') = cap -> free_list s' = i :: free_list s ->
  live_order_count s' = live_order_count s - 1 -> order_index s' = delete k (order_index s) -> cache_ok s' ->
  (forall j, j ∈ (a ++ b).*1 -> node_at (nodes s') j = relink (last qa.*1) (head qb.*1) j (node_at (nodes s) j)) ->
  let sb := side_at s (pl_venue pl) (pl_symbol pl) (pl_side pl) in
  descending sb' = descending sb -> best_over (has_level sb') sb' ->
  (forall p, levels sb' !! p = if decide (p = pl_price pl) then
     (if decide (qa ++ qb = []) then None
      else Some (mkLevel (pl_price pl) (sum_qty (qa ++ qb).*2) (onull (head (qa ++ qb).*1)) (onull (last (qa ++ qb).*1))))
     else levels sb !! p) ->
  (forall v sym sd, sd <> SideUnknown -> side_at s' v sym sd =
     if decide (v = pl_venue pl /\ sym = pl_symbol pl /\ sd = pl_side pl) then sb' else side_at s v sym sd) ->
  rep cap s' (a ++ b).
Proof.
  intros ords pl qa qb Hr Hk Hlen Hfree Hlive Hindex Hcache Hnode sb Hdesc Hbest Hlv Hside. unfold ords in *.
  pose proof (rep_nodup _ _ _ Hr) as Hnd. apply NoDup_app in Hnd as [Hnd _]. destruct (mid_nodup _ _ _ _ Hnd) as (Hn & Hi & Hab).
  pose proof (rp_holds _ _ _ Hr) as Hh. pose proof (rp_valid _ _ _ Hr) as Hv. rewrite Forall_mid in Hh, Hv.
  destruct Hh as [_ Hh], Hv as [_ Hv], Hk as [Hki Hk].
  assert (forall pl', (at_place pl' (a ++ b)) = at_place pl' a ++ at_place pl' b) as Happ by (intros; apply at_place_app).
  (* links of the queues of other places *)
  assert (forall pl' j, pl' <> pl -> j ∈ (at_place pl' (a ++ b)).*1 -> same_links (nodes s) (nodes s') j) as Hlinks.
  { intros pl' j Hpl Hj. unfold same_links. rewrite Hnode by by eapply at_place_sub. unfold relink.
    assert (forall x : option Z, (forall y, x = Some y -> y ∈ (at_place pl (a ++ b)).*1) -> x <> Some j) as Hx.
    { intros x Hx ->. apply Hpl. by eapply at_place_disjoint; [|exact Hj|apply Hx]. }
    rewrite !decide_False; [done|apply Hx; intros y Hy%last_Some_elem_of|apply Hx; intros y Hy%head_Some_elem_of];
      rewrite Happ, fmap_app; apply elem_of_app; auto. }
  split; try done.
  - rewrite Hfree. rewrite <-(rp_slab _ _ _ Hr). rewrite !fmap_app, fmap_cons. simpl. solve_Permutation.
  - apply Forall_forall. intros e He. destruct (Hab e.1) as [He' Hne]; [by apply list_elem_of_fmap; exists e|].
    pose proof (proj1 (Forall_forall _ _) Hh e He) as Hhe. unfold holds in *.
    rewrite Hnode by (apply list_elem_of_fmap; by exists e).
    by destruct (relink_holds (last qa.*1) (head qb.*1) e.1 (node_at (nodes s) e.1)) as (-> & -> & -> & -> & -> & -> & ->).
  - rewrite Hlive, (rp_live _ _ _ Hr), !length_app. simpl. lia.
  - intros k' j. rewrite Hindex, lookup_delete. destruct (decide (k = k')) as [<-|Hne].
    + split; [done|]. intros (x & Hx & Hkx). pose proof (proj1 (Forall_forall _ _) Hk _ Hx) as E. simpl in E. congruence.
    + rewrite (rp_index _ _ _ Hr). setoid_rewrite elem_of_mid. split; [|naive_solver].
      intros (x & [[= -> ->]|Hx] & Hkx); [|by exists x]. unfold hits in Hki, Hkx.
      apply andb_prop in Hki as [_ Hki], Hkx as [_ Hkx]. zbool. congruence.
  - intros v sym sd Hsd. rewrite (Hside v sym sd Hsd). pose proof (rp_side _ _ _ Hr v sym sd Hsd) as Hs.
    destruct (decide (v = pl_venue pl /\ sym = pl_symbol pl /\ sd = pl_side pl)) as [(-> & -> & ->)|Hne].
    + split; [rewrite Hdesc; apply Hs| |done]. intros p. rewrite Hlv. pose proof (sr_level _ _ _ _ Hs p) as Hlp.
      destruct (decide (p = pl_price pl)) as [->|Hp].
      * cbn beta in Hlp. rewrite place_eta in *. rewrite Happ. fold qa qb. destruct (decide (qa ++ qb = [])); [done|].
        cbn [level_rep]. split_and!; [done..|]. rewrite at_place_here in Hlp by done. fold qa qb in Hlp.
        unfold sb in *. destruct (levels _ !! pl_price pl) as [l|]; simpl in Hlp; [|by destruct qa].
        destruct Hlp as (_ & _ & Hlink). rewrite fmap_app, fmap_cons in Hlink. rewrite fmap_app.
        apply (linked_remove (nodes s) _ _ i); [exact Hlink| |].
        -- pose proof (at_place_nodup pl _ Hnd) as Hq. by rewrite at_place_here, fmap_app, fmap_cons in Hq.
        -- intros j Hj. rewrite Hnode by (rewrite <-fmap_app in Hj; unfold qa, qb in Hj; rewrite <-Happ in Hj; by eapply at_place_sub).
           unfold relink. by destruct (decide (last qa.*1 = Some j)), (decide (head qb.*1 = Some j)).
      * assert (r_place o <> mkPlace (pl_venue pl) (pl_symbol pl) (pl_side pl) p) as Hne
          by (intros E; apply Hp; unfold pl; by rewrite E).
        eapply level_rep_frame; [exact Hlp|cbn beta; by rewrite at_place_elsewhere..|].
        intros j Hj. cbn beta in Hj. rewrite at_place_elsewhere in Hj by done. eapply Hlinks; [|exact Hj]. intros E. by apply Hne.
    + assert (forall p, r_place o <> mkPlace v sym sd p) as Hne' by (intros p E; apply Hne; unfold pl; by rewrite E).
      eapply side_rep_frame; [exact Hs|intros p; cbn beta; by rewrite at_place_elsewhere|].
      intros p j Hj. cbn beta in Hj. rewrite at_place_elsewhere in Hj by done. eapply Hlinks; [|exact Hj]. intros E. by apply (Hne' p).
Qed.

Lemma sum_qty_pos q : Forall (fun e : Z * Resting => resting_valid e.2) q -> q <> [] -> 0 < sum_qty q.*2.
Proof. intros Hv Hne. pose proof (sum_qty_bound q Hv). destruct q; [done|]. simpl length in *. lia. Qed.

Lemma rep_level_qty cap s ords v sym sd p l : rep cap s ords -> sd <> SideUnknown ->
  levels (side_at s v sym sd) !! p = Some l -> l_qty l <> 0.
Proof.
  intros Hr Hsd Hl. pose proof (sr_level _ _ _ _ (rp_side _ _ _ Hr v sym sd Hsd) p) as Hlv. rewrite Hl in Hlv.
  destruct Hlv as (Hne & -> & _). simpl.
  pose proof (sum_qty_pos _ (at_place_valid _ _ (rp_valid _ _ _ Hr)) Hne). lia.
Qed.

(** Around a live order: its node, its level and the level's quantity. *)
Lemma rep_around cap s a i o b : let ords := a ++ (i, o) :: b in let pl := r_place o in
  Z.of_nat cap < 2 ^ 32 -> rep cap s ords ->
  (in_slab cap i /\ i <> kNull) /\ pl_side pl <> SideUnknown /\ 0 < r_qty o < 2 ^ 32 /\
  (exists l, levels (side_at s (pl_venue pl) (pl_symbol pl) (pl_side pl)) !! pl_price pl = Some l /\
     l = mkLevel (pl_price pl) (sum_qty (at_place pl ords).*2) (onull (head (at_place pl ords).*1)) (onull (last (at_place pl ords).*1))) /\
  linked (nodes s) (at_place pl ords).*1 /\
  sum_qty (at_place pl ords).*2 = r_qty o + sum_qty (at_place pl a ++ at_place pl b).*2 /\
  0 <= sum_qty (at_place pl a ++ at_place pl b).*2 /\ sum_qty (at_place pl ords).*2 < 2 ^ 64.
Proof.
  intros ords pl Hcap Hr. unfold ords in *.
  assert (in_slab cap i) as Hi by (apply (rep_in_slab _ _ _ _ Hr); rewrite fmap_app, fmap_cons; set_solver).
  pose proof (rp_valid _ _ _ Hr) as Hv. pose proof Hv as Hv'. rewrite Forall_mid in Hv'. destruct Hv' as [[Hq Hsd] Hv'].
  simpl in Hq, Hsd. fold pl in Hsd.
  pose proof (sr_level _ _ _ _ (rp_side _ _ _ Hr (pl_venue pl) (pl_symbol pl) (pl_side pl) Hsd) (pl_price pl)) as Hl.
  cbn beta in Hl. rewrite place_eta in Hl.
  assert (sum_qty (at_place pl (a ++ (i, o) :: b)).*2 = r_qty o + sum_qty (at_place pl a ++ at_place pl b).*2) as Hsum.
  { rewrite at_place_here by done. rewrite !fmap_app, fmap_cons, !sum_qty_app, sum_qty_cons. simpl. lia. }
  pose proof (sum_qty_bound _ (at_place_valid pl _ Hv')) as H1. rewrite at_place_app in H1.
  pose proof (sum_qty_bound _ (at_place_valid pl _ Hv)) as H2. pose proof (at_place_length pl (a ++ (i, o) :: b)).
  pose proof (rep_count _ _ _ Hr).
  destruct (levels _ !! pl_price pl) as [l|]; simpl in Hl; [|rewrite at_place_here in Hl by done; by destruct (at_place pl a)].
  destruct Hl as (_ & -> & Hlink). split_and!; try done; try lia.
  - unfold in_slab in Hi. unfold kNull. lia.
  - by eexists.
Qed.

(** [release_node] on a live node. *)
Lemma release_live s i : in_slab (length (nodes s)) i -> i <> kNull -> n_live (node_at (nodes s) i) = true ->
  0 < live_order_count s ->
  release_node s i = s |> with_nodes (<[Z.to_nat i := node_default]> (nodes s)) |> with_free (i :: free_list s)
                       |> with_live (live_order_count s - 1).
Proof.
  intros Hi Hnull Hlive Hcount. unfold release_node. unfold in_slab in Hi.
  destruct (Z.eqb_spec i kNull); [done|]. destruct (Z.leb_spec (Z.of_nat (length (nodes s))) i); [lia|]. rewrite Hlive. simpl.
  by destruct (Z.ltb_spec 0 (live_order_count s)); [|lia].
Qed.

(** The level of a removed order, empty or not. *)
Lemma removed_level cap s a i o b level : let ords := a ++ (i, o) :: b in let pl := r_place o in
  let qab := at_place pl a ++ at_place pl b in
  Z.of_nat cap < 2 ^ 32 -> rep cap s ords ->
  level = mkLevel (pl_price pl) (sum_qty qab.*2) (onull (head qab.*1)) (onull (last qab.*1)) ->
  let sb := side_at s (pl_venue pl) (pl_symbol pl) (pl_side pl) in
  let sb' := remove_level_if_empty (put_level sb level (pl_price pl)) (pl_price pl) in
  descending sb' = descending sb /\ best_over (has_level sb') sb' /\
  forall p, levels sb' !! p = if decide (p = pl_price pl) then (if decide (qab = []) then None else Some level) else levels sb !! p.
Proof.
  intros ords pl qab Hcap Hr Hlevel sb. destruct (rep_around _ _ _ _ _ _ Hcap Hr) as (_ & Hsd & _ & (l & Hl & _) & _).
  pose proof (rp_side _ _ _ Hr (pl_venue pl) (pl_symbol pl) (pl_side pl) Hsd) as Hs.
  destruct (remove_level_spec sb (pl_price pl) level) as (H1 & H2 & H3).
  { by exists l. } { apply Hs. } { intros p' l' _ Hl'. by eapply rep_level_qty; [exact Hr| |exact Hl']. }
  split_and!; [done..|]. intros p. rewrite H3. destruct (decide (p = pl_price pl)); [|done]. rewrite Hlevel. cbn [l_qty l_head].
  pose proof (rp_valid _ _ _ Hr) as Hv. unfold ords in Hv. rewrite Forall_mid in Hv. destruct Hv as [_ Hv].
  pose proof (at_place_valid pl _ Hv) as Hvq. rewrite at_place_app in Hvq. fold qab in Hvq.
  destruct (decide (qab = [])) as [->|Hne]; [done|].
  pose proof (sum_qty_pos _ Hvq Hne). by destruct (Z.eqb_spec (sum_qty qab.*2) 0); [lia|].
Qed.

Lemma side_at_cong s s' v sym sd : (forall w k, book_at s' w k = book_at s w k) -> side_at s' v sym sd = side_at s v sym sd.
Proof. intros Hb. unfold side_at. by rewrite Hb. Qed.

(** Taking the node of an order out of its queue. *)
Lemma unlink_order cap s a i o b f level : let pl := r_place o in
  let qa := at_place pl a in let qb := at_place pl b in
  Z.of_nat cap < 2 ^ 32 -> rep cap s (a ++ (i, o) :: b) ->
  (forall n, n_next (f n) = n_next n /\ n_prev (f n) = n_prev n) ->
  l_head level = onull (head (at_place pl (a ++ (i, o) :: b)).*1) ->
  l_tail level = onull (last (at_place pl (a ++ (i, o) :: b)).*1) ->
  let '(ns, level') := unlink (alter_node f i (nodes s)) level i in
  length ns = cap /\
  level' = mkLevel (l_price level) (l_qty level) (onull (head (qa ++ qb).*1)) (onull (last (qa ++ qb).*1)) /\
  node_at ns i = f (node_at (nodes s) i) /\
  forall j, j ∈ (a ++ b).*1 -> node_at ns j = relink (last qa.*1) (head qb.*1) j (node_at (nodes s) j).
Proof.
  intros pl qa qb Hcap Hr Hf Hhead Htail.
  destruct (rep_around _ _ _ _ _ _ Hcap Hr) as ((Hi & Hnull) & _ & _ & _ & Hlink & _). fold pl in Hlink.
  pose proof (rep_nodup _ _ _ Hr) as Hnd. apply NoDup_app in Hnd as [Hnd _]. destruct (mid_nodup _ _ _ _ Hnd) as (_ & _ & Hab).
  assert (forall j, j ∈ (a ++ (i, o) :: b).*1 -> in_slab cap j) as Hslab.
  { intros j Hj. apply (rep_in_slab _ _ _ _ Hr). apply elem_of_app. by left. }
  rewrite <-(rp_length _ _ _ Hr) in Hi. assert (0 <= i) as Hi0 by (unfold in_slab in Hi; lia).
  pose proof (at_place_nodup pl _ Hnd) as Hq. pose proof (at_place_sub pl (a ++ (i, o) :: b)) as Hsub.
  rewrite (at_place_here pl a i o b eq_refl), fmap_app, fmap_cons in Hq, Hlink, Hhead, Htail, Hsub. fold qa qb in Hq, Hlink, Hhead, Htail, Hsub.
  cbn [fst] in Hq, Hlink, Hhead, Htail, Hsub.
  pose proof (unlink_spec (alter_node f i (nodes s)) level qa.*1 i qb.*1) as Hu. cbn zeta in Hu.
  destruct (unlink _ level i) as [ns level']. rewrite length_alter_node in Hu.
  destruct Hu as (H1 & H2 & H3); [|done|intros j Hj|done|done|].
  - eapply linked_frame; [exact Hlink|]. intros j Hj%Hsub%Hslab. rewrite node_at_alter by (done || (unfold in_slab in Hj; lia)).
    destruct (decide (j = i)) as [->|]; [apply Hf|done].
  - pose proof (Hslab j (Hsub j Hj)) as Hj'. rewrite (rp_length _ _ _ Hr). split; [done|]. unfold in_slab in Hj'. unfold kNull. lia.
  - split_and!; [by rewrite H1, (rp_length _ _ _ Hr)|by rewrite !fmap_app| |].
    + by rewrite H3, decide_True, node_at_alter, decide_True.
    + intros j Hj. destruct (Hab j Hj) as [Hj'%Hslab Hne]. assert (0 <= j) by (unfold in_slab in Hj'; lia).
      by rewrite H3, decide_False, node_at_alter, decide_False.
Qed.

Lemma reduce_order_removed cap s a i o b k f level s1 : let pl := r_place o in let qab := at_place pl a ++ at_place pl b in
  let sb := side_at s (pl_venue pl) (pl_symbol pl) (pl_side pl) in
  Z.of_nat cap < 2 ^ 32 -> rep cap s (a ++ (i, o) :: b) -> reaches k a i o b ->
  cache_ok s1 -> slab_same s s1 -> (forall w k, book_at s1 w k = book_at s w k) ->
  (forall n, n_next (f n) = n_next n /\ n_prev (f n) = n_prev n /\ n_price (f n) = n_price n /\ n_live (f n) = n_live n) ->
  l_price level = pl_price pl -> l_qty level = sum_qty qab.*2 ->
  l_head level = onull (head (at_place pl (a ++ (i, o) :: b)).*1) ->
  l_tail level = onull (last (at_place pl (a ++ (i, o) :: b)).*1) ->
  rep cap
    (let '(ns, level) := unlink (alter_node f i (nodes s)) level i in
     store_side (release_node (with_index (delete k (order_index s)) (with_nodes ns s1)) i)
       (pl_venue pl) (pl_symbol pl) (pl_side pl)
       (remove_level_if_empty (put_level sb level (pl_price pl)) (n_price (node_at ns i))))
    (a ++ b).
Proof.
  intros pl qab sb Hcap Hr Hk Hcache (Hn1 & Hf1 & _ & Hl1) Hb1 Hf Hlp Hlq Hhead Htail.
  pose proof (unlink_order cap s a i o b f level Hcap Hr) as Hu. cbn zeta in Hu. fold pl qab in Hu.
  destruct (unlink _ level i) as [ns level']. destruct Hu as (Hlen & Hlevel & Hnode & Hother); [|done|done|].
  { intros n. destruct (Hf n) as (? & ? & _). done. }
  destruct (rep_around _ _ _ _ _ _ Hcap Hr) as ((Hi & Hnull) & Hsd & _). fold pl in Hsd.
  pose proof (rp_holds _ _ _ Hr) as Hh. rewrite Forall_mid in Hh. destruct Hh as [(_ & Hnp & _ & Hnl) _]. cbn [fst snd] in Hnp, Hnl.
  assert (n_price (node_at ns i) = pl_price pl) as ->.
  { rewrite Hnode. destruct (Hf (node_at (nodes s) i)) as (_ & _ & -> & _). unfold pl. by rewrite <-Hnp. }
  pose proof (rp_live _ _ _ Hr) as Hcount. rewrite length_app in Hcount. simpl in Hcount.
  rewrite release_live; simpl; [|by rewrite Hlen|done| |rewrite Hl1; lia].
  2:{ rewrite Hnode. destruct (Hf (node_at (nodes s) i)) as (_ & _ & _ & ->). done. }
  rewrite Hlp, Hlq in Hlevel.
  destruct (removed_level cap s a i o b level' Hcap Hr Hlevel) as (H1 & H2 & H3).
  apply (rep_removed cap s a i o b _ k (remove_level_if_empty (put_level sb level' (pl_price pl)) (pl_price pl)) Hr Hk); try done.
  - simpl. by rewrite length_insert.
  - simpl. by rewrite Hf1.
  - simpl. by rewrite Hl1.
  - by apply cache_ok_store.
  - intros j Hj. simpl. pose proof (rep_nodup _ _ _ Hr) as Hnd. apply NoDup_app in Hnd as [Hnd _].
    destruct (mid_nodup _ _ _ _ Hnd) as (_ & _ & Hab). destruct (Hab j Hj) as [Hj' Hne].
    assert (in_slab cap j) as Hs by (apply (rep_in_slab _ _ _ _ Hr); apply elem_of_app; by left).
    rewrite node_at_insert; [|by rewrite Hlen|unfold in_slab in Hs; lia]. rewrite decide_False by done. by apply Hother.
  - intros p. rewrite H3. rewrite Hlevel. done.
  - intros v sym sd Hsd'. rewrite side_at_store by done. fold pl.
    destruct (decide (v = pl_venue pl /\ sym = pl_symbol pl /\ sd = pl_side pl)); [done|by apply side_at_cong].
Qed.

Lemma reduce_order_rep cap s ords k qty all : Z.of_nat cap < 2 ^ 32 -> rep cap s ords -> 0 <= qty ->
  exists ords', ords'.*2 = spec_reduce ords.*2 k qty all /\ rep cap (reduce_order s k qty all) ords'.
Proof.
  intros Hcap Hr Hqty. pose proof (index_reaches _ _ _ k Hr) as Hix. unfold reduce_order.
  destruct (order_index s !! k) as [i|]; [|exists ords; by unfold spec_reduce; rewrite Hix].
  destruct Hix as (a & o & b & -> & Hk & _).
  destruct (rep_around _ _ _ _ _ _ Hcap Hr) as ((Hi & Hnull) & Hsd & Hq & (l & Hl & Hleq) & Hlink & Hsum & Hrest & Hmax).
  set (pl := r_place o) in *. set (qa := at_place pl a) in *. set (qb := at_place pl b) in *.
  pose proof (rp_holds _ _ _ Hr) as Hh. rewrite Forall_mid in Hh. destruct Hh as [(Hnk & Hnp & Hnq & Hnl) Hh].
  cbn [fst snd] in Hnk, Hnp, Hnq, Hnl. fold pl in Hnp.
  assert (n_venue (node_at (nodes s) i) = pl_venue pl /\ n_symbol (node_at (nodes s) i) = pl_symbol pl /\
    n_side (node_at (nodes s) i) = pl_side pl /\ n_price (node_at (nodes s) i) = pl_price pl) as (-> & -> & -> & ->) by by rewrite <-Hnp.
  pose proof (slab_book_for_spec s (pl_venue pl) (pl_symbol pl) (rp_cache _ _ _ Hr)) as H1.
  destruct (book_for s _ _) as [ptr s1]. destruct H1 as (-> & Hcache & (Hn1 & Hf1 & Hx1 & Hl1) & Hb1).
  rewrite Hb1. fold (side_at s (pl_venue pl) (pl_symbol pl) (pl_side pl)). rewrite Hl, Hnq, Hn1, Hx1.
  pose proof (spec_reduce_reaches k _ a i o b qty all eq_refl Hk) as Hspec. cbn zeta in Hspec.
  set (dec := if all || (qty =? 0) || (r_qty o <? qty) then r_qty o else qty) in *.
  assert (0 <= dec <= r_qty o /\ (all = true -> dec = r_qty o)) as [Hdec Hall].
  { unfold dec. destruct all; simpl; [lia|]. destruct (Z.eqb_spec qty 0); simpl; [split; [lia|done]|].
    destruct (Z.ltb_spec (r_qty o) qty); split; lia || done. }
  assert (0 <= i) as Hi0 by (unfold in_slab in Hi; lia).
  rewrite <-(rp_length _ _ _ Hr) in Hi.
  rewrite node_at_alter, decide_True by done. cbn [n_qty set_node_qty]. rewrite Hnq, (u32_small (r_qty o - dec)) by lia.
  assert ((if dec <? l_qty l then l_qty l -64 dec else 0) = l_qty l - dec) as ->.
  { rewrite Hleq. simpl. destruct (Z.ltb_spec dec (sum_qty (at_place pl (a ++ (i, o) :: b)).*2)); [rewrite u64_small; lia|lia]. }
  rewrite Hspec. destruct ((r_qty o - dec =? 0) || all) eqn:Efull.
  2:{ exists (a ++ (i, with_qty (r_qty o - dec) o) :: b). split; [done|]. apply orb_false_iff in Efull as [Efull _]. zbool.
      apply (rep_updated cap s a i o b _ (r_qty o - dec) l Hr); try done.
      - lia.
      - simpl. by rewrite length_alter_node, (rp_length _ _ _ Hr).
      - by apply cache_ok_store.
      - intros j Hj. simpl. rewrite node_at_alter; [|done|].
        2:{ assert (in_slab cap j) as Hs by (apply (rep_in_slab _ _ _ _ Hr); apply elem_of_app; by left). unfold in_slab in Hs. lia. }
        rewrite Hnq, u32_small by lia. done.
      - intros v sym sd Hsd'. rewrite side_at_store by done. case_decide as Hw.
        + destruct Hw as (-> & -> & ->). rewrite decide_True by done. f_equal. f_equal. lia.
        + rewrite decide_False by done. by apply side_at_cong. }
  assert (r_qty o - dec = 0) as Hdec0.
  { apply orb_true_iff in Efull as [E|E]; [by zbool|]. rewrite (Hall E). lia. }
  exists (a ++ b). split; [done|].
  apply (reduce_order_removed cap s a i o b k); try done; simpl; rewrite Hleq; simpl; try done.
  unfold qa, qb, pl in *. lia.
Qed.

(** ** Events *)

Lemma replace_order_rep cap s ords v sym ev : Z.of_nat cap < 2 ^ 32 -> rep cap s ords -> 0 < qty ev < 2 ^ 32 ->
  let '(ok, ahead, s') := replace_order s v sym ev in
  let '(ok', ahead', os') := spec_replace cap ords.*2 v sym ev in
  ok = ok' /\ ahead = ahead' /\ exists ords', ords'.*2 = os' /\ rep cap s' ords'.
Proof.
  intros Hcap Hr Hq. unfold replace_order, spec_replace. set (old := order_key v (reference_order_id ev)).
  destruct (reduce_order_rep cap s ords old 0 true Hcap Hr) as (ords1 & E1 & Hr1); [lia|].
  pose proof (index_reaches _ _ _ old Hr) as Hix. destruct (order_index s !! old) as [i|] eqn:Eix.
  - destruct Hix as (a & o & b & Ho & _ & ->). rewrite <-E1.
    pose proof (rp_holds _ _ _ Hr) as Hh. rewrite Ho, Forall_mid in Hh. destruct Hh as [(_ & Hp & _) _]. cbn [fst snd] in Hp.
    assert (n_side (node_at (nodes s) i) = pl_side (r_place o)) as -> by by rewrite <-Hp.
    by apply add_order_rep.
  - unfold reduce_order in Hr1. rewrite Eix in Hr1. rewrite <-E1, Hix. by apply add_order_rep.
Qed.

(** The quantities of new orders: a positive 32-bit number. *)
Definition event_qty_ok (ev : BookEvent) : Prop :=
  match type ev with
  | Add | AddMpid | Replace => 0 < qty ev < 2 ^ 32
  | _ => 0 <= qty ev < 2 ^ 32
  end.
#[export] Instance event_qty_ok_dec ev : Decision (event_qty_ok ev).
Proof. unfold event_qty_ok. destruct (type ev); apply _. Defined.

Lemma on_type_rep cap s ords sym ev : Z.of_nat cap < 2 ^ 32 -> rep cap s ords -> event_qty_ok ev ->
  let '(ex, ahead, s') := on_type s sym ev in
  let '(ex', ahead', os') := spec_type cap ords.*2 sym ev in
  ex = ex' /\ ahead = ahead' /\ exists ords', ords'.*2 = os' /\ rep cap s' ords'.
Proof.
  intros Hcap Hr Hq. unfold on_type, spec_type, event_qty_ok in *.
  pose proof (fun ty => reduce_order_rep cap s ords (order_key (venue ev) (order_id ev)) (qty ev) ty Hcap Hr) as Hred.
  destruct (type ev); try (split_and!; [done..|by eexists]);
    try (split_and!; [done..|apply Hred; lia]).
  1,2: destruct (negb (order_id ev =? 0)); [|split_and!; [done..|by eexists]];
       pose proof (add_order_rep cap s ords (venue ev) sym ev Hcap Hr Hq) as H1;
       destruct (add_order s _ sym ev) as [[ok ahead] s'], (spec_add cap _ _ sym ev) as [[ok' ahead'] os'];
       destruct H1 as (-> & -> & H1); done.
  pose proof (replace_order_rep cap s ords (venue ev) sym ev Hcap Hr Hq) as H1.
  destruct (replace_order s _ sym ev) as [[ok ahead] s'], (spec_replace cap _ _ sym ev) as [[ok' ahead'] os'].
  by destruct H1 as (_ & _ & H1).
Qed.

(** ** Reading the best quotes *)

Lemma best_of_spec desc ps : match best_of desc ps with
  | Some b => is_best desc (fun p => p ∈ ps) b
  | None => ps = []
  end.
Proof.
  induction ps as [|p ps IH]; [done|]. cbn [best_of foldr]. fold (best_of desc ps). destruct (best_of desc ps) as [b|].
  - destruct IH as [H1 H2]. split.
    + rewrite elem_of_cons. destruct desc; [destruct (Z.max_spec p b) as [[_ ->]|[_ ->]]|destruct (Z.min_spec p b) as [[_ ->]|[_ ->]]]; auto.
    + intros x [->|Hx]%elem_of_cons; [destruct desc; lia|]. specialize (H2 x Hx). destruct desc; lia.
  - subst ps. split; [by left|]. intros x Hx%list_elem_of_singleton. subst. by destruct desc.
Qed.

Lemma is_best_unique desc (P : Z -> Prop) b b' : is_best desc P b -> is_best desc P b' -> b = b'.
Proof. intros [H1 H2] [H1' H2']. apply H2 in H1'. apply H2' in H1. destruct desc; lia. Qed.

Lemma has_level_prices cap s ords v sym sd p : rep cap s ords -> sd <> SideUnknown ->
  has_level (side_at s v sym sd) p <-> p ∈ prices_on v sym sd ords.*2.
Proof.
  intros Hr Hsd. pose proof (sr_level _ _ _ _ (rp_side _ _ _ Hr v sym sd Hsd) p) as Hl.
  assert (p ∈ prices_on v sym sd ords.*2 <-> at_place (mkPlace v sym sd p) ords <> []) as ->.
  { unfold prices_on. rewrite list_elem_of_fmap. split.
    - intros (o & -> & Ho) E. apply list_elem_of_filter in Ho as [(H1 & H2 & H3) (e & -> & He)%list_elem_of_fmap].
      apply (not_elem_of_nil (A := Z * Resting) e). rewrite <-E. apply elem_of_at_place. split; [|done].
      by rewrite <-H1, <-H2, <-H3, place_eta.
    - destruct (at_place _ ords) as [|e q] eqn:E; [done|]. intros _.
      assert (e ∈ at_place (mkPlace v sym sd p) ords) as [Hp He]%elem_of_at_place by (rewrite E; by left).
      exists e.2. rewrite Hp. split; [done|]. apply list_elem_of_filter. rewrite Hp. split; [done|].
      apply list_elem_of_fmap. by exists e. }
  unfold has_level. destruct (levels _ !! p) as [l|]; simpl in Hl.
  - destruct Hl as [Hne _]. split; [done|by eexists].
  - rewrite Hl. split; [by intros []|done].
Qed.

Lemma quote_rep cap s ords v sym sd : rep cap s ords -> sd <> SideUnknown ->
  let sb := side_at s v sym sd in
  (if has_best sb then (true, best_price sb, match levels sb !! best_price sb with Some l => u32 (l_qty l) | None => 0 end)
   else (false, 0, 0)) = spec_quote v sym sd ords.*2.
Proof.
  intros Hr Hsd sb. pose proof (rp_side _ _ _ Hr v sym sd Hsd) as [Hd Hl Hb]. fold sb in Hd, Hl, Hb.
  pose proof (fun p => has_level_prices _ _ _ v sym sd p Hr Hsd) as Hp. fold sb in Hp. unfold best_over in Hb. unfold spec_quote.
  pose proof (best_of_spec (bool_decide (sd = Buy)) (prices_on v sym sd ords.*2)) as Hbest. rewrite <-Hd in *.
  destruct (has_best sb).
  - destruct (best_of _ _) as [b|].
    + assert (best_price sb = b) as <-.
      { apply (is_best_unique (descending sb) (fun p => p ∈ prices_on v sym sd ords.*2)); [|done].
        destruct Hb as [H1 H2]. split; [by apply Hp|]. intros p Hp'%Hp. by apply H2. }
      specialize (Hl (best_price sb)). destruct Hb as [[l Hlb] _]. rewrite Hlb in *. destruct Hl as (_ & -> & _). simpl.
      unfold quantity_at. by rewrite at_place_resting.
    + destruct Hb as [Hb _]. apply Hp in Hb. rewrite Hbest in Hb. by apply not_elem_of_nil in Hb.
  - destruct (best_of _ _) as [b|]; [|done]. destruct Hbest as [Hin _]. by apply Hp, Hb in Hin.
Qed.

Lemma snapshot_top_rep cap s ords v sym : rep cap s ords ->
  snapshot_top (book_at s v sym) = spec_top v sym ords.*2.
Proof.
  intros Hr. unfold spec_top. rewrite <-(quote_rep _ _ _ v sym Buy Hr), <-(quote_rep _ _ _ v sym Sell Hr) by done. done.
Qed.

Lemma rep_same cap s s' ords : rep cap s ords -> slab_same s s' -> cache_ok s' ->
  (forall w k, book_at s' w k = book_at s w k) -> rep cap s' ords.
Proof.
  intros Hr (Hn & Hf & Hx & Hl) Hc Hb. destruct Hr. split; rewrite ?Hn, ?Hf, ?Hx, ?Hl; try done.
  intros v sym sd Hsd. rewrite (side_at_cong s) by done. auto.
Qed.

Lemma intrusive_on_event_rep cap s ords ev : Z.of_nat cap < 2 ^ 32 -> rep cap s ords -> event_qty_ok ev ->
  let '(s', r) := intrusive_on_event s ev in
  let '(os', r') := spec_on_event cap ords.*2 ev in
  r = r' /\ exists ords', ords'.*2 = os' /\ rep cap s' ords'.
Proof.
  intros Hcap Hr Hq. unfold intrusive_on_event, spec_on_event. set (sym := as_u64 (symbol ev)).
  pose proof (slab_book_for_spec s (venue ev) sym (rp_cache _ _ _ Hr)) as H1.
  destruct (book_for s (venue ev) sym) as [ptr s1]. destruct H1 as (-> & Hc & Hsame & Hb).
  pose proof (rep_same _ _ _ _ Hr Hsame Hc Hb) as Hr1. rewrite (snapshot_top_rep _ _ _ _ _ Hr1).
  pose proof (on_type_rep cap s1 ords sym ev Hcap Hr1 Hq) as H2.
  destruct (on_type s1 sym ev) as [[ex ahead] s2], (spec_type cap _ sym ev) as [[ex' ahead'] os'].
  destruct H2 as (-> & -> & ords' & <- & Hr2). rewrite (snapshot_top_rep _ _ _ _ _ Hr2). split; [done|by exists ords'].
Qed.

Lemma intrusive_init_rep cap : rep cap (intrusive_init cap) [].
Proof.
  assert (forall v sym, book_at (intrusive_init cap) v sym = book_empty) as Hb.
  { intros v sym. unfold book_at, find_book. simpl. by rewrite pv_get_const. }
  split; try done.
  - apply length_replicate.
  - intros k i. simpl. rewrite lookup_empty. split; [done|]. by intros (o & []%not_elem_of_nil & _).
  - intros v ptr. simpl. by rewrite pv_get_const.
  - intros v sym sd Hsd. unfold side_at. rewrite Hb. destruct sd; [| |done]; split; try done; intros p; simpl; by rewrite lookup_empty || intros [].
Qed.

(** The results of a run, event by event. *)
Fixpoint intrusive_results (s : IntrusiveOrderBook) (evs : list BookEvent) : list ApplyResult :=
  match evs with
  | [] => []
  | ev :: evs => let '(s, r) := intrusive_on_event s ev in r :: intrusive_results s evs
  end.

Fixpoint spec_results (cap : nat) (os : list Resting) (evs : list BookEvent) : list ApplyResult :=
  match evs with
  | [] => []
  | ev :: evs => let '(os, r) := spec_on_event cap os ev in r :: spec_results cap os evs
  end.

Definition spec_run (cap : nat) (evs : list BookEvent) : list Resting :=
  fold_left (fun os ev => (spec_on_event cap os ev).1) evs [].

Lemma intrusive_run_rep cap evs : forall s ords, Z.of_nat cap < 2 ^ 32 -> rep cap s ords -> Forall event_qty_ok evs ->
  intrusive_results s evs = spec_results cap ords.*2 evs /\
  exists ords', ords'.*2 = fold_left (fun os ev => (spec_on_event cap os ev).1) evs ords.*2 /\ rep cap (intrusive_run s evs) ords'.
Proof.
  unfold intrusive_run. induction evs as [|ev evs IH]; intros s ords Hcap Hr Hq; [split; [done|by exists ords]|].
  apply Forall_cons in Hq as [Hev Hq]. cbn [intrusive_results spec_results fold_left].
  pose proof (intrusive_on_event_rep cap s ords ev Hcap Hr Hev) as H1.
  destruct (intrusive_on_event s ev) as [s1 r], (spec_on_event cap ords.*2 ev) as [os r'].
  destruct H1 as (-> & ords1 & <- & Hr1). destruct (IH s1 ords1 Hcap Hr1 Hq) as (-> & H2). done.
Qed.

(** Walking the links from the head of a level. *)
Lemma walk_linked ns l fuel : linked ns l -> (forall j, j ∈ l -> j <> kNull) -> (length l <= fuel)%nat ->
  walk fuel ns (onull (head l)) = (fun j => (n_key (node_at ns j), n_qty (node_at ns j))) <$> l.
Proof.
  intros Hl Hnull.
  assert (forall b a, l = a ++ b -> (length b <= fuel)%nat ->
    walk fuel ns (onull (head b)) = (fun j => (n_key (node_at ns j), n_qty (node_at ns j))) <$> b) as H1.
  2:{ intros Hf. by apply (H1 l []). }
  induction fuel as [|fuel IH]; intros b a E Hf; [destruct b; [done|simpl in Hf; lia]|].
  destruct b as [|j b]; [done|]. cbn [walk head onull from_option Datatypes.id]. unfold onull. simpl.
  destruct (Z.eqb_spec j kNull) as [Hj|_]; [exfalso; apply (Hnull j); [rewrite E; set_solver|done]|].
  destruct (Hl _ _ _ E) as [-> _]. f_equal. simpl in Hf.
  apply (IH b (a ++ [j])); [by rewrite <-app_assoc|lia].
Qed.

Lemma queue_of_rep cap s ords pl : Z.of_nat cap < 2 ^ 32 -> rep cap s ords -> pl_side pl <> SideUnknown ->
  queue_of s pl = (fun o => (r_key o, r_qty o)) <$> resting_at pl ords.*2.
Proof.
  intros Hcap Hr Hsd. unfold queue_of. fold (side_at s (pl_venue pl) (pl_symbol pl) (pl_side pl)).
  pose proof (sr_level _ _ _ _ (rp_side _ _ _ Hr (pl_venue pl) (pl_symbol pl) (pl_side pl) Hsd) (pl_price pl)) as Hl.
  cbn beta in Hl. rewrite place_eta in Hl. rewrite <-at_place_resting.
  destruct (levels _ !! pl_price pl) as [l|]; simpl in Hl; [|by rewrite Hl].
  destruct Hl as (_ & -> & Hlink). cbn [l_head]. rewrite walk_linked; [|done| |].
  - rewrite <-!list_fmap_compose. apply list_fmap_ext. intros i [j o] Hi. simpl.
    apply list_elem_of_lookup_2, elem_of_at_place in Hi as [_ Hi].
    destruct (proj1 (Forall_forall _ _) (rp_holds _ _ _ Hr) _ Hi) as (H1 & _ & H2 & _). simpl in H1, H2. by rewrite H1, H2.
  - intros j Hj%at_place_sub. assert (in_slab cap j) as Hs by (apply (rep_in_slab _ _ _ _ Hr); apply elem_of_app; by left).
    unfold in_slab in Hs. unfold kNull. lia.
  - rewrite length_fmap, (rp_length _ _ _ Hr). pose proof (at_place_length pl ords). pose proof (rep_count _ _ _ Hr). lia.
Qed.

(** C7. On every stream of events with 32-bit quantities that are positive where
    an order is added or replaced ([zero_quantity_hides_best] shows one without),
    whatever ids it reuses or mistakes, and for a pool of less than 2^32 nodes,
    the slab book
    returns for each event what the list of orders in order of arrival returns
    (quote change, pool exhaustion, quantity queued ahead, best quotes), holds
    as many nodes as there are live orders, and walking the links of a level
    visits exactly the orders at its price, first come first. *)
Theorem intrusive_refines_queues cap evs : Z.of_nat cap < 2 ^ 32 -> Forall event_qty_ok evs ->
  let s := intrusive_run (intrusive_init cap) evs in
  let os := spec_run cap evs in
  intrusive_results (intrusive_init cap) evs = spec_results cap [] evs /\
  live_order_count s = Z.of_nat (length os) /\
  (forall v sym, top_of_book s v sym = spec_top v sym os) /\
  (forall pl, pl_side pl <> SideUnknown ->
    queue_of s pl = (fun o => (r_key o, r_qty o)) <$> resting_at pl os).
Proof.
  intros Hcap Hq s os. destruct (intrusive_run_rep cap evs _ _ Hcap (intrusive_init_rep cap) Hq) as (H1 & ords & H2 & Hr).
  fold s in Hr. assert (os = ords.*2) as -> by done. split_and!; [done| | |].
  - by rewrite length_fmap, (rp_live _ _ _ Hr).
  - intros v sym. rewrite <-(snapshot_top_rep _ _ _ _ _ Hr). unfold top_of_book, book_at.
    by destruct (find_book s v sym).
  - intros pl Hpl. by apply (queue_of_rep cap).
Qed.

End slab.

(** Two orders queued, the first reduced, the second removed, its node reused,
    an id added twice, and a pool of three nodes running out. *)
Definition sample_queue : list BookEvent :=
  [book_event Add aapl 1 Buy 100 50; book_event Add aapl 2 Buy 30 50; book_event Execute aapl 1 SideUnknown 40 0;
   book_event Delete aapl 2 SideUnknown 0 0; book_event Add aapl 3 Buy 7 50; book_event Add aapl 1 Sell 5 51;
   book_event Add aapl 4 Buy 9 49].

Lemma intrusive_refines_queues_witness :
  let s := intrusive_run (intrusive_init 3) sample_queue in
  top_of_book s Nasdaq (as_u64 aapl) = mkTop true true 50 67 51 5 /\
  queue_of s (mkPlace Nasdaq (as_u64 aapl) Buy 50) = [(1, 60); (3, 7)].
Proof.
  destruct (intrusive_refines_queues 3 sample_queue) as (_ & _ & H1 & H2).
  - reflexivity.
  - apply (bool_decide_unpack _). vm_compute. exact I.
  - split; [rewrite H1|rewrite H2 by discriminate]; vm_compute; reflexivity.
Defined.

(** An order without a quantity opens a level that the best price skips when it
    is recomputed; a later order at that price finds the level there and does
    not restore it: the book then shows no bid although five rest at 100. *)
Example zero_quantity_hides_best :
  let s := intrusive_run (intrusive_init 8)
    [book_event Add aapl 1 Buy 0 100; book_event Add aapl 2 Buy 1 101; book_event Delete aapl 2 Buy 0 0;
     book_event Add aapl 3 Buy 5 100] in
  has_bid (top_of_book s Nasdaq (as_u64 aapl)) = false /\
  snapshot s Nasdaq (as_u64 aapl) = mkSnapshot [(100, 5)] [].
Proof. by vm_compute. Qed.

(** The quotes are 32 bits wide, the levels 64. *)
Example quote_wraps :
  let s := intrusive_run (intrusive_init 8)
    [book_event Add aapl 1 Buy (2 ^ 31) 100; book_event Add aapl 2 Buy (2 ^ 31) 100] in
  top_of_book s Nasdaq (as_u64 aapl) = mkTop true false 100 0 0 0 /\
  snapshot s Nasdaq (as_u64 aapl) = mkSnapshot [(100, 2 ^ 32)] [].
Proof. by vm_compute. Qed.
