(* ===== verification/BookEngines.v ===== *)
(** * The two order books agree

    [OrderBookEngine] keeps totals and a hash table of orders, [IntrusiveOrderBook]
    keeps every order in a queue. On a feed that follows the protocol both
    refine the same finite map of live orders, so their snapshots and their
    best quotes are the same: what tests/test_phase3_intrusive_order_book.cpp
    checks on sampled streams. *)

From S2P Require Import Prelude Types OrderTable Levels OrderBook BookTotals Intrusive IntrusiveQueues.

#[local] Open Scope list_scope.
#[local] Open Scope Z_scope.

(** ** What the two books answer *)

(** The snapshot and the best quotes of the book of a venue and a symbol. *)
Definition engine_view `{UnorderedMap, StdSort} (e : OrderBookEngine) (v : Venue) (sym : Z) :=
  (engine_snapshot e v sym, OrderBook.top_of_book e v sym).
Definition slab_view `{UnorderedMap, StdSort} (s : IntrusiveOrderBook) (v : Venue) (sym : Z) :=
  (snapshot s v sym, top_of_book s v sym).

(** ** The live orders of the two specifications *)

Definition map_entry (e : Z * OrderRef) : Z * Place * Z := (e.1, order_place e.2, o_qty e.2).
Definition list_entry (o : Resting) : Z * Place * Z := (r_key o, r_place o, r_qty o).

Record same_orders (m : gmap Z OrderRef) (os : list Resting) : Prop := {
  so_perm : Permutation (map_entry <$> map_to_list m) (list_entry <$> os);
  so_reachable : Forall (fun o => r_reachable o = true) os;
}.

Lemma same_orders_length m os : same_orders m os -> length os = size m.
Proof.
  intros [Hp _]. apply Permutation_length in Hp. rewrite !length_fmap in Hp. by rewrite <-length_map_to_list.
Qed.

Definition entry_sum (pl : Place) (l : list (Z * Place * Z)) : Z :=
  foldr (fun e acc => (if decide (e.1.2 = pl) then e.2 else 0) + acc) 0 l.

Lemma entry_sum_perm pl l l' : Permutation l l' -> entry_sum pl l = entry_sum pl l'.
Proof. unfold entry_sum. induction 1; simpl; lia. Qed.

(** The quantity at a place is the same in both. *)
Lemma same_orders_total m os pl : same_orders m os -> total m pl = quantity_at pl os.
Proof.
  intros [Hp _]. transitivity (entry_sum pl (map_entry <$> map_to_list m)).
  - clear Hp. unfold total. rewrite map_fold_foldr. induction (map_to_list m) as [|[k o] l IH]; [done|].
    rewrite fmap_cons. simpl. by rewrite IH.
  - rewrite (entry_sum_perm _ _ _ Hp). clear Hp. induction os as [|o os IH]; [done|].
    rewrite fmap_cons. unfold quantity_at, resting_at in *. rewrite filter_cons.
    change (entry_sum pl (list_entry o :: (list_entry <$> os)))
      with ((if decide (r_place o = pl) then r_qty o else 0) + entry_sum pl (list_entry <$> os)).
    rewrite IH. destruct (decide (r_place o = pl)); [by rewrite sum_qty_cons|done].
Qed.

(** What a key reaches is the same in both. *)
Lemma same_orders_find m os k : same_orders m os ->
  match m !! k with
  | None => Forall (fun o => hits k o = false) os
  | Some o => exists a r b, os = a ++ r :: b /\ hits k r = true /\ Forall (fun o => hits k o = false) (a ++ b) /\
      list_entry r = (k, order_place o, o_qty o) /\ same_orders (delete k m) (a ++ b)
  end.
Proof.
  intros [Hp Hr]. destruct (m !! k) as [o|] eqn:Ek.
  - assert ((k, order_place o, o_qty o) ∈ list_entry <$> os) as (r & Er & Hin)%list_elem_of_fmap.
    { rewrite <-Hp. apply list_elem_of_fmap. exists (k, o). split; [done|]. by apply elem_of_map_to_list. }
    apply list_elem_of_split in Hin as (a & b & ->). exists a, r, b.
    assert (Permutation (map_entry <$> map_to_list (delete k m)) (list_entry <$> a ++ b)) as Hd.
    { apply (Permutation_cons_inv (a := map_entry (k, o))).
      rewrite <-fmap_cons, map_to_list_delete by done. rewrite Hp, !fmap_app, fmap_cons, <-Permutation_middle.
      by rewrite <-Er. }
    assert (hits k r = true) as Hk.
    { unfold hits. rewrite Forall_mid in Hr. destruct Hr as [-> _]. injection Er as -> _ _. apply Z.eqb_refl. }
    split_and!; [done|done| |done|split; [done|by rewrite Forall_mid in Hr; destruct Hr]].
    apply Forall_forall. intros x Hx. destruct (hits k x) eqn:E; [|done]. exfalso.
    assert (list_entry x ∈ map_entry <$> map_to_list (delete k m)) as (e & Ee & He)%list_elem_of_fmap.
    { rewrite Hd. by apply list_elem_of_fmap_2. }
    destruct e as [k' o']. apply elem_of_map_to_list in He. injection Ee as Ek' _ _. unfold hits in E.
    apply andb_prop in E as [_ E]. zbool. rewrite <-Ek', E, lookup_delete_eq in He. done.
  - apply Forall_forall. intros x Hx. destruct (hits k x) eqn:E; [|done]. exfalso.
    assert (list_entry x ∈ map_entry <$> map_to_list m) as (e & Ee & He)%list_elem_of_fmap.
    { rewrite Hp. by apply list_elem_of_fmap_2. }
    destruct e as [k' o']. apply elem_of_map_to_list in He. injection Ee as Ek' _ _. unfold hits in E.
    apply andb_prop in E as [_ E]. zbool. congruence.
Qed.

(** ** Events *)

Lemma same_orders_add cap m os v ev ahead : same_orders m os -> (length os < cap)%nat -> v = venue ev ->
  m !! event_key ev = None -> side ev <> SideUnknown ->
  same_orders (<[event_key ev := order_of ev ahead]> m) (spec_add cap os v (as_u64 (symbol ev)) ev).2.
Proof.
  intros Hs Hcap -> Hk Hsd. unfold spec_add. destruct (decide _); [done|]. destruct (Nat.leb_spec cap (length os)); [lia|].
  simpl. fold (event_key ev). pose proof (same_orders_find _ _ (event_key ev) Hs) as Hf. rewrite Hk in Hf.
  assert (supersede (event_key ev) <$> os = os) as ->.
  { rewrite <-(list_fmap_id os) at 2. apply Forall_fmap_ext. eapply Forall_impl; [exact Hf|].
    intros o Ho. unfold supersede. by rewrite Ho. }
  destruct Hs as [Hp Hr]. split; [|by apply Forall_snoc].
  rewrite map_to_list_insert by done. rewrite fmap_cons, fmap_app, Hp, Permutation_app_comm. done.
Qed.

Lemma same_orders_reduce m os k q all o : same_orders m os -> m !! k = Some o ->
  let dec := if all || (q =? 0) || (o_qty o <? q) then o_qty o else q in
  same_orders (if (o_qty o - dec =? 0) || all then delete k m
               else <[k := mkOrder (o_venue o) (o_symbol o) (o_side o) (o_price o) (o_qty o - dec) (o_queue_ahead o)]> m)
              (spec_reduce os k q all).
Proof.
  intros Hs Hk dec. pose proof (same_orders_find _ _ k Hs) as Hf. rewrite Hk in Hf.
  destruct Hf as (a & r & b & -> & Hr & Hmiss & Er & Hd). injection Er as Ek Ep Eq.
  pose proof (spec_reduce_reaches k (((fun o => (0, o)) <$> a) ++ (0, r) :: ((fun o => (0, o)) <$> b)) _ _ _ _ q all eq_refl) as Hspec.
  cbn zeta in Hspec. rewrite !fmap_app, !fmap_cons, <-!list_fmap_compose in Hspec. cbn [snd] in Hspec.
  assert (forall l : list Resting, (snd ∘ (fun o => (0, o))) <$> l = l) as Hid by (intros l; apply list_fmap_id).
  rewrite !Hid, Eq in Hspec. fold dec in Hspec. rewrite Hspec; clear Hspec.
  2:{ split; [done|]. apply Forall_app in Hmiss as [H1 H2]. apply Forall_app. split; by apply Forall_fmap. }
  destruct ((o_qty o - dec =? 0) || all); [done|]. destruct Hd as [Hp Hre]. pose proof (so_reachable _ _ Hs) as Hre'.
  rewrite Forall_mid in Hre'. destruct Hre' as [Hrr _]. split; [|by rewrite Forall_mid].
  rewrite <-insert_delete_eq, map_to_list_insert by apply lookup_delete_eq.
  rewrite fmap_cons, Hp, !fmap_app, fmap_cons, <-Permutation_middle. unfold map_entry, list_entry at 3. simpl.
  rewrite Ek, Ep. done.
Qed.

Lemma reduce_by_same ev o : (type ev = Delete -> qty ev = 0 \/ o_qty o <= qty ev) ->
  let all := bool_decide (type ev = Delete) in
  let dec := if all || (qty ev =? 0) || (o_qty o <? qty ev) then o_qty o else qty ev in
  dec = reduce_by ev o /\ ((o_qty o - dec =? 0) || all) = ((o_qty o <=? dec) || all).
Proof.
  intros Hdel. unfold reduce_by. destruct (bool_decide (type ev = Delete)) eqn:Et; simpl.
  - apply bool_decide_eq_true in Et. rewrite !orb_true_r. split; [|done].
    destruct (Hdel Et) as [->|Hle]; [done|]. destruct (Z.eqb_spec (qty ev) 0); simpl; [done|].
    destruct (Z.ltb_spec (o_qty o) (qty ev)); lia.
  - split; [done|]. rewrite !orb_false_r. destruct (Z.eqb_spec (qty ev) 0); simpl; [by rewrite Z.sub_diag, Z.leb_refl|].
    destruct (Z.ltb_spec (o_qty o) (qty ev)); [by rewrite Z.sub_diag, Z.leb_refl|].
    destruct (Z.eqb_spec (o_qty o - qty ev) 0), (Z.leb_spec (o_qty o) (qty ev)); lia || done.
Qed.

Lemma same_orders_on_reduce m os ev : same_orders m os ->
  if_live m (event_key ev) (fun o => same_book o ev /\ (type ev = Delete -> qty ev = 0 \/ o_qty o <= qty ev)) ->
  same_orders (match m !! event_key ev with
    | None => m
    | Some o => let dec := reduce_by ev o in
        if (o_qty o <=? dec) || bool_decide (type ev = Delete) then delete (event_key ev) m
        else <[event_key ev := mkOrder (o_venue o) (o_symbol o) (o_side o) (o_price o) (o_qty o - dec) (o_queue_ahead o)]> m
    end) (spec_reduce os (event_key ev) (qty ev) (bool_decide (type ev = Delete))).
Proof.
  intros Hs Hl. unfold if_live in Hl. destruct (m !! event_key ev) as [o|] eqn:Ek.
  - destruct Hl as [_ Hdel]. destruct (reduce_by_same ev o Hdel) as [Hdec Hfull]. cbn zeta. rewrite <-Hdec, <-Hfull.
    exact (same_orders_reduce m os _ _ _ o Hs Ek).
  - pose proof (same_orders_find _ _ (event_key ev) Hs) as Hf. rewrite Ek in Hf. unfold spec_reduce. by rewrite find_miss.
Qed.

Lemma same_orders_on_replace cap m os ev : same_orders m os -> (length os < cap)%nat ->
  new_order_ok (delete (event_old_key ev) m) ev ->
  same_orders (<[event_key ev := order_of ev 0]> (delete (event_old_key ev) m))
    (spec_replace cap os (venue ev) (as_u64 (symbol ev)) ev).2.
Proof.
  intros Hs Hcap (Hid & Hk & _ & Hsd). unfold spec_replace. fold (event_old_key ev).
  assert (same_orders (delete (event_old_key ev) m) (spec_reduce os (event_old_key ev) 0 true) /\
    (length (spec_reduce os (event_old_key ev) 0 true) <= length os)%nat) as [Hs1 Hlen].
  { destruct (m !! event_old_key ev) as [o|] eqn:Ek.
    - pose proof (same_orders_reduce m os _ 0 true o Hs Ek) as H1. cbn zeta in H1. rewrite orb_true_r in H1. split; [done|].
      rewrite (same_orders_length _ _ H1), (same_orders_length _ _ Hs), map_size_delete_Some by by eexists. lia.
    - pose proof (same_orders_find _ _ (event_old_key ev) Hs) as Hf. rewrite Ek in Hf.
      unfold spec_reduce. rewrite find_miss, delete_id by done. done. }
  assert (match List.find (hits (event_old_key ev)) os with
          | Some o => if decide (side ev = SideUnknown) then pl_side (r_place o) else side ev | None => side ev end = side ev) as ->.
  { destruct (List.find _ os); [by rewrite decide_False|done]. }
  assert (set_side (side ev) ev = ev) as -> by by destruct ev.
  apply (same_orders_add cap); [done|lia|done..].
Qed.

(** One event on both specifications. *)
Lemma same_orders_event cap m os ev ahead : same_orders m os -> (length os < cap)%nat -> disciplined m ev ->
  same_orders (spec_orders m ev ahead) (spec_type cap os (as_u64 (symbol ev)) ev).2.
Proof.
  intros Hs Hcap Hd. unfold spec_orders, spec_type, disciplined in *.
  pose proof (same_orders_on_reduce m os ev Hs) as Hred.
  assert (new_order_ok m ev -> same_orders (<[event_key ev := order_of ev ahead]> m)
      (if negb (order_id ev =? 0) then
         let '(ok, ah, os) := spec_add cap os (venue ev) (as_u64 (symbol ev)) ev in (negb ok, ah, os) else (false, 0, os)).2) as Hadd.
  { intros (Hid & Hk & _ & Hsd). pose proof (same_orders_add cap m os (venue ev) ev ahead Hs Hcap eq_refl Hk Hsd) as H1.
    destruct (Z.eqb_spec (order_id ev) 0); [done|]. simpl. by destruct (spec_add _ _ _ _ _) as [[ok ah] os']. }
  destruct (type ev) eqn:Ety; try done; try (by apply Hadd); try (destruct Hd as [_ Hd]; exact (Hred Hd)).
  destruct Hd as [Hn _]. pose proof (same_orders_on_replace cap m os ev Hs Hcap Hn) as H1.
  by destruct (spec_replace _ _ _ _ _) as [[ok ah] os'].
Qed.

(** ** Snapshots *)

(** A sorted side is determined by the quantities it shows. *)
Lemma side_levels_unique `{UnorderedMap, StdSort} desc (l : list Levels.Level) sb :
  levels_sorted desc l -> level_qty l = l_qty <$> levels sb ->
  side_levels sb (if desc then (fun p q => q <? p) else Z.ltb) = l.
Proof.
  intros Hl Hm. set (before := if desc then (fun p q => q <? p) else Z.ltb).
  assert (forall p q, before p q = true <-> ahead desc p q) as Hbefore.
  { intros p q. unfold before, ahead. destruct desc; apply Z.ltb_lt. }
  assert (strict_weak (fun a b : Z * Z => before a.1 b.1)) as Hsw.
  { split; intros *; rewrite <-?not_true_iff_false, ?Hbefore; unfold ahead; destruct desc; lia. }
  assert (Permutation (side_levels sb before) l) as Hp.
  { unfold side_levels. rewrite std_sort_perm. etrans; [apply Permutation_map, map_iter_perm|].
    rewrite <-(map_to_list_to_map (M := gmap Z) l) by by eapply sorted_nodup.
    fold (level_qty l). rewrite Hm, map_to_list_fmap. done. }
  apply (StronglySorted_unique_strong (not_after (fun a b : Z * Z => before a.1 b.1))); [| | |done].
  - intros [p q] [p' q'] H1 H2 Hn1 Hn2. rewrite Hp in H1. unfold not_after in *. simpl in *.
    rewrite <-not_true_iff_false, Hbefore in Hn1, Hn2.
    assert (p = p') as <- by (unfold ahead in *; destruct desc; lia). f_equal.
    apply (elem_of_list_to_map (M := gmap Z)) in H1, H2; [congruence|by eapply sorted_nodup..].
  - by apply std_sort_sorted.
  - eapply sorted_weaken; [|exact Hl]. intros x y Hxy. unfold not_after.
    rewrite <-not_true_iff_false, Hbefore. intros Hyx. by apply (ahead_irrefl desc x.1), (ahead_trans desc _ y.1).
Qed.

(** Books that show the same live orders. *)
Lemma same_side cap e s m ords v sym sd : consistent e m -> rep cap s ords -> same_orders m ords.*2 -> sd <> SideUnknown ->
  level_qty (if decide (sd = Buy) then OrderBook.bids (OrderBook.book_at e v sym) else OrderBook.asks (OrderBook.book_at e v sym)) =
  l_qty <$> levels (side_at s v sym sd).
Proof.
  intros Hc Hr Hs Hsd. apply map_eq. intros p. rewrite lookup_fmap.
  pose proof (co_shows _ _ Hc v sym sd p Hsd) as Hb. rewrite (same_orders_total _ _ _ Hs) in Hb.
  assert (book_qty (OrderBook.book_at e v sym) sd p =
    level_qty (if decide (sd = Buy) then OrderBook.bids (OrderBook.book_at e v sym) else OrderBook.asks (OrderBook.book_at e v sym)) !! p) as <-
    by by destruct sd.
  rewrite Hb. pose proof (sr_level _ _ _ _ (rp_side _ _ _ Hr v sym sd Hsd) p) as Hl.
  unfold quantity_at. rewrite <-at_place_resting. destruct (levels _ !! p) as [l|]; simpl in Hl |- *.
  - destruct Hl as (Hne & -> & _). simpl. unfold level_of.
    pose proof (sum_qty_pos _ (at_place_valid _ _ (rp_valid _ _ _ Hr)) Hne). rewrite decide_False by lia. done.
  - by rewrite Hl.
Qed.

Lemma same_snapshot `{UnorderedMap, StdSort} cap e s m ords v sym :
  consistent e m -> rep cap s ords -> same_orders m ords.*2 ->
  engine_snapshot e v sym = snapshot s v sym.
Proof.
  intros Hc Hr Hs. pose proof (same_side _ _ _ _ _ v sym Buy Hc Hr Hs) as Hbuy. pose proof (same_side _ _ _ _ _ v sym Sell Hc Hr Hs) as Hsell.
  destruct (book_at_sorted e v sym (co_engine _ _ Hc)) as [Hsb Hsa]. simpl in Hbuy, Hsell.
  assert (engine_snapshot e v sym = mkSnapshot (OrderBook.bids (OrderBook.book_at e v sym)) (OrderBook.asks (OrderBook.book_at e v sym))) as ->.
  { unfold engine_snapshot, OrderBook.find_book, OrderBook.book_at. by destruct (_ !! sym). }
  rewrite <-(side_levels_unique true _ (side_at s v sym Buy) Hsb) by by apply Hbuy.
  rewrite <-(side_levels_unique false _ (side_at s v sym Sell) Hsa) by by apply Hsell.
  unfold snapshot, side_at, book_at, find_book. destruct (_ !! sym) as [b|] eqn:E; [done|]. simpl.
  assert (forall before, side_levels (mkSide ∅ 0 false true) before = [] /\ side_levels (mkSide ∅ 0 false false) before = []) as Hempty.
  { intros before. split; apply Permutation_nil; symmetry; unfold side_levels; rewrite std_sort_perm; simpl;
      rewrite (Permutation_map _ (map_iter_perm _ _)), map_to_list_empty; done. }
  unfold side_book. simpl. destruct (Hempty (fun p q => q <? p)) as [-> _], (Hempty Z.ltb) as [_ ->]. done.
Qed.

Lemma same_quote desc (l : list Levels.Level) sb : levels_sorted desc l -> level_qty l = l_qty <$> levels sb ->
  descending sb = desc -> best_over (has_level sb) sb ->
  match l with (p, q) :: _ => (true, p, u32 q) | [] => (false, 0, 0) end =
  if has_best sb then (true, best_price sb, match levels sb !! best_price sb with Some l => u32 (l_qty l) | None => 0 end)
  else (false, 0, 0).
Proof.
  intros Hl Hm Hd Hb. unfold best_over in Hb.
  assert (forall p, has_level sb p <-> is_Some (level_qty l !! p)) as Hp by (intros p; rewrite Hm, lookup_fmap, fmap_is_Some; done).
  destruct l as [|[p q] l].
  - destruct (has_best sb); [|done]. destruct Hb as [Hb _]. apply Hp in Hb as [x Hx]. done.
  - assert (level_qty ((p, q) :: l) !! p = Some q) as Hpq by apply lookup_insert_eq.
    destruct (has_best sb); [|by destruct (Hb p); apply Hp; eexists].
    assert (best_price sb = p) as ->.
    { apply (is_best_unique (descending sb) (has_level sb)); [done|]. split; [apply Hp; by eexists|].
      intros p' [x Hx]%Hp. apply elem_of_list_to_map_2, elem_of_cons in Hx as [[= -> ->]|Hx]; [by destruct (descending sb)|].
      apply StronglySorted_inv in Hl as [_ Hf]. rewrite Forall_forall in Hf. specialize (Hf _ Hx). simpl in Hf.
      unfold ahead in Hf. rewrite Hd. destruct desc; lia. }
    rewrite Hm, lookup_fmap in Hpq. destruct (levels sb !! p) as [lv|]; [|done]. by injection Hpq as ->.
Qed.

Lemma same_top cap e s m ords v sym : consistent e m -> rep cap s ords -> same_orders m ords.*2 ->
  OrderBook.top_of_book e v sym = top_of_book s v sym.
Proof.
  intros Hc Hr Hs. pose proof (same_side _ _ _ _ _ v sym Buy Hc Hr Hs) as Hbuy. pose proof (same_side _ _ _ _ _ v sym Sell Hc Hr Hs) as Hsell.
  destruct (book_at_sorted e v sym (co_engine _ _ Hc)) as [Hsb Hsa]. simpl in Hbuy, Hsell.
  assert (OrderBook.top_of_book e v sym = top_of (OrderBook.book_at e v sym)) as ->.
  { unfold OrderBook.top_of_book, OrderBook.find_book, OrderBook.book_at. by destruct (_ !! sym). }
  assert (top_of_book s v sym = snapshot_top (book_at s v sym)) as ->.
  { unfold top_of_book, book_at. by destruct (find_book s v sym). }
  pose proof (rp_side _ _ _ Hr v sym Buy) as Hb. pose proof (rp_side _ _ _ Hr v sym Sell) as Ha.
  unfold top_of, snapshot_top.
  rewrite (same_quote true _ (bids (book_at s v sym)) Hsb); [|by apply Hbuy|apply Hb; done..].
  rewrite (same_quote false _ (asks (book_at s v sym)) Hsa); [|by apply Hsell|apply Ha; done..]. done.
Qed.

(** ** Streams *)

Lemma spec_orders_size m ev ahead : (size (spec_orders m ev ahead) <= S (size m))%nat.
Proof.
  assert (forall (m : gmap Z OrderRef) k o, (size (<[k := o]> m) <= S (size m))%nat) as Hi.
  { intros m' k o. destruct (m' !! k) eqn:E; [rewrite map_size_insert_Some by (by eexists); lia|rewrite map_size_insert_None by done; lia]. }
  assert (forall (m : gmap Z OrderRef) k, (size (delete k m) <= size m)%nat) as Hd.
  { intros m' k. destruct (m' !! k) eqn:E; [rewrite map_size_delete_Some by (by eexists); lia|rewrite map_size_delete_None by done; lia]. }
  unfold spec_orders. destruct (type ev); try apply Hi; try lia;
    try (destruct (m !! event_key ev); [|lia]; cbn zeta; destruct (_ || _); [pose proof (Hd m (event_key ev)); lia|apply Hi]).
  pose proof (Hi (delete (event_old_key ev) m) (event_key ev) (order_of ev 0)). pose proof (Hd m (event_old_key ev)). lia.
Qed.

Lemma spec_on_event_state cap os ev : (spec_on_event cap os ev).1 = (spec_type cap os (as_u64 (symbol ev)) ev).2.
Proof. unfold spec_on_event. by destruct (spec_type _ _ _ _) as [[? ?] ?]. Qed.

Lemma engines_run `{UnorderedMap} cap evs : forall e s m ords, Z.of_nat cap < 2 ^ 32 ->
  consistent e m -> rep cap s ords -> same_orders m ords.*2 -> Forall event_qty_ok evs ->
  (length ords + length evs <= cap)%nat -> (spec_book_run e m evs).2 = true ->
  exists m' ords', consistent (book_run e evs) m' /\ rep cap (intrusive_run s evs) ords' /\ same_orders m' ords'.*2.
Proof.
  induction evs as [|ev evs IH]; intros e s m ords Hcap Hc Hr Hs Hq Hlen Hrun; [by exists m, ords|].
  apply Forall_cons in Hq as [Hev Hq]. cbn [length] in Hlen. cbn [spec_book_run] in Hrun.
  pose proof (book_on_event_consistent e m ev Hc) as He. unfold book_run, intrusive_run. cbn [fold_left].
  destruct (book_on_event e ev) as [e' r] eqn:Ee.
  destruct (spec_book_run e' _ evs) as [m1 ok] eqn:Erun. simpl in Hrun.
  apply andb_prop in Hrun as [[Hd%bool_decide_eq_true Hsat%negb_true_iff]%andb_prop ->].
  pose proof (intrusive_on_event_rep cap s ords ev Hcap Hr Hev) as Hi.
  destruct (intrusive_on_event s ev) as [s' r'] eqn:Es.
  pose proof (spec_on_event_state cap ords.*2 ev) as Hst.
  destruct (spec_on_event cap ords.*2 ev) as [os' r2]. destruct Hi as (_ & ords' & <- & Hr'). simpl in Hst.
  assert (length ords.*2 < cap)%nat as Hlt by (rewrite length_fmap; lia).
  pose proof (same_orders_event cap m ords.*2 ev (OrderBook.queue_ahead_before_add r) Hs Hlt Hd) as Hs'. rewrite <-Hst in Hs'.
  apply (IH e' s' (spec_orders m ev (OrderBook.queue_ahead_before_add r)) ords'); try done; [by apply He| |by rewrite Erun].
  pose proof (same_orders_length _ _ Hs') as H1. pose proof (same_orders_length _ _ Hs) as H2.
  rewrite length_fmap in H1, H2. pose proof (spec_orders_size m ev (OrderBook.queue_ahead_before_add r)). lia.
Qed.

(** C8. The slab book and the aggregating book agree: on every stream that
    follows the protocol and fits both tables, every book has the same
    snapshot and the same best quotes in both. *)
Theorem engines_agree `{UnorderedMap, StdSort} k cap evs v sym : 0 <= k <= 31 -> Z.of_nat cap < 2 ^ 32 ->
  (length evs <= cap)%nat -> Forall event_qty_ok evs ->
  let e0 := engine_init (Z.to_nat (2 ^ k)) in
  (spec_book_run e0 ∅ evs).2 = true ->
  engine_view (book_run e0 evs) v sym = slab_view (intrusive_run (intrusive_init cap) evs) v sym.
Proof.
  intros Hk Hcap Hlen Hq e0 Hrun.
  destruct (engines_run cap evs e0 (intrusive_init cap) ∅ [] Hcap (engine_init_consistent k Hk) (intrusive_init_rep cap))
    as (m & ords & Hc & Hr & Hs); [split; [by rewrite map_to_list_empty|done]|done|simpl; lia|done|].
  unfold engine_view, slab_view. f_equal; [exact (same_snapshot _ _ _ _ _ v sym Hc Hr Hs)|exact (same_top _ _ _ _ _ v sym Hc Hr Hs)].
Qed.

Lemma engines_agree_witness :
  let evs := sample_orders in
  engine_view (book_run (engine_init (Z.to_nat (2 ^ 3))) evs) Nasdaq (as_u64 aapl) =
    slab_view (intrusive_run (intrusive_init 8) evs) Nasdaq (as_u64 aapl).
Proof.
  apply (engines_agree 3 8 sample_orders); [lia|reflexivity|simpl; lia| |vm_compute; reflexivity].
  apply (bool_decide_unpack _). vm_compute. exact I.
Defined.
