(* ===== verification/BookBench.v ===== *)
(** * The book benchmark (tools/book_engine_bench.cpp)

    The program times three order books on one tape: a plain one on [std::map]s,
    the aggregating engine and the slab book. Here: the plain book, the tape,
    and that all three show the same levels on every stream that follows the
    protocol ([bench_books_agree]).

    The books of the plain book are an array of three venues: an event of
    another venue indexes past it ([naive_three_venues]). Timing and the report
    are not modelled. *)

From S2P Require Import Prelude Wire Types OrderTable Levels OrderBook BookTotals Intrusive IntrusiveQueues BookEngines.

#[local] Open Scope list_scope.
#[local] Open Scope Z_scope.

(** ** The plain book *)

Record NaiveRef := mkNaiveRef { nr_venue : Venue; nr_symbol : Z; nr_side : Side; nr_price : Z; nr_qty : Z }.
Record NaiveBook := mkNaiveBook { nb_bids : gmap Z Z; nb_asks : gmap Z Z }.
Record NaiveMapOrderBook := mkNaive { nv_books : PerVenue (gmap Z NaiveBook); nv_orders : gmap Z NaiveRef }.

Definition naive_empty : NaiveBook := mkNaiveBook ∅ ∅.
Definition naive_init : NaiveMapOrderBook := mkNaive (pv_const ∅) ∅.

(** [books_[venue][symbol]], which is made when it is missing. *)
Definition naive_book (st : NaiveMapOrderBook) (v : Venue) (sym : Z) : NaiveBook := default naive_empty ((nv_books st).[v] !! sym).
Definition store_naive (st : NaiveMapOrderBook) (v : Venue) (sym : Z) (b : NaiveBook) : NaiveMapOrderBook :=
  mkNaive ((nv_books st).[v := <[sym := b]> ((nv_books st).[v])]) (nv_orders st).
Definition set_naive_orders (os : gmap Z NaiveRef) (st : NaiveMapOrderBook) : NaiveMapOrderBook := mkNaive (nv_books st) os.

(** [levels[price] += qty] *)
Definition grow (levels : gmap Z Z) (price qty : Z) : gmap Z Z := <[price := default 0 (levels !! price) +64 qty]> levels.

(** A level loses [dec] and goes when nothing is left. *)
Definition shrink (levels : gmap Z Z) (price dec : Z) : gmap Z Z :=
  match levels !! price with
  | None => levels
  | Some q => let q := if dec <? q then q -64 dec else 0 in if q =? 0 then delete price levels else <[price := q]> levels
  end.

Definition naive_add (st : NaiveMapOrderBook) (ev : BookEvent) : NaiveMapOrderBook :=
  let v := venue ev in let sym := as_u64 (symbol ev) in
  let b := naive_book st v sym in
  let b := match side ev with
           | Buy => mkNaiveBook (grow (nb_bids b) (price ev) (qty ev)) (nb_asks b)
           | Sell => mkNaiveBook (nb_bids b) (grow (nb_asks b) (price ev) (qty ev))
           | SideUnknown => b
           end in
  let st := store_naive st v sym b in
  set_naive_orders (<[order_key v (order_id ev) := mkNaiveRef v sym (side ev) (price ev) (qty ev)]> (nv_orders st)) st.

Definition naive_reduce (st : NaiveMapOrderBook) (key qty : Z) (delete_all : bool) : NaiveMapOrderBook :=
  match nv_orders st !! key with
  | None => st
  | Some ref =>
      let b := naive_book st (nr_venue ref) (nr_symbol ref) in
      let dec := if delete_all || (qty =? 0) || (nr_qty ref <? qty) then nr_qty ref else qty in
      let b := match nr_side ref with
               | Buy => mkNaiveBook (shrink (nb_bids b) (nr_price ref) dec) (nb_asks b)
               | Sell => mkNaiveBook (nb_bids b) (shrink (nb_asks b) (nr_price ref) dec)
               | SideUnknown => b
               end in
      let st := store_naive st (nr_venue ref) (nr_symbol ref) b in
      set_naive_orders (if delete_all || (nr_qty ref <=? dec) then delete key (nv_orders st)
        else <[key := mkNaiveRef (nr_venue ref) (nr_symbol ref) (nr_side ref) (nr_price ref) (u32 (nr_qty ref - dec))]> (nv_orders st)) st
  end.

(** [None]: the index is past the array of books. *)
Definition naive_on_event (st : NaiveMapOrderBook) (ev : BookEvent) : option NaiveMapOrderBook :=
  if 3 <=? venue_u8 (venue ev) then None else
  let key := order_key (venue ev) (order_id ev) in
  let sym := as_u64 (symbol ev) in
  let st := store_naive st (venue ev) sym (naive_book st (venue ev) sym) in
  match type ev with
  | Add | AddMpid => Some (naive_add st ev)
  | Execute | ExecutePrice | Cancel | Delete => Some (naive_reduce st key (qty ev) (bool_decide (type ev = Delete)))
  | Replace =>
      let old_key := order_key (venue ev) (reference_order_id ev) in
      let '(sd, st) := match nv_orders st !! old_key with
                       | Some ref => (if decide (side ev = SideUnknown) then nr_side ref else side ev, naive_reduce st old_key 0 true)
                       | None => (side ev, st)
                       end in
      Some (naive_add st (ev |> set_type Add |> set_side sd))
  | _ => Some st
  end.

Fixpoint naive_run (st : NaiveMapOrderBook) (evs : list BookEvent) : option NaiveMapOrderBook :=
  match evs with
  | [] => Some st
  | ev :: evs => st ← naive_on_event st ev; naive_run st evs
  end.

(** ** The tape *)

Definition symbol_for (idx : Z) : SymbolKey := chars "SYMB000" ++ [ch "1" + idx mod 8].

(** The five events of a cycle; [seq] is the number of the first. *)
Definition cycle_events (cycle seq : Z) : list BookEvent :=
  let sym := Z.land cycle 7 in
  let base := 1000000 + cycle * 10 in
  let px := 10000 + Z.land (cycle + sym) 63 in
  let numbered n ev := ev |> set_sequence n |> set_exchange_ts n in
  let add_bid := event_default |> set_venue (default Nasdaq (venue_of_u8 (cycle mod 3))) |> set_type Add |> numbered seq
                   |> set_symbol (symbol_for sym) |> set_side Buy |> set_price px |> set_qty 100 |> set_order_id (base + 1) in
  let add_ask := add_bid |> numbered (seq + 1) |> set_side Sell |> set_price (px + 20) |> set_qty 120 |> set_order_id (base + 2) in
  let exec_bid := add_bid |> set_type Execute |> numbered (seq + 2) |> set_side SideUnknown |> set_price 0 |> set_qty 40 in
  let cancel_ask := add_ask |> set_type Cancel |> numbered (seq + 3) |> set_side SideUnknown |> set_price 0 |> set_qty 30 in
  let replace_bid := add_bid |> set_type Replace |> numbered (seq + 4) |> set_side Buy |> set_price (px + 1) |> set_qty 50
                       |> set_order_id (base + 3) |> set_reference_order_id (base + 1) in
  [add_bid; add_ask; exec_bid; cancel_ask; replace_bid].

Definition make_events (cycles : nat) : list BookEvent :=
  concat (map (fun c => cycle_events (Z.of_nat c) (1 + 5 * Z.of_nat c)) (seq 0 cycles)).

(** ** The levels it shows *)

Definition naive_qty (st : NaiveMapOrderBook) (v : Venue) (sym : Z) (s : Side) (p : Z) : option Z :=
  match s with
  | Buy => nb_bids (naive_book st v sym) !! p
  | Sell => nb_asks (naive_book st v sym) !! p
  | SideUnknown => None
  end.

Definition naive_ref (o : OrderRef) : NaiveRef := mkNaiveRef (o_venue o) (o_symbol o) (o_side o) (o_price o) (o_qty o).

(** The plain book holds the live orders [m] and shows their totals. *)
Record naive_ok (st : NaiveMapOrderBook) (m : gmap Z OrderRef) : Prop := {
  no_orders : nv_orders st = naive_ref <$> m;
  no_shows v sym s p : s <> SideUnknown -> naive_qty st v sym s p = level_of (total m (mkPlace v sym s p));
}.

Lemma naive_book_store st v sym b w k : naive_book (store_naive st v sym b) w k = if decide (w = v /\ k = sym) then b else naive_book st w k.
Proof.
  unfold naive_book, store_naive. cbn [nv_books]. rewrite pv_get_set_dec. repeat case_decide; subst; try tauto.
  - destruct H0 as [_ ->]. by rewrite lookup_insert_eq.
  - by rewrite lookup_insert_ne by (intros ->; tauto).
  - destruct H0 as [-> _]. done.
Qed.

Lemma touch_ok st m v sym : naive_ok st m -> naive_ok (store_naive st v sym (naive_book st v sym)) m.
Proof.
  intros [Ho Hs]. split; [done|]. intros w k s p Hp. rewrite <-Hs by done. unfold naive_qty. rewrite naive_book_store.
  case_decide as E; [|done]. by destruct E as [-> ->].
Qed.

Lemma naive_init_ok : naive_ok naive_init ∅.
Proof.
  split; [by rewrite fmap_empty|]. intros v sym s p Hs. rewrite total_empty. unfold naive_qty, naive_book. cbn [nv_books naive_init].
  rewrite pv_get_const, lookup_empty. by destruct s.
Qed.

(** Levels of one side against the totals at its prices. *)
Definition side_levels_ok (l : gmap Z Z) (t : Z -> Z) : Prop := forall p, l !! p = level_of (t p).

Lemma grow_ok l t price q : side_levels_ok l t -> 0 < q -> 0 <= t price -> t price + q < 2 ^ 64 ->
  side_levels_ok (grow l price q) (fun p => t p + if decide (p = price) then q else 0).
Proof.
  intros Hl Hq H0 H1 p. unfold grow. case_decide as E.
  - subst p. rewrite lookup_insert_eq, Hl. unfold level_of. rewrite (decide_False (P := t price + q = 0)) by lia.
    assert (default 0 (if decide (t price = 0) then None else Some (t price)) = t price) as -> by (case_decide; cbn; lia).
    by rewrite u64_small by lia.
  - by rewrite lookup_insert_ne, Z.add_0_r by done.
Qed.

Lemma shrink_ok l t price d : side_levels_ok l t -> 0 < d <= t price -> t price < 2 ^ 64 ->
  side_levels_ok (shrink l price d) (fun p => t p + if decide (p = price) then - d else 0).
Proof.
  intros Hl Hd H1 p. unfold shrink. pose proof (Hl price) as E. unfold level_of in E. rewrite decide_False in E by lia. rewrite E. cbv zeta.
  destruct (Z.ltb_spec d (t price)).
  - rewrite u64_small by lia. replace (t price - d =? 0) with false by lia. case_decide as Ep.
    + subst p. rewrite lookup_insert_eq. unfold level_of. rewrite decide_False by lia. done.
    + by rewrite lookup_insert_ne, Z.add_0_r by done.
  - cbn [Z.eqb]. case_decide as Ep.
    + subst p. rewrite lookup_delete_eq. unfold level_of. by rewrite decide_True by lia.
    + by rewrite lookup_delete_ne, Z.add_0_r by done.
Qed.

Definition nb_side (b : NaiveBook) (s : Side) : gmap Z Z := match s with Buy => nb_bids b | Sell => nb_asks b | SideUnknown => ∅ end.
Definition nb_put (b : NaiveBook) (s : Side) (l : gmap Z Z) : NaiveBook :=
  match s with Buy => mkNaiveBook l (nb_asks b) | Sell => mkNaiveBook (nb_bids b) l | SideUnknown => b end.

Lemma naive_side_ok st m v sym s : naive_ok st m -> s <> SideUnknown -> side_levels_ok (nb_side (naive_book st v sym) s) (fun p => total m (mkPlace v sym s p)).
Proof. intros H Hs p. rewrite <-(no_shows _ _ H) by done. by destruct s. Qed.

(** One side changed at one price, as the totals did. *)
Lemma side_changed_ok st m m' v sym s p d l os : naive_ok st m -> s <> SideUnknown -> shifted m m' (mkPlace v sym s p) d ->
  side_levels_ok l (fun p' => total m (mkPlace v sym s p') + if decide (p' = p) then d else 0) -> os = naive_ref <$> m' ->
  naive_ok (set_naive_orders os (store_naive st v sym (nb_put (naive_book st v sym) s l))) m'.
Proof.
  intros Hok Hs Hsh Hl ->. split; [done|]. intros w k s' p' Hs'. rewrite (Hsh (mkPlace w k s' p')).
  change (naive_qty _ w k s' p') with (naive_qty (store_naive st v sym (nb_put (naive_book st v sym) s l)) w k s' p').
  destruct (decide ((w = v /\ k = sym) /\ s' = s)) as [[[-> ->] ->]|Hne].
  - unfold naive_qty. rewrite naive_book_store, decide_True by done. specialize (Hl p').
    assert (level_of (total m (mkPlace v sym s p') + (if decide (mkPlace v sym s p' = mkPlace v sym s p) then d else 0)) = l !! p') as ->.
    { rewrite Hl. do 2 f_equal. repeat case_decide; congruence || done. }
    by destruct s.
  - rewrite decide_False by (intros [= -> -> -> ->]; tauto). rewrite Z.add_0_r, <-(no_shows _ _ Hok) by done.
    unfold naive_qty. rewrite naive_book_store. case_decide as E; [|done]. destruct E as [-> ->].
    assert (s' <> s) by tauto. by destruct s, s'.
Qed.

Lemma naive_add_ok st m ev ahead : naive_ok st m -> m !! event_key ev = None -> 0 < qty ev -> side ev <> SideUnknown ->
  (forall pl, 0 <= total m pl /\ total m pl + qty ev < 2 ^ 64) -> naive_ok (naive_add st ev) (<[event_key ev := order_of ev ahead]> m).
Proof.
  intros Hok Hk Hq Hs Ht. unfold naive_add. fold (event_key ev). set (v := venue ev) in *. set (sym := as_u64 (symbol ev)) in *.
  assert (shifted m (<[event_key ev := order_of ev ahead]> m) (mkPlace v sym (side ev) (price ev)) (qty ev)) as Hsf.
  { intros pl. rewrite total_insert by done. unfold contrib, order_place, order_of. cbn. fold v sym. rewrite Z.add_comm. f_equal. repeat case_decide; congruence || done. }
  pose proof (Ht (mkPlace v sym (side ev) (price ev))) as [H0 H1].
  pose proof (grow_ok _ _ (price ev) (qty ev) (naive_side_ok st m v sym (side ev) Hok Hs) Hq H0 H1) as Hg.
  pose proof (side_changed_ok st m _ v sym (side ev) (price ev) (qty ev) _ (<[event_key ev := mkNaiveRef v sym (side ev) (price ev) (qty ev)]> (nv_orders st))
    Hok Hs Hsf Hg) as H. unfold nb_put, nb_side in H. destruct (side ev) eqn:Es; try done; (apply H; rewrite fmap_insert, (no_orders _ _ Hok); unfold naive_ref, order_of; cbn [o_venue o_symbol o_side o_price o_qty]; by rewrite Es).
Qed.

(** Reducing a live order; what the orders become is in the statement. *)
Lemma naive_reduce_ok st m key q all o : naive_ok st m -> map_Forall (fun _ o => order_valid o) m -> m !! key = Some o -> 0 <= q ->
  total m (order_place o) < 2 ^ 64 ->
  let dec := if all || (q =? 0) || (o_qty o <? q) then o_qty o else q in
  naive_ok (naive_reduce st key q all)
    (if all || (o_qty o <=? dec) then delete key m
     else <[key := mkOrder (o_venue o) (o_symbol o) (o_side o) (o_price o) (o_qty o - dec) (o_queue_ahead o)]> m).
Proof.
  intros Hok Hv Hk Hq Ht dec. unfold naive_reduce. rewrite (no_orders _ _ Hok), lookup_fmap, Hk. cbn [fmap option_fmap option_map naive_ref nr_venue nr_symbol nr_side nr_price nr_qty].
  fold dec. destruct (Hv _ _ Hk) as [Hqo Hso]. pose proof (contrib_le_total m key o (order_place o) Hv Hk) as Hc. unfold contrib in Hc. rewrite decide_True in Hc by done.
  assert (0 < dec <= o_qty o) as Hdec.
  { unfold dec. destruct all; cbn [orb]; [lia|]. destruct (Z.eqb_spec q 0), (Z.ltb_spec (o_qty o) q); cbn [orb]; lia. }
  change (nv_orders (store_naive st _ _ _)) with (nv_orders st). rewrite !(no_orders _ _ Hok). match goal with |- naive_ok _ ?x => set (m' := x) end.
  assert (shifted m m' (order_place o) (- dec)) as Hsf.
  { intros pl. unfold m'. destruct (all || (o_qty o <=? dec)) eqn:E.
    - assert (dec = o_qty o) as ->.
      { apply orb_true_iff in E as [->|?%Z.leb_le]; [done|lia]. }
      rewrite (total_delete m key o) by done. unfold contrib. repeat case_decide; congruence || lia.
    - rewrite (total_replace m key o) by done. unfold contrib. set (o' := mkOrder _ _ _ _ _ _).
      assert (order_place o' = order_place o) as -> by done. cbn [o' o_qty]. repeat case_decide; congruence || lia. }
  pose proof (shrink_ok _ _ (o_price o) dec (naive_side_ok st m (o_venue o) (o_symbol o) (o_side o) Hok Hso)) as Hg.
  unfold order_place in Ht, Hc. specialize (Hg ltac:(lia) ltac:(lia)).
  pose proof (side_changed_ok st m m' (o_venue o) (o_symbol o) (o_side o) (o_price o) (- dec) _
    (if all || (o_qty o <=? dec) then delete key (naive_ref <$> m)
     else <[key := mkNaiveRef (o_venue o) (o_symbol o) (o_side o) (o_price o) (u32 (o_qty o - dec))]> (naive_ref <$> m)) Hok Hso Hsf Hg) as H.
  unfold nb_put, nb_side in H. destruct (o_side o) eqn:Es; try done;
    (apply H; unfold m'; destruct (all || (o_qty o <=? dec)); [symmetry; apply fmap_delete|rewrite fmap_insert; unfold naive_ref at 2; cbn [o_venue o_symbol o_side o_price o_qty]; by rewrite u32_small by lia]).
Qed.

(** ** Streams that follow the protocol *)

Definition venue_booked (ev : BookEvent) : Prop := venue_u8 (venue ev) < 3.

Lemma naive_event_ok st m ev ahead : naive_ok st m -> map_Forall (fun _ o => order_valid o) m ->
  (forall pl, 0 <= total m pl < 2 ^ 63) -> disciplined m ev -> venue_booked ev ->
  exists st', naive_on_event st ev = Some st' /\ naive_ok st' (spec_orders m ev ahead).
Proof.
  intros Hok Hv Ht Hd Hven. unfold naive_on_event. unfold venue_booked in Hven. replace (3 <=? venue_u8 (venue ev)) with false by lia.
  pose proof (touch_ok st m (venue ev) (as_u64 (symbol ev)) Hok) as Hok0. set (st0 := store_naive st _ _ _) in *. clearbody st0. clear Hok.
  unfold disciplined in Hd. unfold spec_orders. fold (event_key ev). fold (event_old_key ev).
  assert (new_order_ok m ev -> naive_ok (naive_add st0 ev) (<[event_key ev := order_of ev ahead]> m)) as Hadd.
  { intros (_ & Hk & Hq & Hs). apply naive_add_ok; try done; [lia|]. intros pl. specialize (Ht pl). lia. }
  assert (0 <= qty ev -> if_live m (event_key ev) (fun o => same_book o ev /\ (type ev = Delete -> qty ev = 0 \/ o_qty o <= qty ev)) ->
    naive_ok (naive_reduce st0 (event_key ev) (qty ev) (bool_decide (type ev = Delete)))
      (match m !! event_key ev with
       | None => m
       | Some o => let dec := reduce_by ev o in
           if (o_qty o <=? dec) || bool_decide (type ev = Delete) then delete (event_key ev) m
           else <[event_key ev := mkOrder (o_venue o) (o_symbol o) (o_side o) (o_price o) (o_qty o - dec) (o_queue_ahead o)]> m
       end)) as Hred.
  { intros Hq Hl. unfold if_live in Hl. destruct (m !! event_key ev) as [o|] eqn:Ek.
    - destruct Hl as [_ Hdel]. destruct (reduce_by_same ev o Hdel) as [Hdec _]. cbn zeta. rewrite <-Hdec, orb_comm.
      pose proof (Ht (order_place o)). by apply (naive_reduce_ok st0 m); [..|lia].
    - unfold naive_reduce. by rewrite (no_orders _ _ Hok0), lookup_fmap, Ek. }
  destruct (type ev) eqn:Ety; try (eexists; split; [reflexivity|]; first [exact Hok0|by apply Hadd|by destruct Hd as [Hq Hl]; apply Hred]).
  destruct Hd as [Hn Hl]. pose proof Hn as (_ & Hk & Hq & Hs).
  assert (naive_ok (match nv_orders st0 !! event_old_key ev with Some ref => naive_reduce st0 (event_old_key ev) 0 true | None => st0 end) (delete (event_old_key ev) m)) as Hok1.
  { rewrite (no_orders _ _ Hok0), lookup_fmap. destruct (m !! event_old_key ev) as [o|] eqn:Eo; cbn [fmap option_fmap option_map].
    - pose proof (Ht (order_place o)). exact (naive_reduce_ok st0 m (event_old_key ev) 0 true o Hok0 Hv Eo ltac:(lia) ltac:(lia)).
    - by rewrite delete_id. }
  assert (forall st1, naive_add st1 (ev |> set_type Add |> set_side (side ev)) = naive_add st1 ev) as Hset by (intros st1; by destruct ev).
  exists (naive_add (match nv_orders st0 !! event_old_key ev with Some ref => naive_reduce st0 (event_old_key ev) 0 true | None => st0 end) ev). split.
  - destruct (nv_orders st0 !! event_old_key ev); cbv iota beta; rewrite ?decide_False by done; by rewrite Hset.
  - apply naive_add_ok; [exact Hok1|done|lia|done|]. intros pl. pose proof (Ht pl). destruct (m !! event_old_key ev) as [o|] eqn:Eo; [|rewrite delete_id by done; lia].
    rewrite (total_delete m _ o pl Eo). pose proof (contrib_range o pl (Hv _ _ Eo)). pose proof (contrib_le_total m _ o pl Hv Eo). lia.
Qed.

Lemma naive_run_ok evs : forall e st m, consistent e m -> naive_ok st m -> Forall venue_booked evs -> (spec_book_run e m evs).2 = true ->
  exists st', naive_run st evs = Some st' /\ naive_ok st' (spec_book_run e m evs).1.
Proof.
  induction evs as [|ev evs IH]; intros e st m Hc Hok Hven Hrun; [by exists st|]. apply Forall_cons in Hven as [Hv Hven]. cbn [spec_book_run naive_run] in *.
  pose proof (book_on_event_consistent e m ev Hc) as He. destruct (book_on_event e ev) as [e' r]. set (ahead := OrderBook.queue_ahead_before_add r) in *.
  specialize (IH e'). destruct (spec_book_run e' (spec_orders m ev ahead) evs) as [m1 ok] eqn:Er. cbn [fst snd] in *.
  apply andb_prop in Hrun as [[Hd%bool_decide_eq_true Hsat%negb_true_iff]%andb_prop ->].
  destruct (naive_event_ok st m ev ahead Hok (tg_valid _ _ (co_good _ _ Hc)) (fun pl => total_small _ m pl (co_good _ _ Hc)) Hd Hv) as (st1 & -> & Hok1).
  destruct (IH st1 (spec_orders m ev ahead) (He Hd Hsat) Hok1 Hven) as (st' & Hst & Hok'); [by rewrite Er|]. exists st'. split; [exact Hst|]. by rewrite Er in Hok'.
Qed.

(** On every stream of the three venues that follows the protocol and fits the
    tables, the plain book runs to its end, holds exactly the live orders, and
    the engine's snapshot and the slab book's are the levels of its maps, which
    determine both: bids from the highest price, asks from the lowest. *)
Theorem bench_books_agree `{UnorderedMap, StdSort} k cap evs : 0 <= k <= 31 -> Z.of_nat cap < 2 ^ 32 -> (length evs <= cap)%nat ->
  Forall event_qty_ok evs -> Forall venue_booked evs ->
  let e0 := engine_init (Z.to_nat (2 ^ k)) in let e := book_run e0 evs in
  (spec_book_run e0 ∅ evs).2 = true ->
  exists st, naive_run naive_init evs = Some st /\ nv_orders st = naive_ref <$> (spec_book_run e0 ∅ evs).1 /\
  forall v sym, let shown := engine_snapshot e v sym in
    snapshot (intrusive_run (intrusive_init cap) evs) v sym = shown /\
    nb_bids (naive_book st v sym) = level_qty (snap_bids shown) /\ levels_sorted true (snap_bids shown) /\
    nb_asks (naive_book st v sym) = level_qty (snap_asks shown) /\ levels_sorted false (snap_asks shown).
Proof.
  intros Hk Hcap Hlen Hq Hven e0 e Hrun. pose proof (engine_init_consistent k Hk) as Hc0.
  destruct (naive_run_ok evs e0 naive_init ∅ Hc0 naive_init_ok Hven Hrun) as (st & Hst & Hok).
  destruct (engines_run cap evs e0 (intrusive_init cap) ∅ [] Hcap Hc0 (intrusive_init_rep cap))
    as (m' & ords & Hc' & Hr & Hs); [split; [by rewrite map_to_list_empty|done]|done|simpl; lia|done|].
  exists st. split; [exact Hst|]. split; [apply (no_orders _ _ Hok)|]. intros v sym shown.
  pose proof (book_run_consistent evs e0 ∅ Hc0) as Hc. destruct (spec_book_run e0 ∅ evs) as [m ok]. cbn [fst snd] in *. specialize (Hc Hrun). fold e in Hc.
  destruct (book_at_sorted e v sym (co_engine _ _ Hc)) as [Hsb Hsa].
  split; [symmetry; exact (same_snapshot _ _ _ _ _ v sym Hc' Hr Hs)|].
  assert (shown = mkSnapshot (OrderBook.bids (OrderBook.book_at e v sym)) (OrderBook.asks (OrderBook.book_at e v sym))) as ->.
  { unfold shown, engine_snapshot, OrderBook.find_book, OrderBook.book_at. by destruct (_ !! sym). }
  cbn [snap_bids snap_asks]. split_and!; [|done| |done].
  - apply map_eq. intros p. pose proof (no_shows _ _ Hok v sym Buy p ltac:(done)) as H1. pose proof (co_shows _ _ Hc v sym Buy p ltac:(done)) as H2.
    cbn [naive_qty book_qty] in H1, H2. by rewrite H1, H2.
  - apply map_eq. intros p. pose proof (no_shows _ _ Hok v sym Sell p ltac:(done)) as H1. pose proof (co_shows _ _ Hc v sym Sell p ltac:(done)) as H2.
    cbn [naive_qty book_qty] in H1, H2. by rewrite H1, H2.
Qed.

(** ** At concrete inputs *)

#[export] Instance venue_booked_dec ev : Decision (venue_booked ev).
Proof. unfold venue_booked. apply _. Defined.

(** Twelve cycles of the tape. *)
Definition w_tape : list BookEvent := make_events 12.

Lemma bench_books_agree_witness `{UnorderedMap, StdSort} : exists st, naive_run naive_init w_tape = Some st /\
  forall v sym, nb_bids (naive_book st v sym) = level_qty (snap_bids (engine_snapshot (book_run (engine_init (Z.to_nat (2 ^ 7))) w_tape) v sym)).
Proof.
  destruct (bench_books_agree 7 60 w_tape) as (st & Hst & _ & Hb); [lia|reflexivity|vm_compute; lia| | |vm_compute; reflexivity|].
  - apply (bool_decide_unpack _). vm_compute. exact I.
  - apply (bool_decide_unpack _). vm_compute. exact I.
  - exists st. split; [exact Hst|]. intros v sym. by destruct (Hb v sym) as (_ & -> & _).
Defined.

(** A cycle leaves an ask of 90 and, one tick up, a bid of 50. *)
Example tape_leaves : match naive_run naive_init (make_events 1) with
  | Some st => let b := naive_book st Nasdaq (as_u64 (symbol_for 0)) in (map_to_list (nb_bids b), map_to_list (nb_asks b)) = ([(10001, 50)], [(10020, 90)])
  | None => False
  end.
Proof. vm_compute. reflexivity. Qed.

(** The array of books has no place for the other venues. *)
Example naive_three_venues : naive_on_event naive_init (event_default |> set_venue Cme) = None.
Proof. reflexivity. Qed.
