(* ===== verification/HotPath.v ===== *)
(** * The hot-path benchmarks (tools/feed_hot_path_bench.cpp, tools/bench_sweep.cpp,
    tools/latency_stage_bench.cpp, tools/decoder_simd_bench.cpp)

    The programs time stages of the feed handler on streams they make up. What
    is stated here is what they time: in the first and third every event is in
    order and is published and popped again ([feed_hot_path_publishes_all],
    [latency_stages_publish_all]), in the fourth both decoders read every
    message ([decoders_agree]), while the first workload of the sweep numbers
    its events across the venues instead of per venue, so that a single event
    is ever in order ([sweep_publishes_one]).

    Clocks, percentiles, pinning and reports are not modelled. *)

From S2P Require Import Prelude Wire Types SequenceTracker Itch Floats OrderTable Levels OrderBook Nbbo Intrusive Features Spsc.

#[local] Open Scope list_scope.
#[local] Open Scope Z_scope.

(** ** Popping until the ring is empty *)

(** [while (ring->try_pop(sink)) {}], with what is popped. *)
Fixpoint drain_ring {T} (k : nat) (fuel : nat) (r : SPSCRingBuffer (T := T)) : option (list T * SPSCRingBuffer (T := T)) :=
  match fuel with
  | O => None
  | S fuel =>
      match try_pop k r with
      | (None, r) => Some ([], r)
      | (Some x, r) => '(xs, r) ← drain_ring k fuel r; Some (x :: xs, r)
      end
  end.

(** One item pushed and popped again. *)
Lemma push_drain {T} k (r : SPSCRingBuffer (T := T)) x : (0 < k)%nat -> holds k r [] ->
  exists r1 r2, try_push k x r = (true, r1) /\ drain_ring k (S (length (buffer_ r1))) r1 = Some ([x], r2) /\ holds k r2 [].
Proof.
  intros Hk Hr. pose proof (try_push_holds k r [] x Hr) as Hp. destruct (try_push k x r) as [ok r1]. destruct Hp as [Hok Hr1].
  assert (ok = true) as ->.
  { rewrite Hok. cbn [length]. apply Z.ltb_lt. unfold ring_size. pose proof (Z.pow_le_mono_r 2 1 (Z.of_nat k)). lia. }
  cbn [app] in Hr1. pose proof (try_pop_holds k r1 [x] Hr1) as H1. destruct (try_pop k r1) as [y r2] eqn:E1. destruct H1 as [-> Hr2]. cbn [head tail] in *.
  pose proof (try_pop_holds k r2 [] Hr2) as H2. destruct (try_pop k r2) as [y r3] eqn:E2. destruct H2 as [-> Hr3]. cbn [tail] in Hr3.
  exists r1, r3. split; [done|]. split; [|done]. pose proof (ho_slots _ _ _ Hr1). pose proof (ring_size_pos k).
  destruct (length (buffer_ r1)) as [|fuel]; [lia|]. cbn [drain_ring]. rewrite E1, E2. done.
Qed.

Lemma drain_empty {T} k fuel (r : SPSCRingBuffer (T := T)) : holds k r [] -> exists r', drain_ring k (S fuel) r = Some ([], r') /\ holds k r' [].
Proof.
  intros Hr. pose proof (try_pop_holds k r [] Hr) as H1. cbn [drain_ring]. destruct (try_pop k r) as [y r2]. destruct H1 as [-> Hr2]. by exists r2.
Qed.

(** ** In-order numbers *)

Definition bench_venue (i : Z) : Venue := default Nasdaq (venue_of_u8 (i mod 3)).

Lemma bench_venue_u8 i : venue_u8 (bench_venue i) = i mod 3.
Proof.
  pose proof (Z.mod_pos_bound i 3 ltac:(lia)). unfold bench_venue. set (r := i mod 3) in *.
  assert (r = 0 \/ r = 1 \/ r = 2) as [->|[->| ->]] by lia; done.
Qed.

(** A tracker that waits for [n] and holds nothing. *)
Definition waits_for (gap : Z) (slots : nat) (n : Z) : SequenceTracker := mkTracker n gap (replicate slots 0).

Lemma hot_in_order_step gap slots n : 1 <= n -> n + 1 < 2 ^ 64 -> (0 < slots)%nat ->
  exists u, tracker_on_sequence (waits_for gap slots n) n = (waits_for gap slots (n + 1), u) /\ upd_status u = InOrder.
Proof.
  intros H1 H2 Hs. unfold tracker_on_sequence, waits_for. cbn [next_expected gap_window buffered_tags]. replace (n =? 0) with false by lia.
  rewrite Z.ltb_irrefl, Z.eqb_refl. rewrite (u64_small (n + 1)) by (unfold is_u; lia). cbn [pop_loop]. unfold pop_buffered at 1.
  rewrite decide_False; [by eexists|]. intros E. rewrite lookup_replicate in E. destruct E as [E _]. lia.
Qed.

(** A number that is not the next one changes neither the next one nor is it in
    order. *)
Lemma not_next_step t seq : seq <> next_expected t ->
  next_expected (tracker_on_sequence t seq).1 = next_expected t /\ upd_status (tracker_on_sequence t seq).2 <> InOrder.
Proof.
  intros Hs. unfold tracker_on_sequence. destruct (seq =? 0); [done|]. destruct (seq <? next_expected t); [done|].
  destruct (Z.eqb_spec seq (next_expected t)); [done|]. cbv zeta. by destruct (gap_window t <? _).
Qed.

(** The three venues have seen the first [i] events in turn. *)
Definition venues_at (gap : Z) (slots : nat) (i : Z) (m : MultiVenueSequenceTracker) : Prop :=
  forall v, venue_u8 v < 3 -> m.[v] = waits_for gap slots ((i + 2 - venue_u8 v) / 3 + 1).

Lemma venues_at_init gap : venues_at gap (Z.to_nat (Z.max kMinRingSlots (gap +64 1))) 0 (multi_init gap).
Proof.
  intros v Hv. unfold multi_init. rewrite pv_get_const. unfold tracker_init, waits_for. f_equal.
  pose proof (venue_u8_range v). rewrite Z.div_small by lia. done.
Qed.

Lemma venues_at_step gap slots i m : 0 <= i -> i / 3 + 2 < 2 ^ 64 -> (0 < slots)%nat -> venues_at gap slots i m ->
  let '(m', u) := multi_on_sequence m (bench_venue i) (i / 3 + 1) in upd_status u = InOrder /\ venues_at gap slots (i + 1) m'.
Proof.
  intros Hi Hmax Hs Hm. unfold multi_on_sequence. pose proof (bench_venue_u8 i) as Hv. pose proof (Z.mod_pos_bound i 3 ltac:(lia)) as Hr.
  rewrite Hm by lia. rewrite Hv. pose proof (Z.div_mod i 3 ltac:(lia)) as Hd. pose proof (Z.div_pos i 3 ltac:(lia) ltac:(lia)) as Hp.
  assert ((i + 2 - i mod 3) / 3 = i / 3) as -> by (symmetry; apply (Z.div_unique _ 3 _ 2); lia).
  destruct (hot_in_order_step gap slots (i / 3 + 1)) as (u & -> & Hu); [lia|lia|done|]. split; [done|]. intros v Hv3. rewrite pv_get_set_dec.
  case_decide as E.
  - subst v. rewrite Hv. f_equal. assert ((i + 1 + 2 - i mod 3) / 3 = i / 3 + 1) as ->; [|lia]. symmetry. apply (Z.div_unique _ 3 _ 0); lia.
  - rewrite Hm by done. do 2 f_equal. assert (venue_u8 v <> i mod 3) as Hne.
    { rewrite <-Hv. intros E'%venue_u8_inj. by apply E. }
    pose proof (venue_u8_range v). set (w := venue_u8 v) in *. rewrite Hd at 1 2. set (q := i / 3) in *. set (r := i mod 3) in *.
    destruct (decide (r < w)).
    + transitivity q; [symmetry; apply (Z.div_unique _ 3 _ (r + 2 - w)); lia|apply (Z.div_unique _ 3 _ (r + 3 - w)); lia].
    + transitivity (q + 1); [symmetry; apply (Z.div_unique _ 3 _ (r - 1 - w)); lia|apply (Z.div_unique _ 3 _ (r - w)); lia].
Qed.

(** ** [feed_hot_path_bench] *)

Definition aapl_symbol : SymbolKey := chars "AAPL    ".

Definition hot_event (i : Z) : BookEvent :=
  let ts := u64 (1000000000 + u64 (i * 100)) in
  event_default |> set_venue (bench_venue i) |> set_sequence (i / 3 + 1) |> set_exchange_ts ts |> set_ingest_ts (ts +64 10)
    |> set_symbol aapl_symbol |> set_order_id (i +64 1) |> set_type Add |> set_side (if Z.land i 1 =? 0 then Buy else Sell)
    |> set_price (10000 + Z.land i 31) |> set_qty (100 + Z.land i 15) |> set_raw_type (ch "A").

Record HotState := mkHot {
  hs_seq : MultiVenueSequenceTracker; hs_ring : SPSCRingBuffer (T := BookEvent); hs_published : Z; hs_dropped : Z; hs_sunk : list BookEvent;
}.

Section hot.
Context (k : nat).

(** One turn of either loop; the first does not count. *)
Definition hot_step (make : Z -> BookEvent) (measured : bool) (st : HotState) (i : Z) : option HotState :=
  let ev := make i in
  let '(seqs, u) := multi_on_sequence (hs_seq st) (venue ev) (sequence ev) in
  let '(ok, ring) := if decide (upd_status u = InOrder) then try_push k ev (hs_ring st) else (false, hs_ring st) in
  '(sunk, ring) ← drain_ring k (S (length (buffer_ ring))) ring;
  let published := if measured && ok then hs_published st +64 1 else hs_published st in
  let dropped := if measured && negb ok then hs_dropped st +64 1 else hs_dropped st in
  Some (mkHot seqs ring published dropped (hs_sunk st ++ sunk)).

Fixpoint hot_loop (make : Z -> BookEvent) (measured : bool) (st : HotState) (ixs : list Z) : option HotState :=
  match ixs with
  | [] => Some st
  | i :: ixs => st ← hot_step make measured st i; hot_loop make measured st ixs
  end.

Definition hot_init (gap : Z) (storage : list BookEvent) : HotState := mkHot (multi_init gap) (ring_init k storage None 0) 0 0 [].

Definition feed_hot_path (storage : list BookEvent) (warmup events : nat) : option HotState :=
  st ← hot_loop hot_event false (hot_init 256 storage) (seqZ 0 (Z.of_nat warmup));
  hot_loop hot_event true st (map (Z.add (Z.of_nat warmup)) (seqZ 0 (Z.of_nat events))).

(** ** [bench_sweep], first workload *)

(** The sequence number is the position in the stream of all venues; the time
    of receipt is left out. *)
Definition sweep_event (i : Z) : BookEvent :=
  event_default |> set_venue (bench_venue i) |> set_type Add |> set_sequence (i +64 1) |> set_exchange_ts (i +64 1)
    |> set_order_id (i +64 11) |> set_qty 100 |> set_price (10000 + Z.land i 63) |> set_side (if Z.land i 1 =? 0 then Sell else Buy)
    |> set_symbol aapl_symbol.

Definition sweep_b1 (storage : list BookEvent) (events : nat) : option HotState :=
  hot_loop sweep_event false (hot_init 256 storage) (seqZ 0 (Z.of_nat events)).

(** ** What they time *)

Lemma hot_step_in_order make measured st i gap slots : (0 < k)%nat -> holds k (hs_ring st) [] ->
  0 <= i -> i / 3 + 2 < 2 ^ 64 -> (0 < slots)%nat -> venues_at gap slots i (hs_seq st) ->
  venue (make i) = bench_venue i -> sequence (make i) = i / 3 + 1 ->
  exists st', hot_step make measured st i = Some st' /\ holds k (hs_ring st') [] /\ venues_at gap slots (i + 1) (hs_seq st') /\
    hs_sunk st' = hs_sunk st ++ [make i] /\ hs_published st' = (if measured then hs_published st +64 1 else hs_published st) /\ hs_dropped st' = hs_dropped st.
Proof.
  intros Hk Hr Hi Hmax Hs Hm Ev Es. unfold hot_step. rewrite Ev, Es. pose proof (venues_at_step gap slots i (hs_seq st) Hi Hmax Hs Hm) as Hst.
  destruct (multi_on_sequence _ _ _) as [m' u]. destruct Hst as [Hu Hm']. rewrite decide_True by done.
  destruct (push_drain k (hs_ring st) (make i) Hk Hr) as (r1 & r2 & -> & E2 & Hr2). rewrite E2. cbn [mbind option_bind negb]. eexists. split; [done|]. cbn [hs_ring hs_seq hs_sunk hs_published hs_dropped].
  by destruct measured.
Qed.

Lemma hot_loop_in_order make measured gap slots n : (0 < k)%nat -> (0 < slots)%nat ->
  (forall i, venue (make i) = bench_venue i) -> (forall i, sequence (make i) = i / 3 + 1) -> forall a st,
  holds k (hs_ring st) [] -> 0 <= a -> a + Z.of_nat n < 2 ^ 64 -> venues_at gap slots a (hs_seq st) -> 0 <= hs_published st -> hs_published st + Z.of_nat n < 2 ^ 64 ->
  exists st', hot_loop make measured st (seqZ a (Z.of_nat n)) = Some st' /\ holds k (hs_ring st') [] /\ venues_at gap slots (a + Z.of_nat n) (hs_seq st') /\
    hs_sunk st' = hs_sunk st ++ map make (seqZ a (Z.of_nat n)) /\ hs_published st' = (if measured then hs_published st + Z.of_nat n else hs_published st) /\ hs_dropped st' = hs_dropped st.
Proof.
  intros Hk Hs Hv Hq. induction n as [|n IH]; intros a st Hr Ha Hmax Hm Hp0 Hp.
  { exists st. cbn. rewrite app_nil_r, !Z.add_0_r. split_and!; try done. by destruct measured. }
  rewrite seqZ_cons by lia. replace (Z.pred (Z.of_nat (S n))) with (Z.of_nat n) by lia. cbn [hot_loop map].
  assert (a / 3 + 2 < 2 ^ 64) as Hdiv by (pose proof (Z.div_lt_upper_bound a 3 (2 ^ 63)); lia).
  destruct (hot_step_in_order make measured st a gap slots Hk Hr Ha Hdiv Hs Hm (Hv a) (Hq a)) as (st1 & -> & Hr1 & Hm1 & Hs1 & Hp1 & Hd1). cbn [mbind option_bind].
  assert (hs_published st1 = if measured then hs_published st + 1 else hs_published st) as Hp1'.
  { rewrite Hp1. destruct measured; [|done]. apply u64_small. unfold is_u. lia. }
  destruct (IH (Z.succ a) st1 Hr1 ltac:(lia) ltac:(lia) Hm1) as (st' & Hst & Hr' & Hm' & Hs' & Hp' & Hd');
    [rewrite Hp1'; destruct measured; lia|rewrite Hp1'; destruct measured; lia|].
  exists st'. split; [exact Hst|]. split; [done|]. split; [by replace (a + Z.of_nat (S n)) with (Z.succ a + Z.of_nat n) by lia|].
  split; [by rewrite Hs', Hs1, <-app_assoc|]. split; [rewrite Hp', Hp1'; destruct measured; lia|by rewrite Hd'].
Qed.
End hot.

(** Every event of the benchmark is in order, is pushed and is popped again,
    and none is dropped. *)
Theorem feed_hot_path_publishes_all k storage warmup events : (0 < k)%nat -> Z.of_nat (length storage) = ring_size k ->
  Z.of_nat warmup + Z.of_nat events < 2 ^ 64 ->
  exists st, feed_hot_path k storage warmup events = Some st /\ hs_published st = Z.of_nat events /\ hs_dropped st = 0 /\
    hs_sunk st = map hot_event (seqZ 0 (Z.of_nat warmup + Z.of_nat events)).
Proof.
  intros Hk Hst Hmax. unfold feed_hot_path.
  assert (holds k (hs_ring (hot_init k 256 storage)) []) as Hr by (by apply ring_init_holds).
  pose proof (venues_at_init 256) as Hv. set (slots := Z.to_nat (Z.max kMinRingSlots (256 +64 1))) in *. assert (0 < slots)%nat as Hs by (by vm_compute; lia).
  destruct (hot_loop_in_order k hot_event false 256 slots warmup Hk Hs (fun _ => eq_refl) (fun _ => eq_refl) 0 (hot_init k 256 storage) Hr)
    as (st1 & -> & Hr1 & Hv1 & Hs1 & Hp1 & Hd1); [lia|lia|exact Hv|cbn; lia|cbn; lia|]. cbn [mbind option_bind].
  assert (map (Z.add (Z.of_nat warmup)) (seqZ 0 (Z.of_nat events)) = seqZ (Z.of_nat warmup) (Z.of_nat events)) as ->
    by (rewrite <-(Z.add_0_r (Z.of_nat warmup)) at 2; apply fmap_add_seqZ).
  destruct (hot_loop_in_order k hot_event true 256 slots events Hk Hs (fun _ => eq_refl) (fun _ => eq_refl) (Z.of_nat warmup) st1 Hr1)
    as (st2 & -> & Hr2 & Hv2 & Hs2 & Hp2 & Hd2); [lia|lia|exact Hv1|rewrite Hp1; cbn; lia|rewrite Hp1; cbn; lia|].
  exists st2. split; [done|]. split; [by rewrite Hp2, Hp1|]. split; [by rewrite Hd2, Hd1|].
  rewrite Hs2, Hs1. cbn [hot_init hs_sunk app]. by rewrite <-map_app, <-seqZ_app by lia.
Qed.

Lemma feed_hot_path_witness : exists st, feed_hot_path 2 (repeat event_default 4) 4 7 = Some st /\ hs_published st = 7 /\ hs_dropped st = 0.
Proof.
  destruct (feed_hot_path_publishes_all 2 (repeat event_default 4) 4 7) as (st & Hst & Hp & Hd & _); [lia|reflexivity|reflexivity|].
  exists st. by split_and!.
Defined.

(** An event out of order leaves ring and sink as they are. *)
Lemma hot_step_refused k make st i : (0 < k)%nat -> holds k (hs_ring st) [] -> sequence (make i) <> next_expected ((hs_seq st).[venue (make i)]) ->
  exists st', hot_step k make false st i = Some st' /\ holds k (hs_ring st') [] /\ hs_sunk st' = hs_sunk st /\
    forall v, next_expected ((hs_seq st').[v]) = next_expected ((hs_seq st).[v]).
Proof.
  intros Hk Hr Hne. unfold hot_step, multi_on_sequence. destruct (not_next_step _ _ Hne) as [Hn Hu].
  destruct (tracker_on_sequence _ _) as [t u]. cbn [fst snd] in *. rewrite decide_False by done.
  destruct (drain_empty k (length (buffer_ (hs_ring st))) (hs_ring st) Hr) as (r & -> & Hr'). cbn [mbind option_bind andb].
  eexists. split; [done|]. cbn [hs_ring hs_sunk hs_seq]. split; [done|]. split; [by rewrite app_nil_r|]. intros v. rewrite pv_get_set_dec. case_decide; [by subst v|done].
Qed.

Lemma sweep_loop k n : forall a st, (0 < k)%nat -> holds k (hs_ring st) [] -> 1 <= a -> a + Z.of_nat n < 2 ^ 64 ->
  (forall v, venue_u8 v < 3 -> next_expected ((hs_seq st).[v]) = (3 - venue_u8 v) / 3 + 1) ->
  exists st', hot_loop k sweep_event false st (seqZ a (Z.of_nat n)) = Some st' /\ hs_sunk st' = hs_sunk st.
Proof.
  induction n as [|n IH]; intros a st Hk Hr Ha Hmax Hn; [by exists st|].
  rewrite seqZ_cons by lia. replace (Z.pred (Z.of_nat (S n))) with (Z.of_nat n) by lia. cbn [hot_loop].
  destruct (hot_step_refused k sweep_event st a Hk Hr) as (st1 & -> & Hr1 & Hs1 & Hn1).
  { change (venue (sweep_event a)) with (bench_venue a). change (sequence (sweep_event a)) with (a +64 1).
    rewrite u64_small by (unfold is_u; lia). pose proof (bench_venue_u8 a) as Hv. pose proof (Z.mod_pos_bound a 3 ltac:(lia)). rewrite Hn by lia. rewrite Hv.
    pose proof (Z.div_mod a 3 ltac:(lia)). set (r := a mod 3) in *. set (q := a / 3) in *. clearbody r q.
    assert (r = 0 \/ r = 1 \/ r = 2) as [->|[->| ->]] by lia;
      [change ((3 - 0) / 3) with 1|change ((3 - 1) / 3) with 0|change ((3 - 2) / 3) with 0]; lia. }
  cbn [mbind option_bind]. destruct (IH (Z.succ a) st1 Hk Hr1 ltac:(lia) ltac:(lia)) as (st' & Hst & Hs'); [intros v Hv; by rewrite Hn1, Hn|].
  exists st'. split; [exact Hst|]. by rewrite Hs'.
Qed.

(** However many events the first workload of the sweep has, only the first is
    in order: nothing else ever goes through the ring. *)
Theorem sweep_publishes_one k storage n : (0 < k)%nat -> Z.of_nat (length storage) = ring_size k -> Z.of_nat (S n) < 2 ^ 63 ->
  exists st, sweep_b1 k storage (S n) = Some st /\ hs_sunk st = [sweep_event 0].
Proof.
  intros Hk Hst Hmax. unfold sweep_b1. rewrite seqZ_cons by lia. replace (Z.pred (Z.of_nat (S n))) with (Z.of_nat n) by lia. cbn [hot_loop].
  assert (holds k (hs_ring (hot_init k 256 storage)) []) as Hr by (by apply ring_init_holds).
  pose proof (venues_at_init 256) as Hv. set (slots := Z.to_nat (Z.max kMinRingSlots (256 +64 1))) in *. assert (0 < slots)%nat as Hs by (by vm_compute; lia).
  destruct (hot_step_in_order k sweep_event false (hot_init k 256 storage) 0 256 slots Hk Hr) as (st1 & -> & Hr1 & Hm1 & Hs1 & _); [lia|done|done|exact Hv|done|done|].
  cbn [mbind option_bind]. destruct (sweep_loop k n (Z.succ 0) st1 Hk Hr1) as (st' & Hst' & Hs'); [lia|lia| |].
  - intros v Hv3. rewrite Hm1 by done. cbn [waits_for next_expected]. done.
  - exists st'. split; [exact Hst'|]. by rewrite Hs', Hs1.
Qed.

Lemma sweep_publishes_one_witness : exists st, sweep_b1 2 (repeat event_default 4) 30 = Some st /\ length (hs_sunk st) = 1%nat.
Proof. destruct (sweep_publishes_one 2 (repeat event_default 4) 29) as (st & Hst & Hs); [lia|reflexivity|reflexivity|]. exists st. split; [exact Hst|]. by rewrite Hs. Defined.

(** ** [latency_stage_bench] *)

Definition make_itch_add (i : Z) : list Z :=
  [ch "A"] ++ be 6 (u64 (1000000000 + u64 (i * 100))) ++ [0; 0; 0; 0] ++ be 8 (i +64 1) ++ [if Z.land i 1 =? 0 then ch "B" else ch "S"] ++
  be 4 (100 + Z.land i 15) ++ aapl_symbol ++ be 4 (10000 + Z.land i 31).

Record Stages := mkStages {
  sg_parse : ParseStats; sg_seq : MultiVenueSequenceTracker; sg_book : IntrusiveOrderBook; sg_nbbo : NbboConsolidator;
  sg_ring : SPSCRingBuffer (T := FeatureVector); sg_decoded : Z; sg_published : Z; sg_popped : list FeatureVector;
}.

Section stages.
Context (k : nat) (tsc : Z -> Z).

Definition stage_step (st : Stages) (i : Z) : option Stages :=
  let '(ev, parse) := itch_parse_message (make_itch_add i) (i / 3 + 1) (tsc i) (sg_parse st) in
  match ev with
  | None => Some (mkStages parse (sg_seq st) (sg_book st) (sg_nbbo st) (sg_ring st) (sg_decoded st) (sg_published st) (sg_popped st))
  | Some ev =>
      let ev := ev |> set_venue (bench_venue i) |> set_sequence (i / 3 + 1) in
      let decoded := sg_decoded st +64 1 in
      let '(seqs, u) := multi_on_sequence (sg_seq st) (venue ev) (sequence ev) in
      if decide (upd_status u = InOrder) then
        let '(book, apply) := intrusive_on_event (sg_book st) ev in
        let top := Intrusive.top_after apply in
        let '(_, nbbo) := nbbo_update (sg_nbbo st) (as_u64 (symbol ev)) (venue ev) top 0 in
        let fv := mkFeature (as_u64 (symbol ev)) (exchange_ts_ns ev) (ingest_ts_ns ev) (bid_price top) (bid_qty top) (ask_price top) (ask_qty top)
                    dzero dzero dzero dzero dzero dzero in
        let '(ok, ring) := try_push k fv (sg_ring st) in
        '(popped, ring) ← drain_ring k (S (length (buffer_ ring))) ring;
        Some (mkStages parse seqs book nbbo ring decoded (if ok then sg_published st +64 1 else sg_published st) (sg_popped st ++ popped))
      else Some (mkStages parse seqs (sg_book st) (sg_nbbo st) (sg_ring st) decoded (sg_published st) (sg_popped st))
  end.

Fixpoint stage_loop (st : Stages) (ixs : list Z) : option Stages :=
  match ixs with
  | [] => Some st
  | i :: ixs => st ← stage_step st i; stage_loop st ixs
  end.

Definition latency_stages (order_capacity : nat) (storage : list FeatureVector) (total : nat) : option Stages :=
  stage_loop (mkStages parse_stats_init (multi_init 256) (intrusive_init order_capacity) consolidator_init (ring_init k storage None 0) 0 0 [])
    (seqZ 0 (Z.of_nat total)).

Lemma itch_add_parsed p seq ingest stats : length p = 35%nat -> exists ev stats', itch_parse_message (ch "A" :: p) seq ingest stats = (Some ev, stats').
Proof. intros Hp. cbn [itch_parse_message]. cbv zeta. change (ch "A" =? ch "A") with true. cbn iota. cbn [length]. rewrite Hp. by do 2 eexists. Qed.

Lemma stage_loop_all gap slots n : (0 < k)%nat -> (0 < slots)%nat -> forall a st, holds k (sg_ring st) [] -> 0 <= a -> a + Z.of_nat n < 2 ^ 64 ->
  venues_at gap slots a (sg_seq st) -> sg_decoded st = a -> sg_published st = a -> Z.of_nat (length (sg_popped st)) = a ->
  exists st', stage_loop st (seqZ a (Z.of_nat n)) = Some st' /\ sg_decoded st' = a + Z.of_nat n /\ sg_published st' = a + Z.of_nat n /\
    Z.of_nat (length (sg_popped st')) = a + Z.of_nat n.
Proof.
  intros Hk Hs. induction n as [|n IH]; intros a st Hr Ha Hmax Hm Hd Hp Hl.
  { exists st. cbn. rewrite Z.add_0_r. by split_and!. }
  rewrite seqZ_cons by lia. replace (Z.pred (Z.of_nat (S n))) with (Z.of_nat n) by lia. cbn [stage_loop]. unfold stage_step.
  assert (a / 3 + 2 < 2 ^ 64) as Hdiv by (pose proof (Z.div_lt_upper_bound a 3 (2 ^ 63)); lia).
  unfold make_itch_add. cbn [app].
  match goal with |- context [itch_parse_message (ch "A" :: ?p) ?s ?t ?x] => destruct (itch_add_parsed p s t x) as (ev & ps & ->) end.
  { rewrite !length_app, !length_be. cbn [length]. rewrite !length_app, !length_be. cbn [length]. rewrite ?length_app, ?length_be. reflexivity. }
  cbv zeta. change (venue (set_sequence _ (set_venue ?v ev))) with v. change (sequence (set_sequence ?q _)) with q.
  pose proof (venues_at_step gap slots a (sg_seq st) Ha Hdiv Hs Hm) as Hst. destruct (multi_on_sequence _ _ _) as [m' u]. destruct Hst as [Hu Hm'].
  rewrite decide_True by done. destruct (intrusive_on_event _ _) as [book apply]. destruct (nbbo_update _ _ _ _ _) as [? nbbo].
  match goal with |- context [try_push k ?x (sg_ring st)] => set (fv := x) end.
  destruct (push_drain k (sg_ring st) fv Hk Hr) as (r1 & r2 & -> & E2 & Hr2). rewrite E2. cbn [mbind option_bind]. rewrite Hd, Hp, (u64_small (a + 1)) by (unfold is_u; lia).
  match goal with |- context [stage_loop ?s _] => destruct (IH (Z.succ a) s) as (st' & Hst' & H1 & H2 & H3) end;
    cbn [sg_ring sg_seq sg_decoded sg_published sg_popped]; try done; try lia.
  { rewrite length_app. cbn. lia. }
  exists st'. split; [exact Hst'|]. lia.
Qed.
End stages.

(** Every message of the latency benchmark is decoded, is in order, and its
    feature vector is published and popped again; what the book makes of it
    does not matter. *)
Theorem latency_stages_publish_all k tsc cap storage total : (0 < k)%nat -> Z.of_nat (length storage) = ring_size k -> Z.of_nat total < 2 ^ 64 ->
  exists st, latency_stages k tsc cap storage total = Some st /\ sg_decoded st = Z.of_nat total /\ sg_published st = Z.of_nat total /\
    length (sg_popped st) = total.
Proof.
  intros Hk Hst Hmax. unfold latency_stages.
  destruct (stage_loop_all k tsc 256 (Z.to_nat (Z.max kMinRingSlots (256 +64 1))) total Hk ltac:(vm_compute; lia) 0
    (mkStages parse_stats_init (multi_init 256) (intrusive_init cap) consolidator_init (ring_init k storage None 0) 0 0 []))
    as (st & -> & H1 & H2 & H3); [by apply ring_init_holds|lia|lia|apply venues_at_init|done..|]. exists st. split_and!; try done. lia.
Qed.

Lemma latency_stages_witness : exists st, latency_stages 2 (fun _ => 7) 2 (repeat (mkFeature 0 0 0 0 0 0 0 dzero dzero dzero dzero dzero dzero) 4) 5 = Some st /\
  sg_published st = 5.
Proof.
  destruct (latency_stages_publish_all 2 (fun _ => 7) 2 (repeat (mkFeature 0 0 0 0 0 0 0 dzero dzero dzero dzero dzero dzero) 4) 5)
    as (st & Hst & _ & Hp & _); [lia|reflexivity|reflexivity|]. exists st. split; [exact Hst|exact Hp].
Defined.

(** The time stamp is written over the locate and tracking numbers: what the
    parser reads as the time is its last two bytes, shifted by four. *)
Example stage_time_misplaced :
  exchange_ts_ns <$> (itch_parse_message (make_itch_add 5) 2 0 parse_stats_init).1 = Some (((1000000000 + 500) mod 2 ^ 16) * 2 ^ 32).
Proof. vm_compute. reflexivity. Qed.

(** ** [decoder_simd_bench] *)

Definition bench_message (i : Z) : ItchHeader * ItchMessage :=
  let ref := 10000 +64 i in
  match Z.land i 3 with
  | 0 => (mkItchHeader 0 0 (1000000 +64 i), ItchAdd ref (if Z.land i 4 =? 0 then Buy else Sell) (100 + Z.land i 15) aapl_symbol (99000 + Z.land i 31))
  | 1 => (mkItchHeader 0 0 (2000000 +64 i), ItchExecute ref (20 + Z.land i 7) (70000 +64 i))
  | 2 => (mkItchHeader 0 0 (3000000 +64 i), ItchCancel ref (10 + Z.land i 7))
  | _ => (mkItchHeader 0 0 (4000000 +64 i), ItchDelete ref)
  end.

(** Two zero bytes each of locate and tracking numbers, then the fields. *)
Definition make_payload (i : Z) : list Z :=
  let ref := be 8 (10000 +64 i) in
  match Z.land i 3 with
  | 0 => [ch "A"; 0; 0; 0; 0] ++ be 6 (1000000 +64 i) ++ ref ++ [if Z.land i 4 =? 0 then ch "B" else ch "S"] ++ be 4 (100 + Z.land i 15) ++
         aapl_symbol ++ be 4 (99000 + Z.land i 31)
  | 1 => [ch "E"; 0; 0; 0; 0] ++ be 6 (2000000 +64 i) ++ ref ++ be 4 (20 + Z.land i 7) ++ be 8 (70000 +64 i)
  | 2 => [ch "X"; 0; 0; 0; 0] ++ be 6 (3000000 +64 i) ++ ref ++ be 4 (10 + Z.land i 7)
  | _ => [ch "D"; 0; 0; 0; 0] ++ be 6 (4000000 +64 i) ++ ref
  end.

(** [run_decode]: the events read, in place of their count. *)
Fixpoint run_decode (fn : list Z -> Z -> Z -> ParseStats -> option BookEvent * ParseStats) (payloads : list (list Z)) (i : Z) (stats : ParseStats)
    : list (option BookEvent) * ParseStats :=
  match payloads with
  | [] => ([], stats)
  | p :: payloads =>
      let '(ev, stats) := fn p (i +64 1) (i +64 99) stats in
      let '(evs, stats) := run_decode fn payloads (i + 1) stats in (ev :: evs, stats)
  end.

Definition bench_payloads (n : nat) : list (list Z) := map make_payload (seqZ 0 (Z.of_nat n)).

Lemma payload_encoded i : make_payload i = encode_itch (bench_message i).1 (bench_message i).2.
Proof.
  assert (be 2 0 = [0; 0]) as E by reflexivity. unfold make_payload, bench_message. generalize (Z.land i 4 =? 0). intros b.
  generalize (1000000 +64 i) (2000000 +64 i) (3000000 +64 i) (4000000 +64 i) (10000 +64 i) (70000 +64 i). intros a1 a2 a3 a4 a5 a6.
  destruct (Z.land i 3) as [|[p|[p|p|]|]|]; unfold encode_itch; cbn [fst snd itch_type itch_body h_locate h_tracking h_timestamp]; rewrite !E; cbn [app];
    try reflexivity.
  destruct b; reflexivity.
Qed.

Lemma land_ones_small i (m : Z) : 0 <= m <= 16 -> is_u 16 (Z.land i (Z.ones m)).
Proof.
  intros Hm. rewrite Z.land_ones by lia. unfold is_u. pose proof (Z.mod_pos_bound i (2 ^ m) ltac:(lia)).
  pose proof (Z.pow_le_mono_r 2 m 16). lia.
Qed.

Lemma bench_message_ok i : 0 <= i < 2 ^ 40 -> is_u 48 (h_timestamp (bench_message i).1) /\ itch_message_ok (bench_message i).2.
Proof.
  intros Hi. pose proof (land_ones_small i 3 ltac:(lia)) as H7. pose proof (land_ones_small i 4 ltac:(lia)) as H15.
  pose proof (land_ones_small i 5 ltac:(lia)) as H31.
  change (Z.ones 3) with 7 in *. change (Z.ones 4) with 15 in *. change (Z.ones 5) with 31 in *.
  assert (forall c, 0 <= c < 2 ^ 40 -> c +64 i = c + i) as E by (intros c Hc; apply u64_small; unfold is_u; lia).
  unfold bench_message. rewrite !E by lia. unfold is_u in *. destruct (Z.land i 3) as [|[p|[p|p|]|]|]; cbn [fst snd h_timestamp itch_message_ok]; unfold is_u;
    split_and!; try lia; reflexivity.
Qed.

Lemma run_decode_all n : forall a stats, 0 <= a -> a + Z.of_nat n < 2 ^ 40 ->
  (run_decode itch_parse_message (map make_payload (seqZ a (Z.of_nat n))) a stats).1 =
  map (fun i => Some (itch_event (bench_message i).1 (bench_message i).2 (i + 1) (i + 99))) (seqZ a (Z.of_nat n)).
Proof.
  induction n as [|n IH]; intros a stats Ha Hmax; [done|].
  rewrite seqZ_cons by lia. replace (Z.pred (Z.of_nat (S n))) with (Z.of_nat n) by lia. cbn [map run_decode].
  destruct (bench_message_ok a ltac:(lia)) as [Hts Hok]. rewrite payload_encoded, <-(app_nil_r (encode_itch _ _)), itch_parse_encode by done.
  rewrite !u64_small by (unfold is_u; lia). specialize (IH (Z.succ a) (count_type (itch_type (bench_message a).2) stats) ltac:(lia) ltac:(lia)).
  change (a + 1) with (Z.succ a). cbn [map]. rewrite <-IH. by destruct (run_decode _ _ (Z.succ a) _).
Qed.

Lemma run_decode_ext f g payloads : (forall p s t x, f p s t x = g p s t x) -> forall i stats, run_decode f payloads i stats = run_decode g payloads i stats.
Proof. intros H. induction payloads as [|p ps IH]; intros i stats; cbn [run_decode]; [done|]. rewrite H. destruct (g _ _ _ _). by rewrite IH. Qed.

(** The scalar and the vector decoder read every message of the benchmark, and
    read the same: the orders that were written. *)
Theorem decoders_agree n stats : Z.of_nat n < 2 ^ 40 ->
  run_decode parse_hot_message_simd (bench_payloads n) 0 stats = run_decode itch_parse_message (bench_payloads n) 0 stats /\
  (run_decode itch_parse_message (bench_payloads n) 0 stats).1 =
    map (fun i => Some (itch_event (bench_message i).1 (bench_message i).2 (i + 1) (i + 99))) (seqZ 0 (Z.of_nat n)).
Proof.
  intros Hn. split; [apply run_decode_ext; intros; apply hot_path_equivalent|]. by apply run_decode_all.
Qed.

Lemma decoders_agree_witness : (run_decode itch_parse_message (bench_payloads 8) 0 parse_stats_init).1 =
    map (fun i => Some (itch_event (bench_message i).1 (bench_message i).2 (i + 1) (i + 99))) (seqZ 0 8).
Proof. apply (decoders_agree 8 parse_stats_init). reflexivity. Defined.
